(* ===== verification/_CoqProject ===== *)
-Q . S2P
Prelude.v
RingSpec.v
RingBuffer.v
RingBufferKnc.v
Ports.v
PortsIda.v
PortBits.v
Endpoint.v
EndpointInv.v
ScifStream.v
ScifUser.v
NodeQp.v
NodeNet.v
RmaList.v
DmaWindow.v
ScifDma.v
ScifDmaInv.v
ScifDmaTemp.v
ScifRma.v
ScifRmaInv.v
ScifRmaTemp.v
ScifReg.v
ScifRegList.v
ScifRegInv.v
ScifRegStep.v
ScifRegRecv.v
ScifRegCall.v
ScifRegSafe.v
ScifRegUse.v
ScifRegHeld.v
VaNode.v
VaGen.v
AddrTable.v
Alut.v
Smpt.v
DmaX200.v
DmaX200Inv.v
DmaX200Sys.v
FenceProg.v
ScifFence.v
FenceTask.v
FenceDma.v
FenceLogic.v
FenceWins.v
FenceRules.v
FenceLock.v
FenceMsg.v
FenceWindow.v
FenceSpec.v
FenceSafe.v
FenceErrors.v
VopCopy.v
VopCopyInv.v
VopRequest.v
VopPage.v
VopPageInv.v
VopDevice.v
VopMap.v
Cosm.v
CosmFlow.v
CosmSysfs.v
CosmServer.v
CosmClient.v
