(* ===== verification/Prelude.v ===== *)
(** * Verification of the MPSS kernel drivers

    MPSS is the software stack of the Intel Xeon Phi coprocessors: the drivers a host
    and its cards run to talk to each other over PCIe.  [mpss3] holds the drivers of
    the first generation (KNC, [mpss3/mpss-modules]), [mpss4] those of the second
    (x200, [mpss4/mpss-modules/mic]).  The parts of the drivers and what they do:

    - SCIF, the communication interface.  Endpoints bind port numbers, listen, connect,
      accept and close ([scif_epd.c], [scif_api.c]); the bytes of a connection go
      through a ring buffer in memory both sides map ([scif_rb.c]); port numbers come
      from a reference-counted pool ([scif_ports.c]); registered memory windows are
      kept in sorted lists and checked before remote memory is accessed
      ([scif_rma_list.c]), and copies between them or with memory of the caller are made
      by the DMA engine or the CPU ([scif_dma.c], parts of [scif_rma.c]); in the first
      generation the offsets of windows come from a page allocator
      ([micscif_va_gen.c], [micscif_va_node.c]).  Nodes exchange control messages over
      a queue pair each and learn of each other ([scif_nodeqp.c], [scif_peer_bus.c]).
    - Address tables.  A card reaches host memory through a table of large pages that
      the host driver fills: [mic_alut.c] in the second generation, [micscif_smpt.c] in
      the first.
    - The DMA engine of the x200 card, a ring of descriptors that the driver fills and
      the engine empties ([mic_x200_dma.c]).
    - Virtio devices of a card with their rings on the host: a device page that both sides
      read, and requests of a daemon that copy between its buffers and the memory that the
      card has put into a ring ([vop_host.c], [vop_card.c]).
    - COSM, the management of the state of a card: boot, shutdown and reset commands
      from sysfs, a work item that drives the card from state to state, and a server
      that receives status messages from a client on the card over SCIF ([cosm_main.c],
      [cosm_sysfs.c], [cosm_scif_server.c], [cosm_scif_client.c]).

    ** Files

    - [Prelude]: machine integers, error numbers, shared lemmas and tactics, the hint
      database [mpss].
    - [RingSpec]: shared memory, the byte queue a ring promises ([Spec]), the interface
      [RingImpl] an implementation discharges and the theorem on traces proved against
      it.  [RingBuffer] ([scif_rb.c]) and [RingBufferKnc] ([micscif_rb.c]) model the two
      rings, one definition per function, and are its instances.
    - [Ports], [PortsIda] (the two versions of [scif_ports.c]) and [PortBits]
      ([micscif_ports.c]): port numbers as a map of reference counts, as an ida with a
      linked list, and as a bitmap.
    - [Endpoint]: [struct scif_endpt] in a heap, the lists and counters of [scif_info],
      the handlers of connection messages of [scif_epd.c], the loss of a node ([scif_nm.c]) and the calls of [scif_api.c] from
      [scif_open] to [scif_close]; a call that waits is split where it waits.
      [EndpointInv]: the steps of a node, in any order, and the theorems.
    - [ScifStream]: [scif_send] and [scif_recv] with their loops over the ring of
      [RingBuffer], a sender and a receiver on two nodes.
      [ScifUser]: the calls for user buffers that cut a transfer into chunks, and
      [scif_poll].
    - [NodeQp]: [scif_nodeqp_send] and the interrupt handler over the ring of
      [RingBuffer].  [NodeNet]: the registration of nodes and the mappings between cards.
    - [RmaList]: windows, the two sorted lists, range queries, unregistration and the
      cache of temporary windows.  [DmaWindow]: the DMA addresses of a window and their
      look-up.  [ScifDma]: the copy routines of [scif_dma.c]; [ScifDmaInv], [ScifDmaTemp]:
      they transfer every byte, directly or through a buffer.  [ScifRma]: [scif_rma_copy],
      the four calls on it, temporary windows and pinning; [ScifRmaInv] (registered
      ranges) and [ScifRmaTemp] (memory of the caller): the theorems.
      [ScifReg]: two nodes that register windows with each other by messages, and the calls
      of [scif_mmap.c] that count the pages in use; [ScifRegList], [ScifRegInv],
      [ScifRegStep], [ScifRegRecv], [ScifRegCall]: the stages of a window, the invariant
      and that each handler and call keeps it; [ScifRegSafe]: the theorems.  [ScifRegUse],
      [ScifRegHeld]: the walks over a range and the windows in use.
    - [VaNode]: the node pool of [micscif_va_node.c] and the interface [NodePool].
      [VaGen]: the page allocator of [micscif_va_gen.c] over any [NodePool].
    - [AddrTable]: what the two address tables share, a table of counted entries over an
      interface to its registers.  [Alut] ([mic_alut.c], [mic_hw.c]) and [Smpt]
      ([micscif_smpt.c]) model the two tables over it.
    - [DmaX200]: the DMA channel of [mic_x200_dma.c] and its cookies.  [DmaX200Inv]:
      descriptors, ring and transactions against the history of a run.  [DmaX200Sys]:
      the channel with its engine, in any order, and the theorems.
    - [FenceProg]: a language of threads on two nodes with a DMA channel each, one
      operation at a time, and the states in which they use freed memory.  [ScifFence]:
      [scif_fence.c], the waits for all DMA of [scif_dma.c] and the end of windows in it.
      [FenceTask]: threads that call them, and runs to evaluate.  [FenceLogic]: a separation
      logic (Iris) for these threads; [FenceDma], [FenceWins], [FenceRules], [FenceLock],
      [FenceMsg], [FenceWindow]: its rules, by operation; [FenceSpec]: a specification of each function; [FenceSafe]: the theorems over every
      run; [FenceErrors]: what signals get wrong.
    - [VopCopy]: the copies of [vop_host.c] by DMA and by CPU, the walk over a descriptor chain
      and a request.  [VopCopyInv]: copies and walks as lists of byte moves; [VopRequest]: the
      theorem on requests, and the copies of an engine that wants aligned addresses.
      [VopPage]: the device page with adding, removing and finding devices, and what is
      allocated and freed.  [VopPageInv]: the page as a list of devices; [VopDevice]: the
      theorems.  [VopMap]: the mapping of the page and the rings.
    - [Cosm]: the state and command tables, [struct cosm_device] and the functions of
      [cosm_main.c].  [CosmFlow]: the interleaving of the work item with the threads
      that request commands.  [CosmSysfs]: the attributes of [cosm_sysfs.c].
      [CosmServer]: [cosm_scif_server.c] and the probing and removal of devices.
      [CosmClient]: [cosm_scif_client.c] on the card.

    ** How code is translated

    Definitions carry the names of the functions they model.  A C integer is a [Z];
    where an operation may leave the range of its type the wrap is written out ([u32],
    [u64], [s32], [s64]).  Functions take and return the state they change; error codes
    are the negative numbers of the source; [None] stands for a failed [BUG_ON], a NULL
    result or a pointer that leads nowhere, as each definition says.  A function that
    runs under one lock is one step; functions that sleep are split at the point where
    they sleep, and the theorems hold for every order of the pieces.  What the code
    gets from the kernel (id allocators, completions, work queues, number parsing,
    memory) is a class or an argument, with what the driver relies on as its laws.

    ** What is shown

    - Rings: whatever the two sides do and in whatever order, the bytes delivered are
      the bytes accepted, in order, without loss or duplication; a write is taken whole
      or refused; what one side has checked stays true whatever the other side does.
    - Ports: the stored counts are exactly the references held; no number is given
      twice; the implementations agree; the bitmap is a set of free ports, whose search
      can miss a free port that lies below a reserved one.
    - Endpoints: an invariant ties the state of each endpoint to the list it is on and
      bounds the queues of listeners, for every order of calls, messages and losses of nodes
      in which answers come to endpoints that wait for them; a late answer to a disconnect
      breaks it; a connection request and a disconnect are always answered; two places lose
      track of port references.
    - Messages: a connection is a byte stream over every interleaving of the two nodes,
      as long as notifications get through; what the calls return; calls that do not
      block return; what a failed notification loses.
      User transfers hand their chunks over in order and return; so does a poll.
    - Node messages: a queue pair delivers every message once and in order to the handler
      table, over every interleaving, and a send returns.  The mappings between cards
      stay symmetric and, as long as no mapping fails half-way, agree with what is mapped;
      taking a node down uses the entries it has freed.
    - Address tables: every byte of a mapping held is translated to its address by the
      table and by the registers, over every history of mappings; restoring the registers
      ends; one table does not bound a range by the array it fills.
    - DMA channel: over every interleaving with the engine in which no request without flags
      is submitted after a clean-up has passed it, copies are executed once and in order,
      requests are completed in order and only when executed, nothing is left behind after
      an issue, an abort resumes at the right descriptor; a request that is submitted so
      late is lost sight of.
    - Windows: a range is accepted exactly when registered windows cover it with the
      protection asked for; unregistration takes whole windows only; the cache returns
      only windows that hold the request; one path shrinks a request at its front.
    - Remote memory access: a copy moves every byte from its source to its destination
      however windows and chunks are cut; an ordered copy writes its end last; the calls
      succeed exactly on registered ranges and, without an IOMMU, release what they hold,
      whatever fails; some errors are lost on the way and the cache keeps windows for ever.
    - Registration: over every interleaving of calls and messages in which the pages of
      windows can be mapped for DMA, no freed window is referred to, both nodes agree on
      what is registered, and windows in use stay; a mapping that fails breaks this, and
      another error path keeps a window for ever.
    - Fences: over every interleaving of calls, message handlers, the workers, the engines,
      windows that come and go and the clean-up of endpoints on two living nodes no thread
      uses a freed request, endpoint or value, and no callback does unless a wait for all
      DMA has failed before a window went: then it can; a wait that succeeds, here or by way
      of the peer, has waited for everything its mark covers; a signal is written behind what
      was programmed before it, with its value, into a window that was registered; waits for
      all DMA wait.  The loss of a node breaks the first; signals by the peer are swapped,
      and one at the end of a page writes behind it.
    - Virtio: a request does the byte moves that its descriptor chain and the buffers of the
      caller ask for, in order, and what it reports and gives back to the card agrees with it;
      an addition to the device page that is well-formed adds one device to those that the card
      finds, as long as a slot keeps its size: a shorter descriptor in a reused slot makes the
      card read on in what is left of the old one; additions that fail hide devices and free
      buffers twice; a mapping from the start covers the page and the rings.
    - Page allocator: it refines a set of free pages and a set of claims; over any
      history no page is handed out twice or lost; the claims list has two faults.
    - COSM: the state of a card follows the automaton of the tables; an invariant of the
      device holds over every interleaving; the work item ends within its timeout; a
      forced command ends the running one at its next poll; messages are handled in
      order, and the host does what each report of the card asks for; devices and the server
      account for each other where endpoints open and messages are answered, but for the
      references of modules that drivers take; the client of the card holds everything or nothing; names and
      attributes are read back as written.

    ** Bounds and fuel

    The state flow polls once a tick and stops at its timeout, so [command timeout + 2]
    polls are enough; a call of a hardware operation takes fewer than [2^40] ticks.  The
    loops of the page allocator follow a linked list, and fuel above its length is
    enough; a client of [N] pages needs [N + 1].  The loops of [scif_send] and [scif_recv]
    are cut into steps and need no fuel.  The node pool holds at most [2^24]
    slabs, below the number that stands for no node.  A send to a node gives up after
    [300002] refusals; the loops over the 4096 descriptors of a DMA ring have fuel for one
    round each; DMA addresses have 48 bits, as the descriptors have.
    The fence theorems hold for the first [2^31 - 3] requests of a channel, whose cookies
    do not wrap, and no late submissions; a submission that is refused is tried again any
    number of times ([again]).
    A walk over a descriptor chain takes a round for each range, a request one for each
    buffer of the caller, and a copy one for each 64 KB, with one more to end; a step over the
    device page of 4096 bytes is 24 bytes or more.  The request theorem is for the x200, whose
    engine needs no alignment, without an IOMMU.
    A round of a copy loop transfers at least one byte, so fuel above the length is
    enough; ranges of a copy end below [2^63] and are shorter than [2^62] bytes.  A window that is registered has
    fewer than [2^31] pages, the range of the [int] that carries the number.  Page numbers
    are below [2^52], so sums of a base and a length do not wrap.  Ring sizes are powers of two up to [2^31].

    ** What is not modelled

    Memory barriers and caches: the memory of the rings is sequentially consistent, and
    the DMA engine does not prefetch descriptors.  The set-up of queue pairs and the
    handlers of node messages ([scif_nodeqp.c], [scif_nm.c]), the death of a node in the
    middle of a registration, signals of an x100 card ([scif_fence.c]), the page tables behind a mapping of a
    window ([scif_mmap.c]), the virtqueues and features of a virtio device on the card
    ([vop_card.c]) and its interrupts, the boot sequence ([mic_boot.c]) and the DMA library and power management of the first generation are left for later.
    Register access, firmware download, device files, the daemons, the configuration
    tools and the user-space libraries are I/O and are left out, as is [iova.c], a copy of
    a kernel file. *)
From stdpp Require Export base numbers list gmap strings fin_maps.
From Stdlib Require Export ZArith Znumtheory Lia Sorted.
Local Open Scope Z_scope.

(** ** Machine integers

    A w-bit unsigned value is a [Z] in [[0, 2^w)]; an operation that may leave
    the range is followed by the wrap the C type imposes. *)

Declare Scope cint_scope.
Delimit Scope cint_scope with cint.

Definition wrap (w z : Z) : Z := z mod 2 ^ w.
Notation u8 := (wrap 8).
Notation u16 := (wrap 16).
Notation u32 := (wrap 32).
Notation u64 := (wrap 64).

(** Two's-complement reading of the low [w] bits, as a conversion to a signed
    type of that width does. *)
Definition swrap (w z : Z) : Z :=
  let r := z mod 2 ^ w in if r <? 2 ^ (w - 1) then r else r - 2 ^ w.
Notation s32 := (swrap 32).
Notation s64 := (swrap 64).

Notation "x +u32 y" := (wrap 32 (x + y)) (at level 50, left associativity) : cint_scope.
Notation "x -u32 y" := (wrap 32 (x - y)) (at level 50, left associativity) : cint_scope.
Notation "x +u64 y" := (wrap 64 (x + y)) (at level 50, left associativity) : cint_scope.
Notation "x -u64 y" := (wrap 64 (x - y)) (at level 50, left associativity) : cint_scope.

Definition in_width (w z : Z) : Prop := 0 <= z < 2 ^ w.

(** ** Error numbers (asm-generic/errno-base.h and errno.h) *)
Definition EPERM : Z := 1.
Definition EINTR : Z := 4.
Definition ENXIO : Z := 6.
Definition E2BIG : Z := 7.
Definition EAGAIN : Z := 11.
Definition ENOMEM : Z := 12.
Definition EFAULT : Z := 14.
Definition EACCES : Z := 13.
Definition EBUSY : Z := 16.
Definition EEXIST : Z := 17.
Definition ENODEV : Z := 19.
Definition EINVAL : Z := 22.
Definition ENOSPC : Z := 28.
Definition ENOTCONN : Z := 107.
Definition ECONNRESET : Z := 104.
Definition ECONNREFUSED : Z := 111.
Definition EALREADY : Z := 114.
Definition EINPROGRESS : Z := 115.
Definition EISCONN : Z := 106.
Definition EOPNOTSUPP : Z := 95.
Definition ERESTARTSYS : Z := 512.

Definition PAGE_SHIFT : Z := 12.
Definition PAGE_SIZE : Z := 4096.

(** ** Tactics and hints *)

Create HintDb mpss.

(** Case analysis on every boolean comparison of [Z] in sight. *)
Ltac zcases :=
  repeat match goal with
  | |- context [Z.ltb ?a ?b] => destruct (Z.ltb_spec a b)
  | |- context [Z.leb ?a ?b] => destruct (Z.leb_spec a b)
  | |- context [Z.eqb ?a ?b] => destruct (Z.eqb_spec a b)
  | H : context [Z.ltb ?a ?b] |- _ => destruct (Z.ltb_spec a b)
  | H : context [Z.leb ?a ?b] |- _ => destruct (Z.leb_spec a b)
  | H : context [Z.eqb ?a ?b] |- _ => destruct (Z.eqb_spec a b)
  end.

Ltac zsolve := zcases; simplify_eq; auto with mpss; try lia.

(** Linear arithmetic with quotients and remainders. *)
Ltac divlia := Z.to_euclidean_division_equations; lia.

(** ** Shared lemmas on wrap-around *)

Lemma wrap_small w z : in_width w z → wrap w z = z.
Proof. unfold wrap, in_width. intros. by apply Z.mod_small. Qed.

Lemma wrap_range w z : 0 <= w → in_width w (wrap w z).
Proof. intros. unfold in_width, wrap. apply Z.mod_pos_bound. lia. Qed.

#[export] Hint Resolve wrap_small wrap_range : mpss.

Lemma swrap_small w z : 0 < w → - 2 ^ (w - 1) <= z < 2 ^ (w - 1) → swrap w z = z.
Proof.
  intros Hw Hz. unfold swrap.
  assert (2 ^ w = 2 * 2 ^ (w - 1)) as E by (rewrite <- Z.pow_succ_r by lia; f_equal; lia).
  destruct (Z_le_gt_dec 0 z).
  - rewrite Z.mod_small by lia. zsolve.
  - replace (z mod 2 ^ w) with (z + 2 ^ w).
    + zsolve.
    + apply Z.mod_unique_pos with (-1); lia.
Qed.

Lemma s64_small z : - 2 ^ 63 <= z < 2 ^ 63 → s64 z = z.
Proof. intros. by apply swrap_small. Qed.

Lemma s32_small z : - 2 ^ 31 <= z < 2 ^ 31 → s32 z = z.
Proof. intros. by apply swrap_small. Qed.

(** Differences of wrapped values, read as signed. *)
Lemma wrap_idemp_add w a b : wrap w (wrap w a + b) = wrap w (a + b).
Proof. unfold wrap. apply Zplus_mod_idemp_l. Qed.

Lemma swrap_sub_wrap w a b : swrap w (wrap w a - wrap w b) = swrap w (a - b).
Proof. unfold swrap, wrap. by rewrite <- Zminus_mod. Qed.

Lemma land_pow2_mask a k : 0 <= k → Z.land a (2 ^ k - 1) = a mod 2 ^ k.
Proof. intros. rewrite <- Z.land_ones by lia. by rewrite Z.ones_equiv. Qed.

(** Bits above and below a position. *)
Lemma lor_low a b k : 0 <= k → 0 <= b < 2 ^ k → Z.lor (a * 2 ^ k) b = a * 2 ^ k + b.
Proof.
  intros Hk Hb. rewrite <- Z.add_lor_land. enough (Z.land (a * 2 ^ k) b = 0) by lia.
  apply Z.bits_inj'. intros i Hi. rewrite Z.land_spec, Z.bits_0.
  destruct (Z.lt_ge_cases i k); [by rewrite Z.mul_pow2_bits_low|].
  rewrite <- (Z.mod_small b (2 ^ k)) by lia. rewrite Z.mod_pow2_bits_high by lia. apply andb_false_r.
Qed.

Lemma land_field a n k : 0 <= n → 0 <= k → Z.land a (Z.shiftl (Z.ones n) k) = (a / 2 ^ k) mod 2 ^ n * 2 ^ k.
Proof.
  intros Hn Hk. apply Z.bits_inj'. intros i Hi. rewrite Z.land_spec, Z.shiftl_spec by lia.
  destruct (Z.lt_ge_cases i k).
  - rewrite Z.mul_pow2_bits_low, (Z.testbit_neg_r _ (i - k)) by lia. apply andb_false_r.
  - rewrite Z.mul_pow2_bits by lia. destruct (Z.lt_ge_cases (i - k) n).
    + rewrite Z.ones_spec_low, Z.mod_pow2_bits_low, Z.div_pow2_bits by lia.
      rewrite andb_true_r. f_equal. lia.
    + rewrite Z.ones_spec_high, Z.mod_pow2_bits_high by lia. apply andb_false_r.
Qed.

(** The low bits off. *)
Lemma land_high w x a : 0 <= a <= w → in_width w x → Z.land x (2 ^ w - 2 ^ a) = x - x mod 2 ^ a.
Proof.
  unfold in_width. intros Ha Hx. assert (2 ^ w = 2 ^ (w - a) * 2 ^ a) as Ew by (rewrite <- Z.pow_add_r by lia; f_equal; lia).
  pose proof (Z.pow_pos_nonneg 2 a ltac:(lia) ltac:(lia)) as Hp.
  replace (2 ^ w - 2 ^ a) with (Z.shiftl (Z.ones (w - a)) a) by (rewrite Z.shiftl_mul_pow2, Z.ones_equiv, Ew by lia; lia).
  rewrite land_field, Z.mod_small by first [lia|split; [apply Z.div_pos; lia|apply Z.div_lt_upper_bound; lia]].
  rewrite (Z.mod_eq x (2 ^ a)) by lia. lia.
Qed.

Lemma land_bit a k : 0 <= k → Z.land a (2 ^ k) = (a / 2 ^ k) mod 2 * 2 ^ k.
Proof.
  intros Hk. rewrite <- Z.bit0_mod, <- Z.shiftr_div_pow2, Z.shiftr_spec, Z.add_0_l by lia.
  apply Z.bits_inj'. intros i Hi. rewrite Z.land_spec, Z.pow2_bits_eqb by lia.
  destruct (Z.eqb_spec k i) as [<- |Hne].
  - rewrite andb_true_r. destruct (Z.testbit a k); cbn [Z.b2z]; [|by rewrite Z.bits_0].
    by rewrite Z.mul_1_l, Z.pow2_bits_true.
  - rewrite andb_false_r. destruct (Z.testbit a k); cbn [Z.b2z]; [|by rewrite Z.bits_0].
    by rewrite Z.mul_1_l, Z.pow2_bits_false.
Qed.

(** Offsets on a ring of [s] slots. *)
Lemma mod_add_cancel_l r t s : 0 < s → 0 <= t < s → ((r + t) mod s - r) mod s = t.
Proof.
  intros. rewrite Zminus_mod_idemp_l. replace (r + t - r) with t by lia.
  by apply Z.mod_small.
Qed.

Lemma ring_diff_cases o off s :
  0 <= off < s → 0 <= o < s →
  (o - off) mod s = if off <=? o then o - off else o - off + s.
Proof.
  intros. zcases.
  - apply Z.mod_small. lia.
  - symmetry. apply Z.mod_unique_pos with (-1); lia.
Qed.

Lemma ring_sum_cases off i s :
  0 <= off < s → 0 <= i < s →
  (off + i) mod s = if off + i <? s then off + i else off + i - s.
Proof.
  intros. zcases.
  - apply Z.mod_small. lia.
  - symmetry. apply Z.mod_unique_pos with 1; lia.
Qed.

(** ** Lists indexed by [Z] *)

Definition zlen {A} (l : list A) : Z := Z.of_nat (length l).
Definition ztake {A} (n : Z) (l : list A) : list A := take (Z.to_nat n) l.
Definition zdrop {A} (n : Z) (l : list A) : list A := drop (Z.to_nat n) l.

Lemma zlen_nonneg {A} (l : list A) : 0 <= zlen l.
Proof. unfold zlen. lia. Qed.

Lemma zlen_cons {A} (x : A) l : zlen (x :: l) = zlen l + 1.
Proof. unfold zlen. cbn [length]. lia. Qed.

Lemma zlen_app {A} (l k : list A) : zlen (l ++ k) = zlen l + zlen k.
Proof. unfold zlen. rewrite length_app. lia. Qed.

Lemma zlen_take {A} n (l : list A) : 0 <= n <= zlen l → zlen (ztake n l) = n.
Proof. unfold zlen, ztake. intros. rewrite length_take. lia. Qed.

Lemma zlen_drop {A} n (l : list A) : 0 <= n <= zlen l → zlen (zdrop n l) = zlen l - n.
Proof. unfold zlen, zdrop. intros. rewrite length_drop. lia. Qed.

Lemma ztake_zdrop {A} n (l : list A) : ztake n l ++ zdrop n l = l.
Proof. apply take_drop. Qed.

(** ** Little-endian bytes *)

Fixpoint le (n : nat) (v : Z) : list Z :=
  match n with O => [] | S n => v mod 256 :: le n (v / 256) end.

Fixpoint unle (l : list Z) : Z :=
  match l with [] => 0 | b :: l => b + 256 * unle l end.

Lemma le_length n : ∀ v, length (le n v) = n.
Proof. induction n as [|n IH]; intros v; cbn; [done|]. by rewrite IH. Qed.

Lemma unle_le n : ∀ v, 0 <= v < 256 ^ Z.of_nat n → unle (le n v) = v.
Proof.
  induction n as [|n IH]; intros v Hv; cbn [le unle]; [lia|].
  rewrite Nat2Z.inj_succ, Z.pow_succ_r in Hv by lia. rewrite IH by divlia. divlia.
Qed.

(** A packed structure: its fields one after the other, with the width of each in bytes. *)
Fixpoint pack (ws : list nat) (vs : list Z) : list Z :=
  match ws, vs with
  | w :: ws, v :: vs => le w v ++ pack ws vs
  | _, _ => []
  end.

Fixpoint unpack (ws : list nat) (l : list Z) : list Z :=
  match ws with
  | [] => []
  | w :: ws => unle (take w l) :: unpack ws (drop w l)
  end.

Lemma pack_length ws : ∀ vs, length vs = length ws → length (pack ws vs) = sum_list ws.
Proof.
  induction ws as [|w ws IH]; intros [|v vs] Hl; cbn; try done. rewrite length_app, le_length, IH; [done|].
  by injection Hl.
Qed.

Lemma unpack_pack ws : ∀ vs, Forall2 (λ w v, 0 <= v < 256 ^ Z.of_nat w) ws vs → unpack ws (pack ws vs) = vs.
Proof.
  induction 1 as [|w v ws vs Hv Hvs IH]; cbn [pack unpack]; [done|].
  rewrite take_app_length', drop_app_length' by (by rewrite le_length). rewrite unle_le by done. by rewrite IH.
Qed.

Lemma filter_all {A} (P : A → Prop) `{∀ x, Decision (P x)} (l : list A) :
  Forall P l → filter P l = l.
Proof.
  induction 1 as [|x l Hx Hl IH]; [done|]. by rewrite filter_cons_True, IH.
Qed.

Lemma filter_none {A} (P : A → Prop) `{∀ x, Decision (P x)} (l : list A) :
  Forall (λ x, ¬ P x) l → filter P l = [].
Proof.
  induction 1 as [|x l Hx Hl IH]; [done|]. by rewrite filter_cons_False.
Qed.
