(* ===== verification/RingBuffer.v ===== *)
(** * The SCIF ring buffer, second generation

    Models [mpss4/mpss-modules/mic/scif/scif_rb.c].  The theorems discharge the
    interface [RingImpl]: each operation refines the operation of the byte queue
    it stands for, on every branch. *)
From S2P Require Import Prelude RingSpec.
Local Open Scope Z_scope.

Module ScifRb.
(** [struct scif_rb].  Pointers are addresses of the shared memory. *)
Record scif_rb := Rb {
  rb_base : Z;
  read_ptr : Z;
  write_ptr : Z;
  size : Z;
  current_read_offset : Z;
  current_write_offset : Z;
}.

Definition set_current_read_offset (rb : scif_rb) (v : Z) : scif_rb :=
  Rb (rb_base rb) (read_ptr rb) (write_ptr rb) (size rb) v (current_write_offset rb).
Definition set_current_write_offset (rb : scif_rb) (v : Z) : scif_rb :=
  Rb (rb_base rb) (read_ptr rb) (write_ptr rb) (size rb) (current_read_offset rb) v.

Section Operations.
Context `{CircBuf}.
(** [CONFIG_INTEL_MIC_X100_CARD]: the offset words are written twice. *)
Context (x100_card : bool).

Definition scif_rb_ring_cnt (head tail size : Z) : Z := CIRC_CNT head tail size.
Definition scif_rb_ring_space (head tail size : Z) : Z := CIRC_SPACE head tail size.

(** [size] is the base-two logarithm here, a [u8]. *)
Definition scif_rb_init (m : mem) (read_ptr write_ptr rb_base size : Z) : scif_rb :=
  {| rb_base := rb_base;
     size := u32 (Z.shiftl 1 size);
     read_ptr := read_ptr;
     write_ptr := write_ptr;
     current_read_offset := rd_word m read_ptr;
     current_write_offset := rd_word m write_ptr |}.

Definition memcpy_torb (m : mem) (rb : scif_rb) (header : Z) (msg : list Z) (sz : Z) : mem :=
  if rb_base rb + size rb <=? header + sz then
    let size1 := u32 (rb_base rb + size rb - header) in
    let size2 := u32 (sz - size1) in
    let m := memcpy_toio m header (ztake size1 msg) in
    memcpy_toio m (rb_base rb) (ztake size2 (zdrop size1 msg))
  else memcpy_toio m header (ztake sz msg).

(** The result is what the call leaves in the caller's buffer. *)
Definition memcpy_fromrb (m : mem) (rb : scif_rb) (header sz : Z) : list Z :=
  if rb_base rb + size rb <=? header + sz then
    let size1 := u32 (rb_base rb + size rb - header) in
    let size2 := u32 (sz - size1) in
    memcpy_fromio m header size1 ++ memcpy_fromio m (rb_base rb) size2
  else memcpy_fromio m header sz.

Definition scif_rb_space (m : mem) (rb : scif_rb) : Z :=
  scif_rb_ring_space (current_write_offset rb) (rd_word m (read_ptr rb)) (size rb).

Definition scif_rb_write (m : mem) (rb : scif_rb) (msg : list Z) (sz : Z)
  : Z * mem * scif_rb :=
  if scif_rb_space m rb <? sz then (- ENOMEM, m, rb)
  else
    let header := rb_base rb + current_write_offset rb in
    let m := memcpy_torb m rb header msg sz in
    (0, m, set_current_write_offset rb
             (Z.land (u32 (current_write_offset rb + sz)) (u32 (size rb - 1)))).

Definition scif_rb_commit (m : mem) (rb : scif_rb) : mem :=
  let m := wr_word m (write_ptr rb) (current_write_offset rb) in
  if x100_card then wr_word m (write_ptr rb) (current_write_offset rb) else m.

Definition scif_rb_count (m : mem) (rb : scif_rb) : Z :=
  scif_rb_ring_cnt (rd_word m (write_ptr rb)) (current_read_offset rb) (size rb).

(** [None] is the NULL pointer. *)
Definition scif_rb_get (m : mem) (rb : scif_rb) (sz : Z) : option Z :=
  if sz <=? scif_rb_count m rb then Some (rb_base rb + current_read_offset rb) else None.

Definition scif_rb_get_next (m : mem) (rb : scif_rb) (sz : Z) : Z * list Z * scif_rb :=
  match scif_rb_get m rb sz with
  | Some header =>
      let next_cmd_offset :=
        Z.land (u32 (current_read_offset rb + sz)) (u32 (size rb - 1)) in
      let read_size := sz in
      let rb' := set_current_read_offset rb next_cmd_offset in
      (read_size, memcpy_fromrb m rb' header sz, rb')
  | None => (0, [], rb)
  end.

Definition scif_rb_update_read_ptr (m : mem) (rb : scif_rb) : mem :=
  let m := wr_word m (read_ptr rb) (current_read_offset rb) in
  if x100_card then wr_word m (read_ptr rb) (current_read_offset rb) else m.

End Operations.



(** ** Refinement of the queue *)

Section Refinement.
Context `{CircBuf}.
Context (x100_card : bool).

(** Producer [p] and consumer [c] describe the same ring, which represents [q]. *)
Record rb_rep (m : mem) (p c : scif_rb) (q : Spec.queue) : Prop := {
  rb_same : rb_base c = rb_base p ∧ read_ptr c = read_ptr p ∧
            write_ptr c = write_ptr p ∧ size c = size p;
  rb_ring : ∃ k, size p = 2 ^ k ∧
    ring_rep m (rb_base p) (read_ptr p) (write_ptr p) k
      (current_write_offset p) (current_read_offset c) q;
}.

Lemma memcpy_torb_copy m rb header msg sz :
  memcpy_torb m rb header msg sz = copy_torb m (rb_base rb) (size rb) header msg sz.
Proof. reflexivity. Qed.

Lemma memcpy_fromrb_copy m rb header sz :
  memcpy_fromrb m rb header sz = copy_fromrb m (rb_base rb) (size rb) header sz.
Proof. reflexivity. Qed.

Lemma write_refines m p c q msg rc m' p' :
  rb_rep m p c q → scif_rb_write m p msg (zlen msg) = (rc, m', p') →
  rc = (Spec.write q msg).1 ∧ rb_rep m' p' c (Spec.write q msg).2.
Proof.
  intros [Hsame (k & Hk & Hrep)]. unfold scif_rb_write, scif_rb_space, scif_rb_ring_space.
  rewrite memcpy_torb_copy, Hk, (rep_space _ _ _ _ _ _ _ _ Hrep).
  unfold Spec.write. destruct (Z.ltb_spec (Spec.q_cap q - Spec.used q) (zlen msg)).
  - intros [= <- <- <-]. split; [done|]. split; eauto.
  - intros [= <- <- <-]. split; [done|]. split; [done|]. exists k. split; [done|].
    pose proof (rep_offsets _ _ _ _ _ _ _ _ Hrep). pose proof (rep_lens q).
    pose proof (zlen_nonneg msg). simpl.
    rewrite (rep_mask _ _ _ _ _ _ _ _ Hrep); [|lia|destruct Hrep; unfold Spec.used in *; lia].
    by apply rep_write.
Qed.

Lemma commit_refines m p c q :
  rb_rep m p c q → rb_rep (scif_rb_commit x100_card m p) p c (Spec.commit q).
Proof.
  intros [Hsame (k & Hk & Hrep)]. split; [done|]. exists k. split; [done|].
  unfold scif_rb_commit. destruct x100_card; rewrite ?wr_word_wr_word; by apply rep_commit.
Qed.

Lemma get_next_refines m p c q n rc bs c' :
  rb_rep m p c q → 0 <= n → scif_rb_get_next m c n = (rc, bs, c') →
  (rc, bs) = (Spec.get_next q n).1 ∧ rb_rep m p c' (Spec.get_next q n).2.
Proof.
  intros [Hsame (k & Hk & Hrep)] Hn. destruct Hsame as (Eb & Er & Ew & Es).
  unfold scif_rb_get_next, scif_rb_get, scif_rb_count, scif_rb_ring_cnt.
  rewrite Ew, Es, Hk, (rep_count _ _ _ _ _ _ _ _ Hrep). unfold Spec.get_next.
  destruct (Z.leb_spec n (zlen (Spec.q_ready q))).
  - intros [= <- <- <-]. rewrite memcpy_fromrb_copy. simpl. rewrite Eb, Es, Hk.
    destruct (rep_read _ _ _ _ _ _ _ _ Hrep n ltac:(lia)) as [-> Hrep'].
    split; [done|]. split; [done|]. exists k. split; [done|]. simpl.
    pose proof (rep_offsets _ _ _ _ _ _ _ _ Hrep). pose proof (rep_lens q).
    rewrite (rep_mask _ _ _ _ _ _ _ _ Hrep); [done|lia|].
    destruct Hrep; unfold Spec.used in *; lia.
  - intros [= <- <- <-]. split; [done|]. split; eauto.
Qed.

Lemma update_read_ptr_refines m p c q :
  rb_rep m p c q → rb_rep (scif_rb_update_read_ptr x100_card m c) p c (Spec.update_read_ptr q).
Proof.
  intros [Hsame (k & Hk & Hrep)]. split; [done|]. exists k. split; [done|].
  destruct Hsame as (Eb & Er & Ew & Es). unfold scif_rb_update_read_ptr.
  destruct x100_card; rewrite ?wr_word_wr_word, Er; by apply rep_update.
Qed.

#[export] Instance scif_ring_impl : RingImpl := {|
  ri_rb := scif_rb;
  ri_write := scif_rb_write;
  ri_commit := scif_rb_commit x100_card;
  ri_get_next := scif_rb_get_next;
  ri_update := scif_rb_update_read_ptr x100_card;
  ri_rep := rb_rep;
  ri_write_ok := write_refines;
  ri_commit_ok := commit_refines;
  ri_get_next_ok := get_next_refines;
  ri_update_ok := update_read_ptr_refines;
|}.

Lemma init_rep m rp wp base k :
  0 <= k <= 30 → 0 < base → rp ≠ wp → 0 <= rd_word m rp < 2 ^ k → rd_word m wp = rd_word m rp →
  let rb := scif_rb_init m rp wp base k in rb_rep m rb rb (Spec.empty (2 ^ k - 1)).
Proof.
  intros Hk Hb Hne HR HW. split; [done|]. exists k. simpl.
  assert (0 < 2 ^ k <= 2 ^ 30) by (split; [lia|apply Z.pow_le_mono_r; lia]).
  rewrite Z.shiftl_1_l, wrap_small by (unfold in_width; lia). split; [done|].
  rewrite HW. unfold Spec.empty, Spec.used, zlen; simpl.
  split; simpl; rewrite ?Z.add_0_r, ?HW, ?Z.mod_small; try lia; try done.
  - unfold Spec.used, zlen; simpl. lia.
  - intros i Hi. unfold zlen in Hi; simpl in Hi. lia.
Qed.

(** A commit followed by a read of everything empties the queue. *)
Lemma drain (r : ring_run) q :
  ri_rep (rn_mem r) (rn_prod r) (rn_cons r) q →
  rn_delivered (ring_steps r [OpCommit; OpGet (zlen (Spec.q_ready q ++ Spec.q_pending q))]) =
  rn_delivered r ++ Spec.q_ready q ++ Spec.q_pending q.
Proof.
  intros Hrep. unfold ring_steps. cbn [fold_left ring_step rn_mem rn_cons rn_prod rn_delivered].
  apply ri_commit_ok in Hrep.
  destruct (ri_get_next _ _ _) as [[rc bs] c'] eqn:E.
  destruct (ri_get_next_ok _ _ _ _ _ _ _ _ Hrep (Z.le_max_l 0 _) E) as [Hr _].
  revert Hr. unfold Spec.get_next. simpl.
  pose proof (zlen_nonneg (Spec.q_ready q ++ Spec.q_pending q)).
  rewrite Z.max_r by lia. zcases; [|lia]. simpl. intros; simplify_eq.
  f_equal. unfold ztake, zlen. rewrite Nat2Z.id. apply firstn_all.
Qed.

Lemma space_rep m p c q : rb_rep m p c q → scif_rb_space m p = Spec.q_cap q - Spec.used q.
Proof.
  intros [_ (k & Hk & Hrep)]. unfold scif_rb_space, scif_rb_ring_space. rewrite Hk.
  eauto using rep_space.
Qed.

Lemma count_rep m p c q : rb_rep m p c q → scif_rb_count m c = zlen (Spec.q_ready q).
Proof.
  intros [(_ & _ & Ew & Es) (k & Hk & Hrep)]. unfold scif_rb_count, scif_rb_ring_cnt.
  rewrite Ew, Es, Hk. eauto using rep_count.
Qed.

Lemma held_nonneg m p c q : rb_rep m p c q → 0 <= Spec.q_held q.
Proof. intros [_ (k & Hk & Hrep)]. by destruct Hrep. Qed.

End Refinement.

(** ** Claims *)

(** C1: Whatever the interleaving of producer operations (scif_rb_write,
    scif_rb_commit) and consumer operations (scif_rb_get_next,
    scif_rb_update_read_ptr) on a freshly initialised ring of 2^k bytes, the
    bytes delivered are exactly the first bytes of the accepted messages, in
    order and without loss or duplication; at most 2^k - 1 bytes are in transit;
    and one commit followed by one read delivers all of those. *)
Theorem scif_rb_fifo `{CircBuf} (x100_card : bool) m rp wp base k ops :
  0 <= k <= 30 → 0 < base → rp ≠ wp → 0 <= rd_word m rp < 2 ^ k → rd_word m wp = rd_word m rp →
  let rb := scif_rb_init m rp wp base k in
  let r := ring_steps (@RingRun (scif_ring_impl x100_card) m rb rb [] []) ops in
  ∃ transit, rn_accepted r = rn_delivered r ++ transit ∧ zlen transit <= 2 ^ k - 1 ∧
    rn_delivered (ring_steps r [OpCommit; OpGet (zlen transit)]) = rn_accepted r.
Proof.
  intros Hk Hb Hne HR HW rb r.
  assert (run_inv (2 ^ k - 1) r) as (q & Hrep & Hcap & Hacc).
  { apply ring_steps_inv. eexists. split; [by apply init_rep|done]. }
  exists (Spec.q_ready q ++ Spec.q_pending q). split; [done|]. split.
  - destruct Hrep as [_ (k' & Hsz & Hring)].
    rewrite zlen_app. destruct Hring. unfold Spec.used in *. lia.
  - rewrite Hacc. by apply drain.
Qed.

Definition demo_mem : mem := Mem ∅ {[ 8 := 5; 16 := 5 ]}.
Definition demo_ops : list ring_op :=
  [OpWrite [1; 2; 3; 4]; OpCommit; OpGet 3; OpUpdate; OpWrite [5; 6; 7; 8; 9; 10];
   OpWrite [11]; OpCommit; OpGet 5].

Lemma scif_rb_fifo_witness :
  let rb := @scif_rb_init demo_mem 8 16 4096 3 in
  let r := ring_steps (@RingRun (@scif_ring_impl linux_circ false) demo_mem rb rb [] [])
             demo_ops in
  ∃ transit, rn_accepted r = rn_delivered r ++ transit ∧ zlen transit <= 2 ^ 3 - 1 ∧
    rn_delivered (ring_steps r [OpCommit; OpGet (zlen transit)]) = rn_accepted r.
Proof.
  apply (@scif_rb_fifo linux_circ false demo_mem 8 16 4096 3 demo_ops);
    [lia|lia|lia|vm_compute; split; congruence|reflexivity].
Defined.

(** Scif_rb_write succeeds exactly when the message fits the space the
    producer sees; a refused write returns -ENOMEM and changes nothing, an
    accepted one appends the message to the uncommitted bytes; in both cases
    the number of bytes the consumer may read is unchanged until the commit. *)
Theorem scif_rb_write_all_or_nothing `{CircBuf} m p c q msg rc m' p' :
  rb_rep m p c q → scif_rb_write m p msg (zlen msg) = (rc, m', p') →
  (rc = 0 ↔ zlen msg <= scif_rb_space m p) ∧
  (rc ≠ 0 → rc = - ENOMEM ∧ m' = m ∧ p' = p) ∧
  (rc = 0 → rb_rep m' p' c
     (Spec.Queue (Spec.q_cap q) (Spec.q_held q) (Spec.q_ready q) (Spec.q_pending q ++ msg))) ∧
  scif_rb_count m' c = scif_rb_count m c.
Proof.
  intros Hrep E. destruct (write_refines _ _ _ _ _ _ _ _ Hrep E) as [Hrc Hrep'].
  pose proof (space_rep _ _ _ _ Hrep) as Hs.
  rewrite (count_rep _ _ _ _ Hrep), (count_rep _ _ _ _ Hrep').
  revert Hrc Hrep'. unfold Spec.write. rewrite <- Hs.
  unfold scif_rb_write in E. zcases; simpl in *; intros; simplify_eq;
    unfold ENOMEM in *; split_and!; try done; try (split; intros; lia).
Qed.

Lemma demo_rep : @rb_rep demo_mem (scif_rb_init demo_mem 8 16 4096 3)
                   (scif_rb_init demo_mem 8 16 4096 3) (Spec.empty 7).
Proof. apply (init_rep demo_mem 8 16 4096 3); [lia|lia|lia|vm_compute; split; congruence|reflexivity]. Qed.

Lemma scif_rb_write_all_or_nothing_witness :
  let rb := scif_rb_init demo_mem 8 16 4096 3 in
  let '(rc, m', p') := @scif_rb_write linux_circ demo_mem rb [1; 2; 3] 3 in
  (rc = 0 ↔ zlen [1; 2; 3] <= @scif_rb_space linux_circ demo_mem rb) ∧
  @scif_rb_count linux_circ m' rb = @scif_rb_count linux_circ demo_mem rb.
Proof.
  simpl. destruct (@scif_rb_write linux_circ _ _ _ _) as [[rc m'] p'] eqn:E.
  destruct (@scif_rb_write_all_or_nothing linux_circ _ _ _ _ _ _ _ _ demo_rep E)
    as (H1 & _ & _ & H2).
  split; [exact H1|exact H2].
Defined.

(** The two sides need no lock between them: what one side has checked stays
    true whatever the other does.  Giving space back never reduces the space the
    producer sees and leaves the readable count alone; committing never reduces
    the readable count and leaves the space alone; and a consumer that reads
    leaves the producer's space alone. *)
Theorem scif_rb_checks_stable `{CircBuf} (x100_card : bool) m p c q n rc bs c' :
  rb_rep m p c q → 0 <= n → scif_rb_get_next m c n = (rc, bs, c') →
  scif_rb_space m p <= scif_rb_space (scif_rb_update_read_ptr x100_card m c) p ∧
  scif_rb_count (scif_rb_update_read_ptr x100_card m c) c = scif_rb_count m c ∧
  scif_rb_count m c <= scif_rb_count (scif_rb_commit x100_card m p) c ∧
  scif_rb_space (scif_rb_commit x100_card m p) p = scif_rb_space m p ∧
  Spec.used (Spec.get_next q n).2 = Spec.used q ∧ rb_rep m p c' (Spec.get_next q n).2.
Proof.
  intros Hrep Hn E. pose proof (held_nonneg _ _ _ _ Hrep).
  pose proof (update_read_ptr_refines x100_card _ _ _ _ Hrep) as Hu.
  pose proof (commit_refines x100_card _ _ _ _ Hrep) as Hc.
  destruct (get_next_refines _ _ _ _ _ _ _ _ Hrep Hn E) as [_ Hg].
  rewrite (space_rep _ _ _ _ Hrep), (space_rep _ _ _ _ Hu), (space_rep _ _ _ _ Hc).
  rewrite (count_rep _ _ _ _ Hrep), (count_rep _ _ _ _ Hu), (count_rep _ _ _ _ Hc).
  pose proof (zlen_nonneg (Spec.q_pending q)).
  unfold Spec.used, Spec.update_read_ptr, Spec.commit, Spec.get_next; simpl.
  rewrite zlen_app. change (zlen (@nil Z)) with 0.
  split_and!; try lia; [|done]. zcases; simpl; [|done]. rewrite zlen_drop by lia. lia.
Qed.

Lemma scif_rb_checks_stable_witness :
  let rb := scif_rb_init demo_mem 8 16 4096 3 in
  @scif_rb_space linux_circ demo_mem rb <=
    @scif_rb_space linux_circ (scif_rb_update_read_ptr false demo_mem rb) rb.
Proof.
  intros rb. destruct (@scif_rb_get_next linux_circ demo_mem rb 0) as [[rc bs] c'] eqn:E.
  exact (proj1 (@scif_rb_checks_stable linux_circ false _ _ _ _ 0 _ _ _ demo_rep (Z.le_refl 0) E)).
Defined.

End ScifRb.
