(* ===== verification/RingBufferKnc.v ===== *)
(** * The SCIF ring buffer, first generation

    Models [mpss3/mpss-modules/micscif/micscif_rb.c].  Unlike its successor the
    consumer trusts a cached copy of the write offset and refreshes it only when
    the cache does not show enough bytes, and the producer stores the read
    offset it saw.  The file discharges the same interface [RingImpl]. *)
From S2P Require Import Prelude RingSpec.
Local Open Scope Z_scope.

Module MicScifRb.

(** [struct micscif_rb] *)
Record micscif_rb := Rb {
  rb_base : Z;
  read_ptr : Z;
  write_ptr : Z;
  size : Z;
  current_read_offset : Z;
  current_write_offset : Z;
  old_current_read_offset : Z;
  old_current_write_offset : Z;
}.

(** The assignments to a descriptor's offsets, old value first. *)
Definition set_read (rb : micscif_rb) (old cur : Z) : micscif_rb :=
  Rb (rb_base rb) (read_ptr rb) (write_ptr rb) (size rb) cur (current_write_offset rb)
     old (old_current_write_offset rb).
Definition set_write (rb : micscif_rb) (old cur : Z) : micscif_rb :=
  Rb (rb_base rb) (read_ptr rb) (write_ptr rb) (size rb) (current_read_offset rb) cur
     (old_current_read_offset rb) old.

Section Operations.
Context `{CircBuf}.
(** [CONFIG_MK1OM && _MIC_SCIF_]: the offset words are written twice.  The
    read-backs of [CONFIG_ML1OM] do not change memory. *)
Context (mk1om_card : bool).

(** [None] is the [BUG_ON] of a size that is not a power of two. *)
Definition micscif_rb_init (m : mem) (rb : micscif_rb) (read_ptr write_ptr rb_base size : Z)
  : option micscif_rb :=
  if negb (Z.land size (u32 (size - 1)) =? 0) then None
  else Some {|
    rb_base := rb_base;
    size := size;
    read_ptr := read_ptr;
    write_ptr := write_ptr;
    current_read_offset := rd_word m read_ptr;
    current_write_offset := rd_word m write_ptr;
    old_current_read_offset := old_current_read_offset rb;
    old_current_write_offset := old_current_write_offset rb |}.

Definition micscif_rb_reset (m : mem) (rb : micscif_rb) : mem * micscif_rb :=
  let m := wr_word m (read_ptr rb) 0 in
  let m := wr_word m (write_ptr rb) 0 in
  let rb := set_write rb (old_current_write_offset rb) (rd_word m (write_ptr rb)) in
  let rb := set_read rb (old_current_read_offset rb) (rd_word m (read_ptr rb)) in
  (m, rb).

Definition memcpy_torb (m : mem) (rb : micscif_rb) (header : Z) (msg : list Z) (sz : Z)
  : Z * mem :=
  (0,
   if rb_base rb + size rb <=? header + sz then
     let size1 := u32 (rb_base rb + size rb - header) in
     let size2 := u32 (sz - size1) in
     let m := memcpy_toio m header (ztake size1 msg) in
     memcpy_toio m (rb_base rb) (ztake size2 (zdrop size1 msg))
   else memcpy_toio m header (ztake sz msg)).

Definition memcpy_fromrb (m : mem) (rb : micscif_rb) (header sz : Z) : Z * list Z :=
  (0,
   if rb_base rb + size rb <=? header + sz then
     let size1 := u32 (rb_base rb + size rb - header) in
     let size2 := u32 (sz - size1) in
     memcpy_fromio m header size1 ++ memcpy_fromio m (rb_base rb) size2
   else memcpy_fromio m header sz).

Definition micscif_rb_space (m : mem) (rb : micscif_rb) : Z * micscif_rb :=
  let rb := set_read rb (current_read_offset rb) (rd_word m (read_ptr rb)) in
  (s32 (CIRC_SPACE (current_write_offset rb) (current_read_offset rb) (size rb)), rb).

Definition micscif_rb_write (m : mem) (rb : micscif_rb) (msg : list Z) (sz : Z)
  : Z * mem * micscif_rb :=
  let '(space, rb) := micscif_rb_space m rb in
  if u32 space <? sz then (- ENOMEM, m, rb)
  else
    let header := rb_base rb + current_write_offset rb in
    let '(ret, m) := memcpy_torb m rb header msg sz in
    if ret =? 0 then
      (ret, m, set_write rb (current_write_offset rb)
                 (Z.land (u32 (current_write_offset rb + sz)) (u32 (size rb - 1))))
    else (ret, m, rb).

Definition micscif_rb_count (m : mem) (rb : micscif_rb) (sz : Z) : Z * micscif_rb :=
  let rb :=
    if CIRC_CNT (current_write_offset rb) (current_read_offset rb) (size rb) <? sz
    then set_write rb (current_write_offset rb) (rd_word m (write_ptr rb))
    else rb in
  (CIRC_CNT (current_write_offset rb) (current_read_offset rb) (size rb), rb).

Definition micscif_rb_get (m : mem) (rb : micscif_rb) (sz : Z) : option Z * micscif_rb :=
  let '(cnt, rb) := micscif_rb_count m rb sz in
  if sz <=? cnt then (Some (rb_base rb + current_read_offset rb), rb) else (None, rb).

Definition micscif_rb_get_next (m : mem) (rb : micscif_rb) (sz : Z)
  : Z * list Z * micscif_rb :=
  let '(header, rb) := micscif_rb_get m rb sz in
  match header with
  | Some header =>
      let next_cmd_offset :=
        Z.land (u32 (current_read_offset rb + sz)) (u32 (size rb - 1)) in
      let read_size := sz in
      let rb := set_read rb (current_read_offset rb) next_cmd_offset in
      let '(err, bs) := memcpy_fromrb m rb header sz in
      if err =? 0 then (read_size, bs, rb) else (- EFAULT, bs, rb)
  | None => (0, [], rb)
  end.

Definition micscif_rb_update_read_ptr (m : mem) (rb : micscif_rb) : mem :=
  let new_offset := current_read_offset rb in
  let m := wr_word m (read_ptr rb) new_offset in
  if mk1om_card then wr_word m (read_ptr rb) new_offset else m.

Definition micscif_rb_commit (m : mem) (rb : micscif_rb) : mem :=
  let m := wr_word m (write_ptr rb) (current_write_offset rb) in
  if mk1om_card then wr_word m (write_ptr rb) (current_write_offset rb) else m.

Definition micscif_rb_get_version : Z := 1.

End Operations.

(** ** Refinement of the queue *)

Section Refinement.
Context `{CircBuf}.
Context (mk1om_card : bool).

(** As for the second generation, and the consumer's cached write offset marks
    a prefix, of [j] bytes, of what it may read. *)
Record rb_rep (m : mem) (p c : micscif_rb) (q : Spec.queue) : Prop := {
  rb_same : rb_base c = rb_base p ∧ read_ptr c = read_ptr p ∧
            write_ptr c = write_ptr p ∧ size c = size p;
  rb_ring : ∃ k, size p = 2 ^ k ∧
    ring_rep m (rb_base p) (read_ptr p) (write_ptr p) k
      (current_write_offset p) (current_read_offset c) q ∧
    ∃ j, 0 <= j <= zlen (Spec.q_ready q) ∧
         current_write_offset c = (current_read_offset c + j) mod 2 ^ k;
}.

Lemma knc_write_refines m p c q msg rc m' p' :
  rb_rep m p c q → micscif_rb_write m p msg (zlen msg) = (rc, m', p') →
  rc = (Spec.write q msg).1 ∧ rb_rep m' p' c (Spec.write q msg).2.
Proof.
  intros [Hsame (k & Hk & Hrep & j & Hj & Hcw)].
  pose proof (rep_pow_bounds _ _ _ _ _ _ _ _ Hrep). pose proof (rep_lens q).
  pose proof (zlen_nonneg msg).
  unfold micscif_rb_write, micscif_rb_space. simpl.
  rewrite Hk, (rep_space _ _ _ _ _ _ _ _ Hrep).
  assert (0 <= Spec.q_cap q - Spec.used q < 2 ^ 31)
    by (destruct Hrep; unfold Spec.used in *; lia).
  rewrite swrap_small, wrap_small by (unfold in_width; lia).
  unfold Spec.write. destruct (Z.ltb_spec (Spec.q_cap q - Spec.used q) (zlen msg)).
  - intros [= <- <- <-]. split; [done|]. split; [done|]. exists k. eauto 10.
  - intros [= <- <- <-]. split; [done|]. split; [done|]. exists k. split; [done|].
    split; [|by exists j]. pose proof (rep_offsets _ _ _ _ _ _ _ _ Hrep). simpl.
    rewrite (rep_mask _ _ _ _ _ _ _ _ Hrep); [|lia|destruct Hrep; unfold Spec.used in *; lia].
    by apply rep_write.
Qed.

Lemma knc_commit_refines m p c q :
  rb_rep m p c q → rb_rep (micscif_rb_commit mk1om_card m p) p c (Spec.commit q).
Proof.
  intros [Hsame (k & Hk & Hrep & j & Hj & Hcw)]. split; [done|]. exists k. split; [done|].
  split.
  - unfold micscif_rb_commit. destruct mk1om_card; rewrite ?wr_word_wr_word; by apply rep_commit.
  - exists j. simpl. rewrite zlen_app. pose proof (zlen_nonneg (Spec.q_pending q)). split; [lia|done].
Qed.

(** What the (possibly refreshed) cache answers. *)
Lemma knc_count_rep m p c q n cnt c' :
  rb_rep m p c q → micscif_rb_count m c n = (cnt, c') →
  (n <= cnt ↔ n <= zlen (Spec.q_ready q)) ∧ cnt <= zlen (Spec.q_ready q) ∧
  rb_rep m p c' q ∧ current_read_offset c' = current_read_offset c ∧
  ∃ k, current_write_offset c' = (current_read_offset c + cnt) mod 2 ^ k ∧ size p = 2 ^ k.
Proof.
  intros [(Eb & Er & Ew & Es) (k & Hk & Hrep & j & Hj & Hcw)].
  pose proof (rep_pow_bounds _ _ _ _ _ _ _ _ Hrep). pose proof (rep_lens q).
  pose proof (rep_offsets _ _ _ _ _ _ _ _ Hrep).
  assert (zlen (Spec.q_ready q) < 2 ^ k) by (destruct Hrep; unfold Spec.used in *; lia).
  pose proof (Z.mod_pos_bound (current_read_offset c + j) (2 ^ k) ltac:(lia)).
  assert (CIRC_CNT (current_write_offset c) (current_read_offset c) (size c) = j) as Ej.
  { rewrite Es, Hk, circ_cnt_spec by (destruct Hrep; lia).
    rewrite Hcw. apply mod_add_cancel_l; lia. }
  unfold micscif_rb_count. rewrite Ej.
  destruct (Z.ltb_spec j n); intros [= <- <-]; simpl.
  - rewrite Ew, Es, Hk, (rep_count _ _ _ _ _ _ _ _ Hrep).
    split_and!; try lia; try done.
    + split; [done|]. exists k. split_and!; try done. exists (zlen (Spec.q_ready q)).
      split; [lia|]. simpl. by destruct Hrep.
    + exists k. split; [|done]. by destruct Hrep.
  - rewrite Ej. split_and!; try lia; try done.
    + split; [done|]. exists k. eauto.
    + exists k. by rewrite Hcw.
Qed.

Lemma knc_get_next_refines m p c q n rc bs c' :
  rb_rep m p c q → 0 <= n → micscif_rb_get_next m c n = (rc, bs, c') →
  (rc, bs) = (Spec.get_next q n).1 ∧ rb_rep m p c' (Spec.get_next q n).2.
Proof.
  intros Hrep0 Hn. unfold micscif_rb_get_next, micscif_rb_get.
  destruct (micscif_rb_count m c n) as [cnt c1] eqn:E.
  destruct (knc_count_rep _ _ _ _ _ _ _ Hrep0 E) as (Hcnt & Hle & Hrep1 & Hcr & k' & Hcw1 & Hk').
  unfold Spec.get_next. destruct (Z.leb_spec n cnt) as [Hc|Hc].
  - destruct (Z.leb_spec n (zlen (Spec.q_ready q))); [|lia].
    destruct Hrep1 as [(Eb & Er & Ew & Es) (k & Hk & Hrep & _)].
    assert (2 ^ k' = 2 ^ k) as Ek by congruence. rewrite Ek in Hcw1.
    unfold memcpy_fromrb; simpl. intros [= <- <- <-]. rewrite Eb, Es, Hk.
    destruct (rep_read _ _ _ _ _ _ _ _ Hrep n ltac:(lia)) as [Hbs Hrep'].
    unfold copy_fromrb in Hbs. rewrite Hbs. split; [done|]. split; [done|].
    exists k. split; [done|]. simpl.
    pose proof (rep_offsets _ _ _ _ _ _ _ _ Hrep). pose proof (rep_lens q).
    rewrite (rep_mask _ _ _ _ _ _ _ _ Hrep);
      [|lia|destruct Hrep; unfold Spec.used in *; lia].
    split; [done|]. exists (cnt - n). rewrite zlen_drop by lia. split; [lia|].
    rewrite Hcw1, Hcr, Zplus_mod_idemp_l. f_equal. lia.
  - destruct (Z.leb_spec n (zlen (Spec.q_ready q))); [lia|].
    intros [= <- <- <-]. done.
Qed.

Lemma knc_update_refines m p c q :
  rb_rep m p c q →
  rb_rep (micscif_rb_update_read_ptr mk1om_card m c) p c (Spec.update_read_ptr q).
Proof.
  intros [Hsame (k & Hk & Hrep & j & Hj & Hcw)]. split; [done|]. exists k. split; [done|].
  destruct Hsame as (Eb & Er & Ew & Es). split.
  - unfold micscif_rb_update_read_ptr. rewrite Er.
    destruct mk1om_card; rewrite ?wr_word_wr_word; by apply rep_update.
  - exists j. done.
Qed.

#[export] Instance micscif_ring_impl : RingImpl := {|
  ri_rb := micscif_rb;
  ri_write := micscif_rb_write;
  ri_commit := micscif_rb_commit mk1om_card;
  ri_get_next := micscif_rb_get_next;
  ri_update := micscif_rb_update_read_ptr mk1om_card;
  ri_rep := rb_rep;
  ri_write_ok := knc_write_refines;
  ri_commit_ok := knc_commit_refines;
  ri_get_next_ok := knc_get_next_refines;
  ri_update_ok := knc_update_refines;
|}.

(** A reset of a ring both sides share, then adopted by both descriptors. *)
Lemma knc_reset_rep m p c k :
  0 <= k <= 31 → size p = 2 ^ k → 0 < rb_base p → read_ptr p ≠ write_ptr p →
  rb_base c = rb_base p → read_ptr c = read_ptr p →
  write_ptr c = write_ptr p → size c = size p →
  let '(m1, p1) := micscif_rb_reset m p in
  let '(m2, c2) := micscif_rb_reset m1 c in
  rb_rep m2 p1 c2 (Spec.empty (2 ^ k - 1)).
Proof.
  intros Hk Hsz Hb Hne Eb Er Ew Es. unfold micscif_rb_reset.
  assert (0 < 2 ^ k) by lia.
  split; [done|]. exists k. simpl. rewrite Er, Ew, !rd_word_wr_word.
  split; [done|]. zcases; try congruence.
  split; [|exists 0; unfold zlen; simpl; rewrite Z.mod_small by lia; lia].
  split; simpl; rewrite ?rd_word_wr_word; zcases; try congruence; try lia;
    unfold Spec.used, zlen; simpl; rewrite ?Z.mod_small by lia; try lia; try done.
  intros i Hi. unfold zlen in Hi; simpl in Hi. lia.
Qed.

End Refinement.

(** ** Claims *)

(** C22: The first-generation ring, with its cached write offset, is the same
    queue: after both sides reset a ring of 2^k bytes, whatever the interleaving
    of operations, delivered bytes are the first accepted bytes in order and at
    most 2^k - 1 bytes are in transit. *)
Theorem micscif_rb_fifo `{CircBuf} (mk1om_card : bool) m p c k ops :
  0 <= k <= 31 → size p = 2 ^ k → 0 < rb_base p → read_ptr p ≠ write_ptr p →
  rb_base c = rb_base p → read_ptr c = read_ptr p →
  write_ptr c = write_ptr p → size c = size p →
  let '(m1, p1) := micscif_rb_reset m p in
  let '(m2, c2) := micscif_rb_reset m1 c in
  let r := ring_steps (@RingRun (micscif_ring_impl mk1om_card) m2 p1 c2 [] []) ops in
  ∃ transit, rn_accepted r = rn_delivered r ++ transit ∧ zlen transit <= 2 ^ k - 1.
Proof.
  intros Hk Hsz Hb Hne Eb Er Ew Es.
  pose proof (knc_reset_rep m p c k Hk Hsz Hb Hne Eb Er Ew Es) as Hinit.
  destruct (micscif_rb_reset m p) as [m1 p1].
  destruct (micscif_rb_reset m1 c) as [m2 c2]. intros r.
  assert (run_inv (2 ^ k - 1) r) as (q & Hrep & Hcap & Hacc).
  { apply ring_steps_inv. eexists. split; [exact Hinit|done]. }
  exists (Spec.q_ready q ++ Spec.q_pending q). split; [done|].
  destruct Hrep as [_ (k' & Hsz' & Hring & _)].
  rewrite zlen_app. destruct Hring. unfold Spec.used in *. lia.
Qed.

Definition demo_rb : micscif_rb := Rb 4096 8 16 8 0 0 0 0.

Lemma micscif_rb_fifo_witness :
  let '(m1, p1) := micscif_rb_reset (Mem ∅ ∅) demo_rb in
  let '(m2, c2) := micscif_rb_reset m1 demo_rb in
  let r := ring_steps (@RingRun (@micscif_ring_impl linux_circ true) m2 p1 c2 [] [])
    [OpWrite [1; 2; 3; 4; 5]; OpCommit; OpGet 2; OpUpdate; OpWrite [6; 7; 8]; OpGet 9] in
  ∃ transit, rn_accepted r = rn_delivered r ++ transit ∧ zlen transit <= 2 ^ 3 - 1.
Proof.
  apply (@micscif_rb_fifo linux_circ true (Mem ∅ ∅) demo_rb demo_rb 3); simpl; lia.
Defined.

End MicScifRb.
