(* ===== verification/Ports.v ===== *)
(** * SCIF port numbers, second generation

    Models the implementation [mpss4/mpss-modules/mic/scif/scif_ports.c] uses on
    kernels from 3.10 on: an idr from port numbers to reference counts.  Each
    operation runs under [scif_info.port_lock] and is one atomic step.  The
    kernel's identifier allocator is the parameter [IdAllocator]. *)
From S2P Require Import Prelude.
From stdpp Require Import gmultiset.
Local Open Scope Z_scope.

(** ** The kernel's identifier allocator

    [id_alloc used start end] is the result of [idr_alloc]/[ida_simple_get] when
    the identifiers in [used] are taken.  The kernel documents: an unused
    identifier of [[start, end)], [-ENOSPC] when there is none, [-ENOMEM] when
    memory runs out. *)
Class IdAllocator := {
  id_alloc : gset Z → Z → Z → Z;
  id_alloc_result used start end_ :
    0 <= start →
    (start <= id_alloc used start end_ < end_ ∧ id_alloc used start end_ ∉ used) ∨
    (id_alloc used start end_ = - ENOSPC ∧ ∀ i, start <= i < end_ → i ∈ used) ∨
    id_alloc used start end_ = - ENOMEM;
}.

(** An allocator that takes the lowest free identifier, to show the hypotheses
    can be met. *)
Fixpoint lowest_free (n : nat) (used : gset Z) (start : Z) : Z :=
  match n with
  | O => - ENOSPC
  | S n => if decide (start ∈ used) then lowest_free n used (start + 1) else start
  end.

Lemma lowest_free_spec n : ∀ used start, 0 <= start →
  (start <= lowest_free n used start < start + Z.of_nat n ∧ lowest_free n used start ∉ used) ∨
  (lowest_free n used start = - ENOSPC ∧ ∀ i, start <= i < start + Z.of_nat n → i ∈ used).
Proof.
  induction n as [|n IH]; intros used start Hs; simpl; [right; split; [done|lia]|].
  case_decide as Hin; [|left; split; [lia|done]].
  destruct (IH used (start + 1) ltac:(lia)) as [[H1 H2]|[H1 H2]]; [left|right].
  - split; [lia|done].
  - split; [done|]. intros i Hi. destruct (decide (i = start)) as [->|]; [done|].
    apply H2. lia.
Qed.

Program Definition lowest_allocator : IdAllocator := {|
  id_alloc used start end_ := lowest_free (Z.to_nat (end_ - start)) used start
|}.
Next Obligation.
  intros used start end_ Hs. simpl.
  destruct (lowest_free_spec (Z.to_nat (end_ - start)) used start Hs) as [[H1 H2]|[H1 H2]].
  - left. split; [lia|done].
  - right; left. split; [done|]. intros i Hi. apply H2. lia.
Qed.

Module ScifPorts.

Definition SCIF_PORT_COUNT : Z := 0x10000.
Definition SCIF_PORT_RSVD : Z := 1088.

(** The idr [scif_ports]; a [struct scif_port] is its [ref_cnt]. *)
Notation scif_ports := (gmap Z Z).

Section Operations.
Context `{IdAllocator}.

(** [kz]: whether [kzalloc] returns memory. *)
Definition __scif_get_port (kz : bool) (ports : scif_ports) (start end_ : Z)
  : Z * scif_ports :=
  if negb kz then (- ENOMEM, ports)
  else
    let ref_cnt := 0 in
    let id := id_alloc (dom ports) start end_ in
    if 0 <=? id then (id, <[id := ref_cnt + 1]> ports) else (id, ports).

Definition scif_rsrv_port (kz : bool) (ports : scif_ports) (port : Z) : Z * scif_ports :=
  __scif_get_port kz ports port (port + 1).

Definition scif_get_new_port (kz : bool) (ports : scif_ports) : Z * scif_ports :=
  __scif_get_port kz ports (SCIF_PORT_RSVD + 1) SCIF_PORT_COUNT.

Definition scif_get_port (ports : scif_ports) (id : Z) : scif_ports :=
  if id =? 0 then ports
  else match ports !! id with
       | Some ref_cnt => <[id := ref_cnt + 1]> ports
       | None => ports
       end.

Definition scif_put_port (ports : scif_ports) (id : Z) : scif_ports :=
  if id =? 0 then ports
  else match ports !! id with
       | Some ref_cnt =>
           let ref_cnt := ref_cnt - 1 in
           if ref_cnt =? 0 then delete id ports else <[id := ref_cnt]> ports
       | None => ports
       end.

End Operations.

(** ** References held by endpoints

    A ghost multiset of port references: binding takes one, accepting a
    connection duplicates one that is held, closing drops one that is held.  The
    table is right when it counts exactly these. *)
Definition nrefs (p : Z) (r : gmultiset Z) : Z := Z.of_nat (multiplicity p r).

Definition counts (ports : scif_ports) (r : gmultiset Z) : Prop :=
  ∀ p, ports !! p = if nrefs p r =? 0 then None else Some (nrefs p r).

Inductive port_step `{IdAllocator}
  : scif_ports * gmultiset Z → scif_ports * gmultiset Z → Prop :=
| step_bind kz p id ports ports' r :
    0 < p < SCIF_PORT_COUNT →
    scif_rsrv_port kz ports p = (id, ports') →
    port_step (ports, r) (ports', if 0 <=? id then {[+ id +]} ⊎ r else r)
| step_bind_any kz id ports ports' r :
    scif_get_new_port kz ports = (id, ports') →
    port_step (ports, r) (ports', if 0 <=? id then {[+ id +]} ⊎ r else r)
| step_accept p ports r :
    p ∈ r → port_step (ports, r) (scif_get_port ports p, {[+ p +]} ⊎ r)
| step_close p ports r :
    p ∈ r → port_step (ports, r) (scif_put_port ports p, r ∖ {[+ p +]}).

Section Lemmas.
Context `{IdAllocator}.

Lemma nrefs_add p q r : nrefs p ({[+ q +]} ⊎ r) = if p =? q then nrefs p r + 1 else nrefs p r.
Proof.
  unfold nrefs. rewrite multiplicity_disj_union. zcases; subst.
  - rewrite multiplicity_singleton_eq. lia.
  - rewrite multiplicity_singleton_ne by done. lia.
Qed.

Lemma nrefs_elem p r : p ∈ r → 0 < nrefs p r.
Proof. unfold nrefs. rewrite elem_of_multiplicity. lia. Qed.

Lemma nrefs_nonneg p r : 0 <= nrefs p r.
Proof. unfold nrefs. lia. Qed.

Lemma nrefs_remove p q r :
  q ∈ r → nrefs p (r ∖ {[+ q +]}) = if p =? q then nrefs p r - 1 else nrefs p r.
Proof.
  intros Hq. apply nrefs_elem in Hq. unfold nrefs in *. rewrite multiplicity_difference.
  zcases; subst.
  - rewrite multiplicity_singleton_eq. lia.
  - rewrite multiplicity_singleton_ne by done. lia.
Qed.

Lemma get_port_result kz ports start end_ id ports' :
  0 <= start → __scif_get_port kz ports start end_ = (id, ports') →
  (start <= id < end_ ∧ ports !! id = None ∧ ports' = <[id := 1]> ports) ∨
  (ports' = ports ∧ (id = - ENOMEM ∨
    id = - ENOSPC ∧ kz = true ∧ ∀ i, start <= i < end_ → is_Some (ports !! i))).
Proof.
  intros Hs. unfold __scif_get_port. destruct kz; simpl; [|intros [= <- <-]; eauto].
  destruct (id_alloc_result (dom ports) start end_ Hs) as [[H1 H2]|[[H1 H2]|H1]].
  - destruct (Z.leb_spec 0 (id_alloc (dom ports) start end_)); [|lia].
    intros [= <- <-]. left. split_and!; [lia|lia| |done]. by apply not_elem_of_dom.
  - rewrite H1. intros [= <- <-]. right. split; [done|]. right. split_and!; [done|done|].
    intros i Hi. by apply elem_of_dom, H2.
  - rewrite H1. intros [= <- <-]. right. eauto.
Qed.

Lemma counts_alloc ports r id :
  counts ports r → ports !! id = None → counts (<[id := 1]> ports) ({[+ id +]} ⊎ r).
Proof.
  intros Hc Hn p. rewrite nrefs_add, lookup_insert. pose proof (nrefs_nonneg p r).
  pose proof (Hc p) as Hp. destruct (decide (id = p)) as [->|Hne].
  - rewrite Hn in Hp. zsolve. do 2 f_equal. lia.
  - rewrite Hp. zsolve.
Qed.

Lemma counts_get ports r p :
  counts ports r → p ≠ 0 → p ∈ r → counts (scif_get_port ports p) ({[+ p +]} ⊎ r).
Proof.
  intros Hc Hp0 Hin x. apply nrefs_elem in Hin. rewrite nrefs_add.
  unfold scif_get_port. rewrite (Hc p). pose proof (nrefs_nonneg x r).
  zcases; try lia; rewrite lookup_insert; case_decide; subst; try lia; try done;
    rewrite (Hc x); zsolve.
Qed.

Lemma counts_put ports r p :
  counts ports r → p ≠ 0 → p ∈ r → counts (scif_put_port ports p) (r ∖ {[+ p +]}).
Proof.
  intros Hc Hp0 Hin x. rewrite nrefs_remove by done. apply nrefs_elem in Hin.
  unfold scif_put_port. rewrite (Hc p). pose proof (nrefs_nonneg x r).
  zcases; try lia; rewrite ?lookup_insert, ?lookup_delete; case_decide;
    subst; try lia; try done; rewrite (Hc x); zsolve.
Qed.

Definition port_inv (s : scif_ports * gmultiset Z) : Prop :=
  counts s.1 s.2 ∧ ∀ p, p ∈ s.2 → 0 < p < SCIF_PORT_COUNT.

Lemma port_inv_alloc ports r id ports' :
  port_inv (ports, r) → 0 < id < SCIF_PORT_COUNT → ports !! id = None →
  ports' = <[id := 1]> ports → port_inv (ports', {[+ id +]} ⊎ r).
Proof.
  intros [Hc Hr] Hid Hn ->. split; simpl; [by apply counts_alloc|].
  intros p [Hp|Hp]%gmultiset_elem_of_disj_union; [|by apply Hr].
  apply gmultiset_elem_of_singleton in Hp. by subst.
Qed.

Lemma port_step_inv s s' : port_step s s' → port_inv s → port_inv s'.
Proof.
  intros Hst. inversion Hst as [kz p id ports ports' r Hp E|kz id ports ports' r E
                               |p ports r Hin|p ports r Hin]; subst; intros Hinv.
  - unfold scif_rsrv_port in E. apply get_port_result in E as [(H1 & H2 & ->)|[-> E]]; [| |lia].
    + zcases; [|lia]. apply port_inv_alloc with ports; try done. lia.
    + unfold ENOMEM, ENOSPC in E. zcases; [lia|done].
  - unfold scif_get_new_port, SCIF_PORT_RSVD in E.
    apply get_port_result in E as [(H1 & H2 & ->)|[-> E]]; [| |lia].
    + zcases; [|lia]. apply port_inv_alloc with ports; try done. lia.
    + unfold ENOMEM, ENOSPC in E. zcases; [lia|done].
  - destruct Hinv as [Hc Hr]. simpl in *. pose proof (Hr _ Hin). split; simpl.
    + apply counts_get; [done|lia|done].
    + intros x [Hx|Hx]%gmultiset_elem_of_disj_union; [|by apply Hr].
      apply gmultiset_elem_of_singleton in Hx. by subst.
  - destruct Hinv as [Hc Hr]. simpl in *. pose proof (Hr _ Hin). split; simpl.
    + apply counts_put; [done|lia|done].
    + intros x Hx. apply Hr. revert Hx. rewrite !elem_of_multiplicity.
      rewrite multiplicity_difference. lia.
Qed.

Lemma port_reachable_inv s : rtc port_step (∅, ∅) s → port_inv s.
Proof.
  assert (∀ s0 s1, rtc port_step s0 s1 → port_inv s0 → port_inv s1) as Hrtc.
  { induction 1; eauto using port_step_inv. }
  intros Hs. apply Hrtc in Hs; [done|]. split; simpl.
  - intros p. unfold nrefs. rewrite multiplicity_empty. by rewrite lookup_empty.
  - intros p Hp. by apply gmultiset_not_elem_of_empty in Hp.
Qed.

End Lemmas.

(** ** Claims *)

(** C21: In every state reachable by binding, accepting and closing endpoints,
    the reference count kept for a port is exactly the number of references
    held on it, and a port is in the table exactly while some reference is held:
    no port is released early, none leaks. *)
Theorem scif_ports_count_references `{IdAllocator} ports r :
  rtc port_step (∅, ∅) (ports, r) →
  ∀ p, (p ∈ r ↔ is_Some (ports !! p)) ∧
       (∀ n, ports !! p = Some n → n = nrefs p r ∧ 0 < n ∧ 0 < p < SCIF_PORT_COUNT).
Proof.
  intros Hreach p. apply port_reachable_inv in Hreach as [Hc Hr]. simpl in *.
  rewrite (Hc p). pose proof (nrefs_nonneg p r).
  assert (p ∈ r ↔ 0 < nrefs p r) as Hin.
  { unfold nrefs. rewrite elem_of_multiplicity. lia. }
  rewrite Hin. split.
  - zcases; split; intros Hx; try lia; try (by destruct Hx); by eexists.
  - intros n. zcases; intros Hn; simplify_eq. split_and!; try lia; apply Hr, Hin; lia.
Qed.

Lemma scif_ports_count_references_witness :
  ∃ ports r, @rtc _ (@port_step lowest_allocator) (∅, ∅) (ports, r) ∧
    ports !! 1089 = Some 2 ∧ 2 = nrefs 1089 r.
Proof.
  assert (@rtc _ (@port_step lowest_allocator) (∅, ∅)
            ({[1089 := 2]}, {[+ 1089 +]} ⊎ ({[+ 1089 +]} ⊎ ∅))) as Hreach.
  { apply rtc_l with ({[1089 := 1]}, {[+ 1089 +]} ⊎ ∅).
    { apply (@step_bind_any lowest_allocator true 1089). vm_compute. reflexivity. }
    apply rtc_l with ({[1089 := 2]}, {[+ 1089 +]} ⊎ ({[+ 1089 +]} ⊎ ∅)); [|apply rtc_refl].
    replace ({[1089 := 2]} : gmap Z Z) with (scif_get_port {[1089 := 1]} 1089)
      by (vm_compute; reflexivity).
    apply (@step_accept lowest_allocator 1089 {[1089 := 1]}).
    apply gmultiset_elem_of_disj_union. left. by apply gmultiset_elem_of_singleton. }
  exists {[1089 := 2]}, ({[+ 1089 +]} ⊎ ({[+ 1089 +]} ⊎ ∅)).
  split; [exact Hreach|]. split; [reflexivity|].
  exact (proj1 (proj2 (@scif_ports_count_references lowest_allocator _ _ Hreach 1089) 2 eq_refl)).
Defined.

(** A reservation hands out a port nobody holds: scif_rsrv_port returns the
    requested port or leaves the table alone with an error, and never succeeds
    on a port in use; scif_get_new_port returns a free port strictly above the
    reserved range and fails with -ENOSPC only when that whole range is taken. *)
Theorem scif_port_exclusive `{IdAllocator} kz ports port id ports' id2 ports2 :
  0 <= port →
  scif_rsrv_port kz ports port = (id, ports') →
  scif_get_new_port kz ports = (id2, ports2) →
  (0 <= id → id = port ∧ ports !! port = None ∧ ports' = <[port := 1]> ports) ∧
  (id < 0 → ports' = ports ∧ (id = - ENOMEM ∨ id = - ENOSPC ∧ is_Some (ports !! port))) ∧
  (0 <= id2 → SCIF_PORT_RSVD < id2 < SCIF_PORT_COUNT ∧ ports !! id2 = None ∧
              ports2 = <[id2 := 1]> ports) ∧
  (id2 < 0 → ports2 = ports ∧ (id2 = - ENOMEM ∨
     id2 = - ENOSPC ∧ ∀ i, SCIF_PORT_RSVD < i < SCIF_PORT_COUNT → is_Some (ports !! i))).
Proof.
  intros Hp E1 E2. unfold scif_rsrv_port in E1. unfold scif_get_new_port in E2.
  apply get_port_result in E1; [|done].
  apply get_port_result in E2; [|unfold SCIF_PORT_RSVD; lia].
  unfold ENOMEM, ENOSPC, SCIF_PORT_RSVD in *. split_and!; intros Hid.
  - destruct E1 as [(H1 & H2 & H3)|(_ & E1)]; [|lia].
    assert (id = port) as -> by lia. done.
  - destruct E1 as [(H1 & _)|(H1 & E1)]; [lia|]. split; [done|].
    destruct E1 as [|(? & _ & E1)]; [eauto|]. right. split; [done|]. apply E1. lia.
  - destruct E2 as [(H1 & H2 & H3)|(_ & E2)]; [|lia]. split; [lia|done].
  - destruct E2 as [(H1 & _)|(H1 & E2)]; [lia|]. split; [done|].
    destruct E2 as [|(? & _ & E2)]; [eauto|]. right. split; [done|].
    intros i Hi. apply E2. lia.
Qed.

Lemma scif_port_exclusive_witness :
  let '(id, ports') := @scif_rsrv_port lowest_allocator true {[ 2000 := 1 ]} 2000 in
  id < 0 → ports' = {[ 2000 := 1 ]}.
Proof.
  destruct (@scif_rsrv_port lowest_allocator true {[ 2000 := 1 ]} 2000) as [id ports'] eqn:E1.
  destruct (@scif_get_new_port lowest_allocator true {[ 2000 := 1 ]}) as [id2 ports2] eqn:E2.
  intros Hid.
  exact (proj1 (proj1 (proj2 (@scif_port_exclusive lowest_allocator true _ 2000 _ _ _ _
    ltac:(lia) E1 E2)) Hid)).
Defined.

End ScifPorts.
