(* ===== verification/PortsIda.v ===== *)
(** * SCIF port numbers on kernels before 3.10

    Models the other half of [mpss4/mpss-modules/mic/scif/scif_ports.c]: an ida
    of the numbers in use and the linked list [scif_info.ports_in_use] of
    reference counts, and proves that it behaves as the idr of file Ports. *)
From S2P Require Import Prelude Ports.
Local Open Scope Z_scope.

Module IdaPorts.

(** [struct scif_port]: its [id] and [ref_cnt]; the list link is the list. *)
Record scif_port := Port { id : Z; ref_cnt : Z }.

Record port_info := PortInfo { scif_ports : gset Z; ports_in_use : list scif_port }.

Section Operations.
Context `{IdAllocator}.

Definition __scif_get_port (kz : bool) (st : port_info) (start end_ : Z) : Z * port_info :=
  let i := id_alloc (scif_ports st) start end_ in
  if 0 <=? i then
    let ida := {[ i ]} ∪ scif_ports st in
    if negb kz then (- ENOMEM, PortInfo (ida ∖ {[ i ]}) (ports_in_use st))
    else (i, PortInfo ida (ports_in_use st ++ [Port i (0 + 1)]))
  else (i, st).

Definition scif_rsrv_port (kz : bool) (st : port_info) (port : Z) : Z * port_info :=
  __scif_get_port kz st port (port + 1).

Definition scif_get_new_port (kz : bool) (st : port_info) : Z * port_info :=
  __scif_get_port kz st (ScifPorts.SCIF_PORT_RSVD + 1) ScifPorts.SCIF_PORT_COUNT.

(** [list_for_each] up to the first match. *)
Fixpoint ref_first (p : Z) (l : list scif_port) : list scif_port :=
  match l with
  | [] => []
  | port :: l' =>
      if id port =? p then Port (id port) (ref_cnt port + 1) :: l'
      else port :: ref_first p l'
  end.

Definition scif_get_port (st : port_info) (p : Z) : port_info :=
  if p =? 0 then st else PortInfo (scif_ports st) (ref_first p (ports_in_use st)).

(** [list_for_each_safe]: the walk stops only where a count drops to zero. *)
Fixpoint put_walk (p : Z) (ida : gset Z) (l : list scif_port) : port_info :=
  match l with
  | [] => PortInfo ida []
  | port :: l' =>
      if p =? id port then
        let port := Port (id port) (ref_cnt port - 1) in
        if ref_cnt port =? 0 then PortInfo (ida ∖ {[ id port ]}) l'
        else let st := put_walk p ida l' in PortInfo (scif_ports st) (port :: ports_in_use st)
      else let st := put_walk p ida l' in PortInfo (scif_ports st) (port :: ports_in_use st)
  end.

Definition scif_put_port (st : port_info) (p : Z) : port_info :=
  if p =? 0 then st else put_walk p (scif_ports st) (ports_in_use st).

End Operations.

(** ** Simulation *)

Definition table (l : list scif_port) : gmap Z Z :=
  list_to_map ((λ p, (id p, ref_cnt p)) <$> l).

Definition ids (l : list scif_port) : list Z := id <$> l.

Record sim (ports : gmap Z Z) (st : port_info) : Prop := {
  sim_nodup : NoDup (ids (ports_in_use st));
  sim_table : table (ports_in_use st) = ports;
  sim_ida : scif_ports st = dom ports;
}.

Lemma table_notin p l : p ∉ ids l → table l !! p = None.
Proof.
  intros Hp. unfold table. apply not_elem_of_list_to_map_1.
  by rewrite <- list_fmap_compose.
Qed.

Lemma table_elem p l : NoDup (ids l) → p ∈ ids l → is_Some (table l !! p).
Proof.
  intros Hnd ([i n] & -> & Hin)%list_elem_of_fmap. exists n. apply elem_of_list_to_map_1.
  - by rewrite <- list_fmap_compose.
  - apply list_elem_of_fmap. by exists (Port i n).
Qed.

Lemma table_cons x l : table (x :: l) = <[id x := ref_cnt x]> (table l).
Proof. done. Qed.

Lemma table_snoc p n l : p ∉ ids l → table (l ++ [Port p n]) = <[p := n]> (table l).
Proof.
  induction l as [|x l IH]; intros Hp; [done|].
  unfold ids in Hp. rewrite fmap_cons, not_elem_of_cons in Hp. destruct Hp as [Hne Hp].
  change ((x :: l) ++ [Port p n]) with (x :: (l ++ [Port p n])).
  rewrite !table_cons, IH by done. by rewrite insert_insert_ne by done.
Qed.

Lemma put_walk_notin p ida l : p ∉ ids l → put_walk p ida l = PortInfo ida l.
Proof.
  induction l as [|x l IH]; intros Hp; simpl; [done|].
  unfold ids in Hp. rewrite fmap_cons, not_elem_of_cons in Hp. destruct Hp as [Hne Hp].
  destruct (Z.eqb_spec p (id x)); [done|]. by rewrite IH.
Qed.

Lemma ref_first_ids p l : ids (ref_first p l) = ids l.
Proof.
  induction l as [|x l IH]; simpl; [done|]. destruct (Z.eqb_spec (id x) p); [done|].
  unfold ids in *. rewrite !fmap_cons. by rewrite IH.
Qed.

Lemma ref_first_table p l :
  NoDup (ids l) →
  table (ref_first p l) =
  match table l !! p with Some n => <[p := n + 1]> (table l) | None => table l end.
Proof.
  induction l as [|x l IH]; intros Hnd; simpl; [done|].
  unfold ids in Hnd. rewrite fmap_cons, NoDup_cons in Hnd. destruct Hnd as [Hx Hnd].
  zcases; subst; rewrite !table_cons; simpl.
  - rewrite lookup_insert_eq. by rewrite insert_insert_eq.
  - rewrite lookup_insert_ne, IH by done. destruct (table l !! p); [|done].
    by rewrite insert_insert_ne.
Qed.

Lemma put_walk_spec p ida l :
  NoDup (ids l) →
  let st := put_walk p ida l in
  NoDup (ids (ports_in_use st)) ∧ (∀ x, x ∈ ids (ports_in_use st) → x ∈ ids l) ∧
  match table l !! p with
  | Some n =>
      if n - 1 =? 0
      then table (ports_in_use st) = delete p (table l) ∧ scif_ports st = ida ∖ {[ p ]}
      else table (ports_in_use st) = <[p := n - 1]> (table l) ∧ scif_ports st = ida
  | None => st = PortInfo ida l
  end.
Proof.
  induction l as [|x l IH]; intros Hnd; simpl; [done|].
  pose proof Hnd as Hnd0. unfold ids in Hnd. rewrite fmap_cons, NoDup_cons in Hnd.
  destruct Hnd as [Hx Hnd]. rewrite table_cons. destruct (Z.eqb_spec p (id x)) as [->|Hne].
  - rewrite lookup_insert_eq. destruct (Z.eqb_spec (ref_cnt x - 1) 0); simpl.
    + split_and!; [done|intros y Hy; by apply elem_of_cons; right| |done].
      by rewrite delete_insert_id by (by apply table_notin).
    + rewrite put_walk_notin by done. simpl. split_and!; try done.
      rewrite table_cons. by rewrite insert_insert_eq.
  - rewrite lookup_insert_ne by done. destruct (IH Hnd) as (H1 & H2 & H3). simpl.
    split_and!.
    + apply NoDup_cons. split; [|done]. intros Hin. by apply Hx, H2.
    + intros y [->|Hy]%elem_of_cons; apply elem_of_cons; [by left|right; by apply H2].
    + destruct (table l !! p) as [n|]; [|by rewrite H3].
      rewrite !table_cons. destruct (n - 1 =? 0); destruct H3 as [-> ->]; split; try done.
      * by rewrite delete_insert_ne.
      * by rewrite insert_insert_ne.
Qed.

Section Simulation.
Context `{IdAllocator}.

Lemma sim_get_new kz ports st start end_ i st' j ports' :
  0 <= start → sim ports st → __scif_get_port kz st start end_ = (i, st') →
  ScifPorts.__scif_get_port kz ports start end_ = (j, ports') →
  sim ports' st' ∧ (i = j ∨ kz = false ∧ i < 0 ∧ j < 0).
Proof.
  intros Hs [Hnd Ht Hida]. unfold __scif_get_port, ScifPorts.__scif_get_port.
  rewrite Hida. destruct (id_alloc_result (dom ports) start end_ Hs) as [[H1 H2]|H1].
  - destruct (Z.leb_spec 0 (id_alloc (dom ports) start end_)); [|lia].
    assert (id_alloc (dom ports) start end_ ∉ ids (ports_in_use st)) as Hnin.
    { intros Hin. apply H2, elem_of_dom. apply table_elem in Hin; [|done]. by rewrite Ht in Hin. }
    destruct kz; simpl; intros [= <- <-] [= <- <-].
    + split; [|by left]. split; simpl.
      * unfold ids in *. rewrite fmap_app. simpl. apply NoDup_app. split_and!; [done| |].
        { intros y Hy ->%list_elem_of_singleton. done. }
        apply NoDup_singleton.
      * rewrite table_snoc by done. by rewrite Ht.
      * by rewrite dom_insert_L.
    + split; [|right; unfold ENOMEM; lia]. split; simpl; try done. set_solver.
  - assert (id_alloc (dom ports) start end_ < 0) as Hneg
      by (unfold ENOSPC, ENOMEM in H1; destruct H1 as [[-> _]| ->]; lia).
    destruct (Z.leb_spec 0 (id_alloc (dom ports) start end_)); [lia|].
    intros [= <- <-] E. destruct kz; simpl in E; injection E as <- <-; (split; [done|]).
    + by left.
    + right. unfold ENOMEM. lia.
Qed.

Lemma sim_get ports st p : sim ports st → sim (ScifPorts.scif_get_port ports p) (scif_get_port st p).
Proof.
  intros [Hnd Ht Hida]. unfold scif_get_port, ScifPorts.scif_get_port.
  destruct (p =? 0); [done|]. split; simpl.
  - by rewrite ref_first_ids.
  - by rewrite ref_first_table, Ht.
  - rewrite Hida. destruct (ports !! p) eqn:E; [|done].
    rewrite dom_insert_L. symmetry. apply subseteq_union_1_L.
    apply singleton_subseteq_l, elem_of_dom. by eexists.
Qed.

Lemma sim_put ports st p : sim ports st → sim (ScifPorts.scif_put_port ports p) (scif_put_port st p).
Proof.
  intros [Hnd Ht Hida]. unfold scif_put_port, ScifPorts.scif_put_port.
  destruct (p =? 0); [done|].
  destruct (put_walk_spec p (scif_ports st) _ Hnd) as (H1 & _ & H3).
  rewrite Ht in H3. destruct (ports !! p) as [n|] eqn:E; simpl.
  - destruct (n - 1 =? 0); destruct H3 as [H3 H4]; split; try done.
    + by rewrite H4, Hida, dom_delete_L.
    + rewrite H4, Hida, dom_insert_L. symmetry. apply subseteq_union_1_L.
      apply singleton_subseteq_l, elem_of_dom. by eexists.
  - rewrite H3. done.
Qed.

End Simulation.

(** ** Runs of both implementations *)

Inductive port_op :=
| PRsrv (kz : bool) (p : Z)
| PNew (kz : bool)
| PGet (p : Z)
| PPut (p : Z).

Definition ida_step `{IdAllocator} (st : port_info) (op : port_op) : Z * port_info :=
  match op with
  | PRsrv kz p => scif_rsrv_port kz st p
  | PNew kz => scif_get_new_port kz st
  | PGet p => (0, scif_get_port st p)
  | PPut p => (0, scif_put_port st p)
  end.

Definition idr_step `{IdAllocator} (ports : gmap Z Z) (op : port_op) : Z * gmap Z Z :=
  match op with
  | PRsrv kz p => ScifPorts.scif_rsrv_port kz ports p
  | PNew kz => ScifPorts.scif_get_new_port kz ports
  | PGet p => (0, ScifPorts.scif_get_port ports p)
  | PPut p => (0, ScifPorts.scif_put_port ports p)
  end.

Fixpoint run {St} (step : St → port_op → Z * St) (st : St) (ops : list port_op)
  : list Z * St :=
  match ops with
  | [] => ([], st)
  | op :: ops' =>
      let '(r, st) := step st op in
      let '(rs, st) := run step st ops' in (r :: rs, st)
  end.

Definition op_ok (op : port_op) : Prop :=
  match op with PRsrv _ p => 0 <= p | _ => True end.
Definition op_no_oom (op : port_op) : Prop :=
  match op with PRsrv kz _ | PNew kz => kz = true | _ => True end.

(** Same result; without memory both fail, perhaps with different errors. *)
Definition same_result (op : port_op) (a b : Z) : Prop := a = b ∨ ¬ op_no_oom op ∧ a < 0 ∧ b < 0.

Lemma sim_step `{IdAllocator} ports st op a st' b ports' :
  sim ports st → op_ok op → ida_step st op = (a, st') → idr_step ports op = (b, ports') →
  sim ports' st' ∧ same_result op a b.
Proof.
  intros Hsim Hok. destruct op as [kz p|kz|p|p]; simpl.
  - intros E1 E2. destruct (sim_get_new _ _ _ _ _ _ _ _ _ Hok Hsim E1 E2) as [H1 [H2|H2]];
      (split; [done|]); [by left|right]. destruct H2 as (-> & ? & ?). by split.
  - intros E1 E2. pose proof (fun Hs => sim_get_new _ _ _ _ _ _ _ _ _ Hs Hsim E1 E2) as Hstep.
    destruct Hstep as [H1 [H2|H2]]; [unfold ScifPorts.SCIF_PORT_RSVD; lia| |];
      (split; [done|]); [by left|right]. destruct H2 as (-> & ? & ?). by split.
  - intros [= <- <-] [= <- <-]. split; [by apply sim_get|by left].
  - intros [= <- <-] [= <- <-]. split; [by apply sim_put|by left].
Qed.

Lemma sim_run `{IdAllocator} ops : ∀ ports st,
  sim ports st → Forall op_ok ops →
  sim (run idr_step ports ops).2 (run ida_step st ops).2 ∧
  (Forall op_no_oom ops → (run idr_step ports ops).1 = (run ida_step st ops).1).
Proof.
  induction ops as [|op ops IH]; intros ports st Hsim Hok; [done|].
  apply Forall_cons in Hok as [Hop Hok]. simpl.
  destruct (ida_step st op) as [a st'] eqn:E1. destruct (idr_step ports op) as [b ports'] eqn:E2.
  destruct (sim_step _ _ _ _ _ _ _ Hsim Hop E1 E2) as [Hsim' Hres].
  destruct (IH _ _ Hsim' Hok) as [H1 H2].
  destruct (run idr_step ports' ops), (run ida_step st' ops). simpl in *. split; [done|].
  intros [Hn Hns]%Forall_cons. f_equal; [|by apply H2].
  destruct Hres as [->|[Hc _]]; done.
Qed.

(** ** Claims *)

(** C34: The two implementations of scif_ports.c (ida and linked list, idr) are
    equivalent: over any sequence of operations from the empty table they keep
    the same ports with the same reference counts, and as long as memory does
    not run out every call returns the same value. *)
Theorem scif_ports_implementations_agree `{IdAllocator} ops :
  Forall op_ok ops →
  let ida := run ida_step (PortInfo ∅ []) ops in
  let idr := run idr_step ∅ ops in
  table (ports_in_use ida.2) = idr.2 ∧ scif_ports ida.2 = dom idr.2 ∧
  NoDup (ids (ports_in_use ida.2)) ∧ (Forall op_no_oom ops → idr.1 = ida.1).
Proof.
  intros Hok. destruct (sim_run ops ∅ (PortInfo ∅ [])) as [[] H2]; [|done|done].
  split; simpl; [by apply NoDup_nil|done|by rewrite dom_empty_L].
Qed.

Lemma scif_ports_implementations_agree_witness :
  let ops := [PRsrv true 201; PNew true; PGet 1089; PPut 201; PNew false; PRsrv true 201] in
  (@run _ (@idr_step lowest_allocator) ∅ ops).1 =
  [201; 1089; 0; 0; - ENOMEM; 201] ∧
  table (ports_in_use (run (@ida_step lowest_allocator) (PortInfo ∅ []) ops).2) =
  (run (@idr_step lowest_allocator) ∅ ops).2.
Proof.
  split; [vm_compute; reflexivity|].
  apply (@scif_ports_implementations_agree lowest_allocator).
  repeat (apply Forall_cons; split; [simpl; done|]). apply Forall_nil. exact I.
Defined.

End IdaPorts.
