(* ===== verification/PortBits.v ===== *)
(** * SCIF port numbers, first generation

    Models [mpss3/mpss-modules/micscif/micscif_ports.c]: 65536 ports as 1024
    words of 64 bits, a set bit meaning a free port, and [first_free], the word
    where [get_scif_port] looks.  The bit primitives exist twice in the source,
    in assembly and in C; both are modelled and proved equal. *)
From S2P Require Import Prelude.
Local Open Scope Z_scope.

Module PortBits.

Definition SCIF_PORT_BASE : Z := 0.
Definition SCIF_PORT_COUNT : Z := 0x10000.
Definition SCIF_PORT_RSVD : Z := 1088.
Definition BITS_PR_PORT : Z := 64.
Definition PORTS_ARRAY_SIZE : Z := (SCIF_PORT_COUNT + (BITS_PR_PORT - 1)) / BITS_PR_PORT.

(** ** Bit primitives: the assembly versions

    [bsfq] finds the lowest set bit and leaves the zero flag set on a zero word;
    [btrq] clears a bit and puts its old value in the carry flag; [btsq] sets a
    bit.  A register bit offset is taken modulo 64. *)
Fixpoint bsf_from (n : nat) (i w : Z) : option Z :=
  match n with
  | O => None
  | S n => if Z.testbit w i then Some i else bsf_from n (i + 1) w
  end.
Definition bsfq (w : Z) : option Z := bsf_from 64 0 w.
Definition btrq (w bit : Z) : bool * Z := (Z.testbit w (bit mod 64), Z.clearbit w (bit mod 64)).
Definition btsq (w bit : Z) : Z := Z.setbit w (bit mod 64).

Definition __scif_ffsclr (word : Z) : Z * Z :=
  match bsfq word with
  | None => (0, word)
  | Some big_bit => (big_bit + 1, (btrq word big_bit).2)
  end.

Definition __scif_clrbit (word bit : Z) : Z * Z :=
  let big_bit := bit - 1 in
  let '(avl, field) := btrq word big_bit in
  (if avl then bit else 0, field).

Definition __scif_setbit (word bit : Z) : Z :=
  let big_bit := bit - 1 in btsq word big_bit.

(** ** Bit primitives: the C versions *)

(** [ffsll]: position of the lowest set bit counted from 1, 0 for none. *)
Definition ffsll (w : Z) : Z := match bsf_from 64 0 w with Some i => i + 1 | None => 0 end.

Definition c_scif_ffsclr (word : Z) : Z * Z :=
  let bit := ffsll word in
  if negb (bit =? 0) then (bit, Z.land word (u64 (Z.lnot (Z.shiftl 1 (bit - 1)))))
  else (bit, word).

Definition c_scif_clrbit (word bit : Z) : Z * Z :=
  let msk := u64 (Z.shiftl 1 (bit - 1)) in
  if negb (Z.land word msk =? 0) then (bit, Z.land word (u64 (Z.lnot msk))) else (0, word).

Definition c_scif_setbit (word bit : Z) : Z := Z.lor word (u64 (Z.shiftl 1 (bit - 1))).

(** ** The allocator *)

Record port_state := PortState {
  init_array : bool;
  first_free : Z;
  port_bits : list Z;
  port_rsvd : Z;
  port_free : Z;
  port_err : Z;
}.

Definition word (st : port_state) (ix : Z) : Z := default 0 (port_bits st !! Z.to_nat ix).

Definition set_word (st : port_state) (ix w : Z) : port_state :=
  PortState (init_array st) (first_free st) (<[Z.to_nat ix := w]> (port_bits st))
    (port_rsvd st) (port_free st) (port_err st).
Definition set_first_free (st : port_state) (ff : Z) : port_state :=
  PortState (init_array st) ff (port_bits st) (port_rsvd st) (port_free st) (port_err st).
Definition inc_rsvd (st : port_state) : port_state :=
  PortState (init_array st) (first_free st) (port_bits st)
    (u64 (port_rsvd st + 1)) (port_free st) (port_err st).
Definition inc_free (st : port_state) : port_state :=
  PortState (init_array st) (first_free st) (port_bits st)
    (port_rsvd st) (u64 (port_free st + 1)) (port_err st).
Definition inc_err (st : port_state) : port_state :=
  PortState (init_array st) (first_free st) (port_bits st)
    (port_rsvd st) (port_free st) (u64 (port_err st + 1)).

Definition init_scif_array (st : port_state) : port_state :=
  if init_array st then
    let bits := replicate (Z.to_nat PORTS_ARRAY_SIZE) (u64 (Z.lnot 0)) in
    let bits := if SCIF_PORT_BASE =? 0
                then <[0%nat := Z.lxor (default 0 (bits !! 0%nat)) 1]> bits else bits in
    PortState false (SCIF_PORT_RSVD / BITS_PR_PORT) bits 0 0 0
  else st.

Definition rsrv_scif_port (st : port_state) (port : Z) : Z * port_state :=
  if port =? 0 then (0, inc_err st)
  else
    let st := if init_array st then init_scif_array st else st in
    let port := u16 (port - SCIF_PORT_BASE) in
    let port_ix := port / BITS_PR_PORT in
    let '(bit, w) := __scif_clrbit (word st port_ix) (1 + port mod BITS_PR_PORT) in
    let st := set_word st port_ix w in
    let port := u16 bit in
    if negb (port =? 0)
    then (u16 (port - 1 + BITS_PR_PORT * port_ix + SCIF_PORT_BASE), inc_rsvd st)
    else (port, inc_err st).

(** [while ((first_free < PORTS_ARRAY_SIZE) && !port_bits[first_free]) first_free++;] *)
Fixpoint advance (fuel : nat) (st : port_state) : port_state :=
  match fuel with
  | O => st
  | S fuel =>
      if (first_free st <? PORTS_ARRAY_SIZE) && (word st (first_free st) =? 0)
      then advance fuel (set_first_free st (u16 (first_free st + 1))) else st
  end.

Definition get_scif_port (st : port_state) : Z * port_state :=
  let st := if init_array st then init_scif_array st else st in
  if PORTS_ARRAY_SIZE <=? first_free st then (0, inc_err st)
  else
    let '(bit, w) := __scif_ffsclr (word st (first_free st)) in
    let st' := set_word st (first_free st) w in
    let port := u16 bit in
    if negb (port =? 0) then
      let port := u16 (port - 1 + BITS_PR_PORT * first_free st + SCIF_PORT_BASE) in
      (port, inc_rsvd (advance (Z.to_nat PORTS_ARRAY_SIZE) st'))
    else (port, inc_err st').

Definition put_scif_port (st : port_state) (port : Z) : port_state :=
  if port =? 0 then inc_err st
  else
    let port := u16 (port - SCIF_PORT_BASE) in
    let port_ix := port / BITS_PR_PORT in
    let st := set_word st port_ix (__scif_setbit (word st port_ix) (1 + port mod BITS_PR_PORT)) in
    let st := if (SCIF_PORT_RSVD <=? port) && (port_ix <? first_free st)
              then set_first_free st port_ix else st in
    inc_free st.

(** ** Lemmas on the bit primitives *)

Lemma bsf_from_spec n : ∀ i w,
  match bsf_from n i w with
  | Some j => i <= j < i + Z.of_nat n ∧ Z.testbit w j = true ∧
              ∀ k, i <= k < j → Z.testbit w k = false
  | None => ∀ k, i <= k < i + Z.of_nat n → Z.testbit w k = false
  end.
Proof.
  induction n as [|n IH]; intros i w; simpl; [lia|].
  destruct (Z.testbit w i) eqn:E; [split_and!; [lia|lia|done|lia]|].
  specialize (IH (i + 1) w). destruct (bsf_from n (i + 1) w) as [j|].
  - destruct IH as (H1 & H2 & H3). split_and!; [lia|lia|done|].
    intros k Hk. destruct (decide (k = i)) as [->|]; [done|]. apply H3. lia.
  - intros k Hk. destruct (decide (k = i)) as [->|]; [done|]. apply IH. lia.
Qed.

Lemma in_width_testbit w z k : in_width w z → w <= k → Z.testbit z k = false.
Proof.
  intros [H1 H2] Hk. destruct (decide (z = 0)) as [->|]; [apply Z.testbit_0_l|].
  destruct (Z_lt_le_dec k 0); [by apply Z.testbit_neg_r|].
  destruct (Z_lt_le_dec w 0). { rewrite Z.pow_neg_r in H2; lia. }
  apply Z.bits_above_log2; [lia|]. apply Z.lt_le_trans with w; [|lia].
  apply Z.log2_lt_pow2; lia.
Qed.

Lemma testbit_in_width w z :
  0 <= w → 0 <= z → (∀ k, w <= k → Z.testbit z k = false) → in_width w z.
Proof.
  intros Hw Hz Hb. split; [done|]. destruct (Z_lt_le_dec z (2 ^ w)); [done|].
  assert (w <= Z.log2 z) as Hl by (apply Z.log2_le_pow2; lia).
  specialize (Hb _ Hl). rewrite Z.bit_log2 in Hb; [done|]. lia.
Qed.

Lemma clearbit_in_width w z i : 0 <= w → 0 <= i → in_width w z → in_width w (Z.clearbit z i).
Proof.
  intros Hw Hi Hz. apply testbit_in_width; [done| |].
  - destruct Hz. rewrite Z.clearbit_spec'. apply Z.ldiff_nonneg. by left.
  - intros k Hk. rewrite Z.clearbit_eqb. rewrite (in_width_testbit w) by done. done.
Qed.

Lemma setbit_in_width w z i : 0 <= i < w → in_width w z → in_width w (Z.setbit z i).
Proof.
  intros Hi Hz. apply testbit_in_width; [lia| |].
  - destruct Hz. rewrite Z.setbit_spec'. apply Z.lor_nonneg. split; [done|].
    apply Z.pow_nonneg. lia.
  - intros k Hk. rewrite Z.setbit_eqb by lia. rewrite (in_width_testbit w) by (done || lia).
    zsolve.
Qed.

Lemma zero_testbit z : in_width 64 z → (z = 0 ↔ ∀ k, 0 <= k < 64 → Z.testbit z k = false).
Proof.
  intros Hz. split; [intros -> k _; apply Z.testbit_0_l|]. intros Hk.
  apply Z.bits_inj'. intros n Hn. rewrite Z.testbit_0_l.
  destruct (Z_lt_le_dec n 64); [apply Hk; lia|]. by apply in_width_testbit with 64.
Qed.

Lemma land_lnot_clearbit w i :
  in_width 64 w → 0 <= i < 64 → Z.land w (u64 (Z.lnot (Z.shiftl 1 i))) = Z.clearbit w i.
Proof.
  intros Hw Hi. apply Z.bits_inj'. intros n Hn.
  rewrite Z.land_spec, Z.clearbit_eqb. unfold wrap.
  destruct (Z_lt_le_dec n 64).
  - rewrite Z.mod_pow2_bits_low by lia. rewrite Z.lnot_spec by lia.
    rewrite Z.shiftl_1_l, Z.pow2_bits_eqb by lia. zsolve.
  - rewrite (in_width_testbit 64) by done. done.
Qed.

Lemma shiftl_one_u64 i : 0 <= i < 64 → u64 (Z.shiftl 1 i) = 2 ^ i.
Proof.
  intros. rewrite Z.shiftl_1_l. apply wrap_small. split; [lia|].
  apply Z.pow_lt_mono_r; lia.
Qed.

Lemma land_pow2_testbit w i : 0 <= i → (Z.land w (2 ^ i) =? 0) = negb (Z.testbit w i).
Proof.
  intros Hi. destruct (Z.testbit w i) eqn:E; zcases; try done.
  - assert (Z.testbit (Z.land w (2 ^ i)) i = true) as Hb
      by (rewrite Z.land_spec, E, Z.pow2_bits_true; done || lia).
    rewrite e, Z.testbit_0_l in Hb. done.
  - destruct n. apply Z.bits_inj'. intros k Hk.
    rewrite Z.land_spec, Z.pow2_bits_eqb, Z.testbit_0_l by lia.
    destruct (Z.eqb_spec i k); subst; [by rewrite E|by rewrite andb_false_r].
Qed.

(** ** The set of free ports *)

Definition is_free (st : port_state) (p : Z) : bool :=
  Z.testbit (word st (p / BITS_PR_PORT)) (p mod BITS_PR_PORT).

(** Well-formed states after initialisation: words of 64 bits, port 0 never
    free, and no free general port below the word [first_free]. *)
Record wf (st : port_state) : Prop := {
  wf_init : init_array st = false;
  wf_len : zlen (port_bits st) = 1024;
  wf_words : ∀ ix, in_width 64 (word st ix);
  wf_zero : is_free st 0 = false;
  wf_first : 17 <= first_free st <= 1024;
  wf_below : ∀ ix, 17 <= ix < first_free st → word st ix = 0;
}.

Lemma word_set_word st ix w jx :
  0 <= ix < zlen (port_bits st) → 0 <= jx →
  word (set_word st ix w) jx = if ix =? jx then w else word st jx.
Proof.
  intros Hix Hjx. unfold word, set_word, zlen in *; simpl. zcases; subst.
  - by rewrite list_lookup_insert_eq by lia.
  - by rewrite list_lookup_insert_ne by lia.
Qed.

Lemma port_split p q : (p / 64 =? q / 64) && (p mod 64 =? q mod 64) = (p =? q).
Proof.
  pose proof (Z.div_mod p 64 ltac:(lia)). pose proof (Z.div_mod q 64 ltac:(lia)).
  zcases; simpl; try done; subst; try lia; congruence.
Qed.

Lemma is_free_clear st p x :
  zlen (port_bits st) = 1024 → 0 <= p < 65536 → 0 <= x →
  is_free (set_word st (p / 64) (Z.clearbit (word st (p / 64)) (p mod 64))) x =
  is_free st x && negb (x =? p).
Proof.
  intros Hl Hp Hx. unfold is_free, BITS_PR_PORT.
  rewrite word_set_word by (rewrite ?Hl; divlia). rewrite <- (port_split x p).
  destruct (Z.eqb_spec (p / 64) (x / 64)) as [E|E].
  - rewrite Z.clearbit_eqb, E, Z.eqb_refl. simpl. f_equal. f_equal. apply Z.eqb_sym.
  - destruct (Z.eqb_spec (x / 64) (p / 64)); [congruence|]. simpl. by rewrite andb_true_r.
Qed.

Lemma is_free_set st p x :
  zlen (port_bits st) = 1024 → 0 <= p < 65536 → 0 <= x →
  is_free (set_word st (p / 64) (Z.setbit (word st (p / 64)) (p mod 64))) x =
  is_free st x || (x =? p).
Proof.
  intros Hl Hp Hx. unfold is_free, BITS_PR_PORT.
  rewrite word_set_word by (rewrite ?Hl; divlia). rewrite <- (port_split x p).
  destruct (Z.eqb_spec (p / 64) (x / 64)) as [E|E].
  - rewrite Z.setbit_eqb, E, Z.eqb_refl by divlia. simpl. rewrite orb_comm. f_equal. apply Z.eqb_sym.
  - destruct (Z.eqb_spec (x / 64) (p / 64)); [congruence|]. simpl. by rewrite orb_false_r.
Qed.

Lemma clrbit_eq w bit :
  1 <= bit <= 64 →
  __scif_clrbit w bit = (if Z.testbit w (bit - 1) then bit else 0, Z.clearbit w (bit - 1)).
Proof. intros. unfold __scif_clrbit, btrq. by rewrite Z.mod_small by lia. Qed.

Lemma wf_set_word st ix w :
  wf st → 0 <= ix < 1024 → in_width 64 w →
  (ix = 0 → Z.testbit w 0 = false) →
  (17 <= ix < first_free st → w = 0) →
  wf (set_word st ix w).
Proof.
  intros [] Hix Hw Hz Hb. split; simpl; try done.
  - unfold zlen in *. by rewrite length_insert.
  - intros jx. destruct (Z_lt_le_dec jx 0) as [Hj|Hj].
    + unfold word. simpl. replace (Z.to_nat jx) with (Z.to_nat 0) by lia.
      change (in_width 64 (word (set_word st ix w) 0)).
      rewrite word_set_word by lia. zcases; auto.
    + rewrite word_set_word by lia. zcases; auto.
  - unfold is_free in *. change (0 / BITS_PR_PORT) with 0 in *.
    change (0 mod BITS_PR_PORT) with 0 in *. rewrite word_set_word by lia. zcases; auto.
  - intros jx Hjx. rewrite word_set_word by lia. zcases; subst; auto.
Qed.

Lemma wf_inc_rsvd st : wf st → wf (inc_rsvd st).
Proof. intros []. by split. Qed.
Lemma wf_inc_free st : wf st → wf (inc_free st).
Proof. intros []. by split. Qed.
Lemma wf_inc_err st : wf st → wf (inc_err st).
Proof. intros []. by split. Qed.
#[export] Hint Resolve wf_inc_rsvd wf_inc_free wf_inc_err : mpss.

Lemma wf_clear st p :
  wf st → 0 <= p < 65536 → wf (set_word st (p / 64) (Z.clearbit (word st (p / 64)) (p mod 64))).
Proof.
  intros Hwf Hp. apply wf_set_word; [done|divlia| | |].
  - apply clearbit_in_width; [lia|divlia|apply Hwf].
  - intros E. rewrite Z.clearbit_eqb, E.
    pose proof (wf_zero _ Hwf) as Hz. unfold is_free in Hz.
    change (Z.testbit (word st 0) 0 = false) in Hz. by rewrite Hz.
  - intros Hb. rewrite (wf_below _ Hwf) by done. apply Z.bits_inj'. intros n Hn.
    by rewrite Z.clearbit_eqb, Z.testbit_0_l.
Qed.

Lemma rsrv_correct st p :
  wf st → 0 < p < 65536 →
  let '(r, st') := rsrv_scif_port st p in
  r = (if is_free st p then p else 0) ∧ wf st' ∧ first_free st' = first_free st ∧
  ∀ x, 0 <= x → is_free st' x = is_free st x && negb (x =? p).
Proof.
  intros Hwf Hp. unfold rsrv_scif_port, SCIF_PORT_BASE. rewrite (wf_init _ Hwf).
  destruct (Z.eqb_spec p 0); [lia|]. rewrite Z.sub_0_r.
  rewrite (wrap_small 16 p) by (unfold in_width; lia). unfold BITS_PR_PORT in *.
  rewrite clrbit_eq by divlia. replace (1 + p mod 64 - 1) with (p mod 64) by lia.
  assert (wf (set_word st (p / 64) (Z.clearbit (word st (p / 64)) (p mod 64)))) as Hwf'
    by (apply wf_clear; [done|lia]).
  pose proof (is_free_clear st p) as Hclr.
  change (Z.testbit (word st (p / 64)) (p mod 64)) with (is_free st p).
  destruct (is_free st p) eqn:E.
  - rewrite (wrap_small 16 (1 + _)) by (unfold in_width; divlia).
    destruct (Z.eqb_spec (1 + p mod 64) 0) as [H0|H0]; [divlia|]. simpl.
    rewrite wrap_small by (unfold in_width; divlia).
    split_and!; [divlia|auto with mpss|done|]. intros x Hx. apply Hclr; [apply Hwf|lia|lia].
  - simpl. split_and!; [done|auto with mpss|done|].
    intros x Hx. apply Hclr; [apply Hwf|lia|lia].
Qed.

Lemma advance_spec n : ∀ st,
  0 <= first_free st <= 1024 →
  port_bits (advance n st) = port_bits st ∧ init_array (advance n st) = init_array st ∧
  first_free st <= first_free (advance n st) <= 1024 ∧
  (∀ ix, first_free st <= ix < first_free (advance n st) → word st ix = 0) ∧
  (1024 <= first_free st + Z.of_nat n →
   first_free (advance n st) = 1024 ∨ word st (first_free (advance n st)) ≠ 0).
Proof.
  induction n as [|n IH]; intros st Hff; simpl.
  { split_and!; try done; lia. }
  unfold PORTS_ARRAY_SIZE in *. change ((SCIF_PORT_COUNT + (BITS_PR_PORT - 1)) / BITS_PR_PORT)
    with 1024. destruct (Z.ltb_spec (first_free st) 1024); simpl.
  - destruct (Z.eqb_spec (word st (first_free st)) 0) as [Hw|Hw].
    + rewrite wrap_small by (unfold in_width; lia).
      destruct (IH (set_first_free st (first_free st + 1)) ltac:(simpl; lia))
        as (H1 & H2 & H3 & H4 & H5). simpl in *.
      split_and!; try done; try lia.
      * intros ix Hix. destruct (decide (ix = first_free st)) as [->|]; [done|].
        apply H4. lia.
      * intros. apply H5. lia.
    + split_and!; try done; lia.
  - split_and!; try done; lia.
Qed.

(** The word [first_free] holds a free port, or the pool of general ports is
    exhausted. *)
Definition general_ready (st : port_state) : Prop :=
  first_free st = 1024 ∨ word st (first_free st) ≠ 0.

Lemma advance_wf n st :
  wf st → 1024 <= Z.of_nat n →
  wf (advance n st) ∧ general_ready (advance n st) ∧ ∀ ix, word (advance n st) ix = word st ix.
Proof.
  intros Hwf Hn. pose proof (wf_first _ Hwf).
  destruct (advance_spec n st ltac:(lia)) as (H1 & H2 & H3 & H4 & H5).
  assert (∀ ix, word (advance n st) ix = word st ix) as Hword by (intros; unfold word; by rewrite H1).
  split_and!; [|unfold general_ready; rewrite Hword; apply H5; lia|done].
  destruct Hwf. split; unfold is_free in *; rewrite ?Hword; try done; try lia.
  - by rewrite H2.
  - by rewrite H1.
  - intros ix. by rewrite Hword.
  - intros ix Hix. rewrite Hword.
    destruct (Z_lt_le_dec ix (first_free st)); [apply wf_below0|apply H4]; lia.
Qed.

Lemma is_free_below st x : wf st → 1088 <= x < 64 * first_free st → is_free st x = false.
Proof.
  intros Hwf Hx. unfold is_free. rewrite (wf_below _ Hwf); [apply Z.testbit_0_l|].
  unfold BITS_PR_PORT. divlia.
Qed.

(** The port a successful [get_scif_port] takes is the lowest free general one. *)
Lemma bsf_lowest st j :
  wf st → first_free st < 1024 → bsf_from 64 0 (word st (first_free st)) = Some j →
  let r := j + 64 * first_free st in
  0 <= j < 64 ∧ r / 64 = first_free st ∧ r mod 64 = j ∧ SCIF_PORT_RSVD <= r < SCIF_PORT_COUNT ∧
  is_free st r = true ∧ ∀ x, SCIF_PORT_RSVD <= x < r → is_free st x = false.
Proof.
  intros Hwf Hlt E r. pose proof (bsf_from_spec 64 0 (word st (first_free st))) as Hbsf.
  rewrite E in Hbsf. destruct Hbsf as (Hj & Hset & Hlow). pose proof (wf_first _ Hwf).
  change (0 + Z.of_nat 64) with 64 in Hj.
  assert (r / 64 = first_free st ∧ r mod 64 = j) as [Er Ej] by (unfold r; divlia).
  unfold SCIF_PORT_RSVD, SCIF_PORT_COUNT. split_and!; try lia.
  - unfold is_free, BITS_PR_PORT. by rewrite Er, Ej.
  - intros x Hx. destruct (Z_lt_le_dec x (64 * first_free st)).
    { apply is_free_below; [done|lia]. }
    unfold is_free, BITS_PR_PORT.
    replace (x / 64) with (first_free st) by (unfold r in *; divlia).
    apply Hlow. unfold r in *. divlia.
Qed.

(** What [get_scif_port] does to the set of free ports, on either branch. *)
Definition get_post (st : port_state) (r : Z) (st' : port_state) : Prop :=
  wf st' ∧ (r ≠ 0 → general_ready st') ∧ (r = 0 → first_free st' = first_free st) ∧
  (∀ x, 0 <= x → is_free st' x = is_free st x && negb (negb (r =? 0) && (x =? r))) ∧
  (r ≠ 0 → SCIF_PORT_RSVD <= r < SCIF_PORT_COUNT ∧ is_free st r = true ∧
           ∀ x, SCIF_PORT_RSVD <= x < r → is_free st x = false) ∧
  (r = 0 → ¬ general_ready st ∨ first_free st = 1024).

Lemma get_none st :
  wf st → first_free st < 1024 → bsf_from 64 0 (word st (first_free st)) = None →
  get_post st 0 (inc_err (set_word st (first_free st) (word st (first_free st)))).
Proof.
  intros Hwf Hlt E. pose proof (bsf_from_spec 64 0 (word st (first_free st))) as Hbsf.
  rewrite E in Hbsf. pose proof (wf_first _ Hwf).
  assert (word st (first_free st) = 0) as Hz.
  { apply zero_testbit; [apply Hwf|]. intros k Hk. apply Hbsf. lia. }
  unfold get_post, general_ready. split_and!; try done; [| |intros; left; lia].
  - apply wf_inc_err, wf_set_word; try done; [lia|apply Hwf|lia].
  - intros x Hx. rewrite andb_true_r. unfold is_free.
    change (word (inc_err ?s) ?y) with (word s y).
    rewrite word_set_word; [|rewrite (wf_len _ Hwf); lia|unfold BITS_PR_PORT; divlia].
    zcases; [|done]. by f_equal; f_equal.
Qed.

Lemma get_some n st j :
  1024 <= Z.of_nat n →
  wf st → first_free st < 1024 → bsf_from 64 0 (word st (first_free st)) = Some j →
  get_post st (j + 64 * first_free st)
    (inc_rsvd (advance n
       (set_word st (first_free st) (Z.clearbit (word st (first_free st)) j)))).
Proof.
  intros Hn Hwf Hlt E. destruct (bsf_lowest st j Hwf Hlt E) as (Hj & Er & Ej & Hr & Hfree & Hlow).
  pose proof (wf_first _ Hwf). set (r := j + 64 * first_free st) in *.
  assert (0 <= r < 65536) as Hr' by lia.
  pose proof (wf_clear st r Hwf Hr') as Hwf'. rewrite Er, Ej in Hwf'.
  destruct (advance_wf n _ Hwf' Hn) as (Hwf2 & Hready & Hword).
  unfold get_post. split_and!; try done; try lia; auto with mpss.
  intros x Hx. destruct (Z.eqb_spec r 0); [lia|]. simpl.
  unfold is_free at 1. change (word (inc_rsvd ?s) ?y) with (word s y).
  rewrite Hword, <- (is_free_clear st r x (wf_len _ Hwf) Hr' Hx), Er, Ej. done.
Qed.

Lemma get_correct st r st' : wf st → get_scif_port st = (r, st') → get_post st r st'.
Proof.
  intros Hwf. pose proof (wf_first _ Hwf) as Hff. unfold get_scif_port.
  assert (1024 <= Z.of_nat (Z.to_nat PORTS_ARRAY_SIZE)) as Hn by (rewrite Z2Nat.id; done).
  revert Hn. generalize (Z.to_nat PORTS_ARRAY_SIZE). intros n Hn.
  rewrite (wf_init _ Hwf). destruct (Z.leb_spec PORTS_ARRAY_SIZE (first_free st)) as [Hge|Hge];
    change PORTS_ARRAY_SIZE with 1024 in Hge.
  { intros [= <- <-]. unfold get_post. split_and!; try done; auto with mpss; [|intros; right; lia].
    intros x Hx. simpl. by rewrite andb_true_r. }
  unfold __scif_ffsclr, bsfq.
  destruct (bsf_from 64 0 (word st (first_free st))) as [j|] eqn:E; simpl.
  - destruct (bsf_lowest st j Hwf ltac:(lia) E) as (Hj & _ & _ & Hr & _).
    rewrite (wrap_small 16 (j + 1)) by (unfold in_width; lia).
    destruct (Z.eqb_spec (j + 1) 0); [lia|]. simpl. unfold BITS_PR_PORT, SCIF_PORT_BASE.
    replace (j + 1 - 1 + 64 * first_free st + 0) with (j + 64 * first_free st) by lia.
    unfold SCIF_PORT_COUNT in Hr.
    rewrite (wrap_small 16) by (unfold in_width, SCIF_PORT_RSVD in *; lia).
    rewrite (Z.mod_small j) by lia. intros [= <- <-].
    by apply get_some.
  - intros [= <- <-]. by apply get_none.
Qed.

Lemma wf_set_first_free st ix : wf st → 17 <= ix <= first_free st → wf (set_first_free st ix).
Proof.
  intros [] Hix. split; try done; simpl; [lia|]. intros jx Hjx. apply wf_below0. lia.
Qed.

Lemma put_correct st p :
  wf st → 0 < p < 65536 →
  let st' := put_scif_port st p in
  wf st' ∧ (general_ready st → general_ready st') ∧
  ∀ x, 0 <= x → is_free st' x = is_free st x || (x =? p).
Proof.
  intros Hwf Hp st'. unfold st', put_scif_port, SCIF_PORT_BASE.
  destruct (Z.eqb_spec p 0); [lia|]. rewrite Z.sub_0_r.
  rewrite (wrap_small 16 p) by (unfold in_width; lia). unfold BITS_PR_PORT.
  unfold __scif_setbit, btsq. replace (1 + p mod 64 - 1) with (p mod 64) by lia.
  rewrite Z.mod_mod by lia.
  set (w := Z.setbit (word st (p / 64)) (p mod 64)).
  assert (in_width 64 w) as Hw by (apply setbit_in_width; [divlia|apply Hwf]).
  assert (w ≠ 0) as Hw0.
  { intros Ew. assert (Z.testbit w (p mod 64) = true) as Hb by (apply Z.setbit_eq; divlia).
    by rewrite Ew, Z.testbit_0_l in Hb. }
  assert (p / 64 = 0 → Z.testbit w 0 = false) as Hz.
  { intros E. unfold w. rewrite Z.setbit_neq by divlia. rewrite E.
    exact (wf_zero _ Hwf). }
  set (st1 := if (SCIF_PORT_RSVD <=? p) && (p / 64 <? first_free st)
              then set_first_free st (p / 64) else st).
  assert (wf st1 ∧ (17 <= p / 64 < first_free st1 → False)) as [Hwf1 Hlow].
  { unfold st1, SCIF_PORT_RSVD. pose proof (wf_first _ Hwf).
    destruct (Z.leb_spec 1088 p), (Z.ltb_spec (p / 64) (first_free st)); simpl;
      (split; [try done|simpl; divlia]).
    apply wf_set_first_free; [done|]. divlia. }
  assert ((if (SCIF_PORT_RSVD <=? p) && (p / 64 <? first_free (set_word st (p / 64) w))
           then set_first_free (set_word st (p / 64) w) (p / 64)
           else set_word st (p / 64) w) = set_word st1 (p / 64) w) as ->.
  { unfold st1. simpl. by destruct ((SCIF_PORT_RSVD <=? p) && (p / 64 <? first_free st)). }
  assert (port_bits st1 = port_bits st) as Ebits by (unfold st1; by case_match).
  split_and!.
  - apply wf_inc_free. apply (wf_set_word st1); try done; divlia.
  - unfold general_ready. intros Hready.
    change (first_free (inc_free (set_word st1 (p / 64) w))) with (first_free st1).
    change (word (inc_free ?s) ?y) with (word s y).
    destruct (decide (first_free st1 = 1024)); [by left|right].
    rewrite word_set_word by (rewrite ?(wf_len _ Hwf1); pose proof (wf_first _ Hwf1); divlia).
    destruct (Z.eqb_spec (p / 64) (first_free st1)); [done|].
    revert Hready n0 n1. unfold st1. case_match; simpl; [lia|]. intros [|]; [lia|done].
  - intros x Hx. rewrite <- (is_free_set st p x (wf_len _ Hwf) ltac:(lia) Hx).
    unfold is_free, word. simpl. by rewrite Ebits.
Qed.

Definition port_state0 : port_state := PortState true 0 (replicate 1024 0) 0 0 0.

Lemma init_wf st :
  init_array st = true →
  wf (init_scif_array st) ∧ general_ready (init_scif_array st) ∧
  ∀ p, 0 < p < 65536 → is_free (init_scif_array st) p = true.
Proof.
  intros Hi. unfold init_scif_array. rewrite Hi.
  change (SCIF_PORT_BASE =? 0) with true. cbv iota.
  set (ones := u64 (Z.lnot 0)). set (n := Z.to_nat PORTS_ARRAY_SIZE).
  assert (Z.of_nat n = 1024) as Hn by (unfold n; rewrite Z2Nat.id; done). clearbody n.
  set (bits := <[0%nat := _]> (replicate n ones)).
  assert (∀ ix, 0 <= ix < 1024 →
    default 0 (bits !! Z.to_nat ix) = if ix =? 0 then Z.lxor ones 1 else ones) as Hbits.
  { intros ix Hix. unfold bits. zcases; subst.
    - rewrite list_lookup_insert_eq by (rewrite length_replicate; lia).
      rewrite lookup_replicate_2 by lia. done.
    - rewrite list_lookup_insert_ne by lia. rewrite lookup_replicate_2 by lia. done. }
  split_and!.
  - split; simpl; try done.
    + unfold zlen, bits. by rewrite length_insert, length_replicate.
    + intros ix. unfold word; simpl. destruct (decide (0 <= ix < 1024)) as [H|H].
      * rewrite Hbits by done. zcases; vm_compute; split; congruence.
      * destruct (decide (ix < 0)).
        { replace (Z.to_nat ix) with (Z.to_nat 0) by lia. rewrite Hbits by lia.
          vm_compute; split; congruence. }
        rewrite lookup_ge_None_2 by (unfold bits; rewrite length_insert, length_replicate; lia).
        vm_compute; split; congruence.
    + unfold is_free, word. cbn [port_bits]. change (0 / BITS_PR_PORT) with 0.
      rewrite Hbits by lia. reflexivity.
    + intros ix Hix. change (SCIF_PORT_RSVD / BITS_PR_PORT) with 17 in Hix. lia.
  - right. unfold word. cbn [port_bits first_free].
    change (SCIF_PORT_RSVD / BITS_PR_PORT) with 17. rewrite Hbits by lia. done.
  - intros p Hp. unfold is_free, word, BITS_PR_PORT. cbn [port_bits]. rewrite Hbits by divlia.
    change ones with (Z.ones 64). destruct (Z.eqb_spec (p / 64) 0).
    + rewrite Z.lxor_spec, Z.ones_spec_low by divlia.
      change 1 with (2 ^ 0). rewrite Z.pow2_bits_eqb by lia.
      destruct (Z.eqb_spec 0 (p mod 64)); [divlia|done].
    + apply Z.ones_spec_low. divlia.
Qed.

(** ** Claims *)

(** The assembly and the C versions of the three bit primitives agree on
    every 64-bit word and every bit number 1 to 64. *)
Theorem scif_bit_primitives_agree w bit :
  in_width 64 w → 1 <= bit <= 64 →
  __scif_ffsclr w = c_scif_ffsclr w ∧ __scif_clrbit w bit = c_scif_clrbit w bit ∧
  __scif_setbit w bit = c_scif_setbit w bit.
Proof.
  intros Hw Hbit. split_and!.
  - unfold __scif_ffsclr, c_scif_ffsclr, ffsll, bsfq, btrq.
    pose proof (bsf_from_spec 64 0 w) as H. destruct (bsf_from 64 0 w) as [j|]; [|done].
    change (0 + Z.of_nat 64) with 64 in H.
    destruct (Z.eqb_spec (j + 1) 0); [lia|]. simpl.
    replace (j + 1 - 1) with j by lia. rewrite land_lnot_clearbit by (done || lia).
    by rewrite Z.mod_small by lia.
  - rewrite clrbit_eq by done. unfold c_scif_clrbit. rewrite shiftl_one_u64 by lia.
    rewrite land_pow2_testbit, negb_involutive by lia.
    rewrite <- Z.shiftl_1_l, land_lnot_clearbit by (done || lia).
    destruct (Z.testbit w (bit - 1)) eqn:E; [done|]. f_equal.
    apply Z.bits_inj'. intros n Hn. rewrite Z.clearbit_eqb.
    destruct (Z.eqb_spec (bit - 1) n); subst; simpl; [by rewrite E|apply andb_true_r].
  - unfold __scif_setbit, btsq, c_scif_setbit. rewrite shiftl_one_u64, Z.mod_small by lia.
    apply Z.setbit_spec'.
Qed.

Lemma scif_bit_primitives_agree_witness :
  __scif_ffsclr 0xA0 = c_scif_ffsclr 0xA0 ∧ __scif_clrbit 0xA0 6 = c_scif_clrbit 0xA0 6 ∧
  __scif_setbit 0xA0 6 = c_scif_setbit 0xA0 6.
Proof.
  apply (scif_bit_primitives_agree 0xA0 6); [vm_compute; split; congruence|lia].
Defined.

(** C23: The bitmap implements a set of free ports.  From any well-formed state,
    rsrv_scif_port returns the port and removes it exactly when it was free and
    otherwise returns 0 and changes no port; get_scif_port returns 0 and changes
    no port, or removes and returns the lowest free port from SCIF_PORT_RSVD up;
    put_scif_port adds the port; and all three keep the state well-formed. *)
Theorem micscif_ports_refine_set st p r1 st1 r2 st2 :
  wf st → 0 < p < SCIF_PORT_COUNT →
  rsrv_scif_port st p = (r1, st1) → get_scif_port st = (r2, st2) →
  let st3 := put_scif_port st p in
  (wf st1 ∧ r1 = (if is_free st p then p else 0) ∧
   ∀ x, 0 <= x → is_free st1 x = is_free st x && negb (x =? p)) ∧
  (wf st2 ∧ (r2 = 0 → ∀ x, 0 <= x → is_free st2 x = is_free st x) ∧
   (r2 ≠ 0 → SCIF_PORT_RSVD <= r2 < SCIF_PORT_COUNT ∧ is_free st r2 = true ∧
             (∀ x, SCIF_PORT_RSVD <= x < r2 → is_free st x = false) ∧
             ∀ x, 0 <= x → is_free st2 x = is_free st x && negb (x =? r2))) ∧
  (wf st3 ∧ ∀ x, 0 <= x → is_free st3 x = is_free st x || (x =? p)).
Proof.
  intros Hwf Hp E1 E2 st3. unfold SCIF_PORT_COUNT in Hp.
  pose proof (rsrv_correct st p Hwf Hp) as H1. rewrite E1 in H1.
  destruct (get_correct st r2 st2 Hwf E2) as (W2 & _ & _ & F2 & G2 & _).
  destruct (put_correct st p Hwf Hp) as (W3 & _ & F3).
  destruct H1 as (R1 & W1 & _ & F1). split_and!; try done.
  - intros -> x Hx. rewrite F2 by done. simpl. apply andb_true_r.
  - intros Hr. destruct (G2 Hr) as (? & ? & ?). split_and!; try done; try lia.
    intros x Hx. rewrite F2 by done. destruct (Z.eqb_spec r2 0); [lia|]. done.
Qed.

Lemma micscif_ports_refine_set_witness :
  wf (init_scif_array port_state0) ∧ (rsrv_scif_port (init_scif_array port_state0) 5).1 = 5.
Proof.
  pose proof (proj1 (init_wf port_state0 eq_refl)) as Hwf. split; [exact Hwf|].
  pose proof (proj2 (proj2 (init_wf port_state0 eq_refl)) 5 ltac:(lia)) as Hfree.
  destruct (rsrv_scif_port (init_scif_array port_state0) 5) as [r1 st1] eqn:E1.
  destruct (get_scif_port (init_scif_array port_state0)) as [r2 st2] eqn:E2.
  destruct (micscif_ports_refine_set _ 5 _ _ _ _ Hwf ltac:(vm_compute; split; congruence) E1 E2)
    as [(_ & Hr & _) _].
  rewrite Hfree in Hr. exact Hr.
Defined.

(** A history of port operations; reservations of general ports are the case the
    next two claims tell apart. *)
Inductive port_op := Rsrv (p : Z) | Get | Put (p : Z).

Definition apply_op (st : port_state) (op : port_op) : port_state :=
  match op with
  | Rsrv p => (rsrv_scif_port st p).2
  | Get => (get_scif_port st).2
  | Put p => put_scif_port st p
  end.

Definition low_op (op : port_op) : Prop :=
  match op with
  | Rsrv p => 0 < p < SCIF_PORT_RSVD
  | Get => True
  | Put p => 0 < p < SCIF_PORT_COUNT
  end.

Lemma apply_low_op st op :
  wf st → general_ready st → low_op op →
  wf (apply_op st op) ∧ general_ready (apply_op st op).
Proof.
  intros Hwf Hg Hop. destruct op as [p| |p]; simpl in *; unfold SCIF_PORT_RSVD, SCIF_PORT_COUNT in *.
  - pose proof (rsrv_correct st p Hwf ltac:(lia)) as H.
    destruct (rsrv_scif_port st p) as [r st'] eqn:E. destruct H as (_ & W & Eff & F). simpl.
    split; [done|]. destruct Hg as [Hg|Hg]; [left; congruence|right].
    rewrite Eff. pose proof (wf_first _ Hwf).
    intros Hz. apply Hg, zero_testbit; [apply Hwf|]. intros k Hk.
    specialize (F (64 * first_free st + k) ltac:(lia)). unfold is_free, BITS_PR_PORT in F.
    replace ((64 * first_free st + k) / 64) with (first_free st) in F by divlia.
    replace ((64 * first_free st + k) mod 64) with k in F by divlia.
    rewrite Hz, Z.testbit_0_l in F. symmetry in F. apply andb_false_iff in F as [F|F]; [done|].
    destruct (Z.eqb_spec (64 * first_free st + k) p); [lia|done].
  - destruct (get_scif_port st) as [r st'] eqn:E. simpl.
    destruct (get_correct st r st' Hwf E) as (W & G & Eff & F & _ & Z0). split; [done|].
    destruct (decide (r = 0)) as [->|]; [|by apply G].
    left. rewrite Eff by done. by destruct (Z0 eq_refl).
  - destruct (put_correct st p Hwf ltac:(lia)) as (W & G & _). auto.
Qed.

(** As long as explicit reservations stay in the reserved range, after any
    history of operations get_scif_port returns a port whenever some general
    port is free. *)
Theorem get_scif_port_complete ops x :
  Forall low_op ops → SCIF_PORT_RSVD <= x < SCIF_PORT_COUNT →
  let st := fold_left apply_op ops (init_scif_array port_state0) in
  is_free st x = true → (get_scif_port st).1 ≠ 0.
Proof.
  intros Hops Hx st Hfree Hr. destruct (init_wf port_state0 eq_refl) as (Hwf & Hg & _).
  assert (wf st ∧ general_ready st) as [W G].
  { revert Hwf Hg. subst st. clear Hfree Hr. generalize (init_scif_array port_state0).
    induction Hops as [|op ops Hop Hops IH]; intros st W G; [done|]. simpl.
    destruct (apply_low_op st op W G Hop) as [W' G']. by apply IH. }
  clearbody st. destruct (get_scif_port st) as [r st'] eqn:E. simpl in Hr.
  destruct (get_correct _ _ _ W E) as (_ & _ & _ & _ & _ & Z0).
  unfold SCIF_PORT_RSVD, SCIF_PORT_COUNT in Hx.
  destruct (Z0 Hr) as [|Hff]; [done|].
  rewrite is_free_below in Hfree; [done|done|lia].
Qed.

Lemma get_scif_port_complete_witness :
  (get_scif_port (fold_left apply_op [Rsrv 201; Get; Put 201; Get]
     (init_scif_array port_state0))).1 ≠ 0.
Proof.
  apply (get_scif_port_complete _ 2000); [|unfold SCIF_PORT_RSVD, SCIF_PORT_COUNT; lia
    |vm_compute; reflexivity].
  repeat (apply Forall_cons; split; [simpl; unfold SCIF_PORT_RSVD, SCIF_PORT_COUNT; lia || exact I|]).
  apply Forall_nil. exact I.
Defined.

(** With explicit reservations among the general ports the documented
    contract (0 if no ports available) fails: after reserving ports 1088 to 1151
    one by one, get_scif_port returns 0 although port 1152 is free. *)
Theorem get_scif_port_misses_free_port :
  let st := fold_left apply_op ((λ i : nat, Rsrv (1088 + Z.of_nat i)) <$> seq 0 64)
              (init_scif_array port_state0) in
  (get_scif_port st).1 = 0 ∧ is_free st 1152 = true.
Proof. vm_compute. split; reflexivity. Qed.

End PortBits.
