(* ===== verification/Endpoint.v ===== *)
(** * SCIF endpoints: the connection life cycle

    Models the endpoint code of [mpss4/mpss-modules/mic/scif]: the message handlers
    of [scif_epd.c] and open, bind, listen, connect, accept and close of
    [scif_api.c].  Endpoints live in a heap from addresses to structures; a message
    from another node carries such addresses, and a handler that follows one that is
    not allocated has no result.  Messages to other nodes go to an outbox.  A
    function that waits for an answer is split where it waits. *)
From S2P Require Import Prelude Ports.
Local Open Scope Z_scope.
Import ScifPorts.

Module ScifEpd.

(** ** Data *)

Inductive scif_epd_state :=
  | SCIFEP_UNBOUND | SCIFEP_BOUND | SCIFEP_LISTENING | SCIFEP_CONNECTED | SCIFEP_CONNECTING
  | SCIFEP_MAPPING | SCIFEP_CLOSING | SCIFEP_CLLISTEN | SCIFEP_DISCONNECTED | SCIFEP_ZOMBIE.

#[global] Instance scif_epd_state_eq_dec : EqDecision scif_epd_state.
Proof. solve_decision. Defined.

Inductive conn_async_state := ASYNC_NONE | ASYNC_CONN_IDLE | ASYNC_CONN_INPROGRESS | ASYNC_CONN_FLUSH_WORK.

#[global] Instance conn_async_state_eq_dec : EqDecision conn_async_state.
Proof. solve_decision. Defined.

Record scif_port_id := PortId { node : Z; port : Z }.

(** Message opcodes (scif_nodeqp.h) *)
Definition SCIF_CNCT_REQ : Z := 9.
Definition SCIF_CNCT_GNT : Z := 10.
Definition SCIF_CNCT_GNTACK : Z := 11.
Definition SCIF_CNCT_GNTNACK : Z := 12.
Definition SCIF_CNCT_REJ : Z := 13.
Definition SCIF_DISCNCT : Z := 14.
Definition SCIF_DISCNT_ACK : Z := 15.

Record scifmsg := ScifMsg {
  src : scif_port_id; dst : scif_port_id; uop : Z;
  payload0 : Z; payload1 : Z; payload2 : Z;
}.

Definition set_uop (m : scifmsg) (u : Z) : scifmsg :=
  ScifMsg (src m) (dst m) u (payload0 m) (payload1 m) (payload2 m).

Definition SCIF_MAX_BACKLOG : Z := 1024.
Definition SCIF_ADMIN_PORT_END : Z := 1024.

(** [struct scif_endpt]; [qp] is whether the queue pair is allocated, and
    [discon] counts the completions of [ep->discon]. *)
Record scif_endpt := Endpt {
  state : scif_epd_state;
  self : scif_port_id;
  peer : scif_port_id;
  backlog : Z;
  qp : bool;
  gnt_pld : Z;
  remote_dev : option Z;
  remote_ep : Z;
  conreqcnt : Z;
  conlist : list scifmsg;
  conn_port : scif_port_id;
  async : conn_async_state;
  discon : Z;
}.

Definition no_port : scif_port_id := PortId 0 0.
Definition zero_endpt : scif_endpt :=
  Endpt SCIFEP_UNBOUND no_port no_port 0 false 0 None 0 0 [] no_port ASYNC_NONE 0.

Definition set_state (s : scif_epd_state) (e : scif_endpt) : scif_endpt :=
  Endpt s (self e) (peer e) (backlog e) (qp e) (gnt_pld e) (remote_dev e) (remote_ep e)
    (conreqcnt e) (conlist e) (conn_port e) (async e) (discon e).
Definition set_self (p : scif_port_id) (e : scif_endpt) : scif_endpt :=
  Endpt (state e) p (peer e) (backlog e) (qp e) (gnt_pld e) (remote_dev e) (remote_ep e)
    (conreqcnt e) (conlist e) (conn_port e) (async e) (discon e).
Definition set_async (a : conn_async_state) (e : scif_endpt) : scif_endpt :=
  Endpt (state e) (self e) (peer e) (backlog e) (qp e) (gnt_pld e) (remote_dev e) (remote_ep e)
    (conreqcnt e) (conlist e) (conn_port e) a (discon e).
Definition set_qp (b : bool) (e : scif_endpt) : scif_endpt :=
  Endpt (state e) (self e) (peer e) (backlog e) b (gnt_pld e) (remote_dev e) (remote_ep e)
    (conreqcnt e) (conlist e) (conn_port e) (async e) (discon e).
Definition set_conn_port (p : scif_port_id) (e : scif_endpt) : scif_endpt :=
  Endpt (state e) (self e) (peer e) (backlog e) (qp e) (gnt_pld e) (remote_dev e) (remote_ep e)
    (conreqcnt e) (conlist e) p (async e) (discon e).
Definition set_remote_dev (d : Z) (e : scif_endpt) : scif_endpt :=
  Endpt (state e) (self e) (peer e) (backlog e) (qp e) (gnt_pld e) (Some d) (remote_ep e)
    (conreqcnt e) (conlist e) (conn_port e) (async e) (discon e).
Definition set_queue (b n : Z) (l : list scifmsg) (e : scif_endpt) : scif_endpt :=
  Endpt (state e) (self e) (peer e) b (qp e) (gnt_pld e) (remote_dev e) (remote_ep e)
    n l (conn_port e) (async e) (discon e).
Definition set_granted (p : scif_port_id) (pld rep : Z) (e : scif_endpt) : scif_endpt :=
  Endpt (state e) (self e) p (backlog e) (qp e) pld (remote_dev e) rep
    (conreqcnt e) (conlist e) (conn_port e) (async e) (discon e).
Definition set_discon (n : Z) (e : scif_endpt) : scif_endpt :=
  Endpt (state e) (self e) (peer e) (backlog e) (qp e) (gnt_pld e) (remote_dev e) (remote_ep e)
    (conreqcnt e) (conlist e) (conn_port e) (async e) n.

(** The endpoint part of [struct scif_info] of one node. *)
Record scif_info := Info {
  nodeid : Z;
  eps : gmap Z scif_endpt;
  listen : list Z;
  connected : list Z;
  disconnected : list Z;
  zombie : list Z;
  nr_zombies : Z;
  nb_connect_list : list Z;
  ports : gmap Z Z;
  sent : list (Z * scifmsg);
}.

Definition set_eps (i : scif_info) (m : gmap Z scif_endpt) : scif_info :=
  Info (nodeid i) m (listen i) (connected i) (disconnected i) (zombie i) (nr_zombies i)
    (nb_connect_list i) (ports i) (sent i).
Definition set_listen (i : scif_info) (l : list Z) : scif_info :=
  Info (nodeid i) (eps i) l (connected i) (disconnected i) (zombie i) (nr_zombies i)
    (nb_connect_list i) (ports i) (sent i).
Definition set_connected (i : scif_info) (l : list Z) : scif_info :=
  Info (nodeid i) (eps i) (listen i) l (disconnected i) (zombie i) (nr_zombies i)
    (nb_connect_list i) (ports i) (sent i).
Definition set_disconnected (i : scif_info) (l : list Z) : scif_info :=
  Info (nodeid i) (eps i) (listen i) (connected i) l (zombie i) (nr_zombies i)
    (nb_connect_list i) (ports i) (sent i).
Definition set_zombie (i : scif_info) (l : list Z) (n : Z) : scif_info :=
  Info (nodeid i) (eps i) (listen i) (connected i) (disconnected i) l n
    (nb_connect_list i) (ports i) (sent i).
Definition set_nb (i : scif_info) (l : list Z) : scif_info :=
  Info (nodeid i) (eps i) (listen i) (connected i) (disconnected i) (zombie i) (nr_zombies i)
    l (ports i) (sent i).
Definition set_ports (i : scif_info) (p : gmap Z Z) : scif_info :=
  Info (nodeid i) (eps i) (listen i) (connected i) (disconnected i) (zombie i) (nr_zombies i)
    (nb_connect_list i) p (sent i).

(** [scif_nodeqp_send] to a node. *)
Definition send (i : scif_info) (n : Z) (m : scifmsg) : scif_info :=
  Info (nodeid i) (eps i) (listen i) (connected i) (disconnected i) (zombie i) (nr_zombies i)
    (nb_connect_list i) (ports i) (sent i ++ [(n, m)]).

(** Access through a pointer, and the writes of a handler under the lock. *)
Definition ep_at (i : scif_info) (e : Z) : option scif_endpt := eps i !! e.
Definition update (i : scif_info) (e : Z) (f : scif_endpt → scif_endpt) : scif_info :=
  set_eps i (alter f e (eps i)).

(** [list_del] of the first match, as the loops that break do. *)
Fixpoint list_del (e : Z) (l : list Z) : list Z :=
  match l with
  | [] => []
  | x :: l => if x =? e then l else x :: list_del e l
  end.

(** ** scif_epd.c *)

Definition scif_teardown_ep (e : scif_endpt) : scif_endpt := if qp e then set_qp false e else e.

Definition scif_add_epd_to_zombie_list (i : scif_info) (e : Z) : scif_info :=
  let i := update i e (set_state SCIFEP_ZOMBIE) in
  set_zombie i (zombie i ++ [e]) (nr_zombies i + 1).

Fixpoint find_listen (m : gmap Z scif_endpt) (l : list Z) (p : Z) : option Z :=
  match l with
  | [] => None
  | e :: l =>
      match m !! e with
      | Some ep => if port (self ep) =? p then Some e else find_listen m l p
      | None => find_listen m l p
      end
  end.

Definition scif_find_listen_ep (i : scif_info) (p : Z) : option Z :=
  find_listen (eps i) (listen i) p.

(** [can_uninit] is [scif_rma_ep_can_uninit]. *)
Fixpoint cleanup_zombies (can_uninit : Z → bool) (l : list Z) (i : scif_info) : scif_info :=
  match l with
  | [] => i
  | e :: l =>
      let i := if can_uninit e
               then set_eps (set_zombie i (list_del e (zombie i)) (nr_zombies i - 1))
                      (delete e (eps i))
               else i in
      cleanup_zombies can_uninit l i
  end.

Definition scif_cleanup_zombie_epd (can_uninit : Z → bool) (i : scif_info) : scif_info :=
  cleanup_zombies can_uninit (zombie i) i.

(** [mem]: whether [kmalloc] returns memory. *)
Definition scif_cnctreq (mem : bool) (i : scif_info) (msg : scifmsg) : option scif_info :=
  let sendrej := Some (send i (node (src msg)) (set_uop msg SCIF_CNCT_REJ)) in
  if negb mem then sendrej
  else
    match scif_find_listen_ep i (port (dst msg)) with
    | None => sendrej
    | Some e =>
        match ep_at i e with
        | None => None
        | Some ep =>
            if backlog ep <=? conreqcnt ep then sendrej
            else Some (update i e (λ ep, set_queue (backlog ep) (conreqcnt ep + 1)
                                           (conlist ep ++ [msg]) ep))
        end
    end.

Definition scif_cnctgnt (i : scif_info) (msg : scifmsg) : option scif_info :=
  match ep_at i (payload0 msg) with
  | None => None
  | Some ep =>
      if decide (SCIFEP_CONNECTING = state ep) then
        Some (update i (payload0 msg) (λ ep, set_state SCIFEP_MAPPING
                (set_granted (src msg) (payload1 msg) (payload2 msg) ep)))
      else Some i
  end.

Definition scif_cnctgnt_ack (i : scif_info) (msg : scifmsg) : option scif_info :=
  match ep_at i (payload0 msg) with
  | None => None
  | Some _ =>
      let i := update i (payload0 msg) (set_state SCIFEP_CONNECTED) in
      Some (set_connected i (connected i ++ [payload0 msg]))
  end.

Definition scif_cnctgnt_nack (i : scif_info) (msg : scifmsg) : option scif_info :=
  match ep_at i (payload0 msg) with
  | None => None
  | Some _ => Some (update i (payload0 msg) (set_state SCIFEP_CLOSING))
  end.

Definition scif_cnctrej (i : scif_info) (msg : scifmsg) : option scif_info :=
  match ep_at i (payload0 msg) with
  | None => None
  | Some ep =>
      if decide (SCIFEP_CONNECTING = state ep)
      then Some (update i (payload0 msg) (set_state SCIFEP_BOUND)) else Some i
  end.

(** The loop over the connected list. *)
Fixpoint find_connected (m : gmap Z scif_endpt) (l : list Z) (msg : scifmsg) : option Z :=
  match l with
  | [] => None
  | e :: l =>
      match m !! e with
      | Some ep =>
          if (e =? payload1 msg) && (remote_ep ep =? payload0 msg) then Some e
          else find_connected m l msg
      | None => find_connected m l msg
      end
  end.

Definition scif_discnct (i : scif_info) (msg : scifmsg) : scif_info :=
  let i :=
    match find_connected (eps i) (connected i) msg with
    | None => i
    | Some e =>
        let i := set_connected i (list_del e (connected i)) in
        let i := update i e (set_state SCIFEP_DISCONNECTED) in
        let i := match ep_at i e with
                 | Some ep => set_ports i (scif_put_port (ports i) (port (self ep)))
                 | None => i end in
        set_disconnected i (disconnected i ++ [e])
    end in
  send i (node (src msg)) (set_uop msg SCIF_DISCNT_ACK).

Definition scif_discnt_ack (i : scif_info) (msg : scifmsg) : option scif_info :=
  match ep_at i (payload0 msg) with
  | None => None
  | Some ep =>
      let i := update i (payload0 msg) (set_state SCIFEP_DISCONNECTED) in
      let i := set_ports i (scif_put_port (ports i) (port (self ep))) in
      Some (update i (payload0 msg) (λ ep, set_discon (discon ep + 1) ep))
  end.

(** ** scif_nm.c *)

(** The loop of [scif_invalidate_ep] over the connected endpoints: those of node [n] are
    disconnected.  The queue pairs and windows that it unmaps are not part of this state. *)
Fixpoint invalidate_eps (n : Z) (l : list Z) (i : scif_info) : option scif_info :=
  match l with
  | [] => Some i
  | e :: l =>
      match ep_at i e with
      | None => None
      | Some ep =>
          match remote_dev ep with
          | None => None
          | Some d =>
              if d =? n then
                let i := set_connected i (list_del e (connected i)) in
                let i := update i e (set_state SCIFEP_DISCONNECTED) in
                let i := set_ports i (scif_put_port (ports i) (port (self ep))) in
                invalidate_eps n l (set_disconnected i (disconnected i ++ [e]))
              else invalidate_eps n l i
          end
      end
  end.

Definition scif_invalidate_ep (n : Z) (i : scif_info) : option scif_info := invalidate_eps n (connected i) i.

(** ** scif_api.c *)

Definition scif_open (a : Z) (i : scif_info) : scif_info :=
  set_eps i (<[a := set_qp true zero_endpt]> (eps i)).

Section Api.
Context `{IdAllocator}.

(** [capable]: [CAP_SYS_ADMIN]; [kz]: memory for the port structure.  [pn] is a
    [u16], so a negative code of [scif_get_new_port] is stored wrapped. *)
Definition scif_bind (capable kz : bool) (i : scif_info) (e pn : Z) : option (Z * scif_info) :=
  match ep_at i e with
  | None => None
  | Some ep =>
      if negb (pn =? 0) && (pn <? SCIF_ADMIN_PORT_END) && negb capable then Some (- EACCES, i)
      else if decide (state ep = SCIFEP_BOUND) then Some (- EINVAL, i)
      else if negb (bool_decide (state ep = SCIFEP_UNBOUND)) then Some (- EISCONN, i)
      else
        let bound p i :=
          Some (p, update i e (λ ep, set_async ASYNC_CONN_IDLE
                     (set_self (PortId (nodeid i) p) (set_state SCIFEP_BOUND ep)))) in
        if negb (pn =? 0) then
          let '(tmp, ps) := scif_rsrv_port kz (ports i) pn in
          let i := set_ports i ps in
          if negb (tmp =? pn) then Some (- EINVAL, i) else bound pn i
        else
          let '(r, ps) := scif_get_new_port kz (ports i) in
          let i := set_ports i ps in
          let pn := u16 r in
          if pn =? 0 then Some (- ENOSPC, i) else bound pn i
  end.

Definition scif_listen (i : scif_info) (e b : Z) : option (Z * scif_info) :=
  if b <=? 0 then Some (- EINVAL, i)
  else
    match ep_at i e with
    | None => None
    | Some ep =>
        match state ep with
        | SCIFEP_ZOMBIE | SCIFEP_CLOSING | SCIFEP_CLLISTEN | SCIFEP_UNBOUND
        | SCIFEP_DISCONNECTED => Some (- EINVAL, i)
        | SCIFEP_LISTENING | SCIFEP_CONNECTED | SCIFEP_CONNECTING
        | SCIFEP_MAPPING => Some (- EISCONN, i)
        | SCIFEP_BOUND =>
            let i := update i e (λ ep, scif_teardown_ep
                       (set_queue (Z.min b SCIF_MAX_BACKLOG) 0 [] (set_state SCIFEP_LISTENING ep))) in
            Some (0, set_listen i (listen i ++ [e]))
        end
    end.

Definition __scif_flush (i : scif_info) (e : Z) : option scif_info :=
  match ep_at i e with
  | None => None
  | Some ep =>
      match state ep with
      | SCIFEP_LISTENING => Some (update i e (set_state SCIFEP_CLLISTEN))
      | _ => Some i
      end
  end.

(** The switch of [__scif_connect]: the error and the endpoint after it. *)
Definition connect_switch (kz non_block : bool) (dst : scif_port_id) (i : scif_info)
    (ep : scif_endpt) : Z * scif_endpt * gmap Z Z :=
  let bound_case err ep ps :=
    match async ep with
    | ASYNC_CONN_INPROGRESS => (err, set_async ASYNC_CONN_FLUSH_WORK ep, ps)
    | ASYNC_CONN_FLUSH_WORK => (- EINPROGRESS, ep, ps)
    | _ => (err, set_async (if non_block then ASYNC_CONN_INPROGRESS else ASYNC_NONE)
                   (set_conn_port dst ep), ps)
    end in
  match state ep with
  | SCIFEP_ZOMBIE | SCIFEP_CLOSING => (- EINVAL, ep, ports i)
  | SCIFEP_DISCONNECTED =>
      if decide (async ep = ASYNC_CONN_INPROGRESS)
      then (0, set_async ASYNC_CONN_FLUSH_WORK ep, ports i) else (- EINVAL, ep, ports i)
  | SCIFEP_LISTENING | SCIFEP_CLLISTEN => (- EOPNOTSUPP, ep, ports i)
  | SCIFEP_CONNECTING | SCIFEP_MAPPING =>
      (if decide (async ep = ASYNC_CONN_INPROGRESS) then - EINPROGRESS else - EISCONN, ep, ports i)
  | SCIFEP_CONNECTED =>
      if decide (async ep = ASYNC_CONN_INPROGRESS)
      then (0, set_async ASYNC_CONN_FLUSH_WORK ep, ports i) else (- EISCONN, ep, ports i)
  | SCIFEP_UNBOUND =>
      let '(r, ps) := scif_get_new_port kz (ports i) in
      let ep := set_self (PortId (node (self ep)) (u16 r)) ep in
      if u16 r =? 0 then bound_case (- ENOSPC) ep ps
      else bound_case 0 (set_async ASYNC_CONN_IDLE (set_self (PortId (nodeid i) (u16 r)) ep)) ps
  | SCIFEP_BOUND => bound_case 0 ep (ports i)
  end.

(** [__scif_connect] up to the unlock at [connect_simple_unlock1]; [alive] is
    whether the peer device of the node exists, [maxid] the highest node. *)
Definition connect_start (kz non_block alive : bool) (maxid : Z) (dst : scif_port_id)
    (i : scif_info) (e : Z) : option (Z * scif_info) :=
  if maxid <? node dst then Some (- ENODEV, i)
  else if port dst =? 0 then Some (- EINVAL, i)
  else if negb alive then Some (- ENODEV, i)
  else
    match ep_at i e with
    | None => None
    | Some ep =>
        let '(err, ep, ps) := connect_switch kz non_block dst i ep in
        let i := set_ports i ps in
        if negb (err =? 0) || bool_decide (async ep = ASYNC_CONN_FLUSH_WORK)
        then Some (err, update i e (λ _, ep))
        else
          let ep := set_remote_dev (node dst) (set_state SCIFEP_CONNECTING ep) in
          let i := update i e (λ _, ep) in
          if decide (async ep = ASYNC_CONN_INPROGRESS)
          then Some (- EINPROGRESS, set_nb i (nb_connect_list i ++ [e]))
          else Some (0, i)
    end.

(** [scif_conn_func] up to the wait: [setup] is the first error of reserving the
    channel and setting up the queue pair, [alive] the peer device, [serr] the
    result of sending.  The result is an error, or 0 when the request is sent. *)
Definition conn_request (setup : Z) (alive : bool) (serr : Z) (i : scif_info) (e : Z)
  : option (Z * scif_info) :=
  match ep_at i e with
  | None => None
  | Some ep =>
      if negb (setup =? 0) then Some (setup, update i e (set_state SCIFEP_BOUND))
      else if negb alive then Some (- ENODEV, i)
      else
        let msg := ScifMsg (self ep) (conn_port ep) SCIF_CNCT_REQ e 0 0 in
        if negb (serr =? 0) then Some (serr, i)
        else
          match remote_dev ep with
          | None => None
          | Some n => Some (0, send i n msg)
          end
  end.

(** [scif_conn_func] after the wait; [woken] is false on a timeout, [map_err] the
    result of mapping the peer's queue pair, [serr] of sending the answer; [nack_sent] is
    whether a refusal, whose result is not looked at, gets through. *)
Definition conn_finish (woken nack_sent : bool) (map_err serr : Z) (i : scif_info) (e : Z)
  : option (Z * scif_info) :=
  match ep_at i e with
  | None => None
  | Some ep =>
      let i := if negb woken then update i e (set_state SCIFEP_BOUND) else i in
      let st := if negb woken then SCIFEP_BOUND else state ep in
      match st, remote_dev ep with
      | SCIFEP_MAPPING, None => None
      | SCIFEP_MAPPING, Some n =>
          let answer u := ScifMsg (self ep) (conn_port ep) u (remote_ep ep) 0 0 in
          if negb (map_err =? 0) then
            let i := if nack_sent then send i n (answer SCIF_CNCT_GNTNACK) else i in
            Some (map_err, update i e (set_state SCIFEP_BOUND))
          else if negb (serr =? 0) then Some (serr, update i e (set_state SCIFEP_BOUND))
          else
            let i := update (send i n (answer SCIF_CNCT_GNTACK)) e (set_state SCIFEP_CONNECTED) in
            Some (0, set_connected i (connected i ++ [e]))
      | SCIFEP_BOUND, _ => Some (- ECONNREFUSED, i)
      | _, _ => Some (1, i)
      end
  end.

(** The end of [scif_accept] on an error: the requester is told.  [from] is what the source
    field and the last payload of the message hold (nothing is written to them before the
    grant is made up), [sent] whether the message, whose result is not looked at, gets through. *)
Definition accept_reject (sent : bool) (from : scif_port_id * Z) (req : scifmsg) (i : scif_info)
  : scif_info :=
  if sent
  then send i (node (src req))
         (ScifMsg (fst from) (src req) SCIF_CNCT_REJ (payload0 req) (payload1 req) (snd from))
  else i.

(** [scif_accept], from the request taken off the queue to the grant: [err] is the first error
    of the allocations and the set-up of the queue pair (0 if there is none), [serr] of sending
    the grant, [c] the address of the new endpoint. *)
Definition accept_take (err serr : Z) (rej_sent : bool) (i : scif_info) (l c : Z)
  : option (Z * scif_info) :=
  match ep_at i l with
  | None => None
  | Some lep =>
      if negb (bool_decide (state lep = SCIFEP_LISTENING)) then Some (- EINVAL, i)
      else
        match conlist lep with
        | [] => Some (- EAGAIN, i)
        | req :: reqs =>
            let i := update i l (set_queue (backlog lep) (conreqcnt lep - 1) reqs) in
            if negb (err =? 0) then Some (err, accept_reject rej_sent (no_port, 0) req i)
            else
              let cep := Endpt SCIFEP_CONNECTING (self lep) (src req) 0 true 0
                           (Some (node (src req))) (payload0 req) 0 [] no_port ASYNC_NONE 0 in
              let i := set_eps i (<[c := cep]> (eps i)) in
              if negb (serr =? 0) then
                let i := set_eps i (delete c (eps i)) in
                Some (serr, accept_reject rej_sent (self lep, c) req i)
              else
                Some (0, send i (node (src req))
                       (ScifMsg (self lep) no_port SCIF_CNCT_GNT (payload0 req) 0 c))
        end
  end.

(** [scif_accept] behind the wait for the answer to the grant for the request [req]: [woken] is
    false when the wait has timed out and the node of the peer is not alive (while it is alive the
    wait is started again).  The new endpoint is freed then, and when the peer has refused. *)
Definition accept_finish (woken rej_sent : bool) (req : scifmsg) (i : scif_info) (c : Z)
  : option (Z * scif_info) :=
  match ep_at i c with
  | None => None
  | Some cep =>
      if negb woken then
        let i := update i c scif_teardown_ep in
        let i := set_eps i (delete c (eps i)) in
        Some (- ENODEV, accept_reject rej_sent (self cep, c) req i)
      else if decide (state cep = SCIFEP_CLOSING) then
        let i := update i c scif_teardown_ep in
        Some (- EAGAIN, set_eps i (delete c (eps i)))
      else Some (0, set_ports i (scif_get_port (ports i) (port (self cep))))
  end.

(** [scif_disconnect_ep] up to the wait for the answer; [serr] is the result of sending the
    message (there is no wait when it fails). *)
Definition scif_disconnect_ep (serr : Z) (i : scif_info) (e : Z) : option scif_info :=
  match ep_at i e with
  | None => None
  | Some ep =>
      if decide (e ∈ connected i) then
        let i := set_connected i (list_del e (connected i)) in
        let i := update i e (set_discon 0) in
        match remote_dev ep with
        | None => None
        | Some n =>
            if negb (serr =? 0) then Some i
            else Some (send i n (ScifMsg (self ep) (peer ep) SCIF_DISCNCT e (remote_ep ep) 0))
        end
      else Some (set_disconnected i (list_del e (disconnected i)))
  end.

(** [scif_close] up to the wait in [scif_disconnect_ep]: the old state, and the node
    afterwards.  Endpoints accepted by ioctl and not yet collected
    ([ep->li_accept]) belong to scif_fd.c and are not part of this state. *)
Definition close_start (serr : Z) (i : scif_info) (e : Z) : option (scif_epd_state * scif_info) :=
  match ep_at i e with
  | None => None
  | Some ep =>
      let oldstate := state ep in
      let i := update i e (set_state SCIFEP_CLOSING) in
      match oldstate with
      | SCIFEP_ZOMBIE | SCIFEP_DISCONNECTED =>
          Some (oldstate, set_disconnected i (list_del e (disconnected i)))
      | SCIFEP_UNBOUND | SCIFEP_BOUND | SCIFEP_CONNECTING => Some (oldstate, i)
      | SCIFEP_MAPPING | SCIFEP_CONNECTED | SCIFEP_CLOSING =>
          option_map (pair oldstate) (scif_disconnect_ep serr i e)
      | SCIFEP_LISTENING | SCIFEP_CLLISTEN =>
          let i := set_listen i (filter (λ x, x ≠ e) (listen i)) in
          Some (oldstate, update i e (λ ep, set_queue (backlog ep) 0 [] ep))
      end
  end.

(** The rest of [scif_close]. *)
Definition close_finish (i : scif_info) (e : Z) (oldstate : scif_epd_state) : option scif_info :=
  match ep_at i e with
  | None => None
  | Some ep =>
      let i := if negb (bool_decide (oldstate = SCIFEP_DISCONNECTED))
               then set_ports i (scif_put_port (ports i) (port (self ep))) else i in
      let i := update i e scif_teardown_ep in
      Some (scif_add_epd_to_zombie_list i e)
  end.

(** The whole of [scif_close]; [serr] is the result of sending the message to the peer, [acked]
    whether it answers in time. *)
Definition scif_close (serr : Z) (acked : bool) (i : scif_info) (e : Z) : option scif_info :=
  match close_start serr i e with
  | None => None
  | Some (oldstate, i1) =>
      let i2 :=
        if (serr =? 0) && acked && bool_decide (e ∈ connected i)
        then scif_discnt_ack i1 (ScifMsg no_port no_port SCIF_DISCNT_ACK e 0 0)
        else Some i1 in
      match i2 with
      | None => None
      | Some i2 => close_finish i2 e oldstate
      end
  end.

End Api.

End ScifEpd.
