(* ===== verification/EndpointInv.v ===== *)
(** * SCIF endpoints: invariants and theorems

    The steps of one node: calls of the endpoint interface, split where they wait,
    and messages from other nodes in any order.  The invariant ties the state of
    each endpoint to the list it is on and bounds the queues of listeners.  The
    theorems also give what a connection request and a disconnect do, and two places
    where port numbers are not accounted for. *)
From S2P Require Import Prelude Ports Endpoint.
Local Open Scope Z_scope.
Import ScifPorts ScifEpd.

Module EndpointInv.

Definition listening (s : scif_epd_state) : Prop := s = SCIFEP_LISTENING ∨ s = SCIFEP_CLLISTEN.

(** Endpoints inside [scif_close], with the old state it saved. *)
Notation closers := (gmap Z scif_epd_state).

(** The states an endpoint can be in while the answer to its request is out, or has just come. *)
Definition asking (s : scif_epd_state) : Prop :=
  s = SCIFEP_CONNECTING ∨ s = SCIFEP_MAPPING ∨ s = SCIFEP_BOUND.

Lemma asking_other s : asking s →
  s ≠ SCIFEP_DISCONNECTED ∧ s ≠ SCIFEP_CLOSING ∧ s ≠ SCIFEP_CONNECTED ∧ s ≠ SCIFEP_ZOMBIE ∧ ¬ listening s.
Proof. unfold asking, listening. naive_solver congruence. Qed.

Section Steps.
Context `{IdAllocator}.

Inductive step : scif_info * closers → option scifmsg → scif_info * closers → Prop :=
  | s_open i K a : eps i !! a = None → step (i, K) None (scif_open a i, K)
  | s_bind i K cap kz e pn rc i' :
      scif_bind cap kz i e pn = Some (rc, i') → step (i, K) None (i', K)
  | s_listen i K e b rc i' : scif_listen i e b = Some (rc, i') → step (i, K) None (i', K)
  | s_flush i K e i' : __scif_flush i e = Some i' → step (i, K) None (i', K)
  | s_connect i K kz nb alive maxid dst e rc i' :
      connect_start kz nb alive maxid dst i e = Some (rc, i') → step (i, K) None (i', K)
  | s_request i K setup alive serr e ep rc i' :
      eps i !! e = Some ep → asking (state ep) →
      conn_request setup alive serr i e = Some (rc, i') → step (i, K) None (i', K)
  | s_conn_finish i K (woken : bool) nack map_err serr e ep rc i' :
      eps i !! e = Some ep → (woken = false → asking (state ep)) →
      conn_finish woken nack map_err serr i e = Some (rc, i') → step (i, K) None (i', K)
  | s_accept i K err serr rej l c rc i' :
      eps i !! c = None → accept_take err serr rej i l c = Some (rc, i') → step (i, K) None (i', K)
  | s_accepted i K (woken : bool) rej req c cep rc i' :
      K !! c = None → eps i !! c = Some cep →
      (if woken then state cep ≠ SCIFEP_CONNECTING else state cep = SCIFEP_CONNECTING) →
      accept_finish woken rej req i c = Some (rc, i') → step (i, K) None (i', K)
  | s_close i K serr e old i' :
      K !! e = None → close_start serr i e = Some (old, i') → old ≠ SCIFEP_ZOMBIE →
      step (i, K) None (i', <[e := old]> K)
  | s_closed i K e old i' :
      K !! e = Some old → close_finish i e old = Some i' → step (i, K) None (i', delete e K)
  | s_cleanup i K can : step (i, K) None (scif_cleanup_zombie_epd can i, K)
  | s_cnctreq i K mem msg i' : scif_cnctreq mem i msg = Some i' → step (i, K) None (i', K)
  | s_cnctgnt i K msg i' : scif_cnctgnt i msg = Some i' → step (i, K) None (i', K)
  | s_gntack i K msg i' : uop msg = SCIF_CNCT_GNTACK →
      scif_cnctgnt_ack i msg = Some i' → step (i, K) (Some msg) (i', K)
  | s_gntnack i K msg i' : uop msg = SCIF_CNCT_GNTNACK →
      scif_cnctgnt_nack i msg = Some i' → step (i, K) (Some msg) (i', K)
  | s_cnctrej i K msg i' : scif_cnctrej i msg = Some i' → step (i, K) None (i', K)
  | s_discnct i K msg : step (i, K) None (scif_discnct i msg, K)
  | s_invalidate i K n i' : scif_invalidate_ep n i = Some i' → step (i, K) None (i', K)
  | s_discnt_ack i K msg i' : uop msg = SCIF_DISCNT_ACK →
      scif_discnt_ack i msg = Some i' → step (i, K) (Some msg) (i', K).

Definition info0 (n : Z) : scif_info := Info n ∅ [] [] [] [] 0 [] ∅ [].

(** Any run. *)
Inductive reachable : scif_info * closers → Prop :=
  | reach_init n : reachable (info0 n, ∅)
  | reach_step s a s' : reachable s → step s a s' → reachable s'.

(** Three handlers follow the address in the message and write to the endpoint whatever its state
    is.  Their message is awaited when a grant is pending at the endpoint, or a close. *)
Definition awaited (s : scif_info * closers) (a : option scifmsg) : Prop :=
  match a with
  | None => True
  | Some msg =>
      if decide (uop msg = SCIF_DISCNT_ACK) then is_Some (snd s !! payload0 msg)
      else ∃ ep, eps (fst s) !! payload0 msg = Some ep ∧ state ep = SCIFEP_CONNECTING
  end.

(** Runs in which these answers come while they are awaited. *)
Inductive timely : scif_info * closers → Prop :=
  | timely_init n : timely (info0 n, ∅)
  | timely_step s a s' : timely s → awaited s a → step s a s' → timely s'.

Lemma timely_call s s' : timely s → step s None s' → timely s'.
Proof. intros HR Hs. by eapply timely_step; [exact HR| |exact Hs]. Qed.

Lemma timely_reachable s : timely s → reachable s.
Proof. induction 1; [constructor|]. by eapply reach_step. Qed.

End Steps.

(** ** The invariant *)

Definition queue_ok (ep : scif_endpt) : Prop :=
  conreqcnt ep = zlen (conlist ep) ∧
  (listening (state ep) → conreqcnt ep <= backlog ep <= SCIF_MAX_BACKLOG).

Definition on_list (i : scif_info) (l : list Z) (P : scif_epd_state → Prop) : Prop :=
  NoDup l ∧ ∀ x, x ∈ l ↔ ∃ ep, eps i !! x = Some ep ∧ P (state ep).

Record inv (i : scif_info) (K : closers) : Prop := {
  i_listen : on_list i (listen i) listening;
  i_connected : on_list i (connected i) (λ s, s = SCIFEP_CONNECTED);
  i_zombie : on_list i (zombie i) (λ s, s = SCIFEP_ZOMBIE);
  i_count : nr_zombies i = zlen (zombie i);
  i_disc_nodup : NoDup (disconnected i);
  i_disc x : x ∈ disconnected i → K !! x = None ∧
    ∃ ep, eps i !! x = Some ep ∧ state ep = SCIFEP_DISCONNECTED;
  i_closing x old : K !! x = Some old → ∃ ep, eps i !! x = Some ep ∧
    (state ep = SCIFEP_CLOSING ∨ state ep = SCIFEP_DISCONNECTED);
  i_queue x ep : eps i !! x = Some ep → queue_ok ep;
}.

(** ** Lists *)

Lemma list_del_notin e l : e ∉ l → list_del e l = l.
Proof.
  induction l as [|x l IH]; [done|]. rewrite not_elem_of_cons. intros [? ?]. cbn.
  destruct (Z.eqb_spec x e); [congruence|]. by rewrite IH.
Qed.

Lemma elem_of_list_del e l x : NoDup l → x ∈ list_del e l ↔ x ∈ l ∧ x ≠ e.
Proof.
  induction 1 as [|y l Hy Hl IH]; cbn; [rewrite elem_of_nil; tauto|].
  destruct (Z.eqb_spec y e) as [-> |Hne]; rewrite !elem_of_cons, ?IH; [|naive_solver].
  split; [|naive_solver]. intros Hx. split; [by right|]. intros ->. done.
Qed.

Lemma NoDup_list_del e l : NoDup l → NoDup (list_del e l).
Proof.
  induction 1 as [|y l Hy Hl IH]; cbn; [constructor|].
  destruct (Z.eqb_spec y e); [done|]. constructor; [|done].
  rewrite elem_of_list_del by done. naive_solver.
Qed.

Lemma NoDup_snoc (l : list Z) e : NoDup l → e ∉ l → NoDup (l ++ [e]).
Proof.
  intros. apply NoDup_app. repeat split; [done| |apply NoDup_singleton].
  intros x Hx ->%list_elem_of_singleton. done.
Qed.

(** ** Moves of one endpoint

    The list for the states [P], after endpoint [e] went from [s] to [s']. *)
Definition moved (e : Z) (s s' : option scif_epd_state) (P : scif_epd_state → Prop)
    (l l' : list Z) : Prop :=
  (l' = l ∧ (from_option P False s ↔ from_option P False s')) ∨
  (l' = l ++ [e] ∧ ¬ from_option P False s ∧ from_option P False s') ∨
  (l' = list_del e l ∧ ¬ from_option P False s').

Lemma on_list_moved i i' e s' P l l' :
  on_list i l P → (∀ x, x ≠ e → eps i' !! x = eps i !! x) →
  state <$> (eps i' !! e) = s' → moved e (state <$> (eps i !! e)) s' P l l' → on_list i' l' P.
Proof.
  intros [Hnd Hl] Hfr Hs' Hm.
  assert (∀ j, (∃ ep, eps j !! e = Some ep ∧ P (state ep)) ↔
    from_option P False (state <$> (eps j !! e))) as He.
  { intros j. destruct (eps j !! e) as [ep|]; cbn; naive_solver. }
  assert (NoDup l' ∧ (∀ x, x ≠ e → x ∈ l' ↔ x ∈ l) ∧ (e ∈ l' ↔ from_option P False s'))
    as (Hn' & Hx & He').
  { pose proof (Hl e) as Hle. rewrite He in Hle.
    destruct Hm as [[-> Hm]|[(-> & Hm1 & Hm2)|[-> Hm]]].
    - split; [done|]. split; [done|]. by rewrite Hle.
    - split; [apply NoDup_snoc; tauto|]. split; [|].
      + intros x Hx. rewrite elem_of_app, list_elem_of_singleton. tauto.
      + rewrite elem_of_app, list_elem_of_singleton. tauto.
    - split; [by apply NoDup_list_del|]. setoid_rewrite elem_of_list_del; [|done..].
      split; [tauto|]. tauto. }
  split; [done|]. intros x. destruct (decide (x = e)) as [-> |Hne].
  - rewrite He', He, Hs'. done.
  - rewrite Hx, Hl, Hfr by done. done.
Qed.

(** A step that rewrites one endpoint and moves it between lists. *)
Lemma inv_move i i' K K' e s' :
  inv i K → (∀ x, x ≠ e → eps i' !! x = eps i !! x) →
  state <$> (eps i' !! e) = s' →
  (∀ ep, eps i' !! e = Some ep → queue_ok ep) →
  moved e (state <$> (eps i !! e)) s' listening (listen i) (listen i') →
  moved e (state <$> (eps i !! e)) s' (λ s, s = SCIFEP_CONNECTED) (connected i) (connected i') →
  moved e (state <$> (eps i !! e)) s' (λ s, s = SCIFEP_ZOMBIE) (zombie i) (zombie i') →
  nr_zombies i' = zlen (zombie i') →
  (disconnected i' = list_del e (disconnected i) ∨
   disconnected i' = disconnected i ∧ s' = Some SCIFEP_DISCONNECTED ∧ K' !! e = K !! e ∨
   disconnected i' = disconnected i ++ [e] ∧ e ∉ disconnected i ∧
     s' = Some SCIFEP_DISCONNECTED ∧ K' !! e = None) →
  (∀ x, x ≠ e → K' !! x = K !! x) →
  (is_Some (K' !! e) → s' = Some SCIFEP_CLOSING ∨ s' = Some SCIFEP_DISCONNECTED) →
  inv i' K'.
Proof.
  intros [I1 I2 I3 I4 I5 I6 I7 I8] Hfr Hs' Hq H1 H2 H3 Hc Hd HK HKe.
  assert (∀ s, s' = Some s → ∃ ep, eps i' !! e = Some ep ∧ state ep = s) as Hep.
  { intros s ->. destruct (eps i' !! e) as [ep|]; simplify_eq/=. eauto. }
  split; [by eapply on_list_moved..|done| | | |].
  - destruct Hd as [-> |[[-> _]|(-> & ? & _)]];
      [by apply NoDup_list_del|done|by apply NoDup_snoc].
  - intros x Hx. destruct (decide (x = e)) as [-> |Hne].
    + destruct Hd as [Hd|[(Hd & Hs & HKK)|(_ & _ & Hs & HK0)]].
      * rewrite Hd, elem_of_list_del in Hx by done. tauto.
      * rewrite Hd in Hx. destruct (I6 e Hx) as [HK0 _]. rewrite HKK. split; [done|]. by apply Hep.
      * split; [done|]. by apply Hep.
    + rewrite HK, Hfr by done. apply I6.
      destruct Hd as [Hd|[[Hd _]|(Hd & _)]]; rewrite Hd in Hx; [|done|].
      * rewrite elem_of_list_del in Hx by done. tauto.
      * rewrite elem_of_app, list_elem_of_singleton in Hx. tauto.
  - intros x old Hx. destruct (decide (x = e)) as [-> |Hne].
    + destruct (HKe ltac:(eauto)) as [Hs|Hs]; destruct (Hep _ Hs) as (ep & ? & ?); eauto.
    + rewrite Hfr by done. rewrite HK in Hx by done. eauto.
  - intros x ep Hx. destruct (decide (x = e)) as [-> |Hne]; [by apply Hq|].
    rewrite Hfr in Hx by done. eauto.
Qed.

(** A step that leaves endpoints and lists alone. *)
Definition same_lists (i i' : scif_info) : Prop :=
  listen i' = listen i ∧ connected i' = connected i ∧ zombie i' = zombie i ∧
  nr_zombies i' = nr_zombies i ∧ disconnected i' = disconnected i.

Lemma inv_same i i' K : inv i K → eps i' = eps i → same_lists i i' → inv i' K.
Proof.
  intros [I1 I2 I3 I4 I5 I6 I7 I8] E (E1 & E2 & E3 & E4 & E5).
  split; unfold on_list; rewrite ?E, ?E1, ?E2, ?E3, ?E4, ?E5; auto.
Qed.

(** The list an endpoint of a state is on. *)
Inductive kind_of := KListen | KConnected | KZombie | KOther.
Definition kind (s : scif_epd_state) : kind_of :=
  match s with
  | SCIFEP_LISTENING | SCIFEP_CLLISTEN => KListen
  | SCIFEP_CONNECTED => KConnected
  | SCIFEP_ZOMBIE => KZombie
  | _ => KOther
  end.

Lemma kind_listen s : kind s = KListen ↔ listening s.
Proof. unfold listening. destruct s; cbn; naive_solver. Qed.
Lemma kind_connected s : kind s = KConnected ↔ s = SCIFEP_CONNECTED.
Proof. destruct s; cbn; naive_solver. Qed.
Lemma kind_zombie s : kind s = KZombie ↔ s = SCIFEP_ZOMBIE.
Proof. destruct s; cbn; naive_solver. Qed.

Lemma disc_notin i K e ep : inv i K → eps i !! e = Some ep → state ep ≠ SCIFEP_DISCONNECTED →
  e ∉ disconnected i.
Proof. intros I He Hs Hin. destruct (i_disc _ _ I _ Hin) as (_ & ep' & ? & ?). congruence. Qed.

Lemma fresh_notin i K e : inv i K → eps i !! e = None → e ∉ disconnected i ∧ K !! e = None.
Proof.
  intros I He. split.
  - intros Hin. destruct (i_disc _ _ I _ Hin) as (_ & ep' & ? & ?). congruence.
  - destruct (K !! e) as [old|] eqn:E; [|done]. destruct (i_closing _ _ I _ _ E) as (ep & ? & ?).
    congruence.
Qed.

Lemma not_closing i K e ep : inv i K → eps i !! e = Some ep →
  state ep ≠ SCIFEP_CLOSING → state ep ≠ SCIFEP_DISCONNECTED → K !! e = None.
Proof.
  intros I He H1 H2. destruct (K !! e) as [old|] eqn:E; [|done].
  destruct (i_closing _ _ I _ _ E) as (ep' & ? & ?). naive_solver congruence.
Qed.

(** A change of one endpoint that keeps it on its list. *)
Lemma inv_update i i' K e ep ep' :
  inv i K → eps i !! e = Some ep → same_lists i i' →
  (∀ x, x ≠ e → eps i' !! x = eps i !! x) → eps i' !! e = Some ep' →
  kind (state ep') = kind (state ep) →
  (state ep = SCIFEP_DISCONNECTED → state ep' = SCIFEP_DISCONNECTED) →
  (state ep = SCIFEP_CLOSING → K !! e ≠ None →
     state ep' = SCIFEP_CLOSING ∨ state ep' = SCIFEP_DISCONNECTED) →
  queue_ok ep' → inv i' K.
Proof.
  intros I He (E1 & E2 & E3 & E4 & E5) Hfr He' Hk Hd Hc Hq.
  assert (∀ P, (∀ s s', kind s = kind s' → P s ↔ P s') → ∀ l, moved e (state <$> (eps i !! e))
    (Some (state ep')) P l l) as Hm.
  { intros P HP l. left. split; [done|]. rewrite He. cbn. by apply HP. }
  eapply (inv_move i i' K K e (Some (state ep'))); auto.
  - by rewrite He'.
  - intros ep0. rewrite He'. by intros [= <-].
  - rewrite E1. apply Hm. intros s s' E. by rewrite <- !kind_listen, E.
  - rewrite E2. apply Hm. intros s s' E. by rewrite <- !kind_connected, E.
  - rewrite E3. apply Hm. intros s s' E. by rewrite <- !kind_zombie, E.
  - rewrite E4, E3. apply I.
  - destruct (decide (state ep = SCIFEP_DISCONNECTED)) as [Hs|Hs].
    + right; left. rewrite (Hd Hs). auto.
    + left. rewrite E5, list_del_notin; [done|]. by eapply disc_notin.
  - intros [old HK]. destruct (i_closing _ _ I _ _ HK) as (ep0 & He0 & Hs0).
    rewrite He in He0. simplify_eq. destruct Hs0 as [Hs|Hs].
    + destruct (Hc Hs ltac:(congruence)) as [-> | ->]; auto.
    + rewrite (Hd Hs). auto.
Qed.

(** The same, for [update]. *)
Lemma inv_set i i' K e ep f :
  inv i K → eps i !! e = Some ep → eps i' = alter f e (eps i) → same_lists i i' →
  kind (state (f ep)) = kind (state ep) →
  (state ep = SCIFEP_DISCONNECTED → state (f ep) = SCIFEP_DISCONNECTED) →
  (state ep = SCIFEP_CLOSING → K !! e ≠ None →
     state (f ep) = SCIFEP_CLOSING ∨ state (f ep) = SCIFEP_DISCONNECTED) →
  queue_ok (f ep) → inv i' K.
Proof.
  intros I He Hi' Hl. intros. eapply (inv_update i i' K e ep (f ep)); auto.
  - intros x Hx. by rewrite Hi', lookup_alter_ne.
  - by rewrite Hi', lookup_alter_eq, He.
Qed.

(** A fresh endpoint, on no list. *)
Lemma inv_fresh i i' K e ep' :
  inv i K → eps i !! e = None → eps i' = <[e := ep']> (eps i) → same_lists i i' →
  kind (state ep') = KOther → queue_ok ep' → inv i' K.
Proof.
  intros I He Hi' (E1 & E2 & E3 & E4 & E5) Hk Hq.
  destruct (fresh_notin _ _ _ I He) as [Hnd HK].
  assert (∀ P k, (∀ s, kind s = k ↔ P s) → k ≠ KOther → ∀ l, moved e (state <$> (eps i !! e))
    (Some (state ep')) P l l) as Hm.
  { intros P k HP Hne l. left. split; [done|]. rewrite He. cbn. rewrite <- HP, Hk. naive_solver. }
  eapply (inv_move i i' K K e (Some (state ep'))); auto.
  - intros x Hx. by rewrite Hi', lookup_insert_ne.
  - by rewrite Hi', lookup_insert_eq.
  - intros ep0. rewrite Hi', lookup_insert_eq. by intros [= <-].
  - rewrite E1. by apply (Hm _ KListen kind_listen).
  - rewrite E2. by apply (Hm _ KConnected kind_connected).
  - rewrite E3. by apply (Hm _ KZombie kind_zombie).
  - rewrite E4, E3. apply I.
  - left. by rewrite E5, list_del_notin.
  - rewrite HK. by intros [? ?].
Qed.

Lemma queue_ok_state ep ep' : queue_ok ep → conreqcnt ep' = conreqcnt ep →
  conlist ep' = conlist ep → backlog ep' = backlog ep →
  (listening (state ep') → listening (state ep)) → queue_ok ep'.
Proof. intros [H1 H2] E1 E2 E3 Hl. unfold queue_ok. rewrite E1, E2, E3. auto. Qed.

(** Changes of one endpoint found at an address: opens the lookup, leaves the
    conditions of [inv_set]. *)
Ltac endpoint I e ep :=
  let He := fresh "He" in let Hq := fresh "Hq" in
  unfold ep_at; destruct (eps _ !! e) as [ep|] eqn:He; [|done];
  pose proof (i_queue _ _ I _ _ He) as Hq.

Ltac other_queue Hq := eapply queue_ok_state; [exact Hq|done|done|done|]; cbn; unfold listening; naive_solver.

Section StepProofs.
Context `{IdAllocator}.

Lemma bind_inv cap kz i K e pn rc i' :
  scif_bind cap kz i e pn = Some (rc, i') → inv i K → inv i' K.
Proof.
  intros E I. revert E. unfold scif_bind. endpoint I e ep.
  destruct (_ && _ && _); [by intros [= <- <-]|].
  destruct (decide (state ep = SCIFEP_BOUND)); [by intros [= <- <-]|].
  destruct (bool_decide_reflect (state ep = SCIFEP_UNBOUND)) as [Hs|]; cbn; [|by intros [= <- <-]].
  assert (∀ p ps, inv (update (set_ports i ps) e (λ ep, set_async ASYNC_CONN_IDLE
            (set_self (PortId (nodeid i) p) (set_state SCIFEP_BOUND ep)))) K) as Hb.
  { intros p ps. eapply (inv_set i); [done|exact He|done|by repeat split|..]; cbn;
      rewrite ?Hs; try done; try naive_solver. other_queue Hq. }
  assert (∀ ps, inv (set_ports i ps) K) as Hp by (intros; by eapply (inv_same i)).
  destruct (negb (pn =? 0)).
  - destruct (scif_rsrv_port kz (ports i) pn) as [tmp ps].
    destruct (negb (tmp =? pn)); intros [= <- <-]; auto.
  - destruct (scif_get_new_port kz (ports i)) as [r ps].
    destruct (wrap 16 r =? 0); intros [= <- <-]; auto.
Qed.

Lemma listen_inv i K e b rc i' : scif_listen i e b = Some (rc, i') → inv i K → inv i' K.
Proof.
  intros E I. revert E. unfold scif_listen. destruct (Z.leb_spec b 0); [by intros [= <- <-]|].
  endpoint I e ep. destruct (state ep) eqn:Hs; intros [= <- <-]; auto.
  assert (state (scif_teardown_ep (set_queue (b `min` SCIF_MAX_BACKLOG) 0 []
    (set_state SCIFEP_LISTENING ep))) = SCIFEP_LISTENING) as Hs'.
  { unfold scif_teardown_ep. by destruct (qp _). }
  eapply (inv_move i _ K K e (Some SCIFEP_LISTENING)); [done|..].
  - intros x Hx. cbn. by rewrite lookup_alter_ne.
  - cbn. rewrite lookup_alter_eq, He. cbn. by rewrite Hs'.
  - intros ep0. cbn. rewrite lookup_alter_eq, He. cbn. intros [= <-].
    unfold queue_ok, scif_teardown_ep, SCIF_MAX_BACKLOG. destruct (qp _); cbn; split; try done; lia.
  - rewrite He. right; left. cbn. rewrite Hs. unfold listening. naive_solver.
  - rewrite He. left. cbn. rewrite Hs. naive_solver.
  - rewrite He. left. cbn. rewrite Hs. naive_solver.
  - apply I.
  - left. cbn. rewrite list_del_notin; [done|]. eapply disc_notin; [done|exact He|congruence].
  - done.
  - rewrite (not_closing i K e ep) by (auto; congruence). by intros [? ?].
Qed.

Lemma flush_inv i K e i' : __scif_flush i e = Some i' → inv i K → inv i' K.
Proof.
  intros E I. revert E. unfold __scif_flush. endpoint I e ep.
  destruct (state ep) eqn:Hs; intros [= <-]; auto.
  eapply (inv_set i); [done|exact He|done|by repeat split|..]; cbn; rewrite ?Hs; try done.
  other_queue Hq.
Qed.

(** The endpoint after the switch keeps its state and its queue. *)
Lemma connect_switch_frame kz nb dst i ep err ep' ps :
  connect_switch kz nb dst i ep = (err, ep', ps) →
  state ep' = state ep ∧ conreqcnt ep' = conreqcnt ep ∧ conlist ep' = conlist ep ∧
  backlog ep' = backlog ep ∧
  (err = 0 → async ep' ≠ ASYNC_CONN_FLUSH_WORK → state ep = SCIFEP_UNBOUND ∨ state ep = SCIFEP_BOUND).
Proof.
  unfold connect_switch. destruct (state ep) eqn:Hs; repeat case_match;
    intros; simplify_eq/=; rewrite ?Hs; repeat split; auto; try naive_solver; intros; lia.
Qed.

Lemma connect_inv kz nb alive maxid dst i K e rc i' :
  connect_start kz nb alive maxid dst i e = Some (rc, i') → inv i K → inv i' K.
Proof.
  intros E I. revert E. unfold connect_start.
  destruct (maxid <? node dst); [by intros [= <- <-]|].
  destruct (port dst =? 0); [by intros [= <- <-]|].
  destruct (negb alive); [by intros [= <- <-]|].
  endpoint I e ep.
  destruct (connect_switch kz nb dst i ep) as [[err ep'] ps] eqn:E.
  destruct (connect_switch_frame _ _ _ _ _ _ _ _ E) as (F1 & F2 & F3 & F4 & F5).
  destruct (negb (err =? 0) || _) eqn:Hb.
  - intros [= <- <-]. eapply (inv_set i); [done|exact He|done|by repeat split|..];
      cbn; rewrite ?F1; auto. eapply queue_ok_state; [exact Hq|done..|]. by rewrite F1.
  - apply orb_false_iff in Hb as [Hb1 Hb2%bool_decide_eq_false].
    assert (state ep = SCIFEP_UNBOUND ∨ state ep = SCIFEP_BOUND) as Hs by (apply F5; [lia|done]).
    assert (inv (update (set_ports i ps) e (λ _, set_remote_dev (node dst)
      (set_state SCIFEP_CONNECTING ep'))) K) as Hi.
    { eapply (inv_set i); [done|exact He|done|by repeat split|..]; cbn;
        [by destruct Hs as [-> | ->]|destruct Hs; congruence|destruct Hs; congruence|].
      eapply queue_ok_state; [exact Hq|done..|]. cbn. unfold listening. naive_solver. }
    destruct (decide _); intros [= <- <-]; [|done]. by eapply inv_same.
Qed.

(** A connection attempt ends. *)
Lemma asking_bound i i' K e ep : inv i K → eps i !! e = Some ep → asking (state ep) →
  eps i' = alter (set_state SCIFEP_BOUND) e (eps i) → same_lists i i' → inv i' K.
Proof.
  intros I He Hs Hi' Hl. pose proof (i_queue _ _ I _ _ He) as Hq.
  assert (kind (state ep) = KOther) as Hk by (by destruct Hs as [-> |[-> | ->]]).
  apply asking_other in Hs. eapply (inv_set i); [done|exact He|done|done|..]; cbn; try done; try tauto.
  other_queue Hq.
Qed.

Lemma conn_request_inv setup alive serr i K e ep rc i' :
  eps i !! e = Some ep → asking (state ep) →
  conn_request setup alive serr i e = Some (rc, i') → inv i K → inv i' K.
Proof.
  intros He Hs E I. revert E. unfold conn_request, ep_at. rewrite He.
  destruct (negb (setup =? 0)).
  - intros [= <- <-]. by eapply (asking_bound i).
  - repeat case_match; intros [= <- <-]; auto. by eapply inv_same.
Qed.

(** Entering the connected list. *)
Lemma connected_inv i i' K e ep :
  inv i K → eps i !! e = Some ep → state ep = SCIFEP_MAPPING ∨ state ep = SCIFEP_CONNECTING →
  eps i' = alter (set_state SCIFEP_CONNECTED) e (eps i) →
  listen i' = listen i → connected i' = connected i ++ [e] → zombie i' = zombie i →
  nr_zombies i' = nr_zombies i → disconnected i' = disconnected i → inv i' K.
Proof.
  intros I He Hs Hi' E1 E2 E3 E4 E5. pose proof (i_queue _ _ I _ _ He) as Hq.
  eapply (inv_move i _ K K e (Some SCIFEP_CONNECTED)); [done|..].
  - intros x Hx. by rewrite Hi', lookup_alter_ne.
  - by rewrite Hi', lookup_alter_eq, He.
  - intros ep0. rewrite Hi', lookup_alter_eq, He. intros [= <-]. other_queue Hq.
  - rewrite He, E1. left. cbn. unfold listening. intuition congruence.
  - rewrite He, E2. right; left. cbn. intuition congruence.
  - rewrite He, E3. left. cbn. intuition congruence.
  - rewrite E4, E3. apply I.
  - left. rewrite E5, list_del_notin; [done|]. eapply disc_notin; [done|exact He|intuition congruence].
  - done.
  - rewrite (not_closing i K e ep) by (auto; intuition congruence). by intros [? ?].
Qed.

Lemma conn_finish_inv (woken : bool) nack map_err serr i K e ep rc i' :
  eps i !! e = Some ep → (woken = false → asking (state ep)) →
  conn_finish woken nack map_err serr i e = Some (rc, i') → inv i K → inv i' K.
Proof.
  intros He Hs E I. revert E. unfold conn_finish, ep_at. rewrite He. destruct woken; cbn.
  - destruct (state ep) eqn:Hst; try (by destruct (remote_dev ep); intros [= <- <-]).
    assert (∀ j, eps j = alter (set_state SCIFEP_BOUND) e (eps i) → same_lists i j → inv j K) as Hb.
    { intros j. apply (asking_bound i _ K e ep I He). right; left. done. }
    destruct (remote_dev ep) as [n|]; [|done].
    destruct (negb (map_err =? 0)); [|destruct (negb (serr =? 0))]; intros [= <- <-].
    + destruct nack; by apply Hb.
    + by apply Hb.
    + eapply (connected_inv i); eauto; done.
  - destruct (remote_dev ep); intros [= <- <-]; by apply (asking_bound i _ K e ep I He (Hs eq_refl)).
Qed.

(** A refusal leaves endpoints and lists alone. *)
Lemma reject_same sent from req i : eps (accept_reject sent from req i) = eps i ∧ same_lists i (accept_reject sent from req i).
Proof. by destruct sent. Qed.

Lemma reject_inv sent from req i K : inv i K → inv (accept_reject sent from req i) K.
Proof. intros I. destruct (reject_same sent from req i). by eapply inv_same. Qed.

Lemma accept_inv err serr rej i K l c rc i' :
  eps i !! c = None → accept_take err serr rej i l c = Some (rc, i') → inv i K → inv i' K.
Proof.
  intros Hc E I. revert E. unfold accept_take. endpoint I l lep.
  destruct (bool_decide_reflect (state lep = SCIFEP_LISTENING)) as [Hs|]; cbn; [|by intros [= <- <-]].
  destruct (conlist lep) as [|req reqs] eqn:Hcl; [by intros [= <- <-]|].
  assert (inv (update i l (set_queue (backlog lep) (conreqcnt lep - 1) reqs)) K) as I1.
  { eapply (inv_set i); [done|exact He|done|by repeat split|..]; cbn; rewrite ?Hs; try done.
    destruct Hq as [Hq1 Hq2]. rewrite Hcl, Hs in *. specialize (Hq2 (or_introl eq_refl)).
    unfold queue_ok, zlen in *. cbn in *. split; [lia|]. intros _. lia. }
  destruct (negb (err =? 0)); [intros [= <- <-]; by apply reject_inv|].
  assert (alter (set_queue (backlog lep) (conreqcnt lep - 1) reqs) l (eps i) !! c = None) as Hc1.
  { rewrite lookup_alter_ne; [done|]. intros ->. congruence. }
  destruct (negb (serr =? 0)); intros [= <- <-].
  - apply reject_inv. eapply inv_same; [exact I1| |by repeat split]. cbn. by apply delete_insert_id.
  - eapply (inv_fresh (update i l (set_queue (backlog lep) (conreqcnt lep - 1) reqs)));
      [done|done|done|by repeat split|done|].
    split; [done|]. cbn. unfold listening. naive_solver.
Qed.

(** Freeing an endpoint that is on no list. *)
Lemma inv_delete i K e ep :
  inv i K → eps i !! e = Some ep → kind (state ep) = KOther →
  e ∉ disconnected i → K !! e = None → inv (set_eps i (delete e (eps i))) K.
Proof.
  intros I He Hk Hd HK.
  assert (∀ P k, (∀ s, kind s = k ↔ P s) → k ≠ KOther → ∀ l, moved e (state <$> (eps i !! e))
    None P l l) as Hm.
  { intros P k HP Hne l. left. split; [done|]. rewrite He. cbn. rewrite <- HP, Hk. naive_solver. }
  eapply (inv_move i _ K K e None); [done|..]; cbn.
  - intros x Hx. by rewrite lookup_delete_ne.
  - by rewrite lookup_delete_eq.
  - intros ep0. by rewrite lookup_delete_eq.
  - by apply (Hm _ KListen kind_listen).
  - by apply (Hm _ KConnected kind_connected).
  - by apply (Hm _ KZombie kind_zombie).
  - apply I.
  - left. by rewrite list_del_notin.
  - done.
  - rewrite HK. by intros [? ?].
Qed.

(** Taking the queue of an endpoint down before it is freed makes no difference. *)
Lemma teardown_delete c (m : gmap Z scif_endpt) : delete c (alter scif_teardown_ep c m) = delete c m.
Proof. apply map_eq. intros x. destruct (decide (x = c)) as [-> |Hne]; by simplify_map_eq. Qed.

Lemma accepted_inv (woken : bool) rej req i K c cep rc i' :
  K !! c = None → eps i !! c = Some cep → (woken = false → state cep = SCIFEP_CONNECTING) →
  accept_finish woken rej req i c = Some (rc, i') → inv i K → inv i' K.
Proof.
  intros HK He Hw E I. revert E. unfold accept_finish, ep_at. rewrite He.
  assert (kind (state cep) = KOther → state cep ≠ SCIFEP_DISCONNECTED →
    inv (set_eps (update i c scif_teardown_ep) (delete c (eps (update i c scif_teardown_ep)))) K) as Hd.
  { intros Hk Hnd. apply (inv_same (set_eps i (delete c (eps i)))); [|apply teardown_delete|by repeat split].
    eapply inv_delete; eauto. by eapply disc_notin. }
  destruct woken; cbn [negb].
  - destruct (decide (state cep = SCIFEP_CLOSING)) as [Hs|]; intros [= <- <-].
    + apply Hd; by rewrite Hs.
    + by eapply inv_same.
  - specialize (Hw eq_refl). intros [= <- <-]. apply reject_inv, Hd; by rewrite Hw.
Qed.

(** Starting to close an endpoint takes it off whatever list it is on. *)
Lemma closing_inv i i' K e ep ep' old :
  inv i K → eps i !! e = Some ep → state ep ≠ SCIFEP_ZOMBIE →
  (∀ x, x ≠ e → eps i' !! x = eps i !! x) → eps i' !! e = Some ep' →
  state ep' = SCIFEP_CLOSING → queue_ok ep' →
  (listen i' = listen i ∧ kind (state ep) ≠ KListen ∨ listen i' = list_del e (listen i)) →
  (connected i' = connected i ∧ kind (state ep) ≠ KConnected ∨
   connected i' = list_del e (connected i)) →
  zombie i' = zombie i → nr_zombies i' = nr_zombies i →
  (disconnected i' = disconnected i ∧ state ep ≠ SCIFEP_DISCONNECTED ∨
   disconnected i' = list_del e (disconnected i)) →
  inv i' (<[e := old]> K).
Proof.
  intros I He Hz Hfr He' Hs' Hq H1 H2 E3 E4 H5.
  eapply (inv_move i _ K _ e (Some SCIFEP_CLOSING)); [done|done|..].
  - by rewrite He', <- Hs'.
  - intros ep0. rewrite He'. by intros [= <-].
  - rewrite He. cbn. rewrite kind_listen in H1.
    destruct H1 as [[-> H1]| ->]; [left|right; right]; cbn; (split; [done|]);
      unfold listening in *; intuition congruence.
  - rewrite He. cbn. rewrite kind_connected in H2.
    destruct H2 as [[-> H2]| ->]; [left|right; right]; cbn; (split; [done|]); intuition congruence.
  - rewrite He, E3. left. cbn. intuition congruence.
  - rewrite E4, E3. apply I.
  - left. destruct H5 as [[-> H5]| ->]; [|done]. rewrite list_del_notin; [done|]. by eapply disc_notin.
  - intros x Hx. by rewrite lookup_insert_ne.
  - auto.
Qed.

Lemma filter_list_del e l : NoDup l → filter (λ x, x ≠ e) l = list_del e l.
Proof.
  induction 1 as [|x l Hx Hl IH]; [done|]. cbn [list_del]. destruct (Z.eqb_spec x e) as [-> |Hne].
  - rewrite filter_cons_False by (intros Hc; by apply Hc). apply filter_all.
    apply Forall_forall. intros y Hy ->. done.
  - by rewrite filter_cons_True, IH.
Qed.

Lemma disconnect_inv serr i K e ep j :
  inv i K → eps i !! e = Some ep → kind (state ep) ≠ KListen → state ep ≠ SCIFEP_ZOMBIE →
  scif_disconnect_ep serr (update i e (set_state SCIFEP_CLOSING)) e = Some j →
  inv j (<[e := state ep]> K).
Proof.
  intros I He Hk Hnz. pose proof (i_queue _ _ I _ _ He) as Hq.
  unfold scif_disconnect_ep, ep_at.
  assert (eps (update i e (set_state SCIFEP_CLOSING)) !! e = Some (set_state SCIFEP_CLOSING ep))
    as He1 by (cbn; by rewrite lookup_alter_eq, He).
  rewrite He1. cbn -[update].
  destruct (decide (e ∈ connected (update i e (set_state SCIFEP_CLOSING)))) as [Hin|Hin]; cbn in Hin.
  - assert (state ep = SCIFEP_CONNECTED) as Hs.
    { apply (proj2 (i_connected _ _ I)) in Hin as (ep0 & ? & ?). congruence. }
    assert (queue_ok (set_discon 0 (set_state SCIFEP_CLOSING ep))) as Hq1 by other_queue Hq.
    destruct (remote_dev ep); [|done]. destruct (negb (serr =? 0)); intros [= <-];
      (eapply (closing_inv i _ K e ep (set_discon 0 (set_state SCIFEP_CLOSING ep))); auto;
       [intros x Hx; cbn; by rewrite !lookup_alter_ne
       |cbn; by rewrite lookup_alter_eq, lookup_alter_eq, He|left; split; [done|congruence]]).
  - assert (queue_ok (set_state SCIFEP_CLOSING ep)) as Hq1 by other_queue Hq.
    intros [= <-]. eapply (closing_inv i _ K e ep); eauto; cbn; auto.
    + intros x Hx. by rewrite lookup_alter_ne.
    + left. split; [done|]. rewrite kind_connected. intros Hs.
      apply Hin, (proj2 (i_connected _ _ I)). eauto.
Qed.

Lemma close_listen_inv i K e ep :
  inv i K → eps i !! e = Some ep → listening (state ep) →
  inv (update (set_listen (update i e (set_state SCIFEP_CLOSING))
    (filter (λ x, x ≠ e) (listen i))) e (λ ep, set_queue (backlog ep) 0 [] ep)) (<[e := state ep]> K).
Proof.
  intros I He Hl.
  eapply (closing_inv i _ K e ep (set_queue (backlog ep) 0 [] (set_state SCIFEP_CLOSING ep)));
    cbn; [done|exact He|destruct Hl; congruence| | |done| |right|left|done|done|left].
  - intros x Hx. by rewrite !lookup_alter_ne.
  - by rewrite lookup_alter_eq, lookup_alter_eq, He.
  - split; [done|]. cbn. unfold listening. naive_solver.
  - apply filter_list_del, I.
  - split; [done|]. by destruct Hl as [-> | ->].
  - split; [done|]. by destruct Hl as [-> | ->].
Qed.

Lemma close_inv serr i K e old i' :
  close_start serr i e = Some (old, i') → old ≠ SCIFEP_ZOMBIE → inv i K → inv i' (<[e := old]> K).
Proof.
  intros E Hz I. revert E. unfold close_start. endpoint I e ep.
  assert (∀ x, x ≠ e → eps (update i e (set_state SCIFEP_CLOSING)) !! x = eps i !! x) as Hfr
    by (intros x Hx; cbn; by rewrite lookup_alter_ne).
  assert (eps (update i e (set_state SCIFEP_CLOSING)) !! e = Some (set_state SCIFEP_CLOSING ep))
    as He1 by (cbn; by rewrite lookup_alter_eq, He).
  assert (queue_ok (set_state SCIFEP_CLOSING ep)) as Hq1 by other_queue Hq.
  pose proof (λ j, disconnect_inv serr i K e ep j I He) as Hdis.
  pose proof (close_listen_inv i K e ep I He) as Hlis.
  assert (∀ j, listen j = listen i → connected j = connected i → zombie j = zombie i →
    nr_zombies j = nr_zombies i → eps j = eps (update i e (set_state SCIFEP_CLOSING)) →
    (disconnected j = disconnected i ∧ state ep ≠ SCIFEP_DISCONNECTED ∨
     disconnected j = list_del e (disconnected i)) → kind (state ep) = KOther →
    inv j (<[e := state ep]> K)) as Hoth.
  { intros j E1 E2 E3 E4 E5 Hd Hk.
    eapply (closing_inv i j K e ep (set_state SCIFEP_CLOSING ep)); rewrite ?E5; auto;
      [by intros Hs; rewrite Hs in Hk|left; split; [done|by rewrite Hk]..]. }
  unfold listening in Hlis.
  destruct (state ep) eqn:Hs; try (intros [= <- <-]); auto; try done.
  all: try (apply Hoth; auto; left; split; done).
  all: destruct (scif_disconnect_ep _ _ e) as [j|]; [|done]; cbn; intros [= <- <-]; by apply Hdis.
Qed.

Lemma closed_inv i K e old i' :
  K !! e = Some old → close_finish i e old = Some i' → inv i K → inv i' (delete e K).
Proof.
  intros HK E I. revert E. unfold close_finish. endpoint I e ep.
  destruct (i_closing _ _ I _ _ HK) as (ep0 & He0 & Hs).
  assert (ep0 = ep) as -> by congruence. clear He0.
  assert (e ∉ disconnected i) as Hd.
  { intros Hd. destruct (i_disc _ _ I _ Hd). congruence. }
  assert (queue_ok (set_state SCIFEP_ZOMBIE (scif_teardown_ep ep))) as Hq'.
  { unfold scif_teardown_ep. destruct (qp ep); other_queue Hq. }
  set (i0 := if negb (bool_decide (old = SCIFEP_DISCONNECTED)) then _ else i).
  assert (eps i0 = eps i ∧ same_lists i i0) as (E0 & E1 & E2 & E3 & E4 & E5).
  { unfold i0. by destruct (negb _). }
  intros [= <-].
  eapply (inv_move i _ K _ e (Some SCIFEP_ZOMBIE)); [done|..]; cbn; rewrite ?E0, ?E1, ?E2, ?E3, ?E4, ?E5.
  - intros x Hx. by rewrite !lookup_alter_ne.
  - by rewrite lookup_alter_eq, lookup_alter_eq, He.
  - intros ep1. rewrite lookup_alter_eq, lookup_alter_eq, He. by intros [= <-].
  - rewrite He. left. cbn. unfold listening. intuition congruence.
  - rewrite He. left. cbn. intuition congruence.
  - rewrite He. right; left. cbn. intuition congruence.
  - rewrite zlen_app. unfold zlen at 2. cbn. by rewrite (i_count _ _ I).
  - left. by rewrite list_del_notin.
  - intros x Hx. by rewrite lookup_delete_ne.
  - rewrite lookup_delete_eq. by intros [? ?].
Qed.

(** Freeing one zombie. *)
Lemma free_zombie_inv i K e :
  inv i K → e ∈ zombie i →
  inv (set_eps (set_zombie i (list_del e (zombie i)) (nr_zombies i - 1)) (delete e (eps i))) K.
Proof.
  intros I Hz. pose proof Hz as Hz'. apply (proj2 (i_zombie _ _ I)) in Hz' as (ep & He & Hs).
  assert (e ∉ disconnected i) as Hd by (eapply disc_notin; eauto; congruence).
  assert (K !! e = None) as HK by (eapply not_closing; eauto; congruence).
  eapply (inv_move i _ K K e None); [done|..]; cbn.
  - intros x Hx. by rewrite lookup_delete_ne.
  - by rewrite lookup_delete_eq.
  - intros ep0. by rewrite lookup_delete_eq.
  - rewrite He. left. cbn. unfold listening. intuition congruence.
  - rewrite He. left. cbn. intuition congruence.
  - right; right. split; [done|]. cbn. by intros ?.
  - rewrite (i_count _ _ I). clear -Hz. induction (zombie i) as [|x l IH]; [by apply elem_of_nil in Hz|].
    cbn. destruct (Z.eqb_spec x e) as [-> |Hne]; unfold zlen in *; cbn [length]; [lia|].
    apply elem_of_cons in Hz as [?|Hz]; [congruence|]. specialize (IH Hz). lia.
  - left. by rewrite list_del_notin.
  - done.
  - rewrite HK. by intros [? ?].
Qed.

Lemma cleanup_inv can i K : inv i K → inv (scif_cleanup_zombie_epd can i) K.
Proof.
  intros I. unfold scif_cleanup_zombie_epd.
  assert (∀ l j, NoDup l → (∀ x, x ∈ l → x ∈ zombie j) → inv j K → inv (cleanup_zombies can l j) K) as Hl.
  { induction l as [|e l IH]; intros j Hnd Hz Ij; [done|]. apply NoDup_cons in Hnd as [He Hnd]. cbn.
    destruct (can e).
    - apply IH; [done| |by apply free_zombie_inv; [|apply Hz; left]].
      intros x Hx. cbn. apply elem_of_list_del; [apply Ij|]. split; [apply Hz; by right|]. intros ->. done.
    - apply IH; auto. intros x Hx. apply Hz. by right. }
  apply Hl; auto. apply I.
Qed.

Lemma find_listen_in m l p e : find_listen m l p = Some e → e ∈ l.
Proof.
  induction l as [|x l IH]; cbn; [done|]. intros E. apply elem_of_cons.
  destruct (m !! x); [destruct (port _ =? p); [by left; simplify_eq|]|]; auto.
Qed.

Lemma cnctreq_inv mem i K msg i' : scif_cnctreq mem i msg = Some i' → inv i K → inv i' K.
Proof.
  intros E I. revert E. unfold scif_cnctreq. destruct mem; cbn;
    [|intros [= <-]; by eapply inv_same].
  destruct (scif_find_listen_ep i (port (dst msg))) as [e|] eqn:Hf;
    [|intros [= <-]; by eapply inv_same].
  endpoint I e ep. destruct (Z.leb_spec (backlog ep) (conreqcnt ep)); intros [= <-];
    [by eapply inv_same|].
  eapply (inv_set i); [done|exact He|done|by repeat split|..]; cbn; auto.
  destruct Hq as [Hq1 Hq2]. unfold queue_ok. cbn. rewrite zlen_app. split; [rewrite Hq1; done|].
  intros Hl. specialize (Hq2 Hl). lia.
Qed.

Lemma cnctgnt_inv i K msg i' : scif_cnctgnt i msg = Some i' → inv i K → inv i' K.
Proof.
  intros E I. revert E. unfold scif_cnctgnt. endpoint I (payload0 msg) ep.
  destruct (decide (SCIFEP_CONNECTING = state ep)) as [Hs|]; intros [= <-]; auto.
  eapply (inv_set i); [done|exact He|done|by repeat split|..]; cbn; rewrite <- ?Hs; try done.
  other_queue Hq.
Qed.

Lemma gntack_inv i K msg i' ep : eps i !! payload0 msg = Some ep → state ep = SCIFEP_CONNECTING →
  scif_cnctgnt_ack i msg = Some i' → inv i K → inv i' K.
Proof.
  intros He Hs E I. revert E. unfold scif_cnctgnt_ack, ep_at. rewrite He. intros [= <-].
  eapply (connected_inv i); eauto; done.
Qed.

Lemma gntnack_inv i K msg i' ep : eps i !! payload0 msg = Some ep → state ep = SCIFEP_CONNECTING →
  scif_cnctgnt_nack i msg = Some i' → inv i K → inv i' K.
Proof.
  intros He Hs E I. pose proof (i_queue _ _ I _ _ He) as Hq. revert E.
  unfold scif_cnctgnt_nack, ep_at. rewrite He. intros [= <-].
  eapply (inv_set i); [done|exact He|done|by repeat split|..]; cbn; rewrite ?Hs; try done.
  other_queue Hq.
Qed.

Lemma cnctrej_inv i K msg i' : scif_cnctrej i msg = Some i' → inv i K → inv i' K.
Proof.
  intros E I. revert E. unfold scif_cnctrej. endpoint I (payload0 msg) ep.
  destruct (decide (SCIFEP_CONNECTING = state ep)) as [Hs|]; intros [= <-]; auto.
  eapply (inv_set i); [done|exact He|done|by repeat split|..]; cbn; rewrite <- ?Hs; try done.
  other_queue Hq.
Qed.

Lemma find_connected_spec m l msg e : find_connected m l msg = Some e →
  e ∈ l ∧ e = payload1 msg ∧ ∃ ep, m !! e = Some ep ∧ remote_ep ep = payload0 msg.
Proof.
  induction l as [|x l IH]; cbn; [done|].
  destruct (m !! x) as [ep|] eqn:Hx.
  - destruct ((x =? payload1 msg) && (remote_ep ep =? payload0 msg)) eqn:Hb.
    + intros [= <-]. apply andb_true_iff in Hb as [?%Z.eqb_eq ?%Z.eqb_eq].
      split; [by left|]. split; [done|]. eauto.
    + intros E. destruct (IH E) as (? & ? & ?). split; [by right|]. auto.
  - intros E. destruct (IH E) as (? & ? & ?). split; [by right|]. auto.
Qed.

(** A connected endpoint loses its peer. *)
Lemma disconnected_inv i i' K e ep : inv i K → eps i !! e = Some ep → state ep = SCIFEP_CONNECTED →
  eps i' = alter (set_state SCIFEP_DISCONNECTED) e (eps i) → listen i' = listen i → connected i' = list_del e (connected i) →
  zombie i' = zombie i → nr_zombies i' = nr_zombies i → disconnected i' = disconnected i ++ [e] → inv i' K.
Proof.
  intros I He Hs E0 E1 E2 E3 E4 E5. pose proof (i_queue _ _ I _ _ He) as Hq.
  eapply (inv_move i _ K K e (Some SCIFEP_DISCONNECTED)); [done|..]; rewrite ?E0, ?E1, ?E2, ?E3, ?E4, ?E5.
  - intros x Hx. by rewrite lookup_alter_ne.
  - by rewrite lookup_alter_eq, He.
  - intros ep0. rewrite lookup_alter_eq, He. intros [= <-]. other_queue Hq.
  - rewrite He. left. cbn. unfold listening. intuition congruence.
  - right; right. split; [done|]. cbn. by intros ?.
  - rewrite He. left. cbn. intuition congruence.
  - apply I.
  - right; right. split; [done|]. split; [eapply disc_notin; eauto; congruence|].
    split; [done|]. eapply not_closing; eauto; congruence.
  - done.
  - auto.
Qed.

Lemma discnct_inv i K msg : inv i K → inv (scif_discnct i msg) K.
Proof.
  intros I. unfold scif_discnct.
  destruct (find_connected (eps i) (connected i) msg) as [e|] eqn:Hf; [|by eapply inv_same].
  apply find_connected_spec in Hf as (Hin & _ & ep & He & _).
  assert (state ep = SCIFEP_CONNECTED) as Hs.
  { apply (proj2 (i_connected _ _ I)) in Hin as (ep0 & ? & ?). congruence. }
  unfold ep_at. cbn. rewrite lookup_alter_eq, He. by apply (disconnected_inv i _ K e ep).
Qed.

Lemma invalidate_inv n l : ∀ i K i', NoDup l → (∀ e, e ∈ l → e ∈ connected i) → invalidate_eps n l i = Some i' → inv i K → inv i' K.
Proof.
  induction l as [|e l IH]; intros i K i' Hn Hl E I; cbn in E; [by injection E as <-|]. apply NoDup_cons in Hn as [He0 Hn].
  destruct (proj1 (proj2 (i_connected _ _ I) e) (Hl e ltac:(by left))) as (ep & He & Hs). unfold ep_at in E. rewrite He in E.
  destruct (remote_dev ep) as [d|]; [|done]. destruct (d =? n).
  - eapply IH in E; [done|done| |by apply (disconnected_inv i _ K e ep)]. intros x Hx. cbn.
    apply elem_of_list_del; [apply (i_connected _ _ I)|]. split; [apply Hl; by right|]. intros ->. done.
  - eapply IH in E; [done|done| |done]. intros x Hx. apply Hl. by right.
Qed.

Lemma invalidated_inv n i K i' : scif_invalidate_ep n i = Some i' → inv i K → inv i' K.
Proof. intros E I. eapply invalidate_inv; [apply (i_connected _ _ I)| |exact E|done]. auto. Qed.

Lemma discnt_ack_inv i K msg i' old : K !! payload0 msg = Some old →
  scif_discnt_ack i msg = Some i' → inv i K → inv i' K.
Proof.
  intros HK E I. revert E. unfold scif_discnt_ack. endpoint I (payload0 msg) ep. intros [= <-].
  destruct (i_closing _ _ I _ _ HK) as (ep0 & He0 & Hs).
  assert (ep0 = ep) as -> by congruence. clear He0.
  eapply (inv_update i _ K (payload0 msg) ep
    (set_discon (discon ep + 1) (set_state SCIFEP_DISCONNECTED ep))); [done|exact He|done|..]; cbn; auto.
  - intros x Hx. by rewrite !lookup_alter_ne.
  - by rewrite lookup_alter_eq, lookup_alter_eq, He.
  - by destruct Hs as [-> | ->].
  - other_queue Hq.
Qed.

Lemma epd_step_inv s a s' : step s a s' → awaited s a → inv (fst s) (snd s) → inv (fst s') (snd s').
Proof.
  destruct 1 as [| | | | | | | |i K woken ? ? ? ? ? ? ? ? Hw| | | | | |? ? ? ? Hu|? ? ? ? Hu| | | |? ? ? ? Hu];
    unfold awaited; cbn; intros Ha; eauto using bind_inv, listen_inv, flush_inv, connect_inv, conn_request_inv,
    conn_finish_inv, accept_inv, close_inv, closed_inv, cleanup_inv, cnctreq_inv, cnctgnt_inv, cnctrej_inv,
    discnct_inv, invalidated_inv.
  - intros I. eapply inv_fresh; [done|done|done|by repeat split|done|].
    split; [done|]. cbn. unfold listening. naive_solver.
  - intros I. eapply accepted_inv; [done|done| |eassumption|done]. by intros ->.
  - rewrite Hu in Ha. destruct Ha as (ep & He & Hs). eauto using gntack_inv.
  - rewrite Hu in Ha. destruct Ha as (ep & He & Hs). eauto using gntnack_inv.
  - rewrite Hu in Ha. destruct Ha as [old Ha]. eauto using discnt_ack_inv.
Qed.

Lemma epd_timely_inv s : timely s → inv (fst s) (snd s).
Proof.
  induction 1 as [n|s a s' HR IH Ha Hs]; [|by eapply epd_step_inv].
  assert (∀ P, on_list (info0 n) [] P) as Ho.
  { intros P. split; [constructor|]. intros x. rewrite elem_of_nil. cbn. split; [done|].
    intros (ep & Hx & _). by rewrite lookup_empty in Hx. }
  split; cbn; auto; [constructor|..]; intros *; rewrite ?lookup_empty, ?elem_of_nil; done.
Qed.

End StepProofs.

(** ** Theorems *)

Section Theorems.
Context `{IdAllocator}.

(** What a DISCNT_ACK does, whatever the state of the endpoint. *)
Lemma late_ack i x ep msg : x ∈ zombie i → eps i !! x = Some ep → payload0 msg = x →
  ∃ i', scif_discnt_ack i msg = Some i' ∧ x ∈ zombie i' ∧
    (∃ ep', eps i' !! x = Some ep' ∧ state ep' = SCIFEP_DISCONNECTED) ∧
    ports i' = scif_put_port (ports i) (port (self ep)).
Proof.
  intros Hz Hx <-. unfold scif_discnt_ack, ep_at. rewrite Hx. eexists. split; [done|]. split; [done|].
  split; [|done]. eexists. cbn. rewrite !lookup_alter_eq, Hx. by split.
Qed.

(** C3: Over any interleaving of interface calls, messages and losses of nodes in which the answers
    GNTACK and GNTNACK come while a grant is pending at the endpoint they name and DISCNT_ACK while a
    close of it is running ([timely]; an endpoint is closed once), every endpoint is on
    exactly the list of its state: listeners on the listen list, connected ones on
    the connected list, zombies on the zombie list (whose counter is right), and the
    disconnected list holds only disconnected endpoints that nobody is closing; no
    list has duplicates; and the queue of a listener has the length of its counter
    and never exceeds its backlog, at most 1024.  The condition is needed: the handler of
    DISCNT_ACK does not check what it is for, so an answer to a close that has given up waiting
    makes the zombie a disconnected endpoint that is still on the list of zombies, and puts its port
    once more, or is a use of freed memory when the zombie has been cleaned up. *)
Theorem scif_endpoint_invariant i K : timely (i, K) →
  on_list i (listen i) listening ∧
  on_list i (connected i) (λ s, s = SCIFEP_CONNECTED) ∧
  on_list i (zombie i) (λ s, s = SCIFEP_ZOMBIE) ∧ nr_zombies i = zlen (zombie i) ∧
  NoDup (disconnected i) ∧
  (∀ x, x ∈ disconnected i → K !! x = None ∧
     ∃ ep, eps i !! x = Some ep ∧ state ep = SCIFEP_DISCONNECTED) ∧
  (∀ x ep, eps i !! x = Some ep → listening (state ep) →
     conreqcnt ep = zlen (conlist ep) ∧ conreqcnt ep <= backlog ep <= SCIF_MAX_BACKLOG) ∧
  (∀ x ep msg, x ∈ zombie i → eps i !! x = Some ep → payload0 msg = x →
     ∃ i', scif_discnt_ack i msg = Some i' ∧ x ∈ zombie i' ∧
       (∃ ep', eps i' !! x = Some ep' ∧ state ep' = SCIFEP_DISCONNECTED) ∧
       ports i' = scif_put_port (ports i) (port (self ep))) ∧
  (∀ msg, eps i !! payload0 msg = None → scif_discnt_ack i msg = None).
Proof.
  intros HR. destruct (epd_timely_inv _ HR) as [I1 I2 I3 I4 I5 I6 I7 I8]. cbn in *.
  split_and!; auto.
  - intros x ep Hx Hl. destruct (I8 x ep Hx). auto.
  - intros x ep msg Hz Hx Hp. by apply late_ack.
  - intros msg Hm. unfold scif_discnt_ack, ep_at. by rewrite Hm.
Qed.

Lemma invalidate_lookup n l : ∀ i i', NoDup l → invalidate_eps n l i = Some i' → ∀ x ep, eps i !! x = Some ep →
  eps i' !! x = Some (if bool_decide (x ∈ l ∧ remote_dev ep = Some n) then set_state SCIFEP_DISCONNECTED ep else ep).
Proof.
  induction l as [|e l IH]; intros i i' Hn E x ep Hx; cbn in E.
  { injection E as <-. rewrite bool_decide_false; [done|]. rewrite elem_of_nil. tauto. }
  apply NoDup_cons in Hn as [He0 Hn]. unfold ep_at in E. destruct (eps i !! e) as [ep0|] eqn:He; [|done].
  destruct (remote_dev ep0) as [d|] eqn:Hd; [|done]. destruct (Z.eqb_spec d n) as [->|Hdn]; destruct (decide (x = e)) as [->|Hne].
  - assert (ep0 = ep) as -> by congruence. rewrite (IH _ _ Hn E e (set_state SCIFEP_DISCONNECTED ep)) by (cbn; by rewrite lookup_alter_eq, He).
    rewrite (bool_decide_false (e ∈ l ∧ _)) by tauto. rewrite bool_decide_true; [done|]. split; [by left|done].
  - rewrite (IH _ _ Hn E x ep) by (cbn; by rewrite lookup_alter_ne). f_equal. repeat case_bool_decide; set_solver.
  - assert (ep0 = ep) as -> by congruence. rewrite (IH _ _ Hn E e ep He). f_equal. repeat case_bool_decide; naive_solver.
  - rewrite (IH _ _ Hn E x ep Hx). f_equal. repeat case_bool_decide; set_solver.
Qed.

(** When a node is lost, the endpoints connected to it are disconnected, and all others are left alone. *)
Theorem scif_node_lost_disconnects i K n i' : timely (i, K) → scif_invalidate_ep n i = Some i' →
  (∀ x ep, eps i !! x = Some ep →
     eps i' !! x = Some (if bool_decide (state ep = SCIFEP_CONNECTED ∧ remote_dev ep = Some n) then set_state SCIFEP_DISCONNECTED ep else ep)) ∧
  (∀ x ep, x ∈ connected i' → eps i' !! x = Some ep → x ∈ connected i → remote_dev ep ≠ Some n).
Proof.
  intros HR E. pose proof (epd_timely_inv _ HR) as I. cbn in I. pose proof (i_connected _ _ I) as [Hn Hc].
  assert (∀ x ep, eps i !! x = Some ep →
     eps i' !! x = Some (if bool_decide (state ep = SCIFEP_CONNECTED ∧ remote_dev ep = Some n) then set_state SCIFEP_DISCONNECTED ep else ep)) as H1.
  { intros x ep Hx. rewrite (invalidate_lookup n _ _ _ Hn E x ep Hx). f_equal.
    assert (x ∈ connected i ↔ state ep = SCIFEP_CONNECTED) as Hxc by (rewrite Hc; naive_solver congruence).
    repeat case_bool_decide; tauto. }
  split; [done|]. intros x ep Hx' Hx Hin Hd. apply Hc in Hin as (ep0 & He0 & Hs0). pose proof (H1 _ _ He0) as H2. rewrite Hx in H2.
  pose proof (invalidated_inv n i K i' E I) as I'. apply (proj2 (i_connected _ _ I')) in Hx' as (ep1 & He1 & Hs1).
  assert (ep1 = ep) as -> by congruence. case_bool_decide as Hb; injection H2 as ->; [done|]. apply Hb. split; [done|exact Hd].
Qed.

Lemma find_listen_none m l p e ep : find_listen m l p = None → e ∈ l → m !! e = Some ep →
  port (self ep) ≠ p.
Proof.
  induction l as [|x l IH]; cbn; intros E Hin Hm; [by apply elem_of_nil in Hin|].
  apply elem_of_cons in Hin as [-> |Hin].
  - rewrite Hm in E. by destruct (Z.eqb_spec (port (self ep)) p).
  - destruct (m !! x); [destruct (_ =? _)|]; auto; done.
Qed.

Lemma find_listen_port m l p e : find_listen m l p = Some e → ∃ ep, m !! e = Some ep ∧ port (self ep) = p.
Proof.
  induction l as [|x l IH]; cbn; [done|]. destruct (m !! x) as [ep|] eqn:Hx; [|auto].
  destruct (Z.eqb_spec (port (self ep)) p); [|auto]. intros [= <-]. eauto.
Qed.

(** Every connection request gets exactly one answer: it is queued at the end of
    the queue of a listener on the requested port that has room (and nothing is
    sent), or the request is sent back as a reject to its source and no endpoint
    changes; while memory lasts it is refused only if no listener with that port
    exists or the first such listener is full. *)
Theorem scif_cnctreq_answered i K mem msg : timely (i, K) →
  ∃ i', scif_cnctreq mem i msg = Some i' ∧
  ((∃ e ep, e ∈ listen i ∧ eps i !! e = Some ep ∧ port (self ep) = port (dst msg) ∧
      conreqcnt ep < backlog ep ∧ sent i' = sent i ∧
      eps i' = <[e := set_queue (backlog ep) (conreqcnt ep + 1) (conlist ep ++ [msg]) ep]> (eps i)) ∨
   (eps i' = eps i ∧ sent i' = sent i ++ [(node (src msg), set_uop msg SCIF_CNCT_REJ)] ∧
    (mem = true →
       (∀ e ep, e ∈ listen i → eps i !! e = Some ep → port (self ep) ≠ port (dst msg)) ∨
       (∃ e ep, e ∈ listen i ∧ eps i !! e = Some ep ∧ port (self ep) = port (dst msg) ∧
          backlog ep = conreqcnt ep)))).
Proof.
  intros HR. pose proof (epd_timely_inv _ HR) as I. cbn in I. unfold scif_cnctreq.
  destruct mem; cbn; [|eexists; split; [done|]; by right].
  unfold scif_find_listen_ep, ep_at.
  destruct (find_listen (eps i) (listen i) (port (dst msg))) as [e|] eqn:Hf.
  - pose proof (find_listen_in _ _ _ _ Hf) as Hin.
    destruct (find_listen_port _ _ _ _ Hf) as (ep & He & Hp). rewrite He.
    destruct (proj1 (proj2 (i_listen _ _ I) e) Hin) as (ep' & He' & Hl).
    assert (ep' = ep) as -> by congruence. destruct (i_queue _ _ I _ _ He) as [_ Hq].
    specialize (Hq Hl). destruct (Z.leb_spec (backlog ep) (conreqcnt ep)); eexists; (split; [done|]).
    + right. split; [done|]. split; [done|]. intros _. right. exists e, ep. auto with lia.
    + left. exists e, ep. split_and!; auto. cbn. apply map_eq. intros x.
      destruct (decide (x = e)) as [-> |Hne].
      * by rewrite lookup_alter_eq, lookup_insert_eq, He.
      * by rewrite lookup_alter_ne, lookup_insert_ne.
  - eexists; split; [done|]. right. split; [done|]. split; [done|]. intros _. left.
    intros e ep Hin He. by eapply find_listen_none.
Qed.

(** A disconnect message is always answered by one acknowledgement; it touches an
    endpoint only if that is on the connected list, is the one addressed and is
    connected to the sender, which then is disconnected, moves to the disconnected
    list and gives up its port. *)
Theorem scif_discnct_answered i K msg : timely (i, K) →
  sent (scif_discnct i msg) = sent i ++ [(node (src msg), set_uop msg SCIF_DISCNT_ACK)] ∧
  ((eps (scif_discnct i msg) = eps i ∧ ports (scif_discnct i msg) = ports i ∧
    connected (scif_discnct i msg) = connected i ∧
    (∀ ep, payload1 msg ∈ connected i → eps i !! payload1 msg = Some ep →
       remote_ep ep ≠ payload0 msg)) ∨
   (∃ ep, payload1 msg ∈ connected i ∧ eps i !! payload1 msg = Some ep ∧
      remote_ep ep = payload0 msg ∧
      eps (scif_discnct i msg) = <[payload1 msg := set_state SCIFEP_DISCONNECTED ep]> (eps i) ∧
      ports (scif_discnct i msg) = scif_put_port (ports i) (port (self ep)) ∧
      payload1 msg ∉ connected (scif_discnct i msg) ∧
      payload1 msg ∈ disconnected (scif_discnct i msg))).
Proof.
  intros HR. pose proof (epd_timely_inv _ HR) as I. cbn in I. unfold scif_discnct.
  destruct (find_connected (eps i) (connected i) msg) as [e|] eqn:Hf.
  - apply find_connected_spec in Hf as (Hin & -> & ep & He & Hr).
    unfold ep_at. cbn. rewrite lookup_alter_eq, He. cbn. split; [done|]. right. exists ep.
    split_and!; auto.
    + apply map_eq. intros x. destruct (decide (x = payload1 msg)) as [-> |Hne].
      * by rewrite lookup_alter_eq, lookup_insert_eq, He.
      * by rewrite lookup_alter_ne, lookup_insert_ne.
    + rewrite elem_of_list_del by apply I. tauto.
    + apply elem_of_app. right. by apply list_elem_of_singleton.
  - cbn. split; [done|]. left. split_and!; auto. intros ep Hin He Hr. revert Hf.
    clear -Hin He Hr. induction (connected i) as [|x l IH]; [by apply elem_of_nil in Hin|]. cbn.
    apply elem_of_cons in Hin as [<- |Hin].
    + by rewrite He, Hr, !Z.eqb_refl.
    + destruct (eps i !! x) as [ep'|]; [destruct (_ && _); [done|]|]; auto.
Qed.

(** The endpoint at [e] is bound to port [p]. *)
Definition bound_to (i : scif_info) (e p : Z) : Prop :=
  ∃ ep, eps i !! e = Some ep ∧ state ep = SCIFEP_BOUND ∧ port (self ep) = p.

(** The references to port [p]. *)
Definition port_refs (i : scif_info) (p : Z) : Z := default 0 (ports i !! p).

(** When no port can be allocated, binding to any port does not fail with -ENOSPC:
    the negative code is stored in a 16-bit port number, so the endpoint is bound to
    port 65508 or 65524 without a reference to it, whoever owns that port. *)
Theorem scif_bind_unallocated_port cap kz i e ep r ps :
  eps i !! e = Some ep → state ep = SCIFEP_UNBOUND →
  scif_get_new_port kz (ports i) = (r, ps) → r < 0 →
  ∃ i', scif_bind cap kz i e 0 = Some (u16 r, i') ∧ bound_to i' e (u16 r) ∧
    (u16 r = 65508 ∨ u16 r = 65524) ∧ port_refs i' (u16 r) = port_refs i (u16 r).
Proof.
  intros He Hs Hg Hr.
  assert (ps = ports i ∧ (r = - ENOSPC ∨ r = - ENOMEM)) as [-> Hcode].
  { unfold scif_get_new_port in Hg.
    destruct (get_port_result kz (ports i) (SCIF_PORT_RSVD + 1) SCIF_PORT_COUNT r ps ltac:(done) Hg)
      as [(Hp & _)|(-> & Hc)]; [unfold SCIF_PORT_RSVD in Hp; lia|]. split; [done|]. tauto. }
  unfold scif_bind, ep_at. rewrite He, Hs. cbn.
  rewrite (decide_False (P := SCIFEP_UNBOUND = SCIFEP_BOUND)) by done. cbn.
  rewrite Hg. assert (wrap 16 r =? 0 = false) as -> by (destruct Hcode as [-> | ->]; reflexivity).
  eexists. split; [done|]. split.
  { eexists. cbn. rewrite lookup_alter_eq, He. cbn. by split_and!. }
  split; [|done]. destruct Hcode as [-> | ->]; [left|right]; reflexivity.
Qed.

Local Arguments scif_put_port : simpl never.

(** What [scif_put_port] does to a port with references left. *)
Lemma put_port_lookup (ps : gmap Z Z) p n : p ≠ 0 → ps !! p = Some n →
  scif_put_port ps p !! p = if n - 1 =? 0 then None else Some (n - 1).
Proof.
  intros Hp Hn. unfold scif_put_port. destruct (Z.eqb_spec p 0); [done|]. rewrite Hn.
  destruct (n - 1 =? 0); [apply lookup_delete_eq|apply lookup_insert_eq].
Qed.

(** Closing a connected endpoint whose peer acknowledges releases its port twice,
    once when the acknowledgement is handled and once at the end of the close; if the
    peer stays silent it is released once.  An endpoint accepted from a listener
    shares the listener's port, so the listener's own reference is lost: with the two
    references of one connection, the port becomes free while the listener is
    unchanged. *)
Theorem scif_close_releases_port_twice i e ep n m :
  eps i !! e = Some ep → state ep = SCIFEP_CONNECTED → e ∈ connected i → remote_dev ep = Some m →
  port (self ep) ≠ 0 → port_refs i (port (self ep)) = n → 2 <= n →
  (∃ i', scif_close 0 true i e = Some i' ∧ port_refs i' (port (self ep)) = n - 2 ∧
     (∀ l, l ≠ e → eps i' !! l = eps i !! l) ∧ listen i' = listen i) ∧
  (∃ i', scif_close 0 false i e = Some i' ∧ port_refs i' (port (self ep)) = n - 1).
Proof.
  intros He Hs Hin Hm Hp Href H2.
  assert (ports i !! port (self ep) = Some n) as Hn.
  { unfold port_refs in Href. destruct (ports i !! port (self ep)); cbn in Href; [by subst|lia]. }
  unfold port_refs.
  pose proof (put_port_lookup (ports i) (port (self ep)) n Hp Hn) as H1.
  assert (n - 1 =? 0 = false) as Hn1 by lia. rewrite Hn1 in H1.
  pose proof (put_port_lookup (scif_put_port (ports i) (port (self ep))) _ _ Hp H1) as H3.
  unfold scif_close, close_start, scif_disconnect_ep, ep_at. rewrite He, Hs. cbn.
  rewrite lookup_alter_eq, He. cbn. rewrite decide_True by done. rewrite bool_decide_true by done.
  split.
  - rewrite Hm; cbn; unfold scif_discnt_ack, close_finish, ep_at; cbn;
      rewrite !lookup_alter_eq, He; cbn; rewrite !lookup_alter_eq, He; cbn;
      rewrite (bool_decide_eq_false_2 (SCIFEP_CONNECTED = SCIFEP_DISCONNECTED)) by done; cbn;
      (eexists; split; [done|]); cbn; (split; [|split; [|done]]).
    + rewrite H3. destruct (Z.eqb_spec (n - 1 - 1) 0); cbn; lia.
    + intros l Hl. by rewrite !lookup_alter_ne.
  - rewrite Hm; cbn; unfold close_finish, ep_at; cbn;
      rewrite !lookup_alter_eq, He; cbn; (eexists; split; [done|]); cbn;
      rewrite (bool_decide_eq_false_2 (SCIFEP_CONNECTED = SCIFEP_DISCONNECTED)) by done; cbn;
      by rewrite H1.
Qed.

End Theorems.

(** ** A listening node with one connection *)

#[local] Existing Instance lowest_allocator.

Definition ex_req : scifmsg := ScifMsg (PortId 2 1500) (PortId 1 2000) SCIF_CNCT_REQ 700 0 0.
Definition ex_ack : scifmsg := ScifMsg (PortId 2 1500) (PortId 1 2000) SCIF_CNCT_GNTACK 200 0 0.

Definition get {A} (d : scif_info) (r : option (A * scif_info)) : scif_info :=
  match r with Some (_, i) => i | None => d end.

Definition ex_bound : scif_info := get (info0 1) (scif_bind true true (scif_open 100 (info0 1)) 100 2000).
Definition ex_listening : scif_info := get (info0 1) (scif_listen ex_bound 100 4).
Definition ex_asked : scif_info := default (info0 1) (scif_cnctreq true ex_listening ex_req).
Definition ex_granted : scif_info := get (info0 1) (accept_take 0 0 true ex_asked 100 200).
Definition ex_acked : scif_info := default (info0 1) (scif_cnctgnt_ack ex_granted ex_ack).
Definition ex_accepted : scif_info := get (info0 1) (accept_finish true true ex_req ex_acked 200).

Lemma ex_listening_timely : timely (ex_listening, ∅).
Proof.
  eapply timely_call; [eapply timely_call; [eapply timely_call; [apply (timely_init 1)|]|]|].
  - apply (s_open _ _ 100). reflexivity.
  - apply (s_bind _ _ true true 100 2000 2000 ex_bound). vm_compute. reflexivity.
  - apply (s_listen _ _ 100 4 0). vm_compute. reflexivity.
Qed.

Lemma ex_granted_timely : timely (ex_granted, ∅).
Proof.
  eapply timely_call; [eapply timely_call; [apply ex_listening_timely|]|].
  - apply (s_cnctreq _ _ true ex_req ex_asked). vm_compute. reflexivity.
  - apply (s_accept _ _ 0 0 true 100 200 0 ex_granted); vm_compute; reflexivity.
Qed.

Lemma ex_accepted_timely : timely (ex_accepted, ∅).
Proof.
  eapply timely_call; [apply (timely_step (ex_granted, ∅) (Some ex_ack) (ex_acked, ∅)); [apply ex_granted_timely| |]|].
  - eexists. split; vm_compute; reflexivity.
  - apply (s_gntack _ _ ex_ack ex_acked); vm_compute; reflexivity.
  - eapply (s_accepted _ _ true true ex_req 200 _ 0 ex_accepted); [reflexivity|vm_compute; reflexivity|done|].
    vm_compute. reflexivity.
Qed.

(** The node of the peer is lost while the grant is out: the new endpoint is freed and the requester
    told; an answer that is still on its way uses it. *)
Example ex_accept_lost :
  let i := get (info0 1) (accept_finish false true ex_req ex_granted 200) in
  eps i !! 200 = None ∧ scif_cnctgnt_ack i ex_ack = None ∧
  uop ∘ snd <$> sent i = [SCIF_CNCT_GNT; SCIF_CNCT_REJ].
Proof. vm_compute. auto. Qed.

(** A close that is not answered in time, and the answer behind it. *)
Definition ex_closing : scif_info := get (info0 1) (close_start 0 ex_accepted 200).
Definition ex_closed : scif_info := default (info0 1) (close_finish ex_closing 200 SCIFEP_CONNECTED).
Definition ex_late : scifmsg := ScifMsg (PortId 2 1500) (PortId 1 2000) SCIF_DISCNT_ACK 200 700 0.
Definition ex_revived : scif_info := default (info0 1) (scif_discnt_ack ex_closed ex_late).

Lemma ex_closed_timely : timely (ex_closed, ∅).
Proof.
  eapply (timely_call (ex_closing, <[ 200 := SCIFEP_CONNECTED ]> ∅)); [eapply timely_call; [apply ex_accepted_timely|]|].
  - apply (s_close _ _ 0 200 SCIFEP_CONNECTED ex_closing); [reflexivity|vm_compute; reflexivity|done].
  - rewrite <- (delete_insert_id (∅ : closers) 200 SCIFEP_CONNECTED eq_refl) at 2.
    apply (s_closed _ _ 200 SCIFEP_CONNECTED ex_closed); vm_compute; reflexivity.
Qed.

(** Without the condition on answers the invariant fails: a zombie is disconnected again, and the
    second put of the port takes the reference of the listener at 100. *)
Theorem scif_late_ack_breaks_invariant :
  reachable (ex_revived, ∅) ∧ ¬ on_list ex_revived (zombie ex_revived) (λ s, s = SCIFEP_ZOMBIE) ∧
  100 ∈ listen ex_revived ∧ port_refs ex_closed 2000 = 1 ∧ port_refs ex_revived 2000 = 0.
Proof.
  split; [eapply reach_step; [apply timely_reachable, ex_closed_timely|]|].
  - apply (s_discnt_ack _ _ ex_late ex_revived); vm_compute; reflexivity.
  - split; [|split; [vm_compute; left|split; vm_compute; reflexivity]].
    intros [_ Hl]. destruct (proj1 (Hl 200)) as (ep & He & Hs); [vm_compute; left|].
    vm_compute in He. injection He as <-. done.
Qed.

Lemma scif_endpoint_invariant_witness :
  200 ∈ connected ex_accepted ∧ 100 ∈ listen ex_accepted ∧ NoDup (connected ex_accepted) ∧
  200 ∈ zombie ex_closed ∧ NoDup (zombie ex_closed).
Proof.
  split; [by left|]. split; [by left|]. split; [apply (scif_endpoint_invariant _ _ ex_accepted_timely)|].
  split; [by left|]. apply (scif_endpoint_invariant _ _ ex_closed_timely).
Defined.

Lemma scif_cnctreq_answered_witness :
  conreqcnt <$> (eps ex_asked !! 100) = Some 1 ∧
  ∃ i', scif_cnctreq true ex_listening ex_req = Some i'.
Proof.
  split; [vm_compute; reflexivity|].
  destruct (scif_cnctreq_answered _ _ true ex_req ex_listening_timely) as (i' & E & _).
  exists i'. exact E.
Defined.

Lemma scif_discnct_answered_witness :
  sent (scif_discnct ex_accepted (ScifMsg (PortId 2 1500) (PortId 1 2000) SCIF_DISCNCT 700 200 0)) =
  sent ex_accepted ++ [(2, ScifMsg (PortId 2 1500) (PortId 1 2000) SCIF_DISCNT_ACK 700 200 0)].
Proof.
  apply (scif_discnct_answered _ _
    (ScifMsg (PortId 2 1500) (PortId 1 2000) SCIF_DISCNCT 700 200 0) ex_accepted_timely).
Defined.

Lemma scif_bind_unallocated_port_witness :
  ∃ i', scif_bind true false (scif_open 100 (info0 1)) 100 0 = Some (65524, i') ∧
    bound_to i' 100 65524.
Proof.
  destruct (scif_bind_unallocated_port true false (scif_open 100 (info0 1)) 100
    (set_qp true zero_endpt) (- ENOMEM) ∅) as (i' & E & Hb & _);
    try reflexivity.
  exists i'. split; [exact E|exact Hb].
Defined.

(** The accepted connection is closed: the listener's port is free again. *)
Lemma scif_close_releases_port_twice_witness :
  port_refs ex_accepted 2000 = 2 ∧
  ∃ i', scif_close 0 true ex_accepted 200 = Some i' ∧ port_refs i' 2000 = 0 ∧ listen i' = [100].
Proof.
  split; [vm_compute; reflexivity|].
  destruct (eps ex_accepted !! 200) as [ep|] eqn:He; [|vm_compute in He; discriminate].
  assert (self ep = PortId 1 2000 ∧ state ep = SCIFEP_CONNECTED ∧ remote_dev ep = Some 2) as (Hp & Hs & Hm).
  { vm_compute in He. injection He as <-. split_and!; reflexivity. }
  destruct (scif_close_releases_port_twice ex_accepted 200 ep 2 2 He Hs) as [(i' & E & Hn & _ & Hl) _].
  - by left.
  - exact Hm.
  - rewrite Hp. vm_compute. congruence.
  - rewrite Hp. vm_compute. reflexivity.
  - reflexivity || lia.
  - exists i'. rewrite Hp in Hn. split; [exact E|]. split; [exact Hn|exact Hl].
Defined.

End EndpointInv.
