(* ===== verification/ScifStream.v ===== *)
(** * Sending and receiving on a connection

    Models [scif_send], [scif_recv] and the loops [_scif_send] and [_scif_recv] of
    [mpss4/mpss-modules/mic/scif/scif_api.c] over the ring buffer of file RingBuffer:
    one direction of a connection, a sender on one node and a receiver on the other.
    A loop is cut into the steps between which the other node may act: the test at its
    head, the access to the ring, the publication of the offset, the notification, the
    wait.  While a call is between its waits it holds [ep->lock] and the state of its
    endpoint cannot change.  Each side makes one call at a time. *)
From S2P Require Import Prelude RingSpec RingBuffer Ports Endpoint.
Local Open Scope Z_scope.
Import ScifRb.

Module ScifStream.

Notation ep_state := ScifEpd.scif_epd_state.
Notation CONNECTED := ScifEpd.SCIFEP_CONNECTED.
Notation DISCONNECTED := ScifEpd.SCIFEP_DISCONNECTED.

Definition SCIF_SEND_BLOCK : Z := 1.
Definition SCIF_RECV_BLOCK : Z := 1.

Definition is_connected (st : ep_state) : bool := bool_decide (st = CONNECTED).
Definition is_disconnected (st : ep_state) : bool := bool_decide (st = DISCONNECTED).

(** Where a call is, and its local variables; [s_sent] also tells how far [msg] has
    been moved. *)
Inductive send_pc := SLoop | SWrite (n : Z) | SCommit (n : Z) | SNotify (n : Z) | SWait | SOut.
Record send_call := SendCall { s_msg : list Z; s_block : bool; s_sent : Z; s_ret : Z }.

Inductive recv_pc := RLoop | RGet (n : Z) | RUpdate (n : Z) | RNotify (n : Z) | RWait | ROut.
(** [r_buf]: what has been written to the caller's buffer. *)
Record recv_call := RecvCall { r_len : Z; r_block : bool; r_buf : list Z; r_remaining : Z; r_ret : Z }.

Section Code.
Context `{CircBuf} (x100_card : bool).

Definition scif_msg_param_check (len flags : Z) : Z :=
  if len <? 0 then - EINVAL
  else if negb (flags =? 0) && (Z.land flags SCIF_RECV_BLOCK =? 0) then - EINVAL
  else 0.

(** One step of [_scif_send]: [res] is what [_scif_nodeqp_send] or
    [wait_event_interruptible] gives.  Ends with the value returned. *)
Definition _scif_send (st : ep_state) (m : mem) (outbound_q : scif_rb) (pc : send_pc)
    (c : send_call) (res : Z) : mem * scif_rb * (send_pc * send_call + Z) :=
  let len := zlen (s_msg c) in
  let with_ret ret := SendCall (s_msg c) (s_block c) (s_sent c) ret in
  match pc with
  | SLoop =>
      if negb (s_sent c =? len) && is_connected st then
        let write_count := scif_rb_space m outbound_q in
        if negb (write_count =? 0)
        then (m, outbound_q, inl (SWrite (Z.min (len - s_sent c) write_count), c))
        else if negb (s_block c) then (m, outbound_q, inl (SOut, c))
        else (m, outbound_q, inl (SWait, c))
      else (m, outbound_q, inl (SOut, c))
  | SWrite curr_xfer_len =>
      let '(ret, m, outbound_q) :=
        scif_rb_write m outbound_q (ztake curr_xfer_len (zdrop (s_sent c) (s_msg c))) curr_xfer_len in
      if ret <? 0 then (m, outbound_q, inl (SOut, with_ret ret))
      else (m, outbound_q, inl (SCommit curr_xfer_len, with_ret ret))
  | SCommit curr_xfer_len =>
      (scif_rb_commit x100_card m outbound_q, outbound_q, inl (SNotify curr_xfer_len, c))
  | SNotify curr_xfer_len =>
      if negb (res =? 0) then (m, outbound_q, inl (SOut, with_ret res))
      else (m, outbound_q, inl (SLoop, SendCall (s_msg c) (s_block c) (s_sent c + curr_xfer_len) res))
  | SWait =>
      if negb (res =? 0) then (m, outbound_q, inl (SOut, with_ret (- EINTR)))
      else (m, outbound_q, inl (SLoop, with_ret res))
  | SOut =>
      (m, outbound_q, inr
         (if negb (s_sent c =? 0) then s_sent c
          else if (s_ret c =? 0) && negb (is_connected st)
          then if is_disconnected st then - ECONNRESET else - ENOTCONN
          else s_ret c))
  end.

(** One step of [_scif_recv]. *)
Definition _scif_recv (st : ep_state) (m : mem) (inbound_q : scif_rb) (pc : recv_pc)
    (c : recv_call) (res : Z) : mem * scif_rb * (recv_pc * recv_call + Z) :=
  let with_ret ret := RecvCall (r_len c) (r_block c) (r_buf c) (r_remaining c) ret in
  match pc with
  | RLoop =>
      if negb (r_remaining c =? 0) && (is_connected st || is_disconnected st) then
        let read_count := scif_rb_count m inbound_q in
        if negb (read_count =? 0)
        then (m, inbound_q, inl (RGet (Z.min (r_remaining c) read_count), c))
        else if is_disconnected st then (m, inbound_q, inl (ROut, c))
        else if negb (r_block c) then (m, inbound_q, inl (ROut, c))
        else (m, inbound_q, inl (RWait, c))
      else (m, inbound_q, inl (ROut, c))
  | RGet curr_recv_len =>
      let '(read_size, bs, inbound_q) := scif_rb_get_next m inbound_q curr_recv_len in
      let buf := ztake (r_len c - r_remaining c) (r_buf c) ++ bs in
      if is_connected st
      then (m, inbound_q, inl (RUpdate curr_recv_len,
              RecvCall (r_len c) (r_block c) buf (r_remaining c) (r_ret c)))
      else (m, inbound_q, inl (RLoop,
              RecvCall (r_len c) (r_block c) buf (r_remaining c - curr_recv_len) (r_ret c)))
  | RUpdate curr_recv_len =>
      (scif_rb_update_read_ptr x100_card m inbound_q, inbound_q, inl (RNotify curr_recv_len, c))
  | RNotify curr_recv_len =>
      if negb (res =? 0) then (m, inbound_q, inl (ROut, with_ret res))
      else (m, inbound_q, inl (RLoop,
              RecvCall (r_len c) (r_block c) (r_buf c) (r_remaining c - curr_recv_len) res))
  | RWait =>
      if negb (res =? 0) then (m, inbound_q, inl (ROut, with_ret (- EINTR)))
      else (m, inbound_q, inl (RLoop, with_ret res))
  | ROut =>
      (m, inbound_q, inr
         (if negb (r_len c - r_remaining c =? 0) then r_len c - r_remaining c
          else if (r_ret c =? 0) && negb (is_connected st)
          then if is_disconnected st then - ECONNRESET else - ENOTCONN
          else r_ret c))
  end.

(** [scif_send] and [scif_recv] up to the loop: the value returned at once, or the call
    the loop starts with.  [remote_dev] says whether the endpoint has a remote device. *)
Definition scif_send (remote_dev : bool) (msg : list Z) (flags : Z) : Z + send_call :=
  let len := zlen msg in
  if len =? 0 then inl 0
  else
    let ret := scif_msg_param_check len flags in
    if negb (ret =? 0) then inl ret
    else if negb remote_dev then inl (- ENOTCONN)
    else inr (SendCall msg (negb (Z.land flags SCIF_SEND_BLOCK =? 0)) 0 0).

Definition scif_recv (len flags : Z) : Z + recv_call :=
  if len =? 0 then inl 0
  else
    let ret := scif_msg_param_check len flags in
    if negb (ret =? 0) then inl ret
    else inr (RecvCall len (negb (Z.land flags SCIF_RECV_BLOCK =? 0)) [] len 0).

(** ** A connection

    [tx_log] and [rx_log] hold the bytes the returned calls reported as sent and as
    received; [tx_rets] and [rx_rets] the calls that returned, with the state of the
    endpoint and the value. *)
Record conn := Conn {
  shm : mem;
  outbound : scif_rb; tx_state : ep_state; tx : option (send_pc * send_call);
  tx_log : list Z; tx_rets : list (send_call * ep_state * Z);
  inbound : scif_rb; rx_state : ep_state; rx : option (recv_pc * recv_call);
  rx_log : list Z; rx_rets : list (recv_call * ep_state * Z);
}.

Inductive event :=
| CallSend (remote_dev : bool) (msg : list Z) (flags : Z)
| StepSend (res : Z)
| TxState (st : ep_state)
| CallRecv (len flags : Z)
| StepRecv (res : Z)
| RxState (st : ep_state).

Definition set_tx (s : conn) (m : mem) (q : scif_rb) (st : ep_state)
    (t : option (send_pc * send_call)) (log : list Z) rets : conn :=
  Conn m q st t log rets (inbound s) (rx_state s) (rx s) (rx_log s) (rx_rets s).
Definition set_rx (s : conn) (m : mem) (q : scif_rb) (st : ep_state)
    (r : option (recv_pc * recv_call)) (log : list Z) rets : conn :=
  Conn m (outbound s) (tx_state s) (tx s) (tx_log s) (tx_rets s) q st r log rets.

(** A call is made only when no other is under way, a state changes only when the lock
    is free, and a step needs a call. *)
Definition conn_step (s : conn) (ev : event) : conn :=
  match ev with
  | CallSend remote_dev msg flags =>
      match tx s with
      | Some _ => s
      | None =>
          match scif_send remote_dev msg flags with
          | inl _ => s
          | inr c => set_tx s (shm s) (outbound s) (tx_state s) (Some (SLoop, c)) (tx_log s) (tx_rets s)
          end
      end
  | StepSend res =>
      match tx s with
      | None => s
      | Some (pc, c) =>
          let '(m, q, r) := _scif_send (tx_state s) (shm s) (outbound s) pc c res in
          match r with
          | inl t => set_tx s m q (tx_state s) (Some t) (tx_log s) (tx_rets s)
          | inr ret => set_tx s m q (tx_state s) None (tx_log s ++ ztake ret (s_msg c))
                         (tx_rets s ++ [(c, tx_state s, ret)])
          end
      end
  | TxState st =>
      match tx s with
      | None | Some (SWait, _) => set_tx s (shm s) (outbound s) st (tx s) (tx_log s) (tx_rets s)
      | _ => s
      end
  | CallRecv len flags =>
      match rx s with
      | Some _ => s
      | None =>
          match scif_recv len flags with
          | inl _ => s
          | inr c => set_rx s (shm s) (inbound s) (rx_state s) (Some (RLoop, c)) (rx_log s) (rx_rets s)
          end
      end
  | StepRecv res =>
      match rx s with
      | None => s
      | Some (pc, c) =>
          let '(m, q, r) := _scif_recv (rx_state s) (shm s) (inbound s) pc c res in
          match r with
          | inl t => set_rx s m q (rx_state s) (Some t) (rx_log s) (rx_rets s)
          | inr ret => set_rx s m q (rx_state s) None (rx_log s ++ ztake ret (r_buf c))
                         (rx_rets s ++ [(c, rx_state s, ret)])
          end
      end
  | RxState st =>
      match rx s with
      | None | Some (RWait, _) => set_rx s (shm s) (inbound s) st (rx s) (rx_log s) (rx_rets s)
      | _ => s
      end
  end.

Definition conn_steps (s : conn) (evs : list event) : conn := fold_left conn_step evs s.

(** Every notification of the run gets through. *)
Definition notified (s : conn) (ev : event) : bool :=
  match ev, tx s, rx s with
  | StepSend res, Some (SNotify _, _), _ => res =? 0
  | StepRecv res, _, Some (RNotify _, _) => res =? 0
  | _, _, _ => true
  end.

Fixpoint all_notified (s : conn) (evs : list event) : bool :=
  match evs with
  | [] => true
  | ev :: evs => notified s ev && all_notified (conn_step s ev) evs
  end.

(** A connection whose ring has just been set up. *)
Definition new_conn (m : mem) (rb : scif_rb) : conn :=
  Conn m rb CONNECTED None [] [] rb CONNECTED None [] [].

End Code.

(** ** The invariant *)

Definition sending (pc : send_pc) : Z := match pc with SCommit n | SNotify n => n | _ => 0 end.
Definition receiving (pc : recv_pc) : Z := match pc with RUpdate n | RNotify n => n | _ => 0 end.

(** The bytes of the calls under way that are in the ring, or out of it. *)
Definition tx_bytes (t : option (send_pc * send_call)) : list Z :=
  match t with Some (pc, c) => ztake (s_sent c + sending pc) (s_msg c) | None => [] end.
Definition rx_bytes (r : option (recv_pc * recv_call)) : list Z :=
  match r with Some (_, c) => r_buf c | None => [] end.

(** Why a loop was left. *)
Definition send_exit (st : ep_state) (c : send_call) : Prop :=
  (s_ret c = 0 ∧ (s_sent c = zlen (s_msg c) ∨ st ≠ CONNECTED ∨ s_block c = false)) ∨
  (s_ret c = - EINTR ∧ s_block c = true).
Definition recv_exit (st : ep_state) (c : recv_call) : Prop :=
  (r_ret c = 0 ∧ (r_remaining c = 0 ∨ st ≠ CONNECTED ∨ r_block c = false)) ∨
  (r_ret c = - EINTR ∧ r_block c = true).

(** [space] bytes can be written, [count] bytes can be read. *)
Definition tx_ok (st : ep_state) (space : Z) (t : option (send_pc * send_call)) : Prop :=
  match t with
  | None => True
  | Some (pc, c) =>
      0 <= s_sent c <= zlen (s_msg c) ∧ 0 < zlen (s_msg c) ∧
      match pc with
      | SOut => send_exit st c
      | SWrite n => s_ret c = 0 ∧ 0 < n <= zlen (s_msg c) - s_sent c ∧ n <= space
      | SCommit n | SNotify n => s_ret c = 0 ∧ 0 < n <= zlen (s_msg c) - s_sent c
      | SLoop => s_ret c = 0
      | SWait => s_ret c = 0 ∧ s_block c = true
      end
  end.

Definition rx_ok (st : ep_state) (count : Z) (r : option (recv_pc * recv_call)) : Prop :=
  match r with
  | None => True
  | Some (pc, c) =>
      0 <= r_remaining c <= r_len c ∧ 0 < r_len c ∧
      zlen (r_buf c) = r_len c - r_remaining c + receiving pc ∧
      match pc with
      | ROut => recv_exit st c
      | RGet n => r_ret c = 0 ∧ 0 < n <= r_remaining c ∧ n <= count
      | RUpdate n | RNotify n => r_ret c = 0 ∧ 0 < n <= r_remaining c
      | RLoop => r_ret c = 0
      | RWait => r_ret c = 0 ∧ r_block c = true
      end
  end.

(** What a call that returned may have given. *)
Definition send_result (x : send_call * ep_state * Z) : Prop :=
  let '(c, st, ret) := x in
  0 <= s_sent c <= zlen (s_msg c) ∧ 0 < zlen (s_msg c) ∧ send_exit st c ∧
  ret = if negb (s_sent c =? 0) then s_sent c
        else if (s_ret c =? 0) && negb (is_connected st)
        then if is_disconnected st then - ECONNRESET else - ENOTCONN
        else s_ret c.
Definition recv_result (x : recv_call * ep_state * Z) : Prop :=
  let '(c, st, ret) := x in
  0 <= r_remaining c <= r_len c ∧ 0 < r_len c ∧ recv_exit st c ∧
  zlen (r_buf c) = r_len c - r_remaining c ∧
  ret = if negb (r_len c - r_remaining c =? 0) then r_len c - r_remaining c
        else if (r_ret c =? 0) && negb (is_connected st)
        then if is_disconnected st then - ECONNRESET else - ENOTCONN
        else r_ret c.

Ltac conn_fields := cbn [shm outbound tx_state tx tx_log tx_rets inbound rx_state rx rx_log rx_rets].

Section Invariant.
Context `{CircBuf} (x100_card : bool).

Definition conn_rep (cap : Z) (s : conn) (q : Spec.queue) : Prop :=
  rb_rep (shm s) (outbound s) (inbound s) q ∧ Spec.q_cap q = cap ∧
  tx_log s ++ tx_bytes (tx s) = rx_log s ++ rx_bytes (rx s) ++ Spec.q_ready q ++ Spec.q_pending q ∧
  tx_ok (tx_state s) (cap - Spec.used q) (tx s) ∧
  rx_ok (rx_state s) (zlen (Spec.q_ready q)) (rx s) ∧
  Forall send_result (tx_rets s) ∧ Forall recv_result (rx_rets s).

Lemma tx_ok_mono st sp sp' t : sp <= sp' → tx_ok st sp t → tx_ok st sp' t.
Proof. destruct t as [[[] c]|]; cbn; intuition lia. Qed.

Lemma rx_ok_mono st n n' r : n <= n' → rx_ok st n r → rx_ok st n' r.
Proof. destruct r as [[[] c]|]; cbn; intuition lia. Qed.

Lemma ztake_add (l : list Z) a n : 0 <= a → 0 <= n →
  ztake (a + n) l = ztake a l ++ ztake n (zdrop a l).
Proof.
  intros Ha Hn. unfold ztake, zdrop. rewrite Z2Nat.inj_add by lia.
  by rewrite <- take_take_drop.
Qed.

Lemma result_take (c : send_call) st ret : send_result (c, st, ret) →
  ztake ret (s_msg c) = ztake (s_sent c) (s_msg c).
Proof.
  intros (Hs & _ & He & ->). destruct (Z.eqb_spec (s_sent c) 0) as [E|E]; cbn; [|done].
  rewrite E. unfold ztake. f_equal. unfold ECONNRESET, ENOTCONN.
  destruct (s_ret c =? 0) eqn:E2, (is_connected st), (is_disconnected st); cbn; try done;
    destruct He as [[-> _]|[-> _]]; done.
Qed.

Lemma recv_result_take (c : recv_call) st ret : recv_result (c, st, ret) →
  ztake ret (r_buf c) = r_buf c.
Proof.
  intros (Hs & _ & He & Hlen & ->). unfold ztake.
  destruct (Z.eqb_spec (r_len c - r_remaining c) 0) as [E|E]; cbn.
  - rewrite E in Hlen. unfold zlen in Hlen. destruct (r_buf c); [by destruct (Z.to_nat _)|cbn in Hlen; lia].
  - rewrite <- Hlen. unfold zlen. by rewrite Nat2Z.id, firstn_all.
Qed.

Lemma connected_false st : is_connected st = false → st ≠ CONNECTED.
Proof. unfold is_connected. by intros ?%bool_decide_eq_false. Qed.

(** A step that only moves the call on. *)
Lemma send_moves cap s q pc c pc' c' :
  conn_rep cap s q → tx s = Some (pc, c) → s_msg c' = s_msg c →
  s_sent c' + sending pc' = s_sent c + sending pc →
  tx_ok (tx_state s) (cap - Spec.used q) (Some (pc', c')) →
  conn_rep cap (set_tx s (shm s) (outbound s) (tx_state s) (Some (pc', c')) (tx_log s) (tx_rets s)) q.
Proof.
  intros (Hrep & Hcap & Hb & Htx & Hrx & Hr) E Em Es Hok. unfold conn_rep, set_tx. conn_fields.
  split_and!; try done; try apply Hr. cbn [tx_bytes]. rewrite Em, Es. by rewrite E in Hb.
Qed.

Lemma send_loop_rep cap s q c res : conn_rep cap s q → tx s = Some (SLoop, c) →
  ∃ q', conn_rep cap (conn_step x100_card s (StepSend res)) q'.
Proof.
  intros Hc E. exists q. pose proof Hc as (Hrep & Hcap & Hb & Htx & Hrx & Hr).
  rewrite E in Htx. destruct Htx as (Hs & Hl & Hret). unfold conn_step, _scif_send. rewrite E.
  destruct (Z.eqb_spec (s_sent c) (zlen (s_msg c))) as [Ee|Ee]; cbn [negb andb].
  { eapply send_moves; eauto. cbn. split_and!; try done; try lia. left. auto. }
  destruct (is_connected (tx_state s)) eqn:Est.
  2: { eapply send_moves; eauto. cbn. split_and!; try done; try lia. left. split; [done|].
       right; left. by apply connected_false. }
  rewrite (space_rep _ _ _ _ Hrep), Hcap.
  assert (0 <= cap - Spec.used q) as Hsp.
  { destruct Hrep as [_ (k & _ & Hring)]. destruct Hring. lia. }
  destruct (Z.eqb_spec (cap - Spec.used q) 0) as [E0|E0]; cbn [negb].
  - destruct (s_block c) eqn:Eb; cbn [negb]; eapply send_moves; eauto; cbn; split_and!; try done; try lia.
    left. auto.
  - eapply send_moves; eauto. cbn. split_and!; try done; lia.
Qed.

Lemma send_write_rep cap s q n c res : conn_rep cap s q → tx s = Some (SWrite n, c) →
  ∃ q', conn_rep cap (conn_step x100_card s (StepSend res)) q'.
Proof.
  intros (Hrep & Hcap & Hb & Htx & Hrx & Hr) E. rewrite E in Htx, Hb.
  destruct Htx as (Hs & Hl & Hret & Hn & Hsp). unfold conn_step, _scif_send. rewrite E.
  assert (zlen (ztake n (zdrop (s_sent c) (s_msg c))) = n) as Hlen.
  { rewrite zlen_take; [done|]. rewrite zlen_drop by lia. lia. }
  destruct (scif_rb_write _ _ _ n) as [[rc m'] p'] eqn:Ew. rewrite <- Hlen in Ew at 2.
  destruct (write_refines _ _ _ _ _ _ _ _ Hrep Ew) as [Hrc Hrep'].
  unfold Spec.write in *. rewrite Hlen, Hcap in *.
  destruct (Z.ltb_spec (cap - Spec.used q) n) as [?|_]; [lia|]. cbn in Hrc, Hrep'. subst rc.
  change (0 <? 0) with false. cbn iota. eexists. unfold conn_rep, set_tx. conn_fields.
  split; [exact Hrep'|]. cbn [Spec.q_ready Spec.q_pending Spec.q_cap]. split_and!; try done; try apply Hr.
  cbn [tx_bytes sending s_msg s_sent] in *. rewrite Z.add_0_r in Hb.
  rewrite ztake_add by lia. rewrite app_assoc, Hb. by rewrite <- !app_assoc.
Qed.

Lemma send_commit_rep cap s q n c res : conn_rep cap s q → tx s = Some (SCommit n, c) →
  ∃ q', conn_rep cap (conn_step x100_card s (StepSend res)) q'.
Proof.
  intros (Hrep & Hcap & Hb & Htx & Hrx & Hr) E. rewrite E in Htx, Hb.
  unfold conn_step, _scif_send. rewrite E. exists (Spec.commit q). unfold conn_rep, set_tx. conn_fields.
  split; [by apply commit_refines|]. cbn [Spec.commit Spec.q_ready Spec.q_pending Spec.q_cap].
  rewrite app_nil_r. split_and!; try done; try apply Hr.
  eapply rx_ok_mono; [|exact Hrx]. rewrite zlen_app. pose proof (zlen_nonneg (Spec.q_pending q)). lia.
Qed.

Lemma send_step_rep cap s q pc c res : conn_rep cap s q → tx s = Some (pc, c) →
  notified s (StepSend res) = true → ∃ q', conn_rep cap (conn_step x100_card s (StepSend res)) q'.
Proof.
  intros Hc E Hn. unfold notified in Hn. rewrite E in Hn.
  destruct pc as [|n|n|n| |]; [by eapply send_loop_rep|by eapply send_write_rep|by eapply send_commit_rep|..];
    pose proof Hc as (Hrep & Hcap & Hb & Htx & Hrx & Hr); rewrite E in Htx, Hb;
    unfold conn_step, _scif_send; rewrite E; exists q.
  - apply Z.eqb_eq in Hn as ->. cbn [Z.eqb negb]. destruct Htx as (Hs & Hl & Hret & Hn).
    eapply send_moves; eauto; cbn; [lia|]. split_and!; try done; lia.
  - destruct Htx as (Hs & Hl & Hret & Hbl). destruct (Z.eqb_spec res 0) as [-> |]; cbn [negb];
      eapply send_moves; eauto; cbn; split_and!; try done; try lia. right. done.
  - destruct Htx as (Hs & Hl & He). unfold conn_rep, set_tx. conn_fields.
    set (ret := if negb (s_sent c =? 0) then _ else _).
    assert (send_result (c, tx_state s, ret)) as Hres by done.
    split_and!; try done; try apply Hr; [|apply Forall_app; split; [apply Hr|by constructor]].
    cbn [tx_bytes sending] in *. rewrite Z.add_0_r in Hb. by rewrite app_nil_r, (result_take _ _ _ Hres).
Qed.

Lemma recv_moves cap s q pc c pc' c' :
  conn_rep cap s q → rx s = Some (pc, c) → r_buf c' = r_buf c →
  rx_ok (rx_state s) (zlen (Spec.q_ready q)) (Some (pc', c')) →
  conn_rep cap (set_rx s (shm s) (inbound s) (rx_state s) (Some (pc', c')) (rx_log s) (rx_rets s)) q.
Proof.
  intros (Hrep & Hcap & Hb & Htx & Hrx & Hr) E Em Hok. unfold conn_rep, set_rx. conn_fields.
  split_and!; try done; try apply Hr. cbn [rx_bytes]. rewrite Em. by rewrite E in Hb.
Qed.

Lemma recv_loop_rep cap s q c res : conn_rep cap s q → rx s = Some (RLoop, c) →
  ∃ q', conn_rep cap (conn_step x100_card s (StepRecv res)) q'.
Proof.
  intros Hc E. exists q. pose proof Hc as (Hrep & Hcap & Hb & Htx & Hrx & Hr).
  rewrite E in Hrx. destruct Hrx as (Hs & Hl & Hbuf & Hret). cbn in Hbuf.
  unfold conn_step, _scif_recv. rewrite E.
  destruct (Z.eqb_spec (r_remaining c) 0) as [Ee|Ee]; cbn [negb andb].
  { eapply recv_moves; eauto. cbn. split_and!; try done; try lia. left. auto. }
  assert (rx_state s ≠ CONNECTED → rx_ok (rx_state s) (zlen (Spec.q_ready q)) (Some (ROut, c))) as Hout.
  { intros Hne. cbn. split_and!; try done; try lia. left. auto. }
  destruct (is_connected (rx_state s) || is_disconnected (rx_state s)) eqn:Est.
  2: { apply orb_false_iff in Est as [Est _]. eapply recv_moves; eauto using connected_false. }
  rewrite (count_rep _ _ _ _ Hrep). pose proof (zlen_nonneg (Spec.q_ready q)).
  destruct (Z.eqb_spec (zlen (Spec.q_ready q)) 0) as [E0|E0]; cbn [negb].
  - destruct (is_disconnected (rx_state s)) eqn:Ed.
    { eapply recv_moves; eauto. apply Hout. unfold is_disconnected in Ed.
      apply bool_decide_eq_true in Ed. by rewrite Ed. }
    destruct (r_block c) eqn:Eb; cbn [negb]; eapply recv_moves; eauto; cbn; split_and!; try done; try lia.
    left. auto.
  - eapply recv_moves; eauto. cbn. split_and!; try done; lia.
Qed.

Lemma recv_get_rep cap s q n c res : conn_rep cap s q → rx s = Some (RGet n, c) →
  ∃ q', conn_rep cap (conn_step x100_card s (StepRecv res)) q'.
Proof.
  intros (Hrep & Hcap & Hb & Htx & Hrx & Hr) E. rewrite E in Hrx, Hb.
  destruct Hrx as (Hs & Hl & Hbuf & Hret & Hn & Hc). cbn in Hbuf. unfold conn_step, _scif_recv. rewrite E.
  destruct (scif_rb_get_next _ _ n) as [[rc bs] c'] eqn:Eg.
  assert (0 <= n) as Hn0 by lia.
  destruct (get_next_refines _ _ _ _ _ _ _ _ Hrep Hn0 Eg) as [Hrc Hrep'].
  unfold Spec.get_next in *. destruct (Z.leb_spec n (zlen (Spec.q_ready q))) as [_|?]; [|lia].
  cbn in Hrc, Hrep'. injection Hrc as -> ->.
  assert (ztake (r_len c - r_remaining c) (r_buf c) = r_buf c) as ->.
  { replace (r_len c - r_remaining c) with (zlen (r_buf c)) by lia. unfold ztake, zlen.
    by rewrite Nat2Z.id, firstn_all. }
  set (q' := Spec.Queue _ _ _ _) in Hrep'.
  assert (Spec.used q' = Spec.used q) as Hu.
  { unfold q', Spec.used. cbn. rewrite zlen_drop by lia. lia. }
  assert (zlen (r_buf c ++ ztake n (Spec.q_ready q)) = r_len c - r_remaining c + n) as Hlen.
  { rewrite zlen_app, zlen_take by lia. lia. }
  destruct (is_connected (rx_state s)); exists q'; unfold conn_rep, set_rx; conn_fields;
    rewrite Hu; (split_and!; try done; try apply Hr); cbn [rx_bytes r_buf rx_ok receiving];
    try (split_and!; try done; cbn; lia);
    rewrite Hb; cbn [rx_bytes q' Spec.q_ready Spec.q_pending]; rewrite <- (ztake_zdrop n (Spec.q_ready q)) at 1;
    by rewrite <- !app_assoc.
Qed.

Lemma recv_update_rep cap s q n c res : conn_rep cap s q → rx s = Some (RUpdate n, c) →
  ∃ q', conn_rep cap (conn_step x100_card s (StepRecv res)) q'.
Proof.
  intros (Hrep & Hcap & Hb & Htx & Hrx & Hr) E. rewrite E in Hrx, Hb.
  unfold conn_step, _scif_recv. rewrite E. exists (Spec.update_read_ptr q). unfold conn_rep, set_rx. conn_fields.
  split; [by apply update_read_ptr_refines|]. split_and!; try done; try apply Hr.
  eapply tx_ok_mono; [|exact Htx]. pose proof (held_nonneg _ _ _ _ Hrep).
  unfold Spec.used, Spec.update_read_ptr. cbn. lia.
Qed.

Lemma recv_step_rep cap s q pc c res : conn_rep cap s q → rx s = Some (pc, c) →
  notified s (StepRecv res) = true → ∃ q', conn_rep cap (conn_step x100_card s (StepRecv res)) q'.
Proof.
  intros Hc E Hn. unfold notified in Hn. rewrite E in Hn.
  destruct pc as [|n|n|n| |]; [by eapply recv_loop_rep|by eapply recv_get_rep|by eapply recv_update_rep|..];
    pose proof Hc as (Hrep & Hcap & Hb & Htx & Hrx & Hr); rewrite E in Hrx, Hb;
    unfold conn_step, _scif_recv; rewrite E; exists q.
  - assert (res = 0) as -> by (destruct (tx s) as [[[] ?]|]; by apply Z.eqb_eq in Hn).
    cbn [Z.eqb negb]. destruct Hrx as (Hs & Hl & Hbuf & Hret & Hn'). cbn in Hbuf.
    eapply recv_moves; eauto; cbn. split_and!; try done; lia.
  - destruct Hrx as (Hs & Hl & Hbuf & Hret & Hbl). destruct (Z.eqb_spec res 0) as [-> |]; cbn [negb];
      eapply recv_moves; eauto; cbn; split_and!; try done; try lia. right. done.
  - destruct Hrx as (Hs & Hl & Hbuf & He). cbn in Hbuf. unfold conn_rep, set_rx. conn_fields.
    set (ret := if negb (r_len c - r_remaining c =? 0) then _ else _).
    assert (recv_result (c, rx_state s, ret)) as Hres by (split_and!; try done; lia).
    split_and!; try done; try apply Hr; [|apply Forall_app; split; [apply Hr|by constructor]].
    cbn [rx_bytes]. rewrite (recv_result_take _ _ _ Hres), Hb. by rewrite <- !app_assoc.
Qed.

Lemma conn_step_rep cap s q ev : conn_rep cap s q → notified s ev = true →
  ∃ q', conn_rep cap (conn_step x100_card s ev) q'.
Proof.
  intros Hc Hn. pose proof Hc as (Hrep & Hcap & Hb & Htx & Hrx & Hr).
  destruct ev as [remote msg flags|res|st|len flags|res|st].
  - unfold conn_step. destruct (tx s) eqn:E; [by exists q|].
    destruct (scif_send remote msg flags) as [|c] eqn:Es; [by exists q|]. exists q.
    unfold scif_send in Es. destruct (Z.eqb_spec (zlen msg) 0) as [|Hl]; [done|].
    destruct (negb (scif_msg_param_check _ _ =? 0)); [done|]. destruct (negb remote); [done|].
    injection Es as <-. pose proof (zlen_nonneg msg). unfold conn_rep, set_tx. conn_fields.
    split_and!; try done; try apply Hr. cbn [tx_ok s_sent s_msg s_ret]. split_and!; done || lia.
  - destruct (tx s) as [[pc c]|] eqn:E; [by eapply send_step_rep|].
    exists q. unfold conn_step. by rewrite E.
  - exists q. unfold conn_step. destruct (tx s) as [[[] c]|] eqn:E; try done;
      unfold conn_rep, set_tx; conn_fields; rewrite ?E; split_and!; try done; apply Hr.
  - unfold conn_step. destruct (rx s) eqn:E; [by exists q|].
    destruct (scif_recv len flags) as [|c] eqn:Es; [by exists q|]. exists q.
    unfold scif_recv in Es. destruct (Z.eqb_spec len 0) as [|Hl]; [done|].
    unfold scif_msg_param_check in Es. destruct (Z.ltb_spec len 0); [done|].
    destruct (negb _); [done|]. injection Es as <-. unfold conn_rep, set_rx. conn_fields.
    split_and!; try done; try apply Hr. cbn [rx_ok r_len r_buf r_remaining r_ret receiving].
    split_and!; try done; unfold zlen; cbn; lia.
  - destruct (rx s) as [[pc c]|] eqn:E; [by eapply recv_step_rep|].
    exists q. unfold conn_step. by rewrite E.
  - exists q. unfold conn_step. destruct (rx s) as [[[] c]|] eqn:E; try done;
      unfold conn_rep, set_rx; conn_fields; rewrite ?E; split_and!; try done; apply Hr.
Qed.

Lemma conn_steps_rep cap evs : ∀ s q, conn_rep cap s q → all_notified x100_card s evs = true →
  ∃ q', conn_rep cap (conn_steps x100_card s evs) q'.
Proof.
  induction evs as [|ev evs IH]; intros s q Hc; cbn; [eauto|].
  intros [Hn Hns]%andb_true_iff. destruct (conn_step_rep cap s q ev Hc Hn) as (q' & Hc'). eauto.
Qed.

Lemma new_conn_rep m rp wp base k : 0 <= k <= 30 → 0 < base → rp ≠ wp →
  0 <= rd_word m rp < 2 ^ k → rd_word m wp = rd_word m rp →
  conn_rep (2 ^ k - 1) (new_conn m (scif_rb_init m rp wp base k)) (Spec.empty (2 ^ k - 1)).
Proof.
  intros. unfold conn_rep, new_conn. conn_fields. split_and!; try done. by apply init_rep.
Qed.

End Invariant.

(** ** Calls that do not block *)

Definition send_left (t : option (send_pc * send_call)) : Z :=
  match t with
  | None => 0
  | Some (pc, c) =>
      let left := zlen (s_msg c) - s_sent c in
      match pc with
      | SLoop => 4 * left + 3 | SWrite _ => 4 * left + 2 | SCommit _ => 4 * left + 1
      | SNotify _ => 4 * left | SWait | SOut => 1
      end
  end.
Definition recv_left (r : option (recv_pc * recv_call)) : Z :=
  match r with
  | None => 0
  | Some (pc, c) =>
      match pc with
      | RLoop => 4 * r_remaining c + 3 | RGet _ => 4 * r_remaining c + 2
      | RUpdate _ => 4 * r_remaining c + 1 | RNotify _ => 4 * r_remaining c | RWait | ROut => 1
      end
  end.

(** Steps of each side in a run. *)
Fixpoint sends (evs : list event) : Z :=
  match evs with [] => 0 | StepSend _ :: evs => 1 + sends evs | _ :: evs => sends evs end.
Fixpoint recvs (evs : list event) : Z :=
  match evs with [] => 0 | StepRecv _ :: evs => 1 + recvs evs | _ :: evs => recvs evs end.

Section Nonblocking.
Context `{CircBuf} (x100_card : bool).

(** Each step of a call that does not block brings it nearer to its return. *)
Lemma send_step_left cap s q pc c res : conn_rep cap s q → tx s = Some (pc, c) → s_block c = false →
  let s' := conn_step x100_card s (StepSend res) in
  (tx s' = None ∧ length (tx_rets s') = S (length (tx_rets s))) ∨
  (∃ pc' c', tx s' = Some (pc', c') ∧ s_block c' = false ∧
     send_left (tx s') < send_left (tx s) ∧ tx_rets s' = tx_rets s).
Proof.
  intros (Hrep & Hcap & _ & Htx & _) E Hb. rewrite E in Htx. destruct Htx as (Hs & Hl & Hpc).
  unfold conn_step. rewrite E. destruct pc as [|n|n|n| |]; cbn -[zlen] in *.
  - destruct (Z.eqb_spec (s_sent c) (zlen (s_msg c))) as [Ee|Ee]; cbn -[zlen].
    { right. eexists _, _. split_and!; try done. cbn -[zlen]. lia. }
    destruct (is_connected _); cbn -[zlen]; [|right; eexists _, _; split_and!; try done; cbn -[zlen]; lia].
    rewrite Hb. destruct (scif_rb_space _ _ =? 0); cbn -[zlen];
      right; eexists _, _; split_and!; try done; cbn -[zlen]; lia.
  - destruct (scif_rb_write _ _ _ n) as [[rc m'] p']. destruct (rc <? 0); cbn -[zlen];
      right; eexists _, _; split_and!; try done; cbn -[zlen]; lia.
  - right; eexists _, _; split_and!; try done; cbn -[zlen]; lia.
  - destruct (res =? 0); cbn -[zlen]; right; eexists _, _; split_and!; try done; cbn -[zlen]; lia.
  - destruct Hpc. congruence.
  - left. split; [done|]. rewrite length_app. cbn. lia.
Qed.

Lemma recv_step_left cap s q pc c res : conn_rep cap s q → rx s = Some (pc, c) → r_block c = false →
  let s' := conn_step x100_card s (StepRecv res) in
  (rx s' = None ∧ length (rx_rets s') = S (length (rx_rets s))) ∨
  (∃ pc' c', rx s' = Some (pc', c') ∧ r_block c' = false ∧
     recv_left (rx s') < recv_left (rx s) ∧ rx_rets s' = rx_rets s).
Proof.
  intros (Hrep & Hcap & _ & _ & Hrx & _) E Hb. rewrite E in Hrx. destruct Hrx as (Hs & Hl & _ & Hpc).
  unfold conn_step. rewrite E. destruct pc as [|n|n|n| |]; cbn in *.
  - destruct (Z.eqb_spec (r_remaining c) 0) as [Ee|Ee]; cbn.
    { right. eexists _, _. split_and!; try done. cbn. lia. }
    destruct (is_connected _ || is_disconnected _); cbn; [|right; eexists _, _; split_and!; try done; cbn; lia].
    rewrite Hb. destruct (scif_rb_count _ _ =? 0), (is_disconnected _); cbn;
      right; eexists _, _; split_and!; try done; cbn; lia.
  - destruct (scif_rb_get_next _ _ n) as [[rc bs] c']. destruct (is_connected _); cbn;
      right; eexists _, _; split_and!; try done; cbn; lia.
  - right; eexists _, _; split_and!; try done; cbn; lia.
  - destruct (res =? 0); cbn; right; eexists _, _; split_and!; try done; cbn; lia.
  - destruct Hpc. congruence.
  - left. split; [done|]. rewrite length_app. cbn. lia.
Qed.

(** The other events leave a call under way alone. *)
Lemma send_untouched s t ev : tx s = Some t → (∀ res, ev ≠ StepSend res) →
  tx (conn_step x100_card s ev) = Some t ∧ tx_rets (conn_step x100_card s ev) = tx_rets s.
Proof.
  intros E Hev. unfold conn_step. rewrite E. destruct t as [pc c].
  destruct ev as [remote msg flags|res|st|len flags|res|st]; [done|by destruct (Hev res)| | | |].
  - destruct pc; done.
  - destruct (rx s); [done|]. by destruct (scif_recv len flags).
  - destruct (rx s) as [[pc' c']|]; [|done]. by destruct (_scif_recv _ _ _ _ _ _ _) as [[? ?] [?|?]].
  - by destruct (rx s) as [[[] c']|].
Qed.

Lemma recv_untouched s t ev : rx s = Some t → (∀ res, ev ≠ StepRecv res) →
  rx (conn_step x100_card s ev) = Some t ∧ rx_rets (conn_step x100_card s ev) = rx_rets s.
Proof.
  intros E Hev. unfold conn_step. rewrite E. destruct t as [pc c].
  destruct ev as [remote msg flags|res|st|len flags|res|st]; [| | |done|by destruct (Hev res)|].
  - destruct (tx s); [done|]. by destruct (scif_send remote msg flags).
  - destruct (tx s) as [[pc' c']|]; [|done]. by destruct (_scif_send _ _ _ _ _ _ _) as [[? ?] [?|?]].
  - by destruct (tx s) as [[[] c']|].
  - destruct pc; done.
Qed.

(** Returns are never taken back. *)
Lemma rets_mono evs : ∀ s,
  (length (tx_rets s) <= length (tx_rets (conn_steps x100_card s evs)))%nat ∧
  (length (rx_rets s) <= length (rx_rets (conn_steps x100_card s evs)))%nat.
Proof.
  induction evs as [|ev evs IH]; intros s; [done|].
  change (conn_steps x100_card s (ev :: evs)) with (conn_steps x100_card (conn_step x100_card s ev) evs).
  specialize (IH (conn_step x100_card s ev)).
  enough ((length (tx_rets s) <= length (tx_rets (conn_step x100_card s ev)))%nat ∧
          (length (rx_rets s) <= length (rx_rets (conn_step x100_card s ev)))%nat) by lia.
  unfold conn_step. destruct ev as [remote msg flags|res|st|len flags|res|st].
  - destruct (tx s); [done|]. by destruct (scif_send remote msg flags).
  - destruct (tx s) as [[pc' c']|]; [|done]. destruct (_scif_send _ _ _ _ _ _ _) as [[? ?] [?|?]]; [done|].
    cbn. rewrite length_app. lia.
  - by destruct (tx s) as [[[] c']|].
  - destruct (rx s); [done|]. by destruct (scif_recv len flags).
  - destruct (rx s) as [[pc' c']|]; [|done]. destruct (_scif_recv _ _ _ _ _ _ _) as [[? ?] [?|?]]; [done|].
    cbn. rewrite length_app. lia.
  - by destruct (rx s) as [[[] c']|].
Qed.

Lemma send_returns cap evs : ∀ s q pc c, conn_rep cap s q → all_notified x100_card s evs = true →
  tx s = Some (pc, c) → s_block c = false → send_left (tx s) <= sends evs →
  (length (tx_rets s) < length (tx_rets (conn_steps x100_card s evs)))%nat.
Proof.
  induction evs as [|ev evs IH]; intros s q pc c Hc Hall E Hb Hleft.
  { exfalso. rewrite E in Hleft. destruct Hc as (_ & _ & _ & Htx & _). rewrite E in Htx.
    destruct Htx as (Hs & Hl & Hpc). cbn -[zlen] in Hleft. destruct pc; lia. }
  cbn in Hall. apply andb_true_iff in Hall as [Hn Hall].
  destruct (conn_step_rep x100_card cap s q ev Hc Hn) as (q' & Hc'). cbn [conn_steps fold_left].
  assert ((∃ res, ev = StepSend res) ∨ ∀ res, ev ≠ StepSend res) as [[res ->]|Hne]
    by (destruct ev; eauto; by right).
  - cbn [sends] in Hleft.
    destruct (send_step_left cap s q pc c res Hc E Hb) as [[_ Hlen]|(pc' & c' & E' & Hb' & Hlt & <-)].
    + pose proof (rets_mono evs (conn_step x100_card s (StepSend res))). unfold conn_steps in *. lia.
    + eapply IH; eauto. lia.
  - destruct (send_untouched s (pc, c) ev E Hne) as [E' <-].
    eapply IH; eauto. rewrite E', <- E. destruct ev; cbn [sends] in Hleft; try done. by destruct (Hne res).
Qed.

Lemma recv_returns cap evs : ∀ s q pc c, conn_rep cap s q → all_notified x100_card s evs = true →
  rx s = Some (pc, c) → r_block c = false → recv_left (rx s) <= recvs evs →
  (length (rx_rets s) < length (rx_rets (conn_steps x100_card s evs)))%nat.
Proof.
  induction evs as [|ev evs IH]; intros s q pc c Hc Hall E Hb Hleft.
  { exfalso. rewrite E in Hleft. destruct Hc as (_ & _ & _ & _ & Hrx & _). rewrite E in Hrx.
    destruct Hrx as (Hs & Hl & _ & Hpc). cbn in Hleft. destruct pc; lia. }
  cbn in Hall. apply andb_true_iff in Hall as [Hn Hall].
  destruct (conn_step_rep x100_card cap s q ev Hc Hn) as (q' & Hc'). cbn [conn_steps fold_left].
  assert ((∃ res, ev = StepRecv res) ∨ ∀ res, ev ≠ StepRecv res) as [[res ->]|Hne]
    by (destruct ev; eauto; by right).
  - cbn [recvs] in Hleft.
    destruct (recv_step_left cap s q pc c res Hc E Hb) as [[_ Hlen]|(pc' & c' & E' & Hb' & Hlt & <-)].
    + pose proof (rets_mono evs (conn_step x100_card s (StepRecv res))). unfold conn_steps in *. lia.
    + eapply IH; eauto. lia.
  - destruct (recv_untouched s (pc, c) ev E Hne) as [E' <-].
    eapply IH; eauto. rewrite E', <- E. destruct ev; cbn [recvs] in Hleft; try done. by destruct (Hne res).
Qed.

End Nonblocking.

(** The value both loops return, from the number of bytes done. *)
Lemma send_value len done_ ret (block : bool) (st : ep_state) :
  0 <= done_ <= len → 0 < len →
  (ret = 0 ∧ (done_ = len ∨ st ≠ CONNECTED ∨ block = false)) ∨ (ret = - EINTR ∧ block = true) →
  let err st := if is_disconnected st then - ECONNRESET else - ENOTCONN in
  let v := if negb (done_ =? 0) then done_
           else if (ret =? 0) && negb (is_connected st)
           then if is_disconnected st then - ECONNRESET else - ENOTCONN
           else ret in
  v <= len ∧ (0 <= v → v = done_) ∧
  (block = true → st = CONNECTED → v = len ∨ ret = - EINTR) ∧
  (v = 0 → block = false ∧ st = CONNECTED) ∧
  (v < 0 → done_ = 0 ∧ ((v = - EINTR ∧ block = true) ∨ (st ≠ CONNECTED ∧ v = err st))).
Proof.
  intros Hd Hl He err v. unfold v, err, is_connected, EINTR, ECONNRESET, ENOTCONN in *.
  destruct (Z.eqb_spec done_ 0) as [-> |Hne]; cbn [negb].
  - destruct He as [[-> He]|[-> ->]].
    + cbn [Z.eqb andb]. destruct (bool_decide_reflect (st = CONNECTED)) as [Hst|Hst]; cbn [negb].
      * split_and!; try lia; destruct He as [?|[?|?]]; done || lia || (intros; congruence) || auto.
      * destruct (is_disconnected st); split_and!; try lia; try done; auto.
    + change (- (4) =? 0) with false. cbn [andb]. split_and!; try lia; try done; auto.
  - split_and!; try lia. intros Hb Hst. destruct He as [[-> [?|[?|?]]]|[-> _]]; auto; congruence.
Qed.

(** A failed notification ends the call. *)
Lemma fail_take d e (l : list Z) : 0 <= d → e < 0 → ztake (if negb (d =? 0) then d else e) l = ztake d l.
Proof.
  intros Hd He. destruct (Z.eqb_spec d 0) as [-> |]; [|done]. cbn. unfold ztake.
  by replace (Z.to_nat e) with 0%nat by lia.
Qed.

Lemma send_fails `{CircBuf} x100_card s n c e : tx s = Some (SNotify n, c) → e < 0 →
  ∃ rets, conn_steps x100_card s [StepSend e; StepSend 0] =
    set_tx s (shm s) (outbound s) (tx_state s) None
      (tx_log s ++ ztake (if negb (s_sent c =? 0) then s_sent c else e) (s_msg c)) rets.
Proof.
  intros E He. unfold conn_steps. cbn [fold_left].
  assert (e =? 0 = false) as Ee by lia.
  assert (conn_step x100_card s (StepSend e) =
    set_tx s (shm s) (outbound s) (tx_state s)
      (Some (SOut, SendCall (s_msg c) (s_block c) (s_sent c) e)) (tx_log s) (tx_rets s)) as ->.
  { unfold conn_step. rewrite E. cbn. by rewrite Ee. }
  cbn. rewrite Ee. cbn [andb]. eexists. reflexivity.
Qed.

Lemma recv_fails `{CircBuf} x100_card s n c e : rx s = Some (RNotify n, c) → e < 0 →
  ∃ rets, conn_steps x100_card s [StepRecv e; StepRecv 0] =
    set_rx s (shm s) (inbound s) (rx_state s) None
      (rx_log s ++ ztake (if negb (r_len c - r_remaining c =? 0) then r_len c - r_remaining c else e) (r_buf c)) rets.
Proof.
  intros E He. unfold conn_steps. cbn [fold_left].
  assert (e =? 0 = false) as Ee by lia.
  assert (conn_step x100_card s (StepRecv e) =
    set_rx s (shm s) (inbound s) (rx_state s)
      (Some (ROut, RecvCall (r_len c) (r_block c) (r_buf c) (r_remaining c) e)) (rx_log s) (rx_rets s)) as ->.
  { unfold conn_step. rewrite E. cbn. by rewrite Ee. }
  cbn. rewrite Ee. cbn [andb]. eexists. reflexivity.
Qed.

(** ** Claims *)

(** C2: a connection is a byte stream: on a fresh ring, whatever the order of the calls
    of scif_send and scif_recv, of the steps of their loops, of waits, signals and
    changes of the endpoints' states, as long as notifications get through, the bytes the
    sender has had accepted are the bytes the receiver has got followed by what is still
    in the ring, at most 2^k - 1 bytes. *)
Theorem scif_stream_fifo `{CircBuf} (x100_card : bool) m rp wp base k evs :
  0 <= k <= 30 → 0 < base → rp ≠ wp → 0 <= rd_word m rp < 2 ^ k → rd_word m wp = rd_word m rp →
  let s0 := new_conn m (scif_rb_init m rp wp base k) in
  all_notified x100_card s0 evs = true →
  let s := conn_steps x100_card s0 evs in
  ∃ transit, tx_log s ++ tx_bytes (tx s) = rx_log s ++ rx_bytes (rx s) ++ transit ∧
    zlen transit <= 2 ^ k - 1.
Proof.
  intros Hk Hb Hne HR HW s0 Hall s.
  destruct (conn_steps_rep x100_card (2 ^ k - 1) evs s0 _ (new_conn_rep m rp wp base k Hk Hb Hne HR HW) Hall)
    as (q & Hrep & Hcap & Hbytes & _).
  exists (Spec.q_ready q ++ Spec.q_pending q). split; [done|].
  destruct Hrep as [_ (k' & _ & Hring)]. rewrite zlen_app. destruct Hring. unfold Spec.used in *. lia.
Qed.

(** What scif_send and scif_recv return, over every such run: a count is the number
    of bytes of the call in the stream; a blocking call on a connection that is up when
    it ends transfers everything unless a signal ends its wait; zero is only returned by
    a call that does not block, on a connection that is up; an error means that nothing
    was transferred, and is EINTR, ECONNRESET or ENOTCONN as the endpoint's state says. *)
Theorem scif_send_recv_results `{CircBuf} (x100_card : bool) m rp wp base k evs :
  0 <= k <= 30 → 0 < base → rp ≠ wp → 0 <= rd_word m rp < 2 ^ k → rd_word m wp = rd_word m rp →
  let s0 := new_conn m (scif_rb_init m rp wp base k) in
  all_notified x100_card s0 evs = true →
  let s := conn_steps x100_card s0 evs in
  let err st := if is_disconnected st then - ECONNRESET else - ENOTCONN in
  (∀ c st ret, (c, st, ret) ∈ tx_rets s → ret <= zlen (s_msg c) ∧
     (0 <= ret → ret = s_sent c) ∧
     (s_block c = true → st = CONNECTED → ret = zlen (s_msg c) ∨ s_ret c = - EINTR) ∧
     (ret = 0 → s_block c = false ∧ st = CONNECTED) ∧
     (ret < 0 → s_sent c = 0 ∧
        ((ret = - EINTR ∧ s_block c = true) ∨ (st ≠ CONNECTED ∧ ret = err st)))) ∧
  (∀ c st ret, (c, st, ret) ∈ rx_rets s → ret <= r_len c ∧
     (0 <= ret → ret = zlen (r_buf c)) ∧
     (r_block c = true → st = CONNECTED → ret = r_len c ∨ r_ret c = - EINTR) ∧
     (ret = 0 → r_block c = false ∧ st = CONNECTED) ∧
     (ret < 0 → r_buf c = [] ∧
        ((ret = - EINTR ∧ r_block c = true) ∨ (st ≠ CONNECTED ∧ ret = err st)))).
Proof.
  intros Hk Hb Hne HR HW s0 Hall s err.
  destruct (conn_steps_rep x100_card (2 ^ k - 1) evs s0 _ (new_conn_rep m rp wp base k Hk Hb Hne HR HW) Hall)
    as (q & _ & _ & _ & _ & _ & Ht & Hr).
  rewrite Forall_forall in Ht. rewrite Forall_forall in Hr.
  split; intros c st ret Hin.
  - destruct (Ht _ Hin) as (Hs & Hl & He & ->). apply send_value; [lia|lia|].
    unfold send_exit in He. intuition.
  - destruct (Hr _ Hin) as (Hs & Hl & He & Hbuf & ->).
    destruct (send_value (r_len c) (r_len c - r_remaining c) (r_ret c) (r_block c) st) as (H1 & H2 & H3 & H4 & H5);
      [lia|lia|unfold recv_exit in He; intuition lia|].
    split_and!; auto; [intros; rewrite Hbuf; auto|]. intros Hneg. destruct (H5 Hneg) as [E0 E1].
    split; [|done]. rewrite E0 in Hbuf. unfold zlen in Hbuf. destruct (r_buf c); [done|cbn in Hbuf; lia].
Qed.

(** Calls that do not block return: a scif_send that does not block has returned
    after at most four steps per byte left and three more, a scif_recv likewise,
    whatever the other side does in between. *)
Theorem scif_nonblocking_returns `{CircBuf} (x100_card : bool) m rp wp base k evs evs' :
  0 <= k <= 30 → 0 < base → rp ≠ wp → 0 <= rd_word m rp < 2 ^ k → rd_word m wp = rd_word m rp →
  let s0 := new_conn m (scif_rb_init m rp wp base k) in
  let s := conn_steps x100_card s0 evs in
  all_notified x100_card s0 evs = true → all_notified x100_card s evs' = true →
  (∀ c, tx s = Some (SLoop, c) → s_block c = false →
     4 * (zlen (s_msg c) - s_sent c) + 3 <= sends evs' →
     (length (tx_rets s) < length (tx_rets (conn_steps x100_card s evs')))%nat) ∧
  (∀ c, rx s = Some (RLoop, c) → r_block c = false → 4 * r_remaining c + 3 <= recvs evs' →
     (length (rx_rets s) < length (rx_rets (conn_steps x100_card s evs')))%nat).
Proof.
  intros Hk Hb Hne HR HW s0 s Hall Hall'.
  destruct (conn_steps_rep x100_card (2 ^ k - 1) evs s0 _ (new_conn_rep m rp wp base k Hk Hb Hne HR HW) Hall)
    as (q & Hc). fold s in Hc.
  split; intros c E Hbl Hn; [eapply send_returns|eapply recv_returns]; eauto; by rewrite E.
Qed.

(** A notification that fails breaks the count.  A send whose notification fails
    returns without counting the bytes it has just put in the ring: the peer gets [n]
    bytes that were not reported, and again when the caller sends the rest.  A receive
    whose notification fails leaves out the [n] bytes it has just taken from the ring,
    which no later call returns. *)
Theorem scif_notify_failure `{CircBuf} (x100_card : bool) m rp wp base k evs e n :
  0 <= k <= 30 → 0 < base → rp ≠ wp → 0 <= rd_word m rp < 2 ^ k → rd_word m wp = rd_word m rp →
  let s0 := new_conn m (scif_rb_init m rp wp base k) in
  let s := conn_steps x100_card s0 evs in
  all_notified x100_card s0 evs = true → e < 0 →
  (∀ c, tx s = Some (SNotify n, c) →
     let s' := conn_steps x100_card s [StepSend e; StepSend 0] in
     tx s' = None ∧ tx_log s' = tx_log s ++ ztake (s_sent c) (s_msg c) ∧ 0 < n ∧
     ∃ transit, rx_log s' ++ rx_bytes (rx s') ++ transit =
                tx_log s' ++ ztake n (zdrop (s_sent c) (s_msg c))) ∧
  (∀ c, rx s = Some (RNotify n, c) →
     let s' := conn_steps x100_card s [StepRecv e; StepRecv 0] in
     rx s' = None ∧ 0 < n ∧
     ∃ lost transit, zlen lost = n ∧ tx_log s' ++ tx_bytes (tx s') = rx_log s' ++ lost ++ transit).
Proof.
  intros Hk Hb Hne HR HW s0 s Hall He.
  destruct (conn_steps_rep x100_card (2 ^ k - 1) evs s0 _ (new_conn_rep m rp wp base k Hk Hb Hne HR HW) Hall)
    as (q & Hrep & Hcap & Hbytes & Htx & Hrx & _). fold s in Hrep, Hcap, Hbytes, Htx, Hrx.
  split; intros c E; cbn zeta; rewrite E in *.
  - destruct (send_fails x100_card s n c e E He) as (rets & ->). destruct Htx as (Hs & Hl & Hret & Hn).
    unfold set_tx. conn_fields. rewrite fail_take by lia. split_and!; try done; [lia|].
    exists (Spec.q_ready q ++ Spec.q_pending q). rewrite <- Hbytes. cbn [tx_bytes sending].
    rewrite ztake_add by lia. by rewrite <- app_assoc.
  - destruct (recv_fails x100_card s n c e E He) as (rets & ->). destruct Hrx as (Hs & Hl & Hbuf & Hret & Hn).
    cbn [receiving] in Hbuf. unfold set_rx. conn_fields. rewrite fail_take by lia.
    split_and!; [done|lia|]. exists (zdrop (r_len c - r_remaining c) (r_buf c)), (Spec.q_ready q ++ Spec.q_pending q).
    split; [rewrite zlen_drop by lia; lia|]. rewrite Hbytes. cbn [rx_bytes].
    rewrite <- (ztake_zdrop (r_len c - r_remaining c) (r_buf c)) at 1. by rewrite <- !app_assoc.
Qed.

(** ** Runs *)

(** A ring of eight bytes whose offsets start at 5. *)
Definition demo_conn : conn := new_conn demo_mem (scif_rb_init demo_mem 8 16 4096 3).

(** Nine bytes are sent with a blocking call, which waits after seven; four are
    received. *)
Definition demo_run : list event :=
  [CallSend true [1; 2; 3; 4; 5; 6; 7; 8; 9] 1] ++ replicate 5 (StepSend 0) ++
  [CallRecv 4 0] ++ replicate 6 (StepRecv 0) ++ replicate 2 (StepSend 0).

Ltac demo_ring := first [lia | reflexivity | vm_compute; split; congruence].

Lemma scif_stream_fifo_witness : let s := @conn_steps linux_circ false demo_conn demo_run in
  rx_log s = [1; 2; 3; 4] ∧
  ∃ transit, tx_log s ++ tx_bytes (tx s) = rx_log s ++ rx_bytes (rx s) ++ transit ∧
    zlen transit <= 2 ^ 3 - 1.
Proof.
  intros s. split; [by vm_compute|].
  apply (@scif_stream_fifo linux_circ false demo_mem 8 16 4096 3 demo_run); demo_ring.
Defined.

Lemma scif_send_recv_results_witness : let s := @conn_steps linux_circ false demo_conn demo_run in
  ∃ c st, (c, st, 4) ∈ rx_rets s ∧ 4 = zlen (r_buf c).
Proof.
  intros s.
  assert (rx_rets s = [(RecvCall 4 false [1; 2; 3; 4] 0 0, CONNECTED, 4)]) as Erets by by vm_compute.
  exists (RecvCall 4 false [1; 2; 3; 4] 0 0), CONNECTED. split; [rewrite Erets; by left|].
  destruct (@scif_send_recv_results linux_circ false demo_mem 8 16 4096 3 demo_run ltac:(lia) ltac:(lia) ltac:(lia)
    ltac:(vm_compute; split; congruence) eq_refl
    ltac:(by vm_compute)) as [_ Hr].
  destruct (Hr (RecvCall 4 false [1; 2; 3; 4] 0 0) CONNECTED 4) as (_ & Hlen & _).
  - fold demo_conn. fold s. rewrite Erets. by left.
  - apply Hlen. lia.
Defined.

Lemma scif_nonblocking_returns_witness :
  let s := @conn_steps linux_circ false demo_conn [CallRecv 2 0] in
  (length (rx_rets s) < length (rx_rets (@conn_steps linux_circ false s (replicate 11 (StepRecv 0)))))%nat.
Proof.
  intros s.
  destruct (@scif_nonblocking_returns linux_circ false demo_mem 8 16 4096 3 [CallRecv 2 0]
    (replicate 11 (StepRecv 0)) ltac:(lia) ltac:(lia) ltac:(lia)
    ltac:(vm_compute; split; congruence) eq_refl
    ltac:(by vm_compute) ltac:(by vm_compute)) as [_ Hr].
  eapply Hr; [by vm_compute|done|]. by vm_compute.
Defined.

(** The notification of a send of three bytes fails: the sender is told of no byte,
    the peer gets three. *)
Lemma scif_notify_failure_witness :
  let s := @conn_steps linux_circ false demo_conn [CallSend true [1; 2; 3] 0; StepSend 0; StepSend 0; StepSend 0] in
  let s' := @conn_steps linux_circ false s [StepSend (-19); StepSend 0] in
  tx_log s' = [] ∧ ∃ transit, rx_log s' ++ rx_bytes (rx s') ++ transit = [1; 2; 3].
Proof.
  intros s s'. split; [by vm_compute|].
  destruct (@scif_notify_failure linux_circ false demo_mem 8 16 4096 3
    [CallSend true [1; 2; 3] 0; StepSend 0; StepSend 0; StepSend 0] (-19) 3 ltac:(lia) ltac:(lia) ltac:(lia)
    ltac:(vm_compute; split; congruence) eq_refl
    ltac:(by vm_compute) ltac:(lia)) as [Ht _].
  destruct (Ht (SendCall [1; 2; 3] false 0 0)) as (_ & _ & _ & transit & Hb); [by vm_compute|].
  exists transit. exact Hb.
Defined.

End ScifStream.
