(* ===== verification/ScifUser.v ===== *)
(** * Transfers of user buffers and polling

    Models [scif_user_send] and [scif_user_recv] of
    [mpss4/mpss-modules/mic/scif/scif_api.c], which cut a user buffer into chunks for
    [_scif_send] and [_scif_recv], and the polling functions [__scif_pollfd] and
    [scif_poll].  The chunk routines are given by their results, under the contract that
    file ScifStream proves for them; the copies from and to user space, the waits and
    the signals are given by their outcomes. *)
From S2P Require Import Prelude RingSpec RingBuffer Ports Endpoint ScifStream.
Local Open Scope Z_scope.

Module ScifUser.

(** ** Chunks *)

Section Chunks.
(** [MAX_ORDER] of the kernel. *)
Variable max_order : Z.

Definition chunk_len (len : Z) : Z := Z.min len (Z.shiftl 1 (max_order + PAGE_SHIFT - 1)).

(** [copy k]: whether the k-th [copy_from_user] succeeds; [send k chunk]: what the k-th
    [_scif_send] gives for its chunk.  The result is [err], [sent_len] and the chunks
    handed over with the result for each. *)
Fixpoint user_send_loop (copy : nat → bool) (send : nat → list Z → Z) (fuel k : nat) (msg : list Z)
    (sent_len err : Z) : option (Z * Z * list (list Z * Z)) :=
  match fuel with
  | O => None
  | S fuel =>
      let len := zlen msg in
      if negb (sent_len =? len) then
        let loop_len := Z.min (chunk_len len) (len - sent_len) in
        if negb (copy k) then Some (- EFAULT, sent_len, [])
        else
          let chunk := ztake loop_len (zdrop sent_len msg) in
          let err := send k chunk in
          if err <? 0 then Some (err, sent_len, [(chunk, err)])
          else if negb (err =? loop_len) then Some (err, sent_len + err, [(chunk, err)])
          else
            '(e, s, log) ← user_send_loop copy send fuel (S k) msg (sent_len + err) err;
            Some (e, s, (chunk, err) :: log)
      else Some (err, sent_len, [])
  end.

(** [kmem]: whether the bounce buffer is allocated. *)
Definition scif_user_send (kmem : bool) (copy : nat → bool) (send : nat → list Z → Z)
    (msg : list Z) (flags : Z) : option (Z * list (list Z * Z)) :=
  let len := zlen msg in
  if len =? 0 then Some (0, [])
  else
    let err := ScifStream.scif_msg_param_check len flags in
    if negb (err =? 0) then Some (if err <? 0 then err else 0, [])
    else if negb kmem then Some (- ENOMEM, [])
    else
      '(err, sent_len, log) ← user_send_loop copy send (S (length msg)) 0 msg 0 0;
      Some (if err <? 0 then err else sent_len, log).

(** [rcv k n]: what the k-th [_scif_recv] for [n] bytes gives and what it leaves in the
    bounce buffer.  The last result is what has been written to the user's buffer. *)
Fixpoint user_recv_loop (copy : nat → bool) (rcv : nat → Z → Z * list Z) (fuel k : nat)
    (len recv_len err : Z) (out : list Z) : option (Z * Z * list Z) :=
  match fuel with
  | O => None
  | S fuel =>
      if negb (recv_len =? len) then
        let loop_len := Z.min (chunk_len len) (len - recv_len) in
        let '(err, tmp) := rcv k loop_len in
        if err <? 0 then Some (err, recv_len, out)
        else if negb (copy k) then Some (- EFAULT, recv_len, out)
        else if negb (err =? loop_len) then Some (err, recv_len + err, out ++ ztake err tmp)
        else user_recv_loop copy rcv fuel (S k) len (recv_len + err) err (out ++ ztake err tmp)
      else Some (err, recv_len, out)
  end.

Definition scif_user_recv (kmem : bool) (copy : nat → bool) (rcv : nat → Z → Z * list Z)
    (len flags : Z) : option (Z * list Z) :=
  if len =? 0 then Some (0, [])
  else
    let err := ScifStream.scif_msg_param_check len flags in
    if negb (err =? 0) then Some (if err <? 0 then err else 0, [])
    else if negb kmem then Some (- ENOMEM, [])
    else
      '(err, recv_len, out) ← user_recv_loop copy rcv (S (Z.to_nat len)) 0 len 0 0 [];
      Some (if err <? 0 then err else recv_len, out).

(** The bytes the connection has accepted. *)
Definition accepted (log : list (list Z * Z)) : list Z := concat ((λ x, ztake x.2 x.1) <$> log).

Hypothesis max_order_pos : 1 <= max_order + PAGE_SHIFT.

Lemma chunk_pos len : 0 < len → 0 < chunk_len len <= len.
Proof.
  intros Hl. unfold chunk_len. assert (0 < Z.shiftl 1 (max_order + PAGE_SHIFT - 1)); [|lia].
  rewrite Z.shiftl_mul_pow2 by lia. lia.
Qed.

(** The contract of [_scif_send]: an error, or how many bytes of the chunk were taken. *)
Definition send_contract (send : nat → list Z → Z) : Prop := ∀ k chunk, send k chunk <= zlen chunk.

Lemma ztake_more (l : list Z) a n : 0 <= a → 0 <= n → ztake a l ++ ztake n (zdrop a l) = ztake (a + n) l.
Proof. intros Ha Hn. unfold ztake, zdrop. rewrite Z2Nat.inj_add by lia. apply take_take_drop. Qed.

Lemma user_send_loop_spec copy send msg : send_contract send → ∀ fuel k sent_len err,
  0 <= sent_len <= zlen msg → 0 <= err → zlen msg - sent_len < Z.of_nat fuel →
  ∃ e s log, user_send_loop copy send fuel k msg sent_len err = Some (e, s, log) ∧
    sent_len <= s <= zlen msg ∧ ztake sent_len msg ++ accepted (filter (λ x, 0 <= x.2) log) = ztake s msg ∧
    Forall (λ x, 0 < zlen x.1 <= chunk_len (zlen msg)) log ∧
    (0 <= e → s < zlen msg → ∃ c r, last log = Some (c, r) ∧ 0 <= r < zlen c).
Proof.
  intros Hc. induction fuel as [|fuel IH]; intros k sent_len err Hs He Hf; [lia|]. cbn [user_send_loop].
  destruct (Z.eqb_spec sent_len (zlen msg)) as [E|E]; cbn [negb].
  { exists err, sent_len, []. split; [done|]. rewrite app_nil_r. split_and!; try done; try lia. }
  pose proof (chunk_pos (zlen msg) ltac:(lia)) as Hch.
  destruct (copy k); cbn [negb].
  2: { exists (- EFAULT), sent_len, []. split; [done|]. rewrite app_nil_r. split_and!; try done; try lia. }
  set (loop_len := Z.min (chunk_len (zlen msg)) (zlen msg - sent_len)).
  set (chunk := ztake loop_len (zdrop sent_len msg)).
  assert (zlen chunk = loop_len) as Hlen.
  { unfold chunk. rewrite zlen_take; [done|]. rewrite zlen_drop by lia. unfold loop_len. lia. }
  pose proof (Hc k chunk) as Hk. set (r := send k chunk) in *.
  assert (0 < zlen chunk <= chunk_len (zlen msg)) as Hb by (rewrite Hlen; unfold loop_len; lia).
  assert (0 <= r → ztake sent_len msg ++ ztake r chunk = ztake (sent_len + r) msg) as Htake.
  { intros Hr. unfold chunk. assert (ztake r (ztake loop_len (zdrop sent_len msg)) = ztake r (zdrop sent_len msg)) as ->.
    { unfold ztake. rewrite take_take. f_equal. lia. }
    apply ztake_more; lia. }
  destruct (Z.ltb_spec r 0) as [Hneg|Hpos].
  { exists r, sent_len, [(chunk, r)]. split; [done|]. rewrite filter_cons_False by (cbn; lia). cbn. rewrite app_nil_r.
    split_and!; try done; try lia. by apply Forall_singleton. }
  destruct (Z.eqb_spec r loop_len) as [Er|Er]; cbn [negb].
  - destruct (IH (S k) (sent_len + r) r) as (e & s & log & E' & Hs' & Ha & Hl & Hlast); [unfold loop_len in *; lia..|].
    rewrite E'. cbn [mbind option_bind]. eexists e, s, _. split; [reflexivity|]. split; [lia|]. split; [|split; [by constructor|]].
    + rewrite filter_cons_True by done. unfold accepted. cbn [fmap list_fmap concat fst snd].
      rewrite app_assoc, Htake by done. exact Ha.
    + intros H1 H2. destruct (Hlast H1 H2) as (c & r' & El & Hr'). exists c, r'. split; [|done].
      rewrite last_cons, El. done.
  - exists r, (sent_len + r), [(chunk, r)]. split; [done|]. rewrite filter_cons_True by done. cbn. rewrite app_nil_r.
    split_and!; try lia; [by apply Htake|by apply Forall_singleton|]. intros _ _. exists chunk, r. split; [done|]. lia.
Qed.

(** The bytes a receive has put into the user's buffer are the bytes of its chunks. *)
Definition recv_contract (rcv : nat → Z → Z * list Z) : Prop :=
  ∀ k n, (rcv k n).1 <= n ∧ ((rcv k n).1 <= zlen (rcv k n).2).

Lemma user_recv_loop_spec copy rcv len : recv_contract rcv → ∀ fuel k recv_len err out,
  0 <= recv_len <= len → 0 <= err → zlen out = recv_len → len - recv_len < Z.of_nat fuel →
  ∃ e r out', user_recv_loop copy rcv fuel k len recv_len err out = Some (e, r, out ++ out') ∧
    recv_len <= r <= len ∧ zlen (out ++ out') = r.
Proof.
  intros Hc. induction fuel as [|fuel IH]; intros k recv_len err out Hs He Ho Hf; [lia|]. cbn [user_recv_loop].
  destruct (Z.eqb_spec recv_len len) as [E|E]; cbn [negb].
  { exists err, recv_len, []. rewrite app_nil_r. split_and!; try done; lia. }
  pose proof (chunk_pos len ltac:(lia)) as Hch. set (loop_len := Z.min (chunk_len len) (len - recv_len)).
  destruct (Hc k loop_len) as [Hk1 Hk2]. destruct (rcv k loop_len) as [r tmp]. cbn [fst snd] in Hk1, Hk2.
  destruct (Z.ltb_spec r 0); [exists r, recv_len, []; rewrite app_nil_r; split_and!; try done; lia|].
  destruct (negb (copy k)); [exists (- EFAULT), recv_len, []; rewrite app_nil_r; split_and!; try done; lia|].
  assert (zlen (ztake r tmp) = r) as Ht by (apply zlen_take; lia).
  assert (loop_len <= len - recv_len) as Hll by (unfold loop_len; lia).
  destruct (Z.eqb_spec r loop_len) as [Er|Er]; cbn [negb].
  - destruct (IH (S k) (recv_len + r) r (out ++ ztake r tmp)) as (e & r' & out' & E' & Hr' & Hz);
      [lia|lia|rewrite zlen_app; lia|unfold loop_len in *; lia|].
    exists e, r', (ztake r tmp ++ out'). rewrite E', app_assoc. split_and!; try done; lia.
  - exists r, (recv_len + r), (ztake r tmp). rewrite zlen_app. split_and!; try done; lia.
Qed.

Lemma param_check_ok len flags : 0 <= len → flags = 0 ∨ flags = 1 → ScifStream.scif_msg_param_check len flags = 0.
Proof. intros Hl Hf. unfold ScifStream.scif_msg_param_check. destruct (Z.ltb_spec len 0); [lia|]. by destruct Hf as [-> | ->]. Qed.

End Chunks.

(** The calls of file ScifStream keep the contracts. *)
Lemma stream_send_contract c st ret : ScifStream.send_result (c, st, ret) → ret <= zlen (ScifStream.s_msg c).
Proof.
  intros (Hs & Hl & Hx & ->). destruct (negb (_ =? 0)); [lia|].
  assert (ScifStream.s_ret c <= 0) by (destruct Hx as [[-> _]|[-> _]]; unfold EINTR; lia).
  destruct (_ && _); [destruct (ScifStream.is_disconnected st); unfold ECONNRESET, ENOTCONN; lia|lia].
Qed.

Lemma stream_recv_contract c st ret : ScifStream.recv_result (c, st, ret) →
  ret <= ScifStream.r_len c ∧ ret <= zlen (ScifStream.r_buf c).
Proof.
  intros (Hs & Hl & Hx & Hb & ->). destruct (negb (_ =? 0)); [lia|].
  assert (ScifStream.r_ret c <= 0) by (destruct Hx as [[-> _]|[-> _]]; unfold EINTR; lia).
  destruct (_ && _); [destruct (ScifStream.is_disconnected st); unfold ECONNRESET, ENOTCONN; lia|lia].
Qed.

(** ** Polling *)

Definition POLLIN : Z := 1.
Definition POLLOUT : Z := 4.
Definition POLLERR : Z := 8.
Definition POLLHUP : Z := 16.

(** What a poll sees of an endpoint; it may change while the lock is given up. *)
Record endpt_view := View {
  v_async : ScifEpd.conn_async_state; v_state : ScifEpd.scif_epd_state; v_conn_err : Z;
  v_conreqcnt : Z; v_count : Z; v_space : Z;
}.

Definition in_progress (v : endpt_view) : bool := bool_decide (v_async v = ScifEpd.ASYNC_CONN_INPROGRESS).
Definition is_state (v : endpt_view) (st : ScifEpd.scif_epd_state) : bool := bool_decide (v_state v = st).
Definition con_or_dis (v : endpt_view) : bool :=
  is_state v ScifEpd.SCIFEP_CONNECTED || is_state v ScifEpd.SCIFEP_DISCONNECTED.

(** [v0] is seen first, [v1], [v2] and [v3] after the waits, where there are any. *)
Definition __scif_pollfd (events : Z) (v0 v1 v2 v3 : endpt_view) : Z :=
  if in_progress v0 && in_progress v1 then
    if con_or_dis v1 || negb (v_conn_err v1 =? 0) then POLLOUT else 0
  else
    let v := if in_progress v0 then v1 else v0 in
    if is_state v ScifEpd.SCIFEP_LISTENING && is_state v2 ScifEpd.SCIFEP_LISTENING then
      if negb (v_conreqcnt v2 =? 0) then POLLIN else 0
    else
      let v := if is_state v ScifEpd.SCIFEP_LISTENING then v2 else v in
      let waits := negb (Z.land events (Z.lor POLLIN POLLOUT) =? 0) in
      let w := if waits then v3 else v in
      if con_or_dis v && con_or_dis w then
        Z.lor (if negb (v_count w =? 0) then POLLIN else 0)
          (Z.lor (if negb (v_space w =? 0) then POLLOUT else 0)
             (if is_state w ScifEpd.SCIFEP_DISCONNECTED then POLLHUP else 0))
      else POLLERR.

(** A round of [scif_poll] over the endpoints: the masks stored and how many are set. *)
Fixpoint poll_round (ufds : list Z) (masks : list Z) (count : Z) : list Z * Z :=
  match ufds, masks with
  | events :: ufds, mask :: masks =>
      let mask := Z.land mask (Z.lor events (Z.lor POLLERR POLLHUP)) in
      let '(revents, count) := poll_round ufds masks (if negb (mask =? 0) then count + 1 else count) in
      (mask :: revents, count)
  | _, _ => ([], count)
  end.

(** What happens in one round: the masks of the endpoints, an error of the wait table,
    a pending signal, and whether the sleep that follows runs into the timeout. *)
Record poll_env := PollEnv { pe_masks : list Z; pe_error : Z; pe_signal : bool; pe_expired : bool }.

Fixpoint poll_loop (rounds : list poll_env) (ufds : list Z) (timed_out : bool) : option (Z * list Z) :=
  match rounds with
  | [] => None
  | e :: rounds =>
      let '(revents, count) := poll_round ufds (pe_masks e) 0 in
      let count := if count =? 0 then if pe_signal e then - EINTR else pe_error e else count in
      if negb (count =? 0) || timed_out then Some (count, revents)
      else poll_loop rounds ufds (timed_out || pe_expired e)
  end.

Definition scif_poll (rounds : list poll_env) (ufds : list Z) (timeout_msecs : Z) : option (Z * list Z) :=
  poll_loop rounds ufds (timeout_msecs =? 0).

(** ** Claims *)

(** A send of a user buffer always returns, and hands the bytes over in order: what
    the connection accepts of the chunks is a prefix of the buffer.  A result that is
    not an error is the length of that prefix, and less than the buffer only if the last
    chunk was not taken whole.  A receive returns, and a result that is not an error is
    the number of bytes put into the user's buffer. *)
Theorem scif_user_transfers max_order copy send rcv msg len flags :
  1 <= max_order + PAGE_SHIFT → flags = 0 ∨ flags = 1 → send_contract send → recv_contract rcv → 0 < len →
  (∃ ret log s, scif_user_send max_order true copy send msg flags = Some (ret, log) ∧ 0 <= s <= zlen msg ∧
     accepted (filter (λ x, 0 <= x.2) log) = ztake s msg ∧
     Forall (λ x, 0 < zlen x.1 <= chunk_len max_order (zlen msg)) log ∧
     (0 <= ret → ret = s ∧ (s < zlen msg → ∃ c r, last log = Some (c, r) ∧ 0 <= r < zlen c))) ∧
  (∃ ret out, scif_user_recv max_order true copy rcv len flags = Some (ret, out) ∧ zlen out <= len ∧
     (0 <= ret → ret = zlen out)).
Proof.
  intros Hmax Hfl Hs Hr Hlen. split.
  - unfold scif_user_send. pose proof (zlen_nonneg msg). destruct (Z.eqb_spec (zlen msg) 0) as [E0|E0].
    { exists 0, [], 0. split_and!; try done; lia. }
    rewrite param_check_ok by (done || lia). cbn [Z.eqb negb].
    destruct (user_send_loop_spec max_order Hmax copy send msg Hs (S (length msg)) 0 0 0) as (e & s & log & E & Hb & Ha & Hl & Hlast);
      [unfold zlen in *; lia..|].
    rewrite E. cbn [mbind option_bind]. exists (if e <? 0 then e else s), log, s. split_and!; try done; try lia.
    destruct (Z.ltb_spec e 0); [lia|]. intros _. split; [done|]. by apply Hlast.
  - unfold scif_user_recv. destruct (Z.eqb_spec len 0); [lia|]. rewrite param_check_ok by (done || lia). cbn [Z.eqb negb].
    destruct (user_recv_loop_spec max_order Hmax copy rcv len Hr (S (Z.to_nat len)) 0 0 0 []) as (e & r & out & E & Hb & Hz);
      [done || lia..|].
    rewrite E. cbn [mbind option_bind app] in *. eexists _, out. split; [reflexivity|]. split; [lia|].
    destruct (Z.ltb_spec e 0); lia.
Qed.

(** When a later chunk fails the error replaces the count: the first chunk has been
    accepted by the connection, or put into the user's buffer, and the caller is told
    only of the error. *)
Theorem scif_user_error_hides max_order copy send rcv msg flags e :
  1 <= max_order + PAGE_SHIFT → flags = 0 ∨ flags = 1 → copy 0%nat = true → copy 1%nat = true → e < 0 →
  (∀ chunk, send 0%nat chunk = zlen chunk) → (∀ chunk, send 1%nat chunk = e) →
  (∀ n, 0 <= n → ∃ l, rcv 0%nat n = (n, l) ∧ zlen l = n) → (∀ n, (rcv 1%nat n).1 = e) →
  let chunk := chunk_len max_order (zlen msg) in
  chunk < zlen msg →
  (∃ log, scif_user_send max_order true copy send msg flags = Some (e, log) ∧
     accepted (filter (λ x, 0 <= x.2) log) = ztake chunk msg) ∧
  (∃ out, scif_user_recv max_order true copy rcv (zlen msg) flags = Some (e, out) ∧ zlen out = chunk).
Proof.
  intros Hmax Hfl Hc0 Hc1 He Hs0 Hs1 Hr0 Hr1 chunk Hlt.
  assert (0 < zlen msg) as Hpos.
  { unfold chunk, chunk_len in Hlt. pose proof (zlen_nonneg msg).
    assert (0 < Z.shiftl 1 (max_order + PAGE_SHIFT - 1)) by (rewrite Z.shiftl_mul_pow2 by lia; lia). lia. }
  pose proof (chunk_pos max_order Hmax (zlen msg) Hpos) as Hch. fold chunk in Hch.
  split.
  - unfold scif_user_send. destruct (Z.eqb_spec (zlen msg) 0); [lia|]. rewrite param_check_ok by (done || lia). cbn [Z.eqb negb].
    destruct (length msg) as [|len'] eqn:El; [unfold zlen in Hpos; lia|]. cbn [user_send_loop].
    destruct (Z.eqb_spec 0 (zlen msg)); [lia|]. cbn [negb]. rewrite Hc0. cbn [negb]. fold chunk. rewrite Hs0, Z.sub_0_r, Z.min_l by lia.
    assert (zlen (ztake chunk (zdrop 0 msg)) = chunk) as Hz by (rewrite zlen_take; [done|rewrite zlen_drop; lia]).
    rewrite Hz, Z.eqb_refl. destruct (Z.ltb_spec chunk 0); [lia|]. cbn [negb].
    rewrite Z.add_0_l. destruct (Z.eqb_spec chunk (zlen msg)); [lia|]. cbn [negb]. rewrite Hc1. cbn [negb]. rewrite Hs1.
    assert (e <? 0 = true) as Ee by lia. rewrite Ee. cbn [mbind option_bind]. rewrite Ee.
    eexists. split; [reflexivity|]. rewrite filter_cons_True, filter_cons_False by (cbn; lia). unfold accepted. cbn.
    rewrite app_nil_r. unfold ztake, zdrop. cbn. rewrite take_take. f_equal. lia.
  - unfold scif_user_recv. destruct (Z.eqb_spec (zlen msg) 0); [lia|]. rewrite param_check_ok by (done || lia). cbn [Z.eqb negb].
    destruct (Z.to_nat (zlen msg)) as [|len'] eqn:El; [lia|]. cbn [user_recv_loop].
    destruct (Z.eqb_spec 0 (zlen msg)); [lia|]. cbn [negb]. fold chunk. rewrite Z.sub_0_r, Z.min_l by lia.
    destruct (Hr0 chunk ltac:(lia)) as (l & -> & Hl). destruct (Z.ltb_spec chunk 0); [lia|]. rewrite Hc0, Z.eqb_refl. cbn [negb].
    rewrite Z.add_0_l. destruct (Z.eqb_spec chunk (zlen msg)); [lia|]. cbn [negb]. pose proof (Hr1 (Z.min chunk (zlen msg - chunk))) as H1.
    destruct (rcv 1%nat (Z.min chunk (zlen msg - chunk))) as [e' tmp]. cbn in H1. subst e'.
    assert (e <? 0 = true) as Ee by lia. rewrite Ee. cbn [mbind option_bind app]. rewrite Ee.
    eexists. split; [reflexivity|]. rewrite zlen_take; lia.
Qed.

Definition set_count (l : list Z) : Z := zlen (filter (λ m, m ≠ 0) l).

Lemma poll_round_spec ufds : ∀ masks count, length masks = length ufds →
  ∃ revents, poll_round ufds masks count = (revents, count + set_count revents) ∧
    revents = zip_with (λ mask events, Z.land mask (Z.lor events (Z.lor POLLERR POLLHUP))) masks ufds.
Proof.
  induction ufds as [|ev ufds IH]; intros [|mask masks] count Hl; try done; cbn [poll_round].
  { exists []. split; [f_equal; unfold set_count, zlen; cbn; lia|done]. }
  set (m := Z.land mask _). injection Hl as Hl.
  destruct (IH masks (if negb (m =? 0) then count + 1 else count) Hl) as (rv & -> & Hrv).
  exists (m :: rv). split; [|cbn [zip_with]; by rewrite <- Hrv]. f_equal. unfold set_count.
  destruct (Z.eqb_spec m 0); cbn [negb].
  - by rewrite filter_cons_False by tauto.
  - rewrite filter_cons_True, zlen_cons by done. lia.
Qed.

(** A poll that returns a positive count gives the number of endpoints with events,
    each endpoint's events being those of the last round among the ones asked for, errors
    and hang-ups; it returns 0 only after the timeout and without events, and an error
    only without events.  It returns at the latest in the round after the timeout has
    run out. *)
Theorem scif_poll_result rounds ufds timeout_msecs :
  Forall (λ e, length (pe_masks e) = length ufds ∧ pe_error e <= 0) rounds →
  (∀ count revents, scif_poll rounds ufds timeout_msecs = Some (count, revents) →
     ∃ pre e post, rounds = pre ++ e :: post ∧
       revents = zip_with (λ mask events, Z.land mask (Z.lor events (Z.lor POLLERR POLLHUP))) (pe_masks e) ufds ∧
       (0 < count → count = set_count revents) ∧ (count <= 0 → set_count revents = 0) ∧
       (count = 0 → timeout_msecs = 0 ∨ ∃ e', e' ∈ pre ∧ pe_expired e' = true) ∧
       (count < 0 → count = pe_error e ∨ pe_signal e = true)) ∧
  (∀ pre e e' post, rounds = pre ++ e :: e' :: post → pe_expired e = true →
     is_Some (scif_poll rounds ufds timeout_msecs)).
Proof.
  unfold scif_poll. generalize (timeout_msecs =? 0) as b, (Z.eqb_eq timeout_msecs 0).
  intros b Hb Hr. split.
  - intros count revents.
    assert (b = true → timeout_msecs = 0 ∨ ∃ e', e' ∈ @nil poll_env ∧ pe_expired e' = true) as Ht by (left; by apply Hb).
    revert Ht. change rounds with ([] ++ rounds) at 2. generalize (@nil poll_env) as pre. clear Hb. revert b.
    induction rounds as [|e rounds IH]; intros b pre Ht; cbn [poll_loop]; [done|].
    apply Forall_cons in Hr as [[Hl Herr] Hr].
    destruct (poll_round_spec ufds (pe_masks e) 0 Hl) as (rv & -> & Hrv). rewrite Z.add_0_l.
    set (c := if set_count rv =? 0 then _ else _).
    assert (0 <= set_count rv) as Hn by apply zlen_nonneg.
    destruct (negb (c =? 0) || b) eqn:Ec.
    + intros [= <- <-]. exists pre, e, rounds. split_and!; try done.
      * unfold c. destruct (Z.eqb_spec (set_count rv) 0); [|done]. destruct (pe_signal e); unfold EINTR; lia.
      * unfold c. destruct (Z.eqb_spec (set_count rv) 0); [done|]. lia.
      * intros E0. rewrite E0 in Ec. cbn in Ec. by apply Ht.
      * unfold c. destruct (Z.eqb_spec (set_count rv) 0); [|lia]. destruct (pe_signal e); auto.
    + apply orb_false_iff in Ec as [_ ->]. cbn [orb]. intros E. specialize (IH Hr (pe_expired e) (pre ++ [e])).
      rewrite <- app_assoc in IH. apply IH; [|exact E]. intros Hx. right. exists e. split; [|done]. apply elem_of_app. right. by left.
  - clear Hb. revert b. induction rounds as [|e0 rounds IH]; intros b pre e e' post Heq Hx; [by destruct pre|].
    apply Forall_cons in Hr as [[Hl Herr] Hr]. cbn [poll_loop].
    destruct (poll_round_spec ufds (pe_masks e0) 0 Hl) as (rv & -> & _).
    destruct (negb _ || b) eqn:Ec; [done|]. apply orb_false_iff in Ec as [_ ->]. cbn [orb].
    destruct pre as [|p pre]; injection Heq as -> ->; [|by eapply IH].
    rewrite Hx. apply Forall_cons in Hr as [[Hl' _] _]. cbn [poll_loop].
    destruct (poll_round_spec ufds (pe_masks e') 0 Hl') as (rv' & -> & _). by rewrite orb_true_r.
Qed.

(** ** Concrete transfers *)

Definition demo_recv (k : nat) (n : Z) : Z * list Z := (n, replicate (Z.to_nat n) 7).

Lemma scif_user_transfers_witness :
  ∃ ret log s, scif_user_send 11 true (λ _, true) (λ _ c, zlen c) [1; 2; 3] 1 = Some (ret, log) ∧
    accepted (filter (λ x, 0 <= x.2) log) = ztake s [1; 2; 3].
Proof.
  destruct (scif_user_transfers 11 (λ _, true) (λ _ c, zlen c) demo_recv [1; 2; 3] 3 1) as [(ret & log & s & E & _ & Ha & _) _].
  - unfold PAGE_SHIFT. lia.
  - by right.
  - intros k c. lia.
  - intros k n. cbn. unfold zlen. rewrite length_replicate. lia.
  - lia.
  - eauto.
Defined.

(** Chunks of two bytes. *)
Lemma scif_user_error_hides_witness :
  ∃ log, scif_user_send (-10) true (λ _, true) (λ k c, if (k =? 0)%nat then zlen c else - ECONNRESET) [1; 2; 3] 1 =
    Some (- ECONNRESET, log) ∧ accepted (filter (λ x, 0 <= x.2) log) = [1; 2].
Proof.
  apply (scif_user_error_hides (-10) (λ _, true) (λ k c, if (k =? 0)%nat then zlen c else - ECONNRESET)
    (λ k n, if (k =? 0)%nat then (n, replicate (Z.to_nat n) 7) else (- ECONNRESET, [])) [1; 2; 3] 1 (- ECONNRESET)); try done.
  - by right.
  - intros n Hn. eexists. split; [reflexivity|]. unfold zlen. rewrite length_replicate. lia.
Defined.

Definition demo_round (mask : Z) (expired : bool) : poll_env := PollEnv [mask; 0] 0 false expired.

Lemma scif_poll_result_witness :
  is_Some (scif_poll [demo_round 0 true; demo_round POLLIN false] [POLLIN; POLLOUT] 100).
Proof.
  eapply (proj2 (scif_poll_result [demo_round 0 true; demo_round POLLIN false] [POLLIN; POLLOUT] 100
    ltac:(repeat (constructor; [split; [reflexivity|cbn; lia]|]); constructor)) [] _ _ []); reflexivity.
Defined.

End ScifUser.
