(* ===== verification/NodeQp.v ===== *)
(** * Node queue pairs: messages between two nodes

    Models the message part of [mpss4/mpss-modules/mic/scif/scif_nodeqp.c]:
    [scif_nodeqp_send] and [_scif_nodeqp_send] with its loop for space on one node,
    [scif_nodeqp_intrhandler] and [scif_nodeqp_msg_handler] on the other, over the ring
    buffer of file RingBuffer.  A message is the 44 bytes of a packed [struct scifmsg].
    The two sides run in steps that may be interleaved in any way; an interrupt makes
    the handler run again once it has returned.  The handlers are a table over a state
    of their own; the last section puts the handlers of file Endpoint into it. *)
From S2P Require Import Prelude RingSpec RingBuffer Ports Endpoint.
Local Open Scope Z_scope.
Import ScifRb.

Module NodeQp.

(** ** Messages *)

Definition SCIF_INIT : Z := 1.
Definition SCIF_EXIT_ACK : Z := 3.
Definition SCIF_MAX_MSG : Z := 38.
Definition NODEQP_DELAY_LOOPS : Z := 3 * 1000000 / 10.

Record scifmsg := Msg {
  src_node : Z; src_port : Z; dst_node : Z; dst_port : Z; uop : Z;
  payload0 : Z; payload1 : Z; payload2 : Z; payload3 : Z;
}.

Definition sizeof_scifmsg : Z := 44.

(** The packed structure in memory. *)
Definition msg_fields (m : scifmsg) : list Z :=
  [src_node m; src_port m; dst_node m; dst_port m; uop m; payload0 m; payload1 m; payload2 m; payload3 m].
Definition msg_widths : list nat := [2; 2; 2; 2; 4; 8; 8; 8; 8]%nat.
Definition msg_bytes (m : scifmsg) : list Z := pack msg_widths (msg_fields m).
Definition msg_of_bytes (l : list Z) : scifmsg :=
  match unpack msg_widths l with
  | [sn; sp; dn; dp; u; p0; p1; p2; p3] => Msg sn sp dn dp u p0 p1 p2 p3
  | _ => Msg 0 0 0 0 0 0 0 0 0
  end.

Definition msg_ok (m : scifmsg) : Prop :=
  Forall2 (λ w v, 0 <= v < 256 ^ Z.of_nat w) msg_widths (msg_fields m).

(** ** Sending *)

Inductive scif_msg_state := OP_IDLE | OP_IN_PROGRESS | OP_COMPLETED | OP_FAILED.

(** What a send looks at of a [struct scif_dev]. *)
Record scif_dev := Dev {
  dev_self : bool; dev_qpairs : bool; dev_exit : scif_msg_state; dev_peer : bool;
}.

Inductive send_pc := NWrite (loop_cnt : Z) | NCommit | NIntr.

(** How a call starts: it ends at once, goes to the work queue of the node itself, or
    to the ring. *)
Inductive send_start := SRet (err : Z) | SLoopback | SRing (pc : send_pc).

Definition _scif_nodeqp_start (d : scif_dev) : send_start :=
  if dev_self d then SLoopback
  else if negb (dev_qpairs d) then SRet (- EINVAL)
  else SRing (NWrite 0).

Definition scif_nodeqp_send (d : scif_dev) (msg : scifmsg) : send_start :=
  if SCIF_EXIT_ACK <? uop msg then
    if negb (match dev_exit d with OP_IDLE => true | _ => false end) then SRet (- ENODEV)
    else if negb (dev_peer d) then SRet (- ENODEV)
    else _scif_nodeqp_start d
  else _scif_nodeqp_start d.

Section Code.
Context `{CircBuf} (x100_card : bool).
(** The state of the receiving node, and its handlers: each may change the message in
    the handler's buffer. *)
Context {St : Type} (scif_intr_func : list (St → scifmsg → St * scifmsg)).

(** One step of [_scif_nodeqp_send] with the lock of the queue pair held. *)
Definition _scif_nodeqp_send (m : mem) (outbound_q : scif_rb) (pc : send_pc) (msg : scifmsg)
  : mem * scif_rb * (send_pc + Z) :=
  match pc with
  | NWrite loop_cnt =>
      let '(err, m, outbound_q) := scif_rb_write m outbound_q (msg_bytes msg) sizeof_scifmsg in
      if negb (err =? 0) then
        if NODEQP_DELAY_LOOPS <? loop_cnt then (m, outbound_q, inr (- ENODEV))
        else (m, outbound_q, inl (NWrite (loop_cnt + 1)))
      else (m, outbound_q, inl NCommit)
  | NCommit => (scif_rb_commit x100_card m outbound_q, outbound_q, inl NIntr)
  | NIntr => (m, outbound_q, inr 0)
  end.

(** ** Receiving *)

Definition scif_nodeqp_msg_handler (h : St) (msg : scifmsg) : St * scifmsg :=
  if SCIF_MAX_MSG <? uop msg then (h, msg)
  else
    match scif_intr_func !! Z.to_nat (uop msg) with
    | Some f => f h msg
    | None => (h, msg)
    end.

Inductive recv_pc := HGet | HHandle (msg : scifmsg) | HUpdate.

(** One step of [scif_nodeqp_intrhandler]: the next place in the loop, or [None] and
    whether an exit acknowledgement ended it. *)
Definition scif_nodeqp_intrhandler (m : mem) (inbound_q : scif_rb) (h : St) (pc : recv_pc)
  : mem * scif_rb * St * (recv_pc + bool) :=
  match pc with
  | HGet =>
      let '(read_size, bs, inbound_q) := scif_rb_get_next m inbound_q sizeof_scifmsg in
      if read_size =? 0 then (m, inbound_q, h, inr false)
      else (m, inbound_q, h, inl (HHandle (msg_of_bytes bs)))
  | HHandle msg =>
      let '(h, msg) := scif_nodeqp_msg_handler h msg in
      if uop msg =? SCIF_EXIT_ACK then (m, inbound_q, h, inr true)
      else (m, inbound_q, h, inl HUpdate)
  | HUpdate => (scif_rb_update_read_ptr x100_card m inbound_q, inbound_q, h, inl HGet)
  end.

(** ** Both nodes

    [q_sent]: the messages written to the ring; [q_rets]: what the calls returned;
    [q_intr]: an interrupt the receiver has not begun to serve; [q_handled]: the
    messages handled; [q_exited]: an exit acknowledgement has ended the handler. *)
Record queue := Queue {
  q_mem : mem;
  q_out : scif_rb; q_snd : option (send_pc * scifmsg);
  q_sent : list scifmsg; q_rets : list (scifmsg * Z); q_intr : bool;
  q_in : scif_rb; q_rcv : option recv_pc; q_state : St;
  q_handled : list scifmsg; q_exited : bool;
}.

Inductive event := CallSend (d : scif_dev) (msg : scifmsg) | StepSend | Interrupt | StepHandler.

Definition queue_step (s : queue) (ev : event) : queue :=
  match ev with
  | CallSend d msg =>
      match q_snd s, scif_nodeqp_send d msg with
      | None, SRing pc =>
          Queue (q_mem s) (q_out s) (Some (pc, msg)) (q_sent s) (q_rets s) (q_intr s)
            (q_in s) (q_rcv s) (q_state s) (q_handled s) (q_exited s)
      | _, _ => s
      end
  | StepSend =>
      match q_snd s with
      | None => s
      | Some (pc, msg) =>
          let '(m, q, r) := _scif_nodeqp_send (q_mem s) (q_out s) pc msg in
          match r with
          | inl pc' =>
              Queue m q (Some (pc', msg))
                (match pc' with NCommit => q_sent s ++ [msg] | _ => q_sent s end)
                (q_rets s) (q_intr s) (q_in s) (q_rcv s) (q_state s) (q_handled s) (q_exited s)
          | inr ret =>
              Queue m q None (q_sent s) (q_rets s ++ [(msg, ret)])
                (if ret =? 0 then true else q_intr s)
                (q_in s) (q_rcv s) (q_state s) (q_handled s) (q_exited s)
          end
      end
  | Interrupt =>
      match q_rcv s with
      | None =>
          if q_intr s then
            Queue (q_mem s) (q_out s) (q_snd s) (q_sent s) (q_rets s) false
              (q_in s) (Some HGet) (q_state s) (q_handled s) (q_exited s)
          else s
      | Some _ => s
      end
  | StepHandler =>
      match q_rcv s with
      | None => s
      | Some pc =>
          let '(m, q, h, r) := scif_nodeqp_intrhandler (q_mem s) (q_in s) (q_state s) pc in
          Queue m (q_out s) (q_snd s) (q_sent s) (q_rets s) (q_intr s) q
            (match r with inl pc => Some pc | inr _ => None end) h
            (match pc with HHandle msg => q_handled s ++ [msg] | _ => q_handled s end)
            (match r with inr true => true | _ => q_exited s end)
      end
  end.

Definition queue_steps (s : queue) (evs : list event) : queue := fold_left queue_step evs s.

(** A queue pair that has just been set up. *)
Definition new_queue (m : mem) (rb : scif_rb) (h : St) : queue :=
  Queue m rb None [] [] false rb None h [] false.

End Code.

(** ** Messages as bytes *)

Lemma msg_bytes_length m : zlen (msg_bytes m) = sizeof_scifmsg.
Proof. unfold zlen, msg_bytes. by rewrite pack_length. Qed.

Lemma sizeof_nonneg : 0 <= sizeof_scifmsg.
Proof. done. Qed.

Lemma msg_roundtrip m : msg_ok m → msg_of_bytes (msg_bytes m) = m.
Proof.
  intros Hm. unfold msg_of_bytes, msg_bytes. rewrite unpack_pack by done. by destruct m.
Qed.

(** ** The invariant *)

Definition all_bytes (l : list scifmsg) : list Z := concat (msg_bytes <$> l).

Lemma all_bytes_app l k : all_bytes (l ++ k) = all_bytes l ++ all_bytes k.
Proof. unfold all_bytes. by rewrite fmap_app, concat_app. Qed.

Lemma all_bytes_length l : zlen (all_bytes l) = sizeof_scifmsg * zlen l.
Proof.
  induction l as [|m l IH]; [done|]. unfold all_bytes in *. cbn [fmap list_fmap concat].
  rewrite zlen_app, zlen_cons, IH, msg_bytes_length. lia.
Qed.

Section Invariant.
Context `{CircBuf} (x100_card : bool).
Context {St : Type} (scif_intr_func : list (St → scifmsg → St * scifmsg)) (h0 : St).

Notation step := (queue_step x100_card scif_intr_func).
Notation steps := (queue_steps x100_card scif_intr_func).
Notation handler := (scif_nodeqp_msg_handler scif_intr_func).

(** Written but not published; read but not handled. *)
Definition unpublished (t : option (send_pc * scifmsg)) : list scifmsg :=
  match t with Some (NCommit, msg) => [msg] | _ => [] end.
Definition in_hand (r : option recv_pc) : list scifmsg :=
  match r with Some (HHandle msg) => [msg] | _ => [] end.
Definition notifying (t : option (send_pc * scifmsg)) : bool :=
  match t with Some (NIntr, _) => true | _ => false end.
(** The call under way has written its message. *)
Definition written (t : option (send_pc * scifmsg)) : list scifmsg :=
  match t with Some (NCommit, msg) | Some (NIntr, msg) => [msg] | _ => [] end.

Definition queue_inv (cap : Z) (s : queue) (ready : list scifmsg) : Prop :=
  ∃ held, rb_rep (q_mem s) (q_out s) (q_in s) (Spec.Queue cap held (all_bytes ready) (all_bytes (unpublished (q_snd s)))) ∧
  q_sent s = q_handled s ++ in_hand (q_rcv s) ++ ready ++ unpublished (q_snd s) ∧
  Forall msg_ok (q_sent s) ∧
  match q_snd s with Some (_, msg) => msg_ok msg | None => True end ∧
  q_state s = fold_left (λ h msg, (handler h msg).1) (q_handled s) h0 ∧
  (q_rcv s = None → ready ≠ [] → q_intr s = true ∨ notifying (q_snd s) = true ∨ q_exited s = true) ∧
  q_sent s = (filter (λ x, x.2 = 0) (q_rets s)).*1 ++ written (q_snd s) ∧
  Forall (λ x, x.2 = 0 ∨ x.2 = - ENODEV) (q_rets s).

Lemma call_inv cap s ready d msg : msg_ok msg → queue_inv cap s ready → queue_inv cap (step s (CallSend d msg)) ready.
Proof.
  intros Hm (held & Hrep & Hsent & Hok & Hcur & Hst & Hintr & Hret & Hrets). cbn [queue_step].
  destruct (q_snd s) as [[pc msg']|] eqn:Es; [by exists held; rewrite Es|].
  assert (∃ pc, (scif_nodeqp_send d msg = SRing pc ∧ pc = NWrite 0) ∨ ∀ pc, scif_nodeqp_send d msg ≠ SRing pc) as [pc Hpc].
  { exists (NWrite 0). unfold scif_nodeqp_send, _scif_nodeqp_start. repeat case_match; auto; right; congruence. }
  destruct (scif_nodeqp_send d msg) as [e| |pc'] eqn:Ed; [by exists held; rewrite Es|by exists held; rewrite Es|].
  destruct Hpc as [[[= ->] ->]|Hne]; [|by destruct (Hne pc')].
  exists held. cbn. by split_and!.
Qed.

Lemma send_inv cap s ready : queue_inv cap s ready → ∃ ready', queue_inv cap (step s StepSend) ready'.
Proof.
  intros (held & Hrep & Hsent & Hok & Hcur & Hst & Hintr & Hret & Hrets). cbn [queue_step].
  destruct (q_snd s) as [[pc msg]|] eqn:Es; [|by exists ready, held; rewrite Es].
  destruct pc as [cnt| |]; cbn [_scif_nodeqp_send].
  - destruct (scif_rb_write _ _ _ _) as [[err m'] q'] eqn:E.
    rewrite <- (msg_bytes_length msg) in E. destruct (write_refines _ _ _ _ _ _ _ _ Hrep E) as [-> Hrep'].
    unfold Spec.write in *. destruct (_ <? _); cbn [fst snd] in Hrep' |- *.
    + change (negb (- ENOMEM =? 0)) with true. cbn iota.
      destruct (_ <? cnt); exists ready, held; [|by split_and!].
      split_and!; try done; cbn [q_sent q_rets q_snd written].
      * rewrite filter_app, fmap_app. cbn. by rewrite !app_nil_r in *.
      * apply Forall_app. split; [done|]. apply Forall_singleton. auto.
    + cbn [unpublished written] in Hsent, Hret, Hrep'. rewrite !app_nil_r in Hsent, Hret.
      exists ready, held. split_and!; try done; cbn [q_sent q_rets q_snd written unpublished].
      * rewrite Hsent. by rewrite <- !app_assoc.
      * apply Forall_app. split; [done|]. by apply Forall_singleton.
      * by rewrite Hret.
  - exists (ready ++ [msg]). eexists. cbn. split_and!; try done.
    + apply (commit_refines x100_card) in Hrep. rewrite all_bytes_app. exact Hrep.
    + rewrite Hsent. cbn. by rewrite app_nil_r.
    + auto.
  - exists ready, held. cbn in *. split_and!; try done.
    + auto.
    + rewrite filter_app, fmap_app. cbn. by rewrite app_nil_r.
    + apply Forall_app. split; [done|]. apply Forall_singleton. auto.
Qed.

(** What a handler step leaves alone. *)
Definition same_sender (s s' : @queue St) : Prop :=
  q_out s' = q_out s ∧ q_snd s' = q_snd s ∧ q_sent s' = q_sent s ∧ q_rets s' = q_rets s ∧ q_intr s' = q_intr s.

Lemma handler_sender s : same_sender s (step s StepHandler).
Proof. cbn. destruct (q_rcv s) as [pc|]; [|done]. by destruct (scif_nodeqp_intrhandler _ _ _ _ _ _) as [[[m q] h] r]. Qed.

Lemma get_inv cap s ready : queue_inv cap s ready → q_rcv s = Some HGet →
  let s' := step s StepHandler in
  q_handled s' = q_handled s ∧ q_exited s' = q_exited s ∧
  match ready with
  | [] => q_rcv s' = None ∧ queue_inv cap s' []
  | msg :: ready => q_rcv s' = Some (HHandle msg) ∧ queue_inv cap s' ready
  end.
Proof.
  intros (held & Hrep & Hsent & Hok & Hcur & Hst & Hintr & Hret & Hrets) Er. rewrite Er in *. cbn [queue_step].
  rewrite Er. cbn [scif_nodeqp_intrhandler]. destruct (scif_rb_get_next _ _ _) as [[n bs] q'] eqn:E.
  destruct (get_next_refines _ _ _ _ _ _ _ _ Hrep sizeof_nonneg E) as [Hg Hrep'].
  unfold Spec.get_next in Hg, Hrep'. cbn [Spec.q_ready] in Hg, Hrep'. rewrite all_bytes_length in Hg, Hrep'.
  destruct ready as [|msg ready].
  - change (sizeof_scifmsg <=? sizeof_scifmsg * zlen []) with false in Hg, Hrep'. cbn [fst snd] in Hg, Hrep'.
    injection Hg as -> ->. split; [done|]. split; [done|]. split; [done|]. exists held. by split_and!.
  - assert (sizeof_scifmsg <=? sizeof_scifmsg * zlen (msg :: ready) = true) as Hle
      by (rewrite zlen_cons; pose proof (zlen_nonneg ready); unfold sizeof_scifmsg; lia).
    rewrite Hle in Hg, Hrep'. cbn [fst snd] in Hg, Hrep'. injection Hg as -> ->.
    change (sizeof_scifmsg =? 0) with false. cbn iota.
    assert (ztake sizeof_scifmsg (all_bytes (msg :: ready)) = msg_bytes msg ∧
            zdrop sizeof_scifmsg (all_bytes (msg :: ready)) = all_bytes ready) as [Et Ed].
    { unfold ztake, zdrop, all_bytes. cbn [fmap list_fmap concat].
      rewrite <- (msg_bytes_length msg). unfold zlen. rewrite Nat2Z.id. by rewrite take_app_length, drop_app_length. }
    assert (msg_ok msg) as Hm.
    { rewrite Forall_forall in Hok. apply Hok. rewrite Hsent. set_solver. }
    rewrite Et, msg_roundtrip by done. rewrite Ed in Hrep'. split; [done|]. split; [done|]. split; [done|].
    eexists. by split_and!.
Qed.

Lemma handle_inv cap s ready msg : queue_inv cap s ready → q_rcv s = Some (HHandle msg) →
  let s' := step s StepHandler in
  queue_inv cap s' ready ∧ q_handled s' = q_handled s ++ [msg] ∧
  (uop (handler (q_state s) msg).2 ≠ SCIF_EXIT_ACK → q_rcv s' = Some HUpdate ∧ q_exited s' = q_exited s).
Proof.
  intros (held & Hrep & Hsent & Hok & Hcur & Hst & Hintr & Hret & Hrets) Er. rewrite Er in *. cbn [queue_step].
  rewrite Er. cbn [scif_nodeqp_intrhandler]. destruct (handler (q_state s) msg) as [h msg'] eqn:Eh.
  assert (q_sent s = (q_handled s ++ [msg]) ++ ready ++ unpublished (q_snd s)) as Hsent'
    by (rewrite Hsent; by rewrite <- !app_assoc).
  assert (h = fold_left (λ h msg, (handler h msg).1) (q_handled s ++ [msg]) h0) as Hst'.
  { rewrite fold_left_app. cbn. by rewrite <- Hst, Eh. }
  cbn [snd]. destruct (Z.eqb_spec (uop msg') SCIF_EXIT_ACK); (split; [|done]); exists held; split_and!; try done. auto.
Qed.

Lemma update_inv cap s ready : queue_inv cap s ready → q_rcv s = Some HUpdate →
  let s' := step s StepHandler in
  queue_inv cap s' ready ∧ q_handled s' = q_handled s ∧ q_rcv s' = Some HGet ∧ q_exited s' = q_exited s.
Proof.
  intros (held & Hrep & Hsent & Hok & Hcur & Hst & Hintr & Hret & Hrets) Er. rewrite Er in *. cbn [queue_step].
  rewrite Er. cbn [scif_nodeqp_intrhandler]. split; [|done]. eexists. split_and!; try done.
  exact (update_read_ptr_refines x100_card _ _ _ _ Hrep).
Qed.

Lemma handler_inv cap s ready : queue_inv cap s ready → ∃ ready', queue_inv cap (step s StepHandler) ready'.
Proof.
  intros Hinv. destruct (q_rcv s) as [[|msg|]|] eqn:Er.
  - destruct (get_inv cap s ready Hinv Er) as (_ & _ & Hg). destruct ready; destruct Hg; eauto.
  - destruct (handle_inv cap s ready msg Hinv Er) as [Hh _]. eauto.
  - destruct (update_inv cap s ready Hinv Er) as [Hu _]. eauto.
  - exists ready. cbn. by rewrite Er.
Qed.

Lemma interrupt_inv cap s ready : queue_inv cap s ready → queue_inv cap (step s Interrupt) ready.
Proof.
  intros (held & Hrep & Hsent & Hok & Hcur & Hst & Hintr & Hret & Hrets). cbn [queue_step].
  destruct (q_rcv s) as [pc|] eqn:Er; [by exists held; rewrite Er|].
  destruct (q_intr s) eqn:Ei; exists held; [by split_and!|]. by rewrite Er, Ei; split_and!.
Qed.

Definition event_ok (ev : event) : Prop := match ev with CallSend _ msg => msg_ok msg | _ => True end.

Lemma steps_inv cap evs : ∀ s ready, Forall event_ok evs → queue_inv cap s ready →
  ∃ ready', queue_inv cap (steps s evs) ready'.
Proof.
  induction evs as [|ev evs IH]; intros s ready Hev Hinv; [eauto|].
  apply Forall_cons in Hev as [Hev Hevs].
  assert (∃ ready', queue_inv cap (step s ev) ready') as [r1 H1].
  { destruct ev; eauto using call_inv, send_inv, interrupt_inv, handler_inv. }
  by eapply IH.
Qed.

(** One handler run takes every published message, unless an exit acknowledgement ends it. *)
Lemma drain_queue cap ready : ∀ s, q_rcv s = Some HGet → queue_inv cap s ready →
  (∀ h msg, msg ∈ ready → uop (handler h msg).2 ≠ SCIF_EXIT_ACK) →
  let s' := steps s (replicate (3 * length ready + 1) StepHandler) in
  q_handled s' = q_handled s ++ ready ∧ q_rcv s' = None.
Proof.
  induction ready as [|msg ready IH]; intros s Er Hinv Hne.
  - destruct (get_inv cap s [] Hinv Er) as (Hh & _ & Hr & _). cbn [length Nat.mul Nat.add replicate fold_left queue_steps].
    by rewrite Hh, app_nil_r.
  - destruct (get_inv cap s (msg :: ready) Hinv Er) as (Hh & _ & Hr & H1).
    set (s1 := step s StepHandler) in *. destruct (handle_inv cap s1 ready msg H1 Hr) as (H2 & Hh2 & Hr2).
    destruct (Hr2 (Hne _ msg ltac:(by left))) as [Er2 _]. set (s2 := step s1 StepHandler) in *.
    destruct (update_inv cap s2 ready H2 Er2) as (H3 & Hh3 & Er3 & _). set (s3 := step s2 StepHandler) in *.
    replace (3 * length (msg :: ready) + 1)%nat with (3 + (3 * length ready + 1))%nat by (cbn; lia).
    rewrite replicate_add. unfold queue_steps. rewrite fold_left_app.
    change (fold_left step (replicate 3 StepHandler) s) with s3.
    destruct (IH s3 Er3 H3) as [Hf Hn]; [intros h m Hm; apply Hne; by right|].
    split; [|exact Hn]. unfold queue_steps in Hf. rewrite Hf, Hh3, Hh2, Hh. by rewrite <- app_assoc.
Qed.

End Invariant.

(** C18: node queue pairs carry messages in order, once and whole.  However the steps of
    sender, interrupts and handler interleave, the messages written to the ring are those
    handled, then the one in the handler's hands, then those in the ring; a call has
    returned 0 exactly for the messages written, and the receiving node is in the state
    its handlers give for the messages handled.  Nothing is left behind: when both sides
    are idle one interrupt makes the handler take every message, unless a message among
    them ends the handler. *)
Theorem nodeqp_fifo `{CircBuf} (x100_card : bool) {St} (scif_intr_func : list (St → scifmsg → St * scifmsg))
    h0 m rp wp base k evs :
  0 <= k <= 30 → 0 < base → rp ≠ wp → 0 <= rd_word m rp < 2 ^ k → rd_word m wp = rd_word m rp →
  Forall event_ok evs →
  let s := queue_steps x100_card scif_intr_func (new_queue m (scif_rb_init m rp wp base k) h0) evs in
  ∃ ready, q_sent s = q_handled s ++ in_hand (q_rcv s) ++ ready ++ unpublished (q_snd s) ∧
    sizeof_scifmsg * zlen (ready ++ unpublished (q_snd s)) <= 2 ^ k - 1 ∧
    q_sent s = (filter (λ x, x.2 = 0) (q_rets s)).*1 ++ written (q_snd s) ∧
    q_state s = fold_left (λ h msg, (scif_nodeqp_msg_handler scif_intr_func h msg).1) (q_handled s) h0 ∧
    (q_snd s = None → q_rcv s = None → q_exited s = false →
     (∀ h msg, msg ∈ ready → uop (scif_nodeqp_msg_handler scif_intr_func h msg).2 ≠ SCIF_EXIT_ACK) →
     q_handled (queue_steps x100_card scif_intr_func s
       (Interrupt :: replicate (3 * length ready + 1) StepHandler)) = q_sent s).
Proof.
  intros Hk Hb Hne HR HW Hevs s.
  assert (queue_inv scif_intr_func h0 (2 ^ k - 1) (new_queue m (scif_rb_init m rp wp base k) h0) []) as Hinit.
  { exists 0. split; [by apply init_rep|]. by split_and!. }
  destruct (steps_inv x100_card scif_intr_func h0 _ evs _ [] Hevs Hinit) as [ready Hinv]. fold s in Hinv.
  exists ready. pose proof Hinv as (held & Hrep & Hsent & _ & _ & Hst & Hintr & Hret & _).
  split_and!; try done.
  - rewrite <- all_bytes_length, all_bytes_app, zlen_app. destruct Hrep as [_ (k' & _ & Hring)].
    destruct Hring. unfold Spec.used in *. cbn in *. lia.
  - intros Es Er Ex Hx. rewrite Es, Er in Hsent. cbn in Hsent. rewrite app_nil_r in Hsent.
    assert (∀ l, queue_steps x100_card scif_intr_func s (Interrupt :: l) =
      queue_steps x100_card scif_intr_func (queue_step x100_card scif_intr_func s Interrupt) l) as -> by done.
    pose proof (interrupt_inv x100_card _ _ _ _ _ Hinv) as Hinv'.
    destruct (q_intr s) eqn:Ei.
    + destruct (drain_queue x100_card scif_intr_func h0 (2 ^ k - 1) ready (queue_step x100_card scif_intr_func s Interrupt)) as [Hd _]; try done.
      * cbn. by rewrite Er, Ei.
      * rewrite Hd, Hsent. f_equal. cbn. by rewrite Er, Ei.
    + destruct ready as [|msg ready].
      * cbn. rewrite Er, Ei. cbn. by rewrite Er, Hsent, app_nil_r.
      * destruct (Hintr Er ltac:(done)) as [Hn|[Hn|Hn]]; [done|by rewrite Es in Hn|congruence].
Qed.

(** ** Every send returns *)

Definition send_left (pc : send_pc) : Z :=
  match pc with NWrite c => NODEQP_DELAY_LOOPS + 4 - c | NCommit => 2 | NIntr => 1 end.

(** The counter stops at the limit. *)
Definition pc_ok (pc : send_pc) : Prop := match pc with NWrite c => c <= NODEQP_DELAY_LOOPS + 1 | _ => True end.

Definition is_send (ev : event) : bool := match ev with StepSend => true | _ => false end.
Definition send_steps (evs : list event) : Z := zlen (filter (λ ev, is_send ev = true) evs).

Section Returns.
Context `{CircBuf} (x100_card : bool) {St : Type} (scif_intr_func : list (St → scifmsg → St * scifmsg)).

Lemma other_keeps s ev t : q_snd s = Some t → is_send ev = false →
  let s' := queue_step x100_card scif_intr_func s ev in q_snd s' = Some t ∧ q_rets s' = q_rets s.
Proof.
  intros Es Hev. destruct ev; try done; cbn.
  - by rewrite Es.
  - destruct (q_rcv s); [done|]. by destruct (q_intr s).
  - destruct (q_rcv s); [|done]. by destruct (scif_nodeqp_intrhandler _ _ _ _ _ _) as [[[? ?] ?] ?].
Qed.

Lemma step_send_left s pc msg : q_snd s = Some (pc, msg) → pc_ok pc →
  let s' := queue_step x100_card scif_intr_func s StepSend in
  (∃ pc', q_snd s' = Some (pc', msg) ∧ q_rets s' = q_rets s ∧ pc_ok pc' ∧ send_left pc' < send_left pc) ∨
  ∃ ret, q_rets s' = q_rets s ++ [(msg, ret)] ∧ (ret = 0 ∨ ret = - ENODEV).
Proof.
  intros Es Hl. cbn [queue_step]. rewrite Es. destruct pc as [c| |]; cbn [_scif_nodeqp_send].
  - destruct (scif_rb_write _ _ _ _) as [[err m'] q']. cbn [send_left] in *.
    cbn [pc_ok] in Hl. destruct (negb (err =? 0)); [|left; eexists; split_and!; [done|done|done|cbn; lia]].
    destruct (Z.ltb_spec NODEQP_DELAY_LOOPS c); [right; eauto|].
    left. eexists. split_and!; [done|done|cbn [pc_ok]; lia|cbn [send_left]; lia].
  - left. eexists. split_and!; [done|done|done|cbn; lia].
  - right. eauto.
Qed.

Lemma rets_grow evs : ∀ s, ∃ l, q_rets (queue_steps x100_card scif_intr_func s evs) = q_rets s ++ l.
Proof.
  induction evs as [|ev evs IH]; intros s; [exists []; by rewrite app_nil_r|].
  destruct (IH (queue_step x100_card scif_intr_func s ev)) as [l Hl].
  assert (∃ l0, q_rets (queue_step x100_card scif_intr_func s ev) = q_rets s ++ l0) as [l0 Hl0].
  { destruct ev; cbn; repeat case_match; cbn; try (exists []; by rewrite app_nil_r); eauto. }
  exists (l0 ++ l). change (queue_steps x100_card scif_intr_func s (ev :: evs)) with
    (queue_steps x100_card scif_intr_func (queue_step x100_card scif_intr_func s ev) evs).
  by rewrite Hl, Hl0, app_assoc.
Qed.

Lemma send_ends evs : ∀ s pc msg, q_snd s = Some (pc, msg) → pc_ok pc →
  send_left pc <= send_steps evs →
  ∃ ret l, q_rets (queue_steps x100_card scif_intr_func s evs) = q_rets s ++ (msg, ret) :: l ∧
    (ret = 0 ∨ ret = - ENODEV).
Proof.
  induction evs as [|ev evs IH]; intros s pc msg Es Hok Hl.
  { change (send_steps []) with 0 in Hl. destruct pc; cbn [pc_ok send_left] in *; lia. }
  change (queue_steps x100_card scif_intr_func s (ev :: evs)) with
    (queue_steps x100_card scif_intr_func (queue_step x100_card scif_intr_func s ev) evs).
  unfold send_steps in Hl. destruct (is_send ev) eqn:Ev.
  - rewrite filter_cons_True, zlen_cons in Hl by done. destruct ev; try done.
    destruct (step_send_left s pc msg Es Hok) as [(pc' & Es' & Hr & Hok' & Hl')|(ret & Hr & Hret)].
    + rewrite <- Hr. apply (IH _ pc' msg Es' Hok'). unfold send_steps. lia.
    + destruct (rets_grow evs (queue_step x100_card scif_intr_func s StepSend)) as [l Hg].
      exists ret, l. split; [|done]. rewrite Hg, Hr. by rewrite <- app_assoc.
  - rewrite filter_cons_False in Hl by (by rewrite Ev). destruct (other_keeps s ev (pc, msg) Es Ev) as [Es' Hr].
    rewrite <- Hr. by apply (IH _ pc msg).
Qed.

End Returns.

(** A send to another node returns after at most 300004 of its steps, whatever the
    other node does in between: 0, or -ENODEV when the ring has stayed full. *)
Theorem nodeqp_send_returns `{CircBuf} (x100_card : bool) {St} (scif_intr_func : list (St → scifmsg → St * scifmsg))
    (s : queue) d msg evs :
  q_snd s = None → scif_nodeqp_send d msg = SRing (NWrite 0) → NODEQP_DELAY_LOOPS + 4 <= send_steps evs →
  ∃ ret l, q_rets (queue_steps x100_card scif_intr_func s (CallSend d msg :: evs)) = q_rets s ++ (msg, ret) :: l ∧
    (ret = 0 ∨ ret = - ENODEV).
Proof.
  intros Es Ed Hn. change (queue_steps x100_card scif_intr_func s (CallSend d msg :: evs)) with
    (queue_steps x100_card scif_intr_func (queue_step x100_card scif_intr_func s (CallSend d msg)) evs).
  destruct (send_ends x100_card scif_intr_func evs (queue_step x100_card scif_intr_func s (CallSend d msg)) (NWrite 0) msg)
    as (ret & l & Hr & Hret).
  - cbn [queue_step]. by rewrite Es, Ed.
  - cbn [pc_ok]. by vm_compute.
  - cbn [send_left]. lia.
  - exists ret, l. split; [|done]. rewrite Hr. f_equal. cbn [queue_step]. by rewrite Es, Ed.
Qed.

(** ** A ring with a message *)

Definition demo_msg : scifmsg := Msg 1 2000 0 30 SCIF_INIT 0x1000 2 3 4.
Definition demo_dev : scif_dev := Dev false true OP_IDLE true.
(** A node that counts the messages of each kind, with the [SCIF_INIT] handler. *)
Definition demo_table : list (Z → scifmsg → Z * scifmsg) := replicate 39 (λ h msg, (h + 1, msg)).
Definition demo_events : list event := [CallSend demo_dev demo_msg; StepSend; StepSend; StepSend].

Lemma demo_msg_ok : msg_ok demo_msg.
Proof.
  unfold msg_ok, msg_widths, msg_fields. do 9 (constructor; [vm_compute; split; congruence|]). constructor.
Qed.

Lemma nodeqp_fifo_witness :
  let s := @queue_steps linux_circ false _ demo_table
             (new_queue ScifRb.demo_mem (scif_rb_init ScifRb.demo_mem 8 16 4096 10) 0) demo_events in
  ∃ ready, q_sent s = q_handled s ++ in_hand (q_rcv s) ++ ready ++ unpublished (q_snd s) ∧ q_sent s = [demo_msg] ∧
    q_handled (@queue_steps linux_circ false _ demo_table s
      (Interrupt :: replicate (3 * length ready + 1) StepHandler)) = [demo_msg].
Proof.
  intros s. destruct (@nodeqp_fifo linux_circ false _ demo_table 0 ScifRb.demo_mem 8 16 4096 10 demo_events)
    as (ready & Hsent & _ & _ & _ & Hdrain).
  - lia.
  - lia.
  - lia.
  - vm_compute. split; congruence.
  - reflexivity.
  - apply Forall_cons. split; [exact demo_msg_ok|]. repeat constructor.
  - fold s in Hsent, Hdrain. assert (q_sent s = [demo_msg] ∧ q_snd s = None ∧ q_rcv s = None ∧ q_exited s = false) as (Es & E1 & E2 & E3)
      by (vm_compute; auto).
    exists ready. split; [exact Hsent|]. split; [exact Es|]. rewrite <- Es.
    apply (Hdrain E1 E2 E3). intros h msg Hm. assert (msg ∈ q_sent s) as Hin.
    { rewrite Hsent. apply elem_of_app. right. apply elem_of_app. right. apply elem_of_app. by left. }
    rewrite Es in Hin. apply list_elem_of_singleton in Hin as ->. by vm_compute.
Defined.

Lemma nodeqp_send_returns_witness :
  let s := new_queue ScifRb.demo_mem (scif_rb_init ScifRb.demo_mem 8 16 4096 10) 0 in
  ∃ ret l, q_rets (@queue_steps linux_circ false _ demo_table s
    (CallSend demo_dev demo_msg :: replicate (Z.to_nat (NODEQP_DELAY_LOOPS + 4)) StepSend)) = (demo_msg, ret) :: l.
Proof.
  intros s. destruct (@nodeqp_send_returns linux_circ false _ demo_table s demo_dev demo_msg
    (replicate (Z.to_nat (NODEQP_DELAY_LOOPS + 4)) StepSend)) as (ret & l & Hr & _).
  - reflexivity.
  - reflexivity.
  - unfold send_steps. rewrite filter_all by (by apply Forall_replicate).
    unfold zlen. rewrite length_replicate, Z2Nat.id; [lia|]. by vm_compute.
  - exists ret, l. exact Hr.
Defined.

End NodeQp.
