(* ===== verification/NodeNet.v ===== *)
(** * The network of nodes

    Models what the management node keeps of the other nodes: registration of peers in
    [scif_peer_bus.c] of [mpss4/mpss-modules/mic/scif], the list of nodes of
    [scif_get_node_ids] ([scif_api.c]), and the mappings between cards that
    [scif_nodeqp.c] sets up for each pair of cards and takes down with a card
    ([scif_init_p2p_info], [scif_node_connect], [scif_p2p_setup], [scif_destroy_p2p]).
    Each node has a table of the mappings made for it, so that what is mapped can be
    compared with what the lists say, and each entry of a list is memory at an address,
    so that the unlinking of an entry that has been freed shows. *)
From S2P Require Import Prelude RingSpec RingBuffer Ports Endpoint NodeQp.
Local Open Scope Z_scope.

Module NodeNet.
Import NodeQp.

Definition SCIF_NODE_ADD : Z := 4.

(** [struct scif_p2p_info] at address [ppi_addr]: the peer, and the addresses and lengths
    of its registers and of its memory as one card sees them. *)
Record scif_p2p_info := P2p {
  ppi_addr : positive; ppi_peer_id : Z; ppi_mmio_da : Z; ppi_mmio_len : Z; ppi_aper_da : Z; ppi_aper_len : Z;
}.

#[export] Instance scif_p2p_info_eq_dec : EqDecision scif_p2p_info.
Proof. solve_decision. Defined.

(** The windows of a card on the bus. *)
Record scif_hw := Hw { mmio_pa : Z; mmio_len : Z; aper_pa : Z; aper_len : Z }.

(** [alive]: the nodes whose [peer_dev] is set; [p2p]: the list of each node; [mapped]:
    the address and length of what is mapped for each node; [live]: the entries whose
    memory is allocated; [uaf]: how often an entry was unlinked after it was freed. *)
Record net := Net {
  maxid : Z; total : Z; alive : gset Z;
  p2p : gmap Z (list scif_p2p_info);
  mapped : gmap Z (list (Z * Z));
  sent : list (Z * scifmsg);
  live : gset positive; uaf : Z;
}.

Definition p2p_of (n : net) (i : Z) : list scif_p2p_info := default [] (p2p n !! i).
Definition mapped_of (n : net) (i : Z) : list (Z * Z) := default [] (mapped n !! i).
Definition set_p2p (n : net) (i : Z) (l : list scif_p2p_info) : net :=
  Net (maxid n) (total n) (alive n) (<[i := l]> (p2p n)) (mapped n) (sent n) (live n) (uaf n).
Definition set_mapped (n : net) (i : Z) (l : list (Z * Z)) : net :=
  Net (maxid n) (total n) (alive n) (p2p n) (<[i := l]> (mapped n)) (sent n) (live n) (uaf n).

Definition _scifdev_alive (n : net) (i : Z) : bool := bool_decide (i ∈ alive n).

(** ** Registration *)

(** [mem]: whether the device structure is allocated. *)
Definition scif_peer_register_device (mem : bool) (n : net) (i : Z) : net :=
  if negb mem then n
  else Net (Z.max i (maxid n)) (u8 (total n + 1)) ({[i]} ∪ alive n) (p2p n) (mapped n) (sent n) (live n) (uaf n).

Definition scif_peer_unregister_device (n : net) (i : Z) : Z * net :=
  if negb (_scifdev_alive n i) then (- ENODEV, n)
  else (0, Net (maxid n) (u8 (total n - 1)) (alive n ∖ {[i]}) (p2p n) (mapped n) (sent n) (live n) (uaf n)).

(** The loop of [scif_get_node_ids]: the nodes stored and the number online. *)
Fixpoint node_ids_loop (n : net) (nodes : list Z) (len : Z) (out : list Z) (online : Z) : list Z * Z :=
  match nodes with
  | [] => (out, online)
  | node :: nodes =>
      if _scifdev_alive n node
      then node_ids_loop n nodes len (if zlen out <? len then out ++ [node] else out) (online + 1)
      else node_ids_loop n nodes len out online
  end.

Definition scif_get_node_ids (n : net) (len : Z) : list Z * Z :=
  node_ids_loop n (Z.of_nat <$> seq 0 (Z.to_nat (maxid n + 1))) (Z.min len (total n)) [] 0.

(** ** Pairs of cards *)

(** What the calls outside give: memory for the structure and the addresses of the two
    mappings, 0 for one that fails. *)
Record map_result := MapResult { mr_mem : bool; mr_mmio : Z; mr_aper : Z }.

Definition map_peer_resource (n : net) (i da len : Z) : net := set_mapped n i ((da, len) :: mapped_of n i).

Fixpoint remove1 (x : Z * Z) (l : list (Z * Z)) : list (Z * Z) :=
  match l with
  | [] => []
  | y :: l => if bool_decide (y = x) then l else y :: remove1 x l
  end.
Definition unmap_peer_resource (n : net) (i da len : Z) : net :=
  set_mapped n i (remove1 (da, len) (mapped_of n i)).

(** [kzalloc] and [kfree] of an entry, and [list_del], which reads and writes the links
    in the entry's memory. *)
Definition p2p_alloc (n : net) : positive * net :=
  let a := fresh (live n) in
  (a, Net (maxid n) (total n) (alive n) (p2p n) (mapped n) (sent n) ({[a]} ∪ live n) (uaf n)).
Definition p2p_kfree (n : net) (a : positive) : net :=
  Net (maxid n) (total n) (alive n) (p2p n) (mapped n) (sent n) (live n ∖ {[a]}) (uaf n).
Definition p2p_list_del (n : net) (i : Z) (p : scif_p2p_info) : net :=
  let n := set_p2p n i (filter (λ q, q ≠ p) (p2p_of n i)) in
  Net (maxid n) (total n) (alive n) (p2p n) (mapped n) (sent n) (live n)
    (uaf n + if bool_decide (ppi_addr p ∈ live n) then 0 else 1).

Section Code.
Variable hw : Z → scif_hw.

Definition scif_init_p2p_info (r : map_result) (n : net) (i j : Z) : option scif_p2p_info * net :=
  if negb (mr_mem r) then (None, n)
  else
    let '(p2p, n) := p2p_alloc n in
    let mmio_dma := mr_mmio r in
    if mmio_dma =? 0 then (None, p2p_kfree n p2p)
    else
      let n := map_peer_resource n i mmio_dma (mmio_len (hw j)) in
      let aper_dma := mr_aper r in
      if aper_dma =? 0 then
        (None, p2p_kfree (unmap_peer_resource n i (mmio_pa (hw j)) (mmio_len (hw j))) p2p)
      else
        let n := map_peer_resource n i aper_dma (aper_len (hw j)) in
        (Some (P2p p2p j mmio_dma (mmio_len (hw j)) aper_dma (aper_len (hw j))), n).

Definition scif_deinit_p2p_info (n : net) (i : Z) (p : scif_p2p_info) : net :=
  let n := unmap_peer_resource n i (ppi_mmio_da p) (ppi_mmio_len p) in
  let n := unmap_peer_resource n i (ppi_aper_da p) (ppi_aper_len p) in
  p2p_kfree n (ppi_addr p).

(** What the outside gives to one call: both pairs of mappings and the two sends. *)
Record connect_env := Env { e_ij : map_result; e_ji : map_result; e_err_i : Z; e_err_j : Z }.

Definition scif_node_connect (e : connect_env) (n : net) (j i : Z) : net :=
  if (i <? 1) || (maxid n <? i) then n
  else if negb (_scifdev_alive n i) then n
  else if existsb (λ p, ppi_peer_id p =? j) (p2p_of n i) then n
  else
    match scif_init_p2p_info (e_ij e) n i j with
    | (None, n) => n
    | (Some p2p_ij, n) =>
        match scif_init_p2p_info (e_ji e) n j i with
        | (None, n) => scif_deinit_p2p_info n i p2p_ij
        | (Some p2p_ji, n) =>
            let n := set_p2p n i (p2p_of n i ++ [p2p_ij]) in
            let n := set_p2p n j (p2p_of n j ++ [p2p_ji]) in
            let send n dst msg := Net (maxid n) (total n) (alive n) (p2p n) (mapped n) (sent n ++ [(dst, msg)]) (live n) (uaf n) in
            if negb (e_err_i e =? 0) then n
            else
              let n := send n i (Msg j 0 i 0 SCIF_NODE_ADD (ppi_aper_da p2p_ji) (ppi_mmio_da p2p_ij)
                                   (ppi_aper_da p2p_ij) (ppi_aper_len p2p_ij)) in
              if negb (e_err_j e =? 0) then n
              else send n j (Msg i 0 j 0 SCIF_NODE_ADD (ppi_aper_da p2p_ij) (ppi_mmio_da p2p_ji)
                               (ppi_aper_da p2p_ji) (ppi_aper_len p2p_ji))
        end
    end.

Definition cards (n : net) : list Z := Z.of_nat <$> seq 1 (Z.to_nat (maxid n)).

(** [env i j] is what the outside gives when card [i] is connected to card [j]. *)
Definition scif_p2p_setup (p2p_enable : bool) (env : Z → Z → connect_env) (n : net) : net :=
  if negb p2p_enable then n
  else if negb (forallb (_scifdev_alive n) (cards n)) then n
  else
    fold_left (λ n i, fold_left (λ n j, if i =? j then n else scif_node_connect (env i j) n i j) (cards n) n)
      (cards n) n.

(** The body of both loops of [scif_destroy_p2p]: the entry is unlinked after it was
    freed. *)
Definition p2p_drop (n : net) (i : Z) (p : scif_p2p_info) : net :=
  p2p_list_del (scif_deinit_p2p_info n i p) i p.

Definition drop_where (P : scif_p2p_info → bool) (n : net) (i : Z) : net :=
  fold_left (λ n p, if P p then p2p_drop n i p else n) (p2p_of n i) n.

Definition drop_peer (n : net) (bd peer : Z) : net := drop_where (λ p, ppi_peer_id p =? peer) n bd.

Definition scif_destroy_p2p (n : net) (node : Z) : net :=
  let n := drop_where (λ _, true) n node in
  fold_left (λ n bd, drop_peer n bd node) (cards n) n.

End Code.

(** ** The invariant *)

Definition peers (n : net) (i : Z) : list Z := ppi_peer_id <$> p2p_of n i.

Definition info_maps (p : scif_p2p_info) : list (Z * Z) :=
  [(ppi_mmio_da p, ppi_mmio_len p); (ppi_aper_da p, ppi_aper_len p)].
Definition list_maps (l : list scif_p2p_info) : list (Z * Z) := concat (info_maps <$> l).

Section Inv.

(** Whether the mappings are accounted for: they are as long as no mapping of a card's
    memory has failed after its registers were mapped away from the bus address. *)
Variable exact : bool.

(** Every mapping made for a node is one of its list's. *)
Definition accounted (n : net) : Prop := exact = true → ∀ i, mapped_of n i ≡ₚ list_maps (p2p_of n i).

Record net_inv (n : net) : Prop := {
  ni_alive i : i ∈ alive n → 0 <= i <= maxid n;
  ni_sym i j : j ∈ peers n i → i ∈ peers n j;
  ni_nodup i : NoDup (peers n i);
  ni_range i j : j ∈ peers n i → 1 <= j <= maxid n ∧ j ≠ i;
  ni_mapped : accounted n;
}.

(** Nothing but mappings has changed. *)
Definition same_lists (n n' : net) : Prop :=
  maxid n' = maxid n ∧ total n' = total n ∧ alive n' = alive n ∧ p2p n' = p2p n ∧ sent n' = sent n ∧
  uaf n' = uaf n.

Definition same_nodes (n n' : net) : Prop := maxid n' = maxid n ∧ total n' = total n ∧ alive n' = alive n.

Lemma same_nodes_trans a b c : same_nodes a b → same_nodes b c → same_nodes a c.
Proof. unfold same_nodes. intuition congruence. Qed.

Lemma same_lists_nodes a b : same_lists a b → same_nodes a b.
Proof. by intros (? & ? & ? & _). Qed.

Lemma same_lists_trans a b c : same_lists a b → same_lists b c → same_lists a c.
Proof. unfold same_lists. intuition congruence. Qed.

Lemma p2p_of_set n i l k : p2p_of (set_p2p n i l) k = if decide (k = i) then l else p2p_of n k.
Proof.
  unfold p2p_of, set_p2p. cbn. destruct (decide (k = i)) as [-> |]; [by rewrite lookup_insert_eq|].
  by rewrite lookup_insert_ne.
Qed.

Lemma mapped_of_set n i l k : mapped_of (set_mapped n i l) k = if decide (k = i) then l else mapped_of n k.
Proof.
  unfold mapped_of, set_mapped. cbn. destruct (decide (k = i)) as [-> |]; [by rewrite lookup_insert_eq|].
  by rewrite lookup_insert_ne.
Qed.

Lemma remove1_perm x l k : l ≡ₚ x :: k → remove1 x l ≡ₚ k.
Proof.
  intros Hp. enough (l ≡ₚ x :: remove1 x l) as Hl.
  { apply (Permutation_cons_inv (a := x)). by rewrite <- Hl. }
  assert (x ∈ l) as Hx by (rewrite Hp; by left). clear Hp.
  induction l as [|y l IH]; [by apply elem_of_nil in Hx|]. cbn. case_bool_decide as Hy; [by subst|].
  apply elem_of_cons in Hx as [->|Hx]; [done|]. rewrite (IH Hx) at 1. by rewrite Permutation_swap.
Qed.

Lemma list_maps_app l k : list_maps (l ++ k) = list_maps l ++ list_maps k.
Proof. unfold list_maps. by rewrite fmap_app, concat_app. Qed.

(** ** Releasing mappings *)

Lemma deinit_spec n i p :
  let n' := scif_deinit_p2p_info n i p in
  same_lists n n' ∧ ppi_addr p ∉ live n' ∧ (∀ j, j ≠ i → mapped_of n' j = mapped_of n j) ∧
  ∀ k, mapped_of n i ≡ₚ info_maps p ++ k → mapped_of n' i ≡ₚ k.
Proof.
  unfold scif_deinit_p2p_info, unmap_peer_resource, p2p_kfree. split_and!; [done|cbn; set_solver|..].
  - intros j Hj. change (mapped_of (Net ?a ?b ?c ?d ?e ?f ?g ?h) j) with (mapped_of (Net a b c d e f (live n) h) j).
    unfold mapped_of, set_mapped. cbn. by rewrite !lookup_insert_ne by done.
  - intros k Hm. unfold mapped_of, set_mapped. cbn. rewrite !lookup_insert_eq. cbn.
    apply remove1_perm. by apply remove1_perm.
Qed.

Lemma same_p2p n n' i : same_lists n n' → p2p_of n' i = p2p_of n i.
Proof. unfold p2p_of. by intros (_ & _ & _ & -> & _). Qed.

Lemma maps_cons p l : list_maps (p :: l) = info_maps p ++ list_maps l.
Proof. done. Qed.

Global Instance list_maps_perm : Proper ((≡ₚ) ==> (≡ₚ)) list_maps.
Proof.
  intros l k Hp. induction Hp as [|p l k _ IH|p q l|? ? ? _ IH1 _ IH2]; rewrite ?maps_cons.
  - done.
  - by rewrite IH.
  - apply Permutation_app_swap_app.
  - by rewrite IH1.
Qed.

Lemma filter_ne_perm (p : scif_p2p_info) l : NoDup l → p ∈ l → l ≡ₚ p :: filter (λ q, q ≠ p) l.
Proof.
  intros Hnd Hp. apply list_elem_of_split in Hp as (l1 & l2 & ->).
  apply NoDup_app in Hnd as (_ & H1 & (H2 & _)%NoDup_cons).
  rewrite filter_app, filter_cons_False by tauto.
  rewrite !filter_all; [by rewrite Permutation_middle| |].
  - apply Forall_forall. by intros q Hq ->.
  - apply Forall_forall. intros q Hq ->. apply (H1 _ Hq). by left.
Qed.

Lemma drop_spec n i p : NoDup (p2p_of n i) → p ∈ p2p_of n i → accounted n →
  let n' := p2p_drop n i p in
  same_nodes n n' ∧ accounted n' ∧ uaf n' = uaf n + 1 ∧
  ∀ k, p2p_of n' k = if decide (k = i) then filter (λ q, q ≠ p) (p2p_of n k) else p2p_of n k.
Proof.
  intros Hnd Hp Hacc n'. destruct (deinit_spec n i p) as (Hs & Hlive & Ho & Hm).
  assert (∀ k, p2p_of n' k = if decide (k = i) then filter (λ q, q ≠ p) (p2p_of n k) else p2p_of n k) as Hl.
  { intros k. change (p2p_of n' k) with
      (p2p_of (set_p2p (scif_deinit_p2p_info n i p) i (filter (λ q, q ≠ p) (p2p_of (scif_deinit_p2p_info n i p) i))) k).
    rewrite p2p_of_set, !(same_p2p _ _ _ Hs). destruct (decide (k = i)); by subst. }
  split_and!; [by apply same_lists_nodes in Hs| | |done].
  - intros Hex k. change (mapped_of n' k) with (mapped_of (scif_deinit_p2p_info n i p) k). rewrite Hl.
    destruct (decide (k = i)) as [-> |Hne]; [|rewrite Ho by done; by apply Hacc].
    apply Hm. rewrite (Hacc Hex i), (filter_ne_perm p (p2p_of n i) Hnd Hp) at 1. done.
  - unfold n', p2p_drop, p2p_list_del. cbn [uaf]. destruct Hs as (_ & _ & _ & _ & _ & Eu). cbn [set_p2p uaf live].
    rewrite bool_decide_false by done. by rewrite Eu.
Qed.

(** A loop over entries of a list that drops those [P] selects. *)
Lemma drop_loop (P : scif_p2p_info → bool) i l : ∀ n,
  NoDup (p2p_of n i) → NoDup l → l ⊆ p2p_of n i → accounted n →
  let n' := fold_left (λ n p, if P p then p2p_drop n i p else n) l n in
  same_nodes n n' ∧ accounted n' ∧ uaf n' = uaf n + zlen (filter (λ p, P p = true) l) ∧
  ∀ k, p2p_of n' k =
    if decide (k = i) then filter (λ q, ¬ (q ∈ l ∧ P q = true)) (p2p_of n k) else p2p_of n k.
Proof.
  induction l as [|p l IH]; intros n Hnd Hndl Hsub Hacc; cbn [fold_left].
  { split_and!; [done|done|change (zlen (filter _ [])) with 0; lia|]. intros k. destruct (decide _); [|done].
    rewrite filter_all; [done|]. apply Forall_forall. by intros q _ [Hq%elem_of_nil _]. }
  apply NoDup_cons in Hndl as [Hpl Hndl].
  destruct (P p) eqn:HP.
  - destruct (drop_spec n i p Hnd ltac:(apply Hsub; by left) Hacc) as (Hs & Hacc1 & Hu & Hl).
    specialize (Hl i) as Hi. destruct (decide (i = i)) in Hi; [|done].
    destruct (IH (p2p_drop n i p)) as (Hs' & Hacc2 & Hu' & Hl'); [rewrite Hi; by apply NoDup_filter|done| |done|].
    { rewrite Hi. intros q Hq. apply list_elem_of_filter. split; [by intros ->|]. apply Hsub. by right. }
    split_and!; [by eapply same_nodes_trans|done| |].
    + rewrite Hu', Hu, filter_cons_True by done. rewrite zlen_cons. lia.
    + intros k. rewrite Hl', Hl. destruct (decide (k = i)); [|done]. rewrite list_filter_filter.
      apply list_filter_iff. intros q. rewrite elem_of_cons. naive_solver.
  - destruct (IH n Hnd Hndl ltac:(set_solver) Hacc) as (Hs' & Hacc2 & Hu' & Hl').
    split_and!; [done|done|by rewrite filter_cons_False by (by rewrite HP)|].
    intros k. rewrite Hl'. destruct (decide (k = i)); [|done].
    apply list_filter_iff. intros q. rewrite elem_of_cons. clear -HP.
    split; intros Hn [Hq HPq]; apply Hn; [|tauto]. destruct Hq as [-> |]; [congruence|done].
Qed.

Lemma drop_where_spec P n i : NoDup (p2p_of n i) → accounted n →
  let n' := drop_where P n i in
  same_nodes n n' ∧ accounted n' ∧ uaf n' = uaf n + zlen (filter (λ p, P p = true) (p2p_of n i)) ∧
  ∀ k, p2p_of n' k = if decide (k = i) then filter (λ q, P q ≠ true) (p2p_of n k) else p2p_of n k.
Proof.
  intros Hnd Hacc. destruct (drop_loop P i (p2p_of n i) n Hnd Hnd ltac:(done) Hacc) as (Hs & Ha & Hu & Hl).
  split_and!; [done..|]. intros k. unfold drop_where. rewrite Hl. destruct (decide (k = i)) as [-> |]; [|done].
  assert (∀ l k : list scif_p2p_info, l ⊆ k → filter (λ q, ¬ (q ∈ k ∧ P q = true)) l = filter (λ q, P q ≠ true) l) as Hf; [|by apply Hf].
  clear. intros l k. induction l as [|q l IH]; intros Hsub; [done|].
  assert (q ∈ k) as Hq by (apply Hsub; by left). assert (l ⊆ k) as Hl by (etrans; [|exact Hsub]; by apply list_subseteq_cons).
  destruct (decide (P q = true)) as [HP|HP].
  - rewrite filter_cons_False by tauto. rewrite filter_cons_False by tauto. by apply IH.
  - rewrite filter_cons_True by tauto. rewrite filter_cons_True by done. f_equal. by apply IH.
Qed.

(** The entries of a node's list for [peer]. *)
Definition for_peer (n : net) (peer k : Z) : list scif_p2p_info :=
  filter (λ p, ppi_peer_id p = peer) (p2p_of n k).

Lemma drop_peer_spec n bd peer : NoDup (p2p_of n bd) → accounted n →
  let n' := drop_peer n bd peer in
  same_nodes n n' ∧ accounted n' ∧ uaf n' = uaf n + zlen (for_peer n peer bd) ∧
  ∀ k, p2p_of n' k = if decide (k = bd) then filter (λ p, ppi_peer_id p ≠ peer) (p2p_of n k) else p2p_of n k.
Proof.
  intros Hnd Hacc. destruct (drop_where_spec (λ p, ppi_peer_id p =? peer) n bd Hnd Hacc) as (Hs & Ha & Hu & Hl).
  split_and!; [done..| |].
  - unfold drop_peer, for_peer. rewrite Hu. do 2 f_equal. apply list_filter_iff. intros. apply Z.eqb_eq.
  - intros k. unfold drop_peer. rewrite Hl. destruct (decide _); [|done]. apply list_filter_iff. intros p.
    by rewrite Z.eqb_eq.
Qed.

Lemma drop_peers_spec peer l : ∀ n, (∀ k, NoDup (p2p_of n k)) → NoDup l → accounted n →
  let n' := fold_left (λ n bd, drop_peer n bd peer) l n in
  same_nodes n n' ∧ accounted n' ∧
  uaf n' = uaf n + Z.of_nat (sum_list_with (λ k, length (for_peer n peer k)) l) ∧
  ∀ k, p2p_of n' k = if decide (k ∈ l) then filter (λ p, ppi_peer_id p ≠ peer) (p2p_of n k) else p2p_of n k.
Proof.
  induction l as [|bd l IH]; intros n Hnd Hndl Hacc; cbn [fold_left sum_list_with].
  { split_and!; try done. lia. }
  apply NoDup_cons in Hndl as [Hbd Hndl].
  destruct (drop_peer_spec n bd peer (Hnd bd) Hacc) as (Hn1 & Hacc1 & Hu1 & Hp1).
  destruct (IH (drop_peer n bd peer)) as (Hn2 & Hacc2 & Hu2 & Hp2); [|done|done|].
  { intros k. rewrite Hp1. destruct (decide _); [by apply NoDup_filter|done]. }
  split_and!; [by eapply same_nodes_trans|done| |].
  - rewrite Hu2, Hu1. unfold zlen.
    assert (sum_list_with (λ k, length (for_peer (drop_peer n bd peer) peer k)) l =
            sum_list_with (λ k, length (for_peer n peer k)) l) as ->; [|lia].
    clear -Hbd Hp1. induction l as [|k l IH]; [done|]. apply not_elem_of_cons in Hbd as [Hk Hbd]. cbn. rewrite IH by done.
    do 2 f_equal. unfold for_peer. rewrite Hp1. by destruct (decide (k = bd)).
  - intros k. rewrite Hp2, Hp1.
    assert (k ∈ bd :: l ↔ k = bd ∨ k ∈ l) as Hin by apply elem_of_cons.
    destruct (decide (k ∈ l)) as [Hk|Hk], (decide (k = bd)) as [Hb|Hb], (decide (k ∈ bd :: l)) as [Hkl|Hkl]; try done; try tauto.
    rewrite list_filter_filter. apply list_filter_iff. tauto.
Qed.

Lemma elem_of_cards n k : k ∈ cards n ↔ 1 <= k <= maxid n.
Proof.
  unfold cards. rewrite list_elem_of_fmap. setoid_rewrite elem_of_seq. split.
  - intros (x & -> & Hx). lia.
  - intros Hk. exists (Z.to_nat k). lia.
Qed.

Lemma cards_nodup n : NoDup (cards n).
Proof. apply NoDup_fmap_2; [apply _|apply NoDup_seq]. Qed.

Lemma p2p_nodup n k : NoDup (peers n k) → NoDup (p2p_of n k).
Proof. apply NoDup_fmap_1. Qed.

Lemma for_peer_length n peer k : NoDup (peers n k) →
  length (for_peer n peer k) = if bool_decide (peer ∈ peers n k) then 1%nat else 0%nat.
Proof.
  unfold for_peer, peers. induction (p2p_of n k) as [|p l IH]; intros Hnd; [done|].
  cbn [fmap list_fmap] in *. apply NoDup_cons in Hnd as [Hp Hnd]. specialize (IH Hnd).
  destruct (decide (ppi_peer_id p = peer)) as [Hpe|Hpe].
  - rewrite filter_cons_True by done. cbn [length]. rewrite IH, Hpe in *.
    rewrite (bool_decide_false _ Hp), bool_decide_true by (by left). done.
  - rewrite filter_cons_False by done. rewrite IH.
    assert (peer ∈ ppi_peer_id p :: (ppi_peer_id <$> l) ↔ peer ∈ ppi_peer_id <$> l) as E
      by (rewrite elem_of_cons; split; [by intros [H|H]|auto]).
    by rewrite (bool_decide_ext _ _ E).
Qed.

(** The lists of all cards together name a card as often as its own list has entries. *)
Lemma for_peer_sum n node : net_inv n →
  sum_list_with (λ k, length (for_peer n node k)) (cards n) = length (p2p_of n node).
Proof.
  intros [_ Hsym Hnd Hrange _].
  transitivity (length (filter (λ k, node ∈ peers n k) (cards n))).
  - induction (cards n) as [|k l IH]; [done|]. cbn [sum_list_with]. rewrite for_peer_length, IH by done.
    case_bool_decide; [by rewrite filter_cons_True|by rewrite filter_cons_False].
  - rewrite <- (length_fmap ppi_peer_id (p2p_of n node)). apply Permutation_length, NoDup_Permutation.
    + apply NoDup_filter, cards_nodup.
    + apply Hnd.
    + intros k. rewrite list_elem_of_filter, elem_of_cards. split; [intros [H _]; by apply Hsym|].
      intros Hk. split; [by apply Hsym|]. by apply (Hrange node).
Qed.

Lemma destroy_spec n node : net_inv n →
  let n' := scif_destroy_p2p n node in
  accounted n' ∧ same_nodes n n' ∧ uaf n' = uaf n + 2 * zlen (p2p_of n node) ∧
  ∀ k, p2p_of n' k = if decide (k = node) then [] else filter (λ p, ppi_peer_id p ≠ node) (p2p_of n k).
Proof.
  intros Hinv n'. pose proof (for_peer_sum n node Hinv) as Hsum. destruct Hinv as [_ Hsym Hnd Hrange Hacc].
  unfold n', scif_destroy_p2p.
  destruct (drop_where_spec (λ _, true) n node (p2p_nodup _ _ (Hnd node)) Hacc) as (Hs & Ha & Hu & Hl).
  set (n1 := drop_where _ n node) in *. rewrite filter_all in Hu by (by apply Forall_forall).
  assert (∀ k, p2p_of n1 k = if decide (k = node) then [] else p2p_of n k) as Hl1.
  { intros k. rewrite Hl. destruct (decide _); [|done]. apply filter_none, Forall_forall. by intros ? _ []. }
  assert (∀ k, NoDup (p2p_of n1 k)) as Hnd1.
  { intros k. rewrite Hl1. destruct (decide _); [constructor|apply p2p_nodup, Hnd]. }
  destruct (drop_peers_spec node (cards n1) n1 Hnd1 (cards_nodup n1) Ha) as (Hn2 & Hacc2 & Hu2 & Hp2).
  assert (cards n1 = cards n) as Ec by (unfold cards; by rewrite (proj1 Hs)).
  split_and!; [done|by eapply same_nodes_trans| |].
  - assert (∀ k, length (for_peer n1 node k) = length (for_peer n node k)) as Hfp.
    { intros k. unfold for_peer. rewrite Hl1. destruct (decide (k = node)) as [-> |]; [|done]. symmetry.
      rewrite filter_none; [done|]. apply Forall_forall. intros p Hp Hpe.
      destruct (Hrange node node) as [_ []]; [|done]. apply list_elem_of_fmap. by exists p. }
    assert (∀ l, sum_list_with (λ k, length (for_peer n1 node k)) l =
                 sum_list_with (λ k, length (for_peer n node k)) l) as Hs1.
    { induction l as [|k l IH]; [done|]. cbn. by rewrite IH, Hfp. }
    rewrite Hu2, Hu, Ec, Hs1, Hsum. unfold zlen. lia.
  - intros k. rewrite Hp2, Hl1. destruct (decide (k = node)) as [-> |Hne]; [by destruct (decide (_ ∈ _))|].
    destruct (decide _) as [|Hk]; [done|]. rewrite Ec, elem_of_cards in Hk.
    destruct (p2p_of n k) as [|p l] eqn:Ek; [done|]. exfalso. apply Hk.
    assert (ppi_peer_id p ∈ peers n k) as Hp by (unfold peers; rewrite Ek; by left).
    by apply (Hrange (ppi_peer_id p)), Hsym.
Qed.

Lemma peers_filter n n' k node : p2p_of n' k = filter (λ p, ppi_peer_id p ≠ node) (p2p_of n k) →
  peers n' k = filter (λ x, x ≠ node) (peers n k).
Proof.
  unfold peers. intros ->. induction (p2p_of n k) as [|p l IH]; [done|]. cbn [fmap list_fmap].
  destruct (decide (ppi_peer_id p = node)).
  - by rewrite !filter_cons_False, IH by tauto.
  - rewrite !filter_cons_True by done. cbn. by rewrite IH.
Qed.

Lemma destroy_inv n node : net_inv n →
  net_inv (scif_destroy_p2p n node) ∧ peers (scif_destroy_p2p n node) node = [] ∧
  (exact = true → mapped_of (scif_destroy_p2p n node) node = []) ∧ ∀ k, node ∉ peers (scif_destroy_p2p n node) k.
Proof.
  intros Hinv. destruct (destroy_spec n node Hinv) as (Hacc & (Hm & _ & Ha) & _ & Hp). destruct Hinv as [Hal Hsym Hnd Hrange _].
  set (n' := scif_destroy_p2p n node) in *.
  assert (peers n' node = []) as Hnode by (unfold peers; rewrite Hp; by destruct (decide (node = node))).
  assert (∀ k, k ≠ node → peers n' k = filter (λ x, x ≠ node) (peers n k)) as Hother.
  { intros k Hk. apply peers_filter. rewrite Hp. by destruct (decide (k = node)). }
  assert (∀ i j, j ∈ peers n' i ↔ j ∈ peers n i ∧ i ≠ node ∧ j ≠ node) as Hin.
  { intros i j. destruct (decide (i = node)) as [-> |Hi]; [rewrite Hnode, elem_of_nil; tauto|].
    rewrite Hother, list_elem_of_filter by done. tauto. }
  split_and!.
  - split; [rewrite Ha, Hm; done|setoid_rewrite Hin; naive_solver| |rewrite Hm; setoid_rewrite Hin; naive_solver|done].
    intros i. destruct (decide (i = node)) as [-> |Hi]; [rewrite Hnode; constructor|].
    rewrite Hother by done. by apply NoDup_filter.
  - done.
  - intros Hex. specialize (Hacc Hex node). unfold peers in Hnode. apply fmap_nil_inv in Hnode. rewrite Hnode in Hacc.
    by apply Permutation_nil_r in Hacc.
  - intros k. rewrite Hin. tauto.
Qed.

(** ** Connecting a pair *)

Section Connect.
Context (hw : Z → scif_hw).

(** When the memory of a card cannot be mapped, its registers have been mapped at the
    address they have on the bus. *)
Definition result_ok (r : map_result) (j : Z) : Prop :=
  mr_mmio r ≠ 0 → mr_aper r = 0 → mr_mmio r = mmio_pa (hw j).

Lemma init_spec r n i j res n' : (exact = true → result_ok r j) → scif_init_p2p_info hw r n i j = (res, n') →
  same_lists n n' ∧ (exact = true → mapped_of n' i ≡ₚ from_option info_maps [] res ++ mapped_of n i) ∧
  (∀ k, k ≠ i → mapped_of n' k = mapped_of n k) ∧ ∀ p, res = Some p → ppi_peer_id p = j.
Proof.
  intros Hr. unfold scif_init_p2p_info, p2p_alloc, p2p_kfree, map_peer_resource, unmap_peer_resource, mapped_of, set_mapped.
  destruct (negb (mr_mem r)); [by intros [= <- <-]|]. cbn.
  destruct (Z.eqb_spec (mr_mmio r) 0) as [|H1]; [by intros [= <- <-]|].
  destruct (Z.eqb_spec (mr_aper r) 0) as [H2|H2]; intros [= <- <-]; cbn; (split; [done|]); rewrite !lookup_insert_eq; cbn.
  - split; [|split; [|done]].
    + intros Hex. by rewrite (Hr Hex H1 H2), bool_decide_true.
    + intros k Hk. by rewrite !lookup_insert_ne.
  - split; [intros _; apply Permutation_swap|]. split; [|by intros p [= <-]].
    intros k Hk. by rewrite !lookup_insert_ne.
Qed.

Definition env_ok (e : connect_env) (j i : Z) : Prop :=
  exact = true → result_ok (e_ij e) j ∧ result_ok (e_ji e) i.

Lemma not_listed n i j : existsb (λ p, ppi_peer_id p =? j) (p2p_of n i) = false → j ∉ peers n i.
Proof.
  unfold peers. induction (p2p_of n i) as [|p l IH]; cbn [fmap list_fmap existsb]; [intros _ Hj; by apply elem_of_nil in Hj|].
  rewrite orb_false_iff, elem_of_cons. intros [Hp Hl] [->|Hin]; [by rewrite Z.eqb_refl in Hp|by apply IH].
Qed.

(** A pair of entries added to the lists. *)
Lemma add_pair n n' i j p q : net_inv n → i ≠ j → 1 <= i <= maxid n → 1 <= j <= maxid n →
  j ∉ peers n i → ppi_peer_id p = j → ppi_peer_id q = i →
  maxid n' = maxid n → alive n' = alive n →
  (∀ k, p2p_of n' k = if decide (k = j) then p2p_of n j ++ [q] else if decide (k = i) then p2p_of n i ++ [p] else p2p_of n k) →
  (exact = true → ∀ k, mapped_of n' k ≡ₚ (if decide (k = j) then info_maps q else if decide (k = i) then info_maps p else []) ++ mapped_of n k) →
  net_inv n'.
Proof.
  intros [Hal Hsym Hnd Hrange Hacc] Hij Hi Hj Hnew Hp Hq Hm Ha Hl Hmap.
  assert (i ∉ peers n j) as Hnew' by (intros Hin; by apply Hnew, Hsym).
  assert (∀ k, peers n' k = if decide (k = j) then peers n j ++ [i] else if decide (k = i) then peers n i ++ [j] else peers n k) as Hpe.
  { intros k. unfold peers. rewrite Hl. destruct (decide (k = j)); [by rewrite fmap_app; cbn; rewrite Hq|].
    destruct (decide (k = i)); [by rewrite fmap_app; cbn; rewrite Hp|done]. }
  assert (∀ a b, b ∈ peers n' a ↔ b ∈ peers n a ∨ (a = i ∧ b = j) ∨ (a = j ∧ b = i)) as Hin.
  { intros a b. rewrite Hpe. destruct (decide (a = j)) as [-> |]; [|destruct (decide (a = i)) as [-> |]];
      rewrite ?elem_of_app, ?list_elem_of_singleton; naive_solver. }
  split; [by rewrite Ha, Hm| | | |].
  - intros a b. rewrite !Hin. naive_solver.
  - assert (∀ k x, x ∉ peers n k → NoDup (peers n k ++ [x])) as Hsnoc.
    { intros k x Hx. apply NoDup_app. split; [done|]. split; [|apply NoDup_singleton].
      intros y Hy ->%list_elem_of_singleton. done. }
    intros k. rewrite Hpe. destruct (decide (k = j)) as [-> |]; [by apply Hsnoc|].
    destruct (decide (k = i)) as [-> |]; [by apply Hsnoc|apply Hnd].
  - intros a b. rewrite Hin, Hm. intros [Hb|[[-> ->]|[-> ->]]]; [by apply Hrange|lia|lia].
  - intros Hex. assert (∀ k r, info_maps r ++ mapped_of n k ≡ₚ list_maps (p2p_of n k ++ [r])) as Hsnoc.
    { intros k r. rewrite list_maps_app, (Hacc Hex k). unfold list_maps at 3. cbn [fmap list_fmap concat].
      rewrite app_nil_r. apply Permutation_app_comm. }
    intros k. rewrite (Hmap Hex), Hl. destruct (decide (k = j)) as [-> |]; [apply Hsnoc|].
    destruct (decide (k = i)) as [-> |]; [apply Hsnoc|by apply Hacc].
Qed.

(** The network keeps its invariant, its nodes and its pairs. *)
Definition grown (n n' : net) : Prop :=
  net_inv n' ∧ maxid n' = maxid n ∧ alive n' = alive n ∧ total n' = total n ∧ uaf n' = uaf n ∧ ∀ k, peers n k ⊆ peers n' k.

Lemma grown_refl n : net_inv n → grown n n.
Proof. done. Qed.

Lemma grown_trans a b c : grown a b → grown b c → grown a c.
Proof.
  intros (_ & Em & Ea & Et & Eu & Hp) (Hi & Em' & Ea' & Et' & Eu' & Hp'). split_and!; try congruence.
  intros k. etrans; [apply Hp|apply Hp'].
Qed.

Lemma grown_same n n' : net_inv n → same_lists n n' → (exact = true → ∀ k, mapped_of n' k ≡ₚ mapped_of n k) → grown n n'.
Proof.
  intros [Hal Hsym Hnd Hrange Hacc] Hs Hmap.
  assert (∀ k, p2p_of n' k = p2p_of n k) as Hl by (intros; by apply same_p2p).
  assert (∀ k, peers n' k = peers n k) as Hpe by (intros; unfold peers; by rewrite Hl).
  destruct Hs as (Em & Et & Ea & _ & _ & Eu). split_and!; try done; [|intros k; by rewrite Hpe]. split.
  - by rewrite Ea, Em.
  - intros a b. rewrite !Hpe. apply Hsym.
  - intros k. by rewrite Hpe.
  - intros a b. rewrite Hpe, Em. apply Hrange.
  - intros Hex k. rewrite (Hmap Hex), Hl. by apply Hacc.
Qed.

(** Both halves of a pair have been mapped: [n2] with the two lists extended. *)
Lemma grown_pair n n1 n2 n' i j p q : net_inv n → i ≠ j → 1 <= i <= maxid n → 1 <= j <= maxid n →
  j ∉ peers n i → ppi_peer_id p = j → ppi_peer_id q = i →
  same_lists n n1 → same_lists n1 n2 →
  (exact = true → mapped_of n1 i ≡ₚ info_maps p ++ mapped_of n i) → (∀ k, k ≠ i → mapped_of n1 k = mapped_of n k) →
  (exact = true → mapped_of n2 j ≡ₚ info_maps q ++ mapped_of n1 j) → (∀ k, k ≠ j → mapped_of n2 k = mapped_of n1 k) →
  maxid n' = maxid n2 → alive n' = alive n2 → total n' = total n2 → mapped n' = mapped n2 → uaf n' = uaf n2 →
  p2p n' = p2p (set_p2p (set_p2p n2 i (p2p_of n2 i ++ [p])) j (p2p_of (set_p2p n2 i (p2p_of n2 i ++ [p])) j ++ [q])) →
  grown n n' ∧ j ∈ peers n' i.
Proof.
  intros Hinv Hij Hi Hj Hnew Hp Hq Hs1 Hs2 Hm1 Ho1 Hm2 Ho2 Em Ea Et Emap Eu Ep.
  pose proof (same_lists_trans _ _ _ Hs1 Hs2) as Hs. pose proof Hs as (Sm & St & Sa & _ & _ & Su).
  assert (∀ k, p2p_of n' k = if decide (k = j) then p2p_of n j ++ [q] else if decide (k = i) then p2p_of n i ++ [p] else p2p_of n k) as Hl.
  { intros k. unfold p2p_of at 1. rewrite Ep. fold (p2p_of (set_p2p (set_p2p n2 i (p2p_of n2 i ++ [p])) j (p2p_of (set_p2p n2 i (p2p_of n2 i ++ [p])) j ++ [q])) k).
    rewrite !p2p_of_set, !(same_p2p n n2 _ Hs). destruct (decide (k = j)) as [-> |]; [|done]. by destruct (decide (j = i)). }
  split; [split_and!; try congruence|].
  - apply (add_pair n n' i j p q); try done; try congruence.
    intros Hex k. unfold mapped_of at 1. rewrite Emap. fold (mapped_of n2 k).
    destruct (decide (k = j)) as [-> |]; [rewrite (Hm2 Hex), Ho1; done|]. rewrite Ho2 by done.
    destruct (decide (k = i)) as [-> |]; [by apply Hm1|]. by rewrite Ho1.
  - intros k x. unfold peers. rewrite Hl. destruct (decide (k = j)) as [-> |]; [rewrite fmap_app; set_solver|].
    destruct (decide (k = i)) as [-> |]; [rewrite fmap_app; set_solver|done].
  - unfold peers. rewrite Hl. destruct (decide (i = j)); [done|]. destruct (decide (i = i)); [|done].
    rewrite fmap_app, elem_of_app. right. cbn. rewrite Hp. by left.
Qed.

Definition env_ok_all (env : Z → Z → connect_env) : Prop := ∀ i j, env_ok (env i j) i j.

(** Both halves of a pair can be mapped. *)
Definition env_maps (e : connect_env) : Prop :=
  mr_mem (e_ij e) = true ∧ mr_mmio (e_ij e) ≠ 0 ∧ mr_aper (e_ij e) ≠ 0 ∧
  mr_mem (e_ji e) = true ∧ mr_mmio (e_ji e) ≠ 0 ∧ mr_aper (e_ji e) ≠ 0.

Lemma init_some r n i j : mr_mem r = true → mr_mmio r ≠ 0 → mr_aper r ≠ 0 →
  ∃ p n', scif_init_p2p_info hw r n i j = (Some p, n').
Proof.
  intros Hm H1 H2. unfold scif_init_p2p_info, p2p_alloc. rewrite Hm. cbn [negb].
  destruct (Z.eqb_spec (mr_mmio r) 0); [done|]. destruct (Z.eqb_spec (mr_aper r) 0); [done|]. eauto.
Qed.

Lemma existsb_listed n i j : existsb (λ p, ppi_peer_id p =? j) (p2p_of n i) = true → j ∈ peers n i.
Proof.
  intros (p & Hp & Hj)%existsb_exists. apply list_elem_of_fmap. exists p. split; [lia|]. by apply list_elem_of_In.
Qed.

Lemma connect_grown e n j i : net_inv n → env_ok e j i → 1 <= j <= maxid n → i ≠ j →
  grown n (scif_node_connect hw e n j i) ∧
  (env_maps e → i ∈ alive n → 1 <= i <= maxid n → j ∈ peers (scif_node_connect hw e n j i) i).
Proof.
  intros Hinv He Hj Hij. assert (exact = true → result_ok (e_ij e) j) as He1 by (intros Hex; by apply He).
  assert (exact = true → result_ok (e_ji e) i) as He2 by (intros Hex; by apply He). unfold scif_node_connect.
  destruct (Z.ltb_spec i 1); [split; [by apply grown_refl|lia]|].
  destruct (Z.ltb_spec (maxid n) i); [split; [by apply grown_refl|lia]|]. cbn [orb].
  unfold _scifdev_alive. case_bool_decide as Hal; cbn [negb]; [|split; [by apply grown_refl|done]].
  destruct (existsb _ _) eqn:Ex; [split; [by apply grown_refl|by intros; apply existsb_listed]|].
  apply not_listed in Ex.
  destruct (scif_init_p2p_info hw (e_ij e) n i j) as [res1 n1] eqn:E1.
  destruct (init_spec _ _ _ _ _ _ He1 E1) as (Hs1 & Hm1 & Ho1 & Hp1).
  destruct res1 as [p|]; cbn [from_option app] in Hm1.
  2: { split.
       - apply grown_same; [done..|]. intros Hex k. destruct (decide (k = i)) as [-> |]; [by apply Hm1|by rewrite Ho1].
       - intros (Hmem & H1 & H2 & _). destruct (init_some (e_ij e) n i j Hmem H1 H2) as (p & n' & E). congruence. }
  destruct (scif_init_p2p_info hw (e_ji e) n1 j i) as [res2 n2] eqn:E2.
  destruct (init_spec _ _ _ _ _ _ He2 E2) as (Hs2 & Hm2 & Ho2 & Hp2).
  destruct res2 as [q|]; cbn [from_option app] in Hm2.
  - pose proof (λ n', grown_pair n n1 n2 n' i j p q Hinv Hij ltac:(done) Hj Ex (Hp1 p eq_refl) (Hp2 q eq_refl)
      Hs1 Hs2 Hm1 Ho1 Hm2 Ho2) as Hadd.
    destruct (negb (e_err_i e =? 0)); [|destruct (negb (e_err_j e =? 0))];
      (split; [eapply Hadd; reflexivity|intros; eapply Hadd; reflexivity]).
  - destruct (deinit_spec n2 i p) as (Hs3 & _ & Ho3 & Hm3). split.
    + apply grown_same; [done|do 2 (eapply same_lists_trans; [done|]); done|]. intros Hex k.
      destruct (decide (k = i)) as [-> |]; [apply Hm3; rewrite Ho2 by done; by apply Hm1|]. rewrite Ho3 by done.
      destruct (decide (k = j)) as [-> |]; [by rewrite (Hm2 Hex), Ho1|]. by rewrite Ho2, Ho1.
    + intros (_ & _ & _ & Hmem & H1 & H2). destruct (init_some (e_ji e) n1 j i Hmem H1 H2) as (q & n' & E). congruence.
Qed.

Lemma setup_loop env i l : ∀ n, net_inv n → env_ok_all env → 1 <= i <= maxid n →
  let n' := fold_left (λ n j, if i =? j then n else scif_node_connect hw (env i j) n i j) l n in
  grown n n' ∧ ((∀ a b, env_maps (env a b)) → (∀ k, 1 <= k <= maxid n → k ∈ alive n) →
    ∀ j, j ∈ l → j ≠ i → 1 <= j <= maxid n → j ∈ peers n' i).
Proof.
  induction l as [|j l IH]; intros n Hinv Henv Hi; cbn [fold_left].
  { split; [by apply grown_refl|]. intros _ _ j Hj. by apply elem_of_nil in Hj. }
  set (n1 := if i =? j then n else scif_node_connect hw (env i j) n i j).
  assert (grown n n1 ∧ ((∀ a b, env_maps (env a b)) → (∀ k, 1 <= k <= maxid n → k ∈ alive n) →
    j ≠ i → 1 <= j <= maxid n → j ∈ peers n1 i)) as [Hg Hnew].
  { unfold n1. destruct (Z.eqb_spec i j) as [-> |Hne]; [split; [by apply grown_refl|done]|].
    destruct (connect_grown (env i j) n i j Hinv (Henv i j) Hi ltac:(done)) as [Hg Hm]. split; [done|].
    intros He Hal _ Hj. apply (ni_sym _ (proj1 Hg)). apply Hm; auto. }
  pose proof Hg as (Hinv1 & Em & Ea & _ & _ & Hp). destruct (IH n1 Hinv1 Henv ltac:(lia)) as [Hg' Hnew']. split; [by eapply grown_trans|].
  rewrite Em, Ea in Hnew'. intros He Hal k Hk Hne Hr. apply elem_of_cons in Hk as [-> |Hk]; [|by apply Hnew'].
  destruct Hg' as (_ & _ & _ & _ & _ & Hp'). apply Hp', Hnew; done.
Qed.

Lemma setup_rows env l : ∀ n, net_inv n → env_ok_all env → (∀ i, i ∈ l → 1 <= i <= maxid n) →
  let n' := fold_left (λ n i, fold_left (λ n j, if i =? j then n else scif_node_connect hw (env i j) n i j) (cards n) n) l n in
  grown n n' ∧ ((∀ a b, env_maps (env a b)) → (∀ k, 1 <= k <= maxid n → k ∈ alive n) →
    ∀ i j, i ∈ l → j ≠ i → 1 <= j <= maxid n → j ∈ peers n' i).
Proof.
  induction l as [|i l IH]; intros n Hinv Henv Hl; cbn [fold_left].
  { split; [by apply grown_refl|]. intros _ _ i j Hi. by apply elem_of_nil in Hi. }
  destruct (setup_loop env i (cards n) n Hinv Henv ltac:(apply Hl; by left)) as [Hg Hrow].
  set (n1 := fold_left _ (cards n) n) in *. pose proof Hg as (Hinv1 & Em & Ea & _ & _ & Hp).
  destruct (IH n1 Hinv1 Henv) as [Hg' Hrows]; [intros k Hk; rewrite Em; apply Hl; by right|].
  split; [by eapply grown_trans|]. rewrite Em, Ea in Hrows. intros He Hal a b Ha Hne Hb.
  apply elem_of_cons in Ha as [-> |Ha]; [|by apply Hrows].
  destruct Hg' as (_ & _ & _ & _ & _ & Hp'). apply Hp', Hrow; try done. by apply elem_of_cards.
Qed.

Lemma setup_grown enable env n : net_inv n → env_ok_all env →
  grown n (scif_p2p_setup hw enable env n) ∧
  (enable = true → (∀ a b, env_maps (env a b)) → (∀ k, 1 <= k <= maxid n → k ∈ alive n) →
    ∀ i j, 1 <= i <= maxid n → 1 <= j <= maxid n → j ≠ i → j ∈ peers (scif_p2p_setup hw enable env n) i).
Proof.
  intros Hinv Henv. unfold scif_p2p_setup. destruct enable; cbn [negb]; [|split; [by apply grown_refl|done]].
  destruct (forallb _ _) eqn:Ef; cbn [negb].
  - destruct (setup_rows env (cards n) n Hinv Henv) as [Hg Hrows]; [by intros i Hi%elem_of_cards|].
    split; [done|]. intros _ He Hal i j Hi Hj Hne. apply Hrows; try done. by apply elem_of_cards.
  - split; [by apply grown_refl|]. intros _ _ Hal. exfalso. apply not_true_iff_false in Ef. apply Ef.
    apply forallb_forall. intros k Hk. apply list_elem_of_In, elem_of_cards, Hal in Hk. by apply bool_decide_eq_true.
Qed.

(** ** Histories *)

Inductive net_run : net → Prop :=
| net_new : net_run (Net 0 0 ∅ ∅ ∅ [] ∅ 0)
| net_register mem n i : net_run n → 0 <= i <= 128 → i ∉ alive n →
    net_run (scif_peer_register_device mem n i)
| net_unregister n i : net_run n → net_run (scif_peer_unregister_device n i).2
| net_setup enable env n : net_run n → env_ok_all env → net_run (scif_p2p_setup hw enable env n)
| net_destroy n i : net_run n → net_run (scif_destroy_p2p n i).

Definition counted (n : net) : Prop := 0 <= maxid n <= 128 ∧ total n = Z.of_nat (size (alive n)).

Lemma alive_size n : net_inv n → maxid n <= 128 → Z.of_nat (size (alive n)) <= 129.
Proof.
  intros [Hal _ _ _ _] Hm.
  assert (alive n ⊆ list_to_set (Z.of_nat <$> seq 0 129)) as Hsub.
  { intros i Hi. apply elem_of_list_to_set, list_elem_of_fmap. exists (Z.to_nat i). specialize (Hal i Hi).
    rewrite elem_of_seq. lia. }
  apply subseteq_size in Hsub. rewrite size_list_to_set in Hsub; [rewrite length_fmap, length_seq in Hsub; lia|].
  apply NoDup_fmap_2; [apply _|apply NoDup_seq].
Qed.

Lemma net_run_inv n : net_run n → net_inv n ∧ counted n.
Proof.
  induction 1 as [|mem n i _ [Hinv [Hm Ht]] Hi Hnew|n i _ [Hinv [Hm Ht]]|enable env n _ [Hinv [Hm Ht]] Henv|n i _ [Hinv [Hm Ht]]].
  - split; [|done]. split; unfold accounted, peers; cbn; try done.
    + intros i j Hj. by apply elem_of_nil in Hj.
    + intros i. constructor.
    + intros i j Hj. by apply elem_of_nil in Hj.
  - unfold scif_peer_register_device. destruct mem; cbn [negb]; [|by split].
    pose proof (alive_size n Hinv ltac:(lia)) as Hsz. destruct Hinv as [Hal Hsym Hnd Hrange Hacc]. split.
    + split; try done; cbn; [|intros a b Hb; specialize (Hrange a b Hb); lia].
      intros k [->%elem_of_singleton|Hk]%elem_of_union; [lia|]. specialize (Hal k Hk). lia.
    + split; cbn; [lia|]. rewrite size_union, size_singleton by set_solver. rewrite Ht.
      rewrite wrap_small by (unfold in_width; lia). lia.
  - unfold scif_peer_unregister_device, _scifdev_alive. case_bool_decide as Hal; cbn; [|by split].
    pose proof (alive_size n Hinv ltac:(lia)) as Hsz. destruct Hinv as [Hali Hsym Hnd Hrange Hacc]. split.
    + split; try done; cbn. intros k [Hk _]%elem_of_difference. by apply Hali.
    + split; cbn; [done|]. rewrite size_difference by set_solver. rewrite size_singleton, Ht.
      assert (0 < size (alive n))%nat by (apply Nat.neq_0_lt_0; intros E; apply size_empty_inv in E; set_solver).
      rewrite wrap_small by (unfold in_width; lia). lia.
  - destruct (setup_grown enable env n Hinv Henv) as [(Hi & Em & Ea & Et & _ & _) _]. split; [done|]. unfold counted. by rewrite Em, Ea, Et.
  - destruct (destroy_inv n i Hinv) as [Hi _]. split; [done|]. destruct (destroy_spec n i Hinv) as (_ & (Em & Et & Ea) & _).
    unfold counted. by rewrite Em, Ea, Et.
Qed.

(** When the memory of a peer cannot be mapped, its registers stay mapped if they were
    mapped at another address than they have on the bus. *)
Lemma init_leaks r n i j : mr_mem r = true → mr_mmio r ≠ 0 → mr_aper r = 0 →
  mr_mmio r ≠ mmio_pa (hw j) → (mmio_pa (hw j), mmio_len (hw j)) ∉ mapped_of n i →
  let '(res, n') := scif_init_p2p_info hw r n i j in
  res = None ∧ p2p n' = p2p n ∧ mapped_of n' i = (mr_mmio r, mmio_len (hw j)) :: mapped_of n i.
Proof.
  intros Hm H1 H2 Hne Hnot. unfold scif_init_p2p_info, p2p_alloc. rewrite Hm. cbn [negb].
  destruct (Z.eqb_spec (mr_mmio r) 0); [done|]. rewrite H2. cbn [Z.eqb]. split_and!; [done..|].
  unfold unmap_peer_resource, map_peer_resource, mapped_of, set_mapped in *. cbn in *. rewrite !lookup_insert_eq. cbn.
  rewrite bool_decide_false by congruence. f_equal. clear -Hnot.
  induction (default [] (mapped n !! i)) as [|y l IH]; [done|]. apply not_elem_of_cons in Hnot as [Hy Hl]. cbn.
  rewrite bool_decide_false by congruence. by rewrite IH.
Qed.

Lemma env_maps_ok env : (∀ a b, env_maps (env a b)) → env_ok_all env.
Proof. intros He i j _. destruct (He i j) as (_ & _ & H1 & _ & _ & H2). by split; intros _ H. Qed.

(** C30: whatever nodes come, go and are connected and whatever the mappings give, the
    lists of peers stay paired: a card is in the list of another exactly if the other is
    in its list, once and never in its own.  Setting the network up connects every pair
    once all cards are there and can be mapped; taking a card down removes it from every
    list, and unlinks each entry for it, its own and its peers', after the entry was freed
    (read as memory that still holds what it held).  As long as no card's memory fails to
    be mapped after its registers were mapped at another address than they have on the bus
    ([exact]), what is mapped for a card is what its list says, and nothing stays mapped
    for a card taken down; a failure of that kind leaves the registers mapped though no
    list has them. *)
Theorem p2p_network n : net_run n →
  (∀ i j, (j ∈ peers n i ↔ i ∈ peers n j) ∧ NoDup (peers n i) ∧ (j ∈ peers n i → 1 <= j <= maxid n ∧ j ≠ i)) ∧
  (∀ env, (∀ a b, env_maps (env a b)) → (∀ k, 1 <= k <= maxid n → k ∈ alive n) →
     ∀ i j, 1 <= i <= maxid n → 1 <= j <= maxid n → j ≠ i → j ∈ peers (scif_p2p_setup hw true env n) i) ∧
  (∀ node, let n' := scif_destroy_p2p n node in
     peers n' node = [] ∧ (∀ k, node ∉ peers n' k) ∧ uaf n' = uaf n + 2 * zlen (p2p_of n node)) ∧
  (exact = true → (∀ i, mapped_of n i ≡ₚ list_maps (p2p_of n i)) ∧
     ∀ node, mapped_of (scif_destroy_p2p n node) node = []) ∧
  (∀ r i j, mr_mem r = true → mr_mmio r ≠ 0 → mr_aper r = 0 →
     mr_mmio r ≠ mmio_pa (hw j) → (mmio_pa (hw j), mmio_len (hw j)) ∉ mapped_of n i →
     let '(res, n') := scif_init_p2p_info hw r n i j in
     res = None ∧ p2p n' = p2p n ∧ mapped_of n' i = (mr_mmio r, mmio_len (hw j)) :: mapped_of n i).
Proof.
  intros Hrun. destruct (net_run_inv n Hrun) as [Hinv _]. pose proof Hinv as [_ Hsym Hnd Hrange Hacc]. split_and!.
  - intros i j. split_and!; [split; apply Hsym|apply Hnd|apply Hrange].
  - intros env Hmaps Hal. by apply (proj2 (setup_grown true env n Hinv (env_maps_ok env Hmaps))).
  - intros node n'. destruct (destroy_inv n node Hinv) as (_ & Hp & _ & Hk).
    destruct (destroy_spec n node Hinv) as (_ & _ & Hu & _). done.
  - intros Hex. split; [by apply Hacc|]. intros node. by apply (destroy_inv n node Hinv).
  - intros r i j. apply init_leaks.
Qed.

End Connect.

End Inv.

(** ** The nodes online *)

Lemma node_ids_loop_spec n len nodes : ∀ out online, zlen out = Z.max 0 (Z.min len online) →
  0 <= online →
  let l := filter (λ i, i ∈ alive n) nodes in
  node_ids_loop n nodes len out online = (out ++ ztake (len - zlen out) l, online + zlen l).
Proof.
  induction nodes as [|i nodes IH]; intros out online Hout Hon; cbn [node_ids_loop].
  { cbn. unfold ztake. rewrite take_nil, app_nil_r. change (zlen []) with 0. f_equal. lia. }
  unfold _scifdev_alive. case_bool_decide as Hal.
  - rewrite filter_cons_True by done. rewrite zlen_cons.
    destruct (Z.ltb_spec (zlen out) len).
    + rewrite IH; [|rewrite zlen_app; change (zlen [i]) with 1; lia|lia]. rewrite zlen_app. change (zlen [i]) with 1.
      f_equal; [|lia]. rewrite <- app_assoc. f_equal. unfold ztake.
      replace (Z.to_nat (len - zlen out)) with (S (Z.to_nat (len - (zlen out + 1)))) by lia. done.
    + rewrite IH by lia. f_equal; [|lia]. f_equal. unfold ztake. by replace (Z.to_nat (len - zlen out)) with 0%nat by lia.
  - rewrite filter_cons_False by done. by apply IH.
Qed.

(** [scif_get_node_ids] counts every node online and stores the first of them, in
    ascending order, as many as the caller's array takes. *)
Theorem scif_get_node_ids_ok exact hw n len : net_run exact hw n →
  let online := filter (λ i, i ∈ alive n) (Z.of_nat <$> seq 0 (Z.to_nat (maxid n + 1))) in
  scif_get_node_ids n len = (ztake len online, zlen online) ∧ zlen online = total n ∧
  ∀ i, i ∈ online ↔ i ∈ alive n.
Proof.
  intros Hrun online. destruct (net_run_inv exact hw n Hrun) as [Hinv [Hm Ht]].
  assert (∀ i, i ∈ online ↔ i ∈ alive n) as Hin.
  { intros i. unfold online. rewrite list_elem_of_filter, list_elem_of_fmap. split; [tauto|]. intros Hi. split; [done|].
    exists (Z.to_nat i). rewrite elem_of_seq. pose proof (ni_alive _ _ Hinv i Hi). lia. }
  assert (zlen online = total n) as Hsz.
  { rewrite Ht. unfold zlen. f_equal. rewrite <- (size_list_to_set (C := gset Z)).
    - f_equal. apply set_eq. intros i. by rewrite elem_of_list_to_set.
    - apply NoDup_filter, NoDup_fmap_2; [apply _|apply NoDup_seq]. }
  split; [|done]. unfold scif_get_node_ids. rewrite node_ids_loop_spec; [|change (zlen []) with 0; lia|lia].
  fold online. change (zlen []) with 0. rewrite Z.sub_0_r. cbn [app]. f_equal.
  unfold ztake. destruct (Z.le_gt_cases len (total n)); [by rewrite Z.min_l|].
  rewrite Z.min_r by lia. rewrite !take_ge; [done| |]; unfold zlen in Hsz; lia.
Qed.

(** ** Three cards *)

Definition demo_hw (i : Z) : scif_hw := Hw (i * 2 ^ 40) 65536 (i * 2 ^ 40 + 2 ^ 35) (2 ^ 34).
Definition demo_env (i j : Z) : connect_env :=
  let r k := MapResult true (k * 2 ^ 40) (k * 2 ^ 40 + 2 ^ 35) in Env (r 7) (r 8) 0 0.
Definition demo_net : net :=
  scif_p2p_setup demo_hw true demo_env
    (foldr (λ i n, scif_peer_register_device true n i) (Net 0 0 ∅ ∅ ∅ [] ∅ 0) [3; 2; 1; 0]).

Lemma demo_env_maps a b : env_maps (demo_env a b).
Proof. done. Qed.

Lemma demo_net_run : net_run true demo_hw demo_net.
Proof.
  apply net_setup; [|apply env_maps_ok, demo_env_maps]. cbn [foldr].
  repeat (apply net_register; [|lia|cbn; set_solver]). constructor.
Qed.

Lemma p2p_network_witness :
  mapped_of (scif_destroy_p2p demo_net 2) 2 = [] ∧ 2 ∉ peers (scif_destroy_p2p demo_net 2) 1 ∧
  uaf (scif_destroy_p2p demo_net 2) = 4.
Proof.
  destruct (p2p_network true demo_hw demo_net demo_net_run) as (_ & _ & Hd & He & _).
  destruct (Hd 2) as (_ & Hk & Hu). destruct (He eq_refl) as [_ Hm]. split_and!; [exact (Hm 2)|apply Hk|].
  rewrite Hu. vm_compute. reflexivity.
Defined.

Lemma scif_get_node_ids_ok_witness : total demo_net = 4 ∧ ∃ l, scif_get_node_ids demo_net 2 = (l, 4).
Proof.
  assert (total demo_net = 4) as Ht by (vm_compute; reflexivity).
  destruct (scif_get_node_ids_ok true demo_hw demo_net 2 demo_net_run) as (E & Hl & _). split; [exact Ht|].
  rewrite Hl, Ht in E. eexists. exact E.
Defined.

End NodeNet.
