(* ===== verification/RmaList.v ===== *)
(** * Registration windows and their lists

    Models [mpss4/mpss-modules/mic/scif/scif_rma_list.c], with the two routines
    of [scif_rma.c] and the one of [scif_dma.c] that walk or change the same
    lists: insertion sorted by offset or by virtual address, the query that
    validates an RMA range against the registered windows, unregistration of a
    range, the cache of temporary windows and its invalidation.  The RMA lock is
    held by every caller, so each operation is one atomic step. *)
From S2P Require Import Prelude.
Local Open Scope Z_scope.

Module RmaList.

(** [enum scif_window_type] *)
Inductive scif_window_type :=
| SCIF_WINDOW_PARTIAL
| SCIF_WINDOW_SINGLE
| SCIF_WINDOW_FULL
| SCIF_WINDOW_SELF
| SCIF_WINDOW_PEER.

#[export] Instance scif_window_type_eq_dec : EqDecision scif_window_type.
Proof. solve_decision. Defined.

(** [enum scif_unreg_state] *)
Inductive scif_unreg_state :=
| SCIF_UNREG_NOT_INITIATED
| SCIF_UNREG_REQUESTED
| SCIF_UNREG_ACCEPTED
| SCIF_UNREG_DENIED.

#[export] Instance scif_unreg_state_eq_dec : EqDecision scif_unreg_state.
Proof. solve_decision. Defined.

(** [struct scif_window]: the fields the list code reads or writes; [w_addr] is
    the address of the structure, its identity, and [alloc_vaddr] is
    [alloc_handle.vaddr]. *)
Record scif_window := Window {
  w_addr : Z;
  nr_pages : Z;
  prot : Z;
  offset : Z;
  va_for_temp : Z;
  alloc_vaddr : Z;
  unreg_state : scif_unreg_state;
}.

Definition set_unreg_state (w : scif_window) (s : scif_unreg_state) : scif_window :=
  Window (w_addr w) (nr_pages w) (prot w) (offset w) (va_for_temp w) (alloc_vaddr w) s.

(** ** Insertion *)

(** The [list_for_each] of both insertions: stop at the first entry whose key is
    larger and link the window after the previous one. *)
Fixpoint insert_by (key : scif_window → Z) (w : scif_window) (l : list scif_window)
  : list scif_window :=
  match l with
  | [] => [w]
  | curr :: l' => if key w <? key curr then w :: curr :: l' else curr :: insert_by key w l'
  end.

Definition scif_insert_tcw (w : scif_window) (head : list scif_window) : list scif_window :=
  match last head with
  | Some curr =>
      if va_for_temp curr <? va_for_temp w then head ++ [w] else insert_by va_for_temp w head
  | None => insert_by va_for_temp w head
  end.

Definition scif_insert_window (w : scif_window) (head : list scif_window) : list scif_window :=
  insert_by offset w head.

(** ** Query of the registered windows *)

(** [struct scif_rma_req] without the list head and the result pointer, which
    the functions below take and return; [r_start] is the union of [offset] and
    [va_for_temp]. *)
Record scif_rma_req := Req {
  r_start : Z;
  nr_bytes : Z;
  r_prot : Z;
  r_type : scif_window_type;
}.

Definition end_offset (w : scif_window) : Z :=
  s64 (offset w + s64 (Z.shiftl (nr_pages w) PAGE_SHIFT)).

(** The [list_for_each] of [scif_query_window]. *)
Fixpoint query_loop (req : scif_rma_req) (l : list scif_window)
    (off nr_bytes_left : Z) (out_window : option scif_window) : Z * option scif_window :=
  match l with
  | [] => (- ENXIO, out_window)
  | w :: l' =>
      if off <? offset w then (- ENXIO, out_window)
      else if end_offset w <=? off then query_loop req l' off nr_bytes_left out_window
      else if negb (Z.land (prot w) (r_prot req) =? r_prot req) then (- EPERM, out_window)
      else
        let out_window := if nr_bytes_left =? nr_bytes req then Some w else out_window in
        let tmp_min := Z.min (u64 (end_offset w - off)) nr_bytes_left in
        let nr_bytes_left := u64 (nr_bytes_left - tmp_min) in
        let off := s64 (off + tmp_min) in
        if nr_bytes_left =? 0 then
          if bool_decide (r_type req = SCIF_WINDOW_PARTIAL ∨ r_type req = SCIF_WINDOW_SINGLE)
          then (0, out_window)
          else if off =? end_offset w then (0, out_window)
          else (- ENXIO, out_window)
        else if bool_decide (r_type req = SCIF_WINDOW_SINGLE) then (- ENXIO, out_window)
        else query_loop req l' off nr_bytes_left out_window
  end.

Definition scif_query_window (req : scif_rma_req) (head : list scif_window)
  : Z * option scif_window :=
  if nr_bytes req =? 0 then (- EINVAL, None)
  else query_loop req head (r_start req) (nr_bytes req) None.

(** ** Unregistration of a range *)

(** A [SCIF_UNREGISTER] message: the remote window and the local one. *)
Record unreg_msg := UnregMsg { payload0 : Z; payload1 : Z }.

Section Unregister.
(** The node queue pair: what sending a message returns. *)
Context (scif_nodeqp_send : unreg_msg → Z).

Definition scif_send_scif_unregister (w : scif_window) : Z * list unreg_msg :=
  let msg := UnregMsg (alloc_vaddr w) (w_addr w) in (scif_nodeqp_send msg, [msg]).

Definition scif_unregister_window (w : scif_window) : Z * scif_window * list unreg_msg :=
  if bool_decide (unreg_state w = SCIF_UNREG_NOT_INITIATED) then
    let '(err, sent) := scif_send_scif_unregister w in
    if err =? 0 then (err, set_unreg_state w SCIF_UNREG_REQUESTED, sent) else (err, w, sent)
  else (0, w, []).

(** The [list_for_each] of [scif_rma_list_unregister]: the error to return, the
    list with the windows' new states, the messages sent. *)
Fixpoint unregister_loop (l : list scif_window) (off end_req_offset err : Z)
  : Z * list scif_window * list unreg_msg :=
  match l with
  | [] => (err, [], [])
  | w :: l' =>
      if end_req_offset <=? offset w then (err, l, [])
      else if end_offset w <=? off then
        let '(err, l'', sent) := unregister_loop l' off end_req_offset err in
        (err, w :: l'', sent)
      else if (offset w <? off) && (off <? end_offset w) then (- EINVAL, l, [])
      else if end_req_offset <? end_offset w then (- EINVAL, l, [])
      else
        let '(err, w, sent1) := scif_unregister_window w in
        let '(err, l'', sent2) := unregister_loop l' off end_req_offset err in
        (err, w :: l'', sent1 ++ sent2)
  end.

Definition scif_rma_list_unregister (head : list scif_window) (off nr_pages : Z)
  : Z * list scif_window * list unreg_msg :=
  let end_req_offset := s64 (off + s64 (Z.shiftl nr_pages PAGE_SHIFT)) in
  unregister_loop head off end_req_offset 0.

End Unregister.

(** ** Temporary cached windows *)

Definition end_va (w : scif_window) : Z :=
  u64 (va_for_temp w + u64 (Z.shiftl (nr_pages w) PAGE_SHIFT)).

(** Outcome of a cache query: return code, window found, the request (whose
    range the query may rewrite), the list, and the window taken off it by
    [__scif_rma_destroy_tcw_helper]. *)
Record tcw_result := Tcw {
  t_rc : Z; t_out : option scif_window; t_req : scif_rma_req;
  t_list : list scif_window; t_destroyed : option scif_window
}.

Definition expand_req (req : scif_rma_req) (w : scif_window) (start_va_req end_va_req : Z)
  : scif_rma_req :=
  let req :=
    if start_va_req <? va_for_temp w
    then Req (va_for_temp w) (u64 (nr_bytes req + (va_for_temp w - start_va_req)))
             (r_prot req) (r_type req)
    else req in
  if end_va w <=? end_va_req
  then Req (r_start req) (u64 (nr_bytes req + (end_va w - end_va_req))) (r_prot req) (r_type req)
  else req.

(** The [list_for_each_safe] of [scif_query_tcw]; [seen] is the part of the list
    already walked, in reverse. *)
Fixpoint tcw_loop (req : scif_rma_req) (seen l : list scif_window) (start_va_req end_va_req : Z)
  : tcw_result :=
  match l with
  | [] => Tcw (- ENXIO) None req (rev seen) None
  | w :: l' =>
      if (start_va_req <? va_for_temp w) && (end_va_req <? va_for_temp w)
      then Tcw (- ENXIO) None req (rev seen ++ l) None
      else if end_va w <=? start_va_req then tcw_loop req (w :: seen) l' start_va_req end_va_req
      else if Z.land (prot w) (r_prot req) =? r_prot req then
        if (va_for_temp w <=? start_va_req) && (end_va_req <=? end_va w)
        then Tcw 0 (Some w) req (rev seen ++ l) None
        else Tcw (- ENXIO) None (expand_req req w start_va_req end_va_req)
                 (rev seen ++ l') (Some w)
      else Tcw (- ENXIO) None req (rev seen ++ l') (Some w)
  end.

Definition scif_query_tcw (req : scif_rma_req) (head : list scif_window) : tcw_result :=
  let start_va_req := r_start req in
  let end_va_req := u64 (start_va_req + nr_bytes req) in
  if nr_bytes req =? 0 then Tcw (- EINVAL) None req head None
  else
    match last head with
    | Some w =>
        if end_va w <? start_va_req then Tcw (- ENXIO) None req head None
        else tcw_loop req [] head start_va_req end_va_req
    | None => tcw_loop req [] head start_va_req end_va_req
    end.

(** [__scif_rma_destroy_tcw]: the windows kept and the windows destroyed. *)
Fixpoint destroy_loop (l : list scif_window) (start end_ : Z)
  : list scif_window * list scif_window :=
  match l with
  | [] => ([], [])
  | w :: l' =>
      if (start <? va_for_temp w) && (end_ <=? va_for_temp w) then (l, [])
      else
        let '(kept, gone) := destroy_loop l' start end_ in
        if end_va w <=? start then (w :: kept, gone) else (kept, w :: gone)
  end.

Definition __scif_rma_destroy_tcw (tc_reg_list : list scif_window) (start len : Z)
  : list scif_window * list scif_window :=
  let end_ := u64 (start + len) in
  if end_ <=? start then (tc_reg_list, [])
  else if len =? 0 then (tc_reg_list, [])
  else destroy_loop tc_reg_list start end_.

(** ** Well-formed lists *)

(** Offsets registered by [scif_register]: non-negative, of positive length, and
    ending below 2^63. *)
Definition reg_ok (w : scif_window) : Prop :=
  0 <= offset w ∧ 0 < nr_pages w ∧ offset w + nr_pages w * 4096 < 2 ^ 63.

Definition apart (a b : scif_window) : Prop := offset a + nr_pages a * 4096 <= offset b.

Definition reg_list_ok (l : list scif_window) : Prop := Forall reg_ok l ∧ StronglySorted apart l.

Definition tcw_ok (w : scif_window) : Prop :=
  0 <= va_for_temp w ∧ 0 < nr_pages w ∧ va_for_temp w + nr_pages w * 4096 < 2 ^ 64.

Lemma end_offset_ok w : reg_ok w → end_offset w = offset w + nr_pages w * 4096.
Proof.
  intros (H1 & H2 & H3). unfold end_offset, PAGE_SHIFT. rewrite Z.shiftl_mul_pow2 by lia.
  change (2 ^ 12) with 4096. rewrite (s64_small (nr_pages w * 4096)), s64_small; lia.
Qed.

Lemma end_va_ok w : tcw_ok w → end_va w = va_for_temp w + nr_pages w * 4096.
Proof.
  intros (H1 & H2 & H3). unfold end_va, PAGE_SHIFT. rewrite Z.shiftl_mul_pow2 by lia.
  change (2 ^ 12) with 4096. rewrite (wrap_small 64 (nr_pages w * 4096)), wrap_small; unfold in_width; lia.
Qed.

(** ** Insertion *)

Section Insert.
Context (key : scif_window → Z).
Notation sorted := (StronglySorted (λ a b, key a <= key b)).

Lemma insert_by_perm w l : insert_by key w l ≡ₚ w :: l.
Proof.
  induction l as [|x l IH]; simpl; [done|]. zcases; [done|].
  rewrite IH. apply Permutation_swap.
Qed.

Lemma insert_by_sorted w l : sorted l → sorted (insert_by key w l).
Proof.
  induction l as [|x l IH]; intros Hs; simpl; [by repeat constructor|].
  inversion Hs as [|? ? Hs' Hall]; subst. zcases.
  - constructor; [done|]. constructor; [lia|]. eapply Forall_impl; [done|]. simpl. lia.
  - constructor; [by apply IH|]. rewrite insert_by_perm. by constructor.
Qed.

Lemma insert_by_last w l :
  Forall (λ x, key x <= key w) l → insert_by key w l = l ++ [w].
Proof.
  induction 1 as [|x l Hx Hl IH]; simpl; [done|]. zcases; [lia|]. by rewrite IH.
Qed.

Lemma sorted_last_ge l x :
  sorted l → last l = Some x → Forall (λ y, key y <= key x) l.
Proof.
  induction l as [|y l IH]; intros Hs Hl; [done|].
  inversion Hs as [|? ? Hs' Hall]; subst. destruct l as [|z l].
  - simpl in Hl. injection Hl as <-. by repeat constructor.
  - rewrite last_cons_cons in Hl. specialize (IH Hs' Hl). constructor; [|done].
    rewrite Forall_forall in Hall. apply Hall. by apply last_Some_elem_of.
Qed.

End Insert.

Lemma insert_tcw_plain w l :
  StronglySorted (λ a b, va_for_temp a <= va_for_temp b) l →
  scif_insert_tcw w l = insert_by va_for_temp w l.
Proof.
  intros Hs. unfold scif_insert_tcw. destruct (last l) as [x|] eqn:E; [|done].
  zcases; [|done]. symmetry. apply insert_by_last.
  eapply Forall_impl; [by apply (sorted_last_ge _ _ _ Hs E)|]. simpl. lia.
Qed.

(** ** Query *)

(** Every byte of [[off, off + n)] lies in a window of [l] with the protection. *)
Definition covers (l : list scif_window) (p off n : Z) : Prop :=
  ∀ x, off <= x < off + n →
  ∃ w, w ∈ l ∧ offset w <= x < offset w + nr_pages w * 4096 ∧ Z.land (prot w) p = p.

Lemma reg_list_cons w l :
  reg_list_ok (w :: l) → reg_ok w ∧ reg_list_ok l ∧ ∀ v, v ∈ l → reg_ok v ∧ apart w v.
Proof.
  intros [Hok Hs]. inversion Hok; inversion Hs; subst. split_and!; try done.
  intros v Hv. rewrite Forall_forall in *. auto.
Qed.

(** One window of the loop, with the arithmetic resolved. *)
Lemma query_loop_cons req w l off left out :
  reg_ok w → 0 <= off → 0 < left → off + left < 2 ^ 63 →
  query_loop req (w :: l) off left out =
  let e := offset w + nr_pages w * 4096 in
  if off <? offset w then (- ENXIO, out)
  else if e <=? off then query_loop req l off left out
  else if negb (Z.land (prot w) (r_prot req) =? r_prot req) then (- EPERM, out)
  else
    let out := if left =? nr_bytes req then Some w else out in
    if off + left <=? e then
      if bool_decide (r_type req = SCIF_WINDOW_PARTIAL ∨ r_type req = SCIF_WINDOW_SINGLE) then (0, out)
      else if off + left =? e then (0, out) else (- ENXIO, out)
    else if bool_decide (r_type req = SCIF_WINDOW_SINGLE) then (- ENXIO, out)
    else query_loop req l e (left - (e - off)) out.
Proof.
  intros Hok Hoff Hleft Hend. destruct Hok as (H1 & H2 & H3) eqn:Eok. simpl.
  rewrite (end_offset_ok w) by done. set (e := offset w + nr_pages w * 4096).
  destruct (Z.ltb_spec off (offset w)); [done|]. destruct (Z.leb_spec e off); [done|].
  destruct (negb _); [done|]. rewrite (wrap_small 64 (e - off)) by (unfold in_width; lia).
  destruct (Z.leb_spec (off + left) e).
  - rewrite Z.min_r by lia. rewrite Z.sub_diag. change (u64 0) with 0. simpl.
    by rewrite s64_small by lia.
  - rewrite Z.min_l by lia. rewrite (wrap_small 64) by (unfold in_width; lia).
    destruct (Z.eqb_spec (left - (e - off)) 0); [lia|].
    rewrite s64_small by lia. replace (off + (e - off)) with e by lia. done.
Qed.

Lemma query_loop_sound req l : ∀ off left out out',
  reg_list_ok l → 0 <= off → 0 < left → off + left < 2 ^ 63 →
  query_loop req l off left out = (0, out') → covers l (r_prot req) off left.
Proof.
  induction l as [|w l IH]; intros off left out out' Hl Hoff Hleft Hend; [done|].
  destruct (reg_list_cons _ _ Hl) as (Hw & Hl' & _).
  rewrite query_loop_cons by done. cbv zeta. set (e := offset w + nr_pages w * 4096).
  assert (∀ off left, covers l (r_prot req) off left → covers (w :: l) (r_prot req) off left) as Hmono.
  { intros ?? Hc x Hx. destruct (Hc x Hx) as (v & ? & ? & ?). exists v. by rewrite elem_of_cons; auto. }
  destruct (Z.ltb_spec off (offset w)); [done|].
  destruct (Z.leb_spec e off); [intros E; apply Hmono; by eapply IH|].
  destruct (Z.eqb_spec (Z.land (prot w) (r_prot req)) (r_prot req)) as [Hp|]; [simpl|done].
  assert (∀ x, off <= x < e → ∃ v, v ∈ w :: l ∧
    offset v <= x < offset v + nr_pages v * 4096 ∧ Z.land (prot v) (r_prot req) = r_prot req) as Hin.
  { intros x Hx. exists w. rewrite elem_of_cons. split_and!; auto; lia. }
  destruct (Z.leb_spec (off + left) e).
  - intros _ x Hx. apply Hin. lia.
  - case_bool_decide; [done|]. intros E.
    apply IH in E; [|done|destruct Hw; lia|lia|lia].
    intros x Hx. destruct (Z_lt_le_dec x e); [apply Hin; lia|]. apply (Hmono _ _ E). lia.
Qed.

Lemma query_loop_complete req l : ∀ off left out,
  r_type req = SCIF_WINDOW_PARTIAL →
  reg_list_ok l → 0 <= off → 0 < left → off + left < 2 ^ 63 →
  covers l (r_prot req) off left → (query_loop req l off left out).1 = 0.
Proof.
  induction l as [|w l IH]; intros off left out Ht Hl Hoff Hleft Hend Hc.
  { destruct (Hc off ltac:(lia)) as (v & Hv & _). by apply not_elem_of_nil in Hv. }
  destruct (reg_list_cons _ _ Hl) as (Hw & Hl' & Hap).
  rewrite query_loop_cons by done. cbv zeta. set (e := offset w + nr_pages w * 4096).
  assert (∀ off left, e <= off → covers (w :: l) (r_prot req) off left →
    covers l (r_prot req) off left) as Hdrop.
  { intros off' left' He Hc' x Hx. destruct (Hc' x Hx) as (v & Hv & Hr & Hpv).
    apply elem_of_cons in Hv as [->|Hv]; [unfold e in He; lia|]. by exists v. }
  destruct (Hc off ltac:(lia)) as (v & Hv & Hr & Hpv). apply elem_of_cons in Hv.
  destruct (Z.ltb_spec off (offset w)).
  { exfalso. destruct Hv as [->|Hv]; [lia|]. destruct (Hap _ Hv) as [_ Ha].
    unfold apart in Ha. destruct Hw. lia. }
  destruct (Z.leb_spec e off); [by apply IH, Hdrop|].
  assert (v = w) as ->.
  { destruct Hv as [->|Hv]; [done|]. destruct (Hap _ Hv) as [_ Ha]. unfold apart in Ha.
    unfold e in *. lia. }
  rewrite Hpv, Z.eqb_refl. simpl. destruct (Z.leb_spec (off + left) e).
  - rewrite bool_decide_true by auto. done.
  - rewrite bool_decide_false by (by rewrite Ht).
    apply IH; try done; [unfold e; destruct Hw; lia|lia|lia|].
    apply Hdrop; [lia|]. intros x Hx. apply Hc. lia.
Qed.

(** The window handed back is the one that holds the first byte. *)
Lemma query_loop_out req l : ∀ off left out out',
  reg_list_ok l → 0 <= off → 0 < left → off + left < 2 ^ 63 →
  query_loop req l off left out = (0, out') →
  (left = nr_bytes req → ∃ w, out' = Some w ∧ w ∈ l ∧ offset w <= off < offset w + nr_pages w * 4096) ∧
  (left < nr_bytes req → out' = out).
Proof.
  induction l as [|w l IH]; intros off left out out' Hl Hoff Hleft Hend; [done|].
  destruct (reg_list_cons _ _ Hl) as (Hw & Hl' & _).
  rewrite query_loop_cons by done. cbv zeta. set (e := offset w + nr_pages w * 4096).
  destruct (Z.ltb_spec off (offset w)); [done|]. destruct (Z.leb_spec e off).
  { intros E. destruct (IH _ _ _ _ Hl' Hoff Hleft Hend E) as [Ha Hb]. split; [|done].
    intros Hx. destruct (Ha Hx) as (v & ? & ? & ?). exists v. rewrite elem_of_cons. auto. }
  destruct (negb _); [done|].
  set (out1 := if left =? nr_bytes req then Some w else out).
  assert (out' = out1 → (left = nr_bytes req → ∃ w0, out' = Some w0 ∧ w0 ∈ w :: l ∧
            offset w0 <= off < offset w0 + nr_pages w0 * 4096) ∧
          (left < nr_bytes req → out' = out)) as Hdone.
  { intros ->. unfold out1. split; intros; destruct (Z.eqb_spec left (nr_bytes req)); try lia; [|done].
    exists w. rewrite elem_of_cons. split_and!; auto; unfold e in *; lia. }
  destruct (Z.leb_spec (off + left) e).
  - case_bool_decide; [|destruct (_ =? e)]; intros E; try done; apply Hdone; congruence.
  - case_bool_decide; [done|]. intros E.
    destruct (Z_lt_le_dec (left - (e - off)) (nr_bytes req)).
    + apply IH in E as [_ E]; [|done|destruct Hw; lia|lia|lia]. apply Hdone. auto.
    + split; lia.
Qed.

(** ** Unregistration *)

Definition w_end (w : scif_window) : Z := offset w + nr_pages w * 4096.
Definition touches (off e : Z) (w : scif_window) : Prop := offset w < e ∧ off < w_end w.
Definition inside (off e : Z) (w : scif_window) : Prop := off <= offset w ∧ w_end w <= e.

#[export] Instance inside_dec off e w : Decision (inside off e w).
Proof. unfold inside. apply _. Defined.

(** What a successful unregistration of [[off, e)] does to one window, and the
    message it sends for it. *)
Definition unregistered (off e : Z) (w : scif_window) : scif_window :=
  if bool_decide (inside off e w ∧ unreg_state w = SCIF_UNREG_NOT_INITIATED)
  then set_unreg_state w SCIF_UNREG_REQUESTED else w.
Definition unreg_sent (off e : Z) (w : scif_window) : list unreg_msg :=
  if bool_decide (inside off e w ∧ unreg_state w = SCIF_UNREG_NOT_INITIATED)
  then [UnregMsg (alloc_vaddr w) (w_addr w)] else [].

Lemma unregister_window_inside send off e w :
  (∀ m, send m = 0) → inside off e w →
  scif_unregister_window send w = (0, unregistered off e w, unreg_sent off e w).
Proof.
  intros Hsend Hin. unfold scif_unregister_window, scif_send_scif_unregister, unregistered, unreg_sent.
  rewrite Hsend. case_bool_decide as Hu.
  - by rewrite !bool_decide_true.
  - by rewrite !bool_decide_false by (by intros []).
Qed.

Lemma unregistered_outside off e w :
  ¬ inside off e w → unregistered off e w = w ∧ unreg_sent off e w = [].
Proof.
  intros Hn. unfold unregistered, unreg_sent. by rewrite !bool_decide_false by (by intros []).
Qed.

Lemma outside_all off e l :
  Forall (λ w, e <= offset w) l → Forall reg_ok l →
  unregistered off e <$> l = l ∧ concat (unreg_sent off e <$> l) = [].
Proof.
  intros Hl Hok. induction Hl as [|w l Hw Hl IH]; [done|]. inversion Hok; subst.
  destruct (unregistered_outside off e w) as [E1 E2].
  { unfold inside, w_end. intros []. destruct H1; lia. }
  destruct IH as [I1 I2]; [done|]. rewrite !fmap_cons. simpl. by rewrite I1, I2, E1, E2.
Qed.

Lemma unregister_loop_spec send l : ∀ off e rc l' sent,
  (∀ m, send m = 0) → reg_list_ok l → off < e →
  unregister_loop send l off e 0 = (rc, l', sent) →
  (rc = 0 ∨ rc = - EINVAL) ∧
  (rc = 0 ↔ ∀ w, w ∈ l → touches off e w → inside off e w) ∧
  (rc = 0 → l' = unregistered off e <$> l ∧ sent = concat (unreg_sent off e <$> l)).
Proof.
  induction l as [|w l IH]; intros off e rc l' sent Hsend Hl Hlt; cbn [unregister_loop].
  { intros [= <- <- <-]. split_and!; [by left| |done]. split; [|done].
    intros _ w Hw. by apply not_elem_of_nil in Hw. }
  destruct (reg_list_cons _ _ Hl) as (Hw & Hl' & Hap).
  rewrite (end_offset_ok w) by done. change (offset w + nr_pages w * 4096) with (w_end w).
  assert (offset w < w_end w) as Hpos by (destruct Hw; unfold w_end; lia).
  destruct (Z.leb_spec e (offset w)) as [Hge|Hge].
  { intros [= <- <- <-]. split_and!; [by left| |].
    - split; [|done]. intros _ v Hv [Ht _].
      apply elem_of_cons in Hv as [->|Hv]; [lia|].
      destruct (Hap _ Hv) as [_ Ha]. unfold apart, w_end in *. lia.
    - intros _. destruct (outside_all off e (w :: l)) as [-> ->]; [|apply Hl|done].
      constructor; [done|]. apply Forall_forall. intros v Hv.
      destruct (Hap _ Hv) as [_ Ha]. unfold apart, w_end in *. lia. }
  assert ((∀ v, v ∈ w :: l → touches off e v → inside off e v) ↔
    (touches off e w → inside off e w) ∧ ∀ v, v ∈ l → touches off e v → inside off e v) as Hsplit.
  { setoid_rewrite elem_of_cons. naive_solver. }
  rewrite Hsplit. clear Hsplit. unfold touches at 1, inside at 1.
  destruct (Z.leb_spec (w_end w) off) as [Hbelow|Hbelow].
  { destruct (unregister_loop send l off e 0) as [[rc1 l1] sent1] eqn:E. intros [= <- <- <-].
    destruct (IH _ _ _ _ _ Hsend Hl' Hlt E) as (H1 & H2 & H3).
    destruct (unregistered_outside off e w) as [E1 E2]; [unfold inside; lia|].
    split_and!; [done|rewrite H2; split; [intros; split; [lia|done]|naive_solver]|].
    intros Hrc. destruct (H3 Hrc) as [-> ->]. rewrite !fmap_cons. simpl. by rewrite E1, E2. }
  destruct (Z.ltb_spec (offset w) off); [|destruct (Z.ltb_spec e (w_end w))].
  1,2: destruct (Z.ltb_spec off (w_end w)); [simpl|lia]; intros [= <- <- <-]; unfold EINVAL;
    split_and!; [by right|split; [done|intros [Hx _]; lia]|done].
  cbn [andb]. rewrite (unregister_window_inside _ off e) by (done || (unfold inside; lia)).
  destruct (unregister_loop send l off e 0) as [[rc1 l1] sent1] eqn:E. intros [= <- <- <-].
  destruct (IH _ _ _ _ _ Hsend Hl' Hlt E) as (H1 & H2 & H3).
  split_and!; [done|rewrite H2; split; [intros; split; [lia|done]|naive_solver]|].
  intros Hrc. destruct (H3 Hrc) as [-> ->]. rewrite !fmap_cons. done.
Qed.

(** ** Temporary cached windows *)

Definition tcw_end (w : scif_window) : Z := va_for_temp w + nr_pages w * 4096.
Definition tcw_apart (a b : scif_window) : Prop := tcw_end a <= va_for_temp b.

Lemma tcw_loop_sound req l : ∀ seen s e w,
  Forall tcw_ok l → t_rc (tcw_loop req seen l s e) = 0 →
  t_out (tcw_loop req seen l s e) = Some w →
  w ∈ l ∧ va_for_temp w <= s ∧ e <= tcw_end w ∧ Z.land (prot w) (r_prot req) = r_prot req ∧
  t_list (tcw_loop req seen l s e) = rev seen ++ l ∧ t_req (tcw_loop req seen l s e) = req.
Proof.
  induction l as [|x l IH]; intros seen s e w Hok; simpl; [done|].
  inversion Hok as [|? ? Hx Hok']; subst. rewrite (end_va_ok x) by done.
  destruct (_ && _); [done|]. destruct (Z.leb_spec (va_for_temp x + nr_pages x * 4096) s).
  { intros Hrc Hout. destruct (IH _ _ _ _ Hok' Hrc Hout) as (? & ? & ? & ? & E & ?).
    rewrite elem_of_cons. split_and!; auto. rewrite E. simpl. by rewrite <- app_assoc. }
  destruct (Z.eqb_spec (Z.land (prot x) (r_prot req)) (r_prot req)); [|done].
  destruct (_ && _) eqn:Eb; [|done]. simpl. intros _ [= <-].
  apply andb_true_iff in Eb as [E1%Z.leb_le E2%Z.leb_le]. rewrite elem_of_cons.
  unfold tcw_end. auto 10.
Qed.

Lemma tcw_loop_complete req l w : ∀ seen s e,
  Forall tcw_ok l → StronglySorted tcw_apart l → s < e → w ∈ l →
  va_for_temp w <= s → e <= tcw_end w → Z.land (prot w) (r_prot req) = r_prot req →
  t_rc (tcw_loop req seen l s e) = 0 ∧ t_out (tcw_loop req seen l s e) = Some w.
Proof.
  induction l as [|x l IH]; intros seen s e Hok Hs Hse Hw H1 H2 H3; simpl.
  { by apply not_elem_of_nil in Hw. }
  inversion Hok as [|? ? Hx Hok']; inversion Hs as [|? ? Hs' Hall]; subst.
  rewrite (end_va_ok x) by done. change (va_for_temp x + nr_pages x * 4096) with (tcw_end x).
  apply elem_of_cons in Hw as [->|Hw].
  - destruct (Z.ltb_spec s (va_for_temp x)); [lia|]. simpl.
    destruct (Z.leb_spec (tcw_end x) s); [lia|]. rewrite H3, Z.eqb_refl.
    destruct (Z.leb_spec (va_for_temp x) s); [|lia].
    destruct (Z.leb_spec e (tcw_end x)); [done|lia].
  - rewrite Forall_forall in Hall. specialize (Hall _ Hw). unfold tcw_apart in Hall.
    destruct Hx as (? & ? & ?). unfold tcw_end in *.
    destruct (Z.ltb_spec s (va_for_temp x)); [lia|]. simpl.
    destruct (Z.leb_spec (va_for_temp x + nr_pages x * 4096) s); [|lia]. by apply IH.
Qed.

Lemma tcw_last_ends l x :
  Forall tcw_ok l → StronglySorted tcw_apart l → last l = Some x →
  Forall (λ w, tcw_end w <= tcw_end x) l.
Proof.
  induction l as [|y l IH]; intros Hok Hs Hl; [done|].
  inversion Hs as [|? ? Hs' Hall]; inversion Hok as [|? ? _ Hok']; subst. destruct l as [|z l].
  - simpl in Hl. injection Hl as <-. by repeat constructor.
  - rewrite last_cons_cons in Hl. constructor; [|by apply IH].
    apply last_Some_elem_of in Hl. rewrite Forall_forall in Hall, Hok'.
    specialize (Hall _ Hl). destruct (Hok' _ Hl) as (? & ? & _).
    unfold tcw_apart, tcw_end in *. lia.
Qed.

Lemma destroy_loop_spec l : ∀ s e kept gone,
  Forall tcw_ok l → StronglySorted (λ a b, va_for_temp a <= va_for_temp b) l → s < e →
  destroy_loop l s e = (kept, gone) →
  kept = filter (λ w, tcw_end w <= s ∨ e <= va_for_temp w) l ∧
  gone = filter (λ w, ¬ (tcw_end w <= s ∨ e <= va_for_temp w)) l.
Proof.
  induction l as [|w l IH]; intros s e kept gone Hok Hs Hse; simpl.
  { intros [= <- <-]. done. }
  inversion Hok as [|? ? Hw Hok']; inversion Hs as [|? ? Hs' Hall]; subst.
  destruct (_ && _) eqn:Eb.
  - intros [= <- <-]. apply andb_true_iff in Eb as [E1%Z.ltb_lt E2%Z.leb_le].
    assert (Forall (λ v, tcw_end v <= s ∨ e <= va_for_temp v) (w :: l)) as Hall'.
    { constructor; [by right|]. eapply Forall_impl; [done|]. simpl. lia. }
    rewrite filter_all by done. split; [done|].
    symmetry. apply filter_none. eapply Forall_impl; [done|]. simpl. auto.
  - destruct (destroy_loop l s e) as [k g] eqn:E. rewrite (end_va_ok w) by done.
    destruct (IH _ _ _ _ Hok' Hs' Hse E) as [-> ->]. rewrite !filter_cons.
    change (va_for_temp w + nr_pages w * 4096) with (tcw_end w).
    assert (0 < tcw_end w - va_for_temp w) by (destruct Hw; unfold tcw_end; lia).
    apply andb_false_iff in Eb. rewrite Z.ltb_ge, Z.leb_gt in Eb.
    destruct (Z.leb_spec (tcw_end w) s); intros [= <- <-]; repeat case_decide; try done; lia.
Qed.

(** ** Claims *)

Definition demo_w (a pages p off va : Z) : scif_window :=
  Window a pages p off va 0 SCIF_UNREG_NOT_INITIATED.
Definition demo_list : list scif_window :=
  [demo_w 1 2 3 0x1000 0x1000; demo_w 2 1 1 0x3000 0x3000; demo_w 3 1 3 0x8000 0x8000].

Lemma demo_list_ok : reg_list_ok demo_list.
Proof.
  split; [repeat (apply Forall_cons; split; [vm_compute; split_and!; congruence|]); apply Forall_nil; exact I|].
  repeat (apply SSorted_cons;
    [|repeat (apply Forall_cons; split; [vm_compute; congruence|]); apply Forall_nil; exact I]).
  apply SSorted_nil.
Qed.

(** Insertion keeps a list sorted and adds exactly the window: for
    scif_insert_window by offset, for scif_insert_tcw by virtual address, where
    the shortcut that compares with the tail first gives the same list as the
    plain walk. *)
Theorem scif_insert_sorted w l :
  (StronglySorted (λ a b, offset a <= offset b) l →
   StronglySorted (λ a b, offset a <= offset b) (scif_insert_window w l) ∧
   scif_insert_window w l ≡ₚ w :: l) ∧
  (StronglySorted (λ a b, va_for_temp a <= va_for_temp b) l →
   StronglySorted (λ a b, va_for_temp a <= va_for_temp b) (scif_insert_tcw w l) ∧
   scif_insert_tcw w l ≡ₚ w :: l ∧ scif_insert_tcw w l = insert_by va_for_temp w l).
Proof.
  split; intros Hs.
  - split; [by apply insert_by_sorted|apply insert_by_perm].
  - rewrite insert_tcw_plain by done.
    split_and!; [by apply insert_by_sorted|apply insert_by_perm|done].
Qed.

Lemma scif_insert_sorted_witness :
  StronglySorted (λ a b, offset a <= offset b)
    (scif_insert_window (demo_w 4 1 1 0x5000 0) demo_list).
Proof.
  apply (proj1 (proj1 (scif_insert_sorted (demo_w 4 1 1 0x5000 0) demo_list)
    ltac:(repeat (apply SSorted_cons;
      [|repeat (apply Forall_cons; split; [vm_compute; congruence|]); apply Forall_nil; exact I]);
      apply SSorted_nil))).
Defined.

(** Scif_query_window validates exactly the ranges the registered windows
    cover.  On a list of disjoint windows sorted by offset it returns 0 for a
    partial query if and only if every byte of the range lies in a window with
    the requested protection; for every kind of query success implies this, and
    the window handed back is the one holding the first byte; a query of zero
    bytes is -EINVAL. *)
Theorem scif_query_window_correct req l rc out :
  reg_list_ok l → 0 <= r_start req → 0 <= nr_bytes req → r_start req + nr_bytes req < 2 ^ 63 →
  scif_query_window req l = (rc, out) →
  (nr_bytes req = 0 → rc = - EINVAL) ∧
  (rc = 0 → covers l (r_prot req) (r_start req) (nr_bytes req) ∧
     ∃ w, out = Some w ∧ w ∈ l ∧ offset w <= r_start req < offset w + nr_pages w * 4096) ∧
  (r_type req = SCIF_WINDOW_PARTIAL → 0 < nr_bytes req →
   (rc = 0 ↔ covers l (r_prot req) (r_start req) (nr_bytes req))).
Proof.
  intros Hl Hs Hn He. unfold scif_query_window.
  destruct (Z.eqb_spec (nr_bytes req) 0) as [H0|H0].
  { intros [= <- <-]. unfold EINVAL. split_and!; [done|done|lia]. }
  assert (0 < nr_bytes req) as Hpos by lia. intros E. split_and!; [done| |].
  - intros ->. split; [eapply query_loop_sound; eauto; lia|].
    destruct (query_loop_out _ _ _ _ _ _ Hl Hs Hpos He E) as [Ho _]. by apply Ho.
  - intros Ht _. split.
    + intros ->. eapply query_loop_sound; eauto; lia.
    + intros Hc. pose proof (query_loop_complete req l _ _ None Ht Hl Hs Hpos He Hc) as H.
      by rewrite E in H.
Qed.

Lemma scif_query_window_correct_witness :
  let req := Req 0x1800 0x2000 1 SCIF_WINDOW_PARTIAL in
  (scif_query_window req demo_list).1 = 0 ∧ covers demo_list 1 0x1800 0x2000.
Proof.
  intros req. destruct (scif_query_window req demo_list) as [rc out] eqn:E.
  assert (rc = 0) as Hrc by (vm_compute in E; congruence).
  split; [exact Hrc|].
  exact (proj1 (proj1 (proj2 (scif_query_window_correct req demo_list rc out demo_list_ok
    ltac:(vm_compute; congruence) ltac:(vm_compute; congruence) ltac:(vm_compute; congruence) E)) Hrc)).
Defined.

(** Unregistering a range never splits a window.  When messages can be sent,
    scif_rma_list_unregister succeeds exactly when every window that intersects
    the range lies inside it; then precisely the windows inside that were not
    already being unregistered get one message each and move to the requested
    state, and all other windows are untouched.  Otherwise it returns -EINVAL. *)
Theorem scif_rma_list_unregister_whole send l off pages rc l' sent :
  (∀ m, send m = 0) → reg_list_ok l → 0 <= off → 0 < pages < 2 ^ 31 →
  off + pages * 4096 < 2 ^ 63 →
  scif_rma_list_unregister send l off pages = (rc, l', sent) →
  let e := off + pages * 4096 in
  (rc = 0 ∨ rc = - EINVAL) ∧
  (rc = 0 ↔ ∀ w, w ∈ l → touches off e w → inside off e w) ∧
  (rc = 0 → l' = unregistered off e <$> l ∧ sent = concat (unreg_sent off e <$> l)).
Proof.
  intros Hsend Hl Ho Hp He. unfold scif_rma_list_unregister, PAGE_SHIFT.
  rewrite Z.shiftl_mul_pow2 by lia. change (2 ^ 12) with 4096.
  rewrite (s64_small (pages * 4096)), s64_small by lia.
  intros E. apply unregister_loop_spec with send; try done. lia.
Qed.

Lemma scif_rma_list_unregister_whole_witness :
  (scif_rma_list_unregister (λ _, 0) demo_list 0x1000 3).1.1 = 0 ∧
  (scif_rma_list_unregister (λ _, 0) demo_list 0x1000 3).2 = [UnregMsg 0 1; UnregMsg 0 2].
Proof.
  destruct (scif_rma_list_unregister (λ _, 0) demo_list 0x1000 3) as [[rc l'] sent] eqn:E.
  assert (rc = 0) as Hrc by (vm_compute in E; congruence). split; [exact Hrc|].
  exact (proj2 (proj2 (proj2 (scif_rma_list_unregister_whole (λ _, 0) demo_list 0x1000 3 rc l' sent
    (λ _, eq_refl) demo_list_ok ltac:(lia) ltac:(lia) ltac:(lia) E)) Hrc)).
Defined.

(** A hit in the cache of temporary windows is a window that contains the
    whole request with the requested protection, and leaves cache and request
    alone; on a cache of disjoint windows sorted by address such a window is
    always found. *)
Theorem scif_query_tcw_correct req l :
  Forall tcw_ok l → StronglySorted tcw_apart l →
  0 <= r_start req → 0 < nr_bytes req → r_start req + nr_bytes req < 2 ^ 64 →
  let r := scif_query_tcw req l in
  (∀ w, t_rc r = 0 → t_out r = Some w →
     w ∈ l ∧ va_for_temp w <= r_start req ∧ r_start req + nr_bytes req <= tcw_end w ∧
     Z.land (prot w) (r_prot req) = r_prot req ∧ t_list r = l ∧ t_req r = req) ∧
  (∀ w, w ∈ l → va_for_temp w <= r_start req → r_start req + nr_bytes req <= tcw_end w →
     Z.land (prot w) (r_prot req) = r_prot req → t_rc r = 0 ∧ t_out r = Some w).
Proof.
  intros Hok Hs H1 H2 H3 r. subst r. unfold scif_query_tcw.
  destruct (Z.eqb_spec (nr_bytes req) 0); [lia|]. rewrite wrap_small by (unfold in_width; lia).
  pose proof (λ w, tcw_loop_sound req l [] (r_start req) (r_start req + nr_bytes req) w Hok) as Hsound.
  simpl in Hsound. destruct (last l) as [x|] eqn:El.
  2: { split; [exact Hsound|]. intros w Hw ???. apply tcw_loop_complete; done || lia. }
  destruct (Z.ltb_spec (end_va x) (r_start req)) as [Hlt|Hlt]; [split; [done|]|].
  - intros w Hw Ha Hb Hc. exfalso. apply last_Some_elem_of in El as Hx.
    pose proof (tcw_last_ends _ _ Hok Hs El) as Hends. rewrite Forall_forall in Hok, Hends.
    rewrite end_va_ok in Hlt by auto. specialize (Hends _ Hw). unfold tcw_end in *. lia.
  - split; [exact Hsound|]. intros w Hw ???. apply tcw_loop_complete; done || lia.
Qed.

Definition demo_tcw_ok : Forall tcw_ok demo_list ∧ StronglySorted tcw_apart demo_list.
Proof.
  split; [repeat (apply Forall_cons; split; [vm_compute; split_and!; congruence|]); apply Forall_nil; exact I|].
  repeat (apply SSorted_cons;
    [|repeat (apply Forall_cons; split; [vm_compute; congruence|]); apply Forall_nil; exact I]).
  apply SSorted_nil.
Qed.

Lemma scif_query_tcw_correct_witness :
  t_rc (scif_query_tcw (Req 0x2000 0x1000 1 SCIF_WINDOW_PARTIAL) demo_list) = 0 ∧
  t_out (scif_query_tcw (Req 0x2000 0x1000 1 SCIF_WINDOW_PARTIAL) demo_list) =
    Some (demo_w 1 2 3 0x1000 0x1000).
Proof.
  apply (proj2 (scif_query_tcw_correct (Req 0x2000 0x1000 1 SCIF_WINDOW_PARTIAL) demo_list
    (proj1 demo_tcw_ok) (proj2 demo_tcw_ok) ltac:(vm_compute; congruence)
    ltac:(vm_compute; congruence) ltac:(vm_compute; congruence)));
    [by left|vm_compute; congruence|vm_compute; congruence|reflexivity].
Defined.

(** Where a request starts below the first cached window it meets and the
    protections match, the query destroys that window and rewrites the request
    to start at the window: the range the caller then registers does not contain
    the first byte of the original request, although the comment says the window
    is expanded. *)
Theorem scif_query_tcw_expansion_loses_start req w l :
  Forall tcw_ok (w :: l) → StronglySorted tcw_apart (w :: l) →
  0 <= r_start req → 0 < nr_bytes req → r_start req + nr_bytes req < 2 ^ 64 →
  r_start req < va_for_temp w → va_for_temp w <= r_start req + nr_bytes req →
  Z.land (prot w) (r_prot req) = r_prot req →
  let r := scif_query_tcw req (w :: l) in
  t_rc r = - ENXIO ∧ t_destroyed r = Some w ∧ t_list r = l ∧
  r_start (t_req r) = va_for_temp w ∧ r_start req < r_start (t_req r).
Proof.
  intros Hok Hs H1 H2 H3 H4 H5 H6 r. subst r. unfold scif_query_tcw.
  destruct (Z.eqb_spec (nr_bytes req) 0); [lia|]. rewrite wrap_small by (unfold in_width; lia).
  set (e := r_start req + nr_bytes req).
  assert (tcw_ok w) as Hw by (by inversion Hok).
  assert (tcw_loop req [] (w :: l) (r_start req) e =
    Tcw (- ENXIO) None (expand_req req w (r_start req) e) l (Some w)) as Hloop.
  { simpl. rewrite (end_va_ok w) by done. rewrite H6, Z.eqb_refl.
    destruct Hw as (? & ? & ?). unfold e.
    destruct (Z.ltb_spec (r_start req) (va_for_temp w)); [simpl|lia].
    destruct (Z.ltb_spec (r_start req + nr_bytes req) (va_for_temp w)); [lia|].
    destruct (Z.leb_spec (va_for_temp w + nr_pages w * 4096) (r_start req)); [lia|].
    destruct (Z.leb_spec (va_for_temp w) (r_start req)); [lia|]. done. }
  assert (r_start (expand_req req w (r_start req) e) = va_for_temp w) as Hstart.
  { unfold expand_req. destruct (Z.ltb_spec (r_start req) (va_for_temp w)); [|lia].
    destruct (_ <=? _); done. }
  destruct (last (w :: l)) as [x|] eqn:El.
  - destruct (Z.ltb_spec (end_va x) (r_start req)) as [Hlt|].
    + exfalso. pose proof (tcw_last_ends _ _ Hok Hs El) as Hends.
      apply last_Some_elem_of in El. rewrite Forall_forall in Hok, Hends.
      rewrite end_va_ok in Hlt by auto. specialize (Hends w ltac:(by left)).
      destruct Hw as (? & ? & ?). unfold tcw_end in *. lia.
    + rewrite Hloop. simpl. rewrite Hstart. done.
  - rewrite Hloop. simpl. rewrite Hstart. done.
Qed.

Lemma scif_query_tcw_expansion_loses_start_witness :
  let r := scif_query_tcw (Req 0 0x2000 1 SCIF_WINDOW_PARTIAL) demo_list in
  t_rc r = - ENXIO ∧ 0 < r_start (t_req r) ∧ t_req r = Req 0x1000 0x3000 1 SCIF_WINDOW_PARTIAL.
Proof.
  intros r. destruct (scif_query_tcw_expansion_loses_start (Req 0 0x2000 1 SCIF_WINDOW_PARTIAL)
    (demo_w 1 2 3 0x1000 0x1000) (tail demo_list) (proj1 demo_tcw_ok) (proj2 demo_tcw_ok))
    as (H1 & _ & _ & _ & H2); [vm_compute; congruence..|reflexivity|].
  split_and!; [exact H1|exact H2|vm_compute; reflexivity].
Defined.

(** Invalidation of an address range leaves no stale translation: on a cache
    sorted by address __scif_rma_destroy_tcw keeps exactly the windows disjoint
    from the range, in order, and destroys exactly those that intersect it. *)
Theorem scif_rma_destroy_tcw_exact l start len kept gone :
  Forall tcw_ok l → StronglySorted (λ a b, va_for_temp a <= va_for_temp b) l →
  0 <= start → 0 < len → start + len < 2 ^ 64 →
  __scif_rma_destroy_tcw l start len = (kept, gone) →
  kept = filter (λ w, tcw_end w <= start ∨ start + len <= va_for_temp w) l ∧
  gone = filter (λ w, ¬ (tcw_end w <= start ∨ start + len <= va_for_temp w)) l.
Proof.
  intros Hok Hs H1 H2 H3. unfold __scif_rma_destroy_tcw.
  rewrite wrap_small by (unfold in_width; lia).
  destruct (Z.leb_spec (start + len) start); [lia|]. destruct (Z.eqb_spec len 0); [lia|].
  intros E. by apply destroy_loop_spec.
Qed.

Lemma scif_rma_destroy_tcw_exact_witness :
  (__scif_rma_destroy_tcw demo_list 0x2000 0x1800).1 = [demo_w 3 1 3 0x8000 0x8000].
Proof.
  destruct (__scif_rma_destroy_tcw demo_list 0x2000 0x1800) as [kept gone] eqn:E.
  assert (StronglySorted (λ a b, va_for_temp a <= va_for_temp b) demo_list) as Hs.
  { repeat (apply SSorted_cons;
      [|repeat (apply Forall_cons; split; [vm_compute; congruence|]); apply Forall_nil; exact I]).
    apply SSorted_nil. }
  simpl. rewrite (proj1 (scif_rma_destroy_tcw_exact demo_list 0x2000 0x1800 kept gone
    (proj1 demo_tcw_ok) Hs ltac:(lia) ltac:(lia) ltac:(lia) E)).
  vm_compute. reflexivity.
Defined.

End RmaList.
