(* ===== verification/DmaWindow.v ===== *)
(** * DMA addresses of registration windows

    Models the part of [scif_rma.c] that computes the DMA addresses of a window
    ([scif_map_window], [scif_dma_map]) and the look-up of the address of an offset in
    [scif_dma.c] ([scif_off_to_dma_addr] with its iterator).  A window stores its pages as
    chunks that are contiguous for DMA; [dma_byte] is the reference: the address of the
    byte at an offset. *)
From S2P Require Import Prelude RmaList.
Local Open Scope Z_scope.

Module DmaWindow.
Import RmaList.

(** [struct scif_window] with its arrays of chunks; [page_va] lists the kernel addresses
    of the pinned pages of a window of this node. *)
Record dma_window := DWin {
  win : scif_window;
  w_type : scif_window_type;
  nr_contig_chunks : Z;
  dma_addr : list Z;
  num_pages : list Z;
  page_va : list Z;
}.

Definition w_offset (w : dma_window) : Z := offset (win w).
Definition w_end (w : dma_window) : Z := end_offset (win w).

(** ** The address of an offset *)

Record scif_window_iter := Iter { it_offset : Z; it_index : Z }.

Definition scif_init_window_iter (w : dma_window) : scif_window_iter := Iter (w_offset w) 0.

(** The chunks in use. *)
Definition chunks (w : dma_window) : list (Z * Z) :=
  take (Z.to_nat (nr_contig_chunks w)) (zip (dma_addr w) (num_pages w)).

Definition SCIF_RMA_ERROR_CODE : Z := 2 ^ 64 - 1.

(** The loop over the chunks from number [i] on, which are [cs]: the address, the bytes
    to the end of the chunk, and the place for the iterator. *)
Fixpoint off_loop (cs : list (Z * Z)) (i start off : Z) : option (Z * Z * scif_window_iter) :=
  match cs with
  | [] => None
  | (da, n) :: cs =>
      let end_ := s64 (start + s64 (Z.shiftl n PAGE_SHIFT)) in
      if (start <=? off) && (off <? end_) then Some (u64 (da + (off - start)), end_ - off, Iter start i)
      else off_loop cs (i + 1) (s64 (start + s64 (Z.shiftl n PAGE_SHIFT))) off
  end.

Definition scif_off_to_dma_addr (w : dma_window) (off nr_bytes : Z) (iter : option scif_window_iter)
  : Z * Z * option scif_window_iter :=
  if nr_pages (win w) =? nr_contig_chunks w then
    let page_nr := s32 (Z.shiftr (s64 (off - w_offset w)) PAGE_SHIFT) in
    let page_off := Z.land off (PAGE_SIZE - 1) in
    (Z.lor (default 0 (dma_addr w !! Z.to_nat page_nr)) page_off, PAGE_SIZE - page_off, iter)
  else
    let '(i, start) := match iter with Some it => (it_index it, it_offset it) | None => (0, w_offset w) end in
    match off_loop (drop (Z.to_nat i) (chunks w)) i start off with
    | Some (a, n, it) => (a, n, match iter with Some _ => Some it | None => None end)
    | None => (SCIF_RMA_ERROR_CODE, nr_bytes, iter)
    end.

Definition __scif_off_to_dma_addr (w : dma_window) (off : Z) : Z := (scif_off_to_dma_addr w off 0 None).1.1.

(** ** Computing the chunks *)

(** How many of [l] follow on the page at [phys_prev] without a gap. *)
Fixpoint contig_run (phys_prev : Z) (l : list Z) : nat :=
  match l with
  | [] => O
  | phys_curr :: l => if negb (phys_curr =? u64 (phys_prev + PAGE_SIZE)) then O else S (contig_run phys_curr l)
  end.

(** The loop of [scif_map_window] over the pages that are left; [map_single] gives the
    DMA address of a physical range, or an error.  The result is the error and the two
    arrays; a chunk that could not be mapped has no address. *)
Fixpoint map_loop (fuel : nat) (map_single : Z → Z → Z + Z) (pages : list Z) : option (Z * list Z * list Z) :=
  match fuel with
  | O => None
  | S fuel =>
      match pages with
      | [] => Some (0, [], [])
      | p :: rest =>
          let k := contig_run p rest in
          let nr_contig_pages := Z.of_nat (S k) in
          match map_single p (Z.shiftl nr_contig_pages PAGE_SHIFT) with
          | inr err => Some (err, [0], [nr_contig_pages])
          | inl da =>
              '(err, das, ns) ← map_loop fuel map_single (drop k rest);
              Some (err, da :: das, nr_contig_pages :: ns)
          end
      end
  end.

Definition with_chunks (w : dma_window) (das ns : list Z) : dma_window :=
  DWin (win w) (w_type w) (zlen ns) das ns (page_va w).

(** Without an IOMMU: the management node maps every chunk, a card uses the physical
    address. *)
Definition scif_map_window (mgmt_node : bool) (map_single : Z → Z → Z + Z) (pages : list Z) (w : dma_window)
  : option (Z * dma_window) :=
  '(err, das, ns) ← map_loop (S (length pages)) (if mgmt_node then map_single else fun phys _ => inl phys) pages;
  Some (err, with_chunks w das ns).

(** The loop of [scif_dma_map] over the entries of the scatter list, [(address, length)];
    [grow] is its inner loop: the pages of the chunk at [da] and the entries left. *)
Fixpoint grow (da last_da n : Z) (sgl : list (Z * Z)) : Z * list (Z * Z) :=
  match sgl with
  | [] => (n, [])
  | (a, len) :: sgl' =>
      if a =? last_da then grow da (u64 (da + len)) (n + len / PAGE_SIZE) sgl' else (n, sgl)
  end.

Fixpoint sg_loop (fuel : nat) (sgl : list (Z * Z)) : option (list Z * list Z) :=
  match fuel with
  | O => None
  | S fuel =>
      match sgl with
      | [] => Some ([], [])
      | (a, len) :: sgl =>
          let '(n, rest) := grow a (u64 (a + len)) (len / PAGE_SIZE) sgl in
          '(das, ns) ← sg_loop fuel rest;
          Some (a :: das, n :: ns)
      end
  end.

(** [sgl] is the list after [dma_map_sg], which gives an error when it is empty. *)
Definition scif_dma_map (mem : bool) (sgl : list (Z * Z)) (w : dma_window) : option (Z * dma_window) :=
  if negb mem then Some (- ENOMEM, w)
  else match sgl with
       | [] => Some (- ENOMEM, w)
       | _ => '(das, ns) ← sg_loop (S (length sgl)) sgl; Some (0, with_chunks w das ns)
       end.

(** ** Reference *)

Fixpoint chunk_addr (cs : list (Z * Z)) (rel : Z) : Z :=
  match cs with
  | [] => SCIF_RMA_ERROR_CODE
  | (da, n) :: cs => if rel <? n * 4096 then da + rel else chunk_addr cs (rel - n * 4096)
  end.

Definition dma_byte (w : dma_window) (off : Z) : Z := chunk_addr (chunks w) (off - w_offset w).

Definition pages_of (cs : list (Z * Z)) : Z := foldr (fun c acc => c.2 + acc) 0 cs.

Definition chunk_ok (c : Z * Z) : Prop := 0 < c.2 ∧ 0 <= c.1 ∧ (4096 | c.1) ∧ c.1 + c.2 * 4096 <= 2 ^ 64.

Record window_ok (w : dma_window) : Prop := {
  ok_reg : reg_ok (win w);
  ok_aligned : (4096 | w_offset w);
  ok_count : zlen (chunks w) = nr_contig_chunks w;
  ok_chunks : Forall chunk_ok (chunks w);
  ok_pages : pages_of (chunks w) = nr_pages (win w);
  ok_int : nr_pages (win w) < 2 ^ 31;
}.

Definition iter_ok (w : dma_window) (iter : option scif_window_iter) (off : Z) : Prop :=
  match iter with
  | None => True
  | Some it => 0 <= it_index it ∧ it_index it <= zlen (chunks w) ∧
      it_offset it = w_offset w + pages_of (take (Z.to_nat (it_index it)) (chunks w)) * 4096 ∧ it_offset it <= off
  end.

(** ** The look-up is the reference *)

Lemma w_end_eq w : window_ok w → w_end w = w_offset w + nr_pages (win w) * 4096.
Proof. intros H. apply end_offset_ok, H. Qed.

Lemma pages_of_app cs ds : pages_of (cs ++ ds) = pages_of cs + pages_of ds.
Proof. induction cs as [|c cs IH]; cbn [pages_of foldr app]; [done|]. unfold pages_of in IH. rewrite IH. fold (pages_of cs). fold (pages_of ds). lia. Qed.

Lemma pages_of_cons c cs : pages_of (c :: cs) = c.2 + pages_of cs.
Proof. done. Qed.

Lemma pages_of_nonneg cs : Forall chunk_ok cs → zlen cs <= pages_of cs.
Proof.
  induction 1 as [|c cs (Hc & _) Hcs IH]; [done|]. rewrite pages_of_cons, zlen_cons. lia.
Qed.

Lemma chunk_addr_app cs ds rel : Forall chunk_ok cs → pages_of cs * 4096 <= rel →
  chunk_addr (cs ++ ds) rel = chunk_addr ds (rel - pages_of cs * 4096).
Proof.
  intros Hcs. revert rel. induction Hcs as [|[da n] cs (Hc & _) Hcs IH]; intros rel Hrel; cbn [app chunk_addr].
  - f_equal. cbn. lia.
  - rewrite pages_of_cons in *. cbn [snd] in *. pose proof (pages_of_nonneg cs Hcs). pose proof (zlen_nonneg cs).
    zcases; [lia|]. rewrite IH by lia. f_equal. lia.
Qed.

Lemma off_loop_spec cs : ∀ i start off, Forall chunk_ok cs → 0 <= start → start + pages_of cs * 4096 < 2 ^ 63 →
  start <= off < start + pages_of cs * 4096 →
  ∃ k n, (k < length cs)%nat ∧
    off_loop cs i start off =
      Some (chunk_addr cs (off - start), n, Iter (start + pages_of (take k cs) * 4096) (i + Z.of_nat k)) ∧
    0 < n ∧ off + n <= start + pages_of cs * 4096 ∧ start + pages_of (take k cs) * 4096 <= off ∧
    (4096 | off + n - start) ∧
    ∀ j, 0 <= j < n → chunk_addr cs (off - start + j) = chunk_addr cs (off - start) + j.
Proof.
  induction cs as [|[da n] cs IH]; intros i start off Hcs Hs Hb Hoff; [cbn in Hoff; lia|].
  rewrite pages_of_cons in *. cbn [snd] in *. inversion Hcs as [|? ? (Hn & Hda & _ & Hda') Hcs']; subst. cbn [fst snd] in *.
  pose proof (pages_of_nonneg cs Hcs'). pose proof (zlen_nonneg cs).
  cbn [off_loop chunk_addr]. unfold PAGE_SHIFT. rewrite Z.shiftl_mul_pow2 by lia. change (2 ^ 12) with 4096.
  rewrite (s64_small (n * 4096)), s64_small by lia.
  destruct (Z.leb_spec start off), (Z.ltb_spec off (start + n * 4096)); cbn [andb]; try lia.
  - exists 0%nat, (start + n * 4096 - off). cbn [length take pages_of foldr]. split; [lia|]. split_and!; try lia.
    + zcases; [|lia]. rewrite wrap_small by (unfold in_width; lia). do 4 f_equal; lia.
    + exists n. lia.
    + intros j Hj. zcases; lia.
  - destruct (IH (i + 1) (start + n * 4096) off Hcs') as (k & m & Hk & E & Hm & Hle & Hst & Hdiv & Hj); try lia.
    exists (S k), m. cbn [length take]. rewrite pages_of_cons. cbn [snd]. split; [lia|]. split_and!; try lia.
    + rewrite E. destruct (Z.ltb_spec (off - start) (n * 4096)); [lia|].
      replace (off - start - n * 4096) with (off - (start + n * 4096)) by lia.
      replace (start + (n + pages_of (take k cs)) * 4096) with (start + n * 4096 + pages_of (take k cs) * 4096) by lia.
      replace (i + Z.of_nat (S k)) with (i + 1 + Z.of_nat k) by lia. done.
    + replace (off + m - start) with (off + m - (start + n * 4096) + n * 4096) by lia.
      apply Z.divide_add_r; [done|apply Z.divide_factor_r].
    + intros j Hj'. specialize (Hj j Hj'). zcases; try lia.
      replace (off - start + j - n * 4096) with (off - (start + n * 4096) + j) by lia.
      replace (off - start - n * 4096) with (off - (start + n * 4096)) by lia. exact Hj.
Qed.

(** Every chunk is one page when there are as many chunks as pages. *)
Lemma one_page_chunks cs : Forall chunk_ok cs → pages_of cs = zlen cs → Forall (fun c => c.2 = 1) cs.
Proof.
  induction 1 as [|c cs (Hc & _) Hcs IH]; [constructor|]. rewrite pages_of_cons, zlen_cons. intros E.
  pose proof (pages_of_nonneg cs Hcs). constructor; [lia|]. apply IH. lia.
Qed.

Lemma chunk_addr_pages cs rel : Forall (fun c => c.2 = 1) cs → 0 <= rel < zlen cs * 4096 →
  ∃ c, cs !! Z.to_nat (rel / 4096) = Some c ∧ chunk_addr cs rel = c.1 + rel mod 4096.
Proof.
  intros Hcs. revert rel. induction Hcs as [|[da n] cs Hc Hcs IH]; intros rel Hrel; [change (zlen (@nil (Z * Z))) with 0 in Hrel; lia|].
  cbn [snd] in Hc. subst n. rewrite zlen_cons in Hrel. cbn [chunk_addr]. zcases.
  - exists (da, 1). rewrite Z.div_small, Z.mod_small by lia. done.
  - destruct (IH (rel - 1 * 4096)) as (c & E1 & E2); [lia|]. exists c. rewrite E2. split.
    + rewrite <- E1. replace (Z.to_nat (rel / 4096)) with (S (Z.to_nat ((rel - 1 * 4096) / 4096))); [done|divlia].
    + f_equal. divlia.
Qed.

Lemma chunks_lookup w k c : chunks w !! k = Some c → dma_addr w !! k = Some c.1.
Proof.
  unfold chunks. intros E. apply lookup_take_Some in E as [E _]. apply lookup_zip_with_Some in E as (a & n & -> & Ea & _). done.
Qed.

Lemma off_to_dma_paged w off nb iter : window_ok w → nr_pages (win w) = nr_contig_chunks w → w_offset w <= off < w_end w →
  scif_off_to_dma_addr w off nb iter = (dma_byte w off, 4096 - off mod 4096, iter) ∧
  ∀ j, 0 <= j < 4096 - off mod 4096 → dma_byte w (off + j) = dma_byte w off + j.
Proof.
  intros Hok Hp Hoff. pose proof Hok as [Hreg Hal Hcnt Hcs Hpg Hint]. rewrite (w_end_eq w Hok) in Hoff. destruct Hreg as (R1 & R2 & R3).
  fold (w_offset w) in R1, R3.
  assert (H1 : Forall (fun c => c.2 = 1) (chunks w)) by (apply one_page_chunks; [done|lia]).
  assert (∀ x, w_offset w <= x < w_offset w + nr_pages (win w) * 4096 →
    ∃ c, chunks w !! Z.to_nat ((x - w_offset w) / 4096) = Some c ∧ dma_byte w x = c.1 + x mod 4096) as Hb.
  { intros x Hx. destruct (chunk_addr_pages (chunks w) (x - w_offset w) H1) as (c & E1 & E2); [lia|].
    exists c. split; [done|]. unfold dma_byte. rewrite E2. f_equal. destruct Hal as [q ->]. divlia. }
  split.
  - unfold scif_off_to_dma_addr. rewrite (proj2 (Z.eqb_eq _ _) Hp). unfold PAGE_SHIFT, PAGE_SIZE.
    change (4096 - 1) with (2 ^ 12 - 1). rewrite land_pow2_mask by lia. change (2 ^ 12) with 4096.
    rewrite Z.shiftr_div_pow2 by lia. change (2 ^ 12) with 4096. rewrite s64_small by lia.
    rewrite s32_small by divlia. destruct (Hb off Hoff) as (c & E & ->). rewrite (chunks_lookup w _ c E). cbn [default].
    rewrite Forall_lookup in Hcs. destruct (Hcs _ _ E) as (_ & _ & [q Hq] & _). rewrite Hq.
    pose proof (Z.mod_pos_bound off 4096 eq_refl). change (q * 4096) with (q * 2 ^ 12). unfold id. rewrite lor_low by lia. done.
  - intros j Hj. pose proof (Z.mod_pos_bound off 4096 eq_refl).
    assert (off + j < w_offset w + nr_pages (win w) * 4096) by (destruct Hal as [q Hq]; rewrite Hq in *; divlia).
    destruct (Hb off Hoff) as (c & E & ->). destruct (Hb (off + j) ltac:(lia)) as (c' & E' & ->).
    replace ((off + j - w_offset w) / 4096) with ((off - w_offset w) / 4096) in E' by (destruct Hal as [q Hq]; rewrite Hq in *; divlia).
    rewrite E in E'. injection E' as <-. divlia.
Qed.

Lemma off_to_dma_spec w off nb iter : window_ok w → w_offset w <= off < w_end w → iter_ok w iter off →
  ∃ n iter', scif_off_to_dma_addr w off nb iter = (dma_byte w off, n, iter') ∧
    0 < n ∧ off + n <= w_end w ∧ (4096 | off + n) ∧ (iter = None → iter' = None) ∧ (∀ off', off <= off' → iter_ok w iter' off') ∧
    ∀ j, 0 <= j < n → dma_byte w (off + j) = dma_byte w off + j.
Proof.
  intros Hok Hoff Hit. pose proof Hok as [Hreg Hal Hcnt Hcs Hpg Hint].
  destruct (Z.eqb_spec (nr_pages (win w)) (nr_contig_chunks w)) as [Hp|Hp].
  - destruct (off_to_dma_paged w off nb iter Hok Hp Hoff) as [-> Hj]. pose proof (Z.mod_pos_bound off 4096 eq_refl).
    exists (4096 - off mod 4096), iter. rewrite (w_end_eq w Hok) in *. split_and!; try done; try lia.
    + destruct Hal as [q Hq]. rewrite Hq in *. divlia.
    + exists (off / 4096 + 1). divlia.
    + intros off' Hle. destruct iter as [it|]; [|done]. destruct Hit as (I1 & I2 & I3 & I4). cbn. split_and!; try done. lia.
  - unfold scif_off_to_dma_addr. rewrite (proj2 (Z.eqb_neq _ _) Hp). rewrite (w_end_eq w Hok) in *.
    destruct Hreg as (R1 & R2 & R3). fold (w_offset w) in R1, R3.
    set (i := match iter with Some it => it_index it | None => 0 end).
    set (st := match iter with Some it => it_offset it | None => w_offset w end).
    assert ((match iter with Some it => (it_index it, it_offset it) | None => (0, w_offset w) end) = (i, st)) as -> by by destruct iter.
    assert (0 <= i <= zlen (chunks w) ∧ st = w_offset w + pages_of (take (Z.to_nat i) (chunks w)) * 4096 ∧ st <= off) as (Hi & Hst & Hle).
    { subst i st. destruct iter as [it|]; [destruct Hit as (? & ? & ? & ?); split_and!; done|].
      change (pages_of (take (Z.to_nat 0) (chunks w))) with 0. pose proof (zlen_nonneg (chunks w)). lia. }
    set (pre := take (Z.to_nat i) (chunks w)) in *. set (post := drop (Z.to_nat i) (chunks w)).
    assert (chunks w = pre ++ post) as Esplit by (symmetry; apply take_drop).
    rewrite Esplit in Hpg, Hcs. apply Forall_app in Hcs as [Hpre Hpost]. rewrite pages_of_app in Hpg.
    pose proof (pages_of_nonneg pre Hpre). pose proof (zlen_nonneg pre).
    destruct (off_loop_spec post i st off Hpost) as (k & n & Hk & E & Hn & Hend & Hstart & Hdiv & Hj); try lia.
    rewrite E.
    assert (∀ x, st <= x → dma_byte w x = chunk_addr post (x - st)) as Hb.
    { intros x Hx. unfold dma_byte. rewrite Esplit, chunk_addr_app by (done || lia). f_equal. lia. }
    rewrite <- Hb by lia. eexists n, _. split; [reflexivity|]. split_and!; try done; try lia.
    + destruct Hal as [q Hq], Hdiv as [r Hr]. exists (r + q + pages_of pre). lia.
    + by intros ->.
    + intros off' Hle'. destruct iter as [it|]; [|done]. cbn [iter_ok it_index it_offset].
      assert (length pre = Z.to_nat i) as Hlen by (unfold pre; rewrite length_take; unfold zlen in Hi; lia).
      assert (take (Z.to_nat (i + Z.of_nat k)) (chunks w) = pre ++ take k post) as ->.
      { replace (Z.to_nat (i + Z.of_nat k)) with (length pre + k)%nat by lia. rewrite Esplit. apply take_app_add. }
      rewrite pages_of_app. unfold zlen. rewrite Esplit, length_app. split_and!; lia.
    + intros j Hj'. rewrite Hb, Hb by lia. rewrite <- Hj by done. f_equal. lia.
Qed.

Lemma chunk_addr_range cs rel : Forall chunk_ok cs → 0 <= rel < pages_of cs * 4096 → 0 <= chunk_addr cs rel < 2 ^ 64.
Proof.
  intros Hcs. revert rel. induction Hcs as [|[da n] cs (H1 & H2 & _ & H3) Hcs IH]; intros rel Hrel; [cbn in Hrel; lia|].
  rewrite pages_of_cons in Hrel. cbn [fst snd chunk_addr] in *. destruct (Z.ltb_spec rel (n * 4096)); [lia|]. apply IH. lia.
Qed.

Lemma chunk_addr_ge pa cs rel : Forall (fun c => pa <= c.1) cs → pa <= SCIF_RMA_ERROR_CODE → 0 <= rel → pa <= chunk_addr cs rel.
Proof.
  intros Hcs Hpa. revert rel. induction Hcs as [|[da n] cs H1 Hcs IH]; intros rel Hrel; [done|].
  cbn [fst chunk_addr] in *. destruct (Z.ltb_spec rel (n * 4096)); [lia|]. destruct (Z.le_gt_cases 0 (rel - n * 4096)); [by apply IH|lia].
Qed.

Lemma dma_byte_range w off : window_ok w → w_offset w <= off < w_end w → 0 <= dma_byte w off < 2 ^ 64.
Proof.
  intros Hok Hoff. rewrite (w_end_eq w Hok) in Hoff. apply chunk_addr_range; [apply Hok|]. rewrite (ok_pages _ Hok). lia.
Qed.

(** ** The chunks computed *)

Lemma contig_run_spec p l : ∀ k, (k <= contig_run p l)%nat → 0 <= p → Forall (fun x => 0 <= x < 2 ^ 64 - 4096) (p :: l) →
  (p :: l) !! k = Some (p + Z.of_nat k * 4096).
Proof.
  revert p. induction l as [|q l IH]; intros p k Hk Hp Hall; cbn [contig_run] in Hk.
  { assert (k = 0)%nat as -> by lia. cbn. f_equal. lia. }
  inversion Hall as [|? ? Hp' Hall']; subst. unfold PAGE_SIZE in Hk. rewrite wrap_small in Hk by (unfold in_width; lia).
  destruct (Z.eqb_spec q (p + 4096)) as [->|]; cbn [negb] in Hk; [|assert (k = 0)%nat as -> by lia; cbn; f_equal; lia].
  destruct k as [|k]; [cbn; f_equal; lia|]. rewrite lookup_cons_ne_0 by done. cbn [pred]. rewrite IH; [f_equal; lia|lia|lia|done].
Qed.

Lemma contig_run_length p l : (contig_run p l <= length l)%nat.
Proof. revert p. induction l as [|q l IH]; intros p; cbn; [lia|]. destruct (negb _); [lia|]. specialize (IH q). lia. Qed.

(** A mapping of ranges that agrees with a translation [tr] of addresses. *)
Definition maps_by (map_single : Z → Z → Z + Z) (tr : Z → Z) : Prop :=
  ∀ phys len, 0 <= phys → (4096 | phys) → phys + len <= 2 ^ 64 →
    match map_single phys len with
    | inl da => 0 <= da ∧ (4096 | da) ∧ da + len <= 2 ^ 64 ∧ ∀ x, 0 <= x < len → tr (phys + x) = da + x
    | inr err => err ≠ 0
    end.

Definition page_ok (p : Z) : Prop := 0 <= p < 2 ^ 64 - 4096 ∧ (4096 | p).

Lemma map_loop_spec map_single tr : maps_by map_single tr → ∀ fuel pages, (length pages < fuel)%nat →
  Forall page_ok pages →
  ∃ err das ns, map_loop fuel map_single pages = Some (err, das, ns) ∧ length das = length ns ∧
    ((err ≠ 0 ∧ ∃ phys len, map_single phys len = inr err) ∨
     (err = 0 ∧ Forall chunk_ok (zip das ns) ∧ pages_of (zip das ns) = zlen pages ∧
      ∀ i p x, pages !! i = Some p → 0 <= x < 4096 → chunk_addr (zip das ns) (Z.of_nat i * 4096 + x) = tr (p + x))).
Proof.
  intros Hmap. induction fuel as [|fuel IH]; intros pages Hf Hall; [lia|]. cbn [map_loop].
  destruct pages as [|p rest]; [exists 0, [], []; split_and!; try done; by right|].
  pose proof (contig_run_length p rest) as Hk. set (k := contig_run p rest) in *. cbn [length] in Hf.
  assert (Hall' : Forall (fun x => 0 <= x < 2 ^ 64 - 4096) (p :: rest)) by (eapply Forall_impl; [exact Hall|by intros ? []]).
  assert (Hp : page_ok p) by (by inversion Hall).
  assert (Hend : p + Z.of_nat k * 4096 < 2 ^ 64 - 4096).
  { pose proof (contig_run_spec p rest k ltac:(done) ltac:(apply Hp) Hall') as El. rewrite Forall_lookup in Hall'. apply (Hall' _ _ El). }
  pose proof (Hmap p (Z.shiftl (Z.of_nat (S k)) PAGE_SHIFT) ltac:(apply Hp) ltac:(apply Hp)) as Hm.
  unfold PAGE_SHIFT in *. rewrite Z.shiftl_mul_pow2 in * by lia. change (2 ^ 12) with 4096 in *. specialize (Hm ltac:(lia)).
  destruct (map_single p (Z.of_nat (S k) * 4096)) as [da|err] eqn:Em.
  2:{ eexists err, _, _. split; [reflexivity|]. split; [done|]. left. split; [done|]. by eexists _, _. }
  destruct (IH (drop k rest)) as (err & das & ns & E & Hlen & Hcase).
  { rewrite length_drop. lia. }
  { apply Forall_drop. by inversion Hall. }
  rewrite E. cbn [mbind option_bind]. eexists err, _, _. split; [reflexivity|]. split; [cbn; lia|].
  destruct Hcase as [Herr|(-> & Hcs & Hpg & Htr)]; [by left|]. right. split; [done|].
  destruct Hm as (D1 & D2 & D3 & D4). cbn [zip zip_with]. split_and!.
  - constructor; [|done]. unfold chunk_ok. cbn [fst snd]. split_and!; [lia|done|done|lia].
  - rewrite pages_of_cons. cbn [snd]. fold (zip das ns). rewrite Hpg. unfold zlen. rewrite length_drop. cbn [length]. lia.
  - intros i q x Hi Hx. cbn [chunk_addr]. fold (zip das ns). destruct (Z.ltb_spec (Z.of_nat i * 4096 + x) (Z.of_nat (S k) * 4096)) as [Hlt|Hge].
    + rewrite (contig_run_spec p rest i) in Hi; [|fold k; lia|apply Hp|done]. injection Hi as <-.
      rewrite <- D4 by lia. f_equal. lia.
    + assert (S k <= i)%nat as Hki by lia. replace (Z.of_nat i * 4096 + x - Z.of_nat (S k) * 4096) with (Z.of_nat (i - S k) * 4096 + x) by lia.
      apply Htr; [|done]. rewrite lookup_drop. destruct i as [|i]; [lia|]. cbn in Hi. rewrite <- Hi. f_equal. lia.
Qed.

(** Merging entries of a scatter list whose ranges do not overlap. *)
Definition sg_ok (c : Z * Z) : Prop := 0 < c.2 ∧ 0 <= c.1 ∧ (4096 | c.1) ∧ (4096 | c.2) ∧ c.1 + c.2 < 2 ^ 64.
Definition sg_apart (c d : Z * Z) : Prop := c.1 + c.2 <= d.1 ∨ d.1 + d.2 <= c.1.
Definition sg_chunks (sgl : list (Z * Z)) : list (Z * Z) := prod_map id (fun len => len / 4096) <$> sgl.

(** A chunk that has taken an entry in does not take another: the end is computed from
    the address of the chunk and the length of the entry alone. *)
Lemma grow_spec a len sgl n rest : sg_ok (a, len) → Forall sg_ok sgl → Forall (sg_apart (a, len)) sgl → ForallOrdPairs sg_apart sgl →
  grow a (u64 (a + len)) (len / 4096) sgl = (n, rest) →
  (n = len / 4096 ∧ rest = sgl) ∨
  (∃ len', sgl = (a + len, len') :: rest ∧ n = len / 4096 + len' / 4096).
Proof.
  intros (L1 & L2 & L3 & L4 & L5) Hok Hap Hpairs. cbn [fst snd] in *. rewrite wrap_small by (unfold in_width; lia).
  destruct sgl as [|[b l2] sgl]; cbn [grow]; [intros [= <- <-]; by left|].
  destruct (Z.eqb_spec b (a + len)) as [->|]; [|intros [= <- <-]; by left]. intros E. right.
  inversion Hok as [|? ? (M1 & M2 & M3 & M4 & M5) Hok']; subst. cbn [fst snd] in *.
  exists l2.
  rewrite wrap_small in E by (unfold in_width; lia).
  destruct sgl as [|[b' l3] sgl]; cbn [grow] in E; [by injection E as <- <-|].
  destruct (Z.eqb_spec b' (a + l2)) as [->|]; [|by injection E as <- <-]. exfalso.
  inversion Hok' as [|? ? (P1 & _) _]; subst. cbn [fst snd] in *.
  inversion Hap as [|? ? _ Hap']; subst. inversion Hap' as [|? ? Ha3 _]; subst.
  inversion Hpairs as [|? ? Hp1 _]; subst. inversion Hp1 as [|? ? Hp3 _]; subst.
  unfold sg_apart in *. cbn [fst snd] in *. lia.
Qed.

Lemma sg_loop_spec fuel : ∀ sgl, (length sgl < fuel)%nat → Forall sg_ok sgl → ForallOrdPairs sg_apart sgl →
  ∃ das ns, sg_loop fuel sgl = Some (das, ns) ∧ length das = length ns ∧ Forall chunk_ok (zip das ns) ∧
    pages_of (zip das ns) = pages_of (sg_chunks sgl) ∧ (length sgl <= 2 * length ns)%nat ∧
    ∀ rel, 0 <= rel → chunk_addr (zip das ns) rel = chunk_addr (sg_chunks sgl) rel.
Proof.
  induction fuel as [|fuel IH]; intros sgl Hf Hok Hpairs; [lia|]. cbn [sg_loop].
  destruct sgl as [|[a len] sgl]; [by exists [], []|]. cbn [length] in Hf.
  inversion Hok as [|? ? Ha Hok']; subst. inversion Hpairs as [|? ? Hap Hpairs']; subst.
  change PAGE_SIZE with 4096. destruct (grow a (u64 (a + len)) (len / 4096) sgl) as [n rest] eqn:Eg.
  pose proof (grow_spec a len sgl n rest Ha Hok' Hap Hpairs' Eg) as Hg.
  destruct Ha as (L1 & L2 & L3 & [q Hq] & L5). cbn [fst snd] in *.
  assert (len / 4096 = q) as Eq by (rewrite Hq; divlia).
  destruct Hg as [[-> ->]|(len' & -> & ->)].
  - destruct (IH sgl) as (das & ns & E & Hl & Hcs & Hpg & Hcnt & Htr); [lia|done..|]. rewrite E. cbn [mbind option_bind].
    eexists _, _. split; [reflexivity|]. cbn [zip zip_with length sg_chunks fmap list_fmap prod_map]. fold (sg_chunks sgl).
    split_and!; [lia|constructor; [|done]; unfold chunk_ok; cbn; split_and!; (done || lia)|rewrite !pages_of_cons; cbn; fold (zip das ns); congruence|lia|].
    intros rel Hrel. cbn [chunk_addr id fst snd]. fold (zip das ns). zcases; [done|apply Htr; lia].
  - inversion Hok' as [|? ? (M1 & M2 & M3 & [r Hr] & M5) Hok'']; subst. inversion Hpairs' as [|? ? _ Hpairs'']; subst. cbn [fst snd length] in *.
    assert (len' / 4096 = r) as Er by (rewrite Hr; divlia). rewrite <- ?Hq in *.
    destruct (IH rest) as (das & ns & E & Hl & Hcs & Hpg & Hcnt & Htr); [lia|done..|]. rewrite E. cbn [mbind option_bind].
    eexists _, _. split; [reflexivity|]. cbn [zip zip_with length sg_chunks fmap list_fmap prod_map]. fold (sg_chunks rest).
    unfold id. cbn [fst snd]. rewrite Er, Eq. split_and!; [lia|constructor; [|done]; unfold chunk_ok; cbn; split_and!; (done || lia)|rewrite !pages_of_cons; cbn; fold (zip das ns); lia|lia|].
    intros rel Hrel. cbn [chunk_addr]. fold (zip das ns).
    destruct (Z.ltb_spec rel ((q + r) * 4096)), (Z.ltb_spec rel (q * 4096)); cbn; try lia;
      destruct (Z.ltb_spec (rel - q * 4096) (r * 4096)); try lia.
    rewrite Htr by lia. f_equal. lia.
Qed.

(** ** Claims *)

(** The address that the look-up gives for an offset of a window that is well formed. *)
Lemma off_to_dma_addr w off nb : window_ok w → w_offset w <= off < w_end w →
  (scif_off_to_dma_addr w off nb None).1.1 = dma_byte w off.
Proof. intros Hok Hoff. by destruct (off_to_dma_spec w off nb None Hok Hoff I) as (n & it & -> & _). Qed.

Definition fresh_window (w : dma_window) (n : Z) : Prop :=
  reg_ok (win w) ∧ (4096 | w_offset w) ∧ nr_pages (win w) = n ∧ n < 2 ^ 31.

Lemma with_chunks_ok w das ns : length das = length ns → Forall chunk_ok (zip das ns) →
  fresh_window w (pages_of (zip das ns)) → window_ok (with_chunks w das ns) ∧ chunks (with_chunks w das ns) = zip das ns.
Proof.
  intros Hl Hcs (Hreg & Hal & Hn & Hlt).
  assert (chunks (with_chunks w das ns) = zip das ns) as E.
  { unfold chunks. cbn. apply take_ge. rewrite length_zip_with. unfold zlen. lia. }
  split; [|done]. constructor; rewrite ?E; try done.
  - unfold zlen. cbn. rewrite length_zip_with. unfold zlen. lia.
  - cbn. lia.
Qed.

(** A registered window translates every byte of its pages: mapping a window ends,
    and unless a chunk cannot be mapped it leaves a window whose look-up gives, for every
    offset, the DMA address of the byte of the page that is registered there, whatever
    runs the pages form. *)
Theorem scif_map_window_translates mgmt_node map_single tr pages w : maps_by map_single tr → Forall page_ok pages →
  fresh_window w (zlen pages) →
  ∃ err w', scif_map_window mgmt_node map_single pages w = Some (err, w') ∧
    ((err ≠ 0 ∧ ∃ phys len, map_single phys len = inr err) ∨
     (err = 0 ∧ window_ok w' ∧ w_offset w' = w_offset w ∧
      ∀ i p x nb, pages !! i = Some p → 0 <= x < 4096 →
        (scif_off_to_dma_addr w' (w_offset w + Z.of_nat i * 4096 + x) nb None).1.1 =
          if mgmt_node then tr (p + x) else p + x)).
Proof.
  intros Hmap Hpages Hw. unfold scif_map_window.
  assert (maps_by (fun phys _ => inl phys) id) as Hid by (intros phys len ???; done).
  destruct (map_loop_spec (if mgmt_node then map_single else fun phys _ => inl phys) (if mgmt_node then tr else id)
    ltac:(by destruct mgmt_node) (S (length pages)) pages ltac:(lia) Hpages) as (err & das & ns & E & Hl & Hcase).
  rewrite E. cbn [mbind option_bind]. eexists err, _. split; [reflexivity|].
  destruct Hcase as [(Hne & phys & len & Herr)|(-> & Hcs & Hpg & Htr)].
  { left. split; [done|]. exists phys, len. by destruct mgmt_node. }
  right. rewrite <- Hpg in Hw. destruct (with_chunks_ok w das ns Hl Hcs Hw) as [Hok Echunks]. split_and!; try done.
  intros i p x nb Hi Hx. destruct Hw as (Hreg & _ & Hn & _). rewrite Hpg in Hn.
  assert (Z.of_nat i < zlen pages) by (apply lookup_lt_Some in Hi; unfold zlen; lia).
  rewrite off_to_dma_addr; [|done|rewrite (w_end_eq _ Hok); change (w_offset (with_chunks w das ns)) with (w_offset w); cbn [win with_chunks]; lia].
  unfold dma_byte. rewrite Echunks. change (w_offset (with_chunks w das ns)) with (w_offset w).
  replace (w_offset w + Z.of_nat i * 4096 + x - w_offset w) with (Z.of_nat i * 4096 + x) by lia.
  rewrite (Htr i p x Hi Hx). by destruct mgmt_node.
Qed.

Definition demo_window (n : Z) : dma_window :=
  DWin (Window 1 n 3 0x10000 0 0 SCIF_UNREG_NOT_INITIATED) SCIF_WINDOW_SELF 0 [] [] [].

Lemma scif_map_window_translates_witness : ∃ err w',
  scif_map_window true (fun phys _ => inl (phys + 2 ^ 39)) [4096; 8192; 0x40000] (demo_window 3) = Some (err, w') ∧
  (scif_off_to_dma_addr w' 0x12010 0 None).1.1 = 2 ^ 39 + 0x40010.
Proof.
  destruct (scif_map_window_translates true (fun phys len => if phys + len <=? 2 ^ 40 then inl (phys + 2 ^ 39) else inr (- ENOMEM))
    (fun x => x + 2 ^ 39) [4096; 8192; 0x40000] (demo_window 3)) as (err & w' & E & Hcase).
  - intros phys len H1 [q Hq] H2. destruct (Z.leb_spec (phys + len) (2 ^ 40)); [|done].
    split_and!; [lia|exists (q + 2 ^ 27); lia|lia|intros; lia].
  - repeat (constructor; [split; [lia|]|]); [by exists 1|by exists 2|by exists 64|constructor].
  - split_and!; [split_and!; cbn; lia|by exists 16|done|done].
  - vm_compute in E. injection E as <- <-. destruct Hcase as [[Hne _]|(_ & _ & _ & Htr)]; [done|].
    eexists _, _. split; [vm_compute; reflexivity|]. exact (Htr 2%nat 0x40000 0x10 0 eq_refl ltac:(lia)).
Defined.

(** With an IOMMU the chunks are made from the scatter list: for entries that do not
    overlap the window translates every byte as the list does.  Runs are only detected up
    to two entries, since the end of a chunk is computed from its first address and the
    length of the entry taken in last. *)
Theorem scif_dma_map_translates sgl w : Forall sg_ok sgl → ForallOrdPairs sg_apart sgl → sgl ≠ [] →
  fresh_window w (pages_of (sg_chunks sgl)) →
  ∃ w', scif_dma_map true sgl w = Some (0, w') ∧ window_ok w' ∧ w_offset w' = w_offset w ∧
    (∀ rel nb, 0 <= rel < pages_of (sg_chunks sgl) * 4096 →
      (scif_off_to_dma_addr w' (w_offset w + rel) nb None).1.1 = chunk_addr (sg_chunks sgl) rel) ∧
    zlen sgl <= 2 * nr_contig_chunks w'.
Proof.
  intros Hok Hap Hne Hw. unfold scif_dma_map. cbn [negb]. destruct sgl as [|c l]; [done|]. set (sgl := c :: l) in *.
  destruct (sg_loop_spec (S (length sgl)) sgl ltac:(lia) Hok Hap) as (das & ns & E & Hl & Hcs & Hpg & Hcnt & Htr).
  rewrite E. cbn [mbind option_bind]. eexists. split; [reflexivity|]. rewrite <- Hpg in *.
  destruct (with_chunks_ok w das ns Hl Hcs Hw) as [Hwok Echunks]. split_and!; try done.
  - intros rel nb Hrel. destruct Hw as (_ & _ & Hn & _).
    rewrite off_to_dma_addr; [|done|rewrite (w_end_eq _ Hwok); change (w_offset (with_chunks w das ns)) with (w_offset w); cbn [win with_chunks]; lia].
    unfold dma_byte. rewrite Echunks. change (w_offset (with_chunks w das ns)) with (w_offset w).
    rewrite <- Htr by lia. f_equal. lia.
  - cbn [nr_contig_chunks with_chunks]. unfold zlen. lia.
Qed.

Lemma scif_dma_map_translates_witness : ∃ w',
  scif_dma_map true [(4096, 4096); (8192, 4096); (12288, 4096)] (demo_window 3) = Some (0, w') ∧
  nr_contig_chunks w' = 2 ∧ (scif_off_to_dma_addr w' 0x12010 0 None).1.1 = 0x3010.
Proof.
  destruct (scif_dma_map_translates [(4096, 4096); (8192, 4096); (12288, 4096)] (demo_window 3)) as (w' & E & _ & _ & Htr & _).
  - repeat (constructor; [split_and!; cbn; [lia|lia| |by exists 1|lia]|]); [by exists 1|by exists 2|by exists 3|constructor].
  - repeat (constructor; [repeat (constructor; [left; cbn; lia|]); constructor|]). constructor.
  - done.
  - split_and!; [split_and!; cbn; lia|by exists 16|done|done].
  - exists w'. split; [exact E|]. split; [vm_compute in E; injection E as <-; reflexivity|]. exact (Htr 0x2010 0 ltac:(vm_compute; split; congruence)).
Defined.

End DmaWindow.
