(* ===== verification/ScifDma.v ===== *)
(** * Copies between registration windows

    Models the copy routines of [mpss4/mpss-modules/mic/scif/scif_dma.c]: the DMA copies
    for aligned and for unaligned offsets, the copy by the CPU, and the choice between
    them.  A routine is given by the list of transfers it makes, each a range of
    consecutive bytes at a place: a DMA address, a kernel address of a pinned page, an
    address mapped for the CPU, or the temporary buffer.  Whether the resources for a
    transfer are there is the argument [ok], a function of the number of transfers made. *)
From S2P Require Import Prelude RmaList DmaWindow.
Local Open Scope Z_scope.

Module ScifDma.
Import RmaList DmaWindow.

Definition L1_CACHE_BYTES : Z := 64.
Definition SCIF_MAX_UNALIGNED_BUF_SIZE : Z := 1024 * 1024.
Definition SCIF_KMEM_UNALIGNED_BUF_SIZE : Z := SCIF_MAX_UNALIGNED_BUF_SIZE + Z.shiftl L1_CACHE_BYTES 1.

Inductive place := AtDma (a : Z) | AtVa (a : Z) | AtIo (a : Z) | AtTemp (a : Z).

(** A transfer; [x_fence]: a DMA transfer that later ones wait for, or a copy by the CPU
    whose last byte is written last.  [Drain] waits for all DMA transfers. *)
Inductive xfer :=
  | Xfer (x_src x_dst : place) (x_len : Z) (x_fence : bool)
  | Drain.

(** A position in a list of windows: the window it is in and those behind it, the offset,
    the iterator, and the number of contiguous bytes last computed. *)
Record side := Side { s_wins : list dma_window; s_off : Z; s_iter : option scif_window_iter; s_contig : Z }.

Definition start_side (wins : list dma_window) (off : Z) : side :=
  Side wins off (scif_init_window_iter <$> head wins) 0.

(** [if (offset == end_offset) window = list_entry_next(..)]; the windows of a list end at
    its head, which is none. *)
Definition side_next (s : side) : option side :=
  match s_wins s with
  | [] => None
  | w :: ws =>
      if s_off s =? w_end w then
        match ws with
        | [] => None
        | w' :: _ => Some (Side ws (s_off s) (match s_iter s with Some _ => Some (scif_init_window_iter w') | None => None end) (s_contig s))
        end
      else Some s
  end.

Definition side_add (s : side) (n : Z) : side := Side (s_wins s) (s_off s + n) (s_iter s) (s_contig s).

Definition side_dma (s : side) : option (Z * side) :=
  match s_wins s with
  | [] => None
  | w :: _ =>
      let '(a, n, it) := scif_off_to_dma_addr w (s_off s) (s_contig s) (s_iter s) in
      Some (a, Side (s_wins s) (s_off s) it n)
  end.

Section Code.
Context (ok : nat → bool).
(** The base of the aperture, where addresses for the CPU are relative to it. *)
Context (aper : option Z).

Definition _get_local_va (off : Z) (w : dma_window) : place :=
  let page_nr := s32 (Z.shiftr (s64 (off - w_offset w)) PAGE_SHIFT) in
  let page_off := Z.land off (PAGE_SIZE - 1) in
  AtVa (default 0 (page_va w !! Z.to_nat page_nr) + page_off).

Definition ioremap_remote (off : Z) (w : dma_window) (iter : option scif_window_iter) : place * option scif_window_iter :=
  let '(phys, _, it) := scif_off_to_dma_addr w off 0 iter in
  (AtIo (match aper with Some pa => u64 (phys - pa) | None => phys end), it).

(** The address the CPU uses: [_get_local_va] or [ioremap_remote], by the type. *)
Definition cpu_addr (s : side) (iter : option scif_window_iter) : option (place * option scif_window_iter) :=
  match s_wins s with
  | [] => None
  | w :: _ => Some (if bool_decide (w_type w = SCIF_WINDOW_SELF) then (_get_local_va (s_off s) w, iter)
                    else ioremap_remote (s_off s) w iter)
  end.

(** ** DMA between aligned offsets

    The loop of both routines; with [split] the last transfer is cut in two, the second
    of [last] bytes.  Fuel: each round transfers at least one byte. *)
Fixpoint dma_loop (fuel : nat) (split : bool) (last : Z) (s d : side) (remaining_len : Z) (log : list xfer)
  : option (Z * side * side * list xfer) :=
  match fuel with
  | O => None
  | S fuel =>
      if negb (remaining_len =? 0) then
        s ← side_next s;
        d ← side_next d;
        '(sa, s) ← side_dma s;
        '(da, d) ← side_dma d;
        let loop_len := Z.min (Z.min (s_contig s) (s_contig d)) remaining_len in
        if split && (remaining_len - loop_len =? 0) then
          let n := u64 (loop_len - last) in
          if negb (ok (length log)) then Some (- ENOMEM, s, d, log)
          else
            let log := log ++ [Xfer (AtDma sa) (AtDma da) n true] in
            let remaining_len := u64 (remaining_len - n) in
            if negb (ok (length log)) then Some (- ENOMEM, s, d, log)
            else
              let log := log ++ [Xfer (AtDma (u64 (sa + n))) (AtDma (u64 (da + n))) remaining_len false] in
              dma_loop fuel split last (side_add s (n + remaining_len)) (side_add d (n + remaining_len)) 0 log
        else if negb (ok (length log)) then Some (- ENOMEM, s, d, log)
        else
          dma_loop fuel split last (side_add s loop_len) (side_add d loop_len) (remaining_len - loop_len)
            (log ++ [Xfer (AtDma sa) (AtDma da) loop_len false])
      else Some (0, s, d, log)
  end.

(** [struct scif_copy_work]: the windows from the first one on. *)
Record scif_copy_work := Work {
  src_wins : list dma_window; src_offset : Z; dst_wins : list dma_window; dst_offset : Z;
  loopback : bool; cw_len : Z; ordered : bool;
}.

Definition _scif_rma_list_dma_copy_aligned (work : scif_copy_work) : option (Z * list xfer) :=
  '(ret, _, _, log) ← dma_loop (S (Z.to_nat (cw_len work))) (ordered work) 1
                        (start_side (src_wins work) (src_offset work)) (start_side (dst_wins work) (dst_offset work))
                        (cw_len work) [];
  Some (ret, log).

(** A copy by the CPU of [n] bytes at the two positions. *)
Definition cpu_piece (s d : side) (n : Z) (ord : bool) (log : list xfer) : option (Z * list xfer) :=
  if negb (ok (length log)) then Some (- ENOMEM, log)
  else
    '(sp, _) ← cpu_addr s None;
    '(dp, _) ← cpu_addr d None;
    Some (0, log ++ [Xfer sp dp n ord]).

(** [drained]: what draining the channel returns. *)
Definition scif_rma_list_dma_copy_aligned (drained : Z) (work : scif_copy_work) : option (Z * list xfer) :=
  let s := start_side (src_wins work) (src_offset work) in
  let d := start_side (dst_wins work) (dst_offset work) in
  let remaining_len := cw_len work in
  let src_cache_off := Z.land (s_off s) (L1_CACHE_BYTES - 1) in
  let head_len := if negb (src_cache_off =? 0) then Z.min (L1_CACHE_BYTES - src_cache_off) remaining_len else 0 in
  '(ret, log) ← (if negb (src_cache_off =? 0)
                 then cpu_piece s d head_len (if remaining_len =? head_len then ordered work else false) []
                 else Some (0, []));
  if ret <? 0 then Some (ret, log)
  else
    let s := side_add s head_len in
    let d := side_add d head_len in
    let remaining_len := remaining_len - head_len in
    let tail_len := Z.land remaining_len (L1_CACHE_BYTES - 1) in
    '(ret, s, d, log) ← dma_loop (S (Z.to_nat remaining_len)) (ordered work && (tail_len =? 0)) L1_CACHE_BYTES s d
                          (remaining_len - tail_len) log;
    if ret <? 0 then Some (ret, log)
    else if negb (tail_len =? 0) then
      s ← side_next s;
      d ← side_next d;
      if ordered work && negb (drained =? 0) then Some (drained, log)
      else
        let log := if ordered work then log ++ [Drain] else log in
        cpu_piece s d tail_len (ordered work) log
    else Some (ret, log).

(** ** The copy by the CPU *)

Fixpoint cpu_loop (fuel : nat) (s d : side) (remaining_len : Z) (log : list xfer) : option (Z * list xfer) :=
  match fuel with
  | O => None
  | S fuel =>
      if negb (remaining_len =? 0) then
        let src_page_off := Z.land (s_off s) (PAGE_SIZE - 1) in
        let dst_page_off := Z.land (s_off d) (PAGE_SIZE - 1) in
        let loop_len := Z.min (PAGE_SIZE - Z.max src_page_off dst_page_off) remaining_len in
        if negb (ok (length log)) then Some (- ENOMEM, log)
        else
          '(sp, sit) ← cpu_addr s (s_iter s);
          '(dp, dit) ← cpu_addr d (s_iter d);
          let log := log ++ [Xfer sp dp loop_len false] in
          let s := Side (s_wins s) (s_off s + loop_len) sit (s_contig s) in
          let d := Side (s_wins d) (s_off d + loop_len) dit (s_contig d) in
          let remaining_len := remaining_len - loop_len in
          if negb (remaining_len =? 0) then
            s ← side_next s;
            d ← side_next d;
            cpu_loop fuel s d remaining_len log
          else cpu_loop fuel s d remaining_len log
      else Some (0, log)
  end.

Definition scif_rma_list_cpu_copy (work : scif_copy_work) : option (Z * list xfer) :=
  cpu_loop (S (Z.to_nat (cw_len work))) (start_side (src_wins work) (src_offset work))
    (start_side (dst_wins work) (dst_offset work)) (cw_len work) [].

(** ** DMA by way of a temporary buffer *)

(** A transfer between the windows and place [temp] of the buffer. *)
Definition txfer (to_window : bool) (p : place) (temp n : Z) (fence : bool) : xfer :=
  if to_window then Xfer (AtTemp temp) p n fence else Xfer p (AtTemp temp) n fence.

(** The loop of [scif_rma_local_cpu_copy]: windows of other nodes have no pages here, and
    end it.  [fresh]: the first piece, before which the end of the window is not looked at. *)
Fixpoint local_loop (fuel : nat) (to_temp fresh : bool) (s : side) (temp rem_len : Z) (log : list xfer) : option (list xfer) :=
  match fuel with
  | O => None
  | S fuel =>
      if fresh || negb (rem_len =? 0) then
        s ← (if fresh then Some s else side_next s);
        match s_wins s with
        | [] => None
        | w :: _ =>
            let offset_in_page := Z.land (s_off s) (PAGE_SIZE - 1) in
            let loop_len := if fresh then Z.min (PAGE_SIZE - offset_in_page) rem_len else Z.min PAGE_SIZE rem_len in
            if bool_decide (w_type w = SCIF_WINDOW_SELF) then
              local_loop fuel to_temp false (side_add s loop_len) (temp + loop_len) (rem_len - loop_len)
                (log ++ [txfer (negb to_temp) (_get_local_va (s_off s) w) temp loop_len false])
            else Some log
        end
      else Some log
  end.

Definition scif_rma_local_cpu_copy (wins : list dma_window) (off temp rem_len : Z) (to_temp : bool) : option (list xfer) :=
  local_loop (S (S (Z.to_nat rem_len))) to_temp true (Side wins off None 0) temp rem_len [].

(** The loop of [scif_rma_list_dma_copy_unaligned]. *)
Fixpoint unaligned_loop (fuel : nat) (src_local ord : bool) (s : side) (temp remaining_len : Z) (log : list xfer)
  : option (Z * side * Z * list xfer) :=
  match fuel with
  | O => None
  | S fuel =>
      if negb (remaining_len =? 0) then
        s ← side_next s;
        '(a, s) ← side_dma s;
        let loop_len := Z.min (s_contig s) remaining_len in
        if src_local && ord && (remaining_len - loop_len =? 0) && negb (loop_len =? L1_CACHE_BYTES) then
          let n := u64 (loop_len - L1_CACHE_BYTES) in
          if negb (ok (length log)) then Some (- ENOMEM, s, temp, log)
          else
            let log := log ++ [txfer src_local (AtDma a) temp n true] in
            let remaining_len := u64 (remaining_len - n) in
            if negb (ok (length log)) then Some (- ENOMEM, s, temp, log)
            else
              unaligned_loop fuel src_local ord (side_add s (n + remaining_len)) (temp + remaining_len) 0
                (log ++ [txfer src_local (AtDma (u64 (a + n))) (temp + n) remaining_len false])
        else if negb (ok (length log)) then Some (- ENOMEM, s, temp, log)
        else
          unaligned_loop fuel src_local ord (side_add s loop_len) (temp + loop_len) (remaining_len - loop_len)
            (log ++ [txfer src_local (AtDma a) temp loop_len false])
      else Some (0, s, temp, log)
  end.

(** A copy by the CPU between a window of the other node and the buffer. *)
Definition io_piece (src_local : bool) (s : side) (temp n : Z) (ord : bool) (log : list xfer) : option (Z * list xfer) :=
  match s_wins s with
  | [] => None
  | w :: _ =>
      if negb (ok (length log)) then Some (- ENOMEM, [])
      else Some (0, [txfer src_local (ioremap_remote (s_off s) w None).1 temp n ord])
  end.

(** The copy between [temp] and the windows [wins]; the descriptor that calls back when
    all is done comes last. *)
Definition scif_rma_list_dma_copy_unaligned (drained : Z) (wins : list dma_window) (off len temp : Z) (ord src_local : bool)
  : option (Z * list xfer) :=
  let s := Side wins off None 0 in
  let offset_in_ca := Z.land off (L1_CACHE_BYTES - 1) in
  let head_len := if negb (offset_in_ca =? 0) then Z.min (L1_CACHE_BYTES - offset_in_ca) len else 0 in
  '(ret, log) ← (if negb (offset_in_ca =? 0)
                 then io_piece src_local s temp head_len (ord && (len - head_len =? 0)) []
                 else Some (0, []));
  if ret <? 0 then Some (ret, log)
  else
    let s := side_add s head_len in
    let temp := temp + head_len in
    let remaining_len := len - head_len in
    let tail_len := Z.land remaining_len (L1_CACHE_BYTES - 1) in
    '(ret, s, temp, log) ← unaligned_loop (S (Z.to_nat remaining_len)) src_local (ord && (tail_len =? 0)) s temp
                             (remaining_len - tail_len) log;
    if ret <? 0 then Some (ret, log)
    else
      '(ret, log) ← (if negb (tail_len =? 0) then
                       s ← side_next s;
                       '(ret, last) ← io_piece src_local s temp tail_len ord log;
                       if ret <? 0 then Some (ret, log)
                       else if ord && negb (drained =? 0) then Some (drained, log)
                       else Some (0, log ++ (if ord then [Drain] else []) ++ last)
                     else Some (ret, log));
      if negb (ret =? 0) then Some (ret, log)
      else if negb (ok (length log)) then Some (- ENOMEM, log)
      else Some (0, log).

(** ** The choice

    [any_align]: the channel copies any alignment; [temp_mem]: the buffer is there and is
    mapped.  The result is the error, the transfers made at once, and those the call-back
    makes when the others are done. *)
Definition scif_rma_list_dma_copy_wrapper (any_align temp_mem : bool) (drained : Z) (work : scif_copy_work)
  : option (Z * list xfer * list xfer) :=
  if any_align then '(ret, log) ← _scif_rma_list_dma_copy_aligned work; Some (ret, log, [])
  else
    let src_cache_off := Z.land (src_offset work) (L1_CACHE_BYTES - 1) in
    let dst_cache_off := Z.land (dst_offset work) (L1_CACHE_BYTES - 1) in
    if dst_cache_off =? src_cache_off then
      '(ret, log) ← scif_rma_list_dma_copy_aligned drained work; Some (ret, log, [])
    else if loopback work then '(ret, log) ← scif_rma_list_cpu_copy work; Some (ret, log, [])
    else if negb temp_mem then Some (- ENOMEM, [], [])
    else
      match src_wins work with
      | [] => None
      | w :: _ =>
          if bool_decide (w_type w = SCIF_WINDOW_SELF) then
            pre ← scif_rma_local_cpu_copy (src_wins work) (src_offset work) dst_cache_off (cw_len work) true;
            '(ret, log) ← scif_rma_list_dma_copy_unaligned drained (dst_wins work) (dst_offset work) (cw_len work) dst_cache_off
                            (ordered work) true;
            Some (if ret <? 0 then - ENOMEM else 0, pre ++ log, [])
          else
            let len := Z.land (cw_len work + src_cache_off + (L1_CACHE_BYTES - 1)) (Z.lnot (L1_CACHE_BYTES - 1)) in
            '(ret, log) ← scif_rma_list_dma_copy_unaligned drained (src_wins work) (src_offset work - src_cache_off) len 0
                            (ordered work) false;
            post ← scif_rma_local_cpu_copy (dst_wins work) (dst_offset work) src_cache_off (cw_len work) false;
            Some (if ret <? 0 then - ENOMEM else 0, log, if ret <? 0 then [] else post)
      end.

End Code.

End ScifDma.
