(* ===== verification/ScifDmaInv.v ===== *)
(** * The copies transfer every byte

    The reference for a copy is the list of its bytes in ascending order, each with the
    place it is read from and the place it is written to ([pairs]); [flatten] is that list
    for the transfers a routine makes. *)
From S2P Require Import Prelude RmaList DmaWindow ScifDma.
Local Open Scope Z_scope.

Module ScifDmaInv.
Import RmaList DmaWindow ScifDma.

Definition shift (p : place) (j : Z) : place :=
  match p with AtDma a => AtDma (a + j) | AtVa a => AtVa (a + j) | AtIo a => AtIo (a + j) | AtTemp a => AtTemp (a + j) end.

Definition range (sp dp : place) (n : Z) : list (place * place) := (fun j => (shift sp j, shift dp j)) <$> seqZ 0 n.
Definition xbytes (x : xfer) : list (place * place) := match x with Xfer sp dp n _ => range sp dp n | Drain => [] end.
Definition flatten (log : list xfer) : list (place * place) := concat (xbytes <$> log).

(** ** Places of offsets *)

Definition dma_place (w : dma_window) (off : Z) : place := AtDma (dma_byte w off).
Definition cpu_place (aper : option Z) (w : dma_window) (off : Z) : place :=
  if bool_decide (w_type w = SCIF_WINDOW_SELF)
  then AtVa (default 0 (page_va w !! Z.to_nat ((off - w_offset w) / 4096)) + off mod 4096)
  else AtIo (match aper with Some pa => dma_byte w off - pa | None => dma_byte w off end).

Fixpoint at_off (f : dma_window → Z → place) (ws : list dma_window) (off : Z) : place :=
  match ws with
  | [] => AtTemp (-1)
  | w :: ws => if off <? w_end w then f w off else at_off f ws off
  end.

Definition pairs (f : dma_window → Z → place) (srcs : list dma_window) (so : Z) (dsts : list dma_window) (do_ n : Z)
  : list (place * place) := (fun k => (at_off f srcs (so + k), at_off f dsts (do_ + k))) <$> seqZ 0 n.

(** The windows, without a gap, hold [len] bytes from [off] on. *)
Fixpoint spans (ws : list dma_window) (off len : Z) : Prop :=
  match ws with
  | [] => False
  | w :: ws' =>
      window_ok w ∧ w_offset w <= off <= w_end w ∧
      (off + len <= w_end w ∨
       match ws' with
       | [] => False
       | w' :: _ => w_offset w' = w_end w ∧ spans ws' (w_end w) (off + len - w_end w)
       end)
  end.

Definition side_ok (s : side) (len : Z) : Prop :=
  spans (s_wins s) (s_off s) len ∧
  match s_wins s with w :: _ => iter_ok w (s_iter s) (s_off s) | [] => True end.

Lemma spans_mono ws off len len' : spans ws off len → len' <= len → spans ws off len'.
Proof.
  revert off len len'. induction ws as [|w ws IH]; intros off len len' H Hle; [done|]. destruct H as (Hw & Hb & Hcase).
  split; [done|]. split; [done|]. destruct Hcase as [Hc|Hc]; [left; lia|].
  destruct (Z.le_gt_cases (off + len') (w_end w)); [by left|]. right.
  destruct ws as [|w' ws]; [done|]. destruct Hc as [He Hs]. split; [done|]. eapply IH; [exact Hs|lia].
Qed.

Lemma spans_add ws off len n : spans ws off len → 0 <= n <= len → (∀ w ws', ws = w :: ws' → off + n <= w_end w) → spans ws (off + n) (len - n).
Proof.
  destruct ws as [|w ws]; [done|]. intros (Hw & Hb & Hcase) Hn Hend. specialize (Hend w ws eq_refl).
  split; [done|]. split; [lia|]. destruct Hcase as [Hc|Hc]; [left; lia|]. right. destruct ws as [|w' ws]; [done|].
  destruct Hc as [He Hs]. split; [done|]. replace (off + n + (len - n) - w_end w) with (off + len - w_end w) by lia. done.
Qed.

(** ** Moving along the windows *)

Definition same_places (ws ws' : list dma_window) (off : Z) : Prop := ∀ f x, off <= x → at_off f ws' x = at_off f ws x.

Lemma same_places_trans a b c off off' : same_places a b off → same_places b c off' → off <= off' → same_places a c off'.
Proof. intros H1 H2 Hle f x Hx. rewrite H2, H1; [done|lia..]. Qed.

Lemma side_next_ok s len : side_ok s len → 0 < len → ∃ s' w ws, side_next s = Some s' ∧ side_ok s' len ∧
  s_off s' = s_off s ∧ s_wins s' = w :: ws ∧ window_ok w ∧ w_offset w <= s_off s < w_end w ∧
  s_wins s' `suffix_of` s_wins s ∧ same_places (s_wins s) (s_wins s') (s_off s).
Proof.
  intros [Hs Hit] Hlen. unfold side_next. destruct s as [[|w ws] off it cb]; [done|]. cbn [s_wins s_off s_iter s_contig] in *.
  destruct Hs as (Hw & Hb & Hcase). destruct (Z.eqb_spec off (w_end w)) as [->|Hne].
  - destruct Hcase as [Hc|Hc]; [lia|]. destruct ws as [|w' ws]; [done|]. destruct Hc as [He Hs].
    replace (w_end w + len - w_end w) with len in Hs by lia. pose proof Hs as (Hw' & _ & _).
    assert (w_end w < w_end w') by (rewrite <- He, (w_end_eq w' Hw'); destruct (ok_reg _ Hw') as (_ & ? & _); lia).
    eexists _, w', ws. split; [reflexivity|]. cbn [s_wins s_off]. split_and!; try done; try lia.
    + split; [done|]. destruct it; [|done]. cbn [s_wins s_iter s_off iter_ok scif_init_window_iter it_index it_offset].
      change (pages_of (take (Z.to_nat 0) (chunks w'))) with 0. pose proof (zlen_nonneg (chunks w')). lia.
    + by exists [w].
    + intros f x Hx. cbn [at_off]. destruct (Z.ltb_spec x (w_end w)); [lia|done].
  - exists (Side (w :: ws) off it cb), w, ws. split_and!; try done; try lia.
Qed.

Lemma side_dma_ok s len w ws : side_ok s len → s_wins s = w :: ws → w_offset w <= s_off s < w_end w →
  ∃ s', side_dma s = Some (dma_byte w (s_off s), s') ∧ s_wins s' = s_wins s ∧ s_off s' = s_off s ∧
    0 < s_contig s' ∧ s_off s + s_contig s' <= w_end w ∧ (4096 | s_off s + s_contig s') ∧
    (∀ j, 0 <= j < s_contig s' → dma_byte w (s_off s + j) = dma_byte w (s_off s) + j) ∧
    ∀ n, 0 <= n <= s_contig s' → n <= len → side_ok (side_add s' n) (len - n).
Proof.
  intros [Hs Hit] Ew Hoff. unfold side_dma. rewrite Ew in *. pose proof Hs as (Hw & _ & _).
  destruct (off_to_dma_spec w (s_off s) (s_contig s) (s_iter s) Hw Hoff Hit) as (n & it & E & Hn & Hend & Hdiv & Hnone & Hit' & Hj).
  rewrite E. eexists. split; [reflexivity|]. cbn [s_wins s_off s_contig]. split_and!; try done.
  intros m Hm Hlen. split; cbn [s_wins s_off s_iter side_add].
  - apply spans_add; [done|lia|]. intros ?? [= <- <-]. lia.
  - apply Hit'. lia.
Qed.

(** ** Lists of bytes *)

Lemma seqZ_shift n m : 0 <= n → 0 <= m → seqZ 0 (n + m) = seqZ 0 n ++ ((fun k => n + k) <$> seqZ 0 m).
Proof. intros. rewrite seqZ_app by lia. f_equal. rewrite fmap_add_seqZ. f_equal. lia. Qed.

Lemma pairs_app f srcs so dsts do_ n m : 0 <= n → 0 <= m →
  pairs f srcs so dsts do_ (n + m) = pairs f srcs so dsts do_ n ++ pairs f srcs (so + n) dsts (do_ + n) m.
Proof.
  intros. unfold pairs. rewrite seqZ_shift, fmap_app by lia. f_equal. rewrite <- list_fmap_compose.
  apply list_fmap_ext. intros i k _. unfold compose. by rewrite !Z.add_assoc.
Qed.

Lemma range_app sp dp n m : 0 <= n → 0 <= m → range sp dp (n + m) = range sp dp n ++ range (shift sp n) (shift dp n) m.
Proof.
  intros. unfold range. rewrite seqZ_shift, fmap_app by lia. f_equal. rewrite <- list_fmap_compose.
  apply list_fmap_ext. intros i k _. unfold compose. destruct sp, dp; cbn; f_equal; f_equal; lia.
Qed.

Lemma pairs_places f srcs srcs' so dsts dsts' do_ n : same_places srcs srcs' so → same_places dsts dsts' do_ →
  pairs f srcs' so dsts' do_ n = pairs f srcs so dsts do_ n.
Proof.
  intros Hs Hd. unfold pairs. apply list_fmap_ext. intros i k Hk. apply list_elem_of_lookup_2, elem_of_seqZ in Hk.
  rewrite Hs, Hd by lia. done.
Qed.

Lemma range_pairs f srcs so dsts do_ n sp dp :
  (∀ j, 0 <= j < n → at_off f srcs (so + j) = shift sp j) → (∀ j, 0 <= j < n → at_off f dsts (do_ + j) = shift dp j) →
  range sp dp n = pairs f srcs so dsts do_ n.
Proof.
  intros Hs Hd. unfold range, pairs. apply list_fmap_ext. intros i k Hk. apply list_elem_of_lookup_2, elem_of_seqZ in Hk.
  rewrite Hs, Hd by lia. done.
Qed.

Lemma flatten_app l k : flatten (l ++ k) = flatten l ++ flatten k.
Proof. unfold flatten. by rewrite fmap_app, concat_app. Qed.

Lemma flatten_one x : flatten [x] = xbytes x.
Proof. unfold flatten. cbn. apply app_nil_r. Qed.

(** ** The loop of DMA transfers *)

(** The two positions of a round and what the look-ups give there. *)
Lemma dma_round s d len : side_ok s len → side_ok d len → 0 < len →
  ∃ s1 d1 sa da, (s' ← side_next s; d' ← side_next d; '(sa, s') ← side_dma s'; '(da, d') ← side_dma d'; Some (sa, da, s', d')) = Some (sa, da, s1, d1) ∧
    let n := Z.min (s_contig s1) (s_contig d1) in
    0 < n ∧ (∀ k, (k | 4096) → (k | s_off s) → (k | s_off d) → (k | n)) ∧
    s_off s1 = s_off s ∧ s_off d1 = s_off d ∧
    (∀ m, 0 <= m <= n → m <= len → side_ok (side_add s1 m) (len - m) ∧ side_ok (side_add d1 m) (len - m)) ∧
    same_places (s_wins s) (s_wins s1) (s_off s) ∧ same_places (s_wins d) (s_wins d1) (s_off d) ∧
    (s_wins s1 `suffix_of` s_wins s ∧ s_wins d1 `suffix_of` s_wins d) ∧
    (∀ m, 0 <= m < n → in_width 64 (sa + m) ∧ in_width 64 (da + m)) ∧
    ∀ m, m <= n → range (AtDma sa) (AtDma da) m = pairs dma_place (s_wins s) (s_off s) (s_wins d) (s_off d) m.
Proof.
  intros Hs Hd Hlen.
  destruct (side_next_ok s len Hs Hlen) as (s' & w & ws & Es & Hs' & Eso & Ews & Hw & Hwo & Hsx & Hsp).
  destruct (side_next_ok d len Hd Hlen) as (d' & v & vs & Ed & Hd' & Edo & Evs & Hv & Hvo & Hdx & Hdp).
  rewrite <- Eso in Hwo. rewrite <- Edo in Hvo.
  destruct (side_dma_ok s' len w ws Hs' Ews Hwo) as (s1 & Es1 & Ews1 & Eso1 & Hn1 & Hend1 & Hdiv1 & Hj1 & Hadd1).
  destruct (side_dma_ok d' len v vs Hd' Evs Hvo) as (d1 & Ed1 & Evs1 & Edo1 & Hn2 & Hend2 & Hdiv2 & Hj2 & Hadd2).
  rewrite Es, Ed. cbn [mbind option_bind]. rewrite Es1, Ed1. cbn [mbind option_bind].
  eexists s1, d1, _, _. split; [reflexivity|]. cbv zeta. split_and!; try lia; try congruence.
  - intros k Hk Hks Hkd. rewrite Eso in *. rewrite Edo in *.
    assert ((k | s_contig s1) ∧ (k | s_contig d1)) as [H1 H2].
    { split; [apply Z.divide_add_cancel_r with (s_off s)|apply Z.divide_add_cancel_r with (s_off d)]; try done;
        (etrans; [exact Hk|done]). }
    destruct (Z.min_spec (s_contig s1) (s_contig d1)) as [[_ ->]|[_ ->]]; done.
  - intros m Hm Hml. split; [apply Hadd1|apply Hadd2]; lia.
  - by rewrite Ews1.
  - by rewrite Evs1.
  - intros m Hm. unfold in_width. rewrite <- Hj1, <- Hj2 by lia. split; apply dma_byte_range; (done || lia).
  - intros m Hm. rewrite <- (pairs_places dma_place (s_wins s) (s_wins s') (s_off s) (s_wins d) (s_wins d')) by done.
    rewrite Eso in *. rewrite Edo in *.
    apply range_pairs; intros j Hj; rewrite ?Ews, ?Evs; cbn [at_off].
    + destruct (Z.ltb_spec (s_off s + j) (w_end w)); [|lia]. cbn [shift]. unfold dma_place. by rewrite Hj1 by lia.
    + destruct (Z.ltb_spec (s_off d + j) (w_end v)); [|lia]. cbn [shift]. unfold dma_place. by rewrite Hj2 by lia.
Qed.

(** What a list of transfers of [rem] bytes has done: all of them, or a first part. *)
Definition copied (f : dma_window → Z → place) (s d : side) (rem ret : Z) (new : list xfer) : Prop :=
  (ret = 0 ∧ flatten new = pairs f (s_wins s) (s_off s) (s_wins d) (s_off d) rem) ∨
  (ret = - ENOMEM ∧ ∃ m, 0 <= m <= rem ∧ flatten new = pairs f (s_wins s) (s_off s) (s_wins d) (s_off d) m).

(** The last transfer has [last] bytes and waits for those before it. *)
Definition fenced (last : Z) (new : list xfer) : Prop :=
  ∃ l sp dp n sp' dp', new = l ++ [Xfer sp dp n true; Xfer sp' dp' last false].

Definition moved (s s' : side) (rem extra : Z) : Prop :=
  s_off s' = s_off s + rem ∧ side_ok s' extra ∧ s_wins s' `suffix_of` s_wins s ∧ same_places (s_wins s) (s_wins s') (s_off s').

Lemma pairs_0 f srcs so dsts do_ : pairs f srcs so dsts do_ 0 = [].
Proof. done. Qed.

(** A first transfer, then the rest from where it ends. *)
Lemma copied_cons f s d s1 d1 sp dp n fe rem ret new : 0 <= n <= rem →
  range sp dp n = pairs f (s_wins s) (s_off s) (s_wins d) (s_off d) n →
  s_off s1 = s_off s + n → s_off d1 = s_off d + n →
  same_places (s_wins s) (s_wins s1) (s_off s + n) → same_places (s_wins d) (s_wins d1) (s_off d + n) →
  copied f s1 d1 (rem - n) ret new → copied f s d rem ret (Xfer sp dp n fe :: new).
Proof.
  intros Hn Hrange Eso Edo Hps Hpd Hc.
  assert (∀ m, 0 <= m → range sp dp n ++ pairs f (s_wins s1) (s_off s1) (s_wins d1) (s_off d1) m =
    pairs f (s_wins s) (s_off s) (s_wins d) (s_off d) (n + m)) as Hjoin.
  { intros m Hm. rewrite pairs_app, Hrange by lia. f_equal. rewrite Eso, Edo. by apply pairs_places. }
  assert (flatten (Xfer sp dp n fe :: new) = range sp dp n ++ flatten new) as E by done. unfold copied. rewrite E.
  destruct Hc as [[-> ->]|(-> & m & Hm & ->)]; [left|right]; (split; [done|]).
  - rewrite Hjoin by lia. f_equal. lia.
  - exists (n + m). split; [lia|]. apply Hjoin. lia.
Qed.

Lemma copied_none f s d rem : 0 <= rem → copied f s d rem (- ENOMEM) [].
Proof. intros. right. split; [done|]. exists 0. split; [lia|done]. Qed.

Lemma same_places_mono ws ws' off off' : same_places ws ws' off → off <= off' → same_places ws ws' off'.
Proof. intros H Hle f x Hx. apply H. lia. Qed.

(** The last round of an ordered copy: two transfers with a fence in between. *)
Lemma split_copied s d sa da rem last : 0 < last <= rem →
  range (AtDma sa) (AtDma da) rem = pairs dma_place (s_wins s) (s_off s) (s_wins d) (s_off d) rem →
  copied dma_place s d rem 0 [Xfer (AtDma sa) (AtDma da) (rem - last) true;
                              Xfer (AtDma (sa + (rem - last))) (AtDma (da + (rem - last))) last false].
Proof.
  intros Hl Hr. left. split; [done|]. rewrite <- Hr.
  pose proof (range_app (AtDma sa) (AtDma da) (rem - last) last ltac:(lia) ltac:(lia)) as Ea.
  replace (rem - last + last) with rem in Ea by lia. rewrite Ea. unfold flatten. cbn. by rewrite app_nil_r.
Qed.

Lemma dma_loop_spec ok split last : 0 < last → (last | 4096) → ∀ fuel s d rem extra log,
  side_ok s (rem + extra) → side_ok d (rem + extra) → 0 <= rem < 2 ^ 63 → 0 <= extra → (Z.to_nat rem < fuel)%nat →
  (split = true → 0 < rem → (last | s_off s) ∧ (last | s_off d) ∧ (last | rem)) →
  ∃ ret s' d' new, dma_loop ok fuel split last s d rem log = Some (ret, s', d', log ++ new) ∧
    copied dma_place s d rem ret new ∧
    (ret = 0 → moved s s' rem extra ∧ moved d d' rem extra ∧ (split = true → 0 < rem → fenced last new)) ∧
    (rem = 0 → new = []).
Proof.
  intros Hl Hl4. induction fuel as [|fuel IH]; intros s d rem extra log Hs Hd Hrem Hex Hf Hsp; [lia|]. cbn [dma_loop].
  destruct (Z.eqb_spec rem 0) as [->|Hr]; cbn [negb].
  { eexists 0, s, d, []. rewrite app_nil_r. split; [done|]. split; [by left|]. split; [|done]. intros _. unfold moved.
    rewrite !Z.add_0_r. split_and!; try done; try apply Hs; try apply Hd. }
  destruct (dma_round s d (rem + extra) Hs Hd) as (s1 & d1 & sa & da & E & Hn & Hdiv & Eso & Edo & Hadd & Hps & Hpd & [Hxs Hxd] & Hw & Hrange); [lia|].
  destruct (side_next s) as [s'|]; [|done]. destruct (side_next d) as [d'|]; [|done]. cbn [mbind option_bind] in *.
  destruct (side_dma s') as [[sa' s'']|]; [|done]. destruct (side_dma d') as [[da' d'']|]; [|done]. cbn [mbind option_bind] in *.
  injection E as -> -> -> ->. set (n := Z.min (s_contig s1) (s_contig d1)) in *. set (loop_len := Z.min n rem).
  assert (Hmove : loop_len <= rem → ∀ m, 0 <= m <= loop_len → m = rem →
    moved s (side_add s1 m) rem extra ∧ moved d (side_add d1 m) rem extra).
  { intros _ m Hm ->. destruct (Hadd rem ltac:(lia) ltac:(lia)) as [A1 A2].
    replace (rem + extra - rem) with extra in A1, A2 by lia. unfold moved. cbn [s_off s_wins side_add] in *. rewrite Eso, Edo.
    split_and!; try done; intros f x Hx; [apply Hps|apply Hpd]; lia. }
  destruct (split && (rem - loop_len =? 0)) eqn:Hsplit.
  - apply andb_true_iff in Hsplit as [Hst Hlast]. apply Z.eqb_eq in Hlast. destruct (Hsp Hst ltac:(lia)) as (Ds & Dd & Dr).
    assert (last <= rem) by (apply Z.divide_pos_le; [lia|done]).
    rewrite (wrap_small 64 (loop_len - last)) by (unfold in_width; lia).
    destruct (ok (length log)); cbn [negb]; [|exists (- ENOMEM), s1, d1, []; rewrite app_nil_r; split; [done|split; [apply copied_none; lia|split; [done|lia]]]].
    rewrite (wrap_small 64 (rem - _)) by (unfold in_width; lia). replace (rem - (loop_len - last)) with last by lia.
    replace (loop_len - last) with (rem - last) by lia. destruct (Hw (rem - last)) as [W1 W2]; [lia|].
    destruct (ok (length _)); cbn [negb].
    2:{ eexists _, s1, d1, [_]. split; [done|]. split; [|split; [done|lia]]. right. split; [done|]. exists (rem - last). split; [lia|].
        rewrite flatten_one. apply Hrange. lia. }
    destruct fuel as [|fuel]; [lia|]. cbn [dma_loop Z.eqb negb]. rewrite !wrap_small by done.
    eexists 0, _, _, [_; _]. rewrite <- app_assoc. split; [reflexivity|].
    replace (rem - last + last) with rem by lia. split; [apply split_copied; [lia|apply Hrange; lia]|]. split; [|lia].
    intros _. destruct (Hmove ltac:(lia) rem ltac:(lia) eq_refl) as [M1 M2]. split_and!; try done.
    intros _ _. by exists [], (AtDma sa), (AtDma da), (rem - last), (AtDma (sa + (rem - last))), (AtDma (da + (rem - last))).
  - destruct (ok (length log)); cbn [negb]; [|exists (- ENOMEM), s1, d1, []; rewrite app_nil_r; split; [done|split; [apply copied_none; lia|split; [done|lia]]]].
    destruct (Hadd loop_len ltac:(lia) ltac:(lia)) as [A1 A2].
    replace (rem + extra - loop_len) with (rem - loop_len + extra) in A1, A2 by lia.
    destruct (IH (side_add s1 loop_len) (side_add d1 loop_len) (rem - loop_len) extra (log ++ [Xfer (AtDma sa) (AtDma da) loop_len false]))
      as (ret & s2 & d2 & new & E & Hcop & Hdone & _); try done; try lia.
    { intros Hst _. destruct (Hsp Hst ltac:(lia)) as (Ds & Dd & Dr). rewrite Hst in Hsplit. cbn in Hsplit. apply Z.eqb_neq in Hsplit.
      assert (loop_len = n) as -> by lia. cbn [s_off side_add]. rewrite Eso, Edo. specialize (Hdiv last Hl4 Ds Dd).
      split_and!; [by apply Z.divide_add_r|by apply Z.divide_add_r|by apply Z.divide_sub_r]. }
    exists ret, s2, d2, (Xfer (AtDma sa) (AtDma da) loop_len false :: new). rewrite E, <- app_assoc. split; [done|]. split; [|split; [|lia]].
    + apply copied_cons with (side_add s1 loop_len) (side_add d1 loop_len); cbn [s_off s_wins side_add]; try lia; try done.
      * apply Hrange. lia.
      * eapply same_places_mono; [exact Hps|lia].
      * eapply same_places_mono; [exact Hpd|lia].
    + intros Hret. destruct (Hdone Hret) as ((O1 & S1 & X1 & P1) & (O2 & S2 & X2 & P2) & Hfen). cbn [s_off s_wins side_add] in *.
      split_and!.
      * unfold moved. split_and!; [lia|done|by etrans|]. eapply same_places_trans; [exact Hps|exact P1|lia].
      * unfold moved. split_and!; [lia|done|by etrans|]. eapply same_places_trans; [exact Hpd|exact P2|lia].
      * intros Hst Hpos. rewrite Hst in Hsplit. cbn in Hsplit. apply Z.eqb_neq in Hsplit.
        destruct (Hfen Hst ltac:(lia)) as (l & sp & dp & k & sp' & dp' & ->).
        by exists (Xfer (AtDma sa) (AtDma da) loop_len false :: l), sp, dp, k, sp', dp'.
Qed.

(** ** Copies by the CPU *)

(** The aperture lies below the addresses of the windows of the other node. *)
Definition aper_ok (aper : option Z) (w : dma_window) : Prop :=
  match aper with
  | Some pa => w_type w ≠ SCIF_WINDOW_SELF → 0 <= pa <= SCIF_RMA_ERROR_CODE ∧ Forall (fun c => pa <= c.1) (chunks w)
  | None => True
  end.

(** The address the CPU uses is good to the end of the page. *)
Lemma cpu_addr_ok aper s it w ws : s_wins s = w :: ws → window_ok w → aper_ok aper w → w_offset w <= s_off s < w_end w →
  iter_ok w it (s_off s) →
  ∃ p it', cpu_addr aper s it = Some (p, it') ∧
    (∀ j, 0 <= j < 4096 - s_off s mod 4096 → at_off (cpu_place aper) (s_wins s) (s_off s + j) = shift p j) ∧
    (∀ off', s_off s <= off' → iter_ok w it' off').
Proof.
  intros Ew Hw Hap Hoff Hit. unfold cpu_addr. rewrite Ew. pose proof (Z.mod_pos_bound (s_off s) 4096 eq_refl) as Hm.
  pose proof (ok_aligned _ Hw) as [q Hq]. pose proof (w_end_eq w Hw) as He. destruct (ok_reg _ Hw) as (R1 & R2 & R3). fold (w_offset w) in R1, R3.
  assert (Hin : ∀ j, 0 <= j < 4096 - s_off s mod 4096 → s_off s + j < w_end w) by (intros j Hj; rewrite He, Hq in *; divlia).
  assert (Hat : ∀ j, 0 <= j < 4096 - s_off s mod 4096 → at_off (cpu_place aper) (w :: ws) (s_off s + j) = cpu_place aper w (s_off s + j)).
  { intros j Hj. cbn [at_off]. specialize (Hin j Hj). by destruct (Z.ltb_spec (s_off s + j) (w_end w)); [|lia]. }
  case_bool_decide as Hself.
  - eexists _, it. split; [reflexivity|]. split.
    + intros j Hj. rewrite Hat by done. unfold cpu_place, _get_local_va. rewrite bool_decide_true by done. cbn [shift].
      change (PAGE_SIZE - 1) with (2 ^ 12 - 1). rewrite land_pow2_mask by lia. unfold PAGE_SHIFT. rewrite Z.shiftr_div_pow2 by lia.
      change (2 ^ 12) with 4096. rewrite s64_small by lia. pose proof (ok_int _ Hw). rewrite s32_small by divlia.
      replace ((s_off s + j - w_offset w) / 4096) with ((s_off s - w_offset w) / 4096) by (rewrite Hq in *; divlia).
      replace ((s_off s + j) mod 4096) with (s_off s mod 4096 + j) by divlia. f_equal. lia.
    + intros off' Hle. destruct it as [it|]; [|done]. destruct Hit as (I1 & I2 & I3 & I4). cbn. split_and!; try done. lia.
  - unfold ioremap_remote. destruct (off_to_dma_spec w (s_off s) 0 it Hw Hoff Hit) as (n & it' & E & Hn & _ & [k Hk] & _ & Hit' & Hj').
    rewrite E. eexists _, it'. split; [reflexivity|]. split; [|done].
    assert (4096 - s_off s mod 4096 <= n) by divlia. intros j Hj. rewrite Hat by done. unfold cpu_place. rewrite bool_decide_false by done.
    cbn [shift]. rewrite Hj' by lia. f_equal. destruct aper as [pa|]; [|done]. destruct (Hap Hself) as [Hpa Hge].
    pose proof (dma_byte_range w (s_off s) Hw Hoff). assert (pa <= dma_byte w (s_off s)) by (apply chunk_addr_ge; [done|lia|lia]).
    rewrite wrap_small by (unfold in_width; lia). lia.
Qed.

(** One copy by the CPU that does not leave the pages. *)
Lemma cpu_range aper s d its itd w ws v vs n : s_wins s = w :: ws → s_wins d = v :: vs → window_ok w → window_ok v →
  aper_ok aper w → aper_ok aper v → w_offset w <= s_off s < w_end w → w_offset v <= s_off d < w_end v →
  iter_ok w its (s_off s) → iter_ok v itd (s_off d) →
  n <= 4096 - s_off s mod 4096 → n <= 4096 - s_off d mod 4096 →
  ∃ sp its' dp itd', cpu_addr aper s its = Some (sp, its') ∧ cpu_addr aper d itd = Some (dp, itd') ∧
    (∀ off', s_off s <= off' → iter_ok w its' off') ∧ (∀ off', s_off d <= off' → iter_ok v itd' off') ∧
    range sp dp n = pairs (cpu_place aper) (s_wins s) (s_off s) (s_wins d) (s_off d) n.
Proof.
  intros Ews Evs Hw Hv Ha Hb Ho Hp Hi Hj Hn Hm.
  destruct (cpu_addr_ok aper s its w ws Ews Hw Ha Ho Hi) as (sp & its' & E1 & P1 & I1).
  destruct (cpu_addr_ok aper d itd v vs Evs Hv Hb Hp Hj) as (dp & itd' & E2 & P2 & I2).
  exists sp, its', dp, itd'. split_and!; try done. apply range_pairs; intros j Hj'; [apply P1|apply P2]; lia.
Qed.

(** What a position in the middle of a window needs. *)
Definition inside (aper : option Z) (s : side) (len : Z) : Prop :=
  side_ok s len ∧ Forall (aper_ok aper) (s_wins s) ∧ ∃ w ws, s_wins s = w :: ws ∧ w_offset w <= s_off s < w_end w.

Lemma side_next_inside aper s len : side_ok s len → Forall (aper_ok aper) (s_wins s) → 0 < len →
  ∃ s', side_next s = Some s' ∧ inside aper s' len ∧ s_off s' = s_off s ∧ same_places (s_wins s) (s_wins s') (s_off s).
Proof.
  intros Hs Ha Hl. destruct (side_next_ok s len Hs Hl) as (s' & w & ws & E & Hs' & Eo & Ew & _ & Ho & Hx & Hp).
  exists s'. split_and!; try done. split; [done|]. split.
  - destruct Hx as [k Hk]. rewrite Hk in Ha. by apply Forall_app in Ha as [_ Ha].
  - exists w, ws. by rewrite Eo.
Qed.

Lemma page_room aper s len n : inside aper s len → n <= len → 0 <= n <= 4096 - s_off s mod 4096 → spans (s_wins s) (s_off s + n) (len - n).
Proof.
  intros ((Hs & Hit) & _ & w & ws & Ew & Ho) Hl Hn. rewrite Ew in *. pose proof Hs as (Hw & _ & _).
  apply spans_add; [done|lia|]. intros ?? [= <- <-]. pose proof (ok_aligned _ Hw) as [q Hq]. rewrite (w_end_eq w Hw), Hq in *. divlia.
Qed.

Lemma land_page off : Z.land off (PAGE_SIZE - 1) = off mod 4096.
Proof. change (PAGE_SIZE - 1) with (2 ^ 12 - 1). by rewrite land_pow2_mask. Qed.

Lemma cpu_loop_spec ok aper : ∀ fuel s d rem log, 0 <= rem → (Z.to_nat rem < fuel)%nat →
  (0 < rem → inside aper s rem ∧ inside aper d rem) →
  ∃ ret new, cpu_loop ok aper fuel s d rem log = Some (ret, log ++ new) ∧ copied (cpu_place aper) s d rem ret new.
Proof.
  induction fuel as [|fuel IH]; intros s d rem log Hrem Hf Hin; [lia|]. cbn [cpu_loop].
  destruct (Z.eqb_spec rem 0) as [->|Hr]; cbn [negb]; [exists 0, []; rewrite app_nil_r; split; [done|by left]|].
  destruct (Hin ltac:(lia)) as [Hs Hd]. rewrite !land_page. change PAGE_SIZE with 4096.
  pose proof (Z.mod_pos_bound (s_off s) 4096 eq_refl). pose proof (Z.mod_pos_bound (s_off d) 4096 eq_refl).
  set (n := Z.min (4096 - Z.max (s_off s mod 4096) (s_off d mod 4096)) rem).
  destruct (ok (length log)); cbn [negb]; [|exists (- ENOMEM), []; rewrite app_nil_r; split; [done|apply copied_none; lia]].
  pose proof Hs as ((Hss & His) & Has & w & ws & Ew & How). pose proof Hd as ((Hds & Hid) & Had & v & vs & Ev & Hov).
  pose proof (page_room aper s rem n Hs ltac:(lia) ltac:(lia)) as Rs. pose proof (page_room aper d rem n Hd ltac:(lia) ltac:(lia)) as Rd.
  rewrite Ew in His, Has, Hss. rewrite Ev in Hid, Had, Hds. destruct Hss as (Hw & _ & _). destruct Hds as (Hv & _ & _).
  destruct (cpu_range aper s d (s_iter s) (s_iter d) w ws v vs n) as (sp & its & dp & itd & E1 & E2 & I1 & I2 & Hr'); try done; try lia;
    [by inversion Has|by inversion Had|].
  rewrite E1, E2. cbn [mbind option_bind].
  set (s1 := Side (s_wins s) (s_off s + n) its (s_contig s)). set (d1 := Side (s_wins d) (s_off d + n) itd (s_contig d)).
  destruct (Z.eqb_spec (rem - n) 0) as [Hz|Hz]; cbn [negb].
  - destruct (IH s1 d1 (rem - n) (log ++ [Xfer sp dp n false])) as (ret & new & E & Hc); [lia|lia|lia|].
    rewrite E, <- app_assoc. exists ret, (Xfer sp dp n false :: new). split; [done|]. apply copied_cons with s1 d1; try done. lia.
  - assert (side_ok s1 (rem - n)) as Ok1 by (split; [exact Rs|subst s1; cbn [s_wins s_iter s_off]; rewrite Ew; apply I1; lia]).
    assert (side_ok d1 (rem - n)) as Ok2 by (split; [exact Rd|subst d1; cbn [s_wins s_iter s_off]; rewrite Ev; apply I2; lia]).
    destruct (side_next_inside aper s1 (rem - n) Ok1) as (s2 & Es & In1 & Eo1 & Pl1); [by cbn [s1 s_wins]; rewrite Ew|lia|].
    destruct (side_next_inside aper d1 (rem - n) Ok2) as (d2 & Ed & In2 & Eo2 & Pl2); [by cbn [d1 s_wins]; rewrite Ev|lia|].
    rewrite Es, Ed. cbn [mbind option_bind].
    destruct (IH s2 d2 (rem - n) (log ++ [Xfer sp dp n false])) as (ret & new & E & Hc); [lia|lia|done|].
    rewrite E, <- app_assoc. exists ret, (Xfer sp dp n false :: new). split; [done|]. apply copied_cons with s2 d2; try done. lia.
Qed.

(** ** The routines *)

(** The windows hold the range, and the first of them its first byte. *)
Definition holds (aper : option Z) (ws : list dma_window) (off len : Z) : Prop :=
  spans ws off len ∧ Forall (aper_ok aper) ws ∧ match ws with w :: _ => off < w_end w | [] => False end.

Lemma start_side_inside aper ws off len : holds aper ws off len → inside aper (start_side ws off) len.
Proof.
  intros (Hs & Ha & Hlt). destruct ws as [|w ws]; [done|]. pose proof Hs as (Hw & Ho & _). split; [split|split].
  - done.
  - cbn [start_side s_wins s_iter s_off head fmap option_fmap option_map iter_ok scif_init_window_iter it_index it_offset].
    change (pages_of (take (Z.to_nat 0) (chunks w))) with 0. pose proof (zlen_nonneg (chunks w)). lia.
  - done.
  - exists w, ws. split; [done|]. cbn [start_side s_off]. lia.
Qed.

Record work_ok (aper : option Z) (work : scif_copy_work) : Prop := {
  wk_len : 0 < cw_len work < 2 ^ 63;
  wk_src : holds aper (src_wins work) (src_offset work) (cw_len work);
  wk_dst : holds aper (dst_wins work) (dst_offset work) (cw_len work);
}.

Definition work_pairs (f : dma_window → Z → place) (work : scif_copy_work) (off n : Z) : list (place * place) :=
  pairs f (src_wins work) (src_offset work + off) (dst_wins work) (dst_offset work + off) n.

(** A routine has done the bytes [full], or with an error a first part of them. *)
Definition outcome (full : list (place * place)) (ret : Z) (log : list xfer) : Prop :=
  (ret = 0 ∧ flatten log = full) ∨ (ret ≠ 0 ∧ flatten log `prefix_of` full).

Lemma pairs_prefix f srcs so dsts do_ m n : 0 <= m <= n → pairs f srcs so dsts do_ m `prefix_of` pairs f srcs so dsts do_ n.
Proof. intros. exists (pairs f srcs (so + m) dsts (do_ + m) (n - m)). rewrite <- pairs_app by lia. f_equal. lia. Qed.

Lemma copied_outcome f s d rem ret new : copied f s d rem ret new →
  outcome (pairs f (s_wins s) (s_off s) (s_wins d) (s_off d) rem) ret new.
Proof.
  unfold outcome. intros [[-> E]|(-> & m & Hm & E)]; rewrite E; [by left|]. right. split; [done|]. by apply pairs_prefix.
Qed.

Lemma cpu_copy_outcome ok aper work : work_ok aper work →
  ∃ ret log, scif_rma_list_cpu_copy ok aper work = Some (ret, log) ∧ outcome (work_pairs (cpu_place aper) work 0 (cw_len work)) ret log.
Proof.
  intros [Hl Hs Hd]. unfold scif_rma_list_cpu_copy.
  destruct (cpu_loop_spec ok aper (S (Z.to_nat (cw_len work))) (start_side (src_wins work) (src_offset work))
    (start_side (dst_wins work) (dst_offset work)) (cw_len work) []) as (ret & new & E & Hc); [lia|lia| |].
  - intros _. split; by apply start_side_inside.
  - exists ret, new. split; [done|]. apply copied_outcome in Hc. unfold work_pairs. by rewrite !Z.add_0_r.
Qed.

Lemma dma_copy_any_outcome ok work : work_ok None work →
  ∃ ret log, _scif_rma_list_dma_copy_aligned ok work = Some (ret, log) ∧
    outcome (work_pairs dma_place work 0 (cw_len work)) ret log ∧ (ret = 0 → ordered work = true → fenced 1 log).
Proof.
  intros [Hl Hs Hd]. apply start_side_inside in Hs as [Hs _]. apply start_side_inside in Hd as [Hd _]. unfold _scif_rma_list_dma_copy_aligned.
  destruct (dma_loop_spec ok (ordered work) 1 ltac:(lia) ltac:(by exists 4096) (S (Z.to_nat (cw_len work))) (start_side (src_wins work) (src_offset work))
    (start_side (dst_wins work) (dst_offset work)) (cw_len work) 0 []) as (ret & s' & d' & new & E & Hc & Hdone & _); try lia.
  - by rewrite Z.add_0_r.
  - by rewrite Z.add_0_r.
  - intros _ _. split_and!; apply Z.divide_1_l.
  - rewrite E. exists ret, new. split; [done|]. split.
    + apply copied_outcome in Hc. unfold work_pairs. by rewrite !Z.add_0_r.
    + intros Hret Hord. destruct (Hdone Hret) as (_ & _ & Hfen). apply Hfen; [done|lia].
Qed.

Lemma iter_ok_mono w it off off' : iter_ok w it off → off <= off' → iter_ok w it off'.
Proof. intros H Hle. destruct it as [it|]; [|done]. destruct H as (I1 & I2 & I3 & I4). cbn. split_and!; try done. lia. Qed.

Lemma cpu_piece_spec ok aper s d len n ord log : inside aper s len → inside aper d len →
  n <= 4096 - s_off s mod 4096 → n <= 4096 - s_off d mod 4096 →
  cpu_piece ok aper s d n ord log = Some (- ENOMEM, log) ∨
  ∃ sp dp, cpu_piece ok aper s d n ord log = Some (0, log ++ [Xfer sp dp n ord]) ∧
    range sp dp n = pairs (cpu_place aper) (s_wins s) (s_off s) (s_wins d) (s_off d) n.
Proof.
  intros ((Hss & _) & Has & w & ws & Ew & How) ((Hds & _) & Had & v & vs & Ev & Hov) Hn Hm. unfold cpu_piece.
  destruct (ok (length log)); cbn [negb]; [|by left]. right. rewrite Ew in Has, Hss. rewrite Ev in Had, Hds.
  destruct Hss as (Hw & _ & _). destruct Hds as (Hv & _ & _).
  destruct (cpu_range aper s d None None w ws v vs n) as (sp & its & dp & itd & -> & -> & _ & _ & Hr); try done;
    [by inversion Has|by inversion Had|].
  by exists sp, dp.
Qed.

(** The bytes of the head and the tail, which the CPU copies, and of the body. *)
Definition head_len (work : scif_copy_work) : Z :=
  if src_offset work mod 64 =? 0 then 0 else Z.min (64 - src_offset work mod 64) (cw_len work).
Definition tail_len (work : scif_copy_work) : Z := (cw_len work - head_len work) mod 64.
Definition aligned_pairs (aper : option Z) (work : scif_copy_work) : list (place * place) :=
  let h := head_len work in let t := tail_len work in let b := cw_len work - h - t in
  work_pairs (cpu_place aper) work 0 h ++ work_pairs dma_place work h b ++ work_pairs (cpu_place aper) work (h + b) t.

(** The last bytes of an ordered copy are written when all others have been: by a
    transfer behind a fence, by the CPU after a drain, or by a single copy. *)
Definition ends_ordered (log : list xfer) : Prop :=
  fenced 64 log ∨ (∃ l sp dp n, log = l ++ [Drain; Xfer sp dp n true]) ∨ (∃ sp dp n, log = [Xfer sp dp n true]).

Lemma land_cache off : Z.land off (L1_CACHE_BYTES - 1) = off mod 64.
Proof. change (L1_CACHE_BYTES - 1) with (2 ^ 6 - 1). by rewrite land_pow2_mask. Qed.

Lemma cache_page a n : n <= 64 - a mod 64 → n <= 4096 - a mod 4096.
Proof. divlia. Qed.

(** The part of the routine after the head. *)
Lemma aligned_rest ok aper drained s d rem ord log :
  side_ok s rem → side_ok d rem → Forall (aper_ok aper) (s_wins s) → Forall (aper_ok aper) (s_wins d) →
  0 <= rem < 2 ^ 63 → (0 < rem → s_off s mod 64 = 0 ∧ s_off d mod 64 = 0) →
  let t := rem mod 64 in
  ∃ ret new, ('(ret, s, d, log) ← dma_loop ok (S (Z.to_nat rem)) (ord && (t =? 0)) L1_CACHE_BYTES s d (rem - t) log;
    if ret <? 0 then Some (ret, log)
    else if negb (t =? 0) then
      s ← side_next s; d ← side_next d;
      if ord && negb (drained =? 0) then Some (drained, log)
      else let log := if ord then log ++ [Drain] else log in cpu_piece ok aper s d t ord log
    else Some (ret, log)) = Some (ret, log ++ new) ∧
  outcome (pairs dma_place (s_wins s) (s_off s) (s_wins d) (s_off d) (rem - t) ++
           pairs (cpu_place aper) (s_wins s) (s_off s + (rem - t)) (s_wins d) (s_off d + (rem - t)) t) ret new ∧
  (ret = 0 → ord = true → 0 < rem → fenced 64 new ∨ ∃ l sp dp n, new = l ++ [Drain; Xfer sp dp n true]) ∧
  (rem = 0 → new = []).
Proof.
  intros Hs Hd Has Had Hrem Hal t. pose proof (Z.mod_pos_bound rem 64 eq_refl) as Ht. fold t in Ht.
  assert (t <= rem) as Htr by (unfold t; divlia).
  destruct (dma_loop_spec ok (ord && (t =? 0)) 64 ltac:(lia) ltac:(by exists 64) (S (Z.to_nat rem)) s d (rem - t) t log)
    as (ret & s' & d' & new & E & Hc & Hdone & Hnil); try lia.
  { by replace (rem - t + t) with rem by lia. }
  { by replace (rem - t + t) with rem by lia. }
  { intros [_ Hz]%andb_true_iff Hpos. apply Z.eqb_eq in Hz. destruct (Hal ltac:(lia)) as [A1 A2].
    split_and!; apply Z.mod_divide; try done. rewrite Hz, Z.sub_0_r. exact Hz. }
  change L1_CACHE_BYTES with 64. rewrite E. cbn [mbind option_bind].
  set (body := pairs dma_place (s_wins s) (s_off s) (s_wins d) (s_off d) (rem - t)).
  set (tl := pairs (cpu_place aper) (s_wins s) (s_off s + (rem - t)) (s_wins d) (s_off d + (rem - t)) t).
  destruct Hc as [[-> Ef]|(-> & m & Hm & Ef)].
  2:{ exists (- ENOMEM), new. split; [done|]. split; [|split; [done|intros ->; by apply Hnil]]. right. split; [done|]. rewrite Ef.
      apply prefix_app_r, pairs_prefix. lia. }
  cbn [Z.ltb]. destruct (Hdone eq_refl) as ((O1 & S1 & [k1 X1] & P1) & (O2 & S2 & [k2 X2] & P2) & Hfen).
  rewrite X1 in Has. apply Forall_app in Has as [_ Has]. rewrite X2 in Had. apply Forall_app in Had as [_ Had].
  destruct (Z.eqb_spec t 0) as [Hz|Hz]; cbn [negb].
  { exists 0, new. split; [done|]. split; [|split; [|intros ->; by apply Hnil]].
    - left. split; [done|]. unfold tl. rewrite Hz, pairs_0, app_nil_r. exact Ef.
    - intros _ -> Hpos. left. apply Hfen; [done|lia]. }
  destruct (side_next_inside aper s' t S1 Has) as (s2 & Es & In1 & Eo1 & Pl1); [lia|].
  destruct (side_next_inside aper d' t S2 Had) as (d2 & Ed & In2 & Eo2 & Pl2); [lia|].
  rewrite Es, Ed. cbn [mbind option_bind]. destruct (Hal ltac:(lia)) as [A1 A2].
  destruct (ord && negb (drained =? 0)) eqn:Hdr.
  { apply andb_true_iff in Hdr as [_ Hdr]. apply negb_true_iff, Z.eqb_neq in Hdr. exists drained, new. split; [done|].
    split; [|split; [done|intros ->; by apply Hnil]]. right. split; [done|]. rewrite Ef. by apply prefix_app_r. }
  set (mid := if ord then [Drain] else []).
  assert ((if ord then (log ++ new) ++ [Drain] else log ++ new) = log ++ new ++ mid) as ->
    by (unfold mid; destruct ord; rewrite ?app_nil_r, <- ?app_assoc; done).
  assert (flatten (new ++ mid) = body) as Ef' by (rewrite flatten_app, Ef; unfold mid; destruct ord; cbn; by rewrite app_nil_r).
  assert (s_off s2 mod 64 = 0 ∧ s_off d2 mod 64 = 0) as [B1 B2] by (rewrite Eo1, O1, Eo2, O2; unfold t; divlia).
  destruct (cpu_piece_spec ok aper s2 d2 t t ord (log ++ new ++ mid) In1 In2) as [Ep|(sp & dp & Ep & Hr)];
    [apply cache_page; lia|apply cache_page; lia| |]; rewrite Ep.
  - exists (- ENOMEM), (new ++ mid). split; [done|]. split; [|split; [done|lia]]. right. split; [done|]. rewrite Ef'. by apply prefix_app_r.
  - exists 0, (new ++ mid ++ [Xfer sp dp t ord]). rewrite <- !app_assoc. split; [done|]. split; [|split; [|lia]].
    + left. split; [done|]. rewrite app_assoc, flatten_app, Ef', flatten_one. cbn [xbytes]. rewrite Hr. f_equal.
      unfold tl. rewrite Eo1, Eo2, O1, O2. apply pairs_places.
      * rewrite <- O1. eapply same_places_trans; [exact P1|exact Pl1|lia].
      * rewrite <- O2. eapply same_places_trans; [exact P2|exact Pl2|lia].
    + intros _ -> _. right. by exists new, sp, dp, t.
Qed.

Lemma side_add_ok aper s len h : inside aper s len → 0 <= h <= len → h <= 4096 - s_off s mod 4096 → side_ok (side_add s h) (len - h).
Proof.
  intros Hin Hh Hp. split; cbn [side_add s_wins s_off s_iter]; [eapply page_room; [exact Hin|lia|lia]|].
  destruct Hin as ((_ & Hi) & _). destruct (s_wins s); [done|]. eapply iter_ok_mono; [exact Hi|lia].
Qed.

Lemma head_len_spec work : 0 < cw_len work → src_offset work mod 64 = dst_offset work mod 64 → let h := head_len work in
  0 <= h <= cw_len work ∧ h <= 4096 - src_offset work mod 4096 ∧ h <= 4096 - dst_offset work mod 4096 ∧
  (0 < cw_len work - h → (src_offset work + h) mod 64 = 0 ∧ (dst_offset work + h) mod 64 = 0).
Proof.
  intros Hl Hal h. pose proof (Z.mod_pos_bound (src_offset work) 64 eq_refl).
  assert (0 <= h <= cw_len work ∧ h <= 64 - src_offset work mod 64) as [Hh Hh'] by (unfold h, head_len; destruct (_ =? 0); lia).
  split_and!; [lia|lia|apply cache_page; lia|apply cache_page; lia|].
  unfold h, head_len. destruct (Z.eqb_spec (src_offset work mod 64) 0); intros; divlia.
Qed.

(** The head of the routine. *)
Lemma aligned_head ok aper work : work_ok aper work → src_offset work mod 64 = dst_offset work mod 64 → let h := head_len work in
  ∃ ret log, (if negb (src_offset work mod 64 =? 0)
      then cpu_piece ok aper (start_side (src_wins work) (src_offset work)) (start_side (dst_wins work) (dst_offset work)) h
             (if cw_len work =? h then ordered work else false) []
      else Some (0, [])) = Some (ret, log) ∧
    ((ret = - ENOMEM ∧ log = []) ∨ (ret = 0 ∧ flatten log = work_pairs (cpu_place aper) work 0 h ∧
      (cw_len work = h → ∃ sp dp, log = [Xfer sp dp h (ordered work)]))).
Proof.
  intros [Hl Hs Hd] Hal h. pose proof (start_side_inside _ _ _ _ Hs) as Is. pose proof (start_side_inside _ _ _ _ Hd) as Id.
  destruct (head_len_spec work ltac:(lia) Hal) as (Hh & Hp1 & Hp2 & _). fold h in Hh, Hp1, Hp2.
  destruct (Z.eqb_spec (src_offset work mod 64) 0) as [Hz|Hz]; cbn [negb].
  - exists 0, []. split; [done|]. right. assert (h = 0) as -> by (unfold h, head_len; by rewrite Hz). split_and!; [done|done|lia].
  - destruct (cpu_piece_spec ok aper (start_side (src_wins work) (src_offset work)) (start_side (dst_wins work) (dst_offset work))
      (cw_len work) h (if cw_len work =? h then ordered work else false) [] Is Id) as [E|(sp & dp & E & Hr)]; [done..| |]; rewrite E.
    + exists (- ENOMEM), []. split; [done|]. by left.
    + eexists 0, _. split; [reflexivity|]. right. cbn [app]. rewrite flatten_one. cbn [xbytes]. split_and!; [done| |].
      * unfold work_pairs. rewrite !Z.add_0_r. exact Hr.
      * intros Ee. exists sp, dp. by destruct (Z.eqb_spec (cw_len work) h).
Qed.

Lemma aligned_outcome ok aper drained work : work_ok aper work → src_offset work mod 64 = dst_offset work mod 64 →
  ∃ ret log, scif_rma_list_dma_copy_aligned ok aper drained work = Some (ret, log) ∧
    outcome (aligned_pairs aper work) ret log ∧ (ret = 0 → ordered work = true → ends_ordered log).
Proof.
  intros Hwork Hal. destruct (aligned_head ok aper work Hwork Hal) as (ret & log & Ehead & Hcase).
  destruct (head_len_spec work ltac:(apply Hwork) Hal) as (Hh & Hp1 & Hp2 & Hh2). destruct Hwork as [Hl Hs Hd].
  pose proof (start_side_inside _ _ _ _ Hs) as Is. pose proof (start_side_inside _ _ _ _ Hd) as Id.
  unfold scif_rma_list_dma_copy_aligned. cbv zeta.
  set (s := start_side (src_wins work) (src_offset work)) in *. set (d := start_side (dst_wins work) (dst_offset work)) in *.
  change (s_off s) with (src_offset work). rewrite !land_cache.
  assert ((if negb (src_offset work mod 64 =? 0) then (L1_CACHE_BYTES - src_offset work mod 64) `min` cw_len work else 0) = head_len work) as Eh
    by (unfold head_len; by destruct (_ =? 0)).
  rewrite !Eh, Ehead. set (h := head_len work) in *. cbn [mbind option_bind].
  destruct Hcase as [[-> ->]|(-> & Ef & Hone)].
  { exists (- ENOMEM), []. split; [done|]. split; [|done]. right. split; [done|]. apply prefix_nil. }
  destruct (aligned_rest ok aper drained (side_add s h) (side_add d h) (cw_len work - h) (ordered work) log) as (ret & new & E & Hout & Hord & Hnil);
    [by eapply side_add_ok|by eapply side_add_ok|apply Is|apply Id|lia|done|].
  change (0 <? 0) with false. cbn match. exists ret, (log ++ new). split; [exact E|]. split.
  - unfold outcome, aligned_pairs, work_pairs in *. fold h. cbn [side_add s_wins s_off] in Hout. rewrite flatten_app, Ef.
    unfold tail_len. fold h. rewrite !Z.add_assoc. destruct Hout as [[-> Ho]|[Hne Hp]]; [left; by rewrite Ho|]. right. split; [done|]. by apply prefix_app.
  - intros -> Ho. destruct (Z.eq_dec (cw_len work) h) as [Ee|Ne].
    + destruct (Hone Ee) as (sp & dp & ->). rewrite (Hnil ltac:(lia)), app_nil_r, Ho. right. right. by exists sp, dp, h.
    + destruct (Hord eq_refl Ho ltac:(lia)) as [(l & sp & dp & n & sp' & dp' & ->)|(l & sp & dp & n & ->)].
      * left. exists (log ++ l), sp, dp, n, sp', dp'. by rewrite app_assoc.
      * right. left. exists (log ++ l), sp, dp, n. by rewrite app_assoc.
Qed.

End ScifDmaInv.
