(* ===== verification/ScifDmaTemp.v ===== *)
(** * Copies through the temporary buffer

    The routines for offsets that are not aligned to each other, and the claims about all
    copies of [ScifDma]. *)
From S2P Require Import Prelude RmaList DmaWindow ScifDma ScifDmaInv.
Local Open Scope Z_scope.

Module ScifDmaTemp.
Import RmaList DmaWindow ScifDma ScifDmaInv.

(** The bytes of a range of the windows with consecutive places of the buffer, and the
    direction of a transfer. *)
Definition wpairs (f : dma_window → Z → place) (ws : list dma_window) (off temp n : Z) : list (place * place) :=
  (fun k => (at_off f ws (off + k), AtTemp (temp + k))) <$> seqZ 0 n.
Definition orient (to_window : bool) (l : list (place * place)) : list (place * place) :=
  if to_window then (fun p => (p.2, p.1)) <$> l else l.

Lemma orient_app b l k : orient b (l ++ k) = orient b l ++ orient b k.
Proof. destruct b; [apply fmap_app|done]. Qed.

Lemma orient_prefix b l k : l `prefix_of` k → orient b l `prefix_of` orient b k.
Proof. intros [j ->]. rewrite orient_app. by apply prefix_app_r. Qed.

Lemma txfer_bytes b p temp n f : xbytes (txfer b p temp n f) = orient b (range p (AtTemp temp) n).
Proof. unfold txfer, orient. destruct b; [|done]. cbn [xbytes]. unfold range. rewrite <- list_fmap_compose. done. Qed.

Lemma wpairs_app f ws off temp n m : 0 <= n → 0 <= m →
  wpairs f ws off temp (n + m) = wpairs f ws off temp n ++ wpairs f ws (off + n) (temp + n) m.
Proof.
  intros. unfold wpairs. rewrite seqZ_shift, fmap_app by lia. f_equal. rewrite <- list_fmap_compose.
  apply list_fmap_ext. intros i k _. unfold compose. by rewrite !Z.add_assoc.
Qed.

Lemma wpairs_prefix f ws off temp m n : 0 <= m <= n → wpairs f ws off temp m `prefix_of` wpairs f ws off temp n.
Proof. intros. exists (wpairs f ws (off + m) (temp + m) (n - m)). rewrite <- wpairs_app by lia. f_equal. lia. Qed.

Lemma wpairs_places f ws ws' off temp n : same_places ws ws' off → wpairs f ws' off temp n = wpairs f ws off temp n.
Proof.
  intros Hs. unfold wpairs. apply list_fmap_ext. intros i k Hk. apply list_elem_of_lookup_2, elem_of_seqZ in Hk. by rewrite Hs by lia.
Qed.

Lemma range_wpairs f ws off p temp n : (∀ j, 0 <= j < n → at_off f ws (off + j) = shift p j) →
  range p (AtTemp temp) n = wpairs f ws off temp n.
Proof.
  intros Hs. unfold range, wpairs. apply list_fmap_ext. intros i k Hk. apply list_elem_of_lookup_2, elem_of_seqZ in Hk. by rewrite Hs by lia.
Qed.

(** What a list of transfers between the buffer and the windows has done. *)
Definition tcopied (f : dma_window → Z → place) (b : bool) (s : side) (temp rem ret : Z) (new : list xfer) : Prop :=
  (ret = 0 ∧ flatten new = orient b (wpairs f (s_wins s) (s_off s) temp rem)) ∨
  (ret = - ENOMEM ∧ ∃ m, 0 <= m <= rem ∧ flatten new = orient b (wpairs f (s_wins s) (s_off s) temp m)).

Lemma tcopied_none f b s temp rem : 0 <= rem → tcopied f b s temp rem (- ENOMEM) [].
Proof. intros. right. split; [done|]. exists 0. split; [lia|by destruct b]. Qed.

Lemma tcopied_cons f b s s1 p temp n fe rem ret new : 0 <= n <= rem →
  range p (AtTemp temp) n = wpairs f (s_wins s) (s_off s) temp n →
  s_off s1 = s_off s + n → same_places (s_wins s) (s_wins s1) (s_off s + n) →
  tcopied f b s1 (temp + n) (rem - n) ret new → tcopied f b s temp rem ret (txfer b p temp n fe :: new).
Proof.
  intros Hn Hrange Eso Hps Hc.
  assert (∀ m, 0 <= m → orient b (range p (AtTemp temp) n) ++ orient b (wpairs f (s_wins s1) (s_off s1) (temp + n) m) =
    orient b (wpairs f (s_wins s) (s_off s) temp (n + m))) as Hjoin.
  { intros m Hm. rewrite wpairs_app, orient_app, Hrange by lia. do 2 f_equal. rewrite Eso. by apply wpairs_places. }
  assert (flatten (txfer b p temp n fe :: new) = orient b (range p (AtTemp temp) n) ++ flatten new) as E
    by (rewrite <- (txfer_bytes b p temp n fe); done).
  unfold tcopied. rewrite E. destruct Hc as [[-> ->]|(-> & m & Hm & ->)]; [left|right]; (split; [done|]).
  - rewrite Hjoin by lia. do 2 f_equal. lia.
  - exists (n + m). split; [lia|]. apply Hjoin. lia.
Qed.

(** ** Between the pages of this node and the buffer *)

Lemma local_loop_spec to_temp : ∀ fuel (fresh : bool) s temp rem log, 0 <= rem → (Z.to_nat rem + (if fresh then 1 else 0) < fuel)%nat →
  Forall (fun w => w_type w = SCIF_WINDOW_SELF) (s_wins s) →
  (if fresh then inside None s rem else side_ok s rem ∧ (0 < rem → s_off s mod 4096 = 0)) →
  ∃ new, local_loop fuel to_temp fresh s temp rem log = Some (log ++ new) ∧
    flatten new = orient (negb to_temp) (wpairs (cpu_place None) (s_wins s) (s_off s) temp rem).
Proof.
  induction fuel as [|fuel IH]; intros fresh s temp rem log Hrem Hf Hself Hs; [lia|]. cbn [local_loop].
  destruct (fresh || negb (rem =? 0)) eqn:Hgo.
  2:{ apply orb_false_iff in Hgo as [-> Hz%negb_false_iff%Z.eqb_eq]. exists []. subst rem. rewrite app_nil_r. split; [done|]. by destruct to_temp. }
  assert (∃ s1, (if fresh then Some s else side_next s) = Some s1 ∧ inside None s1 rem ∧ s_off s1 = s_off s ∧
    same_places (s_wins s) (s_wins s1) (s_off s) ∧ Forall (fun w => w_type w = SCIF_WINDOW_SELF) (s_wins s1) ∧
    (fresh = false → s_off s mod 4096 = 0)) as (s1 & -> & Hin & Eo & Hp & Hself1 & Hpage).
  { destruct fresh; [exists s; split_and!; done|]. cbn in Hgo. apply negb_true_iff, Z.eqb_neq in Hgo. destruct Hs as [Hs Hal].
    destruct (side_next_ok s rem Hs ltac:(lia)) as (s1 & w & ws & E & Hs1 & Eo & Ew & _ & Ho & Hx & Hp).
    exists s1. split_and!; try done.
    - split; [done|]. split; [apply Forall_forall; done|]. exists w, ws. by rewrite Eo.
    - destruct Hx as [k Hk]. rewrite Hk in Hself. by apply Forall_app in Hself as [_ ?].
    - intros _. apply Hal. lia. }
  cbn [mbind option_bind]. pose proof Hin as ((Hss & _) & _ & w & ws & Ew & How). rewrite Ew in Hself1 |- *.
  rewrite land_page. change PAGE_SIZE with 4096. pose proof (Z.mod_pos_bound (s_off s) 4096 eq_refl).
  assert (w_type w = SCIF_WINDOW_SELF) as Hw by (by inversion Hself1). rewrite bool_decide_true by done.
  set (n := if fresh then Z.min (4096 - s_off s1 mod 4096) rem else Z.min 4096 rem).
  assert (n = Z.min (4096 - s_off s mod 4096) rem) as Hn.
  { unfold n. rewrite Eo. destruct fresh; [done|]. rewrite (Hpage eq_refl). lia. }
  destruct (cpu_addr_ok None s1 None w ws Ew ltac:(rewrite Ew in Hss; apply Hss) I How I) as (p & it & Ep & Hplace & _).
  unfold cpu_addr in Ep. rewrite Ew, bool_decide_true in Ep by done. injection Ep as <- _.
  assert (range (_get_local_va (s_off s1) w) (AtTemp temp) n = wpairs (cpu_place None) (s_wins s) (s_off s) temp n) as Hr.
  { rewrite <- (wpairs_places _ (s_wins s) (s_wins s1)) by done. rewrite <- Eo. apply range_wpairs. intros j Hj. apply Hplace. rewrite Eo. lia. }
  destruct (IH false (side_add s1 n) (temp + n) (rem - n) (log ++ [txfer (negb to_temp) (_get_local_va (s_off s1) w) temp n false]))
    as (new & E & Ef); [lia| |cbn [side_add s_wins]; by rewrite Ew|split|].
  { destruct fresh; [lia|]. cbn in Hgo. apply negb_true_iff, Z.eqb_neq in Hgo. lia. }
  { eapply side_add_ok; [exact Hin|lia|rewrite Eo; lia]. }
  { intros Hpos. cbn [side_add s_off]. rewrite Eo, Hn. divlia. }
  rewrite E, <- app_assoc. eexists. split; [reflexivity|].
  assert (tcopied (cpu_place None) (negb to_temp) s temp rem 0 (txfer (negb to_temp) (_get_local_va (s_off s1) w) temp n false :: new)) as Hc.
  { apply tcopied_cons with (side_add s1 n); cbn [side_add s_off s_wins]; try done; try lia.
    - eapply same_places_mono; [exact Hp|lia].
    - left. done. }
  destruct Hc as [[_ Hc]|[Hc _]]; done.
Qed.

Lemma local_copy_spec wins off temp rem to_temp : 0 < rem → holds None wins off rem →
  Forall (fun w => w_type w = SCIF_WINDOW_SELF) wins →
  ∃ log, scif_rma_local_cpu_copy wins off temp rem to_temp = Some log ∧
    flatten log = orient (negb to_temp) (wpairs (cpu_place None) wins off temp rem).
Proof.
  intros Hrem (Hs & Ha & Hlt) Hself. unfold scif_rma_local_cpu_copy.
  destruct (local_loop_spec to_temp (S (S (Z.to_nat rem))) true (Side wins off None 0) temp rem []) as (new & E & Ef); [lia|lia|done| |].
  - destruct wins as [|w ws]; [done|]. split; [by split|]. split; [done|]. exists w, ws. split; [done|]. cbn. destruct Hs as (_ & ? & _). lia.
  - by exists new.
Qed.

(** ** Between windows of the other node and the buffer *)

Lemma temp_round s len : side_ok s len → 0 < len →
  ∃ s1 a, (s' ← side_next s; side_dma s') = Some (a, s1) ∧ 0 < s_contig s1 ∧
    ((64 | s_off s) → (64 | s_contig s1)) ∧ s_off s1 = s_off s ∧
    (∀ m, 0 <= m <= s_contig s1 → m <= len → side_ok (side_add s1 m) (len - m)) ∧
    same_places (s_wins s) (s_wins s1) (s_off s) ∧ s_wins s1 `suffix_of` s_wins s ∧
    (∀ m, 0 <= m < s_contig s1 → in_width 64 (a + m)) ∧
    ∀ temp m, m <= s_contig s1 → range (AtDma a) (AtTemp temp) m = wpairs dma_place (s_wins s) (s_off s) temp m.
Proof.
  intros Hs Hlen. destruct (side_next_ok s len Hs Hlen) as (s' & w & ws & Es & Hs' & Eso & Ews & Hw & Hwo & Hsx & Hsp).
  rewrite <- Eso in Hwo. destruct (side_dma_ok s' len w ws Hs' Ews Hwo) as (s1 & Es1 & Ews1 & Eso1 & Hn1 & Hend1 & Hdiv1 & Hj1 & Hadd1).
  rewrite Es. cbn [mbind option_bind]. rewrite Es1. eexists s1, _. split; [reflexivity|]. rewrite Eso in *. rewrite Ews1.
  split_and!; try done.
  - intros Hk. apply Z.divide_add_cancel_r with (s_off s); [done|]. etrans; [by exists 64|exact Hdiv1].
  - intros m Hm. unfold in_width. rewrite <- Hj1 by lia. apply dma_byte_range; (done || lia).
  - intros temp m Hm. rewrite <- (wpairs_places dma_place (s_wins s) (s_wins s')) by done. apply range_wpairs. intros j Hj. rewrite Ews.
    cbn [at_off]. destruct (Z.ltb_spec (s_off s + j) (w_end w)); [|lia]. cbn [shift]. unfold dma_place. by rewrite Hj1 by lia.
Qed.

(** The last cache line comes behind a fence, or is the only transfer of the last round. *)
Definition tfenced (new : list xfer) : Prop :=
  (∃ l p t n p' t', new = l ++ [txfer true p t n true; txfer true p' t' 64 false]) ∨
  (∃ l p t, new = l ++ [txfer true p t 64 false]).

Lemma unaligned_loop_spec ok b ord : ∀ fuel s temp rem extra log,
  side_ok s (rem + extra) → 0 <= rem < 2 ^ 63 → 0 <= extra → (Z.to_nat rem < fuel)%nat →
  (0 < rem → (64 | s_off s) ∧ (64 | rem)) →
  ∃ ret s' temp' new, unaligned_loop ok fuel b ord s temp rem log = Some (ret, s', temp', log ++ new) ∧
    tcopied dma_place b s temp rem ret new ∧
    (ret = 0 → moved s s' rem extra ∧ (0 < extra → b && ord = false → temp' = temp + rem) ∧
      (b && ord = true → 0 < rem → tfenced new)) ∧ (rem = 0 → new = []).
Proof.
  induction fuel as [|fuel IH]; intros s temp rem extra log Hs Hrem Hex Hf Hal; [lia|]. cbn [unaligned_loop].
  destruct (Z.eqb_spec rem 0) as [->|Hr]; cbn [negb].
  { eexists 0, s, temp, []. rewrite app_nil_r. split; [done|]. split; [left; split; [done|by destruct b]|]. split; [|done]. intros _. unfold moved.
    rewrite !Z.add_0_r. split_and!; try done; apply Hs. }
  destruct (temp_round s (rem + extra) Hs ltac:(lia)) as (s1 & a & E & Hn & Hdiv & Eso & Hadd & Hps & Hx & Hw & Hrange).
  destruct (side_next s) as [s'|]; [|done]. cbn [mbind option_bind] in *. rewrite E. cbn [mbind option_bind].
  set (n := s_contig s1) in *. set (loop_len := Z.min n rem). destruct (Hal ltac:(lia)) as [Ds Dr]. specialize (Hdiv Ds).
  assert (64 <= rem ∧ 64 <= n) as [Hr64 Hn64] by (split; apply Z.divide_pos_le; (done || lia)).
  change L1_CACHE_BYTES with 64. destruct (b && ord && (rem - loop_len =? 0) && negb (loop_len =? 64)) eqn:Hsplit.
  - apply andb_true_iff in Hsplit as [Hsplit _]. apply andb_true_iff in Hsplit as [Hbo Hlast]. apply Z.eqb_eq in Hlast.
    pose proof Hbo as [-> _]%andb_true_iff.
    rewrite (wrap_small 64 (loop_len - 64)) by (unfold in_width; lia).
    destruct (ok (length log)); cbn [negb]; [|exists (- ENOMEM), s1, temp, []; rewrite app_nil_r; split; [done|split; [apply tcopied_none; lia|split; [done|lia]]]].
    rewrite (wrap_small 64 (rem - _)) by (unfold in_width; lia). replace (rem - (loop_len - 64)) with 64 by lia.
    replace (loop_len - 64) with (rem - 64) by lia. pose proof (Hw (rem - 64) ltac:(lia)) as W1.
    destruct (ok (length _)); cbn [negb].
    2:{ eexists _, s1, temp, [_]. split; [done|]. split; [|split; [done|lia]]. right. split; [done|]. exists (rem - 64). split; [lia|].
        rewrite flatten_one, txfer_bytes. f_equal. apply Hrange. lia. }
    destruct fuel as [|fuel]; [lia|]. cbn [unaligned_loop Z.eqb negb]. rewrite !wrap_small by done.
    eexists 0, _, _, [_; _]. rewrite <- app_assoc. split; [reflexivity|]. split; [|split; [|lia]].
    + left. split; [done|]. rewrite <- Hrange by lia. pose proof (range_app (AtDma a) (AtTemp temp) (rem - 64) 64 ltac:(lia) ltac:(lia)) as Ea.
      replace (rem - 64 + 64) with rem in Ea by lia. rewrite Ea, orient_app. unfold flatten. cbn [fmap list_fmap concat].
      rewrite !txfer_bytes, app_nil_r. done.
    + intros _. replace (rem - 64 + 64) with rem by lia. split_and!; [|by rewrite Hbo|].
      * unfold moved. cbn [side_add s_off s_wins]. rewrite Eso. split_and!; try done.
        -- replace extra with (rem + extra - rem) by lia. apply Hadd; lia.
        -- eapply same_places_mono; [exact Hps|lia].
      * intros _ _. left. by exists [], (AtDma a), temp, (rem - 64), (AtDma (a + (rem - 64))), (temp + (rem - 64)).
  - destruct (ok (length log)); cbn [negb]; [|exists (- ENOMEM), s1, temp, []; rewrite app_nil_r; split; [done|split; [apply tcopied_none; lia|split; [done|lia]]]].
    destruct (IH (side_add s1 loop_len) (temp + loop_len) (rem - loop_len) extra (log ++ [txfer b (AtDma a) temp loop_len false]))
      as (ret & s2 & temp2 & new & E2 & Hcop & Hdone & Hnil); try lia.
    { replace (rem - loop_len + extra) with (rem + extra - loop_len) by lia. apply Hadd; lia. }
    { intros Hpos. assert (loop_len = n) as -> by lia. cbn [s_off side_add]. rewrite Eso.
      split; [by apply Z.divide_add_r|by apply Z.divide_sub_r]. }
    exists ret, s2, temp2, (txfer b (AtDma a) temp loop_len false :: new). rewrite E2, <- app_assoc. split; [done|]. split; [|split; [|lia]].
    + apply tcopied_cons with (side_add s1 loop_len); cbn [s_off s_wins side_add]; try lia; try done.
      * apply Hrange. lia.
      * eapply same_places_mono; [exact Hps|lia].
    + intros Hret. destruct (Hdone Hret) as ((O1 & S1 & X1 & P1) & Ht & Hfen). cbn [s_off s_wins side_add] in *. split_and!.
      * unfold moved. split_and!; [lia|done|by etrans|]. eapply same_places_trans; [exact Hps|exact P1|lia].
      * intros Hex' Hbo. rewrite (Ht Hex' Hbo). lia.
      * intros Hbo Hpos. destruct (Z.eq_dec (rem - loop_len) 0) as [Hz|Hz].
        -- rewrite (Hnil Hz). rewrite Hbo in Hsplit. cbn [andb] in Hsplit. rewrite (proj2 (Z.eqb_eq _ _) Hz) in Hsplit.
           apply negb_false_iff, Z.eqb_eq in Hsplit. pose proof Hbo as [-> _]%andb_true_iff. right. exists [], (AtDma a), temp. by rewrite Hsplit.
        -- destruct (Hfen Hbo ltac:(lia)) as [(l & p & t & k & p' & t' & ->)|(l & p & t & ->)]; [left|right].
           ++ by exists (txfer b (AtDma a) temp loop_len false :: l), p, t, k, p', t'.
           ++ by exists (txfer b (AtDma a) temp loop_len false :: l), p, t.
Qed.

Definition peers (ws : list dma_window) : Prop := Forall (fun w => w_type w ≠ SCIF_WINDOW_SELF) ws.

Lemma io_piece_spec ok aper b s len temp n ord log : inside aper s len → peers (s_wins s) → n <= 4096 - s_off s mod 4096 →
  io_piece ok aper b s temp n ord log = Some (- ENOMEM, []) ∨
  ∃ p, io_piece ok aper b s temp n ord log = Some (0, [txfer b p temp n ord]) ∧
    range p (AtTemp temp) n = wpairs (cpu_place aper) (s_wins s) (s_off s) temp n.
Proof.
  intros ((Hss & _) & Has & w & ws & Ew & How) Hpeer Hn. unfold io_piece. rewrite Ew in Has, Hss, Hpeer |- *.
  destruct (ok (length log)); cbn [negb]; [|by left]. right. destruct Hss as (Hw & _ & _).
  destruct (cpu_addr_ok aper s None w ws Ew Hw ltac:(by inversion Has) How I) as (p & it & Ep & Hplace & _).
  unfold cpu_addr in Ep. rewrite Ew, bool_decide_false in Ep by (by inversion Hpeer). injection Ep as Ep. exists p. rewrite Ep. split; [done|].
  rewrite Ew in Hplace. apply range_wpairs. intros j Hj. apply Hplace. lia.
Qed.

(** The bytes of the whole copy: head, body and tail. *)
Definition unaligned_pairs (aper : option Z) (ws : list dma_window) (off len temp : Z) : list (place * place) :=
  let h := if off mod 64 =? 0 then 0 else Z.min (64 - off mod 64) len in
  let t := (len - h) mod 64 in let b := len - h - t in
  wpairs (cpu_place aper) ws off temp h ++ wpairs dma_place ws (off + h) (temp + h) b ++
  wpairs (cpu_place aper) ws (off + h + b) (temp + h + b) t.

Lemma side_next_peers s s' : side_next s = Some s' → peers (s_wins s) → peers (s_wins s').
Proof.
  unfold side_next. destruct (s_wins s) as [|w ws] eqn:Ew; [done|]. destruct (_ =? _).
  - destruct ws as [|w' ws]; [done|]. intros [= <-] Hp. by inversion Hp.
  - intros [= <-]. by rewrite Ew.
Qed.

(** The tail and the descriptor that calls back. *)
Lemma unaligned_tail ok aper drained b s temp t ord log : drained <= 0 → side_ok s t → Forall (aper_ok aper) (s_wins s) → peers (s_wins s) →
  0 <= t < 64 → (0 < t → s_off s mod 64 = 0) →
  ∃ ret new, ('(ret, log) ← (if negb (t =? 0) then
                       s ← side_next s;
                       '(ret, last) ← io_piece ok aper b s temp t ord log;
                       if ret <? 0 then Some (ret, log)
                       else if ord && negb (drained =? 0) then Some (drained, log)
                       else Some (0, log ++ (if ord then [Drain] else []) ++ last)
                     else Some (0, log));
      if negb (ret =? 0) then Some (ret, log)
      else if negb (ok (length log)) then Some (- ENOMEM, log)
      else Some (0, log)) = Some (ret, log ++ new) ∧
    ((ret = 0 ∧ flatten new = orient b (wpairs (cpu_place aper) (s_wins s) (s_off s) temp t)) ∨
     (ret < 0 ∧ flatten new `prefix_of` orient b (wpairs (cpu_place aper) (s_wins s) (s_off s) temp t))) ∧
    (ret = 0 → ord = true → 0 < t → ∃ p, new = [Drain; txfer b p temp t true]) ∧ (t = 0 → new = []).
Proof.
  intros Hdr Hs Ha Hp Ht Hal. destruct (Z.eqb_spec t 0) as [->|Hz]; cbn [negb].
  { cbn [mbind option_bind Z.eqb negb]. destruct (ok (length log)); cbn [negb].
    - exists 0, []. rewrite app_nil_r. split; [done|]. split_and!; try done. left. split; [done|by destruct b].
    - exists (- ENOMEM), []. rewrite app_nil_r. split; [done|]. split_and!; try done. right. split; [done|apply prefix_nil]. }
  destruct (side_next_inside aper s t Hs Ha ltac:(lia)) as (s2 & Es & In & Eo & Pl). rewrite Es. cbn [mbind option_bind].
  pose proof (side_next_peers s s2 Es Hp) as Hp2.
  destruct (io_piece_spec ok aper b s2 t temp t ord log In Hp2) as [Ep|(p & Ep & Hr)];
    [apply cache_page; rewrite Eo, Hal by lia; lia| |]; rewrite Ep; cbn [mbind option_bind].
  - exists (- ENOMEM), []. rewrite (app_nil_r log). change (- ENOMEM <? 0) with true. split; [reflexivity|]. split_and!; try done. right. split; [done|apply prefix_nil].
  - change (0 <? 0) with false. cbn match. destruct (ord && negb (drained =? 0)) eqn:Hd.
    + apply andb_true_iff in Hd as [_ Hd]. apply negb_true_iff in Hd. cbn [mbind option_bind]. rewrite Hd. cbn [negb].
      apply Z.eqb_neq in Hd. exists drained, []. rewrite app_nil_r. split; [done|]. split_and!; try done.
      right. split; [lia|apply prefix_nil].
    + cbn [mbind option_bind Z.eqb negb].
      assert (flatten ((if ord then [Drain] else []) ++ [txfer b p temp t ord]) = orient b (wpairs (cpu_place aper) (s_wins s) (s_off s) temp t)) as Ef.
      { rewrite flatten_app, flatten_one, txfer_bytes, Hr. assert (flatten (if ord then [Drain] else []) = []) as -> by (by destruct ord).
        cbn [app]. f_equal. rewrite Eo. by apply wpairs_places. }
      destruct (ok (length _)); cbn [negb].
      * eexists 0, _. split; [reflexivity|]. split_and!; [by left| |done]. intros _ -> _. by exists p.
      * eexists (- ENOMEM), _. split; [reflexivity|]. split_and!; [|done|done]. right. split; [done|]. by rewrite Ef.
Qed.

Lemma plain_inside aper ws off len : holds aper ws off len → inside aper (Side ws off None 0) len.
Proof.
  intros (Hs & Ha & Hlt). destruct ws as [|w ws]; [done|]. split; [by split|]. split; [done|].
  exists w, ws. split; [done|]. cbn. destruct Hs as (_ & ? & _). lia.
Qed.

Lemma unaligned_head ok aper b ws off len temp ord : 0 < len → holds aper ws off len → peers ws →
  let h := if off mod 64 =? 0 then 0 else Z.min (64 - off mod 64) len in
  ∃ ret log, (if negb (off mod 64 =? 0) then io_piece ok aper b (Side ws off None 0) temp h (ord && (len - h =? 0)) [] else Some (0, []))
      = Some (ret, log) ∧
    ((ret = - ENOMEM ∧ log = []) ∨ (ret = 0 ∧ flatten log = orient b (wpairs (cpu_place aper) ws off temp h) ∧
      (len = h → ∃ p, log = [txfer b p temp h ord]))).
Proof.
  intros Hl Hh Hp h. pose proof (plain_inside _ _ _ _ Hh) as Is. pose proof (Z.mod_pos_bound off 64 eq_refl).
  destruct (Z.eqb_spec (off mod 64) 0) as [Hz|Hz]; cbn [negb].
  - exists 0, []. split; [done|]. right. assert (h = 0) as -> by done. split_and!; [done|by destruct b|lia].
  - destruct (io_piece_spec ok aper b (Side ws off None 0) len temp h (ord && (len - h =? 0)) [] Is Hp) as [E|(p & E & Hr)];
      [apply cache_page; cbn; unfold h; lia| |]; rewrite E.
    + exists (- ENOMEM), []. split; [done|]. by left.
    + eexists 0, _. split; [reflexivity|]. right. rewrite flatten_one, txfer_bytes, Hr. split_and!; [done|done|].
      intros Ee. exists p. rewrite (proj2 (Z.eqb_eq (len - h) 0)) by lia. by rewrite andb_true_r.
Qed.

(** The last bytes of an ordered write: behind a fence or as one line, by the CPU after a
    drain, or as a single copy. *)
Definition tordered (log : list xfer) : Prop :=
  tfenced log ∨ (∃ l p t n, log = l ++ [Drain; txfer true p t n true]) ∨ (∃ p t n, log = [txfer true p t n true]).

Lemma unaligned_outcome ok aper drained ws off len temp ord b : drained <= 0 → 0 < len < 2 ^ 63 → holds aper ws off len → peers ws →
  ∃ ret log, scif_rma_list_dma_copy_unaligned ok aper drained ws off len temp ord b = Some (ret, log) ∧
    ((ret = 0 ∧ flatten log = orient b (unaligned_pairs aper ws off len temp)) ∨
     (ret < 0 ∧ flatten log `prefix_of` orient b (unaligned_pairs aper ws off len temp))) ∧
    (ret = 0 → ord = true → b = true → tordered log).
Proof.
  intros Hdr Hl Hh Hp. destruct (unaligned_head ok aper b ws off len temp ord ltac:(lia) Hh Hp) as (ret & log & Ehead & Hcase).
  pose proof (plain_inside _ _ _ _ Hh) as Is. pose proof (Z.mod_pos_bound off 64 eq_refl) as Hm.
  unfold scif_rma_list_dma_copy_unaligned. cbv zeta. rewrite !land_cache. change (L1_CACHE_BYTES - off mod 64) with (64 - off mod 64).
  unfold unaligned_pairs. set (h := if off mod 64 =? 0 then 0 else Z.min (64 - off mod 64) len) in *.
  assert ((if negb (off mod 64 =? 0) then (64 - off mod 64) `min` len else 0) = h) as -> by (unfold h; by destruct (_ =? 0)).
  assert (0 <= h <= len ∧ h <= 64 - off mod 64) as [Hh1 Hh2] by (unfold h; destruct (_ =? 0); lia).
  assert (Hal : 0 < len - h → (off + h) mod 64 = 0) by (unfold h; destruct (Z.eqb_spec (off mod 64) 0); intros; divlia).
  rewrite Ehead. cbn [mbind option_bind]. destruct Hcase as [[-> ->]|(-> & Ef & Hone)].
  { exists (- ENOMEM), []. split; [done|]. split; [|done]. right. split; [done|apply prefix_nil]. }
  change (0 <? 0) with false. cbn match. set (t := (len - h) mod 64). pose proof (Z.mod_pos_bound (len - h) 64 eq_refl) as Ht. fold t in Ht.
  assert (t <= len - h) by (unfold t; divlia).
  destruct (unaligned_loop_spec ok b (ord && (t =? 0)) (S (Z.to_nat (len - h))) (side_add (Side ws off None 0) h) (temp + h) (len - h - t) t log)
    as (ret & s' & temp' & new & E & Hc & Hdone & Hnil); try lia.
  { replace (len - h - t + t) with (len - h) by lia. eapply side_add_ok; [exact Is|lia|apply cache_page; cbn; lia]. }
  { intros Hpos. cbn [side_add s_off]. split; apply Z.mod_divide; try done; [apply Hal; lia|unfold t; divlia]. }
  rewrite E. cbn [mbind option_bind]. unfold tcopied in Hc. cbn [side_add s_wins s_off] in *.
  destruct Hc as [[-> En]|(-> & m & Hm' & En)].
  2:{ exists (- ENOMEM), (log ++ new). split; [done|]. split; [|done]. right. split; [done|]. rewrite flatten_app, Ef, En, !orient_app.
      apply prefix_app. apply prefix_app_r. apply orient_prefix, wpairs_prefix. lia. }
  change (0 <? 0) with false. cbn match. destruct (Hdone eq_refl) as ((O1 & S1 & [k X1] & P1) & Htemp & Hfen). cbn [side_add s_wins s_off] in *.
  assert (Forall (aper_ok aper) (s_wins s') ∧ peers (s_wins s')) as [Has Hps].
  { destruct Hh as (_ & Ha & _). unfold peers in *. rewrite X1 in Ha, Hp. apply Forall_app in Ha as [_ ?]. by apply Forall_app in Hp as [_ ?]. }
  destruct (unaligned_tail ok aper drained b s' temp' t ord (log ++ new) Hdr S1 Has Hps Ht) as (ret & tl & Et & Hout & Hord & Htl).
  { intros Hpos. rewrite O1. specialize (Hal ltac:(lia)). unfold t. divlia. }
  rewrite Et. exists ret, ((log ++ new) ++ tl). split; [done|].
  assert (wpairs (cpu_place aper) (s_wins s') (s_off s') temp' t = wpairs (cpu_place aper) ws (off + h + (len - h - t)) (temp + h + (len - h - t)) t) as Ew.
  { destruct (Z.eq_dec t 0) as [->|Hz]; [done|]. rewrite (Htemp ltac:(lia)); [|rewrite (proj2 (Z.eqb_neq t 0) Hz); by rewrite !andb_false_r].
    rewrite O1. rewrite O1 in P1. by apply wpairs_places. }
  rewrite Ew in Hout. split.
  - rewrite !flatten_app, Ef, En, !orient_app, <- app_assoc.
    destruct Hout as [[-> ->]|[Hneg Hpre]]; [by left|]. right. split; [done|]. by do 2 apply prefix_app.
  - intros -> -> ->. destruct (Z.eq_dec t 0) as [Hz|Hz].
    + rewrite (Htl Hz), app_nil_r. destruct (Z.eq_dec len h) as [Ee|Ne].
      * destruct (Hone Ee) as [p ->]. rewrite (Hnil ltac:(lia)), app_nil_r. right. right. by exists p, temp, h.
      * left. destruct (Hfen ltac:(by rewrite (proj2 (Z.eqb_eq t 0) Hz)) ltac:(lia)) as [(l & p & u & n & p' & u' & ->)|(l & p & u & ->)]; [left|right].
        -- exists (log ++ l), p, u, n, p', u'. by rewrite app_assoc.
        -- exists (log ++ l), p, u. by rewrite app_assoc.
    + destruct (Hord eq_refl eq_refl ltac:(lia)) as [p ->]. right. left. by exists (log ++ new), p, temp', t.
Qed.

(** ** Rounding a range of the other node to cache lines *)

Definition round_up (x : Z) : Z := (x + 63) / 64 * 64.

Lemma align_up x : Z.land (x + (L1_CACHE_BYTES - 1)) (Z.lnot (L1_CACHE_BYTES - 1)) = round_up x.
Proof.
  change (L1_CACHE_BYTES - 1) with (Z.ones 6) at 2. rewrite <- Z.ldiff_land, Z.ldiff_ones_r, Z.shiftl_mul_pow2, Z.shiftr_div_pow2 by lia. done.
Qed.

Lemma window_lines w : window_ok w → (64 | w_offset w) ∧ (64 | w_end w).
Proof.
  intros Hw. destruct (ok_aligned _ Hw) as [q Hq]. rewrite (w_end_eq w Hw), Hq. split; [exists (q * 64)|exists (q * 64 + nr_pages (win w) * 64)]; lia.
Qed.

Lemma spans_round_end ws : ∀ off len, spans ws off len → spans ws off (round_up (off + len) - off).
Proof.
  induction ws as [|w ws IH]; intros off len H; [done|]. destruct H as (Hw & Hb & Hcase). split; [done|]. split; [done|].
  destruct (window_lines w Hw) as [_ [e He]]. unfold round_up in *. destruct Hcase as [Hc|Hc]; [left; divlia|]. right.
  destruct ws as [|w' ws]; [done|]. destruct Hc as [Ho Hs]. split; [done|]. specialize (IH (w_end w) _ Hs).
  replace (w_end w + (off + len - w_end w)) with (off + len) in IH by lia.
  replace (off + ((off + len + 63) / 64 * 64 - off) - w_end w) with ((off + len + 63) / 64 * 64 - w_end w) by lia. exact IH.
Qed.

Lemma holds_round aper ws off len : holds aper ws off len →
  holds aper ws (off - off mod 64) (round_up (len + off mod 64)).
Proof.
  intros (Hs & Ha & Hlt). destruct ws as [|w ws]; [done|]. apply spans_round_end in Hs. destruct Hs as (Hw & Hb & Hcase).
  destruct (window_lines w Hw) as [[o Ho] _]. pose proof (Z.mod_pos_bound off 64 eq_refl).
  split; [|split; [done|lia]]. split; [done|]. split; [divlia|].
  assert (off - off mod 64 + round_up (len + off mod 64) = off + (round_up (off + len) - off)) as E by (unfold round_up; divlia).
  rewrite E. done.
Qed.

(** ** All copies *)

Definition self_src (work : scif_copy_work) : bool :=
  match src_wins work with w :: _ => bool_decide (w_type w = SCIF_WINDOW_SELF) | [] => false end.

(** A copy between two nodes is between windows of this node and of the other. *)
Definition types_ok (work : scif_copy_work) : Prop :=
  loopback work = false →
  if self_src work
  then Forall (fun w => w_type w = SCIF_WINDOW_SELF) (src_wins work) ∧ peers (dst_wins work)
  else peers (src_wins work) ∧ Forall (fun w => w_type w = SCIF_WINDOW_SELF) (dst_wins work).

(** The bytes of the transfers made at once and by the call-back. *)
Definition expected (aper : option Z) (any_align : bool) (work : scif_copy_work) : list (place * place) * list (place * place) :=
  let so := src_offset work in let do_ := dst_offset work in
  if any_align then (work_pairs dma_place work 0 (cw_len work), [])
  else if do_ mod 64 =? so mod 64 then (aligned_pairs aper work, [])
  else if loopback work then (work_pairs (cpu_place aper) work 0 (cw_len work), [])
  else if self_src work
  then (wpairs (cpu_place None) (src_wins work) so (do_ mod 64) (cw_len work) ++
        orient true (unaligned_pairs aper (dst_wins work) do_ (cw_len work) (do_ mod 64)), [])
  else (unaligned_pairs aper (src_wins work) (so - so mod 64) (round_up (cw_len work + so mod 64)) 0,
        orient true (wpairs (cpu_place None) (dst_wins work) do_ (so mod 64) (cw_len work))).

Lemma holds_None aper ws off len : holds aper ws off len → holds None ws off len.
Proof. intros (Hs & _ & Hlt). split; [done|]. split; [by apply Forall_forall|done]. Qed.

Lemma work_ok_None aper work : work_ok aper work → work_ok None work.
Proof. intros [Hl Hs Hd]. split; [done|by eapply holds_None|by eapply holds_None]. Qed.

Lemma wrapper_outcome ok aper any_align temp_mem drained work : work_ok aper work → types_ok work → drained <= 0 →
  cw_len work < 2 ^ 62 →
  ∃ ret log post, scif_rma_list_dma_copy_wrapper ok aper any_align temp_mem drained work = Some (ret, log, post) ∧
    ((ret = 0 ∧ flatten log = (expected aper any_align work).1 ∧ flatten post = (expected aper any_align work).2) ∨
     (ret ≠ 0 ∧ flatten log `prefix_of` (expected aper any_align work).1 ∧ post = [])).
Proof.
  intros Hwork Hty Hdr Hlen. pose proof (work_ok_None _ _ Hwork) as Hwork0. pose proof Hwork as [Hl Hs Hd].
  unfold scif_rma_list_dma_copy_wrapper, expected. destruct any_align.
  { destruct (dma_copy_any_outcome ok work Hwork0) as (ret & log & -> & [[-> Ho]|[Hne Ho]] & _); eexists _, _, _; split; try done; [by left|by right]. }
  rewrite !land_cache. destruct (Z.eqb_spec (dst_offset work mod 64) (src_offset work mod 64)) as [Hal|Hal].
  { destruct (aligned_outcome ok aper drained work Hwork ltac:(done)) as (ret & log & -> & [[-> Ho]|[Hne Ho]] & _); eexists _, _, _; split; try done; [by left|by right]. }
  destruct (loopback work) eqn:Hlb.
  { destruct (cpu_copy_outcome ok aper work Hwork) as (ret & log & -> & [[-> Ho]|[Hne Ho]]); eexists _, _, _; split; try done; [by left|by right]. }
  destruct temp_mem; cbn [negb].
  2:{ eexists _, _, _. split; [done|]. right. split_and!; [done|apply prefix_nil|done]. }
  specialize (Hty Hlb). pose proof Hs as (Hs1 & _ & _). unfold self_src in *. destruct (src_wins work) as [|w ws] eqn:Ews; [done|].
  rewrite <- Ews in *. case_bool_decide as Hself; destruct Hty as [Ht1 Ht2].
  - destruct (local_copy_spec (src_wins work) (src_offset work) (dst_offset work mod 64) (cw_len work) true ltac:(lia)
      ltac:(by eapply holds_None) Ht1) as (pre & Epre & Fpre).
    destruct (unaligned_outcome ok aper drained (dst_wins work) (dst_offset work) (cw_len work) (dst_offset work mod 64) (ordered work) true
      Hdr Hl Hd Ht2) as (ret & log & E & Ho & _).
    rewrite Epre, E. cbn [mbind option_bind]. eexists _, _, _. split; [reflexivity|]. rewrite flatten_app, Fpre. cbn [negb orient fst snd].
    destruct Ho as [[-> ->]|[Hneg Hp]]; [by left|]. right. destruct (Z.ltb_spec ret 0); [|lia]. split_and!; [done|by apply prefix_app|done].
  - pose proof (holds_round _ _ _ _ Hs) as Hr. pose proof (Z.mod_pos_bound (src_offset work) 64 eq_refl). rewrite align_up.
    destruct (unaligned_outcome ok aper drained (src_wins work) (src_offset work - src_offset work mod 64)
      (round_up (cw_len work + src_offset work mod 64)) 0 (ordered work) false Hdr ltac:(unfold round_up; divlia) Hr Ht1) as (ret & log & E & Ho & _).
    destruct (local_copy_spec (dst_wins work) (dst_offset work) (src_offset work mod 64) (cw_len work) false ltac:(lia)
      ltac:(by eapply holds_None) Ht2) as (post & Epost & Fpost).
    rewrite E, Epost. cbn [mbind option_bind fst snd]. eexists _, _, _. split; [reflexivity|]. cbn [orient] in Ho.
    destruct Ho as [[-> Ho]|[Hneg Hp]]; [by left|]. right. destruct (Z.ltb_spec ret 0); [|lia]. split_and!; done.
Qed.

(** ** Every byte arrives *)

(** A place of the byte at an offset of the windows. *)
Definition byte_at (aper : option Z) (ws : list dma_window) (off : Z) (p : place) : Prop :=
  p = at_off dma_place ws off ∨ p = at_off (cpu_place aper) ws off.

(** Byte [k] of the copy goes from its source to its destination, directly or through the
    buffer. *)
Definition delivered (aper : option Z) (work : scif_copy_work) (l : list (place * place)) (k : Z) : Prop :=
  ∃ sp dp, byte_at aper (src_wins work) (src_offset work + k) sp ∧ byte_at aper (dst_wins work) (dst_offset work + k) dp ∧
    ((sp, dp) ∈ l ∨ ∃ x, 0 <= x < cw_len work + 2 * L1_CACHE_BYTES ∧ (sp, AtTemp x) ∈ l ∧ (AtTemp x, dp) ∈ l).

Lemma pairs_elem f srcs so dsts do_ n k : 0 <= k < n → (at_off f srcs (so + k), at_off f dsts (do_ + k)) ∈ pairs f srcs so dsts do_ n.
Proof. intros Hk. apply list_elem_of_fmap. exists k. split; [done|]. apply elem_of_seqZ. lia. Qed.

Lemma wpairs_elem f ws off temp n k : 0 <= k < n → (at_off f ws (off + k), AtTemp (temp + k)) ∈ wpairs f ws off temp n.
Proof. intros Hk. apply list_elem_of_fmap. exists k. split; [done|]. apply elem_of_seqZ. lia. Qed.

Lemma work_pairs_elem f work off n k : off <= k < off + n →
  (at_off f (src_wins work) (src_offset work + k), at_off f (dst_wins work) (dst_offset work + k)) ∈ work_pairs f work off n.
Proof.
  intros Hk. pose proof (pairs_elem f (src_wins work) (src_offset work + off) (dst_wins work) (dst_offset work + off) n (k - off) ltac:(lia)) as H.
  by replace (src_offset work + off + (k - off)) with (src_offset work + k) in H by lia; replace (dst_offset work + off + (k - off)) with (dst_offset work + k) in H by lia.
Qed.

Lemma work_pairs_delivered f aper work off n l k : f = dma_place ∨ f = cpu_place aper → off <= k < off + n →
  (∀ p, p ∈ work_pairs f work off n → p ∈ l) → delivered aper work l k.
Proof.
  intros Hf Hk Hin. eexists _, _. split_and!; [|..|left; apply Hin, work_pairs_elem, Hk];
    (destruct Hf as [->| ->]; [by left|by right]).
Qed.

Lemma unaligned_elem aper ws off len temp k : 0 <= k < len → ∃ p, byte_at aper ws (off + k) p ∧ (p, AtTemp (temp + k)) ∈ unaligned_pairs aper ws off len temp.
Proof.
  intros Hk. unfold unaligned_pairs. set (h := if off mod 64 =? 0 then 0 else _). set (t := (len - h) mod 64).
  pose proof (Z.mod_pos_bound (len - h) 64 eq_refl) as Ht. pose proof (Z.mod_pos_bound off 64 eq_refl).
  assert (0 <= h <= len) as Hh by (unfold h; destruct (_ =? 0); lia).
  assert (∀ f j n, j <= k < j + n → (at_off f ws (off + k), AtTemp (temp + k)) ∈ wpairs f ws (off + j) (temp + j) n) as Hel.
  { intros f j n Hj. pose proof (wpairs_elem f ws (off + j) (temp + j) n (k - j) ltac:(lia)) as He.
    by replace (off + j + (k - j)) with (off + k) in He by lia; replace (temp + j + (k - j)) with (temp + k) in He by lia. }
  destruct (Z.lt_ge_cases k h); [|destruct (Z.lt_ge_cases k (h + (len - h - t)))].
  - exists (at_off (cpu_place aper) ws (off + k)). split; [by right|]. rewrite !elem_of_app. left.
    specialize (Hel (cpu_place aper) 0 h ltac:(lia)). by rewrite !Z.add_0_r in Hel.
  - exists (at_off dma_place ws (off + k)). split; [by left|]. rewrite !elem_of_app. right. left. apply Hel. lia.
  - exists (at_off (cpu_place aper) ws (off + k)). split; [by right|]. rewrite !elem_of_app. right. right. rewrite <- !Z.add_assoc. apply Hel. unfold t in *. lia.
Qed.

Lemma cpu_self aper ws off : Forall (fun w => w_type w = SCIF_WINDOW_SELF) ws → at_off (cpu_place None) ws off = at_off (cpu_place aper) ws off.
Proof.
  induction 1 as [|w ws Hw Hws IH]; [done|]. cbn [at_off]. destruct (off <? w_end w); [|done]. unfold cpu_place. by rewrite Hw, bool_decide_true.
Qed.

Lemma orient_elem p q l : (p, q) ∈ l → (q, p) ∈ orient true l.
Proof. intros H. apply list_elem_of_fmap. by exists (p, q). Qed.

Lemma expected_delivers aper any_align work k : 0 < cw_len work → types_ok work → 0 <= k < cw_len work →
  delivered aper work ((expected aper any_align work).1 ++ (expected aper any_align work).2) k.
Proof.
  intros Hl Hty Hk. unfold expected. pose proof (Z.mod_pos_bound (src_offset work) 64 eq_refl). pose proof (Z.mod_pos_bound (dst_offset work) 64 eq_refl).
  destruct any_align; [|destruct (_ =? _); [|destruct (loopback work) eqn:Hlb; [|specialize (Hty Hlb); destruct (self_src work)]]]; cbn [fst snd].
  - rewrite app_nil_r. apply work_pairs_delivered with dma_place 0 (cw_len work); [by left|lia|done].
  - rewrite app_nil_r. unfold aligned_pairs. set (h := head_len work). set (t := tail_len work).
    pose proof (Z.mod_pos_bound (cw_len work - h) 64 eq_refl) as Ht. change ((cw_len work - h) mod 64) with t in Ht.
    destruct (Z.lt_ge_cases k h); [|destruct (Z.lt_ge_cases k (h + (cw_len work - h - t)))].
    + apply work_pairs_delivered with (cpu_place aper) 0 h; [by right|lia|]. intros p Hp. apply elem_of_app. by left.
    + apply work_pairs_delivered with dma_place h (cw_len work - h - t); [by left|lia|]. intros p Hp. rewrite !elem_of_app. by right; left.
    + apply work_pairs_delivered with (cpu_place aper) (h + (cw_len work - h - t)) t; [by right|lia|]. intros p Hp. rewrite !elem_of_app. by right; right.
  - rewrite app_nil_r. apply work_pairs_delivered with (cpu_place aper) 0 (cw_len work); [by right|lia|done].
  - rewrite app_nil_r. destruct Hty as [Hself _].
    destruct (unaligned_elem aper (dst_wins work) (dst_offset work) (cw_len work) (dst_offset work mod 64) k Hk) as (dp & Hdp & Hin).
    exists (at_off (cpu_place aper) (src_wins work) (src_offset work + k)), dp. split_and!; [by right|done|]. right.
    exists (dst_offset work mod 64 + k). change L1_CACHE_BYTES with 64. split; [lia|]. rewrite !elem_of_app. split.
    + left. rewrite <- cpu_self by done. by apply wpairs_elem.
    + right. by apply orient_elem.
  - destruct Hty as [_ Hself].
    destruct (unaligned_elem aper (src_wins work) (src_offset work - src_offset work mod 64) (round_up (cw_len work + src_offset work mod 64)) 0
      (src_offset work mod 64 + k) ltac:(unfold round_up; divlia)) as (sp & Hsp & Hin).
    replace (src_offset work - src_offset work mod 64 + (src_offset work mod 64 + k)) with (src_offset work + k) in Hsp by lia.
    exists sp, (at_off (cpu_place aper) (dst_wins work) (dst_offset work + k)). split_and!; [done|by right|]. right.
    exists (0 + (src_offset work mod 64 + k)). change L1_CACHE_BYTES with 64. split; [lia|]. rewrite !elem_of_app. split; [by left|].
    right. rewrite Z.add_0_l. apply orient_elem. rewrite <- cpu_self by done. by apply wpairs_elem.
Qed.

(** ** Claims *)

(** C11: A copy between registered ranges moves every byte from its source to its
    destination, whichever routine is chosen and however the windows and their chunks are
    cut: the routines end, an aligned DMA copy or a copy by the CPU makes exactly the
    transfers of the bytes in ascending order, an unaligned one goes through the temporary
    buffer without leaving it.  After an error only a first part has been transferred. *)
Theorem scif_copy_delivers ok aper any_align temp_mem drained work : work_ok aper work → types_ok work → drained <= 0 →
  cw_len work < 2 ^ 62 →
  ∃ ret log post, scif_rma_list_dma_copy_wrapper ok aper any_align temp_mem drained work = Some (ret, log, post) ∧
    (ret = 0 → flatten log = (expected aper any_align work).1 ∧ flatten post = (expected aper any_align work).2 ∧
      ∀ k, 0 <= k < cw_len work → delivered aper work (flatten log ++ flatten post) k) ∧
    (ret ≠ 0 → flatten log `prefix_of` (expected aper any_align work).1 ∧ post = []).
Proof.
  intros Hwork Hty Hdr Hlen. destruct (wrapper_outcome ok aper any_align temp_mem drained work Hwork Hty Hdr Hlen) as (ret & log & post & E & Ho).
  exists ret, log, post. split; [done|]. destruct Ho as [(-> & E1 & E2)|(Hne & Hp & ->)]; (split; [|done]); [|done].
  intros _. split_and!; try done. intros k Hk. rewrite E1, E2. apply expected_delivers; [lia|done|done].
Qed.

(** Pages of this node that are not contiguous, and a window of the other node. *)
Definition demo_self : dma_window :=
  DWin (Window 1 2 3 0x10000 0 0 SCIF_UNREG_NOT_INITIATED) SCIF_WINDOW_SELF 2 [0x100000; 0x300000] [1; 1] [0x7000000; 0x7008000].
Definition demo_peer (das ns : list Z) : dma_window :=
  DWin (Window 2 2 3 0x20000 0 0 SCIF_UNREG_NOT_INITIATED) SCIF_WINDOW_PEER (zlen ns) das ns [].
Definition demo_work (src_off dst_off len : Z) (ord : bool) (das ns : list Z) : scif_copy_work :=
  Work [demo_self] src_off [demo_peer das ns] dst_off false len ord.

Lemma demo_windows_ok : window_ok demo_self ∧ window_ok (demo_peer [0x500000] [2]).
Proof.
  split.
  - assert (chunks demo_self = [(0x100000, 1); (0x300000, 1)]) as Ec by reflexivity.
    constructor; rewrite ?Ec; [split_and!; cbn; lia|by exists 16|reflexivity| |reflexivity|cbn; lia].
    constructor; [split_and!; cbn; [lia|lia|by exists 256|lia]|]. constructor; [split_and!; cbn; [lia|lia|by exists 768|lia]|constructor].
  - assert (chunks (demo_peer [0x500000] [2]) = [(0x500000, 2)]) as Ec by reflexivity.
    constructor; rewrite ?Ec; [split_and!; cbn; lia|by exists 32|reflexivity| |reflexivity|cbn; lia].
    constructor; [split_and!; cbn; [lia|lia|by exists 1280|lia]|constructor].
Qed.

Lemma demo_work_ok src_off dst_off len ord : 0x10000 <= src_off → src_off + len <= 0x12000 → 0x20000 <= dst_off → dst_off + len <= 0x22000 →
  0 < len → work_ok None (demo_work src_off dst_off len ord [0x500000] [2]) ∧ types_ok (demo_work src_off dst_off len ord [0x500000] [2]).
Proof.
  intros H1 H2 H3 H4 Hl. destruct demo_windows_ok as [Hs Hd].
  assert (w_end demo_self = 0x12000 ∧ w_end (demo_peer [0x500000] [2]) = 0x22000) as [E1 E2] by done.
  assert (w_offset demo_self = 0x10000 ∧ w_offset (demo_peer [0x500000] [2]) = 0x20000) as [E3 E4] by done.
  split.
  - constructor; cbn [demo_work cw_len src_wins src_offset dst_wins dst_offset].
    + lia.
    + split; [|split; [by repeat constructor|rewrite E1; lia]]. split; [done|]. split; [lia|]. left. lia.
    + split; [|split; [by repeat constructor|rewrite E2; lia]]. split; [done|]. split; [lia|]. left. lia.
  - intros _. split; repeat constructor. done.
Qed.

Lemma scif_copy_delivers_witness : ∃ ret log post,
  scif_rma_list_dma_copy_wrapper (fun _ => true) None false true 0 (demo_work 0x10ff0 0x20008 100 false [0x500000] [2]) = Some (ret, log, post) ∧
  ret = 0 ∧ delivered None (demo_work 0x10ff0 0x20008 100 false [0x500000] [2]) (flatten log ++ flatten post) 99.
Proof.
  destruct (demo_work_ok 0x10ff0 0x20008 100 false) as [Hw Ht]; [lia..|].
  destruct (scif_copy_delivers (fun _ => true) None false true 0 _ Hw Ht ltac:(lia) ltac:(cbn; lia)) as (ret & log & post & E & H0 & _).
  assert (ret = 0) as Hr by (vm_compute in E; by injection E as <- _ _).
  exists ret, log, post. split; [exact E|]. split; [exact Hr|]. destruct (H0 Hr) as (_ & _ & Hd). apply Hd. cbn. lia.
Defined.

(** C32: A copy that is asked to be ordered writes its last bytes when all others have
    been written, whenever its offsets are aligned to each other or the channel copies any
    alignment: the last byte, or the last cache line, is transferred behind a fence, or
    copied by the CPU after the channel has been drained, or the copy is a single one whose
    last byte is written last. *)
Theorem scif_copy_ordered ok aper any_align temp_mem drained work log post : work_ok aper work → ordered work = true →
  (any_align = true ∨ src_offset work mod 64 = dst_offset work mod 64) →
  scif_rma_list_dma_copy_wrapper ok aper any_align temp_mem drained work = Some (0, log, post) →
  if any_align then fenced 1 log else ends_ordered log.
Proof.
  intros Hwork Hord Hal. unfold scif_rma_list_dma_copy_wrapper. destruct any_align.
  - destruct (dma_copy_any_outcome ok work (work_ok_None _ _ Hwork)) as (ret & l & -> & _ & Hf). intros [= -> -> _]. by apply Hf.
  - destruct Hal as [|Hal]; [done|]. rewrite !land_cache, (proj2 (Z.eqb_eq _ _)) by done.
    destruct (aligned_outcome ok aper drained work Hwork Hal) as (ret & l & -> & _ & Hf). intros [= -> -> _]. by apply Hf.
Qed.

Lemma scif_copy_ordered_witness : ∃ log post,
  scif_rma_list_dma_copy_wrapper (fun _ => true) None false true 0 (demo_work 0x10f88 0x20008 200 true [0x500000] [2]) = Some (0, log, post) ∧
  ends_ordered log.
Proof.
  destruct (demo_work_ok 0x10f88 0x20008 200 true) as [Hw _]; [lia..|].
  destruct (scif_rma_list_dma_copy_wrapper (fun _ => true) None false true 0 (demo_work 0x10f88 0x20008 200 true [0x500000] [2]))
    as [[[ret log] post]|] eqn:E; [|vm_compute in E; discriminate].
  assert (ret = 0) as -> by (vm_compute in E; by injection E as <- _ _).
  exists log, post. split; [reflexivity|].
  exact (scif_copy_ordered (fun _ => true) None false true 0 _ log post Hw eq_refl (or_intror eq_refl) E).
Defined.

(** An ordered copy through the buffer is not ordered when the last piece that is
    contiguous at the destination is a single cache line: it makes the same transfers as
    one that is not ordered, without a fence before the last line. *)
Theorem scif_unaligned_order_lost :
  scif_rma_list_dma_copy_wrapper (fun _ => true) None false true 0 (demo_work 0x10008 0x20f80 192 true [0x500000; 0x700000] [1; 1]) =
  scif_rma_list_dma_copy_wrapper (fun _ => true) None false true 0 (demo_work 0x10008 0x20f80 192 false [0x500000; 0x700000] [1; 1]) ∧
  ∃ pre, scif_rma_list_dma_copy_wrapper (fun _ => true) None false true 0 (demo_work 0x10008 0x20f80 192 true [0x500000; 0x700000] [1; 1]) =
    Some (0, pre ++ [Xfer (AtTemp 0) (AtDma 0x500f80) 128 false; Xfer (AtTemp 128) (AtDma 0x700000) 64 false], []).
Proof. split; [reflexivity|]. eexists [_]. reflexivity. Qed.

End ScifDmaTemp.
