(* ===== verification/ScifRma.v ===== *)
(** * Remote memory access

    Models the calls of [mpss4/mpss-modules/mic/scif/scif_dma.c] that copy between address
    spaces: [scif_rma_copy] with its checks, its temporary windows for memory of the caller
    and their cache, and [scif_readfrom], [scif_writeto], [scif_vreadfrom] and
    [scif_vwriteto] on top of it; the routines that destroy temporary windows; and from
    [scif_rma.c] the pinning of pages.  The RMA lock is held while a call looks windows up
    and copies, so a call is one step. *)
From S2P Require Import Prelude Endpoint RmaList DmaWindow ScifDma.
Local Open Scope Z_scope.

Module ScifRma.
Import RmaList DmaWindow ScifDma.

Definition SCIF_PROT_READ : Z := Z.shiftl 1 0.
Definition SCIF_PROT_WRITE : Z := Z.shiftl 1 1.
Definition SCIF_MAP_KERNEL : Z := 0x20.
Definition SCIF_RMA_USECPU : Z := Z.shiftl 1 0.
Definition SCIF_RMA_USECACHE : Z := Z.shiftl 1 1.
Definition SCIF_RMA_SYNC : Z := Z.shiftl 1 2.
Definition SCIF_RMA_ORDERED : Z := Z.shiftl 1 3.

(** Linux: protection bits of a mapping, and [ALIGN(x, PAGE_SIZE)]. *)
Definition VM_READ : Z := 1.
Definition VM_WRITE : Z := 2.
Definition page_align (x : Z) : Z := Z.land (u64 (x + (PAGE_SIZE - 1))) (u64 (Z.lnot (PAGE_SIZE - 1))).
Definition page_mask (x : Z) : Z := Z.land x (u64 (Z.lnot (PAGE_SIZE - 1))).

Definition isset (flags bit : Z) : bool := negb (Z.land flags bit =? 0).

(** ** Pinning pages *)

(** A page of memory: its physical address and its address in the kernel. *)
Record page := Page { p_phys : Z; p_va : Z }.

(** The outcome: the error, the pages with their protection, the pages released again, the
    pages charged to the limit of the process, and the pages of which
    [get_user_pages_fast] took a reference. *)
Record pin_result := PinRes {
  pr_rc : Z; pr_pages : list page; pr_prot : Z; pr_put : list page; pr_vm : Z; pr_got : list page }.

Definition pin_error (rc : Z) (put : list page) (vm : Z) (got : list page) : pin_result := PinRes rc [] 0 put vm got.

(** [gup]: [get_user_pages_fast] of the range for writing or not, the pages it pins or an
    error; [kernel_pages]: the pages of a range of kernel addresses; [mem]: whether there
    is memory for the array; [tracked]: for a range that counts against the limit, what
    [__scif_try_inc_pinned_vm] returns. *)
Definition __scif_pin_pages (gup : bool → list page + Z) (kernel_pages : list page) (mem : bool) (tracked : option Z)
    (addr len prot map_flags : Z) : pin_result :=
  if negb (Z.land map_flags (Z.lnot SCIF_MAP_KERNEL) =? 0) then pin_error (- EINVAL) [] 0 []
  else if negb (Z.land prot (Z.lnot (Z.lor SCIF_PROT_READ SCIF_PROT_WRITE)) =? 0) then pin_error (- EINVAL) [] 0 []
  else if (len =? 0) || negb (page_align addr =? addr) || negb (page_align len =? len) then pin_error (- EINVAL) [] 0 []
  else
    let nr_pages := s32 (Z.shiftr len PAGE_SHIFT) in
    if negb mem then pin_error (- ENOMEM) [] 0 []
    else if isset map_flags SCIF_MAP_KERNEL then PinRes 0 kernel_pages prot [] 0 []
    else
      let inc := default 0 tracked in
      if negb (inc =? 0) then pin_error inc [] 0 []
      else
        let vm := match tracked with Some _ => nr_pages | None => 0 end in
        let pinned_pages (write : bool) := match gup write with inl ps => ps | inr _ => [] end in
        let count (write : bool) := match gup write with inl ps => zlen ps | inr err => err end in
        let try_upgrade := prot =? SCIF_PROT_READ in
        let prot := Z.lor prot SCIF_PROT_WRITE in
        let retry := negb (nr_pages =? count true) && try_upgrade in
        let put := if retry then pinned_pages true else [] in
        let prot := if retry then Z.land prot (Z.lnot SCIF_PROT_WRITE) else prot in
        let write := isset prot SCIF_PROT_WRITE in
        let got := (if retry then pinned_pages true else []) ++ pinned_pages write in
        if count write <? nr_pages
        then pin_error (- EFAULT) (put ++ pinned_pages write) 0 got
        else PinRes 0 (pinned_pages write) prot put vm got.

(** ** The endpoint's windows *)

(** [struct scif_mmu_notif]: the address space it watches and the cached windows. *)
Record scif_mmu_notif := Mmn { mm : Z; tc_reg_list : list dma_window }.

(** [struct scif_endpt_rma_info], with the windows of the endpoint that are queued for
    destruction ([scif_info.rma], [scif_info.rma_tc]), the offsets in use, the number of
    references the endpoint holds to pages, and the addresses of windows freed. *)
Record scif_endpt_rma_info := Rma {
  reg_list : list dma_window;
  remote_reg_list : list dma_window;
  tw_refcount : Z;
  tcw_refcount : Z;
  tcw_total_pages : Z;
  mmn_list : list scif_mmu_notif;
  fence_refcount : Z;
  rma : list dma_window;
  rma_tc : list dma_window;
  offsets : list Z;
  pins : Z;
  freed : list Z;
}.

Definition set_mmn (l : list scif_mmu_notif) (r : scif_endpt_rma_info) : scif_endpt_rma_info :=
  Rma (reg_list r) (remote_reg_list r) (tw_refcount r) (tcw_refcount r) (tcw_total_pages r) l (fence_refcount r)
    (rma r) (rma_tc r) (offsets r) (pins r) (freed r).
Definition set_queues (q tc : list dma_window) (r : scif_endpt_rma_info) : scif_endpt_rma_info :=
  Rma (reg_list r) (remote_reg_list r) (tw_refcount r) (tcw_refcount r) (tcw_total_pages r) (mmn_list r) (fence_refcount r)
    q tc (offsets r) (pins r) (freed r).
Definition add_tw (n : Z) (r : scif_endpt_rma_info) : scif_endpt_rma_info :=
  Rma (reg_list r) (remote_reg_list r) (tw_refcount r + n) (tcw_refcount r) (tcw_total_pages r) (mmn_list r)
    (fence_refcount r) (rma r) (rma_tc r) (offsets r) (pins r) (freed r).
Definition add_tcw (n pages : Z) (r : scif_endpt_rma_info) : scif_endpt_rma_info :=
  Rma (reg_list r) (remote_reg_list r) (tw_refcount r) (tcw_refcount r + n) (tcw_total_pages r + pages) (mmn_list r)
    (fence_refcount r) (rma r) (rma_tc r) (offsets r) (pins r) (freed r).
Definition set_res (offs : list Z) (n : Z) (fr : list Z) (r : scif_endpt_rma_info) : scif_endpt_rma_info :=
  Rma (reg_list r) (remote_reg_list r) (tw_refcount r) (tcw_refcount r) (tcw_total_pages r) (mmn_list r)
    (fence_refcount r) (rma r) (rma_tc r) offs n fr.

Definition addr_of (d : dma_window) : Z := w_addr (win d).

Definition find_addr (a : Z) (l : list dma_window) : option dma_window :=
  snd <$> list_find (fun d => addr_of d = a) l.

(** The windows of [pool] in the order of a list of [RmaList]. *)
Definition relink (pool : list dma_window) (ws : list scif_window) : list dma_window :=
  omap (fun w => find_addr (w_addr w) pool) ws.

(** A window and those behind it on its list. *)
Fixpoint tail_from (a : Z) (l : list dma_window) : list dma_window :=
  match l with
  | [] => []
  | d :: l' => if addr_of d =? a then l else tail_from a l'
  end.

Definition without (a : Z) (l : list dma_window) : list dma_window := filter (fun d => addr_of d ≠ a) l.

(** [list_del_init]: the window leaves the list it is on. *)
Definition list_del_init (d : dma_window) (r : scif_endpt_rma_info) : scif_endpt_rma_info :=
  set_mmn ((fun m => Mmn (mm m) (without (addr_of d) (tc_reg_list m))) <$> mmn_list r)
    (set_queues (without (addr_of d) (rma r)) (without (addr_of d) (rma_tc r)) r).

(** [scif_queue_for_cleanup] on [scif_info.rma]. *)
Definition scif_queue_for_cleanup (d : dma_window) (r : scif_endpt_rma_info) : scif_endpt_rma_info :=
  let r := list_del_init d r in set_queues (rma r ++ [d]) (rma_tc r) r.

Definition scif_rma_ep_can_uninit (r : scif_endpt_rma_info) : Z :=
  if bool_decide (reg_list r = [] ∧ remote_reg_list r = [] ∧ mmn_list r = []) &&
     (tw_refcount r =? 0) && (tcw_refcount r =? 0) && (fence_refcount r =? 0) then 1 else 0.

Definition scif_free_window_offset (offset : Z) (r : scif_endpt_rma_info) : scif_endpt_rma_info :=
  set_res (filter (fun o => o ≠ offset) (offsets r)) (pins r) (freed r) r.

(** The references to the pages of an array of [nr_pages] are given back. *)
Definition scif_destroy_pinned_pages (nr_pages : Z) (r : scif_endpt_rma_info) : scif_endpt_rma_info :=
  set_res (offsets r) (pins r - nr_pages) (freed r) r.

(** [ref_count]: of the array of pages. *)
Definition scif_unpin_pages (ref_count nr_pages : Z) (r : scif_endpt_rma_info) : scif_endpt_rma_info :=
  if ref_count - 1 =? 0 then scif_destroy_pinned_pages nr_pages r else r.

(** A temporary window holds the only reference to its pages. *)
Definition scif_destroy_window (d : dma_window) (r : scif_endpt_rma_info) : scif_endpt_rma_info :=
  let r := scif_free_window_offset (w_offset d) r in
  let r := scif_unpin_pages 1 (nr_pages (win d)) r in
  set_res (offsets r) (pins r) (freed r ++ [addr_of d]) r.

(** ** Destruction of queued windows

    [idle]: there is no channel, the peer is gone, or draining the channel succeeds. *)
Section Cleanup.
Context (idle : Z → bool).

Fixpoint destroy_windows (q : list dma_window) (r : scif_endpt_rma_info) : scif_endpt_rma_info :=
  match q with
  | [] => r
  | d :: q =>
      let r := set_queues q (rma_tc r) r in
      let r := if idle (addr_of d) then
                 if bool_decide (w_type d = SCIF_WINDOW_SELF) then scif_destroy_window d r
                 else set_res (offsets r) (pins r) (freed r ++ [addr_of d]) r
               else r in
      destroy_windows q (add_tw (-1) r)
  end.
Definition scif_rma_destroy_windows (r : scif_endpt_rma_info) : scif_endpt_rma_info := destroy_windows (rma r) r.

Fixpoint destroy_tcw_invalid (q : list dma_window) (r : scif_endpt_rma_info) : scif_endpt_rma_info :=
  match q with
  | [] => r
  | d :: q =>
      let r := set_queues (rma r) q r in
      let r := if idle (addr_of d) then add_tcw (-1) (- nr_pages (win d)) (scif_destroy_window d r) else r in
      destroy_tcw_invalid q r
  end.
Definition scif_rma_destroy_tcw_invalid (r : scif_endpt_rma_info) : scif_endpt_rma_info := destroy_tcw_invalid (rma_tc r) r.

(** [scif_rma_destroy_tcw] of one notifier: its windows in the range are queued. *)
Definition destroy_tcw_of (start len : Z) (m : scif_mmu_notif) : scif_mmu_notif * list dma_window :=
  let '(kept, gone) := __scif_rma_destroy_tcw (win <$> tc_reg_list m) start len in
  (Mmn (mm m) (relink (tc_reg_list m) kept), relink (tc_reg_list m) gone).

Definition on_mmn (who : Z → bool) (start len : Z) (r : scif_endpt_rma_info) : scif_endpt_rma_info :=
  let res := (fun m => if who (mm m) then destroy_tcw_of start len m else (m, [])) <$> mmn_list r in
  set_mmn (res.*1) (set_queues (rma r) (rma_tc r ++ concat (res.*2)) r).

Definition ULONG_MAX : Z := 2 ^ 64 - 1.

Definition scif_rma_destroy_tcw (m start len : Z) (r : scif_endpt_rma_info) : scif_endpt_rma_info :=
  on_mmn (fun x => x =? m) start len r.
Definition scif_rma_destroy_tcw_ep (r : scif_endpt_rma_info) : scif_endpt_rma_info := on_mmn (fun _ => true) 0 ULONG_MAX r.
Definition __scif_rma_destroy_tcw_ep (r : scif_endpt_rma_info) : scif_endpt_rma_info := on_mmn (fun _ => true) 0 ULONG_MAX r.

(** The notifiers of the address space [m]. *)
Definition scif_mmu_notifier_release (m : Z) (r : scif_endpt_rma_info) : scif_endpt_rma_info :=
  scif_rma_destroy_tcw m 0 ULONG_MAX r.
Definition scif_mmu_notifier_invalidate_page (m address : Z) (r : scif_endpt_rma_info) : scif_endpt_rma_info :=
  scif_rma_destroy_tcw m address PAGE_SIZE r.
Definition scif_mmu_notifier_invalidate_range_start (m start end_ : Z) (r : scif_endpt_rma_info) : scif_endpt_rma_info :=
  scif_rma_destroy_tcw m start (u64 (end_ - start)) r.

Definition scif_ep_unregister_mmu_notifier (r : scif_endpt_rma_info) : scif_endpt_rma_info := set_mmn [] r.

(** [queued]: the endpoint is on [scif_info.mmu_notif_cleanup]. *)
Definition scif_mmu_notif_handler (queued : bool) (r : scif_endpt_rma_info) : scif_endpt_rma_info :=
  let r := scif_rma_destroy_tcw_invalid r in
  if queued then
    scif_rma_destroy_tcw_invalid (scif_ep_unregister_mmu_notifier (scif_rma_destroy_tcw_ep r))
  else r.

Definition scif_is_usecache_set (flags : Z) : bool := isset flags SCIF_RMA_USECACHE.

Definition scif_rma_tc_can_cache (rma_tc_limit cur_bytes : Z) (r : scif_endpt_rma_info) : bool * scif_endpt_rma_info :=
  let pages := Z.shiftr cur_bytes PAGE_SHIFT in
  if rma_tc_limit <? pages then (false, r)
  else
    (true, if rma_tc_limit <? u64 (tcw_total_pages r + pages)
           then __scif_rma_destroy_tcw_ep (scif_rma_destroy_tcw_invalid r) else r).

End Cleanup.

(** ** Notifiers *)

Definition scif_find_mmu_notifier (m : Z) (r : scif_endpt_rma_info) : option scif_mmu_notif :=
  snd <$> list_find (fun x => mm x = m) (mmn_list r).

(** [mem]: there is memory; [registered]: what [mmu_notifier_register] returns. *)
Definition scif_add_mmu_notifier (mem : bool) (registered m : Z) (r : scif_endpt_rma_info) : scif_endpt_rma_info :=
  if negb mem then r
  else if negb (registered =? 0) then r
  else set_mmn (Mmn m [] :: mmn_list r) r.

(** Change the first notifier of [m]. *)
Fixpoint update_mmn (m : Z) (f : list dma_window → list dma_window) (l : list scif_mmu_notif) : list scif_mmu_notif :=
  match l with
  | [] => []
  | x :: l => if mm x =? m then Mmn m (f (tc_reg_list x)) :: l else x :: update_mmn m f l
  end.

(** ** What a call meets *)

Record env := Env {
  e_state : ScifEpd.scif_epd_state;
  e_alive : bool;
  e_loopback : bool;
  e_mgmt : bool;
  e_peer : bool;
  e_ok : nat → bool;
  e_aper : option Z;
  e_any_align : bool;
  e_temp_mem : bool;
  e_drained : Z;
  e_drain : Z;
  e_idle : Z → bool;
  e_tc_limit : Z;
  e_mm : Z;
  e_notif_mem : bool;
  e_notif_registered : Z;
  e_gup : Z → Z → bool → list page + Z;
  e_pin_mem : bool;
  e_iova : Z → Z + Z;
  e_window : option Z;
  e_iommu : option (bool * (list Z → list (Z * Z)));
  e_map_single : Z → Z → Z + Z;
}.

Definition scif_verify_epd (e : env) : Z :=
  if bool_decide (e_state e = ScifEpd.SCIFEP_DISCONNECTED) then - ECONNRESET
  else if negb (bool_decide (e_state e = ScifEpd.SCIFEP_CONNECTED)) then - ENOTCONN
  else if negb (e_alive e) then - ENODEV
  else 0.

(** [scif_map_window] with its first case: the scatter list when there is an IOMMU. *)
Definition map_window (e : env) (pages : list page) (d : dma_window) : option (Z * dma_window) :=
  match e_iommu e with
  | Some (mem, sgl) =>
      if negb (e_loopback e) then scif_dma_map mem (sgl (p_phys <$> pages)) d
      else scif_map_window (e_mgmt e) (e_map_single e) (p_phys <$> pages) d
  | None => scif_map_window (e_mgmt e) (e_map_single e) (p_phys <$> pages) d
  end.

(** [scif_create_window] and the assignments that follow it. *)
Definition scif_create_window (a nr_pages off prot va : Z) (pages : list page) : dma_window :=
  DWin (Window a nr_pages prot off va 0 SCIF_UNREG_NOT_INITIATED) SCIF_WINDOW_SELF 0 [] [] (p_va <$> pages).

(** [scif_get_window_offset] without [SCIF_MAP_FIXED]: the offset is in use from now on. *)
Definition scif_get_window_offset (e : env) (num_pages : Z) (r : scif_endpt_rma_info) : (Z + Z) * scif_endpt_rma_info :=
  match e_iova e num_pages with
  | inr err => (inr err, r)
  | inl pfn => let off := Z.shiftl pfn PAGE_SHIFT in (inl off, set_res (off :: offsets r) (pins r) (freed r) r)
  end.

(** The result: an error, or the new window.  The array of pages has the reference count 1
    from [__scif_pin_pages]. *)
Definition scif_register_temp (e : env) (r : scif_endpt_rma_info) (addr len prot : Z)
  : option ((Z + dma_window) * scif_endpt_rma_info) :=
  let aligned_len := page_align len in
  let pin := __scif_pin_pages (e_gup e (page_mask addr) (Z.shiftr aligned_len PAGE_SHIFT)) [] (e_pin_mem e) None
               (page_mask addr) aligned_len prot 0 in
  let r := set_res (offsets r) (pins r + zlen (pr_got pin) - zlen (pr_put pin)) (freed r) r in
  if negb (pr_rc pin =? 0) then Some (inl (pr_rc pin), r)
  else
    let pages := pr_pages pin in
    let '(res, r) := scif_get_window_offset e (Z.shiftr aligned_len PAGE_SHIFT) r in
    match res with
    | inr err => Some (inl err, scif_unpin_pages 1 (zlen pages) r)
    | inl off =>
        match e_window e with
        | None => Some (inl (- ENOMEM), scif_unpin_pages 1 (zlen pages) (scif_free_window_offset off r))
        | Some a =>
            let d := scif_create_window a (zlen pages) off (pr_prot pin) (page_mask addr) pages in
            '(err, d) ← map_window e pages d;
            if negb (err =? 0) then Some (inl err, scif_destroy_window d r)
            else Some (inr d, r)
        end
    end.

(** ** The copy *)

Inductive scif_rma_dir := SCIF_LOCAL_TO_REMOTE | SCIF_REMOTE_TO_LOCAL.

#[export] Instance scif_rma_dir_eq_dec : EqDecision scif_rma_dir.
Proof. solve_decision. Defined.

Definition SCIF_DMA_POLL : Z := 1.
Definition SCIF_DMA_INTR : Z := 2.

(** The window the local side starts in, with those behind it on its list; or an error. *)
Inductive local := LocalErr (err : Z) | Local (d : dma_window) (wins : list dma_window).

(** The local side of a copy of memory of the caller: a window found in the cache, or a
    new one.  [mmn]: a notifier was found. *)
Definition local_temp (e : env) (r : scif_endpt_rma_info) (mmn cache : bool) (dir : scif_rma_dir) (addr len : Z)
  : option (local * scif_endpt_rma_info) :=
  let prot := if decide (dir = SCIF_LOCAL_TO_REMOTE) then VM_READ else Z.lor VM_WRITE VM_READ in
  let req := Req (page_mask addr) (page_align (u64 (len + Z.land addr (PAGE_SIZE - 1)))) prot SCIF_WINDOW_PARTIAL in
  let tc := match scif_find_mmu_notifier (e_mm e) r with Some m => tc_reg_list m | None => [] end in
  let res := if mmn then scif_query_tcw req (win <$> tc) else Tcw (- ENXIO) None req [] None in
  let r := if mmn then
             set_mmn (update_mmn (e_mm e) (fun l => relink l (t_list res)) (mmn_list r))
               (set_queues (rma r) (rma_tc r ++ match t_destroyed res with Some w => relink tc [w] | None => [] end) r)
           else r in
  let hit := match t_out res with Some w => find_addr (w_addr w) tc | None => None end in
  match hit with
  | Some d => Some (Local d (tail_from (addr_of d) tc), r)
  | None =>
      '(new, r) ← scif_register_temp e r (r_start (t_req res)) (nr_bytes (t_req res)) prot;
      match new with
      | inl err => Some (LocalErr err, r)
      | inr d =>
          if negb cache then Some (Local d [d], r)
          else
            let r := add_tcw 1 (nr_pages (win d)) r in
            let r := if mmn then
                       set_mmn (update_mmn (e_mm e) (fun l => relink (d :: l) (scif_insert_tcw (win d) (win <$> l))) (mmn_list r)) r
                     else r in
            Some (Local d [d], r)
      end
  end.

Definition local_registered (r : scif_endpt_rma_info) (dir : scif_rma_dir) (loffset len : Z) : local :=
  match scif_query_window (Req loffset len (if decide (dir = SCIF_LOCAL_TO_REMOTE) then VM_READ else VM_WRITE) SCIF_WINDOW_PARTIAL)
          (win <$> reg_list r) with
  | (err, out) =>
      if negb (err =? 0) then LocalErr err
      else match out with
           | Some w => match tail_from (w_addr w) (reg_list r) with d :: wins => Local d (d :: wins) | [] => LocalErr 0 end
           | None => LocalErr 0
           end
  end.

(** The fence left by [scif_rma_list_dma_copy_wrapper] in [work->fence_type]. *)
Definition wrapper_fence (any_align : bool) (work : scif_copy_work) (ret fence_type : Z) : Z :=
  if any_align || (Z.land (dst_offset work) (L1_CACHE_BYTES - 1) =? Z.land (src_offset work) (L1_CACHE_BYTES - 1)) || loopback work
  then fence_type
  else match src_wins work with
       | w :: _ => if bool_decide (w_type w = SCIF_WINDOW_SELF) || negb (ret =? 0) then fence_type else SCIF_DMA_INTR
       | [] => fence_type
       end.

(** The result: the error, the endpoint, the transfers and those made by call-backs. *)
Definition rma_out : Type := Z * scif_endpt_rma_info * list xfer * list xfer.

(** From the copy to the end. *)
Definition copy_and_fence (e : env) (r : scif_endpt_rma_info) (flags fence_type : Z) (temp last_chunk : bool)
    (d : dma_window) (work : scif_copy_work) : option rma_out :=
  '(err, fence_type, log, post) ←
    (if isset flags SCIF_RMA_USECPU then
       '(_, log) ← scif_rma_list_cpu_copy (e_ok e) (e_aper e) work; Some (0, fence_type, log, [])
     else
       '(err, log, post) ← scif_rma_list_dma_copy_wrapper (e_ok e) (e_aper e) (e_any_align e) (e_temp_mem e) (e_drained e) work;
       Some (err, wrapper_fence (e_any_align e) work err fence_type, log, post));
  let r := if temp then add_tw 1 r else r in
  let err := if last_chunk && ((fence_type =? SCIF_DMA_POLL) || (fence_type =? SCIF_DMA_INTR)) then e_drain e else err in
  let r := if temp then scif_queue_for_cleanup d r else r in
  Some (err, r, log, post).

Definition scif_rma_copy (e : env) (r : scif_endpt_rma_info) (loffset addr len roffset flags : Z) (dir : scif_rma_dir)
    (last_chunk : bool) : option rma_out :=
  let err := scif_verify_epd e in
  if negb (err =? 0) then Some (err, r, [], [])
  else if negb (flags =? 0) &&
          (Z.land flags (Z.lor (Z.lor SCIF_RMA_USECPU SCIF_RMA_USECACHE) (Z.lor SCIF_RMA_SYNC SCIF_RMA_ORDERED)) =? 0)
  then Some (- EINVAL, r, [], [])
  else
    let loopback := e_loopback e in
    let fence_type := if isset flags SCIF_RMA_SYNC && last_chunk then SCIF_DMA_POLL else 0 in
    let ordered := isset flags SCIF_RMA_ORDERED && last_chunk in
    let '(flags, fence_type) :=
      if loopback && e_mgmt e then (Z.lor flags SCIF_RMA_USECPU, 0) else (flags, fence_type) in
    let cache := scif_is_usecache_set flags in
    let remote_prot := if decide (dir = SCIF_LOCAL_TO_REMOTE) then VM_WRITE else VM_READ in
    if negb (e_peer e) then Some (- ENODEV, r, [], [])
    else
      let user := negb (addr =? 0) in
      let mmn := user && cache && match scif_find_mmu_notifier (e_mm e) r with Some _ => true | None => false end in
      let '(cache, r) :=
        if user && cache then
          let r := if mmn then r else scif_add_mmu_notifier (e_notif_mem e) (e_notif_registered e) (e_mm e) r in
          let '(can, r) := scif_rma_tc_can_cache (e_idle e) (e_tc_limit e) len r in
          (negb can, r)
        else (cache, r) in
      '(loc, r) ← (if user then local_temp e r mmn cache dir addr len
                   else Some (local_registered r dir loffset len, r));
      match loc with
      | LocalErr err => Some (err, r, [], [])
      | Local d wins =>
          let loffset := if user then s64 (offset (win d) + (addr - va_for_temp (win d))) else loffset in
          match scif_query_window (Req roffset len remote_prot SCIF_WINDOW_PARTIAL) (win <$> remote_reg_list r) with
          | (0, Some w) =>
              let remote := tail_from (w_addr w) (remote_reg_list r) in
              let work := if decide (dir = SCIF_LOCAL_TO_REMOTE)
                          then Work wins loffset remote roffset loopback len ordered
                          else Work remote roffset wins loffset loopback len ordered in
              copy_and_fence e r flags fence_type (user && negb cache) last_chunk d work
          | (err, _) => Some (err, if user && negb cache then scif_destroy_window d r else r, [], [])
          end
      end.

(** ** The calls *)

Definition scif_unaligned (src_offset dst_offset : Z) : bool :=
  negb (Z.land src_offset (L1_CACHE_BYTES - 1) =? Z.land dst_offset (L1_CACHE_BYTES - 1)).

(** The loop of the four calls and the copy behind it; [es n] is what the [n]-th copy
    meets.  [at_addr]: the local side is memory of the caller. *)
Fixpoint chunk_loop (fuel : nat) (es : nat → env) (n : nat) (r : scif_endpt_rma_info) (at_addr unaligned : bool)
    (local_at len roffset flags : Z) (dir : scif_rma_dir) (log post : list xfer) : option rma_out :=
  match fuel with
  | O => None
  | S fuel =>
      let loffset := if at_addr then 0 else local_at in
      let addr := if at_addr then local_at else 0 in
      if unaligned && (SCIF_MAX_UNALIGNED_BUF_SIZE <? len) then
        '(err, r, log', post') ← scif_rma_copy (es n) r loffset addr SCIF_MAX_UNALIGNED_BUF_SIZE roffset flags dir false;
        if negb (err =? 0) then Some (err, r, log ++ log', post ++ post')
        else chunk_loop fuel es (S n) r at_addr unaligned ((if at_addr then u64 else s64) (local_at + SCIF_MAX_UNALIGNED_BUF_SIZE))
               (len - SCIF_MAX_UNALIGNED_BUF_SIZE) (s64 (roffset + SCIF_MAX_UNALIGNED_BUF_SIZE)) flags dir (log ++ log') (post ++ post')
      else
        '(err, r, log', post') ← scif_rma_copy (es n) r loffset addr len roffset flags dir true;
        Some (err, r, log ++ log', post ++ post')
  end.

Definition chunks_fuel (len : Z) : nat := S (Z.to_nat (len / SCIF_MAX_UNALIGNED_BUF_SIZE)).

Definition scif_readfrom (es : nat → env) (r : scif_endpt_rma_info) (loffset len roffset flags : Z) : option rma_out :=
  chunk_loop (chunks_fuel len) es 0 r false (scif_unaligned loffset roffset) loffset len roffset flags SCIF_REMOTE_TO_LOCAL [] [].

Definition scif_writeto (es : nat → env) (r : scif_endpt_rma_info) (loffset len roffset flags : Z) : option rma_out :=
  chunk_loop (chunks_fuel len) es 0 r false (scif_unaligned loffset roffset) loffset len roffset flags SCIF_LOCAL_TO_REMOTE [] [].

Definition v_flags (unaligned : bool) (len flags : Z) : Z :=
  if unaligned && (SCIF_MAX_UNALIGNED_BUF_SIZE <? len) then Z.land flags (Z.lnot SCIF_RMA_USECACHE) else flags.

Definition scif_vreadfrom (es : nat → env) (r : scif_endpt_rma_info) (addr len roffset flags : Z) : option rma_out :=
  let unaligned := scif_unaligned addr roffset in
  chunk_loop (chunks_fuel len) es 0 r true unaligned addr len roffset (v_flags unaligned len flags) SCIF_REMOTE_TO_LOCAL [] [].

Definition scif_vwriteto (es : nat → env) (r : scif_endpt_rma_info) (addr len roffset flags : Z) : option rma_out :=
  let unaligned := scif_unaligned addr roffset in
  chunk_loop (chunks_fuel len) es 0 r true unaligned addr len roffset (v_flags unaligned len flags) SCIF_LOCAL_TO_REMOTE [] [].

End ScifRma.
