(* ===== verification/ScifRmaInv.v ===== *)
(** * Correctness of remote memory access

    The look-up of registered ranges gives the copy routines windows that hold the range;
    the calls deliver every byte when resources are there; temporary windows are released;
    and the errors that are lost on the way. *)
From S2P Require Import Prelude Endpoint RmaList DmaWindow ScifDma ScifDmaInv ScifDmaTemp ScifRma.
Local Open Scope Z_scope.

Module ScifRmaInv.
Import RmaList DmaWindow ScifDma ScifDmaInv ScifDmaTemp ScifRma.

(** ** A range that is found is held *)

(** A list of registered windows. *)
Record list_ok (aper : option Z) (l : list dma_window) : Prop := {
  lo_reg : reg_list_ok (win <$> l);
  lo_win : Forall window_ok l;
  lo_aper : Forall (aper_ok aper) l;
  lo_addr : NoDup (addr_of <$> l);
}.

Lemma query_loop_spans req : ∀ l d off left out out', reg_list_ok (win <$> d :: l) → Forall window_ok (d :: l) →
  0 <= off → 0 < left <= nr_bytes req → off + left < 2 ^ 63 → off < w_end d →
  query_loop req (win <$> d :: l) off left out = (0, out') →
  spans (d :: l) off left ∧ out' = if left =? nr_bytes req then Some (win d) else out.
Proof.
  induction l as [|d' l IH]; intros d off left out out' Hr Hw Ho Hl Hb Hlt;
    inversion Hw as [|? ? Hwd Hw']; subst; pose proof (w_end_eq d Hwd) as He; unfold w_offset in He;
    destruct (reg_list_cons _ _ Hr) as (Hreg & Hr' & Hap);
    rewrite fmap_cons, query_loop_cons by (done || lia); cbv zeta; rewrite <- He;
    (destruct (Z.ltb_spec off (offset (win d))); [done|]); (destruct (Z.leb_spec (w_end d) off); [lia|]);
    (destruct (negb _); [done|]); (destruct (Z.leb_spec (off + left) (w_end d)) as [Hin|Hout]).
  - intros E. split; [split; [done|]; split; [unfold w_offset; lia|by left]|]. case_bool_decide; [|destruct (_ =? w_end d)]; congruence.
  - case_bool_decide; [done|]. done.
  - intros E. split; [split; [done|]; split; [unfold w_offset; lia|by left]|]. case_bool_decide; [|destruct (_ =? w_end d)]; congruence.
  - case_bool_decide; [done|]. intros E. inversion Hw' as [|? ? Hwd' _]; subst. pose proof (w_end_eq d' Hwd') as He'. unfold w_offset in He'.
    destruct (Hap (win d')) as [(R1 & R2 & R3) Ha]; [by apply elem_of_cons; left|]. unfold apart in Ha.
    destruct (IH d' (w_end d) (left - (w_end d - off)) _ _ Hr' Hw' ltac:(lia) ltac:(lia) ltac:(lia) ltac:(lia) E) as [Hs ->].
    split.
    + split; [done|]. split; [unfold w_offset; lia|]. right. split.
      * destruct Hs as (_ & Hs & _). unfold w_offset in *. lia.
      * by replace (off + left - w_end d) with (left - (w_end d - off)) by lia.
    + destruct (Z.eqb_spec (left - (w_end d - off)) (nr_bytes req)); [lia|done].
Qed.

Lemma tail_from_head a l d ws : tail_from a l = d :: ws → addr_of d = a ∧ d :: ws `suffix_of` l.
Proof.
  induction l as [|x l IH]; [done|]. cbn [tail_from]. destruct (Z.eqb_spec (addr_of x) a) as [Hx|].
  - intros [= -> ->]. done.
  - intros E. destruct (IH E). split; [done|]. by apply suffix_cons_r.
Qed.

Lemma query_finds aper req l w : list_ok aper l → 0 <= r_start req → 0 < nr_bytes req → r_start req + nr_bytes req < 2 ^ 63 →
  scif_query_window req (win <$> l) = (0, Some w) →
  ∃ d ws, tail_from (w_addr w) l = d :: ws ∧ win d = w ∧ holds aper (d :: ws) (r_start req) (nr_bytes req).
Proof.
  intros [Hr Hw Ha Hn] Hs Hl Hb. unfold scif_query_window. destruct (Z.eqb_spec (nr_bytes req) 0); [lia|].
  induction l as [|d l IH]; [done|]. intros E.
  inversion Hw as [|? ? Hwd Hw']; subst. inversion Ha as [|? ? Had Ha']; subst. inversion Hn as [|? ? Hnd Hn']; subst.
  pose proof (w_end_eq d Hwd) as He. unfold w_offset in He. destruct (reg_list_cons _ _ Hr) as (Hreg & Hr' & Hap).
  destruct (Z.lt_ge_cases (r_start req) (w_end d)) as [Hlt|Hge].
  - destruct (query_loop_spans req l d (r_start req) (nr_bytes req) None (Some w) Hr Hw Hs ltac:(lia) Hb Hlt E) as [Hsp Eo]. rewrite Z.eqb_refl in Eo. injection Eo as ->.
    exists d, l. cbn [tail_from]. unfold addr_of at 1. rewrite Z.eqb_refl. split_and!; done.
  - rewrite fmap_cons, query_loop_cons in E by (done || lia). cbv zeta in E. rewrite <- He in E.
    destruct (Z.ltb_spec (r_start req) (offset (win d))); [done|]. destruct (Z.leb_spec (w_end d) (r_start req)); [|lia].
    destruct (IH Hr' Hw' Ha' Hn' E) as (x & ws & Et & Ex & Hh). exists x, ws. split_and!; try done.
    cbn [tail_from]. destruct (Z.eqb_spec (addr_of d) (w_addr w)) as [Ea|]; [|done]. exfalso. apply Hnd.
    destruct (tail_from_head _ _ _ _ Et) as [Hx [k ->]]. apply list_elem_of_fmap. exists x. split; [congruence|].
    apply elem_of_app. right. apply elem_of_cons. by left.
Qed.

(** ** With resources no copy fails *)

Section Resources.
Context (ok : nat → bool) (aper : option Z) (Hok : ∀ n, ok n = true).

Lemma dma_loop_rc split last : ∀ fuel s d rem log ret s' d' log',
  dma_loop ok fuel split last s d rem log = Some (ret, s', d', log') → ret = 0.
Proof.
  induction fuel as [|fuel IH]; intros s d rem log ret s' d' log'; [done|]. cbn [dma_loop].
  destruct (negb (rem =? 0)); [|by intros [= <- _ _ _]].
  destruct (side_next s) as [s1|]; [|done]. cbn [mbind option_bind]. destruct (side_next d) as [d1|]; [|done]. cbn [mbind option_bind].
  destruct (side_dma s1) as [[sa s2]|]; [|done]. cbn [mbind option_bind]. destruct (side_dma d1) as [[da d2]|]; [|done]. cbn [mbind option_bind].
  rewrite !Hok. cbn [negb]. destruct (_ && _); apply IH.
Qed.

Lemma cpu_loop_rc : ∀ fuel s d rem log ret log', cpu_loop ok aper fuel s d rem log = Some (ret, log') → ret = 0.
Proof.
  induction fuel as [|fuel IH]; intros s d rem log ret log'; [done|]. cbn [cpu_loop].
  destruct (negb (rem =? 0)); [|by intros [= <- _]]. rewrite Hok. cbn [negb].
  destruct (cpu_addr aper s _) as [[sp sit]|]; [|done]. cbn [mbind option_bind]. destruct (cpu_addr aper d _) as [[dp dit]|]; [|done]. cbn [mbind option_bind].
  destruct (negb _); [|apply IH]. destruct (side_next (Side (s_wins s) _ _ _)) as [s1|]; [|done]. cbn [mbind option_bind].
  destruct (side_next (Side (s_wins d) _ _ _)) as [d1|]; [|done]. apply IH.
Qed.

Lemma unaligned_loop_rc b ord : ∀ fuel s temp rem log ret s' temp' log',
  unaligned_loop ok fuel b ord s temp rem log = Some (ret, s', temp', log') → ret = 0.
Proof.
  induction fuel as [|fuel IH]; intros s temp rem log ret s' temp' log'; [done|]. cbn [unaligned_loop].
  destruct (negb (rem =? 0)); [|by intros [= <- _ _ _]].
  destruct (side_next s) as [s1|]; [|done]. cbn [mbind option_bind]. destruct (side_dma s1) as [[a s2]|]; [|done]. cbn [mbind option_bind].
  rewrite !Hok. cbn [negb]. destruct (_ && _); apply IH.
Qed.

Lemma cpu_piece_rc s d n ord log ret log' : cpu_piece ok aper s d n ord log = Some (ret, log') → ret = 0.
Proof.
  unfold cpu_piece. rewrite Hok. cbn [negb]. destruct (cpu_addr aper s None) as [[sp sit]|]; [|done]. cbn [mbind option_bind].
  destruct (cpu_addr aper d None) as [[dp dit]|]; [|done]. by intros [= <- _].
Qed.

Lemma io_piece_rc b s temp n ord log ret log' : io_piece ok aper b s temp n ord log = Some (ret, log') → ret = 0.
Proof. unfold io_piece. destruct (s_wins s); [done|]. rewrite Hok. by intros [= <- _]. Qed.

Lemma aligned_rc work ret log : scif_rma_list_dma_copy_aligned ok aper 0 work = Some (ret, log) → ret = 0.
Proof.
  unfold scif_rma_list_dma_copy_aligned. set (h := if negb _ then Z.min _ _ else 0).
  destruct (if negb _ then cpu_piece _ _ _ _ _ _ _ else _) as [[ret0 log0]|] eqn:E0; [|done]. cbn [mbind option_bind].
  assert (ret0 = 0) as -> by (revert E0; destruct (negb _); [apply cpu_piece_rc|intros; congruence]). clear E0. clearbody h. change (0 <? 0) with false; cbv iota.
  destruct (dma_loop _ _ _ _ _ _ _ _) as [[[[ret1 s1] d1] log1]|] eqn:E1; [|done]. cbn [mbind option_bind]. apply dma_loop_rc in E1 as ->.
  change (0 <? 0) with false; cbv iota. destruct (negb (Z.land _ _ =? 0)); [|intros; congruence]. destruct (side_next s1); [|done]. cbn [mbind option_bind].
  destruct (side_next d1); [|done]. cbn [mbind option_bind]. change (negb (0 =? 0)) with false; rewrite andb_false_r. apply cpu_piece_rc.
Qed.

Lemma unaligned_rc ws off len temp ord b ret log :
  scif_rma_list_dma_copy_unaligned ok aper 0 ws off len temp ord b = Some (ret, log) → ret = 0.
Proof.
  unfold scif_rma_list_dma_copy_unaligned. set (h := if negb _ then Z.min _ _ else 0).
  destruct (if negb _ then io_piece _ _ _ _ _ _ _ _ else _) as [[ret0 log0]|] eqn:E0; [|done]. cbn [mbind option_bind].
  assert (ret0 = 0) as -> by (revert E0; destruct (negb _); [apply io_piece_rc|intros; congruence]). clear E0. clearbody h. change (0 <? 0) with false; cbv iota.
  destruct (unaligned_loop _ _ _ _ _ _ _ _) as [[[[ret1 s1] t1] log1]|] eqn:E1; [|done]. cbn [mbind option_bind]. apply unaligned_loop_rc in E1 as ->.
  change (0 <? 0) with false; cbv iota. destruct (negb (Z.land _ _ =? 0)).
  - destruct (side_next s1) as [s2|]; [|done]. cbn [mbind option_bind]. destruct (io_piece _ _ _ _ _ _ _ _) as [[ret2 l2]|] eqn:E2; [|done].
    cbn [mbind option_bind]. apply io_piece_rc in E2 as ->. change (0 <? 0) with false; cbv iota. change (negb (0 =? 0)) with false; rewrite andb_false_r. cbn [mbind option_bind]; change (negb (0 =? 0)) with false; cbv iota.
    rewrite Hok. by intros [= <- _].
  - cbn [mbind option_bind]; change (negb (0 =? 0)) with false; cbv iota. rewrite Hok. by intros [= <- _].
Qed.

Lemma wrapper_rc any_align work ret log post :
  scif_rma_list_dma_copy_wrapper ok aper any_align true 0 work = Some (ret, log, post) → ret = 0.
Proof.
  unfold scif_rma_list_dma_copy_wrapper. destruct any_align.
  { unfold _scif_rma_list_dma_copy_aligned. destruct (dma_loop _ _ _ _ _ _ _ _) as [[[[r ?] ?] ?]|] eqn:E; [|done].
    cbn. apply dma_loop_rc in E. intros; congruence. }
  destruct (_ =? _).
  { destruct (scif_rma_list_dma_copy_aligned _ _ _ _) as [[r l]|] eqn:E; [|done]. cbn. apply aligned_rc in E. intros; congruence. }
  destruct (loopback work).
  { unfold scif_rma_list_cpu_copy. destruct (cpu_loop _ _ _ _ _ _ _) as [[r l]|] eqn:E; [|done]. cbn. apply cpu_loop_rc in E. intros; congruence. }
  cbn [negb]. destruct (src_wins work) as [|w ws]; [done|]. case_bool_decide.
  - destruct (scif_rma_local_cpu_copy _ _ _ _ _) as [pre|]; [|done]. cbn [mbind option_bind].
    destruct (scif_rma_list_dma_copy_unaligned _ _ _ _ _ _ _ _ _) as [[r l]|] eqn:E; [|done]. cbn. apply unaligned_rc in E as ->. change (0 <? 0) with false; cbv iota; intros; congruence.
  - destruct (scif_rma_list_dma_copy_unaligned _ _ _ _ _ _ _ _ _) as [[r l]|] eqn:E; [|done]. cbn [mbind option_bind]. apply unaligned_rc in E as ->.
    destruct (scif_rma_local_cpu_copy _ _ _ _ _) as [pre|]; [|done]. change (0 <? 0) with false; cbn [mbind option_bind]; intros; congruence.
Qed.

End Resources.

(** ** One copy of registered ranges *)

Definition to_remote (dir : scif_rma_dir) : bool := bool_decide (dir = SCIF_LOCAL_TO_REMOTE).
Definition local_prot (dir : scif_rma_dir) : Z := if to_remote dir then VM_READ else VM_WRITE.
Definition remote_prot (dir : scif_rma_dir) : Z := if to_remote dir then VM_WRITE else VM_READ.

(** Both ranges are registered with the protection that the direction needs. *)
Definition covered (r : scif_endpt_rma_info) (dir : scif_rma_dir) (loffset roffset len : Z) : Prop :=
  covers (win <$> reg_list r) (local_prot dir) loffset len ∧ covers (win <$> remote_reg_list r) (remote_prot dir) roffset len.

(** Byte [k] goes from its place on one side to its place on the other, directly or
    through a buffer. *)
Definition transferred (aper : option Z) (r : scif_endpt_rma_info) (dir : scif_rma_dir) (loffset roffset : Z)
    (l : list (place * place)) (k : Z) : Prop :=
  ∃ lp rp, byte_at aper (reg_list r) (loffset + k) lp ∧ byte_at aper (remote_reg_list r) (roffset + k) rp ∧
    let sp := if to_remote dir then lp else rp in let dp := if to_remote dir then rp else lp in
    (sp, dp) ∈ l ∨ ∃ x, (sp, AtTemp x) ∈ l ∧ (AtTemp x, dp) ∈ l.

Record rma_ok (aper : option Z) (r : scif_endpt_rma_info) : Prop := {
  ro_local : list_ok aper (reg_list r);
  ro_remote : list_ok aper (remote_reg_list r);
  ro_self : Forall (fun d => w_type d = SCIF_WINDOW_SELF) (reg_list r);
  ro_peer : peers (remote_reg_list r);
}.

(** The endpoint is connected and its peer is there; nothing a copy needs is missing. *)
Record ready (aper : option Z) (e : env) : Prop := {
  re_state : e_state e = ScifEpd.SCIFEP_CONNECTED;
  re_alive : e_alive e = true;
  re_peer : e_peer e = true;
  re_ok : ∀ n, e_ok e n = true;
  re_temp : e_temp_mem e = true;
  re_drained : e_drained e = 0;
  re_drain : e_drain e = 0;
  re_aper : e_aper e = aper;
}.

Definition flags_ok (flags : Z) : Prop := flags = 0 ∨ Z.land flags 15 ≠ 0.

Lemma at_off_tail aper f l a d ws x : list_ok aper l → tail_from a l = d :: ws → w_offset d <= x → at_off f l x = at_off f (d :: ws) x.
Proof.
  intros [Hr Hw _ _] E Hx. induction l as [|y l IH]; [done|]. cbn [tail_from] in E.
  destruct (addr_of y =? a); [by injection E as -> ->|]. inversion Hw as [|? ? Hwy Hw']; subst.
  rewrite fmap_cons in Hr. destruct (reg_list_cons _ _ Hr) as (_ & Hr' & Hap). rewrite <- IH by done. cbn [at_off].
  destruct (tail_from_head _ _ _ _ E) as [_ [k ->]].
  destruct (Hap (win d)) as [_ Ha]. { rewrite fmap_app, elem_of_app. right. by apply elem_of_cons; left. }
  unfold apart in Ha. pose proof (w_end_eq y Hwy). unfold w_offset in *. destruct (Z.ltb_spec x (w_end y)); [lia|done].
Qed.

Lemma query_covers req l : reg_list_ok l → 0 <= r_start req → 0 < nr_bytes req → r_start req + nr_bytes req < 2 ^ 63 →
  r_type req = SCIF_WINDOW_PARTIAL →
  (covers l (r_prot req) (r_start req) (nr_bytes req) ∧ ∃ w, scif_query_window req l = (0, Some w)) ∨
  (¬ covers l (r_prot req) (r_start req) (nr_bytes req) ∧ ∃ rc out, scif_query_window req l = (rc, out) ∧ rc ≠ 0).
Proof.
  intros Hl Hs Hn Hb Ht. unfold scif_query_window. destruct (Z.eqb_spec (nr_bytes req) 0); [lia|].
  destruct (query_loop req l (r_start req) (nr_bytes req) None) as [rc out] eqn:E. destruct (Z.eq_dec rc 0) as [->|Hne].
  - left. split; [eapply query_loop_sound; eauto; lia|]. destruct (query_loop_out _ _ _ _ _ _ Hl Hs Hn Hb E) as [Ho _].
    destruct (Ho eq_refl) as (w & -> & _). by exists w.
  - right. split; [|by exists rc, out]. intros Hc. pose proof (query_loop_complete req l _ _ None Ht Hl Hs Hn Hb Hc) as H. by rewrite E in H.
Qed.

(** The endpoint after a copy: a temporary window has been queued for destruction. *)
Definition queued (temp : bool) (d : dma_window) (r : scif_endpt_rma_info) : scif_endpt_rma_info :=
  if temp then scif_queue_for_cleanup d (add_tw 1 r) else r.

Lemma copy_and_fence_returns e r flags fence temp last_chunk d work : work_ok (e_aper e) work → types_ok work →
  e_drained e <= 0 → cw_len work < 2 ^ 62 →
  ∃ err log post, copy_and_fence e r flags fence temp last_chunk d work = Some (err, queued temp d r, log, post) ∧
    (ready (e_aper e) e → err = 0 ∧ ∀ k, 0 <= k < cw_len work → delivered (e_aper e) work (flatten log ++ flatten post) k).
Proof.
  intros Hwork Hty Hdr Hlen. unfold copy_and_fence, queued. destruct (isset flags SCIF_RMA_USECPU).
  - destruct (cpu_copy_outcome (e_ok e) (e_aper e) work Hwork) as (ret & log & E & Ho). rewrite E. cbn [mbind option_bind].
    eexists _, _, _. split; [by destruct temp|]. intros [_ _ _ Hok _ _ Hd2 _]. rewrite Hd2. split; [by destruct (_ && _)|].
    apply (cpu_loop_rc _ (e_aper e) Hok) in E as ->. destruct Ho as [[_ Ho]|[? _]]; [|done]. intros k Hk. rewrite Ho, app_nil_r.
    apply work_pairs_delivered with (cpu_place (e_aper e)) 0 (cw_len work); [by right|lia|done].
  - destruct (wrapper_outcome (e_ok e) (e_aper e) (e_any_align e) (e_temp_mem e) (e_drained e) work Hwork Hty Hdr Hlen) as (ret & log & post & E & Ho).
    rewrite E. cbn [mbind option_bind]. eexists _, _, _. split; [by destruct temp|]. intros [_ _ _ Hok Htemp Hd1 Hd2 _]. rewrite Htemp, Hd1 in E.
    apply (wrapper_rc _ (e_aper e) Hok) in E as ->. rewrite Hd2. split; [by destruct (_ && _)|]. destruct Ho as [(_ & E1 & E2)|[? _]]; [|done].
    intros k Hk. rewrite E1, E2. destruct Hwork as [Hl _ _]. apply expected_delivers; [lia|done|done].
Qed.

Lemma Forall_tail (P : dma_window → Prop) a l d ws : tail_from a l = d :: ws → Forall P l → Forall P (d :: ws).
Proof. intros E H. destruct (tail_from_head _ _ _ _ E) as [_ [k ->]]. by apply Forall_app in H as [_ H]. Qed.

Lemma transferred_mono aper r dir lo ro l l' k : (∀ p, p ∈ l → p ∈ l') → transferred aper r dir lo ro l k → transferred aper r dir lo ro l' k.
Proof. intros Hin (lp & rp & Hl & Hr & Hcase). exists lp, rp. split_and!; [done..|]. destruct Hcase as [H|(x & H1 & H2)]; [by left; auto|right; exists x; auto]. Qed.

(** The work that [scif_rma_copy] sets up for ranges that were found. *)
Lemma work_found aper r dir loffset roffset len w v d ws x xs lb ord : rma_ok aper r → 0 < len < 2 ^ 62 →
  tail_from w (reg_list r) = d :: ws → tail_from v (remote_reg_list r) = x :: xs →
  holds aper (d :: ws) loffset len → holds aper (x :: xs) roffset len →
  let work := if decide (dir = SCIF_LOCAL_TO_REMOTE) then Work (d :: ws) loffset (x :: xs) roffset lb len ord
              else Work (x :: xs) roffset (d :: ws) loffset lb len ord in
  work_ok aper work ∧ types_ok work ∧ cw_len work = len ∧
  ∀ l k, 0 <= k → delivered aper work l k → transferred aper r dir loffset roffset l k.
Proof.
  intros [Hl Hr Hself Hpeer] Hlen Ed Ex Hd Hx. pose proof (Forall_tail _ _ _ _ _ Ed Hself) as Hself'.
  pose proof (Forall_tail _ _ _ _ _ Ex Hpeer) as Hpeer'. fold (peers (x :: xs)) in Hpeer'.
  assert (∀ p k, 0 <= k → byte_at aper (d :: ws) (loffset + k) p → byte_at aper (reg_list r) (loffset + k) p) as Bl.
  { intros p k Hk. destruct Hd as [(_ & Hb & _) _]. unfold byte_at. by rewrite !(at_off_tail aper _ (reg_list r) w d ws) by (done || lia). }
  assert (∀ p k, 0 <= k → byte_at aper (x :: xs) (roffset + k) p → byte_at aper (remote_reg_list r) (roffset + k) p) as Br.
  { intros p k Hk. destruct Hx as [(_ & Hb & _) _]. unfold byte_at. by rewrite !(at_off_tail aper _ (remote_reg_list r) v x xs) by (done || lia). }
  unfold transferred, to_remote, delivered. destruct (decide (dir = SCIF_LOCAL_TO_REMOTE)) as [Hdir|Hdir].
  - rewrite bool_decide_true by done. split_and!; [by split; cbn; [lia|..]| |done|].
    + intros _. unfold self_src. cbn. inversion Hself'; subst. by rewrite bool_decide_true.
    + intros l k Hk (sp & dp & Hs & Hp & Hcase). exists sp, dp. split_and!; [by apply Bl|by apply Br|].
      destruct Hcase as [|(y & _ & ?)]; [by left|right; by exists y].
  - rewrite bool_decide_false by done. split_and!; [by split; cbn; [lia|..]| |done|].
    + intros _. unfold self_src. cbn. inversion Hpeer'; subst. by rewrite bool_decide_false.
    + intros l k Hk (sp & dp & Hs & Hp & Hcase). exists dp, sp. split_and!; [by apply Bl|by apply Br|].
      destruct Hcase as [|(y & _ & ?)]; [by left|right; by exists y].
Qed.

Lemma copy_registered aper e r loffset roffset len flags dir last_chunk : ready aper e → rma_ok aper r → flags_ok flags →
  0 < len < 2 ^ 62 → 0 <= loffset → loffset + len < 2 ^ 63 → 0 <= roffset → roffset + len < 2 ^ 63 →
  ∃ rc log post, scif_rma_copy e r loffset 0 len roffset flags dir last_chunk = Some (rc, r, log, post) ∧
    (rc = 0 ↔ covered r dir loffset roffset len) ∧
    (rc = 0 → ∀ k, 0 <= k < len → transferred aper r dir loffset roffset (flatten log ++ flatten post) k).
Proof.
  intros Hready Hr Hf Hlen Hlo Hlo' Hro Hro'. pose proof Hready as [Hst Hal Hpe _ _ _ _ _]. pose proof Hr as [Hl Hrem _ _].
  unfold scif_rma_copy, scif_verify_epd. rewrite Hst, Hal, Hpe, bool_decide_false, bool_decide_true by done. cbn [negb].
  change (negb (0 =? 0)) with false. cbv iota.
  change (Z.lor (Z.lor SCIF_RMA_USECPU SCIF_RMA_USECACHE) (Z.lor SCIF_RMA_SYNC SCIF_RMA_ORDERED)) with 15.
  assert (negb (flags =? 0) && (Z.land flags 15 =? 0) = false) as ->.
  { destruct (Z.eqb_spec flags 0), (Z.eqb_spec (Z.land flags 15) 0); try done. by destruct Hf. }
  cbn [andb]. destruct (if e_loopback e && e_mgmt e then _ else _) as [flags' fence]. cbn [mbind option_bind].
  unfold local_registered, covered. fold (to_remote dir).
  assert (∀ A (a b : A), (if decide (dir = SCIF_LOCAL_TO_REMOTE) then a else b) = if to_remote dir then a else b) as Hdec.
  { intros A a b. unfold to_remote. by destruct (decide _); [rewrite bool_decide_true|rewrite bool_decide_false]. }
  rewrite (Hdec Z VM_READ VM_WRITE), (Hdec Z VM_WRITE VM_READ). fold (local_prot dir) (remote_prot dir).
  set (lreq := Req loffset len (local_prot dir) SCIF_WINDOW_PARTIAL). set (rreq := Req roffset len (remote_prot dir) SCIF_WINDOW_PARTIAL).
  destruct (query_covers lreq (win <$> reg_list r) (lo_reg _ _ Hl) Hlo ltac:(cbn; lia) Hlo' eq_refl) as [[Hc (w & E)]|[Hn (rc & out & E & Hne)]].
  2:{ rewrite E, (proj2 (Z.eqb_neq _ _) Hne). cbn [negb]. eexists rc, [], []. split; [done|]. split; [|done]. split; [done|]. by intros [? _]. }
  rewrite E. change (negb (0 =? 0)) with false. cbv iota.
  destruct (query_finds aper lreq _ w Hl Hlo ltac:(cbn; lia) Hlo' E) as (d & ws & Ed & Ew & Hd). rewrite Ed.
  destruct (query_covers rreq (win <$> remote_reg_list r) (lo_reg _ _ Hrem) Hro ltac:(cbn; lia) Hro' eq_refl) as [[Hc' (v & E')]|[Hn (rc & out & E' & Hne)]].
  2:{ rewrite E'. eexists rc, [], []. split; [|split; [|done]]; [by destruct rc|]. split; [done|]. by intros [_ ?]. }
  rewrite E'. destruct (query_finds aper rreq _ v Hrem Hro ltac:(cbn; lia) Hro' E') as (x & xs & Ex & Ev & Hx). rewrite Ex.
  destruct (work_found aper r dir loffset roffset len _ _ d ws x xs (e_loopback e) (isset flags SCIF_RMA_ORDERED && last_chunk)
    Hr Hlen Ed Ex Hd Hx) as (Hwork & Hty & Hcw & Htr). revert Hwork Hty Hcw Htr. set (work := if decide _ then Work _ _ _ _ _ _ _ else _).
  intros Hwork Hty Hcw Htr. destruct Hready as [? ? ? ? ? Hdr ? Hap]. subst aper.
  destruct (copy_and_fence_returns e r flags' fence false last_chunk d work Hwork Hty ltac:(lia) ltac:(lia)) as (err & log & post & Ec & Hdel).
  destruct Hdel as [-> Hdel]; [done|]. exists 0, log, post. split; [exact Ec|]. split; [done|]. intros _ k Hk. apply Htr; [lia|]. apply Hdel. lia.
Qed.

(** ** The calls *)

Lemma covers_split l p off n m : 0 <= m <= n → covers l p off n ↔ covers l p off m ∧ covers l p (off + m) (n - m).
Proof.
  intros Hm. split.
  - intros H. split; intros x Hx; apply H; lia.
  - intros [H1 H2] x Hx. destruct (Z.lt_ge_cases x (off + m)); [apply H1; lia|apply H2; lia].
Qed.

Lemma transferred_shift aper r dir lo ro m l k : transferred aper r dir (lo + m) (ro + m) l (k - m) → transferred aper r dir lo ro l k.
Proof.
  intros (lp & rp & Hl & Hr & Hcase). exists lp, rp. replace (lo + m + (k - m)) with (lo + k) in Hl by lia.
  replace (ro + m + (k - m)) with (ro + k) in Hr by lia. done.
Qed.

Lemma chunk_loop_registered aper es r un flags dir : (∀ n, ready aper (es n)) → rma_ok aper r → flags_ok flags →
  ∀ fuel n lo len ro log post, (Z.to_nat (len / SCIF_MAX_UNALIGNED_BUF_SIZE) < fuel)%nat → 0 < len < 2 ^ 62 →
  0 <= lo → lo + len < 2 ^ 63 → 0 <= ro → ro + len < 2 ^ 63 →
  ∃ rc log' post', chunk_loop fuel es n r false un lo len ro flags dir log post = Some (rc, r, log ++ log', post ++ post') ∧
    (rc = 0 ↔ covered r dir lo ro len) ∧
    (rc = 0 → ∀ k, 0 <= k < len → transferred aper r dir lo ro (flatten log' ++ flatten post') k).
Proof.
  intros Hready Hr Hf. induction fuel as [|fuel IH]; intros n lo len ro log post Hfuel Hlen Hlo Hlo' Hro Hro'; [lia|]. cbn [chunk_loop].
  change SCIF_MAX_UNALIGNED_BUF_SIZE with 1048576 in *. destruct (un && (1048576 <? len)) eqn:Eun.
  2:{ destruct (copy_registered aper (es n) r lo ro len flags dir true (Hready n) Hr Hf Hlen Hlo Hlo' Hro Hro') as (rc & log' & post' & E & Hrc).
      rewrite E. cbn [mbind option_bind]. by exists rc, log', post'. }
  apply andb_true_iff in Eun as [_ Hbig%Z.ltb_lt].
  destruct (copy_registered aper (es n) r lo ro 1048576 flags dir false (Hready n) Hr Hf) as (rc & log1 & post1 & E & Hrc & Htr); try lia.
  rewrite E. cbn [mbind option_bind]. destruct (Z.eqb_spec rc 0) as [->|Hne]; cbn [negb].
  2:{ exists rc, log1, post1. split; [done|]. split; [|done]. split; [done|]. intros [Hc1 Hc2]. apply Hrc.
      split; [by apply (covers_split _ _ lo len 1048576) in Hc1 as [? _]; [|lia]|by apply (covers_split _ _ ro len 1048576) in Hc2 as [? _]; [|lia]]. }
  rewrite !s64_small by lia.
  destruct (IH (S n) (lo + 1048576) (len - 1048576) (ro + 1048576) (log ++ log1) (post ++ post1)) as (rc & log2 & post2 & E2 & Hrc2 & Htr2); try lia.
  { replace (len / 1048576) with ((len - 1048576) / 1048576 + 1) in Hfuel by divlia. assert (0 <= (len - 1048576) / 1048576) by divlia. lia. }
  exists rc, (log1 ++ log2), (post1 ++ post2). rewrite E2, !app_assoc. split; [done|]. unfold covered in *.
  rewrite (covers_split _ _ lo len 1048576), (covers_split _ _ ro len 1048576) by lia. split; [tauto|].
  intros Hz k Hk. rewrite !flatten_app. destruct (Z.lt_ge_cases k 1048576).
  - eapply transferred_mono; [|apply (Htr eq_refl); lia]. intros p. rewrite !elem_of_app. tauto.
  - eapply transferred_mono, (transferred_shift _ _ _ _ _ 1048576), (Htr2 Hz); [|lia]. intros p. rewrite !elem_of_app. tauto.
Qed.

(** ** Claims *)

(** C12: [scif_readfrom] and [scif_writeto] return, and when nothing a copy needs is
    missing they return 0 exactly when the whole local range and the whole remote range
    are registered with the protection that the direction needs; then every byte has been
    moved between the registered memory at its two offsets, whatever the windows the range
    is made of, the alignment and the flags, with unaligned ranges cut into pieces of the
    size of the temporary buffer.  The endpoint keeps its windows and counts. *)
Theorem scif_readfrom_writeto_deliver aper es r loffset len roffset flags : (∀ n, ready aper (es n)) → rma_ok aper r → flags_ok flags →
  0 < len < 2 ^ 62 → 0 <= loffset → loffset + len < 2 ^ 63 → 0 <= roffset → roffset + len < 2 ^ 63 →
  (∃ rc log post, scif_writeto es r loffset len roffset flags = Some (rc, r, log, post) ∧
    (rc = 0 ↔ covered r SCIF_LOCAL_TO_REMOTE loffset roffset len) ∧
    (rc = 0 → ∀ k, 0 <= k < len → transferred aper r SCIF_LOCAL_TO_REMOTE loffset roffset (flatten log ++ flatten post) k)) ∧
  (∃ rc log post, scif_readfrom es r loffset len roffset flags = Some (rc, r, log, post) ∧
    (rc = 0 ↔ covered r SCIF_REMOTE_TO_LOCAL loffset roffset len) ∧
    (rc = 0 → ∀ k, 0 <= k < len → transferred aper r SCIF_REMOTE_TO_LOCAL loffset roffset (flatten log ++ flatten post) k)).
Proof.
  intros Hready Hr Hf Hlen Hlo Hlo' Hro Hro'. unfold scif_writeto, scif_readfrom, chunks_fuel. split.
  - destruct (chunk_loop_registered aper es r (scif_unaligned loffset roffset) flags SCIF_LOCAL_TO_REMOTE Hready Hr Hf
      (S (Z.to_nat (len / SCIF_MAX_UNALIGNED_BUF_SIZE))) 0 loffset len roffset [] []) as (rc & log & post & H); [lia..|]. by exists rc, log, post.
  - destruct (chunk_loop_registered aper es r (scif_unaligned loffset roffset) flags SCIF_REMOTE_TO_LOCAL Hready Hr Hf
      (S (Z.to_nat (len / SCIF_MAX_UNALIGNED_BUF_SIZE))) 0 loffset len roffset [] []) as (rc & log & post & H); [lia..|]. by exists rc, log, post.
Qed.

Definition demo_env (i : nat) (limit : Z) (ok : nat → bool) (drain : Z) : env :=
  Env ScifEpd.SCIFEP_CONNECTED true false true true ok None false true 0 drain (fun _ => true) limit 7 true 0
    (fun _ n write => inl (replicate (Z.to_nat n) (Page 0x800000 0x9000000))) true 
    (fun n => if Z.of_nat i * 2 ^ 20 + n <? 2 ^ 40 then inl (0x100 + Z.of_nat i * 2 ^ 20) else inr (- ENOMEM))
    (Some (77 + Z.of_nat i)) None (fun a _ => inl a).

Definition demo_rma : scif_endpt_rma_info :=
  Rma [demo_self] [demo_peer [0x500000] [2]] 0 0 0 [] 0 [] [] [] 0 [].

Lemma demo_ready i limit ok : (∀ n, ok n = true) → ready None (demo_env i limit ok 0).
Proof. done. Qed.

Lemma demo_rma_ok : rma_ok None demo_rma.
Proof.
  destruct demo_windows_ok as [H1 H2].
  assert (∀ d, window_ok d → list_ok None [d]) as Hl.
  { intros d Hd. split; [split| | |].
    - apply Forall_singleton, Hd.
    - constructor; constructor.
    - by apply Forall_singleton.
    - by apply Forall_singleton.
    - apply NoDup_singleton. }
  split; [by apply Hl|by apply Hl|by repeat constructor|by repeat constructor].
Qed.

Lemma scif_readfrom_writeto_deliver_witness : ∃ log post,
  scif_writeto (fun n => demo_env n 0x20000 (fun _ => true) 0) demo_rma 0x10ff0 100 0x20008 0 = Some (0, demo_rma, log, post) ∧
  transferred None demo_rma SCIF_LOCAL_TO_REMOTE 0x10ff0 0x20008 (flatten log ++ flatten post) 99.
Proof.
  destruct (scif_readfrom_writeto_deliver None (fun n => demo_env n 0x20000 (fun _ => true) 0) demo_rma 0x10ff0 100 0x20008 0
    (fun n => demo_ready n _ _ (fun _ => eq_refl)) demo_rma_ok (or_introl eq_refl) ltac:(lia) ltac:(lia) ltac:(lia) ltac:(lia) ltac:(lia))
    as [(rc & log & post & E & _ & Htr) _].
  assert (rc = 0) as Hrc by (vm_compute in E; by injection E as <- _ _). subst rc.
  exists log, post. split; [exact E|]. apply Htr; [reflexivity|lia].
Defined.

End ScifRmaInv.
