(* ===== verification/ScifRmaTemp.v ===== *)
(** * Transfers of memory of the caller

    [scif_vreadfrom] and [scif_vwriteto] without the cache: the temporary windows made for
    the caller's memory translate it, the bytes arrive, and whatever fails nothing is held
    when the queued windows have been destroyed.  With the cache: windows that are never
    released. *)
From S2P Require Import Prelude Endpoint RmaList DmaWindow ScifDma ScifDmaInv ScifDmaTemp ScifRma ScifRmaInv.
Local Open Scope Z_scope.

Module ScifRmaTemp.
Import RmaList DmaWindow ScifDma ScifDmaInv ScifDmaTemp ScifRma ScifRmaInv.

Lemma filter_id {A} (P : A → Prop) `{∀ x, Decision (P x)} (l : list A) : (∀ x, x ∈ l → P x) → filter P l = l.
Proof.
  induction l as [|x l IH]; intros H'; [done|]. rewrite filter_cons_True by (apply H'; by apply elem_of_cons; left).
  rewrite IH; [done|]. intros y Hy. apply H'. apply elem_of_cons. by right.
Qed.

Lemma page_mask_eq x : 0 <= x < 2 ^ 64 → page_mask x = x - x mod 4096.
Proof.
  intros Hx. unfold page_mask. change (u64 (Z.lnot (PAGE_SIZE - 1))) with (Z.shiftl (Z.ones 52) 12). rewrite land_field by lia.
  change (2 ^ 12) with 4096. rewrite Z.mod_small by divlia. divlia.
Qed.

Lemma page_align_eq x : 0 <= x → x + 4095 < 2 ^ 64 → page_align x = (x + 4095) / 4096 * 4096.
Proof.
  intros Hx Hb. unfold page_align. change (PAGE_SIZE - 1) with 4095. rewrite (wrap_small 64 (x + 4095)) by (unfold in_width; lia).
  change (u64 (Z.lnot 4095)) with (Z.shiftl (Z.ones 52) 12). rewrite land_field by lia. change (2 ^ 12) with 4096. rewrite Z.mod_small by divlia. done.
Qed.

(** ** Pinning *)

(** Linux pins at most the pages it was asked for. *)
Definition gup_ok (gup : bool → list page + Z) (n : Z) : Prop :=
  ∀ write, match gup write with inl ps => zlen ps <= n | inr err => err < 0 end.

(** Every page that was pinned is either handed over or released, and the pages handed
    over are those of the whole range. *)
Lemma pin_pages_outcome gup kernel mem tracked addr len prot map_flags : 0 <= len < 2 ^ 43 → gup_ok gup (len / 4096) →
  (isset map_flags SCIF_MAP_KERNEL = true → zlen kernel = len / 4096) →
  let res := __scif_pin_pages gup kernel mem tracked addr len prot map_flags in
  (pr_rc res ≠ 0 → pr_pages res = []) ∧
  (pr_rc res = 0 → zlen (pr_pages res) = len / 4096 ∧ (pr_pages res = kernel ∨ ∃ write, gup write = inl (pr_pages res))) ∧
  (isset map_flags SCIF_MAP_KERNEL = false → pr_got res ≡ₚ pr_put res ++ pr_pages res).
Proof.
  intros Hlen Hg Hk. unfold __scif_pin_pages, pin_error.
  destruct (negb (Z.land map_flags _ =? 0)); [done|]. destruct (negb (Z.land prot _ =? 0)); [done|].
  destruct (_ || _); [done|]. unfold PAGE_SHIFT. rewrite Z.shiftr_div_pow2 by lia. change (2 ^ 12) with 4096. rewrite s32_small by divlia.
  destruct (negb mem); [done|]. destruct (isset map_flags _); [split; [done|]; split; [intros _; split; [by apply Hk|by left]|done]|].
  destruct (Z.eqb_spec (default 0 tracked) 0); cbn [negb]; [|done].
  set (write := isset _ SCIF_PROT_WRITE). specialize (Hg write). set (first := if _ && _ then _ else _).
  destruct (gup write) as [ps|err] eqn:E.
  - destruct (Z.ltb_spec (zlen ps) (len / 4096)).
    + split; [done|]. split; [done|]. intros _. cbn [pr_got pr_put pr_pages]. by rewrite !app_nil_r.
    + split; [done|]. split; [|done]. intros _. cbn [pr_pages]. split; [lia|]. right. by exists write.
  - destruct (Z.ltb_spec err (len / 4096)); [|assert (0 <= len / 4096) by divlia; lia].
    split; [done|]. split; [done|]. intros _. cbn [pr_got pr_put pr_pages]. by rewrite !app_nil_r.
Qed.

(** ** A temporary window *)

(** What the calls rely on: pages pinned are pages of memory, offsets handed out are free
    ranges of the endpoint's space, the device maps ranges by a translation [tr], and there
    is no IOMMU. *)
Record user_env (tr : Z → Z) (e : env) : Prop := {
  ue_gup : ∀ a n, 0 <= n → gup_ok (e_gup e a n) n;
  ue_pages : ∀ a n write ps, e_gup e a n write = inl ps → Forall page_ok (p_phys <$> ps);
  ue_iova : ∀ n, match e_iova e n with inl pfn => 0 <= pfn ∧ (pfn + n) * 4096 < 2 ^ 63 | inr err => err ≠ 0 end;
  ue_iommu : e_iommu e = None;
  ue_map : maps_by (e_map_single e) tr;
  ue_drained : e_drained e <= 0;
}.

(** The windows of an endpoint on any list, and what a new window must not share. *)
Definition lists_of (r : scif_endpt_rma_info) : list dma_window := rma r ++ rma_tc r ++ concat (tc_reg_list <$> mmn_list r).
Record fresh (e : env) (r : scif_endpt_rma_info) : Prop := {
  fr_iova : ∀ n pfn, e_iova e n = inl pfn → pfn * 4096 ∉ offsets r;
  fr_window : ∀ a, e_window e = Some a → a ∉ addr_of <$> lists_of r;
}.

(** Byte [k] of the pages of [n] pages from [start] on, for the CPU or for the device. *)
Definition caller_byte (tr : Z → Z) (e : env) (start n k : Z) (p : place) : Prop :=
  ∃ write ps pg, e_gup e start n write = inl ps ∧ zlen ps = n ∧ ps !! Z.to_nat (k / 4096) = Some pg ∧
    (p = AtVa (p_va pg + k mod 4096) ∨
     p = AtDma (if e_mgmt e then tr (p_phys pg + k mod 4096) else p_phys pg + k mod 4096)).

Definition temp_window (aper : option Z) (tr : Z → Z) (e : env) (start n : Z) (d : dma_window) : Prop :=
  window_ok d ∧ w_type d = SCIF_WINDOW_SELF ∧ nr_pages (win d) = n ∧ va_for_temp (win d) = start ∧
  ∀ k p, 0 <= k < n * 4096 → byte_at aper [d] (w_offset d + k) p → caller_byte tr e start n k p.

Lemma destroy_window_eq d r : scif_destroy_window d r =
  set_res (filter (fun o => o ≠ w_offset d) (offsets r)) (pins r - nr_pages (win d)) (freed r ++ [addr_of d]) r.
Proof. done. Qed.

Lemma destroy_new off n fr r d : off ∉ offsets r → w_offset d = off → nr_pages (win d) = n →
  scif_destroy_window d (set_res (off :: offsets r) (pins r + n) fr r) = set_res (offsets r) (pins r) (fr ++ [addr_of d]) r.
Proof.
  intros Hoff <- <-. rewrite destroy_window_eq. unfold set_res.
  cbn [offsets pins freed tw_refcount tcw_refcount tcw_total_pages mmn_list fence_refcount rma rma_tc reg_list remote_reg_list].
  rewrite filter_cons_False by (intros H; by apply H).
  rewrite filter_id; [f_equal; lia|]. intros o Ho ->. done.
Qed.

(** What the error paths of [scif_register_temp] give back. *)
Lemma unpin_new n fr r : scif_unpin_pages 1 n (set_res (offsets r) (pins r + n) fr r) = set_res (offsets r) (pins r) fr r.
Proof. unfold scif_unpin_pages, scif_destroy_pinned_pages, set_res. cbn. f_equal. lia. Qed.

Lemma free_offset_new off n fr r : off ∉ offsets r →
  scif_free_window_offset off (set_res (off :: offsets r) n fr r) = set_res (offsets r) n fr r.
Proof.
  intros Hoff. unfold scif_free_window_offset, set_res. cbn [offsets pins freed]. rewrite filter_cons_False by (intros H; by apply H).
  rewrite filter_id; [done|]. intros o Ho ->. done.
Qed.

Lemma map_window_spec tr e d pages : user_env tr e → Forall page_ok (p_phys <$> pages) → fresh_window d (zlen pages) →
  page_va d = p_va <$> pages → w_type d = SCIF_WINDOW_SELF →
  ∃ err d', map_window e pages d = Some (err, d') ∧ win d' = win d ∧
    (err = 0 → window_ok d' ∧ w_type d' = SCIF_WINDOW_SELF ∧
      ∀ aper k p, 0 <= k < zlen pages * 4096 → byte_at aper [d'] (w_offset d' + k) p →
      ∃ pg, pages !! Z.to_nat (k / 4096) = Some pg ∧ (p = AtVa (p_va pg + k mod 4096) ∨
        p = AtDma (if e_mgmt e then tr (p_phys pg + k mod 4096) else p_phys pg + k mod 4096))).
Proof.
  intros [_ _ _ Hio Hmap _] Hpages Hw Hva Hty. unfold map_window, scif_map_window. rewrite Hio.
  assert (maps_by (fun phys _ => inl phys) id) as Hid by (intros ph len ???; done).
  destruct (map_loop_spec (if e_mgmt e then e_map_single e else fun phys _ => inl phys) (if e_mgmt e then tr else id)
    ltac:(by destruct (e_mgmt e)) (S (length (p_phys <$> pages))) (p_phys <$> pages) ltac:(lia) Hpages) as (err & das & ns & E & Hl & Hcase).
  rewrite E. cbn [mbind option_bind]. eexists err, _. split; [done|]. split; [done|]. intros ->.
  destruct Hcase as [[? _]|(_ & Hcs & Hpg & Htr)]; [done|]. unfold zlen in Hpg at 1. rewrite length_fmap in Hpg. fold (zlen pages) in Hpg.
  rewrite <- Hpg in Hw.
  destruct (with_chunks_ok d das ns Hl Hcs Hw) as [Hok Echunks]. split; [done|]. split; [done|]. intros aper k p Hk Hp.
  set (d' := with_chunks d das ns) in *. change (w_offset d') with (w_offset d) in *.
  assert (w_end d' = w_offset d + zlen pages * 4096) as He by (rewrite (w_end_eq _ Hok); change (w_offset d') with (w_offset d); destruct Hw as (_ & _ & Hn & _); cbn [win with_chunks d']; lia).
  destruct (lookup_lt_is_Some_2 pages (Z.to_nat (k / 4096))) as [pg Hpg2]. { unfold zlen in Hk. divlia. }
  exists pg. split; [done|]. pose proof Hw as (_ & [q Hq] & _ & _). unfold byte_at in Hp. cbn [at_off] in Hp.
  rewrite !(proj2 (Z.ltb_lt (w_offset d + k) (w_end d'))) in Hp by lia. destruct Hp as [-> | ->].
  - right. unfold dma_place, dma_byte. f_equal. rewrite Echunks. change (w_offset d') with (w_offset d).
    replace (w_offset d + k - w_offset d) with (Z.of_nat (Z.to_nat (k / 4096)) * 4096 + k mod 4096) by divlia.
    rewrite (Htr _ (p_phys pg)); [by destruct (e_mgmt e)|by rewrite list_lookup_fmap, Hpg2|divlia].
  - left. unfold cpu_place. rewrite bool_decide_true by done. change (page_va d') with (page_va d). change (w_offset d') with (w_offset d).
    rewrite Hva. replace (w_offset d + k - w_offset d) with k by lia. rewrite list_lookup_fmap, Hpg2. cbn [fmap option_fmap option_map default].
    unfold default, id. f_equal. f_equal. rewrite Hq. divlia.
Qed.

Lemma register_temp_ok aper tr e r start n prot : user_env tr e → (∀ n pfn, e_iova e n = inl pfn → pfn * 4096 ∉ offsets r) → 0 <= start < 2 ^ 64 → start mod 4096 = 0 → 0 < n < 2 ^ 31 →
  (∃ err r', scif_register_temp e r start (n * 4096) prot = Some (inl err, r') ∧ err ≠ 0 ∧ ∃ fr, r' = set_res (offsets r) (pins r) fr r) ∨
  (∃ d, scif_register_temp e r start (n * 4096) prot = Some (inr d, set_res (w_offset d :: offsets r) (pins r + n) (freed r) r) ∧
    temp_window aper tr e start n d ∧ (∃ pfn, e_iova e n = inl pfn ∧ w_offset d = pfn * 4096) ∧ e_window e = Some (addr_of d)).
Proof.
  intros Hue Hfi Hs Hs0 Hn. pose proof Hue as [Hgup Hpages Hiova _ _ _]. unfold scif_register_temp.
  rewrite page_align_eq by lia. replace ((n * 4096 + 4095) / 4096 * 4096) with (n * 4096) by divlia.
  unfold PAGE_SHIFT. rewrite Z.shiftr_div_pow2 by lia. change (2 ^ 12) with 4096. rewrite Z.div_mul by lia.
  rewrite page_mask_eq, Hs0, Z.sub_0_r by lia.
  pose proof (pin_pages_outcome (e_gup e start n) [] (e_pin_mem e) None start (n * 4096) prot 0 ltac:(lia)) as Hpin.
  rewrite Z.div_mul in Hpin by lia. specialize (Hpin (Hgup start n ltac:(lia)) ltac:(done)). cbv zeta in Hpin. revert Hpin.
  set (pin := __scif_pin_pages _ _ _ _ _ _ _ _). intros (Hnone & Hpin & Hgot%(λ H, H eq_refl)).
  assert (pins r + zlen (pr_got pin) - zlen (pr_put pin) = pins r + zlen (pr_pages pin)) as ->.
  { unfold zlen. rewrite Hgot, length_app. lia. }
  destruct (Z.eqb_spec (pr_rc pin) 0) as [Hrc|Hrc]; cbn [negb].
  2:{ left. eexists _, _. split; [done|]. split; [done|]. exists (freed r). rewrite (Hnone Hrc). change (zlen (@nil page)) with 0. by rewrite Z.add_0_r. }
  destruct (Hpin Hrc) as [Hlen Hfrom]. specialize (Hiova n). unfold scif_get_window_offset. destruct (e_iova e n) as [pfn|err] eqn:Eio.
  2:{ left. eexists _, _. split; [done|]. split; [done|]. exists (freed r). rewrite <- (unpin_new (zlen (pr_pages pin))). reflexivity. }
  specialize (Hfi n pfn Eio). unfold PAGE_SHIFT. rewrite Z.shiftl_mul_pow2 by lia. change (2 ^ 12) with 4096.
  destruct (e_window e) as [a|] eqn:Ea.
  2:{ left. eexists _, _. split; [done|]. split; [done|]. exists (freed r).
      pose proof (unpin_new (zlen (pr_pages pin)) (freed r) r) as Eu. by rewrite <- (free_offset_new (pfn * 4096)) in Eu. }
  destruct Hfrom as [Hnil|[write Hw]]; [rewrite Hnil in Hlen; change (zlen (@nil page)) with 0 in Hlen; lia|].
  set (d := scif_create_window a (zlen (pr_pages pin)) (pfn * 4096) (pr_prot pin) start (pr_pages pin)).
  destruct (map_window_spec tr e d (pr_pages pin) Hue (Hpages _ _ _ _ Hw)) as (err & d' & E & Ewin & Hok).
  { unfold fresh_window, reg_ok, w_offset. cbn [d scif_create_window win offset nr_pages]. split_and!; [lia|lia|lia|by exists pfn|done|lia]. }
  { done. } { done. }
  rewrite E. cbn [mbind option_bind]. rewrite Hlen. destruct (Z.eqb_spec err 0) as [->|Herr]; cbn [negb].
  - right. destruct (Hok eq_refl) as (Hok1 & Hok2 & Hok3). exists d'. assert (w_offset d' = pfn * 4096) as Eo by (unfold w_offset; by rewrite Ewin).
    split; [by rewrite Eo|]. split; [|split; [by exists pfn|unfold addr_of; by rewrite Ewin]].
    split; [done|]. split; [done|]. rewrite Ewin. split; [done|]. split; [done|]. intros k p Hk Hp.
    destruct (Hok3 aper k p ltac:(lia) Hp) as (pg & Hpg & Hcase). by exists write, (pr_pages pin), pg.
  - left. eexists _, _. split; [done|]. split; [done|]. exists (freed r ++ [addr_of d']).
    rewrite <- (destroy_new (pfn * 4096) n); [done|done|unfold w_offset; by rewrite Ewin|].
    rewrite Ewin. cbn. exact Hlen.
Qed.

(** ** One copy *)

(** What an endpoint holds for temporary windows is what is queued for destruction, over
    the offsets [offs] and the page references [p] that it holds otherwise. *)
Record balanced (offs : list Z) (p : Z) (r : scif_endpt_rma_info) : Prop := {
  bal_tw : tw_refcount r = zlen (rma r);
  bal_offs : offsets r ≡ₚ (w_offset <$> rma r) ++ offs;
  bal_nodup : NoDup (offsets r);
  bal_pins : pins r = foldr (fun d acc => nr_pages (win d) + acc) 0 (rma r) + p;
  bal_self : Forall (fun d => w_type d = SCIF_WINDOW_SELF) (rma r);
}.

(** The endpoint after a call that met [e]. *)
Record grows (e : env) (r r' : scif_endpt_rma_info) : Prop := {
  gr_reg : reg_list r' = reg_list r;
  gr_remote : remote_reg_list r' = remote_reg_list r;
  gr_offs : ∀ o, o ∈ offsets r' → o ∈ offsets r ∨ ∃ n pfn, e_iova e n = inl pfn ∧ o = pfn * 4096;
  gr_addr : ∀ a, a ∈ addr_of <$> lists_of r' → a ∈ addr_of <$> lists_of r ∨ e_window e = Some a;
}.

Lemma grows_same e r fr : grows e r (set_res (offsets r) (pins r) fr r).
Proof. split; [done|done|by left|by left]. Qed.

Lemma balanced_same offs p r fr : balanced offs p r → balanced offs p (set_res (offsets r) (pins r) fr r).
Proof. by intros []. Qed.

Lemma without_id a l : a ∉ addr_of <$> l → without a l = l.
Proof. intros H. apply filter_id. intros d Hd E. apply H, list_elem_of_fmap. by exists d. Qed.

Lemma queue_new d r : addr_of d ∉ addr_of <$> lists_of r →
  scif_queue_for_cleanup d r = set_queues (rma r ++ [d]) (rma_tc r) r.
Proof.
  unfold lists_of. rewrite !fmap_app, !elem_of_app. intros H. unfold scif_queue_for_cleanup, list_del_init.
  assert (∀ l, addr_of d ∉ addr_of <$> concat (tc_reg_list <$> l) →
    (fun m => Mmn (mm m) (without (addr_of d) (tc_reg_list m))) <$> l = l) as Hm.
  { induction l as [|[m tc] l IH]; [done|]. rewrite fmap_cons. cbn [concat tc_reg_list]. rewrite fmap_app, elem_of_app. intros Hn.
    rewrite fmap_cons, IH by tauto. cbn [mm tc_reg_list]. rewrite without_id by tauto. done. }
  rewrite Hm by tauto. rewrite !without_id by tauto. done.
Qed.

Lemma queue_temp offs p e r d n : balanced offs p r → fresh e r → (∃ m pfn, e_iova e m = inl pfn ∧ w_offset d = pfn * 4096) →
  e_window e = Some (addr_of d) → w_type d = SCIF_WINDOW_SELF → nr_pages (win d) = n →
  let r' := queued true d (set_res (w_offset d :: offsets r) (pins r + n) (freed r) r) in balanced offs p r' ∧ grows e r r'.
Proof.
  intros [B1 B2 B3 B4 B5] [F1 F2] (m & pfn & Eo & Hoff) Ha Hty Hn. cbv zeta. unfold queued. specialize (F2 _ Ha). rewrite queue_new by exact F2.
  split; (split; cbn [tw_refcount rma set_queues add_tw set_res offsets pins reg_list remote_reg_list]).
  - rewrite B1. unfold zlen. rewrite length_app. cbn. lia.
  - rewrite fmap_app, B2, <- app_assoc. change ((w_offset <$> [d]) ++ offs) with (w_offset d :: offs). by rewrite Permutation_middle.
  - constructor; [|done]. rewrite Hoff. by eapply F1.
  - rewrite B4, foldr_app. cbn [foldr]. assert (∀ l x, foldr (fun d acc => nr_pages (win d) + acc) x l = foldr (fun d acc => nr_pages (win d) + acc) 0 l + x) as Hf.
    { induction l as [|y l IH]; intros x; cbn; [lia|]. rewrite IH. lia. }
    rewrite (Hf _ (_ + 0)). lia.
  - apply Forall_app. split; [done|]. by apply Forall_singleton.
  - done.
  - done.
  - intros o Ho. apply elem_of_cons in Ho as [->|Ho]; [right; by exists m, pfn|by left].
  - intros a. unfold lists_of. cbn [rma rma_tc mmn_list set_queues add_tw set_res]. rewrite <- !app_assoc, !fmap_app, !elem_of_app.
    intros [H|[H|H]]; [tauto| |tauto]. cbn in H. apply list_elem_of_singleton in H as ->. by right.
Qed.

Definition remote_ok (aper : option Z) (r : scif_endpt_rma_info) : Prop := list_ok aper (remote_reg_list r) ∧ peers (remote_reg_list r).

(** The pages that hold [len] bytes from [addr] on. *)
Definition page_start (addr : Z) : Z := addr - addr mod 4096.
Definition page_count (addr len : Z) : Z := (addr mod 4096 + len + 4095) / 4096.

(** Byte [k] goes from the caller's memory at [addr] to the remote window or back. *)
Definition user_transferred (tr : Z → Z) (e : env) (ws : list dma_window) (dir : scif_rma_dir) (addr roffset len : Z)
    (l : list (place * place)) (k : Z) : Prop :=
  ∃ lp rp, caller_byte tr e (page_start addr) (page_count addr len) (addr mod 4096 + k) lp ∧ byte_at (e_aper e) ws (roffset + k) rp ∧
    let sp := if to_remote dir then lp else rp in let dp := if to_remote dir then rp else lp in
    (sp, dp) ∈ l ∨ ∃ x, (sp, AtTemp x) ∈ l ∧ (AtTemp x, dp) ∈ l.

Lemma holds_temp aper tr e start n d off len : temp_window aper tr e start n d → 0 <= off → 0 < len → off + len <= n * 4096 →
  holds aper [d] (w_offset d + off) len.
Proof.
  intros (Hok & Hty & Hn & _) Ho Hl Hb. pose proof (w_end_eq d Hok) as He. rewrite Hn in He. split; [|split].
  - split; [done|]. split; [lia|left; lia].
  - apply Forall_singleton. unfold aper_ok. by destruct aper; [intros|].
  - lia.
Qed.

Lemma work_user tr e r dir addr roffset len d v x xs lb ord : temp_window (e_aper e) tr e (page_start addr) (page_count addr len) d →
  remote_ok (e_aper e) r → tail_from v (remote_reg_list r) = x :: xs → holds (e_aper e) (x :: xs) roffset len → 0 < len < 2 ^ 62 →
  let loffset := w_offset d + addr mod 4096 in
  let work := if decide (dir = SCIF_LOCAL_TO_REMOTE) then Work [d] loffset (x :: xs) roffset lb len ord
              else Work (x :: xs) roffset [d] loffset lb len ord in
  work_ok (e_aper e) work ∧ types_ok work ∧ cw_len work = len ∧
  ∀ l k, 0 <= k < len → delivered (e_aper e) work l k → user_transferred tr e (remote_reg_list r) dir addr roffset len l k.
Proof.
  intros Ht [Hrem Hpeer] Ex Hx Hlen. pose proof (Z.mod_pos_bound addr 4096 eq_refl) as Hm.
  assert (addr mod 4096 + len <= page_count addr len * 4096) as Hfit by (unfold page_count; divlia).
  pose proof (holds_temp _ _ _ _ _ _ (addr mod 4096) len Ht ltac:(lia) ltac:(lia) Hfit) as Hd. destruct Ht as (_ & Hself & _ & _ & Hbyte).
  pose proof (Forall_tail _ _ _ _ _ Ex Hpeer) as Hpeer'. fold (peers (x :: xs)) in Hpeer'.
  assert (∀ p k, 0 <= k < len → byte_at (e_aper e) [d] (w_offset d + addr mod 4096 + k) p →
    caller_byte tr e (page_start addr) (page_count addr len) (addr mod 4096 + k) p) as Bl.
  { intros p k Hk Hp. apply Hbyte; [lia|]. by rewrite Z.add_assoc. }
  assert (∀ p k, 0 <= k → byte_at (e_aper e) (x :: xs) (roffset + k) p → byte_at (e_aper e) (remote_reg_list r) (roffset + k) p) as Br.
  { intros p k Hk. destruct Hx as [(_ & Hb & _) _]. unfold byte_at. by rewrite !(at_off_tail (e_aper e) _ (remote_reg_list r) v x xs) by (done || lia). }
  unfold user_transferred, to_remote, delivered. cbv zeta. destruct (decide (dir = SCIF_LOCAL_TO_REMOTE)) as [Hdir|Hdir].
  - rewrite bool_decide_true by done. split_and!; [by split; cbn; [lia|..]| |done|].
    + intros _. unfold self_src. cbn [src_wins dst_wins]. rewrite bool_decide_true by done. split; [by apply Forall_singleton|done].
    + intros l k Hk (sp & dp & Hs & Hp & Hcase). exists sp, dp. split_and!; [by apply Bl|by apply Br; [lia|]|].
      destruct Hcase as [|(y & _ & ?)]; [by left|right; by exists y].
  - rewrite bool_decide_false by done. split_and!; [by split; cbn; [lia|..]| |done|].
    + intros _. unfold self_src. cbn [src_wins dst_wins]. inversion Hpeer'; subst. rewrite bool_decide_false by done. split; [done|by apply Forall_singleton].
    + intros l k Hk (sp & dp & Hs & Hp & Hcase). exists dp, sp. split_and!; [by apply Bl|by apply Br; [lia|]|].
      destruct Hcase as [|(y & _ & ?)]; [by left|right; by exists y].
Qed.

(** A copy of memory of the caller without the cache: it returns, what it holds is
    balanced, and with all resources and result 0 it has moved every byte. *)
Lemma copy_user tr e r lo addr len roffset flags dir last_chunk offs p : user_env tr e → fresh e r → remote_ok (e_aper e) r →
  balanced offs p r → isset flags SCIF_RMA_USECACHE = false → 0 < len < 2 ^ 42 → 0 < addr → addr + len < 2 ^ 63 →
  0 <= roffset → roffset + len < 2 ^ 63 →
  ∃ rc r' log post, scif_rma_copy e r lo addr len roffset flags dir last_chunk = Some (rc, r', log, post) ∧
    balanced offs p r' ∧ grows e r r' ∧
    (ready (e_aper e) e → rc = 0 → ∀ k, 0 <= k < len →
      user_transferred tr e (remote_reg_list r) dir addr roffset len (flatten log ++ flatten post) k).
Proof.
  intros Hue Hfr Hrem Hbal Hnc Hlen Haddr Hab Hro Hrob. pose proof Hrem as [Hlrem _].
  assert (Hstay : ∀ rc, rc ≠ 0 → ∃ rc' r' log post, Some (rc, r, [], []) = Some (rc', r', log, post) ∧ balanced offs p r' ∧ grows e r r' ∧
    (ready (e_aper e) e → rc' = 0 → ∀ k, 0 <= k < len →
      user_transferred tr e (remote_reg_list r) dir addr roffset len (flatten log ++ flatten post) k)).
  { intros rc Hrc. exists rc, r, [], []. split_and!; [done|done|split; [done|done|by left|by left]|done]. }
  unfold scif_rma_copy. destruct (Z.eqb_spec (scif_verify_epd e) 0) as [Hv|Hv]; cbn [negb]; [|by apply Hstay].
  destruct (negb (flags =? 0) && _); [by apply Hstay|].
  destruct (if e_loopback e && e_mgmt e then _ else _) as [flags' fence] eqn:Efl.
  assert (scif_is_usecache_set flags' = false) as ->.
  { unfold scif_is_usecache_set, isset in *. destruct (_ && _); injection Efl as <- _; [|done].
    rewrite Z.land_lor_distr_l. change (Z.land SCIF_RMA_USECPU SCIF_RMA_USECACHE) with 0. by rewrite Z.lor_0_r. }
  destruct (negb (e_peer e)); [by apply Hstay|]. rewrite (proj2 (Z.eqb_neq addr 0)) by lia. cbn [negb andb].
  unfold local_temp. cbn [t_out t_req r_start nr_bytes].
  pose proof (Z.mod_pos_bound addr 4096 eq_refl) as Hm. change (PAGE_SIZE - 1) with (2 ^ 12 - 1). rewrite land_pow2_mask by lia. change (2 ^ 12) with 4096.
  rewrite (wrap_small 64 (len + addr mod 4096)) by (unfold in_width; lia). rewrite page_align_eq, page_mask_eq by lia.
  replace ((len + addr mod 4096 + 4095) / 4096) with (page_count addr len) by (unfold page_count; f_equal; lia). fold (page_start addr).
  set (prot := if decide (dir = SCIF_LOCAL_TO_REMOTE) then VM_READ else Z.lor VM_WRITE VM_READ).
  destruct (register_temp_ok (e_aper e) tr e r (page_start addr) (page_count addr len) prot Hue (fr_iova _ _ Hfr)) as
    [(err & r1 & E & Herr & fr & ->)|(d & E & Ht & Hiova & Hwin)].
  { unfold page_start. divlia. } { unfold page_start. divlia. } { unfold page_count. divlia. }
  { rewrite E. cbn [mbind option_bind]. exists err, (set_res (offsets r) (pins r) fr r), [], []. split_and!; [done|by apply balanced_same|apply grows_same|done]. }
  rewrite E. cbn [mbind option_bind negb]. set (r1 := set_res _ _ _ r).
  pose proof Ht as (Hok & Hself & Hn & Hva & _). rewrite Hva. destruct (ok_reg _ Hok) as (R1 & R2 & R3). rewrite Hn in R3.
  assert (s64 (offset (win d) + (addr - page_start addr)) = w_offset d + addr mod 4096) as ->.
  { unfold page_start, w_offset. rewrite s64_small; unfold page_count in *; divlia. }
  change (remote_reg_list r1) with (remote_reg_list r). change (if decide (dir = SCIF_LOCAL_TO_REMOTE) then VM_WRITE else VM_READ) with
    (if decide (dir = SCIF_LOCAL_TO_REMOTE) then VM_WRITE else VM_READ).
  set (rreq := Req roffset len _ SCIF_WINDOW_PARTIAL).
  destruct (query_covers rreq (win <$> remote_reg_list r) (lo_reg _ _ Hlrem) Hro ltac:(cbn; lia) Hrob eq_refl) as [[Hc (v & Eq)]|[Hnc' (rc & out & Eq & Hne)]].
  2:{ exists rc, (scif_destroy_window d r1), [], []. rewrite Eq. split; [by destruct rc|]. unfold r1.
      destruct Hiova as (pfn & Eio & Hoff). rewrite (destroy_new (w_offset d)); [|rewrite Hoff; by eapply fr_iova|done|done].
      split_and!; [by apply balanced_same|apply grows_same|done]. }
  rewrite Eq. destruct (query_finds (e_aper e) rreq _ v Hlrem Hro ltac:(cbn; lia) Hrob Eq) as (x & xs & Ex & Ev & Hx). rewrite Ex.
  destruct (work_user tr e r dir addr roffset len d _ x xs (e_loopback e) (isset flags SCIF_RMA_ORDERED && last_chunk) Ht Hrem Ex Hx ltac:(lia))
    as (Hwork & Hty & Hcw & Htr). revert Hwork Hty Hcw Htr. cbv zeta. set (work := if decide _ then Work _ _ _ _ _ _ _ else _).
  intros Hwork Hty Hcw Htr. destruct Hue as [_ _ _ _ _ Hdr].
  destruct (copy_and_fence_returns e r1 flags' fence true last_chunk d work Hwork Hty Hdr ltac:(lia)) as (err & log & post & Ec & Hdel).
  exists err, (queued true d r1), log, post. split; [exact Ec|].
  destruct (queue_temp offs p e r d (page_count addr len) Hbal Hfr) as [Hb Hg]; [destruct Hiova as (pfn & ?); by exists (page_count addr len), pfn|done|done|done|].
  split_and!; [done|done|]. intros Hready Herr k Hk. apply Htr; [done|]. apply Hdel; [done|lia].
Qed.

(** ** The calls *)

(** What the copies of one call meet: offsets and windows handed out to different copies
    are different, and new to the endpoint. *)
Record user_envs (tr : Z → Z) (aper : option Z) (es : nat → env) : Prop := {
  us_env : ∀ n, user_env tr (es n);
  us_aper : ∀ n, e_aper (es n) = aper;
  us_iova : ∀ n m j k pfn, n ≠ m → e_iova (es n) j = inl pfn → e_iova (es m) k ≠ inl pfn;
  us_window : ∀ n m a, n ≠ m → e_window (es n) = Some a → e_window (es m) ≠ Some a;
}.

Lemma fresh_grows tr aper es n m r r' : user_envs tr aper es → n ≠ m → grows (es n) r r' → fresh (es m) r → fresh (es m) r'.
Proof.
  intros [_ _ Hi Hw] Hne [_ _ Go Ga] [F1 F2]. split.
  - intros k pfn E Hin. apply Go in Hin as [Hin|(j & pfn' & E' & Heq)]; [by eapply F1|].
    assert (pfn' = pfn) as -> by lia. by eapply (Hi n m).
  - intros a E Hin. apply Ga in Hin as [Hin|E']; [by eapply F2|]. by eapply (Hw n m).
Qed.

(** Byte [k] of a call is moved by one of its copies. *)
Definition vtransferred (tr : Z → Z) (es : nat → env) (ws : list dma_window) (dir : scif_rma_dir) (addr roffset len : Z)
    (l : list (place * place)) (k : Z) : Prop :=
  ∃ n off len', 0 <= off ∧ off <= k < off + len' ∧ off + len' <= len ∧
    user_transferred tr (es n) ws dir (addr + off) (roffset + off) len' l (k - off).

Lemma user_transferred_mono tr e ws dir addr ro len l l' k : (∀ p, p ∈ l → p ∈ l') → user_transferred tr e ws dir addr ro len l k →
  user_transferred tr e ws dir addr ro len l' k.
Proof. intros Hin (lp & rp & Hl & Hr & Hcase). exists lp, rp. split_and!; [done..|]. destruct Hcase as [H|(x & H1 & H2)]; [by left; auto|right; exists x; auto]. Qed.

Lemma chunk_loop_user tr aper es un flags dir offs p ws : user_envs tr aper es → isset flags SCIF_RMA_USECACHE = false →
  ∀ fuel n r addr len ro log post, (Z.to_nat (len / SCIF_MAX_UNALIGNED_BUF_SIZE) < fuel)%nat →
  (∀ m, (n <= m)%nat → fresh (es m) r) → remote_ok aper r → remote_reg_list r = ws → balanced offs p r →
  0 < len < 2 ^ 42 → 0 < addr → addr + len < 2 ^ 63 → 0 <= ro → ro + len < 2 ^ 63 →
  ∃ rc r' log' post', chunk_loop fuel es n r true un addr len ro flags dir log post = Some (rc, r', log ++ log', post ++ post') ∧
    balanced offs p r' ∧
    ((∀ m, ready aper (es m)) → rc = 0 → ∀ k, 0 <= k < len →
      vtransferred tr es ws dir addr ro len (flatten log' ++ flatten post') k).
Proof.
  intros Hus Hnc. induction fuel as [|fuel IH]; intros n r addr len ro log post Hfuel Hfr Hrem Hws Hbal Hlen Ha Hab Hro Hrob; [lia|].
  cbn [chunk_loop]. change SCIF_MAX_UNALIGNED_BUF_SIZE with 1048576 in *. destruct Hus as [Henv Hap Hi Hw] eqn:Eus. clear Eus.
  destruct (un && (1048576 <? len)) eqn:Eun.
  - apply andb_true_iff in Eun as [_ Hbig%Z.ltb_lt].
    destruct (copy_user tr (es n) r 0 addr 1048576 ro flags dir false offs p (Henv n) (Hfr n ltac:(lia))) as (rc & r1 & log1 & post1 & E & Hb1 & Hg & Htr);
      try lia; try done; [by rewrite Hap|].
    rewrite E. cbn [mbind option_bind]. destruct (Z.eqb_spec rc 0) as [->|Hne]; cbn [negb].
    2:{ exists rc, r1, log1, post1. split_and!; done. }
    rewrite wrap_small, s64_small by (unfold in_width; lia).
    destruct (IH (S n) r1 (addr + 1048576) (len - 1048576) (ro + 1048576) (log ++ log1) (post ++ post1)) as (rc & r2 & log2 & post2 & E2 & Hb2 & Htr2); try lia; try done.
    + replace (len / 1048576) with ((len - 1048576) / 1048576 + 1) in Hfuel by divlia. assert (0 <= (len - 1048576) / 1048576) by divlia. lia.
    + intros m Hm. eapply (fresh_grows tr aper es n m r r1); [done|lia|done|apply Hfr; lia].
    + destruct Hrem. split; by rewrite (gr_remote _ _ _ Hg).
    + by rewrite (gr_remote _ _ _ Hg).
    + exists rc, r2, (log1 ++ log2), (post1 ++ post2). rewrite E2, !app_assoc. split_and!; [done|done|]. intros Hready Hz k Hk. rewrite !flatten_app.
      destruct (Z.lt_ge_cases k 1048576).
      * exists n, 0, 1048576. split_and!; [lia..|]. rewrite !Z.add_0_r, Z.sub_0_r, <- Hws.
        eapply user_transferred_mono; [|apply Htr; [rewrite Hap; apply Hready|done|lia]]. intros q. rewrite !elem_of_app. tauto.
      * destruct (Htr2 Hready Hz (k - 1048576) ltac:(lia)) as (m & off & len' & H1 & H2 & H3 & H4). exists m, (1048576 + off), len'. split_and!; [lia..|].
        replace (addr + (1048576 + off)) with (addr + 1048576 + off) by lia. replace (ro + (1048576 + off)) with (ro + 1048576 + off) by lia.
        replace (k - (1048576 + off)) with (k - 1048576 - off) by lia. eapply user_transferred_mono; [|exact H4]. intros q. rewrite !elem_of_app. tauto.
  - destruct (copy_user tr (es n) r 0 addr len ro flags dir true offs p (Henv n) (Hfr n ltac:(lia))) as (rc & r1 & log1 & post1 & E & Hb1 & Hg & Htr);
      try lia; try done; [by rewrite Hap|].
    rewrite E. cbn [mbind option_bind]. exists rc, r1, log1, post1. split_and!; [done|done|]. intros Hready Hz k Hk. exists n, 0, len. split_and!; [lia..|].
    rewrite !Z.add_0_r, Z.sub_0_r, <- Hws. apply Htr; [rewrite Hap; apply Hready|done|lia].
Qed.

(** Destroying what is queued releases it. *)
Lemma destroy_windows_balanced offs p : ∀ q r, rma r = q → balanced offs p r →
  let r' := destroy_windows (fun _ => true) q r in tw_refcount r' = 0 ∧ rma r' = [] ∧ offsets r' ≡ₚ offs ∧ pins r' = p.
Proof.
  induction q as [|d q IH]; intros r Hq [B1 B2 B3 B4 B5]; rewrite Hq in *; cbn [destroy_windows].
  { cbn in *. rewrite zlen_nil in B1 || change (zlen (@nil dma_window)) with 0 in B1. split_and!; [lia|done|done|lia]. }
  cbv zeta. inversion B5 as [|? ? Hself B5']; subst. rewrite bool_decide_true by done. apply IH; [done|].
  rewrite fmap_cons in B2. cbn [foldr app] in *. rewrite zlen_cons in B1.
  assert (filter (fun o => o ≠ w_offset d) (offsets r) ≡ₚ (w_offset <$> q) ++ offs) as Hf.
  { rewrite B2 in B3 |- *. apply NoDup_cons in B3 as [Hn _]. rewrite filter_cons_False by (intros H; by apply H).
    rewrite filter_id; [done|]. intros o Ho ->. by apply Hn. }
  rewrite destroy_window_eq. split; cbn [tw_refcount rma set_queues add_tw set_res offsets pins]; [lia|done|by apply NoDup_filter|lia|done].
Qed.

(** C14: On a host without an IOMMU ([ue_iommu]; with one, [scif_map_window] would take the
    scatter list of [scif_dma_map] instead), with transfers of less than 2^42 bytes,
    whatever happens in [scif_vreadfrom] and [scif_vwriteto] without the cache - pages that cannot be pinned, no offset, no memory, a mapping that fails, a remote range that
    is not registered, a copy that fails in any of its pieces - the calls return, the
    endpoint holds exactly what it held and the temporary windows queued for destruction,
    each counted once; when the queue has been worked off, the offsets, page references
    and the count are as before the first call, so that the endpoint can go.  With all
    resources there and result 0 every byte of the caller's memory has been moved. *)
Theorem scif_vcalls_release tr aper es r addr len roffset flags offs p : user_envs tr aper es → (∀ n, fresh (es n) r) →
  remote_ok aper r → balanced offs p r → isset flags SCIF_RMA_USECACHE = false →
  0 < len < 2 ^ 42 → 0 < addr → addr + len < 2 ^ 63 → 0 <= roffset → roffset + len < 2 ^ 63 →
  ∀ dir, ∃ rc r' log post,
    (if to_remote dir then scif_vwriteto else scif_vreadfrom) es r addr len roffset flags = Some (rc, r', log, post) ∧
    balanced offs p r' ∧
    (let done_ := scif_rma_destroy_windows (fun _ => true) r' in
     tw_refcount done_ = 0 ∧ rma done_ = [] ∧ offsets done_ ≡ₚ offs ∧ pins done_ = p) ∧
    ((∀ n, ready aper (es n)) → rc = 0 → ∀ k, 0 <= k < len →
      vtransferred tr es (remote_reg_list r) dir addr roffset len (flatten log ++ flatten post) k).
Proof.
  intros Hus Hfr Hrem Hbal Hnc Hlen Ha Hab Hro Hrob dir.
  assert (isset (v_flags (scif_unaligned addr roffset) len flags) SCIF_RMA_USECACHE = false) as Hv.
  { unfold v_flags. destruct (_ && _); [|done]. unfold isset. rewrite <- Z.land_assoc. change (Z.land (Z.lnot SCIF_RMA_USECACHE) SCIF_RMA_USECACHE) with 0. by rewrite Z.land_0_r. }
  destruct (chunk_loop_user tr aper es (scif_unaligned addr roffset) (v_flags (scif_unaligned addr roffset) len flags) dir offs p (remote_reg_list r) Hus Hv
    (chunks_fuel len) 0 r addr len roffset [] [] ltac:(unfold chunks_fuel; lia) ltac:(intros; apply Hfr) Hrem eq_refl Hbal Hlen Ha Hab Hro Hrob)
    as (rc & r' & log & post & E & Hb & Htr).
  exists rc, r', log, post. split; [|split; [done|split; [by apply destroy_windows_balanced|done]]].
  destruct dir; exact E.
Qed.

Definition demo_envs (limit : Z) (n : nat) : env := demo_env n limit (fun _ => true) 0.

Lemma demo_user_envs limit : user_envs (fun x => x) None (demo_envs limit).
Proof.
  split.
  - intros i. split.
    + intros a n Hn write. cbn. unfold zlen. rewrite length_replicate. lia.
    + intros a n write ps [= <-]. rewrite fmap_replicate. apply Forall_replicate. split; [cbn; lia|by exists 0x800].
    + intros n. cbn [demo_envs demo_env e_iova]. destruct (Z.ltb_spec (Z.of_nat i * 2 ^ 20 + n) (2 ^ 40)); [lia|done].
    + done.
    + intros phys len H1 H2 H3. by split_and!.
    + done.
  - done.
  - intros n m j k pfn Hne. cbn [demo_envs demo_env e_iova]. destruct (_ <? _); [|done]. intros [= <-]. destruct (_ <? _); [|done]. intros [=]. lia.
  - intros n m a Hne [= <-] [=]. lia.
Qed.

Lemma demo_fresh limit n : fresh (demo_envs limit n) demo_rma.
Proof. split; [intros ? ? _ H; by apply not_elem_of_nil in H|intros a _ H; by apply not_elem_of_nil in H]. Qed.

Lemma scif_vcalls_release_witness : ∃ r' log post,
  scif_vwriteto (demo_envs 0x20000) demo_rma 0x7ff0 100 0x20008 0 = Some (0, r', log, post) ∧ tw_refcount r' = 1 ∧
  tw_refcount (scif_rma_destroy_windows (fun _ => true) r') = 0.
Proof.
  destruct (scif_vcalls_release (fun x => x) None (demo_envs 0x20000) demo_rma 0x7ff0 100 0x20008 0 [] 0
    (demo_user_envs 0x20000) (demo_fresh 0x20000) (conj (ro_remote _ _ demo_rma_ok) (ro_peer _ _ demo_rma_ok))
    ltac:(split; [done|done|constructor|done|constructor]) eq_refl ltac:(lia) ltac:(lia) ltac:(lia) ltac:(lia) ltac:(lia) SCIF_LOCAL_TO_REMOTE)
    as (rc & r' & log & post & E & _ & (Htw & _) & _).
  assert (rc = 0 ∧ tw_refcount r' = 1) as [-> Hr] by (vm_compute in E; by injection E as <- <- _ _).
  exists r', log, post. split; [exact E|]. split; [exact Hr|exact Htw].
Defined.

Definition demo_tcw : dma_window :=
  DWin (Window 55 1 3 0x40000 0x8000 0 SCIF_UNREG_NOT_INITIATED) SCIF_WINDOW_SELF 1 [0x800000] [1] [0x9000000].
Definition demo_cached : scif_endpt_rma_info := set_mmn [Mmn 7 [demo_tcw]] demo_rma.

(** The cache is kept the wrong way round.  A transfer that fits the limit is not
    cached; one that exceeds it is, and the first of a process is counted but put on no
    list, so that neither the notifier nor the work queue ever destroys the window: the
    counts, the offset and the pages stay, and the endpoint never becomes free.  A window
    found in the cache by a transfer that fits the limit is destroyed while it is still on
    the list when the remote range is not registered. *)
Theorem scif_cache_window_lost :
  (∃ r', scif_vwriteto (demo_envs 0x20000) demo_cached 0x8000 0x1000 0x90000 SCIF_RMA_USECACHE = Some (- ENXIO, r', [], []) ∧
     freed r' = [55] ∧ mmn_list r' = [Mmn 7 [demo_tcw]]) ∧
  (∃ r' log, scif_vwriteto (demo_envs 0x20000) demo_rma 0x8000 0x1000 0x20000 SCIF_RMA_USECACHE = Some (0, r', log, []) ∧
     tcw_refcount r' = 0 ∧ length (rma r') = 1%nat) ∧
  ∃ r' log, scif_vwriteto (demo_envs 0) demo_rma 0x8000 0x1000 0x20000 SCIF_RMA_USECACHE = Some (0, r', log, []) ∧
    tcw_refcount r' = 1 ∧ tcw_total_pages r' = 1 ∧ lists_of r' = [] ∧ offsets r' ≠ [] ∧
    ∀ idle queued, let later := scif_rma_destroy_windows idle (scif_mmu_notif_handler idle queued r') in
      tcw_refcount later = 1 ∧ offsets later = offsets r' ∧ scif_rma_ep_can_uninit later = 0.
Proof.
  split; [eexists; split; [vm_compute; reflexivity|by split]|]. split.
  - eexists _, _. split; [vm_compute; reflexivity|]. by split.
  - eexists _, _. split; [vm_compute; reflexivity|]. split_and!; [done..|]. intros idle queued. by destruct queued.
Qed.

(** Errors of the copy are lost: when the CPU copies, its result is dropped, and when
    the call waits for the channel, what that returns replaces it.  With no resources at
    all both report success and have moved nothing. *)
Theorem scif_rma_copy_error_lost :
  let starved (n : nat) := demo_env n 0x20000 (fun _ => false) 0 in
  scif_writeto starved demo_rma 0x10000 100 0x20000 SCIF_RMA_USECPU = Some (0, demo_rma, [], []) ∧
  scif_writeto starved demo_rma 0x10000 100 0x20000 SCIF_RMA_SYNC = Some (0, demo_rma, [], []) ∧
  scif_writeto starved demo_rma 0x10000 100 0x20000 0 = Some (- ENOMEM, demo_rma, [], []).
Proof. split_and!; reflexivity. Qed.

End ScifRmaTemp.
