(* ===== verification/ScifReg.v ===== *)
(** * Registration of windows with the peer

    Models the part of [mpss4/mpss-modules/mic/scif/scif_rma.c] that registers and
    unregisters windows by messages, and the users of remote windows in [scif_mmap.c]
    that delay their deletion.  Two endpoints are connected; node A registers windows, node
    B keeps their counterparts (each endpoint plays both parts, and the two directions
    share nothing).  Queue pairs deliver messages in order ([NodeQp]), and the nodes stay
    alive.  A call that waits is split where it waits.  [None] is a reference to a window
    that has been freed. *)
From S2P Require Import Prelude Ports Endpoint NodeQp RmaList DmaWindow ScifDma ScifRma.
Local Open Scope Z_scope.

Module ScifReg.
Import RmaList DmaWindow NodeQp.

Definition SCIF_REGISTER : Z := 19.
Definition SCIF_REGISTER_ACK : Z := 20.
Definition SCIF_REGISTER_NACK : Z := 21.
Definition SCIF_UNREGISTER : Z := 22.
Definition SCIF_DELETE_WINDOW : Z := 23.
Definition SCIF_USED_WINDOW : Z := 24.
Definition SCIF_ALLOC_REQ : Z := 25.
Definition SCIF_ALLOC_GNT : Z := 26.
Definition SCIF_ALLOC_REJ : Z := 27.
Definition SCIF_FREE_VIRT : Z := 28.
Definition EADDRINUSE : Z := 98.
Definition SCIF_MAP_FIXED : Z := 0x10.

#[export] Instance scif_msg_state_eq_dec : EqDecision scif_msg_state.
Proof. solve_decision. Defined.

Definition mk_msg (u p0 p1 p2 : Z) : scifmsg := Msg 0 0 0 0 u p0 p1 p2 0.

(** ** State *)

(** Where the thread that registers a window waits: in [scif_destroy_incomplete_window]
    or [scif_prep_remote_window] for memory at the peer, or in [scif_send_scif_register];
    [Listed]: the call has returned; [Deleted]: queued for destruction. *)
Inductive reg_pc := Incomplete (err : Z) | Prep (map_err : Z) | WaitReg | Listed | Deleted.

#[export] Instance reg_pc_eq_dec : EqDecision reg_pc.
Proof. solve_decision. Defined.

(** A window of node A.  Its handle for the allocation, whose address stands for that of
    the window, is [alloc_state] with [alloc_vaddr] of [win]. *)
Record local_window := LWin {
  lw : dma_window; l_pc : reg_pc; alloc_state : scif_msg_state; reg_state : scif_msg_state; offset_freed : bool;
}.

(** A window at node B; [alloc_vaddr] of [win] is not used there. *)
Record remote_window := RWin { rw : dma_window; mapped_pages : Z; peer_window : Z }.

Record net := Net {
  a_state : ScifEpd.scif_epd_state;
  locals : gmap Z local_window;
  reg_list : list Z;
  a_rma : list Z;
  iovad : gmap Z Z;
  b_state : ScifEpd.scif_epd_state;
  remotes : gmap Z remote_window;
  remote_reg_list : list Z;
  b_rma : list Z;
  a2b : list scifmsg;
  b2a : list scifmsg;
}.

Definition set_a (st : ScifEpd.scif_epd_state) (s : net) : net :=
  Net st (locals s) (reg_list s) (a_rma s) (iovad s) (b_state s) (remotes s) (remote_reg_list s) (b_rma s) (a2b s) (b2a s).
Definition set_b (st : ScifEpd.scif_epd_state) (s : net) : net :=
  Net (a_state s) (locals s) (reg_list s) (a_rma s) (iovad s) st (remotes s) (remote_reg_list s) (b_rma s) (a2b s) (b2a s).
Definition set_locals (m : gmap Z local_window) (s : net) : net :=
  Net (a_state s) m (reg_list s) (a_rma s) (iovad s) (b_state s) (remotes s) (remote_reg_list s) (b_rma s) (a2b s) (b2a s).
Definition set_reg_list (l q : list Z) (s : net) : net :=
  Net (a_state s) (locals s) l q (iovad s) (b_state s) (remotes s) (remote_reg_list s) (b_rma s) (a2b s) (b2a s).
Definition set_iovad (m : gmap Z Z) (s : net) : net :=
  Net (a_state s) (locals s) (reg_list s) (a_rma s) m (b_state s) (remotes s) (remote_reg_list s) (b_rma s) (a2b s) (b2a s).
Definition set_remotes (m : gmap Z remote_window) (s : net) : net :=
  Net (a_state s) (locals s) (reg_list s) (a_rma s) (iovad s) (b_state s) m (remote_reg_list s) (b_rma s) (a2b s) (b2a s).
Definition set_remote_list (l q : list Z) (s : net) : net :=
  Net (a_state s) (locals s) (reg_list s) (a_rma s) (iovad s) (b_state s) (remotes s) l q (a2b s) (b2a s).
Definition set_msgs (ab ba : list scifmsg) (s : net) : net :=
  Net (a_state s) (locals s) (reg_list s) (a_rma s) (iovad s) (b_state s) (remotes s) (remote_reg_list s) (b_rma s) ab ba.

Definition send_b (m : scifmsg) (s : net) : net := set_msgs (a2b s ++ [m]) (b2a s) s.
Definition send_a (m : scifmsg) (s : net) : net := set_msgs (a2b s) (b2a s ++ [m]) s.

Definition set_win (w : scif_window) (d : dma_window) : dma_window :=
  DWin w (w_type d) (nr_contig_chunks d) (dma_addr d) (num_pages d) (page_va d).
Definition set_vaddr (v : Z) (w : scif_window) : scif_window :=
  Window (w_addr w) (nr_pages w) (prot w) (offset w) (va_for_temp w) v (unreg_state w).

Definition put_local (w : Z) (l : local_window) (s : net) : net := set_locals (<[w:=l]> (locals s)) s.
Definition with_pc (l : local_window) (pc : reg_pc) : local_window := LWin (lw l) pc (alloc_state l) (reg_state l) (offset_freed l).

(** ** Offsets *)

(** [reserve_iova_exclusive]: the range is taken as a whole or not at all. *)
Definition __is_range_overlap (lo hi pfn_lo pfn_hi : Z) : bool := (pfn_lo <=? hi) && (lo <=? pfn_hi).

Definition reserve_iova_exclusive (mem : bool) (d : gmap Z Z) (pfn_lo pfn_hi : Z) : option (gmap Z Z) :=
  if existsb (fun '(lo, hi) => __is_range_overlap lo hi pfn_lo pfn_hi) (map_to_list d) then None
  else if mem then Some (<[pfn_lo:=pfn_hi]> d) else None.

(** [alloc]: what [alloc_iova] finds for a number of pages; its memory, [mem]. *)
Definition scif_get_window_offset (mem : bool) (alloc : Z → option Z) (d : gmap Z Z) (flags off num_pages : Z)
  : Z + Z * gmap Z Z :=
  if ScifRma.isset flags SCIF_MAP_FIXED then
    let page_index := Z.shiftr off PAGE_SHIFT in
    match reserve_iova_exclusive mem d page_index (page_index + num_pages - 1) with
    | Some d => inr (Z.shiftl page_index PAGE_SHIFT, d)
    | None => inl (- EADDRINUSE)
    end
  else
    match alloc num_pages with
    | Some lo => inr (Z.shiftl lo PAGE_SHIFT, <[lo:=lo + num_pages - 1]> d)
    | None => inl (- ENOMEM)
    end.

Definition scif_free_window_offset (freed : bool) (off : Z) (d : gmap Z Z) : gmap Z Z :=
  if freed then d else delete (Z.shiftr off PAGE_SHIFT) d.

Definition scif_destroy_window (w : Z) (l : local_window) (s : net) : net :=
  set_iovad (scif_free_window_offset (offset_freed l) (w_offset (lw l)) (iovad s)) (set_locals (delete w (locals s)) s).

(** ** Registration on node A *)

(** What the call meets: memory, the allocators, the pinning of pages and their mapping. *)
Record reg_env := RegEnv {
  g_mem : bool;
  g_iova : Z → option Z;
  g_peer : bool;
  g_window : option Z;
  g_pin : ScifRma.pin_result;
  g_mgmt : bool;
  g_map_single : Z → Z → Z + Z;
  g_timeout : bool;
}.

Definition scif_send_alloc_request (w n : Z) (s : net) : net := send_b (mk_msg SCIF_ALLOC_REQ 0 n w) s.

(** The walk over [reg_list] when the offset is in use: is there a window at the offset
    that is not being unregistered? *)
Definition offset_in_use (s : net) (off : Z) : bool :=
  existsb (fun w => match locals s !! w with
                    | Some l =>
                        (w_offset (lw l) <=? off) && (off <? w_end (lw l)) &&
                        bool_decide (unreg_state (win (lw l)) = SCIF_UNREG_DENIED ∨ unreg_state (win (lw l)) = SCIF_UNREG_NOT_INITIATED)
                    | None => false
                    end) (reg_list s).

Definition verify_epd (st : ScifEpd.scif_epd_state) : Z :=
  if bool_decide (st = ScifEpd.SCIFEP_DISCONNECTED) then - ECONNRESET
  else if negb (bool_decide (st = ScifEpd.SCIFEP_CONNECTED)) then - ENOTCONN
  else 0.

Definition fixed_ok (map_flags off len : Z) : bool :=
  negb (ScifRma.isset map_flags SCIF_MAP_FIXED &&
        (negb (ScifRma.page_align off =? off) || (off <? 0) || (s64 (off + len) <? off))).

(** From the allocation request to the wait in [scif_prep_remote_window]. *)
Definition start_window (g : reg_env) (s : net) (w off n : Z) : option net :=
  let d := DWin (Window w n 0 off 0 0 SCIF_UNREG_NOT_INITIATED) SCIF_WINDOW_SELF 0 [] [] [] in
  let s := scif_send_alloc_request w n s in
  let pin := g_pin g in
  if negb (ScifRma.pr_rc pin =? 0) then
    Some (put_local w (LWin d (Incomplete (ScifRma.pr_rc pin)) OP_IN_PROGRESS OP_IDLE false) s)
  else
    let d := set_win (Window w n (ScifRma.pr_prot pin) off 0 0 SCIF_UNREG_NOT_INITIATED) d in
    '(map_err, d) ← scif_map_window (g_mgmt g) (g_map_single g) (ScifRma.p_phys <$> ScifRma.pr_pages pin) d;
    Some (put_local w (LWin d (Prep map_err) OP_IN_PROGRESS OP_IDLE false) s).

(** The start of [scif_register]; the result is a return code when the call ends, and
    nothing when it sleeps and will try again or has started a window. *)
Definition scif_register (g : reg_env) (s : net) (addr len off prot map_flags : Z) : option (net * option Z) :=
  if negb (Z.land map_flags (Z.lnot (Z.lor SCIF_MAP_FIXED ScifRma.SCIF_MAP_KERNEL)) =? 0) then Some (s, Some (- EINVAL))
  else if negb (fixed_ok map_flags off len) then Some (s, Some (- EINVAL))
  else if negb (Z.land prot (Z.lnot (Z.lor ScifRma.SCIF_PROT_READ ScifRma.SCIF_PROT_WRITE)) =? 0) then Some (s, Some (- EINVAL))
  else if (len =? 0) || negb (ScifRma.page_align addr =? addr) || negb (ScifRma.page_align len =? len) then Some (s, Some (- EINVAL))
  else if negb (verify_epd (a_state s) =? 0) then Some (s, Some (verify_epd (a_state s)))
  else
    let n := Z.shiftr len PAGE_SHIFT in
    match scif_get_window_offset (g_mem g) (g_iova g) (iovad s) map_flags off n with
    | inl err =>
        if err =? - EADDRINUSE then
          if offset_in_use s off then Some (s, Some (- EADDRINUSE))
          else if g_timeout g then Some (s, Some (- ENODEV))
          else Some (s, None)
        else Some (s, Some err)
    | inr (coff, d) =>
        if negb (g_peer g) then Some (s, Some (- ENODEV))
        else match g_window g with
             | None => Some (s, Some (- ENOMEM))
             | Some w => s ← start_window g (set_iovad d s) w coff n; Some (s, None)
             end
    end.

(** The start of [scif_register_pinned_pages] for [nr] pages with [refs] references: the
    offset is asked for with the length in bytes. *)
Definition scif_register_pinned_pages (g : reg_env) (s : net) (nr refs off map_flags : Z) : option (net * option Z) :=
  if negb (Z.land map_flags (Z.lnot SCIF_MAP_FIXED) =? 0) then Some (s, Some (- EINVAL))
  else
    let len := u64 (Z.shiftl nr PAGE_SHIFT) in
    if negb (fixed_ok map_flags off len) then Some (s, Some (- EINVAL))
    else if negb (verify_epd (a_state s) =? 0) then Some (s, Some (verify_epd (a_state s)))
    else if refs =? 0 then Some (s, Some (- EINVAL))
    else
      match scif_get_window_offset (g_mem g) (g_iova g) (iovad s) map_flags off (s32 len) with
      | inl err => Some (s, Some err)
      | inr (coff, d) =>
          match g_window g with
          | None => Some (s, Some (- ENOMEM))
          | Some w =>
              if negb (g_peer g) then Some (s, Some (- ENODEV))
              else s ← start_window g (set_iovad d s) w coff nr; Some (s, None)
          end
      end.

(** The lists that [scif_prep_remote_window] writes to the peer: pieces of [nr] entries,
    the number that one page holds; [f] is the conversion of a DMA address. *)
Definition SCIF_NR_ADDR_IN_PAGE : Z := Z.shiftr 0x1000 3.

Fixpoint copy_lists (fuel : nat) (f : Z → Z) (das ns : list Z) : option (list Z * list Z) :=
  match fuel with
  | O => None
  | S fuel =>
      match ns with
      | [] => Some ([], [])
      | _ =>
          let k := Z.to_nat (Z.min (zlen ns) SCIF_NR_ADDR_IN_PAGE) in
          '(das', ns') ← copy_lists fuel f (drop k das) (drop k ns);
          Some ((f <$> take k das) ++ das', take k ns ++ ns')
      end
  end.

(** The address as the peer uses it: a card that talks to a card adds the base of the
    other's mapping; the peer adds its aperture. *)
Definition peer_addr (p2p : bool) (base : Z) (da : Z) : Z := if p2p then u64 (da + base) else da.

(** The two nodes as far as addresses depend on them; [k_aper] is the aperture of the
    peer, unless it is this node or its DMA addresses are card relative. *)
Record link := Link { k_mgmt : bool; k_p2p : bool; k_base : Z; k_aper : option Z }.

(** The loop over [n] chunks. *)
Fixpoint fixup_loop (n : nat) (apt_base : Z) (das ns : list Z) : list Z :=
  match n, das, ns with
  | S n, da :: das', np :: ns' => if np =? 0 then das else u64 (da + apt_base) :: fixup_loop n apt_base das' ns'
  | _, _, _ => das
  end.

Definition scif_fixup_aper_base (k : link) (d : dma_window) : dma_window :=
  match k_aper k with
  | Some pa =>
      DWin (win d) (w_type d) (nr_contig_chunks d) (fixup_loop (Z.to_nat (nr_contig_chunks d)) pa (dma_addr d) (num_pages d))
        (num_pages d) (page_va d)
  | None => d
  end.

Section Threads.
Context (k : link).

(** [scif_prep_remote_window] from its wait on, then [scif_send_scif_register] up to its
    wait. *)
Definition send_free_virt (w v : Z) (s : net) : net := send_b (mk_msg SCIF_FREE_VIRT 0 v w) s.

Definition scif_send_scif_register (w : Z) (l : local_window) (s : net) : net * option Z :=
  let v := alloc_vaddr (win (lw l)) in
  if bool_decide (a_state s = ScifEpd.SCIFEP_CONNECTED) then
    (put_local w (LWin (lw l) WaitReg (alloc_state l) OP_IN_PROGRESS (offset_freed l)) (send_b (mk_msg SCIF_REGISTER 0 v w) s), None)
  else (scif_destroy_window w l (send_free_virt w v s), Some (- ENOTCONN)).

Definition prep_remote (w : Z) (l : local_window) (s : net) : option net :=
  let v := alloc_vaddr (win (lw l)) in
  r ← remotes s !! v;
  '(das, ns) ← copy_lists (S (length (num_pages (lw l)))) (if k_mgmt k then id else peer_addr (k_p2p k) (k_base k))
                 (dma_addr (lw l)) (num_pages (lw l));
  let win' := Window v (nr_pages (win (rw r))) (prot (win (lw l))) (w_offset (lw l)) 0 0 SCIF_UNREG_NOT_INITIATED in
  Some (set_remotes (<[v:=RWin (DWin win' (w_type (rw r)) (nr_contig_chunks (lw l)) das ns []) 0 w]> (remotes s)) s).

Definition scif_prep_remote_window (w : Z) (l : local_window) (map_err : Z) (s : net) : option (Z * net) :=
  if bool_decide (alloc_state l = OP_FAILED) then Some (- ENOMEM, s)
  else if negb (map_err =? 0) then
    if bool_decide (a_state s = ScifEpd.SCIFEP_CONNECTED)
    then Some (0, send_free_virt w (alloc_vaddr (win (lw l))) s) else Some (- ENOTCONN, s)
  else s ← prep_remote w l s; Some (0, s).

Definition scif_destroy_incomplete_window (w : Z) (l : local_window) (s : net) : net :=
  let s := if bool_decide (alloc_state l = OP_COMPLETED) then send_free_virt w (alloc_vaddr (win (lw l))) s else s in
  scif_destroy_window w l s.

Definition win_of_local (s : net) (w : Z) : option scif_window := (fun l => win (lw l)) <$> locals s !! w.
Definition win_of_remote (s : net) (v : Z) : option scif_window := (fun r => win (rw r)) <$> remotes s !! v.

Definition scif_insert_local_window (w : Z) (l : local_window) (s : net) : net :=
  set_reg_list (w_addr <$> scif_insert_window (win (lw l)) (omap (win_of_local s) (reg_list s))) (a_rma s)
    (put_local w (with_pc l Listed) s).

(** The thread of window [w] goes on, when what it waits for has happened. *)
Definition thread_step (w : Z) (s : net) : option (net * option Z) :=
  l ← locals s !! w;
  match l_pc l with
  | Incomplete err =>
      if bool_decide (alloc_state l = OP_IN_PROGRESS) then Some (s, None)
      else Some (scif_destroy_incomplete_window w l s, Some err)
  | Prep map_err =>
      if bool_decide (alloc_state l = OP_IN_PROGRESS) then Some (s, None)
      else
        '(err, s) ← scif_prep_remote_window w l map_err s;
        if negb (err =? 0) then Some (scif_destroy_window w l s, Some err)
        else Some (scif_send_scif_register w l s)
  | WaitReg =>
      if bool_decide (reg_state l = OP_IN_PROGRESS) then Some (s, None)
      else if bool_decide (reg_state l = OP_FAILED) then Some (scif_destroy_window w l s, Some (- ENOTCONN))
      else Some (scif_insert_local_window w l s, Some (w_offset (lw l)))
  | Listed | Deleted => Some (s, None)
  end.

(** ** Unregistration on node A *)

Definition unregister_one (w : Z) (l : local_window) (s : net) : net :=
  let '(_, w', sent) := scif_unregister_window (fun _ => 0) (win (lw l)) in
  foldl (fun s m => send_b (mk_msg SCIF_UNREGISTER (RmaList.payload0 m) (RmaList.payload1 m) 0) s)
    (put_local w (LWin (set_win w' (lw l)) (l_pc l) (alloc_state l) (reg_state l) (offset_freed l)) s) sent.

(** The walk of [scif_rma_list_unregister]. *)
Fixpoint unregister_walk (ws : list Z) (off end_req_offset : Z) (s : net) : option (net * Z) :=
  match ws with
  | [] => Some (s, 0)
  | w :: ws =>
      l ← locals s !! w;
      if end_req_offset <=? w_offset (lw l) then Some (s, 0)
      else if w_end (lw l) <=? off then unregister_walk ws off end_req_offset s
      else if (w_offset (lw l) <? off) && (off <? w_end (lw l)) then Some (s, - EINVAL)
      else if end_req_offset <? w_end (lw l) then Some (s, - EINVAL)
      else unregister_walk ws off end_req_offset (unregister_one w l s)
  end.

Definition scif_unregister (peer : bool) (s : net) (off len : Z) : option (net * Z) :=
  if (len =? 0) || negb (ScifRma.page_align len =? len) then Some (s, - EINVAL)
  else if negb (ScifRma.page_align off =? off) || (s64 (off + len) <? off) then Some (s, - EINVAL)
  else if negb (verify_epd (a_state s) =? 0) then Some (s, verify_epd (a_state s))
  else
    let nr_pages := s32 (Z.shiftr len PAGE_SHIFT) in
    if negb peer then Some (s, - ENODEV)
    else unregister_walk (reg_list s) off (s64 (off + s64 (Z.shiftl nr_pages PAGE_SHIFT))) s.

(** [scif_unregister_all_windows] holds the lock, so no entry goes away in its walk. *)
Fixpoint unregister_all (ws : list Z) (s : net) : option net :=
  match ws with
  | [] => Some s
  | w :: ws => l ← locals s !! w; unregister_all ws (unregister_one w l s)
  end.
Definition scif_unregister_all_windows (s : net) : option net := unregister_all (reg_list s) s.

(** ** Handlers of node B *)

Definition scif_create_remote_window (v n : Z) : remote_window :=
  RWin (DWin (Window v n 0 0 0 0 SCIF_UNREG_NOT_INITIATED) SCIF_WINDOW_PEER 0 [] [] []) 0 0.

Definition scif_destroy_remote_window (v : Z) (s : net) : option net :=
  _ ← remotes s !! v; Some (set_remotes (delete v (remotes s)) s).

(** [fresh]: the memory [scif_create_remote_window] gets, if any. *)
Definition scif_alloc_req (fresh : option Z) (msg : scifmsg) (s : net) : net :=
  let n := s32 (payload1 msg) in
  match fresh with
  | Some v => send_a (mk_msg SCIF_ALLOC_GNT v 0 (payload2 msg)) (set_remotes (<[v:=scif_create_remote_window v n]> (remotes s)) s)
  | None => send_a (mk_msg SCIF_ALLOC_REJ (payload0 msg) (payload1 msg) (payload2 msg)) s
  end.

Definition scif_free_virt (msg : scifmsg) (s : net) : option net := scif_destroy_remote_window (payload1 msg) s.

Definition scif_recv_reg (msg : scifmsg) (s : net) : option net :=
  let v := payload1 msg in
  r ← remotes s !! v;
  if bool_decide (b_state s = ScifEpd.SCIFEP_CONNECTED) then
    let s := send_a (mk_msg SCIF_REGISTER_ACK (payload0 msg) v (payload2 msg)) s in
    let r := RWin (scif_fixup_aper_base k (rw r)) (mapped_pages r) (peer_window r) in
    let s := set_remotes (<[v:=r]> (remotes s)) s in
    Some (set_remote_list (w_addr <$> scif_insert_window (win (rw r)) (omap (win_of_remote s) (remote_reg_list s))) (b_rma s) s)
  else scif_destroy_remote_window v (send_a (mk_msg SCIF_REGISTER_NACK (payload0 msg) v (payload2 msg)) s).

Definition set_unreg (r : remote_window) (st : scif_unreg_state) : remote_window :=
  RWin (set_win (set_unreg_state (win (rw r)) st) (rw r)) (mapped_pages r) (peer_window r).

Definition list_del (x : Z) (l : list Z) : list Z := filter (fun y => y ≠ x) l.

Definition scif_recv_unreg (msg : scifmsg) (s : net) : option net :=
  rv ← remotes s !! payload0 msg;
  let req := Req (w_offset (rw rv)) (Z.shiftl (nr_pages (win (rw rv))) PAGE_SHIFT) 0 SCIF_WINDOW_FULL in
  match scif_query_window req (omap (win_of_remote s) (remote_reg_list s)) with
  | (0, Some found) =>
      let v := w_addr found in
      r ← remotes s !! v;
      let s := set_remotes (<[v:=set_unreg r SCIF_UNREG_REQUESTED]> (remotes s)) s in
      if mapped_pages r =? 0 then
        let s := set_remote_list (list_del v (remote_reg_list s)) (b_rma s) s in
        let s := send_a (mk_msg SCIF_DELETE_WINDOW 0 (peer_window r) 0) s in
        Some (set_remote_list (remote_reg_list s) (b_rma s ++ [v]) s)
      else Some (send_a (mk_msg SCIF_USED_WINDOW 0 (peer_window r) 0) s)
  | (0, None) => scif_destroy_remote_window (payload0 msg) s
  | _ => Some s
  end.

(** ** Handlers of node A *)

Definition scif_alloc_gnt_rej (msg : scifmsg) (s : net) : option net :=
  let w := payload2 msg in
  l ← locals s !! w;
  let d := set_win (set_vaddr (payload0 msg) (win (lw l))) (lw l) in
  Some (put_local w (LWin d (l_pc l) (if uop msg =? SCIF_ALLOC_GNT then OP_COMPLETED else OP_FAILED) (reg_state l) (offset_freed l)) s).

Definition reg_answer (st : scif_msg_state) (msg : scifmsg) (s : net) : option net :=
  let w := payload2 msg in
  l ← locals s !! w;
  Some (put_local w (LWin (lw l) (l_pc l) (alloc_state l) st (offset_freed l)) s).
Definition scif_recv_reg_ack : scifmsg → net → option net := reg_answer OP_COMPLETED.
Definition scif_recv_reg_nack : scifmsg → net → option net := reg_answer OP_FAILED.

Definition unreg_answer (st : scif_unreg_state) (l : local_window) : local_window :=
  LWin (set_win (set_unreg_state (win (lw l)) st) (lw l)) (l_pc l) (alloc_state l) (reg_state l) (offset_freed l).

Definition scif_recv_del_window (msg : scifmsg) (s : net) : option net :=
  let w := payload1 msg in
  l ← locals s !! w;
  let l' := unreg_answer SCIF_UNREG_ACCEPTED l in
  let l' := LWin (lw l') Deleted (alloc_state l') (reg_state l') true in
  let s := set_iovad (scif_free_window_offset (offset_freed l) (w_offset (lw l)) (iovad s)) (put_local w l' s) in
  Some (set_reg_list (list_del w (reg_list s)) (a_rma s ++ [w]) s).

Definition scif_recv_used_window (msg : scifmsg) (s : net) : option net :=
  let w := payload1 msg in
  l ← locals s !! w;
  Some (put_local w (unreg_answer SCIF_UNREG_DENIED l) s).

(** ** Remote windows in use on node B *)

(** [scif_rma_list_mmap], the second walk: the windows from the first one on count the
    pages. *)
Fixpoint mmap_walk (vs : list Z) (loop_offset nr_pages_left : Z) (s : net) : option net :=
  match vs with
  | [] => Some s
  | v :: vs =>
      r ← remotes s !! v;
      let n := Z.min (s32 (Z.shiftr (w_end (rw r) - loop_offset) PAGE_SHIFT)) nr_pages_left in
      let s := set_remotes (<[v:=RWin (rw r) (mapped_pages r + n) (peer_window r)]> (remotes s)) s in
      if nr_pages_left - n =? 0 then Some s
      else mmap_walk vs (loop_offset + Z.shiftl n PAGE_SHIFT) (nr_pages_left - n) s
  end.

Definition munmap_one (v : Z) (r : remote_window) (n : Z) (s : net) : net :=
  let r := RWin (rw r) (mapped_pages r - n) (peer_window r) in
  if bool_decide (unreg_state (win (rw r)) = SCIF_UNREG_REQUESTED) && (mapped_pages r =? 0) then
    set_remotes (delete v (remotes s)) (set_remote_list (list_del v (remote_reg_list s)) (b_rma s)
      (send_a (mk_msg SCIF_DELETE_WINDOW 0 (peer_window r) 0) s))
  else set_remotes (<[v:=r]> (remotes s)) s.

(** [scif_rma_list_munmap]. *)
Fixpoint munmap_walk (vs : list Z) (loop_offset nr_pages_left : Z) (s : net) : option net :=
  match vs with
  | [] => Some s
  | v :: vs =>
      r ← remotes s !! v;
      let n := Z.min (s32 (Z.shiftr (w_end (rw r) - loop_offset) PAGE_SHIFT)) nr_pages_left in
      let s := munmap_one v r n s in
      if nr_pages_left - n =? 0 then Some s
      else munmap_walk vs (loop_offset + Z.shiftl n PAGE_SHIFT) (nr_pages_left - n) s
  end.

Fixpoint from_addr (v : Z) (l : list Z) : list Z :=
  match l with [] => [] | x :: l' => if x =? v then l else from_addr v l' end.

Definition remote_query (s : net) (off len prot : Z) (t : scif_window_type) : Z * list Z :=
  match scif_query_window (Req off len prot t) (omap (win_of_remote s) (remote_reg_list s)) with
  | (0, Some found) => (0, from_addr (w_addr found) (remote_reg_list s))
  | (err, _) => (err, [])
  end.

(** [scif_mmap] of the range, [mapped]: the error of mapping its pages, and [scif_munmap]. *)
Definition scif_mmap (mapped : Z) (s : net) (off len prot : Z) : option (net * Z) :=
  if negb (verify_epd (b_state s) =? 0) then Some (s, verify_epd (b_state s))
  else
    match remote_query s off len prot SCIF_WINDOW_PARTIAL with
    | (0, vs) => if negb (mapped =? 0) then Some (s, mapped)
                 else s ← mmap_walk vs off (s32 (Z.shiftr len PAGE_SHIFT)) s; Some (s, 0)
    | (err, _) => Some (s, err)
    end.

Definition scif_munmap (s : net) (off len prot : Z) : option net :=
  match remote_query s off len prot SCIF_WINDOW_PARTIAL with
  | (0, vs) => munmap_walk vs off (s32 (Z.shiftr len PAGE_SHIFT)) s
  | _ => Some s
  end.

(** [scif_get_pages]; the result names the window in [cookie].  [mem]: there is memory. *)
Definition scif_get_pages (mem : bool) (s : net) (off len : Z) : option (net * (Z + Z)) :=
  if negb (verify_epd (b_state s) =? 0) then Some (s, inl (verify_epd (b_state s)))
  else if (len =? 0) || (off <? 0) || (u64 (off + len) <? off) || negb (ScifRma.page_align off =? off) || negb (ScifRma.page_align len =? len)
  then Some (s, inl (- EINVAL))
  else
    let n := s32 (Z.shiftr len PAGE_SHIFT) in
    match remote_query s off len 0 SCIF_WINDOW_SINGLE with
    | (0, v :: _) =>
        if negb mem then Some (s, inl (- ENOMEM))
        else
          r ← remotes s !! v;
          Some (set_remotes (<[v:=RWin (rw r) (mapped_pages r + n) (peer_window r)]> (remotes s)) s, inr v)
    | (err, _) => Some (s, inl err)
    end.

Definition scif_put_pages (s : net) (cookie nr : Z) : option (net * Z) :=
  let v := cookie in
  r ← remotes s !! v;
  if negb (bool_decide (b_state s = ScifEpd.SCIFEP_CONNECTED ∨ b_state s = ScifEpd.SCIFEP_DISCONNECTED)) then Some (s, - ENOTCONN)
  else
    let r := RWin (rw r) (mapped_pages r - nr) (peer_window r) in
    let s := set_remotes (<[v:=r]> (remotes s)) s in
    if bool_decide (unreg_state (win (rw r)) = SCIF_UNREG_ACCEPTED) then
      let s := set_remote_list (list_del v (remote_reg_list s)) (b_rma s) s in
      s ← scif_destroy_remote_window v (send_a (mk_msg SCIF_DELETE_WINDOW 0 (peer_window r) 0) s);
      Some (s, 0)
    else Some (s, 0).

(** ** Destruction of queued windows *)

Definition destroy_a (s : net) : option net :=
  match a_rma s with
  | [] => Some s
  | w :: q => l ← locals s !! w; Some (scif_destroy_window w l (set_reg_list (reg_list s) q s))
  end.

Definition destroy_b (s : net) : option net :=
  match b_rma s with
  | [] => Some s
  | v :: q => scif_destroy_remote_window v (set_remote_list (remote_reg_list s) q s)
  end.

(** ** Messages in order *)

Definition deliver_b (fresh : option Z) (s : net) : option net :=
  match a2b s with
  | [] => Some s
  | m :: ms =>
      let s := set_msgs ms (b2a s) s in
      if uop m =? SCIF_REGISTER then scif_recv_reg m s
      else if uop m =? SCIF_UNREGISTER then scif_recv_unreg m s
      else if uop m =? SCIF_ALLOC_REQ then Some (scif_alloc_req fresh m s)
      else if uop m =? SCIF_FREE_VIRT then scif_free_virt m s
      else Some s
  end.

Definition deliver_a (s : net) : option net :=
  match b2a s with
  | [] => Some s
  | m :: ms =>
      let s := set_msgs (a2b s) ms s in
      if uop m =? SCIF_REGISTER_ACK then scif_recv_reg_ack m s
      else if uop m =? SCIF_REGISTER_NACK then scif_recv_reg_nack m s
      else if uop m =? SCIF_DELETE_WINDOW then scif_recv_del_window m s
      else if uop m =? SCIF_USED_WINDOW then scif_recv_used_window m s
      else if (uop m =? SCIF_ALLOC_GNT) || (uop m =? SCIF_ALLOC_REJ) then scif_alloc_gnt_rej m s
      else Some s
  end.

End Threads.

End ScifReg.
