(* ===== verification/ScifRegList.v ===== *)
(** * Lists of windows by address

    [ScifReg] keeps the windows in a store and lists their addresses; here are the lemmas
    that carry the facts of [RmaList] over to such lists.  [f] looks a window up. *)
From S2P Require Import Prelude RmaList.
Local Open Scope Z_scope.

Module ScifRegList.
Import RmaList.

(** What the order of a list depends on. *)
Definition range (x : scif_window) : Z * Z * Z := (w_addr x, offset x, nr_pages x).

Definition disjoint (x y : scif_window) : Prop := apart x y ∨ apart y x.

(** Every address is that of a window with a valid range, and they are in order. *)
Definition window_list (f : Z → option scif_window) (l : list Z) : Prop :=
  Forall (fun v => ∃ x, f v = Some x ∧ w_addr x = v ∧ reg_ok x) l ∧
  StronglySorted (fun v v' => ∀ x x', f v = Some x → f v' = Some x' → apart x x') l.

Lemma window_list_nil f : window_list f [].
Proof. split; constructor. Qed.

Lemma window_list_cons f v l :
  window_list f (v :: l) ↔
  (∃ x, f v = Some x ∧ w_addr x = v ∧ reg_ok x ∧ ∀ v' x', v' ∈ l → f v' = Some x' → apart x x') ∧ window_list f l.
Proof.
  unfold window_list. split.
  - intros [Hf Hs]. inversion Hf as [|?? (x & Hx & Ha & Hr) Hf']; inversion Hs as [|?? Hs' Hv]; subst.
    split; [|done]. exists x. split_and!; try done. intros v' x' Hv' Hx'. rewrite Forall_forall in Hv. by eapply Hv.
  - intros [(x & Hx & Ha & Hr & Hv) [Hf Hs]]. split; constructor; try done; [by exists x|].
    apply Forall_forall. intros v' Hv' y y' Hy Hy'. simplify_eq. by eapply Hv.
Qed.

Lemma window_list_elem f l v : window_list f l → v ∈ l → ∃ x, f v = Some x ∧ w_addr x = v ∧ reg_ok x.
Proof. intros [Hf _] Hv. rewrite Forall_forall in Hf. by apply Hf. Qed.

Lemma range_some (f g : Z → option scif_window) v x : range <$> f v = range <$> g v → f v = Some x → ∃ y, g v = Some y ∧ range y = range x.
Proof. intros Hr Hx. rewrite Hx in Hr. destruct (g v) as [y|]; [|done]. injection Hr as Hr. exists y. split; [done|]. unfold range. congruence. Qed.

Lemma range_ok x y : range y = range x → (reg_ok x → reg_ok y) ∧ w_addr y = w_addr x.
Proof. unfold range, reg_ok. intros [= -> -> ->]. done. Qed.

Lemma range_apart x y x' y' : range x' = range x → range y' = range y → apart x y → apart x' y'.
Proof. unfold range, apart. intros [= _ Ho Hn] [= _ Ho' Hn']. lia. Qed.

Lemma window_list_ext f g l :
  (∀ v, v ∈ l → range <$> f v = range <$> g v) → window_list f l → window_list g l.
Proof.
  induction l as [|v l IH]; [intros; apply window_list_nil|].
  intros Hr. rewrite !window_list_cons. intros [(x & Hx & Ha & Hok & Hap) Hl].
  destruct (range_some _ _ _ _ (Hr v ltac:(left)) Hx) as (y & Hy & Hry). destruct (range_ok _ _ Hry) as [Hok' Ha'].
  split; [|apply IH; [intros; apply Hr; by right|done]].
  exists y. split_and!; [done|congruence|auto|]. intros v' y' Hv' Hy'.
  destruct (range_some _ _ v' y' (eq_sym (Hr v' ltac:(by right))) Hy') as (x' & Hx' & Hrx').
  eapply range_apart; [apply Hry|symmetry; apply Hrx'|]. by eapply Hap.
Qed.

Lemma window_list_reg f l : window_list f l → reg_list_ok (omap f l) ∧ w_addr <$> omap f l = l.
Proof.
  induction l as [|v l IH]; [intros _; split; [split; constructor|done]|].
  rewrite window_list_cons. intros [(x & Hx & Ha & Hok & Hap) Hl]. destruct (IH Hl) as [[Hf Hs] Hm].
  cbn [omap list_omap]. rewrite Hx. cbn. fold (omap f l). rewrite Hm, Ha. split; [|done].
  split; constructor; try done. apply Forall_forall. intros x' Hx'.
  apply list_elem_of_omap in Hx' as (v' & Hv' & Hx'). by eapply Hap.
Qed.

Lemma window_list_filter (P : Z → Prop) `{∀ v, Decision (P v)} f l : window_list f l → window_list f (filter P l).
Proof.
  induction l as [|v l IH]; [done|]. rewrite window_list_cons. intros [(x & Hx & Ha & Hok & Hap) Hl].
  rewrite filter_cons. destruct (decide (P v)); [|by apply IH]. apply window_list_cons. split; [|by apply IH].
  exists x. split_and!; try done. intros v' x' Hv'. apply list_elem_of_filter in Hv' as [_ Hv']. by apply Hap.
Qed.

Lemma insert_elem x l v : v ∈ w_addr <$> scif_insert_window x l ↔ v = w_addr x ∨ v ∈ w_addr <$> l.
Proof.
  unfold scif_insert_window. rewrite (fmap_Permutation w_addr _ _ (insert_by_perm offset x l)), fmap_cons. set_solver.
Qed.

Lemma window_list_insert f l v x :
  window_list f l → f v = Some x → w_addr x = v → reg_ok x →
  (∀ v' x', v' ∈ l → f v' = Some x' → disjoint x x') →
  window_list f (w_addr <$> scif_insert_window x (omap f l)).
Proof.
  unfold scif_insert_window. intros Hl Hx Ha Hok. induction l as [|u l IH]; intros Hd.
  { cbn. rewrite Ha. apply window_list_cons. split; [|done]. exists x. split_and!; try done. set_solver. }
  pose proof Hl as Hl0. apply window_list_cons in Hl as [(y & Hy & Hay & Hoky & Hap) Hl].
  destruct (window_list_reg f l Hl) as [_ Hm].
  cbn [omap list_omap]. rewrite Hy. cbn. fold (omap f l).
  pose proof (Hd u y ltac:(left) Hy) as Hdu. unfold disjoint, apart in Hdu. destruct Hok as (? & ? & ?) eqn:Eok.
  destruct Hoky as (? & ? & ?) eqn:Eoky. destruct (Z.ltb_spec (offset x) (offset y)).
  - cbn. rewrite Ha, Hm, Hay. apply window_list_cons. split; [|done].
    exists x. split_and!; try done. intros v' x' [->|Hv']%elem_of_cons Hx'; simplify_eq; [unfold apart; lia|].
    specialize (Hap _ _ Hv' Hx'). unfold apart in *. lia.
  - cbn. rewrite Hay. apply window_list_cons. split.
    + exists y. split_and!; try done. intros v' x' Hv' Hx'.
      apply insert_elem in Hv' as [->|Hv']; [rewrite Ha in Hx'; simplify_eq; unfold apart; lia|].
      rewrite Hm in Hv'. by eapply Hap.
    + apply IH; [done|]. intros v' x' Hv'. apply Hd. by right.
Qed.

Lemma window_list_nodup f l : window_list f l → NoDup l.
Proof.
  induction l as [|v l IH]; [constructor|]. rewrite window_list_cons. intros [(x & Hx & _ & (_ & Hn & _) & Hap) Hl].
  apply NoDup_cons. split; [|by apply IH]. intros Hv. specialize (Hap _ _ Hv Hx). unfold apart in Hap. lia.
Qed.

(** The query that [scif_recv_unreg] makes finds the window itself. *)
Lemma query_full f l v x :
  window_list f l → v ∈ l → f v = Some x →
  scif_query_window (Req (offset x) (Z.shiftl (nr_pages x) PAGE_SHIFT) 0 SCIF_WINDOW_FULL) (omap f l) = (0, Some x).
Proof.
  intros Hl Hv Hx. unfold scif_query_window. cbn [nr_bytes r_start].
  destruct (window_list_elem _ _ _ Hl Hv) as (x0 & Hx0 & Hax & Hokx). assert (x0 = x) as -> by congruence. pose proof Hokx as (Ho & Hn & He).
  unfold PAGE_SHIFT. rewrite Z.shiftl_mul_pow2 by lia. change (2 ^ 12) with 4096.
  destruct (Z.eqb_spec (nr_pages x * 4096) 0); [lia|]. generalize (@None scif_window) as out.
  induction l as [|u l IH]; [set_solver|]. intros out.
  apply window_list_cons in Hl as [(y & Hy & Hay & Hoky & Hap) Hl].
  cbn [omap list_omap]. rewrite Hy. fold (omap f l).
  rewrite query_loop_cons by (done || lia). cbv zeta. cbn [nr_bytes r_prot r_type]. apply elem_of_cons in Hv as [Hu|Hv].
  - assert (y = x) as -> by congruence. destruct (Z.ltb_spec (offset x) (offset x)); [lia|].
    destruct (Z.leb_spec (offset x + nr_pages x * 4096) (offset x)); [lia|].
    rewrite Z.land_0_r, !Z.eqb_refl. cbn [negb]. destruct (Z.leb_spec (offset x + nr_pages x * 4096) (offset x + nr_pages x * 4096)); [|lia].
    by rewrite bool_decide_false by (intros [?|?]; done).
  - pose proof (Hap _ _ Hv Hx) as Hap'. unfold apart in Hap'. destruct Hoky as (? & ? & ?).
    destruct (Z.ltb_spec (offset x) (offset y)); [lia|].
    destruct (Z.leb_spec (offset y + nr_pages y * 4096) (offset x)); [|lia]. by apply IH.
Qed.

End ScifRegList.
