(* ===== verification/ScifRegInv.v ===== *)
(** * Both nodes agree on the registered windows

    Every window of node A is in one of the stages of its life, which fixes the messages
    about it that are on their way and the memory it holds at node B ([stage]); the
    invariant says so for all windows, and what the lists and offsets have to do with it. *)
From S2P Require Import Prelude Ports Endpoint NodeQp RmaList DmaWindow ScifDma ScifRma ScifReg ScifRegList.
Local Open Scope Z_scope.

Module ScifRegInv.
Import RmaList DmaWindow NodeQp ScifReg ScifRegList.

(** ** Stages of a window *)

(** The window of node A that a message is about; that a message frees one of node B. *)
Definition target (m : scifmsg) : Z :=
  if (uop m =? SCIF_UNREGISTER) || (uop m =? SCIF_DELETE_WINDOW) || (uop m =? SCIF_USED_WINDOW) then payload1 m else payload2 m.
Definition is_free (m : scifmsg) : bool := uop m =? SCIF_FREE_VIRT.
Definition about (w : Z) (m : scifmsg) : bool := negb (is_free m) && (target m =? w).

Definition msgs (w : Z) (l : list scifmsg) : list scifmsg := List.filter (about w) l.
Definition frees (l : list scifmsg) : list Z := payload1 <$> List.filter is_free l.

(** The DMA address at the peer of one at node A. *)
Definition converted (k : link) (da : Z) : Z := if k_mgmt k then da else peer_addr (k_p2p k) (k_base k) da.
Definition fixed_up (k : link) (da : Z) : Z := match k_aper k with Some pa => u64 (da + pa) | None => da end.

(** The remote window describes the same memory as the local one. *)
Record same_window (conv : Z → Z) (w : Z) (l : local_window) (r : remote_window) : Prop := {
  sw_peer : peer_window r = w;
  sw_offset : w_offset (rw r) = w_offset (lw l);
  sw_pages : nr_pages (win (rw r)) = nr_pages (win (lw l));
  sw_prot : prot (win (rw r)) = prot (win (lw l));
  sw_chunks : nr_contig_chunks (rw r) = nr_contig_chunks (lw l);
  sw_num : num_pages (rw r) = num_pages (lw l);
  sw_dma : dma_addr (rw r) = conv <$> dma_addr (lw l);
}.

Definition waits (l : local_window) : Prop := (∃ err, l_pc l = Incomplete err) ∨ l_pc l = Prep 0.
Definition ustate (l : local_window) : scif_unreg_state := unreg_state (win (lw l)).
Definition rstate (r : remote_window) : scif_unreg_state := unreg_state (win (rw r)).

Section Stage.
Context (k : link) (w : Z).

Definition at_peer (l : local_window) (r : remote_window) : Prop := same_window (fixed_up k ∘ converted k) w l r.

(** The window at node A, the messages about it in both directions, and the window it
    holds at node B with whether that is listed. *)
Inductive stage : option local_window → list scifmsg → list scifmsg → option Z → option (remote_window * bool) → Prop :=
  | st_none : stage None [] [] None None
  | st_req l n : waits l → alloc_state l = OP_IN_PROGRESS → n = nr_pages (win (lw l)) →
      stage (Some l) [mk_msg SCIF_ALLOC_REQ 0 n w] [] None None
  | st_rej_msg l p0 p1 : waits l → alloc_state l = OP_IN_PROGRESS → stage (Some l) [] [mk_msg SCIF_ALLOC_REJ p0 p1 w] None None
  | st_rej l : waits l → alloc_state l = OP_FAILED → stage (Some l) [] [] None None
  | st_gnt_msg l v r p1 : waits l → alloc_state l = OP_IN_PROGRESS → nr_pages (win (rw r)) = nr_pages (win (lw l)) →
      stage (Some l) [] [mk_msg SCIF_ALLOC_GNT v p1 w] (Some v) (Some (r, false))
  | st_gnt l v r : waits l → alloc_state l = OP_COMPLETED → alloc_vaddr (win (lw l)) = v → nr_pages (win (rw r)) = nr_pages (win (lw l)) →
      stage (Some l) [] [] (Some v) (Some (r, false))
  | st_reg l v r : l_pc l = WaitReg → reg_state l = OP_IN_PROGRESS → alloc_vaddr (win (lw l)) = v →
      same_window (converted k) w l r → rstate r = SCIF_UNREG_NOT_INITIATED →
      stage (Some l) [mk_msg SCIF_REGISTER 0 v w] [] (Some v) (Some (r, false))
  | st_ack l v r : l_pc l = WaitReg → reg_state l = OP_IN_PROGRESS → alloc_vaddr (win (lw l)) = v → at_peer l r →
      rstate r = SCIF_UNREG_NOT_INITIATED → stage (Some l) [] [mk_msg SCIF_REGISTER_ACK 0 v w] (Some v) (Some (r, true))
  | st_acked l v r : l_pc l = WaitReg → reg_state l = OP_COMPLETED → alloc_vaddr (win (lw l)) = v → at_peer l r →
      rstate r = SCIF_UNREG_NOT_INITIATED → stage (Some l) [] [] (Some v) (Some (r, true))
  | st_nack l v : l_pc l = WaitReg → reg_state l = OP_IN_PROGRESS → stage (Some l) [] [mk_msg SCIF_REGISTER_NACK 0 v w] None None
  | st_nacked l : l_pc l = WaitReg → reg_state l = OP_FAILED → stage (Some l) [] [] None None
  | st_done l v r : l_pc l = Listed → ustate l = SCIF_UNREG_NOT_INITIATED → alloc_vaddr (win (lw l)) = v → at_peer l r →
      rstate r = SCIF_UNREG_NOT_INITIATED → stage (Some l) [] [] (Some v) (Some (r, true))
  | st_unreg l v r : l_pc l = Listed → ustate l = SCIF_UNREG_REQUESTED → at_peer l r →
      rstate r = SCIF_UNREG_NOT_INITIATED → stage (Some l) [mk_msg SCIF_UNREGISTER v w 0] [] (Some v) (Some (r, true))
  | st_used l v r : l_pc l = Listed → ustate l = SCIF_UNREG_REQUESTED → at_peer l r → rstate r = SCIF_UNREG_REQUESTED →
      stage (Some l) [] [mk_msg SCIF_USED_WINDOW 0 w 0] (Some v) (Some (r, true))
  | st_used_del l : l_pc l = Listed → ustate l = SCIF_UNREG_REQUESTED →
      stage (Some l) [] [mk_msg SCIF_USED_WINDOW 0 w 0; mk_msg SCIF_DELETE_WINDOW 0 w 0] None None
  | st_denied l v r : l_pc l = Listed → ustate l = SCIF_UNREG_DENIED → at_peer l r → rstate r = SCIF_UNREG_REQUESTED →
      stage (Some l) [] [] (Some v) (Some (r, true))
  | st_del l : l_pc l = Listed → ustate l = SCIF_UNREG_REQUESTED ∨ ustate l = SCIF_UNREG_DENIED →
      stage (Some l) [] [mk_msg SCIF_DELETE_WINDOW 0 w 0] None None
  | st_deleted l : l_pc l = Deleted → stage (Some l) [] [] None None.

End Stage.

(** ** The invariant *)

(** The window at node B that one of node A holds, and whether it is listed. *)
Definition remote_at (rm : gmap Z remote_window) (rl : list Z) (o : option Z) : option (remote_window * bool) :=
  v ← o; r ← rm !! v; Some (r, bool_decide (v ∈ rl)).

(** [own]: the window of node B that one of node A holds. *)
Definition stages (k : link) (own : gmap Z Z) (s : net) : Prop :=
  ∀ w, stage k w (locals s !! w) (msgs w (a2b s)) (msgs w (b2a s)) (own !! w) (remote_at (remotes s) (remote_reg_list s) (own !! w)).

Definition pfn (l : local_window) : Z := Z.shiftr (w_offset (lw l)) PAGE_SHIFT.

(** A window of node A by itself. *)
Record local_ok (w : Z) (l : local_window) : Prop := {
  lk_addr : w_addr (win (lw l)) = w;
  lk_reg : reg_ok (win (lw l));
  lk_small : nr_pages (win (lw l)) < 2 ^ 31;
  lk_aligned : w_offset (lw l) = pfn l * 4096;
  lk_len : length (dma_addr (lw l)) = length (num_pages (lw l));
  lk_chunks : nr_contig_chunks (lw l) = zlen (num_pages (lw l));
  lk_num : Forall (fun n => n ≠ 0) (num_pages (lw l));
  lk_unreg : l_pc l ≠ Listed → l_pc l ≠ Deleted → ustate l = SCIF_UNREG_NOT_INITIATED;
  lk_freed : offset_freed l = bool_decide (l_pc l = Deleted);
}.

Definition local_win (m : gmap Z local_window) (w : Z) : option scif_window := (fun l => win (lw l)) <$> m !! w.
Definition remote_win (m : gmap Z remote_window) (v : Z) : option scif_window := (fun r => win (rw r)) <$> m !! v.

(** Windows that are not deleted hold the range of their offsets. *)
Record iova_ok (m : gmap Z local_window) (d : gmap Z Z) : Prop := {
  io_held : ∀ w l, m !! w = Some l → l_pc l ≠ Deleted → ∃ hi, d !! pfn l = Some hi ∧ pfn l + nr_pages (win (lw l)) - 1 <= hi;
  io_own : ∀ w w' l l', m !! w = Some l → m !! w' = Some l' → l_pc l ≠ Deleted → l_pc l' ≠ Deleted → pfn l = pfn l' → w = w';
  io_apart : ∀ lo lo' hi hi', d !! lo = Some hi → d !! lo' = Some hi' → lo ≠ lo' → hi < lo' ∨ hi' < lo;
}.

(** Node A: its windows, [reg_list], the queue of windows to destroy, the offsets. *)
Record a_ok (m : gmap Z local_window) (rl q : list Z) (d : gmap Z Z) : Prop := {
  ak_local : ∀ w l, m !! w = Some l → local_ok w l;
  ak_reg : ∀ w, w ∈ rl ↔ ∃ l, m !! w = Some l ∧ l_pc l = Listed;
  ak_del : ∀ w, w ∈ q ↔ ∃ l, m !! w = Some l ∧ l_pc l = Deleted;
  ak_nodup : NoDup q;
  ak_list : window_list (local_win m) rl;
  ak_iova : iova_ok m d;
}.

(** Node B: its windows, [remote_reg_list], and the windows to be freed, which a message
    names or are in the queue. *)
Record b_ok (own : gmap Z Z) (m : gmap Z remote_window) (rl qs : list Z) : Prop := {
  bk_inj : ∀ w w' v, own !! w = Some v → own !! w' = Some v → w = w';
  bk_own : ∀ w v, own !! w = Some v → is_Some (m !! v);
  bk_addr : ∀ v r, m !! v = Some r → w_addr (win (rw r)) = v;
  bk_unreg : ∀ v r, m !! v = Some r → rstate r ≠ SCIF_UNREG_ACCEPTED;
  bk_list : window_list (remote_win m) rl;
  bk_listed : ∀ v, v ∈ rl → ∃ w, own !! w = Some v;
  bk_nodup : NoDup qs;
  bk_queued : ∀ v, v ∈ qs → is_Some (m !! v) ∧ ∀ w, own !! w ≠ Some v;
  bk_cover : ∀ v, is_Some (m !! v) → v ∈ qs ∨ ∃ w, own !! w = Some v;
}.

Definition inv (k : link) (s : net) : Prop :=
  a_ok (locals s) (reg_list s) (a_rma s) (iovad s) ∧
  ∃ own, b_ok own (remotes s) (remote_reg_list s) (frees (a2b s) ++ b_rma s) ∧ stages k own s.

(** ** Node A *)

Lemma page_index z : Z.shiftr z PAGE_SHIFT = z / 4096.
Proof. unfold PAGE_SHIFT. by rewrite Z.shiftr_div_pow2 by lia. Qed.

Lemma ex_insert (m : gmap Z local_window) w w0 l l' P :
  m !! w = Some l → (P l' ↔ P l) → (∃ l0, <[w:=l']> m !! w0 = Some l0 ∧ P l0) ↔ ∃ l0, m !! w0 = Some l0 ∧ P l0.
Proof.
  intros Hl HP. destruct (decide (w0 = w)) as [->|]; [|by rewrite lookup_insert_ne].
  rewrite lookup_insert_eq, Hl. split; intros (l0 & [= <-] & ?); [exists l|exists l']; tauto.
Qed.

Lemma ex_new (m : gmap Z local_window) w w0 l (P : local_window → Prop) :
  m !! w = None → ¬ P l → (∃ l0, <[w:=l]> m !! w0 = Some l0 ∧ P l0) ↔ ∃ l0, m !! w0 = Some l0 ∧ P l0.
Proof.
  intros Hl HP. destruct (decide (w0 = w)) as [->|]; [|by rewrite lookup_insert_ne].
  rewrite lookup_insert_eq, Hl. split; intros (l0 & [= <-] & ?); tauto.
Qed.

Lemma ex_delete (m : gmap Z local_window) w w0 l (P : local_window → Prop) :
  m !! w = Some l → ¬ P l → (∃ l0, delete w m !! w0 = Some l0 ∧ P l0) ↔ ∃ l0, m !! w0 = Some l0 ∧ P l0.
Proof.
  intros Hl HP. destruct (decide (w0 = w)) as [->|]; [|by rewrite lookup_delete_ne].
  rewrite lookup_delete_eq, Hl. split; intros (l0 & [= <-] & ?); tauto.
Qed.

Lemma in_rl {m rl q d w l} : a_ok m rl q d → m !! w = Some l → w ∈ rl ↔ l_pc l = Listed.
Proof. intros Ha Hl. rewrite (ak_reg _ _ _ _ Ha). split; [intros (? & ? & ?); by simplify_eq|by exists l]. Qed.

Lemma in_q {m rl q d w l} : a_ok m rl q d → m !! w = Some l → w ∈ q ↔ l_pc l = Deleted.
Proof. intros Ha Hl. rewrite (ak_del _ _ _ _ Ha). split; [intros (? & ? & ?); by simplify_eq|by exists l]. Qed.

Lemma pfn_range l l' : range (win (lw l')) = range (win (lw l)) → pfn l' = pfn l ∧ nr_pages (win (lw l')) = nr_pages (win (lw l)).
Proof. unfold range, pfn, w_offset. intros [= _ -> ->]. done. Qed.

(** Different windows have disjoint ranges. *)
Lemma a_disjoint m rl q d w w' l l' :
  a_ok m rl q d → m !! w = Some l → m !! w' = Some l' → l_pc l ≠ Deleted → l_pc l' ≠ Deleted → w ≠ w' →
  disjoint (win (lw l)) (win (lw l')).
Proof.
  intros Ha Hl Hl' Hd Hd' Hne. destruct (ak_iova _ _ _ _ Ha) as [Hheld Hown Hap].
  destruct (Hheld _ _ Hl Hd) as (hi & Hi & Hn), (Hheld _ _ Hl' Hd') as (hi' & Hi' & Hn').
  pose proof (lk_aligned _ _ (ak_local _ _ _ _ Ha _ _ Hl)) as Ho. pose proof (lk_aligned _ _ (ak_local _ _ _ _ Ha _ _ Hl')) as Ho'.
  unfold w_offset in *. unfold disjoint, apart.
  destruct (Hap _ _ _ _ Hi Hi'); [|lia|lia]. intros E. apply Hne. by eapply Hown.
Qed.

(** Changes of a window that keep its range and its place in the lists. *)
Lemma a_upd m rl q d w l l' :
  a_ok m rl q d → m !! w = Some l → local_ok w l' → range (win (lw l')) = range (win (lw l)) →
  (l_pc l' = Listed ↔ l_pc l = Listed) → (l_pc l' = Deleted ↔ l_pc l = Deleted) → a_ok (<[w:=l']> m) rl q d.
Proof.
  intros Ha Hl Hok Hr HL HD. pose proof Ha as [Hloc Hreg Hdel Hnd Hlist [Hheld Hown Hap]].
  destruct (pfn_range _ _ Hr) as [Hp Hn].
  assert (∀ w0 l0, <[w:=l']> m !! w0 = Some l0 → ∃ l1, m !! w0 = Some l1 ∧ pfn l0 = pfn l1 ∧
    nr_pages (win (lw l0)) = nr_pages (win (lw l1)) ∧ (l_pc l0 = Deleted ↔ l_pc l1 = Deleted)) as Hback.
  { intros w0 l0 [[-> <-]|[? ?]]%lookup_insert_Some; [by exists l|by exists l0]. }
  split; try done.
  - intros w0 l0 [[-> <-]|[? ?]]%lookup_insert_Some; auto.
  - intros w0. by rewrite Hreg, (ex_insert m w w0 l l').
  - intros w0. by rewrite Hdel, (ex_insert m w w0 l l').
  - eapply window_list_ext, Hlist. intros v Hv. unfold local_win. destruct (decide (v = w)) as [->|].
    + rewrite lookup_insert_eq, Hl. cbn. by rewrite Hr.
    + by rewrite lookup_insert_ne.
  - split; [| |done].
    + intros w0 l0 H0 Hd0. destruct (Hback _ _ H0) as (l1 & H1 & -> & -> & Hiff). eapply Hheld; [done|tauto].
    + intros w0 w1 l0 l1 H0 H1 Hd0 Hd1 E. destruct (Hback _ _ H0) as (l0' & H0' & Hp0 & _ & Hiff0), (Hback _ _ H1) as (l1' & H1' & Hp1 & _ & Hiff1).
      eapply Hown; [done|done|tauto|tauto|congruence].
Qed.

(** A window that starts, with a range of its own. *)
Lemma a_new m rl q d w l hi :
  a_ok m rl q d → m !! w = None → local_ok w l → l_pc l ≠ Listed → l_pc l ≠ Deleted →
  pfn l + nr_pages (win (lw l)) - 1 <= hi → (∀ lo' hi', d !! lo' = Some hi' → hi' < pfn l ∨ hi < lo') →
  a_ok (<[w:=l]> m) rl q (<[pfn l:=hi]> d).
Proof.
  intros Ha Hw Hok HL HD Hhi Hfree. pose proof Ha as [Hloc Hreg Hdel Hnd Hlist [Hheld Hown Hap]].
  destruct (lk_reg _ _ Hok) as (_ & Hpos & _).
  assert (∀ w' l', m !! w' = Some l' → l_pc l' ≠ Deleted → pfn l' ≠ pfn l) as Hnew.
  { intros w' l' Hl' Hd' E. destruct (Hheld _ _ Hl' Hd') as (hi' & Hi' & Hn').
    destruct (lk_reg _ _ (Hloc _ _ Hl')) as (_ & Hpos' & _). destruct (Hfree _ _ Hi'); lia. }
  split; try done.
  - intros w0 l0 [[-> <-]|[? ?]]%lookup_insert_Some; auto.
  - intros w0. by rewrite Hreg, (ex_new m w w0 l).
  - intros w0. by rewrite Hdel, (ex_new m w w0 l).
  - eapply window_list_ext, Hlist. intros v Hv. unfold local_win. rewrite lookup_insert_ne; [done|].
    intros <-. apply Hreg in Hv as (? & ? & _). by simplify_eq.
  - split.
    + intros w0 l0 [[-> <-]|[Hne Hl0]]%lookup_insert_Some Hd0; [exists hi; by rewrite lookup_insert_eq|].
      rewrite lookup_insert_ne by (intros E; by eapply Hnew). by eapply Hheld.
    + intros w0 w1 l0 l1 [[-> <-]|[Hne0 Hl0]]%lookup_insert_Some [[-> <-]|[Hne1 Hl1]]%lookup_insert_Some Hd0 Hd1 E;
        [done|by destruct (Hnew _ _ Hl1)|by destruct (Hnew _ _ Hl0)|by eapply Hown].
    + intros lo lo' h h' [[<- <-]|[Hne0 Hl0]]%lookup_insert_Some [[<- <-]|[Hne1 Hl1]]%lookup_insert_Some Hne;
        [done|destruct (Hfree _ _ Hl1); auto|destruct (Hfree _ _ Hl0); auto|by eapply Hap].
Qed.

(** A window that is given up before it is listed. *)
Lemma a_free m rl q d w l :
  a_ok m rl q d → m !! w = Some l → l_pc l ≠ Listed → l_pc l ≠ Deleted → a_ok (delete w m) rl q (delete (pfn l) d).
Proof.
  intros Ha Hl HL HD. pose proof Ha as [Hloc Hreg Hdel Hnd Hlist [Hheld Hown Hap]].
  split; try done.
  - intros w0 l0 [? ?]%lookup_delete_Some. auto.
  - intros w0. by rewrite Hreg, (ex_delete m w w0 l).
  - intros w0. by rewrite Hdel, (ex_delete m w w0 l).
  - eapply window_list_ext, Hlist. intros v Hv. unfold local_win. rewrite lookup_delete_ne; [done|].
    intros <-. by apply (in_rl Ha Hl) in Hv.
  - split.
    + intros w0 l0 [Hne Hl0]%lookup_delete_Some Hd0. rewrite lookup_delete_ne by (intros E; by destruct Hne; eapply Hown). by eapply Hheld.
    + intros w0 w1 l0 l1 [? ?]%lookup_delete_Some [? ?]%lookup_delete_Some. by eapply Hown.
    + intros lo lo' h h' [? ?]%lookup_delete_Some [? ?]%lookup_delete_Some. by eapply Hap.
Qed.

(** [scif_insert_local_window]. *)
Lemma a_insert m rl q d w l :
  a_ok m rl q d → m !! w = Some l → l_pc l ≠ Listed → l_pc l ≠ Deleted →
  a_ok (<[w:=with_pc l Listed]> m) (w_addr <$> scif_insert_window (win (lw l)) (omap (local_win m) rl)) q d.
Proof.
  intros Ha Hl HL HD. pose proof Ha as [Hloc Hreg Hdel Hnd Hlist [Hheld Hown Hap]].
  set (m' := <[w:=with_pc l Listed]> m). pose proof (Hloc _ _ Hl) as [Haddr Hrok Hsm Hal Hlen Hch Hnz Hun Hfr].
  assert (w ∉ rl) as Hnin by (by rewrite (in_rl Ha Hl)).
  assert (window_list (local_win m') rl) as Hlist'.
  { eapply window_list_ext, Hlist. intros v Hv. unfold local_win, m'. rewrite lookup_insert_ne; [done|set_solver]. }
  assert (omap (local_win m) rl = omap (local_win m') rl) as ->.
  { apply list_omap_ext, Forall_Forall2_diag, Forall_forall. intros v Hv. unfold local_win, m'. rewrite lookup_insert_ne; [done|set_solver]. }
  destruct (window_list_reg _ _ Hlist') as [_ Hmap].
  split; try done.
  - intros w0 l0 [[-> <-]|[? ?]]%lookup_insert_Some; [|auto]. split; try done.
    cbn. rewrite Hfr. by rewrite !bool_decide_false.
  - intros w0. rewrite insert_elem, Hmap, Hreg, Haddr. unfold m'. destruct (decide (w0 = w)) as [->|].
    + rewrite lookup_insert_eq. split; [intros _; by eexists|by left].
    + rewrite lookup_insert_ne by done. split; [intros [?|?]; done|by right].
  - intros w0. unfold m'. by rewrite Hdel, (ex_insert m w w0 l).
  - apply (window_list_insert _ _ w); try done; [unfold local_win, m'; by rewrite lookup_insert_eq|].
    intros v x Hv. unfold local_win, m'. rewrite lookup_insert_ne by set_solver.
    intros (l' & Hl' & ->)%fmap_Some. apply (in_rl Ha Hl') in Hv. eapply a_disjoint; try done; congruence || set_solver.
  - split; [| |done].
    + intros w0 l0 [[-> <-]|[? ?]]%lookup_insert_Some Hd0; [by apply (Hheld _ _ Hl)|by eapply Hheld].
    + intros w0 w1 l0 l1 [[-> <-]|[Hne0 Hl0]]%lookup_insert_Some [[-> <-]|[Hne1 Hl1]]%lookup_insert_Some Hd0 Hd1 E;
        [done|by eapply (Hown _ _ l)|by eapply (Hown _ _ _ l)|by eapply Hown].
Qed.

(** [scif_recv_del_window]. *)
Lemma a_del m rl q d w l l' :
  a_ok m rl q d → m !! w = Some l → l_pc l = Listed → l_pc l' = Deleted → local_ok w l' →
  a_ok (<[w:=l']> m) (list_del w rl) (q ++ [w]) (delete (pfn l) d).
Proof.
  intros Ha Hl HL HD Hok. pose proof Ha as [Hloc Hreg Hdel Hnd Hlist [Hheld Hown Hap]].
  assert (w ∉ q) as Hq by (rewrite (in_q Ha Hl); congruence).
  split.
  - intros w0 l0 [[-> <-]|[? ?]]%lookup_insert_Some; auto.
  - intros w0. unfold list_del. rewrite list_elem_of_filter, Hreg. destruct (decide (w0 = w)) as [->|].
    + rewrite lookup_insert_eq. split; [tauto|]. intros (? & [= <-] & ?). congruence.
    + rewrite lookup_insert_ne by done. tauto.
  - intros w0. rewrite elem_of_app, list_elem_of_singleton, Hdel. destruct (decide (w0 = w)) as [->|].
    + rewrite lookup_insert_eq. split; [intros _; by eexists|by right].
    + rewrite lookup_insert_ne by done. tauto.
  - apply NoDup_app. split_and!; [done|set_solver|apply NoDup_singleton].
  - eapply window_list_ext, (window_list_filter _ _ _ Hlist). intros v [Hv _]%list_elem_of_filter. unfold local_win.
    by rewrite lookup_insert_ne.
  - split.
    + intros w0 l0 [[-> <-]|[Hne Hl0]]%lookup_insert_Some Hd0; [done|].
      rewrite lookup_delete_ne by (intros E; destruct Hne; eapply Hown; try done; congruence). by eapply Hheld.
    + intros w0 w1 l0 l1 [[-> <-]|[Hne0 Hl0]]%lookup_insert_Some [[-> <-]|[Hne1 Hl1]]%lookup_insert_Some Hd0 Hd1 E; try done.
      by eapply Hown.
    + intros lo lo' h h' [? ?]%lookup_delete_Some [? ?]%lookup_delete_Some. by eapply Hap.
Qed.

(** [scif_destroy_window] for a queued window. *)
Lemma a_destroy m rl q d w l : a_ok m rl (w :: q) d → m !! w = Some l → a_ok (delete w m) rl q d.
Proof.
  intros Ha Hl. pose proof Ha as [Hloc Hreg Hdel Hnd Hlist [Hheld Hown Hap]].
  assert (l_pc l = Deleted) as HD by (apply (in_q Ha Hl); left). apply NoDup_cons in Hnd as [Hnin Hnd].
  assert (w ∉ rl) as Hrl by (rewrite (in_rl Ha Hl); congruence).
  split; try done.
  - intros w0 l0 [? ?]%lookup_delete_Some. auto.
  - intros w0. rewrite Hreg, (ex_delete m w w0 l); [done|done|congruence].
  - intros w0. specialize (Hdel w0). rewrite elem_of_cons in Hdel. destruct (decide (w0 = w)) as [->|].
    + rewrite lookup_delete_eq. split; [done|intros (? & ? & _); done].
    + rewrite lookup_delete_ne by done. rewrite <- Hdel. tauto.
  - eapply window_list_ext, Hlist. intros v Hv. unfold local_win. rewrite lookup_delete_ne; [done|set_solver].
  - split; [| |done].
    + intros w0 l0 [? ?]%lookup_delete_Some. by eapply Hheld.
    + intros w0 w1 l0 l1 [? ?]%lookup_delete_Some [? ?]%lookup_delete_Some. by eapply Hown.
Qed.

(** ** Node B *)

Lemma b_notin own m rl qs w v : b_ok own m rl qs → own !! w = Some v → v ∉ qs.
Proof. intros Hb Hw Hv. by destruct (bk_queued _ _ _ _ Hb _ Hv) as [_ []%(λ H, H w)]. Qed.

Lemma list_del_elem x y l : y ∈ list_del x l ↔ y ≠ x ∧ y ∈ l.
Proof. unfold list_del. by rewrite list_elem_of_filter. Qed.

Lemma list_del_id x l : x ∉ l → list_del x l = l.
Proof. intros Hx. unfold list_del. apply filter_all, Forall_forall. by intros y Hy ->. Qed.

Lemma b_perm own m rl qs qs' : qs ≡ₚ qs' → b_ok own m rl qs → b_ok own m rl qs'.
Proof.
  intros Hp [H1 H2 H3 Hun H4 H5 H6 H7 Hcov].
  split; try done; [by rewrite <- Hp|intros v; rewrite <- Hp; apply H7|intros v; rewrite <- Hp; apply Hcov].
Qed.

Lemma b_upd own m rl qs v r r' :
  b_ok own m rl qs → m !! v = Some r → w_addr (win (rw r')) = v → rstate r' ≠ SCIF_UNREG_ACCEPTED →
  (v ∈ rl → range (win (rw r')) = range (win (rw r))) → b_ok own (<[v:=r']> m) rl qs.
Proof.
  intros [H1 H2 H3 Hun H4 H5 H6 H7 Hcov] Hr Ha Hacc Hrng.
  assert (∀ u, is_Some (m !! u) → is_Some (<[v:=r']> m !! u)) as Hs by (intros u ?; apply lookup_insert_is_Some; destruct (decide (v = u)); auto).
  split; try done.
  - intros w u Hu. by apply Hs, (H2 w).
  - intros u r0 [[<- <-]|[? ?]]%lookup_insert_Some; auto.
  - intros u r0 [[<- <-]|[? ?]]%lookup_insert_Some; eauto.
  - eapply window_list_ext, H4. intros u Hu. unfold remote_win. destruct (decide (u = v)) as [->|].
    + rewrite lookup_insert_eq, Hr. cbn. by rewrite Hrng.
    + by rewrite lookup_insert_ne.
  - intros u Hu. destruct (H7 u Hu). auto.
  - intros u [? [[<- _]|[? ?]]%lookup_insert_Some]; apply Hcov; by eexists.
Qed.

Lemma b_new own m rl qs w v r :
  b_ok own m rl qs → m !! v = None → own !! w = None → w_addr (win (rw r)) = v → rstate r ≠ SCIF_UNREG_ACCEPTED →
  b_ok (<[w:=v]> own) (<[v:=r]> m) rl qs.
Proof.
  intros [H1 H2 H3 Hun H4 H5 H6 H7 Hcov] Hv Hw Ha Hacc.
  assert (∀ w0, own !! w0 ≠ Some v) as Hno by (intros w0 E; destruct (H2 _ _ E) as [? ?]; congruence).
  assert (∀ u, is_Some (m !! u) → is_Some (<[v:=r]> m !! u)) as Hs by (intros u ?; apply lookup_insert_is_Some; destruct (decide (v = u)); auto).
  split; try done.
  - intros w0 w1 u [[<- <-]|[? E0]]%lookup_insert_Some [[<- E]|[? E1]]%lookup_insert_Some; [done|by destruct (Hno w1)|by subst; destruct (Hno w0)|by eapply H1].
  - intros w0 u [[<- <-]|[? E0]]%lookup_insert_Some; [rewrite lookup_insert_eq; by eexists|by apply Hs, (H2 w0)].
  - intros u r0 [[<- <-]|[? ?]]%lookup_insert_Some; auto.
  - intros u r0 [[<- <-]|[? ?]]%lookup_insert_Some; eauto.
  - eapply window_list_ext, H4. intros u Hu. unfold remote_win. rewrite lookup_insert_ne; [done|].
    intros <-. destruct (H5 _ Hu) as [w0 []%Hno].
  - intros u Hu. destruct (H5 _ Hu) as [w0 Hw0]. exists w0. rewrite lookup_insert_ne; [done|congruence].
  - intros u Hu. destruct (H7 u Hu) as [Hu1 Hu2]. split; [auto|]. intros w0 [[<- <-]|[? ?]]%lookup_insert_Some; [|by eapply Hu2].
    destruct Hu1. congruence.
  - intros u [? [[<- _]|[? Hu]]%lookup_insert_Some]; [right; exists w; by rewrite lookup_insert_eq|].
    destruct (Hcov u ltac:(by eexists)) as [?|[w0 Hw0]]; [by left|]. right. exists w0. rewrite lookup_insert_ne; [done|congruence].
Qed.

(** The window leaves the list; it is freed, or will be. *)
Lemma b_release own m rl qs w v :
  b_ok own m rl qs → own !! w = Some v → b_ok (delete w own) m (list_del v rl) (qs ++ [v]).
Proof.
  intros Hb Hw. pose proof (b_notin _ _ _ _ _ _ Hb Hw) as Hq. destruct Hb as [H1 H2 H3 Hun H4 H5 H6 H7 Hcov].
  split; try done.
  - intros w0 w1 u [? ?]%lookup_delete_Some [? ?]%lookup_delete_Some. by eapply H1.
  - intros w0 u [? ?]%lookup_delete_Some. by eapply H2.
  - by apply window_list_filter.
  - intros u [Hne Hu]%list_del_elem. destruct (H5 _ Hu) as [w0 Hw0]. exists w0. rewrite lookup_delete_ne; [done|congruence].
  - apply NoDup_app. split_and!; [done|set_solver|apply NoDup_singleton].
  - intros u [Hu| ->%list_elem_of_singleton]%elem_of_app.
    + destruct (H7 _ Hu) as [? Hn]. split; [done|]. intros w0 [? ?]%lookup_delete_Some. by eapply Hn.
    + split; [by eapply H2|]. intros w0 [Hne Hw0]%lookup_delete_Some. apply Hne. by eapply H1.
  - intros u Hu. destruct (Hcov u Hu) as [?|[w0 Hw0]]; [left; set_solver|]. destruct (decide (w0 = w)) as [->|Hne].
    + left. simplify_eq. set_solver.
    + right. exists w0. by rewrite lookup_delete_ne.
Qed.

Lemma b_pop own m rl qs v : b_ok own m rl (v :: qs) → b_ok own (delete v m) rl qs.
Proof.
  intros [H1 H2 H3 Hun H4 H5 [Hnin H6]%NoDup_cons H7 Hcov]. destruct (H7 v ltac:(left)) as [Hv Hno].
  assert (∀ u, u ≠ v → is_Some (m !! u) → is_Some (delete v m !! u)) as Hs by (intros u ??; by rewrite lookup_delete_ne).
  split; try done.
  - intros w u Hu. apply Hs; [intros ->; by eapply Hno|by eapply H2].
  - intros u r [? ?]%lookup_delete_Some. auto.
  - intros u r [? ?]%lookup_delete_Some. eauto.
  - eapply window_list_ext, H4. intros u Hu. unfold remote_win. rewrite lookup_delete_ne; [done|].
    intros <-. destruct (H5 _ Hu) as [w0 []%Hno].
  - intros u Hu. destruct (H7 u ltac:(by right)). split; [apply Hs; [set_solver|done]|done].
  - intros u [r [Hne Hu]%lookup_delete_Some]. destruct (Hcov u ltac:(by eexists)) as [Hin|?]; [left|by right]. set_solver.
Qed.

Lemma b_free own m rl qs w v : b_ok own m rl qs → own !! w = Some v → b_ok (delete w own) (delete v m) (list_del v rl) qs.
Proof.
  intros Hb Hw. apply b_pop. eapply b_perm; [|by apply b_release]. by rewrite Permutation_app_comm.
Qed.

Lemma b_insert own m rl qs w v r :
  b_ok own m rl qs → own !! w = Some v → m !! v = Some r → v ∉ rl → reg_ok (win (rw r)) →
  (∀ v' r', v' ∈ rl → m !! v' = Some r' → disjoint (win (rw r)) (win (rw r'))) →
  b_ok own m (w_addr <$> scif_insert_window (win (rw r)) (omap (remote_win m) rl)) qs.
Proof.
  intros [H1 H2 H3 Hun H4 H5 H6 H7 Hcov] Hw Hr Hv Hok Hd. destruct (window_list_reg _ _ H4) as [_ Hmap].
  split; try done.
  - apply (window_list_insert _ _ v); try done; [unfold remote_win; by rewrite Hr|by apply H3|].
    intros v' x Hv' (r' & Hr' & ->)%fmap_Some. by eapply Hd.
  - intros u. rewrite insert_elem, Hmap, (H3 _ _ Hr). intros [->|Hu]; [by exists w|auto].
Qed.

End ScifRegInv.
