(* ===== verification/ScifRegStep.v ===== *)
(** * Changes of one window

    The steps of [ScifReg] as changes about one window, which keep what the invariant of
    [ScifRegInv] says about the others. *)
From S2P Require Import Prelude Ports Endpoint NodeQp RmaList DmaWindow ScifDma ScifRma ScifReg ScifRegList ScifRegInv.
Local Open Scope Z_scope.

Module ScifRegStep.
Import RmaList DmaWindow NodeQp ScifReg ScifRegList ScifRegInv.

#[export] Hint Rewrite @lookup_insert_eq @lookup_delete_eq : mpss.
Arguments msgs : simpl never.
Arguments frees : simpl never.
Arguments about : simpl never.

Lemma msgs_app w l l' : msgs w (l ++ l') = msgs w l ++ msgs w l'.
Proof. apply List.filter_app. Qed.
Lemma frees_app l l' : frees (l ++ l') = frees l ++ frees l'.
Proof. unfold frees. by rewrite List.filter_app, fmap_app. Qed.

Lemma msgs_one w m : msgs w [m] = if about w m then [m] else [].
Proof. done. Qed.

Lemma msgs_cons w m l : msgs w (m :: l) = if about w m then m :: msgs w l else msgs w l.
Proof. done. Qed.
Lemma frees_cons m l : frees (m :: l) = if is_free m then payload1 m :: frees l else frees l.
Proof. unfold frees. cbn. by destruct (is_free m). Qed.

Lemma about_self m w : is_free m = false → target m = w → about w m = true.
Proof. intros Hf <-. unfold about. by rewrite Hf, Z.eqb_refl. Qed.
Lemma about_other m w w' : target m = w → w' ≠ w → about w' m = false.
Proof. intros <- Hne. unfold about. destruct (Z.eqb_spec (target m) w'); [congruence|apply andb_false_r]. Qed.

Lemma about_inv m w : about w m = true → is_free m = false ∧ target m = w.
Proof. unfold about. intros [Hf Ht%Z.eqb_eq]%andb_true_iff. by apply negb_true_iff in Hf. Qed.

Lemma remote_at_ext rm rl rm' rl' o :
  (∀ v, o = Some v → rm' !! v = rm !! v ∧ (v ∈ rl' ↔ v ∈ rl)) → remote_at rm' rl' o = remote_at rm rl o.
Proof.
  destruct o as [v|]; [|done]. intros H. destruct (H v eq_refl) as [Hr Hl]. cbn. rewrite Hr.
  destruct (rm !! v) as [r|]; [|done]. cbn. by rewrite (bool_decide_ext _ _ Hl).
Qed.

Section Pre.
Context (k : link) (w : Z).

Definition stage_of (own : gmap Z Z) (s : net) (w : Z) : Prop :=
  stage k w (locals s !! w) (msgs w (a2b s)) (msgs w (b2a s)) (own !! w) (remote_at (remotes s) (remote_reg_list s) (own !! w)).

(** The invariant, but for the stage of [w]. *)
Record pre (own : gmap Z Z) (s : net) : Prop := {
  p_a : a_ok (locals s) (reg_list s) (a_rma s) (iovad s);
  p_b : b_ok own (remotes s) (remote_reg_list s) (frees (a2b s) ++ b_rma s);
  p_others : ∀ w', w' ≠ w → stage_of own s w';
}.

Lemma pre_inv s : inv k s → ∃ own, pre own s ∧ stage_of own s w.
Proof. intros (Ha & own & Hb & Hs). exists own. split; [|apply Hs]. split; try done. intros w' _. apply Hs. Qed.

Lemma inv_pre own s o ab ba ov r :
  pre own s → locals s !! w = o → msgs w (a2b s) = ab → msgs w (b2a s) = ba →
  own !! w = ov → remote_at (remotes s) (remote_reg_list s) ov = r → stage k w o ab ba ov r → inv k s.
Proof.
  intros [Ha Hb Ho] <- <- <- <- <- Hs. split; [done|]. exists own. split; [done|]. intros w'.
  destruct (decide (w' = w)) as [->|Hne]; [done|by apply Ho].
Qed.

(** What keeps the stages of the other windows. *)
Lemma others_frame own s own' s' :
  (∀ w', w' ≠ w → stage_of own s w') →
  (∀ w', w' ≠ w → locals s' !! w' = locals s !! w' ∧ msgs w' (a2b s') = msgs w' (a2b s) ∧ msgs w' (b2a s') = msgs w' (b2a s)) →
  (∀ w', w' ≠ w → own' !! w' = own !! w') →
  (∀ w' v, w' ≠ w → own !! w' = Some v → remotes s' !! v = remotes s !! v ∧ (v ∈ remote_reg_list s' ↔ v ∈ remote_reg_list s)) →
  ∀ w', w' ≠ w → stage_of own' s' w'.
Proof.
  intros Hs Hl Ho Hr w' Hne. unfold stage_of. destruct (Hl _ Hne) as (-> & -> & ->). rewrite Ho by done.
  erewrite remote_at_ext; [by apply Hs|]. intros v Hv. by eapply Hr.
Qed.

Lemma other_owned own s w' v v' :
  pre own s → own !! w = Some v → w' ≠ w → own !! w' = Some v' → v' ≠ v.
Proof. intros Hp Hv Hne Hv' ->. apply Hne. by eapply (bk_inj _ _ _ _ (p_b _ _ Hp)). Qed.

Lemma pre_put own s l l' :
  pre own s → locals s !! w = Some l → local_ok w l' → range (win (lw l')) = range (win (lw l)) →
  (l_pc l' = Listed ↔ l_pc l = Listed) → (l_pc l' = Deleted ↔ l_pc l = Deleted) → pre own (put_local w l' s).
Proof.
  intros Hp Hl Hok Hr HL HD. destruct Hp as [Ha Hb Ho]. split; [by eapply a_upd|done|].
  eapply others_frame; [done| |done|done]. intros w' Hne. cbn. by rewrite lookup_insert_ne.
Qed.

Lemma pre_send_b own s m : pre own s → is_free m = false → target m = w → pre own (send_b m s).
Proof.
  intros [Ha Hb Ho] Hf Ht. split; [done| |].
  - cbn. rewrite frees_app, frees_cons, Hf, app_nil_r. done.
  - eapply others_frame; [done| |done|done]. intros w' Hne. cbn. by rewrite msgs_app, msgs_one, (about_other m w), app_nil_r.
Qed.

Lemma pre_send_a own s m : pre own s → target m = w → pre own (send_a m s).
Proof.
  intros [Ha Hb Ho] Ht. split; [done|done|].
  eapply others_frame; [done| |done|done]. intros w' Hne. cbn. by rewrite msgs_app, msgs_one, (about_other m w), app_nil_r.
Qed.

Lemma pre_recv_b own s m ms : pre own s → a2b s = m :: ms → is_free m = false → target m = w → pre own (set_msgs ms (b2a s) s).
Proof.
  intros [Ha Hb Ho] Hm Hf Ht. split; [done| |].
  - cbn. by rewrite Hm, frees_cons, Hf in Hb.
  - eapply others_frame; [done| |done|done]. intros w' Hne. cbn. by rewrite Hm, msgs_cons, (about_other m w).
Qed.

Lemma pre_recv_a own s m ms : pre own s → b2a s = m :: ms → target m = w → pre own (set_msgs (a2b s) ms s).
Proof.
  intros [Ha Hb Ho] Hm Ht. split; [done|done|].
  eapply others_frame; [done| |done|done]. intros w' Hne. cbn. by rewrite Hm, msgs_cons, (about_other m w).
Qed.

Lemma pre_remote own s v r r' :
  pre own s → own !! w = Some v → remotes s !! v = Some r → w_addr (win (rw r')) = v → rstate r' ≠ SCIF_UNREG_ACCEPTED →
  (v ∈ remote_reg_list s → range (win (rw r')) = range (win (rw r))) → pre own (set_remotes (<[v:=r']> (remotes s)) s).
Proof.
  intros Hp Hv Hr Ha Hacc Hrng. split; [apply Hp|eapply b_upd; try done; apply Hp|].
  eapply others_frame; [apply Hp|done|done|]. intros w' v' Hne Hv'. cbn. rewrite lookup_insert_ne; [done|].
  apply not_eq_sym. by eapply other_owned.
Qed.

Lemma pre_alloc own s v r :
  pre own s → own !! w = None → remotes s !! v = None → w_addr (win (rw r)) = v → rstate r ≠ SCIF_UNREG_ACCEPTED →
  pre (<[w:=v]> own) (set_remotes (<[v:=r]> (remotes s)) s).
Proof.
  intros Hp Hw Hv Ha Hacc. split; [apply Hp|apply b_new; try done; apply Hp|].
  eapply others_frame; [apply Hp|done|intros; by rewrite lookup_insert_ne|]. intros w' v' Hne Hv'. cbn.
  rewrite lookup_insert_ne; [done|]. intros <-. destruct (bk_own _ _ _ _ (p_b _ _ Hp) _ _ Hv') as [? ?]. congruence.
Qed.

Lemma pre_drop own s v :
  pre own s → own !! w = Some v → pre (delete w own) (set_remotes (delete v (remotes s)) (set_remote_list (list_del v (remote_reg_list s)) (b_rma s) s)).
Proof.
  intros Hp Hv. split; [apply Hp|apply b_free; [apply Hp|done]|].
  eapply others_frame; [apply Hp|done|intros; by rewrite lookup_delete_ne|]. intros w' v' Hne Hv'. cbn.
  assert (v' ≠ v) by (by eapply other_owned). rewrite lookup_delete_ne by done. rewrite list_del_elem. tauto.
Qed.

Lemma pre_queue own s v :
  pre own s → own !! w = Some v → pre (delete w own) (set_remote_list (list_del v (remote_reg_list s)) (b_rma s ++ [v]) s).
Proof.
  intros Hp Hv. split; [apply Hp| |].
  - cbn. rewrite app_assoc. apply b_release; [apply Hp|done].
  - eapply others_frame; [apply Hp|done|intros; by rewrite lookup_delete_ne|]. intros w' v' Hne Hv'. cbn.
    assert (v' ≠ v) by (by eapply other_owned). rewrite list_del_elem. tauto.
Qed.

Lemma pre_free_virt own s v :
  pre own s → own !! w = Some v → v ∉ remote_reg_list s → pre (delete w own) (send_free_virt w v s).
Proof.
  intros Hp Hv Hnin. split; [apply Hp| |].
  - pose proof (b_release _ _ _ _ _ _ (p_b _ _ Hp) Hv) as Hb. rewrite list_del_id in Hb by done.
    cbn. rewrite frees_app. eapply b_perm, Hb. rewrite <- !app_assoc. f_equiv. apply Permutation_app_comm.
  - eapply others_frame; [apply Hp| |intros; by rewrite lookup_delete_ne|done].
    intros w' Hne. cbn. by rewrite msgs_app, app_nil_r.
Qed.

Lemma stage_listed w' o ab ba v r :
  stage k w' o ab ba (Some v) (Some (r, true)) → ∃ l, o = Some l ∧ l_pc l ≠ Deleted ∧ at_peer k w' l r.
Proof. inversion 1; subst; eexists; split_and!; congruence || done. Qed.

Lemma at_peer_range l r : at_peer k w l r → offset (win (rw r)) = offset (win (lw l)) ∧ nr_pages (win (rw r)) = nr_pages (win (lw l)).
Proof. intros []. done. Qed.

Lemma remote_at_listed (own : gmap Z Z) s w' v r :
  own !! w' = Some v → v ∈ remote_reg_list s → remotes s !! v = Some r →
  remote_at (remotes s) (remote_reg_list s) (own !! w') = Some (r, true).
Proof. intros -> Hv Hr. cbn. rewrite Hr. cbn. by rewrite bool_decide_true. Qed.

(** A listed window at node B has its counterpart at node A. *)
Lemma listed_local own s w' v r :
  stage_of own s w' → own !! w' = Some v → v ∈ remote_reg_list s → remotes s !! v = Some r →
  ∃ l, locals s !! w' = Some l ∧ l_pc l ≠ Deleted ∧ at_peer k w' l r.
Proof.
  unfold stage_of. intros Hs Hw Hv Hr. rewrite (remote_at_listed own s w' v r), Hw in Hs by done. by eapply stage_listed.
Qed.

Lemma pre_insert own s v l r :
  pre own s → own !! w = Some v → remotes s !! v = Some r → v ∉ remote_reg_list s →
  locals s !! w = Some l → l_pc l ≠ Deleted → at_peer k w l r →
  pre own (set_remote_list (w_addr <$> scif_insert_window (win (rw r)) (omap (win_of_remote s) (remote_reg_list s))) (b_rma s) s).
Proof.
  intros Hp Hv Hr Hnin Hl HD Hat. destruct (at_peer_range _ _ Hat) as [Ho Hn].
  pose proof (lk_reg _ _ (ak_local _ _ _ _ (p_a _ _ Hp) _ _ Hl)) as Hok.
  destruct (window_list_reg _ _ (bk_list _ _ _ _ (p_b _ _ Hp))) as [_ Hmap].
  split; [apply Hp| |].
  - cbn. apply (b_insert _ _ _ _ w v); try done; [apply Hp|unfold reg_ok in *; by rewrite Ho, Hn|].
    intros v' r' Hv' Hr'. destruct (bk_listed _ _ _ _ (p_b _ _ Hp) _ Hv') as [w' Hw'].
    assert (w' ≠ w) as Hne by (intros ->; congruence).
    destruct (listed_local _ _ _ _ _ (p_others _ _ Hp _ Hne) Hw' Hv' Hr') as (l' & Hl' & HD' & [_ Ho' Hn' _ _ _ _]).
    pose proof (a_disjoint _ _ _ _ w w' _ _ (p_a _ _ Hp) Hl Hl' HD HD' (not_eq_sym Hne)) as Hd. unfold w_offset in Ho'.
    unfold disjoint, apart in *. by rewrite Ho, Hn, Ho', Hn'.
  - eapply others_frame; [apply Hp|done|done|]. intros w' v' Hne Hv'. cbn. split; [done|].
    rewrite insert_elem. unfold win_of_remote. fold (remote_win (remotes s)). rewrite Hmap, (bk_addr _ _ _ _ (p_b _ _ Hp) _ _ Hr).
    assert (v' ≠ v) by (by eapply other_owned). tauto.
Qed.

Lemma pre_destroy own s l :
  pre own s → locals s !! w = Some l → l_pc l ≠ Listed → l_pc l ≠ Deleted → own !! w = None →
  msgs w (a2b s) = [] → msgs w (b2a s) = [] → inv k (scif_destroy_window w l s).
Proof.
  intros Hp Hl HL HD Ho Hab Hba. apply (inv_pre own _ None [] [] None None); try done; [|apply lookup_delete_eq|constructor].
  split; [|apply Hp|].
  - cbn. unfold scif_free_window_offset. rewrite (lk_freed _ _ (ak_local _ _ _ _ (p_a _ _ Hp) _ _ Hl)), bool_decide_false by done.
    by apply a_free; [apply Hp|..].
  - eapply others_frame; [apply Hp| |done|done]. intros w' Hne. cbn. by rewrite lookup_delete_ne.
Qed.

End Pre.

End ScifRegStep.
