(* ===== verification/ScifRegRecv.v ===== *)
(** * Handling messages keeps the invariant

    Every message finds the window it is about, and its handler keeps the invariant of
    [ScifRegInv]. *)
From S2P Require Import Prelude Ports Endpoint NodeQp RmaList DmaWindow ScifDma ScifRma ScifReg ScifRegList ScifRegInv ScifRegStep.
Local Open Scope Z_scope.

Module ScifRegRecv.
Import RmaList DmaWindow NodeQp ScifReg ScifRegList ScifRegInv ScifRegStep.

(** The cases of a stage, the state's part of each named. *)
Ltac stage_cases St :=
  unfold stage_of in St;
  lazymatch type of St with stage ?k ?w ?o ?ab ?ba ?ov ?ra =>
    let o' := fresh "o" in let ab' := fresh "ab" in let ba' := fresh "ba" in let ov' := fresh "ov" in let ra' := fresh "ra" in
    remember o as o' eqn:Eo; remember ab as ab' eqn:Eab; remember ba as ba' eqn:Eba; remember ra as ra' eqn:Era; remember ov as ov' eqn:Eov
  end; destruct St; try discriminate.

Section Recv.
Context (k : link).

Lemma local_upd w l l' :
  local_ok w l → range (win (lw l')) = range (win (lw l)) → dma_addr (lw l') = dma_addr (lw l) → num_pages (lw l') = num_pages (lw l) →
  nr_contig_chunks (lw l') = nr_contig_chunks (lw l) → offset_freed l' = bool_decide (l_pc l' = Deleted) →
  (l_pc l' ≠ Listed → l_pc l' ≠ Deleted → ustate l' = SCIF_UNREG_NOT_INITIATED) → local_ok w l'.
Proof.
  intros [Haddr Hrok Hsm Hal Hlen Hch Hnz Hun Hfr] Hr Hda Hnp Hnc Hf Hu.
  destruct (pfn_range _ _ Hr) as [Hp Hn]. destruct (range_ok _ _ Hr) as [Hok Ha].
  split; try congruence; auto. rewrite Hp, <- Hal. unfold range, w_offset in *. congruence.
Qed.

(** A window that only gets another [alloc_state], [reg_state], address at the peer or state
    of its unregistration. *)
Definition relabel (l l' : local_window) : Prop :=
  l_pc l' = l_pc l ∧ offset_freed l' = offset_freed l ∧
  ∃ v u, lw l' = set_win (Window (w_addr (win (lw l))) (nr_pages (win (lw l))) (prot (win (lw l))) (offset (win (lw l)))
    (va_for_temp (win (lw l))) v u) (lw l).

Lemma relabel_same l l' : l_pc l' = l_pc l → offset_freed l' = offset_freed l → lw l' = lw l → relabel l l'.
Proof.
  unfold relabel. intros Hpc Hf ->. split_and!; [done..|]. exists (alloc_vaddr (win (lw l))), (ustate l). by destruct l as [[[]]].
Qed.

Lemma pre_relabel w own s l l' :
  pre k w own s → locals s !! w = Some l → relabel l l' → (l_pc l ≠ Listed → l_pc l ≠ Deleted → ustate l' = SCIF_UNREG_NOT_INITIATED) →
  pre k w own (put_local w l' s).
Proof.
  intros Hp Hl (Hpc & Hf & v & u & Hlw) Hu. pose proof (ak_local _ _ _ _ (p_a _ _ _ _ Hp) _ _ Hl) as Hok.
  apply (pre_put _ _ _ _ l); try done; [|by rewrite Hlw|by rewrite Hpc|by rewrite Hpc].
  apply (local_upd _ l); try done; try (by rewrite Hlw); rewrite Hpc; [rewrite Hf; apply Hok|done].
Qed.

Lemma same_relabel f w l l' r : relabel l l' → same_window f w l r → same_window f w l' r.
Proof.
  intros (_ & _ & v & u & Hlw) [H1 H2 H3 H4 H5 H6 H7]. unfold w_offset in *. split; unfold w_offset; rewrite ?Hlw; done.
Qed.

Lemma waits_relabel l l' : relabel l l' → waits l → waits l'.
Proof. intros (Hpc & _) H. unfold waits in *. by rewrite Hpc. Qed.

Lemma nr_relabel l l' : relabel l l' → nr_pages (win (lw l')) = nr_pages (win (lw l)).
Proof. intros (_ & _ & v & u & ->). done. Qed.

Lemma msgs_head w m ms : is_free m = false → target m = w → msgs w (m :: ms) = m :: msgs w ms.
Proof. intros Hf Ht. by rewrite msgs_cons, about_self. Qed.

Lemma inv_skip s ba : inv k s → (∀ w, msgs w ba = msgs w (b2a s)) → inv k (set_msgs (a2b s) ba s).
Proof.
  intros (Ha & own & Hb & Hs) Hba. split; [done|]. exists own. split; [done|]. intros w. cbn. rewrite Hba. apply Hs.
Qed.

(** ** Node A *)

Lemma inv_relabel w own s l l' :
  pre k w own s → locals s !! w = Some l → relabel l l' → (l_pc l ≠ Listed → l_pc l ≠ Deleted → ustate l' = SCIF_UNREG_NOT_INITIATED) →
  stage k w (Some l') (msgs w (a2b s)) (msgs w (b2a s)) (own !! w) (remote_at (remotes s) (remote_reg_list s) (own !! w)) →
  inv k (put_local w l' s).
Proof.
  intros Hp Hl Hr Hu St. eapply inv_pre; [by eapply pre_relabel|cbn; by rewrite ?lookup_insert_eq..|exact St].
Qed.

Lemma waits_pc l : waits l → l_pc l ≠ Listed ∧ l_pc l ≠ Deleted.
Proof. intros [[err ->]| ->]; done. Qed.

Lemma deliver_a_ok s : inv k s → ∃ s', deliver_a s = Some s' ∧ inv k s'.
Proof.
  intros Hi. unfold deliver_a. destruct (b2a s) as [|m ms] eqn:Em; [by exists s|].
  destruct (is_free m) eqn:Hf.
  { apply Z.eqb_eq in Hf. rewrite Hf. cbn. eexists; split; [done|]. apply inv_skip; [done|].
    intros w. rewrite Em, msgs_cons. unfold about, is_free. by rewrite Hf. }
  destruct (pre_inv _ (target m) _ Hi) as (own & Hp & St). remember (target m) as w eqn:Et. symmetry in Et.
  apply (pre_recv_a _ _ _ _ _ _ Hp Em) in Et as Hp1. unfold stage_of in St. rewrite Em, msgs_head in St by done.
  stage_cases St.
  all: injection Eba as <- Eba; clear Hf Et; cbn;
    unfold scif_recv_reg_ack, scif_recv_reg_nack, reg_answer, scif_recv_del_window, scif_recv_used_window, scif_alloc_gnt_rej; cbn;
    rewrite <- Eo; cbn; eexists; (split; [done|]);
    pose proof (ak_local _ _ _ _ (p_a _ _ _ _ Hp) _ _ (eq_sym Eo)) as Hok.
  1-6: eapply (inv_relabel _ own _ l); [done|done|(by apply relabel_same) || (split_and!; [done..|by eexists _, _])
    |try (intros; apply Hok; done); try (intros; exfalso; congruence)|].
  1-6: cbn; rewrite <- ?Eab, <- ?Eba, <- ?Eov, <- ?Era.
  - by apply st_rej.
  - by apply st_gnt.
  - apply st_acked; try done. by apply (same_relabel _ _ l); [apply relabel_same|].
  - by apply st_nacked.
  - eapply st_denied; try done. by apply (same_relabel _ _ l); [split_and!; [done..|by eexists _, _]|].
  - apply st_del; [done|by right].
  - eapply (inv_pre _ w own _ _ [] [] None None); [|cbn; by rewrite lookup_insert_eq|cbn; congruence..|done|by apply st_deleted].
    split; [|apply Hp1|].
    + cbn. rewrite (lk_freed _ _ Hok), bool_decide_false by congruence.
      eapply (a_del _ _ _ _ _ l); [apply Hp|done..|]. by apply (local_upd _ l).
    + eapply others_frame; [apply Hp1| |done|done]. intros w' Hne. cbn. by rewrite lookup_insert_ne.
Qed.

(** ** Node B *)

Lemma remote_at_some rm rl v r b : remote_at rm rl (Some v) = Some (r, b) → rm !! v = Some r ∧ b = bool_decide (v ∈ rl).
Proof. unfold remote_at. cbn. destruct (rm !! v) as [r'|]; [|done]. cbn. by intros [= <- <-]. Qed.

Lemma deliver_free s m ms :
  inv k s → a2b s = m :: ms → is_free m = true → ∃ s', scif_free_virt m (set_msgs ms (b2a s) s) = Some s' ∧ inv k s'.
Proof.
  intros (Ha & own & Hb & Hs) Em Hf. unfold scif_free_virt, scif_destroy_remote_window. cbn.
  rewrite Em, frees_cons, Hf in Hb. destruct (bk_queued _ _ _ _ Hb (payload1 m) ltac:(left)) as [[r Hr] Hno].
  rewrite Hr. cbn. eexists; split; [done|]. split; [done|]. exists own. split; [by apply b_pop|].
  intros w. cbn. erewrite remote_at_ext.
  - specialize (Hs w). rewrite Em, msgs_cons in Hs. unfold about in Hs. by rewrite Hf in Hs.
  - intros v Hv. rewrite lookup_delete_ne; [done|]. intros <-. by eapply Hno.
Qed.

Lemma alloc_req_ok fresh w own s l :
  (∀ v, fresh = Some v → remotes s !! v = None) → pre k w own s →
  locals s !! w = Some l → waits l → alloc_state l = OP_IN_PROGRESS → msgs w (a2b s) = [] → msgs w (b2a s) = [] → own !! w = None →
  inv k (scif_alloc_req fresh (mk_msg SCIF_ALLOC_REQ 0 (nr_pages (win (lw l))) w) s).
Proof.
  intros Hfr Hp Hl Hw Has Hab Hba Ho. unfold scif_alloc_req. cbn.
  destruct fresh as [v|].
  - specialize (Hfr v eq_refl). set (r := scif_create_remote_window v (s32 (nr_pages (win (lw l))))).
    assert (pre k w (<[w:=v]> own) (set_remotes (<[v:=r]> (remotes s)) s)) as Hp1 by (by apply pre_alloc).
    apply (pre_send_a _ _ _ _ (mk_msg SCIF_ALLOC_GNT v 0 w)) in Hp1; [|done].
    assert (v ∉ remote_reg_list s) as Hnin.
    { intros Hv. destruct (window_list_elem _ _ _ (bk_list _ _ _ _ (p_b _ _ _ _ Hp)) Hv) as (x & Hx & _).
      unfold remote_win in Hx. by rewrite Hfr in Hx. }
    eapply inv_pre; [exact Hp1|done|done|cbn; by rewrite msgs_app, msgs_one, about_self, Hba by done|cbn; by rewrite lookup_insert_eq| |].
    + cbn. rewrite lookup_insert_eq. cbn. by rewrite bool_decide_false.
    + apply st_gnt_msg; try done. cbn.
      destruct (ak_local _ _ _ _ (p_a _ _ _ _ Hp) _ _ Hl) as [_ (_ & ? & _) ? _ _ _ _ _ _]. rewrite s32_small; lia.
  - eapply inv_pre; [by apply (pre_send_a _ _ _ _ (mk_msg SCIF_ALLOC_REJ 0 (nr_pages (win (lw l))) w))
      |done|done|cbn; by rewrite msgs_app, msgs_one, about_self, Hba by done|done|done|].
    by apply st_rej_msg.
Qed.

Lemma fixup_loop_all pa : ∀ das ns, length das = length ns → Forall (fun n => n ≠ 0) ns →
  fixup_loop (length ns) pa das ns = (fun da => u64 (da + pa)) <$> das.
Proof.
  induction das as [|da das IH]; intros [|n ns] Hlen Hn; try done. apply Forall_cons in Hn as [Hn Hns].
  cbn. destruct (Z.eqb_spec n 0); [done|]. f_equal. apply IH; [|done]. by injection Hlen.
Qed.

Lemma fixup_same w l r :
  local_ok w l → same_window (converted k) w l r →
  at_peer k w l (RWin (scif_fixup_aper_base k (rw r)) (mapped_pages r) (peer_window r)) ∧ win (scif_fixup_aper_base k (rw r)) = win (rw r).
Proof.
  intros Hok [H1 H2 H3 H4 H5 H6 H7]. unfold scif_fixup_aper_base. split; [|by destruct (k_aper k)].
  split; unfold w_offset in *; destruct (k_aper k) as [pa|] eqn:Ek; try done; cbn.
  - rewrite H5, H6, H7, (lk_chunks _ _ Hok). unfold zlen. rewrite Nat2Z.id, fixup_loop_all by (rewrite ?length_fmap; apply Hok).
    rewrite <- list_fmap_compose. apply list_fmap_ext. intros _ x _. cbn. unfold fixed_up. by rewrite Ek.
  - rewrite H7. apply list_fmap_ext. intros _ x _. cbn. unfold fixed_up. by rewrite Ek.
Qed.

Lemma recv_reg_ok w own s l v r :
  pre k w own s → locals s !! w = Some l → l_pc l = WaitReg → reg_state l = OP_IN_PROGRESS → alloc_vaddr (win (lw l)) = v →
  same_window (converted k) w l r → rstate r = SCIF_UNREG_NOT_INITIATED → msgs w (a2b s) = [] → msgs w (b2a s) = [] →
  own !! w = Some v → remote_at (remotes s) (remote_reg_list s) (Some v) = Some (r, false) →
  ∃ s', scif_recv_reg k (mk_msg SCIF_REGISTER 0 v w) s = Some s' ∧ inv k s'.
Proof.
  intros Hp Hl Hpc Hrs Hva Hsame Hru Hab Hba Ho [Hr Hnin]%remote_at_some. symmetry in Hnin. apply bool_decide_eq_false in Hnin.
  pose proof (ak_local _ _ _ _ (p_a _ _ _ _ Hp) _ _ Hl) as Hok.
  unfold scif_recv_reg. cbn. rewrite Hr. cbn. destruct (bool_decide _); [|unfold scif_destroy_remote_window; cbn; rewrite Hr; cbn];
    (eexists; split; [done|]).
  - destruct (fixup_same _ _ _ Hok Hsame) as [Hat Hwin]. set (r' := RWin _ _ _) in *.
    set (s1 := send_a (mk_msg SCIF_REGISTER_ACK 0 v w) s).
    assert (pre k w own s1) as Hp1 by (by apply pre_send_a).
    assert (pre k w own (set_remotes (<[v:=r']> (remotes s)) s1)) as Hp2.
    { apply (pre_remote _ _ _ s1 _ r); try done; [|unfold rstate; cbn; rewrite Hwin; fold (rstate r); congruence].
      cbn. rewrite Hwin. by apply (bk_addr _ _ _ _ (p_b _ _ _ _ Hp)). }
    apply (pre_insert _ _ _ _ v l r') in Hp2; try done; [|cbn; by rewrite lookup_insert_eq|congruence].
    eapply inv_pre; [exact Hp2|done|done|cbn; by rewrite msgs_app, msgs_one, about_self, Hba by done|exact Ho| |].
    + cbn. rewrite lookup_insert_eq. cbn. rewrite bool_decide_true; [done|]. apply insert_elem. left. cbn. rewrite Hwin.
      symmetry. by apply (bk_addr _ _ _ _ (p_b _ _ _ _ Hp)).
    + apply st_ack; try done. unfold rstate. cbn. by rewrite Hwin.
  - assert (pre k w own (send_a (mk_msg SCIF_REGISTER_NACK 0 v w) s)) as Hp1 by (by apply pre_send_a).
    apply (pre_drop _ _ _ _ v) in Hp1; [|done]. rewrite list_del_id in Hp1 by done.
    eapply inv_pre; [exact Hp1|done|done|cbn; by rewrite msgs_app, msgs_one, about_self, Hba by done|cbn; apply lookup_delete_eq|done|].
    by apply st_nack.
Qed.

Lemma set_unreg_win r st : range (win (rw (set_unreg r st))) = range (win (rw r)) ∧ rstate (set_unreg r st) = st.
Proof. done. Qed.

Lemma at_peer_unreg w l r st : at_peer k w l r → at_peer k w l (set_unreg r st).
Proof. intros [H1 H2 H3 H4 H5 H6 H7]. by split. Qed.

Lemma recv_unreg_ok w own s l v r :
  pre k w own s → locals s !! w = Some l → l_pc l = Listed → ustate l = SCIF_UNREG_REQUESTED → at_peer k w l r →
  msgs w (a2b s) = [] → msgs w (b2a s) = [] →
  own !! w = Some v → remote_at (remotes s) (remote_reg_list s) (Some v) = Some (r, true) →
  ∃ s', scif_recv_unreg (mk_msg SCIF_UNREGISTER v w 0) s = Some s' ∧ inv k s'.
Proof.
  intros Hp Hl Hpc Hus Hat Hab Hba Ho [Hr Hin]%remote_at_some. symmetry in Hin. apply bool_decide_eq_true in Hin.
  pose proof (bk_addr _ _ _ _ (p_b _ _ _ _ Hp) _ _ Hr) as Haddr. pose proof (sw_peer _ _ _ _ Hat) as Hpeer.
  unfold scif_recv_unreg. cbn [NodeQp.payload0 mk_msg]. rewrite Hr. cbn [mbind option_bind].
  assert (win_of_remote s v = Some (win (rw r))) as Hw by (unfold win_of_remote; by rewrite Hr).
  unfold w_offset. rewrite (query_full (win_of_remote s) _ v (win (rw r)) (bk_list _ _ _ _ (p_b _ _ _ _ Hp)) Hin Hw), Haddr, Hr. cbn.
  assert (pre k w own (set_remotes (<[v:=set_unreg r SCIF_UNREG_REQUESTED]> (remotes s)) s)) as Hp1
    by (by apply (pre_remote _ _ _ _ _ r)).
  destruct (mapped_pages r =? 0); (eexists; split; [done|]); rewrite Hpeer.
  - apply (pre_send_a _ _ _ _ (mk_msg SCIF_DELETE_WINDOW 0 w 0)) in Hp1; [|done]. apply (pre_queue _ _ _ _ v) in Hp1; [|done].
    eapply inv_pre; [exact Hp1|done|done|cbn; by rewrite msgs_app, msgs_one, about_self, Hba by done|cbn; apply lookup_delete_eq|done|].
    apply st_del; [done|by left].
  - apply (pre_send_a _ _ _ _ (mk_msg SCIF_USED_WINDOW 0 w 0)) in Hp1; [|done].
    eapply inv_pre; [exact Hp1|done|done|cbn; by rewrite msgs_app, msgs_one, about_self, Hba by done|done| |].
    + cbn. rewrite lookup_insert_eq. cbn. by rewrite bool_decide_true.
    + apply st_used; [done|done|by apply at_peer_unreg|done].
Qed.

Lemma deliver_b_ok fresh s :
  inv k s → (∀ v, fresh = Some v → remotes s !! v = None) → ∃ s', deliver_b k fresh s = Some s' ∧ inv k s'.
Proof.
  intros Hi Hfr. unfold deliver_b. destruct (a2b s) as [|m ms] eqn:Em; [by exists s|].
  destruct (is_free m) eqn:Hf.
  { destruct (deliver_free _ _ _ Hi Em Hf) as (s' & Hs' & Hi'). apply Z.eqb_eq in Hf. rewrite Hf. cbn. by exists s'. }
  destruct (pre_inv _ (target m) _ Hi) as (own & Hp & St). remember (target m) as w eqn:Et. symmetry in Et.
  apply (pre_recv_b _ _ _ _ _ _ Hp Em Hf) in Et as Hp1. unfold stage_of in St. rewrite Em, msgs_head in St by done.
  stage_cases St.
  all: injection Eab as <- Eab; clear Hf Et; cbn; symmetry in Eo, Eab, Eba, Eov, Era.
  - subst n. eexists; split; [done|]. by eapply (alloc_req_ok _ _ own).
  - by eapply (recv_reg_ok _ own _ l).
  - by eapply (recv_unreg_ok _ own _ l).
Qed.

End Recv.
End ScifRegRecv.
