(* ===== verification/ScifRegCall.v ===== *)
(** * The calls keep the invariant

    Registration, unregistration, the uses of remote windows and the destruction of queued
    windows keep the invariant of [ScifRegInv]. *)
From S2P Require Import Prelude Ports Endpoint NodeQp RmaList DmaWindow ScifDma ScifRma ScifReg ScifRegList ScifRegInv ScifRegStep ScifRegRecv.
Local Open Scope Z_scope.

Module ScifRegCall.
Import RmaList DmaWindow NodeQp ScifReg ScifRegList ScifRegInv ScifRegStep ScifRegRecv.

Section Call.
Context (k : link).

(** ** Threads that register a window *)

Lemma copy_lists_ok f : ∀ fuel das ns, (length ns < fuel)%nat → length das = length ns → copy_lists fuel f das ns = Some (f <$> das, ns).
Proof.
  induction fuel as [|fuel IH]; intros das ns Hf Hlen; [lia|]. cbn [copy_lists].
  destruct ns as [|n ns]; [destruct das; [done|done]|]. set (ns0 := n :: ns) in *.
  set (m := Z.to_nat (Z.min (zlen ns0) SCIF_NR_ADDR_IN_PAGE)).
  assert (1 <= m)%nat as Hm.
  { subst m. unfold zlen, ns0. cbn [length]. change SCIF_NR_ADDR_IN_PAGE with 512. lia. }
  rewrite IH by (rewrite ?length_drop; unfold ns0 in *; cbn [length] in *; lia). cbn [mbind option_bind].
  by rewrite <- fmap_app, !take_drop.
Qed.

Lemma prep_same w l r das :
  das = converted k <$> dma_addr (lw l) → nr_pages (win (rw r)) = nr_pages (win (lw l)) →
  same_window (converted k) w l
    (RWin (DWin (Window (alloc_vaddr (win (lw l))) (nr_pages (win (rw r))) (prot (win (lw l))) (w_offset (lw l)) 0 0 SCIF_UNREG_NOT_INITIATED)
      (w_type (rw r)) (nr_contig_chunks (lw l)) das (num_pages (lw l)) []) 0 w).
Proof. intros -> Hn. by split. Qed.

(** The two ends of [scif_send_scif_register]. *)
Lemma send_register_ok w own s l v r :
  pre k w own s → locals s !! w = Some l → l_pc l = Prep 0 → alloc_vaddr (win (lw l)) = v → own !! w = Some v →
  remote_at (remotes s) (remote_reg_list s) (Some v) = Some (r, false) → same_window (converted k) w l r → rstate r = SCIF_UNREG_NOT_INITIATED →
  msgs w (a2b s) = [] → msgs w (b2a s) = [] → inv k (scif_send_scif_register w l s).1.
Proof.
  intros Hp Hl Hpc Hva Ho Hra Hsame Hru Hab Hba. pose proof (ak_local _ _ _ _ (p_a _ _ _ _ Hp) _ _ Hl) as Hok.
  unfold scif_send_scif_register. rewrite Hva. destruct (bool_decide _); cbn [fst].
  - apply (pre_send_b _ _ _ _ (mk_msg SCIF_REGISTER 0 v w)) in Hp; [|done..].
    set (l' := LWin (lw l) WaitReg (alloc_state l) OP_IN_PROGRESS (offset_freed l)).
    assert (pre k w own (put_local w l' (send_b (mk_msg SCIF_REGISTER 0 v w) s))) as Hp1.
    { apply (pre_put _ _ _ _ l); try done; [|by rewrite Hpc..]. apply (local_upd _ l); try done; [|intros; apply Hok; congruence].
      cbn. by rewrite (lk_freed _ _ Hok), !bool_decide_false by congruence. }
    eapply inv_pre; [exact Hp1|cbn; by rewrite lookup_insert_eq|cbn; by rewrite msgs_app, msgs_one, about_self, Hab by done|done|done|done|].
    apply st_reg; try done. destruct Hsame. by split.
  - apply remote_at_some in Hra as [_ Hnin]. symmetry in Hnin. apply bool_decide_eq_false in Hnin.
    apply (pre_free_virt _ _ _ _ v) in Hp; [|done..].
    apply (pre_destroy _ _ (delete w own)); try done; [congruence|congruence|apply lookup_delete_eq|]. cbn. by rewrite msgs_app, Hab.
Qed.

(** What the stage says of a window whose thread waits. *)
Lemma stage_pc own s w l :
  stage_of k own s w → locals s !! w = Some l → l_pc l ≠ WaitReg → l_pc l ≠ Listed → l_pc l ≠ Deleted → waits l.
Proof. intros St Hl. stage_cases St; rewrite Hl in Eo; simplify_eq; congruence. Qed.

Lemma stage_waits own s w l :
  stage_of k own s w → locals s !! w = Some l → waits l → alloc_state l ≠ OP_IN_PROGRESS →
  msgs w (a2b s) = [] ∧ msgs w (b2a s) = [] ∧
  ((alloc_state l = OP_FAILED ∧ own !! w = None) ∨
   (alloc_state l = OP_COMPLETED ∧ own !! w = Some (alloc_vaddr (win (lw l))) ∧
    ∃ r, remote_at (remotes s) (remote_reg_list s) (Some (alloc_vaddr (win (lw l)))) = Some (r, false) ∧ nr_pages (win (rw r)) = nr_pages (win (lw l)))).
Proof.
  intros St Hl Hw Has. destruct (waits_pc _ Hw) as [HL HD].
  assert (l_pc l ≠ WaitReg) by (by destruct Hw as [[? ->]| ->]).
  stage_cases St; rewrite Hl in Eo; simplify_eq; try congruence; (split_and!; [done..|]); [by left|right; eauto].
Qed.

Lemma stage_waitreg own s w l :
  stage_of k own s w → locals s !! w = Some l → l_pc l = WaitReg → reg_state l ≠ OP_IN_PROGRESS →
  msgs w (a2b s) = [] ∧ msgs w (b2a s) = [] ∧
  ((reg_state l = OP_FAILED ∧ own !! w = None) ∨
   (reg_state l = OP_COMPLETED ∧ ∃ r, own !! w = Some (alloc_vaddr (win (lw l))) ∧ 
    remote_at (remotes s) (remote_reg_list s) (Some (alloc_vaddr (win (lw l)))) = Some (r, true) ∧ at_peer k w l r ∧ rstate r = SCIF_UNREG_NOT_INITIATED)).
Proof.
  intros St Hl Hpc Hrs. unfold waits in *.
  stage_cases St; rewrite Hl in Eo; simplify_eq; try congruence; try (by destruct H as [[? ?]|?]; congruence);
    (split_and!; [done..|]); [|by left]. right. split; [done|]. by exists r.
Qed.

Lemma insert_local_ok w own s l v r :
  pre k w own s → locals s !! w = Some l → l_pc l = WaitReg → alloc_vaddr (win (lw l)) = v → own !! w = Some v →
  remote_at (remotes s) (remote_reg_list s) (Some v) = Some (r, true) → at_peer k w l r → rstate r = SCIF_UNREG_NOT_INITIATED →
  msgs w (a2b s) = [] → msgs w (b2a s) = [] → inv k (scif_insert_local_window w l s).
Proof.
  intros Hp Hl Hpc Hva Ho Hra Hat Hru Hab Hba. pose proof (ak_local _ _ _ _ (p_a _ _ _ _ Hp) _ _ Hl) as Hok.
  eapply (inv_pre _ w own _ (Some (with_pc l Listed))); [|cbn; by rewrite lookup_insert_eq|done..|].
  - split; [by apply a_insert; [apply Hp|..]; try done; congruence|apply Hp|].
    eapply others_frame; [apply Hp| |done|done]. intros w' Hne. cbn. by rewrite lookup_insert_ne.
  - apply st_done; try done; [|destruct Hat; by split]. apply Hok; congruence.
Qed.

Lemma thread_step_ok w s : inv k s → is_Some (locals s !! w) → ∃ r, thread_step k w s = Some r ∧ inv k r.1.
Proof.
  intros Hi [l Hl]. unfold thread_step. rewrite Hl. cbn [mbind option_bind].
  destruct (pre_inv _ w _ Hi) as (own & Hp & St). pose proof (ak_local _ _ _ _ (p_a _ _ _ _ Hp) _ _ Hl) as Hok.
  pose proof (stage_pc _ _ _ _ St Hl) as Hwt.
  destruct (l_pc l) as [err|map_err| | |] eqn:Hpc; try (eexists; split; [done|exact Hi]);
    (case_bool_decide; [eexists; split; [done|exact Hi]|]).
  - destruct (stage_waits _ _ _ _ St Hl ltac:(by apply Hwt) ltac:(done)) as (Hab & Hba & Hcase).
    eexists; split; [done|]. cbn [fst]. unfold scif_destroy_incomplete_window. destruct Hcase as [[Hst Ho]|(Hst & Ho & r & Hra & _)].
    + rewrite bool_decide_false by congruence. apply (pre_destroy _ _ own); try done; congruence.
    + rewrite bool_decide_true by done. apply remote_at_some in Hra as [_ Hnin]. symmetry in Hnin. apply bool_decide_eq_false in Hnin.
      apply (pre_free_virt _ _ _ _ _ Hp Ho) in Hnin.
      apply (pre_destroy _ _ _ _ _ Hnin); try done; [congruence|congruence|apply lookup_delete_eq|]. cbn. by rewrite msgs_app, Hab.
  - assert (waits l) as Hw by (by apply Hwt). assert (map_err = 0) as -> by (destruct Hw as [[? ?]|?]; congruence).
    destruct (stage_waits _ _ _ _ St Hl Hw ltac:(done)) as (Hab & Hba & Hcase). unfold scif_prep_remote_window.
    destruct Hcase as [[Hst Ho]|(Hst & Ho & r & Hra & Hn)].
    + rewrite bool_decide_true by done. cbn. eexists; split; [done|]. cbn [fst]. apply (pre_destroy _ _ own); try done; congruence.
    + rewrite bool_decide_false by congruence. change (negb (0 =? 0)) with false. cbv iota.
      pose proof (remote_at_some _ _ _ _ _ Hra) as [Hr Hnin]. symmetry in Hnin. apply bool_decide_eq_false in Hnin.
      unfold prep_remote. rewrite Hr. cbn [mbind option_bind]. rewrite copy_lists_ok by (apply Hok || lia). cbn.
      eexists; split; [done|]. eapply (send_register_ok _ own _ _ (alloc_vaddr (win (lw l)))); try done.
      * by apply (pre_remote _ _ _ _ _ r).
      * cbn. rewrite lookup_insert_eq. cbn. by rewrite bool_decide_false.
      * apply prep_same; [|done]. unfold converted. by destruct (k_mgmt k).
      * done.
  - destruct (stage_waitreg _ _ _ _ St Hl Hpc ltac:(done)) as (Hab & Hba & [[Hst Ho]|(Hst & r & Ho & Hra & Hat & Hru)]).
    + rewrite bool_decide_true by done. eexists; split; [done|]. apply (pre_destroy _ _ own); try done; congruence.
    + rewrite bool_decide_false by congruence. eexists; split; [done|]. by eapply (insert_local_ok _ own).
Qed.

(** ** Unregistration *)

Lemma put_local_id s w l : locals s !! w = Some l → put_local w l s = s.
Proof. intros Hl. unfold put_local. rewrite insert_id by done. by destruct s. Qed.

Lemma listed_stage own s w l :
  stage_of k own s w → locals s !! w = Some l → l_pc l = Listed → ustate l = SCIF_UNREG_NOT_INITIATED →
  msgs w (a2b s) = [] ∧ msgs w (b2a s) = [] ∧ own !! w = Some (alloc_vaddr (win (lw l))) ∧
  ∃ r, remote_at (remotes s) (remote_reg_list s) (Some (alloc_vaddr (win (lw l)))) = Some (r, true) ∧ at_peer k w l r ∧ rstate r = SCIF_UNREG_NOT_INITIATED.
Proof.
  intros St Hl Hpc Hus. unfold waits in *.
  stage_cases St; rewrite Hl in Eo; simplify_eq; try congruence; try (by destruct H as [[? ?]|?]; congruence); try (by destruct H0; congruence).
  split_and!; [done..|]. by exists r.
Qed.

Lemma unregister_one_ok w s l :
  inv k s → locals s !! w = Some l → l_pc l = Listed →
  inv k (unregister_one w l s) ∧ reg_list (unregister_one w l s) = reg_list s.
Proof.
  intros Hi Hl Hpc. destruct (pre_inv _ w _ Hi) as (own & Hp & St).
  unfold unregister_one, scif_unregister_window, scif_send_scif_unregister. case_bool_decide as Hus; cbn [foldl Z.eqb].
  - split; [|done]. set (l' := unreg_answer SCIF_UNREG_REQUESTED l).
    destruct (listed_stage _ _ _ _ St Hl Hpc Hus) as (Hab & Hba & Ho & r & Hra & Hat & Hru).
    assert (relabel l l') as Hrel by (split_and!; [done..|by eexists _, _]).
    assert (w_addr (win (lw l)) = w) as Ha by apply (ak_local _ _ _ _ (p_a _ _ _ _ Hp) _ _ Hl).
    apply (pre_relabel _ _ _ _ l l') in Hp; [|done..]. apply (pre_send_b _ _ _ _ (mk_msg SCIF_UNREGISTER (alloc_vaddr (win (lw l))) w 0)) in Hp; [|done..].
    cbn. rewrite Ha. eapply inv_pre; [exact Hp|cbn; by rewrite lookup_insert_eq|cbn; by rewrite msgs_app, msgs_one, about_self, Hab by done|done|done|done|].
    by apply (st_unreg _ _ _ _ r); [..|apply (same_relabel _ _ l)|].
  - assert (LWin (set_win (win (lw l)) (lw l)) (l_pc l) (alloc_state l) (reg_state l) (offset_freed l) = l) as -> by (by destruct l as [[]]).
    by rewrite put_local_id.
Qed.

Lemma reg_listed s w : inv k s → w ∈ reg_list s → ∃ l, locals s !! w = Some l ∧ l_pc l = Listed.
Proof. intros [Ha _]. by apply (ak_reg _ _ _ _ Ha). Qed.

Lemma unregister_walk_ok ws off e : ∀ s, inv k s → (∀ w, w ∈ ws → w ∈ reg_list s) →
  ∃ r, unregister_walk ws off e s = Some r ∧ inv k r.1.
Proof.
  induction ws as [|w ws IH]; intros s Hi Hws; [by exists (s, 0)|]. cbn [unregister_walk].
  destruct (reg_listed s w Hi (Hws w ltac:(left))) as (l & Hl & Hpc). rewrite Hl. cbn [mbind option_bind].
  destruct (unregister_one_ok _ _ _ Hi Hl Hpc) as [Hi' Hrl].
  repeat case_match; try (eexists; split; [done|exact Hi]); apply IH; try done; intros w' Hw'; rewrite ?Hrl; apply Hws; by right.
Qed.

Lemma unregister_all_ok ws : ∀ s, inv k s → (∀ w, w ∈ ws → w ∈ reg_list s) → ∃ s', unregister_all ws s = Some s' ∧ inv k s'.
Proof.
  induction ws as [|w ws IH]; intros s Hi Hws; [by exists s|]. cbn [unregister_all].
  destruct (reg_listed s w Hi (Hws w ltac:(left))) as (l & Hl & Hpc). rewrite Hl. cbn [mbind option_bind].
  destruct (unregister_one_ok _ _ _ Hi Hl Hpc) as [Hi' Hrl]. apply IH; [done|]. intros w' Hw'. rewrite Hrl. apply Hws. by right.
Qed.

Lemma unregister_ok peer s off len : inv k s → ∃ r, scif_unregister peer s off len = Some r ∧ inv k r.1.
Proof.
  intros Hi. unfold scif_unregister. repeat (case_match; [by eexists|]). by apply unregister_walk_ok.
Qed.

(** ** Uses of remote windows *)

Lemma stage_mapped w o ab ba ov r b n : stage k w o ab ba ov (Some (r, b)) → stage k w o ab ba ov (Some (RWin (rw r) n (peer_window r), b)).
Proof.
  assert (∀ l, at_peer k w l r → at_peer k w l (RWin (rw r) n (peer_window r))) as H1 by (intros l []; by split).
  assert (∀ l, same_window (converted k) w l r → same_window (converted k) w l (RWin (rw r) n (peer_window r))) as H2 by (intros l []; by split).
  inversion 1; subst; econstructor; eauto; done.
Qed.

Lemma inv_mapped s v r n : inv k s → remotes s !! v = Some r → inv k (set_remotes (<[v:=RWin (rw r) n (peer_window r)]> (remotes s)) s).
Proof.
  intros (Ha & own & Hb & Hs) Hr. split; [done|]. exists own.
  split; [apply (b_upd _ _ _ _ _ r); try done; [by apply (bk_addr _ _ _ _ Hb _ r)|by apply (bk_unreg _ _ _ _ Hb v r)]|].
  intros w. cbn. specialize (Hs w). destruct (decide (own !! w = Some v)) as [Hw|Hw].
  - rewrite Hw in *. cbn in *. rewrite Hr in Hs. rewrite lookup_insert_eq. by apply stage_mapped.
  - erewrite remote_at_ext; [exact Hs|]. intros u Hu. rewrite lookup_insert_ne; [done|congruence].
Qed.

Lemma remote_listed s v : inv k s → v ∈ remote_reg_list s → is_Some (remotes s !! v).
Proof.
  intros (_ & own & Hb & _) Hv. destruct (bk_listed _ _ _ _ Hb _ Hv) as [w Hw]. by eapply (bk_own _ _ _ _ Hb).
Qed.

Lemma mmap_walk_ok vs : ∀ s off n, inv k s → (∀ v, v ∈ vs → v ∈ remote_reg_list s) → ∃ s', mmap_walk vs off n s = Some s' ∧ inv k s'.
Proof.
  induction vs as [|v vs IH]; intros s off n Hi Hvs; [by exists s|]. cbn [mmap_walk].
  destruct (remote_listed _ v Hi (Hvs v ltac:(left))) as [r Hr]. rewrite Hr. cbn [mbind option_bind].
  case_match; [eexists; split; [done|by apply inv_mapped]|]. apply IH; [by apply inv_mapped|]. intros u Hu. apply Hvs. by right.
Qed.

Lemma requested_stage own s w v r :
  stage_of k own s w → own !! w = Some v → remote_at (remotes s) (remote_reg_list s) (Some v) = Some (r, true) → rstate r = SCIF_UNREG_REQUESTED →
  ∃ l, locals s !! w = Some l ∧ l_pc l = Listed ∧ msgs w (a2b s) = [] ∧ peer_window r = w ∧
    ((ustate l = SCIF_UNREG_REQUESTED ∧ msgs w (b2a s) = [mk_msg SCIF_USED_WINDOW 0 w 0]) ∨
     (ustate l = SCIF_UNREG_DENIED ∧ msgs w (b2a s) = [])).
Proof.
  unfold stage_of. intros St Ho Hra Hru. rewrite Ho, Hra in St.
  inversion St; subst; try congruence; eexists; (split_and!; [done|done|done|by eapply sw_peer|auto]).
Qed.

Lemma munmap_one_ok s v r n :
  inv k s → v ∈ remote_reg_list s → remotes s !! v = Some r →
  inv k (munmap_one v r n s) ∧ ∀ u, u ≠ v → u ∈ remote_reg_list s → u ∈ remote_reg_list (munmap_one v r n s).
Proof.
  intros Hi Hv Hr. unfold munmap_one. cbn [rw mapped_pages peer_window]. destruct (bool_decide _ && _) eqn:E.
  2: { split; [by apply inv_mapped|done]. }
  apply andb_true_iff in E as [Hru%bool_decide_eq_true _]. split; [|intros u ? ?; by apply list_del_elem].
  pose proof Hi as (_ & own0 & Hb & Hs). destruct (bk_listed _ _ _ _ Hb _ Hv) as [w Hw].
  assert (pre k w own0 s) as Hp by (destruct Hi as (Ha & _); split; [done..|]; intros w' _; apply Hs).
  assert (remote_at (remotes s) (remote_reg_list s) (Some v) = Some (r, true)) as Hra
    by (cbn; rewrite Hr; cbn; by rewrite bool_decide_true).
  destruct (requested_stage _ _ _ _ _ (Hs w) Hw Hra Hru) as (l & Hl & Hpc & Hab & Hpeer & Hcase). rewrite Hpeer.
  apply (pre_send_a _ _ _ _ (mk_msg SCIF_DELETE_WINDOW 0 w 0)) in Hp; [|done]. apply (pre_drop _ _ _ _ v) in Hp; [|done].
  destruct Hcase as [[Hus Hba]|[Hus Hba]];
    (eapply inv_pre; [exact Hp|done|done|cbn; by rewrite msgs_app, msgs_one, about_self, Hba by done|cbn; apply lookup_delete_eq|done|]).
  - by apply st_used_del.
  - apply st_del; [done|by right].
Qed.

Lemma munmap_walk_ok vs : ∀ s off n, inv k s → NoDup vs → (∀ v, v ∈ vs → v ∈ remote_reg_list s) →
  ∃ s', munmap_walk vs off n s = Some s' ∧ inv k s'.
Proof.
  induction vs as [|v vs IH]; intros s off n Hi Hnd Hvs; [by exists s|]. cbn [munmap_walk].
  destruct (remote_listed _ v Hi (Hvs v ltac:(left))) as [r Hr]. rewrite Hr. cbn [mbind option_bind].
  apply NoDup_cons in Hnd as [Hnin Hnd].
  destruct (munmap_one_ok s v r (Z.min (s32 (Z.shiftr (w_end (rw r) - off) PAGE_SHIFT)) n) Hi (Hvs v ltac:(left)) Hr) as [Hi' Hkeep].
  case_match; [eexists; split; [done|done]|]. apply IH; [done|done|]. intros u Hu. apply Hkeep; [set_solver|]. apply Hvs. by right.
Qed.

Lemma from_addr_sub v l : sublist (from_addr v l) l.
Proof.
  induction l as [|x l IH]; [done|]. cbn. case_match; [done|]. by apply sublist_cons.
Qed.

Lemma remote_query_sub s off len p t rc vs :
  inv k s → remote_query s off len p t = (rc, vs) → NoDup vs ∧ ∀ v, v ∈ vs → v ∈ remote_reg_list s.
Proof.
  intros (_ & own & Hb & _) Hq. pose proof (window_list_nodup _ _ (bk_list _ _ _ _ Hb)) as Hnd.
  assert (sublist vs (remote_reg_list s)) as Hsub.
  { unfold remote_query in Hq. repeat case_match; simplify_eq; try apply sublist_nil_l; apply from_addr_sub. }
  split; [by eapply sublist_NoDup|]. intros v Hv. by eapply elem_of_sublist.
Qed.

Lemma mmap_ok mapped s off len p : inv k s → ∃ r, scif_mmap mapped s off len p = Some r ∧ inv k r.1.
Proof.
  intros Hi. unfold scif_mmap. case_match; [eexists; split; [done|exact Hi]|].
  destruct (remote_query s off len p SCIF_WINDOW_PARTIAL) as [rc vs] eqn:Hq.
  destruct rc; try (eexists; split; [done|exact Hi]). case_match; [eexists; split; [done|exact Hi]|].
  destruct (mmap_walk_ok vs s off (s32 (Z.shiftr len PAGE_SHIFT)) Hi) as (s' & -> & Hi'); [by eapply remote_query_sub|].
  by eexists.
Qed.

Lemma munmap_ok s off len p : inv k s → ∃ s', scif_munmap s off len p = Some s' ∧ inv k s'.
Proof.
  intros Hi. unfold scif_munmap. destruct (remote_query s off len p SCIF_WINDOW_PARTIAL) as [rc vs] eqn:Hq.
  destruct rc; try (eexists; split; [done|exact Hi]). by apply munmap_walk_ok; [|eapply remote_query_sub..].
Qed.

Lemma get_pages_ok mem s off len : inv k s → ∃ r, scif_get_pages mem s off len = Some r ∧ inv k r.1.
Proof.
  intros Hi. unfold scif_get_pages. repeat (case_match; [eexists; split; [done|exact Hi]|]).
  destruct (remote_query s off len 0 SCIF_WINDOW_SINGLE) as [rc vs] eqn:Hq.
  destruct rc; try (eexists; split; [done|exact Hi]). destruct vs as [|v vs]; [eexists; split; [done|exact Hi]|].
  case_match; [eexists; split; [done|exact Hi]|].
  destruct (remote_listed s v Hi) as [r Hr]; [eapply remote_query_sub; [done|done|left]|].
  rewrite Hr. cbn. eexists; split; [done|]. by apply inv_mapped.
Qed.

Lemma put_pages_ok s v n : inv k s → is_Some (remotes s !! v) → ∃ r, scif_put_pages s v n = Some r ∧ inv k r.1.
Proof.
  intros Hi [r Hr]. unfold scif_put_pages. rewrite Hr. cbn [mbind option_bind]. case_match; [eexists; split; [done|exact Hi]|].
  cbn [rw]. rewrite bool_decide_false.
  - eexists; split; [done|]. by apply inv_mapped.
  - destruct Hi as (_ & own & Hb & _). by apply (bk_unreg _ _ _ _ Hb v r).
Qed.

(** ** Destruction of queued windows *)

Lemma destroy_a_ok s : inv k s → ∃ s', destroy_a s = Some s' ∧ inv k s'.
Proof.
  intros Hi. unfold destroy_a. destruct (a_rma s) as [|w q] eqn:Hq; [by eexists|].
  destruct (pre_inv _ w _ Hi) as (own & Hp & St). pose proof (p_a _ _ _ _ Hp) as Ha. rewrite Hq in Ha.
  assert (∃ l, locals s !! w = Some l ∧ l_pc l = Deleted) as (l & Hl & Hpc) by (apply (ak_del _ _ _ _ Ha); left).
  rewrite Hl. cbn. eexists; split; [done|].
  assert (msgs w (a2b s) = [] ∧ msgs w (b2a s) = [] ∧ own !! w = None) as (Hab & Hba & Ho).
  { unfold waits in *. stage_cases St; rewrite Hl in Eo; simplify_eq; try congruence; try done; destruct H as [[? ?]|?]; congruence. }
  eapply (inv_pre _ w own _ None [] [] None None); [|cbn; apply lookup_delete_eq|done..|constructor].
  split; [|apply Hp|].
  - cbn. unfold scif_free_window_offset. rewrite (lk_freed _ _ (ak_local _ _ _ _ Ha _ _ Hl)), bool_decide_true by done. by eapply a_destroy.
  - eapply others_frame; [apply Hp| |done|done]. intros w' Hne. cbn. by rewrite lookup_delete_ne.
Qed.

Lemma destroy_b_ok s : inv k s → ∃ s', destroy_b s = Some s' ∧ inv k s'.
Proof.
  intros (Ha & own & Hb & Hs). unfold destroy_b. destruct (b_rma s) as [|v q] eqn:Hq; [eexists; split; [done|]; split; [done|]; exists own; by rewrite Hq|].
  apply (b_perm _ _ _ _ (v :: frees (a2b s) ++ q)) in Hb; [|by rewrite Permutation_middle].
  destruct (bk_queued _ _ _ _ Hb v ltac:(left)) as [[r Hr] Hno]. unfold scif_destroy_remote_window. cbn. rewrite Hr. cbn.
  eexists; split; [done|]. split; [done|]. exists own. split; [by apply b_pop|]. intros w. cbn. erewrite remote_at_ext; [apply Hs|].
  intros u Hu. cbn. rewrite lookup_delete_ne; [done|]. intros <-. by eapply Hno.
Qed.

End Call.
End ScifRegCall.
