(* ===== verification/ScifRegSafe.v ===== *)
(** * Registration is safe, and both nodes agree

    The calls that start a registration, any sequence of calls and messages, and the
    claims about them. *)
From S2P Require Import Prelude Ports Endpoint NodeQp RmaList DmaWindow ScifDma ScifRma ScifRmaTemp.
From S2P Require Import ScifReg ScifRegList ScifRegInv ScifRegStep ScifRegRecv ScifRegCall.
Local Open Scope Z_scope.

Module ScifRegSafe.
Import RmaList DmaWindow NodeQp ScifReg ScifRegList ScifRegInv ScifRegStep ScifRegRecv ScifRegCall.

(** ** What the calls rely on *)

(** [SCIF_DMA_63BIT_PFN - 1], the last page [alloc_iova] gives out. *)
Definition SCIF_DMA_63BIT_PFN : Z := Z.shiftr (2 ^ 63 - 1) PAGE_SHIFT.

(** Memory is not in use when it is allocated, [alloc_iova] finds a free range below the
    limit, and mapping a range for DMA succeeds. *)
Record env_ok (g : reg_env) (s : net) : Prop := {
  g_fresh : ∀ w, g_window g = Some w → locals s !! w = None;
  g_range : ∀ n lo, g_iova g n = Some lo → 0 <= lo ∧ lo + n - 1 <= SCIF_DMA_63BIT_PFN - 1 ∧
    ∀ lo' hi', iovad s !! lo' = Some hi' → hi' < lo ∨ lo + n - 1 < lo';
  g_maps : ∀ phys n, ∃ da, g_map_single g phys n = inl da;
}.

(** ** Starting a window *)

Lemma get_offset_ok mem g s flags off n coff d :
  env_ok g s → (ScifRma.isset flags SCIF_MAP_FIXED = true → 0 <= off ∧ (4096 | off)) →
  scif_get_window_offset mem (g_iova g) (iovad s) flags off n = inr (coff, d) →
  ∃ lo, coff = lo * 4096 ∧ d = <[lo:=lo + n - 1]> (iovad s) ∧ 0 <= lo ∧
    (if ScifRma.isset flags SCIF_MAP_FIXED then coff = off else lo + n <= 2 ^ 51 - 1) ∧
    ∀ lo' hi', iovad s !! lo' = Some hi' → hi' < lo ∨ lo + n - 1 < lo'.
Proof.
  intros Hg Hfix. unfold scif_get_window_offset. destruct (ScifRma.isset flags SCIF_MAP_FIXED) eqn:Ef.
  - destruct (Hfix eq_refl) as [Hoff [q Hq]]. unfold reserve_iova_exclusive. rewrite page_index.
    destruct (existsb _ _) eqn:Eo; [done|]. destruct mem; [|done]. intros [= <- <-]. exists (off / 4096).
    unfold PAGE_SHIFT. rewrite Z.shiftl_mul_pow2 by lia. change (2 ^ 12) with 4096.
    split_and!; [done|done|apply Z.div_pos; lia|subst off; by rewrite Z.div_mul|]. intros lo' hi' Hd.
    destruct (Z_lt_le_dec hi' (off / 4096)); [by left|]. right. apply Z.nle_gt. intros Hle.
    assert (existsb (fun '(lo, hi) => __is_range_overlap lo hi (off / 4096) (off / 4096 + n - 1)) (map_to_list (iovad s)) = true) as Hc; [|congruence].
    apply existsb_exists. exists (lo', hi'). split; [by apply list_elem_of_In, elem_of_map_to_list|].
    unfold __is_range_overlap. apply andb_true_iff. split; by apply Z.leb_le.
  - destruct (g_iova g n) as [lo|] eqn:El; [|done]. intros [= <- <-].
    destruct (g_range _ _ Hg _ _ El) as (Hlo & Hhi & Hap). exists lo. unfold PAGE_SHIFT. rewrite Z.shiftl_mul_pow2 by lia.
    change (SCIF_DMA_63BIT_PFN - 1) with (2 ^ 51 - 2) in Hhi. split_and!; [done..|lia|done].
Qed.

Lemma map_loop_total f : (∀ p n, ∃ da, f p n = inl da) → ∀ fuel pages, (length pages < fuel)%nat →
  ∃ das ns, map_loop fuel f pages = Some (0, das, ns) ∧ length das = length ns ∧ Forall (fun n => n ≠ 0) ns.
Proof.
  intros Hf. induction fuel as [|fuel IH]; intros pages Hl; [lia|]. cbn [map_loop]. destruct pages as [|p rest]; [by exists [], []|].
  destruct (Hf p (Z.shiftl (Z.of_nat (S (contig_run p rest))) PAGE_SHIFT)) as [da ->].
  destruct (IH (drop (contig_run p rest) rest)) as (das & ns & -> & Hlen & Hns); [rewrite length_drop; cbn [length] in *; lia|].
  cbn [mbind option_bind]. eexists _, _. split; [done|]. split; [cbn; lia|]. constructor; [lia|done].
Qed.

Section Safe.
Context (k : link).

Lemma start_ok g s w off n lo hi :
  inv k s → env_ok g s → locals s !! w = None → off = lo * 4096 → 0 <= lo → 0 < n < 2 ^ 31 → off + n * 4096 < 2 ^ 63 → lo + n - 1 <= hi →
  (∀ lo' hi', iovad s !! lo' = Some hi' → hi' < lo ∨ hi < lo') →
  ∃ s', start_window g (set_iovad (<[lo:=hi]> (iovad s)) s) w off n = Some s' ∧ inv k s'.
Proof.
  intros Hi Hg Hw -> Hlo Hn Hend Hhi Hap. destruct (pre_inv _ w _ Hi) as (own & Hp & St).
  assert (∀ l, local_ok w l → w_offset (lw l) = lo * 4096 → nr_pages (win (lw l)) = n → waits l → alloc_state l = OP_IN_PROGRESS →
    inv k (put_local w l (scif_send_alloc_request w n (set_iovad (<[lo:=hi]> (iovad s)) s)))) as Hput.
  { intros l Hok Hlo' Hn' Hwt Has. destruct (waits_pc _ Hwt) as [HL HD].
    assert (pfn l = lo) as Hpfn by (unfold pfn; rewrite Hlo', page_index; by apply Z.div_mul).
    apply (pre_send_b _ _ _ _ (mk_msg SCIF_ALLOC_REQ 0 n w)) in Hp; [|done..].
    unfold stage_of in St. rewrite Hw in St. inversion St as [Ho Hab Hba Hov Hra| | | | | | | | | | | | | | | | |]. symmetry in Hab, Hba.
    eapply (inv_pre _ w own _ (Some l)); [|cbn; by rewrite lookup_insert_eq|cbn; by rewrite msgs_app, msgs_one, about_self, Hab by done|done|done| |].
    - split; [|apply Hp|].
      + cbn. rewrite <- Hpfn. apply a_new; try done; [apply Hp|rewrite Hpfn, Hn'; lia|by rewrite Hpfn].
      + eapply others_frame; [apply Hp| |done|done]. intros w' Hne. cbn. by rewrite lookup_insert_ne.
    - by rewrite Hov.
    - rewrite <- Hov. by apply st_req. }
  assert (∀ p, reg_ok (Window w n p (lo * 4096) 0 0 SCIF_UNREG_NOT_INITIATED)) as Hreg by (intros; split_and!; cbn; lia).
  assert (lo * 4096 = Z.shiftr (lo * 4096) PAGE_SHIFT * 4096) as Hpage by (by rewrite page_index, Z.div_mul).
  unfold start_window. destruct (negb _).
  - eexists; split; [done|]. apply Hput; try done; [|by left; eexists]. split; try done; try apply Hreg; cbn; lia || constructor.
  - unfold scif_map_window.
    destruct (map_loop_total (if g_mgmt g then g_map_single g else fun phys _ => inl phys)) with
      (fuel := S (length (ScifRma.p_phys <$> ScifRma.pr_pages (g_pin g)))) (pages := ScifRma.p_phys <$> ScifRma.pr_pages (g_pin g)) as (das & ns & -> & Hlen & Hns).
    { intros. destruct (g_mgmt g); [by apply (g_maps _ _ Hg)|by eexists]. }
    { lia. }
    cbn [mbind option_bind]. eexists; split; [done|]. apply Hput; try done; [|by right]. split; try done; try apply Hreg; cbn; lia.
Qed.

Lemma fixed_facts flags off len :
  fixed_ok flags off len = true → ScifRma.isset flags SCIF_MAP_FIXED = true → off < 2 ^ 63 → 0 <= len < 2 ^ 63 →
  0 <= off ∧ (4096 | off) ∧ off + len < 2 ^ 63.
Proof.
  unfold fixed_ok. intros Hok Hf Hoff Hlen. rewrite Hf in Hok. cbn [andb] in Hok. apply negb_true_iff, orb_false_iff in Hok as [[Hal H0]%orb_false_iff Hw].
  apply negb_false_iff, Z.eqb_eq in Hal. apply Z.ltb_ge in H0, Hw.
  assert (off + len < 2 ^ 63).
  { destruct (Z_lt_le_dec (off + len) (2 ^ 63)) as [|Hge]; [done|]. exfalso.
    assert (s64 (off + len) = off + len - 2 ^ 64) as E; [|lia]. unfold swrap. rewrite (Z.mod_small (off + len)) by lia. destruct (Z.ltb_spec (off + len) (2 ^ (64 - 1))); lia. }
  split_and!; [done| |done]. rewrite ScifRmaTemp.page_align_eq in Hal by lia. exists ((off + 4095) / 4096). lia.
Qed.

Ltac stays := eexists; split; [reflexivity|eassumption].

Lemma register_ok g s addr len off p flags :
  inv k s → env_ok g s → 0 <= len < 2 ^ 43 → off < 2 ^ 63 →
  ∃ r, scif_register g s addr len off p flags = Some r ∧ inv k r.1.
Proof.
  intros Hi Hg Hlen Hoff. unfold scif_register.
  case_match; [stays|]. destruct (fixed_ok flags off len) eqn:Hfix; cbn [negb]; [|stays].
  case_match; [stays|]. destruct (_ || negb (ScifRma.page_align len =? len)) eqn:Hal; [stays|].
  case_match; [stays|].
  apply orb_false_iff in Hal as [[Hz _]%orb_false_iff Hal%negb_false_iff%Z.eqb_eq].
  rewrite ScifRmaTemp.page_align_eq in Hal by lia. apply Z.eqb_neq in Hz.
  assert (Z.shiftr len PAGE_SHIFT = len / 4096) as -> by apply page_index. set (n := len / 4096).
  assert (len = n * 4096) as Hn by (subst n; divlia).
  destruct (scif_get_window_offset _ _ _ _ _ _) as [err|[coff d]] eqn:Eo.
  { repeat case_match; stays. }
  assert (∀ Ef : ScifRma.isset flags SCIF_MAP_FIXED = true, 0 <= off ∧ (4096 | off)) as Hf
    by (intros Ef; by destruct (fixed_facts _ _ _ Hfix Ef Hoff ltac:(lia)) as (? & ? & _)).
  destruct (get_offset_ok _ _ _ _ _ _ _ _ Hg Hf Eo) as (lo & -> & -> & Hlo & Hb & Hap).
  destruct (g_peer g); cbn [negb]; [|stays]. destruct (g_window g) as [w|] eqn:Ew; [|stays].
  destruct (start_ok g s w (lo * 4096) n lo (lo + n - 1)) as (s' & -> & Hi'); try done; try lia; [by apply (g_fresh _ _ Hg)| |].
  - destruct (ScifRma.isset flags SCIF_MAP_FIXED) eqn:Ef; [|lia].
    destruct (fixed_facts _ _ _ Hfix Ef Hoff ltac:(lia)) as (_ & _ & ?). lia.
  - cbn. by eexists.
Qed.

Lemma register_pinned_ok g s nr refs off flags :
  inv k s → env_ok g s → 0 < nr < 2 ^ 19 → off < 2 ^ 63 →
  ∃ r, scif_register_pinned_pages g s nr refs off flags = Some r ∧ inv k r.1.
Proof.
  intros Hi Hg Hnr Hoff. unfold scif_register_pinned_pages.
  case_match; [stays|].
  assert (u64 (Z.shiftl nr PAGE_SHIFT) = nr * 4096) as ->.
  { unfold PAGE_SHIFT. rewrite Z.shiftl_mul_pow2, wrap_small by (unfold in_width; lia). done. }
  rewrite s32_small by lia.
  destruct (fixed_ok flags off _) eqn:Hfix; cbn [negb]; [|stays].
  case_match; [stays|]. case_match; [stays|].
  destruct (scif_get_window_offset _ _ _ _ _ _) as [err|[coff d]] eqn:Eo; [stays|].
  assert (∀ Ef : ScifRma.isset flags SCIF_MAP_FIXED = true, 0 <= off ∧ (4096 | off)) as Hf
    by (intros Ef; by destruct (fixed_facts _ _ _ Hfix Ef Hoff ltac:(lia)) as (? & ? & _)).
  destruct (get_offset_ok _ _ _ _ _ _ _ _ Hg Hf Eo) as (lo & -> & -> & Hlo & Hb & Hap).
  destruct (g_window g) as [w|] eqn:Ew; [|stays]. destruct (g_peer g); cbn [negb]; [|stays].
  destruct (start_ok g s w (lo * 4096) nr lo (lo + nr * 4096 - 1)) as (s' & -> & Hi'); try done; try lia; [by apply (g_fresh _ _ Hg)| |].
  - destruct (ScifRma.isset flags SCIF_MAP_FIXED) eqn:Ef; [|lia].
    destruct (fixed_facts _ _ _ Hfix Ef Hoff ltac:(lia)) as (_ & _ & ?). lia.
  - cbn. by eexists.
Qed.

End Safe.

(** ** Any sequence of calls and messages *)

Inductive op :=
  | Register (g : reg_env) (addr len off prot map_flags : Z)
  | RegisterPinned (g : reg_env) (nr refs off map_flags : Z)
  | Thread (w : Z)
  | Unregister (peer : bool) (off len : Z)
  | UnregisterAll
  | DestroyA
  | StateA (st : ScifEpd.scif_epd_state)
  | DeliverA
  | DeliverB (fresh : option Z)
  | Mmap (mapped off len prot : Z)
  | Munmap (off len prot : Z)
  | GetPages (mem : bool) (off len : Z)
  | PutPages (cookie nr : Z)
  | DestroyB
  | StateB (st : ScifEpd.scif_epd_state).

Definition exec (k : link) (o : op) (s : net) : option net :=
  match o with
  | Register g addr len off p flags => fst <$> scif_register g s addr len off p flags
  | RegisterPinned g nr refs off flags => fst <$> scif_register_pinned_pages g s nr refs off flags
  | Thread w => fst <$> thread_step k w s
  | Unregister peer off len => fst <$> scif_unregister peer s off len
  | UnregisterAll => scif_unregister_all_windows s
  | DestroyA => destroy_a s
  | StateA st => Some (set_a st s)
  | DeliverA => deliver_a s
  | DeliverB fresh => deliver_b k fresh s
  | Mmap mapped off len p => fst <$> scif_mmap mapped s off len p
  | Munmap off len p => scif_munmap s off len p
  | GetPages mem off len => fst <$> scif_get_pages mem s off len
  | PutPages v n => fst <$> scif_put_pages s v n
  | DestroyB => destroy_b s
  | StateB st => Some (set_b st s)
  end.

(** When a step can happen: lengths fit the [int] of their number of pages, a thread runs
    for its window, memory that is allocated is not in use, and who puts pages back still has
    them. *)
Definition enabled (o : op) (s : net) : Prop :=
  match o with
  | Register g _ len off _ _ => env_ok g s ∧ 0 <= len < 2 ^ 43 ∧ off < 2 ^ 63
  | RegisterPinned g nr _ off _ => env_ok g s ∧ 0 < nr < 2 ^ 19 ∧ off < 2 ^ 63
  | Thread w => is_Some (locals s !! w)
  | DeliverB fresh => ∀ v, fresh = Some v → remotes s !! v = None
  | PutPages v _ => is_Some (remotes s !! v)
  | _ => True
  end.

Definition net0 (sa sb : ScifEpd.scif_epd_state) : net := Net sa ∅ [] [] ∅ sb ∅ [] [] [] [].

Inductive reachable (k : link) : net → Prop :=
  | reach_init sa sb : reachable k (net0 sa sb)
  | reach_step s o s' : reachable k s → enabled o s → exec k o s = Some s' → reachable k s'.

Lemma inv_init k sa sb : inv k (net0 sa sb).
Proof.
  split.
  - split; try done; try (intros w; rewrite elem_of_nil; split; [done|intros (? & ? & _); done]); [apply NoDup_nil_2|].
    apply window_list_nil.
  - exists ∅. split; [|intros w; constructor]. split; try done; [apply window_list_nil|intros v []%elem_of_nil|constructor|intros v []%elem_of_nil|by intros v [? ?]].
Qed.

Lemma fst_some {A} (x : option (net * A)) k : (∃ r, x = Some r ∧ inv k r.1) → ∃ s', fst <$> x = Some s' ∧ inv k s'.
Proof. intros (r & -> & Hi). by exists r.1. Qed.

Lemma exec_ok k o s : inv k s → enabled o s → ∃ s', exec k o s = Some s' ∧ inv k s'.
Proof.
  intros Hi. destruct o; cbn [enabled exec]; intros He; try apply fst_some.
  - destruct He as (? & ? & ?). by apply register_ok.
  - destruct He as (? & ? & ?). by apply register_pinned_ok.
  - by apply thread_step_ok.
  - by apply unregister_ok.
  - by apply unregister_all_ok.
  - by apply destroy_a_ok.
  - by eexists.
  - by apply deliver_a_ok.
  - by apply deliver_b_ok.
  - by apply mmap_ok.
  - by apply munmap_ok.
  - by apply get_pages_ok.
  - by apply put_pages_ok.
  - by apply destroy_b_ok.
  - by eexists.
Qed.

Lemma reg_reachable_inv k s : reachable k s → inv k s.
Proof.
  induction 1 as [sa sb|s o s' Hr IH He Hx]; [apply inv_init|]. destruct (exec_ok k o s IH He) as (s1 & E & Hi). congruence.
Qed.

(** ** Agreement *)

(** Nothing is in flight and no call is in the middle of a registration. *)
Definition settled (s : net) : Prop :=
  a2b s = [] ∧ b2a s = [] ∧ map_Forall (fun _ l => l_pc l = Listed ∨ l_pc l = Deleted) (locals s).

Lemma settled_stage k own s w l :
  stage_of k own s w → settled s → locals s !! w = Some l →
  (l_pc l = Deleted ∧ own !! w = None) ∨
  (l_pc l = Listed ∧ ∃ v r, own !! w = Some v ∧ v ∈ remote_reg_list s ∧ remotes s !! v = Some r ∧ peer_window r = w).
Proof.
  intros St (Hab & Hba & Hpc) Hl. specialize (Hpc _ _ Hl). cbn in Hpc. stage_cases St; rewrite Hl in Eo; simplify_eq;
    try (by rewrite Hab in Eab); try (by rewrite Hba in Eba);
    try match goal with H : waits _ |- _ => destruct (waits_pc _ H); tauto end; destruct Hpc as [Hpc|Hpc]; try congruence; try (by left);
    right; (split; [done|]); eexists _, _; (split; [done|]);
    symmetry in Era; apply remote_at_some in Era as [? Hin];
    symmetry in Hin; apply bool_decide_eq_true in Hin; (split_and!; [done..|by eapply sw_peer]).
Qed.

Lemma settled_lists k s w : inv k s → settled s → w ∈ reg_list s ↔ ∃ v r, v ∈ remote_reg_list s ∧ remotes s !! v = Some r ∧ peer_window r = w.
Proof.
  intros (Ha & own & Hb & Hs) Hset. split.
  - intros (l & Hl & Hpc)%(ak_reg _ _ _ _ Ha).
    destruct (settled_stage _ _ _ _ _ (Hs w) Hset Hl) as [[? _]|(_ & v & r & _ & ? & ? & ?)]; [congruence|by exists v, r].
  - intros (v & r & Hv & Hr & <-). destruct (bk_listed _ _ _ _ Hb _ Hv) as [w Hw].
    destruct (listed_local k own s w v r (Hs w) Hw Hv Hr) as (l & Hl & HD & Hat). rewrite (sw_peer _ _ _ _ Hat).
    apply (ak_reg _ _ _ _ Ha). exists l. split; [done|]. destruct Hset as (_ & _ & Hpc). by destruct (Hpc _ _ Hl).
Qed.

Lemma settled_covered k s v r : inv k s → settled s → remotes s !! v = Some r → v ∈ remote_reg_list s ∨ v ∈ b_rma s.
Proof.
  intros (Ha & own & Hb & Hs) Hset Hr. destruct (bk_cover _ _ _ _ Hb v ltac:(by eexists)) as [Hv|[w Hw]].
  - right. destruct Hset as (Hab & _). by rewrite Hab in Hv.
  - left. pose proof (Hs w) as St. destruct (locals s !! w) as [l|] eqn:Hl.
    + destruct (settled_stage _ _ _ _ _ (Hs w) Hset Hl) as [[_ ?]|(_ & v' & r' & ? & ? & _)]; congruence.
    + rewrite Hw in St. inversion St.
Qed.

(** ** Example *)

Definition ex_link : link := Link true false 0 None.
Definition ex_page (p : Z) : ScifRma.page := ScifRma.Page p p.
Definition ex_env (w : Z) (maps : bool) : reg_env :=
  RegEnv true (fun _ => None) true (Some w) (ScifRma.PinRes 0 [ex_page 0x5000; ex_page 0x6000] 3 [] 0 [ex_page 0x5000; ex_page 0x6000]) true
    (fun p _ => if maps then inl p else inr (- ENOMEM)) false.
Definition ex_start : net := net0 ScifEpd.SCIFEP_CONNECTED ScifEpd.SCIFEP_CONNECTED.
(** Registers two pages at [off] in window [w] of node A, for which B allocates [v]. *)
Definition ex_register (w v off : Z) : list op :=
  [Register (ex_env w true) 0x1000 0x2000 off 3 SCIF_MAP_FIXED; DeliverB (Some v); DeliverA; Thread w; DeliverB None; DeliverA; Thread w].

Fixpoint exec_all (k : link) (os : list op) (s : net) : option net :=
  match os with [] => Some s | o :: os => s ← exec k o s; exec_all k os s end.

Fixpoint enabled_all (k : link) (os : list op) (s : net) : Prop :=
  match os with
  | [] => True
  | o :: os => enabled o s ∧ match exec k o s with Some s => enabled_all k os s | None => False end
  end.

Lemma reach_all k os : ∀ s s', reachable k s → enabled_all k os s → exec_all k os s = Some s' → reachable k s'.
Proof.
  induction os as [|o os IH]; intros s s' Hr He Hx; cbn in *; [by simplify_eq|].
  destruct He as [Ho He]. destruct (exec k o s) as [s1|] eqn:E; [|done]. cbn in Hx. eapply IH; [|done|done]. by eapply reach_step.
Qed.

Lemma ex_env_ok w s : locals s !! w = None → env_ok (ex_env w true) s.
Proof. intros Hw. split; cbn; [by intros ? [= <-]|done|by eexists]. Qed.

(** ** Claims *)

(** C4: as long as mapping pages for DMA does not fail, no call and no message refers to a window
    that has been freed.  Start with two
    connected endpoints without windows and let the nodes register and unregister windows, map
    and unmap remote ones, lose the connection, deliver messages in order and destroy queued
    windows, in any order: whatever step comes next is defined.  The conditions are [enabled] and
    [env_ok]: mapping a range for DMA succeeds ([scif_register_map_error_uses_freed] shows that freed
    memory is used when it fails), allocated memory and offsets are not in use, the pages of a
    window fit an [int], who puts pages back still has them, and no node dies. *)
Theorem scif_registration_safe k s o : reachable k s → enabled o s → is_Some (exec k o s).
Proof. intros Hr He. destruct (exec_ok k o s (reg_reachable_inv _ _ Hr) He) as (s' & -> & _). by eexists. Qed.

Lemma scif_registration_safe_witness :
  is_Some (exec ex_link (Unregister true 0x10000 0x2000) (default ex_start (exec_all ex_link (ex_register 1000 500 0x10000) ex_start))).
Proof.
  apply scif_registration_safe; [|exact I].
  eapply (reach_all _ (ex_register 1000 500 0x10000) ex_start); [constructor| |vm_compute; reflexivity].
  split; [split; [by apply ex_env_ok|vm_compute; split; [split; [discriminate|reflexivity]|reflexivity]]|].
  vm_compute. repeat split; try (intros ? [=]; reflexivity); try (eexists; reflexivity).
Defined.

(** C8: both nodes agree on what is registered, as long as mapping pages for DMA does not fail.  In every reachable state both lists are
    sorted by offset and their windows do not overlap; every window of the peer's list stands for a
    window of the node that is not deleted, has its offset, size and protection, and lists the
    addresses of its chunks converted for the peer.  Once nothing is in flight, exactly the
    windows of the one list have counterparts on the other, and every window in the memory of
    the peer is listed or queued for destruction. *)
Theorem scif_registration_agrees k s : reachable k s →
  reg_list_ok (omap (local_win (locals s)) (reg_list s)) ∧ reg_list_ok (omap (remote_win (remotes s)) (remote_reg_list s)) ∧
  (∀ v, v ∈ remote_reg_list s → ∃ w l r, remotes s !! v = Some r ∧ locals s !! w = Some l ∧ l_pc l ≠ Deleted ∧ at_peer k w l r) ∧
  (settled s →
    (∀ w, w ∈ reg_list s ↔ ∃ v r, v ∈ remote_reg_list s ∧ remotes s !! v = Some r ∧ peer_window r = w) ∧
    (∀ v r, remotes s !! v = Some r → v ∈ remote_reg_list s ∨ v ∈ b_rma s)).
Proof.
  intros Hi%reg_reachable_inv. pose proof Hi as (Ha & own & Hb & Hs).
  split_and!; [by apply window_list_reg, (ak_list _ _ _ _ Ha)|by apply window_list_reg, (bk_list _ _ _ _ Hb)| |].
  - intros v Hv. destruct (remote_listed k s v Hi Hv) as [r Hr]. destruct (bk_listed _ _ _ _ Hb _ Hv) as [w Hw].
    destruct (listed_local k own s w v r (Hs w) Hw Hv Hr) as (l & ? & ? & ?). by exists w, l, r.
  - intros Hset. split; [intros w; by eapply settled_lists|]. intros v r Hr. by eapply settled_covered.
Qed.

Lemma scif_registration_agrees_witness :
  match exec_all ex_link (ex_register 1000 500 0x10000) ex_start with
  | Some s => reg_list s = [1000] ∧ remote_reg_list s = [500] ∧ (1000 ∈ reg_list s ↔ ∃ v r, v ∈ remote_reg_list s ∧ remotes s !! v = Some r ∧ peer_window r = 1000)
  | None => False
  end.
Proof.
  destruct (exec_all ex_link (ex_register 1000 500 0x10000) ex_start) as [s|] eqn:E; [|vm_compute in E; discriminate].
  assert (reachable ex_link s) as Hr.
  { eapply (reach_all _ _ ex_start); [constructor| |exact E].
    split; [split; [by apply ex_env_ok|vm_compute; split; [split; [discriminate|reflexivity]|reflexivity]]|].
    vm_compute. repeat split; try (intros ? [=]; reflexivity); try (eexists; reflexivity). }
  pose proof (scif_registration_agrees _ _ Hr) as (_ & _ & _ & H).
  assert (settled s) as Hset.
  { vm_compute in E. injection E as <-. split_and!; [reflexivity..|]. apply (bool_decide_unpack _). vm_compute. exact I. }
  destruct (H Hset) as [Hl _]. vm_compute in E. injection E as <-. split; [reflexivity|]. split; [reflexivity|]. apply Hl.
Defined.

(** C36: when the pages of a window cannot be mapped for DMA, the peer uses a window after it has
    freed it.  [scif_prep_remote_window] then sends [SCIF_FREE_VIRT] for the window of the
    peer but returns the result of the send, which is 0, so the caller goes on and sends
    [SCIF_REGISTER] for the same window; the peer, which handles messages in order, frees it
    and then refers to it. *)
Theorem scif_register_map_error_uses_freed k s w l e v :
  locals s !! w = Some l → l_pc l = Prep e → e ≠ 0 → alloc_state l = OP_COMPLETED → alloc_vaddr (win (lw l)) = v →
  a_state s = ScifEpd.SCIFEP_CONNECTED → a2b s = [] → is_Some (remotes s !! v) →
  ∃ s1, thread_step k w s = Some (s1, None) ∧ a2b s1 = [mk_msg SCIF_FREE_VIRT 0 v w; mk_msg SCIF_REGISTER 0 v w] ∧
    ∃ s2, deliver_b k None s1 = Some s2 ∧ remotes s2 !! v = None ∧ deliver_b k None s2 = None.
Proof.
  intros Hl Hpc He Has Hv Hst Hab [r Hr]. unfold thread_step. rewrite Hl. cbn [mbind option_bind]. rewrite Hpc, bool_decide_false by congruence.
  unfold scif_prep_remote_window. rewrite bool_decide_false by congruence. destruct (Z.eqb_spec e 0); [done|]. cbn [negb].
  unfold scif_send_scif_register. cbn [a_state send_free_virt send_b set_msgs]. rewrite Hst, !bool_decide_true, Hv by done.
  destruct s as [ast locs rl q d bst rem rrl brq ab ba]. cbn in *. subst ab. rewrite bool_decide_true by done.
  eexists. split; [reflexivity|]. split; [done|]. cbn.
  unfold deliver_b, scif_free_virt, scif_destroy_remote_window. cbn. rewrite Hr. cbn. eexists. split; [reflexivity|].
  cbn. rewrite lookup_delete_eq. split; [done|]. unfold scif_recv_reg. cbn. by rewrite lookup_delete_eq.
Qed.

Lemma scif_register_map_error_uses_freed_witness :
  let ops := [Register (ex_env 1000 false) 0x1000 0x2000 0x10000 3 SCIF_MAP_FIXED; DeliverB (Some 500); DeliverA] in
  match exec_all ex_link ops ex_start with
  | Some s => ∃ s1, thread_step ex_link 1000 s = Some (s1, None) ∧
      a2b s1 = [mk_msg SCIF_FREE_VIRT 0 500 1000; mk_msg SCIF_REGISTER 0 500 1000] ∧
      ∃ s2, deliver_b ex_link None s1 = Some s2 ∧ remotes s2 !! 500 = None ∧ deliver_b ex_link None s2 = None
  | None => False
  end.
Proof.
  intros ops. destruct (exec_all ex_link ops ex_start) as [s|] eqn:E; [|vm_compute in E; discriminate].
  vm_compute in E. injection E as <-.
  eapply (scif_register_map_error_uses_freed _ _ 1000); [reflexivity|reflexivity|discriminate|reflexivity..|by eexists].
Defined.

(** C37: a window that is unregistered while its pages are held with [scif_get_pages] is never
    removed.  Putting the last pages back compares its state with [SCIF_UNREG_ACCEPTED], but
    the peer's windows become [SCIF_UNREG_REQUESTED]: the call succeeds, the window stays on
    the list with no page in use, no [SCIF_DELETE_WINDOW] is sent, and unregistering it again
    does nothing, as the window of the node is no longer in its initial state. *)
Theorem scif_put_pages_never_deletes k s v r :
  reachable k s → v ∈ remote_reg_list s → remotes s !! v = Some r → rstate r = SCIF_UNREG_REQUESTED →
  b_state s = ScifEpd.SCIFEP_CONNECTED →
  ∃ s' r' l, scif_put_pages s v (mapped_pages r) = Some (s', 0) ∧ v ∈ remote_reg_list s' ∧
    remotes s' !! v = Some r' ∧ mapped_pages r' = 0 ∧ b2a s' = b2a s ∧
    locals s' !! peer_window r = Some l ∧ l_pc l = Listed ∧ unregister_one (peer_window r) l s' = s'.
Proof.
  intros (_ & own & Hb & Hs)%reg_reachable_inv Hv Hr Hru Hst. destruct (bk_listed _ _ _ _ Hb _ Hv) as [w Hw].
  assert (remote_at (remotes s) (remote_reg_list s) (Some v) = Some (r, true)) as Hra by (cbn; rewrite Hr; cbn; by rewrite bool_decide_true).
  destruct (requested_stage _ _ _ _ _ _ (Hs w) Hw Hra Hru) as (l & Hl & Hpc & _ & Hpeer & Hus).
  unfold scif_put_pages. rewrite Hr. cbn [mbind option_bind]. rewrite bool_decide_true by auto. cbn [negb rw].
  rewrite bool_decide_false by (unfold rstate in Hru; congruence).
  eexists _, _, l. split; [reflexivity|]. cbn. rewrite lookup_insert_eq, Hpeer. split_and!; try done; [cbn; lia|].
  unfold unregister_one, scif_unregister_window. rewrite bool_decide_false by (unfold ustate in Hus; destruct Hus as [[? _]|[? _]]; congruence).
  cbn [foldl]. assert (LWin (set_win (win (lw l)) (lw l)) (l_pc l) (alloc_state l) (reg_state l) (offset_freed l) = l) as -> by (by destruct l as [[]]).
  by apply put_local_id.
Qed.

Definition ex_held : list op :=
  ex_register 1000 500 0x10000 ++ [GetPages true 0x10000 0x1000; Unregister true 0x10000 0x2000; DeliverB None; DeliverA].

Lemma scif_put_pages_never_deletes_witness :
  match exec_all ex_link ex_held ex_start with
  | Some s => ∃ s' r' l, scif_put_pages s 500 1 = Some (s', 0) ∧ 500 ∈ remote_reg_list s' ∧ remotes s' !! 500 = Some r' ∧ mapped_pages r' = 0 ∧
      b2a s' = [] ∧ locals s' !! 1000 = Some l ∧ l_pc l = Listed ∧ unregister_one 1000 l s' = s'
  | None => False
  end.
Proof.
  destruct (exec_all ex_link ex_held ex_start) as [s|] eqn:E; [|vm_compute in E; discriminate].
  assert (reachable ex_link s) as Hr.
  { eapply (reach_all _ _ ex_start); [constructor| |exact E].
    split; [split; [by apply ex_env_ok|vm_compute; split; [split; [discriminate|reflexivity]|reflexivity]]|].
    vm_compute. repeat split; try (intros ? [=]; reflexivity); try (eexists; reflexivity). }
  vm_compute in E. injection E as <-.
  exact (scif_put_pages_never_deletes _ _ 500 _ Hr ltac:(left) eq_refl eq_refl eq_refl).
Defined.

(** [scif_register_pinned_pages] takes 4096 times the range of offsets it needs: it passes the
    length in bytes where [scif_get_window_offset] expects a number of pages.  After it has
    registered [nr] pages at a fixed offset, the offset right behind them is in use. *)
Theorem scif_register_pinned_reserves_bytes mem mem' alloc alloc' d d' off nr n coff :
  0 < nr < 2 ^ 19 → 0 <= off → (4096 | off) → 0 < n →
  scif_get_window_offset mem alloc d SCIF_MAP_FIXED off (s32 (u64 (Z.shiftl nr PAGE_SHIFT))) = inr (coff, d') →
  coff = off ∧ d' = <[off / 4096:=off / 4096 + nr * 4096 - 1]> d ∧
  scif_get_window_offset mem' alloc' d' SCIF_MAP_FIXED (off + nr * 4096) n = inl (- EADDRINUSE).
Proof.
  intros Hnr Hoff [q Hq] Hn. assert (u64 (Z.shiftl nr PAGE_SHIFT) = nr * 4096) as ->.
  { unfold PAGE_SHIFT. rewrite Z.shiftl_mul_pow2, wrap_small by (unfold in_width; lia). done. }
  rewrite s32_small by lia. unfold scif_get_window_offset. change (ScifRma.isset SCIF_MAP_FIXED SCIF_MAP_FIXED) with true. cbv iota.
  rewrite !page_index. unfold reserve_iova_exclusive at 1. destruct (existsb _ _); [done|]. destruct mem; [|done]. intros [= <- <-].
  assert (off / 4096 = q) as -> by (subst off; apply Z.div_mul; lia). assert ((off + nr * 4096) / 4096 = q + nr) as -> by (subst off; divlia).
  split_and!; [unfold PAGE_SHIFT; rewrite Z.shiftl_mul_pow2; lia|done|]. unfold reserve_iova_exclusive.
  assert (existsb (fun '(lo, hi) => __is_range_overlap lo hi (q + nr) (q + nr + n - 1)) (map_to_list (<[q:=q + nr * 4096 - 1]> d)) = true) as ->; [|done].
  apply existsb_exists. exists (q, q + nr * 4096 - 1). split.
  - apply list_elem_of_In, elem_of_map_to_list. apply lookup_insert_eq.
  - unfold __is_range_overlap. apply andb_true_iff. split; apply Z.leb_le; lia.
Qed.

Lemma scif_register_pinned_reserves_bytes_witness :
  scif_get_window_offset true (fun _ => None) (<[16:=16 + 2 * 4096 - 1]> ∅) SCIF_MAP_FIXED (0x10000 + 2 * 4096) 1 = inl (- EADDRINUSE).
Proof.
  apply (scif_register_pinned_reserves_bytes true true (fun _ => None) (fun _ => None) ∅ _ 0x10000 2 1 0x10000);
    [lia|lia|by exists 16|lia|vm_compute; reflexivity].
Defined.

End ScifRegSafe.
