(* ===== verification/ScifRegUse.v ===== *)
(** * The pages of remote windows in use

    Who maps a remote window with [scif_mmap] or holds its pages with [scif_get_pages]
    relies on the window staying.  [chain] is what the walks of [scif_mmap.c] over a range
    find: consecutive windows with the number of pages in each. *)
From S2P Require Import Prelude Ports Endpoint NodeQp RmaList DmaWindow ScifDma ScifRma.
From S2P Require Import ScifReg ScifRegList ScifRegInv ScifRegStep ScifRegRecv ScifRegCall ScifRegSafe.
Local Open Scope Z_scope.

Module ScifRegUse.
Import RmaList DmaWindow NodeQp ScifReg ScifRegList ScifRegInv ScifRegStep ScifRegRecv ScifRegCall ScifRegSafe.

(** ** Walks over a range *)

Section Walk.
Context (f : Z → option scif_window).

(** The windows a walk goes through and the pages it takes of each. *)
Fixpoint walk (vs : list Z) (loop_offset nr_pages_left : Z) : list (Z * Z) :=
  match vs with
  | [] => []
  | v :: vs =>
      match f v with
      | None => []
      | Some x =>
          let n := Z.min (s32 (Z.shiftr (end_offset x - loop_offset) PAGE_SHIFT)) nr_pages_left in
          (v, n) :: if nr_pages_left - n =? 0 then [] else walk vs (loop_offset + Z.shiftl n PAGE_SHIFT) (nr_pages_left - n)
      end
  end.

Definition w_stop (x : scif_window) : Z := offset x + nr_pages x * 4096.

(** Consecutive windows of [l] from [off] on, with the protection [p]. *)
Inductive chain (l : list Z) (p : Z) : Z → Z → list (Z * Z) → Prop :=
  | chain_last off left v x : v ∈ l → f v = Some x → Z.land (prot x) p = p → offset x <= off → off + left * 4096 <= w_stop x → 0 < left →
      chain l p off left [(v, left)]
  | chain_more off left v x n ps : v ∈ l → f v = Some x → Z.land (prot x) p = p → offset x <= off → w_stop x = off + n * 4096 → 0 < n < left →
      chain l p (off + n * 4096) (left - n) ps → chain l p off left ((v, n) :: ps).

(** The query and the walk in one. *)
Fixpoint qwalk (l : list Z) (p off left : Z) : option (list (Z * Z)) :=
  match l with
  | [] => None
  | v :: l =>
      match f v with
      | None => None
      | Some x =>
          if off <? offset x then None
          else if w_stop x <=? off then qwalk l p off left
          else if negb (Z.land (prot x) p =? p) then None
          else if off + left * 4096 <=? w_stop x then Some [(v, left)]
          else let n := (w_stop x - off) / 4096 in cons (v, n) <$> qwalk l p (off + n * 4096) (left - n)
      end
  end.

Definition aligned (l : list Z) : Prop := ∀ v x, v ∈ l → f v = Some x → (4096 | offset x) ∧ nr_pages x < 2 ^ 31.

Lemma aligned_cons v l : aligned (v :: l) → aligned l.
Proof. intros H u x Hu. apply H. by right. Qed.

Lemma pages_left x off : (4096 | offset x) → (4096 | off) → w_stop x = off + (w_stop x - off) / 4096 * 4096.
Proof. unfold w_stop. intros [a ->] [b ->]. replace (a * 4096 + nr_pages x * 4096 - b * 4096) with ((a + nr_pages x - b) * 4096) by lia. rewrite Z.div_mul; lia. Qed.

Lemma divide_step off n : (4096 | off) → (4096 | off + n * 4096).
Proof. intros [q ->]. exists (q + n). lia. Qed.

Lemma qwalk_chain l p : ∀ off left ps, window_list f l → aligned l → (4096 | off) → 0 < left →
  qwalk l p off left = Some ps → chain l p off left ps.
Proof.
  induction l as [|u l IH]; intros off left ps Hl Hal Hoff Hleft; [done|]. cbn [qwalk].
  apply window_list_cons in Hl as [(x & Hx & _ & Hok & Hap) Hl]. rewrite Hx. destruct (Hal u x ltac:(left) Hx) as [Hax _].
  assert (∀ off left ps, chain l p off left ps → chain (u :: l) p off left ps) as Hmono.
  { induction 1; [eapply chain_last; eauto; by right|eapply chain_more; eauto; by right]. }
  destruct (Z.ltb_spec off (offset x)); [done|]. destruct (Z.leb_spec (w_stop x) off).
  { intros E. apply Hmono, IH; try done. by eapply aligned_cons. }
  destruct (Z.eqb_spec (Z.land (prot x) p) p) as [Hp|]; [cbn [negb]|done]. pose proof (pages_left x off Hax Hoff) as Hn.
  destruct (Z.leb_spec (off + left * 4096) (w_stop x)).
  - intros [= <-]. eapply chain_last; try done. left.
  - set (n := (w_stop x - off) / 4096) in *. intros (ps' & E & ->)%fmap_Some.
    eapply (chain_more _ _ _ _ _ x); try done; [left|lia|]. apply Hmono, IH; try done; [by eapply aligned_cons|by apply divide_step|lia].
Qed.

Lemma chain_qwalk l p : ∀ off left ps, window_list f l → aligned l → (4096 | off) → chain l p off left ps → qwalk l p off left = Some ps.
Proof.
  induction l as [|u l IH]; intros off left ps Hl Hal Hoff Hc; [inversion Hc; set_solver|]. cbn [qwalk].
  apply window_list_cons in Hl as [(x & Hx & Hax & Hok & Hap) Hl]. rewrite Hx. destruct (Hal u x ltac:(left) Hx) as [Hdx _].
  destruct Hok as (Ho & Hn & He).
  assert (∀ off left ps, w_stop x <= off → chain (u :: l) p off left ps → chain l p off left ps) as Hdrop.
  { intros off0 left0 ps0 Hge. induction 1 as [off' left' v y Hv Hy Hp Hlo Hhi|off' left' v y n ps' Hv Hy Hp Hlo Hhi Hn' Hc' IH'].
    - eapply chain_last; try done. apply elem_of_cons in Hv as [->|]; [|done]. exfalso. unfold w_stop in *. simplify_eq. lia.
    - eapply chain_more; try done; [|apply IH'; lia]. apply elem_of_cons in Hv as [->|]; [|done]. exfalso. unfold w_stop in *. simplify_eq. lia. }
  assert (off < w_stop x → ∀ v y, v ∈ u :: l → f v = Some y → offset y <= off → v = u ∧ y = x) as Hfirst.
  { intros Hlt v y [->|Hv]%elem_of_cons Hy Hlo; [by simplify_eq|]. specialize (Hap _ _ Hv Hy). unfold apart, w_stop in *. lia. }
  destruct (Z.ltb_spec off (offset x)).
  { exfalso. assert (off < w_stop x) as Hlt by (unfold w_stop; lia).
    inversion Hc as [? ? v y Hv Hy ? Hlo|? ? v y ? ? Hv Hy ? Hlo]; subst; destruct (Hfirst Hlt v y Hv Hy Hlo) as [-> ->]; lia. }
  destruct (Z.leb_spec (w_stop x) off) as [Hge|Hlt]; [apply IH; try done; [by eapply aligned_cons|by apply Hdrop]|].
  pose proof (pages_left x off Hdx Hoff) as Hpl.
  inversion Hc as [? ? v y Hv Hy Hp Hlo Hhi ?|? ? v y n ps' Hv Hy Hp Hlo Hhi ? Hc']; subst; destruct (Hfirst Hlt v y Hv Hy Hlo) as [-> ->];
    rewrite Hp, Z.eqb_refl; cbn [negb]; destruct (Z.leb_spec (off + left * 4096) (w_stop x)); try lia; [done|].
  assert ((w_stop x - off) / 4096 = n) as -> by lia. rewrite (IH _ _ ps'); try done; [by eapply aligned_cons|by apply divide_step|].
  apply Hdrop; [lia|done].
Qed.

Lemma qwalk_query req l : ∀ off left out, window_list f l → aligned l → (4096 | off) → 0 <= off → 0 < left → off + left * 4096 < 2 ^ 63 →
  r_type req = SCIF_WINDOW_PARTIAL → (query_loop req (omap f l) off (left * 4096) out).1 = 0 ↔ is_Some (qwalk l (r_prot req) off left).
Proof.
  induction l as [|u l IH]; intros off left out Hl Hal Hoff H0 Hleft Hend Ht; [cbn; split; [done|intros [? ?]; done]|].
  apply window_list_cons in Hl as [(x & Hx & Hax & Hok & Hap) Hl]. destruct (Hal u x ltac:(left) Hx) as [Hdx _].
  cbn [omap list_omap qwalk]. rewrite Hx. fold (omap f l). rewrite query_loop_cons by (done || lia). cbv zeta. fold (w_stop x).
  assert (∀ z : Z, z ≠ 0 → ∀ o : option (list (Z * Z)), o = None → z = 0 ↔ is_Some o) as Hno by (intros z ? o ->; split; [lia|intros [? ?]; done]).
  destruct (Z.ltb_spec off (offset x)); [by apply Hno|]. destruct (Z.leb_spec (w_stop x) off).
  { apply IH; try done. by eapply aligned_cons. }
  destruct (negb _); [by apply Hno|]. destruct (Z.leb_spec (off + left * 4096) (w_stop x)).
  { rewrite bool_decide_true by auto. split; [by eexists|done]. }
  rewrite bool_decide_false by (by rewrite Ht). pose proof (pages_left x off Hdx Hoff) as Hpl. set (n := (w_stop x - off) / 4096) in *.
  rewrite fmap_is_Some. rewrite Hpl at 1. replace (left * 4096 - (w_stop x - off)) with ((left - n) * 4096) by lia.
  apply IH; try done; [by eapply aligned_cons|by apply divide_step|lia|lia|lia].
Qed.

Lemma chain_elem l p off left ps v n : chain l p off left ps → (v, n) ∈ ps → v ∈ l ∧ 0 < n.
Proof. induction 1; intros [[= -> ->]|Hin]%elem_of_cons; [done|by apply not_elem_of_nil in Hin|split; [done|lia]|auto]. Qed.

Lemma wchain_head l p off left ps : chain l p off left ps → ∃ v n ps' x, ps = (v, n) :: ps' ∧ v ∈ l ∧ f v = Some x ∧ offset x <= off < w_stop x.
Proof. induction 1; eexists _, _, _, _; split_and!; done || lia. Qed.

Lemma min_pages x off left : reg_ok x → (4096 | offset x) → nr_pages x < 2 ^ 31 → (4096 | off) → offset x <= off → off < w_stop x →
  Z.min (s32 (Z.shiftr (end_offset x - off) PAGE_SHIFT)) left = if off + left * 4096 <=? w_stop x then left else (w_stop x - off) / 4096.
Proof.
  intros Hok Hdx Hnr Hoff Hlo Hhi. rewrite end_offset_ok, page_index by done. fold (w_stop x).
  pose proof (pages_left x off Hdx Hoff) as Hpl. unfold w_stop in *. destruct Hok as (? & ? & ?).
  rewrite s32_small by lia. destruct (Z.leb_spec (off + left * 4096) (offset x + nr_pages x * 4096)); lia.
Qed.

Lemma shiftl_page n : 0 <= n → Z.shiftl n PAGE_SHIFT = n * 4096.
Proof. intros. unfold PAGE_SHIFT. by rewrite Z.shiftl_mul_pow2. Qed.

Lemma walk_skip l p : ∀ off left ps, window_list f l → aligned l → (4096 | off) → 0 < left →
  (∀ v x, v ∈ l → f v = Some x → off <= offset x) → qwalk l p off left = Some ps → walk l off left = ps.
Proof.
  induction l as [|u l IH]; intros off left ps Hl Hal Hoff Hleft Hge; [done|]. cbn [qwalk walk].
  apply window_list_cons in Hl as [(x & Hx & Hax & Hok & Hap) Hl]. destruct (Hal u x ltac:(left) Hx) as [Hdx Hnr]. rewrite Hx.
  specialize (Hge u x ltac:(left) Hx) as Hgx. pose proof Hok as (? & ? & ?).
  destruct (Z.ltb_spec off (offset x)); [done|]. assert (off < w_stop x) as Hlt by (unfold w_stop; lia).
  destruct (Z.leb_spec (w_stop x) off); [lia|]. destruct (negb _); [done|]. rewrite min_pages by done.
  destruct (Z.leb_spec (off + left * 4096) (w_stop x)); [intros [= <-]; by rewrite Z.sub_diag|].
  pose proof (pages_left x off Hdx Hoff) as Hpl. set (n := (w_stop x - off) / 4096) in *. intros (ps' & E & ->)%fmap_Some.
  destruct (Z.eqb_spec (left - n) 0); [lia|]. rewrite shiftl_page by lia. f_equal.
  apply IH; try done; [by eapply aligned_cons|by apply divide_step|lia|].
  intros v y Hv Hy. specialize (Hap _ _ Hv Hy). unfold apart, w_stop in *. lia.
Qed.

Lemma walk_found l p : ∀ off left v n ps, window_list f l → aligned l → (4096 | off) → 0 < left →
  qwalk l p off left = Some ((v, n) :: ps) → walk (from_addr v l) off left = (v, n) :: ps.
Proof.
  induction l as [|u l IH]; intros off left v n ps Hl Hal Hoff Hleft Hq; [done|].
  destruct (wchain_head _ _ _ _ _ (qwalk_chain _ _ _ _ _ Hl Hal Hoff Hleft Hq)) as (? & ? & ? & y & [= <- <- <-] & Hv & Hy & Hlo & Hhi).
  pose proof Hl as Hl0. apply window_list_cons in Hl as [(x & Hx & Hax & Hok & Hap) Hl]. cbn [from_addr].
  destruct (Z.eqb_spec u v) as [->|Hne].
  - assert (y = x) as -> by congruence. clear IH Hap. cbn [qwalk walk] in *. rewrite Hx in *. destruct (Hal v x ltac:(left) Hx) as [Hdx Hnr].
    destruct (Z.ltb_spec off (offset x)); [done|]. destruct (Z.leb_spec (w_stop x) off); [lia|]. destruct (negb _); [done|].
    rewrite min_pages by done. destruct (Z.leb_spec (off + left * 4096) (w_stop x)); [injection Hq as <- <-; by rewrite Z.sub_diag|].
    pose proof (pages_left x off Hdx Hoff) as Hpl. set (m := (w_stop x - off) / 4096) in *. apply fmap_Some in Hq as (ps' & E & [= -> ->]).
    destruct (Z.eqb_spec (left - m) 0); [lia|]. rewrite shiftl_page by lia. f_equal.
    apply (walk_skip _ p); try done; [by eapply aligned_cons|by apply divide_step|lia|].
    apply window_list_cons in Hl0 as [(x' & Hx' & _ & _ & Hap) _]. assert (x' = x) as -> by congruence.
    intros v' y Hv' Hy'. specialize (Hap _ _ Hv' Hy'). unfold apart, w_stop in *. lia.
  - apply elem_of_cons in Hv as [->|Hv]; [done|]. apply IH; try done; [by eapply aligned_cons|]. cbn [qwalk] in Hq. rewrite Hx in Hq.
    specialize (Hap _ _ Hv Hy). unfold apart in Hap. destruct Hok as (? & ? & ?).
    destruct (Z.ltb_spec off (offset x)); [done|]. destruct (Z.leb_spec (w_stop x) off); [done|]. unfold w_stop in *. lia.
Qed.

End Walk.
(** ** The windows of a state *)

Definition range_prot (x : scif_window) : Z * Z * Z := (offset x, nr_pages x, prot x).

Lemma wchain_ext f g l l' p off left ps :
  chain f l p off left ps →
  (∀ v n x, (v, n) ∈ ps → v ∈ l → f v = Some x → v ∈ l' ∧ ∃ y, g v = Some y ∧ range_prot y = range_prot x) →
  chain g l' p off left ps.
Proof.
  induction 1 as [off left v x Hv Hx Hp Hlo Hhi Hl|off left v x n ps Hv Hx Hp Hlo Hhi Hn Hc IH]; intros Hs.
  - destruct (Hs v left x ltac:(by left) Hv Hx) as (Hv' & y & Hy & [= Eo En Ep]).
    apply (chain_last _ _ _ _ _ v y); try done; [by rewrite Ep|lia|unfold w_stop in *; lia].
  - destruct (Hs v n x ltac:(by left) Hv Hx) as (Hv' & y & Hy & [= Eo En Ep]).
    apply (chain_more _ _ _ _ _ v y); try done; [by rewrite Ep|lia|unfold w_stop in *; lia|]. apply IH. intros u m z Hu. apply (Hs u m). by right.
Qed.

Lemma chain_covers f l p off left ps : chain f l p off left ps → covers (omap f l) p off (left * 4096).
Proof.
  induction 1 as [off left v x Hv Hx Hp Hlo Hhi Hl|off left v x n ps Hv Hx Hp Hlo Hhi Hn Hc IH]; intros b Hb.
  - exists x. unfold w_stop in *. split_and!; [apply list_elem_of_omap; by exists v|lia|lia|done].
  - destruct (Z_lt_le_dec b (off + n * 4096)); [|apply IH; lia].
    exists x. unfold w_stop in *. split_and!; [apply list_elem_of_omap; by exists v|lia|lia|done].
Qed.

(** The pages that a list of pieces takes of a window. *)
Fixpoint cnt (ps : list (Z * Z)) (v : Z) : Z :=
  match ps with [] => 0 | (u, n) :: ps => (if u =? v then n else 0) + cnt ps v end.

Definition overlap (off len : Z) (x : scif_window) : Z := Z.max 0 (Z.min (off + len) (w_stop x) - Z.max off (offset x)).

Lemma chain_cnt f l p off left ps v x :
  window_list f l → v ∈ l → f v = Some x → chain f l p off left ps → cnt ps v * 4096 = overlap off (left * 4096) x.
Proof.
  intros Hl Hv Hx. assert (∀ u y, u ∈ l → f u = Some y → u ≠ v → disjoint y x) as Hdis.
  { clear -Hl Hv Hx. induction l as [|z l IH]; [set_solver|]. apply window_list_cons in Hl as [(w & Hw & _ & _ & Hap) Hl].
    intros u y Hu Hy Hne. apply elem_of_cons in Hu as [->|Hu]; apply elem_of_cons in Hv as [->|Hv]; simplify_eq; [by left; eapply Hap|by right; eapply Hap|by eapply IH]. }
  induction 1 as [off left u y Hu Hy Hp Hlo Hhi Hleft|off left u y n ps Hu Hy Hp Hlo Hhi Hn Hc IH]; cbn [cnt]; unfold overlap in *;
    (destruct (Z.eqb_spec u v) as [->|Hne]; [assert (y = x) as -> by congruence|pose proof (Hdis _ _ Hu Hy Hne) as Hd; unfold disjoint, apart in Hd]);
    unfold w_stop in *; lia.
Qed.

Lemma cnt_app ps qs v : cnt (ps ++ qs) v = cnt ps v + cnt qs v.
Proof. induction ps as [|[u n] ps IH]; [done|]. cbn. rewrite IH. lia. Qed.

Definition positive (ps : list (Z * Z)) : Prop := ∀ v n, (v, n) ∈ ps → 0 < n.

Lemma positive_cons v n ps : positive ((v, n) :: ps) → 0 < n ∧ positive ps.
Proof. intros H. split; [eapply H; by left|intros u m Hu; eapply H; by right]. Qed.

Lemma cnt_nonneg ps v : positive ps → 0 <= cnt ps v.
Proof. induction ps as [|[u n] ps IH]; [done|]. intros [Hn Hps]%positive_cons. cbn. specialize (IH Hps). destruct (u =? v); lia. Qed.

Lemma cnt_in ps v n : positive ps → (v, n) ∈ ps → 0 < cnt ps v.
Proof.
  induction ps as [|[u m] ps IH]; intros Hp Hin; [by apply not_elem_of_nil in Hin|]. apply positive_cons in Hp as [Hm Hps]. cbn.
  pose proof (cnt_nonneg ps v Hps). apply elem_of_cons in Hin as [[= -> ->]|Hin]; [rewrite Z.eqb_refl; lia|].
  specialize (IH Hps Hin). destruct (u =? v); lia.
Qed.

Lemma cnt_notin ps v : (∀ n, (v, n) ∉ ps) → cnt ps v = 0.
Proof.
  induction ps as [|[u n] ps IH]; [done|]. intros H. cbn. destruct (Z.eqb_spec u v) as [->|].
  - destruct (H n). by left.
  - rewrite IH; [done|]. intros m Hm. apply (H m). by right.
Qed.

End ScifRegUse.
