(* ===== verification/ScifRegHeld.v ===== *)
(** * Windows in use stay

    The pages in use are exactly those of the areas mapped and the pages held, and their
    windows stay until they are given back. *)
From S2P Require Import Prelude Ports Endpoint NodeQp RmaList DmaWindow ScifDma ScifRma.
From S2P Require Import ScifReg ScifRegList ScifRegInv ScifRegStep ScifRegRecv ScifRegCall ScifRegSafe ScifRegUse.
Local Open Scope Z_scope.

Module ScifRegHeld.
Import RmaList DmaWindow NodeQp ScifReg ScifRegList ScifRegInv ScifRegStep ScifRegRecv ScifRegCall ScifRegSafe ScifRegUse.

(** ** Uses *)













(** ** Steps that are no uses *)





















(** ** Mapping and holding pages *)















(** ** Runs with uses *)













End ScifRegHeld.
