(* ===== verification/VaNode.v ===== *)
(** * Pool of list nodes of the window offset allocator, first generation

    Models [mpss3/mpss-modules/micscif/micscif_va_node.c]: nodes are numbered and
    live in slabs of 128, found through a directory; unused nodes form a list
    through their [next] field.  The class [NodePool] is what the allocator of
    [micscif_va_gen.c] relies on; the slab implementation is its instance. *)
From S2P Require Import Prelude.
Local Open Scope Z_scope.

Definition invalid_va_node_index : Z := 2 ^ 32 - 1.

Record va_node := Node { next : Z; base : Z; range : Z }.

Definition va_node_is_valid (index : Z) : bool := negb (invalid_va_node_index =? index).

(** What a pool promises: [pool a L] says that the nodes of [L] are handed out.
    [get] and [put] read and write through the pointer of [va_node_get]; [alloc]
    gives [None] when memory runs out, which the two booleans decide; [room a] says
    that the pool may still grow. *)
Class NodePool (A : Type) := {
  get : A → Z → option va_node;
  put : A → Z → va_node → A;
  alloc : bool → bool → A → option Z * A;
  free : A → Z → A;
  room : A → Prop;
  pool : A → gset Z → Prop;
  pool_get a L i : pool a L → i ∈ L → is_Some (get a i) ∧ va_node_is_valid i = true;
  pool_put a L i n : pool a L → i ∈ L →
    pool (put a i n) L ∧ get (put a i n) i = Some n ∧
    (∀ j, j ≠ i → j ∈ L → get (put a i n) j = get a j);
  pool_alloc m1 m2 a L r a' : pool a L → room a → alloc m1 m2 a = (r, a') →
    (∀ j, j ∈ L → get a' j = get a j) ∧
    match r with
    | Some i => i ∉ L ∧ pool a' ({[i]} ∪ L)
    | None => pool a' L
    end;
  pool_alloc_memory a L : pool a L → room a → is_Some (fst (alloc true true a));
  pool_free a L i : pool a L → i ∈ L →
    pool (free a i) (L ∖ {[i]}) ∧ ∀ j, j ≠ i → j ∈ L → get (free a i) j = get a j;
}.

Module VaNode.

Definition slab_shift : Z := 7.
Definition nodes_in_slab : Z := Z.shiftl 1 slab_shift.
Definition slab_mask : Z := nodes_in_slab - 1.

(** [struct va_node_allocator]: the used part of the directory, and how many more
    entries it has. *)
Record va_node_allocator := Allocator {
  slabs : list (list va_node);
  num_free_slabs : Z;
  free_list : Z;
}.

Definition num_slabs (a : va_node_allocator) : Z := zlen (slabs a).

Definition va_node_init : va_node_allocator := Allocator [] 0 invalid_va_node_index.

Definition va_node_realloc (mem : bool) (a : va_node_allocator) : Z * va_node_allocator :=
  let growSlabs := u32 (2 * num_slabs a + 1) in
  if negb mem then (- ENOMEM, a)
  else (0, Allocator (slabs a) (u32 (growSlabs - num_slabs a)) (free_list a)).

(** A fresh slab: each node points to the next one, the last to the free list. *)
Definition new_slab (start free_list : Z) : list va_node :=
  map (λ i, Node (u32 (start + Z.of_nat i + 1)) 0 0) (seq 0 (Z.to_nat nodes_in_slab - 1)) ++
  [Node free_list 0 0].

Definition va_node_grow (mem1 mem2 : bool) (a : va_node_allocator) : Z * va_node_allocator :=
  let '(ret, a) := if num_free_slabs a =? 0 then va_node_realloc mem1 a else (0, a) in
  if ret <? 0 then (ret, a)
  else if negb mem2 then (- ENOMEM, a)
  else
    let start := u32 (num_slabs a * nodes_in_slab) in
    (0, Allocator (slabs a ++ [new_slab start (free_list a)]) (u32 (num_free_slabs a - 1)) start).

Definition va_node_get (a : va_node_allocator) (index : Z) : option va_node :=
  slabs a !! Z.to_nat (Z.shiftr index slab_shift) ≫= λ s, s !! Z.to_nat (Z.land index slab_mask).

(** A write through the pointer [va_node_get] returns. *)
Definition va_node_put (a : va_node_allocator) (index : Z) (n : va_node) : va_node_allocator :=
  Allocator (alter (λ s, <[Z.to_nat (Z.land index slab_mask) := n]> s)
               (Z.to_nat (Z.shiftr index slab_shift)) (slabs a))
    (num_free_slabs a) (free_list a).

Definition va_node_alloc (mem1 mem2 : bool) (a : va_node_allocator)
  : option Z * va_node_allocator :=
  let '(ret, a) := if negb (va_node_is_valid (free_list a)) then va_node_grow mem1 mem2 a
                   else (0, a) in
  if ret <? 0 then (None, a)
  else
    let out_alloc := free_list a in
    match va_node_get a out_alloc with
    | Some n => (Some out_alloc, Allocator (slabs a) (num_free_slabs a) (next n))
    | None => (None, a)
    end.

Definition va_node_free (a : va_node_allocator) (index : Z) : va_node_allocator :=
  match va_node_get a index with
  | Some tmp =>
      let a := va_node_put a index (Node (free_list a) (base tmp) (range tmp)) in
      Allocator (slabs a) (num_free_slabs a) index
  | None => a
  end.

(** ** Nodes by number *)

Definition slabs_ok (a : va_node_allocator) : Prop :=
  Forall (λ s, length s = 128%nat) (slabs a) ∧ num_slabs a <= 2 ^ 24.

Definition in_pool (a : va_node_allocator) (i : Z) : Prop := 0 <= i < 128 * num_slabs a.

Lemma index_split i : Z.shiftr i slab_shift = i / 128 ∧ Z.land i slab_mask = i mod 128.
Proof.
  split; [by rewrite Z.shiftr_div_pow2|]. change slab_mask with (Z.ones 7). by rewrite Z.land_ones.
Qed.

Lemma get_in_pool a i : slabs_ok a → in_pool a i → is_Some (va_node_get a i).
Proof.
  intros [Hs _] [H1 H2]. unfold va_node_get. destruct (index_split i) as [-> ->].
  unfold num_slabs, zlen in H2.
  assert (Z.to_nat (i / 128) < length (slabs a))%nat as Hi by divlia.
  apply lookup_lt_is_Some in Hi as [s Hi]. rewrite Hi. cbn.
  rewrite Forall_lookup in Hs. specialize (Hs _ _ Hi). apply lookup_lt_is_Some. rewrite Hs. divlia.
Qed.

Lemma get_put a i j n : slabs_ok a → in_pool a i → in_pool a j →
  va_node_get (va_node_put a i n) j = if i =? j then Some n else va_node_get a j.
Proof.
  intros Ha Hi Hj. destruct (get_in_pool a i Ha Hi) as [x Hx]. revert Hx.
  unfold va_node_get, va_node_put. cbn. destruct (index_split i) as [-> ->], (index_split j) as [-> ->].
  destruct Hi as [Hi _], Hj as [Hj _].
  destruct (slabs a !! Z.to_nat (i / 128)) as [s|] eqn:Hs; [|done]. cbn. intros Hx.
  destruct (decide (i / 128 = j / 128)) as [E|E].
  - rewrite <- E, list_lookup_alter_eq, Hs. cbn. destruct (Z.eqb_spec i j) as [-> |Hne].
    + rewrite list_lookup_insert_eq; [done|]. by eapply lookup_lt_Some.
    + rewrite list_lookup_insert_ne; [done|]. divlia.
  - rewrite list_lookup_alter_ne by divlia. destruct (Z.eqb_spec i j) as [-> |]; [done|done].
Qed.

Lemma put_ok a i n : slabs_ok a →
  slabs_ok (va_node_put a i n) ∧ num_slabs (va_node_put a i n) = num_slabs a.
Proof.
  intros [Hs Hn]. assert (num_slabs (va_node_put a i n) = num_slabs a) as E.
  { unfold num_slabs, zlen. cbn. by rewrite length_alter. }
  split; [|done]. split; [|by rewrite E]. cbn. apply Forall_alter; [done|].
  intros s Hs' Hl. by rewrite length_insert.
Qed.

(** ** The free list *)

Fixpoint fchain (a : va_node_allocator) (i : Z) (fl : list Z) : Prop :=
  match fl with
  | [] => i = invalid_va_node_index
  | j :: fl => i = j ∧ ∃ n, va_node_get a j = Some n ∧ fchain a (next n) fl
  end.

Lemma fchain_ext a a' i fl : (∀ j, j ∈ fl → va_node_get a' j = va_node_get a j) →
  fchain a i fl → fchain a' i fl.
Proof.
  revert i. induction fl as [|j fl IH]; intros i Hext; cbn; [done|].
  intros (-> & n & Hn & Hf). split; [done|]. exists n. rewrite Hext by left. split; [done|].
  apply IH; [|done]. intros k Hk. apply Hext. by right.
Qed.

Definition slab_pool (a : va_node_allocator) (L : gset Z) : Prop :=
  slabs_ok a ∧ ∃ fl, fchain a (free_list a) fl ∧ NoDup fl ∧
    (∀ i, i ∈ fl → in_pool a i) ∧ (∀ i, i ∈ L ↔ in_pool a i ∧ i ∉ fl).

Definition slab_room (a : va_node_allocator) : Prop := num_slabs a < 2 ^ 24.

Lemma in_pool_valid a i : slabs_ok a → in_pool a i → va_node_is_valid i = true.
Proof.
  intros [_ Hn] [H1 H2]. unfold va_node_is_valid, invalid_va_node_index.
  destruct (Z.eqb_spec (2 ^ 32 - 1) i); [lia|done].
Qed.

Lemma free_list_valid a i fl : slabs_ok a → (∀ i, i ∈ fl → in_pool a i) → fchain a i fl →
  va_node_is_valid i = true ↔ fl ≠ [].
Proof.
  intros Ha Hp Hf. destruct fl as [|j fl]; cbn in Hf.
  - rewrite Hf. split; [|done]. by vm_compute.
  - destruct Hf as [-> _]. split; [done|]. intros _. eapply in_pool_valid; [done|]. apply Hp. left.
Qed.

(** ** Growing *)

Lemma new_slab_lookup start f k : (k < 128)%nat → 0 <= start → start + 128 < 2 ^ 32 →
  new_slab start f !! k =
  Some (Node (if (k =? 127)%nat then f else start + Z.of_nat k + 1) 0 0).
Proof.
  intros Hk H0 H1. unfold new_slab. change (Z.to_nat nodes_in_slab - 1)%nat with 127%nat.
  destruct (Nat.eqb_spec k 127) as [-> |Hne].
  - rewrite lookup_app_r by (rewrite length_map, length_seq; lia).
    by rewrite length_map, length_seq.
  - rewrite lookup_app_l by (rewrite length_map, length_seq; lia).
    rewrite list_lookup_fmap, lookup_seq_lt by lia. cbn. do 2 f_equal.
    apply wrap_small. unfold in_width. lia.
Qed.

Section Grow.
Variables (a a' : va_node_allocator) (fl : list Z).
Let start := 128 * num_slabs a.
Hypothesis a_ok : slabs_ok a.
Hypothesis a_room : slab_room a.
Hypothesis grown : slabs a' = slabs a ++ [new_slab start (free_list a)].

Lemma grow_start : 0 <= start ∧ start + 128 < 2 ^ 32.
Proof. unfold start, slab_room, num_slabs, zlen in *. lia. Qed.

Lemma grow_num : num_slabs a' = num_slabs a + 1.
Proof. unfold num_slabs. rewrite grown, zlen_app. done. Qed.

Lemma grow_ok : slabs_ok a'.
Proof.
  destruct a_ok as [Hs _]. split; [|rewrite grow_num; unfold slab_room in *; lia].
  rewrite grown. apply Forall_app. split; [done|]. apply Forall_singleton. unfold new_slab.
  by rewrite length_app, length_map, length_seq.
Qed.

Lemma grow_get_old i : in_pool a i → va_node_get a' i = va_node_get a i.
Proof.
  intros [H1 H2]. unfold va_node_get. rewrite grown. destruct (index_split i) as [-> _].
  rewrite lookup_app_l; [done|]. unfold num_slabs, zlen in H2. divlia.
Qed.

Lemma grow_get_new k : (k < 128)%nat →
  va_node_get a' (start + Z.of_nat k) =
  Some (Node (if (k =? 127)%nat then free_list a else start + Z.of_nat k + 1) 0 0).
Proof.
  intros Hk. unfold va_node_get. rewrite grown. destruct (index_split (start + Z.of_nat k)) as [-> ->].
  assert (Z.to_nat ((start + Z.of_nat k) / 128) = length (slabs a)) as ->
    by (unfold start, num_slabs, zlen; divlia).
  assert (Z.to_nat ((start + Z.of_nat k) mod 128) = k) as ->
    by (unfold start, num_slabs, zlen; divlia).
  rewrite lookup_app_r, Nat.sub_diag by lia. cbn. destruct grow_start. by apply new_slab_lookup.
Qed.

Definition fresh_nodes (k n : nat) : list Z := (λ i, start + Z.of_nat i) <$> seq k n.

Lemma grow_chain n : ∀ k, (k + n = 128)%nat → (0 < n)%nat → fchain a' (free_list a) fl →
  fchain a' (start + Z.of_nat k) (fresh_nodes k n ++ fl).
Proof.
  induction n as [|n IH]; intros k Hk Hn Hf; [lia|]. cbn. split; [done|].
  eexists. split; [apply grow_get_new; lia|]. cbn.
  destruct (Nat.eqb_spec k 127) as [-> |Hne].
  - replace n with 0%nat by lia. done.
  - replace (start + Z.of_nat k + 1) with (start + Z.of_nat (S k)) by lia. apply IH; [lia|lia|done].
Qed.

Lemma elem_of_fresh i : i ∈ fresh_nodes 0 128 ↔ start <= i < start + 128.
Proof.
  unfold fresh_nodes. rewrite list_elem_of_fmap. setoid_rewrite elem_of_seq. split.
  - intros (k & -> & Hk). lia.
  - intros Hi. exists (Z.to_nat (i - start)). lia.
Qed.

Lemma NoDup_fresh : NoDup (fresh_nodes 0 128).
Proof.
  assert (Inj eq eq (λ i : nat, start + Z.of_nat i)) by (intros x y E; cbn in E; lia).
  apply NoDup_fmap_2; [done|apply NoDup_seq].
Qed.

End Grow.

Lemma grow_pool m1 m2 a L ret a' : slab_pool a L → slab_room a → free_list a = invalid_va_node_index →
  va_node_grow m1 m2 a = (ret, a') →
  slab_pool a' L ∧ (∀ j, j ∈ L → va_node_get a' j = va_node_get a j) ∧
  (0 <= ret → free_list a' = 128 * num_slabs a).
Proof.
  intros [Ha (fl & Hf & Hnd & Hin & HL)] Hr Hfree. unfold va_node_grow.
  assert (∃ r b, (if num_free_slabs a =? 0 then va_node_realloc m1 a else (0, a)) = (r, b) ∧
    slabs b = slabs a ∧ free_list b = free_list a ∧ (r = 0 ∨ r = - ENOMEM)) as (r & b & -> & Eb & Ef & Er).
  { unfold va_node_realloc. destruct (num_free_slabs a =? 0); [|eauto 10].
    destruct m1; cbn; eauto 10. }
  assert (slab_pool b L ∧ ∀ j, j ∈ L → va_node_get b j = va_node_get a j) as [Hb Hbg].
  { unfold slab_pool, slabs_ok, in_pool, num_slabs, va_node_get in *. rewrite Eb, Ef.
    split; [|done]. split; [done|]. exists fl. split; [|done].
    eapply fchain_ext; [|exact Hf]. intros j _. unfold va_node_get. by rewrite Eb. }
  destruct Er as [-> | ->]; cbn; [|intros [= <- <-]; split; [done|]; split; [done|]; unfold ENOMEM; lia].
  destruct m2; cbn; [|intros [= <- <-]; split; [done|]; split; [done|]; unfold ENOMEM; lia].
  assert (u32 (num_slabs b * nodes_in_slab) = 128 * num_slabs a) as ->.
  { unfold num_slabs at 1. rewrite Eb. fold (num_slabs a). change nodes_in_slab with 128.
    destruct (grow_start a Hr). rewrite wrap_small; [lia|]. unfold in_width. lia. }
  intros [= <- <-]. rewrite Eb, Ef.
  set (a1 := Allocator _ _ _).
  assert (slabs a1 = slabs a ++ [new_slab (128 * num_slabs a) (free_list a)]) as Hg by done.
  assert (fl = []) as ->.
  { destruct fl as [|j fl]; [done|]. destruct Hf as [Hj _].
    assert (va_node_is_valid j = true) as Hv by (eapply in_pool_valid; [done|]; apply Hin; left).
    rewrite <- Hj, Hfree in Hv. by vm_compute in Hv. }
  assert (∀ i, in_pool a1 i ↔ in_pool a i ∨ 128 * num_slabs a <= i < 128 * num_slabs a + 128) as Hp.
  { intros i. unfold in_pool. rewrite (grow_num a a1 Hg). unfold num_slabs. pose proof (zlen_nonneg (slabs a)). lia. }
  split; [split; [by apply (grow_ok a)|]|split; [|done]].
  - exists (fresh_nodes a 0 128 ++ []). split; [|split; [|split]].
    + pose proof (grow_chain a a1 [] Hr Hg 128 0 eq_refl ltac:(lia)) as Hc.
      rewrite Z.add_0_r in Hc. apply Hc. done.
    + rewrite app_nil_r. apply NoDup_fresh.
    + intros i. rewrite app_nil_r, elem_of_fresh, Hp. auto.
    + intros i. rewrite HL, app_nil_r, elem_of_fresh, Hp. rewrite elem_of_nil. unfold in_pool. intuition lia.
  - intros j Hj. rewrite <- Hbg by done. rewrite (grow_get_old a a1 Hg); [symmetry; auto|]. by apply HL.
Qed.

(** ** The pool *)

Lemma slab_get a L i : slab_pool a L → i ∈ L →
  is_Some (va_node_get a i) ∧ va_node_is_valid i = true.
Proof.
  intros [Ha (fl & _ & _ & _ & HL)] Hi. apply HL in Hi as [Hi _].
  split; [by apply get_in_pool|by eapply in_pool_valid].
Qed.

Lemma slab_put a L i n : slab_pool a L → i ∈ L →
  slab_pool (va_node_put a i n) L ∧ va_node_get (va_node_put a i n) i = Some n ∧
  (∀ j, j ≠ i → j ∈ L → va_node_get (va_node_put a i n) j = va_node_get a j).
Proof.
  intros [Ha (fl & Hf & Hnd & Hin & HL)] Hi. pose proof Hi as Hi'. apply HL in Hi' as [Hi1 Hi2].
  destruct (put_ok a i n Ha) as [Ha' En].
  assert (∀ j, in_pool a j → j ≠ i → va_node_get (va_node_put a i n) j = va_node_get a j) as Hne.
  { intros j Hj Hji. rewrite get_put by done. by destruct (Z.eqb_spec i j). }
  assert (∀ j, in_pool (va_node_put a i n) j ↔ in_pool a j) as Hp by (intros; unfold in_pool; by rewrite En).
  split; [|split].
  - split; [done|]. exists fl. split; [|split; [done|split]].
    + eapply fchain_ext; [|exact Hf]. intros j Hj. apply Hne; [by apply Hin|]. by intros ->.
    + intros j Hj. by apply Hp, Hin.
    + intros j. by rewrite Hp, HL.
  - rewrite get_put by done. by rewrite Z.eqb_refl.
  - intros j Hji Hj. apply Hne; [|done]. by apply HL.
Qed.

Lemma slab_free a L i : slab_pool a L → i ∈ L →
  slab_pool (va_node_free a i) (L ∖ {[i]}) ∧
  ∀ j, j ≠ i → j ∈ L → va_node_get (va_node_free a i) j = va_node_get a j.
Proof.
  intros HP Hi. destruct (slab_get a L i HP Hi) as [[n Hn] _]. unfold va_node_free. rewrite Hn.
  destruct HP as [Ha (fl & Hf & Hnd & Hin & HL)]. pose proof Hi as Hi'. apply HL in Hi' as [Hi1 Hi2].
  set (n' := Node (free_list a) (base n) (range n)).
  destruct (put_ok a i n' Ha) as [Ha' En].
  assert (∀ j, in_pool a j → j ≠ i → va_node_get (va_node_put a i n') j = va_node_get a j) as Hne.
  { intros j Hj Hji. rewrite get_put by done. by destruct (Z.eqb_spec i j). }
  split.
  - split; [done|]. exists (i :: fl). cbn. split; [split; [done|]|split; [|split]].
    + exists n'. split; [|].
      * change (va_node_get (va_node_put a i n') i = Some n').
        rewrite get_put by done. by rewrite Z.eqb_refl.
      * cbn. eapply fchain_ext; [|exact Hf]. intros j Hj.
        change (va_node_get (va_node_put a i n') j = va_node_get a j).
        apply Hne; [by apply Hin|]. by intros ->.
    + by constructor.
    + intros j Hj. change (in_pool (va_node_put a i n') j). unfold in_pool. rewrite En.
      apply elem_of_cons in Hj as [-> |Hj]; [done|by apply Hin].
    + intros j. change (j ∈ L ∖ {[i]} ↔ in_pool (va_node_put a i n') j ∧ j ∉ i :: fl).
      unfold in_pool at 1. rewrite En. fold (in_pool a j).
      rewrite not_elem_of_cons, elem_of_difference, elem_of_singleton, HL. tauto.
  - intros j Hji Hj. change (va_node_get (va_node_put a i n') j = va_node_get a j).
    apply Hne; [|done]. by apply HL.
Qed.

(** Taking the first free node. *)
Lemma slab_take a L fl i n : slabs_ok a → free_list a = i → fchain a i (i :: fl) → NoDup (i :: fl) →
  (∀ j, j ∈ i :: fl → in_pool a j) → (∀ j, j ∈ L ↔ in_pool a j ∧ j ∉ i :: fl) →
  va_node_get a i = Some n →
  i ∉ L ∧ slab_pool (Allocator (slabs a) (num_free_slabs a) (next n)) ({[i]} ∪ L).
Proof.
  intros Ha Hfree (_ & n' & Hn' & Hf) Hnd Hin HL Hn. assert (n' = n) as -> by congruence.
  apply NoDup_cons in Hnd as [Hi Hnd]. pose proof (Hin i ltac:(left)) as Hii. split.
  - rewrite HL. intros [_ Hni]. apply Hni. left.
  - split; [done|]. exists fl. split; [|split; [done|split]].
    + by eapply fchain_ext; [|exact Hf].
    + intros j Hj. apply Hin. by right.
    + intros j. change (in_pool (Allocator (slabs a) (num_free_slabs a) (next n)) j) with (in_pool a j).
      rewrite elem_of_union, elem_of_singleton, HL, not_elem_of_cons.
      destruct (decide (j = i)) as [-> |]; tauto.
Qed.

Lemma slab_alloc m1 m2 a L r a' : slab_pool a L → slab_room a → va_node_alloc m1 m2 a = (r, a') →
  (∀ j, j ∈ L → va_node_get a' j = va_node_get a j) ∧
  match r with
  | Some i => i ∉ L ∧ slab_pool a' ({[i]} ∪ L)
  | None => slab_pool a' L
  end.
Proof.
  intros HP Hr. unfold va_node_alloc.
  assert (∃ ret b, (if negb (va_node_is_valid (free_list a)) then va_node_grow m1 m2 a else (0, a)) =
    (ret, b) ∧ slab_pool b L ∧ (∀ j, j ∈ L → va_node_get b j = va_node_get a j)) as (ret & b & -> & Hb & Hg).
  { destruct (va_node_is_valid (free_list a)) eqn:Hv; cbn; [eauto 10|].
    destruct (va_node_grow m1 m2 a) as [ret b] eqn:E.
    destruct (grow_pool m1 m2 a L ret b HP Hr) as (? & ? & _); [|done|eauto 10].
    unfold va_node_is_valid in Hv. destruct (Z.eqb_spec invalid_va_node_index (free_list a)); done. }
  destruct (ret <? 0); [by intros [= <- <-]|].
  destruct (va_node_get b (free_list b)) as [n|] eqn:Hn; [|by intros [= <- <-]].
  intros [= <- <-]. split; [done|].
  destruct Hb as [Hbo (fl & Hf & Hnd & Hin & HL)]. destruct fl as [|j fl].
  - cbn in Hf. rewrite Hf in Hn. unfold va_node_get in Hn. exfalso.
    destruct (index_split invalid_va_node_index) as [E _]. rewrite E in Hn.
    destruct Hbo as [_ Hlen]. unfold num_slabs, zlen in Hlen.
    rewrite (proj2 (lookup_ge_None (slabs b) _)) in Hn; [done|].
    change (invalid_va_node_index / 128) with 33554431. lia.
  - destruct Hf as [Hj Hf]. subst j. by eapply slab_take.
Qed.

Lemma slab_alloc_memory a L : slab_pool a L → slab_room a → is_Some (fst (va_node_alloc true true a)).
Proof.
  intros HP Hr. unfold va_node_alloc.
  destruct (va_node_is_valid (free_list a)) eqn:Hv; cbn.
  - destruct HP as [Ha (fl & Hf & _ & Hin & _)].
    apply (free_list_valid a _ fl Ha Hin Hf) in Hv. destruct fl as [|j fl]; [done|].
    destruct Hf as (-> & n & -> & _). cbn. eauto.
  - destruct (va_node_grow true true a) as [ret b] eqn:E.
    assert (free_list a = invalid_va_node_index) as Hi.
    { unfold va_node_is_valid in Hv. by destruct (Z.eqb_spec invalid_va_node_index (free_list a)). }
    destruct (grow_pool true true a L ret b HP Hr Hi E) as ([Hb (fl & Hf & _ & Hin & _)] & _ & Hret).
    assert (ret = 0) as ->.
    { unfold va_node_grow, va_node_realloc in E. destruct (num_free_slabs a =? 0); by simplify_eq/=. }
    cbn. rewrite (Hret ltac:(done)) in Hf |- *. destruct fl as [|j fl]; cbn in Hf.
    + unfold invalid_va_node_index, slab_room, num_slabs, zlen in *. lia.
    + destruct Hf as (-> & n & -> & _). cbn. eauto.
Qed.

#[export] Instance slab_node_pool : NodePool va_node_allocator := {|
  get := va_node_get; put := va_node_put; alloc := va_node_alloc; free := va_node_free;
  room := slab_room; pool := slab_pool;
  pool_get := slab_get; pool_put := slab_put; pool_alloc := slab_alloc;
  pool_alloc_memory := slab_alloc_memory; pool_free := slab_free;
|}.

Lemma init_pool : slab_pool va_node_init ∅ ∧ slab_room va_node_init.
Proof.
  split; [|done]. split; [by split|]. exists []. split; [done|]. split; [constructor|].
  split; [intros i; by rewrite elem_of_nil|].
  intros i. split; [set_solver|]. intros [[H1 H2] _]. unfold num_slabs, zlen in H2. cbn in H2. lia.
Qed.

End VaNode.
