(* ===== verification/VaGen.v ===== *)
(** * Window offset allocator, first generation

    Models [mpss3/mpss-modules/micscif/micscif_va_gen.c]: free page ranges (holes)
    and claimed page ranges, each a linked list of pool nodes sorted by base.  The
    code runs on any [NodePool]; the theorems relate the linked lists to sets of
    pages. *)
From S2P Require Import Prelude VaNode.
Local Open Scope Z_scope.

Module VaGen.

Definition INVALID_VA_GEN_ADDRESS : Z := 0xff00000000000000.
Definition INVALID_VA_PAGE_INDEX : Z := 0xff00000000000.

Section Code.
Context {A : Type} `{PL : NodePool A}.

Record va_gen_addr := Gen { allocator : A; hole_list : Z; claims_list : Z; gen_base : Z }.

(** A result [None] is a failed [BUG_ON], a wild pointer or exhausted [fuel]; the
    booleans say whether memory for new nodes is found.  [a0] is the pool that
    [va_node_init] leaves; fields a failed start leaves unset are given as empty. *)

Definition va_gen_init_internal (m1 m2 : bool) (a0 : A) (pages : Z) : option (Z * va_gen_addr) :=
  match alloc m1 m2 a0 with
  | (None, a) => Some (- ENOMEM, Gen a invalid_va_node_index invalid_va_node_index 0)
  | (Some i, a) =>
      let a := if va_node_is_valid i then put a i (Node invalid_va_node_index 0 pages) else a in
      Some (0, Gen a i invalid_va_node_index 0)
  end.

(** The search of [va_gen_alloc_internal]: the hole, the node before it and its
    contents, or nothing. *)
Fixpoint find_hole (fuel : nat) (a : A) (index : Z) (prev : option Z) (pages : Z)
  : option (option (Z * option Z * va_node)) :=
  match fuel with
  | O => None
  | S fuel =>
      match get a index with
      | None => None
      | Some n =>
          if pages <=? range n then Some (Some (index, prev, n))
          else if negb (va_node_is_valid (next n)) then Some None
          else find_hole fuel a (next n) (Some index) pages
      end
  end.

Definition set_next (a : A) (i nx : Z) : option A :=
  match get a i with
  | Some n => Some (put a i (Node nx (base n) (range n)))
  | None => None
  end.

Definition va_gen_alloc_internal (fuel : nat) (g : va_gen_addr) (pages : Z)
  : option (Z * va_gen_addr) :=
  if (0 =? pages) || negb (va_node_is_valid (hole_list g)) then Some (INVALID_VA_PAGE_INDEX, g)
  else
    match find_hole fuel (allocator g) (hole_list g) None pages with
    | None => None
    | Some None => Some (INVALID_VA_PAGE_INDEX, g)
    | Some (Some (index, prev, n)) =>
        if range n =? pages then
          match (if hole_list g =? index then Some (allocator g, next n)
                 else match prev with
                      | None => None
                      | Some p => option_map (λ a, (a, hole_list g)) (set_next (allocator g) p (next n))
                      end) with
          | None => None
          | Some (a, hl) => Some (base n, Gen (free a index) hl (claims_list g) (gen_base g))
          end
        else
          Some (base n, Gen (put (allocator g) index
                   (Node (next n) (u64 (base n + pages)) (u64 (range n - pages))))
                   (hole_list g) (claims_list g) (gen_base g))
    end.

(** How the loop of [va_gen_insert_and_coalesce] ends. *)
Inductive ins_result := InsDone (rc : Z) (a : A) | InsAt (findPtr prev : Z).

Fixpoint ins_loop (fuel : nat) (a : A) (findPtr prev b r : Z) : option ins_result :=
  match fuel with
  | O => None
  | S fuel =>
      if negb (va_node_is_valid findPtr) then Some (InsAt findPtr prev)
      else
        match get a findPtr with
        | None => None
        | Some f =>
            let end_range := u64 (b + r) in
            if (if base f <? b then b <? u64 (base f + range f) else base f <? end_range)
            then Some (InsDone (-1) a)
            else if end_range =? base f
            then Some (InsDone 0 (put a findPtr (Node (next f) b (u64 (range f + r)))))
            else if u64 (base f + range f) =? b then
              let f1 := Node (next f) (base f) (u64 (range f + r)) in
              let a := put a findPtr f1 in
              if va_node_is_valid (next f) then
                match get a (next f) with
                | None => None
                | Some nn =>
                    if base nn =? end_range
                    then Some (InsDone 0 (free (put a findPtr
                           (Node (next nn) (base f1) (u64 (range f1 + range nn)))) (next f)))
                    else Some (InsDone 0 a)
                end
              else Some (InsDone 0 a)
            else if end_range <? base f then Some (InsAt findPtr prev)
            else ins_loop fuel a (next f) findPtr b r
        end
  end.

(** The code, the pool and [*list] afterwards. *)
Definition va_gen_insert_and_coalesce (fuel : nat) (m1 m2 : bool) (a : A) (list b r : Z)
  : option (Z * A * Z) :=
  match ins_loop fuel a list list b r with
  | None => None
  | Some (InsDone rc a) => Some (rc, a, list)
  | Some (InsAt findPtr prev) =>
      match alloc m1 m2 a with
      | (None, _) => None
      | (Some ptr, a) =>
          if negb (va_node_is_valid ptr) then Some (0, a, list)
          else
            let a := put a ptr (Node findPtr b r) in
            if findPtr =? list then Some (0, a, ptr)
            else if negb (va_node_is_valid prev) then None
            else option_map (λ a, (0, a, list)) (set_next a prev ptr)
      end
  end.

Definition va_gen_free_internal (fuel : nat) (m1 m2 : bool) (g : va_gen_addr) (b r : Z)
  : option va_gen_addr :=
  match va_gen_insert_and_coalesce fuel m1 m2 (allocator g) (hole_list g) b r with
  | Some (rc, a, hl) =>
      if rc <? 0 then None else Some (Gen a hl (claims_list g) (gen_base g))
  | None => None
  end.

Definition va_gen_claim_internal (fuel : nat) (m1 m2 : bool) (g : va_gen_addr) (b r : Z)
  : option (Z * va_gen_addr) :=
  match va_gen_insert_and_coalesce fuel m1 m2 (allocator g) (claims_list g) b r with
  | Some (rc, a, cl) => Some (rc, Gen a (hole_list g) cl (gen_base g))
  | None => None
  end.

(** The loop of [va_gen_free_claim]; [prev] is the node before [index]. *)
Fixpoint free_claim_loop (fuel : nat) (m1 m2 : bool) (g : va_gen_addr) (index : Z)
    (prev : option Z) (b r : Z) : option va_gen_addr :=
  match fuel with
  | O => None
  | S fuel =>
      if negb (va_node_is_valid index) then Some g
      else
        match get (allocator g) index with
        | None => None
        | Some n =>
            let with_pool a := Gen a (hole_list g) (claims_list g) (gen_base g) in
            if (base n <=? b) && (u64 (b + r) <=? u64 (base n + range n)) then
              if base n =? b then
                let n1 := Node (next n) (u64 (base n + r)) (u64 (range n - r)) in
                let a := put (allocator g) index n1 in
                if 0 =? range n1 then
                  match prev with
                  | Some p => option_map (λ a, with_pool (free a index)) (set_next a p (next n))
                  | None => Some (Gen (free a index) (hole_list g) (next n) (gen_base g))
                  end
                else Some (with_pool a)
              else if u64 (base n + range n) =? u64 (b + r) then
                Some (with_pool (put (allocator g) index (Node (next n) (base n) (u64 (range n - r)))))
              else
                match alloc m1 m2 (allocator g) with
                | (None, _) => None
                | (Some new_index, a) =>
                    let nb := u64 (b + r) in
                    let a := put a new_index (Node (next n) nb (u64 (range n - nb))) in
                    Some (with_pool (put a index (Node new_index (base n) (u64 (b - base n)))))
                end
            else if u64 (b + r) <? base n then Some g
            else if (if base n <? b then b <? u64 (base n + range n) else base n <? u64 (b + r))
            then Some g
            else free_claim_loop fuel m1 m2 g (next n) (Some index) b r
        end
  end.

Definition va_gen_free_claim (fuel : nat) (m1 m2 : bool) (g : va_gen_addr) (b r : Z)
  : option va_gen_addr :=
  if 0 =? r then Some g else free_claim_loop fuel m1 m2 g (claims_list g) None b r.

Definition va_gen_alloc_aligned (fuel : nat) (m1 m2 : bool) (g : va_gen_addr)
    (pages unit_align : Z) : option (Z * va_gen_addr) :=
  match va_gen_alloc_internal fuel g (u64 (pages + unit_align - 1)) with
  | None => None
  | Some (base_address, g) =>
      let aligned_base := base_address in
      if (0 =? pages) || (0 =? unit_align) then Some (INVALID_VA_PAGE_INDEX, g)
      else if (unit_align =? 1) || (base_address =? INVALID_VA_PAGE_INDEX) then Some (base_address, g)
      else
        match (if base_address <? aligned_base
               then va_gen_free_internal fuel m1 m2 g base_address (aligned_base - base_address)
               else Some g) with
        | None => None
        | Some g =>
            option_map (pair aligned_base)
              (if u64 (aligned_base + pages) <? u64 (base_address + unit_align - 1)
               then va_gen_free_internal fuel m1 m2 g (u64 (aligned_base + pages))
                      (u64 (base_address + unit_align - 1 - aligned_base - pages))
               else Some g)
        end
  end.

Definition pages_of (num_bytes : Z) : Z := u64 (PAGE_SIZE - 1 + num_bytes) / PAGE_SIZE.

Definition va_gen_alloc (fuel : nat) (m1 m2 : bool) (g : va_gen_addr) (num_bytes align_bytes : Z)
  : option (Z * va_gen_addr) :=
  let num_pages := pages_of num_bytes in
  let align_pages := align_bytes / PAGE_SIZE in
  if align_bytes <? PAGE_SIZE then Some (INVALID_VA_GEN_ADDRESS, g)
  else if 0xffffffff * PAGE_SIZE <? num_bytes then Some (INVALID_VA_GEN_ADDRESS, g)
  else
    match va_gen_alloc_aligned fuel m1 m2 g num_pages (u32 (align_pages mod 0xffffffff)) with
    | None => None
    | Some (va_page_index, g) =>
        if va_page_index =? INVALID_VA_PAGE_INDEX then Some (INVALID_VA_GEN_ADDRESS, g)
        else Some (u64 (u64 (Z.shiftl va_page_index PAGE_SHIFT) + gen_base g), g)
    end.

Definition va_gen_claim (fuel : nat) (m1 m2 : bool) (g : va_gen_addr) (address num_bytes : Z)
  : option (Z * va_gen_addr) :=
  if gen_base g <? u64 (address + num_bytes) then Some (INVALID_VA_GEN_ADDRESS, g)
  else if negb (Z.land address (PAGE_SIZE - 1) =? 0) then Some (INVALID_VA_GEN_ADDRESS, g)
  else
    match va_gen_claim_internal fuel m1 m2 g (Z.shiftr address PAGE_SHIFT) (pages_of num_bytes) with
    | None => None
    | Some (result, g) =>
        Some (if result <? 0 then INVALID_VA_GEN_ADDRESS else address, g)
    end.

Definition va_gen_free (fuel : nat) (m1 m2 : bool) (g : va_gen_addr) (address num_bytes : Z)
  : option va_gen_addr :=
  if gen_base g <=? address then
    va_gen_free_internal fuel m1 m2 g (Z.shiftr (address - gen_base g) PAGE_SHIFT) (pages_of num_bytes)
  else va_gen_free_claim fuel m1 m2 g (Z.shiftr address PAGE_SHIFT) (pages_of num_bytes).

Definition va_gen_init (m1 m2 : bool) (a0 : A) (b len : Z) : option (Z * va_gen_addr) :=
  match va_gen_init_internal m1 m2 a0 (Z.shiftr len PAGE_SHIFT) with
  | Some (ret, g) =>
      if ret =? 0 then Some (ret, Gen (allocator g) (hole_list g) (claims_list g) b)
      else Some (ret, g)
  | None => None
  end.

End Code.

(** ** Lists of ranges *)

(** What the two list operations do to the ranges, in order. *)
Fixpoint ins (l : list (Z * Z)) (b r : Z) : option (list (Z * Z)) :=
  match l with
  | [] => Some [(b, r)]
  | (fb, fr) :: l =>
      if (if fb <? b then b <? fb + fr else fb <? b + r) then None
      else if b + r =? fb then Some ((b, fr + r) :: l)
      else if fb + fr =? b then
        match l with
        | (nb, nr) :: l' => if nb =? b + r then Some ((fb, fr + r + nr) :: l') else Some ((fb, fr + r) :: l)
        | [] => Some [(fb, fr + r)]
        end
      else if b + r <? fb then Some ((b, r) :: (fb, fr) :: l)
      else option_map (cons (fb, fr)) (ins l b r)
  end.

Fixpoint take_fit (l : list (Z * Z)) (n : Z) : option (Z * list (Z * Z)) :=
  match l with
  | [] => None
  | (b, r) :: l =>
      if n <=? r then Some (b, if r =? n then l else (b + n, r - n) :: l)
      else option_map (λ '(p, l), (p, (b, r) :: l)) (take_fit l n)
  end.

(** Sorted by base, with at least a page between two ranges. *)
Fixpoint sep (lo : Z) (l : list (Z * Z)) : Prop :=
  match l with
  | [] => True
  | (b, r) :: l => lo <= b ∧ 0 < r ∧ sep (b + r + 1) l
  end.

Definition in_pages (l : list (Z * Z)) (p : Z) : Prop := ∃ b r, (b, r) ∈ l ∧ b <= p < b + r.

Lemma in_pages_nil p : ¬ in_pages [] p.
Proof. intros (b & r & Hin & _). by apply elem_of_nil in Hin. Qed.

Lemma in_pages_cons b r l p : in_pages ((b, r) :: l) p ↔ b <= p < b + r ∨ in_pages l p.
Proof.
  unfold in_pages. setoid_rewrite elem_of_cons. split.
  - intros (b0 & r0 & [[= -> ->]|Hin] & Hp); [by left|right; eauto].
  - intros [Hp|(b0 & r0 & Hin & Hp)]; eauto 10.
Qed.

Lemma sep_low lo l p : sep lo l → in_pages l p → lo <= p.
Proof.
  revert lo. induction l as [|[b r] l IH]; intros lo; cbn; [by intros _ ?%in_pages_nil|].
  intros (Hlo & Hr & Hs). rewrite in_pages_cons. intros [?|Hp]; [lia|].
  specialize (IH _ Hs Hp). lia.
Qed.

Lemma sep_weaken lo lo' l : lo' <= lo → sep lo l → sep lo' l.
Proof. destruct l as [|[b r] l]; cbn; [done|]. intros ? (?&?&?). split_and!; auto; lia. Qed.

(** A range disjoint from the list is added to its pages. *)
Lemma ins_disjoint lo l b r : 0 < r → lo <= b → sep lo l →
  (∀ p, in_pages l p → ¬ b <= p < b + r) →
  ∃ l', ins l b r = Some l' ∧ (∀ p, in_pages l' p ↔ in_pages l p ∨ b <= p < b + r) ∧ sep lo l'.
Proof.
  intros Hr. revert lo. induction l as [|[fb fr] l IH]; intros lo Hlo Hs Hd; cbn.
  { exists [(b, r)]. setoid_rewrite in_pages_cons. split_and!; try done.
    intros p. intuition. }
  destruct Hs as (Hfb & Hfr & Hs). setoid_rewrite in_pages_cons in Hd.
  assert (∀ p, in_pages l p → fb + fr + 1 <= p) as Hl by (intros; by eapply sep_low).
  assert (fb + fr <= b ∨ b + r <= fb) as Hdd.
  { destruct (Z_le_gt_dec (fb + fr) b); [by left|]. destruct (Z_le_gt_dec (b + r) fb); [by right|].
    exfalso. apply (Hd (Z.max fb b)); [left|]; lia. }
  assert ((if fb <? b then b <? fb + fr else fb <? b + r) = false) as ->
    by (destruct (Z.ltb_spec fb b); lia).
  destruct (Z.eqb_spec (b + r) fb) as [E|E].
  { eexists. split; [done|]. cbn. setoid_rewrite in_pages_cons. split_and!; try lia.
    - intros p. intuition lia.
    - eapply sep_weaken; [|exact Hs]. lia. }
  destruct (Z.eqb_spec (fb + fr) b) as [E2|E2].
  { destruct l as [|[nb nr] l]; cbn in Hs.
    - eexists. split; [done|]. cbn. setoid_rewrite in_pages_cons. split_and!; try lia; try done.
      intros p. pose proof (in_pages_nil p). intuition lia.
    - destruct Hs as (Hnb & Hnr & Hs). setoid_rewrite in_pages_cons in Hd.
      assert (b + r <= nb) as Hnb2.
      { destruct (Z_le_gt_dec (b + r) nb); [done|]. exfalso. apply (Hd nb); [right; left|]; lia. }
      destruct (Z.eqb_spec nb (b + r)) as [E3|E3]; eexists; (split; [done|]); cbn;
        setoid_rewrite in_pages_cons.
      + split_and!; try lia.
        * intros p. rewrite in_pages_cons. intuition lia.
        * eapply sep_weaken; [|exact Hs]. lia.
      + split_and!; try lia; try done. intros p. intuition lia. }
  destruct (Z.ltb_spec (b + r) fb) as [Hlt|Hge].
  { eexists. split; [done|]. cbn. setoid_rewrite in_pages_cons. split_and!; try lia; try done.
    intros p. rewrite in_pages_cons. intuition lia. }
  destruct (IH (fb + fr + 1)) as (l' & -> & Hp & Hs'); [lia|done|auto|].
  eexists. split; [done|]. cbn. setoid_rewrite in_pages_cons. split_and!; try done.
  intros p. rewrite Hp. tauto.
Qed.

(** A refusal means an overlap. *)
Lemma ins_refused l b r : 0 < r → ins l b r = None → Forall (λ x, 0 < x.2) l →
  ∃ p, b <= p < b + r ∧ in_pages l p.
Proof.
  intros Hr. induction l as [|[fb fr] l IH]; cbn; [done|]. intros E Hpos.
  apply Forall_cons in Hpos as [Hfr Hpos]. cbn in Hfr. setoid_rewrite in_pages_cons.
  destruct (if fb <? b then b <? fb + fr else fb <? b + r) eqn:Ho.
  - destruct (Z.ltb_spec fb b); [exists b|exists fb]; lia.
  - revert E. destruct (b + r =? fb); [done|]. destruct (fb + fr =? b).
    { destruct l as [|[nb nr] l]; [done|]. by destruct (nb =? b + r). }
    destruct (b + r <? fb); [done|]. destruct (ins l b r); [done|]. intros _.
    destruct (IH eq_refl Hpos) as (p & Hp & Hin). exists p. auto.
Qed.

Lemma take_fit_spec lo l n : 0 < n → sep lo l →
  match take_fit l n with
  | Some (p, l') => (∀ q, p <= q < p + n → in_pages l q) ∧
      (∀ q, in_pages l' q ↔ in_pages l q ∧ ¬ p <= q < p + n) ∧ sep lo l'
  | None => Forall (λ x, x.2 < n) l
  end.
Proof.
  intros Hn. revert lo. induction l as [|[b r] l IH]; intros lo Hs; cbn; [done|].
  destruct Hs as (Hlo & Hr & Hs).
  assert (∀ q, in_pages l q → b + r + 1 <= q) as Hl by (intros; by eapply sep_low).
  destruct (Z.leb_spec n r).
  - setoid_rewrite in_pages_cons. destruct (Z.eqb_spec r n) as [-> |Hne].
    + split_and!; [intros; lia| |eapply sep_weaken; [|exact Hs]; lia].
      intros q. split; [|intuition lia]. intros Hq. specialize (Hl q Hq). split; [by right|lia].
    + split_and!; [intros; lia| |].
      * intros q. rewrite in_pages_cons. split; [|intuition lia].
        intros [?|Hq]; [split; [left|]; lia|]. specialize (Hl q Hq). split; [by right|lia].
      * cbn. split_and!; try lia. by replace (b + n + (r - n) + 1) with (b + r + 1) by lia.
  - specialize (IH _ Hs). destruct (take_fit l n) as [[p l']|]; cbn.
    + destruct IH as (H1 & H2 & H3). setoid_rewrite in_pages_cons. split_and!; auto.
      intros q. rewrite H2. split; [|tauto]. intros [Hq|Hq]; [|tauto]. split; [by left|].
      intros Hp. assert (in_pages l p) as Hin by (apply H1; lia). specialize (Hl p Hin). lia.
    + constructor; [done|]. exact IH.
Qed.

(** A run of free pages lies in one range. *)
Lemma run_in_range lo l p n : 0 < n → sep lo l → (∀ q, p <= q < p + n → in_pages l q) →
  ∃ x, x ∈ l ∧ n <= x.2.
Proof.
  intros Hn. revert lo. induction l as [|[b r] l IH]; intros lo Hs Hq.
  { exfalso. apply (in_pages_nil p), Hq. lia. }
  destruct Hs as (Hlo & Hr & Hs). setoid_rewrite in_pages_cons in Hq.
  destruct (Z_lt_ge_dec p (b + r)) as [Hp|Hp].
  - exists (b, r). split; [left|]. cbn.
    destruct (Hq p ltac:(lia)) as [?|Hin]; [|apply (sep_low _ _ _ Hs) in Hin; lia].
    destruct (Z_le_gt_dec (p + n) (b + r)); [lia|]. exfalso.
    destruct (Hq (b + r) ltac:(lia)) as [?|Hin]; [lia|]. apply (sep_low _ _ _ Hs) in Hin. lia.
  - destruct (IH _ Hs) as (x & Hx & ?).
    + intros q Hq'. destruct (Hq q Hq'); [lia|done].
    + exists x. split; [by right|done].
Qed.

(** ** Linked lists in the pool *)

Notation idx l := (l.*1).
Notation vals l := (l.*2).

Definition ranges_ok (hi : Z) (l : list (Z * Z)) : Prop := sep 0 l ∧ ∀ p, in_pages l p → p < hi.

Lemma sep_pos lo l b r : sep lo l → (b, r) ∈ l → lo <= b ∧ 0 < r.
Proof.
  revert lo. induction l as [|[b0 r0] l IH]; intros lo Hs Hin; [by apply elem_of_nil in Hin|].
  destruct Hs as (? & ? & Hs). apply elem_of_cons in Hin as [[= -> ->]|Hin]; [done|].
  specialize (IH _ Hs Hin). lia.
Qed.

Lemma ranges_bound hi l b r : ranges_ok hi l → (b, r) ∈ l → 0 <= b ∧ 0 < r ∧ b + r <= hi.
Proof.
  intros [Hs Hhi] Hin. destruct (sep_pos _ _ _ _ Hs Hin) as [Hb Hr]. split_and!; auto.
  enough (b + r - 1 < hi) by lia. apply Hhi. exists b, r. split; [done|]. lia.
Qed.

Section Refine.
Context {A : Type} `{PL : NodePool A}.

Fixpoint chain (a : A) (i : Z) (l : list (Z * (Z * Z))) : Prop :=
  match l with
  | [] => i = invalid_va_node_index
  | (j, (b, r)) :: l => i = j ∧ ∃ nx, get a j = Some (Node nx b r) ∧ chain a nx l
  end.

Lemma chain_ext a a' i l : (∀ j, j ∈ idx l → get a' j = get a j) → chain a i l → chain a' i l.
Proof.
  revert i. induction l as [|[j [b r]] l IH]; intros i Hext; cbn; [done|].
  intros (-> & nx & Hg & Hc). split; [done|]. exists nx. rewrite Hext by left. split; [done|].
  apply IH; [|done]. intros k Hk. apply Hext. by right.
Qed.

(** Redirecting the [next] of one node of a chain. *)
Lemma chain_splice a a' i l1 pv b r l2 l3 ptr :
  chain a i (l1 ++ (pv, (b, r)) :: l2) → (∀ j, j ∈ idx l1 → get a' j = get a j) →
  get a' pv = Some (Node ptr b r) → chain a' ptr l3 → chain a' i (l1 ++ (pv, (b, r)) :: l3).
Proof.
  revert i. induction l1 as [|[j [b0 r0]] l1 IH]; intros i; cbn.
  - intros (-> & _) _ Hg Hc. split; [done|]. eauto.
  - intros (-> & nx & Hg & Hc) Hext Hpv Hl3. split; [done|]. exists nx.
    rewrite Hext by left. split; [done|]. eapply IH; eauto. intros k Hk. apply Hext. by right.
Qed.

Lemma chain_app a i l1 l2 : chain a i (l1 ++ l2) →
  ∃ k, chain a k l2 ∧ (l1 = [] → k = i).
Proof.
  revert i. induction l1 as [|[j [b r]] l1 IH]; intros i; cbn; [eauto|].
  intros (-> & nx & _ & Hc). destruct (IH _ Hc) as (k & Hk & _). exists k. split; [done|done].
Qed.

(** The nodes of a chain are handed out. *)
Definition owned (L : gset Z) (l : list (Z * (Z * Z))) : Prop :=
  NoDup (idx l) ∧ ∀ j, j ∈ idx l → j ∈ L.

Lemma owned_cons L j x l : owned L ((j, x) :: l) → j ∈ L ∧ j ∉ idx l ∧ owned L l.
Proof.
  intros [Hnd Hin]. cbn in *. apply NoDup_cons in Hnd as [Hj Hnd]. split_and!; auto.
  - apply Hin. left.
  - split; [done|]. intros k Hk. apply Hin. by right.
Qed.

Lemma chain_head a L i j x l : pool a L → owned L ((j, x) :: l) → chain a i ((j, x) :: l) →
  i = j ∧ va_node_is_valid i = true.
Proof.
  intros HP Ho Hc. destruct x as [b r]. destruct Hc as (-> & _). split; [done|].
  apply owned_cons in Ho as (Hj & _). by eapply pool_get.
Qed.

Lemma invalid_not_valid : va_node_is_valid invalid_va_node_index = false.
Proof. by vm_compute. Qed.

Lemma chain_valid a L i l : pool a L → owned L l → chain a i l →
  va_node_is_valid i = match l with [] => false | _ => true end.
Proof.
  intros HP Ho Hc. destruct l as [|[j x] l]; [cbn in Hc; by rewrite Hc, invalid_not_valid|].
  by destruct (chain_head _ _ _ _ _ _ HP Ho Hc) as [_ ?].
Qed.

(** What changing a chain leaves alone: the nodes of other chains. *)
Definition frame (a a' : A) (L L' : gset Z) (l l' : list (Z * (Z * Z))) : Prop :=
  ∀ j, j ∈ L → j ∉ idx l → j ∈ L' ∧ get a' j = get a j ∧ j ∉ idx l'.

Definition ins_post (a : A) (L : gset Z) (i : Z) (l : list (Z * (Z * Z))) (b r p : Z)
    (res : ins_result) : Prop :=
  match res with
  | InsDone rc a' =>
      (rc = -1 ∧ a' = a ∧ ins (vals l) b r = None) ∨
      (rc = 0 ∧ ∃ l' L', chain a' i l' ∧ ins (vals l) b r = Some (vals l') ∧ pool a' L' ∧
         owned L' l' ∧ (∀ j, j ∈ idx l' → j ∈ idx l) ∧ frame a a' L L' l l')
  | InsAt fp pv =>
      ∃ l1 l2, l = l1 ++ l2 ∧ chain a fp l2 ∧
        pv = match last (idx l1) with Some x => x | None => p end ∧
        ins (vals l) b r = Some (vals l1 ++ (b, r) :: vals l2)
  end.

(** Coalescing with the node found, which keeps its place. *)
Lemma ins_grow a L j b0 r0 nx l b' r' :
  pool a L → owned L ((j, (b0, r0)) :: l) → get a j = Some (Node nx b0 r0) → chain a nx l →
  let a' := put a j (Node nx b' r') in
  chain a' j ((j, (b', r')) :: l) ∧ pool a' L ∧ owned L ((j, (b', r')) :: l) ∧
  frame a a' L L ((j, (b0, r0)) :: l) ((j, (b', r')) :: l).
Proof.
  intros HP Ho Hg Hc a'. destruct (owned_cons _ _ _ _ Ho) as (Hj & Hjl & Hl).
  destruct (pool_put a L j (Node nx b' r') HP Hj) as (HP' & Hg' & Hne).
  assert (chain a' nx l) as Hc'.
  { eapply chain_ext; [|exact Hc]. intros k Hk. apply Hne; [by intros ->|]. by apply Hl. }
  split; [split; [done|]; eauto|]. split; [done|]. split; [done|].
  intros k Hk Hkl. cbn in Hkl. split; [done|]. split; [|done]. apply Hne; [|done].
  intros ->. apply Hkl. left.
Qed.

(** Coalescing with the node found and the next one, which is freed. *)
Lemma ins_merge a L j b0 r0 nx k bn rn nn l r' :
  pool a L → owned L ((j, (b0, r0)) :: (k, (bn, rn)) :: l) → get a j = Some (Node nx b0 r0) →
  nx = k → get a k = Some (Node nn bn rn) → chain a nn l →
  ∀ n1, let a1 := put a j n1 in
  let a' := free (put a1 j (Node nn b0 r')) k in
  chain a' j ((j, (b0, r')) :: l) ∧ pool a' (L ∖ {[k]}) ∧ owned (L ∖ {[k]}) ((j, (b0, r')) :: l) ∧
  frame a a' L (L ∖ {[k]}) ((j, (b0, r0)) :: (k, (bn, rn)) :: l) ((j, (b0, r')) :: l).
Proof.
  intros HP Ho Hg -> Hk Hc n1 a1 a'.
  destruct (owned_cons _ _ _ _ Ho) as (Hj & Hjl & Ho2). destruct (owned_cons _ _ _ _ Ho2) as (HkL & Hkl & Hl).
  cbn in Hjl. apply not_elem_of_cons in Hjl as [Hjk Hjl].
  destruct (pool_put a L j n1 HP Hj) as (HP1 & _ & Hne1).
  destruct (pool_put a1 L j (Node nn b0 r') HP1 Hj) as (HP2 & Hg2 & Hne2).
  destruct (pool_free _ L k HP2 HkL) as (HP3 & Hne3).
  assert (∀ x, x ∈ L → x ≠ j → x ≠ k → get a' x = get a x) as Hsame.
  { intros x Hx Hxj Hxk. unfold a'. rewrite Hne3, Hne2, Hne1 by done. done. }
  assert (get a' j = Some (Node nn b0 r')) as Hgj by (unfold a'; rewrite Hne3; done).
  split; [|split; [done|split]].
  - split; [done|]. exists nn. split; [done|]. eapply chain_ext; [|exact Hc].
    intros x Hx. apply Hsame; [by apply Hl|by intros ->|by intros ->].
  - split; [cbn; constructor; [done|apply Hl]|]. intros x Hx. cbn in Hx.
    rewrite elem_of_difference, elem_of_singleton.
    apply elem_of_cons in Hx as [-> |Hx]; [done|]. split; [by apply Hl|]. by intros ->.
  - intros x Hx Hxl. cbn in Hxl. rewrite !not_elem_of_cons in Hxl. destruct Hxl as (? & ? & ?).
    rewrite elem_of_difference, elem_of_singleton. split; [done|]. split; [by apply Hsame|].
    cbn. by rewrite not_elem_of_cons.
Qed.

Definition small (x : Z * Z) : Prop := 0 <= x.1 ∧ 0 <= x.2 ∧ x.1 + x.2 <= 2 ^ 62.

Lemma u64_small z : 0 <= z < 2 ^ 64 → u64 z = z.
Proof. intros. by apply wrap_small. Qed.

Lemma ins_post_cons a L i j b0 r0 l b r p res :
  pool a L → owned L ((j, (b0, r0)) :: l) → chain a j ((j, (b0, r0)) :: l) →
  (∀ lv, ins (vals l) b r = Some lv → ins ((b0, r0) :: vals l) b r = Some ((b0, r0) :: lv)) →
  (ins (vals l) b r = None → ins ((b0, r0) :: vals l) b r = None) →
  (∀ nx, get a j = Some (Node nx b0 r0) → i = nx) →
  ins_post a L i l b r j res → ins_post a L j ((j, (b0, r0)) :: l) b r p res.
Proof.
  intros HP Ho Hc HS HN Hi. destruct (owned_cons _ _ _ _ Ho) as (Hj & Hjl & Hl).
  destruct Hc as (_ & nx & Hg & Hc). specialize (Hi nx Hg). subst i. destruct res as [rc a'|fp pv].
  - intros [(-> & -> & E)|(-> & l' & L' & Hc' & E & HP' & Ho' & Hsub & Hfr)].
    + left. auto.
    + right. split; [done|]. exists ((j, (b0, r0)) :: l'), L'.
      destruct (Hfr j Hj Hjl) as (HjL' & Hgj & Hjl').
      split; [split; [done|]; exists nx; by rewrite Hgj|]. split; [by apply HS|]. split; [done|].
      split; [split; [cbn; constructor; [done|apply Ho']|]|split].
      * intros x Hx. cbn in Hx. apply elem_of_cons in Hx as [-> |Hx]; [done|]. by apply Ho'.
      * intros x Hx. cbn in *. apply elem_of_cons in Hx as [-> |Hx]; [left|right; auto].
      * intros x Hx Hxl. cbn in *. apply not_elem_of_cons in Hxl as [Hxj Hxl].
        destruct (Hfr x Hx Hxl) as (? & ? & ?). rewrite not_elem_of_cons. auto.
  - intros (l1 & l2 & -> & Hc2 & -> & E). exists ((j, (b0, r0)) :: l1), l2.
    split; [done|]. split; [done|]. split; [|by apply HS].
    cbn. rewrite last_cons. by destruct (last (idx l1)).
Qed.

(** The case of a range that starts where the node found ends. *)
Lemma ins_after a L j fb fr nx l r : pool a L → owned L ((j, (fb, fr)) :: l) →
  get a j = Some (Node nx fb fr) → chain a nx l → small (fb, fr) → Forall small (vals l) →
  0 < r → fb + fr + r <= 2 ^ 62 →
  ∃ a', (let a := put a j (Node nx fb (fr + r)) in
    if va_node_is_valid nx then
      match get a nx with
      | None => None
      | Some nn =>
          if base nn =? fb + fr + r
          then Some (InsDone 0 (free (put a j (Node (next nn) fb (u64 (fr + r + range nn)))) nx))
          else Some (InsDone 0 a)
      end
    else Some (InsDone 0 a)) = Some (InsDone 0 a') ∧
  ∃ l' L', chain a' j l' ∧
    (match vals l with
     | (nb, nr) :: lv => if nb =? fb + fr + r then (fb, fr + r + nr) :: lv else (fb, fr + r) :: vals l
     | [] => [(fb, fr + r)]
     end) = vals l' ∧
    pool a' L' ∧ owned L' l' ∧ (∀ x, x ∈ idx l' → x ∈ idx ((j, (fb, fr)) :: l)) ∧
    frame a a' L L' ((j, (fb, fr)) :: l) l'.
Proof.
  intros HP Ho Hg Hc (Hfb & Hfr & Hfe) Hs Hr Hbr. cbn [fst snd] in *.
  destruct (ins_grow a L j fb fr nx l fb (fr + r) HP Ho Hg Hc) as (H1 & H2 & H3 & H4).
  destruct (owned_cons _ _ _ _ Ho) as (Hj & Hjl & Hl). cbn zeta.
  rewrite (chain_valid a L nx l HP Hl Hc). destruct l as [|[k [nb nr]] l].
  { eexists. split; [done|]. exists [(j, (fb, fr + r))], L. by split_and!. }
  destruct Hc as (Hnk & nn & Hgk & Hcl). subst nx.
  assert (k ≠ j) as Hkj by (intros ->; apply Hjl; left).
  assert (k ∈ L) as HkL by (apply Hl; left).
  destruct (pool_put a L j (Node k fb (fr + r)) HP Hj) as (_ & _ & Hne).
  rewrite Hne, Hgk by done. cbn [next base range].
  apply Forall_cons in Hs as [(Hnb & Hnr & Hne') Hs]. cbn [fst snd] in *.
  rewrite (u64_small (fr + r + nr)) by lia. cbn.
  destruct (Z.eqb_spec nb (fb + fr + r)) as [E4|E4]; (eexists; split; [done|]).
  - destruct (ins_merge a L j fb fr k k nb nr nn l (fr + r + nr) HP Ho Hg eq_refl Hgk Hcl
      (Node k fb (fr + r))) as (M1 & M2 & M3 & M4).
    exists ((j, (fb, fr + r + nr)) :: l), (L ∖ {[k]}). split_and!; auto.
    intros x Hx. cbn in *. apply elem_of_cons in Hx as [-> |Hx]; [left|right; by right].
  - exists ((j, (fb, fr + r)) :: (k, (nb, nr)) :: l), L. by split_and!.
Qed.

Lemma ins_loop_spec a L b r : pool a L → 0 <= b → 0 < r → b + r <= 2 ^ 62 →
  ∀ l i p fuel, chain a i l → owned L l → Forall small (vals l) → (length l < fuel)%nat →
  ∃ res, ins_loop fuel a i p b r = Some res ∧ ins_post a L i l b r p res.
Proof.
  intros HP Hb Hr Hbr. induction l as [|[j [fb fr]] l IH]; intros i p fuel Hc Ho Hs Hf.
  { destruct fuel as [|fuel]; [cbn in Hf; lia|]. cbn [ins_loop].
    rewrite (chain_valid a L i [] HP Ho Hc). cbn. eexists. split; [done|].
    by exists [], []. }
  destruct fuel as [|fuel]; [cbn in Hf; lia|]. cbn [ins_loop].
  rewrite (chain_valid a L i _ HP Ho Hc). cbn [negb].
  pose proof Hc as (-> & nx & Hg & Hc'). rewrite Hg. cbn [next base range].
  cbn in Hs. apply Forall_cons in Hs as [(Hfb & Hfr & Hfe) Hs]. cbn [fst snd] in *.
  rewrite (u64_small (b + r)), (u64_small (fb + fr)), (u64_small (fr + r)) by lia.
  destruct (if fb <? b then b <? fb + fr else fb <? b + r) eqn:E1.
  { eexists. split; [done|]. left. split; [done|]. split; [done|]. cbn. by rewrite E1. }
  destruct (Z.eqb_spec (b + r) fb) as [E2|E2].
  { eexists. split; [done|]. right. split; [done|].
    destruct (ins_grow a L j fb fr nx l b (fr + r) HP Ho Hg Hc') as (H1 & H2 & H3 & H4).
    exists ((j, (b, fr + r)) :: l), L. split_and!; auto. cbn. rewrite E1, E2, Z.eqb_refl. done. }
  destruct (Z.eqb_spec (fb + fr) b) as [E3|E3].
  - subst b. destruct (ins_after a L j fb fr nx l r HP Ho Hg Hc') as (a' & Ha' & l' & L' & H1 & H2 & H3);
      auto; [by split_and!|].
    cbn zeta in Ha'. rewrite Ha'. eexists. split; [done|]. right. split; [done|].
    exists l', L'. rewrite <- H2. split_and!; try tauto. cbn. rewrite E1.
    destruct (Z.eqb_spec (fb + fr + r) fb); [lia|]. rewrite Z.eqb_refl.
    destruct (vals l) as [|[nb nr] lv]; [done|]. by destruct (nb =? fb + fr + r).
  - destruct (Z.ltb_spec (b + r) fb) as [E4|E4].
    + eexists. split; [done|]. exists [], ((j, (fb, fr)) :: l). split_and!; auto. cbn. rewrite E1.
      destruct (Z.eqb_spec (b + r) fb); [done|]. destruct (Z.eqb_spec (fb + fr) b); [done|].
      by destruct (Z.ltb_spec (b + r) fb); [|lia].
    + destruct (owned_cons _ _ _ _ Ho) as (_ & _ & Hl).
      destruct (IH nx j fuel Hc' Hl Hs ltac:(cbn in Hf; lia)) as (res & Hres & Hpost).
      exists res. split; [done|].
      assert (ins ((fb, fr) :: vals l) b r = option_map (cons (fb, fr)) (ins (vals l) b r)) as Hi.
      { cbn. rewrite E1. destruct (Z.eqb_spec (b + r) fb); [done|].
        destruct (Z.eqb_spec (fb + fr) b); [done|]. by destruct (Z.ltb_spec (b + r) fb); [lia|]. }
      eapply ins_post_cons; eauto; [| |intros nx' Hnx; congruence].
      * intros lv Hlv. by rewrite Hi, Hlv.
      * intros Hlv. by rewrite Hi, Hlv.
Qed.

(** Two names for the head of one chain. *)
Lemma chain_inj a i k l : chain a i l → chain a k l → i = k.
Proof. destruct l as [|[j [b r]] l]; cbn; [congruence|]. intros (-> & _) (-> & _). done. Qed.

Lemma chain_last a i l1 pv b r l2 : chain a i (l1 ++ (pv, (b, r)) :: l2) →
  ∃ nx, get a pv = Some (Node nx b r).
Proof.
  revert i. induction l1 as [|[j [b0 r0]] l1 IH]; intros i; cbn.
  - intros (-> & nx & Hg & _). eauto.
  - intros (-> & nx & _ & Hc). eauto.
Qed.

Lemma owned_app L l1 l2 : owned L (l1 ++ l2) →
  owned L l1 ∧ owned L l2 ∧ ∀ x, x ∈ idx l1 → x ∉ idx l2.
Proof.
  intros [Hnd Hin]. rewrite fmap_app in *. apply NoDup_app in Hnd as (Hn1 & Hn2 & Hn3).
  split_and!; [split; [done|]|split; [done|]|done]; intros x Hx; apply Hin, elem_of_app; auto.
Qed.

(** A fresh node in front of the second part of a chain. *)
Lemma fresh_node a L i l1 l2 fp b r ptr a1 : pool a L → room a → chain a i (l1 ++ l2) →
  owned L (l1 ++ l2) → chain a fp l2 → alloc true true a = (Some ptr, a1) →
  let a2 := put a1 ptr (Node fp b r) in
  va_node_is_valid ptr = true ∧ ptr ∉ L ∧ pool a2 ({[ptr]} ∪ L) ∧
  (∀ j, j ∈ L → get a2 j = get a j) ∧ chain a2 ptr ((ptr, (b, r)) :: l2) ∧
  owned ({[ptr]} ∪ L) (l1 ++ (ptr, (b, r)) :: l2).
Proof.
  intros HP Hroom Hc Ho Hc2 Ea a2.
  destruct (pool_alloc true true a L (Some ptr) a1 HP Hroom Ea) as [Hg1 [Hfresh HP1]].
  destruct (pool_get a1 _ ptr HP1 ltac:(set_solver)) as [_ Hv].
  destruct (pool_put a1 _ ptr (Node fp b r) HP1 ltac:(set_solver)) as (HP2 & Hg2 & Hne2).
  destruct (owned_app _ _ _ Ho) as ([Hn1 Hi1] & [Hn2 Hi2] & Hd).
  assert (∀ j, j ∈ L → get a2 j = get a j) as Hold.
  { intros j Hj. unfold a2. rewrite Hne2, Hg1 by set_solver. done. }
  split_and!; auto.
  - split; [done|]. exists fp. split; [done|]. eapply chain_ext; [|exact Hc2]. auto.
  - split.
    + rewrite fmap_app. apply NoDup_app. cbn. split_and!; auto.
      * intros x Hx. rewrite not_elem_of_cons. split; [|by apply Hd]. intros ->. by apply Hfresh, Hi1.
      * constructor; [|done]. intros Hx. by apply Hfresh, Hi2.
    + intros x. rewrite fmap_app, elem_of_app. cbn. rewrite elem_of_cons.
      intros [Hx|[-> |Hx]]; [apply Hi1 in Hx|..|apply Hi2 in Hx]; set_solver.
Qed.

(** Linking it after the last node of the first part. *)
Lemma link_after a a2 L i l1 pv pb pr l2 ptr b r :
  chain a i (l1 ++ (pv, (pb, pr)) :: l2) → pool a2 ({[ptr]} ∪ L) → ptr ∉ L →
  (∀ j, j ∈ L → get a2 j = get a j) → chain a2 ptr ((ptr, (b, r)) :: l2) →
  owned L (l1 ++ (pv, (pb, pr)) :: l2) →
  ∃ a3, set_next a2 pv ptr = Some a3 ∧ pool a3 ({[ptr]} ∪ L) ∧
    chain a3 i (l1 ++ (pv, (pb, pr)) :: (ptr, (b, r)) :: l2) ∧
    (∀ j, j ∈ L → j ≠ pv → get a3 j = get a j).
Proof.
  intros Hc HP Hfresh Hold Hc2 Ho. destruct (chain_last _ _ _ _ _ _ _ Hc) as (nx & Hg).
  destruct (owned_app _ _ _ Ho) as ([Hn1 Hi1] & Ho2 & Hd). destruct (owned_cons _ _ _ _ Ho2) as (HpvL & Hpv & [Hn2 Hi2]).
  unfold set_next. rewrite Hold, Hg by done. cbn. eexists. split; [done|].
  destruct (pool_put a2 _ pv (Node ptr pb pr) HP ltac:(set_solver)) as (HP3 & Hg3 & Hne3).
  assert (∀ j, j ∈ {[ptr]} ∪ L → j ≠ pv → get (put a2 pv (Node ptr pb pr)) j = get a2 j) as Hk by auto.
  split_and!; auto.
  - eapply (chain_splice a); [exact Hc| |done|].
    + intros j Hj. rewrite Hk, Hold; auto; [set_solver|]. intros ->. apply (Hd pv Hj). left.
    + eapply chain_ext; [|exact Hc2]. intros j Hj. cbn in Hj. apply elem_of_cons in Hj as [-> |Hj].
      * apply Hk; [set_solver|]. by intros ->.
      * apply Hk; [set_solver|]. by intros ->.
  - intros j Hj Hne. rewrite Hk, Hold; auto. set_solver.
Qed.

Lemma insert_spec a L i l b r fuel : pool a L → room a → chain a i l → owned L l →
  Forall small (vals l) → 0 <= b → 0 < r → b + r <= 2 ^ 62 → (length l < fuel)%nat →
  match ins (vals l) b r with
  | None => va_gen_insert_and_coalesce fuel true true a i b r = Some (-1, a, i)
  | Some lv => ∃ a' i' l' L',
      va_gen_insert_and_coalesce fuel true true a i b r = Some (0, a', i') ∧
      chain a' i' l' ∧ vals l' = lv ∧ pool a' L' ∧ owned L' l' ∧ frame a a' L L' l l'
  end.
Proof.
  intros HP Hroom Hc Ho Hs Hb Hr Hbr Hf. unfold va_gen_insert_and_coalesce.
  destruct (ins_loop_spec a L b r HP Hb Hr Hbr l i i fuel Hc Ho Hs Hf) as (res & -> & Hpost).
  destruct res as [rc a'|fp pv].
  { destruct Hpost as [(-> & -> & ->)|(-> & l' & L' & Hc' & -> & HP' & Ho' & _ & Hfr)]; [done|].
    exists a', i, l', L'. by split_and!. }
  destruct Hpost as (l1 & l2 & -> & Hc2 & -> & ->).
  destruct (alloc true true a) as [ptr a1] eqn:Ea.
  destruct (pool_alloc_memory a L HP Hroom) as [ptr' Hm]. rewrite Ea in Hm. cbn in Hm. subst ptr.
  destruct (fresh_node a L i l1 l2 fp b r ptr' a1 HP Hroom Hc Ho Hc2 Ea)
    as (Hv & Hfresh & HP2 & Hold & Hc3 & Ho3).
  rewrite Hv. cbn [negb].
  assert (∀ a', pool a' ({[ptr']} ∪ L) → (∀ j, j ∈ L → j ∉ idx (l1 ++ l2) → get a' j = get a j) →
    frame a a' L ({[ptr']} ∪ L) (l1 ++ l2) (l1 ++ (ptr', (b, r)) :: l2)) as Hfr.
  { intros a' _ Ha' j Hj Hjl. split; [set_solver|]. split; [by apply Ha'|]. revert Hjl.
    rewrite !fmap_app, !elem_of_app. cbn. rewrite elem_of_cons. set_solver. }
  destruct l1 as [|[pv [pb pr]] l1 _] using rev_ind.
  - cbn in Hc. pose proof (chain_inj _ _ _ _ Hc2 Hc) as ->. rewrite Z.eqb_refl.
    eexists _, ptr', ((ptr', (b, r)) :: l2), _. split_and!; [done|done|done|done|done|].
    apply Hfr; auto.
  - assert (last (idx (l1 ++ [(pv, (pb, pr))])) = Some pv) as ->
      by (rewrite fmap_app; apply last_snoc).
    rewrite <- app_assoc in Hc, Ho. cbn [app] in Hc, Ho.
    destruct (owned_app _ _ _ Ho) as (Ho1 & Ho2 & Hd). destruct (owned_cons _ _ _ _ Ho2) as (HpvL & Hpv & Ho4).
    assert (fp =? i = false) as ->.
    { apply Z.eqb_neq. intros ->. destruct l1 as [|[j [jb jr]] l1].
      - destruct Hc as [-> _]. destruct l2 as [|[k [kb kr]] l2]; cbn in Hc2.
        + pose proof (pool_get a L pv HP HpvL) as [_ Hvv]. by rewrite Hc2, invalid_not_valid in Hvv.
        + destruct Hc2 as [-> _]. apply Hpv. left.
      - destruct Hc as [-> _]. destruct l2 as [|[k [kb kr]] l2]; cbn in Hc2.
        + pose proof (pool_get a L j HP (proj2 Ho1 j ltac:(left))) as [_ Hvv].
          by rewrite Hc2, invalid_not_valid in Hvv.
        + destruct Hc2 as [-> _]. apply (Hd k); [left|right; left]. }
    pose proof (pool_get a L pv HP HpvL) as [_ Hvv]. rewrite Hvv. cbn [negb].
    destruct (link_after a _ L i l1 pv pb pr l2 ptr' b r Hc HP2 Hfresh Hold Hc3 Ho)
      as (a3 & -> & HP3 & Hc4 & Hold3). cbn.
    eexists a3, i, ((l1 ++ [(pv, (pb, pr))]) ++ (ptr', (b, r)) :: l2), _.
    split_and!; [done|by rewrite <- app_assoc|by rewrite fmap_app|done|done|].
    apply Hfr; [done|]. intros j Hj Hjl. apply Hold3; [done|]. intros ->. apply Hjl.
    rewrite !fmap_app, !elem_of_app. left; right. left.
Qed.

(** Redirecting the last node of the first part past the head of the second. *)
Lemma unlink_after a L i l1 pv pb pr j x nx l2 :
  pool a L → owned L (l1 ++ (pv, (pb, pr)) :: (j, x) :: l2) →
  chain a i (l1 ++ (pv, (pb, pr)) :: (j, x) :: l2) → chain a nx l2 →
  ∃ a1, set_next a pv nx = Some a1 ∧ pool a1 L ∧ chain a1 i (l1 ++ (pv, (pb, pr)) :: l2) ∧
    ∀ k, k ∈ L → k ≠ pv → get a1 k = get a k.
Proof.
  intros HP Ho Hc Hc2. destruct (chain_last _ _ _ _ _ _ _ Hc) as (nx0 & Hg).
  destruct (owned_app _ _ _ Ho) as ([Hn1 Hi1] & Ho2 & Hd).
  destruct (owned_cons _ _ _ _ Ho2) as (HpvL & Hpv & Ho3).
  destruct (owned_cons _ _ _ _ Ho3) as (_ & _ & [_ Hi2]).
  cbn in Hpv. apply not_elem_of_cons in Hpv as [_ Hpv].
  destruct (pool_put a L pv (Node nx pb pr) HP HpvL) as (HP1 & Hg1 & Hne1).
  unfold set_next. rewrite Hg. cbn. eexists. split; [done|]. split; [done|]. split; [|auto].
  eapply (chain_splice a); [exact Hc| |done|].
  - intros k Hk. apply Hne1; [|by apply Hi1]. intros ->. apply (Hd pv Hk). left.
  - eapply chain_ext; [|exact Hc2]. intros k Hk. apply Hne1; [by intros ->|by apply Hi2].
Qed.

(** Dropping a node from the books. *)
Lemma owned_drop L l1 j x l2 : owned L (l1 ++ (j, x) :: l2) →
  j ∈ L ∧ j ∉ idx (l1 ++ l2) ∧ owned (L ∖ {[j]}) (l1 ++ l2).
Proof.
  intros Ho. destruct (owned_app _ _ _ Ho) as ([Hn1 Hi1] & Ho2 & Hd).
  destruct (owned_cons _ _ _ _ Ho2) as (Hj & Hj2 & [Hn2 Hi2]).
  assert (j ∉ idx l1) as Hj1 by (intros Hx; apply (Hd j Hx); left).
  split; [done|]. unfold owned. rewrite fmap_app, elem_of_app. split; [tauto|]. split.
  - apply NoDup_app. split_and!; auto. intros k Hk Hk2. apply (Hd k Hk). by right.
  - intros k. rewrite elem_of_app, elem_of_difference, elem_of_singleton.
    intros [Hk|Hk]; (split; [auto|]); by intros ->.
Qed.

Lemma frame_drop a a' L l1 j x l2 :
  (∀ k, k ∈ L → k ∉ idx (l1 ++ (j, x) :: l2) → get a' k = get a k) →
  frame a a' L (L ∖ {[j]}) (l1 ++ (j, x) :: l2) (l1 ++ l2).
Proof.
  intros Hsame k Hk Hkl. specialize (Hsame k Hk Hkl). revert Hkl.
  rewrite !fmap_app, !elem_of_app. cbn. rewrite elem_of_cons, elem_of_difference, elem_of_singleton.
  intros Hkl. split_and!; tauto.
Qed.

Lemma find_hole_spec a L n : pool a L → ∀ l i prev fuel, chain a i l → owned L l → l ≠ [] →
  (length l <= fuel)%nat →
  match take_fit (vals l) n with
  | None => find_hole fuel a i prev n = Some None
  | Some (p, lv) => ∃ l1 j r nx l2, l = l1 ++ (j, (p, r)) :: l2 ∧ chain a nx l2 ∧ n <= r ∧
      get a j = Some (Node nx p r) ∧
      find_hole fuel a i prev n =
        Some (Some (j, match last (idx l1) with Some x => Some x | None => prev end, Node nx p r)) ∧
      lv = vals l1 ++ (if r =? n then vals l2 else (p + n, r - n) :: vals l2)
  end.
Proof.
  intros HP. induction l as [|[j [b r]] l IH]; intros i prev fuel Hc Ho Hne Hf; [done|].
  destruct fuel as [|fuel]; [cbn in Hf; lia|]. cbn [find_hole].
  destruct Hc as (-> & nx & Hg & Hc). rewrite Hg. cbn [next range].
  destruct (owned_cons _ _ _ _ Ho) as (_ & _ & Hl). cbn [fmap list_fmap take_fit].
  cbn. destruct (Z.leb_spec n r) as [Hle|Hgt].
  { exists [], j, r, nx, l. by split_and!. }
  rewrite (chain_valid a L nx l HP Hl Hc). destruct l as [|x l]; [done|]. cbn [negb].
  specialize (IH nx (Some j) fuel Hc Hl ltac:(done) ltac:(cbn in *; lia)).
  destruct (take_fit _ n) as [[p lv]|]; [|done].
  destruct IH as (l1 & k & r1 & nx1 & l2 & -> & H1 & H2 & H3 & -> & ->).
  exists ((j, (b, r)) :: l1), k, r1, nx1, l2. split_and!; auto.
  cbn. rewrite last_cons. by destruct (last (idx l1)).
Qed.

(** Unlinking and freeing the hole found, as [va_gen_alloc_internal] does. *)
Lemma unlink_spec a L i l1 j x nx l2 : pool a L → owned L (l1 ++ (j, x) :: l2) →
  chain a i (l1 ++ (j, x) :: l2) → chain a nx l2 →
  ∃ a1 i', (if i =? j then Some (a, nx)
            else match match last (idx l1) with Some x => Some x | None => None end with
                 | None => None
                 | Some p => option_map (λ a, (a, i)) (set_next a p nx)
                 end) = Some (a1, i') ∧
    chain (free a1 j) i' (l1 ++ l2) ∧ pool (free a1 j) (L ∖ {[j]}) ∧
    owned (L ∖ {[j]}) (l1 ++ l2) ∧
    frame a (free a1 j) L (L ∖ {[j]}) (l1 ++ (j, x) :: l2) (l1 ++ l2).
Proof.
  intros HP Ho Hc Hc2. destruct (owned_drop _ _ _ _ _ Ho) as (Hj & Hjl & Ho').
  assert (∀ a1 i', pool a1 L → chain a1 i' (l1 ++ l2) →
    (∀ k, k ∈ L → k ∉ idx (l1 ++ (j, x) :: l2) → get a1 k = get a k) →
    chain (free a1 j) i' (l1 ++ l2) ∧ pool (free a1 j) (L ∖ {[j]}) ∧
    owned (L ∖ {[j]}) (l1 ++ l2) ∧
    frame a (free a1 j) L (L ∖ {[j]}) (l1 ++ (j, x) :: l2) (l1 ++ l2)) as Hfin.
  { intros a1 i' HP1 Hc1 Hsame. destruct (pool_free a1 L j HP1 Hj) as [HP2 Hne]. split_and!; auto.
    - eapply chain_ext; [|exact Hc1]. intros k Hk. apply Hne; [by intros ->|].
      destruct Ho' as [_ Hi']. apply Hi' in Hk. by apply elem_of_difference in Hk as [? _].
    - apply frame_drop. intros k Hk Hkl. rewrite Hne; auto. intros ->. apply Hkl.
      rewrite fmap_app, elem_of_app. right; left. }
  destruct l1 as [|[pv [pb pr]] l1 _] using rev_ind.
  { destruct x as [b r]. destruct Hc as [-> _]. rewrite Z.eqb_refl.
    exists a, nx. split; [done|]. by apply Hfin. }
  assert (last (idx (l1 ++ [(pv, (pb, pr))])) = Some pv) as -> by (rewrite fmap_app; apply last_snoc).
  rewrite <- app_assoc in Ho, Hc. cbn [app] in Ho, Hc.
  assert (i =? j = false) as ->.
  { apply Z.eqb_neq. intros ->. apply Hjl. rewrite !fmap_app.
    destruct l1 as [|[k [kb kr]] l1]; destruct Hc as [-> _]; left. }
  destruct (unlink_after a L i l1 pv pb pr j x nx l2 HP Ho Hc Hc2) as (a1 & -> & HP1 & Hc1 & Hsame).
  exists a1, i. split; [done|]. apply Hfin; [done|by rewrite <- app_assoc|].
  intros k Hk Hkl. apply Hsame; [done|]. intros ->. apply Hkl. rewrite !fmap_app, !elem_of_app.
  left; right. left.
Qed.

(** Cutting the hole found. *)
Lemma shrink_spec a L i l1 j b r nx l2 b' r' : pool a L → owned L (l1 ++ (j, (b, r)) :: l2) →
  chain a i (l1 ++ (j, (b, r)) :: l2) → chain a nx l2 → get a j = Some (Node nx b r) →
  let a' := put a j (Node nx b' r') in
  chain a' i (l1 ++ (j, (b', r')) :: l2) ∧ pool a' L ∧ owned L (l1 ++ (j, (b', r')) :: l2) ∧
  frame a a' L L (l1 ++ (j, (b, r)) :: l2) (l1 ++ (j, (b', r')) :: l2).
Proof.
  intros HP Ho Hc Hc2 Hg a'. destruct (owned_drop _ _ _ _ _ Ho) as (Hj & Hjl & _).
  destruct (pool_put a L j (Node nx b' r') HP Hj) as (HP' & Hg' & Hne).
  assert (idx (l1 ++ (j, (b', r')) :: l2) = idx (l1 ++ (j, (b, r)) :: l2)) as E by by rewrite !fmap_app.
  split_and!; auto.
  - rewrite fmap_app in Hjl. apply not_elem_of_app in Hjl as [Hj1 Hj2].
    destruct (owned_app _ _ _ Ho) as ([_ Hi1] & [_ Hi2] & _).
    assert (chain a' j ((j, (b', r')) :: l2)) as Hc3.
    { split; [done|]. exists nx. split; [done|]. eapply chain_ext; [|exact Hc2].
      intros k Hk. apply Hne; [by intros ->|]. apply Hi2. by right. }
    clear Hc2. revert i Hc. induction l1 as [|[k [kb kr]] l1 IH]; intros i.
    { intros [-> _]. exact Hc3. }
    intros (-> & nk & Hk & Hc). split; [done|]. exists nk. cbn in Hj1, Hi1.
    apply not_elem_of_cons in Hj1 as [Hjk Hj1].
    unfold a'. rewrite Hne; [|done|apply Hi1; left]. split; [done|].
    apply IH; auto; [apply (owned_cons _ _ _ _ Ho)|by rewrite !fmap_app|].
    intros x Hx. apply Hi1. by right.
  - destruct Ho as [Hn Hi]. split; by rewrite E.
  - intros k Hk Hkl. rewrite E. split_and!; auto. apply Hne; [|done]. intros ->. apply Hkl.
    rewrite fmap_app, elem_of_app. right; left.
Qed.

Lemma alloc_spec (g : va_gen_addr) L l n fuel : pool (allocator g) L →
  chain (allocator g) (hole_list g) l → owned L l → Forall small (vals l) → 0 < n →
  (length l <= fuel)%nat →
  match take_fit (vals l) n with
  | None => va_gen_alloc_internal fuel g n = Some (INVALID_VA_PAGE_INDEX, g)
  | Some (p, lv) => ∃ a' i' l' L',
      va_gen_alloc_internal fuel g n = Some (p, Gen a' i' (claims_list g) (gen_base g)) ∧
      chain a' i' l' ∧ vals l' = lv ∧ pool a' L' ∧ owned L' l' ∧ frame (allocator g) a' L L' l l'
  end.
Proof.
  intros HP Hc Ho Hs Hn Hf. unfold va_gen_alloc_internal.
  destruct (Z.eqb_spec 0 n) as [?|_]; [lia|]. rewrite (chain_valid _ L _ l HP Ho Hc).
  destruct l as [|x l]; [done|]. cbn [negb orb].
  pose proof (find_hole_spec _ L n HP _ (hole_list g) None fuel Hc Ho ltac:(done) Hf) as Hfind.
  destruct (take_fit (vals (x :: l)) n) as [[p lv]|]; [|by rewrite Hfind].
  destruct Hfind as (l1 & j & r & nx & l2 & E & Hc2 & Hr & Hg & -> & ->). rewrite E in *. clear E x l.
  cbn [next base range]. destruct (Z.eqb_spec r n) as [-> |Hne].
  - destruct (unlink_spec _ L _ l1 j (p, n) nx l2 HP Ho Hc Hc2) as (a1 & i' & -> & H1 & H2 & H3 & H4).
    exists (free a1 j), i', (l1 ++ l2), (L ∖ {[j]}). split_and!; auto. by rewrite fmap_app.
  - rewrite fmap_app in Hs. apply Forall_app in Hs as [_ Hs]. apply Forall_cons in Hs as [(Hb & Hr0 & Hbr) _].
    cbn [fst snd] in *. rewrite !u64_small by lia.
    destruct (shrink_spec _ L _ l1 j p r nx l2 (p + n) (r - n) HP Ho Hc Hc2 Hg) as (H1 & H2 & H3 & H4).
    eexists _, _, (l1 ++ (j, (p + n, r - n)) :: l2), L. split_and!; try done. by rewrite fmap_app.
Qed.

(** ** Pages *)

(** The state holds the free ranges [H] and the claimed ranges [C]. *)
Definition va_gen_rep (g : va_gen_addr) (H C : list (Z * Z)) : Prop :=
  ∃ L hs cs, pool (allocator g) L ∧
    (chain (allocator g) (hole_list g) hs ∧ owned L hs ∧ vals hs = H) ∧
    (chain (allocator g) (claims_list g) cs ∧ owned L cs ∧ vals cs = C) ∧
    (∀ k, k ∈ idx hs → k ∉ idx cs) ∧
    ranges_ok INVALID_VA_PAGE_INDEX H ∧ ranges_ok (2 ^ 52) C.

Lemma ranges_small hi l : hi <= 2 ^ 62 → ranges_ok hi l → Forall small l.
Proof.
  intros Hhi Hok. apply Forall_forall. intros [b r] Hin.
  destruct (ranges_bound _ _ _ _ Hok Hin) as (? & ? & ?). unfold small. cbn. lia.
Qed.

(** The other list survives a change of one list. *)
Lemma frame_other a a' L L' l l' i cs : frame a a' L L' l l' → owned L cs →
  (∀ k, k ∈ idx l → k ∉ idx cs) → chain a i cs →
  chain a' i cs ∧ owned L' cs ∧ ∀ k, k ∈ idx l' → k ∉ idx cs.
Proof.
  intros Hfr [Hn Hi] Hd Hc.
  assert (∀ k, k ∈ idx cs → k ∈ L' ∧ get a' k = get a k ∧ k ∉ idx l') as Hk.
  { intros k Hk. apply Hfr; [by apply Hi|]. intros Hkl. by apply (Hd k). }
  split_and!.
  - eapply chain_ext; [|exact Hc]. intros k Hkc. apply Hk. done.
  - split; [done|]. intros k Hkc. by apply Hk.
  - intros k Hkl Hkc. by apply (Hk k).
Qed.

Lemma rep_alloc g H C n fuel : va_gen_rep g H C → 0 < n → (length H <= fuel)%nat →
  match take_fit H n with
  | None => va_gen_alloc_internal fuel g n = Some (INVALID_VA_PAGE_INDEX, g)
  | Some (p, H') => ∃ g', va_gen_alloc_internal fuel g n = Some (p, g') ∧ va_gen_rep g' H' C ∧
      gen_base g' = gen_base g
  end.
Proof.
  intros (L & hs & cs & HP & (Hc & Ho & <-) & (Hcc & Hoc & <-) & Hd & Hok & Hokc) Hn Hf.
  assert (Forall small (vals hs)) as Hs by (eapply ranges_small; [|exact Hok]; done).
  rewrite length_fmap in Hf. pose proof (alloc_spec g L hs n fuel HP Hc Ho Hs Hn Hf) as Hspec.
  pose proof (take_fit_spec 0 (vals hs) n Hn (proj1 Hok)) as Hfit.
  destruct (take_fit (vals hs) n) as [[p lv]|]; [|done].
  destruct Hspec as (a' & i' & l' & L' & -> & Hc' & <- & HP' & Ho' & Hfr).
  destruct (frame_other _ _ _ _ _ _ _ _ Hfr Hoc Hd Hcc) as (Hcc' & Hoc' & Hd').
  destruct Hfit as (_ & Hin & Hsep). eexists. split; [done|]. split; [|done].
  exists L', l', cs. split_and!; auto; [split_and!; auto..|].
  split; [done|]. intros q Hq. apply Hok. by apply Hin.
Qed.

Lemma rep_free g H C b r fuel H' : va_gen_rep g H C → room (allocator g) → 0 <= b → 0 < r →
  b + r <= INVALID_VA_PAGE_INDEX → (length H < fuel)%nat →
  ins H b r = Some H' → ranges_ok INVALID_VA_PAGE_INDEX H' →
  ∃ g', va_gen_free_internal fuel true true g b r = Some g' ∧ va_gen_rep g' H' C ∧
    gen_base g' = gen_base g.
Proof.
  intros (L & hs & cs & HP & (Hc & Ho & <-) & (Hcc & Hoc & <-) & Hd & Hok & Hokc) Hroom Hb Hr Hbr Hf Hi Hok'.
  assert (Forall small (vals hs)) as Hs by (eapply ranges_small; [|exact Hok]; done).
  rewrite length_fmap in Hf.
  assert (b + r <= 2 ^ 62) as Hbig by (unfold INVALID_VA_PAGE_INDEX in Hbr; lia).
  pose proof (insert_spec _ L _ hs b r fuel HP Hroom Hc Ho Hs Hb Hr Hbig Hf) as Hspec.
  rewrite Hi in Hspec. destruct Hspec as (a' & i' & l' & L' & E & Hc' & Hl & HP' & Ho' & Hfr).
  destruct (frame_other _ _ _ _ _ _ _ _ Hfr Hoc Hd Hcc) as (Hcc' & Hoc' & Hd').
  unfold va_gen_free_internal. rewrite E. cbn. eexists. split; [done|]. split; [|done].
  exists L', l', cs. split_and!; auto.
Qed.

Lemma rep_claim g H C b r fuel : va_gen_rep g H C → room (allocator g) → 0 <= b → 0 < r →
  b + r <= 2 ^ 52 → (length C < fuel)%nat →
  match ins C b r with
  | None => va_gen_claim_internal fuel true true g b r = Some (-1, g)
  | Some C' => ∃ g', va_gen_claim_internal fuel true true g b r = Some (0, g') ∧
      gen_base g' = gen_base g ∧ (ranges_ok (2 ^ 52) C' → va_gen_rep g' H C')
  end.
Proof.
  intros (L & hs & cs & HP & (Hc & Ho & <-) & (Hcc & Hoc & <-) & Hd & Hok & Hokc) Hroom Hb Hr Hbr Hf.
  assert (Forall small (vals cs)) as Hs by (eapply ranges_small; [|exact Hokc]; lia).
  rewrite length_fmap in Hf.
  pose proof (insert_spec _ L _ cs b r fuel HP Hroom Hcc Hoc Hs Hb Hr ltac:(lia) Hf) as Hspec.
  unfold va_gen_claim_internal. destruct (ins (vals cs) b r) as [C'|].
  - destruct Hspec as (a' & i' & l' & L' & E & Hc' & Hl & HP' & Ho' & Hfr).
    assert (∀ k, k ∈ idx cs → k ∉ idx hs) as Hd2 by (intros k Hk Hk'; by apply (Hd k)).
    destruct (frame_other _ _ _ _ _ _ _ _ Hfr Ho Hd2 Hc) as (Hcc' & Hoc' & Hd').
    rewrite E. eexists. split; [done|]. split; [done|]. intros Hok'.
    exists L', hs, l'. split_and!; auto. intros k Hk Hk'. by apply (Hd' k).
  - rewrite Hspec. by destruct g.
Qed.

(** C15: the page allocator of the first-generation registered address space, run on
    its linked lists of pool nodes, is a set of free pages and a set of claimed pages:
    an allocation takes a run of free pages and removes exactly it, and fails only when
    no run is long enough; freeing pages that are not free makes them free without
    tripping the [BUG_ON]; a claim of unclaimed pages is recorded, and a refused claim
    overlaps an earlier one and changes nothing. *)
Theorem va_gen_refines_pages (g : va_gen_addr) (H C : list (Z * Z)) (fuel : nat) :
  va_gen_rep g H C → room (allocator g) → (length H < fuel)%nat → (length C < fuel)%nat →
  (∀ n, 0 < n → ∃ p g', va_gen_alloc_internal fuel g n = Some (p, g') ∧
     (if p =? INVALID_VA_PAGE_INDEX
      then g' = g ∧ ¬ ∃ p0, ∀ q, p0 <= q < p0 + n → in_pages H q
      else ∃ H', va_gen_rep g' H' C ∧ (∀ q, p <= q < p + n → in_pages H q) ∧
             ∀ q, in_pages H' q ↔ in_pages H q ∧ ¬ p <= q < p + n)) ∧
  (∀ b r, 0 <= b → 0 < r → b + r <= INVALID_VA_PAGE_INDEX →
     (∀ q, in_pages H q → ¬ b <= q < b + r) →
     ∃ g' H', va_gen_free_internal fuel true true g b r = Some g' ∧ va_gen_rep g' H' C ∧
       ∀ q, in_pages H' q ↔ in_pages H q ∨ b <= q < b + r) ∧
  (∀ b r, 0 <= b → 0 < r → b + r <= 2 ^ 52 →
     ∃ rc g', va_gen_claim_internal fuel true true g b r = Some (rc, g') ∧
       ((∀ q, in_pages C q → ¬ b <= q < b + r) → rc = 0 ∧
          ∃ C', va_gen_rep g' H C' ∧ ∀ q, in_pages C' q ↔ in_pages C q ∨ b <= q < b + r) ∧
       (rc < 0 → g' = g ∧ ∃ q, b <= q < b + r ∧ in_pages C q)).
Proof.
  intros Hrep Hroom HfH HfC.
  pose proof Hrep as (_ & _ & _ & _ & _ & _ & _ & HokH & HokC). split_and!.
  - intros n Hn. pose proof (rep_alloc g H C n fuel Hrep Hn ltac:(lia)) as Ha.
    pose proof (take_fit_spec 0 H n Hn (proj1 HokH)) as Hfit.
    destruct (take_fit H n) as [[p H']|].
    + destruct Ha as (g' & -> & Hrep' & _). destruct Hfit as (H1 & H2 & _). exists p, g'.
      split; [done|]. assert (p < INVALID_VA_PAGE_INDEX) as Hp by (apply HokH, H1; lia).
      destruct (Z.eqb_spec p INVALID_VA_PAGE_INDEX); [lia|]. eauto.
    + eexists _, _. split; [done|]. rewrite Z.eqb_refl. split; [done|]. intros [p Hp].
      destruct (run_in_range 0 H p n Hn (proj1 HokH) Hp) as (x & Hx & Hle).
      rewrite Forall_forall in Hfit. apply Hfit in Hx. lia.
  - intros b r Hb Hr Hbr Hd.
    destruct (ins_disjoint 0 H b r Hr Hb (proj1 HokH) Hd) as (H' & Hi & Hin & Hsep).
    destruct (rep_free g H C b r fuel H' Hrep Hroom Hb Hr Hbr HfH Hi) as (g' & E & Hrep' & _); [|eauto 10].
    split; [done|]. intros q Hq. apply Hin in Hq as [Hq|Hq]; [by apply HokH|lia].
  - intros b r Hb Hr Hbr. pose proof (rep_claim g H C b r fuel Hrep Hroom Hb Hr Hbr HfC) as Hc.
    destruct (ins C b r) as [C'|] eqn:Ei.
    + destruct Hc as (g' & E & _ & Hok). exists 0, g'. split; [done|]. split; [|lia]. intros Hd.
      split; [done|]. exists C'.
      destruct (ins_disjoint 0 C b r Hr Hb (proj1 HokC) Hd) as (C2 & Hi & Hin & Hsep).
      rewrite Ei in Hi. injection Hi as <-. split; [|done]. apply Hok. split; [done|].
      intros q Hq. apply Hin in Hq as [Hq|Hq]; [by apply HokC|lia].
    + exists (-1), g. destruct (ins_refused C b r Hr Ei) as (q & Hq & Hin).
      { apply Forall_forall. intros [b0 r0] Hin.
        by apply (sep_pos _ _ _ _ (proj1 HokC) Hin). }
      split; [done|]. split; [|eauto]. intros Hd. by apply Hd in Hin.
Qed.

(** ** Claims that touch *)

(** What the claims list holds, whether or not it is well formed. *)
Definition claims_are (g : va_gen_addr) (C : list (Z * Z)) : Prop :=
  ∃ cs, chain (allocator g) (claims_list g) cs ∧ vals cs = C.

(** A range of claims that starts where a claim ends is merged with it, whatever
    follows. *)
Lemma claim_touching g H b0 r0 b1 r1 r fuel : va_gen_rep g H [(b0, r0); (b1, r1)] →
  room (allocator g) → (2 < fuel)%nat → b1 < b0 + r0 + r → b0 + r0 + r <= 2 ^ 52 →
  ∃ g', va_gen_claim_internal fuel true true g (b0 + r0) r = Some (0, g') ∧
    claims_are g' [(b0, r0 + r); (b1, r1)].
Proof.
  intros (L & hs & cs & HP & _ & (Hcc & Hoc & Hcs) & _ & _ & Hok) Hroom Hf Hov Hhi.
  pose proof Hok as [(Hb0 & Hr0 & Hb1 & Hr1 & _) _].
  assert (Forall small (vals cs)) as Hs.
  { rewrite Hcs. eapply ranges_small; [|exact Hok]; lia. }
  assert (length cs = 2%nat) as Hlen by (rewrite <- (length_fmap snd cs), Hcs; done).
  pose proof (insert_spec _ L _ cs (b0 + r0) r fuel HP Hroom Hcc Hoc Hs ltac:(lia) ltac:(lia) ltac:(lia) ltac:(lia)) as Hspec.
  rewrite Hcs in Hspec. cbn [ins] in Hspec.
  assert (b0 <? b0 + r0 = true) as E1 by lia. rewrite E1, Z.ltb_irrefl, Z.eqb_refl in Hspec.
  assert (b0 + r0 + r =? b0 = false) as E2 by lia. rewrite E2 in Hspec.
  assert (b1 =? b0 + r0 + r = false) as E3 by lia. rewrite E3 in Hspec.
  destruct Hspec as (a' & i' & l' & L' & E & Hc' & Hl & _).
  unfold va_gen_claim_internal. rewrite E. eexists. split; [done|]. by exists l'.
Qed.

(** Freeing the inside of a claim leaves two claims. *)
Lemma free_claim_inside g H b0 r0 b r fuel : va_gen_rep g H [(b0, r0)] →
  room (allocator g) → (1 < fuel)%nat → b0 < b → 0 < r → b + r < b0 + r0 →
  ∃ g', va_gen_free_claim fuel true true g b r = Some g' ∧
    claims_are g' [(b0, b - b0); (b + r, u64 (r0 - (b + r)))].
Proof.
  intros (L & hs & cs & HP & _ & (Hcc & Hoc & Hcs) & _ & _ & Hok) Hroom Hf Hb Hr Hbr.
  destruct (ranges_bound _ _ b0 r0 Hok ltac:(left)) as (H1 & H2 & H3).
  destruct cs as [|[j [b0' r0']] cs]; [done|]. destruct cs; [|done]. injection Hcs as -> ->.
  pose proof Hcc as (Ej & nx & Hg & ->). destruct (owned_cons _ _ _ _ Hoc) as (Hj & _).
  unfold va_gen_free_claim. assert (0 =? r = false) as -> by lia.
  destruct fuel as [|fuel]; [lia|]. cbn [free_claim_loop].
  rewrite (chain_valid _ L _ _ HP Hoc Hcc), Ej, Hg. cbn [negb base range next].
  rewrite (u64_small (b + r)), (u64_small (b0 + r0)), (u64_small (b - b0)) by lia.
  assert ((b0 <=? b) && (b + r <=? b0 + r0) = true) as -> by lia.
  assert (b0 =? b = false) as -> by lia. assert (b0 + r0 =? b + r = false) as -> by lia.
  destruct (alloc true true (allocator g)) as [ptr a1] eqn:Ea.
  destruct (pool_alloc_memory _ L HP Hroom) as [k Hm]. rewrite Ea in Hm. cbn in Hm. subst ptr.
  destruct (pool_alloc _ _ _ _ _ _ HP Hroom Ea) as [Hsame [Hk HP1]]. eexists. split; [done|].
  set (nk := Node _ _ (u64 (r0 - (b + r)))). set (nj := Node k _ _).
  destruct (pool_put a1 _ k nk HP1 ltac:(set_solver)) as (HP2 & Hgk & _).
  destruct (pool_put _ _ j nj HP2 ltac:(set_solver)) as (HP3 & Hgj & Hne).
  exists [(j, (b0, b - b0)); (k, (b + r, u64 (r0 - (b + r))))]. split; [|done].
  cbn [chain allocator claims_list]. split; [done|]. exists k. split; [done|]. split; [done|]. eexists.
  rewrite Hne, Hgk; [done|by intros ->|set_solver].
Qed.

(** Two faults of the claims list.  A claim that starts where an earlier claim ends
    is accepted even if it runs into the next claim, which stays in the list under it;
    and freeing the inside of a claim keeps [r0 - (b + r)] pages above the gap, which is
    the number left only for a claim at page 0. *)
Theorem va_gen_claims_faults (g : va_gen_addr) (H : list (Z * Z)) (b0 r0 b1 r1 b r : Z) (fuel : nat) :
  room (allocator g) → (2 < fuel)%nat →
  (va_gen_rep g H [(b0, r0); (b1, r1)] → b1 < b0 + r0 + r → b0 + r0 + r <= 2 ^ 52 →
   ∃ g', va_gen_claim_internal fuel true true g (b0 + r0) r = Some (0, g') ∧
     claims_are g' [(b0, r0 + r); (b1, r1)] ∧ b1 < b0 + (r0 + r)) ∧
  (va_gen_rep g H [(b0, r0)] → b0 < b → 0 < r → b + r < b0 + r0 →
   ∃ g' kept, va_gen_free_claim fuel true true g b r = Some g' ∧
     claims_are g' [(b0, b - b0); (b + r, kept)] ∧ (kept = b0 + r0 - (b + r) ↔ b0 = 0)).
Proof.
  intros Hroom Hf. split.
  - intros Hrep Hov Hhi. destruct (claim_touching g H b0 r0 b1 r1 r fuel) as (g' & E & Hc); auto.
    exists g'. split_and!; auto. lia.
  - intros Hrep Hb Hr Hbr. destruct (free_claim_inside g H b0 r0 b r fuel) as (g' & E & Hc); auto; [lia|].
    eexists g', _. split; [done|]. split; [done|].
    destruct Hrep as (_ & _ & _ & _ & _ & _ & _ & _ & Hok).
    destruct (ranges_bound _ _ b0 r0 Hok ltac:(left)) as (H1 & H2 & H3).
    unfold u64, wrap. Z.to_euclidean_division_equations. lia.
Qed.

(** ** Clients *)

Lemma sep_length lo l hi : lo <= hi → sep lo l → (∀ p, in_pages l p → p < hi) →
  Z.of_nat (length l) <= hi - lo.
Proof.
  revert lo. induction l as [|[b r] l IH]; intros lo Hlo; cbn [length sep]; [lia|].
  intros (Hb & Hr & Hs) Hp. setoid_rewrite in_pages_cons in Hp.
  destruct l as [|[b' r'] l]; [specialize (Hp b ltac:(lia)); cbn; lia|].
  assert (b + r + 1 <= hi) as Hhi.
  { destruct Hs as (Hb' & Hr' & _). enough (b' < hi) by lia. apply Hp. right. apply in_pages_cons. lia. }
  specialize (IH _ Hhi Hs ltac:(auto)). lia.
Qed.

(** Ranges that share no page. *)
Fixpoint apart (l : list (Z * Z)) : Prop :=
  match l with
  | [] => True
  | (b, r) :: l => (∀ q, b <= q < b + r → ¬ in_pages l q) ∧ apart l
  end.

Lemma in_pages_app l1 l2 q : in_pages (l1 ++ l2) q ↔ in_pages l1 q ∨ in_pages l2 q.
Proof.
  unfold in_pages. setoid_rewrite elem_of_app. split; [|naive_solver].
  intros (b & r & [Hin|Hin] & Hq); [left|right]; eauto.
Qed.

Lemma apart_remove l1 b r l2 : apart (l1 ++ (b, r) :: l2) →
  apart (l1 ++ l2) ∧ ∀ q, b <= q < b + r → ¬ in_pages (l1 ++ l2) q.
Proof.
  induction l1 as [|[b1 r1] l1 IH]; cbn; [tauto|]. intros [H1 H2].
  destruct (IH H2) as [H3 H4]. setoid_rewrite in_pages_app in H1. setoid_rewrite in_pages_cons in H1.
  split_and!; auto.
  - intros q Hq. rewrite in_pages_app. specialize (H1 q Hq). tauto.
  - intros q Hq. rewrite in_pages_cons. intros [Hq1|Hq1]; [|by apply (H4 q)].
    apply (H1 q Hq1). auto.
Qed.

Section Client.
Variables (a0 : A) (b len : Z).
Let N := len / PAGE_SIZE.
Let fuel := S (Z.to_nat N).

(** An endpoint that allocates with page alignment and frees what it was given;
    [out] lists the addresses and sizes it holds. *)
Inductive client : va_gen_addr → list (Z * Z) → Prop :=
| client_init g : va_gen_init true true a0 b len = Some (0, g) → client g []
| client_alloc g out nb addr g' : client g out → 0 <= nb →
    va_gen_alloc fuel true true g nb PAGE_SIZE = Some (addr, g') →
    client g' (if addr =? INVALID_VA_GEN_ADDRESS then out else (addr, nb) :: out)
| client_free g o1 addr nb o2 g' : client g (o1 ++ (addr, nb) :: o2) → room (allocator g) →
    va_gen_free fuel true true g addr nb = Some g' → client g' (o1 ++ o2).

(** The pages of an address and size. *)
Definition pages_at (x : Z * Z) : Z * Z := ((x.1 - b) / PAGE_SIZE, pages_of x.2).

Definition client_inv (g : va_gen_addr) (out : list (Z * Z)) : Prop :=
  gen_base g = b ∧
  Forall (λ x, (∃ p, 0 <= p ∧ x.1 = b + p * PAGE_SIZE) ∧ 0 < pages_of x.2 ∧ 0 <= x.2) out ∧
  ∃ H, va_gen_rep g H [] ∧ apart (pages_at <$> out) ∧
    (∀ q, in_pages H q → ¬ in_pages (pages_at <$> out) q) ∧
    (∀ q, in_pages H q ∨ in_pages (pages_at <$> out) q ↔ 0 <= q < N).

Hypothesis a0_empty : pool a0 ∅.
Hypothesis a0_room : room a0.
Hypothesis b_ok : 0 <= b.
Hypothesis len_ok : PAGE_SIZE <= len.
Hypothesis top_ok : b + len <= INVALID_VA_GEN_ADDRESS.

Lemma N_ok : 0 < N ∧ N * PAGE_SIZE <= len ∧ N <= INVALID_VA_PAGE_INDEX.
Proof.
  unfold N, INVALID_VA_GEN_ADDRESS, INVALID_VA_PAGE_INDEX, PAGE_SIZE in *. divlia.
Qed.

Lemma va_init_rep g : va_gen_init true true a0 b len = Some (0, g) →
  va_gen_rep g [(0, N)] [] ∧ gen_base g = b.
Proof.
  destruct N_ok as (HN & _ & HN2). unfold va_gen_init, va_gen_init_internal.
  destruct (alloc true true a0) as [[i|] a] eqn:Ea; cbn; [|done].
  destruct (pool_alloc _ _ _ _ _ _ a0_empty a0_room Ea) as [_ [_ HP]].
  destruct (pool_get a _ i HP ltac:(set_solver)) as [_ Hv]. rewrite Hv. intros [= <-].
  split; [|done].
  rewrite (Z.shiftr_div_pow2 len PAGE_SHIFT) by done. change (2 ^ PAGE_SHIFT) with PAGE_SIZE. fold N.
  destruct (pool_put a _ i (Node invalid_va_node_index 0 N) HP ltac:(set_solver)) as (HP1 & Hg & _).
  exists ({[i]} ∪ ∅), [(i, (0, N))], []. split_and!; cbn; eauto.
  - split; [apply NoDup_singleton|]. intros k Hk. set_solver.
  - split; [constructor|]. intros k Hk. set_solver.
  - intros k _. by apply not_elem_of_nil.
  - split; [cbn; lia|]. intros q. rewrite in_pages_cons. intros [?|?%in_pages_nil]; lia.
  - split; [done|]. by intros q ?%in_pages_nil.
Qed.

Lemma client_inv_init g : va_gen_init true true a0 b len = Some (0, g) → client_inv g [].
Proof.
  intros [Hrep Hb]%va_init_rep. split; [done|]. split; [done|]. exists [(0, N)]. split; [done|].
  split; [done|]. cbn. setoid_rewrite in_pages_cons. split; [intros q _; apply in_pages_nil|].
  intros q. pose proof (in_pages_nil q). intuition lia.
Qed.

Lemma client_fuel g H C : va_gen_rep g H C → (∀ q, in_pages H q → 0 <= q < N) →
  (length H < fuel)%nat.
Proof.
  intros (_ & _ & _ & _ & _ & _ & _ & [Hs _] & _) Hq. destruct N_ok as (HN & _).
  pose proof (sep_length 0 H N ltac:(lia) Hs ltac:(intros q Hin; by apply Hq)). unfold fuel. lia.
Qed.

Lemma pages_at_addr p nb : pages_at (b + p * PAGE_SIZE, nb) = (p, pages_of nb).
Proof. unfold pages_at. cbn. f_equal. unfold PAGE_SIZE. divlia. Qed.

(** The byte interface with page alignment adds nothing to the page allocator. *)
Lemma va_gen_alloc_page g nb : 0 <= nb → nb <= 0xffffffff * PAGE_SIZE →
  va_gen_alloc fuel true true g nb PAGE_SIZE =
  if pages_of nb =? 0 then
    option_map (λ '(_, g'), (INVALID_VA_GEN_ADDRESS, g')) (va_gen_alloc_internal fuel g 0)
  else
    option_map (λ '(p, g'), (if p =? INVALID_VA_PAGE_INDEX then INVALID_VA_GEN_ADDRESS
                             else u64 (u64 (Z.shiftl p PAGE_SHIFT) + gen_base g'), g'))
      (va_gen_alloc_internal fuel g (pages_of nb)).
Proof.
  intros H0 H1. unfold va_gen_alloc, va_gen_alloc_aligned.
  assert (0xffffffff * PAGE_SIZE <? nb = false) as -> by lia.
  change (PAGE_SIZE <? PAGE_SIZE) with false. change (u32 (PAGE_SIZE / PAGE_SIZE mod 0xffffffff)) with 1.
  cbn iota.
  assert (u64 (pages_of nb + 1 - 1) = pages_of nb) as ->.
  { rewrite Z.add_simpl_r. unfold pages_of. apply u64_small. unfold PAGE_SIZE in *.
    rewrite u64_small by lia. divlia. }
  rewrite (Z.eqb_sym 0). destruct (Z.eqb_spec (pages_of nb) 0) as [-> |]; cbn [orb].
  - by destruct (va_gen_alloc_internal fuel g 0) as [[p g']|].
  - destruct (va_gen_alloc_internal fuel g (pages_of nb)) as [[p g']|]; cbn; [|done].
    by destruct (p =? INVALID_VA_PAGE_INDEX).
Qed.

Lemma client_inv_alloc g out nb addr g' : client_inv g out → 0 <= nb →
  va_gen_alloc fuel true true g nb PAGE_SIZE = Some (addr, g') →
  client_inv g' (if addr =? INVALID_VA_GEN_ADDRESS then out else (addr, nb) :: out).
Proof.
  intros Hinv Hnb. destruct (Z.ltb_spec (0xffffffff * PAGE_SIZE) nb) as [Hbig|Hsm].
  { unfold va_gen_alloc. change (PAGE_SIZE <? PAGE_SIZE) with false.
    assert (0xffffffff * PAGE_SIZE <? nb = true) as -> by lia. cbn iota.
    intros [= <- <-]. by rewrite Z.eqb_refl. }
  rewrite va_gen_alloc_page by done. destruct (Z.eqb_spec (pages_of nb) 0) as [E|E].
  { cbn. by intros [= <- <-]. }
  destruct Hinv as (Hgb & Hout & H & Hrep & Hap & Hdis & Hcov). destruct N_ok as (HN & HN2 & HN3).
  assert (0 < pages_of nb) as Hn.
  { enough (0 <= pages_of nb) by lia. unfold pages_of, PAGE_SIZE in *. rewrite u64_small by lia. divlia. }
  assert (∀ q, in_pages H q → 0 <= q < N) as HqN by (intros q Hq; apply Hcov; auto).
  pose proof (client_fuel _ _ _ Hrep HqN) as Hfuel.
  pose proof (rep_alloc g H [] _ fuel Hrep Hn ltac:(lia)) as Ha.
  pose proof Hrep as (_ & _ & _ & _ & _ & _ & _ & [Hsep Hhi] & _).
  pose proof (take_fit_spec 0 H _ Hn Hsep) as Hfit.
  destruct (take_fit H (pages_of nb)) as [[p H']|].
  2: { rewrite Ha. cbn. intros [= <- <-]. split; [done|]. split; [done|]. exists H. auto. }
  destruct Ha as (g2 & -> & Hrep' & Hb'). destruct Hfit as (Hrun & Hrest & _). cbn.
  pose proof (HqN p ltac:(apply Hrun; lia)) as HpN.
  assert (p =? INVALID_VA_PAGE_INDEX = false) as -> by lia.
  assert (u64 (u64 (Z.shiftl p PAGE_SHIFT) + gen_base g2) = b + p * PAGE_SIZE) as ->.
  { rewrite Hb', Hgb, Z.shiftl_mul_pow2 by done. change (2 ^ PAGE_SHIFT) with PAGE_SIZE.
    unfold INVALID_VA_GEN_ADDRESS, PAGE_SIZE in *.
    rewrite (u64_small (p * 4096)) by lia. rewrite u64_small; lia. }
  intros [= <- <-].
  assert (b + p * PAGE_SIZE =? INVALID_VA_GEN_ADDRESS = false) as ->
    by (apply Z.eqb_neq; unfold PAGE_SIZE in *; lia).
  split; [congruence|]. split; [constructor; [cbn; split; [exists p; lia|done]|done]|].
  exists H'. rewrite fmap_cons, pages_at_addr. setoid_rewrite in_pages_cons. split_and!; auto.
  - split; [|done]. intros q Hq Hin. by apply (Hdis q); [apply Hrun|].
  - intros q Hq. apply Hrest in Hq as [Hq Hnq]. intros [?|Hin]; [done|]. by apply (Hdis q).
  - intros q. rewrite Hrest, <- Hcov. split; [|].
    + intros [[? ?]|[Hq|?]]; auto.
    + intros [Hq|Hq]; [|auto]. destruct (decide (p <= q < p + pages_of nb)); auto.
Qed.

(** An allocation held can be given back. *)
Lemma client_inv_free g o1 addr nb o2 : client_inv g (o1 ++ (addr, nb) :: o2) →
  room (allocator g) →
  ∃ g', va_gen_free fuel true true g addr nb = Some g' ∧ client_inv g' (o1 ++ o2).
Proof.
  intros (Hgb & Hout & H & Hrep & Hap & Hdis & Hcov) Hroom. destruct N_ok as (HN & HN2 & HN3).
  apply Forall_app in Hout as [Ho1 Ho2]. apply Forall_cons in Ho2 as [((p & Hp & Ea) & Hn & Hnb) Ho2].
  cbn [fst snd] in *. subst addr.
  assert (∀ q, in_pages H q → 0 <= q < N) as HqN by (intros q Hq; apply Hcov; auto).
  pose proof (client_fuel _ _ _ Hrep HqN) as Hfuel.
  rewrite fmap_app, fmap_cons, pages_at_addr in Hap, Hdis, Hcov.
  setoid_rewrite in_pages_app in Hdis. setoid_rewrite in_pages_cons in Hdis.
  setoid_rewrite in_pages_app in Hcov. setoid_rewrite in_pages_cons in Hcov.
  destruct (apart_remove _ _ _ _ Hap) as [Hap' Hnew].
  pose proof Hrep as (_ & _ & _ & _ & _ & _ & _ & [Hsep Hhi] & _).
  assert (p + pages_of nb <= N) as Hend.
  { enough (p + pages_of nb - 1 < N) by lia. apply Hcov. right; right; left. lia. }
  assert (∀ q, in_pages H q → ¬ p <= q < p + pages_of nb) as Hd.
  { intros q Hq Hr. apply (Hdis q Hq). auto. }
  destruct (ins_disjoint 0 H p (pages_of nb) Hn Hp Hsep Hd) as (H' & Hi & Hin & Hsep').
  destruct (rep_free g H [] p (pages_of nb) fuel H' Hrep Hroom Hp Hn ltac:(lia) Hfuel Hi)
    as (g' & E & Hrep' & Hb').
  { split; [done|]. intros q [Hq|Hq]%Hin; [by apply Hhi|lia]. }
  exists g'. unfold va_gen_free. rewrite Hgb.
  assert (b <=? b + p * PAGE_SIZE = true) as -> by (unfold PAGE_SIZE; lia).
  assert (Z.shiftr (b + p * PAGE_SIZE - b) PAGE_SHIFT = p) as ->.
  { rewrite Z.shiftr_div_pow2 by done. change (2 ^ PAGE_SHIFT) with 4096. unfold PAGE_SIZE. divlia. }
  split; [done|]. split; [congruence|]. split; [by apply Forall_app|].
  exists H'. rewrite fmap_app. split_and!; auto.
  - intros q [Hq|Hq]%Hin; [|by apply Hnew]. rewrite in_pages_app. specialize (Hdis q Hq). tauto.
  - intros q. rewrite Hin, in_pages_app, <- Hcov. tauto.
Qed.

(** Whatever an endpoint allocates and frees, the pages of its address space are
    always split between the holes and the allocations it holds: no page is handed out
    twice, none is lost, every address given out is page aligned inside the space, and
    giving back an allocation never trips the [BUG_ON]. *)
Theorem va_gen_client_partition g out : client g out →
  Forall (λ x, b <= x.1 ∧ x.1 + pages_of x.2 * PAGE_SIZE <= b + len ∧ (x.1 - b) mod PAGE_SIZE = 0) out ∧
  apart (pages_at <$> out) ∧
  (∃ H, va_gen_rep g H [] ∧ (∀ q, in_pages H q → ¬ in_pages (pages_at <$> out) q) ∧
     ∀ q, in_pages H q ∨ in_pages (pages_at <$> out) q ↔ 0 <= q < N) ∧
  (room (allocator g) → ∀ o1 x o2, out = o1 ++ x :: o2 →
     is_Some (va_gen_free fuel true true g x.1 x.2)).
Proof.
  intros Hcl. assert (client_inv g out) as Hinv.
  { induction Hcl as [g Hg|g out nb addr g' _ IH Hnb Ha|g o1 addr nb o2 g' _ IH Hroom Hf].
    - by apply client_inv_init.
    - by eapply client_inv_alloc.
    - destruct (client_inv_free _ _ _ _ _ IH Hroom) as (g2 & E & Hinv). congruence. }
  destruct Hinv as (Hgb & Hout & H & Hrep & Hap & Hdis & Hcov). split_and!; [|done|eauto|].
  - apply Forall_forall. intros [addr nb] Hx. destruct N_ok as (HN & HN2 & HN3).
    rewrite Forall_forall in Hout. destruct (Hout _ Hx) as ((p & Hp & Ea) & Hn & Hnb). cbn in *.
    subst addr. assert (p + pages_of nb - 1 < N).
    { apply Hcov. right. exists p, (pages_of nb). split; [|lia]. apply list_elem_of_fmap.
      exists (b + p * PAGE_SIZE, nb). split; [by rewrite pages_at_addr|done]. }
    unfold PAGE_SIZE in *. split_and!; [lia|lia|divlia].
  - intros Hroom o1 [addr nb] o2 ->.
    destruct (client_inv_free g o1 addr nb o2) as (g' & E & _); [|done|by exists g'].
    split; [done|]. split; [done|]. eauto 10.
Qed.

End Client.

End Refine.

(** ** Concrete address spaces *)

#[local] Existing Instance VaNode.slab_node_pool.

(** Sixteen pages at 1 MB, on a fresh slab pool. *)
Definition space : va_gen_addr :=
  match va_gen_init true true VaNode.va_node_init 0x100000 0x10000 with
  | Some (_, g) => g
  | None => Gen VaNode.va_node_init 0 0 0
  end.

Lemma va_space_rep : va_gen_rep space [(0, 16)] [] ∧ room (allocator space).
Proof.
  destruct VaNode.init_pool as [Hp Hr]. split; [|by vm_compute].
  apply (va_init_rep VaNode.va_node_init 0x100000 0x10000); done.
Qed.

(** Claims of 4 and of 5 pages, at pages 10 and 20. *)
Definition claimed (g : va_gen_addr) (b r : Z) : va_gen_addr :=
  match va_gen_claim_internal 5 true true g b r with Some (_, g') => g' | None => g end.

Lemma claimed_rep g H C b r C' : va_gen_rep g H C → room (allocator g) → 0 <= b → 0 < r →
  b + r <= 2 ^ 52 → (length C < 5)%nat → ins C b r = Some C' → ranges_ok (2 ^ 52) C' →
  va_gen_rep (claimed g b r) H C'.
Proof.
  intros Hrep Hroom Hb Hr Hbr Hf Hi Hok. pose proof (rep_claim g H C b r 5 Hrep Hroom Hb Hr Hbr Hf) as Hc.
  rewrite Hi in Hc. destruct Hc as (g' & E & _ & Hok'). unfold claimed. rewrite E. auto.
Qed.

Lemma claims_rep : let g := claimed space 10 4 in
  (va_gen_rep g [(0, 16)] [(10, 4)] ∧ room (allocator g)) ∧
  va_gen_rep (claimed g 20 5) [(0, 16)] [(10, 4); (20, 5)].
Proof.
  destruct va_space_rep as [Hrep Hroom].
  assert (∀ l, sep 0 l → Forall (λ x, x.1 + x.2 <= 100) l → ranges_ok (2 ^ 52) l) as Hok.
  { intros l Hs Hf. split; [done|]. intros q (b & r & Hin & Hq).
    rewrite Forall_forall in Hf. specialize (Hf _ Hin). cbn in Hf. lia. }
  assert (va_gen_rep (claimed space 10 4) [(0, 16)] [(10, 4)]) as H1.
  { eapply claimed_rep; eauto; try done; [cbn; lia|]. apply Hok; [cbn; lia|]. repeat constructor; cbn; lia. }
  assert (room (allocator (claimed space 10 4))) as H2 by by vm_compute.
  split; [done|].
  eapply claimed_rep; eauto; try (cbn; lia). apply Hok; [cbn; lia|]. repeat constructor; cbn; lia.
Qed.

(** On [space], three pages are allocated. *)
Lemma va_gen_refines_pages_witness : ∃ p g', va_gen_alloc_internal 5 space 3 = Some (p, g') ∧
  ∃ H', va_gen_rep g' H' [] ∧ ∀ q, in_pages H' q ↔ in_pages [(0, 16)] q ∧ ¬ p <= q < p + 3.
Proof.
  destruct va_space_rep as [Hrep Hroom].
  destruct (va_gen_refines_pages space [(0, 16)] [] 5 Hrep Hroom ltac:(cbn; lia) ltac:(cbn; lia))
    as (Ha & _ & _).
  destruct (Ha 3 ltac:(lia)) as (p & g' & E & Hp). exists p, g'. split; [done|].
  assert (p = 0) as -> by (vm_compute in E; congruence).
  destruct Hp as (H' & Hrep' & _ & Hin). eauto.
Defined.

(** Two allocations of 5000 bytes on [space] hold four pages. *)
Lemma va_gen_client_partition_witness :
  apart (pages_at 0x100000 <$> [(0x102000, 5000); (0x100000, 5000)]).
Proof.
  destruct VaNode.init_pool as [Hp Hr].
  eapply (va_gen_client_partition (PL := VaNode.slab_node_pool) VaNode.va_node_init
     0x100000 0x10000 Hp Hr ltac:(done) ltac:(done) ltac:(done)).
  refine (client_alloc _ _ _ _ [(0x100000, 5000)] 5000 0x102000 _ _ _ _).
  - refine (client_alloc _ _ _ space [] 5000 0x100000 _ _ _ _); [|done|by vm_compute].
    apply client_init. by vm_compute.
  - done.
  - by vm_compute.
Defined.

(** A claim at page 14 runs into the claim at page 20; freeing page 12 of the claim of
    pages 10 to 13 leaves a claim of a huge number of pages. *)
Lemma va_gen_claims_faults_witness :
  (∃ g', va_gen_claim_internal 5 true true (claimed (claimed space 10 4) 20 5) 14 8 = Some (0, g') ∧
     claims_are g' [(10, 12); (20, 5)]) ∧
  (∃ g' kept, va_gen_free_claim 5 true true (claimed space 10 4) 12 1 = Some g' ∧
     claims_are g' [(10, 2); (13, kept)] ∧ kept ≠ 1).
Proof.
  destruct claims_rep as [[H1 H2] H3]. split.
  - assert (room (allocator (claimed (claimed space 10 4) 20 5))) as Hroom by by vm_compute.
    destruct (va_gen_claims_faults (claimed (claimed space 10 4) 20 5) [(0, 16)] 10 4 20 5 0 8 5
      Hroom ltac:(lia)) as [Hc _].
    destruct (Hc H3 ltac:(lia) ltac:(lia)) as (g' & E & Hc' & _). exists g'. by split.
  - destruct (va_gen_claims_faults (claimed space 10 4) [(0, 16)] 10 4 0 0 12 1 5 H2 ltac:(lia)) as [_ Hc].
    destruct (Hc H1 ltac:(lia) ltac:(lia) ltac:(lia)) as (g' & kept & E & Hc' & Hk).
    exists g', kept. split; [done|]. split; [done|]. intros Hk1. apply Hk in Hk1. done.
Defined.

(** An aligned allocation is not aligned: four pages asked for on a four-page boundary
    are given at page 1. *)
Example alloc_aligned_unaligned :
  match va_gen_alloc_internal 5 space 1 with
  | Some (_, g) => option_map fst (va_gen_alloc_aligned 5 true true g 4 4)
  | None => None
  end = Some 1.
Proof. by vm_compute. Qed.

End VaGen.
