(* ===== verification/AddrTable.v ===== *)
(** * Tables that translate addresses

    What the address look-up table of [mpss4/mpss-modules/mic/mic_x200/mic_alut.c]
    (file Alut) and the system memory page table of
    [mpss3/mpss-modules/micscif/micscif_smpt.c] (file Smpt) share: a table of entries,
    each translating [sz] bytes of the card's addresses to bus addresses, with a
    reference count per entry and a copy in hardware registers.  A request first looks
    for entries that translate its addresses already and then for a run of entries
    nobody refers to.  The invariant [table_inv] says that the table translates every
    mapping that is held, for any number of mappings that share entries. *)
From S2P Require Import Prelude.
Local Open Scope Z_scope.

Module AddrTable.

Record entry := Entry { dma_addr : Z; ref_count : Z }.

(** What the hardware registers behind a table of [size] entries promise: each entry
    keeps the address written last. *)
Class AddrRegs (sz : Z) (size : nat) (H : Type) := {
  hw_set : H → Z → Z → H;
  hw_get : H → Z → Z;
  hw_same h i a : 0 <= i < Z.of_nat size → 0 <= a < 2 ^ 64 → a mod sz = 0 → hw_get (hw_set h i a) i = a;
  hw_other h i j a : 0 <= i < Z.of_nat size → 0 <= j < Z.of_nat size → i ≠ j →
    hw_get (hw_set h i a) j = hw_get h j;
}.

(** The entries and the hardware registers behind them. *)
Record table (H : Type) := Table { entries : list entry; regs : H }.
Arguments Table {H}.
Arguments entries {H}.
Arguments regs {H}.

Lemma zlen_replicate {A} n (x : A) : 0 <= n → zlen (replicate (Z.to_nat n) x) = n.
Proof. intros. unfold zlen. rewrite length_replicate. lia. Qed.

(** How the first loop of the search ends. *)
Inductive scan := Found (i : Z) | Stop | Fall.

Section Code.
Context (sz : Z) {size : nat} {H : Type} `{HW : AddrRegs sz size H}.

(** The search for [n] entries that hold [addr], [addr + sz], ..., from index [i] on,
    with [ae] of them behind. *)
Fixpoint find_existing (l : list entry) (n addr ae i : Z) : scan :=
  match l with
  | [] => Fall
  | e :: l =>
      if dma_addr e =? addr then
        if ae + 1 =? n then Found i else find_existing l n (u64 (addr + sz)) (ae + 1) (i + 1)
      else if negb (ae =? 0) then Stop
      else if ae =? n then Found i
      else find_existing l n addr ae (i + 1)
  end.

(** The search for a run of [n] entries without references. *)
Fixpoint find_free (l : list entry) (n ae i : Z) : option Z :=
  match l with
  | [] => None
  | e :: l =>
      let ae := if ref_count e =? 0 then ae + 1 else 0 in
      if ae =? n then Some i else find_free l n ae (i + 1)
  end.

(** Both loops: the index of the last entry taken. *)
Definition search (first_free : nat) (l : list entry) (n addr : Z) : option Z :=
  match find_existing l n addr 0 0 with
  | Found i => Some i
  | Stop => None
  | Fall => find_free (drop first_free l) n 0 (Z.of_nat first_free)
  end.

(** Entry [i] for [addr], with [r] more references. *)
Definition add_entry (t : table H) (i addr r : Z) : table H :=
  match entries t !! Z.to_nat i with
  | None => t
  | Some e =>
      let fresh := (ref_count e =? 0) && negb (dma_addr e =? addr) in
      Table (<[Z.to_nat i := Entry (if fresh then addr else dma_addr e) (ref_count e + r)]> (entries t))
        (if fresh then hw_set (regs t) i addr else regs t)
  end.

Fixpoint add_entries (t : table H) (i addr : Z) (refs : list Z) : table H :=
  match refs with
  | [] => t
  | r :: refs => add_entries (add_entry t i addr r) (i + 1) (u64 (addr + sz)) refs
  end.

(** References given back. *)
Definition sub_entry (l : list entry) (i r : Z) : list entry :=
  alter (λ e, Entry (dma_addr e) (ref_count e - r)) (Z.to_nat i) l.

Fixpoint sub_entries (l : list entry) (i : Z) (refs : list Z) : list entry :=
  match refs with
  | [] => l
  | r :: refs => sub_entries (sub_entry l i r) (i + 1) refs
  end.

(** What holds of every address and of the addresses that follow stays so. *)
Lemma add_entries_addr (P : Z → Prop) refs : (∀ a, P a → P (u64 (a + sz))) → ∀ t i addr, P addr →
  Forall (λ e, P (dma_addr e)) (entries t) → Forall (λ e, P (dma_addr e)) (entries (add_entries t i addr refs)).
Proof.
  intros Hnext. induction refs as [|r refs IH]; intros t i addr Ha Ht; cbn [add_entries]; [done|].
  apply IH; [by apply Hnext|]. unfold add_entry. destruct (entries t !! Z.to_nat i) as [e|] eqn:E; [|done].
  cbn [entries]. apply Forall_insert; [done|]. cbn. rewrite Forall_lookup in Ht. specialize (Ht _ _ E).
  by destruct (_ && _).
Qed.

Lemma sub_entries_addr (P : Z → Prop) refs : ∀ l i,
  Forall (λ e, P (dma_addr e)) l → Forall (λ e, P (dma_addr e)) (sub_entries l i refs).
Proof.
  induction refs as [|r refs IH]; intros l i Hl; cbn [sub_entries]; [done|]. apply IH.
  apply Forall_alter; [done|]. intros e He Hp. exact Hp.
Qed.

End Code.

(** The entries whose reference count is not the one at the start, as reported when a
    table is taken down. *)
Fixpoint warned (base : Z → Z) (l : list entry) (i : Z) : list Z :=
  match l with
  | [] => []
  | e :: l => if ref_count e =? base i then warned base l (i + 1) else i :: warned base l (i + 1)
  end.

Lemma warned_none base l i : (∀ k e, l !! k = Some e → ref_count e = base (i + Z.of_nat k)) → warned base l i = [].
Proof.
  revert i. induction l as [|e l IH]; intros i Hl; cbn [warned]; [done|].
  rewrite (Hl 0%nat e eq_refl), Z.add_0_r, Z.eqb_refl. apply IH. intros k e' He'.
  rewrite (Hl (S k) e' He'). f_equal. lia.
Qed.

(** ** Mappings *)

(** A mapping held: entries from [m_spt] on, for the addresses from [m_addr] on, with the
    references it took of each. *)
Record mapping := Mapping { m_spt : Z; m_addr : Z; m_refs : list Z }.

Definition held1 (m : mapping) (i : Z) : Z :=
  if i <? m_spt m then 0 else default 0 (m_refs m !! Z.to_nat (i - m_spt m)).
Definition held (ms : list mapping) (i : Z) : Z := foldr (λ m s, held1 m i + s) 0 ms.

Section Inv.
Context (sz : Z) (size : nat) {H : Type} `{HW : AddrRegs sz size H}.
(** The references that are not a mapping's. *)
Variable base : Z → Z.

(** The table translates the addresses of [m]. *)
Definition translates (l : list entry) (m : mapping) : Prop :=
  0 <= m_spt m ∧ m_spt m + zlen (m_refs m) <= Z.of_nat size ∧ 0 < zlen (m_refs m) ∧
  Forall (λ r, 0 < r) (m_refs m) ∧
  ∀ k, 0 <= k < zlen (m_refs m) →
    ∃ e, l !! Z.to_nat (m_spt m + k) = Some e ∧ dma_addr e = m_addr m + k * sz.

Record table_inv (t : table H) (ms : list mapping) : Prop := {
  ti_size : length (entries t) = size;
  ti_regs : ∀ i e, entries t !! i = Some e → hw_get (regs t) (Z.of_nat i) = dma_addr e;
  ti_refs : ∀ i e, entries t !! i = Some e → ref_count e = base (Z.of_nat i) + held ms (Z.of_nat i);
  ti_maps : Forall (translates (entries t)) ms;
}.

Hypothesis sz_pos : 0 < sz.
Hypothesis base_nonneg : ∀ i, 0 <= base i.

Lemma held1_nonneg m i : Forall (λ r, 0 < r) (m_refs m) → 0 <= held1 m i.
Proof.
  intros Hr. unfold held1. destruct (Z.ltb_spec i (m_spt m)); [lia|].
  destruct (m_refs m !! _) as [r|] eqn:E; cbn; [|lia].
  rewrite Forall_lookup in Hr. specialize (Hr _ _ E). lia.
Qed.

Lemma held_refs_nonneg l ms i : Forall (translates l) ms → 0 <= held ms i.
Proof.
  induction 1 as [|m ms Hm Hms IH]; cbn; [lia|].
  pose proof (held1_nonneg m i ltac:(apply Hm)). unfold held in IH. lia.
Qed.

Lemma held1_covered m i : Forall (λ r, 0 < r) (m_refs m) →
  m_spt m <= i < m_spt m + zlen (m_refs m) → 0 < held1 m i.
Proof.
  intros Hr Hi. unfold held1. destruct (Z.ltb_spec i (m_spt m)); [lia|].
  destruct (lookup_lt_is_Some_2 (m_refs m) (Z.to_nat (i - m_spt m))) as [r E]; [unfold zlen in Hi; lia|].
  rewrite E. cbn. rewrite Forall_lookup in Hr. by apply (Hr _ _ E).
Qed.

Lemma held_covered l ms m i : Forall (translates l) ms → m ∈ ms →
  m_spt m <= i < m_spt m + zlen (m_refs m) → 0 < held ms i.
Proof.
  intros Hms Hin Hi. induction Hms as [|m' ms Hm Hms IH]; [by apply elem_of_nil in Hin|].
  cbn. pose proof (held1_nonneg m' i ltac:(apply Hm)).
  apply elem_of_cons in Hin as [-> |Hin].
  - pose proof (held1_covered m' i ltac:(apply Hm) Hi). pose proof (held_refs_nonneg l ms i Hms).
    unfold held in *. lia.
  - specialize (IH Hin). unfold held in *. lia.
Qed.

Lemma held_app ms1 ms2 i : held (ms1 ++ ms2) i = held ms1 i + held ms2 i.
Proof. induction ms1 as [|m ms1 IH]; cbn; [done|]. unfold held in *. lia. Qed.

(** ** Searching *)

(** The entries a successful search gives can take the mapping. *)
Definition can_take (l : list entry) (spt n addr : Z) : Prop :=
  ∀ k, 0 <= k < n → ∃ e, l !! Z.to_nat (spt + k) = Some e ∧
    (ref_count e = 0 ∨ dma_addr e = addr + k * sz).

Lemma find_existing_spec l n : ∀ pre addr ae,
  0 <= ae <= zlen pre → (0 < n → ae < n) → 0 <= addr - ae * sz → addr - ae * sz + n * sz < 2 ^ 64 →
  (∀ k, 0 <= k < ae → ∃ e, pre !! Z.to_nat (zlen pre - ae + k) = Some e ∧ dma_addr e = addr - (ae - k) * sz) →
  ∀ i, find_existing sz l n addr ae (zlen pre) = Found i → 0 < n →
  n - 1 <= i < zlen (pre ++ l) ∧
  ∀ k, 0 <= k < n → ∃ e, (pre ++ l) !! Z.to_nat (i - n + 1 + k) = Some e ∧ dma_addr e = (addr - ae * sz) + k * sz.
Proof.
  induction l as [|e l IH]; intros pre addr ae Hae Hn Hlo Hhi Hpre i; cbn [find_existing]; [done|].
  assert (zlen (pre ++ e :: l) = zlen pre + 1 + zlen l) as Hlen.
  { rewrite zlen_app. unfold zlen. cbn. lia. }
  assert (zlen (pre ++ [e]) = zlen pre + 1) as Hlen1 by (rewrite zlen_app; unfold zlen; cbn; lia).
  pose proof (zlen_nonneg pre). pose proof (zlen_nonneg l).
  destruct (Z.eqb_spec (dma_addr e) addr) as [E|E].
  - assert (∀ k, 0 <= k < ae + 1 → ∃ e', (pre ++ [e]) !! Z.to_nat (zlen (pre ++ [e]) - (ae + 1) + k) = Some e' ∧
      dma_addr e' = addr + sz - (ae + 1 - k) * sz) as Hpre'.
    { intros k Hk. rewrite Hlen1. destruct (Z.eq_dec k ae) as [-> |Hne].
      - exists e. split; [|lia]. rewrite lookup_app_r by (unfold zlen; lia).
        by replace (Z.to_nat _ - length pre)%nat with 0%nat by (unfold zlen; lia).
      - destruct (Hpre k ltac:(lia)) as (e' & He' & Ha). exists e'. split; [|lia].
        rewrite lookup_app_l by (unfold zlen in *; lia). rewrite <- He'. f_equal. lia. }
    destruct (Z.eqb_spec (ae + 1) n) as [<- |En].
    + intros [= <-] Hpos. split; [lia|]. intros k Hk.
      destruct (Hpre' k Hk) as (e' & He' & Ha). exists e'. split; [|lia].
      replace (pre ++ e :: l) with ((pre ++ [e]) ++ l) by (by rewrite <- app_assoc).
      rewrite lookup_app_l by (apply lookup_lt_Some in He'; done || (eapply Nat.le_lt_trans; [|exact He']; lia)).
      rewrite <- He'. f_equal. lia.
    + intros Hf Hpos. rewrite <- Hlen1 in Hf.
      rewrite (wrap_small 64 (addr + sz)) in Hf by (unfold in_width; nia).
      destruct (IH (pre ++ [e]) (addr + sz) (ae + 1) ltac:(lia) ltac:(lia) ltac:(lia) ltac:(lia) Hpre' i Hf Hpos) as [Hi Hk].
      rewrite <- app_assoc in Hi, Hk. cbn [app] in Hi, Hk. split; [done|]. intros k Hk'.
      destruct (Hk k Hk') as (e' & He' & Ha). exists e'. split; [done|]. lia.
  - destruct (Z.eqb_spec ae 0) as [-> |]; cbn [negb]; [|done].
    destruct (Z.eqb_spec 0 n) as [<- |]; [lia|]. intros Hf Hpos. rewrite <- Hlen1 in Hf.
    destruct (IH (pre ++ [e]) addr 0 ltac:(lia) ltac:(lia) ltac:(lia) ltac:(lia) ltac:(lia) i Hf Hpos) as [Hi Hk].
    rewrite <- app_assoc in Hi, Hk. done.
Qed.

(** A run of [n] entries without references. *)
Definition free_run (l : list entry) (spt n : Z) : Prop :=
  ∀ k, 0 <= k < n → ∃ e, l !! Z.to_nat (spt + k) = Some e ∧ ref_count e = 0.

Lemma free_run_snoc l e ae : 0 <= ae <= zlen l → free_run l (zlen l - ae) ae → ref_count e = 0 →
  free_run (l ++ [e]) (zlen l - ae) (ae + 1).
Proof.
  intros Hae Hrun He k Hk. destruct (Z.eq_dec k ae) as [-> |Hne].
  - exists e. split; [|done]. rewrite lookup_app_r by (unfold zlen; lia).
    by replace (Z.to_nat _ - length l)%nat with 0%nat by (unfold zlen; lia).
  - destruct (Hrun k ltac:(lia)) as (e' & He' & Hr). exists e'. split; [|done].
    by apply lookup_app_l_Some.
Qed.

Lemma free_run_app l l' spt n : free_run l spt n → free_run (l ++ l') spt n.
Proof. intros Hrun k Hk. destruct (Hrun k Hk) as (e & He & Hr). exists e. split; [by apply lookup_app_l_Some|done]. Qed.

Lemma find_free_sound l n : ∀ pre ae, 0 <= ae <= zlen pre → ae < n →
  free_run pre (zlen pre - ae) ae → ∀ i, find_free l n ae (zlen pre) = Some i →
  n - 1 <= i < zlen (pre ++ l) ∧ free_run (pre ++ l) (i - n + 1) n.
Proof.
  induction l as [|e l IH]; intros pre ae Hae Hn Hrun i; cbn [find_free]; [done|].
  assert (zlen (pre ++ [e]) = zlen pre + 1) as Hlen1 by (rewrite zlen_app; unfold zlen; cbn; lia).
  replace (pre ++ e :: l) with ((pre ++ [e]) ++ l) by (by rewrite <- app_assoc).
  pose proof (zlen_nonneg l). pose proof (zlen_nonneg pre). rewrite (zlen_app (pre ++ [e])).
  destruct (Z.eqb_spec (ref_count e) 0) as [E|E].
  - pose proof (free_run_snoc pre e ae Hae Hrun E) as Hrun'.
    destruct (Z.eqb_spec (ae + 1) n) as [<- |En].
    + intros [= <-]. split; [lia|]. apply free_run_app.
      by replace (zlen pre - (ae + 1) + 1) with (zlen pre - ae) by lia.
    + rewrite <- Hlen1, <- zlen_app. apply IH; [lia|lia|].
      by replace (zlen (pre ++ [e]) - (ae + 1)) with (zlen pre - ae) by lia.
  - destruct (Z.eqb_spec 0 n); [lia|]. rewrite <- Hlen1, <- zlen_app.
    apply IH; [lia|lia|]. intros k Hk. lia.
Qed.

(** [ae] is the length of the run of free entries that ends before index [zlen pre]. *)
Lemma find_free_complete l n : ∀ pre ae, 0 <= ae <= zlen pre → ae < n →
  (ae = zlen pre ∨ ∃ e, pre !! Z.to_nat (zlen pre - ae - 1) = Some e ∧ ref_count e ≠ 0) →
  find_free l n ae (zlen pre) = None →
  ∀ spt, 0 <= spt → zlen pre < spt + n <= zlen (pre ++ l) → ¬ free_run (pre ++ l) spt n.
Proof.
  induction l as [|e l IH]; intros pre ae Hae Hn Hmax; cbn [find_free].
  { intros _ spt _. rewrite app_nil_r. lia. }
  assert (zlen (pre ++ [e]) = zlen pre + 1) as Hlen1 by (rewrite zlen_app; unfold zlen; cbn; lia).
  replace (pre ++ e :: l) with ((pre ++ [e]) ++ l) by (by rewrite <- app_assoc).
  pose proof (zlen_nonneg l). pose proof (zlen_nonneg pre).
  assert (((pre ++ [e]) ++ l) !! Z.to_nat (zlen pre) = Some e) as He.
  { rewrite <- app_assoc, lookup_app_r by (unfold zlen; lia).
    by replace (Z.to_nat _ - length pre)%nat with 0%nat by (unfold zlen; lia). }
  intros Hf spt Hspt Hrange Hrun.
  set (ae' := if ref_count e =? 0 then ae + 1 else 0) in *.
  assert (spt + n = zlen pre + 1 → ref_count e = 0 ∧ n - 1 <= ae) as Hend.
  { intros Eend. split.
    - destruct (Hrun (n - 1) ltac:(lia)) as (e' & He' & Hr).
      replace (spt + (n - 1)) with (zlen pre) in He' by lia. congruence.
    - destruct Hmax as [-> |(e' & He' & Hr)]; [lia|]. destruct (Z_le_gt_dec (n - 1) ae); [done|].
      destruct (Hrun (zlen pre - ae - 1 - spt) ltac:(lia)) as (e'' & He'' & Hr'').
      replace (spt + (zlen pre - ae - 1 - spt)) with (zlen pre - ae - 1) in He'' by lia.
      rewrite <- app_assoc, lookup_app_l in He'' by (apply lookup_lt_Some in He'; done). congruence. }
  destruct (Z.eqb_spec ae' n) as [?|En]; [done|].
  destruct (Z.eq_dec (spt + n) (zlen pre + 1)) as [Eend|Hne].
  { destruct (Hend Eend) as [Hr Hle]. apply En. unfold ae'. rewrite Hr. cbn. lia. }
  rewrite <- Hlen1 in Hf. revert Hrun. eapply (IH (pre ++ [e]) ae'); try done; try lia.
  - unfold ae'. destruct (ref_count e =? 0); lia.
  - unfold ae' in *. destruct (ref_count e =? 0); lia.
  - unfold ae'. destruct (Z.eqb_spec (ref_count e) 0) as [E|E].
    + destruct Hmax as [-> |(e' & He' & Hr)]; [left; lia|right]. exists e'. split; [|done].
      replace (zlen (pre ++ [e]) - (ae + 1) - 1) with (zlen pre - ae - 1) by lia.
      by apply lookup_app_l_Some.
    + right. exists e. split; [|done]. rewrite lookup_app_r by (unfold zlen in *; lia).
      by replace (Z.to_nat _ - length pre)%nat with 0%nat by (unfold zlen in *; lia).
Qed.

Lemma find_free_shift l n d : ∀ ae i, find_free l n ae (i + d) = (λ j, j + d) <$> find_free l n ae i.
Proof.
  induction l as [|e l IH]; intros ae i; cbn [find_free]; [done|].
  destruct (_ =? n); [done|]. rewrite <- IH. f_equal. lia.
Qed.

Lemma search_sound ff l n addr i : (ff <= length l)%nat → 0 < n → 0 <= addr → addr + n * sz < 2 ^ 64 →
  search sz ff l n addr = Some i → n - 1 <= i < zlen l ∧ can_take l (i - n + 1) n addr.
Proof.
  intros Hff Hn Ha Hb. unfold search. destruct (find_existing sz l n addr 0 0) as [j| |] eqn:E; [|done|].
  - intros [= <-]. change 0 with (zlen (@nil entry)) in E at 2.
    destruct (find_existing_spec l n [] addr 0 ltac:(done) ltac:(lia) ltac:(lia) ltac:(lia) ltac:(lia) j E Hn) as [Hj Hk].
    split; [done|]. intros k Hkn. destruct (Hk k Hkn) as (e & He & Hd). exists e. split; [done|]. right. lia.
  - intros Hf. assert (zlen (take ff l) = Z.of_nat ff) as Hlen by (unfold zlen; rewrite length_take; lia).
    rewrite <- Hlen in Hf.
    destruct (find_free_sound (drop ff l) n (take ff l) 0 ltac:(lia) Hn ltac:(intros k; lia) i Hf) as [Hi Hrun].
    rewrite take_drop in Hi, Hrun. split; [done|]. intros k Hk. destruct (Hrun k Hk) as (e & He & Hr).
    exists e. auto.
Qed.

(** Part of the range is translated already, by entries the next one does not continue. *)
Definition partly_mapped (l : list entry) (n addr : Z) : Prop :=
  ∃ j k e, 0 <= j ∧ 0 < k < n ∧ l !! Z.to_nat (j + k - 1) = Some e ∧
    dma_addr e = addr + (k - 1) * sz ∧
    ∃ e', l !! Z.to_nat (j + k) = Some e' ∧ dma_addr e' ≠ addr + k * sz.

Lemma find_existing_stop l n : ∀ pre addr ae, 0 <= ae <= zlen pre → ae < n → 0 <= addr - ae * sz →
  addr - ae * sz + n * sz < 2 ^ 64 →
  (0 < ae → ∃ e, pre !! Z.to_nat (zlen pre - 1) = Some e ∧ dma_addr e = addr - sz) →
  find_existing sz l n addr ae (zlen pre) = Stop → partly_mapped (pre ++ l) n (addr - ae * sz).
Proof.
  induction l as [|e l IH]; intros pre addr ae Hae Hn Hlo Hhi Hpre; cbn [find_existing]; [done|].
  assert (zlen (pre ++ [e]) = zlen pre + 1) as Hlen1 by (rewrite zlen_app; unfold zlen; cbn; lia).
  pose proof (zlen_nonneg pre).
  assert ((pre ++ [e]) !! Z.to_nat (zlen pre) = Some e) as He.
  { rewrite lookup_app_r by (unfold zlen; lia).
    by replace (Z.to_nat _ - length pre)%nat with 0%nat by (unfold zlen; lia). }
  destruct (Z.eqb_spec (dma_addr e) addr) as [E|E].
  - destruct (Z.eqb_spec (ae + 1) n) as [?|En]; [done|].
    rewrite (wrap_small 64 (addr + sz)) by (unfold in_width; nia). rewrite <- Hlen1. intros Hf.
    replace (pre ++ e :: l) with ((pre ++ [e]) ++ l) by (by rewrite <- app_assoc).
    replace (addr - ae * sz) with (addr + sz - (ae + 1) * sz) by lia.
    apply IH; try done; try lia. intros _. exists e. split; [|lia].
    by replace (zlen (pre ++ [e]) - 1) with (zlen pre) by lia.
  - destruct (Z.eqb_spec ae 0) as [-> |Hne]; cbn [negb].
    + destruct (Z.eqb_spec 0 n); [lia|]. rewrite <- Hlen1. intros Hf.
      replace (pre ++ e :: l) with ((pre ++ [e]) ++ l) by (by rewrite <- app_assoc).
      apply IH; try done; lia.
    + intros _. destruct (Hpre ltac:(lia)) as (e0 & He0 & Hd).
      exists (zlen pre - ae), ae, e0. split_and!; try lia.
      * replace (zlen pre - ae + ae - 1) with (zlen pre - 1) by lia. by apply lookup_app_l_Some.
      * exists e. replace (zlen pre - ae + ae) with (zlen pre) by lia. split; [|lia].
        replace (pre ++ e :: l) with ((pre ++ [e]) ++ l) by (by rewrite <- app_assoc).
        by apply lookup_app_l_Some.
Qed.

Lemma search_none ff l n addr : (ff <= length l)%nat → 0 < n → 0 <= addr → addr + n * sz < 2 ^ 64 →
  search sz ff l n addr = None →
  partly_mapped l n addr ∨ ∀ spt, 0 <= spt → spt + n <= zlen (drop ff l) → ¬ free_run (drop ff l) spt n.
Proof.
  intros Hff Hn Ha Hb. unfold search. destruct (find_existing sz l n addr 0 0) as [j| |] eqn:E; [done| |].
  - intros _. left. change 0 with (zlen (@nil entry)) in E at 2.
    apply (find_existing_stop l n [] addr 0) in E; try done; try lia. by rewrite Z.sub_0_r in E.
  - intros Hf. right. intros spt Hspt Hlen. change (Z.of_nat ff) with (0 + Z.of_nat ff) in Hf.
    rewrite find_free_shift in Hf. apply fmap_None in Hf. change 0 with (zlen (@nil entry)) in Hf at 2.
    eapply (find_free_complete (drop ff l) n [] 0 ltac:(done) Hn ltac:(by left) Hf spt Hspt).
    change (zlen []) with 0. cbn. lia.
Qed.

(** ** Taking and giving back *)

(** The entry [e] at index [j] after [m] has been taken. *)
Definition taken (m : mapping) (j : nat) (e e' : entry) : Prop :=
  ref_count e' = ref_count e + held1 m (Z.of_nat j) ∧
  dma_addr e' = if (m_spt m <=? Z.of_nat j) && (Z.of_nat j <? m_spt m + zlen (m_refs m))
                then m_addr m + (Z.of_nat j - m_spt m) * sz else dma_addr e.

Lemma held1_nil i a j : held1 (Mapping i a []) j = 0.
Proof. unfold held1. cbn. by destruct (j <? i). Qed.

Lemma held1_cons i a r refs j : 0 <= j → 0 <= i →
  held1 (Mapping i a (r :: refs)) j = (if j =? i then r else 0) + held1 (Mapping (i + 1) (u64 (a + sz)) refs) j.
Proof.
  intros Hj Hi. unfold held1. cbn [m_spt m_refs].
  destruct (Z.ltb_spec j i), (Z.eqb_spec j i), (Z.ltb_spec j (i + 1)); try lia.
  - subst. by rewrite Z.sub_diag, Z.add_0_r.
  - by replace (Z.to_nat (j - i)) with (S (Z.to_nat (j - (i + 1)))) by lia.
Qed.

(** The registers hold what the entries say. *)
Definition regs_ok (t : table H) : Prop :=
  ∀ i e, entries t !! i = Some e → hw_get (regs t) (Z.of_nat i) = dma_addr e.

Lemma add_entry_spec t i addr r : length (entries t) = size → regs_ok t → 0 <= i < zlen (entries t) →
  0 <= addr < 2 ^ 64 → addr mod sz = 0 → can_take (entries t) i 1 addr →
  let t' := add_entry sz t i addr r in
  length (entries t') = length (entries t) ∧ regs_ok t' ∧
  (∀ j : nat, Z.of_nat j ≠ i → entries t' !! j = entries t !! j) ∧
  ∃ e, entries t !! Z.to_nat i = Some e ∧ entries t' !! Z.to_nat i = Some (Entry addr (ref_count e + r)).
Proof.
  intros Hs Hregs Hi Ha Hm Hcan. destruct (Hcan 0 ltac:(lia)) as (e & He & Hor). rewrite Z.add_0_r in He.
  unfold add_entry. rewrite He. cbn. unfold zlen in Hi. split_and!.
  - by rewrite length_insert.
  - intros j e' He'. cbn in *. pose proof (lookup_lt_Some _ _ _ He') as Hj. rewrite length_insert in Hj.
    destruct (decide (j = Z.to_nat i)) as [-> |Hne].
    + rewrite list_lookup_insert_eq in He' by done. injection He' as <-. cbn. rewrite Z2Nat.id by lia.
      destruct ((ref_count e =? 0) && negb (dma_addr e =? addr)).
      * apply hw_same; [lia|done|done].
      * rewrite <- (Hregs _ _ He). by rewrite Z2Nat.id by lia.
    + rewrite list_lookup_insert_ne in He' by done. rewrite <- (Hregs _ _ He').
      destruct ((ref_count e =? 0) && negb (dma_addr e =? addr)); [|done]. apply hw_other; lia.
  - intros j Hj. apply list_lookup_insert_ne. lia.
  - exists e. split; [done|]. rewrite list_lookup_insert_eq by (apply lookup_lt_Some in He; done).
    do 2 f_equal. destruct (Z.eqb_spec (ref_count e) 0), (Z.eqb_spec (dma_addr e) addr); cbn; try done; lia.
Qed.

Lemma add_entries_spec refs : ∀ t i addr, length (entries t) = size → regs_ok t → 0 <= i →
  i + zlen refs <= zlen (entries t) → 0 <= addr → (zlen refs ≠ 0 → addr mod sz = 0) → addr + zlen refs * sz < 2 ^ 64 →
  can_take (entries t) i (zlen refs) addr →
  let t' := add_entries sz t i addr refs in
  length (entries t') = length (entries t) ∧ regs_ok t' ∧
  ∀ j e, entries t !! j = Some e → ∃ e', entries t' !! j = Some e' ∧ taken (Mapping i addr refs) j e e'.
Proof.
  induction refs as [|r refs IH]; intros t i addr Hs Hregs Hi Hlen Ha Hm Hb Hcan; cbn [add_entries].
  { split_and!; [done|done|]. intros j e He. exists e. split; [done|]. unfold taken. rewrite held1_nil. cbn.
    split; [lia|]. change (zlen []) with 0. destruct (Z.leb_spec i (Z.of_nat j)), (Z.ltb_spec (Z.of_nat j) (i + 0)); cbn; done || lia. }
  assert (zlen (r :: refs) = zlen refs + 1) as Hl by (unfold zlen; cbn; lia).
  pose proof (zlen_nonneg refs). rewrite Hl in *.
  destruct (add_entry_spec t i addr r Hs Hregs ltac:(lia) ltac:(nia) ltac:(apply Hm; lia))
    as (L1 & R1 & N1 & e0 & He0 & He0').
  { intros k Hk. apply Hcan. lia. }
  assert (refs = [] ∨ u64 (addr + sz) = addr + sz) as Hw.
  { destruct refs; [by left|right]. apply wrap_small. unfold in_width. assert (1 <= zlen (z :: refs)) by (unfold zlen; cbn; lia). nia. }
  assert (0 <= u64 (addr + sz)) as Hnn by (apply wrap_range; lia).
  assert (u64 (addr + sz) + zlen refs * sz < 2 ^ 64) as Hb'.
  { destruct Hw as [-> | ->]; [|lia]. change (zlen []) with 0. pose proof (wrap_range 64 (addr + sz) ltac:(lia)) as [_ ?]. lia. }
  destruct (IH (add_entry sz t i addr r) (i + 1) (u64 (addr + sz)) ltac:(etransitivity; [exact L1|exact Hs]) R1) as (L2 & R2 & T2); try done; try lia.
  { unfold zlen in *. rewrite L1. lia. }
  { intros Hne. destruct Hw as [-> | ->]; [done|]. rewrite <- (Z.mul_1_l sz) at 1. rewrite Z.mod_add by lia. apply Hm. lia. }
  { intros k Hk. destruct (Hcan (k + 1) ltac:(lia)) as (e & He & Hor). exists e.
    rewrite N1 by lia. replace (i + 1 + k) with (i + (k + 1)) by lia. split; [done|].
    destruct Hw as [-> | ->]; [change (zlen []) with 0 in Hk; lia|]. destruct Hor; [by left|right; lia]. }
  split_and!; [congruence|done|]. intros j e He.
  assert (zlen refs = 0 ∨ u64 (addr + sz) = addr + sz) as Hw' by (destruct Hw as [-> |]; auto).
  destruct (Z.eq_dec (Z.of_nat j) i) as [Ej|Hne].
  - replace j with (Z.to_nat i) in * by lia. destruct (T2 _ _ He0') as (e' & He' & Hr & Hd).
    exists e'. split; [done|]. rewrite He0 in He. injection He as ->. unfold taken. cbn [m_spt m_refs m_addr] in *.
    rewrite held1_cons, Hr, Hd by lia. rewrite Z2Nat.id, Z.eqb_refl, Hl in * by lia. cbn [ref_count dma_addr].
    split; [lia|]. destruct (Z.leb_spec (i + 1) i); [lia|]. cbn [andb].
    destruct (Z.leb_spec i i), (Z.ltb_spec i (i + (zlen refs + 1))); cbn; lia.
  - rewrite <- N1 in He by done. destruct (T2 _ _ He) as (e' & He' & Hr & Hd). exists e'. split; [done|].
    unfold taken. cbn [m_spt m_refs m_addr] in *. rewrite held1_cons, Hr, Hd, Hl by lia.
    destruct (Z.eqb_spec (Z.of_nat j) i); [done|]. split; [lia|].
    destruct (Z.leb_spec (i + 1) (Z.of_nat j)), (Z.leb_spec i (Z.of_nat j)),
      (Z.ltb_spec (Z.of_nat j) (i + 1 + zlen refs)), (Z.ltb_spec (Z.of_nat j) (i + (zlen refs + 1))); cbn; try done; lia.
Qed.

Lemma sub_entries_spec refs : ∀ l i, 0 <= i →
  length (sub_entries l i refs) = length l ∧
  ∀ j e, l !! j = Some e → sub_entries l i refs !! j =
    Some (Entry (dma_addr e) (ref_count e - held1 (Mapping i 0 refs) (Z.of_nat j))).
Proof.
  induction refs as [|r refs IH]; intros l i Hi; cbn [sub_entries].
  { split; [done|]. intros j e He. rewrite He. f_equal. rewrite held1_nil.
    destruct e. cbn. f_equal. lia. }
  destruct (IH (sub_entry l i r) (i + 1) ltac:(lia)) as [IL IE]. unfold sub_entry in *.
  rewrite length_alter in IL. split; [done|]. intros j e He.
  rewrite held1_cons by lia. rewrite (IE j (if Z.of_nat j =? i then Entry (dma_addr e) (ref_count e - r) else e)).
  - unfold held1. cbn [m_spt m_refs]. destruct (Z.of_nat j =? i); cbn; do 2 f_equal; lia.
  - destruct (Z.eqb_spec (Z.of_nat j) i) as [Ej|Ej].
    + replace (Z.to_nat i) with j by lia. by rewrite list_lookup_alter_eq, He.
    + by rewrite list_lookup_alter_ne by lia.
Qed.

(** ** The invariant is kept *)

Lemma inv_lookup t ms i : table_inv t ms → 0 <= i < Z.of_nat size → ∃ e, entries t !! Z.to_nat i = Some e.
Proof. intros [Hs _ _ _] Hi. apply lookup_lt_is_Some_2. lia. Qed.

(** An entry a mapping covers is in use, so a new mapping keeps its address. *)
Lemma keeps_address t ms m' spt n addr k e : table_inv t ms → m' ∈ ms → can_take (entries t) spt n addr →
  0 <= k < zlen (m_refs m') → entries t !! Z.to_nat (m_spt m' + k) = Some e →
  0 <= m_spt m' → spt <= m_spt m' + k < spt + n → 0 <= spt →
  dma_addr e = addr + (m_spt m' + k - spt) * sz.
Proof.
  intros [Hs Hr Hrefs Hmaps] Hin Hcan Hk He H0 Hspt Hspt0.
  destruct (Hcan (m_spt m' + k - spt) ltac:(lia)) as (e' & He' & Hor).
  replace (spt + (m_spt m' + k - spt)) with (m_spt m' + k) in He' by lia.
  rewrite He in He'. injection He' as <-. destruct Hor as [Hz|Hd]; [|done].
  pose proof (Hrefs _ _ He) as Href. rewrite Z2Nat.id in Href by lia.
  pose proof (held_covered _ _ m' (m_spt m' + k) Hmaps Hin ltac:(lia)).
  pose proof (base_nonneg (m_spt m' + k)). lia.
Qed.

Lemma take_inv t ms ff refs addr i : table_inv t ms → (ff <= size)%nat → 0 < zlen refs →
  Forall (λ r, 0 < r) refs → 0 <= addr → addr mod sz = 0 → addr + zlen refs * sz < 2 ^ 64 →
  search sz ff (entries t) (zlen refs) addr = Some i →
  let m := Mapping (i - zlen refs + 1) addr refs in
  table_inv (add_entries sz t (m_spt m) addr refs) (m :: ms).
Proof.
  intros Hinv Hff Hn Hpos Ha Hm Hb Hsearch m. pose proof Hinv as [Hs Hr Hrefs Hmaps].
  destruct (search_sound ff (entries t) _ addr i ltac:(lia) Hn Ha Hb Hsearch) as [Hi Hcan].
  assert (zlen (entries t) = Z.of_nat size) as Hz by (unfold zlen; by rewrite Hs).
  destruct (add_entries_spec refs t (m_spt m) addr Hs Hr) as (L & R & T); try done; try (cbn [m m_spt]; lia).
  assert (∀ i e, entries (add_entries sz t (m_spt m) addr refs) !! i = Some e →
    ∃ e0, entries t !! i = Some e0 ∧ taken m i e0 e) as Hback.
  { intros j e He. destruct (entries t !! j) as [e0|] eqn:E0.
    - destruct (T _ _ E0) as (e' & He' & Ht). rewrite He in He'. injection He' as <-. eauto.
    - apply lookup_ge_None in E0. apply lookup_lt_Some in He. lia. }
  split; [congruence|done| |].
  - intros j e He. destruct (Hback j e He) as (e0 & He0 & Href & _). rewrite Href, (Hrefs _ _ He0).
    unfold held. cbn [foldr]. lia.
  - constructor.
    + unfold translates. cbn [m m_spt m_refs m_addr]. split_and!; try done; try lia. intros k Hk.
      destruct (inv_lookup t ms (i - zlen refs + 1 + k) Hinv ltac:(lia)) as (e & He).
      destruct (T _ _ He) as (e' & He' & _ & Hd). exists e'. split; [done|]. rewrite Hd. cbn [m m_spt m_refs m_addr].
      rewrite Z2Nat.id by lia. destruct (Z.leb_spec (i - zlen refs + 1) (i - zlen refs + 1 + k)); [|lia].
      destruct (Z.ltb_spec (i - zlen refs + 1 + k) (i - zlen refs + 1 + zlen refs)); [|lia]. cbn. lia.
    + apply Forall_forall. intros m' Hm'. rewrite Forall_forall in Hmaps.
      destruct (Hmaps _ Hm') as (H1 & H2 & H3 & H4 & H5). split_and!; try done. intros k Hk.
      destruct (H5 k Hk) as (e & He & Hd). destruct (T _ _ He) as (e' & He' & _ & Hd'). exists e'. split; [done|].
      rewrite Hd'. rewrite Z2Nat.id by lia. cbn [m_spt m_refs m_addr m] in *.
      destruct (Z.leb_spec (i - zlen refs + 1) (m_spt m' + k)),
        (Z.ltb_spec (m_spt m' + k) (i - zlen refs + 1 + zlen refs)); cbn [andb]; try done.
      rewrite <- Hd. symmetry. eapply keeps_address; eauto; lia.
Qed.

Lemma held1_addr i a a' refs j : held1 (Mapping i a refs) j = held1 (Mapping i a' refs) j.
Proof. done. Qed.

Lemma give_inv t ms1 m ms2 : table_inv t (ms1 ++ m :: ms2) →
  table_inv (Table (sub_entries (entries t) (m_spt m) (m_refs m)) (regs t)) (ms1 ++ ms2).
Proof.
  intros [Hs Hr Hrefs Hmaps]. apply Forall_app in Hmaps as [Hm1 Hm2]. apply Forall_cons in Hm2 as [Hm Hm2].
  destruct (sub_entries_spec (m_refs m) (entries t) (m_spt m) ltac:(apply Hm)) as [L T].
  assert (∀ j e', sub_entries (entries t) (m_spt m) (m_refs m) !! j = Some e' → ∃ e, entries t !! j = Some e ∧
    e' = Entry (dma_addr e) (ref_count e - held1 m (Z.of_nat j))) as Hback.
  { intros j e' He'. destruct (entries t !! j) as [e|] eqn:E.
    - exists e. split; [done|]. rewrite (T _ _ E) in He'. injection He' as <-. by destruct m.
    - apply lookup_ge_None in E. apply lookup_lt_Some in He'. lia. }
  split; cbn [entries regs].
  - congruence.
  - intros j e' He'. destruct (Hback j e' He') as (e & He & ->). cbn. by rewrite (Hr _ _ He).
  - intros j e' He'. destruct (Hback j e' He') as (e & He & ->). cbn. rewrite (Hrefs _ _ He), !held_app.
    unfold held. cbn [foldr]. lia.
  - apply Forall_app. split; (eapply Forall_impl; [eassumption|]); intros m' (H1 & H2 & H3 & H4 & H5);
      split_and!; try done; intros k Hk; destruct (H5 k Hk) as (e & He & Hd); eexists; by rewrite (T _ _ He).
Qed.

(** What the table gives for an address of a mapping. *)
Lemma inv_translate t ms m off : table_inv t ms → m ∈ ms → 0 <= off < zlen (m_refs m) * sz →
  ∃ e, entries t !! Z.to_nat ((m_spt m * sz + off) / sz) = Some e ∧
    hw_get (regs t) ((m_spt m * sz + off) / sz) = dma_addr e ∧
    dma_addr e + (m_spt m * sz + off) mod sz = m_addr m + off.
Proof.
  intros [Hs Hr Hrefs Hmaps] Hin Hoff. rewrite Forall_forall in Hmaps.
  destruct (Hmaps _ Hin) as (H1 & H2 & H3 & H4 & H5).
  rewrite Z.div_add_l by lia. replace (m_spt m * sz + off) with (off + m_spt m * sz) by lia.
  rewrite Z.mod_add by lia. pose proof (Z.div_mod off sz ltac:(lia)). pose proof (Z.mod_pos_bound off sz sz_pos).
  assert (0 <= off / sz < zlen (m_refs m)) as Hk.
  { split; [apply Z.div_pos; lia|]. apply Z.div_lt_upper_bound; lia. }
  destruct (H5 _ Hk) as (e & He & Hd). exists e. split; [done|]. split; [|lia].
  rewrite <- (Hr _ _ He). by rewrite Z2Nat.id by lia.
Qed.

(** With no mapping held, the counts are back at their base. *)
Lemma inv_quiet t i e : table_inv t [] → entries t !! i = Some e → ref_count e = base (Z.of_nat i).
Proof. intros [_ _ Hrefs _] He. rewrite (Hrefs _ _ He). cbn. lia. Qed.

End Inv.

End AddrTable.
