(* ===== verification/Alut.v ===== *)
(** * The address look-up table of the second generation

    Models [mpss4/mpss-modules/mic/mic_x200/mic_alut.c] and the two register routines
    [mic_alut_set] and [mic_alut_get] of [mic_hw.c]: 256 entries of 2 GB translate the
    addresses a card uses to bus addresses of the host.  The searches and the invariant
    come from file AddrTable; the registers are an instance of its interface. *)
From S2P Require Import Prelude AddrTable.
Local Open Scope Z_scope.

Module Alut.
Import AddrTable.

Definition ALUT_ENTRY_COUNT : nat := 256.
Definition ALUT_ENTRY_SIZE : Z := 2 ^ 31.
Definition MIC_ALUT_SIZE : Z := 256 * ALUT_ENTRY_SIZE.
Definition MIC_APER_SIZE : Z := 9 * ALUT_ENTRY_SIZE.
Definition ALUT_ARRAY_BASE : Z := 0x38000.
Definition ALUT_ARRAY_OFFSET : Z := 0x1000.
Definition ALUT_LOWER_REMAP_OFFSET : Z := 0.
Definition ALUT_UPPER_REMAP_OFFSET : Z := 0x400.
Definition ALUT_PERMISSIONS_OFFSET : Z := 0x800.

(** ** Registers: the mapped device memory, by offset *)

Notation mmio := (gmap Z Z).
Definition mic_mmio_read (m : mmio) (off : Z) : Z := default 0 (m !! off).
Definition mic_mmio_write (m : mmio) (v off : Z) : mmio := <[off := v]> m.

Definition alut_offset (index : Z) : Z :=
  (index mod 128) * 4 + (index / 128) * ALUT_ARRAY_OFFSET.

Definition mic_alut_set (m : mmio) (dma_addr index : Z) : mmio :=
  let lower_addr := u32 dma_addr in
  let upper_addr := u32 (Z.shiftr dma_addr 32) in
  let offset := alut_offset index in
  let m := mic_mmio_write m lower_addr (ALUT_ARRAY_BASE + ALUT_LOWER_REMAP_OFFSET + offset) in
  let m := mic_mmio_write m upper_addr (ALUT_ARRAY_BASE + ALUT_UPPER_REMAP_OFFSET + offset) in
  mic_mmio_write m (Z.lor 2 1) (ALUT_ARRAY_BASE + ALUT_PERMISSIONS_OFFSET + offset).

(** The address and the permissions. *)
Definition mic_alut_get (m : mmio) (index : Z) : Z * Z :=
  let offset := alut_offset index in
  let lower_addr := mic_mmio_read m (ALUT_ARRAY_BASE + ALUT_LOWER_REMAP_OFFSET + offset) in
  let upper_addr := mic_mmio_read m (ALUT_ARRAY_BASE + ALUT_UPPER_REMAP_OFFSET + offset) in
  (u64 (Z.shiftl upper_addr 32 + lower_addr),
   mic_mmio_read m (ALUT_ARRAY_BASE + ALUT_PERMISSIONS_OFFSET + offset)).

Lemma alut_get_set m a i : 0 <= a < 2 ^ 64 → mic_alut_get (mic_alut_set m a i) i = (a, 3).
Proof.
  intros Ha. unfold mic_alut_get, mic_alut_set, mic_mmio_read, mic_mmio_write,
    ALUT_LOWER_REMAP_OFFSET, ALUT_UPPER_REMAP_OFFSET, ALUT_PERMISSIONS_OFFSET.
  rewrite !lookup_insert. repeat case_decide; try lia. cbn [default]. f_equal.
  rewrite Z.shiftl_mul_pow2, Z.shiftr_div_pow2 by lia. unfold wrap. cbn [default from_option id].
  rewrite (Z.mod_small (a / 2 ^ 32)) by divlia. rewrite Z.mod_small; divlia.
Qed.

Lemma alut_get_set_other m a i j : 0 <= i < 256 → 0 <= j < 256 → i ≠ j →
  mic_alut_get (mic_alut_set m a i) j = mic_alut_get m j.
Proof.
  intros Hi Hj Hne.
  assert (0 <= alut_offset i ∧ alut_offset i mod 0x1000 <= 508 ∧ 0 <= alut_offset j ∧
    alut_offset j mod 0x1000 <= 508 ∧ alut_offset i ≠ alut_offset j) as Ho
    by (unfold alut_offset, ALUT_ARRAY_OFFSET; divlia).
  unfold mic_alut_get, mic_alut_set, mic_mmio_read, mic_mmio_write,
    ALUT_LOWER_REMAP_OFFSET, ALUT_UPPER_REMAP_OFFSET, ALUT_PERMISSIONS_OFFSET.
  revert Ho. generalize (alut_offset i) (alut_offset j). intros oi oj Ho.
  rewrite !lookup_insert. repeat case_decide; try divlia. done.
Qed.

Lemma alut_hw_same m i a : 0 <= i < Z.of_nat ALUT_ENTRY_COUNT → 0 <= a < 2 ^ 64 →
  a mod ALUT_ENTRY_SIZE = 0 → (mic_alut_get (mic_alut_set m a i) i).1 = a.
Proof. intros _ Ha _. by rewrite alut_get_set. Qed.

Lemma alut_hw_other m i j a : 0 <= i < Z.of_nat ALUT_ENTRY_COUNT → 0 <= j < Z.of_nat ALUT_ENTRY_COUNT →
  i ≠ j → (mic_alut_get (mic_alut_set m a i) j).1 = (mic_alut_get m j).1.
Proof. intros Hi Hj Hne. by rewrite alut_get_set_other. Qed.

#[export] Instance alut_regs : AddrRegs ALUT_ENTRY_SIZE ALUT_ENTRY_COUNT mmio := {|
  hw_set m i a := mic_alut_set m a i;
  hw_get m i := (mic_alut_get m i).1;
  hw_same := alut_hw_same;
  hw_other := alut_hw_other;
|}.

(** ** Operations *)

Record mic_alut_info := Info {
  tbl : table mmio;
  identity_map_entries : Z;
  alut_ref_count : Z; map_count : Z; unmap_count : Z;
}.

Definition mic_sys_addr_to_alut (pa : Z) : Z := u8 (pa / ALUT_ENTRY_SIZE).
Definition mic_alut_to_pa (index : Z) : Z := u64 (u8 index * ALUT_ENTRY_SIZE).
Definition mic_alut_offset (pa : Z) : Z := pa mod ALUT_ENTRY_SIZE.
Definition mic_alut_align_low (pa : Z) : Z := pa - pa mod ALUT_ENTRY_SIZE.
Definition mic_alut_align_high (pa : Z) : Z :=
  u64 (u64 (pa + (ALUT_ENTRY_SIZE - 1)) / ALUT_ENTRY_SIZE * ALUT_ENTRY_SIZE).

Definition mic_add_alut_entry (t : table mmio) (spt addr n : Z) : table mmio :=
  add_entries ALUT_ENTRY_SIZE t spt addr (replicate (Z.to_nat n) 1).

Definition mic_alut_op (a : mic_alut_info) (dma_addr n : Z) : Z * mic_alut_info :=
  match search ALUT_ENTRY_SIZE 0 (entries (tbl a)) n dma_addr with
  | None => (0, a)
  | Some i =>
      let spt := i - n + 1 in
      (mic_alut_to_pa spt,
       Info (mic_add_alut_entry (tbl a) spt dma_addr n) (identity_map_entries a)
         (alut_ref_count a + 1) (map_count a + 1) (unmap_count a))
  end.

(** The loop of [mic_get_alut_ref_count]. *)
Fixpoint count_loop (fuel : nat) (start end_ i : Z) : option Z :=
  match fuel with
  | O => None
  | S fuel =>
      if start <? end_ then count_loop fuel (mic_alut_align_high (u64 (start + 1))) end_ (i + 1)
      else Some i
  end.

(** Fuel: one round for each entry the range may touch, and the test that ends it. *)
Definition mic_get_alut_ref_count (dma_addr size : Z) : option Z :=
  count_loop (Z.to_nat (size / ALUT_ENTRY_SIZE) + 3) dma_addr (u64 (dma_addr + size)) 0.

Definition mic_to_dma_addr (alut : option mic_alut_info) (mic_addr : Z) : option Z :=
  match alut with
  | None => Some mic_addr
  | Some a =>
      e ← entries (tbl a) !! Z.to_nat (mic_sys_addr_to_alut mic_addr);
      Some (u64 (dma_addr e + mic_alut_offset mic_addr))
  end.

Definition mic_map (alut : option mic_alut_info) (dma_addr size : Z) : option (Z * option mic_alut_info) :=
  match alut with
  | None => Some (dma_addr, alut)
  | Some a =>
      if size =? 0 then Some (0, alut)
      else
        num_entries ← mic_get_alut_ref_count dma_addr size;
        let '(mic_addr, a) := mic_alut_op a (mic_alut_align_low dma_addr) num_entries in
        Some (u64 (mic_addr + mic_alut_offset dma_addr), Some a)
  end.

Definition mic_map_error (mic_addr : Z) : bool := mic_addr =? 0.

Definition mic_unmap (alut : option mic_alut_info) (mic_addr size : Z) : option (option mic_alut_info) :=
  if size =? 0 then Some alut
  else
    match alut with
    | None => Some None
    | Some a =>
        let spt := mic_sys_addr_to_alut mic_addr in
        num_alut ← mic_get_alut_ref_count mic_addr size;
        Some (Some (Info (Table (sub_entries (entries (tbl a)) spt (replicate (Z.to_nat num_alut) 1))
                            (regs (tbl a)))
                      (identity_map_entries a) (alut_ref_count a - 1) (map_count a) (unmap_count a + 1)))
    end.

(** [pci_map_single] gives the bus address and whether it failed; the last result says
    whether [pci_unmap_single] undid it. *)
Definition mic_map_single (alut : option mic_alut_info) (pci : Z * bool) (size : Z)
  : option (Z * option mic_alut_info * bool) :=
  let '(dma_addr, err) := pci in
  if err then Some (0, alut, false)
  else
    '(mic_addr, alut) ← mic_map alut dma_addr size;
    Some (mic_addr, alut, mic_addr =? 0).

(** The bus address handed to [pci_unmap_single], and the table. *)
Definition mic_unmap_single (alut : option mic_alut_info) (mic_addr size : Z)
  : option (Z * option mic_alut_info) :=
  dma_addr ← mic_to_dma_addr alut mic_addr;
  alut ← mic_unmap alut mic_addr size;
  Some (dma_addr, alut).

(** ** Start *)

Section Init.
(** Whether the hardware takes the write of the n-th attempt, and whether the timeout
    has passed by then. *)
Variables (takes expired : nat → bool).

(** The [retry] loop for one entry: the code, the attempts made and the registers. *)
Fixpoint restore_entry (fuel : nat) (t : nat) (m : mmio) (i dma_addr : Z) : option (Z * nat * mmio) :=
  match fuel with
  | O => None
  | S fuel =>
      let m := if takes t then mic_alut_set m dma_addr i else m in
      if negb ((mic_alut_get m i).1 =? dma_addr) then
        if negb (expired t) then restore_entry fuel (S t) m i dma_addr
        else Some (- EFAULT, S t, m)
      else Some (0, S t, m)
  end.

Fixpoint restore_loop (fuel : nat) (t : nat) (m : mmio) (i : Z) (l : list entry) : option (Z * nat * mmio) :=
  match l with
  | [] => Some (0, t, m)
  | e :: l =>
      '(rc, t, m) ← restore_entry fuel t m i (dma_addr e);
      if rc =? 0 then restore_loop fuel t m (i + 1) l else Some (rc, t, m)
  end.

Definition mic_alut_restore (fuel : nat) (a : mic_alut_info) : option (Z * mic_alut_info) :=
  '(rc, _, m) ← restore_loop fuel 0 (regs (tbl a)) 0 (entries (tbl a));
  Some (rc, Info (Table (entries (tbl a)) m) (identity_map_entries a) (alut_ref_count a)
              (map_count a) (unmap_count a)).

Definition init_entry (identity : Z) (i : nat) : entry :=
  if Z.of_nat i <? identity then Entry (Z.of_nat i * ALUT_ENTRY_SIZE) 1 else Entry 0 0.

(** [mic_alut_enable] sets bit 28 of the control register. *)
Definition mic_alut_enable (m : mmio) : mmio := mic_mmio_write m (Z.shiftl 1 28) 0x3fc94.

(** What [xdev->alut] is left as. *)
Inductive alut_ptr := NoAlut | Freed | Alut (a : mic_alut_info).

Definition mic_alut_init (fuel : nat) (intel_iommu_enabled mem1 mem2 : bool)
    (peer_count net_peer_count : Z) (m : mmio) : option (Z * alut_ptr) :=
  if intel_iommu_enabled then Some (0, NoAlut)
  else if negb mem1 then Some (- ENOMEM, NoAlut)
  else
    let identity_map_size :=
      u64 (u64 (MIC_ALUT_SIZE - peer_count * MIC_APER_SIZE) - net_peer_count * ALUT_ENTRY_SIZE) in
    let identity := identity_map_size / ALUT_ENTRY_SIZE in
    if negb mem2 then Some (- ENOMEM, Freed)
    else
      let l := init_entry identity <$> seq 0 ALUT_ENTRY_COUNT in
      '(rc, a) ← mic_alut_restore fuel
         (Info (Table l (mic_alut_enable m)) identity (Z.min identity 256) 0 0);
      Some (rc, Alut a).

End Init.

(** The entries of the identity map count one reference that is not a mapping's. *)
Definition identity_base (n i : Z) : Z := if i <? n then 1 else 0.

(** The entries warned about, and the pointer left behind; [None] uses freed memory. *)
Definition mic_alut_uninit (p : alut_ptr) : option (list Z * alut_ptr) :=
  match p with
  | NoAlut => Some ([], NoAlut)
  | Freed => None
  | Alut a => Some (warned (identity_base (identity_map_entries a)) (entries (tbl a)) 0, Freed)
  end.

(** ** The entries a range touches *)

Definition span (a size : Z) : Z := (a + size - 1) / ALUT_ENTRY_SIZE - a / ALUT_ENTRY_SIZE + 1.

Lemma align_high_next start : 0 <= start < 2 ^ 63 →
  mic_alut_align_high (u64 (start + 1)) = (start / ALUT_ENTRY_SIZE + 1) * ALUT_ENTRY_SIZE.
Proof.
  intros Hs. unfold mic_alut_align_high, ALUT_ENTRY_SIZE.
  rewrite (wrap_small 64 (start + 1)) by (unfold in_width; lia).
  rewrite (wrap_small 64 (start + 1 + (2 ^ 31 - 1))) by (unfold in_width; lia).
  rewrite wrap_small by (unfold in_width; divlia). f_equal. divlia.
Qed.

Lemma count_loop_spec end_ : 0 <= end_ < 2 ^ 63 → ∀ fuel start i, 0 <= start →
  start <= end_ + ALUT_ENTRY_SIZE →
  (end_ - 1) / ALUT_ENTRY_SIZE - start / ALUT_ENTRY_SIZE + 2 <= Z.of_nat fuel → (0 < fuel)%nat →
  count_loop fuel start end_ i =
  Some (i + Z.max 0 (if start <? end_ then (end_ - 1) / ALUT_ENTRY_SIZE - start / ALUT_ENTRY_SIZE + 1 else 0)).
Proof.
  intros He. induction fuel as [|fuel IH]; intros start i Hs Hse Hf Hpos; [lia|]. cbn [count_loop].
  destruct (Z.ltb_spec start end_) as [Hlt|Hge]; [|f_equal; lia].
  rewrite align_high_next by lia. unfold ALUT_ENTRY_SIZE in *.
  assert ((start / 2 ^ 31 + 1) * 2 ^ 31 / 2 ^ 31 = start / 2 ^ 31 + 1) as Hd by (rewrite Z.div_mul; lia).
  assert (0 <= start / 2 ^ 31 <= (end_ - 1) / 2 ^ 31) as Hle by divlia.
  rewrite IH; rewrite ?Hd; try lia; try divlia. f_equal.
  destruct (Z.ltb_spec ((start / 2 ^ 31 + 1) * 2 ^ 31) end_); divlia.
Qed.

Lemma ref_count_span a size : 0 <= a → 0 < size → a + size < 2 ^ 63 →
  mic_get_alut_ref_count a size = Some (span a size) ∧ 0 < span a size.
Proof.
  intros Ha Hs Hb. unfold mic_get_alut_ref_count. rewrite (wrap_small 64 (a + size)) by (unfold in_width; lia).
  rewrite count_loop_spec; unfold span, ALUT_ENTRY_SIZE in *; try lia; [|divlia].
  destruct (Z.ltb_spec a (a + size)); [|lia]. rewrite Z.max_r by divlia. split; [done|]. divlia.
Qed.

(** The count depends on the offset in the first entry only. *)
Lemma span_shift a b size : a mod ALUT_ENTRY_SIZE = b mod ALUT_ENTRY_SIZE → span a size = span b size.
Proof. unfold span, ALUT_ENTRY_SIZE. intros. divlia. Qed.

Lemma span_bound a size : 0 <= a → 0 < size →
  mic_alut_align_low a + span a size * ALUT_ENTRY_SIZE < a + size + ALUT_ENTRY_SIZE ∧
  mic_alut_offset a + size <= span a size * ALUT_ENTRY_SIZE.
Proof. unfold span, mic_alut_align_low, mic_alut_offset, ALUT_ENTRY_SIZE. intros. divlia. Qed.

(** ** Restoring the registers *)

Section Restore.
Variables (takes expired : nat → bool).

Lemma restore_entry_ok fuel : ∀ t m i a t' m', 0 <= i < 256 →
  restore_entry takes expired fuel t m i a = Some (0, t', m') →
  (mic_alut_get m' i).1 = a ∧ ∀ j, 0 <= j < 256 → j ≠ i → (mic_alut_get m' j).1 = (mic_alut_get m j).1.
Proof.
  induction fuel as [|fuel IH]; intros t m i a t' m' Hi; [done|]. cbn [restore_entry].
  set (m1 := if takes t then mic_alut_set m a i else m).
  assert (∀ j, 0 <= j < 256 → j ≠ i → (mic_alut_get m1 j).1 = (mic_alut_get m j).1) as Hsame.
  { intros j Hj Hne. unfold m1. destruct (takes t); [|done]. by rewrite alut_get_set_other. }
  destruct (Z.eqb_spec (mic_alut_get m1 i).1 a) as [E|E]; cbn [negb]; [by intros [= <- <-]|].
  destruct (negb (expired t)); [|done]. intros Hr. destruct (IH _ _ _ _ _ _ Hi Hr) as [H1 H2].
  split; [done|]. intros j Hj Hne. by rewrite H2, Hsame.
Qed.

Lemma restore_loop_ok fuel l : ∀ t m i t' m', 0 <= i → i + zlen l <= 256 →
  restore_loop takes expired fuel t m i l = Some (0, t', m') →
  (∀ j, 0 <= j < i → (mic_alut_get m' j).1 = (mic_alut_get m j).1) ∧
  ∀ k e, l !! k = Some e → (mic_alut_get m' (i + Z.of_nat k)).1 = dma_addr e.
Proof.
  induction l as [|e l IH]; intros t m i t' m' Hi Hlen; cbn [restore_loop].
  { intros [= <- <-]. split; [done|]. intros k e He. by rewrite lookup_nil in He. }
  assert (zlen (e :: l) = zlen l + 1) as Hl by (unfold zlen; cbn; lia). pose proof (zlen_nonneg l).
  destruct (restore_entry takes expired fuel t m i (dma_addr e)) as [[[rc t1] m1]|] eqn:E;
    cbn [mbind option_bind]; [|done].
  destruct (Z.eqb_spec rc 0) as [-> |]; [|by intros [= ? _ _]]. intros Hr.
  assert (0 <= i < 256) as Hi' by lia.
  destruct (restore_entry_ok _ _ _ _ _ _ _ Hi' E) as [He Hother].
  destruct (IH t1 m1 (i + 1) t' m' ltac:(lia) ltac:(lia) Hr) as [H1 H2]. split.
  - intros j Hj. rewrite H1 by lia. apply Hother; lia.
  - intros [|k] e' Hk; cbn in Hk.
    + injection Hk as <-. rewrite Z.add_0_r, H1 by lia. done.
    + replace (i + Z.of_nat (S k)) with (i + 1 + Z.of_nat k) by lia. by apply H2.
Qed.

(** Once the timeout has passed every attempt ends, so the loops do. *)
Lemma restore_entry_ends T fuel : (∀ t, (T <= t)%nat → expired t = true) → ∀ t m i a, (T + 1 < fuel + t)%nat → (0 < fuel)%nat →
  ∃ rc t' m', restore_entry takes expired fuel t m i a = Some (rc, t', m') ∧ (rc = 0 ∨ rc = - EFAULT).
Proof.
  intros Hx. induction fuel as [|fuel IH]; intros t m i a Hf Hpos; [lia|]. cbn [restore_entry].
  destruct (negb (_ =? a)); [|eauto 10].
  destruct (expired t) eqn:Et; cbn [negb]; [eauto 10|].
  apply IH; [lia|]. destruct (Nat.le_gt_cases T t); [rewrite Hx in Et by done; done|]. lia.
Qed.

Lemma restore_loop_ends T fuel l : (∀ t, (T <= t)%nat → expired t = true) → (T + 1 < fuel)%nat → ∀ t m i,
  ∃ rc t' m', restore_loop takes expired fuel t m i l = Some (rc, t', m') ∧ (rc = 0 ∨ rc = - EFAULT).
Proof.
  intros Hx Hf. induction l as [|e l IH]; intros t m i; cbn [restore_loop]; [eauto 10|].
  destruct (restore_entry_ends T fuel Hx t m i (dma_addr e)) as (rc & t' & m' & -> & Hrc); [lia|lia|].
  cbn. destruct Hrc as [-> | ->]; cbn; [apply IH|eauto 10].
Qed.

(** Restoring the look-up table ends once its timeout has passed; it gives 0 only
    when every register of the hardware reads back as its entry says, however many of
    the writes the hardware dropped, and leaves the entries alone. *)
Theorem mic_alut_restore_ok T fuel (a : mic_alut_info) :
  (∀ t, (T <= t)%nat → expired t = true) → (T + 1 < fuel)%nat → zlen (entries (tbl a)) <= 256 →
  ∃ rc a', mic_alut_restore takes expired fuel a = Some (rc, a') ∧ (rc = 0 ∨ rc = - EFAULT) ∧
    entries (tbl a') = entries (tbl a) ∧
    (rc = 0 → ∀ i e, entries (tbl a) !! i = Some e →
       (mic_alut_get (regs (tbl a')) (Z.of_nat i)).1 = dma_addr e).
Proof.
  intros Hx Hf Hlen. unfold mic_alut_restore.
  destruct (restore_loop_ends T fuel (entries (tbl a)) Hx Hf 0 (regs (tbl a)) 0) as (rc & t' & m' & E & Hrc).
  rewrite E. cbn. eexists rc, _. split; [done|]. split; [done|]. split; [done|]. intros -> i e He. cbn.
  destruct (restore_loop_ok fuel (entries (tbl a)) 0 (regs (tbl a)) 0 t' m' ltac:(done) ltac:(lia) E) as [_ H2].
  by apply (H2 i e).
Qed.

End Restore.

(** ** Histories *)

(** The last entry of the run a request takes, if it finds one. *)
Definition alut_search (a : mic_alut_info) (dma_addr size : Z) : option Z :=
  search ALUT_ENTRY_SIZE 0 (entries (tbl a)) (span dma_addr size) (mic_alut_align_low dma_addr).

Definition bus_range (dma_addr size : Z) : Prop :=
  0 <= dma_addr ∧ 0 < size ∧ dma_addr + size + ALUT_ENTRY_SIZE < 2 ^ 63.

(** From a table that has been set up, requests come and go; [live] holds the card's
    address, the bus address and the size of each mapping not yet undone. *)
Inductive alut_run : mic_alut_info → list (Z * Z * Z) → Prop :=
| run_init takes expired fuel peers net_peers m a :
    0 <= peers → 0 <= net_peers → peers * 9 + net_peers <= 256 →
    mic_alut_init takes expired fuel false true true peers net_peers m = Some (0, Alut a) →
    alut_run a []
| run_map a live dma_addr size mic_addr a' :
    alut_run a live → bus_range dma_addr size →
    mic_map (Some a) dma_addr size = Some (mic_addr, Some a') →
    alut_run a' (if alut_search a dma_addr size then (mic_addr, dma_addr, size) :: live else live)
| run_unmap a l1 mic_addr dma_addr size l2 a' :
    alut_run a (l1 ++ (mic_addr, dma_addr, size) :: l2) →
    mic_unmap (Some a) mic_addr size = Some (Some a') → alut_run a' (l1 ++ l2).

Lemma identity_base_nonneg n i : 0 <= identity_base n i.
Proof. unfold identity_base. destruct (_ <? _); lia. Qed.

(** The entries behind a mapping. *)
Definition to_mapping (x : Z * Z * Z) : mapping :=
  let '(mic_addr, dma_addr, size) := x in
  Mapping (mic_addr / ALUT_ENTRY_SIZE) (mic_alut_align_low dma_addr)
    (replicate (Z.to_nat (span dma_addr size)) 1).

Definition live_ok (x : Z * Z * Z) : Prop :=
  let '(mic_addr, dma_addr, size) := x in
  bus_range dma_addr size ∧ 0 <= mic_addr ∧ mic_addr + size <= MIC_ALUT_SIZE ∧
  mic_addr mod ALUT_ENTRY_SIZE = dma_addr mod ALUT_ENTRY_SIZE.

Definition alut_inv (a : mic_alut_info) (live : list (Z * Z * Z)) : Prop :=
  table_inv ALUT_ENTRY_SIZE ALUT_ENTRY_COUNT (identity_base (identity_map_entries a)) (tbl a)
    (to_mapping <$> live) ∧
  Forall live_ok live ∧
  alut_ref_count a = Z.min (identity_map_entries a) 256 + zlen live ∧
  map_count a - unmap_count a = zlen live.

Lemma entry_size_pos : 0 < ALUT_ENTRY_SIZE.
Proof. done. Qed.

Lemma init_inv takes expired fuel peers net_peers m a :
  0 <= peers → 0 <= net_peers → peers * 9 + net_peers <= 256 →
  mic_alut_init takes expired fuel false true true peers net_peers m = Some (0, Alut a) →
  alut_inv a [].
Proof.
  intros Hp Hn Hle. unfold mic_alut_init. cbn [negb].
  set (identity := u64 (u64 (MIC_ALUT_SIZE - peers * MIC_APER_SIZE) - net_peers * ALUT_ENTRY_SIZE) / ALUT_ENTRY_SIZE).
  assert (0 <= identity <= 256) as Hid.
  { unfold identity, MIC_ALUT_SIZE, MIC_APER_SIZE, ALUT_ENTRY_SIZE.
    rewrite (wrap_small 64 (256 * 2 ^ 31 - peers * (9 * 2 ^ 31))) by (unfold in_width; lia).
    rewrite wrap_small by (unfold in_width; lia). divlia. }
  set (l := init_entry identity <$> seq 0 ALUT_ENTRY_COUNT).
  assert (length l = ALUT_ENTRY_COUNT) as Hlen by (unfold l; by rewrite length_fmap, length_seq).
  assert (∀ i e, l !! i = Some e → e = init_entry identity i) as Hl.
  { intros i e He. unfold l in He. rewrite list_lookup_fmap in He.
    destruct (seq 0 ALUT_ENTRY_COUNT !! i) as [j|] eqn:Ej; [|done]. apply lookup_seq in Ej as [-> _].
    by injection He as <-. }
  unfold mic_alut_restore. cbn [entries regs tbl].
  destruct (restore_loop takes expired fuel 0 (mic_alut_enable m) 0 l) as [[[rc t'] m']|] eqn:E;
    cbn [mbind option_bind]; [|done].
  intros [= -> <-]. assert (zlen l = 256) as Hz by (unfold zlen; by rewrite Hlen).
  destruct (restore_loop_ok takes expired fuel l 0 (mic_alut_enable m) 0 t' m' ltac:(done) ltac:(lia) E) as [_ H2].
  split; [|split; [done|]]; [|cbn; change (zlen []) with 0; lia].
  split; cbn [entries regs tbl identity_map_entries fmap list_fmap].
  - done.
  - intros i e He. by apply (H2 i).
  - intros i e He. rewrite (Hl i e He). unfold init_entry, identity_base. cbn. by destruct (_ <? _).
  - constructor.
Qed.

Lemma map_ok a live dma_addr size i : alut_inv a live → bus_range dma_addr size →
  alut_search a dma_addr size = Some i →
  let n := span dma_addr size in
  let mic_addr := (i - n + 1) * ALUT_ENTRY_SIZE + mic_alut_offset dma_addr in
  ∃ a', mic_map (Some a) dma_addr size = Some (mic_addr, Some a') ∧
    alut_inv a' ((mic_addr, dma_addr, size) :: live).
Proof.
  intros (Hinv & Hlive & Href & Hcount) (Ha & Hs & Hb) Hsearch n mic_addr.
  destruct (ref_count_span dma_addr size Ha Hs ltac:(unfold ALUT_ENTRY_SIZE in *; lia)) as [Hn Hn0]. fold n in Hn, Hn0.
  destruct (span_bound dma_addr size Ha Hs) as [Hb1 Hb2]. fold n in Hb1, Hb2.
  assert (0 <= mic_alut_align_low dma_addr ∧ mic_alut_align_low dma_addr mod ALUT_ENTRY_SIZE = 0) as [Hl0 Hlm]
    by (unfold mic_alut_align_low, ALUT_ENTRY_SIZE; divlia).
  assert (0 <= mic_alut_offset dma_addr < ALUT_ENTRY_SIZE) as Hoff by (apply Z.mod_pos_bound; done).
  assert (zlen (replicate (Z.to_nat n) 1) = n) as Hzn by (apply zlen_replicate; lia).
  assert (mic_alut_align_low dma_addr + n * ALUT_ENTRY_SIZE < 2 ^ 64) as Hbig by (unfold ALUT_ENTRY_SIZE in *; lia).
  unfold alut_search in Hsearch. fold n in Hsearch.
  destruct (search_sound ALUT_ENTRY_SIZE entry_size_pos 0 (entries (tbl a)) n _ i ltac:(lia) Hn0 Hl0 Hbig Hsearch) as [Hi _].
  assert (zlen (entries (tbl a)) = 256) as Hz by (unfold zlen; by rewrite (ti_size _ _ _ _ _ Hinv)).
  unfold mic_map, mic_alut_op. assert (size =? 0 = false) as -> by lia. rewrite Hn. cbn [mbind option_bind].
  rewrite Hsearch. unfold mic_alut_to_pa. rewrite (wrap_small 8 (i - n + 1)) by (unfold in_width; lia).
  unfold ALUT_ENTRY_SIZE in Hoff, Hb2. rewrite (wrap_small 64 ((i - n + 1) * ALUT_ENTRY_SIZE)) by (unfold in_width, ALUT_ENTRY_SIZE; lia).
  rewrite wrap_small by (unfold in_width, ALUT_ENTRY_SIZE; lia). eexists. split; [reflexivity|].
  assert (mic_addr / ALUT_ENTRY_SIZE = i - n + 1) as Hdiv.
  { unfold mic_addr, ALUT_ENTRY_SIZE. rewrite Z.div_add_l by lia. rewrite Z.div_small; lia. }
  split; [|split].
  - cbn [tbl identity_map_entries]. rewrite fmap_cons. unfold to_mapping at 1. rewrite Hdiv. fold n.
    rewrite <- Hzn in Hsearch, Hbig, Hn0.
    assert (Forall (λ r, 0 < r) (replicate (Z.to_nat n) 1)) as Hpos by (by apply Forall_replicate).
    pose proof (take_inv ALUT_ENTRY_SIZE ALUT_ENTRY_COUNT _ entry_size_pos (identity_base_nonneg _) (tbl a) _ 0
      _ _ i Hinv (Nat.le_0_l _) Hn0 Hpos Hl0 Hlm Hbig Hsearch) as Ht.
    rewrite Hzn in Ht. exact Ht.
  - constructor; [|done]. split; [done|]. unfold mic_addr, MIC_ALUT_SIZE, ALUT_ENTRY_SIZE in *.
    split_and!; try lia. rewrite Z.add_comm, Z.mod_add by lia. unfold mic_alut_offset, ALUT_ENTRY_SIZE.
    by rewrite Z.mod_mod.
  - assert (∀ x : Z * Z * Z, zlen (x :: live) = zlen live + 1) as Hc by (intros; unfold zlen; cbn; lia).
    cbn [alut_ref_count map_count unmap_count identity_map_entries]. rewrite Hc. lia.
Qed.

Lemma map_fails a dma_addr size : bus_range dma_addr size → alut_search a dma_addr size = None →
  mic_map (Some a) dma_addr size = Some (mic_alut_offset dma_addr, Some a).
Proof.
  intros (Ha & Hs & Hb) Hsearch.
  destruct (ref_count_span dma_addr size Ha Hs ltac:(unfold ALUT_ENTRY_SIZE in *; lia)) as [Hn _].
  unfold mic_map, mic_alut_op. assert (size =? 0 = false) as -> by lia. rewrite Hn. cbn [mbind option_bind].
  unfold alut_search in Hsearch. rewrite Hsearch. rewrite wrap_small; [done|].
  pose proof (Z.mod_pos_bound dma_addr ALUT_ENTRY_SIZE entry_size_pos). unfold in_width, mic_alut_offset, ALUT_ENTRY_SIZE in *. lia.
Qed.

Lemma unmap_ok a l1 mic_addr dma_addr size l2 :
  alut_inv a (l1 ++ (mic_addr, dma_addr, size) :: l2) →
  ∃ a', mic_unmap (Some a) mic_addr size = Some (Some a') ∧ alut_inv a' (l1 ++ l2).
Proof.
  intros (Hinv & Hlive & Href & Hcount). apply Forall_app in Hlive as [Hl1 Hl2].
  apply Forall_cons in Hl2 as [((Ha & Hs & Hb) & Hm0 & Hm1 & Hmod) Hl2].
  destruct (ref_count_span mic_addr size Hm0 Hs ltac:(unfold MIC_ALUT_SIZE, ALUT_ENTRY_SIZE in *; lia)) as [Hn _].
  unfold mic_unmap. assert (size =? 0 = false) as -> by lia. rewrite Hn. cbn [mbind option_bind].
  rewrite (span_shift mic_addr dma_addr) by done. eexists. split; [reflexivity|].
  assert (mic_sys_addr_to_alut mic_addr = mic_addr / ALUT_ENTRY_SIZE) as ->.
  { unfold mic_sys_addr_to_alut. apply wrap_small. unfold in_width, MIC_ALUT_SIZE, ALUT_ENTRY_SIZE in *. divlia. }
  rewrite fmap_app, fmap_cons in Hinv.
  pose proof (give_inv ALUT_ENTRY_SIZE ALUT_ENTRY_COUNT _ _ _ _ _ Hinv) as Hg.
  assert (∀ x : Z * Z * Z, zlen (l1 ++ x :: l2) = zlen (l1 ++ l2) + 1) as Hc.
  { intros. rewrite !zlen_app. unfold zlen. cbn. lia. }
  rewrite Hc in Href, Hcount. split; [|split; [by apply Forall_app|]].
  - rewrite fmap_app. exact Hg.
  - cbn [alut_ref_count map_count unmap_count identity_map_entries]. lia.
Qed.

Lemma run_inv a live : alut_run a live → alut_inv a live.
Proof.
  induction 1 as [takes expired fuel peers net_peers m a Hp Hn Hle Hi
                 |a live dma_addr size mic_addr a' _ IH Hr Hm|a l1 mic_addr dma_addr size l2 a' _ IH Hu].
  - exact (init_inv _ _ _ _ _ _ _ Hp Hn Hle Hi).
  - destruct (alut_search a dma_addr size) as [i|] eqn:Es.
    + destruct (map_ok a live dma_addr size i IH Hr Es) as (a2 & E & Hinv). rewrite E in Hm. by simplify_eq.
    + rewrite map_fails in Hm by done. by simplify_eq.
  - destruct (unmap_ok a l1 mic_addr dma_addr size l2 IH) as (a2 & E & Hinv). rewrite E in Hu. by simplify_eq.
Qed.

(** C17: whatever mappings come and go, every byte of a mapping that is held is
    translated to its bus address, by the driver's table and by the registers of the
    hardware; the counters agree with the mappings held, and taking the table down with
    none held warns of no entry. *)
Theorem alut_translates a live : alut_run a live →
  (∀ mic_addr dma_addr size off, (mic_addr, dma_addr, size) ∈ live → 0 <= off < size →
     mic_to_dma_addr (Some a) (mic_addr + off) = Some (dma_addr + off) ∧
     (mic_alut_get (regs (tbl a)) ((mic_addr + off) / ALUT_ENTRY_SIZE)).1 +
       mic_alut_offset (mic_addr + off) = dma_addr + off) ∧
  alut_ref_count a = Z.min (identity_map_entries a) 256 + zlen live ∧
  (live = [] → mic_alut_uninit (Alut a) = Some ([], Freed)).
Proof.
  intros Hrun. pose proof (run_inv a live Hrun) as (Hinv & Hlive & Href & _).
  split; [|split; [done|]].
  2: { intros ->. cbn. rewrite warned_none; [done|]. intros i e He. by eapply inv_quiet. }
  intros mic_addr dma_addr size off Hin Hoff. rewrite Forall_forall in Hlive.
  destruct (Hlive _ Hin) as ((Ha & Hs & Hb) & Hm0 & Hm1 & Hmod).
  destruct (span_bound dma_addr size Ha Hs) as [_ Hb2].
  destruct (ref_count_span dma_addr size Ha Hs ltac:(unfold ALUT_ENTRY_SIZE in *; lia)) as [_ Hn0].
  pose proof (Z.mod_pos_bound dma_addr ALUT_ENTRY_SIZE entry_size_pos) as Hmb.
  pose proof (Z.div_mod mic_addr ALUT_ENTRY_SIZE ltac:(done)) as Hdm.
  set (o := mic_alut_offset dma_addr + off).
  assert (mic_addr + off = mic_addr / ALUT_ENTRY_SIZE * ALUT_ENTRY_SIZE + o) as Eaddr.
  { unfold o, mic_alut_offset. rewrite <- Hmod. lia. }
  destruct (inv_translate ALUT_ENTRY_SIZE ALUT_ENTRY_COUNT _ entry_size_pos (tbl a) _ (to_mapping (mic_addr, dma_addr, size)) o Hinv)
    as (e & He & Hreg & Htr).
  { apply list_elem_of_fmap. eauto. }
  { cbn [to_mapping m_refs]. rewrite zlen_replicate by lia. unfold o. unfold mic_alut_offset in *. lia. }
  cbn [to_mapping m_spt m_addr] in He, Hreg, Htr. rewrite <- Eaddr in He, Hreg, Htr.
  assert (mic_alut_align_low dma_addr + o = dma_addr + off) as Eo by (unfold mic_alut_align_low, o, mic_alut_offset; lia).
  split.
  - unfold mic_to_dma_addr. assert (mic_sys_addr_to_alut (mic_addr + off) = (mic_addr + off) / ALUT_ENTRY_SIZE) as ->.
    { unfold mic_sys_addr_to_alut. apply wrap_small. unfold in_width, MIC_ALUT_SIZE, ALUT_ENTRY_SIZE in *. divlia. }
    rewrite He. cbn [mbind option_bind]. f_equal. unfold mic_alut_offset at 1. rewrite Htr, Eo.
    apply wrap_small. unfold in_width, ALUT_ENTRY_SIZE in *. lia.
  - change (mic_alut_get (regs (tbl a)) ((mic_addr + off) / ALUT_ENTRY_SIZE)).1 with
      (hw_get (regs (tbl a)) ((mic_addr + off) / ALUT_ENTRY_SIZE)).
    rewrite Hreg. unfold mic_alut_offset at 1. by rewrite Htr, Eo.
Qed.

(** A mapping that fails is not seen as failed.  When no entries are found [mic_map]
    gives the offset of the bus address in its entry, which [mic_map_error] takes for an
    address unless it is 0; and when the mapping lands on entry 0 at offset 0, the table
    is changed but the address given is taken for an error.  No entries are found only if
    no run of free entries is long enough or part of the range is translated already. *)
Theorem mic_map_failure a live dma_addr size : alut_run a live → bus_range dma_addr size →
  (alut_search a dma_addr size = None →
     mic_map (Some a) dma_addr size = Some (mic_alut_offset dma_addr, Some a) ∧
     mic_map_error (mic_alut_offset dma_addr) = (dma_addr mod ALUT_ENTRY_SIZE =? 0) ∧
     (partly_mapped ALUT_ENTRY_SIZE (entries (tbl a)) (span dma_addr size) (mic_alut_align_low dma_addr) ∨
      ∀ spt, 0 <= spt → spt + span dma_addr size <= 256 →
        ¬ free_run (entries (tbl a)) spt (span dma_addr size))) ∧
  (∀ i, alut_search a dma_addr size = Some i → i - span dma_addr size + 1 = 0 →
     dma_addr mod ALUT_ENTRY_SIZE = 0 →
     ∃ a', mic_map (Some a) dma_addr size = Some (0, Some a') ∧ mic_map_error 0 = true ∧
       alut_ref_count a' = alut_ref_count a + 1).
Proof.
  intros Hrun Hr. pose proof (run_inv a live Hrun) as Hinv. pose proof Hr as (Ha & Hs & Hb).
  destruct (span_bound dma_addr size Ha Hs) as [Hb1 _].
  destruct (ref_count_span dma_addr size Ha Hs ltac:(unfold ALUT_ENTRY_SIZE in *; lia)) as [_ Hn0].
  assert (0 <= mic_alut_align_low dma_addr) as Hl0 by (unfold mic_alut_align_low, ALUT_ENTRY_SIZE; divlia).
  split.
  - intros Hsearch. split; [by apply map_fails|]. split; [done|].
    assert (zlen (entries (tbl a)) = 256) as Hz
      by (unfold zlen; by rewrite (ti_size _ _ _ _ _ (proj1 Hinv))).
    rewrite <- Hz. apply (search_none ALUT_ENTRY_SIZE entry_size_pos 0 (entries (tbl a))); try done; unfold ALUT_ENTRY_SIZE in *; lia.
  - intros i Hsearch Hi Hmod. destruct (map_ok a live dma_addr size i Hinv Hr Hsearch) as (a' & E & (_ & _ & Href & _)).
    rewrite Hi in E, Href. unfold mic_alut_offset in E. rewrite Hmod in E. exists a'. split; [done|]. split; [done|].
    assert (identity_map_entries a' = identity_map_entries a) as Eid.
    { revert E. unfold mic_map. destruct (size =? 0); [by intros [= <-]|].
      destruct (mic_get_alut_ref_count dma_addr size); [|done]. cbn [mbind option_bind].
      unfold mic_alut_op. by destruct (search _ _ _ _ _); intros [= _ <-]. }
    rewrite Href, Eid. destruct Hinv as (_ & _ & -> & _). unfold zlen. cbn. lia.
Qed.

(** ** A table with one peer *)

(** Hardware that takes every write, and a clock that has run out after five attempts. *)
Definition at_once (t : nat) : bool := true.
Definition after_five (t : nat) : bool := (5 <=? t)%nat.

Definition demo_alut : mic_alut_info :=
  match mic_alut_init at_once after_five 10 false true true 1 0 ∅ with
  | Some (_, Alut a) => a
  | _ => Info (Table [] ∅) 0 0 0 0
  end.

(** Bus addresses above the identity map: 3 GB from 600 GB on. *)
Definition demo_dma : Z := 600 * 2 ^ 30 + 4096.

Definition demo_mapped : Z * mic_alut_info :=
  match mic_map (Some demo_alut) demo_dma (3 * 2 ^ 30) with
  | Some (x, Some a) => (x, a)
  | _ => (0, demo_alut)
  end.

Lemma demo_init : alut_run demo_alut [].
Proof.
  apply (run_init at_once after_five 10 1 0 ∅); [lia|lia|lia|]. unfold demo_alut.
  assert (match mic_alut_init at_once after_five 10 false true true 1 0 ∅ with
          | Some (0, Alut _) => true | _ => false end = true) as E by (vm_compute; reflexivity).
  by destruct (mic_alut_init _ _ _ _ _ _ _ _ _) as [[[] []]|].
Qed.

Lemma demo_mapped_run : alut_run demo_mapped.2 [(demo_mapped.1, demo_dma, 3 * 2 ^ 30)].
Proof.
  assert (bus_range demo_dma (3 * 2 ^ 30)) as Hr by (unfold bus_range, demo_dma, ALUT_ENTRY_SIZE; lia).
  assert (∃ i, alut_search demo_alut demo_dma (3 * 2 ^ 30) = Some i) as [i Es] by (eexists; vm_compute; reflexivity).
  pose proof demo_init as Hrun0. unfold demo_mapped. revert Hrun0 Es. generalize demo_alut. intros a Hrun0 Es.
  destruct (map_ok a [] demo_dma (3 * 2 ^ 30) i (run_inv _ _ Hrun0) Hr Es) as (a' & E & _).
  pose proof (run_map a [] demo_dma (3 * 2 ^ 30) _ a' Hrun0 Hr E) as Hrun. rewrite Es in Hrun.
  rewrite E. exact Hrun.
Qed.

Lemma mic_alut_restore_ok_witness : ∃ rc a', mic_alut_restore at_once after_five 10 demo_alut = Some (rc, a') ∧
  entries (tbl a') = entries (tbl demo_alut).
Proof.
  destruct (mic_alut_restore_ok at_once after_five 5 10 demo_alut) as (rc & a' & E & _ & Ee & _).
  - intros t Ht. by apply Nat.leb_le.
  - lia.
  - vm_compute. congruence.
  - eauto.
Defined.

Lemma alut_translates_witness :
  mic_to_dma_addr (Some demo_mapped.2) (demo_mapped.1 + 5000) = Some (demo_dma + 5000).
Proof.
  apply (proj1 (alut_translates demo_mapped.2 _ demo_mapped_run) demo_mapped.1 demo_dma (3 * 2 ^ 30) 5000);
    [by left|lia].
Defined.

(** A range of 1 TB finds no entries, and the call gives 4096. *)
Lemma mic_map_failure_witness :
  mic_map (Some demo_alut) demo_dma (2 ^ 40) = Some (4096, Some demo_alut) ∧ mic_map_error 4096 = false.
Proof.
  destruct (mic_map_failure demo_alut [] demo_dma (2 ^ 40) demo_init) as [Hf _].
  - unfold bus_range, demo_dma, ALUT_ENTRY_SIZE. lia.
  - destruct (Hf ltac:(by vm_compute)) as (E & _). split; [exact E|done].
Defined.

End Alut.
