(* ===== verification/Smpt.v ===== *)
(** * The system memory page table of the first generation

    Models [mpss3/mpss-modules/micscif/micscif_smpt.c] as built for the KNC card: 32
    entries of 16 GB translate the card's system addresses to bus addresses.  Entries
    count the bytes mapped through them.  The searches and the invariant come from file
    AddrTable; the [SBOX_SMPT] registers are an instance of its interface. *)
From S2P Require Import Prelude AddrTable.
Local Open Scope Z_scope.

Module Smpt.
Import AddrTable.

Definition MIC_SYSTEM_PAGE_SHIFT : Z := 34.
Definition MIC_SYSTEM_PAGE_SIZE : Z := 0x400000000.
Definition MIC_SYSTEM_PAGE_MASK : Z := Z.shiftl 1 MIC_SYSTEM_PAGE_SHIFT - 1.
Definition MIC_SYSTEM_BASE : Z := 0x8000000000.
Definition NUM_SMPT_ENTRIES_IN_USE : nat := 32.
Definition MAX_HOST_MEMORY : Z := 32 * MIC_SYSTEM_PAGE_SIZE.
Definition MAX_SYSTEM_ADDR : Z := MIC_SYSTEM_BASE + MAX_HOST_MEMORY - 1.
Definition SBOX_SMPT00 : Z := 0x3100.
Definition SNOOP_ON : Z := 0.

Definition HOSTMIC_PA_TO_SMPT (pa : Z) : Z := Z.shiftr (u64 (pa - MIC_SYSTEM_BASE)) MIC_SYSTEM_PAGE_SHIFT.
Definition SMPT_TO_MIC_PA (smpt_index : Z) : Z := u64 (MIC_SYSTEM_BASE + smpt_index * MIC_SYSTEM_PAGE_SIZE).
Definition IS_MIC_SYSTEM_ADDR (addr : Z) : bool := (MIC_SYSTEM_BASE <=? addr) && (addr <=? MAX_SYSTEM_ADDR).
Definition is_syspa (pa : Z) : bool := IS_MIC_SYSTEM_ADDR pa.

(** The kernel's [ALIGN] to a power of two. *)
Definition ALIGN (x a : Z) : Z := Z.land (u64 (x + (a - 1))) (Z.lnot (a - 1)).
Definition SMPT_OFFSET (x : Z) : Z := Z.land x MIC_SYSTEM_PAGE_MASK.
Definition SMPT_ALIGN_LOW (x : Z) : Z := ALIGN (u64 (x - MIC_SYSTEM_PAGE_MASK)) MIC_SYSTEM_PAGE_SIZE.
Definition SMPT_ALIGN_HIGH (x : Z) : Z := ALIGN x MIC_SYSTEM_PAGE_SIZE.

(** ** Registers, by offset in the SBOX *)

Notation sbox := (gmap Z Z).

(** A register: the host page in bits 31 to 2, bit 0 says no snoop. *)
Definition BUILD_SMPT (no_snoop host_addr : Z) : Z :=
  u32 (Z.lor (Z.land (Z.shiftl host_addr 2) (Z.lnot 3)) (Z.land no_snoop 1)).

Definition mic_smpt_set (m : sbox) (dma_addr index : Z) : sbox :=
  let smpt_reg_val := BUILD_SMPT SNOOP_ON (Z.shiftr dma_addr MIC_SYSTEM_PAGE_SHIFT) in
  <[SBOX_SMPT00 + 4 * index := smpt_reg_val]> m.

(** The address the hardware uses for an entry. *)
Definition smpt_reg_addr (m : sbox) (index : Z) : Z :=
  Z.shiftl (Z.shiftr (default 0 (m !! (SBOX_SMPT00 + 4 * index))) 2) MIC_SYSTEM_PAGE_SHIFT.

Lemma smpt_hw_same m i a : 0 <= i < Z.of_nat NUM_SMPT_ENTRIES_IN_USE → 0 <= a < 2 ^ 64 →
  a mod MIC_SYSTEM_PAGE_SIZE = 0 → smpt_reg_addr (mic_smpt_set m a i) i = a.
Proof.
  intros _ Ha Hm. unfold smpt_reg_addr, mic_smpt_set, BUILD_SMPT, SNOOP_ON, MIC_SYSTEM_PAGE_SHIFT, MIC_SYSTEM_PAGE_SIZE in *.
  rewrite lookup_insert_eq. cbn [default from_option id]. change (Z.land 0 1) with 0. rewrite Z.lor_0_r.
  change 3 with (Z.ones 2). rewrite <- Z.ldiff_land, Z.ldiff_ones_r by lia.
  rewrite !Z.shiftl_mul_pow2, !Z.shiftr_div_pow2, Z.div_mul by lia.
  unfold wrap. rewrite Z.mod_small by divlia. divlia.
Qed.

Lemma smpt_hw_other m i j a : 0 <= i < Z.of_nat NUM_SMPT_ENTRIES_IN_USE →
  0 <= j < Z.of_nat NUM_SMPT_ENTRIES_IN_USE → i ≠ j →
  smpt_reg_addr (mic_smpt_set m a i) j = smpt_reg_addr m j.
Proof.
  intros _ _ Hne. unfold smpt_reg_addr, mic_smpt_set. by rewrite lookup_insert_ne by lia.
Qed.

#[export] Instance smpt_regs : AddrRegs MIC_SYSTEM_PAGE_SIZE NUM_SMPT_ENTRIES_IN_USE sbox := {|
  hw_set m i a := mic_smpt_set m a i;
  hw_get := smpt_reg_addr;
  hw_same := smpt_hw_same;
  hw_other := smpt_hw_other;
|}.

(** ** Operations *)

(** Both loops write each register from its entry. *)
Fixpoint smpt_write_all (m : sbox) (i : Z) (l : list entry) : sbox :=
  match l with
  | [] => m
  | e :: l => smpt_write_all (mic_smpt_set m (dma_addr e) i) (i + 1) l
  end.

Definition mic_smpt_restore (t : table sbox) : table sbox :=
  Table (entries t) (smpt_write_all (regs t) 0 (entries t)).

Definition mic_smpt_init (m : sbox) : table sbox :=
  let l := (λ i, Entry (Z.of_nat i * MIC_SYSTEM_PAGE_SIZE) 0) <$> seq 0 NUM_SMPT_ENTRIES_IN_USE in
  Table l (smpt_write_all m 0 l).

(** The entries warned about in a debug build; the table is freed and its pointer cleared. *)
Definition mic_smpt_uninit (t : table sbox) : list Z * option (table sbox) :=
  (warned (λ _, 0) (entries t) 0, None).

Definition add_smpt_entry (t : table sbox) (spt : Z) (ref : list Z) (dma_addr : Z) : table sbox :=
  add_entries MIC_SYSTEM_PAGE_SIZE t spt dma_addr ref.

(** [pm] says whether the power reference is obtained. *)
Definition smpt_op (pm : bool) (t : table sbox) (dma_addr : Z) (ref : list Z) : Z * table sbox :=
  let n := zlen ref in
  if negb pm then (0, t)
  else
    match search MIC_SYSTEM_PAGE_SIZE 0 (entries t) n dma_addr with
    | None => (0, t)
    | Some i =>
        let spt := i - n + 1 in
        (SMPT_TO_MIC_PA spt, add_smpt_entry t spt ref dma_addr)
    end.

(** The loop of [get_smpt_ref_count]: the bytes of the range in each entry. *)
Fixpoint ref_loop (fuel : nat) (start end_ : Z) : option (list Z) :=
  match fuel with
  | O => None
  | S fuel =>
      if start <? end_ then
        let next := SMPT_ALIGN_HIGH (u64 (start + 1)) in
        ref ← ref_loop fuel next end_;
        Some (Z.min next end_ - start :: ref)
      else Some []
  end.

Definition get_smpt_ref_count (dma_addr size : Z) : option (list Z) :=
  ref_loop (Z.to_nat (size / MIC_SYSTEM_PAGE_SIZE) + 3) dma_addr (u64 (dma_addr + size)).

(** The caller's array [ref] has 32 places; [None] is a write past its end. *)
Definition ref_array (dma_addr size : Z) : option (list Z) :=
  ref ← get_smpt_ref_count dma_addr size;
  if (length ref <=? NUM_SMPT_ENTRIES_IN_USE)%nat then Some ref else None.

Definition mic_map (pm : bool) (t : table sbox) (dma_addr size : Z) : option (Z * table sbox) :=
  if size =? 0 then Some (0, t)
  else
    ref ← ref_array dma_addr size;
    let '(mic_addr, t) := smpt_op pm t (SMPT_ALIGN_LOW dma_addr) ref in
    if mic_addr =? 0 then Some (mic_addr, t)
    else Some (u64 (mic_addr + Z.land dma_addr MIC_SYSTEM_PAGE_MASK), t).

Definition mic_unmap (t : table sbox) (mic_addr size : Z) : option (table sbox) :=
  let spt := HOSTMIC_PA_TO_SMPT mic_addr in
  if size =? 0 then Some t
  else if negb (IS_MIC_SYSTEM_ADDR mic_addr) then Some t
  else
    ref ← ref_array mic_addr size;
    Some (Table (sub_entries (entries t) spt ref) (regs t)).

Definition mic_to_dma_addr (t : table sbox) (mic_addr : Z) : option Z :=
  let spt := HOSTMIC_PA_TO_SMPT mic_addr in
  if negb (IS_MIC_SYSTEM_ADDR mic_addr) then Some 0
  else
    e ← entries t !! Z.to_nat spt;
    Some (u64 (dma_addr e + SMPT_OFFSET mic_addr)).

Definition mic_map_single (pm : bool) (t : table sbox) (pci : Z * bool) (size : Z)
  : option (Z * table sbox * bool) :=
  let '(dma_addr, err) := pci in
  if err then Some (0, t, false)
  else
    '(mic_addr, t) ← mic_map pm t dma_addr size;
    Some (mic_addr, t, mic_addr =? 0).

Definition mic_unmap_single (t : table sbox) (mic_addr size : Z) : option (Z * table sbox) :=
  dma_addr ← mic_to_dma_addr t mic_addr;
  t ← mic_unmap t mic_addr size;
  Some (dma_addr, t).

(** ** Alignment *)

Lemma align_spec x : 0 <= x < 2 ^ 63 → ALIGN x MIC_SYSTEM_PAGE_SIZE =
  (x + (MIC_SYSTEM_PAGE_SIZE - 1)) / MIC_SYSTEM_PAGE_SIZE * MIC_SYSTEM_PAGE_SIZE.
Proof.
  intros Hx. unfold ALIGN, MIC_SYSTEM_PAGE_SIZE. rewrite wrap_small by (unfold in_width; lia).
  change (0x400000000 - 1) with (Z.ones 34). rewrite <- Z.ldiff_land, Z.ldiff_ones_r by lia.
  rewrite Z.shiftl_mul_pow2, Z.shiftr_div_pow2 by lia. done.
Qed.

Lemma align_low_spec x : 0 <= x < 2 ^ 63 → SMPT_ALIGN_LOW x = x - x mod MIC_SYSTEM_PAGE_SIZE.
Proof.
  intros Hx. unfold SMPT_ALIGN_LOW, ALIGN, MIC_SYSTEM_PAGE_SIZE.
  change MIC_SYSTEM_PAGE_MASK with (0x400000000 - 1).
  rewrite wrap_idemp_add. replace (x - (0x400000000 - 1) + (0x400000000 - 1)) with x by lia.
  rewrite wrap_small by (unfold in_width; lia).
  change (0x400000000 - 1) with (Z.ones 34). rewrite <- Z.ldiff_land, Z.ldiff_ones_r by lia.
  rewrite Z.shiftl_mul_pow2, Z.shiftr_div_pow2 by lia. divlia.
Qed.

Lemma offset_spec x : Z.land x MIC_SYSTEM_PAGE_MASK = x mod MIC_SYSTEM_PAGE_SIZE.
Proof. change MIC_SYSTEM_PAGE_MASK with (Z.ones 34). by rewrite Z.land_ones by lia. Qed.

Lemma smpt_align_high_next start : 0 <= start < 2 ^ 62 →
  SMPT_ALIGN_HIGH (u64 (start + 1)) = (start / MIC_SYSTEM_PAGE_SIZE + 1) * MIC_SYSTEM_PAGE_SIZE.
Proof.
  intros Hs. unfold SMPT_ALIGN_HIGH. rewrite (wrap_small 64 (start + 1)) by (unfold in_width; lia).
  rewrite align_spec by lia. unfold MIC_SYSTEM_PAGE_SIZE. divlia.
Qed.

(** ** The entries a range touches *)

Definition span (a size : Z) : Z := (a + size - 1) / MIC_SYSTEM_PAGE_SIZE - a / MIC_SYSTEM_PAGE_SIZE + 1.

Lemma ref_loop_spec end_ : 0 <= end_ < 2 ^ 62 → ∀ fuel start, 0 <= start →
  start < end_ + MIC_SYSTEM_PAGE_SIZE →
  (end_ - 1) / MIC_SYSTEM_PAGE_SIZE - start / MIC_SYSTEM_PAGE_SIZE + 2 <= Z.of_nat fuel → (0 < fuel)%nat →
  ∃ ref, ref_loop fuel start end_ = Some ref ∧ Forall (λ r, 0 < r) ref ∧
    zlen ref = if start <? end_ then (end_ - 1) / MIC_SYSTEM_PAGE_SIZE - start / MIC_SYSTEM_PAGE_SIZE + 1 else 0.
Proof.
  intros He. induction fuel as [|fuel IH]; intros start Hs Hse Hf Hpos; [lia|]. cbn [ref_loop].
  destruct (Z.ltb_spec start end_) as [Hlt|Hge]; [|by exists []].
  rewrite smpt_align_high_next by lia. unfold MIC_SYSTEM_PAGE_SIZE in *.
  set (next := (start / 0x400000000 + 1) * 0x400000000).
  assert (next / 0x400000000 = start / 0x400000000 + 1) as Hd by (unfold next; rewrite Z.div_mul; lia).
  assert (start < next <= start + 0x400000000) as Hn by (unfold next; divlia).
  assert (0 <= start / 0x400000000 <= (end_ - 1) / 0x400000000) as Hle by divlia.
  destruct (IH next) as (ref & -> & Hr & Hl); rewrite ?Hd; try lia. cbn [mbind option_bind].
  eexists. split; [done|]. split; [constructor; [lia|done]|].
  assert (zlen (Z.min next end_ - start :: ref) = zlen ref + 1) as -> by (unfold zlen; cbn; lia).
  rewrite Hl, Hd. destruct (Z.ltb_spec next end_); [lia|]. unfold next in *. divlia.
Qed.

(** The bytes in each entry depend on the offset in the first one only. *)
Lemma ref_loop_shift d fuel : d mod MIC_SYSTEM_PAGE_SIZE = 0 → 0 <= d → ∀ start end_, 0 <= start →
  start < 2 ^ 61 → end_ + MIC_SYSTEM_PAGE_SIZE < 2 ^ 61 → d < 2 ^ 61 →
  ref_loop fuel (start + d) (end_ + d) = ref_loop fuel start end_.
Proof.
  intros Hd Hd0. induction fuel as [|fuel IH]; intros start end_ Hs Hb He Hdb; [done|]. cbn [ref_loop].
  assert ((start + d <? end_ + d) = (start <? end_)) as -> by lia. destruct (Z.ltb_spec start end_); [|done].
  rewrite !smpt_align_high_next by lia.
  replace (((start + d) / MIC_SYSTEM_PAGE_SIZE + 1) * MIC_SYSTEM_PAGE_SIZE) with
    ((start / MIC_SYSTEM_PAGE_SIZE + 1) * MIC_SYSTEM_PAGE_SIZE + d) by (unfold MIC_SYSTEM_PAGE_SIZE in *; divlia).
  rewrite IH by (unfold MIC_SYSTEM_PAGE_SIZE in *; divlia).
  destruct (ref_loop fuel _ end_); [|done]. cbn [mbind option_bind]. do 2 f_equal. lia.
Qed.

Lemma ref_count_spec a size : 0 <= a → 0 < size → a + size < 2 ^ 62 →
  ∃ ref, get_smpt_ref_count a size = Some ref ∧ Forall (λ r, 0 < r) ref ∧ zlen ref = span a size ∧ 0 < span a size.
Proof.
  intros Ha Hs Hb. unfold get_smpt_ref_count. rewrite (wrap_small 64 (a + size)) by (unfold in_width; lia).
  destruct (ref_loop_spec (a + size) ltac:(lia) (Z.to_nat (size / MIC_SYSTEM_PAGE_SIZE) + 3) a) as (ref & E & Hr & Hl);
    [lia|unfold MIC_SYSTEM_PAGE_SIZE; lia|unfold MIC_SYSTEM_PAGE_SIZE; divlia|lia|].
  exists ref. split; [done|]. split; [done|]. destruct (Z.ltb_spec a (a + size)); [|lia].
  split; [done|]. unfold span, MIC_SYSTEM_PAGE_SIZE. divlia.
Qed.

(** ** Histories *)

Definition bus_range (dma_addr size : Z) : Prop :=
  0 <= dma_addr ∧ 0 < size ∧ dma_addr + size + MIC_SYSTEM_PAGE_SIZE < 2 ^ 61.

(** From a table that has been set up, requests come and go and the registers may be
    lost and restored; [live] holds the card's address, the bus address and the size of
    each mapping not yet undone.  An address of 0 says that the request failed. *)
Inductive smpt_run : table sbox → list (Z * Z * Z) → Prop :=
| smpt_run_init m : smpt_run (mic_smpt_init m) []
| smpt_run_restore t live m : smpt_run t live → smpt_run (mic_smpt_restore (Table (entries t) m)) live
| smpt_run_map pm t live dma_addr size mic_addr t' :
    smpt_run t live → bus_range dma_addr size → mic_map pm t dma_addr size = Some (mic_addr, t') →
    smpt_run t' (if mic_addr =? 0 then live else (mic_addr, dma_addr, size) :: live)
| smpt_run_unmap t l1 mic_addr dma_addr size l2 t' :
    smpt_run t (l1 ++ (mic_addr, dma_addr, size) :: l2) →
    mic_unmap t mic_addr size = Some t' → smpt_run t' (l1 ++ l2).

(** The entries behind a mapping, with the bytes in each. *)
Definition to_mapping (x : Z * Z * Z) : mapping :=
  let '(mic_addr, dma_addr, size) := x in
  Mapping (HOSTMIC_PA_TO_SMPT mic_addr) (SMPT_ALIGN_LOW dma_addr)
    (default [] (get_smpt_ref_count dma_addr size)).

Definition live_ok (x : Z * Z * Z) : Prop :=
  let '(mic_addr, dma_addr, size) := x in
  bus_range dma_addr size ∧ span dma_addr size <= 32 ∧
  MIC_SYSTEM_BASE <= mic_addr ∧ mic_addr + size <= MIC_SYSTEM_BASE + MAX_HOST_MEMORY ∧
  mic_addr mod MIC_SYSTEM_PAGE_SIZE = dma_addr mod MIC_SYSTEM_PAGE_SIZE.

Definition page_addr (a : Z) : Prop := 0 <= a < 2 ^ 64 ∧ a mod MIC_SYSTEM_PAGE_SIZE = 0.

Definition smpt_inv (t : table sbox) (live : list (Z * Z * Z)) : Prop :=
  table_inv MIC_SYSTEM_PAGE_SIZE NUM_SMPT_ENTRIES_IN_USE (λ _, 0) t (to_mapping <$> live) ∧
  Forall live_ok live ∧ Forall (λ e, page_addr (dma_addr e)) (entries t).

Lemma page_size_pos : 0 < MIC_SYSTEM_PAGE_SIZE.
Proof. done. Qed.

Lemma pa_to_smpt pa : MIC_SYSTEM_BASE <= pa < 2 ^ 63 →
  HOSTMIC_PA_TO_SMPT pa = (pa - MIC_SYSTEM_BASE) / MIC_SYSTEM_PAGE_SIZE.
Proof.
  intros Hp. unfold HOSTMIC_PA_TO_SMPT, MIC_SYSTEM_BASE, MIC_SYSTEM_PAGE_SHIFT in *.
  rewrite wrap_small by (unfold in_width; lia). by rewrite Z.shiftr_div_pow2 by lia.
Qed.

Lemma smpt_write_all_spec l : ∀ m i, 0 <= i → i + zlen l <= 32 →
  Forall (λ e, page_addr (dma_addr e)) l →
  (∀ j, 0 <= j < i → smpt_reg_addr (smpt_write_all m i l) j = smpt_reg_addr m j) ∧
  ∀ k e, l !! k = Some e → smpt_reg_addr (smpt_write_all m i l) (i + Z.of_nat k) = dma_addr e.
Proof.
  induction l as [|e l IH]; intros m i Hi Hlen Hl; cbn [smpt_write_all].
  { split; [done|]. intros k e He. by rewrite lookup_nil in He. }
  rewrite zlen_cons in Hlen. pose proof (zlen_nonneg l). apply Forall_cons in Hl as [[He Hm] Hl].
  destruct (IH (mic_smpt_set m (dma_addr e) i) (i + 1) ltac:(lia) ltac:(lia) Hl) as [H1 H2]. split.
  - intros j Hj. rewrite H1 by lia. apply smpt_hw_other; change (Z.of_nat NUM_SMPT_ENTRIES_IN_USE) with 32; lia.
  - intros [|k] e' Hk; cbn in Hk.
    + injection Hk as <-. rewrite Z.add_0_r, H1 by lia. apply smpt_hw_same; [change (Z.of_nat NUM_SMPT_ENTRIES_IN_USE) with 32; lia|done|done].
    + replace (i + Z.of_nat (S k)) with (i + 1 + Z.of_nat k) by lia. by apply H2.
Qed.

Lemma page_addr_next a : page_addr a → page_addr (u64 (a + MIC_SYSTEM_PAGE_SIZE)).
Proof. unfold page_addr, MIC_SYSTEM_PAGE_SIZE, wrap. intros [Ha Hm]. divlia. Qed.

Lemma smpt_restored t live m : smpt_inv t live → smpt_inv (mic_smpt_restore (Table (entries t) m)) live.
Proof.
  intros ([Hs Hr Hrefs Hmaps] & Hlive & Hpage). split; [|done]. split; cbn [mic_smpt_restore entries regs]; try done.
  intros i e He. assert (zlen (entries t) = 32) as Hz by (unfold zlen; by rewrite Hs).
  apply (proj2 (smpt_write_all_spec (entries t) m 0 ltac:(done) ltac:(lia) Hpage) i e He).
Qed.

Lemma smpt_started m : smpt_inv (mic_smpt_init m) [].
Proof.
  set (l := (λ i, Entry (Z.of_nat i * MIC_SYSTEM_PAGE_SIZE) 0) <$> seq 0 NUM_SMPT_ENTRIES_IN_USE).
  assert (length l = NUM_SMPT_ENTRIES_IN_USE) as Hlen by done.
  assert (∀ i e, l !! i = Some e → ref_count e = 0 ∧ dma_addr e = Z.of_nat i * MIC_SYSTEM_PAGE_SIZE) as Hl.
  { intros i e He. unfold l in He. rewrite list_lookup_fmap in He.
    destruct (seq 0 NUM_SMPT_ENTRIES_IN_USE !! i) as [j|] eqn:Ej; [|done]. apply lookup_seq in Ej as [-> _].
    by injection He as <-. }
  apply (smpt_restored (Table l (smpt_write_all m 0 l)) [] m). split; [|split; [constructor|]].
  - assert (Forall (λ e, page_addr (dma_addr e)) l) as Hpage.
    { apply Forall_lookup. intros i e He. destruct (Hl i e He) as [_ ->]. apply lookup_lt_Some in He.
      rewrite Hlen in He. unfold page_addr, MIC_SYSTEM_PAGE_SIZE, NUM_SMPT_ENTRIES_IN_USE in *. divlia. }
    split; cbn [entries regs fmap list_fmap]; try done.
    + intros i e He. apply (proj2 (smpt_write_all_spec l m 0 ltac:(done) ltac:(done) Hpage) i e He).
    + intros i e He. by destruct (Hl i e He).
  - apply Forall_lookup. intros i e He. cbn [entries] in He. destruct (Hl i e He) as [_ ->]. apply lookup_lt_Some in He.
    rewrite Hlen in He. unfold page_addr, MIC_SYSTEM_PAGE_SIZE, NUM_SMPT_ENTRIES_IN_USE in *. divlia.
Qed.

(** The array [ref] is overrun exactly when the range touches more entries than the
    table has. *)
Lemma ref_array_spec a size : 0 <= a → 0 < size → a + size < 2 ^ 62 →
  ∃ ref, get_smpt_ref_count a size = Some ref ∧ Forall (λ r, 0 < r) ref ∧ zlen ref = span a size ∧
    0 < span a size ∧ ref_array a size = if span a size <=? 32 then Some ref else None.
Proof.
  intros Ha Hs Hb. destruct (ref_count_spec a size Ha Hs Hb) as (ref & E & Hr & Hl & Hp).
  exists ref. split_and!; try done. unfold ref_array. rewrite E. cbn [mbind option_bind].
  unfold NUM_SMPT_ENTRIES_IN_USE. rewrite <- Hl. unfold zlen.
  destruct (Nat.leb_spec (length ref) 32), (Z.leb_spec (Z.of_nat (length ref)) 32); done || lia.
Qed.

Lemma smpt_span_bound a size : 0 <= a → 0 < size →
  a - a mod MIC_SYSTEM_PAGE_SIZE + span a size * MIC_SYSTEM_PAGE_SIZE < a + size + MIC_SYSTEM_PAGE_SIZE ∧
  a mod MIC_SYSTEM_PAGE_SIZE + size <= span a size * MIC_SYSTEM_PAGE_SIZE.
Proof. unfold span, MIC_SYSTEM_PAGE_SIZE. intros. divlia. Qed.

(** The last entry of the run a request takes, if it finds one. *)
Definition smpt_search (t : table sbox) (dma_addr size : Z) : option Z :=
  search MIC_SYSTEM_PAGE_SIZE 0 (entries t) (span dma_addr size) (SMPT_ALIGN_LOW dma_addr).

Lemma smpt_map_ok t live dma_addr size i : smpt_inv t live → bus_range dma_addr size →
  span dma_addr size <= 32 → smpt_search t dma_addr size = Some i →
  let spt := i - span dma_addr size + 1 in
  let mic_addr := MIC_SYSTEM_BASE + spt * MIC_SYSTEM_PAGE_SIZE + dma_addr mod MIC_SYSTEM_PAGE_SIZE in
  ∃ t', mic_map true t dma_addr size = Some (mic_addr, t') ∧ mic_addr ≠ 0 ∧
    smpt_inv t' ((mic_addr, dma_addr, size) :: live).
Proof.
  intros (Hinv & Hlive & Hpage) (Ha & Hs & Hb) Hn Hsearch spt mic_addr.
  assert (dma_addr + size < 2 ^ 60 * 2) as Hb' by (unfold MIC_SYSTEM_PAGE_SIZE in *; lia).
  destruct (ref_array_spec dma_addr size Ha Hs ltac:(lia)) as (ref & Ec & Hr & Hl & Hp & Ea).
  assert (span dma_addr size <=? 32 = true) as Eb by lia. rewrite Eb in Ea.
  destruct (smpt_span_bound dma_addr size Ha Hs) as [Hb1 Hb2].
  pose proof (Z.mod_pos_bound dma_addr MIC_SYSTEM_PAGE_SIZE page_size_pos) as Hoff.
  unfold smpt_search in Hsearch. rewrite align_low_spec in Hsearch by lia.
  set (low := dma_addr - dma_addr mod MIC_SYSTEM_PAGE_SIZE) in *.
  assert (0 <= low ∧ low mod MIC_SYSTEM_PAGE_SIZE = 0) as [Hl0 Hlm] by (unfold low, MIC_SYSTEM_PAGE_SIZE; divlia).
  assert (low + span dma_addr size * MIC_SYSTEM_PAGE_SIZE < 2 ^ 64) as Hbig by lia.
  destruct (search_sound MIC_SYSTEM_PAGE_SIZE page_size_pos 0 (entries t) _ low i ltac:(lia) Hp Hl0 Hbig Hsearch) as [Hi _].
  assert (zlen (entries t) = 32) as Hz by (unfold zlen; by rewrite (ti_size _ _ _ _ _ Hinv)).
  unfold mic_map, smpt_op. assert (size =? 0 = false) as -> by lia. rewrite Ea. cbn [mbind option_bind negb].
  rewrite align_low_spec by lia. fold low. rewrite Hl, Hsearch. fold spt.
  assert (0 <= spt ∧ spt + span dma_addr size <= 32) as Hspt by (unfold spt; lia).
  assert (SMPT_TO_MIC_PA spt = MIC_SYSTEM_BASE + spt * MIC_SYSTEM_PAGE_SIZE) as ->.
  { apply wrap_small. unfold in_width, MIC_SYSTEM_BASE, MIC_SYSTEM_PAGE_SIZE. lia. }
  rewrite offset_spec. unfold MIC_SYSTEM_BASE, MIC_SYSTEM_PAGE_SIZE in Hoff, Hb2, mic_addr |- *.
  destruct (Z.eqb_spec (0x8000000000 + spt * 0x400000000) 0); [lia|].
  rewrite wrap_small by (unfold in_width; lia). eexists. split; [reflexivity|]. split; [unfold mic_addr; lia|].
  split; [|split].
  - rewrite fmap_cons. unfold to_mapping at 1. rewrite Ec, align_low_spec, pa_to_smpt
      by (unfold MIC_SYSTEM_BASE, mic_addr; lia). cbn [default from_option id]. fold low.
    replace ((mic_addr - MIC_SYSTEM_BASE) / MIC_SYSTEM_PAGE_SIZE) with spt
      by (unfold mic_addr, MIC_SYSTEM_BASE, MIC_SYSTEM_PAGE_SIZE; divlia).
    rewrite <- Hl in Hsearch, Hbig, Hp.
    pose proof (take_inv MIC_SYSTEM_PAGE_SIZE NUM_SMPT_ENTRIES_IN_USE _ page_size_pos (λ _, Z.le_refl 0) t _ 0
      ref low i Hinv (Nat.le_0_l _) Hp Hr Hl0 Hlm Hbig Hsearch) as Ht.
    rewrite Hl in Ht. exact Ht.
  - constructor; [|done]. split; [by split|]. split; [done|].
    unfold mic_addr, MIC_SYSTEM_BASE, MAX_HOST_MEMORY, MIC_SYSTEM_PAGE_SIZE. split_and!; try lia. divlia.
  - apply add_entries_addr; [exact page_addr_next| |done]. split; [|done]. unfold MIC_SYSTEM_PAGE_SIZE in Hbig. lia.
Qed.

Lemma smpt_map_fails pm t dma_addr size : bus_range dma_addr size → span dma_addr size <= 32 →
  pm = false ∨ smpt_search t dma_addr size = None → mic_map pm t dma_addr size = Some (0, t).
Proof.
  intros (Ha & Hs & Hb) Hn Hor.
  assert (dma_addr + size < 2 ^ 60 * 2) as Hb' by (unfold MIC_SYSTEM_PAGE_SIZE in *; lia).
  destruct (ref_array_spec dma_addr size Ha Hs ltac:(lia)) as (ref & Ec & Hr & Hl & Hp & Ea).
  assert (span dma_addr size <=? 32 = true) as Eb by lia. rewrite Eb in Ea.
  unfold mic_map, smpt_op. assert (size =? 0 = false) as -> by lia. rewrite Ea. cbn [mbind option_bind].
  destruct Hor as [-> |Hsearch]; [done|]. destruct pm; [|done]. cbn [negb].
  unfold smpt_search in Hsearch. by rewrite Hl, Hsearch.
Qed.

(** Giving back through the card's address takes the same bytes off the same entries. *)
Lemma ref_count_same mic_addr dma_addr size : bus_range dma_addr size → MIC_SYSTEM_BASE <= mic_addr →
  mic_addr + size <= MIC_SYSTEM_BASE + MAX_HOST_MEMORY →
  mic_addr mod MIC_SYSTEM_PAGE_SIZE = dma_addr mod MIC_SYSTEM_PAGE_SIZE →
  get_smpt_ref_count mic_addr size = get_smpt_ref_count dma_addr size.
Proof.
  intros (Ha & Hs & Hb) H1 H2 Hmod. unfold get_smpt_ref_count.
  unfold MIC_SYSTEM_BASE, MAX_HOST_MEMORY, MIC_SYSTEM_PAGE_SIZE in Hb, H1, H2.
  rewrite !wrap_small by (unfold in_width; lia).
  assert (∀ x y, x mod MIC_SYSTEM_PAGE_SIZE = y mod MIC_SYSTEM_PAGE_SIZE → 0 <= y → y <= x → x < 2 ^ 61 →
    x + size + 0x400000000 < 2 ^ 61 → ∀ fuel, ref_loop fuel x (x + size) = ref_loop fuel y (y + size)) as Hshift.
  { intros x y Hxy Hy Hle Hx Hxs fuel.
    rewrite <- (ref_loop_shift (x - y) fuel) with (start := y) (end_ := y + size);
      try (unfold MIC_SYSTEM_PAGE_SIZE in *; divlia). f_equal; lia. }
  destruct (Z.le_gt_cases dma_addr mic_addr); [apply Hshift|symmetry; apply Hshift]; try done; lia.
Qed.

Lemma smpt_unmap_ok t l1 mic_addr dma_addr size l2 :
  smpt_inv t (l1 ++ (mic_addr, dma_addr, size) :: l2) →
  ∃ t', mic_unmap t mic_addr size = Some t' ∧ smpt_inv t' (l1 ++ l2).
Proof.
  intros (Hinv & Hlive & Hpage). apply Forall_app in Hlive as [Hl1 Hl2].
  apply Forall_cons in Hl2 as [(Hr & Hn & Hm0 & Hm1 & Hmod) Hl2]. pose proof Hr as (Ha & Hs & Hb).
  destruct (ref_array_spec dma_addr size Ha Hs ltac:(unfold MIC_SYSTEM_PAGE_SIZE in *; lia)) as (ref & Ec & _ & Hl & Hp & Ea).
  assert (span dma_addr size <=? 32 = true) as Eb by lia. rewrite Eb in Ea.
  unfold mic_unmap. assert (size =? 0 = false) as -> by lia.
  assert (IS_MIC_SYSTEM_ADDR mic_addr = true) as -> by (unfold IS_MIC_SYSTEM_ADDR, MAX_SYSTEM_ADDR; lia).
  cbn [negb]. unfold ref_array in *. rewrite (ref_count_same mic_addr dma_addr size) by done.
  rewrite Ea. cbn [mbind option_bind]. eexists. split; [reflexivity|].
  rewrite fmap_app, fmap_cons in Hinv.
  pose proof (give_inv MIC_SYSTEM_PAGE_SIZE NUM_SMPT_ENTRIES_IN_USE _ _ _ _ _ Hinv) as Hg.
  unfold to_mapping in Hg at 1 2. cbn [m_spt m_refs] in Hg. rewrite Ec in Hg. cbn [default from_option id] in Hg.
  split; [by rewrite fmap_app|]. split; [by apply Forall_app|]. by apply sub_entries_addr.
Qed.

Lemma smpt_run_ok t live : smpt_run t live → smpt_inv t live.
Proof.
  induction 1 as [m|t live m _ IH|pm t live dma_addr size mic_addr t' _ IH Hr Hm|t l1 mic_addr dma_addr size l2 t' _ IH Hu].
  - apply smpt_started.
  - by apply smpt_restored.
  - destruct (Z.le_gt_cases (span dma_addr size) 32) as [Hn|Hn].
    + destruct pm; [|rewrite smpt_map_fails in Hm by auto; by simplify_eq].
      destruct (smpt_search t dma_addr size) as [i|] eqn:Es.
      * destruct (smpt_map_ok t live dma_addr size i IH Hr Hn Es) as (t2 & E & Hne & Hinv).
        rewrite E in Hm. injection Hm as <- <-. by rewrite (proj2 (Z.eqb_neq _ _) Hne).
      * rewrite smpt_map_fails in Hm by auto. by simplify_eq.
    + destruct Hr as (Ha & Hs & Hb).
      destruct (ref_array_spec dma_addr size Ha Hs ltac:(unfold MIC_SYSTEM_PAGE_SIZE in *; lia)) as (ref & _ & _ & _ & _ & Ea).
      revert Hm. unfold mic_map. assert (size =? 0 = false) as -> by lia. rewrite Ea.
      by assert (span dma_addr size <=? 32 = false) as -> by lia.
  - destruct (smpt_unmap_ok t l1 mic_addr dma_addr size l2 IH) as (t2 & E & Hinv). rewrite E in Hu. by simplify_eq.
Qed.

(** C29: whatever mappings come and go and however often the registers are lost and
    restored, every byte of a mapping that is held is translated to its bus address by
    the host's table and by the registers of the card; taking the table down with none
    held warns of no entry. *)
Theorem smpt_translates t live : smpt_run t live →
  (∀ mic_addr dma_addr size off, (mic_addr, dma_addr, size) ∈ live → 0 <= off < size →
     is_syspa (mic_addr + off) = true ∧
     mic_to_dma_addr t (mic_addr + off) = Some (dma_addr + off) ∧
     smpt_reg_addr (regs t) (HOSTMIC_PA_TO_SMPT (mic_addr + off)) + SMPT_OFFSET (mic_addr + off) = dma_addr + off) ∧
  (live = [] → mic_smpt_uninit t = ([], None)).
Proof.
  intros Hrun. pose proof (smpt_run_ok t live Hrun) as (Hinv & Hlive & _). split.
  2: { intros ->. unfold mic_smpt_uninit. rewrite warned_none; [done|]. intros i e He.
       exact (inv_quiet _ _ _ t i e Hinv He). }
  intros mic_addr dma_addr size off Hin Hoff. rewrite Forall_forall in Hlive.
  destruct (Hlive _ Hin) as ((Ha & Hs & Hb) & Hn & Hm0 & Hm1 & Hmod).
  destruct (smpt_span_bound dma_addr size Ha Hs) as [_ Hb2].
  destruct (ref_count_spec dma_addr size Ha Hs ltac:(unfold MIC_SYSTEM_PAGE_SIZE in *; lia)) as (ref & Ec & _ & Hl & _).
  set (o := dma_addr mod MIC_SYSTEM_PAGE_SIZE + off).
  assert (is_syspa (mic_addr + off) = true) as Hsys
    by (unfold is_syspa, IS_MIC_SYSTEM_ADDR, MAX_SYSTEM_ADDR; lia).
  assert (∀ x, mic_addr <= x < mic_addr + size → HOSTMIC_PA_TO_SMPT x = (x - MIC_SYSTEM_BASE) / MIC_SYSTEM_PAGE_SIZE) as Hpa.
  { intros x Hx. apply pa_to_smpt. unfold MIC_SYSTEM_BASE, MAX_HOST_MEMORY, MIC_SYSTEM_PAGE_SIZE in *. lia. }
  destruct (inv_translate MIC_SYSTEM_PAGE_SIZE NUM_SMPT_ENTRIES_IN_USE _ page_size_pos t _
    (to_mapping (mic_addr, dma_addr, size)) o Hinv) as (e & He & Hreg & Htr).
  { apply list_elem_of_fmap. eauto. }
  { cbn [to_mapping m_refs]. rewrite Ec. cbn [default from_option id]. rewrite Hl.
    pose proof (Z.mod_pos_bound dma_addr MIC_SYSTEM_PAGE_SIZE page_size_pos). unfold o. lia. }
  cbn [to_mapping m_spt m_addr] in He, Hreg, Htr. rewrite Hpa in He, Hreg, Htr by lia.
  rewrite align_low_spec in Htr by (unfold MIC_SYSTEM_PAGE_SIZE in *; lia).
  set (x := (mic_addr - MIC_SYSTEM_BASE) / MIC_SYSTEM_PAGE_SIZE * MIC_SYSTEM_PAGE_SIZE + o) in *.
  assert (x = mic_addr + off - MIC_SYSTEM_BASE ∧ x mod MIC_SYSTEM_PAGE_SIZE = (mic_addr + off) mod MIC_SYSTEM_PAGE_SIZE)
    as [Ex Exm] by (unfold x, o, MIC_SYSTEM_BASE, MIC_SYSTEM_PAGE_SIZE in *; divlia).
  assert (dma_addr - dma_addr mod MIC_SYSTEM_PAGE_SIZE + o = dma_addr + off) as Eo by (unfold o; lia).
  assert (SMPT_OFFSET (mic_addr + off) = x mod MIC_SYSTEM_PAGE_SIZE) as Hso by (rewrite Exm; apply offset_spec).
  split; [done|]. rewrite Hso, Hpa, <- Ex by lia. split.
  - unfold mic_to_dma_addr. unfold is_syspa in Hsys. rewrite Hsys. cbn [negb].
    rewrite Hso, Hpa, <- Ex, He by lia. cbn [mbind option_bind]. rewrite Htr, Eo. f_equal. apply wrap_small.
    unfold in_width, MIC_SYSTEM_PAGE_SIZE in *. lia.
  - change (smpt_reg_addr (regs t) (x / MIC_SYSTEM_PAGE_SIZE)) with (hw_get (regs t) (x / MIC_SYSTEM_PAGE_SIZE)).
    by rewrite Hreg, Htr, Eo.
Qed.

(** C33: the array [ref] on the stack of [mic_map] holds 32 counts and nothing checks how
    many entries a range touches: the call writes past the end of the array exactly when
    the range touches more than 32 entries, whether or not the table has room.  A range
    within the bound is either mapped or refused with address 0 and the table as it was. *)
Theorem smpt_map_bounds t live dma_addr size pm : smpt_run t live → bus_range dma_addr size →
  (mic_map pm t dma_addr size = None ↔ 32 < span dma_addr size) ∧
  (span dma_addr size <= 32 →
     (∃ mic_addr t', mic_map pm t dma_addr size = Some (mic_addr, t') ∧
        MIC_SYSTEM_BASE <= mic_addr ∧ mic_addr + size <= MIC_SYSTEM_BASE + MAX_HOST_MEMORY ∧
        pm = true ∧ is_Some (smpt_search t dma_addr size)) ∨
     (mic_map pm t dma_addr size = Some (0, t) ∧ (pm = false ∨ smpt_search t dma_addr size = None))).
Proof.
  intros Hrun Hr. pose proof (smpt_run_ok t live Hrun) as Hinv.
  assert (32 < span dma_addr size → mic_map pm t dma_addr size = None) as Hover.
  { intros Hn. destruct Hr as (Ha & Hs & Hb).
    destruct (ref_array_spec dma_addr size Ha Hs ltac:(unfold MIC_SYSTEM_PAGE_SIZE in *; lia)) as (ref & _ & _ & _ & _ & Ea).
    unfold mic_map. assert (size =? 0 = false) as -> by lia. rewrite Ea.
    by assert (span dma_addr size <=? 32 = false) as -> by lia. }
  match goal with |- _ ∧ ?Q => enough Q as Hin end.
  { split; [split; [|exact Hover]|exact Hin]. intros E. destruct (Z.le_gt_cases (span dma_addr size) 32) as [Hn|Hn]; [|lia].
    destruct (Hin Hn) as [(mic_addr & t' & E' & _)|[E' _]]; congruence. }
  intros Hn. destruct pm; [|right; split; [apply smpt_map_fails; auto|auto]].
  destruct (smpt_search t dma_addr size) as [i|] eqn:Es; [|right; split; [apply smpt_map_fails; auto|auto]].
  left. destruct (smpt_map_ok t live dma_addr size i Hinv Hr Hn Es) as (t' & E & _ & (_ & Hlive & _)).
  apply Forall_cons in Hlive as [(_ & _ & H1 & H2 & _) _]. eexists _, t'. split; [exact E|]. split_and!; try done.
Qed.

(** ** A table with one mapping *)

(** 20 GB from 600 GB on: above the addresses mapped one to one at the start. *)
Definition demo_addr : Z := 600 * 2 ^ 30 + 4096.
Definition demo_size : Z := 20 * 2 ^ 30.

Definition demo_table : Z * table sbox := default (0, mic_smpt_init ∅) (mic_map true (mic_smpt_init ∅) demo_addr demo_size).

Lemma demo_range : bus_range demo_addr demo_size.
Proof. unfold bus_range, demo_addr, demo_size, MIC_SYSTEM_PAGE_SIZE. lia. Qed.

Lemma demo_run : smpt_run demo_table.2 [(demo_table.1, demo_addr, demo_size)].
Proof.
  assert (mic_map true (mic_smpt_init ∅) demo_addr demo_size = Some demo_table) as E by (vm_compute; reflexivity).
  destruct demo_table as [x t] eqn:Et.
  pose proof (smpt_run_map true _ _ _ _ _ _ (smpt_run_init ∅) demo_range E) as Hrun.
  assert (x =? 0 = false) as Hx by (change x with (x, t).1; rewrite <- Et; vm_compute; reflexivity).
  by rewrite Hx in Hrun.
Qed.

Lemma smpt_translates_witness :
  mic_to_dma_addr demo_table.2 (demo_table.1 + 5000) = Some (demo_addr + 5000).
Proof.
  apply (proj1 (smpt_translates demo_table.2 _ demo_run) demo_table.1 demo_addr demo_size 5000);
    [by left|unfold demo_size; lia].
Defined.

(** A range of 1 TB. *)
Lemma smpt_map_bounds_witness : mic_map true (mic_smpt_init ∅) demo_addr (2 ^ 40) = None.
Proof.
  apply (smpt_map_bounds (mic_smpt_init ∅) [] demo_addr (2 ^ 40) true (smpt_run_init ∅)).
  - unfold bus_range, demo_addr, MIC_SYSTEM_PAGE_SIZE. lia.
  - vm_compute. reflexivity.
Defined.

End Smpt.
