(* ===== verification/DmaX200.v ===== *)
(** * The DMA channel of the x200 card

    Models [mpss4/mpss-modules/mic_x200_dma/mic_x200_dma.c] and the cookies of its
    [dmaengine.h]: a ring of 4096 descriptors that the driver fills and the engine
    empties, with an array of transactions beside it.  Requests are cut into descriptors
    ([mic_dma_prep_memcpy_lock]), get a cookie when they are submitted
    ([mic_dma_tx_submit_unlock]) and are completed by [mic_dma_cleanup] once the engine
    has cleared the valid bit of their last descriptor.  Registers are fields of the
    channel.  File DmaX200Inv states what the engine does and proves the claims. *)
From S2P Require Import Prelude.
Local Open Scope Z_scope.

Module DmaX200.

Definition MIC_DMA_DESC_RX_SIZE : Z := 4 * 1024.
Definition MIC_DMA_DESC_VALID : Z := Z.shiftl 1 31.
Definition MIC_DMA_DESC_INTR_ENABLE : Z := Z.shiftl 1 30.
Definition MIC_DMA_DESC_LOW_MASK : Z := 0xffffffff.
Definition MIC_DMA_DESC_SRC_LOW_SHIFT : Z := 32.
Definition MIC_DMA_DESC_BITS_32_TO_47 : Z := Z.shiftl 0xffff 32.
Definition MIC_DMA_DESC_SIZE_MASK : Z := Z.shiftl 1 27 - 1.
Definition MIC_DMA_CTRL_ABORT : Z := Z.shiftl 1 1.
Definition MIC_DMA_CTRL_WB_ENABLE : Z := Z.shiftl 1 2.
Definition MIC_DMA_CTRL_START : Z := Z.shiftl 1 3.
Definition MIC_DMA_CTRL_OFFCHIP_MODE : Z := Z.shiftl 2 5.
Definition MIC_DMA_CTRL_DESC_INVLD_STATUS : Z := Z.shiftl 1 8.
Definition MIC_DMA_CTRL_ABORT_DONE_STATUS : Z := Z.shiftl 1 10.
Definition MIC_DMA_CTRL_HEADER_LOG : Z := Z.shiftl 1 31.
Definition MIC_DMA_CTRL_MODE_BITS : Z := Z.shiftl 3 5.
Definition MIC_DMA_CTRL_STATUS_BITS : Z := Z.shiftl 0x1F 8.
Definition mic_dma_pending_level : Z := 16.
(** Kernel constants: [DMA_PREP_INTERRUPT] and [DMA_MIN_COOKIE]. *)
Definition DMA_PREP_INTERRUPT : Z := 1.
Definition DMA_MIN_COOKIE : Z := 1.

Record mic_dma_desc := Desc { qw0 : Z; qw1 : Z }.

(** What the driver uses of [struct dma_async_tx_descriptor]; a callback is a tag. *)
Record dma_tx := Tx { tx_cookie : Z; tx_callback : option Z; tx_flags : Z }.

(** [struct mic_dma_chan] with the cookies of [struct dma_chan] and the registers
    [CTRL_STATUS], [NEXT_DESC_ADDR_LOW] and [LAST_DESC_ADDR_LOW]; [called] lists the
    callbacks run. *)
Record mic_dma_chan := Chan {
  last_tail : Z; head : Z;
  desc_ring : gmap Z mic_dma_desc; desc_ring_da : Z;
  tx_array : gmap Z dma_tx;
  cookie : Z; completed_cookie : Z; called : list Z;
  notify_hw : bool; abort_tail : Z; abort_counter : Z;
  ctrl_status : Z; next_desc : Z; last_desc : Z;
}.

(** The ring and the array are zeroed when they are allocated. *)
Definition desc_at (r : gmap Z mic_dma_desc) (i : Z) : mic_dma_desc := default (Desc 0 0) (r !! i).
Definition tx_at (r : gmap Z dma_tx) (i : Z) : dma_tx := default (Tx 0 None 0) (r !! i).

Definition set_ring (c : mic_dma_chan) (r : gmap Z mic_dma_desc) (h : Z) : mic_dma_chan :=
  Chan (last_tail c) h r (desc_ring_da c) (tx_array c) (cookie c) (completed_cookie c) (called c)
    (notify_hw c) (abort_tail c) (abort_counter c) (ctrl_status c) (next_desc c) (last_desc c).
Definition set_tx (c : mic_dma_chan) (i : Z) (t : dma_tx) (ck : Z) : mic_dma_chan :=
  Chan (last_tail c) (head c) (desc_ring c) (desc_ring_da c) (<[i := t]> (tx_array c)) ck (completed_cookie c)
    (called c) (notify_hw c) (abort_tail c) (abort_counter c) (ctrl_status c) (next_desc c) (last_desc c).
Definition set_tail (c : mic_dma_chan) (t : Z) (txs : gmap Z dma_tx) (done : Z) (cb : list Z) : mic_dma_chan :=
  Chan t (head c) (desc_ring c) (desc_ring_da c) txs (cookie c) done cb
    (notify_hw c) (abort_tail c) (abort_counter c) (ctrl_status c) (next_desc c) (last_desc c).
Definition set_regs (c : mic_dma_chan) (notify : bool) (ctrl : Z) : mic_dma_chan :=
  Chan (last_tail c) (head c) (desc_ring c) (desc_ring_da c) (tx_array c) (cookie c) (completed_cookie c)
    (called c) notify (abort_tail c) (abort_counter c) ctrl (next_desc c) (last_desc c).

(** ** The ring *)

Definition mic_dma_ring_inc (val : Z) : Z := Z.land (u32 (val + 1)) (MIC_DMA_DESC_RX_SIZE - 1).
Definition mic_dma_ring_dec (val : Z) : Z := if negb (val =? 0) then val - 1 else MIC_DMA_DESC_RX_SIZE - 1.

(** The free slots, less one. *)
Definition mic_dma_ring_count (head tail : Z) : Z :=
  let count := if tail <=? head then tail - 0 + (MIC_DMA_DESC_RX_SIZE - head) else tail - head in
  count - 1.

Definition mic_dma_memcpy_desc (src_phys dst_phys size flags : Z) : mic_dma_desc :=
  let q := u64 (Z.shiftl (Z.land src_phys MIC_DMA_DESC_BITS_32_TO_47) 16) in
  let q := Z.lor q (Z.land dst_phys MIC_DMA_DESC_BITS_32_TO_47) in
  let q := Z.lor q (Z.land size MIC_DMA_DESC_SIZE_MASK) in
  let q := Z.lor q MIC_DMA_DESC_VALID in
  let q := if negb (Z.land flags DMA_PREP_INTERRUPT =? 0) then Z.lor q MIC_DMA_DESC_INTR_ENABLE else q in
  let q' := u64 (Z.shiftl (Z.land src_phys MIC_DMA_DESC_LOW_MASK) MIC_DMA_DESC_SRC_LOW_SHIFT) in
  let q' := Z.lor q' (Z.land dst_phys MIC_DMA_DESC_LOW_MASK) in
  Desc q q'.

Definition put_desc (c : mic_dma_chan) (d : mic_dma_desc) : mic_dma_chan :=
  set_ring c (<[head c := d]> (desc_ring c)) (mic_dma_ring_inc (head c)).

Definition mic_dma_fence_intr_desc (c : mic_dma_chan) (flags : Z) : mic_dma_chan :=
  put_desc c (mic_dma_memcpy_desc (desc_ring_da c) (desc_ring_da c) 0 flags).

(** [max_xfer_size] as set by [mic_dma_probe]. *)
Definition max_xfer_size : Z := MIC_DMA_DESC_SIZE_MASK.

Fixpoint prog_loop (fuel : nat) (c : mic_dma_chan) (src dst len : Z) : option mic_dma_chan :=
  match fuel with
  | O => None
  | S fuel =>
      if 0 <? len then
        let current_transfer_len := Z.min len max_xfer_size in
        let c := put_desc c (mic_dma_memcpy_desc src dst current_transfer_len 0) in
        prog_loop fuel c (u64 (src + current_transfer_len)) (u64 (dst + current_transfer_len))
          (len - current_transfer_len)
      else Some c
  end.

Definition num_desc (len flags : Z) : Z :=
  let n := s32 (len / max_xfer_size) in
  let n := if negb (len mod max_xfer_size =? 0) then n + 1 else n in
  if negb (flags =? 0) then n + 1 else n.

(** Fuel: one round for each descriptor and the test that ends the loop. *)
Definition mic_dma_prog_memcpy_desc (c : mic_dma_chan) (src dst len flags : Z) : option (Z * mic_dma_chan) :=
  if num_desc len flags =? 0 then Some (- EINVAL, c)
  else if mic_dma_ring_count (head c) (last_tail c) <? num_desc len flags then Some (- EBUSY, c)
  else
    c ← prog_loop (Z.to_nat (len / max_xfer_size) + 2) c src dst len;
    Some (0, c).

(** ** Cookies *)

Definition dma_cookie_assign (c : mic_dma_chan) : Z :=
  let ck := s32 (cookie c + 1) in
  if ck <? DMA_MIN_COOKIE then DMA_MIN_COOKIE else ck.

(** [dma_async_is_complete] of the kernel: whether a cookie is complete. *)
Definition dma_async_is_complete (ck last_complete last_used : Z) : bool :=
  if last_complete <=? last_used
  then (ck <=? last_complete) || (last_used <? ck)
  else (ck <=? last_complete) && (last_used <? ck).

Definition dma_cookie_status (c : mic_dma_chan) (ck : Z) : bool :=
  dma_async_is_complete ck (completed_cookie c) (cookie c).

(** The loop of [mic_dma_cleanup]; [None] is the [BUG_ON] of [dma_cookie_complete], or no
    fuel. *)
Fixpoint cleanup_loop (fuel : nat) (ring : gmap Z mic_dma_desc) (cached_head tail : Z)
    (txs : gmap Z dma_tx) (done : Z) (cb : list Z) : option (Z * gmap Z dma_tx * Z * list Z) :=
  match fuel with
  | O => None
  | S fuel =>
      if negb (tail =? cached_head) then
        if negb (Z.land (qw0 (desc_at ring tail)) MIC_DMA_DESC_VALID =? 0) then Some (tail, txs, done, cb)
        else
          let tx := tx_at txs tail in
          if negb (tx_cookie tx =? 0) then
            if tx_cookie tx <? DMA_MIN_COOKIE then None
            else
              cleanup_loop fuel ring cached_head (mic_dma_ring_inc tail)
                (<[tail := Tx 0 None (tx_flags tx)]> txs) (tx_cookie tx)
                (match tx_callback tx with Some t => cb ++ [t] | None => cb end)
          else cleanup_loop fuel ring cached_head (mic_dma_ring_inc tail) txs done cb
      else Some (tail, txs, done, cb)
  end.

Definition mic_dma_cleanup (c : mic_dma_chan) : option mic_dma_chan :=
  '(t, txs, done, cb) ← cleanup_loop (Z.to_nat MIC_DMA_DESC_RX_SIZE + 1) (desc_ring c) (head c) (last_tail c)
                          (tx_array c) (completed_cookie c) (called c);
  Some (set_tail c t txs done cb).

Definition mic_dma_tx_status (c : mic_dma_chan) (ck : Z) : option (bool * mic_dma_chan) :=
  if negb (dma_cookie_status c ck)
  then c ← mic_dma_cleanup c; Some (dma_cookie_status c ck, c)
  else Some (dma_cookie_status c ck, c).

(** ** Requests *)

(** The index of the transaction; the callback is left as it is. *)
Definition allocate_tx (c : mic_dma_chan) (flags : Z) : Z * mic_dma_chan :=
  let idx := if negb (flags =? 0) then head c else mic_dma_ring_dec (head c) in
  let t := tx_at (tx_array c) idx in
  (idx, set_tx c idx (Tx (tx_cookie t) (tx_callback t) flags) (cookie c)).

(** One pass of [mic_dma_prep_memcpy_lock] with its lock: [PRetry] gives the lock up,
    sleeps and starts again. *)
Inductive prep_result := PTx (idx : Z) | PNull (err : Z) | PRetry.

Definition prep_pass (in_time : bool) (c : mic_dma_chan) (dma_dest dma_src len flags : Z)
  : option (prep_result * mic_dma_chan) :=
  '(result, c) ← mic_dma_prog_memcpy_desc c dma_src dma_dest len flags;
  '(result, c) ← (if result =? - EBUSY
                  then c ← mic_dma_cleanup c; mic_dma_prog_memcpy_desc c dma_src dma_dest len flags
                  else Some (result, c));
  if (result =? - EBUSY) && in_time then Some (PRetry, c)
  else if 0 <=? result then let '(idx, c) := allocate_tx c flags in Some (PTx idx, c)
  else Some (PNull result, c).

(** The retries: in each round but the last there is time left and the pass is followed
    by a clean-up; [world] is what the rest of the system does to the channel then. *)
Fixpoint mic_dma_prep_memcpy_lock (rounds : list (mic_dma_chan → mic_dma_chan)) (c : mic_dma_chan)
    (dma_dest dma_src len flags : Z) : option (prep_result * mic_dma_chan) :=
  match rounds with
  | [] => prep_pass false c dma_dest dma_src len flags
  | world :: rounds =>
      '(r, c) ← prep_pass true c dma_dest dma_src len flags;
      match r with
      | PRetry => c ← mic_dma_cleanup (world c); mic_dma_prep_memcpy_lock rounds c dma_dest dma_src len flags
      | _ => Some (r, c)
      end
  end.

Definition mic_dma_prep_interrupt_lock (rounds : list (mic_dma_chan → mic_dma_chan)) (c : mic_dma_chan) (flags : Z) :=
  mic_dma_prep_memcpy_lock rounds c 0 0 0 flags.

(** ** Telling the engine *)

(** What the control register holds after [v] has been written to it: a status bit is
    cleared by writing it, the other bits are stored. *)
Definition write_ctrl (old v : Z) : Z :=
  let status := Z.lor MIC_DMA_CTRL_STATUS_BITS MIC_DMA_CTRL_HEADER_LOG in
  Z.lor (Z.ldiff (u32 v) status) (Z.land (Z.ldiff old v) status).

Definition mic_dma_issue_pending (c : mic_dma_chan) : mic_dma_chan :=
  if notify_hw c then
    let ctrl_reg := ctrl_status c in
    if negb (Z.land ctrl_reg MIC_DMA_CTRL_DESC_INVLD_STATUS =? 0)
    then set_regs c false (write_ctrl ctrl_reg (Z.lor ctrl_reg MIC_DMA_CTRL_START))
    else c
  else c.

Definition mic_dma_update_pending (c : mic_dma_chan) : mic_dma_chan :=
  if mic_dma_pending_level <? mic_dma_ring_count (head c) (last_tail c) then mic_dma_issue_pending c else c.

(** The caller has put [cb] into the transaction. *)
Definition mic_dma_tx_submit_unlock (c : mic_dma_chan) (idx : Z) (cb : option Z) : Z * mic_dma_chan :=
  let t := tx_at (tx_array c) idx in
  let ck := dma_cookie_assign c in
  let c := set_tx c idx (Tx ck cb (tx_flags t)) ck in
  let c :=
    if negb (tx_flags t =? 0) then
      let c := mic_dma_fence_intr_desc c (tx_flags t) in set_tx c idx (Tx ck cb 0) ck
    else c in
  (ck, mic_dma_update_pending c).

Definition mic_dma_enable_chan (c : mic_dma_chan) : mic_dma_chan :=
  let ctrl_reg := Z.lor (ctrl_status c) MIC_DMA_CTRL_WB_ENABLE in
  let ctrl_reg := Z.lor ctrl_reg (Z.lor MIC_DMA_CTRL_HEADER_LOG MIC_DMA_CTRL_STATUS_BITS) in
  let ctrl_reg := Z.ldiff ctrl_reg MIC_DMA_CTRL_MODE_BITS in
  let ctrl_reg := Z.lor ctrl_reg MIC_DMA_CTRL_OFFCHIP_MODE in
  let ctrl_reg := Z.lor ctrl_reg MIC_DMA_CTRL_START in
  let ctrl_reg := Z.ldiff ctrl_reg MIC_DMA_CTRL_ABORT in
  set_regs c true (write_ctrl (ctrl_status c) ctrl_reg).

(** [done]: whether the engine reports the abort in time. *)
Definition mic_dma_disable_chan (done : bool) (c : mic_dma_chan) : mic_dma_chan :=
  let ctrl_reg := Z.ldiff (Z.lor (ctrl_status c) MIC_DMA_CTRL_ABORT) MIC_DMA_CTRL_START in
  set_regs c (if done then false else notify_hw c) (write_ctrl (ctrl_status c) ctrl_reg).

Definition mic_dma_chan_set_desc_ring (c : mic_dma_chan) : mic_dma_chan :=
  Chan (last_tail c) (head c) (desc_ring c) (desc_ring_da c) (tx_array c) (cookie c) (completed_cookie c)
    (called c) (notify_hw c) (abort_tail c) (abort_counter c) (ctrl_status c)
    (Z.land (desc_ring_da c) 0xffffffff) (last_desc c).

(** [mic_dma_chan_setup] of a channel whose ring has just been allocated at [da]; the
    interrupt mask is not part of the model. *)
Definition mic_dma_chan_setup (c : mic_dma_chan) (da : Z) : mic_dma_chan :=
  let c := Chan 0 0 ∅ da ∅ (cookie c) (completed_cookie c) (called c) (notify_hw c) (abort_tail c)
             (abort_counter c) (ctrl_status c) (next_desc c) (last_desc c) in
  mic_dma_enable_chan (mic_dma_chan_set_desc_ring c).

(** ** Interrupts *)

Definition mic_dma_invld_desc_interrupt (c : mic_dma_chan) : mic_dma_chan :=
  if negb (notify_hw c) then
    let ctrl_reg := ctrl_status c in
    if negb (Z.land ctrl_reg MIC_DMA_CTRL_DESC_INVLD_STATUS =? 0) then
      if negb (Z.land (qw0 (desc_at (desc_ring c) (mic_dma_ring_dec (head c)))) MIC_DMA_DESC_VALID =? 0)
      then set_regs c (notify_hw c) (write_ctrl ctrl_reg (Z.lor ctrl_reg MIC_DMA_CTRL_START))
      else set_regs c true ctrl_reg
    else c
  else c.

Definition desc_ring_da_to_index (c : mic_dma_chan) (descr : Z) : Z :=
  let last_dma_off := u64 (descr - Z.land (desc_ring_da c) 0xffffffff) in
  Z.land (u32 (last_dma_off / 16)) (MIC_DMA_DESC_RX_SIZE - 1).
Definition desc_ring_index_to_da (c : mic_dma_chan) (index : Z) : Z :=
  Z.land (u64 (desc_ring_da c + 16 * index)) 0xffffffff.

(** The first valid descriptor from [idx] on, or the head. *)
Fixpoint first_valid (fuel : nat) (c : mic_dma_chan) (idx : Z) : option Z :=
  match fuel with
  | O => None
  | S fuel =>
      if negb (idx =? head c) then
        if negb (Z.land (qw0 (desc_at (desc_ring c) idx)) MIC_DMA_DESC_VALID =? 0) then Some idx
        else first_valid fuel c (mic_dma_ring_inc idx)
      else Some idx
  end.

Definition mic_dma_abort_interrupt (c : mic_dma_chan) : option mic_dma_chan :=
  let last_idx := desc_ring_da_to_index c (last_desc c) in
  new_idx ← first_valid (Z.to_nat MIC_DMA_DESC_RX_SIZE + 1) c (last_tail c);
  let new_reg := desc_ring_index_to_da c new_idx in
  let '(at_, cnt) := if negb (abort_tail c =? last_idx) then (last_idx, 0) else (abort_tail c, u32 (abort_counter c + 1)) in
  let upd c cnt := Chan (last_tail c) (head c) (desc_ring c) (desc_ring_da c) (tx_array c) (cookie c)
    (completed_cookie c) (called c) (notify_hw c) at_ cnt (ctrl_status c) new_reg (last_desc c) in
  Some (if cnt <? 5 then
          if Z.land (ctrl_status c) MIC_DMA_CTRL_ABORT =? 0 then mic_dma_enable_chan (upd c cnt) else upd c 0
        else upd c cnt).

End DmaX200.
