(* ===== verification/DmaX200Inv.v ===== *)
(** * The DMA channel and the engine

    The engine takes the descriptors of the ring in order: it copies, clears the valid
    bit and moves on; where it finds an invalid descriptor it stops, sets
    [DESC_INVLD_STATUS] and raises an interrupt, and goes on once the driver has cleared
    that bit.  The claims are about any interleaving of the engine's steps with requests,
    submissions, clean-ups and interrupts.  Counters without bound ([H], [W], [T]: the
    descriptors programmed, executed and cleaned up) stand behind the ring indices. *)
From S2P Require Import Prelude DmaX200.
Local Open Scope Z_scope.

Module DmaX200Inv.
Import DmaX200.

Notation N := MIC_DMA_DESC_RX_SIZE.

(** ** Descriptors *)

Definition is_valid (d : mic_dma_desc) : bool := negb (Z.land (qw0 d) MIC_DMA_DESC_VALID =? 0).
Definition desc_src (d : mic_dma_desc) : Z := (qw0 d / 2 ^ 48) mod 2 ^ 16 * 2 ^ 32 + (qw1 d / 2 ^ 32) mod 2 ^ 32.
Definition desc_dst (d : mic_dma_desc) : Z := (qw0 d / 2 ^ 32) mod 2 ^ 16 * 2 ^ 32 + qw1 d mod 2 ^ 32.
Definition desc_size (d : mic_dma_desc) : Z := qw0 d mod 2 ^ 27.
Definition desc_intr (d : mic_dma_desc) : bool := Z.testbit (qw0 d) 30.
Definition clear_valid (d : mic_dma_desc) : mic_dma_desc := Desc (Z.ldiff (qw0 d) MIC_DMA_DESC_VALID) (qw1 d).

Lemma memcpy_desc_words src dst size flags : 0 <= src < 2 ^ 48 → 0 <= dst < 2 ^ 48 → 0 <= size < 2 ^ 27 →
  mic_dma_memcpy_desc src dst size flags =
  Desc (src / 2 ^ 32 * 2 ^ 48 + (dst / 2 ^ 32 * 2 ^ 32 + (1 * 2 ^ 31 +
          ((if negb (Z.land flags DMA_PREP_INTERRUPT =? 0) then 1 else 0) * 2 ^ 30 + size))))
    (src mod 2 ^ 32 * 2 ^ 32 + dst mod 2 ^ 32).
Proof.
  intros Hs Hd Hz. unfold mic_dma_memcpy_desc.
  assert (∀ x, 0 <= x < 2 ^ 48 → Z.land x MIC_DMA_DESC_BITS_32_TO_47 = x / 2 ^ 32 * 2 ^ 32 ∧ 0 <= x / 2 ^ 32 < 2 ^ 16) as Hhi.
  { intros x Hx. change MIC_DMA_DESC_BITS_32_TO_47 with (Z.shiftl (Z.ones 16) 32).
    rewrite land_field, Z.mod_small by divlia. divlia. }
  destruct (Hhi src Hs) as [-> Hs'], (Hhi dst Hd) as [-> Hd'].
  change MIC_DMA_DESC_LOW_MASK with (Z.ones 32). change MIC_DMA_DESC_SIZE_MASK with (2 ^ 27 - 1).
  rewrite !Z.land_ones, land_pow2_mask, (Z.mod_small size) by lia.
  change MIC_DMA_DESC_SRC_LOW_SHIFT with 32. rewrite !Z.shiftl_mul_pow2 by lia.
  pose proof (Z.mod_pos_bound src (2 ^ 32) eq_refl). pose proof (Z.mod_pos_bound dst (2 ^ 32) eq_refl).
  rewrite !wrap_small by (unfold in_width; lia).
  f_equal; [|by rewrite lor_low by lia].
  replace (src / 2 ^ 32 * 2 ^ 32 * 2 ^ 16) with (src / 2 ^ 32 * 2 ^ 48) by lia.
  change MIC_DMA_DESC_VALID with (1 * 2 ^ 31). change MIC_DMA_DESC_INTR_ENABLE with (1 * 2 ^ 30).
  assert (Z.lor (1 * 2 ^ 30) size = 1 * 2 ^ 30 + size) as E30 by (apply lor_low; lia).
  assert (∀ x, 0 <= x < 2 ^ 31 → Z.lor (src / 2 ^ 32 * 2 ^ 48) (Z.lor (dst / 2 ^ 32 * 2 ^ 32) (Z.lor (1 * 2 ^ 31) x)) =
    src / 2 ^ 32 * 2 ^ 48 + (dst / 2 ^ 32 * 2 ^ 32 + (1 * 2 ^ 31 + x))) as E.
  { intros x Hx. rewrite (lor_low 1 x), (lor_low (dst / 2 ^ 32)), lor_low by lia. done. }
  destruct (negb _); rewrite <- !Z.lor_assoc, (Z.lor_comm size).
  - rewrite <- E by lia. rewrite <- E30, <- !Z.lor_assoc. done.
  - rewrite E by lia. done.
Qed.

Definition copy : Type := Z * Z * Z.
Definition decode (d : mic_dma_desc) : copy := (desc_src d, desc_dst d, desc_size d).

Lemma memcpy_desc_decode src dst size flags : 0 <= src < 2 ^ 48 → 0 <= dst < 2 ^ 48 → 0 <= size < 2 ^ 27 →
  let d := mic_dma_memcpy_desc src dst size flags in
  is_valid d = true ∧ decode d = (src, dst, size) ∧ desc_intr d = negb (Z.land flags DMA_PREP_INTERRUPT =? 0).
Proof.
  intros Hs Hd Hz. cbv zeta. rewrite memcpy_desc_words by done.
  unfold is_valid, decode, desc_src, desc_dst, desc_size, desc_intr. cbn [qw0 qw1].
  pose proof (Z.mod_pos_bound src (2 ^ 32) eq_refl). pose proof (Z.mod_pos_bound dst (2 ^ 32) eq_refl).
  assert (0 <= src / 2 ^ 32 < 2 ^ 16 ∧ 0 <= dst / 2 ^ 32 < 2 ^ 16) as [Hs' Hd'] by divlia.
  pose proof (Z.div_mod src (2 ^ 32) ltac:(lia)). pose proof (Z.div_mod dst (2 ^ 32) ltac:(lia)).
  change MIC_DMA_DESC_VALID with (2 ^ 31). rewrite land_bit by lia.
  destruct (negb (Z.land flags DMA_PREP_INTERRUPT =? 0)).
  all: split_and!; [zcases; (done || (exfalso; divlia))|f_equal; [f_equal|]; divlia|].
  all: rewrite Z.testbit_eqb by lia; zcases; (done || (exfalso; divlia)).
Qed.

(** ** Ring indices *)

Lemma slot_range a : 0 <= a mod N < N.
Proof. by apply Z.mod_pos_bound. Qed.

Lemma slot_inj a b : a mod N = b mod N → Z.abs (a - b) < N → a = b.
Proof. unfold MIC_DMA_DESC_RX_SIZE. intros. divlia. Qed.

Lemma slot_wrap a : (a + N) mod N = a mod N.
Proof. rewrite <- (Z.mul_1_l N) at 1. by apply Z.mod_add. Qed.

Lemma ring_inc_slot a : mic_dma_ring_inc (a mod N) = (a + 1) mod N.
Proof.
  unfold mic_dma_ring_inc. pose proof (slot_range a). unfold MIC_DMA_DESC_RX_SIZE in *.
  rewrite wrap_small by (unfold in_width; lia). change (4 * 1024 - 1) with (2 ^ 12 - 1).
  rewrite land_pow2_mask by lia. change (4 * 1024) with (2 ^ 12). apply Zplus_mod_idemp_l.
Qed.

Lemma ring_dec_slot a : mic_dma_ring_dec (a mod N) = (a - 1) mod N.
Proof. unfold mic_dma_ring_dec, MIC_DMA_DESC_RX_SIZE. zcases; cbn [negb]; divlia. Qed.

Lemma ring_count_slots h t : 0 <= h - t < N → mic_dma_ring_count (h mod N) (t mod N) = N - 1 - (h - t).
Proof. unfold mic_dma_ring_count, MIC_DMA_DESC_RX_SIZE. intros. zcases; divlia. Qed.

(** ** A request as copies

    The copies of a request, and that they cut it into consecutive pieces. *)
Fixpoint chunks (n : nat) (src dst len : Z) : list copy :=
  match n with
  | O => []
  | S n =>
      if 0 <? len then
        let k := Z.min len max_xfer_size in (src, dst, k) :: chunks n (src + k) (dst + k) (len - k)
      else []
  end.
Definition request_copies (src dst len : Z) : list copy := chunks (Z.to_nat (len / max_xfer_size) + 1) src dst len.

Inductive tiles : Z → Z → Z → list copy → Prop :=
  | tiles_nil src dst : tiles src dst 0 []
  | tiles_cons src dst len k l : 0 < k <= max_xfer_size → k <= len →
      tiles (src + k) (dst + k) (len - k) l → tiles src dst len ((src, dst, k) :: l).

Lemma chunks_tiles n src dst len : 0 <= len <= Z.of_nat n * max_xfer_size → tiles src dst len (chunks n src dst len).
Proof.
  revert src dst len. induction n as [|n IH]; intros src dst len Hlen.
  { assert (len = 0) as -> by lia. constructor. }
  cbn [chunks]. change max_xfer_size with 134217727 in *. zcases.
  - constructor; [|lia|apply IH; lia]. change max_xfer_size with 134217727. lia.
  - assert (len = 0) as -> by lia. constructor.
Qed.

Lemma request_copies_tile src dst len : 0 <= len → tiles src dst len (request_copies src dst len).
Proof. intros. apply chunks_tiles. change max_xfer_size with 134217727. divlia. Qed.

Lemma chunks_count n src dst len : 0 <= len → (zlen (chunks n src dst len) - 1) * max_xfer_size < len ∨ chunks n src dst len = [].
Proof.
  revert src dst len. induction n as [|n IH]; intros src dst len Hlen; [by right|].
  cbn [chunks]. change max_xfer_size with 134217727 in *. zcases; [|by right].
  left. rewrite zlen_cons.
  destruct (IH (src + Z.min len 134217727) (dst + Z.min len 134217727) (len - Z.min len 134217727)) as [Hc|Hc]; [lia| |].
  - lia.
  - rewrite Hc. change (zlen (@nil copy)) with 0. lia.
Qed.

Definition req_ok (src dst len flags : Z) : Prop :=
  0 <= src ∧ 0 <= dst ∧ 0 <= len ∧ src + len <= 2 ^ 48 - 1 ∧ dst + len <= 2 ^ 48 - 1 ∧ 0 <= flags.

Lemma request_copies_count src dst len flags : req_ok src dst len flags →
  zlen (request_copies src dst len) + (if flags =? 0 then 0 else 1) <= num_desc len flags.
Proof.
  intros (Hs & Hd & Hl & Hs' & Hd' & Hf). unfold num_desc.
  assert (0 <= len / max_xfer_size < 2 ^ 31) by (change max_xfer_size with 134217727; divlia).
  rewrite s32_small by lia. assert (zlen (request_copies src dst len) <=
    if negb (len mod max_xfer_size =? 0) then len / max_xfer_size + 1 else len / max_xfer_size).
  - destruct (chunks_count (Z.to_nat (len / max_xfer_size) + 1) src dst len Hl) as [Hc|Hc];
      unfold request_copies; [|rewrite Hc; change (zlen (@nil copy)) with 0; destruct (negb _); lia].
    change max_xfer_size with 134217727 in *. zcases; cbn [negb]; divlia.
  - destruct (flags =? 0); cbn [negb]; lia.
Qed.

(** ** The ring against the history

    [prog] lists every descriptor programmed, [w] of them have been executed: the slots
    from there to the head hold the rest, the others are not valid. *)
Definition ring_ok (ring : gmap Z mic_dma_desc) (prog : list copy) (w : Z) : Prop :=
  (∀ a, w <= a < zlen prog → is_valid (desc_at ring (a mod N)) = true ∧
     prog !! Z.to_nat a = Some (decode (desc_at ring (a mod N)))) ∧
  (∀ a, zlen prog <= a < w + N → is_valid (desc_at ring (a mod N)) = false).

Lemma desc_at_insert ring a b d : Z.abs (a - b) < N →
  desc_at (<[a mod N := d]> ring) (b mod N) = if a =? b then d else desc_at ring (b mod N).
Proof.
  intros Hab. unfold desc_at. zcases; [subst; by rewrite lookup_insert_eq|].
  rewrite lookup_insert_ne; [done|]. intros E. by apply slot_inj in E.
Qed.

Lemma ring_ok_put ring prog w d : ring_ok ring prog w → 0 <= w <= zlen prog → zlen prog < w + N → is_valid d = true →
  ring_ok (<[zlen prog mod N := d]> ring) (prog ++ [decode d]) w.
Proof.
  intros [Hv Hi] Hw Hroom Hd. split; intros a; rewrite zlen_app; change (zlen [decode d]) with 1; intros Ha.
  - rewrite desc_at_insert by lia. zcases.
    + subst a. split; [done|]. unfold zlen. by rewrite Nat2Z.id, lookup_app_r, Nat.sub_diag by lia.
    + rewrite lookup_app_l by (unfold zlen in *; lia). apply Hv. lia.
  - rewrite desc_at_insert by lia. zcases; [lia|]. apply Hi. lia.
Qed.

Lemma ring_ok_run ring prog w d' : ring_ok ring prog w → 0 <= w < zlen prog → zlen prog <= w + N → is_valid d' = false →
  ring_ok (<[w mod N := d']> ring) prog (w + 1).
Proof.
  intros [Hv Hi] Hw Hroom Hd. split; intros a Ha.
  - rewrite desc_at_insert by lia. zcases; [lia|]. apply Hv. lia.
  - destruct (Z.eq_dec a (w + N)) as [->|].
    + rewrite slot_wrap, desc_at_insert by (unfold MIC_DMA_DESC_RX_SIZE; lia). zcases; [done|lia].
    + rewrite desc_at_insert by lia. zcases; [lia|]. apply Hi. lia.
Qed.

Lemma prog_loop_spec n : ∀ fuel c prog w src dst len,
  (n < fuel)%nat → 0 <= len <= Z.of_nat n * max_xfer_size → req_ok src dst len 0 →
  ring_ok (desc_ring c) prog w → head c = zlen prog mod N →
  0 <= w <= zlen prog → zlen prog + zlen (chunks n src dst len) < w + N →
  ∃ ring, let prog' := prog ++ chunks n src dst len in
    prog_loop fuel c src dst len = Some (set_ring c ring (zlen prog' mod N)) ∧ ring_ok ring prog' w.
Proof.
  induction n as [|n IH]; intros fuel c prog w src dst len Hf Hlen Hreq Hring Hh Hw Hroom;
    (destruct fuel as [|fuel]; [lia|]); cbn [prog_loop chunks] in *; cbv zeta.
  { exists (desc_ring c). rewrite app_nil_r, <- Hh. zcases; [lia|]. split; [by destruct c|done]. }
  destruct (Z.ltb_spec 0 len) as [Hl|Hl].
  2:{ exists (desc_ring c). rewrite app_nil_r, <- Hh. split; [by destruct c|done]. }
  set (k := Z.min len max_xfer_size) in *. change max_xfer_size with 134217727 in *.
  assert (0 < k <= len ∧ k <= 134217727) as Hk by lia.
  destruct Hreq as (Hs & Hd & _ & Hs' & Hd' & _). rewrite zlen_cons in Hroom.
  destruct (memcpy_desc_decode src dst k 0) as (Hval & Hdec & _); [lia..|].
  set (d := mic_dma_memcpy_desc src dst k 0) in *.
  rewrite !wrap_small by (unfold in_width; lia).
  destruct (IH fuel (put_desc c d) (prog ++ [decode d]) w (src + k) (dst + k) (len - k)) as (ring & E & Hok).
  - lia.
  - lia.
  - unfold req_ok. lia.
  - unfold put_desc. cbn [desc_ring set_ring]. rewrite Hh. apply ring_ok_put; try done. pose proof (zlen_nonneg (chunks n (src + k) (dst + k) (len - k))). lia.
  - unfold put_desc. cbn [head set_ring]. rewrite Hh, ring_inc_slot, zlen_app. done.
  - rewrite zlen_app. change (zlen [decode d]) with 1. lia.
  - rewrite zlen_app. change (zlen [decode d]) with 1. lia.
  - rewrite <- app_assoc in Hok, E. cbn [app] in Hok, E. rewrite Hdec in Hok, E. exists ring. split; [|done].
    rewrite E. done.
Qed.

Lemma prog_memcpy_spec c prog w t src dst len flags : req_ok src dst len flags → ring_ok (desc_ring c) prog w →
  head c = zlen prog mod N → last_tail c = t mod N → 0 <= t <= w → w <= zlen prog → zlen prog < t + N →
  let prog' := prog ++ request_copies src dst len in
  (∃ r, r < 0 ∧ mic_dma_prog_memcpy_desc c src dst len flags = Some (r, c)) ∨
  (∃ ring, mic_dma_prog_memcpy_desc c src dst len flags = Some (0, set_ring c ring (zlen prog' mod N)) ∧
     ring_ok ring prog' w ∧ zlen prog' + (if flags =? 0 then 0 else 1) < t + N ∧ (flags = 0 → zlen prog < zlen prog')).
Proof.
  intros Hreq Hring Hh Ht Htw Hwh Hroom prog'. unfold mic_dma_prog_memcpy_desc.
  rewrite Hh, Ht, ring_count_slots by lia.
  destruct (Z.eqb_spec (num_desc len flags) 0) as [|Hn]; [left; exists (- EINVAL); by split|].
  destruct (Z.ltb_spec (N - 1 - (zlen prog - t)) (num_desc len flags)); [left; exists (- EBUSY); by split|].
  right. pose proof (request_copies_count src dst len flags Hreq) as Hcnt.
  assert (Hreq0 : req_ok src dst len 0) by (unfold req_ok in *; lia).
  destruct (prog_loop_spec (Z.to_nat (len / max_xfer_size) + 1) (Z.to_nat (len / max_xfer_size) + 2)
              c prog w src dst len) as (ring & E & Hok); try done.
  - lia.
  - unfold req_ok in Hreq. change max_xfer_size with 134217727. divlia.
  - lia.
  - change (zlen prog + zlen (request_copies src dst len) < w + N). destruct (flags =? 0); lia.
  - exists ring. rewrite E. unfold prog'. split_and!; [done..|rewrite zlen_app; lia|].
    intros ->. rewrite zlen_app. enough (len ≠ 0) as Hl.
    { unfold request_copies. rewrite Nat.add_1_r. cbn [chunks]. unfold req_ok in Hreq. destruct (Z.ltb_spec 0 len); [|lia].
      rewrite zlen_cons. pose proof (zlen_nonneg (chunks (Z.to_nat (len / max_xfer_size)) (src + len `min` max_xfer_size)
        (dst + len `min` max_xfer_size) (len - len `min` max_xfer_size))). lia. }
    intros ->. by apply Hn.
Qed.

(** ** Submissions

    A submission with the position of its last descriptor. *)
Record sub := Sub { s_last : Z; s_cookie : Z; s_cb : option Z }.

Definition find_sub (a : Z) (subs : list sub) : option sub := List.find (fun s => s_last s =? a) subs.
Definition finished (t : Z) (subs : list sub) : list sub := filter (fun s => s_last s < t) subs.
Definition done_cookie (t : Z) (subs : list sub) : Z := default DMA_MIN_COOKIE (s_cookie <$> last (finished t subs)).
Definition done_calls (t : Z) (subs : list sub) : list Z := omap s_cb (finished t subs).

Definition subs_ok (subs : list sub) (h : Z) : Prop :=
  StronglySorted (fun x y => s_last x < s_last y) subs ∧
  Forall (fun s => 0 <= s_last s < h ∧ DMA_MIN_COOKIE <= s_cookie s < 2 ^ 31) subs.

(** The array of transactions: the slots that are not cleaned up carry the cookies of
    the submissions whose last descriptor is there. *)
Definition tx_ok (txs : gmap Z dma_tx) (subs : list sub) (t : Z) : Prop :=
  ∀ a, t <= a < t + N →
    match find_sub a subs with
    | Some s => tx_cookie (tx_at txs (a mod N)) = s_cookie s ∧ tx_callback (tx_at txs (a mod N)) = s_cb s
    | None => tx_cookie (tx_at txs (a mod N)) = 0
    end.

Lemma find_sub_Some a subs s : find_sub a subs = Some s → s ∈ subs ∧ s_last s = a.
Proof.
  intros E. apply List.find_some in E as [E1 E2]. split; [by apply list_elem_of_In|by apply Z.eqb_eq].
Qed.

Lemma find_sub_None a subs : (∀ s, s ∈ subs → s_last s ≠ a) → find_sub a subs = None.
Proof.
  intros E. destruct (find_sub a subs) as [s|] eqn:F; [|done]. apply find_sub_Some in F as [F1 F2].
  by destruct (E s F1).
Qed.

Lemma finished_cons t x l : finished t (x :: l) = if decide (s_last x < t) then x :: finished t l else finished t l.
Proof. unfold finished. by rewrite filter_cons. Qed.

Lemma finished_none t subs : Forall (fun s => t <= s_last s) subs → finished t subs = [].
Proof.
  intros H. unfold finished. induction H as [|s l Hs Hl IH]; [done|]. rewrite filter_cons.
  case_decide; [lia|done].
Qed.

Lemma finished_step t subs : StronglySorted (fun x y => s_last x < s_last y) subs →
  finished (t + 1) subs = finished t subs ++ option_list (find_sub t subs).
Proof.
  induction 1 as [|s l Hl IH Hs]; [done|]. cbn [find_sub List.find].
  rewrite !finished_cons. destruct (Z.eqb_spec (s_last s) t) as [Et|Et].
  - rewrite decide_True, decide_False by lia.
    rewrite (finished_none (t + 1) l), (finished_none t l); [done|..];
      (eapply Forall_impl; [exact Hs|cbv beta; lia]).
  - destruct (decide (s_last s < t)) as [Hlt|Hlt].
    + rewrite decide_True by lia. cbn [app]. f_equal. apply IH.
    + rewrite decide_False by lia. apply IH.
Qed.

Lemma finished_all t subs : Forall (fun s => s_last s < t) subs → finished t subs = subs.
Proof.
  intros H. unfold finished. induction H as [|s l Hs Hl IH]; [done|]. rewrite filter_cons, decide_True by done.
  by f_equal.
Qed.

Lemma tx_at_insert txs a b x : Z.abs (a - b) < N →
  tx_at (<[a mod N := x]> txs) (b mod N) = if a =? b then x else tx_at txs (b mod N).
Proof.
  intros Hab. unfold tx_at. zcases; [subst; by rewrite lookup_insert_eq|].
  rewrite lookup_insert_ne; [done|]. intros E. by apply slot_inj in E.
Qed.

(** A clean-up moves the tail over one slot that is not valid. *)
Lemma tx_ok_skip txs subs t h : tx_ok txs subs t → subs_ok subs h → h <= t + N → find_sub t subs = None →
  tx_ok txs subs (t + 1).
Proof.
  intros Htx [_ Hs] Hh Hf a Ha. destruct (Z.eq_dec a (t + N)) as [->|]; [|apply Htx; lia].
  rewrite find_sub_None.
  - pose proof (Htx t ltac:(unfold MIC_DMA_DESC_RX_SIZE; lia)) as E. rewrite Hf in E.
    by rewrite slot_wrap.
  - intros s Es. rewrite Forall_forall in Hs. specialize (Hs s Es). lia.
Qed.

Lemma tx_ok_finish txs subs t h cb f : tx_ok txs subs t → subs_ok subs h → h <= t + N →
  tx_ok (<[t mod N := Tx 0 cb f]> txs) subs (t + 1).
Proof.
  intros Htx [_ Hs] Hh a Ha. destruct (Z.eq_dec a (t + N)) as [->|].
  - rewrite find_sub_None.
    + rewrite slot_wrap, tx_at_insert by (unfold MIC_DMA_DESC_RX_SIZE; lia). zcases; [done|lia].
    + intros s Es. rewrite Forall_forall in Hs. specialize (Hs s Es). lia.
  - rewrite tx_at_insert by lia. zcases; [lia|]. apply Htx. lia.
Qed.

Lemma cleanup_loop_spec n : ∀ fuel ring prog w t txs subs,
  n = Z.to_nat (w - t) → (n < fuel)%nat → ring_ok ring prog w → subs_ok subs (zlen prog) → tx_ok txs subs t →
  0 <= t <= w → w <= zlen prog → zlen prog < t + N →
  ∃ txs', cleanup_loop fuel ring (zlen prog mod N) (t mod N) txs (done_cookie t subs) (done_calls t subs) =
      Some (w mod N, txs', done_cookie w subs, done_calls w subs) ∧
    tx_ok txs' subs w ∧ ∀ i, tx_flags (tx_at txs' i) = tx_flags (tx_at txs i).
Proof.
  induction n as [|n IH]; intros fuel ring prog w t txs subs Hn Hf Hring Hsubs Htx Ht Hw Hroom;
    (destruct fuel as [|fuel]; [lia|]); cbn [cleanup_loop].
  { assert (t = w) as -> by lia. exists txs. split; [|done]. destruct (Z.eqb_spec (w mod N) (zlen prog mod N)); [done|]. cbn [negb].
    destruct (proj1 Hring w) as [Hv _]; [destruct (Z.eq_dec w (zlen prog)); [congruence|lia]|].
    unfold is_valid in Hv. by rewrite Hv. }
  assert (t mod N =? zlen prog mod N = false) as ->.
  { apply Z.eqb_neq. intros E. apply slot_inj in E; lia. }
  cbn [negb]. assert (is_valid (desc_at ring (t mod N)) = false) as Hv.
  { rewrite <- slot_wrap. apply Hring. lia. }
  unfold is_valid in Hv. rewrite Hv, ring_inc_slot. pose proof (Htx t ltac:(unfold MIC_DMA_DESC_RX_SIZE; lia)) as E.
  pose proof (finished_step t subs (proj1 Hsubs)) as Hfin. destruct (find_sub t subs) as [s|] eqn:Hs.
  - destruct E as [-> ->]. assert (DMA_MIN_COOKIE <= s_cookie s).
    { destruct Hsubs as [_ Hall]. rewrite Forall_forall in Hall. apply Hall. by apply find_sub_Some in Hs as []. }
    unfold DMA_MIN_COOKIE in *. destruct (Z.eqb_spec (s_cookie s) 0); [lia|]. destruct (Z.ltb_spec (s_cookie s) 1); [lia|]. cbn [negb].
    destruct (IH fuel ring prog w (t + 1) (<[t mod N := Tx 0 None (tx_flags (tx_at txs (t mod N)))]> txs) subs)
      as (txs' & E & Htx' & Hfl); try done; try lia; [by apply tx_ok_finish with (zlen prog); [..|lia]|].
    exists txs'. split_and!; [|done|].
    + rewrite <- E. f_equal.
      * unfold done_cookie. rewrite Hfin. change (option_list (Some s)) with [s]. by rewrite last_snoc.
      * unfold done_calls. rewrite Hfin. change (option_list (Some s)) with [s]. rewrite omap_app. cbn.
        destruct (s_cb s); [done|by rewrite app_nil_r].
    + intros i. rewrite Hfl. unfold tx_at. destruct (Z.eq_dec (t mod N) i) as [<-|];
        [by rewrite lookup_insert_eq|by rewrite lookup_insert_ne].
  - rewrite E. cbn [Z.eqb negb].
    destruct (IH fuel ring prog w (t + 1) txs subs) as (txs' & E' & Htx' & Hfl); try done; try lia.
    { apply tx_ok_skip with (zlen prog); [done..|lia|done]. }
    exists txs'. split; [|done]. rewrite <- E'. unfold done_cookie, done_calls. by rewrite Hfin, app_nil_r.
Qed.

End DmaX200Inv.
