(* ===== verification/DmaX200Sys.v ===== *)
(** * The DMA channel against its engine

    [sys] is the channel with the engine that reads its ring: the engine executes the
    valid descriptor at its position, writes it back as no longer valid and moves on;
    where it finds one that is not valid it stops, sets [DESC_INVLD_STATUS] and raises an
    interrupt, and goes on once the driver has cleared that bit; an abort can take it down
    at any descriptor.  [step] interleaves the engine with requests, submissions,
    clean-ups, status calls and interrupts of the driver.  [reachable] is any run; the
    theorems are about [prompt] runs, in which no request without flags is submitted when it has
    already been executed and cleaned up, and about what happens to one that is.  The history of the run ([prog],
    [ran], [subs]) is not read by the driver. *)
From S2P Require Import Prelude DmaX200 DmaX200Inv.
Local Open Scope Z_scope.

Module DmaX200Sys.
Import DmaX200 DmaX200Inv.

(** [held] is the transaction between its preparation and its submission, when the
    driver holds [prep_lock]: its index and its flags. *)
Record sys := Sys {
  ch : mic_dma_chan; hw : Z; irq : bool; aborted : bool; held : option (Z * Z);
  ran : list copy; prog : list copy; subs : list sub;
}.

Definition stopped (c : mic_dma_chan) : bool := negb (Z.land (ctrl_status c) MIC_DMA_CTRL_DESC_INVLD_STATUS =? 0).

Definition with_ch (s : sys) (c : mic_dma_chan) : sys :=
  Sys c (hw s) (irq s) (aborted s) (held s) (ran s) (prog s) (subs s).

(** The descriptor under the engine is replaced by [d]. *)
Definition engine_run (s : sys) (d : mic_dma_desc) : sys :=
  Sys (set_ring (ch s) (<[hw s := d]> (desc_ring (ch s))) (head (ch s))) (mic_dma_ring_inc (hw s)) (irq s) (aborted s)
    (held s) (ran s ++ [decode (desc_at (desc_ring (ch s)) (hw s))]) (prog s) (subs s).
Definition engine_stop (s : sys) : sys :=
  Sys (set_regs (ch s) (notify_hw (ch s)) (Z.lor (ctrl_status (ch s)) MIC_DMA_CTRL_DESC_INVLD_STATUS)) (hw s) true
    (aborted s) (held s) (ran s) (prog s) (subs s).
Definition interrupt (s : sys) : sys :=
  Sys (mic_dma_invld_desc_interrupt (ch s)) (hw s) false (aborted s) (held s) (ran s) (prog s) (subs s).

(** The engine reports [last] as its last descriptor and stops; it is restarted when the
    handler has enabled the channel again. *)
Definition set_last_desc (c : mic_dma_chan) (last : Z) : mic_dma_chan :=
  Chan (last_tail c) (head c) (desc_ring c) (desc_ring_da c) (tx_array c) (cookie c) (completed_cookie c) (called c)
    (notify_hw c) (abort_tail c) (abort_counter c) (ctrl_status c) (next_desc c) last.
Definition restarted (c c' : mic_dma_chan) : bool :=
  (Z.land (ctrl_status c) MIC_DMA_CTRL_ABORT =? 0) && (abort_counter c' <? 5).
Definition abort (s : sys) (last : Z) : option sys :=
  c ← mic_dma_abort_interrupt (set_last_desc (ch s) last);
  Some (Sys c (desc_ring_da_to_index c (next_desc c)) (irq s) (negb (restarted (ch s) c)) (held s) (ran s) (prog s) (subs s)).

Definition fence (c : mic_dma_chan) (flags : Z) : list copy :=
  if flags =? 0 then [] else [(desc_ring_da c, desc_ring_da c, 0)].

Definition submit (s : sys) (idx flags : Z) (cb : option Z) : sys :=
  let '(ck, c) := mic_dma_tx_submit_unlock (ch s) idx cb in
  let prog := prog s ++ fence (ch s) flags in
  Sys c (hw s) (irq s) (aborted s) None (ran s) prog (subs s ++ [Sub (zlen prog - 1) ck cb]).

Definition flagged (o : option (Z * Z)) : Z :=
  match o with Some (_, flags) => if flags =? 0 then 0 else 1 | None => 0 end.

Inductive step : sys → sys → Prop :=
  | step_prep s in_time src dst len flags idx c :
      held s = None → req_ok src dst len flags →
      prep_pass in_time (ch s) dst src len flags = Some (PTx idx, c) →
      step s (Sys c (hw s) (irq s) (aborted s) (Some (idx, flags)) (ran s)
                (prog s ++ request_copies src dst len) (subs s))
  | step_refused s in_time src dst len flags r c :
      held s = None → req_ok src dst len flags →
      prep_pass in_time (ch s) dst src len flags = Some (r, c) → (∀ idx, r ≠ PTx idx) →
      step s (with_ch s c)
  | step_submit s idx flags cb :
      held s = Some (idx, flags) → step s (submit s idx flags cb)
  | step_cleanup s c : mic_dma_cleanup (ch s) = Some c → step s (with_ch s c)
  | step_status s ck r c : mic_dma_tx_status (ch s) ck = Some (r, c) → step s (with_ch s c)
  | step_issue s : step s (with_ch s (mic_dma_issue_pending (ch s)))
  | step_interrupt s : irq s = true → step s (interrupt s)
  | step_run s d :
      aborted s = false → stopped (ch s) = false →
      is_valid (desc_at (desc_ring (ch s)) (hw s)) = true → is_valid d = false → step s (engine_run s d)
  | step_stop s :
      aborted s = false → stopped (ch s) = false →
      is_valid (desc_at (desc_ring (ch s)) (hw s)) = false → step s (engine_stop s)
  | step_abort s last s' : in_width 32 last → abort s last = Some s' → step s s'.

(** A channel whose resources have just been allocated, its ring at [da]. *)
Definition init (da : Z) : sys :=
  Sys (mic_dma_chan_setup (Chan 0 0 ∅ 0 ∅ DMA_MIN_COOKIE DMA_MIN_COOKIE [] false 0 0 0x03C30000 0 0) da)
    0 false false None [] [] [].

(** Any run. *)
Definition reachable (da : Z) (s : sys) : Prop := 0 <= da < 2 ^ 48 ∧ rtc step (init da) s.

(** The step submits a request that was prepared without flags when all its copies have been
    executed and a clean-up has passed them: nothing in the driver prevents this, since the cookie is
    stored only then. *)
Definition late_submit (s s' : sys) : Prop :=
  (∃ idx, held s = Some (idx, 0)) ∧ last_tail (ch s) = head (ch s) ∧ held s' = None.

(** Runs without late submissions. *)
Definition prompt_step (s s' : sys) : Prop := step s s' ∧ ¬ late_submit s s'.
Definition prompt (da : Z) (s : sys) : Prop := 0 <= da < 2 ^ 48 ∧ rtc prompt_step (init da) s.

Lemma prompt_reachable da s : prompt da s → reachable da s.
Proof.
  intros [Hda Hr]. split; [done|]. clear Hda. induction Hr as [s|s s' s'' [Hs _] _ IH]; [done|]. by eapply rtc_l.
Qed.

(** A step that takes a request, keeps one or has none to submit is prompt. *)
Lemma prompt_other s s' : step s s' → held s' ≠ None ∨ flagged (held s) = 1 ∨ held s = None → prompt_step s s'.
Proof.
  intros Hs H. split; [done|]. intros ((idx & Hi) & _ & Hn). rewrite Hi in H. naive_solver congruence.
Qed.

(** ** The control register *)

Lemma stopped_bit c : stopped c = Z.testbit (ctrl_status c) 8.
Proof.
  unfold stopped. change MIC_DMA_CTRL_DESC_INVLD_STATUS with (2 ^ 8). rewrite land_bit by lia.
  rewrite Z.testbit_eqb by lia. pose proof (Z.mod_pos_bound (ctrl_status c / 2 ^ 8) 2 eq_refl). zcases; try done; lia.
Qed.

Lemma write_ctrl_clears old v : Z.testbit v 8 = true → Z.testbit (write_ctrl old v) 8 = false.
Proof.
  intros Hv. unfold write_ctrl. rewrite Z.lor_spec, Z.ldiff_spec, Z.land_spec, Z.ldiff_spec, Hv.
  change (Z.testbit (Z.lor MIC_DMA_CTRL_STATUS_BITS MIC_DMA_CTRL_HEADER_LOG) 8) with true.
  by rewrite !andb_false_r.
Qed.

Lemma kick_runs c n : stopped c = true →
  stopped (set_regs c n (write_ctrl (ctrl_status c) (Z.lor (ctrl_status c) MIC_DMA_CTRL_START))) = false.
Proof.
  rewrite !stopped_bit. cbn [ctrl_status set_regs]. intros E. apply write_ctrl_clears.
  by rewrite Z.lor_spec, E.
Qed.

Lemma enable_runs c : stopped (mic_dma_enable_chan c) = false.
Proof.
  rewrite stopped_bit. unfold mic_dma_enable_chan. cbn [ctrl_status set_regs]. apply write_ctrl_clears.
  rewrite Z.ldiff_spec, !Z.lor_spec, Z.ldiff_spec, !Z.lor_spec.
  change (Z.testbit MIC_DMA_CTRL_ABORT 8) with false. change (Z.testbit MIC_DMA_CTRL_MODE_BITS 8) with false.
  change (Z.testbit MIC_DMA_CTRL_STATUS_BITS 8) with true.
  by rewrite !orb_true_r, !andb_true_r.
Qed.

(** ** The invariant

    [t] descriptors have been cleaned up, [ran] have been executed, [prog] programmed. *)
Record inv (s : sys) (t : Z) : Prop := Inv {
  i_bounds : 0 <= t <= zlen (ran s) ∧ zlen (ran s) <= zlen (prog s) ∧ zlen (prog s) + flagged (held s) < t + N;
  i_tail : last_tail (ch s) = t mod N;
  i_head : head (ch s) = zlen (prog s) mod N;
  i_hw : hw s = zlen (ran s) mod N;
  i_da : 0 <= desc_ring_da (ch s) < 2 ^ 48;
  i_ring : ring_ok (desc_ring (ch s)) (prog s) (zlen (ran s));
  i_ran : ran s `prefix_of` prog s;
  i_subs : subs_ok (subs s) (zlen (prog s));
  i_tx : tx_ok (tx_array (ch s)) (subs s) t;
  i_done : completed_cookie (ch s) = done_cookie t (subs s);
  i_called : called (ch s) = done_calls t (subs s);
  i_cookie : cookie (ch s) = default DMA_MIN_COOKIE (s_cookie <$> last (subs s));
  i_cookies : zlen (subs s) < 2 ^ 31 - 2 → ∀ i x, subs s !! i = Some x → s_cookie x = Z.of_nat i + 2;
  i_held : match held s with
    | None => True
    | Some (idx, flags) =>
        tx_flags (tx_at (tx_array (ch s)) idx) = flags ∧
        idx = (if flags =? 0 then zlen (prog s) - 1 else zlen (prog s)) mod N ∧
        (flags = 0 → 0 < zlen (prog s) ∧ Forall (fun x => s_last x < zlen (prog s) - 1) (subs s))
    end;
  i_kick : notify_hw (ch s) = false → stopped (ch s) = true → irq s = true;
}.

Lemma flagged_range o : 0 <= flagged o <= 1.
Proof. destruct o as [[? f]|]; cbn; [destruct (f =? 0)|]; lia. Qed.

Lemma dma_init_inv da : 0 <= da < 2 ^ 48 → inv (init da) 0.
Proof.
  intros Hda. constructor; try done; [|by repeat constructor].
  split; [cbn; lia|]. intros a _. unfold desc_at. cbn. by rewrite lookup_empty.
Qed.

(** Only the registers change. *)
Lemma inv_regs s t n ctrl b : inv s t → (n = false → Z.testbit ctrl 8 = true → b = true) →
  inv (Sys (set_regs (ch s) n ctrl) (hw s) b (aborted s) (held s) (ran s) (prog s) (subs s)) t.
Proof.
  intros [] Hk. constructor; try done. intros Hn Hs. rewrite stopped_bit in Hs. by apply Hk.
Qed.

Lemma set_regs_same c : set_regs c (notify_hw c) (ctrl_status c) = c.
Proof. by destruct c. Qed.

Lemma issue_inv s t : inv s t → inv (with_ch s (mic_dma_issue_pending (ch s))) t.
Proof.
  intros H. unfold mic_dma_issue_pending. destruct (notify_hw (ch s)); [|by destruct s].
  fold (stopped (ch s)). destruct (stopped (ch s)) eqn:E; [|by destruct s].
  apply inv_regs; [done|]. intros _ Hb. pose proof (kick_runs (ch s) false E) as Hk.
  rewrite stopped_bit in Hk. cbn [ctrl_status set_regs] in Hk. congruence.
Qed.

Lemma update_pending_inv s t : inv s t → inv (with_ch s (mic_dma_update_pending (ch s))) t.
Proof. intros H. unfold mic_dma_update_pending. destruct (_ <? _); [by apply issue_inv|by destruct s]. Qed.

(** With descriptors left to execute, the one before the head is valid. *)
Lemma last_valid s t : inv s t → zlen (ran s) < zlen (prog s) →
  is_valid (desc_at (desc_ring (ch s)) (mic_dma_ring_dec (head (ch s)))) = true.
Proof.
  intros [] Hlt. rewrite i_head0, ring_dec_slot. apply i_ring0. lia.
Qed.

Lemma dma_interrupt_inv s t : inv s t → inv (interrupt s) t.
Proof.
  intros H. unfold interrupt, mic_dma_invld_desc_interrupt.
  destruct (notify_hw (ch s)) eqn:En; cbn [negb].
  { rewrite <- (set_regs_same (ch s)). apply inv_regs; [done|by rewrite En]. }
  fold (stopped (ch s)). destruct (stopped (ch s)) eqn:E.
  - destruct (negb _); apply inv_regs; try done. intros _ Hb. pose proof (kick_runs (ch s) false E) as Hk.
    rewrite stopped_bit in Hk. cbn [ctrl_status set_regs] in Hk. congruence.
  - rewrite <- (set_regs_same (ch s)). apply inv_regs; [done|]. rewrite stopped_bit in E. by rewrite E.
Qed.

(** After the interrupt the engine is stopped only when nothing is left. *)
Lemma interrupt_runs s t : inv s t → notify_hw (ch s) = false → zlen (ran s) < zlen (prog s) →
  stopped (ch (interrupt s)) = false.
Proof.
  intros H En Hlt. pose proof (last_valid s t H Hlt) as Hv. unfold interrupt, mic_dma_invld_desc_interrupt.
  cbn [ch]. rewrite En. cbn [negb]. fold (stopped (ch s)). destruct (stopped (ch s)) eqn:E; [|done].
  unfold is_valid in Hv. rewrite Hv. by apply kick_runs.
Qed.

Lemma dma_cleanup_inv s t : inv s t → ∃ c, mic_dma_cleanup (ch s) = Some c ∧ inv (with_ch s c) (zlen (ran s)) ∧
  head c = head (ch s) ∧ desc_ring c = desc_ring (ch s) ∧ notify_hw c = notify_hw (ch s) ∧ ctrl_status c = ctrl_status (ch s).
Proof.
  intros [Hb Ht Hh ? ? Hr ? Hs Htx Hd Hc ? ? Hheld ?]. pose proof (flagged_range (held s)).
  destruct (cleanup_loop_spec (Z.to_nat (zlen (ran s) - t)) (Z.to_nat N + 1) (desc_ring (ch s)) (prog s)
    (zlen (ran s)) t (tx_array (ch s)) (subs s)) as (txs & E & Htx' & Hfl); try done; try lia.
  unfold mic_dma_cleanup. rewrite Hh, Ht, Hd, Hc, E.
  exists (set_tail (ch s) (zlen (ran s) mod N) txs (done_cookie (zlen (ran s)) (subs s)) (done_calls (zlen (ran s)) (subs s))).
  split_and!; try done. constructor; try done.
  - cbn. lia.
  - cbn [held with_ch]. destruct (held s) as [[idx f]|]; [|done]. cbn [ch with_ch tx_array set_tail]. by rewrite Hfl.
Qed.

Lemma status_inv s t ck : inv s t → ∃ r c t', mic_dma_tx_status (ch s) ck = Some (r, c) ∧ inv (with_ch s c) t' ∧
  r = dma_cookie_status c ck ∧ (r = false → t' = zlen (ran s)).
Proof.
  intros H. unfold mic_dma_tx_status. destruct (dma_cookie_status (ch s) ck) eqn:E; cbn [negb].
  - exists true, (ch s), t. by destruct s.
  - destruct (dma_cleanup_inv s t H) as (c & Ec & Hc & _). rewrite Ec.
    exists (dma_cookie_status c ck), c, (zlen (ran s)). done.
Qed.

(** ** Requests and submissions *)

Definition programmed (s : sys) (c : mic_dma_chan) (o : option (Z * Z)) (l : list copy) : sys :=
  Sys c (hw s) (irq s) (aborted s) o (ran s) (prog s ++ l) (subs s).

Lemma subs_ok_mono l h h' : subs_ok l h → h <= h' → subs_ok l h'.
Proof. intros [Hs Hf] Hh. split; [done|]. eapply Forall_impl; [exact Hf|cbv beta; lia]. Qed.

Lemma ring_inv s t c ring l : inv s t → held s = None → c = set_ring (ch s) ring (zlen (prog s ++ l) mod N) →
  ring_ok ring (prog s ++ l) (zlen (ran s)) → zlen (prog s ++ l) < t + N → inv (programmed s c None l) t.
Proof.
  intros [] Hh -> Hring Hroom. pose proof (zlen_nonneg l). rewrite zlen_app in *.
  constructor; try done; cbn [programmed ran prog subs held ch head set_ring flagged].
  - rewrite zlen_app. lia.
  - by rewrite zlen_app.
  - by apply prefix_app_r.
  - eapply subs_ok_mono; [done|]. rewrite zlen_app. lia.
Qed.

Lemma prog_inv s t src dst len flags : inv s t → held s = None → req_ok src dst len flags →
  let l := request_copies src dst len in
  ∃ r c, mic_dma_prog_memcpy_desc (ch s) src dst len flags = Some (r, c) ∧
    ((r < 0 ∧ c = ch s) ∨
     (r = 0 ∧ inv (programmed s c None l) t ∧ zlen (prog s ++ l) + (if flags =? 0 then 0 else 1) < t + N ∧
      (flags = 0 → zlen (prog s) < zlen (prog s ++ l)))).
Proof.
  intros Hinv Hh Hreq l. pose proof Hinv as [Hb Ht Hhd _ _ Hr _ _ _ _ _ _ _ _ _]. rewrite Hh in Hb. cbn [flagged] in Hb.
  destruct (prog_memcpy_spec (ch s) (prog s) (zlen (ran s)) t src dst len flags) as [(r & Hneg & E)|(ring & E & Hok & Hroom & Hpos)];
    try done; try lia.
  - exists r, (ch s). split; [done|]. by left.
  - exists 0, (set_ring (ch s) ring (zlen (prog s ++ l) mod N)). split; [done|]. right. split_and!; try done.
    eapply ring_inv; try done. fold l in Hroom. destruct (flags =? 0); lia.
Qed.

(** Taking a transaction changes the flags of one entry. *)
Lemma allocate_inv s t c l flags idx c' : inv (programmed s c None l) t →
  zlen (prog s ++ l) + (if flags =? 0 then 0 else 1) < t + N →
  (flags = 0 → zlen (prog s) < zlen (prog s ++ l)) → subs_ok (subs s) (zlen (prog s)) →
  allocate_tx c flags = (idx, c') → inv (programmed s c' (Some (idx, flags)) l) t.
Proof.
  intros [] Hroom Hpos Hsubs. unfold allocate_tx. intros [= Hidx <-].
  assert (∀ i, let x := tx_at (<[idx := Tx (tx_cookie (tx_at (tx_array c) idx)) (tx_callback (tx_at (tx_array c) idx)) flags]>
      (tx_array c)) i in tx_cookie x = tx_cookie (tx_at (tx_array c) i) ∧ tx_callback x = tx_callback (tx_at (tx_array c) i)) as Hx.
  { intros i. unfold tx_at at 1. destruct (Z.eq_dec idx i) as [<- |]; [by rewrite lookup_insert_eq|by rewrite lookup_insert_ne]. }
  cbn [programmed ran prog subs held ch flagged] in *. rewrite Hidx.
  constructor; try done; cbn [programmed ran prog subs held ch flagged set_tx tx_array].
  - lia.
  - intros a Ha. specialize (i_tx0 a Ha). destruct (Hx (a mod N)) as [-> ->]. done.
  - split_and!.
    + unfold tx_at at 1. by rewrite lookup_insert_eq.
    + rewrite <- Hidx, i_head0. destruct (flags =? 0); cbn [negb]; [by rewrite ring_dec_slot|done].
    + intros Hf. specialize (Hpos Hf). pose proof (zlen_nonneg (prog s)). split; [lia|].
      destruct Hsubs as [_ Hall]. eapply Forall_impl; [exact Hall|cbv beta; lia].
Qed.

Lemma prep_inv s t b src dst len flags : inv s t → held s = None → req_ok src dst len flags →
  ∃ r c t', prep_pass b (ch s) dst src len flags = Some (r, c) ∧
    match r with
    | PTx idx => inv (programmed s c (Some (idx, flags)) (request_copies src dst len)) t'
    | _ => inv (with_ch s c) t'
    end.
Proof.
  intros Hinv Hh Hreq. set (l := request_copies src dst len).
  assert (∃ r c s' t', (('(result, c) ← mic_dma_prog_memcpy_desc (ch s) src dst len flags;
      (if result =? - EBUSY then c ← mic_dma_cleanup c; mic_dma_prog_memcpy_desc c src dst len flags
       else Some (result, c))) : option (Z * mic_dma_chan)) = Some (r, c) ∧
    ran s' = ran s ∧ prog s' = prog s ∧ subs s' = subs s ∧ s' = with_ch s (ch s') ∧
    inv s' t' ∧ ((r < 0 ∧ c = ch s') ∨ (r = 0 ∧ inv (programmed s c None l) t' ∧
      zlen (prog s ++ l) + (if flags =? 0 then 0 else 1) < t' + N ∧ (flags = 0 → zlen (prog s) < zlen (prog s ++ l)))))
    as (r & c & s' & t' & E & _ & _ & _ & Es & Hinv' & Hcase).
  { destruct (prog_inv s t src dst len flags Hinv Hh Hreq) as (r & c & E & Hcase). rewrite E. cbn [mbind option_bind].
    destruct (Z.eqb_spec r (- EBUSY)) as [Hr|Hr].
    - destruct Hcase as [[_ ->]|[-> _]]; [|done].
      destruct (dma_cleanup_inv s t Hinv) as (c & Ec & Hc & _). rewrite Ec. cbn [mbind option_bind].
      destruct (prog_inv (with_ch s c) _ src dst len flags Hc Hh Hreq) as (r' & c' & E' & Hcase).
      exists r', c', (with_ch s c), (zlen (ran s)). by destruct s.
    - exists r, c, s, t. destruct s. done. }
  unfold prep_pass. destruct (mic_dma_prog_memcpy_desc (ch s) src dst len flags) as [[r0 c0]|]; [|done].
  cbn [mbind option_bind] in *. rewrite E. cbn [mbind option_bind].
  destruct Hcase as [[Hneg ->]|(-> & Hp & Hroom & Hpos)].
  - rewrite Es in Hinv'. destruct ((r =? - EBUSY) && b); [by eexists _, _, t'|].
    destruct (Z.leb_spec 0 r); [lia|]. by eexists _, _, t'.
  - change ((0 =? - EBUSY) && b) with false. cbn match. cbn [Z.leb].
    destruct (allocate_tx c flags) as [idx c'] eqn:Ea. change (0 <=? 0) with true. cbn match. eexists _, _, t'. split; [done|].
    eapply allocate_inv; try done. apply Hinv.
Qed.

Lemma find_sub_snoc a l x : find_sub a (l ++ [x]) =
  match find_sub a l with Some y => Some y | None => if s_last x =? a then Some x else None end.
Proof.
  unfold find_sub. induction l as [|y l IH]; cbn; [done|]. destruct (s_last y =? a); done.
Qed.

Lemma finished_snoc t l x : t <= s_last x → finished t (l ++ [x]) = finished t l.
Proof.
  intros Hx. unfold finished. rewrite filter_app, filter_cons_False, filter_nil, app_nil_r; [done|lia].
Qed.

Lemma tx_ok_submit txs l t h p ck cb f : tx_ok txs l t → subs_ok l h → Forall (fun x => s_last x < p) l → t <= p < t + N →
  tx_ok (<[p mod N := Tx ck cb f]> txs) (l ++ [Sub p ck cb]) t.
Proof.
  intros Htx Hs Hlt Hp a Ha. rewrite find_sub_snoc, tx_at_insert by lia. specialize (Htx a Ha). cbn [s_last].
  destruct (find_sub a l) as [y|] eqn:E.
  - apply find_sub_Some in E as [Ey <-]. rewrite Forall_forall in Hlt. specialize (Hlt y Ey). by zcases; [lia|].
  - zcases; done.
Qed.

Lemma subs_ok_snoc l h p ck cb : subs_ok l h → Forall (fun x => s_last x < p) l → 0 <= p → DMA_MIN_COOKIE <= ck < 2 ^ 31 →
  subs_ok (l ++ [Sub p ck cb]) (p + 1).
Proof.
  intros [Hs Hf] Hlt Hp Hck. split.
  - clear Hf. induction Hs as [|x l Hl IH Hx]; cbn [app]; [by repeat constructor|].
    apply Forall_cons in Hlt as [Hxp Hlt]. constructor; [by apply IH|].
    apply Forall_app. by split; [|repeat constructor].
  - apply Forall_app. split; [|repeat constructor; cbn; lia].
    apply Forall_forall. intros x Hx. rewrite Forall_forall in Hf, Hlt. specialize (Hf x Hx). specialize (Hlt x Hx). lia.
Qed.

Lemma cookie_assign_range c : DMA_MIN_COOKIE <= dma_cookie_assign c < 2 ^ 31.
Proof.
  unfold dma_cookie_assign. pose proof (Z.mod_pos_bound (cookie c + 1) (2 ^ 32) eq_refl).
  unfold swrap, DMA_MIN_COOKIE. zcases; lia.
Qed.

(** The entry of the submission, and the state of the ring with its fence. *)
Lemma submit_core s t idx flags cb f ring : let ck := dma_cookie_assign (ch s) in
  let prog' := prog s ++ fence (ch s) flags in let p := zlen prog' - 1 in
  inv s t → held s = Some (idx, flags) → (flags = 0 → t < zlen (prog s)) → ring_ok ring prog' (zlen (ran s)) →
  inv (Sys (set_tx (set_ring (ch s) ring (zlen prog' mod N)) idx (Tx ck cb f) ck) (hw s) (irq s) (aborted s) None
         (ran s) prog' (subs s ++ [Sub p ck cb])) t.
Proof.
  intros ck prog' p [] Hh Hgap Hring. rewrite Hh in *. cbn [flagged] in i_bounds0.
  destruct i_held0 as (_ & Hidx & Hun). pose proof (cookie_assign_range (ch s)) as Hck. fold ck in Hck.
  assert (idx = p mod N ∧ 0 <= p ∧ t <= p < t + N - 1 ∧ Forall (fun x => s_last x < p) (subs s) ∧ zlen (prog s) <= zlen prog')
    as (-> & Hp0 & Hp & Hlt & Hle).
  { subst p prog'. unfold fence in *. pose proof (zlen_nonneg (prog s)). destruct (Z.eqb_spec flags 0) as [->|]; rewrite zlen_app.
    - change (zlen []) with 0. replace (zlen (prog s) + 0 - 1) with (zlen (prog s) - 1) by lia.
      specialize (Hun eq_refl). specialize (Hgap eq_refl). split_and!; try done; try lia. apply Hun.
    - change (zlen [_]) with 1. replace (zlen (prog s) + 1 - 1) with (zlen (prog s)) by lia.
      split_and!; try done; try lia. destruct i_subs0 as [_ Hf]. eapply Forall_impl; [exact Hf|cbv beta; lia]. }
  constructor; try done; cbn [ran prog subs held ch flagged set_tx set_ring tx_array completed_cookie called cookie].
  - unfold p in Hp. lia.
  - by apply prefix_app_r.
  - replace (zlen prog') with (p + 1) by (unfold p; lia). by apply subs_ok_snoc with (zlen (prog s)).
  - apply tx_ok_submit with (zlen (prog s)); try done. lia.
  - unfold done_cookie in *. rewrite finished_snoc by (cbn [s_last]; lia). done.
  - unfold done_calls in *. rewrite finished_snoc by (cbn [s_last]; lia). done.
  - by rewrite last_snoc.
  - rewrite zlen_app. change (zlen [_]) with 1. intros Hn i x. specialize (i_cookies0 ltac:(lia)).
    intros [E|[Hi E]]%lookup_app_Some; [by apply i_cookies0|].
    apply list_lookup_singleton_Some in E as [Ei <-]. cbn [s_cookie]. unfold ck, dma_cookie_assign. rewrite i_cookie0.
    assert (default DMA_MIN_COOKIE (s_cookie <$> last (subs s)) = zlen (subs s) + 1) as ->.
    { rewrite last_lookup. destruct (subs s !! Nat.pred (length (subs s))) as [y|] eqn:Ey; cbn.
      - rewrite (i_cookies0 _ _ Ey). apply lookup_lt_Some in Ey. unfold zlen. lia.
      - apply lookup_ge_None in Ey. destruct (subs s); [done|cbn in Ey; lia]. }
    unfold zlen in *. rewrite s32_small by lia. unfold DMA_MIN_COOKIE. zcases; lia.
Qed.

Lemma submit_inv s t idx flags cb : inv s t → held s = Some (idx, flags) → (flags = 0 → t < zlen (prog s)) →
  inv (submit s idx flags cb) t.
Proof.
  intros Hinv Hh Hgap. pose proof Hinv as [Hb _ Hhd _ Hda Hr _ _ _ _ _ _ _ Hheld _]. rewrite Hh in *. cbn [flagged] in Hb.
  destruct Hheld as (Hfl & _ & _). unfold submit, mic_dma_tx_submit_unlock. rewrite Hfl.
  set (ck := dma_cookie_assign (ch s)). destruct (Z.eqb_spec flags 0) as [->|Hf]; cbn [negb].
  - pose proof (submit_core s t idx 0 cb 0 (desc_ring (ch s)) Hinv Hh Hgap) as Hc. cbv zeta in Hc. fold ck in Hc.
    change (fence (ch s) 0) with (@nil copy) in *. rewrite app_nil_r in *. specialize (Hc Hr). rewrite <- Hhd in Hc.
    apply update_pending_inv in Hc. by destruct (ch s).
  - destruct (memcpy_desc_decode (desc_ring_da (ch s)) (desc_ring_da (ch s)) 0 flags) as (Hv & Hd & _); [lia..|].
    set (d := mic_dma_memcpy_desc (desc_ring_da (ch s)) (desc_ring_da (ch s)) 0 flags) in *.
    assert (Hfe : fence (ch s) flags = [decode d]) by (unfold fence; rewrite Hd; by zcases).
    pose proof (submit_core s t idx flags cb 0 (<[head (ch s) := d]> (desc_ring (ch s))) Hinv Hh Hgap) as Hc.
    cbv zeta in Hc. fold ck in Hc. rewrite Hfe in *. rewrite Hhd in Hc at 1.
    specialize (Hc ltac:(apply ring_ok_put; try done; lia)). apply update_pending_inv in Hc.
    rewrite zlen_app in *. change (zlen [_]) with 1 in *.
    assert (set_tx (mic_dma_fence_intr_desc (set_tx (ch s) idx (Tx ck cb flags) ck) flags) idx (Tx ck cb 0) ck =
      set_tx (set_ring (ch s) (<[head (ch s) := d]> (desc_ring (ch s))) ((zlen (prog s) + 1) mod N)) idx (Tx ck cb 0) ck) as E.
    { unfold mic_dma_fence_intr_desc, put_desc, set_tx, set_ring. cbn. rewrite insert_insert_eq, Hhd, ring_inc_slot. done. }
    rewrite E. apply Hc.
Qed.

(** ** The engine *)

(** The engine is at a valid descriptor exactly when one is left to execute. *)
Lemma engine_pos s t : inv s t →
  if is_valid (desc_at (desc_ring (ch s)) (hw s))
  then zlen (ran s) < zlen (prog s) ∧
       prog s !! length (ran s) = Some (decode (desc_at (desc_ring (ch s)) (hw s)))
  else zlen (ran s) = zlen (prog s).
Proof.
  intros [[Hb1 [Hb2 Hb3]] _ _ Hhw _ [Hr1 Hr2] _ _ _ _ _ _ _ _ _]. rewrite Hhw. pose proof (flagged_range (held s)).
  destruct (Z.eq_dec (zlen (ran s)) (zlen (prog s))) as [E|E].
  - by rewrite Hr2 by (unfold MIC_DMA_DESC_RX_SIZE; lia).
  - destruct (Hr1 (zlen (ran s))) as [-> Hl]; [lia|]. unfold zlen in *. rewrite Nat2Z.id in Hl. split; [lia|done].
Qed.

Lemma dma_run_inv s t d : inv s t → is_valid (desc_at (desc_ring (ch s)) (hw s)) = true → is_valid d = false →
  inv (engine_run s d) t.
Proof.
  intros Hinv Hv Hd. pose proof (engine_pos s t Hinv) as Hp. rewrite Hv in Hp. destruct Hp as [Hlt Hl].
  destruct Hinv. pose proof (flagged_range (held s)).
  constructor; try done; cbn [engine_run ran prog subs held ch hw irq desc_ring set_ring]; rewrite ?zlen_app; try change (zlen [_]) with 1.
  - lia.
  - by rewrite i_hw0, ring_inc_slot.
  - rewrite i_hw0. apply ring_ok_run; try done; lia.
  - destruct i_ran0 as [k Ek]. rewrite Ek in Hl |- *. rewrite lookup_app_r, Nat.sub_diag in Hl by lia.
    destruct k as [|x k]; [done|]. injection Hl as ->. exists k. by rewrite <- app_assoc.
Qed.

Lemma stop_inv s t : inv s t → inv (engine_stop s) t.
Proof. intros H. by apply inv_regs. Qed.

Lemma index_da_round c i : 0 <= i < N → desc_ring_da_to_index c (desc_ring_index_to_da c i) = i.
Proof.
  intros Hi. unfold desc_ring_da_to_index, desc_ring_index_to_da.
  change 0xffffffff with (Z.ones 32). rewrite !Z.land_ones by lia.
  change (MIC_DMA_DESC_RX_SIZE - 1) with (2 ^ 12 - 1). rewrite land_pow2_mask by lia.
  assert (∃ k, u64 (u64 (desc_ring_da c + 16 * i) mod 2 ^ 32 - desc_ring_da c mod 2 ^ 32) = 16 * (i + 2 ^ 28 * k)) as [k ->].
  { unfold wrap. generalize (desc_ring_da c) as da. intros da.
    exists (da / 2 ^ 32 - (da + 16 * i) mod 2 ^ 64 / 2 ^ 32 - (da + 16 * i) / 2 ^ 64 * 2 ^ 32 -
      ((da + 16 * i) mod 2 ^ 64 mod 2 ^ 32 - da mod 2 ^ 32) / 2 ^ 64 * 2 ^ 32).
    rewrite !Z.mod_eq by lia. lia. }
  rewrite (Z.mul_comm 16), Z.div_mul by lia. unfold wrap, MIC_DMA_DESC_RX_SIZE in *.
  rewrite <- (Z.mod_small i (2 ^ 12)) at 2 by lia. rewrite <- Znumtheory.Zmod_div_mod by (try lia; by exists (2 ^ 20)).
  replace (i + 2 ^ 28 * k) with (i + (2 ^ 16 * k) * 2 ^ 12) by lia. apply Z.mod_add. lia.
Qed.

Lemma first_valid_spec s t n : ∀ fuel u, inv s t → n = Z.to_nat (zlen (ran s) - u) → (n < fuel)%nat → t <= u <= zlen (ran s) →
  first_valid fuel (ch s) (u mod N) = Some (zlen (ran s) mod N).
Proof.
  intros fuel u Hinv. pose proof (engine_pos s t Hinv) as Hp. destruct Hinv as [(Hb1 & Hb2 & Hb3) _ Hh Hhw _ [_ Hr2] _ _ _ _ _ _ _ _ _].
  pose proof (flagged_range (held s)). rewrite Hhw in Hp. revert fuel u.
  induction n as [|n IH]; intros fuel u Hn Hf Hu; (destruct fuel as [|fuel]; [lia|]); cbn [first_valid]; rewrite Hh.
  - assert (u = zlen (ran s)) as -> by lia. destruct (Z.eqb_spec (zlen (ran s) mod N) (zlen (prog s) mod N)) as [E|E]; [done|].
    cbn [negb]. fold (is_valid (desc_at (desc_ring (ch s)) (zlen (ran s) mod N))).
    destruct (is_valid _); [done|]. by rewrite Hp in E.
  - destruct (Z.eqb_spec (u mod N) (zlen (prog s) mod N)) as [E|E]; [apply slot_inj in E; lia|].
    cbn [negb]. fold (is_valid (desc_at (desc_ring (ch s)) (u mod N))).
    rewrite <- (slot_wrap u) at 1. rewrite Hr2 by lia.
    rewrite ring_inc_slot. apply IH; lia.
Qed.

(** What the handler of an abort leaves alone. *)
Definition same_ring (c c' : mic_dma_chan) : Prop :=
  last_tail c' = last_tail c ∧ head c' = head c ∧ desc_ring c' = desc_ring c ∧ desc_ring_da c' = desc_ring_da c ∧
  tx_array c' = tx_array c ∧ cookie c' = cookie c ∧ completed_cookie c' = completed_cookie c ∧ called c' = called c.

Lemma inv_same_ring s t c b h : inv s t → same_ring (ch s) c → h = hw s →
  (notify_hw c = false → stopped c = true → irq s = true) →
  inv (Sys c h (irq s) b (held s) (ran s) (prog s) (subs s)) t.
Proof.
  intros [] (E1 & E2 & E3 & E4 & E5 & E6 & E7 & E8) -> Hk.
  constructor; cbn [ran prog subs held ch hw irq]; rewrite ?E1, ?E2, ?E3, ?E4, ?E5, ?E6, ?E7, ?E8; done.
Qed.

Lemma abort_interrupt_spec s t last : inv s t → ∃ c, mic_dma_abort_interrupt (set_last_desc (ch s) last) = Some c ∧
  same_ring (ch s) c ∧ next_desc c = desc_ring_index_to_da (ch s) (hw s) ∧
  (notify_hw c = false → stopped c = true → irq s = true).
Proof.
  intros Hinv. pose proof Hinv as [Hb Ht _ Hhw _ _ _ _ _ _ _ _ _ _ Hk]. pose proof (flagged_range (held s)).
  pose proof (first_valid_spec s t (Z.to_nat (zlen (ran s) - t)) (Z.to_nat N + 1) t Hinv) as Hfv.
  specialize (Hfv eq_refl ltac:(lia) ltac:(lia)). unfold mic_dma_abort_interrupt.
  assert (first_valid (Z.to_nat N + 1) (set_last_desc (ch s) last) (last_tail (set_last_desc (ch s) last)) = Some (hw s)) as ->.
  { cbn [last_tail set_last_desc]. rewrite Ht, Hhw, <- Hfv. generalize (Z.to_nat N + 1)%nat, (t mod N). intros n.
    induction n as [|n IH]; intros u; cbn [first_valid]; [done|]. cbn [head desc_ring set_last_desc]. by rewrite IH. }
  cbn [mbind option_bind].
  match goal with |- context [if negb ?b then ?x else ?y] => destruct (if negb b then x else y) as [at_ cnt] end.
  eexists. split; [reflexivity|]. destruct (cnt <? 5); [destruct (Z.land _ _ =? 0)|]; done.
Qed.

Lemma abort_spec s t last : inv s t → ∃ c, abort s last =
    Some (Sys c (hw s) (irq s) (negb (restarted (ch s) c)) (held s) (ran s) (prog s) (subs s)) ∧ same_ring (ch s) c ∧
  next_desc c = desc_ring_index_to_da (ch s) (hw s) ∧
  (notify_hw c = false → stopped c = true → irq s = true).
Proof.
  intros Hinv. destruct (abort_interrupt_spec s t last Hinv) as (c & E & Hs & Hn & Hk).
  exists c. split; [|done]. unfold abort. rewrite E. cbn [mbind option_bind]. rewrite Hn.
  assert (desc_ring_da_to_index c (desc_ring_index_to_da (ch s) (hw s)) = hw s) as ->; [|done].
  unfold desc_ring_da_to_index. destruct Hs as (_ & _ & _ & -> & _). apply (index_da_round (ch s)).
  rewrite (i_hw _ _ Hinv). apply slot_range.
Qed.

Lemma abort_inv s t last s' : inv s t → abort s last = Some s' → inv s' t.
Proof.
  intros Hinv E. destruct (abort_spec s t last Hinv) as (c & E' & Hs & _ & Hk). rewrite E' in E. injection E as <-.
  by apply inv_same_ring.
Qed.

Lemma dma_step_inv s t s' : inv s t → prompt_step s s' → ∃ t', inv s' t'.
Proof.
  intros Hinv [Hstep Hlate]. destruct Hstep as [s b src dst len flags idx c Hh Hreq E|s b src dst len flags r c Hh Hreq E Hr|
    s idx flags cb Hh|s c E|s ck r c E|s|s Hirq|s d _ _ Hv Hd|s _ _ _|s last s' _ E].
  - destruct (prep_inv s t b src dst len flags Hinv Hh Hreq) as (r & c' & t' & E' & Hcase).
    rewrite E' in E. injection E as -> ->. by exists t'.
  - destruct (prep_inv s t b src dst len flags Hinv Hh Hreq) as (r' & c' & t' & E' & Hcase).
    rewrite E' in E. injection E as -> ->. exists t'. destruct r; [by destruct (Hr idx)|done..].
  - exists t. apply submit_inv; [done..|]. intros ->.
    pose proof (i_bounds _ _ Hinv). destruct (Z.eq_dec t (zlen (prog s))) as [->|]; [|lia].
    destruct Hlate. split; [eauto|]. split; [|unfold submit; by destruct (mic_dma_tx_submit_unlock _ _ _)].
    by rewrite (i_tail _ _ Hinv), (i_head _ _ Hinv).
  - destruct (dma_cleanup_inv s t Hinv) as (c' & E' & Hc & _). rewrite E' in E. injection E as <-. by eexists.
  - destruct (status_inv s t ck Hinv) as (r' & c' & t' & E' & Hc & _). rewrite E' in E. injection E as <- <-. by eexists.
  - exists t. by apply issue_inv.
  - exists t. by apply dma_interrupt_inv.
  - exists t. by apply dma_run_inv.
  - exists t. by apply stop_inv.
  - exists t. by apply abort_inv with s last.
Qed.

Lemma dma_prompt_inv da s : prompt da s → ∃ t, inv s t.
Proof.
  intros [Hda Hrun]. assert (∃ t, inv (init da) t) as H by (exists 0; by apply dma_init_inv).
  induction Hrun as [s|s s' s'' Hs _ IH]; [done|]. apply IH. destruct H as [t Ht]. by eapply dma_step_inv.
Qed.

(** ** Cookies and status *)

Lemma finished_lookup t l : StronglySorted (fun x y => s_last x < s_last y) l →
  ∀ i x, l !! i = Some x → (s_last x < t ↔ (i < length (finished t l))%nat).
Proof.
  induction 1 as [|y l Hl IH Hy]; intros i x E; [done|].
  rewrite finished_cons. destruct (decide (s_last y < t)) as [Hlt|Hlt].
  - destruct i as [|i]; cbn in *; [injection E as ->; split; [lia|done]|]. rewrite (IH i x E). lia.
  - rewrite finished_none by (eapply Forall_impl; [exact Hy|cbv beta; lia]). cbn.
    destruct i as [|i]; cbn in E; [injection E as ->; lia|].
    rewrite Forall_lookup in Hy. specialize (Hy i x E). cbv beta in Hy. lia.
Qed.

Lemma finished_prefix t l : StronglySorted (fun x y => s_last x < s_last y) l → finished t l `prefix_of` l.
Proof.
  induction 1 as [|y l Hl IH Hy]; [done|].
  rewrite finished_cons. destruct (decide (s_last y < t)) as [Hlt|Hlt]; [by apply prefix_cons|].
  rewrite finished_none by (eapply Forall_impl; [exact Hy|cbv beta; lia]). apply prefix_nil.
Qed.

Lemma last_cookie l k : k `prefix_of` l → (∀ i x, l !! i = Some x → s_cookie x = Z.of_nat i + 2) →
  default DMA_MIN_COOKIE (s_cookie <$> last k) = zlen k + 1.
Proof.
  intros Hp Hc. rewrite last_lookup. destruct (k !! Nat.pred (length k)) as [y|] eqn:Ey; cbn.
  - rewrite (Hc (Nat.pred (length k)) y) by (by eapply prefix_lookup_Some). apply lookup_lt_Some in Ey. unfold zlen. lia.
  - apply lookup_ge_None in Ey. destruct k; [done|cbn in Ey; lia].
Qed.

Lemma cookie_status_spec s t i x : inv s t → zlen (subs s) < 2 ^ 31 - 2 → subs s !! i = Some x →
  dma_cookie_status (ch s) (s_cookie x) = bool_decide (s_last x < t).
Proof.
  intros [] Hn E. specialize (i_cookies0 Hn). destruct i_subs0 as [Hs _].
  unfold dma_cookie_status, dma_async_is_complete. rewrite i_done0, i_cookie0.
  unfold done_cookie. rewrite !(last_cookie (subs s)) by (done || by apply finished_prefix).
  rewrite (i_cookies0 i x E). pose proof (finished_lookup t _ Hs i x E) as Hl.
  pose proof (prefix_length _ _ (finished_prefix t _ Hs)). apply lookup_lt_Some in E. unfold zlen.
  destruct (Z.leb_spec (Z.of_nat (length (finished t (subs s))) + 1) (Z.of_nat (length (subs s)) + 1)); [|lia].
  case_bool_decide as Hb; zcases; cbn; try done; try lia; exfalso; try (apply Hb; apply Hl); try apply Hl in Hb; lia.
Qed.

Lemma status_spec s t i x : inv s t → zlen (subs s) < 2 ^ 31 - 2 → subs s !! i = Some x →
  ∃ c, mic_dma_tx_status (ch s) (s_cookie x) = Some (bool_decide (s_last x < zlen (ran s)), c).
Proof.
  intros Hinv Hn E. destruct (status_inv s t (s_cookie x) Hinv) as (r & c & t' & Es & Hc & Hr & Ht).
  exists c. rewrite Es. f_equal. f_equal. pose proof (cookie_status_spec (with_ch s c) t' i x Hc Hn E) as Hst.
  cbn [ch with_ch] in Hst. rewrite <- Hr in Hst. pose proof (i_bounds _ _ Hc) as Hb. cbn [ran with_ch] in Hb.
  destruct r.
  - symmetry in Hst. apply bool_decide_eq_true in Hst. symmetry. apply bool_decide_eq_true. lia.
  - rewrite (Ht eq_refl) in Hst. done.
Qed.

(** ** Draining *)

Definition clear_valid (d : mic_dma_desc) : mic_dma_desc := Desc (Z.ldiff (qw0 d) MIC_DMA_DESC_VALID) (qw1 d).

Definition engine_once (s : sys) : sys :=
  if aborted s || stopped (ch s) then s
  else
    let d := desc_at (desc_ring (ch s)) (hw s) in
    if is_valid d then engine_run s (clear_valid d) else engine_stop s.

Lemma clear_valid_spec d : is_valid (clear_valid d) = false.
Proof.
  unfold is_valid, clear_valid. cbn [qw0]. apply negb_false_iff, Z.eqb_eq. apply Z.bits_inj'. intros i Hi.
  rewrite Z.land_spec, Z.ldiff_spec, Z.bits_0. by destruct (Z.testbit (qw0 d) i), (Z.testbit MIC_DMA_DESC_VALID i).
Qed.

Lemma engine_drains n : ∀ s t, inv s t → aborted s = false → stopped (ch s) = false →
  (n <= length (prog s) - length (ran s))%nat →
  let s' := Nat.iter n engine_once s in
  inv s' t ∧ length (ran s') = (length (ran s) + n)%nat ∧ prog s' = prog s ∧ subs s' = subs s ∧
  aborted s' = false ∧ stopped (ch s') = false.
Proof.
  induction n as [|n IH]; intros s t Hinv Ha Hs Hn; [cbn; split_and!; try done; lia|].
  destruct (IH s t Hinv Ha Hs ltac:(lia)) as (Hi & Hr & Hp & Hsub & Ha' & Hs'). cbn [Nat.iter nat_rect].
  change (nat_rect (λ _ : nat, sys) s (λ _ : nat, engine_once) n) with (Nat.iter n engine_once s).
  set (u := Nat.iter n engine_once s) in *. cbv zeta. pose proof (engine_pos u t Hi) as Hpos.
  unfold engine_once. rewrite Ha', Hs'. cbn [orb].
  destruct (is_valid (desc_at (desc_ring (ch u)) (hw u))) eqn:Hv.
  - split_and!; try done; [apply dma_run_inv; [done..|apply clear_valid_spec]|].
    cbn [ran engine_run]. rewrite length_app. cbn. lia.
  - rewrite Hp in Hpos. unfold zlen in Hpos. lia.
Qed.

(** After [mic_dma_issue_pending] a channel that still waits for one is not stopped, so
    with the pending interrupt handled the engine runs. *)
Lemma issue_notify c : notify_hw (mic_dma_issue_pending c) = true → stopped (mic_dma_issue_pending c) = false.
Proof.
  unfold mic_dma_issue_pending. destruct (notify_hw c) eqn:En; [|congruence].
  fold (stopped c). destruct (stopped c) eqn:E; done.
Qed.

Lemma issue_running s t : inv s t → zlen (ran s) < zlen (prog s) →
  let s1 := with_ch s (mic_dma_issue_pending (ch s)) in
  stopped (ch (if irq s1 then interrupt s1 else s1)) = false.
Proof.
  intros H Hlt s1. assert (H1 : inv s1 t) by by apply issue_inv.
  destruct (notify_hw (ch s1)) eqn:En.
  - pose proof (issue_notify (ch s) En) as Hs. destruct (irq s1); [|done].
    unfold interrupt, mic_dma_invld_desc_interrupt. cbn [ch]. by rewrite En.
  - destruct (irq s1) eqn:Ei; [by apply interrupt_runs with t|].
    destruct (stopped (ch s1)) eqn:Hs; [|done]. rewrite (i_kick _ _ H1 En Hs) in Ei. done.
Qed.

Lemma prefix_full {A} (l k : list A) : l `prefix_of` k → (length k <= length l)%nat → l = k.
Proof. intros [j ->] Hl. rewrite length_app in Hl. destruct j; [by rewrite app_nil_r|cbn in Hl; lia]. Qed.

(** ** A run to evaluate the claims on *)

Definition do_prep (s : sys) (src dst len flags : Z) : sys :=
  match prep_pass true (ch s) dst src len flags with
  | Some (PTx idx, c) => programmed s c (Some (idx, flags)) (request_copies src dst len)
  | _ => s
  end.
Definition do_cleanup (s : sys) : sys := match mic_dma_cleanup (ch s) with Some c => with_ch s c | None => s end.

(** A request with a callback, submitted; and one without flags whose descriptor is
    executed and cleaned up before it is submitted. *)
Definition ex_prep : sys := do_prep (init 4096) 65536 131072 5000 1.
Definition ex_submitted : sys := submit ex_prep 1 1 (Some 7).
Definition ex_late : sys :=
  do_cleanup (engine_run (do_prep (init 4096) 65536 131072 5000 0) (Desc 0 0)).

Lemma ex_prep_prompt : prompt 4096 ex_prep.
Proof.
  split; [lia|]. apply rtc_once. unfold ex_prep, do_prep.
  destruct (prep_pass true (ch (init 4096)) 131072 65536 5000 1) as [[[idx| |] c]|] eqn:E; [|by vm_compute in E..].
  apply prompt_other; [|by left]. by apply step_prep with true; [|unfold req_ok; lia|].
Qed.

Lemma ex_submitted_prompt : prompt 4096 ex_submitted.
Proof.
  split; [lia|]. eapply rtc_trans; [apply ex_prep_prompt|]. apply rtc_once. apply prompt_other; [by apply step_submit|].
  right; left. by vm_compute.
Qed.

Lemma ex_late_prompt : prompt 4096 ex_late.
Proof.
  split; [lia|]. set (s := do_prep (init 4096) 65536 131072 5000 0).
  assert (prompt_step (init 4096) s) as H1.
  { apply prompt_other; [|right; by right]. unfold s, do_prep.
    destruct (prep_pass true (ch (init 4096)) 131072 65536 5000 0) as [[[idx| |] c]|] eqn:E; [|by vm_compute in E..].
    by apply step_prep with true; [|unfold req_ok; lia|]. }
  assert (prompt_step s (engine_run s (Desc 0 0))) as H2 by (apply prompt_other; [by apply step_run|by left]).
  eapply rtc_l; [exact H1|]. eapply rtc_l; [exact H2|]. apply rtc_once. unfold ex_late, do_cleanup. fold s.
  destruct (mic_dma_cleanup (ch (engine_run s (Desc 0 0)))) as [c|] eqn:E; [|by vm_compute in E].
  apply prompt_other; [by apply step_cleanup|by left].
Qed.

(** ** Late submissions *)

Lemma update_pending_fields c : ∃ n r, mic_dma_update_pending c = set_regs c n r.
Proof.
  unfold mic_dma_update_pending, mic_dma_issue_pending.
  destruct (_ <? _); [destruct (notify_hw c) eqn:E; [destruct (negb _)|]|];
    eexists _, _; first [reflexivity|by rewrite set_regs_same].
Qed.

Lemma cleanup_loop_idle fuel ring h txs ck cb : (0 < fuel)%nat → cleanup_loop fuel ring h h txs ck cb = Some (h, txs, ck, cb).
Proof. destruct fuel as [|n]; [lia|]. cbn [cleanup_loop]. by rewrite Z.eqb_refl. Qed.

Lemma cleanup_idle c : last_tail c = head c → mic_dma_cleanup c = Some c.
Proof.
  intros E. unfold mic_dma_cleanup. rewrite E, cleanup_loop_idle by lia. cbn [mbind option_bind].
  f_equal. destruct c. unfold set_tail. cbn in *. by rewrite E.
Qed.

(** A request that is prepared without flags carries its cookie in the transaction of
    its last copy, and gets the cookie only when it is submitted.  If the engine executes
    that copy and a clean-up passes it before the submission, the request is lost sight
    of. *)
Lemma late_submit_lost s t idx cb : inv s t → held s = Some (idx, 0) → last_tail (ch s) = head (ch s) →
  zlen (subs s) + 1 < 2 ^ 31 - 2 →
  let '(ck, c) := mic_dma_tx_submit_unlock (ch s) idx cb in
  ran s = prog s ∧ mic_dma_cleanup c = Some c ∧ completed_cookie c = completed_cookie (ch s) ∧
  called c = called (ch s) ∧ mic_dma_tx_status c ck = Some (false, c).
Proof.
  intros H Hh Htl Hn. pose proof (i_bounds _ _ H) as Hb. rewrite Hh in Hb. cbn [flagged Z.eqb] in Hb.
  rewrite (i_tail _ _ H), (i_head _ _ H) in Htl. apply slot_inj in Htl; [|lia]. subst t.
  pose proof (i_held _ _ H) as Hheld. rewrite Hh in Hheld. destruct Hheld as (Hfl & _ & _).
  pose proof (i_cookies _ _ H ltac:(lia)) as Hck. destruct (i_subs _ _ H) as [Hs Hf].
  assert (completed_cookie (ch s) = zlen (subs s) + 1 ∧ cookie (ch s) = zlen (subs s) + 1) as [Ed Ec].
  { rewrite (i_done _ _ H), (i_cookie _ _ H). unfold done_cookie. rewrite finished_all.
    - by rewrite (last_cookie (subs s) (subs s)).
    - eapply Forall_impl; [exact Hf|cbv beta; lia]. }
  unfold mic_dma_tx_submit_unlock. rewrite Hfl. cbn [Z.eqb negb].
  assert (dma_cookie_assign (ch s) = zlen (subs s) + 2) as ->.
  { unfold dma_cookie_assign. rewrite Ec. pose proof (zlen_nonneg (subs s)). rewrite s32_small by lia.
    unfold DMA_MIN_COOKIE. zcases; lia. }
  destruct (update_pending_fields (set_tx (ch s) idx (Tx (zlen (subs s) + 2) cb 0) (zlen (subs s) + 2))) as (n & r & ->).
  set (c := set_regs _ n r). assert (mic_dma_cleanup c = Some c) as E.
  { apply cleanup_idle. cbn [c last_tail head set_regs set_tx]. by rewrite (i_tail _ _ H), (i_head _ _ H). }
  assert (dma_cookie_status c (zlen (subs s) + 2) = false) as Est.
  { unfold dma_cookie_status, dma_async_is_complete. subst c. cbn [completed_cookie cookie set_regs set_tx]. rewrite Ed.
    zcases; cbn; try done; lia. }
  split_and!; try done.
  - apply prefix_full; [apply H|]. unfold zlen in *. lia.
  - unfold mic_dma_tx_status. rewrite Est. cbn [negb]. rewrite E. cbn [mbind option_bind]. by rewrite Est.
Qed.

(** ** Claims *)

(** C10: Whatever order requests, submissions, clean-ups, interrupts, aborts and the
    engine come in, as long as no request prepared without flags is submitted after all its copies have
    been executed and a clean-up has passed them ([late_submit]; such a request loses its cookie and
    callback), the engine executes the copies programmed, each once and in order, and
    never more than the ring holds are pending; callbacks run and cookies complete in the
    order of submission, each once and only after its last descriptor has been executed;
    a clean-up always ends without its [BUG_ON] and completes exactly the submissions
    whose last descriptor has been executed. *)
Theorem dma_channel_in_order da s : prompt da s →
  ran s `prefix_of` prog s ∧ zlen (prog s) - zlen (ran s) < MIC_DMA_DESC_RX_SIZE ∧
  (∃ t, t <= zlen (ran s) ∧ completed_cookie (ch s) = done_cookie t (subs s) ∧ called (ch s) = done_calls t (subs s)) ∧
  (∃ c, mic_dma_cleanup (ch s) = Some c ∧ completed_cookie c = done_cookie (zlen (ran s)) (subs s) ∧
     called c = done_calls (zlen (ran s)) (subs s)).
Proof.
  intros [t H]%dma_prompt_inv. pose proof (i_bounds _ _ H). pose proof (flagged_range (held s)). split_and!.
  - apply H.
  - lia.
  - exists t. split; [lia|]. split; apply H.
  - destruct (dma_cleanup_inv s t H) as (c & E & Hc & _). exists c. split; [done|]. split; apply Hc.
Qed.

Lemma dma_channel_in_order_witness : prompt 4096 ex_submitted ∧
  (∃ c, mic_dma_cleanup (ch ex_submitted) = Some c ∧ completed_cookie c = 1 ∧ called c = []).
Proof.
  split; [apply ex_submitted_prompt|].
  destruct (dma_channel_in_order 4096 ex_submitted ex_submitted_prompt) as (_ & _ & _ & c & E & E1 & E2).
  exists c. split_and!; [exact E|rewrite E1|rewrite E2]; vm_compute; reflexivity.
Defined.

(** C31: As long as no request prepared without flags has been submitted late (after all its copies
    have been executed and a clean-up has passed them), the status of a submitted request is
    reported as complete exactly when every descriptor of it, its fence included, has been executed
    (the cookies have not wrapped yet).  A request without flags that is submitted late is reported as
    in progress although all its copies have been executed, a clean-up does not complete it, and
    its callback does not run. *)
Theorem dma_status_exact da s : prompt da s → zlen (subs s) < 2 ^ 31 - 2 →
  (∀ i x, subs s !! i = Some x →
     ∃ c, mic_dma_tx_status (ch s) (s_cookie x) = Some (bool_decide (s_last x < zlen (ran s)), c)) ∧
  (∀ s' idx cb, held s = Some (idx, 0) → s' = submit s idx 0 cb → late_submit s s' → zlen (subs s') < 2 ^ 31 - 2 →
     step s s' ∧ ran s' = prog s' ∧ called (ch s') = called (ch s) ∧ mic_dma_cleanup (ch s') = Some (ch s') ∧
     ∃ x, subs s' = subs s ++ [x] ∧ mic_dma_tx_status (ch s') (s_cookie x) = Some (false, ch s')).
Proof.
  intros [t H]%dma_prompt_inv Hn. split.
  - intros i x E. by eapply status_spec.
  - intros s' idx cb Hh -> (_ & Htl & _) Hn'. split; [by apply step_submit|].
    assert (zlen (subs s) + 1 < 2 ^ 31 - 2) as Hn1.
    { revert Hn'. unfold submit. destruct (mic_dma_tx_submit_unlock _ _ _) as [ck c]. cbn [subs]. by rewrite zlen_app. }
    pose proof (late_submit_lost s t idx cb H Hh Htl Hn1) as HL. unfold submit.
    destruct (mic_dma_tx_submit_unlock (ch s) idx cb) as [ck c]. destruct HL as (E1 & E2 & _ & E3 & E4).
    cbn [ran prog subs ch fence Z.eqb]. rewrite app_nil_r. split_and!; try done. eexists. split; [done|]. done.
Qed.

Lemma dma_status_exact_witness :
  (∃ c, mic_dma_tx_status (ch ex_submitted) 2 = Some (false, c)) ∧
  called (ch (submit ex_late 0 0 (Some 7))) = [].
Proof.
  split.
  - destruct (dma_status_exact 4096 ex_submitted ex_submitted_prompt) as [Hs _]; [vm_compute; reflexivity|].
    destruct (Hs 0%nat (Sub 1 2 (Some 7))) as [c E]; [vm_compute; reflexivity|]. exists c. exact E.
  - destruct (dma_status_exact 4096 ex_late ex_late_prompt) as [_ Hl]; [vm_compute; reflexivity|].
    destruct (Hl _ 0 (Some 7) eq_refl eq_refl) as (_ & _ & Ec & _); [|vm_compute; reflexivity|rewrite Ec; vm_compute; reflexivity].
    split; [exists 0; vm_compute; reflexivity|]. split; vm_compute; reflexivity.
Defined.

(** C19: No request is left behind on a channel that no abort has taken down: once
    [mic_dma_issue_pending] has been called and an interrupt that is pending has been handled, the
    engine executes everything that has been programmed without further help.  Every submission
    is reported as complete then, as long as none of a request prepared without flags came late (after
    all its copies had been executed and a clean-up had passed them) and the cookies, fewer than
    2^31 - 2, have not wrapped. *)
Theorem dma_issue_runs_all da s : prompt da s → aborted s = false → zlen (subs s) < 2 ^ 31 - 2 →
  let s1 := with_ch s (mic_dma_issue_pending (ch s)) in
  let s2 := if irq s1 then interrupt s1 else s1 in
  let s3 := Nat.iter (length (prog s) - length (ran s)) engine_once s2 in
  ran s3 = prog s ∧
  ∀ x, x ∈ subs s → ∃ c, mic_dma_tx_status (ch s3) (s_cookie x) = Some (true, c).
Proof.
  intros [t H]%dma_prompt_inv Ha Hn s1 s2 s3. assert (H1 : inv s1 t) by by apply issue_inv.
  assert (H2 : inv s2 t) by (unfold s2; destruct (irq s1); [by apply dma_interrupt_inv|done]).
  assert (ran s2 = ran s ∧ prog s2 = prog s ∧ subs s2 = subs s ∧ aborted s2 = false) as (Er & Ep & Es & Ea).
  { unfold s2. by destruct (irq s1). }
  assert (inv s3 t ∧ ran s3 = prog s ∧ subs s3 = subs s) as (H3 & Er3 & Es3).
  { destruct (Nat.eq_dec (length (prog s) - length (ran s)) 0) as [E0|E0].
    - unfold s3. rewrite E0. cbn. rewrite Er, Es. split_and!; try done. apply prefix_full; [apply H|lia].
    - assert (stopped (ch s2) = false) as Hst by (apply issue_running with t; [done|unfold zlen; lia]).
      destruct (engine_drains (length (prog s) - length (ran s)) s2 t H2 Ea Hst) as (Hi & Hl & Hp & Hs' & _); [by rewrite Er, Ep|].
      fold s3 in Hi, Hl, Hp, Hs'. rewrite Er in Hl. split_and!; [done| |congruence].
      rewrite <- Ep, <- Hp. apply prefix_full; [apply Hi|]. rewrite Hl, Hp, Ep. lia. }
  split; [done|]. intros x Hx. apply list_elem_of_lookup in Hx as [i Hi].
  destruct (status_spec s3 t i x H3) as [c E]; [by rewrite Es3|by rewrite Es3|]. exists c. rewrite E. f_equal. f_equal.
  apply bool_decide_eq_true. rewrite Er3. destruct (i_subs _ _ H) as [_ Hf]. rewrite Forall_lookup in Hf. apply (Hf i x Hi).
Qed.

Lemma dma_issue_runs_all_witness :
  ran (Nat.iter 2 engine_once (with_ch ex_submitted (mic_dma_issue_pending (ch ex_submitted)))) =
    [(65536, 131072, 5000); (4096, 4096, 0)].
Proof.
  pose proof (dma_issue_runs_all 4096 ex_submitted ex_submitted_prompt eq_refl eq_refl) as [E _].
  exact E.
Defined.

(** Preparing a request of any size never fails half way: it ends, and where it
    returns a transaction the slots from the old head on hold valid descriptors that decode
    to consecutive pieces of the request, each of at most [max_xfer_size] bytes, and
    nothing else; where it returns none the head has not moved. *)
Theorem dma_prep_tiles da s b src dst len flags : prompt da s → held s = None → req_ok src dst len flags →
  ∃ r c, prep_pass b (ch s) dst src len flags = Some (r, c) ∧
  match r with
  | PTx _ => ∃ l, tiles src dst len l ∧ head c = (head (ch s) + zlen l) mod MIC_DMA_DESC_RX_SIZE ∧
      ∀ i x, l !! i = Some x →
        let d := desc_at (desc_ring c) ((head (ch s) + Z.of_nat i) mod MIC_DMA_DESC_RX_SIZE) in
        is_valid d = true ∧ decode d = x
  | _ => head c = head (ch s)
  end.
Proof.
  intros [t H]%dma_prompt_inv Hh Hreq. destruct (prep_inv s t b src dst len flags H Hh Hreq) as (r & c & t' & E & Hr).
  exists r, c. split; [done|]. rewrite (i_head _ _ H).
  destruct r as [idx|err|]; [|exact (i_head _ _ Hr)..].
  exists (request_copies src dst len). split; [apply request_copies_tile; apply Hreq|].
  rewrite !Zplus_mod_idemp_l. split; [rewrite <- zlen_app; apply Hr|].
  intros i x Hx d. pose proof (i_bounds _ _ H). destruct (i_ring _ _ Hr) as [Hring _].
  specialize (Hring (zlen (prog s) + Z.of_nat i)). cbn [ran prog programmed ch] in Hring. rewrite zlen_app in Hring.
  destruct Hring as [Hv Hd]; [apply lookup_lt_Some in Hx; unfold zlen in *; lia|].
  subst d. rewrite Zplus_mod_idemp_l. split; [done|]. unfold zlen in Hd at 1.
  rewrite <- Nat2Z.inj_add, Nat2Z.id, lookup_app_r, Nat.add_comm, Nat.add_sub, Hx in Hd by lia. by injection Hd as ->.
Qed.

Lemma dma_prep_tiles_witness : ∃ r c, prep_pass true (ch (init 4096)) 131072 65536 (2 ^ 28) 1 = Some (r, c) ∧ head c = 3.
Proof.
  assert (Hr : prompt 4096 (init 4096)) by (split; [lia|reflexivity]).
  destruct (dma_prep_tiles 4096 (init 4096) true 65536 131072 (2 ^ 28) 1 Hr eq_refl) as (r & c & E & _).
  - unfold req_ok. lia.
  - exists r, c. split; [exact E|]. vm_compute in E. injection E as _ <-. reflexivity.
Defined.

(** After an abort the engine resumes at the first descriptor that it has not
    executed: the handler ends, gives the engine that address whatever the engine reported,
    leaves the ring and the transactions as they were, and when it restarts the engine, it
    is not stopped on an invalid descriptor. *)
Theorem dma_abort_resumes da s last : prompt da s →
  ∃ s', abort s last = Some s' ∧ hw s' = zlen (ran s) mod MIC_DMA_DESC_RX_SIZE ∧
    next_desc (ch s') = desc_ring_index_to_da (ch s) (zlen (ran s) mod MIC_DMA_DESC_RX_SIZE) ∧
    same_ring (ch s) (ch s') ∧ ran s' = ran s ∧ prog s' = prog s ∧ subs s' = subs s ∧
    (aborted s' = false → stopped (ch s') = false).
Proof.
  intros [t H]%dma_prompt_inv. destruct (abort_spec s t last H) as (c & E & Hs & Hn & _).
  rewrite (i_hw _ _ H) in *. eexists. split; [exact E|]. cbn [hw ch ran prog subs aborted]. split_and!; try done.
  intros Hr%negb_false_iff. apply andb_true_iff in Hr as [Ha Hc]. revert E Ha Hc.
  unfold abort, mic_dma_abort_interrupt. destruct (first_valid _ _ _); [|done]. cbn [mbind option_bind].
  match goal with |- context [if negb ?b then ?x else ?y] => destruct (if negb b then x else y) as [at_ cnt] end.
  intros [= <- _] Ha Hc. change (ctrl_status (set_last_desc (ch s) last)) with (ctrl_status (ch s)) in *. rewrite Ha in Hc |- *.
  destruct (cnt <? 5) eqn:E; [apply enable_runs|]. cbn [abort_counter] in Hc. congruence.
Qed.

Lemma dma_abort_resumes_witness : ∃ s', abort ex_submitted 0 = Some s' ∧ hw s' = 0.
Proof.
  destruct (dma_abort_resumes 4096 ex_submitted 0 ex_submitted_prompt) as (s' & E & Eh & _).
  exists s'. split; [exact E|]. rewrite Eh. vm_compute. reflexivity.
Defined.

End DmaX200Sys.
