(* ===== verification/FenceProg.v ===== *)
(** * Threads of the fence code

    The language in which [ScifFence] writes the functions of [scif_fence.c]: a program is a
    tree of operations, each one step on the state of two nodes.  An operation is what the
    code calls or touches: the DMA channel of its node ([DmaX200]), the DMA pool of signal
    values, reference counts, completions, the requests and messages of the fence protocol,
    the windows of an endpoint with their lock and the queue of windows to be destroyed.
    [do_op] gives the step of an operation, [fault] the states in which it reads or writes
    memory that has been freed; [pstep] interleaves any number of threads with the engines
    and with what other code does to the windows. *)
From S2P Require Import Prelude RmaList DmaWindow DmaX200 DmaX200Inv DmaX200Sys.
Local Open Scope Z_scope.
Declare Scope prog_scope.

Module FenceProg.
Import DmaX200 DmaX200Inv DmaX200Sys.

(** ** Data *)

Definition SCIF_MARK : Z := 29.
Definition SCIF_MARK_ACK : Z := 30.
Definition SCIF_MARK_NACK : Z := 31.
Definition SCIF_WAIT : Z := 32.
Definition SCIF_WAIT_ACK : Z := 33.
Definition SCIF_WAIT_NACK : Z := 34.
Definition SCIF_SIG_LOCAL : Z := 35.
Definition SCIF_SIG_REMOTE : Z := 36.
Definition SCIF_SIG_ACK : Z := 37.
Definition SCIF_SIG_NACK : Z := 38.

(** The part of [struct scifmsg] that the fence code uses. *)
Record scifmsg := Msg { uop : Z; payload0 : Z; payload1 : Z; payload2 : Z; payload3 : Z }.

Inductive scif_msg_state := OP_IDLE | OP_IN_PROGRESS | OP_COMPLETED | OP_FAILED.

#[export] Instance scif_msg_state_eq_dec : EqDecision scif_msg_state.
Proof. solve_decision. Defined.

(** [comp]: the completion has been signalled and not been waited for. *)
Record scif_fence_info := FenceInfo { state : scif_msg_state; comp : bool; dma_mark : Z }.

Record scif_status := Status { src_dma_addr : Z; val : Z; st_ep : Z }.
Definition sizeof_scif_status : Z := 24.
(** [offsetof(struct scif_status, val)]. *)
Definition offsetof_val : Z := 8.

(** The callbacks of DMA requests; [DmaX200] has numbers for them.  [CbOther]: of a user
    of the channel that has no part in fences. *)
Inductive callback := CbMark (ep : Z) | CbSignal (a : Z) | CbDone (c : Z) | CbOther (z : Z).

#[export] Instance callback_eq_dec : EqDecision callback.
Proof. solve_decision. Defined.

Definition encode_cb (c : callback) : Z :=
  match c with CbMark ep => 4 * ep | CbSignal a => 4 * a + 1 | CbDone c => 4 * c + 2 | CbOther z => 4 * z + 3 end.
Definition decode_cb (z : Z) : callback :=
  if z mod 4 =? 0 then CbMark (z / 4) else if z mod 4 =? 1 then CbSignal (z / 4)
  else if z mod 4 =? 2 then CbDone (z / 4) else CbOther (z / 4).

Lemma decode_encode c : decode_cb (encode_cb c) = c.
Proof. unfold decode_cb. destruct c; cbn [encode_cb]; zcases; try (f_equal; divlia); exfalso; divlia. Qed.

(** ** Windows

    What [struct scif_endpt_rma_info] holds besides [fence_refcount]: the windows of the
    endpoint and those of its peer, the windows queued for destruction, the cached ones, the
    notifiers. *)
Record scif_endpt_rma_info := RmaInfo {
  self_list : list DmaWindow.dma_window; remote_list : list DmaWindow.dma_window;
  tw_refcount : Z; tcw_refcount : Z; nr_mmn : Z;
}.

Definition list_of (i : scif_endpt_rma_info) (self : bool) : list DmaWindow.dma_window :=
  if self then self_list i else remote_list i.
Definition set_list (self : bool) (l : list DmaWindow.dma_window) (i : scif_endpt_rma_info) : scif_endpt_rma_info :=
  if self then RmaInfo l (remote_list i) (tw_refcount i) (tcw_refcount i) (nr_mmn i)
  else RmaInfo (self_list i) l (tw_refcount i) (tcw_refcount i) (nr_mmn i).
Definition add_tw (d : Z) (i : scif_endpt_rma_info) : scif_endpt_rma_info :=
  RmaInfo (self_list i) (remote_list i) (tw_refcount i + d) (tcw_refcount i) (nr_mmn i).
Definition set_counts (tcw mmn : Z) (i : scif_endpt_rma_info) : scif_endpt_rma_info :=
  RmaInfo (self_list i) (remote_list i) (tw_refcount i) tcw mmn.

(** The endpoints whose [rma_lock] is held; the endpoints of the windows queued on
    [scif_info.rma].  No part of the code: whether a wait for all DMA that precedes the end
    of a window has failed; the lists that have been looked at under the lock. *)
Record wstate := WState {
  infos : gmap Z scif_endpt_rma_info; rma_locked : gset Z; rma_queue : list Z;
  hung : bool; seen : list (Z * bool * list DmaWindow.dma_window);
}.

Definition info_of (W : wstate) (ep : Z) : scif_endpt_rma_info := default (RmaInfo [] [] 0 0 0) (infos W !! ep).
Definition on_info (ep : Z) (f : scif_endpt_rma_info → scif_endpt_rma_info) (W : wstate) : wstate :=
  WState (<[ep := f (info_of W ep)]> (infos W)) (rma_locked W) (rma_queue W) (hung W) (seen W).
Definition on_locked (f : gset Z → gset Z) (W : wstate) : wstate :=
  WState (infos W) (f (rma_locked W)) (rma_queue W) (hung W) (seen W).
Definition on_queue (f : list Z → list Z) (W : wstate) : wstate :=
  WState (infos W) (rma_locked W) (f (rma_queue W)) (hung W) (seen W).
Definition set_hung (W : wstate) : wstate := WState (infos W) (rma_locked W) (rma_queue W) true (seen W).
Definition look (ep : Z) (self : bool) (W : wstate) : wstate :=
  WState (infos W) (rma_locked W) (rma_queue W) (hung W) (seen W ++ [(ep, self, list_of (info_of W ep) self)]).

Definition without (a : Z) (l : list DmaWindow.dma_window) : list DmaWindow.dma_window :=
  filter (fun d => RmaList.w_addr (DmaWindow.win d) ≠ a) l.

(** A node: the channel of its endpoints with the values the engine has read from the
    pool ([reads], one entry for each descriptor executed); for each endpoint in use
    ([live]) the references of fences ([fence_refcount]) and those of calls and handlers
    that work on it ([users]); the pool, by DMA address; completions of waiting threads
    that have been signalled ([done]); fence requests; [scif_info.fence]; the messages on
    their way to the node; the values stored by the CPU; [ws]: the windows.  [oops]: a
    callback has touched freed memory. *)
Record node := Node {
  dma : sys; reads : list (option Z);
  live : gset Z; fence_refcount : gmap Z Z; users : gmap Z Z;
  pool : gmap Z scif_status; done : gset Z;
  reqs : gmap Z scif_fence_info; fences : list scifmsg; inbox : list scifmsg;
  stores : list (Z * Z); ws : wstate; oops : bool;
}.

(** Two nodes, the management node [true] and a card; [alive]: neither has gone. *)
Record world := World { nd : bool → node; alive : bool }.

Definition upd (n : bool) (f : node → node) (w : world) : world :=
  World (fun m => if Bool.eqb m n then f (nd w m) else nd w m) (alive w).

Definition on_refs (f : gmap Z Z → gmap Z Z) (x : node) : node :=
  Node (dma x) (reads x) (live x) (f (fence_refcount x)) (users x) (pool x) (done x) (reqs x) (fences x) (inbox x) (stores x) (ws x) (oops x).
Definition on_users (f : gmap Z Z → gmap Z Z) (x : node) : node :=
  Node (dma x) (reads x) (live x) (fence_refcount x) (f (users x)) (pool x) (done x) (reqs x) (fences x) (inbox x) (stores x) (ws x) (oops x).
Definition on_live (f : gset Z → gset Z) (x : node) : node :=
  Node (dma x) (reads x) (f (live x)) (fence_refcount x) (users x) (pool x) (done x) (reqs x) (fences x) (inbox x) (stores x) (ws x) (oops x).
Definition on_pool (f : gmap Z scif_status → gmap Z scif_status) (x : node) : node :=
  Node (dma x) (reads x) (live x) (fence_refcount x) (users x) (f (pool x)) (done x) (reqs x) (fences x) (inbox x) (stores x) (ws x) (oops x).
Definition on_done (f : gset Z → gset Z) (x : node) : node :=
  Node (dma x) (reads x) (live x) (fence_refcount x) (users x) (pool x) (f (done x)) (reqs x) (fences x) (inbox x) (stores x) (ws x) (oops x).
Definition on_reqs (f : gmap Z scif_fence_info → gmap Z scif_fence_info) (x : node) : node :=
  Node (dma x) (reads x) (live x) (fence_refcount x) (users x) (pool x) (done x) (f (reqs x)) (fences x) (inbox x) (stores x) (ws x) (oops x).
Definition on_fences (f : list scifmsg → list scifmsg) (x : node) : node :=
  Node (dma x) (reads x) (live x) (fence_refcount x) (users x) (pool x) (done x) (reqs x) (f (fences x)) (inbox x) (stores x) (ws x) (oops x).
Definition on_inbox (f : list scifmsg → list scifmsg) (x : node) : node :=
  Node (dma x) (reads x) (live x) (fence_refcount x) (users x) (pool x) (done x) (reqs x) (fences x) (f (inbox x)) (stores x) (ws x) (oops x).
Definition on_stores (f : list (Z * Z) → list (Z * Z)) (x : node) : node :=
  Node (dma x) (reads x) (live x) (fence_refcount x) (users x) (pool x) (done x) (reqs x) (fences x) (inbox x) (f (stores x)) (ws x) (oops x).
Definition on_ws (f : wstate → wstate) (x : node) : node :=
  Node (dma x) (reads x) (live x) (fence_refcount x) (users x) (pool x) (done x) (reqs x) (fences x) (inbox x) (stores x) (f (ws x)) (oops x).
Definition set_oops (x : node) : node :=
  Node (dma x) (reads x) (live x) (fence_refcount x) (users x) (pool x) (done x) (reqs x) (fences x) (inbox x) (stores x) (ws x) true.
Definition with_dma (d : sys) (r : list (option Z)) (x : node) : node :=
  Node d r (live x) (fence_refcount x) (users x) (pool x) (done x) (reqs x) (fences x) (inbox x) (stores x) (ws x) (oops x).

Definition get (m : gmap Z Z) (k : Z) : Z := default 0 (m !! k).
Definition add (k d : Z) (m : gmap Z Z) : gmap Z Z := <[k := get m k + d]> m.

(** ** Callbacks

    [scif_fence_mark_cb] (the waiters it wakes up poll, see [wait_event] of [ScifFence]). *)
Definition scif_fence_mark_cb (ep : Z) (x : node) : node :=
  if bool_decide (ep ∈ live x) then on_refs (add ep (-1)) x else set_oops x.

(** The endpoint in the block is dereferenced for its pool. *)
Definition scif_prog_signal_cb (a : Z) (x : node) : node :=
  match pool x !! a with
  | Some status =>
      let x := if bool_decide (st_ep status ∈ live x) then x else set_oops x in
      on_pool (delete a) x
  | None => set_oops x
  end.

Definition scif_dma_callback (c : Z) (x : node) : node := on_done ({[ c ]} ∪.) x.

Definition run_callback (x : node) (z : Z) : node :=
  match decode_cb z with
  | CbMark ep => scif_fence_mark_cb ep x
  | CbSignal a => scif_prog_signal_cb a x
  | CbDone c => scif_dma_callback c x
  | CbOther _ => x
  end.

(** What the engine reads when it executes a descriptor, if the source is a value in the
    pool. *)
Definition read_at (x : node) (c : copy) : option Z :=
  let '(src, _, len) := c in
  if len =? 8 then val <$> pool x !! (src - offsetof_val) else None.

(** The channel goes to [d]: the descriptors executed read their source, then the
    callbacks of the requests completed run. *)
Definition set_dma (d : sys) (x : node) : node :=
  let x1 := with_dma d (reads x ++ (read_at x <$> drop (length (ran (dma x))) (ran d))) x in
  foldl run_callback x1 (drop (length (called (ch (dma x)))) (called (ch d))).

(** ** Operations *)

Inductive op : Type → Type :=
  (** the channel *)
  | prep (dst src len flags : Z) : op (option Z)
  | tx_submit (tx : Z) (cb : option callback) : op Z
  | issue_pending : op unit
  | tx_status (cookie : Z) : op bool
  (** the pool *)
  | pool_alloc : op (option Z)
  | pool_set (a : Z) (st : scif_status) : op unit
  | pool_free (a : Z) : op unit
  (** endpoints *)
  | enter (ep : Z) : op bool
  | leave (ep : Z) : op unit
  | deref (ep : Z) : op unit
  | atomic_inc (ep : Z) : op unit
  | atomic_sub_return (ep : Z) : op Z
  (** completions of waiting threads *)
  | new_completion : op Z
  | wait_done (c : Z) : op unit
  (** fence requests *)
  | kmalloc_req : op (option Z)
  | kfree_req (r : Z) : op unit
  | write_req (r : Z) (f : scif_fence_info → scif_fence_info) : op unit
  | read_req (r : Z) : op scif_fence_info
  | wait_comp (r : Z) : op bool
  (** messages *)
  | next_msg : op scifmsg
  | send (m : scifmsg) (to : bool) : op unit
  | send_connected (m : scifmsg) (to : bool) : op Z
  | fence_add (m : scifmsg) : op unit
  | take_fences : op (list scifmsg)
  (** windows: the lock of an endpoint, its lists, the queue of windows to be destroyed *)
  | lock (ep : Z) : op unit
  | unlock (ep : Z) : op unit
  | reg_list (ep : Z) (self : bool) : op (list DmaWindow.dma_window)
  | list_del (ep a : Z) : op unit
  | next_window : op (option Z)
  | atomic_dec_tw (ep : Z) : op unit
  | is_alive : op bool
  (** the rest of the kernel *)
  | store (va v : Z) : op unit
  | peer_window (a : Z) : op DmaWindow.dma_window
  | choose (P : Z → bool) : op Z
  (** no step of the code: the descriptors programmed so far on a node; a wait for all DMA
      has failed *)
  | programmed_on (m : bool) : op (list copy)
  | drain_failed : op unit.

Inductive prog (A : Type) : Type :=
  | Ret (a : A)
  | Op {X : Type} (o : op X) (k : X → prog A).
Arguments Ret {A}.
Arguments Op {A X}.

Fixpoint bind {A B} (p : prog A) (f : A → prog B) : prog B :=
  match p with
  | Ret a => f a
  | Op o k => Op o (fun x => bind (k x) f)
  end.

#[export] Instance prog_ret : MRet prog := fun A a => Ret a.

Definition do {X} (o : op X) : prog X := Op o Ret.

Notation "x ← y ; z" := (bind y (fun x => z)) : prog_scope.
Notation "' x ← y ; z" := (bind y (fun x => z)) : prog_scope.
Notation "y ;; z" := (bind y (fun _ => z)) : prog_scope.

(** The windows of an endpoint are disjoint, in order, mapped for DMA, at addresses the
    engine can take. *)
Definition window_good (w : DmaWindow.dma_window) : Prop :=
  DmaWindow.window_ok w ∧ Forall (fun c => c.1 + c.2 * 4096 < 2 ^ 47) (DmaWindow.chunks w).
Definition windows_ok (l : list DmaWindow.dma_window) : Prop :=
  Forall window_good l ∧ RmaList.reg_list_ok (DmaWindow.win <$> l) ∧ NoDup (RmaList.w_addr ∘ DmaWindow.win <$> l).

(** The step of operation [o] of a thread of node [n], with its result.  [prep] returns
    once a pass gets a transaction or fails otherwise; [tx_submit] has the first
    [2^31 - 3] requests of a channel, whose cookies do not wrap, and those without flags
    before a clean-up has passed what they programmed ([late_submit] of [DmaX200Sys] is the
    other case); [wait_comp] does not return
    without the completion while the peer is alive, as the loops around it retry. *)
Definition do_op {X} (n : bool) (o : op X) (w : world) : X → world → Prop :=
  let x := nd w n in
  match o in op X return X → world → Prop with
  | prep dst src len flags => fun r w' =>
      held (dma x) = None ∧ ∃ in_time c,
      (∃ idx, prep_pass in_time (ch (dma x)) dst src len flags = Some (PTx idx, c) ∧ r = Some idx ∧
         w' = upd n (set_dma (programmed (dma x) c (Some (idx, flags)) (request_copies src dst len))) w) ∨
      (∃ err, prep_pass in_time (ch (dma x)) dst src len flags = Some (PNull err, c) ∧ r = None ∧
         w' = upd n (set_dma (with_ch (dma x) c)) w)
  | tx_submit tx cb => fun r w' => ∃ flags,
      held (dma x) = Some (tx, flags) ∧ (flags = 0 → last_tail (ch (dma x)) ≠ head (ch (dma x))) ∧
      zlen (subs (dma x)) + 1 < 2 ^ 31 - 2 ∧ r = dma_cookie_assign (ch (dma x)) ∧
      w' = upd n (set_dma (submit (dma x) tx flags (encode_cb <$> cb))) w
  | issue_pending => fun _ w' => w' = upd n (set_dma (with_ch (dma x) (mic_dma_issue_pending (ch (dma x))))) w
  | tx_status ck => fun r w' => ∃ c,
      mic_dma_tx_status (ch (dma x)) ck = Some (r, c) ∧ w' = upd n (set_dma (with_ch (dma x) c)) w
  | pool_alloc => fun r w' =>
      (r = None ∧ w' = w) ∨
      (∃ a st, r = Some a ∧ pool x !! a = None ∧ 0 <= a ∧ a + sizeof_scif_status < 2 ^ 48 ∧ w' = upd n (on_pool (<[a := st]>)) w)
  | pool_set a st => fun _ w' => w' = upd n (on_pool (<[a := st]>)) w
  | pool_free a => fun _ w' => w' = upd n (on_pool (delete a)) w
  | enter ep => fun r w' =>
      (r = false ∧ ep ∉ live x ∧ w' = w) ∨ (r = true ∧ ep ∈ live x ∧ w' = upd n (on_users (add ep 1)) w)
  | leave ep => fun _ w' => w' = upd n (on_users (add ep (-1))) w
  | deref ep => fun _ w' => w' = w
  | atomic_inc ep => fun _ w' => w' = upd n (on_refs (add ep 1)) w
  | atomic_sub_return ep => fun r w' => r = get (fence_refcount x) ep - 1 ∧ w' = upd n (on_refs (add ep (-1))) w
  | new_completion => fun c w' => c ∉ done x ∧ w' = w
  | wait_done c => fun _ w' => c ∈ done x ∧ w' = upd n (on_done (.∖ {[ c ]})) w
  | kmalloc_req => fun r w' =>
      (r = None ∧ w' = w) ∨ (∃ a i, r = Some a ∧ reqs x !! a = None ∧ w' = upd n (on_reqs (<[a := FenceInfo i false 0]>)) w)
  | kfree_req r => fun _ w' => w' = upd n (on_reqs (delete r)) w
  | write_req r f => fun _ w' => w' = upd n (on_reqs (alter f r)) w
  | read_req r => fun i w' => reqs x !! r = Some i ∧ w' = w
  | wait_comp r => fun b w' => ∃ i, reqs x !! r = Some i ∧
      ((b = true ∧ comp i = true ∧ w' = upd n (on_reqs (<[r := FenceInfo (state i) false (dma_mark i)]>)) w) ∨
       (b = false ∧ comp i = false ∧ alive w = false ∧ w' = w))
  | next_msg => fun m w' => ∃ l, inbox x = m :: l ∧
      w' = upd n (fun x => on_users (add (payload0 m) 1) (on_inbox (fun _ => l) x)) w
  | send m to => fun _ w' => w' = w ∨ w' = upd to (on_inbox (.++ [m])) w
  | send_connected m to => fun r w' =>
      (r = 0 ∧ payload0 m ∈ live (nd w to) ∧ w' = upd to (on_inbox (.++ [m])) w) ∨
      ((r = - ENOTCONN ∨ r = - ENODEV) ∧ w' = w)
  | fence_add m => fun _ w' => w' = upd n (on_fences (.++ [m])) w
  | take_fences => fun l w' => l = fences x ∧ w' = upd n (on_fences (fun _ => [])) w
  | store va v => fun _ w' => w' = upd n (on_stores (.++ [(va, v)])) w
  | lock ep => fun _ w' => ep ∉ rma_locked (ws x) ∧ w' = upd n (on_ws (on_locked ({[ ep ]} ∪.))) w
  | unlock ep => fun _ w' => w' = upd n (on_ws (on_locked (.∖ {[ ep ]}))) w
  | reg_list ep self => fun l w' => l = list_of (info_of (ws x) ep) self ∧ w' = upd n (on_ws (look ep self)) w
  | list_del ep a => fun _ w' => w' = upd n (on_ws (on_info ep (fun i => set_list false (without a (remote_list i)) i))) w
  | next_window => fun r w' =>
      (r = None ∧ rma_queue (ws x) = [] ∧ w' = w) ∨
      (∃ ep q, r = Some ep ∧ rma_queue (ws x) = ep :: q ∧ w' = upd n (on_ws (on_queue (fun _ => q))) w)
  | atomic_dec_tw ep => fun _ w' => w' = upd n (on_ws (on_info ep (add_tw (-1)))) w
  | is_alive => fun b w' => b = alive w ∧ w' = w
  | peer_window a => fun d w' => w' = w
  | choose P => fun z w' => P z = true ∧ w' = w
  | programmed_on m => fun l w' => l = DmaX200Sys.prog (dma (nd w m)) ∧ w' = w
  | drain_failed => fun _ w' => w' = upd n (on_ws set_hung) w
  end.

(** The states in which an operation uses freed memory, or gives the channel a request
    that its descriptors cannot express or a transaction that is not there. *)
Definition fault {X} (n : bool) (o : op X) (w : world) : Prop :=
  let x := nd w n in
  match o with
  | prep dst src len flags => ¬ req_ok src dst len flags
  | tx_submit tx _ => ∀ flags, held (dma x) ≠ Some (tx, flags)
  | pool_set a _ | pool_free a => pool x !! a = None
  | leave ep | deref ep | atomic_inc ep | atomic_sub_return ep => ep ∉ live x
  | lock ep | unlock ep | reg_list ep _ | list_del ep _ | atomic_dec_tw ep => ep ∉ live x
  | next_window => ∃ ep q, rma_queue (ws x) = ep :: q ∧ ep ∉ live x
  | kfree_req r | write_req r _ | read_req r | wait_comp r => reqs x !! r = None
  | next_msg => ∃ m l, inbox x = m :: l ∧ payload0 m ∉ live x
  | send m to => payload0 m ∉ live (nd w to)
  | _ => False
  end.

(** ** Threads

    A step of the channel that is none of its requests: the engine, an interrupt, a
    clean-up. *)
Definition dma_step (d d' : sys) : Prop :=
  step d d' ∧ held d' = held d ∧ DmaX200Sys.prog d' = DmaX200Sys.prog d ∧ subs d' = subs d.

Definition scif_rma_ep_can_uninit (ep : Z) (x : node) : bool :=
  let i := info_of (ws x) ep in
  bool_decide (self_list i = []) && bool_decide (remote_list i = []) && (nr_mmn i =? 0) &&
  (tw_refcount i =? 0) && (tcw_refcount i =? 0) && (get (fence_refcount x) ep =? 0).

(** What the code that registers windows does to an endpoint that is not locked: windows
    come; one goes, and is queued for destruction with a reference of the endpoint
    ([scif_recv_unreg], [scif_recv_del_window]); a temporary window is queued in the same
    way; the counts of cached windows and notifiers change. *)
Inductive rma_step (live : gset Z) (W : wstate) : wstate → Prop :=
  | rs_register ep self l :
      ep ∈ live → ep ∉ rma_locked W → windows_ok l → list_of (info_of W ep) self ⊆ l →
      rma_step live W (on_info ep (set_list self l) W)
  | rs_unregister ep self a :
      ep ∉ rma_locked W → a ∈ RmaList.w_addr ∘ DmaWindow.win <$> list_of (info_of W ep) self →
      rma_step live W (on_queue (.++ [ep]) (on_info ep (fun i => add_tw 1 (set_list self (without a (list_of i self)) i)) W))
  | rs_temp ep : ep ∈ live → rma_step live W (on_queue (.++ [ep]) (on_info ep (add_tw 1) W))
  | rs_counts ep tcw mmn : ep ∈ live → rma_step live W (on_info ep (set_counts tcw mmn) W).

Definition thread (A : Type) : Type := bool * prog A.

(** An operation of a thread; the channel; the code that registers windows; the clean-up
    of a closed endpoint ([scif_cleanup_zombie_epd]), on which no call works and for which
    no message is on its way, as its connection is down; and, when [dies], the loss of a
    node. *)
Inductive pstep {A} (dies : bool) : list (thread A) * world → list (thread A) * world → Prop :=
  | ps_op tp w i n X (o : op X) k r w' :
      tp !! i = Some (n, Op o k) → ¬ fault n o w → do_op n o w r w' → pstep dies (tp, w) (<[i := (n, k r)]> tp, w')
  | ps_dma tp w n d : dma_step (dma (nd w n)) d → pstep dies (tp, w) (tp, upd n (set_dma d) w)
  | ps_rma tp w n W : rma_step (live (nd w n)) (ws (nd w n)) W → pstep dies (tp, w) (tp, upd n (on_ws (fun _ => W)) w)
  | ps_uninit tp w n ep :
      ep ∈ live (nd w n) → scif_rma_ep_can_uninit ep (nd w n) = true → get (users (nd w n)) ep = 0 →
      (∀ m, m ∈ inbox (nd w n) → payload0 m ≠ ep) →
      pstep dies (tp, w) (tp, upd n (on_live (.∖ {[ ep ]})) w)
  | ps_die tp w : dies = true → pstep dies (tp, w) (tp, World (nd w) false).

(** A thread is about to use freed memory; it is, or a callback has. *)
Definition faulty {A} (c : list (thread A) * world) : Prop :=
  ∃ i n X (o : op X) k, c.1 !! i = Some (n, Op o k) ∧ fault n o c.2.
Definition broken {A} (c : list (thread A) * world) : Prop := (∃ n, oops (nd c.2 n) = true) ∨ faulty c.

(** Two nodes with their channels as they start, no requests and no messages. *)
Definition start_node (da : Z) (eps : gset Z) : node :=
  Node (init da) [] eps ∅ ∅ ∅ ∅ ∅ [] [] [] (WState ∅ ∅ [] false []) false.
Definition start (da db : Z) (ea eb : gset Z) : world :=
  World (fun n => if n then start_node da ea else start_node db eb) true.

End FenceProg.
