(* ===== verification/ScifFence.v ===== *)
(** * Fences and signals

    Models [mpss4/mpss-modules/mic/scif/scif_fence.c] and the waits for all DMA of
    [scif_dma.c] as programs of [FenceProg], one for each function: marking the DMA requests
    of an endpoint, waiting for a mark, writing a value once they are done, on this node or,
    by messages, on the node of the peer; and the worker that destroys windows, which waits
    for the signals into them.  Of the locks only [rma_lock] is an operation, where windows
    are looked up and taken off their lists: what runs under another lock touches nothing
    that another thread writes without it, and a longer interleaving only adds behaviour.
    Waking up a worker is none either, as threads run at any time. *)
From S2P Require Import Prelude RmaList DmaWindow DmaX200 FenceProg.
Local Open Scope Z_scope.
Local Open Scope prog_scope.

Module ScifFence.
Import RmaList DmaWindow FenceProg.

Definition SCIF_FENCE_INIT_SELF : Z := 1.
Definition SCIF_FENCE_INIT_PEER : Z := 2.
Definition SCIF_SIGNAL_LOCAL : Z := 16.
Definition SCIF_SIGNAL_REMOTE : Z := 32.
Definition SCIF_PROT_WRITE : Z := 2.
Definition SCIF_REMOTE_FENCE : Z := Z.shiftl 1 31.
Definition SCIF_LOOPB_MAGIC_MARK : Z := 0xdead.
Definition ETIMEDOUT : Z := 110.
Definition EIO : Z := 5.
Definition DMA_PREP_INTERRUPT : Z := 1.
Definition DMA_PREP_FENCE : Z := 32.

Definition isset (flags f : Z) : bool := negb (Z.land flags f =? 0).

(** [dmaengine_check_align] of the kernel; [mic_register_dma_device] leaves [copy_align]
    zero, so every alignment will do and [x100] is false. *)
Definition is_dma_copy_aligned (align off1 off2 len : Z) : bool :=
  if align =? 0 then true else Z.land (Z.shiftl 1 align - 1) (Z.lor (Z.lor off1 off2) len) =? 0.
Definition copy_align : Z := 0.
Definition x100 : bool := negb (is_dma_copy_aligned copy_align 1 1 1).

Definition dma_submit_error (cookie : Z) : Z := if cookie <? 0 then cookie else 0.

(** [again]: how often there is time for another try. *)
Fixpoint scif_dma_submit (again : nat) (tx : Z) (cb : option callback) : prog Z :=
  cookie ← do (tx_submit tx cb);
  match again with
  | S again => if cookie =? - EBUSY then scif_dma_submit again tx cb else mret cookie
  | O => mret cookie
  end.

(** Whether the condition holds when it is looked at last: the time left (at least 1), 0
    when there is none, or a signal.  The looks before that are steps of the channel. *)
Definition wait_event (cookie : Z) : prog Z :=
  b ← do (tx_status cookie);
  if b then mret 1 else do (choose (fun z => (z =? 0) || (z =? - ERESTARTSYS))).

(** [dma_sync_wait] of the kernel: issues, and looks until the request is complete or
    some seconds have passed. *)
Definition dma_sync_wait (cookie : Z) : prog bool := do issue_pending;; do (tx_status cookie).

Definition scif_verify_epd (ep : Z) : prog Z :=
  do (choose (fun z => (z =? 0) || (z =? - ECONNRESET) || (z =? - ENOTCONN) || (z =? - ENODEV))).

Definition uninitialized : prog Z := do (choose (fun _ => true)).
Definition kmalloc_fails : prog bool := z ← do (choose (fun _ => true)); mret (z =? 0).

Section Code.
(** The node and the endpoint at the other end of a connection. *)
Context (conn : bool → Z → bool * Z).
(** Tries of [scif_dma_submit]. *)
Context (again : nat).

(** ** Marks and waits on this node *)

(** The error and what is in [*mark] afterwards. *)
Definition _scif_fence_mark (ep mark : Z) : prog (Z * Z) :=
  do (deref ep);;
  err ← (if x100 then
           tx ← do (prep 0 0 0 DMA_PREP_FENCE);
           match tx with
           | None => mret (- ENOMEM)
           | Some tx =>
               cookie ← scif_dma_submit again tx None;
               if negb (dma_submit_error cookie =? 0) then mret cookie
               else do issue_pending;; mret 0
           end
         else mret 0);
  if negb (err =? 0) then mret (err, mark)
  else
    tx ← do (prep 0 0 0 DMA_PREP_INTERRUPT);
    match tx with
    | None => mret (- ENOMEM, mark)
    | Some tx =>
        cookie ← scif_dma_submit again tx (Some (CbMark ep));
        if negb (dma_submit_error cookie =? 0) then mret (cookie, cookie)
        else do (atomic_inc ep);; do issue_pending;; mret (0, cookie)
    end.

(** The cookie in a mark, an [int] less the bit of an [unsigned long long]. *)
Definition cookie_of (mark : Z) : Z := s32 (Z.ldiff (u64 mark) SCIF_REMOTE_FENCE).

Definition _scif_fence_wait (ep mark : Z) : prog Z :=
  do (deref ep);;
  err ← wait_event (cookie_of mark);
  if err =? 0 then mret (- ETIMEDOUT) else if 0 <? err then mret 0 else mret err.

(** ** Signals on this node *)

Definition scif_get_local_va (off : Z) (window : dma_window) : Z :=
  let page_nr := s32 (Z.shiftr (s64 (off - w_offset window)) PAGE_SHIFT) in
  default 0 (page_va window !! Z.to_nat page_nr) + Z.land off (PAGE_SIZE - 1).

(** The path of the x100 uses an operation that the channel does not have. *)
Definition _scif_prog_signal (ep dst v : Z) : prog Z :=
  tx ← do (prep 0 0 0 DMA_PREP_FENCE);
  match tx with
  | None => mret (- ENOMEM)
  | Some tx =>
      cookie ← scif_dma_submit again tx None;
      if negb (dma_submit_error cookie =? 0) then mret cookie
      else
        do issue_pending;;
        status ← do pool_alloc;
        match status with
        | None => mret (- ENOMEM)
        | Some src =>
            do (pool_set src (Status src v ep));;
            tx ← do (prep dst (src + offsetof_val) 8 DMA_PREP_INTERRUPT);
            match tx with
            | None => do (pool_free src);; mret (- ENOMEM)
            | Some tx =>
                cookie ← scif_dma_submit again tx (Some (CbSignal src));
                if negb (dma_submit_error cookie =? 0) then do (pool_free src);; mret (- EIO)
                else do issue_pending;; mret 0
            end
        end
  end.

Definition query (offset : Z) (l : list dma_window) : Z * option dma_window :=
  let '(err, w) := scif_query_window (Req offset 8 SCIF_PROT_WRITE SCIF_WINDOW_SINGLE) (win <$> l) in
  (err, match w with Some w => List.find (fun d => w_addr (win d) =? w_addr w) l | None => None end).

(** [n]: the node. *)
Definition scif_prog_signal (n : bool) (ep offset v : Z) (self : bool) : prog Z :=
  do (lock ep);;
  l ← do (reg_list ep self);
  err ← match query offset l with
    | (err, Some window) =>
        if negb (err =? 0) then mret err
        else if n && Bool.eqb (conn n ep).1 n then
          window ← (if self then mret window else do (peer_window (w_addr (win window))));
          do (store (scif_get_local_va offset window) v);;
          mret err
        else _scif_prog_signal ep (__scif_off_to_dma_addr window offset) v
    | (err, None) => mret err
    end;
  do (unlock ep);;
  mret err.

(** ** Messages *)

Definition scif_recv_mark (n : bool) (msg : scifmsg) : prog () :=
  let ep := payload0 msg in
  mark ← uninitialized;
  '(err, mark) ← _scif_fence_mark ep mark;
  do (send (Msg (if negb (err =? 0) then SCIF_MARK_NACK else SCIF_MARK_ACK) (conn n ep).2 (payload1 msg) (u64 mark) (payload3 msg))
        (conn n ep).1).

Definition scif_recv_mark_resp (msg : scifmsg) : prog () :=
  do (deref (payload0 msg));;
  do (write_req (payload1 msg) (fun i =>
        if uop msg =? SCIF_MARK_ACK then FenceInfo OP_COMPLETED (comp i) (s32 (payload2 msg))
        else FenceInfo OP_FAILED (comp i) (dma_mark i)));;
  do (write_req (payload1 msg) (fun i => FenceInfo (state i) true (dma_mark i))).

Definition scif_recv_wait (n : bool) (msg : scifmsg) : prog () :=
  let ep := payload0 msg in
  fails ← kmalloc_fails;
  if (fails : bool) then
    do (send (Msg SCIF_WAIT_NACK (conn n ep).2 (payload1 msg) (payload2 msg) (payload3 msg)) (conn n ep).1)
  else do (atomic_inc ep);; do (fence_add msg).

(** [scif_recv_wait_resp] and [scif_recv_sig_resp] *)
Definition recv_resp (ack : Z) (r : Z) (msg : scifmsg) : prog () :=
  do (deref (payload0 msg));;
  do (write_req r (fun i => FenceInfo (if uop msg =? ack then OP_COMPLETED else OP_FAILED) (comp i) (dma_mark i)));;
  do (write_req r (fun i => FenceInfo (state i) true (dma_mark i))).

Definition scif_recv_wait_resp (msg : scifmsg) : prog () := recv_resp SCIF_WAIT_ACK (payload1 msg) msg.
Definition scif_recv_sig_resp (msg : scifmsg) : prog () := recv_resp SCIF_SIG_ACK (payload3 msg) msg.

Definition recv_sig (n self : bool) (msg : scifmsg) : prog () :=
  let ep := payload0 msg in
  err ← scif_prog_signal n ep (s64 (payload1 msg)) (payload2 msg) self;
  do (send (Msg (if negb (err =? 0) then SCIF_SIG_NACK else SCIF_SIG_ACK) (conn n ep).2 (payload1 msg) (payload2 msg) (payload3 msg))
        (conn n ep).1).

Definition scif_recv_sig_local (n : bool) (msg : scifmsg) : prog () := recv_sig n true msg.
Definition scif_recv_sig_remote (n : bool) (msg : scifmsg) : prog () := recv_sig n false msg.

(** The entries of the handler table of [scif_nodeqp.c] for these messages. *)
Definition handler (n : bool) (msg : scifmsg) : prog () :=
  if uop msg =? SCIF_MARK then scif_recv_mark n msg
  else if (uop msg =? SCIF_MARK_ACK) || (uop msg =? SCIF_MARK_NACK) then scif_recv_mark_resp msg
  else if uop msg =? SCIF_WAIT then scif_recv_wait n msg
  else if (uop msg =? SCIF_WAIT_ACK) || (uop msg =? SCIF_WAIT_NACK) then scif_recv_wait_resp msg
  else if uop msg =? SCIF_SIG_LOCAL then scif_recv_sig_local n msg
  else if uop msg =? SCIF_SIG_REMOTE then scif_recv_sig_remote n msg
  else if (uop msg =? SCIF_SIG_ACK) || (uop msg =? SCIF_SIG_NACK) then scif_recv_sig_resp msg
  else mret ().

(** The next message, and its handler. *)
Definition receive (n : bool) : prog () :=
  msg ← do next_msg;
  handler n msg;;
  do (leave (payload0 msg)).

(** The loop of [scif_rma_handle_remote_fences] over the list, which nobody else gets at
    before the loop has emptied it. *)
Fixpoint serve (n : bool) (l : list scifmsg) : prog () :=
  match l with
  | [] => mret ()
  | msg :: l =>
      let ep := payload0 msg in
      let mark := s32 (payload2 msg) in
      err ← _scif_fence_wait ep mark;
      do (send (Msg (if negb (err =? 0) then SCIF_WAIT_NACK else SCIF_WAIT_ACK) (conn n ep).2 (payload1 msg) (payload2 msg) (payload3 msg))
            (conn n ep).1);;
      do (atomic_sub_return ep);;
      serve n l
  end.

Definition scif_rma_handle_remote_fences (n : bool) : prog () := l ← do take_fences; serve n l.

(** ** Requests to the peer *)

(** The error and what is in [*out_mark] afterwards. *)
Definition _scif_send_fence (n : bool) (ep uop mark out_mark : Z) : prog (Z * Z) :=
  req ← do kmalloc_req;
  match req with
  | None => mret (- ENOMEM, out_mark)
  | Some fence_req =>
      do (write_req fence_req (fun i => FenceInfo OP_IN_PROGRESS false (dma_mark i)));;
      p2 ← (if uop =? SCIF_WAIT then mret (u64 mark) else uninitialized);
      p3 ← uninitialized;
      err ← do (send_connected (Msg uop (conn n ep).2 fence_req p2 p3) (conn n ep).1);
      if negb (err =? 0) then do (kfree_req fence_req);; mret (err, out_mark)
      else
        done ← do (wait_comp fence_req);
        let err := if done : bool then 0 else - ENODEV in
        (if err <? 0 then
           do (write_req fence_req (fun i => if decide (state i = OP_IN_PROGRESS) then FenceInfo OP_FAILED (comp i) (dma_mark i) else i))
         else mret ());;
        info ← do (read_req fence_req);
        let err := if bool_decide (state info = OP_FAILED) && (err =? 0) then - ENOMEM else err in
        let out_mark := if (uop =? SCIF_MARK) && bool_decide (state info = OP_COMPLETED)
                        then s32 (Z.lor SCIF_REMOTE_FENCE (u64 (dma_mark info))) else out_mark in
        do (kfree_req fence_req);;
        mret (err, out_mark)
  end.

Definition scif_send_fence_mark (n : bool) (ep out_mark : Z) : prog (Z * Z) := _scif_send_fence n ep SCIF_MARK 0 out_mark.
Definition scif_send_fence_wait (n : bool) (ep mark : Z) : prog Z :=
  '(err, _) ← _scif_send_fence n ep SCIF_WAIT mark 0; mret err.

Definition _scif_send_fence_signal_wait (fence_req : Z) : prog Z :=
  done ← do (wait_comp fence_req);
  let err := if done : bool then 0 else - ENODEV in
  (if err <? 0 then
     do (write_req fence_req (fun i => if decide (state i = OP_IN_PROGRESS) then FenceInfo OP_FAILED (comp i) (dma_mark i) else i))
   else mret ());;
  info ← do (read_req fence_req);
  mret (if bool_decide (state info = OP_FAILED) && (err =? 0) then - ENXIO else err).

(** One of the two messages of [scif_send_fence_signal], and its answer. *)
Definition signal_msg (n : bool) (ep uop off v fence_req : Z) : prog Z :=
  err ← do (send_connected (Msg uop (conn n ep).2 (u64 off) v fence_req) (conn n ep).1);
  if negb (err =? 0) then mret err else _scif_send_fence_signal_wait fence_req.

Definition scif_send_fence_signal (n : bool) (ep roff rval loff lval flags : Z) : prog Z :=
  req ← do kmalloc_req;
  match req with
  | None => mret (- ENOMEM)
  | Some fence_req =>
      do (write_req fence_req (fun i => FenceInfo OP_IN_PROGRESS false (dma_mark i)));;
      err ← (if isset flags SCIF_SIGNAL_LOCAL then signal_msg n ep SCIF_SIG_LOCAL roff rval fence_req else mret 0);
      if negb (err =? 0) then do (kfree_req fence_req);; mret err
      else
        do (write_req fence_req (fun i => FenceInfo OP_IN_PROGRESS (comp i) (dma_mark i)));;
        err ← (if isset flags SCIF_SIGNAL_REMOTE then signal_msg n ep SCIF_SIG_REMOTE loff lval fence_req else mret err);
        do (kfree_req fence_req);;
        mret err
  end.

(** ** The calls *)

Definition init_flags (flags : Z) : bool :=
  let init := Z.lor SCIF_FENCE_INIT_SELF SCIF_FENCE_INIT_PEER in
  isset flags init && negb (isset flags SCIF_FENCE_INIT_SELF && isset flags SCIF_FENCE_INIT_PEER).

Definition scif_fence_mark (n : bool) (ep flags mark : Z) : prog (Z * Z) :=
  err ← scif_verify_epd ep;
  if negb (err =? 0) then mret (err, mark)
  else if negb (Z.ldiff flags (Z.lor SCIF_FENCE_INIT_SELF SCIF_FENCE_INIT_PEER) =? 0) then mret (- EINVAL, mark)
  else if negb (init_flags flags) then mret (- EINVAL, mark)
  else if Bool.eqb (conn n ep).1 n && n then mret (0, SCIF_LOOPB_MAGIC_MARK)
  else if isset flags SCIF_FENCE_INIT_SELF then _scif_fence_mark ep mark
  else scif_send_fence_mark n ep mark.

Definition scif_fence_wait (n : bool) (ep mark : Z) : prog Z :=
  err ← scif_verify_epd ep;
  if negb (err =? 0) then mret err
  else if Bool.eqb (conn n ep).1 n && n then mret (if mark =? SCIF_LOOPB_MAGIC_MARK then 0 else - EINVAL)
  else if isset (u64 mark) SCIF_REMOTE_FENCE then scif_send_fence_wait n ep mark
  else _scif_fence_wait ep mark.

(** The checks of [scif_fence_signal] on its arguments. *)
Definition signal_args (loff roff flags : Z) : bool :=
  (Z.ldiff flags (Z.lor (Z.lor (Z.lor SCIF_FENCE_INIT_SELF SCIF_FENCE_INIT_PEER) SCIF_SIGNAL_LOCAL) SCIF_SIGNAL_REMOTE) =? 0) &&
  init_flags flags && isset flags (Z.lor SCIF_SIGNAL_LOCAL SCIF_SIGNAL_REMOTE) &&
  negb (isset flags SCIF_SIGNAL_LOCAL && isset loff 3) && negb (isset flags SCIF_SIGNAL_REMOTE && isset roff 3).

Definition scif_fence_signal (n : bool) (ep loff lval roff rval flags : Z) : prog Z :=
  err ← scif_verify_epd ep;
  if negb (err =? 0) then mret err
  else if negb (signal_args loff roff flags) then mret (- EINVAL)
  else if isset flags SCIF_FENCE_INIT_PEER then scif_send_fence_signal n ep roff rval loff lval flags
  else
    err ← (if isset flags SCIF_SIGNAL_LOCAL then scif_prog_signal n ep loff lval true else mret err);
    if negb (err =? 0) then mret err
    else if isset flags SCIF_SIGNAL_REMOTE then scif_prog_signal n ep roff rval false else mret err.

(** ** Waiting for all DMA ([scif_dma.c])

    [chan]: there is a channel. *)

Definition scif_sync_dma (chan sync_wait : bool) : prog Z :=
  if negb chan then mret (- EIO)
  else
    tx ← do (prep 0 0 0 DMA_PREP_FENCE);
    match tx with
    | None => mret (- ENOMEM)
    | Some tx =>
        cookie ← scif_dma_submit again tx None;
        if negb (dma_submit_error cookie =? 0) then mret (- ENOMEM)
        else if negb sync_wait then do issue_pending;; mret 0
        else done ← dma_sync_wait cookie; mret (if (done : bool) then 0 else - EIO)
    end.

(** The wait for the callback starts again when its time is over. *)
Definition scif_async_dma (chan : bool) : prog Z :=
  if negb chan then mret (- EIO)
  else
    done_wait ← do new_completion;
    tx ← do (prep 0 0 0 (Z.lor DMA_PREP_INTERRUPT DMA_PREP_FENCE));
    match tx with
    | None => mret (- ENOMEM)
    | Some tx =>
        cookie ← scif_dma_submit again tx (Some (CbDone done_wait));
        if negb (dma_submit_error cookie =? 0) then mret (- ENOMEM)
        else
          do issue_pending;;
          do (wait_done done_wait);;
          done ← do (tx_status cookie);
          mret (if (done : bool) then 0 else - EIO)
    end.

Definition scif_drain_dma_poll (chan : bool) : prog Z :=
  if negb chan then mret (- EINVAL) else scif_sync_dma chan true.
Definition scif_drain_dma_intr (chan : bool) : prog Z :=
  if negb chan then mret (- EINVAL) else scif_async_dma chan.

(** [scif_rma_destroy_windows], for at most [times] windows of the queue: a run that ends
    before the queue is empty is continued by another.  What is destroyed with a window is
    modelled in [ScifReg]. *)
Fixpoint scif_rma_destroy_windows (times : nat) : prog () :=
  match times with
  | O => mret ()
  | S times =>
      window ← do next_window;
      match window with
      | None => mret ()
      | Some ep =>
          alive ← do is_alive;
          err ← (if alive : bool then scif_drain_dma_intr true else mret 0);
          (if err =? 0 then do (deref ep) else do drain_failed);;
          do (atomic_dec_tw ep);;
          scif_rma_destroy_windows times
      end
  end.

(** [scif_rma_list_munmap] for a window of the peer that is to be unregistered and that the
    call leaves unmapped; the result of the wait is ignored. *)
Definition scif_rma_list_munmap (ep a : Z) : prog () :=
  do (lock ep);;
  err ← scif_drain_dma_intr true;
  (if err =? 0 then mret () else do drain_failed);;
  do (list_del ep a);;
  do (unlock ep).

(** One transfer of the copy routines of [scif_dma.c] ([ScifDma]): prepared, submitted,
    issued. *)
Definition dma_transfer (dst src len flags : Z) (cb : option Z) : prog Z :=
  tx ← do (prep dst src len flags);
  match tx with
  | None => mret (- ENOMEM)
  | Some tx =>
      cookie ← scif_dma_submit again tx (CbOther <$> cb);
      if negb (dma_submit_error cookie =? 0) then mret (- ENOMEM) else do issue_pending;; mret 0
  end.

End Code.

End ScifFence.
