(* ===== verification/FenceTask.v ===== *)
(** * Threads that use fences, and runs of them

    What the threads of the theorems of [FenceSafe] do ([task]), with what is claimed of
    their results ([outcome]); and an executable form of the steps of [FenceProg], in which
    hints resolve what a step leaves open, proved to make steps of [pstep]. *)
From S2P Require Import Prelude RmaList DmaWindow DmaX200 DmaX200Inv DmaX200Sys FenceProg ScifFence.
Local Open Scope Z_scope.
Local Open Scope prog_scope.

Module FenceTask.
Import DmaX200 DmaX200Inv DmaX200Sys FenceProg ScifFence.

(** ** Tasks *)

(** A call of [scif_fence_mark], [scif_fence_wait] or [scif_fence_signal]; a message
    received; a look at the queue of remote fences; a transfer, a wait for all DMA; a mark
    that is then waited for; the worker that destroys windows; the end of a mapping that
    was the last of a window of the peer. *)
Inductive task :=
  | TMark (ep flags mark : Z)
  | TWait (ep mark : Z)
  | TSignal (ep loff lval roff rval flags : Z)
  | TReceive
  | TFences
  | TTransfer (dst src len flags : Z) (cb : option Z)
  | TDrain (poll chan : bool)
  | TMarkWait (ep flags : Z)
  | TWindows (times : nat)
  | TMunmap (ep a : Z).

(** What the results of a thread tell: a mark and the wait for it returned 0, a wait for all
    DMA did, a signal did; [before] had been programmed when the thread started. *)
Inductive outcome :=
  | Over
  | Waited (on : bool) (before : list copy)
  | Drained (on : bool) (before : list copy)
  | Signalled (ep loff lval roff rval flags : Z) (before : list copy).

Definition task_ok (t : task) : Prop :=
  match t with TTransfer dst src len flags _ => req_ok src dst len flags | _ => True end.

Section Tasks.
Context (conn : bool → Z → bool * Z).
Context (again : nat).

(** A call works on an endpoint that is in use until it returns. *)
Definition call {A} (ep : Z) (body : prog A) : prog (option A) :=
  entered ← do (enter ep);
  if entered : bool then r ← body; do (leave ep);; mret (Some r) else mret None.

(** The nodes on which [scif_fence_mark] marks and [scif_fence_signal] writes. *)
Definition marked_node (n : bool) (ep flags : Z) : bool := if isset flags SCIF_FENCE_INIT_SELF then n else (conn n ep).1.
Definition signal_node (n : bool) (ep flags : Z) : bool := if isset flags SCIF_FENCE_INIT_PEER then (conn n ep).1 else n.

(** An endpoint of the management node that is connected to one of the same node. *)
Definition loops (n : bool) (ep : Z) : bool := n && Bool.eqb (conn n ep).1 n.

Definition program (n : bool) (t : task) : prog outcome :=
  match t with
  | TMark ep flags mark => _ ← call ep (scif_fence_mark conn again n ep flags mark); mret Over
  | TWait ep mark => _ ← call ep (scif_fence_wait conn n ep mark); mret Over
  | TSignal ep loff lval roff rval flags =>
      before ← do (programmed_on (signal_node n ep flags));
      r ← call ep (scif_fence_signal conn again n ep loff lval roff rval flags);
      mret (if r is Some err then if err =? 0 then Signalled ep loff lval roff rval flags before else Over else Over)
  | TReceive => receive conn again n;; mret Over
  | TFences => scif_rma_handle_remote_fences conn n;; mret Over
  | TTransfer dst src len flags cb => _ ← dma_transfer again dst src len flags cb; mret Over
  | TDrain poll chan =>
      before ← do (programmed_on n);
      err ← (if poll then scif_drain_dma_poll again chan else scif_drain_dma_intr again chan);
      mret (if err =? 0 then Drained n before else Over)
  | TMarkWait ep flags =>
      before ← do (programmed_on (marked_node n ep flags));
      r ← call ep (scif_fence_mark conn again n ep flags 0);
      match r with
      | Some (err, mark) =>
          if err =? 0 then
            r ← call ep (scif_fence_wait conn n ep mark);
            mret (if r is Some err then if (err =? 0) && negb (loops n ep) then Waited (marked_node n ep flags) before else Over else Over)
          else mret Over
      | None => mret Over
      end
  | TWindows times => scif_rma_destroy_windows again times;; mret Over
  | TMunmap ep a => _ ← call ep (scif_rma_list_munmap again ep a); mret Over
  end.

End Tasks.

(** The threads of some tasks, and the result of one. *)
Definition threads (conn : bool → Z → bool * Z) (again : nat) (ts : list (bool * task)) : list (thread outcome) :=
  (fun t => (t.1, program conn again t.1 t.2)) <$> ts.

Definition returned (tp : list (thread outcome)) (i : nat) : option (bool * outcome) :=
  match tp !! i with Some (n, Ret a) => Some (n, a) | _ => None end.

Lemma returned_ret tp i n a : returned tp i = Some (n, a) → tp !! i = Some (n, Ret a).
Proof. unfold returned. destruct (tp !! i) as [[m [b|]]|]; [|done..]. by intros [= -> ->]. Qed.

(** ** Runs *)

(** What a step leaves open: whether an allocation succeeds and the address it returns, a
    value, a window of the peer. *)
Inductive hint :=
  | HNone
  | HVal (z : Z)
  | HWindow (d : DmaWindow.dma_window).

#[export] Instance req_ok_dec src dst len flags : Decision (req_ok src dst len flags).
Proof. unfold req_ok. apply _. Defined.

Definition check (P : Prop) `{!Decision P} {A} (x : A) : option A := if decide P then Some x else None.

Definition run_op {X} (h : hint) (n : bool) (o : op X) (w : world) : option (X * world) :=
  let x := nd w n in
  match o in op X return option (X * world) with
  | prep dst src len flags =>
      if decide (held (dma x) = None ∧ req_ok src dst len flags) then
        match prep_pass (if h is HNone then false else true) (ch (dma x)) dst src len flags with
        | Some (PTx idx, c) => Some (Some idx, upd n (set_dma (programmed (dma x) c (Some (idx, flags)) (request_copies src dst len))) w)
        | Some (PNull err, c) => Some (None, upd n (set_dma (with_ch (dma x) c)) w)
        | _ => None
        end
      else None
  | tx_submit tx cb =>
      match held (dma x) with
      | Some (tx', flags) =>
          if decide (tx' = tx ∧ (flags ≠ 0 ∨ last_tail (ch (dma x)) ≠ head (ch (dma x))) ∧ zlen (subs (dma x)) + 1 < 2 ^ 31 - 2) then
            Some (dma_cookie_assign (ch (dma x)), upd n (set_dma (submit (dma x) tx flags (encode_cb <$> cb))) w)
          else None
      | None => None
      end
  | issue_pending => Some (tt, upd n (set_dma (with_ch (dma x) (mic_dma_issue_pending (ch (dma x))))) w)
  | tx_status ck =>
      match mic_dma_tx_status (ch (dma x)) ck with
      | Some (r, c) => Some (r, upd n (set_dma (with_ch (dma x) c)) w)
      | None => None
      end
  | pool_alloc =>
      match h with
      | HVal a => if decide (pool x !! a = None ∧ 0 <= a ∧ a + sizeof_scif_status < 2 ^ 48) then Some (Some a, upd n (on_pool (<[a := Status 0 0 0]>)) w) else None
      | _ => Some (None, w)
      end
  | pool_set a st => if decide (pool x !! a = None) then None else Some (tt, upd n (on_pool (<[a := st]>)) w)
  | pool_free a => if decide (pool x !! a = None) then None else Some (tt, upd n (on_pool (delete a)) w)
  | enter ep => if decide (ep ∈ live x) then Some (true, upd n (on_users (add ep 1)) w) else Some (false, w)
  | leave ep => if decide (ep ∈ live x) then Some (tt, upd n (on_users (add ep (-1))) w) else None
  | deref ep => if decide (ep ∈ live x) then Some (tt, w) else None
  | atomic_inc ep => if decide (ep ∈ live x) then Some (tt, upd n (on_refs (add ep 1)) w) else None
  | atomic_sub_return ep =>
      if decide (ep ∈ live x) then Some (get (fence_refcount x) ep - 1, upd n (on_refs (add ep (-1))) w) else None
  | new_completion => match h with HVal c => if decide (c ∈ done x) then None else Some (c, w) | _ => None end
  | wait_done c => if decide (c ∈ done x) then Some (tt, upd n (on_done (.∖ {[ c ]})) w) else None
  | kmalloc_req =>
      match h with
      | HVal a => if decide (reqs x !! a = None) then Some (Some a, upd n (on_reqs (<[a := FenceInfo OP_IDLE false 0]>)) w) else None
      | _ => Some (None, w)
      end
  | kfree_req r => match reqs x !! r with Some _ => Some (tt, upd n (on_reqs (delete r)) w) | None => None end
  | write_req r f => match reqs x !! r with Some _ => Some (tt, upd n (on_reqs (alter f r)) w) | None => None end
  | read_req r => match reqs x !! r with Some i => Some (i, w) | None => None end
  | wait_comp r =>
      match reqs x !! r with
      | Some i => if comp i then Some (true, upd n (on_reqs (<[r := FenceInfo (state i) false (dma_mark i)]>)) w)
                  else if alive w then None else Some (false, w)
      | None => None
      end
  | next_msg =>
      match inbox x with
      | m :: l => if decide (payload0 m ∈ live x)
                  then Some (m, upd n (fun x => on_users (add (payload0 m) 1) (on_inbox (fun _ => l) x)) w) else None
      | [] => None
      end
  | send m to =>
      if decide (payload0 m ∈ live (nd w to)) then Some (tt, match h with HNone => w | _ => upd to (on_inbox (.++ [m])) w end) else None
  | send_connected m to =>
      match h with
      | HNone => Some (- ENODEV, w)
      | _ => if decide (payload0 m ∈ live (nd w to)) then Some (0, upd to (on_inbox (.++ [m])) w) else None
      end
  | fence_add m => Some (tt, upd n (on_fences (.++ [m])) w)
  | take_fences => Some (fences x, upd n (on_fences (fun _ => [])) w)
  | store va v => Some (tt, upd n (on_stores (.++ [(va, v)])) w)
  | lock ep => if decide (ep ∈ live x ∧ ep ∉ rma_locked (ws x)) then Some (tt, upd n (on_ws (on_locked ({[ ep ]} ∪.))) w) else None
  | unlock ep => if decide (ep ∈ live x) then Some (tt, upd n (on_ws (on_locked (.∖ {[ ep ]}))) w) else None
  | reg_list ep self =>
      if decide (ep ∈ live x) then Some (list_of (info_of (ws x) ep) self, upd n (on_ws (look ep self)) w) else None
  | list_del ep a =>
      if decide (ep ∈ live x)
      then Some (tt, upd n (on_ws (on_info ep (fun i => set_list false (without a (remote_list i)) i))) w) else None
  | next_window =>
      match rma_queue (ws x) with
      | [] => Some (None, w)
      | ep :: q => if decide (ep ∈ live x) then Some (Some ep, upd n (on_ws (on_queue (fun _ => q))) w) else None
      end
  | atomic_dec_tw ep => if decide (ep ∈ live x) then Some (tt, upd n (on_ws (on_info ep (add_tw (-1)))) w) else None
  | is_alive => Some (alive w, w)
  | peer_window a => match h with HWindow d => Some (d, w) | _ => None end
  | choose P => match h with HVal z => if P z then Some (z, w) else None | _ => None end
  | programmed_on m => Some (DmaX200Sys.prog (dma (nd w m)), w)
  | drain_failed => Some (tt, upd n (on_ws set_hung) w)
  end.

Lemma run_op_sound {X} h n (o : op X) w r w' : run_op h n o w = Some (r, w') → ¬ fault n o w ∧ do_op n o w r w'.
Proof.
  destruct o; cbn [run_op do_op fault]; intros E; repeat (case_match || case_decide); simplify_eq; try done; split_and?; try (by auto);
    naive_solver.
Qed.

(** What happens next: thread [i] does its operation, the engine looks at its next
    descriptor, the interrupt of the channel is handled, completed requests are cleaned up,
    a window is registered or goes, an endpoint is cleaned up, a node goes. *)
Inductive move :=
  | MOp (i : nat) (h : hint)
  | MEngine (n : bool)
  | MInterrupt (n : bool)
  | MCleanup (n : bool)
  | MRegister (n : bool) (ep : Z) (self : bool) (l : list DmaWindow.dma_window) (H : windows_ok l)
  | MUnregister (n : bool) (ep : Z) (self : bool) (a : Z)
  | MUninit (n : bool) (ep : Z)
  | MDie.

Definition make (dies : bool) (m : move) (c : list (thread outcome) * world) : option (list (thread outcome) * world) :=
  let '(tp, w) := c in
  match m with
  | MOp i h =>
      match tp !! i with
      | Some (n, Op o k) => match run_op h n o w with Some (r, w') => Some (<[i := (n, k r)]> tp, w') | None => None end
      | _ => None
      end
  | MEngine n =>
      let d := dma (nd w n) in
      if aborted d || stopped (ch d) then None else Some (tp, upd n (set_dma (engine_once d)) w)
  | MInterrupt n => let d := dma (nd w n) in if irq d then Some (tp, upd n (set_dma (interrupt d)) w) else None
  | MCleanup n => match mic_dma_cleanup (ch (dma (nd w n))) with Some c => Some (tp, upd n (set_dma (with_ch (dma (nd w n)) c)) w) | None => None end
  | MRegister n ep self l _ =>
      let x := nd w n in
      if decide (ep ∈ live x ∧ ep ∉ rma_locked (ws x) ∧ list_of (info_of (ws x) ep) self = [])
      then Some (tp, upd n (on_ws (fun _ => on_info ep (set_list self l) (ws x))) w) else None
  | MUnregister n ep self a =>
      let x := nd w n in
      if decide (ep ∉ rma_locked (ws x) ∧ a ∈ RmaList.w_addr ∘ DmaWindow.win <$> list_of (info_of (ws x) ep) self)
      then Some (tp, upd n (on_ws (fun _ => on_queue (.++ [ep])
             (on_info ep (fun i => add_tw 1 (set_list self (without a (list_of i self)) i)) (ws x)))) w) else None
  | MUninit n ep =>
      let x := nd w n in
      if decide (ep ∈ live x ∧ scif_rma_ep_can_uninit ep x = true ∧ get (users x) ep = 0 ∧ Forall (fun m => payload0 m ≠ ep) (inbox x))
      then Some (tp, upd n (on_live (.∖ {[ ep ]})) w) else None
  | MDie => if dies then Some (tp, World (nd w) false) else None
  end.

Definition run (dies : bool) (ms : list move) (c : list (thread outcome) * world) : option (list (thread outcome) * world) :=
  foldl (fun o m => o ≫= make dies m) (Some c) ms.

Lemma engine_once_step d : aborted d = false → stopped (ch d) = false → dma_step d (engine_once d).
Proof.
  intros Ha Hs. unfold engine_once. rewrite Ha, Hs. cbn [orb]. destruct (is_valid _) eqn:E; (split; [|by repeat split]).
  - by apply step_run; [..|apply clear_valid_spec].
  - by apply step_stop.
Qed.

Lemma make_sound dies m c c' : make dies m c = Some c' → pstep dies c c'.
Proof.
  destruct c as [tp w], m as [i h|n|n|n|n ep self l Hl|n ep self a|n ep|]; cbn [make]; cbv zeta.
  - destruct (tp !! i) as [[n [a|X o k]]|] eqn:Ei; [done| |done]. destruct (run_op h n o w) as [[r w']|] eqn:E; [|done].
    intros [= <-]. apply run_op_sound in E as [Hf Hd]. by eapply ps_op.
  - destruct (aborted _) eqn:Ea; [done|]. destruct (stopped _) eqn:Es; [done|]. intros [= <-]. apply ps_dma. by apply engine_once_step.
  - destruct (irq _) eqn:Ei; [|done]. intros [= <-]. apply ps_dma. split; [by apply step_interrupt|done].
  - destruct (mic_dma_cleanup _) as [c|] eqn:E; [|done]. intros [= <-]. apply ps_dma. split; [by apply step_cleanup|done].
  - case_decide as H; [|done]. intros [= <-]. destruct H as (H1 & H2 & H3). apply ps_rma. apply rs_register; [done..|].
    rewrite H3. apply list_subseteq_nil.
  - case_decide as H; [|done]. intros [= <-]. destruct H as (H1 & H2). apply ps_rma. by apply rs_unregister.
  - case_decide as H; [|done]. intros [= <-]. destruct H as (H1 & H2 & H3 & H4). apply ps_uninit; [done..|]. by apply Forall_forall.
  - destruct dies eqn:Ed; [|done]. intros [= <-]. by apply ps_die.
Qed.

Lemma run_sound dies ms c c' : run dies ms c = Some c' → rtc (pstep dies) c c'.
Proof.
  unfold run. revert c. induction ms as [|m ms IH]; intros c; cbn [foldl]; [by intros [= <-]|]. cbn [mbind option_bind].
  destruct (make dies m c) as [c1|] eqn:E; [|intros H; exfalso; revert H; clear; by induction ms].
  intros H. eapply rtc_l; [by eapply make_sound|by apply IH].
Qed.

End FenceTask.
