(* ===== verification/FenceDma.v ===== *)
(** * The histories of a channel grow

    Lemmas on [DmaX200] and [DmaX200Sys] that the rules of the fence code rest on: every step
    of a channel extends what has been programmed, executed, submitted and called back; a
    request marked as complete has been executed with all that was programmed before it. *)
From S2P Require Import Prelude DmaX200 DmaX200Inv DmaX200Sys FenceProg.
Local Open Scope Z_scope.

Module FenceDma.
Import DmaX200 DmaX200Inv DmaX200Sys FenceProg.

(** ** Callbacks *)

Lemma cleanup_loop_called fuel ring h : ∀ t txs dn cb t' txs' dn' cb',
  cleanup_loop fuel ring h t txs dn cb = Some (t', txs', dn', cb') → cb `prefix_of` cb'.
Proof.
  induction fuel as [|fuel IH]; intros t txs dn cb t' txs' dn' cb'; cbn [cleanup_loop]; [done|].
  destruct (negb (t =? h)); [|by intros [= _ _ _ <-]].
  destruct (negb (Z.land _ _ =? 0)); [by intros [= _ _ _ <-]|].
  destruct (negb (tx_cookie _ =? 0)); [|by apply IH].
  destruct (tx_cookie _ <? DMA_MIN_COOKIE); [done|]. intros E%IH.
  destruct (tx_callback _); [|done]. etrans; [by apply prefix_app_r|exact E].
Qed.

Lemma cleanup_called c c' : mic_dma_cleanup c = Some c' → called c `prefix_of` called c'.
Proof.
  unfold mic_dma_cleanup. destruct (cleanup_loop _ _ _ _ _ _ _) as [[[[t txs] dn] cb]|] eqn:E; [|done].
  intros [= <-]. by apply cleanup_loop_called in E.
Qed.

Lemma prog_loop_called fuel : ∀ c src dst len c', prog_loop fuel c src dst len = Some c' → called c' = called c.
Proof.
  induction fuel as [|fuel IH]; intros c src dst len c'; cbn [prog_loop]; [done|].
  destruct (0 <? len); [|by intros [= <-]]. by intros ->%IH.
Qed.

Lemma prog_memcpy_called c src dst len flags r c' :
  mic_dma_prog_memcpy_desc c src dst len flags = Some (r, c') → called c' = called c.
Proof.
  unfold mic_dma_prog_memcpy_desc. destruct (_ =? 0); [by intros [= _ <-]|]. destruct (_ <? _); [by intros [= _ <-]|].
  destruct (prog_loop _ _ _ _ _) as [c0|] eqn:E; [|done]. intros [= _ <-]. by eapply prog_loop_called.
Qed.

Lemma prep_called b c dst src len flags r c' : prep_pass b c dst src len flags = Some (r, c') → called c `prefix_of` called c'.
Proof.
  unfold prep_pass. destruct (mic_dma_prog_memcpy_desc c src dst len flags) as [[r0 c0]|] eqn:E0; [|done].
  apply prog_memcpy_called in E0 as H0. cbn [mbind option_bind].
  assert (∀ r1 c1, (if r0 =? - EBUSY then c ← mic_dma_cleanup c0; mic_dma_prog_memcpy_desc c src dst len flags else Some (r0, c0)) =
    Some (r1, c1) → called c `prefix_of` called c1) as H.
  { intros r1 c1. destruct (r0 =? - EBUSY); [|intros [= _ <-]; by rewrite H0].
    destruct (mic_dma_cleanup c0) as [c2|] eqn:E2; [|done]. cbn [mbind option_bind].
    intros ->%prog_memcpy_called. rewrite <- H0. by apply cleanup_called. }
  destruct (if r0 =? - EBUSY then _ else _) as [[r1 c1]|] eqn:E1; [|done]. specialize (H r1 c1 eq_refl). cbn [mbind option_bind].
  destruct ((r1 =? - EBUSY) && b); [by intros [= _ <-]|]. destruct (0 <=? r1); [|by intros [= _ <-]].
  destruct (allocate_tx c1 flags) as [idx c2] eqn:Ea. unfold allocate_tx in Ea. injection Ea as _ <-. by intros [= _ <-].
Qed.

Lemma status_called c ck r c' : mic_dma_tx_status c ck = Some (r, c') → called c `prefix_of` called c'.
Proof.
  unfold mic_dma_tx_status. destruct (negb _); [|by intros [= _ <-]].
  destruct (mic_dma_cleanup c) as [c2|] eqn:E; [|done]. intros [= _ <-]. by apply cleanup_called.
Qed.

Lemma issue_called c : called (mic_dma_issue_pending c) = called c.
Proof. unfold mic_dma_issue_pending. destruct (notify_hw c); [destruct (negb _)|]; done. Qed.

Lemma update_pending_called c : called (mic_dma_update_pending c) = called c.
Proof. unfold mic_dma_update_pending. destruct (_ <? _); [apply issue_called|done]. Qed.

(** ** Submissions *)

Definition sub_of (d : sys) (flags : Z) (cb : option Z) : sub :=
  Sub (zlen (DmaX200Sys.prog d ++ DmaX200Sys.fence (ch d) flags) - 1) (dma_cookie_assign (ch d)) cb.

Lemma submit_fields d idx flags cb : let d' := submit d idx flags cb in
  held d' = None ∧ ran d' = ran d ∧ DmaX200Sys.prog d' = DmaX200Sys.prog d ++ DmaX200Sys.fence (ch d) flags ∧
  subs d' = subs d ++ [sub_of d flags cb] ∧ called (ch d') = called (ch d).
Proof.
  unfold submit, mic_dma_tx_submit_unlock, sub_of. cbv zeta. cbn [held ran DmaX200Sys.prog subs ch]. rewrite update_pending_called.
  by destruct (negb _).
Qed.

(** ** Steps *)

Definition grows (d d' : sys) : Prop := ran d `prefix_of` ran d' ∧ called (ch d) `prefix_of` called (ch d').

Lemma grows_with_ch d c : called (ch d) `prefix_of` called c → grows d (with_ch d c).
Proof. by split. Qed.

Lemma interrupt_called c : called (mic_dma_invld_desc_interrupt c) = called c.
Proof.
  unfold mic_dma_invld_desc_interrupt. destruct (negb _); [|done]. destruct (negb _); [|done]. by destruct (negb _).
Qed.

Lemma abort_called c c' : mic_dma_abort_interrupt c = Some c' → called c' = called c.
Proof.
  unfold mic_dma_abort_interrupt. destruct (first_valid _ _ _); [|done]. cbn [mbind option_bind].
  destruct (if negb _ then _ else _) as [a cnt]. intros [= <-]. destruct (cnt <? 5); [|done]. by destruct (_ =? 0).
Qed.

Lemma abort_grows d last d' : abort d last = Some d' → grows d d'.
Proof.
  unfold abort. generalize (abort_called (set_last_desc (ch d) last)). destruct (mic_dma_abort_interrupt _) as [c|]; [|done].
  intros H [= <-]. split; [done|]. cbn [ch]. by rewrite (H c eq_refl).
Qed.

Lemma step_grows d d' : step d d' → grows d d'.
Proof.
  intros H. destruct H.
  - split; [done|]. by eapply prep_called.
  - split; [done|]. by eapply prep_called.
  - pose proof (submit_fields s idx flags cb) as (_ & Er & _ & _ & Ec). split; [by rewrite Er|by rewrite Ec].
  - split; [done|]. by eapply cleanup_called.
  - split; [done|]. by eapply status_called.
  - split; [done|]. cbn [ch with_ch]. by rewrite issue_called.
  - split; [done|]. cbn [ch interrupt]. by rewrite interrupt_called.
  - split; [by apply prefix_app_r|done].
  - by split.
  - by eapply abort_grows.
Qed.

(** ** Completion *)

(** The callbacks run are those of the first requests, in order. *)
Lemma omap_take_advance {A} (f : A → option Z) (l l' : list A) (k k' : nat) : (k <= length l)%nat → l `prefix_of` l' →
  omap f (take k l) `prefix_of` omap f (take k' l') → (k' <= length l')%nat →
  ∃ j, (k <= j <= length l')%nat ∧ (k' <= j)%nat ∧ (j = k ∨ j = k') ∧ omap f (take j l') = omap f (take k' l').
Proof.
  intros Hk [z ->] Hp Hk'. destruct (Nat.le_gt_cases k k') as [Hle|Hgt]; [exists k'; split_and!; auto|].
  exists k. assert (take k (l ++ z) = take k l) as Et by (by apply take_app_le). rewrite Et. rewrite length_app.
  split_and!; [lia|lia|lia|by left|]. apply (anti_symm prefix); [done|].
  assert (take k l = take k' (l ++ z) ++ drop k' (take k l)) as ->.
  { rewrite <- Et. rewrite <- (take_drop k' (take k (l ++ z))) at 1. f_equal. rewrite take_take. f_equal. lia. }
  rewrite omap_app. by apply prefix_app_r.
Qed.

(** What the invariant says of the callbacks: those run belong to requests whose last
    descriptor has been executed. *)
Lemma inv_called d t : inv d t → let k := length (finished t (subs d)) in
  (k <= length (subs d))%nat ∧ called (ch d) = omap s_cb (take k (subs d)) ∧
  Forall (fun s => s_last s < zlen (ran d)) (take k (subs d)).
Proof.
  intros H. destruct (i_subs _ _ H) as [Hs _]. pose proof (finished_prefix t _ Hs) as [z Hz].
  assert (take (length (finished t (subs d))) (subs d) = finished t (subs d)) as E by (rewrite Hz at 2; apply take_app_length).
  cbv zeta. rewrite E. split_and!.
  - rewrite <- E, length_take. lia.
  - apply (i_called _ _ H).
  - pose proof (i_bounds _ _ H). apply Forall_forall. intros s Hin. unfold finished in Hin.
    apply list_elem_of_filter in Hin as [? _]. lia.
Qed.

(** A request that is finished is among the first so many. *)
Lemma finished_index d t i s : inv d t → subs d !! i = Some s → s_last s < t → (i < length (finished t (subs d)))%nat.
Proof.
  intros H Hi Hlt. destruct (i_subs _ _ H) as [Hs _]. pose proof (finished_prefix t _ Hs) as [z Hz].
  destruct (Nat.lt_ge_cases i (length (finished t (subs d)))) as [?|Hge]; [done|]. exfalso.
  assert (finished t z = []) as Ez.
  { assert (finished t (finished t (subs d)) = finished t (subs d)) as E1
      by (unfold finished; rewrite list_filter_filter; apply list_filter_iff; tauto).
    assert (finished t (subs d) = finished t (finished t (subs d) ++ z)) as E2 by (by rewrite <- Hz).
    unfold finished in E1, E2 at 1 2. rewrite filter_app in E2. unfold finished in E2. rewrite E1 in E2.
    apply (app_inv_head (finished t (subs d))). rewrite app_nil_r. by symmetry. }
  rewrite Hz, lookup_app_r in Hi by done. apply list_elem_of_lookup_2 in Hi.
  assert (s ∈ finished t z) as Hin by (by apply list_elem_of_filter). rewrite Ez in Hin. by apply elem_of_nil in Hin.
Qed.

(** A request whose status is complete has been called back, and all before it. *)
Lemma status_called_back d t ck c i s : inv d t → zlen (subs d) < 2 ^ 31 - 2 → subs d !! i = Some s → s_cookie s = ck →
  mic_dma_tx_status (ch d) ck = Some (true, c) →
  ∃ t', inv (with_ch d c) t' ∧ (i < length (finished t' (subs d)))%nat.
Proof.
  intros H Hn Hi <- E. destruct (status_inv d t (s_cookie s) H) as (r & c0 & t' & E' & Ht' & Hr & _).
  rewrite E in E'. injection E' as <- <-. exists t'. split; [done|].
  pose proof (cookie_status_spec (with_ch d c) t' i s Ht' Hn Hi) as Hst. cbn [ch with_ch] in Hst. rewrite <- Hr in Hst.
  symmetry in Hst. apply bool_decide_eq_true in Hst. by apply (finished_index (with_ch d c) t' i s).
Qed.

(** A step of the channel that is none of its requests is prompt. *)
Lemma dma_step_prompt d d' : dma_step d d' → prompt_step d d'.
Proof.
  intros (Hst & Hh & _). apply prompt_other; [done|]. rewrite Hh. destruct (held d); [by left|right; by right].
Qed.

(** A request whose status is complete has been executed, and all before it. *)
Lemma status_done d t ck c i s l : inv d t → zlen (subs d) < 2 ^ 31 - 2 → subs d !! i = Some s → s_cookie s = ck →
  mic_dma_tx_status (ch d) ck = Some (true, c) → l `prefix_of` DmaX200Sys.prog d → zlen l <= s_last s → l `prefix_of` ran d.
Proof.
  intros H Hn Hi <- E Hl Hle. destruct (status_spec d t i s H Hn Hi) as [c' E']. rewrite E in E'. injection E' as Hb _.
  symmetry in Hb. apply bool_decide_eq_true in Hb. pose proof (i_ran _ _ H) as Hr.
  destruct (prefix_weak_total l (ran d) (DmaX200Sys.prog d) Hl Hr) as [?|Hp]; [done|].
  apply prefix_length in Hp as Hlen. unfold zlen in *. assert (l = ran d) as ->; [|done].
  destruct Hp as [z ->]. rewrite length_app in *. destruct z; [by rewrite app_nil_r|cbn in *; lia].
Qed.

(** ** The effect on a node *)

Lemma run_callback_dma x z : dma (run_callback x z) = dma x ∧ reads (run_callback x z) = reads x ∧ reqs (run_callback x z) = reqs x ∧
  inbox (run_callback x z) = inbox x ∧ fences (run_callback x z) = fences x ∧ live (run_callback x z) = live x ∧
  users (run_callback x z) = users x ∧ ws (run_callback x z) = ws x.
Proof.
  unfold run_callback, scif_fence_mark_cb, scif_prog_signal_cb, scif_dma_callback.
  destruct (decode_cb z); [case_bool_decide| |done|done]; [done|done|].
  destruct (pool x !! a); [|done]. by case_bool_decide.
Qed.

Lemma run_callbacks_dma l : ∀ x, let x' := foldl run_callback x l in
  dma x' = dma x ∧ reads x' = reads x ∧ reqs x' = reqs x ∧ inbox x' = inbox x ∧ fences x' = fences x ∧ live x' = live x ∧
  users x' = users x ∧ ws x' = ws x.
Proof.
  induction l as [|z l IH]; intros x; [done|]. cbn [foldl]. destruct (IH (run_callback x z)) as (-> & -> & -> & -> & -> & -> & -> & ->).
  apply run_callback_dma.
Qed.

End FenceDma.
