(* ===== verification/FenceLogic.v ===== *)
(** * A logic for the threads of the fence code

    Resources of a separation logic (Iris) for the state of [FenceProg]: lower bounds of the
    histories of a channel, the transaction between its preparation and its submission, blocks of
    the pool, references of endpoints, locks and windows, fence requests and messages.  [SI]
    ties them to a state; [wp] says of a program that every operation of it is safe and keeps [SI],
    whatever other threads do in between.  [FenceRules] proves the rules of the operations
    and [FenceSafe] the theorems. *)
From iris.algebra Require Import lib.mono_list.
From iris.proofmode Require Import proofmode.
From iris.base_logic.lib Require Import own ghost_map ghost_var mono_nat.
From S2P Require Import Prelude RmaList DmaWindow DmaX200 DmaX200Inv DmaX200Sys FenceProg ScifFence FenceTask.
Local Open Scope Z_scope.

Module FenceLogic.
Import DmaX200 DmaX200Inv DmaX200Sys FenceProg.

(** ** Counting references *)

(** A call or handler that works on an endpoint; the same between the submission of a
    mark and the count of its reference; a queued request of the peer. *)
Inductive kind := KUser | KOwed | KRef.

#[export] Instance kind_eq_dec : EqDecision kind.
Proof. solve_decision. Defined.

Definition cnt (ep : Z) (k : kind) (m : gmap nat (Z * kind)) : Z :=
  Z.of_nat (size (filter (fun p => p.2 = (ep, k)) m)).

Definition mark_of (ep : Z) (s : sub) : bool :=
  match s_cb s with Some z => bool_decide (decode_cb z = CbMark ep) | None => false end.
Definition pend (ep : Z) (l : list sub) : Z := zlen (filter (fun s => mark_of ep s = true) l).

Definition b2z (b : bool) : Z := if b then 1 else 0.

Lemma kind_cnt_nonneg ep k m : 0 <= cnt ep k m.
Proof. unfold cnt. lia. Qed.

Lemma cnt_insert ep k m i v : m !! i = None → cnt ep k (<[i := v]> m) = cnt ep k m + b2z (bool_decide (v = (ep, k))).
Proof.
  intros Hi. unfold cnt, b2z. case_bool_decide as Hv.
  - rewrite map_filter_insert_True // map_size_insert_None; [lia|]. apply map_lookup_filter_None_2. by left.
  - rewrite map_filter_insert_False // delete_id //. lia.
Qed.

Lemma cnt_delete ep k m i v : m !! i = Some v → cnt ep k (delete i m) = cnt ep k m - b2z (bool_decide (v = (ep, k))).
Proof.
  intros Hi. rewrite -{2}(insert_delete_id m i v Hi) cnt_insert; [lia|apply lookup_delete_eq].
Qed.

Lemma cnt_update ep k m i v v' : m !! i = Some v →
  cnt ep k (<[i := v']> m) = cnt ep k m - b2z (bool_decide (v = (ep, k))) + b2z (bool_decide (v' = (ep, k))).
Proof.
  intros Hi. rewrite -insert_delete_eq cnt_insert; [|apply lookup_delete_eq]. by rewrite (cnt_delete _ _ _ _ _ Hi).
Qed.

Lemma cnt_zero ep k m i : cnt ep k m = 0 → m !! i ≠ Some (ep, k).
Proof.
  intros Hc Hi. pose proof (cnt_delete ep k m i _ Hi) as E. pose proof (kind_cnt_nonneg ep k (delete i m)).
  rewrite /b2z bool_decide_eq_true_2 // in E. lia.
Qed.

Lemma pend_cons ep s l : pend ep (s :: l) = b2z (mark_of ep s) + pend ep l.
Proof.
  rewrite /pend filter_cons /b2z. destruct (mark_of ep s); case_decide; rewrite ?zlen_cons; (done || lia).
Qed.

Lemma pend_snoc ep l s : pend ep (l ++ [s]) = pend ep l + b2z (mark_of ep s).
Proof. induction l as [|x l IH]; cbn [app]; rewrite !pend_cons; [cbn; lia|]. rewrite IH. lia. Qed.

Lemma pend_nonneg ep l : 0 <= pend ep l.
Proof. apply zlen_nonneg. Qed.

Lemma get_add m k d j : get (add k d m) j = get m j + (if decide (j = k) then d else 0).
Proof.
  rewrite /add {1}/get. case_decide as E; [subst; by rewrite lookup_insert_eq|].
  rewrite lookup_insert_ne //. rewrite -/(get m j). lia.
Qed.

(** The tokens [m] of a node against its reference counts: [rest] are the requests whose
    callbacks are still to run. *)
Record pins_ok (refs us : gmap Z Z) (lv : gset Z) (rest : list sub) (m : gmap nat (Z * kind)) : Prop := PinsOk {
  pk_refs : ∀ ep, get refs ep = pend ep rest + cnt ep KRef m - cnt ep KOwed m;
  pk_users : ∀ ep, get us ep = cnt ep KUser m + cnt ep KOwed m;
  pk_live : ∀ i ep k, m !! i = Some (ep, k) → ep ∈ lv;
  pk_pend : ∀ ep, 0 < pend ep rest → ep ∈ lv;
}.

Ltac pin_arith :=
  repeat match goal with
  | H : ?m !! ?i = None |- context [cnt _ _ (<[?i := _]> ?m)] => rewrite (cnt_insert _ _ m i _ H)
  | H : ?m !! ?i = Some _ |- context [cnt _ _ (<[?i := _]> ?m)] => rewrite (cnt_update _ _ m i _ _ H)
  | H : ?m !! ?i = Some _ |- context [cnt _ _ (delete ?i ?m)] => rewrite (cnt_delete _ _ m i _ H)
  end; rewrite ?get_add /b2z; repeat case_bool_decide; repeat case_decide; simplify_eq; try done; try lia.

Lemma pins_lookup_insert (m : gmap nat (Z * kind)) i v (lv : gset Z) : v.1 ∈ lv → (∀ j ep k, m !! j = Some (ep, k) → ep ∈ lv) →
  ∀ j ep k, <[i := v]> m !! j = Some (ep, k) → ep ∈ lv.
Proof. intros Hv Hm j ep k [[-> ->]|[_ E]]%lookup_insert_Some; [done|by eapply Hm]. Qed.

(** A call starts, a call ends. *)
Lemma pins_ok_enter rf us lv rest m i ep : pins_ok rf us lv rest m → ep ∈ lv → m !! i = None →
  pins_ok rf (add ep 1 us) lv rest (<[i := (ep, KUser)]> m).
Proof.
  intros [H1 H2 H3 H4] Hl Hi. split; [| |by apply pins_lookup_insert|done]; intros e; specialize (H1 e); specialize (H2 e); pin_arith.
Qed.

Lemma pins_ok_leave rf us lv rest m i ep : pins_ok rf us lv rest m → m !! i = Some (ep, KUser) →
  pins_ok rf (add ep (-1) us) lv rest (delete i m).
Proof.
  intros [H1 H2 H3 H4] Hi. split; [| | |done].
  - intros e; specialize (H1 e); pin_arith.
  - intros e; specialize (H2 e); pin_arith.
  - intros j e k [_ E]%lookup_delete_Some. by eapply H3.
Qed.

(** A mark is submitted; its reference is counted. *)
Lemma pins_ok_owe rf us lv rest m i ep s : pins_ok rf us lv rest m → m !! i = Some (ep, KUser) → decode_cb <$> s_cb s = Some (CbMark ep) →
  pins_ok rf us lv (rest ++ [s]) (<[i := (ep, KOwed)]> m).
Proof.
  intros [H1 H2 H3 H4] Hi Hs. assert (∀ e, mark_of e s = bool_decide (ep = e)) as Hm.
  { intros e. rewrite /mark_of. destruct (s_cb s); [|done]. cbn in Hs. injection Hs as ->. apply bool_decide_ext. split; congruence. }
  pose proof (H3 _ _ _ Hi) as Hl. split; [| |by apply pins_lookup_insert|].
  - intros e; specialize (H1 e); rewrite pend_snoc Hm; pin_arith.
  - intros e; specialize (H2 e); pin_arith.
  - intros e. rewrite pend_snoc Hm. rewrite /b2z. case_bool_decide as E; [subst e; done|]. rewrite Z.add_0_r. apply H4.
Qed.

Lemma pins_ok_pay rf us lv rest m i ep : pins_ok rf us lv rest m → m !! i = Some (ep, KOwed) →
  pins_ok (add ep 1 rf) us lv rest (<[i := (ep, KUser)]> m).
Proof.
  intros [H1 H2 H3 H4] Hi. pose proof (H3 _ _ _ Hi) as Hl. split; [| |by apply pins_lookup_insert|done];
    intros e; specialize (H1 e); specialize (H2 e); pin_arith.
Qed.

(** A queued request takes and gives back a reference. *)
Lemma pins_ok_ref rf us lv rest m i ep : pins_ok rf us lv rest m → ep ∈ lv → m !! i = None →
  pins_ok (add ep 1 rf) us lv rest (<[i := (ep, KRef)]> m).
Proof.
  intros [H1 H2 H3 H4] Hl Hi. split; [| |by apply pins_lookup_insert|done]; intros e; specialize (H1 e); specialize (H2 e); pin_arith.
Qed.

Lemma pins_ok_unref rf us lv rest m i ep : pins_ok rf us lv rest m → m !! i = Some (ep, KRef) →
  pins_ok (add ep (-1) rf) us lv rest (delete i m).
Proof.
  intros [H1 H2 H3 H4] Hi. split; [| | |done].
  - intros e; specialize (H1 e); pin_arith.
  - intros e; specialize (H2 e); pin_arith.
  - intros j e k [_ E]%lookup_delete_Some. by eapply H3.
Qed.

(** A request that is not a mark; the callback of a mark; that of another request. *)
Lemma pins_ok_snoc rf us lv rest m s : pins_ok rf us lv rest m → (∀ ep, decode_cb <$> s_cb s ≠ Some (CbMark ep)) →
  pins_ok rf us lv (rest ++ [s]) m.
Proof.
  intros [H1 H2 H3 H4] Hs. assert (∀ e, pend e (rest ++ [s]) = pend e rest) as E.
  { intros e. rewrite pend_snoc /mark_of. destruct (s_cb s); cbn; [|lia]. case_bool_decide as Eb; cbn; [|lia]. exfalso. apply (Hs e). cbn. by rewrite Eb. }
  split; [|done|done|]; intros e; rewrite E; auto.
Qed.

Lemma pins_ok_marked rf us lv rest m s ep : pins_ok rf us lv (s :: rest) m → decode_cb <$> s_cb s = Some (CbMark ep) →
  ep ∈ lv ∧ pins_ok (add ep (-1) rf) us lv rest m.
Proof.
  intros [H1 H2 H3 H4] Hs. assert (∀ e, mark_of e s = bool_decide (ep = e)) as Hm.
  { intros e. rewrite /mark_of. destruct (s_cb s); [|done]. cbn in Hs. injection Hs as ->. apply bool_decide_ext. split; congruence. }
  assert (∀ e, 0 < pend e rest → e ∈ lv) as H4'.
  { intros e He. apply H4. rewrite pend_cons /b2z. destruct (mark_of e s); lia. }
  split; [|split; [|done..]].
  - apply H4. rewrite pend_cons Hm bool_decide_eq_true_2 //. pose proof (pend_nonneg ep rest). cbn. lia.
  - intros e; specialize (H1 e); rewrite pend_cons Hm in H1. revert H1. rewrite get_add /b2z. case_bool_decide; case_decide; simplify_eq; lia.
Qed.

Lemma pins_ok_unmarked rf us lv rest m s : pins_ok rf us lv (s :: rest) m → (∀ ep, decode_cb <$> s_cb s ≠ Some (CbMark ep)) →
  pins_ok rf us lv rest m.
Proof.
  intros [H1 H2 H3 H4] Hs. assert (∀ e, pend e (s :: rest) = pend e rest) as E.
  { intros e. rewrite pend_cons /mark_of. destruct (s_cb s); cbn; [|lia]. case_bool_decide as Eb; cbn; [|lia]. exfalso. apply (Hs e). cbn. by rewrite Eb. }
  split; [|done|done|]; intros e; rewrite -E; auto.
Qed.

(** An endpoint that nobody works on and that has no references can go. *)
Lemma pins_ok_uninit rf us lv rest m ep : pins_ok rf us lv rest m → get rf ep = 0 → get us ep = 0 →
  pins_ok rf us (lv ∖ {[ ep ]}) rest m.
Proof.
  intros [H1 H2 H3 H4] Hr Hu. specialize (H1 ep) as Hr1. specialize (H2 ep) as Hu1.
  pose proof (kind_cnt_nonneg ep KUser m). pose proof (kind_cnt_nonneg ep KOwed m). pose proof (kind_cnt_nonneg ep KRef m). pose proof (pend_nonneg ep rest).
  split; [done..| |].
  - intros i e k Hi. apply elem_of_difference. split; [by eapply H3|]. rewrite elem_of_singleton. intros ->.
    eapply (cnt_zero ep k m i); [|exact Hi]. destruct k; lia.
  - intros e He. apply elem_of_difference. split; [by apply H4|]. rewrite elem_of_singleton. intros ->. lia.
Qed.

(** ** Windows and pending signals *)

Definition wlists : Type := list DmaWindow.dma_window * list DmaWindow.dma_window.
Definition lists_of (W : wstate) (ep : Z) : wlists := (self_list (info_of W ep), remote_list (info_of W ep)).
Definition has_windows (W : wstate) (ep : Z) : Prop := lists_of W ep ≠ ([], []).

(** The windows queued for destruction, each with how many requests had been submitted when
    it went. *)
Definition tcnt (ep : Z) (T : gmap nat (Z * nat)) : Z := Z.of_nat (size (filter (fun p => p.2.1 = ep) T)).

Lemma tcnt_insert ep T i v : T !! i = None → tcnt ep (<[i := v]> T) = tcnt ep T + b2z (bool_decide (v.1 = ep)).
Proof.
  intros Hi. unfold tcnt, b2z. case_bool_decide as Hv.
  - rewrite map_filter_insert_True // map_size_insert_None; [lia|]. apply map_lookup_filter_None_2. by left.
  - rewrite map_filter_insert_False // delete_id //. lia.
Qed.

Lemma tcnt_delete ep T i v : T !! i = Some v → tcnt ep (delete i T) = tcnt ep T - b2z (bool_decide (v.1 = ep)).
Proof.
  intros Hi. rewrite -{2}(insert_delete_id T i v Hi) tcnt_insert; [lia|apply lookup_delete_eq].
Qed.

Lemma tcnt_zero ep T i p : tcnt ep T = 0 → T !! i ≠ Some (ep, p).
Proof.
  intros Hc Hi. pose proof (tcnt_delete ep T i _ Hi) as E. rewrite /b2z bool_decide_eq_true_2 // /tcnt in E, Hc. lia.
Qed.

(** The windows of a node, of [N] requests submitted and [k] called back: what the holders of
    locks have seen is still so; [E] are the endpoints of the signals, and while one is
    pending its endpoint has a window or one queued that went later; so the endpoint is in
    use, and the callback does not touch freed memory, unless a wait for all DMA has
    failed. *)
Record wins_ok (W : wstate) (lv : gset Z) (oo : bool) (N k : nat)
    (L : gmap Z (wlists * nat)) (T : gmap nat (Z * nat)) (E : gmap nat Z) : Prop := WinsOk {
  wk_dom : dom L = rma_locked W;
  wk_lists : ∀ ep ls p, L !! ep = Some (ls, p) → ls = lists_of W ep;
  wk_locked : ∀ ep ls p i, L !! ep = Some (ls, p) → E !! i = Some ep → (i < p)%nat;
  wk_tw : ∀ ep, tw_refcount (info_of W ep) = tcnt ep T;
  wk_new : ∀ i ep, E !! i = Some ep → (i < N)%nat;
  wk_pend : hung W = false → ∀ i ep, E !! i = Some ep → (k <= i)%nat →
    has_windows W ep ∨ ∃ j p, T !! j = Some (ep, p) ∧ (i < p)%nat;
  wk_live : ∀ ep, has_windows W ep → ep ∈ lv;
  wk_tok : ∀ j ep p, T !! j = Some (ep, p) → ep ∈ lv;
  wk_ok : ∀ ep self, windows_ok (list_of (info_of W ep) self);
  wk_oops : oo = true → hung W = true;
}.

(** ** Ghost state *)

(** What a thread that waits for the answer to a request expects of it. *)
Inductive goal := GMark (l : list copy) | GWait (l : option (list copy)) | GSig (self : bool) (off v : Z) (l : list copy).
Record req_spec := ReqSpec { q_ep : Z; q_goal : goal }.

Class fenceG (Σ : gFunctors) := FenceG {
  #[global] fence_copyG :: inG Σ (mono_listR (leibnizO copy));
  #[global] fence_subG :: inG Σ (mono_listR (leibnizO sub));
  #[global] fence_heldG :: ghost_varG Σ (option (Z * Z));
  #[global] fence_poolG :: ghost_mapG Σ Z scif_status;
  #[global] fence_reqG :: ghost_mapG Σ Z scif_fence_info;
  #[global] fence_specG :: ghost_mapG Σ Z req_spec;
  #[global] fence_sigG :: ghost_mapG Σ nat (Z * Z * Z);
  #[global] fence_tokG :: ghost_mapG Σ nat ();
  #[global] fence_pinG :: ghost_mapG Σ nat (Z * kind);
  #[global] fence_lockG :: ghost_mapG Σ Z (wlists * nat);
  #[global] fence_twG :: ghost_mapG Σ nat (Z * nat);
  #[global] fence_sepG :: ghost_mapG Σ nat Z;
  #[global] fence_natG :: mono_natG Σ;
  #[global] fence_seenG :: inG Σ (mono_listR (leibnizO (Z * bool * list DmaWindow.dma_window)));
}.

Definition fenceΣ : gFunctors :=
  #[GFunctor (mono_listR (leibnizO copy)); GFunctor (mono_listR (leibnizO sub)); ghost_varΣ (option (Z * Z));
    ghost_mapΣ Z scif_status; ghost_mapΣ Z scif_fence_info; ghost_mapΣ Z req_spec; ghost_mapΣ nat (Z * Z * Z);
    ghost_mapΣ nat (); ghost_mapΣ nat (Z * kind); ghost_mapΣ Z (wlists * nat); ghost_mapΣ nat (Z * nat); ghost_mapΣ nat Z;
    mono_natΣ; GFunctor (mono_listR (leibnizO (Z * bool * list DmaWindow.dma_window)))].

#[export] Instance subG_fenceΣ Σ : subG fenceΣ Σ → fenceG Σ.
Proof. solve_inG. Qed.

Record names := Names {
  g_prog : gname; g_ran : gname; g_subs : gname; g_held : gname; g_pool : gname; g_req : gname; g_spec : gname;
  g_sig : gname; g_tok : gname; g_pin : gname; g_lock : gname; g_tw : gname; g_sep : gname; g_called : gname; g_hung : gname;
  g_seen : gname;
}.

Section Logic.
Context `{!fenceG Σ}.
Context (γ : bool → names).
Context (conn : bool → Z → bool * Z).
Implicit Types (n : bool) (x : node) (w : world).

Definition prog_auth n (l : list copy) : iProp Σ :=
  (own (g_prog (γ n)) (●ML (l : list (leibnizO copy))))%I.
Definition prog_lb n (l : list copy) : iProp Σ :=
  (own (g_prog (γ n)) (◯ML (l : list (leibnizO copy))))%I.
Definition ran_auth n (l : list copy) : iProp Σ :=
  (own (g_ran (γ n)) (●ML (l : list (leibnizO copy))))%I.
Definition ran_lb n (l : list copy) : iProp Σ :=
  (own (g_ran (γ n)) (◯ML (l : list (leibnizO copy))))%I.
Definition subs_auth n (l : list sub) : iProp Σ :=
  (own (g_subs (γ n)) (●ML (l : list (leibnizO sub))))%I.
Definition subs_lb n (l : list sub) : iProp Σ :=
  (own (g_subs (γ n)) (◯ML (l : list (leibnizO sub))))%I.

Definition held_tok n (o : option (Z * Z)) : iProp Σ :=
  (ghost_var (g_held (γ n)) (1/2) o)%I.

(** The cookie of a request submitted after all of [l] had been programmed. *)
Definition is_mark n (l : list copy) (ck : Z) : iProp Σ :=
  (∃ sl i s, subs_lb n sl ∗ prog_lb n l ∗ ⌜sl !! i = Some s ∧ s_cookie s = ck ∧ zlen l <= s_last s ∧ 0 < ck < 2 ^ 31⌝)%I.

Definition block n (a : Z) (q : dfrac) (st : scif_status) : iProp Σ :=
  (ghost_map_elem (g_pool (γ n)) a q st)%I.

(** The descriptor at place [p] of the history copies value [v] of the block at [a] to
    [dst]; and the right to take back the half of the block that it holds. *)
Definition sig_at n (p : nat) (a v dst : Z) : iProp Σ :=
  (ghost_map_elem (g_sig (γ n)) p DfracDiscarded (a, v, dst))%I.
Definition sig_tok n (p : nat) : iProp Σ :=
  (ghost_map_elem (g_tok (γ n)) p (DfracOwn 1) tt)%I.

(** A copy of [v] to [dst] has been programmed, after all of [l]. *)
Definition signalled n (l : list copy) (v dst : Z) : iProp Σ :=
  (∃ p a, ⌜(length l <= p)%nat⌝ ∗ sig_at n p a v dst)%I.

(** At least so many requests have been submitted; the request with a cookie comes after so
    many; so many have been called back; a wait for all DMA has failed. *)
Definition count_lb n (m : nat) : iProp Σ :=
  (if decide (m = 0%nat) then True else ∃ sl, subs_lb n sl ∗ ⌜(m <= length sl)%nat⌝)%I.
Definition sub_at n (m : nat) (ck : Z) : iProp Σ :=
  (if decide (m = 0%nat) then True else ∃ sl i s, subs_lb n sl ∗ ⌜sl !! i = Some s ∧ s_cookie s = ck ∧ (m <= i)%nat⌝)%I.
Definition called_lb n (m : nat) : iProp Σ :=
  (if decide (m = 0%nat) then True else mono_nat_lb_own (g_called (γ n)) m)%I.
Definition hung_lb n : iProp Σ := (mono_nat_lb_own (g_hung (γ n)) 1)%I.

(** The lock of an endpoint is held: its lists, and a bound of the signals submitted for it. *)
Definition lock_tok n (ep : Z) (ls : wlists) (p : nat) : iProp Σ :=
  (ghost_map_elem (g_lock (γ n)) ep (DfracOwn 1) (ls, p))%I.
(** A window of the endpoint that is to be destroyed, which went after [p] requests. *)
Definition tw_tok n (ep : Z) (p : nat) : iProp Σ :=
  (∃ j, ghost_map_elem (g_tw (γ n)) j (DfracOwn 1) (ep, p) ∗ count_lb n p)%I.
(** Request [i] is a signal of the endpoint. *)
Definition sep_at n (i : nat) (ep : Z) : iProp Σ :=
  (ghost_map_elem (g_sep (γ n)) i DfracDiscarded ep)%I.
(** A list that has been looked at under the lock. *)
Definition seen_at n (e : Z * bool * list DmaWindow.dma_window) : iProp Σ :=
  (∃ l, own (g_seen (γ n)) (◯ML (l : list (leibnizO (Z * bool * list DmaWindow.dma_window)))) ∗ ⌜e ∈ l⌝)%I.

(** The signal at an offset: the address is that of the window that has been found in a list
    of the endpoint.  Where an endpoint loops the CPU writes it. *)
Definition signal_at n (ep : Z) (self : bool) (off v : Z) (l : list copy) : iProp Σ :=
  (if FenceTask.loops conn n ep then True
   else ∃ wl d, seen_at n (ep, self, wl) ∗
     ⌜ScifFence.query off wl = (0, Some d) ∧ window_good d ∧ DmaWindow.w_offset d <= off ∧ off + 8 <= DmaWindow.w_end d⌝%Z ∗
     signalled n l v (DmaWindow.dma_byte d off))%I.

Definition pin n (ep : Z) (k : kind) : iProp Σ :=
  (∃ i, ghost_map_elem (g_pin (γ n)) i (DfracOwn 1) (ep, k))%I.

Definition req n (r : Z) (i : scif_fence_info) : iProp Σ :=
  (ghost_map_elem (g_req (γ n)) r (DfracOwn 1) i)%I.
Definition spec n (r : Z) (s : req_spec) : iProp Σ :=
  (ghost_map_elem (g_spec (γ n)) r (DfracOwn (1/2)) s)%I.

(** What an answer that says that the request succeeded means. *)
Definition result n (s : req_spec) (i : scif_fence_info) : iProp Σ :=
  (let '(peer, ep) := conn n (q_ep s) in
  match q_goal s with
  | GMark l => ⌜state i = OP_COMPLETED⌝ → is_mark peer l (dma_mark i)
  | GWait (Some l) => ⌜state i = OP_COMPLETED⌝ → ran_lb peer l
  | GWait None => True
  | GSig self off v l => ⌜state i = OP_COMPLETED⌝ → signal_at peer ep self off v l
  end)%I.

(** A request whose completion nobody has signalled, away from its owner. *)
Definition req_out n (r : Z) (s : req_spec) : iProp Σ :=
  (∃ i, req n r i ∗ spec n r s ∗ pin n (q_ep s) KUser ∗ ⌜comp i = false ∧ state i = OP_IN_PROGRESS⌝)%I.

(** What comes back with the completion. *)
Definition req_back n (r : Z) (i : scif_fence_info) : iProp Σ :=
  (∃ s, req n r i ∗ spec n r s ∗ pin n (q_ep s) KUser ∗ result n s i ∗ ⌜state i = OP_COMPLETED ∨ state i = OP_FAILED⌝)%I.

(** The mark in a request to wait. *)
Definition wait_pre n (l : option (list copy)) (mark : Z) : iProp Σ :=
  (match l with Some l => is_mark n l (ScifFence.cookie_of mark) | None => True end)%I.

(** A request to wait that has arrived at node [n]. *)
Definition wait_res n (m : scifmsg) : iProp Σ :=
  (let '(n0, ep0) := conn n (payload0 m) in
  ∃ l, req_out n0 (payload1 m) (ReqSpec ep0 (GWait l)) ∗ wait_pre n l (s32 (payload2 m)))%I.

(** What a message on its way to node [n] carries. *)
Definition msg_res n (m : scifmsg) : iProp Σ :=
  (let '(n0, ep0) := conn n (payload0 m) in
  if uop m =? SCIF_MARK then ∃ l, req_out n0 (payload1 m) (ReqSpec ep0 (GMark l)) ∗ prog_lb n l
  else if uop m =? SCIF_WAIT then wait_res n m
  else if (uop m =? SCIF_SIG_LOCAL) || (uop m =? SCIF_SIG_REMOTE) then
    ∃ l, req_out n0 (payload3 m) (ReqSpec ep0 (GSig (uop m =? SCIF_SIG_LOCAL) (s64 (payload1 m)) (payload2 m) l)) ∗ prog_lb n l
  else if (uop m =? SCIF_MARK_ACK) || (uop m =? SCIF_MARK_NACK) then
    ∃ l, req_out n (payload1 m) (ReqSpec (payload0 m) (GMark l)) ∗
      (if uop m =? SCIF_MARK_ACK then is_mark n0 l (s32 (payload2 m)) else True)
  else if (uop m =? SCIF_WAIT_ACK) || (uop m =? SCIF_WAIT_NACK) then
    ∃ l, req_out n (payload1 m) (ReqSpec (payload0 m) (GWait l)) ∗
      (if uop m =? SCIF_WAIT_ACK then match l with Some l => ran_lb n0 l | None => True end else True)
  else if (uop m =? SCIF_SIG_ACK) || (uop m =? SCIF_SIG_NACK) then
    ∃ self off v l, req_out n (payload3 m) (ReqSpec (payload0 m) (GSig self off v l)) ∗
      (if uop m =? SCIF_SIG_ACK then signal_at n0 ep0 self off v l else True)
  else True)%I.

(** A queued request to wait, with its reference. *)
Definition fence_res n (m : scifmsg) : iProp Σ :=
  (wait_res n m ∗ pin n (payload0 m) KRef)%I.

(** What the callback of request [i], which is not complete, will give back. *)
Definition cb_res n (i : nat) (s : sub) : iProp Σ :=
  (match decode_cb <$> s_cb s with
  | Some (CbSignal a) =>
      ∃ p st v dst, block n a (DfracOwn (1/2)) st ∗ sig_tok n p ∗ sig_at n p a v dst ∗ ⌜Z.of_nat p < s_last s⌝ ∗
        sep_at n i (st_ep st)
  | _ => True
  end)%I.

(** ** The interpretation of a state *)

Definition hist n (d : sys) : iProp Σ :=
  (∃ t, ⌜inv d t ∧ zlen (subs d) < 2 ^ 31 - 2⌝ ∗ prog_auth n (DmaX200Sys.prog d) ∗ ran_auth n (ran d) ∗ subs_auth n (subs d) ∗
    held_tok n (held d) ∗ (if held d then True else held_tok n None))%I.

Definition sigs_at n x (σ : gmap nat (Z * Z * Z)) : iProp Σ :=
  (ghost_map_auth (g_sig (γ n)) 1 σ ∗ ghost_map_auth (g_tok (γ n)) 1 ((fun _ => tt) <$> σ) ∗
   ghost_map_auth (g_pool (γ n)) 1 (pool x) ∗
   ([∗ map] p ↦ e ∈ σ, (∃ st, block n e.1.1 (DfracOwn (1/2)) st ∗ ⌜val st = e.1.2⌝) ∨ (sig_tok n p ∗ ⌜(p < length (ran (dma x)))%nat⌝)) ∗
   ⌜∀ p a v dst, σ !! p = Some (a, v, dst) → DmaX200Sys.prog (dma x) !! p = Some ((a + offsetof_val)%Z, dst, 8) ∧
      ((p < length (ran (dma x)))%nat → reads x !! p = Some (Some v))⌝)%I.

Definition sigs n x : iProp Σ := (∃ σ, sigs_at n x σ)%I.

Definition pins n x (rest : list sub) : iProp Σ :=
  (∃ m : gmap nat (Z * kind), ghost_map_auth (g_pin (γ n)) 1 m ∗ ⌜pins_ok (fence_refcount x) (users x) (live x) rest m⌝)%I.

Definition wins n x (N k : nat) : iProp Σ :=
  (∃ L T E, ghost_map_auth (g_lock (γ n)) 1 L ∗ ghost_map_auth (g_tw (γ n)) 1 T ∗ ghost_map_auth (g_sep (γ n)) 1 E ∗
    mono_nat_auth_own (g_called (γ n)) 1 k ∗ mono_nat_auth_own (g_hung (γ n)) 1 (if hung (ws x) then 1 else 0)%nat ∗
    own (g_seen (γ n)) (●ML (seen (ws x) : list (leibnizO (Z * bool * list DmaWindow.dma_window)))) ∗
    ([∗ list] ep ∈ rma_queue (ws x), ∃ p, tw_tok n ep p) ∗ ⌜wins_ok (ws x) (live x) (oops x) N k L T E⌝)%I.

(** The requests from the one numbered [k] on have not been called back. *)
Definition cbs n x (k : nat) (rest : list sub) : iProp Σ :=
  (([∗ list] j ↦ s ∈ rest, cb_res n (k + j) s) ∗ pins n x rest ∗ sigs n x ∗ wins n x (k + length rest) k ∗
   ⌜length (reads x) = length (ran (dma x))⌝)%I.

Definition calls n x : iProp Σ :=
  (∃ k, ⌜(k <= length (subs (dma x)))%nat ∧ called (ch (dma x)) = omap s_cb (take k (subs (dma x)))⌝ ∗
    cbs n x k (drop k (subs (dma x))))%I.

Definition proto n x : iProp Σ :=
  (ghost_map_auth (g_req (γ n)) 1 (reqs x) ∗
  (∃ S : gmap Z req_spec, ghost_map_auth (g_spec (γ n)) 1 S ∗ ⌜dom S = dom (reqs x)⌝) ∗
  ([∗ map] r ↦ i ∈ reqs x, if comp i then req_back n r i else True) ∗
  ([∗ list] m ∈ inbox x, msg_res n m) ∗ ([∗ list] m ∈ fences x, fence_res n m) ∗
  ⌜∀ m, m ∈ inbox x → payload0 m ∈ live x⌝)%I.

Definition NI n x : iProp Σ :=
  (hist n (dma x) ∗ calls n x ∗ proto n x)%I.

Definition SI w : iProp Σ :=
  (NI true (nd w true) ∗ NI false (nd w false) ∗ ⌜alive w = true⌝)%I.

(** ** Programs *)

Fixpoint wp {A} n (p : prog A) (Φ : A → iProp Σ) : iProp Σ :=
  match p with
  | Ret a => |==> Φ a
  | Op o k => ∀ w, SI w ==∗ ⌜¬ fault n o w⌝ ∗ ∀ r w', ⌜do_op n o w r w'⌝ ==∗ SI w' ∗ wp n (k r) Φ
  end%I.

Lemma wp_ret {A} n (a : A) Φ : Φ a ⊢ wp n (mret a) Φ.
Proof. by iIntros "$". Qed.

Lemma wp_bind {A B} n (p : prog A) (f : A → prog B) Φ : wp n p (fun a => wp n (f a) Φ) ⊢ wp n (bind p f) Φ.
Proof.
  induction p as [a|X o k IH]; cbn [wp bind].
  - iIntros "H". destruct (f a) as [b|Y o k]; cbn [wp]; [by iMod "H"|].
    iIntros (w) "HS". iMod "H". by iApply "H".
  - iIntros "H" (w) "HS". iMod ("H" with "HS") as "[$ H]". iIntros "!>" (r w') "Hd". iMod ("H" with "Hd") as "[$ H]".
    iModIntro. by iApply IH.
Qed.

Lemma wp_wand {A} n (p : prog A) Φ Ψ : wp n p Φ -∗ (∀ a, Φ a ==∗ Ψ a) -∗ wp n p Ψ.
Proof.
  induction p as [a|X o k IH]; cbn [wp].
  - iIntros "H HΨ". iMod "H". by iApply "HΨ".
  - iIntros "H HΨ" (w) "HS". iMod ("H" with "HS") as "[$ H]". iIntros "!>" (r w') "Hd". iMod ("H" with "Hd") as "[$ H]".
    iModIntro. by iApply (IH with "H").
Qed.

Lemma wp_bupd {A} n (p : prog A) Φ : (|==> wp n p Φ) ⊢ wp n p Φ.
Proof.
  destruct p as [a|X o k]; cbn [wp]; iIntros "H"; [by iMod "H"|]. iIntros (w) "HS". iMod "H". by iApply "H".
Qed.

(** An operation, with the resources its thread keeps. *)
Lemma wp_do {X} n (o : op X) Φ :
  (∀ w, SI w ==∗ ⌜¬ fault n o w⌝ ∗ ∀ r w', ⌜do_op n o w r w'⌝ ==∗ SI w' ∗ Φ r) ⊢ wp n (do o) Φ.
Proof.
  cbn [wp do]. iIntros "H" (w) "HS". iMod ("H" with "HS") as "[$ H]". iIntros "!>" (r w') "Hd".
  by iMod ("H" with "Hd") as "[$ $]".
Qed.

(** A change of ghost state before an operation. *)
Lemma wp_change {X} n (o : op X) R Φ : (∀ w, SI w ==∗ SI w ∗ R) -∗ (R -∗ wp n (do o) Φ) -∗ wp n (do o) Φ.
Proof. cbn [wp do]. iIntros "HR H" (w) "HS". iMod ("HR" with "HS") as "[HS HR]". iApply ("H" with "HR HS"). Qed.

(** Access to one of the nodes. *)
Lemma SI_acc w n : SI w ⊢ NI n (nd w n) ∗ ⌜alive w = true⌝ ∗ ∀ f, NI n (f (nd w n)) -∗ SI (upd n f w).
Proof.
  unfold SI, upd. cbn [nd alive]. iIntros "(Ht & Hf & %Ha)". destruct n; cbn [Bool.eqb].
  - iFrame. iSplit; [done|]. by iIntros (f) "$".
  - iFrame. iSplit; [done|]. by iIntros (f) "$".
Qed.

(** The same for a change that is ghost state only. *)
Lemma SI_ghost w n : SI w ⊢ NI n (nd w n) ∗ (NI n (nd w n) -∗ SI w).
Proof. unfold SI. iIntros "(Ht & Hf & %Ha)". destruct n; iFrame; by iIntros "$". Qed.

End Logic.
End FenceLogic.
