(* ===== verification/FenceWins.v ===== *)
(** * Windows, locks and pending signals

    What the operations on windows, the submission of a signal and its callback do to the
    windows of a node ([wins_ok] of [FenceLogic]), and the updates of the ghost state that go
    with them. *)
From iris.algebra Require Import lib.mono_list.
From iris.proofmode Require Import proofmode.
From iris.base_logic.lib Require Import own ghost_map ghost_var mono_nat.
From S2P Require Import Prelude RmaList DmaWindow DmaX200 DmaX200Inv DmaX200Sys FenceProg ScifFence FenceLogic.
Local Open Scope Z_scope.

Module FenceWins.
Import DmaX200 DmaX200Inv DmaX200Sys FenceProg FenceLogic.

(** ** The windows of a node *)

Lemma info_on_info W ep f e : info_of (on_info ep f W) e = if decide (e = ep) then f (info_of W ep) else info_of W e.
Proof.
  rewrite /info_of /on_info. cbn [infos]. case_decide as E; [subst; by rewrite lookup_insert_eq|]. by rewrite lookup_insert_ne.
Qed.

Lemma forall_sublist {A} (P : A → Prop) l k : sublist l k → Forall P k → Forall P l.
Proof. induction 1 as [|x l k Hs IH|x l k Hs IH]; [done|..]; intros [H1 H2]%Forall_cons; [constructor|]; auto. Qed.

Lemma sublist_sorted {A} (R : A → A → Prop) l k : sublist l k → StronglySorted R k → StronglySorted R l.
Proof.
  induction 1 as [|x l k Hs IH|x l k Hs IH]; [done| |]; intros H; apply StronglySorted_inv in H as [H1 H2]; [|by apply IH].
  constructor; [by apply IH|]. by eapply forall_sublist.
Qed.

Lemma sublist_image {A B} (f : A → B) l k : sublist l k → sublist (f <$> l) (f <$> k).
Proof. induction 1; cbn; by constructor. Qed.

Lemma windows_ok_without a l : windows_ok l → windows_ok (without a l).
Proof.
  intros (H1 & [H2 H3] & H4). pose proof (sublist_filter (fun d => RmaList.w_addr (DmaWindow.win d) ≠ a) l) as Hs.
  split_and!.
  - by eapply forall_sublist.
  - split; [eapply forall_sublist|eapply sublist_sorted]; [by apply sublist_image|done|by apply sublist_image|done].
  - eapply sublist_NoDup; [exact H4|]. by apply sublist_image.
Qed.

(** Lists that are as they were, or as a function makes them. *)
Lemma lists_on_info W ep f e : lists_of (on_info ep f W) e =
  if decide (e = ep) then (self_list (f (info_of W ep)), remote_list (f (info_of W ep))) else lists_of W e.
Proof. rewrite /lists_of info_on_info. by case_decide. Qed.

Lemma lists_add_tw W ep d e : lists_of (on_info ep (add_tw d) W) e = lists_of W e.
Proof. rewrite lists_on_info. case_decide as E; [by subst|done]. Qed.

Lemma list_of_lists W ep self : list_of (info_of W ep) self = if self then (lists_of W ep).1 else (lists_of W ep).2.
Proof. done. Qed.

Lemma list_of_set self self' l i : list_of (set_list self l i) self' = if Bool.eqb self self' then l else list_of i self'.
Proof. by destruct self, self'. Qed.

Lemma not_locked {W lv oo N k L T E} ep : wins_ok W lv oo N k L T E → ep ∉ rma_locked W → L !! ep = None.
Proof. intros H Hn. apply not_elem_of_dom. by rewrite (wk_dom _ _ _ _ _ _ _ _ H). Qed.

Ltac wins_destruct H := destruct H as [Hdom Hlists Hlocked Htw Hnew Hpend Hlive Htok Hok Hoops].

(** A signal that is pending has its endpoint in use. *)
Lemma wins_ok_pending {W lv oo N k L T E} i ep : wins_ok W lv oo N k L T E → hung W = false → E !! i = Some ep → (k <= i)%nat → ep ∈ lv.
Proof. intros H Hh Hi Hk. destruct (wk_pend _ _ _ _ _ _ _ _ H Hh i ep Hi Hk) as [Hw|(j & p & Hj & _)]; [by eapply wk_live|by eapply wk_tok]. Qed.

(** A callback has run. *)
Lemma wins_ok_called {W lv oo N k L T E} oo' : wins_ok W lv oo N k L T E → (oo' = true → hung W = true) →
  wins_ok W lv oo' N (S k) L T E.
Proof. intros H Ho. wins_destruct H. split; try done. intros Hh i ep Hi Hk. apply (Hpend Hh i ep Hi). lia. Qed.

(** A request is submitted; it is a signal. *)
Lemma wins_ok_submit {W lv oo N k L T E} : wins_ok W lv oo N k L T E → wins_ok W lv oo (S N) k L T E.
Proof. intros H. wins_destruct H. split; try done. intros i ep Hi. specialize (Hnew i ep Hi). lia. Qed.

Lemma wins_ok_signal {W lv oo N k L T E} ep ls p : wins_ok W lv oo N k L T E → L !! ep = Some (ls, p) → ls ≠ ([], []) →
  wins_ok W lv oo (S N) k (<[ep := (ls, S N)]> L) T (<[N := ep]> E).
Proof.
  intros H Hl Hls. wins_destruct H. split; try done.
  - rewrite dom_insert_L -Hdom. apply elem_of_dom_2 in Hl. set_solver.
  - intros e ls' p' [[-> [= <- <-]]|[_ He]]%lookup_insert_Some; by eapply Hlists.
  - intros e ls' p' i [[-> [= <- <-]]|[Hne He]]%lookup_insert_Some [[<- Hi]|[_ Hi]]%lookup_insert_Some;
      [lia|specialize (Hnew _ _ Hi); lia|done|by eapply Hlocked].
  - intros i e [[<- <-]|[_ Hi]]%lookup_insert_Some; [lia|]. specialize (Hnew _ _ Hi). lia.
  - intros Hh i e [[<- <-]|[_ Hi]]%lookup_insert_Some Hk; [|by apply Hpend]. left. rewrite /has_windows -(Hlists _ _ _ Hl). done.
Qed.

(** The lock of an endpoint is taken and released. *)
Lemma wins_ok_lock {W lv oo N k L T E} ep : wins_ok W lv oo N k L T E →
  wins_ok (on_locked ({[ ep ]} ∪.) W) lv oo N k (<[ep := (lists_of W ep, N)]> L) T E.
Proof.
  intros H. wins_destruct H. split; try done.
  - by rewrite dom_insert_L Hdom.
  - intros e ls p [[-> [= <- <-]]|[_ He]]%lookup_insert_Some; [done|by eapply Hlists].
  - intros e ls p i [[-> [= <- <-]]|[_ He]]%lookup_insert_Some Hi; [by eapply Hnew|by eapply Hlocked].
Qed.

Lemma wins_ok_unlock {W lv oo N k L T E} ep : wins_ok W lv oo N k L T E →
  wins_ok (on_locked (.∖ {[ ep ]}) W) lv oo N k (delete ep L) T E.
Proof.
  intros H. wins_destruct H. split; try done.
  - by rewrite dom_delete_L Hdom.
  - intros e ls p [_ He]%lookup_delete_Some. by eapply Hlists.
  - intros e ls p i [_ He]%lookup_delete_Some. by eapply Hlocked.
Qed.

(** The signals of an endpoint whose lock is held have been called back: a window goes. *)
Lemma wins_ok_list_del {W lv oo N k L T E} ep ls p a : wins_ok W lv oo N k L T E → L !! ep = Some (ls, p) →
  (p <= k)%nat ∨ hung W = true →
  let W' := on_info ep (fun i => set_list false (without a (remote_list i)) i) W in
  wins_ok W' lv oo N k (<[ep := (lists_of W' ep, p)]> L) T E.
Proof.
  intros H Hl Hpk W'. wins_destruct H.
  assert (∀ e, e ≠ ep → lists_of W' e = lists_of W e) as Hne by (intros e He; rewrite lists_on_info; by case_decide).
  split; try done.
  - rewrite dom_insert_L. cbn. rewrite -Hdom. apply elem_of_dom_2 in Hl. set_solver.
  - intros e ls' p' [[-> [= <- <-]]|[He Hl']]%lookup_insert_Some; [done|]. rewrite Hne //. by eapply Hlists.
  - intros e ls' p' i [[-> [= <- <-]]|[He Hl']]%lookup_insert_Some Hi; by eapply Hlocked.
  - intros e. rewrite info_on_info. case_decide as E0; [subst; apply Htw|apply Htw].
  - intros Hh i e Hi Hk. destruct (decide (e = ep)) as [->|He].
    + destruct Hpk as [Hpk|Hpk]; [specialize (Hlocked _ _ _ _ Hl Hi); lia|]. cbn in Hh. congruence.
    + rewrite /has_windows Hne //. by apply Hpend.
  - intros e He. apply Hlive. destruct (decide (e = ep)) as [->|Hn]; [|by rewrite /has_windows -Hne].
    revert He. rewrite /has_windows lists_on_info decide_True // /lists_of. cbn [set_list self_list remote_list].
    intros He Heq. apply He. injection Heq as -> ->. done.
  - intros e self. rewrite info_on_info. case_decide as E0; [|apply Hok]. subst e. rewrite list_of_set. destruct self; cbn [Bool.eqb]; [apply (Hok ep true)|].
    apply windows_ok_without, (Hok ep false).
Qed.

(** A window has been destroyed. *)
Lemma wins_ok_tw_dec {W lv oo N k L T E} j ep p : wins_ok W lv oo N k L T E → T !! j = Some (ep, p) →
  (p <= k)%nat ∨ hung W = true → wins_ok (on_info ep (add_tw (-1)) W) lv oo N k L (delete j T) E.
Proof.
  intros H Hj Hpk. wins_destruct H. split; try done.
  - intros e ls q. rewrite lists_add_tw. apply Hlists.
  - intros e. rewrite info_on_info (tcnt_delete _ _ _ _ Hj) /b2z. cbn [fst]. case_decide; case_bool_decide; subst; try done;
      rewrite -Htw; cbn [add_tw tw_refcount]; lia.
  - intros Hh i e Hi Hk. rewrite /has_windows lists_add_tw. destruct (Hpend Hh i e Hi Hk) as [?|(j' & q & Hj' & Hq)]; [by left|].
    right. destruct (decide (j' = j)) as [->|Hn].
    + rewrite Hj in Hj'. injection Hj' as <- <-. destruct Hpk; [lia|]. cbn in Hh. congruence.
    + exists j', q. by rewrite lookup_delete_ne.
  - intros e. rewrite /has_windows lists_add_tw. apply Hlive.
  - intros j' e q [_ Hj']%lookup_delete_Some. by eapply Htok.
  - intros e self. rewrite info_on_info. case_decide as E0; [subst; apply (Hok ep)|apply Hok].
Qed.

(** A wait for all DMA has failed. *)
Lemma wins_ok_hung {W lv oo N k L T E} : wins_ok W lv oo N k L T E → wins_ok (set_hung W) lv oo N k L T E.
Proof. intros H. wins_destruct H. by split. Qed.

(** Changes of the rest of the state. *)
Lemma wins_ok_look {W lv oo N k L T E} ep self : wins_ok W lv oo N k L T E → wins_ok (look ep self W) lv oo N k L T E.
Proof. intros H. wins_destruct H. by split. Qed.
Lemma wins_ok_queue {W lv oo N k L T E} f : wins_ok W lv oo N k L T E → wins_ok (on_queue f W) lv oo N k L T E.
Proof. intros H. wins_destruct H. by split. Qed.

(** What other code does to windows. *)
Lemma wins_ok_register {W lv oo N k L T E} ep self l : wins_ok W lv oo N k L T E → ep ∈ lv → ep ∉ rma_locked W → windows_ok l →
  list_of (info_of W ep) self ⊆ l → wins_ok (on_info ep (set_list self l) W) lv oo N k L T E.
Proof.
  intros H He Hn Hl Hsub. pose proof (not_locked ep H Hn) as Hnl. wins_destruct H. split; try done.
  - intros e ls p Hlk. rewrite lists_on_info. case_decide as E0; [subst; congruence|]. by eapply Hlists.
  - intros e. rewrite info_on_info. case_decide as E0; [subst; destruct self; apply Htw|apply Htw].
  - intros Hh i e Hi Hk. destruct (Hpend Hh i e Hi Hk) as [Hw|?]; [|by right]. left. revert Hw. rewrite /has_windows lists_on_info.
    case_decide as E0; [|done]. subst e. rewrite /lists_of. destruct self; cbn [set_list self_list remote_list list_of] in *; intros Hw [= E1 E2];
      apply Hw; revert Hsub; rewrite ?E1 ?E2; by intros ->%list_nil_subseteq.
  - intros e. destruct (decide (e = ep)) as [->|]; [done|]. rewrite /has_windows lists_on_info decide_False //. apply Hlive.
  - intros e s. rewrite info_on_info. case_decide as E0; [|apply Hok]. subst e. rewrite list_of_set. destruct (Bool.eqb self s); [done|apply Hok].
Qed.

Lemma wins_ok_counts {W lv oo N k L T E} ep tcw mmn : wins_ok W lv oo N k L T E → wins_ok (on_info ep (set_counts tcw mmn) W) lv oo N k L T E.
Proof.
  intros H. wins_destruct H. assert (∀ e, lists_of (on_info ep (set_counts tcw mmn) W) e = lists_of W e) as Hl.
  { intros e. rewrite lists_on_info. case_decide as E0; [by subst|done]. }
  split; try done.
  - intros e ls p. rewrite Hl. apply Hlists.
  - intros e. rewrite info_on_info. case_decide as E0; [subst; apply Htw|apply Htw].
  - intros Hh i e Hi Hk. rewrite /has_windows Hl. by apply Hpend.
  - intros e. rewrite /has_windows Hl. apply Hlive.
  - intros e self. rewrite list_of_lists Hl -list_of_lists. apply Hok.
Qed.

(** A window is queued: it came from a list, or was none of a list. *)
Lemma wins_ok_tw_inc {W lv oo N k L T E} j ep : wins_ok W lv oo N k L T E → ep ∈ lv → T !! j = None →
  wins_ok (on_info ep (add_tw 1) W) lv oo N k L (<[j := (ep, N)]> T) E.
Proof.
  intros H He Hj. wins_destruct H. split; try done.
  - intros e ls q. rewrite lists_add_tw. apply Hlists.
  - intros e. rewrite info_on_info (tcnt_insert _ _ _ _ Hj) /b2z. cbn [fst]. case_decide; case_bool_decide; subst; try done;
      rewrite -Htw; cbn [add_tw tw_refcount]; lia.
  - intros Hh i e Hi Hk. rewrite /has_windows lists_add_tw. destruct (Hpend Hh i e Hi Hk) as [?|(j' & q & Hj' & Hq)]; [by left|].
    right. exists j', q. rewrite lookup_insert_ne //. congruence.
  - intros e. rewrite /has_windows lists_add_tw. apply Hlive.
  - intros j' e q [[-> [= <- <-]]|[_ Hj']]%lookup_insert_Some; [done|by eapply Htok].
  - intros e self. rewrite info_on_info. case_decide as E0; [subst; apply (Hok ep)|apply Hok].
Qed.

Lemma wins_ok_unregister {W lv oo N k L T E} j ep self a : wins_ok W lv oo N k L T E → ep ∉ rma_locked W → T !! j = None →
  list_of (info_of W ep) self ≠ [] →
  wins_ok (on_info ep (fun i => add_tw 1 (set_list self (without a (list_of i self)) i)) W) lv oo N k L (<[j := (ep, N)]> T) E.
Proof.
  intros H Hn Hj Hl. pose proof (not_locked ep H Hn) as Hnl.
  assert (ep ∈ lv) as He.
  { eapply wk_live; [exact H|]. intros [= E1 E2]. destruct self; done. }
  wins_destruct H.
  assert (∀ e, e ≠ ep → lists_of (on_info ep (fun i => add_tw 1 (set_list self (without a (list_of i self)) i)) W) e = lists_of W e) as Hne
    by (intros e He'; rewrite lists_on_info; by case_decide).
  split; try done.
  - intros e ls q Hlk. rewrite Hne; [by eapply Hlists|congruence].
  - intros e. rewrite info_on_info (tcnt_insert _ _ _ _ Hj) /b2z. cbn [fst]. case_decide; case_bool_decide; subst; try done;
      rewrite -Htw; [|lia]. by destruct self.
  - intros Hh i e Hi Hk. destruct (decide (e = ep)) as [->|Hn'].
    + right. exists j, N. rewrite lookup_insert_eq. split; [done|]. by eapply Hnew.
    + rewrite /has_windows Hne //. destruct (Hpend Hh i e Hi Hk) as [?|(j' & q & Hj' & Hq)]; [by left|].
      right. exists j', q. rewrite lookup_insert_ne //. congruence.
  - intros e Hw. destruct (decide (e = ep)) as [->|Hn']; [done|]. apply Hlive. by rewrite /has_windows -Hne.
  - intros j' e q [[-> [= <- <-]]|[_ Hj']]%lookup_insert_Some; [done|by eapply Htok].
  - intros e s. rewrite info_on_info. case_decide as E0; [|apply Hok]. subst e.
    change (windows_ok (list_of (set_list self (without a (list_of (info_of W ep) self)) (info_of W ep)) s)). rewrite list_of_set.
    destruct (Bool.eqb self s) eqn:Es; [|apply Hok]. apply windows_ok_without, Hok.
Qed.

(** An endpoint without windows, and none queued, is cleaned up. *)
Lemma wins_ok_uninit {W lv oo N k L T E} ep : wins_ok W lv oo N k L T E → ¬ has_windows W ep → tw_refcount (info_of W ep) = 0 →
  wins_ok W (lv ∖ {[ ep ]}) oo N k L T E.
Proof.
  intros H Hw Hz. wins_destruct H. split; try done.
  - intros e He. apply elem_of_difference. split; [by apply Hlive|]. rewrite elem_of_singleton. intros ->. done.
  - intros j e p Hj. apply elem_of_difference. split; [by eapply Htok|]. rewrite elem_of_singleton. intros ->.
    rewrite Htw in Hz. by apply (tcnt_zero ep T j p).
Qed.

Lemma wins_ok_start lv : wins_ok (WState ∅ ∅ [] false []) lv false 0 0 ∅ ∅ ∅.
Proof.
  split; try done. intros ep self. rewrite /info_of /= lookup_empty /=. destruct self; (split_and!; [constructor|split; constructor|constructor]).
Qed.

(** ** Updates *)

Section Wins.
Context `{!fenceG Σ}.
Context (γ : bool → names).
Implicit Types (n : bool) (x : node) (W : wstate).

#[local] Notation wins := (wins γ).
#[local] Notation lock_tok := (lock_tok γ).
#[local] Notation tw_tok := (tw_tok γ).
#[local] Notation count_lb := (count_lb γ).
#[local] Notation called_lb := (called_lb γ).
#[local] Notation hung_lb := (hung_lb γ).
#[local] Notation seen_at := (seen_at γ).
#[local] Notation sep_at := (sep_at γ).

#[export] Instance count_lb_persistent n m : Persistent (count_lb n m).
Proof. rewrite /FenceLogic.count_lb. case_decide; apply _. Qed.
#[export] Instance sub_at_persistent n m ck : Persistent (sub_at γ n m ck).
Proof. rewrite /sub_at. case_decide; apply _. Qed.
#[export] Instance called_lb_persistent n m : Persistent (called_lb n m).
Proof. rewrite /FenceLogic.called_lb. case_decide; apply _. Qed.
#[export] Instance seen_at_persistent n e : Persistent (seen_at n e).
Proof. apply _. Qed.

(** The fields of the windows that are ghost state only. *)
Lemma wins_same n x x' N k : ws x' = ws x → live x' = live x → oops x' = oops x → wins n x N k -∗ wins n x' N k.
Proof. iIntros (E1 E2 E3) "H". by rewrite /FenceLogic.wins E1 E2 E3. Qed.

(** What has been called back, or that a wait has failed, is so. *)
Lemma wins_bound n x N k p : wins n x N k -∗ called_lb n p ∨ hung_lb n -∗ ⌜(p <= k)%nat ∨ hung (ws x) = true⌝.
Proof.
  iIntros "(%L & %T & %E & _ & _ & _ & Hc & Hh & _) [Hp|Hp]".
  - rewrite /FenceLogic.called_lb. case_decide as E0; [iLeft; iPureIntro; lia|].
    iDestruct (mono_nat_lb_own_valid with "Hc Hp") as %[_ Hle]. by iLeft.
  - iDestruct (mono_nat_lb_own_valid with "Hh Hp") as %[_ Hle]. iRight. iPureIntro. destruct (hung (ws x)); [done|lia].
Qed.

Lemma wins_lists n x N k ep ls p : wins n x N k -∗ lock_tok n ep ls p -∗ ⌜ls = lists_of (ws x) ep⌝.
Proof.
  iIntros "(%L & %T & %E & HL & _ & _ & _ & _ & _ & _ & %Hok) Hl". iDestruct (ghost_map_lookup with "HL Hl") as %Hl.
  iPureIntro. by eapply wk_lists.
Qed.

Lemma wins_windows n x N k ep self : wins n x N k -∗ ⌜windows_ok (list_of (info_of (ws x) ep) self)⌝.
Proof. iIntros "(%L & %T & %E & _ & _ & _ & _ & _ & _ & _ & %Hok)". iPureIntro. by eapply wk_ok. Qed.

Lemma wins_tw_live n x N k ep p : wins n x N k -∗ tw_tok n ep p -∗ ⌜ep ∈ live x⌝.
Proof.
  iIntros "(%L & %T & %E & _ & HT & _ & _ & _ & _ & _ & %Hok) (%j & Hj & _)". iDestruct (ghost_map_lookup with "HT Hj") as %Hj.
  iPureIntro. by eapply wk_tok.
Qed.

(** The lock. *)
Lemma wins_lock n x N k ep : ep ∉ rma_locked (ws x) → wins n x N k ==∗
  wins n (on_ws (on_locked ({[ ep ]} ∪.)) x) N k ∗ lock_tok n ep (lists_of (ws x) ep) N.
Proof.
  iIntros (Hn) "(%L & %T & %E & HL & HT & HE & Hc & Hh & Hs & Hq & %Hok)".
  iMod (ghost_map_insert ep (lists_of (ws x) ep, N) with "HL") as "[HL $]"; [by apply (not_locked ep Hok)|].
  iModIntro. iExists _, T, E. iFrame. iPureIntro. by apply wins_ok_lock.
Qed.

Lemma wins_unlock n x N k ep ls p : wins n x N k -∗ lock_tok n ep ls p ==∗ wins n (on_ws (on_locked (.∖ {[ ep ]})) x) N k.
Proof.
  iIntros "(%L & %T & %E & HL & HT & HE & Hc & Hh & Hs & Hq & %Hok) Hl".
  iMod (ghost_map_delete with "HL Hl") as "HL". iModIntro. iExists _, T, E. iFrame. iPureIntro. by apply wins_ok_unlock.
Qed.

(** The lists are looked at; one is changed. *)
Lemma wins_look n x N k ep self : wins n x N k ==∗
  wins n (on_ws (look ep self) x) N k ∗ seen_at n (ep, self, list_of (info_of (ws x) ep) self).
Proof.
  iIntros "(%L & %T & %E & HL & HT & HE & Hc & Hh & Hs & Hq & %Hok)".
  set (l' := seen (ws x) ++ [(ep, self, list_of (info_of (ws x) ep) self)]).
  iMod (own_update _ _ (●ML (l' : list (leibnizO (Z * bool * list DmaWindow.dma_window)))) with "Hs") as "Hs".
  { apply mono_list_update. by apply prefix_app_r. }
  iAssert (own (g_seen (γ n)) (◯ML (l' : list (leibnizO (Z * bool * list DmaWindow.dma_window))))) as "#Hl".
  { iApply (own_mono with "Hs"). apply mono_list_included. }
  iModIntro. iSplitL; [iExists L, T, E; iFrame; iPureIntro; by apply wins_ok_look|]. iExists l'. iFrame "Hl". iPureIntro.
  apply elem_of_app. right. by apply list_elem_of_singleton.
Qed.

Lemma wins_list_del n x N k ep ls p a : wins n x N k -∗ lock_tok n ep ls p -∗ called_lb n p ∨ hung_lb n ==∗
  wins n (on_ws (on_info ep (fun i => set_list false (without a (remote_list i)) i)) x) N k ∗ ∃ ls', lock_tok n ep ls' p.
Proof.
  iIntros "HW Hl Hp". iDestruct (wins_bound with "HW Hp") as %Hp.
  iDestruct "HW" as "(%L & %T & %E & HL & HT & HE & Hc & Hh & Hs & Hq & %Hok)". iDestruct (ghost_map_lookup with "HL Hl") as %Hl.
  iMod (ghost_map_update with "HL Hl") as "[HL Hl]". iModIntro.
  iSplitR "Hl"; [|by iExists _]. iExists _, T, E. iFrame. iPureIntro. by eapply wins_ok_list_del.
Qed.

(** The queue. *)
Lemma wins_next n x N k ep q : rma_queue (ws x) = ep :: q → wins n x N k -∗
  wins n (on_ws (on_queue (fun _ => q)) x) N k ∗ ∃ p, tw_tok n ep p.
Proof.
  iIntros (Eq) "(%L & %T & %E & HL & HT & HE & Hc & Hh & Hs & Hq & %Hok)". rewrite Eq. iDestruct "Hq" as "[$ Hq]".
  iExists L, T, E. iFrame. iPureIntro. by apply wins_ok_queue.
Qed.

Lemma wins_tw_dec n x N k ep p : wins n x N k -∗ tw_tok n ep p -∗ called_lb n p ∨ hung_lb n ==∗
  wins n (on_ws (on_info ep (add_tw (-1))) x) N k.
Proof.
  iIntros "HW (%j & Hj & _) Hp". iDestruct (wins_bound with "HW Hp") as %Hp.
  iDestruct "HW" as "(%L & %T & %E & HL & HT & HE & Hc & Hh & Hs & Hq & %Hok)". iDestruct (ghost_map_lookup with "HT Hj") as %Hj.
  iMod (ghost_map_delete with "HT Hj") as "HT". iModIntro. iExists L, _, E. iFrame. iPureIntro. by eapply wins_ok_tw_dec.
Qed.

Lemma wins_hung n x N k : wins n x N k ==∗ wins n (on_ws set_hung x) N k ∗ hung_lb n.
Proof.
  iIntros "(%L & %T & %E & HL & HT & HE & Hc & Hh & Hs & Hq & %Hok)".
  iMod (mono_nat_own_update 1 with "Hh") as "[Hh $]"; [destruct (hung (ws x)); lia|]. iModIntro.
  iExists L, T, E. iFrame. iPureIntro. by apply wins_ok_hung.
Qed.

(** A window is queued. *)
Lemma wins_queued n x N k ep W : (∀ L T E j, wins_ok (ws x) (live x) (oops x) N k L T E → T !! j = None →
    wins_ok W (live x) (oops x) N k L (<[j := (ep, N)]> T) E) →
  rma_queue W = rma_queue (ws x) ++ [ep] → hung W = hung (ws x) → seen W = seen (ws x) →
  count_lb n N -∗ wins n x N k ==∗ wins n (on_ws (fun _ => W) x) N k.
Proof.
  iIntros (Hok' Eq Eh Es) "#HN (%L & %T & %E & HL & HT & HE & Hc & Hh & Hs & Hq & %Hok)".
  pose proof (is_fresh (dom T)) as Hf%not_elem_of_dom.
  iMod (ghost_map_insert (fresh (dom T)) (ep, N) with "HT") as "[HT Hj]"; [done|]. iModIntro.
  iExists L, _, E. cbn [ws on_ws]. rewrite Eq Eh Es big_sepL_app. iFrame. cbn [big_opL]. iFrame "HN". iPureIntro. by apply Hok'.
Qed.

Lemma wins_rma n x N k W : rma_step (live x) (ws x) W → count_lb n N -∗ wins n x N k ==∗ wins n (on_ws (fun _ => W) x) N k.
Proof.
  intros Hst. destruct Hst as [ep self l He Hn Hl Hsub|ep self a Hn Ha|ep He|ep tcw mmn He].
  - iIntros "_ (%L & %T & %E & HL & HT & HE & Hc & Hh & Hs & Hq & %Hok) !>". iExists L, T, E. iFrame. iPureIntro. by apply wins_ok_register.
  - apply (wins_queued n x N k ep); [|done..]. intros L T E j Hok Hj. apply wins_ok_queue, wins_ok_unregister; [done..|].
    intros El. by rewrite El in Ha; apply elem_of_nil in Ha.
  - apply (wins_queued n x N k ep); [|done..]. intros L T E j Hok Hj. by apply wins_ok_queue, wins_ok_tw_inc.
  - iIntros "_ (%L & %T & %E & HL & HT & HE & Hc & Hh & Hs & Hq & %Hok) !>". iExists L, T, E. iFrame. iPureIntro. by apply wins_ok_counts.
Qed.

(** Submissions. *)
Lemma wins_submit n x N k : wins n x N k -∗ wins n x (S N) k.
Proof.
  iIntros "(%L & %T & %E & HL & HT & HE & Hc & Hh & Hs & Hq & %Hok)". iExists L, T, E. iFrame. iPureIntro. by apply wins_ok_submit.
Qed.

Lemma wins_signal n x N k ep ls p : ls ≠ ([], []) → wins n x N k -∗ lock_tok n ep ls p ==∗
  wins n x (S N) k ∗ lock_tok n ep ls (S N) ∗ sep_at n N ep.
Proof.
  iIntros (Hls) "(%L & %T & %E & HL & HT & HE & Hc & Hh & Hs & Hq & %Hok) Hl". iDestruct (ghost_map_lookup with "HL Hl") as %Hl.
  iMod (ghost_map_update with "HL Hl") as "[HL $]".
  iMod (ghost_map_insert_persist N ep with "HE") as "[HE $]".
  { destruct (E !! N) eqn:EN; [|done]. pose proof (wk_new _ _ _ _ _ _ _ _ Hok _ _ EN). lia. }
  iModIntro. iExists _, T, _. iFrame. iPureIntro. by eapply wins_ok_signal.
Qed.

(** A callback. *)
Lemma wins_called n x x' N k : ws x' = ws x → live x' = live x → oops x' = oops x → wins n x N k ==∗ wins n x' N (S k).
Proof.
  iIntros (E1 E2 E3) "(%L & %T & %E & HL & HT & HE & Hc & Hh & Hs & Hq & %Hok)".
  iMod (mono_nat_own_update (S k) with "Hc") as "[Hc _]"; [lia|]. iModIntro. iExists L, T, E. rewrite E1 E2 E3. iFrame. iPureIntro.
  apply (wins_ok_called _ Hok). apply (wk_oops _ _ _ _ _ _ _ _ Hok).
Qed.

Lemma wins_signalled n x x' N k ep : ws x' = ws x → live x' = live x → oops x' = (oops x || negb (bool_decide (ep ∈ live x)))%bool →
  wins n x N k -∗ sep_at n k ep ==∗ wins n x' N (S k).
Proof.
  iIntros (E1 E2 E3) "(%L & %T & %E & HL & HT & HE & Hc & Hh & Hs & Hq & %Hok) He". iDestruct (ghost_map_lookup with "HE He") as %He.
  iMod (mono_nat_own_update (S k) with "Hc") as "[Hc _]"; [lia|]. iModIntro. iExists L, T, E. rewrite E1 E2 E3. iFrame. iPureIntro.
  apply (wins_ok_called _ Hok). intros Ho. destruct (hung (ws x)) eqn:Eh; [done|]. exfalso.
  apply orb_true_iff in Ho as [Ho|Ho]; [by rewrite (wk_oops _ _ _ _ _ _ _ _ Hok Ho) in Eh|].
  apply negb_true_iff, bool_decide_eq_false in Ho. apply Ho. by eapply wins_ok_pending.
Qed.

(** An endpoint is cleaned up. *)
Lemma wins_uninit n x N k ep : scif_rma_ep_can_uninit ep x = true → wins n x N k -∗ wins n (on_live (.∖ {[ ep ]}) x) N k.
Proof.
  iIntros (Hc) "(%L & %T & %E & HL & HT & HE & Hc & Hh & Hs & Hq & %Hok)". iExists L, T, E. iFrame. iPureIntro.
  unfold scif_rma_ep_can_uninit in Hc. rewrite !andb_true_iff !bool_decide_eq_true !Z.eqb_eq in Hc. destruct Hc as (((((H1 & H2) & _) & H4) & _) & _).
  apply wins_ok_uninit; [done| |done]. rewrite /has_windows /lists_of H1 H2. tauto.
Qed.

End Wins.
End FenceWins.
