(* ===== verification/FenceRules.v ===== *)
(** * The rules of the operations

    For each operation of [FenceProg] what a thread needs to hold and what it gets; the rule
    of a step of the channel ([dma_change]) does the work of the callbacks. *)
From iris.algebra Require Import lib.mono_list.
From iris.proofmode Require Import proofmode.
From iris.base_logic.lib Require Import own ghost_map ghost_var mono_nat.
From S2P Require Import Prelude RmaList DmaWindow DmaX200 DmaX200Inv DmaX200Sys FenceProg ScifFence FenceLogic FenceDma FenceWins.
Local Open Scope Z_scope.

Module FenceRules.
Import DmaX200 DmaX200Inv DmaX200Sys FenceProg FenceLogic FenceDma FenceWins.

Section Rules.
Context `{!fenceG Σ}.
Context (γ : bool → names).
Context (conn : bool → Z → bool * Z).
Implicit Types (n : bool) (x : node) (w : world).

#[local] Notation NI := (NI γ conn).
#[local] Notation SI := (SI γ conn).
#[local] Notation wp := (wp γ conn).
#[local] Notation prog_lb := (prog_lb γ).
#[local] Notation ran_lb := (ran_lb γ).
#[local] Notation subs_lb := (subs_lb γ).
#[local] Notation held_tok := (held_tok γ).
#[local] Notation is_mark := (is_mark γ).
#[local] Notation hist := (hist γ).
#[local] Notation cbs := (cbs γ).
#[local] Notation calls := (calls γ).
#[local] Notation proto := (proto γ conn).
#[local] Notation pins := (pins γ).
#[local] Notation pin := (pin γ).
#[local] Notation sigs := (sigs γ).
#[local] Notation cb_res := (cb_res γ).
#[local] Notation block := (block γ).
#[local] Notation wins := (wins γ).
#[local] Notation count_lb := (count_lb γ).
#[local] Notation sub_at := (sub_at γ).
#[local] Notation called_lb := (called_lb γ).
#[local] Notation hung_lb := (hung_lb γ).
#[local] Notation lock_tok := (lock_tok γ).
#[local] Notation tw_tok := (tw_tok γ).

(** ** Histories *)

#[export] Instance prog_lb_persistent n l : Persistent (prog_lb n l).
Proof. apply _. Qed.
#[export] Instance ran_lb_persistent n l : Persistent (ran_lb n l).
Proof. apply _. Qed.
#[export] Instance subs_lb_persistent n l : Persistent (subs_lb n l).
Proof. apply _. Qed.
#[export] Instance is_mark_persistent n l ck : Persistent (is_mark n l ck).
Proof. apply _. Qed.

Lemma ml_get {A : ofe} `{!inG Σ (mono_listR A)} g (l : list A) : own g (●ML l) -∗ own g (◯ML l).
Proof. iIntros "H". iApply (own_mono with "H"). apply mono_list_included. Qed.

Lemma ml_lb {T : Type} `{!inG Σ (mono_listR (leibnizO T))} g (l k : list (leibnizO T)) : own g (●ML l) -∗ own g (◯ML k) -∗ ⌜k `prefix_of` l⌝.
Proof. iIntros "H1 H2". iCombine "H1 H2" gives %H. by apply mono_list_both_valid_L in H. Qed.

Lemma ml_grow {A : ofe} `{!inG Σ (mono_listR A)} g (l k : list A) : l `prefix_of` k → own g (●ML l) ==∗ own g (●ML k).
Proof. intros H. iApply own_update. by apply mono_list_update. Qed.

Lemma ml_mono {A : ofe} `{!inG Σ (mono_listR A)} g (l k : list A) : k `prefix_of` l → own g (◯ML l) -∗ own g (◯ML k).
Proof. intros H. iIntros "H". iApply (own_mono with "H"). by apply mono_list_lb_mono. Qed.

Definition extends (d d' : sys) : Prop :=
  DmaX200Sys.prog d `prefix_of` DmaX200Sys.prog d' ∧ ran d `prefix_of` ran d' ∧ subs d `prefix_of` subs d'.

(** The channel goes on, with the same transaction held, with a new one, or with none. *)
Definition hist_next n d d' : iProp Σ :=
  (match held d, held d' with
   | None, Some o => hist n d' ∗ held_tok n (Some o)
   | Some o, None => held_tok n (Some o) -∗ |==> hist n d'
   | _, _ => if decide (held d = held d') then hist n d' else True
   end)%I.

Lemma hist_change n d d' t : inv d' t → zlen (subs d') < 2 ^ 31 - 2 → extends d d' → hist n d ==∗ hist_next n d d'.
Proof.
  iIntros (Ht Hn (Hp & Hr & Hs)) "(%t0 & _ & Hpa & Hra & Hsa & Hh & Hh2)". rewrite /prog_auth /ran_auth /subs_auth.
  iMod (ml_grow with "Hpa") as "Hpa"; first exact Hp. iMod (ml_grow with "Hra") as "Hra"; first exact Hr.
  iMod (ml_grow with "Hsa") as "Hsa"; first exact Hs.
  rewrite /hist_next /FenceLogic.hist /prog_auth /ran_auth /subs_auth /FenceLogic.held_tok.
  destruct (held d) as [o|] eqn:E, (held d') as [o'|] eqn:E'.
  - destruct (decide _) as [[= ->]|]; [|done]. iModIntro. iExists t. by iFrame.
  - iModIntro. iIntros "Ht". iMod (ghost_var_update_halves None with "Hh Ht") as "[H1 H2]". iModIntro. iExists t. by iFrame.
  - iMod (ghost_var_update_halves (Some o') with "Hh Hh2") as "[H1 $]". iModIntro. iFrame. by iExists t.
  - destruct (decide _); [|done]. iModIntro. iExists t. by iFrame.
Qed.

Lemma hist_inv n d : hist n d -∗ ∃ t, ⌜inv d t ∧ zlen (subs d) < 2 ^ 31 - 2⌝.
Proof. iIntros "(%t & %H & _)". by iExists t. Qed.

Lemma hist_held n d o : hist n d -∗ held_tok n o -∗ ⌜held d = o⌝.
Proof. iIntros "(%t & %H & _ & _ & _ & Hh & _) Ht". by iDestruct (ghost_var_agree with "Hh Ht") as %->. Qed.

Lemma hist_lb n d l : hist n d -∗ prog_lb n l -∗ ⌜l `prefix_of` DmaX200Sys.prog d⌝.
Proof. iIntros "(%t & %H & Hp & _) Hl". iApply (ml_lb with "Hp Hl"). Qed.

Lemma hist_ran_lb n d l : hist n d -∗ ran_lb n l -∗ ⌜l `prefix_of` ran d⌝.
Proof. iIntros "(%t & %H & _ & Hp & _) Hl". iApply (ml_lb with "Hp Hl"). Qed.

Lemma hist_get n d : hist n d -∗ prog_lb n (DmaX200Sys.prog d) ∗ ran_lb n (ran d) ∗ subs_lb n (subs d).
Proof.
  iIntros "(%t & _ & Hp & Hr & Hs & _)". iSplitL "Hp"; [|iSplitL "Hr"]; by iApply ml_get.
Qed.

(** A mark whose status is complete. *)
Lemma hist_done n d l ck c : mic_dma_tx_status (ch d) ck = Some (true, c) →
  hist n d -∗ is_mark n l ck -∗ ⌜l `prefix_of` ran d⌝.
Proof.
  iIntros (E) "Hh (%sl & %i & %s & Hsl & Hl & %Hs & %Hc & %Hle & _)". iDestruct (hist_lb with "Hh Hl") as %Hl.
  iDestruct "Hh" as "(%t & [%Ht %Hn] & _ & _ & Hs & _)". iDestruct (ml_lb with "Hs Hsl") as %Hsl.
  iPureIntro. eapply status_done; try done. by eapply prefix_lookup_Some.
Qed.

(** The request with a cookie is there; a bound of the submissions. *)
Lemma hist_sub n d m ck : hist n d -∗ sub_at n m ck -∗
  ⌜m = 0%nat ∨ ∃ i s, subs d !! i = Some s ∧ s_cookie s = ck ∧ (m <= i)%nat⌝.
Proof.
  iIntros "(%t & _ & _ & _ & Hs & _) Hsub". rewrite /FenceLogic.sub_at. case_decide as E; [by iLeft|].
  iDestruct "Hsub" as "(%sl & %i & %s & Hsl & %Hi & %Hc & %Hm)". iDestruct (ml_lb with "Hs Hsl") as %Hsl.
  iRight. iPureIntro. exists i, s. split_and!; [by eapply prefix_lookup_Some|done..].
Qed.

Lemma hist_count n d m : hist n d -∗ count_lb n m -∗ ⌜(m <= length (subs d))%nat⌝.
Proof.
  iIntros "(%t & _ & _ & _ & Hs & _) Hc". rewrite /FenceLogic.count_lb. case_decide as E; [iPureIntro; lia|].
  iDestruct "Hc" as (sl) "[Hsl %Hm]". iDestruct (ml_lb with "Hs Hsl") as %Hsl%prefix_length. iPureIntro. by etrans.
Qed.

Lemma subs_count n l : subs_lb n l -∗ count_lb n (length l).
Proof. iIntros "H". rewrite /FenceLogic.count_lb. case_decide; [done|]. iExists l. by iFrame. Qed.

Lemma called_mono n m m' : (m' <= m)%nat → called_lb n m -∗ called_lb n m'.
Proof.
  iIntros (H) "Hc". rewrite /FenceLogic.called_lb. case_decide; [case_decide; [done|lia]|]. case_decide; [done|].
  by iApply (mono_nat_lb_own_le with "Hc").
Qed.

Lemma wins_called_lb n x N k : wins n x N k -∗ called_lb n k.
Proof.
  iIntros "(%L & %T & %E & _ & _ & _ & Hc & _)". rewrite /FenceLogic.called_lb. case_decide; [done|]. by iApply (mono_nat_lb_own_get with "Hc").
Qed.

(** ** References *)

Lemma pin_live n x rest ep k : pins n x rest -∗ pin n ep k -∗ ⌜ep ∈ live x⌝.
Proof.
  iIntros "(%m & Hm & %Hok) (%i & Hi)". iDestruct (ghost_map_lookup with "Hm Hi") as %Hi. iPureIntro. by eapply pk_live.
Qed.

Lemma pin_enter n x rest ep : ep ∈ live x → pins n x rest ==∗ pins n (on_users (add ep 1) x) rest ∗ pin n ep KUser.
Proof.
  iIntros (Hl) "(%m & Hm & %Hok)". pose proof (is_fresh (dom m)) as Hf%not_elem_of_dom.
  iMod (ghost_map_insert (fresh (dom m)) (ep, KUser) with "Hm") as "[Hm Hi]"; [done|]. iModIntro. iSplitR "Hi"; [|by iExists _].
  iExists _. iFrame. iPureIntro. by apply pins_ok_enter.
Qed.

Lemma pin_leave n x rest ep : pins n x rest -∗ pin n ep KUser ==∗ pins n (on_users (add ep (-1)) x) rest.
Proof.
  iIntros "(%m & Hm & %Hok) (%i & Hi)". iDestruct (ghost_map_lookup with "Hm Hi") as %Hi.
  iMod (ghost_map_delete with "Hm Hi") as "Hm". iModIntro. iExists _. iFrame. iPureIntro. by apply pins_ok_leave.
Qed.

Lemma pin_owe n x rest ep s : decode_cb <$> s_cb s = Some (CbMark ep) →
  pins n x rest -∗ pin n ep KUser ==∗ pins n x (rest ++ [s]) ∗ pin n ep KOwed.
Proof.
  iIntros (Hs) "(%m & Hm & %Hok) (%i & Hi)". iDestruct (ghost_map_lookup with "Hm Hi") as %Hi.
  iMod (ghost_map_update (ep, KOwed) with "Hm Hi") as "[Hm Hi]". iModIntro. iSplitR "Hi"; [|by iExists _].
  iExists _. iFrame. iPureIntro. by eapply pins_ok_owe.
Qed.

Lemma pin_pay n x rest ep : pins n x rest -∗ pin n ep KOwed ==∗ pins n (on_refs (add ep 1) x) rest ∗ pin n ep KUser.
Proof.
  iIntros "(%m & Hm & %Hok) (%i & Hi)". iDestruct (ghost_map_lookup with "Hm Hi") as %Hi.
  iMod (ghost_map_update (ep, KUser) with "Hm Hi") as "[Hm Hi]". iModIntro. iSplitR "Hi"; [|by iExists _].
  iExists _. iFrame. iPureIntro. by apply pins_ok_pay.
Qed.

Lemma pin_ref n x rest ep : ep ∈ live x → pins n x rest ==∗ pins n (on_refs (add ep 1) x) rest ∗ pin n ep KRef.
Proof.
  iIntros (Hl) "(%m & Hm & %Hok)". pose proof (is_fresh (dom m)) as Hf%not_elem_of_dom.
  iMod (ghost_map_insert (fresh (dom m)) (ep, KRef) with "Hm") as "[Hm Hi]"; [done|]. iModIntro. iSplitR "Hi"; [|by iExists _].
  iExists _. iFrame. iPureIntro. by apply pins_ok_ref.
Qed.

Lemma pin_unref n x rest ep : pins n x rest -∗ pin n ep KRef ==∗ pins n (on_refs (add ep (-1)) x) rest.
Proof.
  iIntros "(%m & Hm & %Hok) (%i & Hi)". iDestruct (ghost_map_lookup with "Hm Hi") as %Hi.
  iMod (ghost_map_delete with "Hm Hi") as "Hm". iModIntro. iExists _. iFrame. iPureIntro. by apply pins_ok_unref.
Qed.

(** ** Signals *)

(** The block of a signal not executed yet is still there. *)
Lemma sigs_pool n x σ p a v dst : σ !! p = Some (a, v, dst) → (length (ran (dma x)) <= p)%nat →
  sigs_at γ n x σ -∗ ⌜∃ st, pool x !! a = Some st ∧ val st = v⌝.
Proof.
  iIntros (Hp Hle) "(_ & _ & Hpool & Hm & _)". iDestruct (big_sepM_lookup with "Hm") as "Hp"; [exact Hp|]. cbn [fst snd].
  iDestruct "Hp" as "[(%st & Hb & %Hv)|[_ %Hlt]]"; [|lia]. iDestruct (ghost_map_lookup with "Hpool Hb") as %Ha.
  iPureIntro. by exists st.
Qed.

Definition advance d' x : node := with_dma d' (reads x ++ (read_at x <$> drop (length (ran (dma x))) (ran d'))) x.

Lemma sigs_advance n x d' : extends (dma x) d' → ran d' `prefix_of` DmaX200Sys.prog d' → length (reads x) = length (ran (dma x)) →
  ∀ σ, sigs_at γ n x σ -∗ sigs_at γ n (advance d' x) σ.
Proof.
  iIntros ((Hp & Hr & _) Hrp Hlen σ) "H".
  iAssert ⌜∀ p a v dst, σ !! p = Some (a, v, dst) → (length (ran (dma x)) <= p)%nat → ∃ st, pool x !! a = Some st ∧ val st = v⌝%I
    as %Hpool. { iIntros (p a v dst Hs Hle). by iApply (sigs_pool with "H"). }
  iDestruct "H" as "($ & $ & $ & Hm & %Hσ)". iSplitL "Hm".
  - iApply (big_sepM_mono with "Hm"). iIntros (p e Hs) "[H|[H %Hlt]]"; [by iLeft|]. iRight. iFrame. iPureIntro.
    apply prefix_length in Hr. cbn [dma advance with_dma]. lia.
  - iPureIntro. intros p a v dst Hs. destruct (Hσ p a v dst Hs) as [Hpr Hrd]. cbn [dma advance with_dma reads].
    assert (DmaX200Sys.prog d' !! p = Some (a + offsetof_val, dst, 8)) as Hpr' by by eapply prefix_lookup_Some.
    split; [done|]. intros Hlt. destruct (decide (p < length (ran (dma x)))%nat) as [Hold|Hnew].
    { rewrite lookup_app_l; [auto|lia]. }
    rewrite lookup_app_r; [|lia]. rewrite list_lookup_fmap lookup_drop.
    replace (length (ran (dma x)) + (p - length (reads x)))%nat with p by lia.
    destruct (lookup_lt_is_Some_2 _ _ Hlt) as [c Hc]. rewrite Hc. cbn.
    rewrite (prefix_lookup_Some _ _ _ _ Hc Hrp) in Hpr'. injection Hpr' as ->. cbn.
    replace (a + offsetof_val - offsetof_val) with a by lia. destruct (Hpool p a v dst Hs) as (st & -> & <-); [lia|done].
Qed.

(** A signal programmed at place [p]. *)
Lemma sigs_new n x σ p a st dst : σ !! p = None → DmaX200Sys.prog (dma x) !! p = Some (a + offsetof_val, dst, 8) →
  (length (ran (dma x)) <= p)%nat → sigs_at γ n x σ -∗ block n a (DfracOwn 1) st ==∗
  sigs n x ∗ block n a (DfracOwn (1/2)) st ∗ sig_tok γ n p ∗ sig_at γ n p a (val st) dst.
Proof.
  iIntros (Hp Hpr Hle) "(Hs & Ht & Hpool & Hm & %Hσ) [Hb $]".
  iMod (ghost_map_insert_persist p (a, val st, dst) with "Hs") as "[Hs $]"; [done|].
  iMod (ghost_map_insert p tt with "Ht") as "[Ht $]"; [by rewrite lookup_fmap Hp|]. iModIntro.
  iExists (<[p := (a, val st, dst)]> σ). rewrite /sigs_at fmap_insert. iFrame. rewrite big_sepM_insert //. iFrame "Hm". iSplitL "Hb".
  - iLeft. iExists st. by iFrame.
  - iPureIntro. intros q b v d [[<- [= <- <- <-]]|[_ E]]%lookup_insert_Some; [split; [done|lia]|by apply Hσ].
Qed.

(** The callback of an executed signal frees its block. *)
Lemma sigs_free n x p a st v dst : (p < length (ran (dma x)))%nat →
  sigs n x -∗ block n a (DfracOwn (1/2)) st -∗ sig_tok γ n p -∗ sig_at γ n p a v dst ==∗
  ⌜pool x !! a = Some st⌝ ∗ sigs n (on_pool (delete a) x).
Proof.
  iIntros (Hlt) "(%σ & Hs & Ht & Hpool & Hm & %Hσ) Hb Hk Ha". iDestruct (ghost_map_lookup with "Hs Ha") as %Hp.
  iDestruct (ghost_map_lookup with "Hpool Hb") as %Hl. iSplitR; [done|].
  iDestruct (big_sepM_insert_acc with "Hm") as "[[(%st' & Hb' & %)|[Hk' _]] Hm]"; [exact Hp| |].
  - cbn [fst snd]. iDestruct (ghost_map_elem_agree with "Hb Hb'") as %<-. iCombine "Hb Hb'" as "Hb".
    iMod (ghost_map_delete with "Hpool Hb") as "Hpool". iModIntro. iExists σ. iFrame "Hs Ht Hpool". iSplit; [|done].
    iSpecialize ("Hm" $! (a, v, dst) with "[Hk]"); [iRight; by iFrame|]. by rewrite insert_id.
  - by iDestruct (ghost_map_elem_valid_2 with "Hk Hk'") as %[Hv%dfrac_valid_own_r _].
Qed.

(** ** Callbacks *)

Lemma sigs_same n x x' : dma x' = dma x → reads x' = reads x → pool x' = pool x → sigs n x -∗ sigs n x'.
Proof. iIntros (E1 E2 E3) "H". by rewrite /FenceLogic.sigs /FenceLogic.sigs_at E1 E2 E3. Qed.

Definition one_callback (x : node) (s : sub) : node := match s_cb s with Some z => run_callback x z | None => x end.

(** The callback of a request whose last descriptor has been executed. *)
Lemma callback_one n x k s rest : s_last s < zlen (ran (dma x)) → cbs n x k (s :: rest) ==∗ cbs n (one_callback x s) (S k) rest.
Proof.
  iIntros (Hlt) "([Hs Hr] & (%m & Hm & %Hok) & Hsig & HW & %Hl)". rewrite Nat.add_0_r. cbn [length].
  iAssert ([∗ list] j ↦ s' ∈ rest, cb_res n (S k + j) s')%I with "[Hr]" as "Hr".
  { iApply (big_sepL_mono with "Hr"). iIntros (j s' _) "H". by rewrite -Nat.add_succ_comm. }
  rewrite -Nat.add_succ_comm /one_callback /run_callback /FenceLogic.cb_res.
  destruct (s_cb s) as [z|] eqn:Ez; cbn [fmap option_fmap option_map].
  - destruct (decode_cb z) as [ep|a|c|q] eqn:Ed.
    + apply (pins_ok_marked _ _ _ _ _ _ ep) in Hok as [Hlv Hok]; [|by rewrite Ez; cbn; rewrite Ed].
      rewrite /scif_fence_mark_cb bool_decide_eq_true_2 //. iMod (wins_called with "HW") as "$"; [done..|].
      iModIntro. iFrame "Hr". iSplitL "Hm"; [iExists m; by iFrame|]. by iFrame "Hsig".
    + iDestruct "Hs" as "(%p & %st & %v & %dst & Hb & Hk & Ha & %Hp & He)".
      iMod (sigs_free with "Hsig Hb Hk Ha") as "[%Hpl Hsig]"; [unfold zlen in Hlt; lia|].
      rewrite /scif_prog_signal_cb Hpl. set (x' := if bool_decide _ then x else _).
      assert (dma x' = dma x ∧ reads x' = reads x ∧ pool x' = pool x ∧ fence_refcount x' = fence_refcount x ∧ users x' = users x ∧
        live x' = live x ∧ ws x' = ws x ∧ oops x' = (oops x || negb (bool_decide (st_ep st ∈ live x)))%bool) as (E1 & E2 & E3 & E4 & E5 & E6 & E7 & E8).
      { unfold x'. case_bool_decide; cbn; by rewrite ?orb_false_r ?orb_true_r. }
      iMod (wins_signalled _ _ _ (on_pool (delete a) x') with "HW He") as "$"; [done..|].
      iModIntro. iFrame "Hr". iSplitL "Hm"; [|iSplitL; [|by cbn; rewrite E1 E2]].
      * iExists m. iFrame. iPureIntro. cbn. rewrite E4 E5 E6. eapply pins_ok_unmarked; [done|]. intros e. by rewrite Ez; cbn; rewrite Ed.
      * iApply (sigs_same with "Hsig"); cbn; [done..|by rewrite E3].
    + iMod (wins_called with "HW") as "$"; [done..|]. iModIntro. iFrame "Hr". iSplitL "Hm"; [|by iFrame "Hsig"].
      iExists m. iFrame. iPureIntro. eapply pins_ok_unmarked; [done|]. intros e. by rewrite Ez; cbn; rewrite Ed.
    + iMod (wins_called with "HW") as "$"; [done..|]. iModIntro. iFrame "Hr Hsig". iSplit; [|done]. iExists m. iFrame. iPureIntro.
      eapply pins_ok_unmarked; [done|]. intros e. by rewrite Ez; cbn; rewrite Ed.
  - iMod (wins_called with "HW") as "$"; [done..|]. iModIntro. iFrame "Hr Hsig". iSplit; [|done]. iExists m. iFrame. iPureIntro.
    eapply pins_ok_unmarked; [done|]. intros e. by rewrite Ez.
Qed.

Lemma one_callback_dma x s : dma (one_callback x s) = dma x.
Proof. rewrite /one_callback. destruct (s_cb s); [|done]. apply run_callback_dma. Qed.

Lemma callbacks n l : ∀ x k rest, Forall (fun s => s_last s < zlen (ran (dma x))) l →
  cbs n x k (l ++ rest) ==∗ cbs n (foldl run_callback x (omap s_cb l)) (length l + k) rest.
Proof.
  induction l as [|s l IH]; intros x k rest Hl; [by iIntros "$"|]. apply Forall_cons in Hl as [Hs Hl].
  iIntros "H". iMod (callback_one with "H") as "H"; [exact Hs|].
  iMod (IH with "H") as "H"; [by rewrite one_callback_dma|]. iModIntro. rewrite /one_callback Nat.add_succ_r. cbn [omap list_omap].
  by destruct (s_cb s).
Qed.

(** The channel goes on to [d']: what it executes reads its sources, what is complete is
    called back; the requests in [l] are new, and with [R] a signal may be. *)
Definition new_sigs n x d' (R : iProp Σ) : iProp Σ :=
  (∀ σ : gmap nat (Z * Z * Z), ⌜∀ p, is_Some (σ !! p) → (p < length (DmaX200Sys.prog (dma x)))%nat⌝ -∗
    sigs_at γ n (advance d' x) σ ==∗ sigs n (advance d' x) ∗ R)%I.

Definition new_subs n x l (P : iProp Σ) : iProp Σ :=
  (∀ rest k, let N := length (subs (dma x)) in pins n x rest -∗ wins n x N k ==∗
    pins n x (rest ++ l) ∗ wins n x (N + length l) k ∗ ([∗ list] j ↦ s ∈ l, cb_res n (N + j) s) ∗ P)%I.

Lemma calls_change n x d' t l R P : inv d' t → extends (dma x) d' → called (ch (dma x)) `prefix_of` called (ch d') →
  subs d' = subs (dma x) ++ l → calls n x -∗ new_sigs n x d' R -∗ new_subs n x l P ==∗
  calls n (set_dma d' x) ∗ called_lb n (length (finished t (subs d'))) ∗ R ∗ P.
Proof.
  iIntros (Ht Hext Hc Hl) "(%k & [%Hk %Hcalled] & Hr & Hp & [%σ Hsig] & HW & %Hlen) HR Hsubs".
  set (k' := length (finished t (subs d'))). destruct (inv_called d' t Ht) as (Hk' & Hcalled' & Hlast). fold k' in Hk', Hcalled', Hlast.
  destruct (omap_take_advance s_cb (subs (dma x)) (subs d') k k') as (j & Hj & Hj' & Hjk & Ej); [done|by apply Hext| |done|].
  { rewrite -Hcalled -Hcalled'. done. }
  rewrite length_drop. replace (k + (length (subs (dma x)) - k))%nat with (length (subs (dma x))) by lia.
  iMod ("Hsubs" with "Hp HW") as "(Hp & HW & Hres & $)".
  iAssert ⌜∀ p, is_Some (σ !! p) → (p < length (DmaX200Sys.prog (dma x)))%nat⌝%I as %Hσ.
  { iDestruct "Hsig" as "(_ & _ & _ & _ & %Hσ)". iPureIntro. intros p [[[a v] dst] E]. by eapply lookup_lt_Some, Hσ. }
  iDestruct (sigs_advance with "Hsig") as "Hsig"; [exact Hext|apply (i_ran _ _ Ht)|exact Hlen|].
  iMod ("HR" with "[//] Hsig") as "[Hsig $]".
  assert (drop k (subs (dma x)) ++ l = take (j - k) (drop k (subs d')) ++ drop j (subs d')) as Erest.
  { rewrite -(drop_app_le (subs (dma x)) l) // -Hl. rewrite -{1}(take_drop (j - k) (drop k (subs d'))) drop_drop. do 2 f_equal. lia. }
  assert (called (ch d') = called (ch (dma x)) ++ omap s_cb (take (j - k) (drop k (subs d')))) as Ecalled.
  { rewrite Hcalled' -Ej Hcalled -omap_app. f_equal. rewrite Hl -{1}(take_drop k (take j (subs (dma x) ++ l))).
    rewrite take_take Nat.min_l; [|lia]. rewrite take_app_le //. f_equal. by rewrite skipn_firstn_comm. }
  iAssert (cbs n (advance d' x) k (take (j - k) (drop k (subs d')) ++ drop j (subs d'))) with "[Hr Hres Hp Hsig HW]" as "Hcb".
  { rewrite -Erest /FenceLogic.cbs big_sepL_app. iFrame "Hr Hp Hsig". iSplitL "Hres".
    { iApply (big_sepL_mono with "Hres"). iIntros (i s _) "H". rewrite length_drop.
      by replace (k + (length (subs (dma x)) - k + i))%nat with (length (subs (dma x)) + i)%nat by lia. }
    rewrite length_app length_drop. replace (k + (length (subs (dma x)) - k + length l))%nat with (length (subs (dma x)) + length l)%nat by lia.
    iFrame "HW". iPureIntro. cbn [reads dma advance with_dma]. destruct Hext as (_ & [z Hz] & _). rewrite Hz drop_app_length length_app length_fmap length_app. lia. }
  iMod (callbacks with "Hcb") as "Hcb".
  { cbn [dma advance with_dma]. destruct Hjk as [->| ->]; [rewrite Nat.sub_diag; constructor|].
    rewrite firstn_skipn_comm. replace (k + (k' - k))%nat with k' by lia. by apply Forall_drop. }
  assert (set_dma d' x = foldl run_callback (advance d' x) (omap s_cb (take (j - k) (drop k (subs d'))))) as ->.
  { rewrite /set_dma /advance Ecalled drop_app_length //. }
  replace (length (take (j - k) (drop k (subs d'))) + k)%nat with j by (rewrite length_take length_drop; lia).
  iAssert (called_lb n j) as "#Hj". { iDestruct "Hcb" as "(_ & _ & _ & HW & _)". iApply (wins_called_lb with "HW"). }
  iSplitL; [|by iApply (called_mono with "Hj")].
  iModIntro. destruct (run_callbacks_dma (omap s_cb (take (j - k) (drop k (subs d')))) (advance d' x)) as (Ed & _).
  iExists j. rewrite Ed. cbn [dma advance with_dma]. iFrame "Hcb". iPureIntro. split; [lia|]. by rewrite Hcalled' Ej.
Qed.

(** ** The channel *)

Lemma set_dma_same d' x : dma (set_dma d' x) = d' ∧ reqs (set_dma d' x) = reqs x ∧ inbox (set_dma d' x) = inbox x ∧
  fences (set_dma d' x) = fences x ∧ live (set_dma d' x) = live x ∧ users (set_dma d' x) = users x.
Proof.
  destruct (run_callbacks_dma (drop (length (called (ch (dma x)))) (called (ch d'))) (advance d' x)) as (? & _ & ? & ? & ? & ? & ? & ?).
  by rewrite /set_dma -/(advance d' x).
Qed.

Lemma proto_same n x x' : reqs x' = reqs x → inbox x' = inbox x → fences x' = fences x → live x' = live x → proto n x -∗ proto n x'.
Proof. iIntros (E1 E2 E3 E4) "H". by rewrite /FenceLogic.proto E1 E2 E3 E4. Qed.

Lemma no_sigs n x d' : ⊢ new_sigs n x d' True.
Proof. iIntros (σ _) "H !>". iSplit; [|done]. by iExists σ. Qed.

Lemma no_subs n x : ⊢ new_subs n x [] True.
Proof. iIntros (rest k) "Hp HW !>". rewrite app_nil_r Nat.add_0_r. iFrame. by cbn [big_opL]. Qed.

Lemma dma_change n x d' t l R P : inv d' t → zlen (subs d') < 2 ^ 31 - 2 → extends (dma x) d' →
  called (ch (dma x)) `prefix_of` called (ch d') → subs d' = subs (dma x) ++ l →
  NI n x -∗ new_sigs n x d' R -∗ new_subs n x l P ==∗
  hist_next n (dma x) d' ∗ (hist n d' -∗ NI n (set_dma d' x)) ∗ called_lb n (length (finished t (subs d'))) ∗ R ∗ P.
Proof.
  iIntros (Ht Hn Hext Hc Hl) "(Hh & Hca & Hpr) HR Hsubs". iMod (hist_change with "Hh") as "$"; [done..|].
  iMod (calls_change with "Hca HR Hsubs") as "(Hca & $ & $ & $)"; [done..|]. iIntros "!> Hh".
  destruct (set_dma_same d' x) as (E1 & E2 & E3 & E4 & E5 & E6). rewrite /FenceLogic.NI E1. iFrame.
  iApply (proto_same with "Hpr"); congruence.
Qed.

(** No request of a thread: the same transaction is held. *)
Lemma dma_other n x d' t : inv d' t → extends (dma x) d' → subs d' = subs (dma x) → held d' = held (dma x) →
  called (ch (dma x)) `prefix_of` called (ch d') → NI n x ==∗ NI n (set_dma d' x) ∗ called_lb n (length (finished t (subs d'))).
Proof.
  iIntros (Ht Hext Hs Hh Hc) "H". iAssert ⌜zlen (subs d') < 2 ^ 31 - 2⌝%I as %Hn.
  { iDestruct "H" as "((%t0 & [_ %Hn] & _) & _)". by rewrite Hs. }
  iMod (dma_change n x d' t [] True True with "H [] []") as "(Hh & Hn & $ & _ & _)"; try done; [by rewrite Hs app_nil_r|iApply no_sigs|iApply no_subs|].
  iModIntro. iApply "Hn". rewrite /hist_next Hh. destruct (held (dma x)); cbn; by case_decide.
Qed.

Lemma NI_inv n x : NI n x -∗ ⌜∃ t, inv (dma x) t ∧ zlen (subs (dma x)) < 2 ^ 31 - 2⌝.
Proof. iIntros "((%t & %H & _) & _)". by iExists t. Qed.

Lemma extends_same d d' : DmaX200Sys.prog d' = DmaX200Sys.prog d → ran d' = ran d → subs d' = subs d → extends d d'.
Proof. intros E1 E2 E3. rewrite /extends E1 E2 E3. done. Qed.

Lemma wp_issue n Φ : Φ tt ⊢ wp n (do issue_pending) Φ.
Proof.
  iIntros "HΦ". iApply wp_do. iIntros (w) "HS !>". iSplit; [by iPureIntro; intros []|]. iIntros ([] w' ->).
  iDestruct (SI_acc _ _ _ n with "HS") as "(HN & _ & Hc)". iDestruct (NI_inv with "HN") as %(t & Ht & _).
  iMod (dma_other _ _ _ t with "HN") as "[HN _]"; last (iModIntro; iFrame; by iApply "Hc"); try done.
  - by apply issue_inv.
  - cbn [ch with_ch]. by rewrite issue_called.
Qed.

(** The status of a mark, or of any cookie. *)
Definition opt_mark n (o : option (list copy)) (ck : Z) : iProp Σ := (match o with Some l => is_mark n l ck | None => True end)%I.
Definition opt_ran n (o : option (list copy)) : iProp Σ := (match o with Some l => ran_lb n l | None => True end)%I.

#[export] Instance opt_mark_persistent n o ck : Persistent (opt_mark n o ck).
Proof. destruct o; apply _. Qed.
#[export] Instance opt_ran_persistent n o : Persistent (opt_ran n o).
Proof. destruct o; apply _. Qed.

Lemma wp_status n ck o m Φ : opt_mark n o ck -∗ sub_at n m ck -∗
  (∀ b : bool, (if b then opt_ran n o ∗ called_lb n m else True) -∗ Φ b) -∗ wp n (do (tx_status ck)) Φ.
Proof.
  iIntros "#Hm #Hs HΦ". iApply wp_do. iIntros (w) "HS !>". iSplit; [by iPureIntro; intros []|]. iIntros (b w' (c & E & ->)).
  iDestruct (SI_acc _ _ _ n with "HS") as "(HN & _ & Hc)". iDestruct (NI_inv with "HN") as %(t & Ht & Hn).
  iAssert (if b then opt_ran n o else True)%I as "#Hr".
  { destruct b, o as [l|]; try done. iDestruct "HN" as "[Hh _]". iDestruct (hist_done with "Hh Hm") as %Hl; [exact E|].
    iDestruct (hist_get with "Hh") as "(_ & Hr & _)". by iApply (ml_mono with "Hr"). }
  iAssert ⌜m = 0%nat ∨ ∃ i s, subs (dma (nd w n)) !! i = Some s ∧ s_cookie s = ck ∧ (m <= i)%nat⌝%I as %Hm.
  { iDestruct "HN" as "[Hh _]". iApply (hist_sub with "Hh Hs"). }
  assert (∃ t', inv (with_ch (dma (nd w n)) c) t' ∧ (b = true → (m <= length (finished t' (subs (dma (nd w n)))))%nat)) as (t' & Ht' & Hb).
  { destruct (status_inv _ t ck Ht) as (r & c0 & t' & E' & Ht' & _). rewrite E in E'. injection E' as <- <-.
    destruct b; [|by exists t']. destruct Hm as [->|(i & s & Hi & Hck & Hmi)]; [exists t'; split; [done|lia]|].
    destruct (status_called_back _ t ck c i s Ht Hn Hi Hck E) as (t2 & Ht2 & Hlt). exists t2. split; [done|lia]. }
  iMod (dma_other _ _ _ t' with "HN") as "[HN #Hcl]"; try done; [cbn [ch with_ch]; by eapply status_called|].
  iModIntro. iSplitL "Hc HN"; [by iApply "Hc"|]. iApply "HΦ". destruct b; [|done]. iFrame "Hr". iApply (called_mono with "Hcl"). by apply Hb.
Qed.

(** ** Requests of the channel *)

Definition prep_res n (flags : Z) (r : option Z) : iProp Σ :=
  (match r with Some idx => held_tok n (Some (idx, flags)) | None => True end)%I.

Lemma extends_programmed d c o l : extends d (programmed d c o l).
Proof. split_and!; [by apply prefix_app_r|done|done]. Qed.

(** What [prep] does to the node, when it gets a transaction. *)
Lemma prep_change n x b dst src len flags idx c R : req_ok src dst len flags → held (dma x) = None →
  prep_pass b (ch (dma x)) dst src len flags = Some (PTx idx, c) →
  let d' := programmed (dma x) c (Some (idx, flags)) (request_copies src dst len) in
  NI n x -∗ new_sigs n x d' R ==∗ NI n (set_dma d' x) ∗ held_tok n (Some (idx, flags)) ∗ R.
Proof.
  iIntros (Hreq Hh E d') "HN HR". iDestruct (NI_inv with "HN") as %(t & Ht & Hn).
  destruct (prep_inv _ t b src dst len flags Ht Hh Hreq) as (r & c0 & t' & E' & Ht'). rewrite E in E'. injection E' as <- <-.
  iMod (dma_change n x d' t' [] R True with "HN HR []") as "(Hh & Hn & _ & $ & _)"; try done.
  - apply extends_programmed.
  - by eapply prep_called.
  - by rewrite app_nil_r.
  - iApply no_subs.
  - rewrite /hist_next Hh. cbn [held programmed]. iDestruct "Hh" as "[Hh $]". iModIntro. by iApply "Hn".
Qed.

Lemma prep_none n x b dst src len flags err c : req_ok src dst len flags → held (dma x) = None →
  prep_pass b (ch (dma x)) dst src len flags = Some (PNull err, c) → NI n x ==∗ NI n (set_dma (with_ch (dma x) c) x).
Proof.
  iIntros (Hreq Hh E) "HN". iDestruct (NI_inv with "HN") as %(t & Ht & _).
  destruct (prep_inv _ t b src dst len flags Ht Hh Hreq) as (r & c0 & t' & E' & Ht'). rewrite E in E'. injection E' as <- <-.
  iMod (dma_other with "HN") as "[$ _]"; try done. by eapply prep_called.
Qed.

Lemma wp_prep n dst src len flags Φ : req_ok src dst len flags →
  (∀ r, prep_res n flags r -∗ Φ r) ⊢ wp n (do (prep dst src len flags)) Φ.
Proof.
  iIntros (Hreq) "HΦ". iApply wp_do. iIntros (w) "HS !>". iSplit; [iPureIntro; by intros H|]. iIntros (r w' (Hh & b & c & Hcase)).
  iDestruct (SI_acc _ _ _ n with "HS") as "(HN & _ & Hc)". destruct Hcase as [(idx & E & -> & ->)|(err & E & -> & ->)].
  - iMod (prep_change with "HN []") as "(HN & Hh & _)"; [done..|iApply no_sigs|].
    iModIntro. iSplitL "Hc HN"; [by iApply "Hc"|by iApply "HΦ"].
  - iMod (prep_none with "HN") as "HN"; [done..|]. iModIntro. iSplitL "Hc HN"; [by iApply "Hc"|by iApply "HΦ"].
Qed.

(** The copy of a value of the pool; what was programmed before comes before it. *)
Definition signal_res n (a : Z) (st : scif_status) (dst : Z) (l : list copy) : iProp Σ :=
  (∃ p l', block n a (DfracOwn (1/2)) st ∗ sig_tok γ n p ∗ sig_at γ n p a (val st) dst ∗ prog_lb n l' ∗
    ⌜(length l <= p)%nat ∧ (p < length l')%nat⌝)%I.

Lemma wp_prep_signal n dst a flags st l Φ : req_ok (a + offsetof_val) dst 8 flags →
  block n a (DfracOwn 1) st -∗ prog_lb n l -∗
  (∀ r, prep_res n flags r -∗ (if r then signal_res n a st dst l else block n a (DfracOwn 1) st) -∗ Φ r) -∗
  wp n (do (prep dst (a + offsetof_val) 8 flags)) Φ.
Proof.
  iIntros (Hreq) "Hb #Hl HΦ". iApply wp_do. iIntros (w) "HS !>". iSplit; [iPureIntro; by intros H|].
  iIntros (r w' (Hh & b & c & Hcase)). iDestruct (SI_acc _ _ _ n with "HS") as "(HN & _ & Hc)".
  destruct Hcase as [(idx & E & -> & ->)|(err & E & -> & ->)].
  - iAssert ⌜l `prefix_of` DmaX200Sys.prog (dma (nd w n))⌝%I as %Hpre.
    { iDestruct "HN" as "[Hh _]". iApply (hist_lb with "Hh Hl"). }
    iDestruct (NI_inv with "HN") as %(t & Ht & _). pose proof (prefix_length _ _ (i_ran _ _ Ht)) as Hrl.
    set (p := length (DmaX200Sys.prog (dma (nd w n)))).
    assert (request_copies (a + offsetof_val) dst 8 = [(a + offsetof_val, dst, 8)]) as Er by done.
    iMod (prep_change _ _ _ _ _ _ _ _ _ (block n a (DfracOwn (1/2)) st ∗ sig_tok γ n p ∗ sig_at γ n p a (val st) dst)
      with "HN [Hb]") as "(HN & Hh & Hb & Ht & Ha)"; [done..| |].
    { iIntros (σ Hσ) "Hs". iApply (sigs_new with "Hs Hb"); cbn [dma advance with_dma programmed ran DmaX200Sys.prog]; [|by rewrite Er list_lookup_middle|lia].
      destruct (σ !! p) eqn:Ep; [|done]. exfalso. specialize (Hσ p ltac:(by eexists)). lia. }
    iAssert (prog_lb n (DmaX200Sys.prog (dma (nd w n)) ++ [(a + offsetof_val, dst, 8)])) as "#Hl'".
    { iDestruct "HN" as "[Hh' _]". iDestruct (hist_get with "Hh'") as "(Hp & _ & _)".
      destruct (set_dma_same (programmed (dma (nd w n)) c (Some (idx, flags)) (request_copies (a + offsetof_val) dst 8)) (nd w n)) as (-> & _).
      cbn [DmaX200Sys.prog programmed]. by rewrite Er. }
    iModIntro. iSplitL "Hc HN"; [by iApply "Hc"|]. iApply ("HΦ" $! (Some idx) with "Hh"). iExists p, _. iFrame "Hb Ht Ha Hl'". iPureIntro.
    apply prefix_length in Hpre. rewrite length_app. cbn. unfold p. lia.
  - iMod (prep_none with "HN") as "HN"; [done..|]. iModIntro. iSplitL "Hc HN"; [by iApply "Hc"|by iApply ("HΦ" $! None with "[//]")].
Qed.

(** A submission, with what its callback will give back; [R]: what its thread gets. *)
Definition cb_pre n (flags : Z) (cb : option callback) (R : iProp Σ) : iProp Σ :=
  (match cb with
   | Some (CbMark ep) => pin n ep KUser ∗ (pin n ep KOwed -∗ R)
   | Some (CbSignal a) => ∃ st dst l ls p, signal_res n a st dst l ∗ ⌜flags ≠ 0 ∧ ls ≠ ([], [])⌝ ∗ lock_tok n (st_ep st) ls p ∗
       ((∃ p', lock_tok n (st_ep st) ls p') -∗ R)
   | _ => R
   end)%I.

Lemma subs_other n x s R : (∀ ep, decode_cb <$> s_cb s ≠ Some (CbMark ep)) → (∀ a, decode_cb <$> s_cb s ≠ Some (CbSignal a)) →
  R ⊢ new_subs n x [s] R.
Proof.
  iIntros (Hm Hs) "$". iIntros (rest k) "(%m & Hm & %Hok) HW !>". rewrite Nat.add_1_r. iDestruct (wins_submit with "HW") as "$". iSplitL.
  - iExists m. iFrame. iPureIntro. by apply pins_ok_snoc.
  - cbn [big_opL]. rewrite /FenceLogic.cb_res. destruct (decode_cb <$> s_cb s) as [[ep|a|c|z]|]; try done. by destruct (Hs a).
Qed.

Lemma cb_new n x flags cb s R : s_cb s = encode_cb <$> cb → (flags ≠ 0 → zlen (DmaX200Sys.prog (dma x)) <= s_last s) →
  NI n x -∗ cb_pre n flags cb R -∗ NI n x ∗ new_subs n x [s] R.
Proof.
  iIntros (Hs Hlast) "HN Hcb".
  assert (decode_cb <$> s_cb s = cb) as Hd by (rewrite Hs; destruct cb; cbn; [by rewrite decode_encode|done]).
  destruct cb as [[ep|a|c|z]|]; cbn [cb_pre]; try (iFrame "HN"; iApply (subs_other with "Hcb"); by rewrite Hd).
  - iFrame "HN". iDestruct "Hcb" as "[Hk HR]". iIntros (rest k) "Hp HW". rewrite Nat.add_1_r. iDestruct (wins_submit with "HW") as "$".
    iMod (pin_owe with "Hp Hk") as "[$ Hk]"; [done|]. iModIntro. iSplitR; [by cbn [big_opL]; rewrite /FenceLogic.cb_res Hd|]. by iApply "HR".
  - iDestruct "Hcb" as "(%st & %dst & %l & %ls & %q & (%p & %l' & Hb & Ht & Ha & Hl & [_ %Hp]) & [%Hf %Hls] & Hlk & HR)".
    iDestruct "HN" as "[Hh HN]". iDestruct (hist_lb with "Hh Hl") as %Hpre%prefix_length. iFrame "Hh HN".
    iIntros (rest k) "(%m & Hm & %Hok) HW". rewrite Nat.add_1_r. iMod (wins_signal with "HW Hlk") as "($ & Hlk & He)"; [done|]. iModIntro.
    iSplitL "Hm"; [|iSplitR "Hlk HR"; [|iApply "HR"; by iExists _]].
    + iExists m. iFrame. iPureIntro. apply pins_ok_snoc; [done|]. intros e. by rewrite Hd.
    + cbn [big_opL]. rewrite /FenceLogic.cb_res Hd Nat.add_0_r. iSplitL; [|done]. iExists p, st, (val st), dst. iFrame. iPureIntro.
      specialize (Hlast Hf). unfold zlen in Hlast. lia.
Qed.

Lemma wp_submit n idx flags cb l m R Φ :
  held_tok n (Some (idx, flags)) -∗ prog_lb n l -∗ count_lb n m -∗ cb_pre n flags cb R -∗
  (∀ ck, ⌜0 < ck < 2 ^ 31⌝ -∗ (⌜flags ≠ 0⌝ → is_mark n l ck) -∗ sub_at n m ck -∗ R -∗ Φ ck) -∗
  wp n (do (tx_submit idx cb)) Φ.
Proof.
  iIntros "Ht #Hl #Hm Hcb HΦ". iApply wp_do. iIntros (w) "HS". iDestruct (SI_acc _ _ _ n with "HS") as "(HN & Ha & Hc)".
  iAssert ⌜held (dma (nd w n)) = Some (idx, flags)⌝%I as %Hh. { iDestruct "HN" as "[Hh _]". iApply (hist_held with "Hh Ht"). }
  iAssert ⌜(m <= length (subs (dma (nd w n))))%nat⌝%I as %Hm. { iDestruct "HN" as "[Hh _]". iApply (hist_count with "Hh Hm"). }
  iModIntro. iSplit; [iPureIntro; intros Hf; by apply (Hf flags)|]. iIntros (ck w' (flags' & Hh' & Hgap & Hn & -> & ->)).
  rewrite Hh in Hh'. injection Hh' as <-. iDestruct (NI_inv with "HN") as %(t & Ht & _).
  set (d := dma (nd w n)) in *. set (d' := submit d idx flags (encode_cb <$> cb)). set (s := sub_of d flags (encode_cb <$> cb)).
  destruct (submit_fields d idx flags (encode_cb <$> cb)) as (Eh & Er & Ep & Es & Ec). fold d' s in Eh, Er, Ep, Es, Ec.
  assert (inv d' t) as Ht'.
  { apply submit_inv; [done..|]. intros Hf. specialize (Hgap Hf). pose proof (i_bounds _ _ Ht). rewrite (i_tail _ _ Ht) (i_head _ _ Ht) in Hgap.
    destruct (Z.eq_dec t (zlen (DmaX200Sys.prog d))) as [->|]; [done|lia]. }
  assert (flags ≠ 0 → zlen (DmaX200Sys.prog d) <= s_last s) as Hlast.
  { intros Hf. unfold s, sub_of, DmaX200Sys.fence. cbn [s_last]. rewrite zlen_app. destruct (Z.eqb_spec flags 0); [done|].
    change (zlen [_]) with 1. lia. }
  assert (extends d d') as Hext by (split_and!; [by rewrite Ep; apply prefix_app_r|by rewrite Er|by rewrite Es; apply prefix_app_r]).
  iAssert ⌜l `prefix_of` DmaX200Sys.prog d⌝%I as %Hpre. { iDestruct "HN" as "[Hh _]". iApply (hist_lb with "Hh Hl"). }
  iDestruct (cb_new n _ flags cb s with "HN Hcb") as "[HN Hsubs]"; [done|exact Hlast|].
  iMod (dma_change n _ d' t [s] with "HN [] Hsubs") as "(Hh & HN & _ & _ & HR)"; [done|..].
  { rewrite Es zlen_app. exact Hn. }
  { exact Hext. } { by rewrite Ec. } { exact Es. } { iApply no_sigs. }
  pose proof (cookie_assign_range (ch d)) as Hr. unfold DMA_MIN_COOKIE in Hr.
  rewrite /hist_next Hh Eh. iMod ("Hh" with "Ht") as "Hh". iDestruct (hist_get with "Hh") as "#(_ & _ & Hs)".
  iDestruct ("HN" with "Hh") as "HN". iModIntro. iSplitL "Hc HN"; [by iApply "Hc"|].
  iApply ("HΦ" with "[] [] [] HR").
  - iPureIntro. lia.
  - iIntros (Hf). iExists (subs d'), (length (subs d)), s. iFrame "Hs Hl". iPureIntro. rewrite Es list_lookup_middle //. split_and!; [done..| |lia|lia].
    specialize (Hlast Hf). apply prefix_length in Hpre. unfold zlen in *. lia.
  - rewrite /FenceLogic.sub_at. case_decide; [done|]. iExists (subs d'), (length (subs d)), s. iFrame "Hs". iPureIntro.
    by rewrite Es list_lookup_middle.
Qed.

(** ** The pool *)

Lemma calls_pool n x : (calls n x : iProp Σ) ⊢ ghost_map_auth (g_pool (γ n)) 1 (pool x) ∗
  ∀ f, ghost_map_auth (g_pool (γ n)) 1 (f (pool x)) -∗ calls n (on_pool f x).
Proof.
  iIntros "(%k & Hk & Hr & Hp & (%σ & Hs & Ht & $ & Hm & Hσ) & HW & Ho)". iIntros (f) "Hpool". iExists k. iFrame "Hk Hr Hp HW Ho".
  iExists σ. iFrame.
Qed.

Lemma NI_pool n x : (NI n x : iProp Σ) ⊢ ghost_map_auth (g_pool (γ n)) 1 (pool x) ∗
  ∀ f, ghost_map_auth (g_pool (γ n)) 1 (f (pool x)) -∗ NI n (on_pool f x).
Proof.
  iIntros "($ & Hc & $)". iDestruct (calls_pool with "Hc") as "[$ Hc]". iIntros (f) "H". by iApply "Hc".
Qed.

Lemma wp_pool_alloc n Φ :
  (∀ r, (match r with Some a => ∃ st, block n a (DfracOwn 1) st ∗ ⌜0 <= a ∧ a + sizeof_scif_status < 2 ^ 48⌝%Z | None => True end) -∗ Φ r)
  ⊢ wp n (do pool_alloc) Φ.
Proof.
  iIntros "HΦ". iApply wp_do. iIntros (w) "HS !>". iSplit; [by iPureIntro; intros []|].
  iIntros (r w' [(-> & ->)|(a & st & -> & Ha & Hr1 & Hr2 & ->)]); [iModIntro; iFrame "HS"; by iApply "HΦ"|].
  iDestruct (SI_acc _ _ _ n with "HS") as "(HN & _ & Hc)". iDestruct (NI_pool with "HN") as "[Hp HN]".
  iMod (ghost_map_insert a st with "Hp") as "[Hp Hb]"; [done|]. iModIntro. iSplitR "HΦ Hb"; [iApply "Hc"; by iApply "HN"|].
  iApply "HΦ". iExists st. by iFrame.
Qed.

Lemma wp_pool_set n a st st' Φ : block n a (DfracOwn 1) st -∗ (block n a (DfracOwn 1) st' -∗ Φ tt) -∗ wp n (do (pool_set a st')) Φ.
Proof.
  iIntros "Hb HΦ". iApply wp_do. iIntros (w) "HS".
  iDestruct (SI_acc _ _ _ n with "HS") as "(HN & _ & Hc)". iDestruct (NI_pool with "HN") as "[Hp HN]".
  iDestruct (ghost_map_lookup with "Hp Hb") as %Ha. iModIntro. iSplit; [iPureIntro; by cbn; rewrite Ha|]. iIntros ([] w' ->).
  iMod (ghost_map_update st' with "Hp Hb") as "[Hp Hb]". iModIntro. iSplitR "HΦ Hb"; [iApply "Hc"; by iApply "HN"|]. by iApply "HΦ".
Qed.

Lemma wp_pool_free n a st Φ : block n a (DfracOwn 1) st -∗ Φ tt -∗ wp n (do (pool_free a)) Φ.
Proof.
  iIntros "Hb HΦ". iApply wp_do. iIntros (w) "HS".
  iDestruct (SI_acc _ _ _ n with "HS") as "(HN & _ & Hc)". iDestruct (NI_pool with "HN") as "[Hp HN]".
  iDestruct (ghost_map_lookup with "Hp Hb") as %Ha. iModIntro. iSplit; [iPureIntro; by cbn; rewrite Ha|]. iIntros ([] w' ->).
  iMod (ghost_map_delete with "Hp Hb") as "Hp". iModIntro. iSplitR "HΦ"; [iApply "Hc"; by iApply "HN"|done].
Qed.

(** ** Endpoints *)

(** The counts of a node, which an operation may change with its tokens. *)
Lemma NI_pins n x : (NI n x : iProp Σ) ⊢ ∃ rest, pins n x rest ∗ ∀ x',
  ⌜dma x' = dma x ∧ reads x' = reads x ∧ pool x' = pool x ∧ oops x' = oops x ∧ reqs x' = reqs x ∧ inbox x' = inbox x ∧
   fences x' = fences x ∧ live x' = live x ∧ ws x' = ws x⌝ -∗ pins n x' rest -∗ NI n x'.
Proof.
  iIntros "(Hh & (%k & %Hk & Hr & Hp & Hs & HW & %Ho) & Hpr)". iExists _. iFrame "Hp". iIntros (x' (E1 & E2 & E3 & E4 & E5 & E6 & E7 & E8 & E9)) "Hp".
  rewrite /FenceLogic.NI /FenceLogic.calls E1. iFrame "Hh". iSplitR "Hpr"; [|by iApply (proto_same with "Hpr")].
  iExists k. iFrame "Hp Hr". iSplit; [done|]. iSplitL "Hs"; [by iApply (sigs_same with "Hs")|]. iSplitL; [by iApply (wins_same with "HW")|].
  by rewrite E2 E1.
Qed.

(** Its windows. *)
Lemma NI_wins n x : (NI n x : iProp Σ) ⊢ ∃ k, let N := length (subs (dma x)) in wins n x N k ∗ count_lb n N ∗ ∀ x',
  ⌜dma x' = dma x ∧ reads x' = reads x ∧ pool x' = pool x ∧ reqs x' = reqs x ∧ inbox x' = inbox x ∧
   fences x' = fences x ∧ live x' = live x ∧ users x' = users x ∧ fence_refcount x' = fence_refcount x⌝ -∗ wins n x' N k -∗ NI n x'.
Proof.
  iIntros "(Hh & (%k & %Hk & Hr & Hp & Hs & HW & %Ho) & Hpr)". iExists k.
  rewrite length_drop. replace (k + (length (subs (dma x)) - k))%nat with (length (subs (dma x))) by lia. iFrame "HW".
  iDestruct (hist_get with "Hh") as "#(_ & _ & Hsl)". iSplitR; [by iApply subs_count|].
  iIntros (x' (E1 & E2 & E3 & E4 & E5 & E6 & E7 & E8 & E9)) "HW".
  rewrite /FenceLogic.NI /FenceLogic.calls E1. iFrame "Hh". iSplitR "Hpr"; [|by iApply (proto_same with "Hpr")].
  iExists k. rewrite /FenceLogic.cbs /FenceLogic.pins E7 E8 E9. iFrame "Hp Hr". iSplit; [done|]. iSplitL "Hs"; [by iApply (sigs_same with "Hs")|].
  rewrite length_drop. replace (k + (length (subs (dma x)) - k))%nat with (length (subs (dma x))) by lia. iFrame "HW". by rewrite E2 E1.
Qed.

Lemma NI_live n x ep k : NI n x -∗ pin n ep k -∗ ⌜ep ∈ live x⌝.
Proof. iIntros "HN Hk". iDestruct (NI_pins with "HN") as (rest) "[Hp _]". iApply (pin_live with "Hp Hk"). Qed.

Lemma wp_enter n ep Φ : (∀ r : bool, (if r then pin n ep KUser else True) -∗ Φ r) ⊢ wp n (do (enter ep)) Φ.
Proof.
  iIntros "HΦ". iApply wp_do. iIntros (w) "HS !>". iSplit; [by iPureIntro; intros []|].
  iIntros (r w' [(-> & _ & ->)|(-> & Hl & ->)]); [iModIntro; iFrame "HS"; by iApply "HΦ"|].
  iDestruct (SI_acc _ _ _ n with "HS") as "(HN & _ & Hc)". iDestruct (NI_pins with "HN") as (rest) "[Hp HN]".
  iMod (pin_enter with "Hp") as "[Hp Hk]"; [done|]. iModIntro. iSplitR "HΦ Hk"; [iApply "Hc"; by iApply "HN"|]. by iApply ("HΦ" $! true).
Qed.

Lemma wp_leave n ep Φ : pin n ep KUser -∗ Φ tt -∗ wp n (do (leave ep)) Φ.
Proof.
  iIntros "Hk HΦ". iApply wp_do. iIntros (w) "HS". iDestruct (SI_acc _ _ _ n with "HS") as "(HN & _ & Hc)".
  iDestruct (NI_live with "HN Hk") as %Hl. iModIntro. iSplit; [by iPureIntro; intros H|]. iIntros ([] w' ->).
  iDestruct (NI_pins with "HN") as (rest) "[Hp HN]". iMod (pin_leave with "Hp Hk") as "Hp". iModIntro.
  iSplitR "HΦ"; [iApply "Hc"; by iApply "HN"|done].
Qed.

Lemma wp_deref n ep k Φ : pin n ep k -∗ (pin n ep k -∗ Φ tt) -∗ wp n (do (deref ep)) Φ.
Proof.
  iIntros "Hk HΦ". iApply wp_do. iIntros (w) "HS". iAssert ⌜ep ∈ live (nd w n)⌝%I as %Hl.
  { iDestruct (SI_acc _ _ _ n with "HS") as "(HN & _ & Hc)". iApply (NI_live with "HN Hk"). }
  iModIntro. iSplit; [by iPureIntro; intros H|]. iIntros ([] w' ->). iModIntro. iFrame "HS". by iApply "HΦ".
Qed.

(** The reference of a mark that has been submitted. *)
Lemma wp_inc_mark n ep Φ : pin n ep KOwed -∗ (pin n ep KUser -∗ Φ tt) -∗ wp n (do (atomic_inc ep)) Φ.
Proof.
  iIntros "Hk HΦ". iApply wp_do. iIntros (w) "HS". iDestruct (SI_acc _ _ _ n with "HS") as "(HN & _ & Hc)".
  iDestruct (NI_live with "HN Hk") as %Hl. iModIntro. iSplit; [by iPureIntro; intros H|]. iIntros ([] w' ->).
  iDestruct (NI_pins with "HN") as (rest) "[Hp HN]". iMod (pin_pay with "Hp Hk") as "[Hp Hk]". iModIntro.
  iSplitR "HΦ Hk"; [iApply "Hc"; by iApply "HN"|by iApply "HΦ"].
Qed.

(** The reference of a queued request. *)
Lemma wp_inc_ref n ep Φ : pin n ep KUser -∗ (pin n ep KUser -∗ pin n ep KRef -∗ Φ tt) -∗ wp n (do (atomic_inc ep)) Φ.
Proof.
  iIntros "Hk HΦ". iApply wp_do. iIntros (w) "HS". iDestruct (SI_acc _ _ _ n with "HS") as "(HN & _ & Hc)".
  iDestruct (NI_live with "HN Hk") as %Hl. iModIntro. iSplit; [by iPureIntro; intros H|]. iIntros ([] w' ->).
  iDestruct (NI_pins with "HN") as (rest) "[Hp HN]". iMod (pin_ref with "Hp") as "[Hp Hr]"; [done|]. iModIntro.
  iSplitR "HΦ Hk Hr"; [iApply "Hc"; by iApply "HN"|by iApply ("HΦ" with "Hk Hr")].
Qed.

Lemma wp_sub n ep Φ : pin n ep KRef -∗ (∀ r, Φ r) -∗ wp n (do (atomic_sub_return ep)) Φ.
Proof.
  iIntros "Hk HΦ". iApply wp_do. iIntros (w) "HS". iDestruct (SI_acc _ _ _ n with "HS") as "(HN & _ & Hc)".
  iDestruct (NI_live with "HN Hk") as %Hl. iModIntro. iSplit; [by iPureIntro; intros H|]. iIntros (r w' [_ ->]).
  iDestruct (NI_pins with "HN") as (rest) "[Hp HN]". iMod (pin_unref with "Hp Hk") as "Hp". iModIntro.
  iSplitR "HΦ"; [iApply "Hc"; by iApply "HN"|done].
Qed.

(** ** Windows *)

End Rules.
End FenceRules.
