(* ===== verification/FenceLock.v ===== *)
(** * The rules of locks and windows

    For the operations of [FenceProg] on [rma_lock], the lists of windows and the queue of
    windows to be destroyed, what a thread needs to hold and what it gets. *)
From iris.algebra Require Import lib.mono_list.
From iris.proofmode Require Import proofmode.
From iris.base_logic.lib Require Import own ghost_map ghost_var mono_nat.
From S2P Require Import Prelude RmaList DmaWindow DmaX200 DmaX200Inv DmaX200Sys FenceProg ScifFence FenceLogic FenceDma FenceWins FenceRules.
Local Open Scope Z_scope.

Module FenceLock.
Import DmaX200 DmaX200Inv DmaX200Sys FenceProg FenceLogic FenceDma FenceWins FenceRules.

Section Rules.
Context `{!fenceG Σ}.
Context (γ : bool → names).
Context (conn : bool → Z → bool * Z).
Implicit Types (n : bool) (x : node) (w : world).

#[local] Notation NI := (NI γ conn).
#[local] Notation SI := (SI γ conn).
#[local] Notation wp := (wp γ conn).
#[local] Notation pin := (pin γ).
#[local] Notation wins := (wins γ).
#[local] Notation lock_tok := (lock_tok γ).
#[local] Notation tw_tok := (tw_tok γ).
#[local] Notation count_lb := (count_lb γ).
#[local] Notation called_lb := (called_lb γ).
#[local] Notation hung_lb := (hung_lb γ).

(** A change of the windows of a node. *)
Lemma NI_update n x f R : NI n x -∗
  (∀ N k, count_lb n N -∗ wins n x N k ==∗ wins n (on_ws f x) N k ∗ R) ==∗ NI n (on_ws f x) ∗ R.
Proof.
  iIntros "HN HR". iDestruct (NI_wins with "HN") as (k) "(HW & #Hm & HN)". iMod ("HR" with "Hm HW") as "[HW $]".
  iModIntro. by iApply ("HN" $! (on_ws f x) with "[//] HW").
Qed.

(** An operation on them, of a thread that holds [P]. *)
Lemma wp_windows n (o : op ()) f (P R : iProp Σ) (Φ : () → iProp Σ) :
  (∀ w w', do_op n o w tt w' → w' = upd n (on_ws f) w) → (∀ w, NI n (nd w n) -∗ P -∗ ⌜¬ fault n o w⌝) →
  P -∗ (∀ w w', ⌜do_op n o w tt w'⌝ → ∀ N k, P -∗ count_lb n N -∗ wins n (nd w n) N k ==∗ wins n (on_ws f (nd w n)) N k ∗ R) -∗
  (R -∗ Φ tt) -∗ wp n (do o) Φ.
Proof.
  iIntros (Hd Hf) "HP Hstep HΦ". iApply wp_do. iIntros (w) "HS". iDestruct (SI_acc _ _ _ n with "HS") as "(HN & _ & Hc)".
  iDestruct (Hf with "HN HP") as %Hnf. iModIntro. iSplit; [done|]. iIntros ([] w' Hop). specialize (Hd _ _ Hop) as ->.
  iMod (NI_update with "HN [Hstep HP]") as "[HN HR]"; [iIntros (N k) "HN HW"; by iApply ("Hstep" with "[//] HP HN HW")|].
  iModIntro. iSplitR "HR HΦ"; [by iApply "Hc"|by iApply "HΦ"].
Qed.

Lemma wp_lock n ep k Φ : pin n ep k -∗ (∀ ls p, pin n ep k -∗ lock_tok n ep ls p -∗ count_lb n p -∗ Φ tt) -∗ wp n (do (lock ep)) Φ.
Proof.
  iIntros "Hk HΦ".
  iApply (wp_windows _ _ (on_locked ({[ ep ]} ∪.)) _ (pin n ep k ∗ ∃ ls p, lock_tok n ep ls p ∗ count_lb n p) with "Hk []").
  - by intros w w' [_ ->].
  - iIntros (w) "HN Hk". iDestruct (NI_live with "HN Hk") as %Hl. by iPureIntro; intros H.
  - iIntros (w w' [Hn _] N j) "$ #HN HW". iMod (wins_lock with "HW") as "[$ Hl]"; [done|]. iModIntro. iExists _, N. by iFrame.
  - iIntros "(Hk & %ls & %p & Hl & Hp)". by iApply ("HΦ" with "Hk Hl Hp").
Qed.

Lemma wp_unlock n ep k ls p Φ : pin n ep k -∗ lock_tok n ep ls p -∗ (pin n ep k -∗ Φ tt) -∗ wp n (do (unlock ep)) Φ.
Proof.
  iIntros "Hk Hl HΦ".
  iApply (wp_windows _ _ (on_locked (.∖ {[ ep ]})) (pin n ep k ∗ lock_tok n ep ls p) (pin n ep k) with "[$] [] HΦ").
  - by intros w w' ->.
  - iIntros (w) "HN [Hk _]". iDestruct (NI_live with "HN Hk") as %Hlv. by iPureIntro; intros H.
  - iIntros (w w' _ N j) "[$ Hl] _ HW". by iMod (wins_unlock with "HW Hl") as "$".
Qed.

Lemma wp_list_del n ep k ls p a Φ : pin n ep k -∗ lock_tok n ep ls p -∗ called_lb n p ∨ hung_lb n -∗
  (∀ ls', pin n ep k -∗ lock_tok n ep ls' p -∗ Φ tt) -∗ wp n (do (list_del ep a)) Φ.
Proof.
  iIntros "Hk Hl Hp HΦ".
  iApply (wp_windows _ _ (on_info ep (fun i => set_list false (without a (remote_list i)) i))
    (pin n ep k ∗ lock_tok n ep ls p ∗ (called_lb n p ∨ hung_lb n)) (pin n ep k ∗ ∃ ls', lock_tok n ep ls' p) with "[$Hk $Hl $Hp] []").
  - by intros w w' ->.
  - iIntros (w) "HN [Hk _]". iDestruct (NI_live with "HN Hk") as %Hlv. by iPureIntro; intros H.
  - iIntros (w w' _ N j) "($ & Hl & Hp) _ HW". by iMod (wins_list_del with "HW Hl Hp") as "[$ $]".
  - iIntros "[Hk [%ls' Hl]]". by iApply ("HΦ" with "Hk Hl").
Qed.

Lemma wp_drain_failed n Φ : (hung_lb n -∗ Φ tt) ⊢ wp n (do drain_failed) Φ.
Proof.
  iIntros "HΦ". iApply (wp_windows _ _ set_hung True with "[//] [] HΦ").
  - by intros w w' ->.
  - iIntros (w) "_ _". by iPureIntro; intros [].
  - iIntros (w w' _ N j) "_ _ HW". by iMod (wins_hung with "HW") as "[$ $]".
Qed.

(** A list is looked at under the lock. *)
Lemma wp_reg_list n ep self k ls p Φ : pin n ep k -∗ lock_tok n ep ls p -∗
  (∀ l, ⌜windows_ok l ∧ (l ≠ [] → ls ≠ ([], []))⌝ -∗ seen_at γ n (ep, self, l) -∗ pin n ep k -∗ lock_tok n ep ls p -∗ Φ l) -∗
  wp n (do (reg_list ep self)) Φ.
Proof.
  iIntros "Hk Hl HΦ". iApply wp_do. iIntros (w) "HS". iDestruct (SI_acc _ _ _ n with "HS") as "(HN & _ & Hc)".
  iDestruct (NI_live with "HN Hk") as %Hlv. iModIntro. iSplit; [by iPureIntro; intros H|]. iIntros (l w' [-> ->]).
  iDestruct (NI_wins with "HN") as (j) "(HW & _ & HN)". iDestruct (wins_lists with "HW Hl") as %->.
  iDestruct (wins_windows _ _ _ _ _ ep self with "HW") as %Hok. iMod (wins_look with "HW") as "[HW Hs]".
  iModIntro. iSplitR "HΦ Hk Hl Hs"; [iApply ("Hc" $! (on_ws (look ep self))); by iApply ("HN" $! (on_ws (look ep self) (nd w n)) with "[//] HW")|]. iApply ("HΦ" with "[] Hs Hk Hl").
  iPureIntro. split; [done|]. intros Hl [= H1 H2]. apply Hl. destruct self; done.
Qed.

(** The queue of windows to be destroyed. *)
Lemma wp_next_window n Φ : (∀ r, (if r is Some ep then ∃ p, tw_tok n ep p else True) -∗ Φ r) ⊢ wp n (do next_window) Φ.
Proof.
  iIntros "HΦ". iApply wp_do. iIntros (w) "HS".
  iAssert ⌜¬ fault n next_window w⌝%I as %Hf.
  { iIntros ((ep & q & Eq & Hn)). iDestruct (SI_acc _ _ _ n with "HS") as "(HN & _ & _)". iDestruct (NI_wins with "HN") as (k) "(HW & _ & _)".
    iDestruct (wins_next _ _ _ _ _ _ _ Eq with "HW") as "[HW [%p Ht]]". iDestruct (wins_tw_live with "HW Ht") as %Hl. by iPureIntro. }
  iModIntro. iSplit; [done|]. iIntros (r w' [(-> & _ & ->)|(ep & q & -> & Eq & ->)]); [iModIntro; iFrame "HS"; by iApply ("HΦ" $! None)|].
  iDestruct (SI_acc _ _ _ n with "HS") as "(HN & _ & Hc)". iDestruct (NI_wins with "HN") as (k) "(HW & _ & HN)".
  iDestruct (wins_next _ _ _ _ _ _ _ Eq with "HW") as "[HW Ht]". iModIntro. iSplitR "HΦ Ht"; [|by iApply ("HΦ" $! (Some ep))].
  iApply ("Hc" $! (on_ws (on_queue (fun _ => q)))). by iApply ("HN" $! (on_ws (on_queue (fun _ => q)) (nd w n)) with "[//] HW").
Qed.

(** A window that is being destroyed keeps its endpoint. *)
Lemma wp_deref_tw n ep p Φ : tw_tok n ep p -∗ (tw_tok n ep p -∗ Φ tt) -∗ wp n (do (deref ep)) Φ.
Proof.
  iIntros "Ht HΦ". iApply wp_do. iIntros (w) "HS". iAssert ⌜ep ∈ live (nd w n)⌝%I as %Hl.
  { iDestruct (SI_acc _ _ _ n with "HS") as "(HN & _ & _)". iDestruct (NI_wins with "HN") as (k) "(HW & _ & _)". iApply (wins_tw_live with "HW Ht"). }
  iModIntro. iSplit; [by iPureIntro; intros H|]. iIntros ([] w' ->). iModIntro. iFrame "HS". by iApply "HΦ".
Qed.

Lemma wp_tw_dec n ep p Φ : tw_tok n ep p -∗ called_lb n p ∨ hung_lb n -∗ Φ tt -∗ wp n (do (atomic_dec_tw ep)) Φ.
Proof.
  iIntros "Ht Hp HΦ".
  iApply (wp_windows _ _ (on_info ep (add_tw (-1))) (tw_tok n ep p ∗ (called_lb n p ∨ hung_lb n)) True with "[$Ht $Hp] [] [HΦ]").
  - by intros w w' ->.
  - iIntros (w) "HN [Ht _]". iDestruct (NI_wins with "HN") as (k) "(HW & _ & _)". iDestruct (wins_tw_live with "HW Ht") as %Hl.
    by iPureIntro; intros H.
  - iIntros (w w' _ N j) "[Ht Hp] _ HW". by iMod (wins_tw_dec with "HW Ht Hp") as "$".
  - by iIntros "_".
Qed.

Lemma wp_is_alive n Φ : Φ true ⊢ wp n (do is_alive) Φ.
Proof.
  iIntros "HΦ". iApply wp_do. iIntros (w) "HS". iAssert ⌜alive w = true⌝%I as %Ha. { by iDestruct (SI_acc _ _ _ n with "HS") as "(_ & %Ha & _)". }
  iModIntro. iSplit; [by iPureIntro; intros []|]. iIntros (b w' [-> ->]). iModIntro. rewrite Ha. by iFrame.
Qed.

(** What other code does to windows; the clean-up of an endpoint. *)
Lemma rma_NI n x W : rma_step (live x) (ws x) W → NI n x ==∗ NI n (on_ws (fun _ => W) x).
Proof.
  iIntros (Hst) "HN". iMod (NI_update n x (fun _ => W) True with "HN []") as "[$ _]"; [|done].
  iIntros (N k) "HN HW". by iMod (wins_rma with "HN HW") as "$".
Qed.

End Rules.
End FenceLock.
