(* ===== verification/FenceMsg.v ===== *)
(** * The rules of requests and messages

    The rules of the operations of [FenceProg] on fence requests, messages and the queue of
    remote fences, and of those that have no part in the state. *)
From iris.algebra Require Import lib.mono_list.
From iris.proofmode Require Import proofmode.
From iris.base_logic.lib Require Import own ghost_map ghost_var mono_nat.
From S2P Require Import Prelude RmaList DmaWindow DmaX200 DmaX200Inv DmaX200Sys FenceProg ScifFence FenceLogic FenceDma FenceWins FenceRules.
Local Open Scope Z_scope.

Module FenceMsg.
Import DmaX200 DmaX200Inv DmaX200Sys FenceProg FenceLogic FenceDma FenceWins FenceRules.

Section Rules.
Context `{!fenceG Σ}.
Context (γ : bool → names).
Context (conn : bool → Z → bool * Z).
Implicit Types (n : bool) (x : node) (w : world).

#[local] Notation NI := (NI γ conn).
#[local] Notation SI := (SI γ conn).
#[local] Notation wp := (wp γ conn).
#[local] Notation proto := (proto γ conn).
#[local] Notation pins := (pins γ).
#[local] Notation pin := (pin γ).
#[local] Notation req := (req γ).
#[local] Notation spec := (spec γ).
#[local] Notation result := (result γ conn).
#[local] Notation msg_res := (msg_res γ conn).
#[local] Notation fence_res := (fence_res γ conn).

Lemma NI_proto n x : (NI n x : iProp Σ) ⊢ proto n x ∗ ∀ x',
  ⌜dma x' = dma x ∧ reads x' = reads x ∧ pool x' = pool x ∧ oops x' = oops x ∧ fence_refcount x' = fence_refcount x ∧
   users x' = users x ∧ live x' = live x ∧ ws x' = ws x⌝ -∗ proto n x' -∗ NI n x'.
Proof.
  iIntros "(Hh & (%k & %Hk & Hr & Hp & Hs & HW & %Ho) & $)". iIntros (x' (E1 & E2 & E3 & E4 & E5 & E6 & E7 & E8)) "Hpr".
  rewrite /FenceLogic.NI /FenceLogic.calls E1. iFrame "Hh Hpr". iExists k. iSplit; [done|].
  rewrite /FenceLogic.cbs /FenceLogic.pins E5 E6 E7 E2 E1. iFrame "Hr Hp". iSplitL "Hs"; [by iApply (sigs_same with "Hs")|].
  iSplitL; [by iApply (wins_same with "HW")|done].
Qed.

(** ** Requests *)

Lemma wp_kmalloc_req n s Φ :
  (∀ r, (match r with Some a => ∃ i, req n a i ∗ spec n a s ∗ spec n a s ∗ ⌜comp i = false⌝ | None => True end) -∗ Φ r)
  ⊢ wp n (do kmalloc_req) Φ.
Proof.
  iIntros "HΦ". iApply wp_do. iIntros (w) "HS !>". iSplit; [by iPureIntro; intros []|].
  iIntros (r w' [(-> & ->)|(a & i & -> & Ha & ->)]); [iModIntro; iFrame "HS"; by iApply "HΦ"|].
  iDestruct (SI_acc _ _ _ n with "HS") as "(HN & _ & Hc)".
  iDestruct (NI_proto with "HN") as "[(Hr & (%S & HS & %HS) & Hb & Hi & Hf & %Hl) HN]".
  iMod (ghost_map_insert a (FenceInfo i false 0) with "Hr") as "[Hr Hreq]"; [done|].
  iMod (ghost_map_insert a s with "HS") as "[HS [Hs1 Hs2]]"; [by apply not_elem_of_dom; rewrite HS; apply not_elem_of_dom|].
  iModIntro. iSplitR "HΦ Hreq Hs1 Hs2".
  - iApply "Hc". iApply "HN"; [done|]. rewrite /FenceLogic.proto. cbn [reqs on_reqs inbox fences live]. iFrame "Hr Hi Hf". iSplitL "HS".
    + iExists _. iFrame. iPureIntro. by rewrite !dom_insert_L HS.
    + iSplit; [|done]. rewrite big_sepM_insert //. by iFrame.
  - iApply "HΦ". iExists _. by iFrame.
Qed.

Lemma proto_req n x r i : proto n x -∗ req n r i -∗ ⌜reqs x !! r = Some i⌝.
Proof. iIntros "(Hr & _) H". iApply (ghost_map_lookup with "Hr H"). Qed.

Lemma NI_req n x r i : NI n x -∗ req n r i -∗ ⌜reqs x !! r = Some i⌝.
Proof. iIntros "HN H". iDestruct (NI_proto with "HN") as "[Hp _]". iApply (proto_req with "Hp H"). Qed.

(** The owner of a request writes it; with [back] it signals its completion. *)
Lemma wp_write n r i f Φ : req n r i -∗ (if comp (f i) then ∃ s, spec n r s ∗ pin n (q_ep s) KUser ∗ result n s (f i) ∗
    ⌜state (f i) = OP_COMPLETED ∨ state (f i) = OP_FAILED⌝ else True) -∗
  ((if comp (f i) then True else req n r (f i)) -∗ Φ tt) -∗ wp n (do (write_req r f)) Φ.
Proof.
  iIntros "Hreq Hback HΦ". iApply wp_do. iIntros (w) "HS". iDestruct (SI_acc _ _ _ n with "HS") as "(HN & _ & Hc)".
  iDestruct (NI_req with "HN Hreq") as %Hi. iModIntro. iSplit; [iPureIntro; by cbn; rewrite Hi|]. iIntros ([] w' ->).
  iDestruct (NI_proto with "HN") as "[(Hr & (%S & HS & %HS) & Hb & Hi & Hf & %Hl) HN]".
  iMod (ghost_map_update (f i) with "Hr Hreq") as "[Hr Hreq]".
  iDestruct (big_sepM_insert_acc with "Hb") as "[_ Hb]"; [exact Hi|].
  assert (alter f r (reqs (nd w n)) = <[r := f i]> (reqs (nd w n))) as Ea.
  { apply map_eq. intros j. destruct (decide (j = r)) as [->|Hj]; [by rewrite lookup_alter_eq lookup_insert_eq Hi|].
    by rewrite lookup_alter_ne // lookup_insert_ne. }
  iAssert ((if comp (f i) then req_back γ conn n r (f i) else True) ∗ (if comp (f i) then True else req n r (f i)))%I
    with "[Hreq Hback]" as "[H1 H2]".
  { destruct (comp (f i)); [|by iFrame]. iSplit; [|done]. iDestruct "Hback" as (s) "Hback". iExists s. iFrame. }
  iModIntro. iSplitR "HΦ H2"; [|by iApply "HΦ"]. iApply "Hc". iApply "HN"; [done|].
  rewrite /FenceLogic.proto. cbn [reqs on_reqs inbox fences live]. rewrite Ea. iFrame "Hr Hi Hf". iSplitL "HS".
  - iExists S. iFrame. iPureIntro. rewrite dom_insert_L HS. apply elem_of_dom_2 in Hi. set_solver.
  - iSplit; [|done]. by iApply "Hb".
Qed.

(** The owner of a request that nobody works on gives it another goal. *)
Lemma NI_spec n x r s s' : NI n x -∗ spec n r s -∗ spec n r s ==∗ NI n x ∗ spec n r s' ∗ spec n r s'.
Proof.
  iIntros "HN Hs1 Hs2". iCombine "Hs1 Hs2" as "Hs". iDestruct (NI_proto with "HN") as "[(Hr & (%S & HS & %HS) & Hp) HN]".
  iDestruct (ghost_map_lookup with "HS Hs") as %Hl. iMod (ghost_map_update s' with "HS Hs") as "[HS [$ $]]". iModIntro.
  iApply "HN"; [done|]. iFrame "Hr Hp". iExists _. iFrame "HS". iPureIntro. rewrite dom_insert_L HS.
  apply elem_of_dom_2 in Hl. rewrite HS in Hl. set_solver.
Qed.

Lemma wp_write_spec n r i f s s' Φ : comp (f i) = false → req n r i -∗ spec n r s -∗ spec n r s -∗
  (req n r (f i) -∗ spec n r s' -∗ spec n r s' -∗ Φ tt) -∗ wp n (do (write_req r f)) Φ.
Proof.
  iIntros (Hf) "Hreq Hs1 Hs2 HΦ". iApply (wp_change with "[Hs1 Hs2]").
  { iIntros (w) "HS". iDestruct (SI_ghost _ _ _ n with "HS") as "(HN & Hc)". iMod (NI_spec _ _ _ _ s' with "HN Hs1 Hs2") as "(HN & H)".
    iModIntro. iSplitR "H"; [by iApply "Hc"|iExact "H"]. }
  iIntros "[Hs1 Hs2]". iApply (wp_write with "Hreq []"); rewrite Hf; [done|]. iIntros "Hreq". iApply ("HΦ" with "Hreq Hs1 Hs2").
Qed.

Lemma wp_read n r i Φ : req n r i -∗ (req n r i -∗ Φ i) -∗ wp n (do (read_req r)) Φ.
Proof.
  iIntros "Hreq HΦ". iApply wp_do. iIntros (w) "HS". iAssert ⌜reqs (nd w n) !! r = Some i⌝%I as %Hi.
  { iDestruct (SI_acc _ _ _ n with "HS") as "(HN & _ & Hc)". iApply (NI_req with "HN Hreq"). }
  iModIntro. iSplit; [iPureIntro; by cbn; rewrite Hi|]. iIntros (i' w' [Hi' ->]). rewrite Hi in Hi'. injection Hi' as <-.
  iModIntro. iFrame "HS". by iApply "HΦ".
Qed.

Lemma wp_kfree n r i s Φ : req n r i -∗ spec n r s -∗ spec n r s -∗ Φ tt -∗ wp n (do (kfree_req r)) Φ.
Proof.
  iIntros "Hreq Hs1 Hs2 HΦ". iApply wp_do. iIntros (w) "HS". iDestruct (SI_acc _ _ _ n with "HS") as "(HN & _ & Hc)".
  iDestruct (NI_req with "HN Hreq") as %Hi. iModIntro. iSplit; [iPureIntro; by cbn; rewrite Hi|]. iIntros ([] w' ->).
  iDestruct (NI_proto with "HN") as "[(Hr & (%S & HS & %HS) & Hb & Hi & Hf & %Hl) HN]". iCombine "Hs1 Hs2" as "Hs".
  iMod (ghost_map_delete with "Hr Hreq") as "Hr". iMod (ghost_map_delete with "HS Hs") as "HS".
  iDestruct (big_sepM_delete with "Hb") as "[_ Hb]"; [exact Hi|].
  iModIntro. iSplitR "HΦ"; [|done]. iApply "Hc". iApply "HN"; [done|].
  rewrite /FenceLogic.proto. cbn [reqs on_reqs inbox fences live]. iFrame "Hr Hi Hf Hb". iSplitL "HS"; [|done].
  iExists _. iFrame. iPureIntro. by rewrite !dom_delete_L HS.
Qed.

(** The wait for the answer, while the peer is alive. *)
Lemma wp_wait_comp n r s Φ : spec n r s -∗
  (∀ i, req n r i -∗ spec n r s -∗ spec n r s -∗ pin n (q_ep s) KUser -∗ result n s i -∗
     ⌜comp i = false ∧ (state i = OP_COMPLETED ∨ state i = OP_FAILED)⌝ -∗ Φ true) -∗
  wp n (do (wait_comp r)) Φ.
Proof.
  iIntros "Hs HΦ". iApply wp_do. iIntros (w) "HS". iDestruct (SI_acc _ _ _ n with "HS") as "(HN & %Ha & Hc)".
  iDestruct (NI_proto with "HN") as "[(Hr & (%S & HS & %HS) & Hb & Hi & Hf & %Hl) HN]".
  iDestruct (ghost_map_lookup with "HS Hs") as %Hs. apply elem_of_dom_2 in Hs as Hd. rewrite HS in Hd. apply elem_of_dom in Hd as [i Hi].
  iModIntro. iSplit; [iPureIntro; by cbn; rewrite Hi|]. iIntros (b w' (i' & Hi' & Hcase)). rewrite Hi in Hi'. injection Hi' as <-.
  destruct Hcase as [(-> & Hcomp & ->)|(_ & _ & Hdead & _)]; [|congruence].
  iDestruct (big_sepM_insert_acc with "Hb") as "[Hback Hb]"; [exact Hi|]. rewrite Hcomp.
  iDestruct "Hback" as "(%s' & Hreq & Hs' & Hpin & Hres & %Hst)". iDestruct (ghost_map_elem_agree with "Hs Hs'") as %<-.
  iMod (ghost_map_update (FenceInfo (state i) false (dma_mark i)) with "Hr Hreq") as "[Hr Hreq]".
  iModIntro. iSplitR "HΦ Hreq Hs Hs' Hpin Hres".
  - iApply "Hc". iApply "HN"; [done|]. rewrite /FenceLogic.proto. cbn [reqs on_reqs inbox fences live]. iFrame "Hr Hi Hf".
    iSplitL "HS"; [|iSplit; [|done]; by iApply ("Hb" $! (FenceInfo (state i) false (dma_mark i)))]. iExists S. iFrame. iPureIntro.
    rewrite dom_insert_L HS. apply elem_of_dom_2 in Hi. set_solver.
  - iApply ("HΦ" with "Hreq Hs Hs' Hpin [Hres] []"); [|done]. rewrite /FenceLogic.result. destruct (conn n (q_ep s)), (q_goal s) as [l|[l|]|]; done.
Qed.

(** ** Messages *)

Lemma NI_inbox n x m l : inbox x = m :: l → NI n x -∗ ⌜payload0 m ∈ live x⌝.
Proof.
  iIntros (E) "HN". iDestruct (NI_proto with "HN") as "[(_ & _ & _ & _ & _ & %Hl) _]". iPureIntro. apply Hl. rewrite E. by left.
Qed.

Lemma wp_next_msg n Φ : (∀ m, msg_res n m -∗ pin n (payload0 m) KUser -∗ Φ m) ⊢ wp n (do next_msg) Φ.
Proof.
  iIntros "HΦ". iApply wp_do. iIntros (w) "HS". iAssert ⌜∀ m l, inbox (nd w n) = m :: l → payload0 m ∈ live (nd w n)⌝%I as %Hlive.
  { iDestruct (SI_acc _ _ _ n with "HS") as "(HN & _ & Hc)". iIntros (m l E). by iApply (NI_inbox with "HN"). }
  iModIntro. iSplit; [iPureIntro; intros (m & l & E & Hn); by apply Hn, (Hlive m l)|]. iIntros (m w' (l & E & ->)).
  iDestruct (SI_acc _ _ _ n with "HS") as "(HN & _ & Hc)".
  iDestruct (NI_proto with "HN") as "[(Hr & HS & Hb & Hi & Hf & %Hl) HN]". rewrite E. iDestruct "Hi" as "[Hm Hi]".
  iAssert (NI n (on_inbox (fun _ => l) (nd w n))) with "[Hr HS Hb Hi Hf HN]" as "HN".
  { iApply "HN"; [done|]. rewrite /FenceLogic.proto. cbn [reqs on_inbox inbox fences live]. iFrame. iPureIntro. intros m' Hm'. apply Hl.
    rewrite E. by right. }
  iDestruct (NI_pins with "HN") as (rest) "[Hp HN]". iMod (pin_enter _ _ _ _ (payload0 m) with "Hp") as "[Hp Hk]"; [by apply (Hlive m l)|].
  iModIntro. iSplitR "HΦ Hm Hk"; [|by iApply ("HΦ" with "Hm Hk")].
  iApply ("Hc" $! (fun x => on_users (add (payload0 m) 1) (on_inbox (fun _ => l) x))). by iApply "HN".
Qed.

Lemma send_NI n x m : payload0 m ∈ live x → NI n x -∗ msg_res n m -∗ NI n (on_inbox (.++ [m]) x).
Proof.
  iIntros (Hlm) "HN Hm". iDestruct (NI_proto with "HN") as "[(Hr & HS & Hb & Hi & Hf & %Hl) HN]". iApply "HN"; [done|].
  rewrite /FenceLogic.proto. cbn [reqs on_inbox inbox fences live]. iFrame "Hr HS Hb Hf". rewrite big_sepL_app. iFrame. iSplit; [done|].
  iPureIntro. intros m' [H| ->%list_elem_of_singleton]%elem_of_app; [by apply Hl|done].
Qed.

(** An answer, to an endpoint whose call waits for it. *)
Lemma wp_send n m to Φ : (msg_res to m ⊢ pin to (payload0 m) KUser ∗ True) → msg_res to m -∗ Φ tt -∗ wp n (do (send m to)) Φ.
Proof.
  iIntros (Hpin) "Hm HΦ". iApply wp_do. iIntros (w) "HS". iAssert ⌜payload0 m ∈ live (nd w to)⌝%I as %Hl.
  { iDestruct (SI_acc _ _ _ to with "HS") as "(HN & _ & Hc)". rewrite Hpin. iDestruct "Hm" as "[Hk _]". iApply (NI_live with "HN Hk"). }
  iModIntro. iSplit; [iPureIntro; by intros H|]. iIntros ([] w' [->| ->]); [iModIntro; by iFrame|].
  iDestruct (SI_acc _ _ _ to with "HS") as "(HN & _ & Hc)". iModIntro. iFrame "HΦ". iApply "Hc". by iApply (send_NI with "HN Hm").
Qed.

Lemma wp_send_connected n m to Φ : msg_res to m -∗
  (∀ r, (if decide (r = 0) then True else msg_res to m) -∗ ⌜r ≤ 0⌝ -∗ Φ r) -∗ wp n (do (send_connected m to)) Φ.
Proof.
  iIntros "Hm HΦ". iApply wp_do. iIntros (w) "HS !>". iSplit; [by iPureIntro; intros []|].
  iIntros (r w' [(-> & Hl & ->)|(Hr & ->)]).
  - iDestruct (SI_acc _ _ _ to with "HS") as "(HN & _ & Hc)". iModIntro. iSplitR "HΦ"; [iApply "Hc"; by iApply (send_NI with "HN Hm")|].
    by iApply "HΦ".
  - iModIntro. iFrame "HS". iApply ("HΦ" with "[Hm]"); [|iPureIntro; destruct Hr as [->| ->]; done].
    by destruct Hr as [->| ->].
Qed.

(** ** The queue of remote fences *)

Lemma wp_fence_add n m Φ : fence_res n m -∗ Φ tt -∗ wp n (do (fence_add m)) Φ.
Proof.
  iIntros "Hm HΦ". iApply wp_do. iIntros (w) "HS !>". iSplit; [by iPureIntro; intros []|]. iIntros ([] w' ->).
  iDestruct (SI_acc _ _ _ n with "HS") as "(HN & _ & Hc)".
  iDestruct (NI_proto with "HN") as "[(Hr & HS & Hb & Hi & Hf & Hl) HN]". iModIntro. iFrame "HΦ". iApply "Hc". iApply "HN"; [done|].
  rewrite /FenceLogic.proto. cbn [reqs on_fences inbox fences live]. iFrame "Hr HS Hb Hi Hl". rewrite big_sepL_app. by iFrame.
Qed.

Lemma wp_take_fences n Φ : (∀ l, ([∗ list] m ∈ l, fence_res n m) -∗ Φ l) ⊢ wp n (do take_fences) Φ.
Proof.
  iIntros "HΦ". iApply wp_do. iIntros (w) "HS !>". iSplit; [by iPureIntro; intros []|]. iIntros (l w' [-> ->]).
  iDestruct (SI_acc _ _ _ n with "HS") as "(HN & _ & Hc)".
  iDestruct (NI_proto with "HN") as "[(Hr & HS & Hb & Hi & Hf & Hl) HN]". iModIntro. iSplitR "HΦ Hf"; [|by iApply "HΦ"].
  iApply "Hc". iApply "HN"; [done|]. rewrite /FenceLogic.proto. cbn [reqs on_fences inbox fences live]. by iFrame.
Qed.

(** ** The rest *)

Lemma wp_new_completion n Φ : (∀ c, Φ c) ⊢ wp n (do new_completion) Φ.
Proof.
  iIntros "HΦ". iApply wp_do. iIntros (w) "HS !>". iSplit; [by iPureIntro; intros []|]. iIntros (c w' [_ ->]). iModIntro. by iFrame.
Qed.

Lemma wp_wait_done n c Φ : Φ tt ⊢ wp n (do (wait_done c)) Φ.
Proof.
  iIntros "HΦ". iApply wp_do. iIntros (w) "HS !>". iSplit; [by iPureIntro; intros []|]. iIntros ([] w' [_ ->]).
  iDestruct (SI_acc _ _ _ n with "HS") as "(HN & _ & Hc)". iDestruct (NI_proto with "HN") as "[Hp HN]". iModIntro. iFrame "HΦ".
  iApply "Hc". by iApply "HN".
Qed.

Lemma wp_store n va v Φ : Φ tt ⊢ wp n (do (store va v)) Φ.
Proof.
  iIntros "HΦ". iApply wp_do. iIntros (w) "HS !>". iSplit; [by iPureIntro; intros []|]. iIntros ([] w' ->).
  iDestruct (SI_acc _ _ _ n with "HS") as "(HN & _ & Hc)". iDestruct (NI_proto with "HN") as "[Hp HN]". iModIntro. iFrame "HΦ".
  iApply "Hc". by iApply "HN".
Qed.

Lemma wp_peer_window n a Φ : (∀ d, Φ d) ⊢ wp n (do (peer_window a)) Φ.
Proof.
  iIntros "HΦ". iApply wp_do. iIntros (w) "HS !>". iSplit; [by iPureIntro; intros []|]. iIntros (l w' ->). iModIntro. by iFrame.
Qed.

Lemma wp_choose n P Φ : (∀ z, ⌜P z = true⌝ -∗ Φ z) ⊢ wp n (do (choose P)) Φ.
Proof.
  iIntros "HΦ". iApply wp_do. iIntros (w) "HS !>". iSplit; [by iPureIntro; intros []|]. iIntros (z w' [Hz ->]). iModIntro.
  iFrame "HS". by iApply "HΦ".
Qed.

Lemma wp_programmed n m Φ : (∀ l, prog_lb γ m l -∗ Φ l) ⊢ wp n (do (programmed_on m)) Φ.
Proof.
  iIntros "HΦ". iApply wp_do. iIntros (w) "HS !>". iSplit; [by iPureIntro; intros []|]. iIntros (l w' [-> ->]).
  iAssert (prog_lb γ m (DmaX200Sys.prog (dma (nd w m)))) as "#Hl".
  { iDestruct (SI_acc _ _ _ m with "HS") as "([Hh _] & _ & _)". by iDestruct (hist_get with "Hh") as "($ & _ & _)". }
  iModIntro. iFrame "HS". by iApply "HΦ".
Qed.

End Rules.
End FenceMsg.
