(* ===== verification/FenceWindow.v ===== *)
(** * The address of a signal

    The window that [scif_prog_signal] finds for an offset, and the bytes that a signal
    written at its DMA address covers. *)
From S2P Require Import Prelude RmaList DmaWindow DmaX200 FenceProg ScifFence.
Local Open Scope Z_scope.

Module FenceWindow.
Import RmaList DmaWindow FenceProg ScifFence.

Lemma query_loop_single req l : r_type req = SCIF_WINDOW_SINGLE → nr_bytes req = 8 → Forall reg_ok l →
  ∀ off out, query_loop req l off 8 None = (0, out) →
  ∃ w, out = Some w ∧ w ∈ l ∧ offset w <= off ∧ off + 8 <= end_offset w.
Proof.
  intros Ht Hn Hl off out. induction Hl as [|w l Hw Hl IH]; cbn [query_loop]; [done|].
  pose proof (end_offset_ok w Hw) as He. destruct Hw as (H1 & H2 & H3).
  destruct (Z.ltb_spec off (offset w)) as [|Ho]; [done|]. destruct (Z.leb_spec (end_offset w) off) as [|Hoff].
  { intros E. destruct (IH E) as (w' & -> & Hin & ?). exists w'. split; [done|]. split; [by right|lia]. }
  destruct (negb _); [done|]. rewrite Hn, Ht. change (8 =? 8) with true. cbn match.
  rewrite (wrap_small 64 (end_offset w - off)) by (unfold in_width; lia).
  destruct (Z.le_gt_cases 8 (end_offset w - off)) as [Hle|Hgt].
  - rewrite Z.min_r by lia. change (u64 (8 - 8) =? 0) with true. cbn match. rewrite bool_decide_eq_true_2 by by right.
    intros [= <-]. exists w. split; [done|]. split; [by left|lia].
  - rewrite Z.min_l by lia. rewrite wrap_small by (unfold in_width; lia). destruct (Z.eqb_spec (8 - (end_offset w - off)) 0); [lia|]. by rewrite bool_decide_eq_true_2.
Qed.

(** Where there is no error there is a window. *)
Lemma query_some off l o : Forall window_good l → query off l = (0, o) → is_Some o.
Proof.
  intros Hg. unfold query, scif_query_window. cbn [nr_bytes r_start]. change (8 =? 0) with false. cbn match.
  destruct (query_loop _ _ _ _ _) as [err w] eqn:E. intros [= -> <-].
  apply query_loop_single in E as (w' & -> & Hin & _); [|done..|].
  - apply list_elem_of_fmap in Hin as (d' & -> & Hd'). destruct (List.find _ l) as [d|] eqn:Ef; [by eexists|].
    apply list_elem_of_In in Hd'. pose proof (List.find_none _ _ Ef d' Hd') as Hn. cbn in Hn. by rewrite Z.eqb_refl in Hn.
  - apply Forall_fmap. eapply Forall_impl; [exact Hg|]. intros x [Hx _]. apply Hx.
Qed.

(** The window found covers the eight bytes from the offset on. *)
Lemma query_sound off l d : Forall window_good l → NoDup (w_addr ∘ win <$> l) → query off l = (0, Some d) →
  d ∈ l ∧ window_good d ∧ w_offset d <= off ∧ off + 8 <= w_end d.
Proof.
  intros Hg Hnd. unfold query, scif_query_window. cbn [nr_bytes r_start]. change (8 =? 0) with false. cbn match.
  destruct (query_loop _ _ _ _ _) as [err o] eqn:E. intros [= -> Hf].
  apply query_loop_single in E as (w & -> & Hin & Ho & He); [|done..|].
  - apply List.find_some in Hf as [Hd Ha]. apply list_elem_of_In in Hd. apply Z.eqb_eq in Ha.
    apply list_elem_of_fmap in Hin as (d' & -> & Hd').
    assert (d' = d) as ->.
    { apply list_elem_of_lookup in Hd as [i Hi], Hd' as [j Hj]. assert (i = j) as ->; [|congruence].
      eapply (NoDup_lookup _ _ _ (w_addr (win d)) Hnd); rewrite list_lookup_fmap; [rewrite Hi; done|rewrite Hj; cbn; by rewrite Ha]. }
    rewrite Forall_forall in Hg. split_and!; try done. by apply Hg.
  - apply Forall_fmap. eapply Forall_impl; [exact Hg|]. intros x [Hx _]. apply Hx.
Qed.

Lemma chunk_addr_below (cs : list (Z * Z)) b rel : Forall chunk_ok cs → Forall (fun c => c.1 + c.2 * 4096 < b) cs →
  0 <= rel < pages_of cs * 4096 → 0 <= chunk_addr cs rel < b.
Proof.
  intros Hcs. revert rel. induction Hcs as [|[da n] cs (H1 & H2 & _ & H3) Hcs IH]; intros rel Hb Hrel; [cbn in Hrel; lia|].
  apply Forall_cons in Hb as [Hb0 Hb]. rewrite pages_of_cons in Hrel. cbn [fst snd chunk_addr] in *.
  destruct (Z.ltb_spec rel (n * 4096)); [lia|]. apply IH; [done|lia].
Qed.

(** The address given to the engine is that of the byte at the offset. *)
Lemma dst_spec d off : window_good d → w_offset d <= off < w_end d →
  __scif_off_to_dma_addr d off = dma_byte d off ∧ 0 <= dma_byte d off < 2 ^ 47 ∧
  ((8 | off) → off + 8 <= w_end d → ∀ j, 0 <= j < 8 → dma_byte d (off + j) = dma_byte d off + j).
Proof.
  intros [Hok Hb] Hoff. destruct (off_to_dma_spec d off 0 None Hok Hoff I) as (n & it & E & Hn & Hle & Hdiv & _ & _ & Hj).
  split_and!.
  - unfold __scif_off_to_dma_addr. by rewrite E.
  - apply chunk_addr_below with (b := 2 ^ 47) (cs := chunks d); [apply Hok|done|].
    rewrite (w_end_eq d Hok) in Hoff. rewrite (ok_pages _ Hok). lia.
  - apply chunk_addr_below with (b := 2 ^ 47) (cs := chunks d); [apply Hok|done|].
    rewrite (w_end_eq d Hok) in Hoff. rewrite (ok_pages _ Hok). lia.
  - intros [q Hq] He j Hj8. apply Hj. destruct Hdiv as [r Hr]. lia.
Qed.

End FenceWindow.
