(* ===== verification/FenceSpec.v ===== *)
(** * What the functions of the fence code do

    For each function of [ScifFence] a specification in the logic of [FenceLogic]: what the
    thread that runs it holds before and after, and what its result means. *)
From iris.algebra Require Import lib.mono_list.
From iris.proofmode Require Import proofmode.
From iris.base_logic.lib Require Import own ghost_map ghost_var mono_nat.
From S2P Require Import Prelude RmaList DmaWindow DmaX200 DmaX200Inv DmaX200Sys FenceProg ScifFence FenceTask FenceLogic FenceDma FenceWins FenceRules FenceLock FenceMsg FenceWindow.
Local Open Scope Z_scope.

Module FenceSpec.
Import DmaX200 DmaX200Inv DmaX200Sys FenceProg ScifFence FenceTask FenceLogic FenceDma FenceWins FenceRules FenceLock FenceMsg FenceWindow.

(** ** Marks as numbers *)

Lemma s32_u64 z : 0 <= z < 2 ^ 31 → s32 (u64 z) = z.
Proof. intros Hz. rewrite wrap_small; [|unfold in_width; lia]. by apply s32_small; lia. Qed.

Lemma ldiff_sub a b : Z.ldiff a b = a - Z.land a b.
Proof.
  pose proof (Z.add_lor_land (Z.ldiff a b) (Z.land a b)) as E. rewrite Z.lor_ldiff_and in E.
  assert (Z.land (Z.ldiff a b) (Z.land a b) = 0) as E0; [|lia].
  apply Z.bits_inj'. intros i Hi. rewrite !Z.land_spec Z.ldiff_spec Z.bits_0. by destruct (Z.testbit a i), (Z.testbit b i).
Qed.

Lemma remote_bit a : Z.land a SCIF_REMOTE_FENCE = (a / 2 ^ 31) mod 2 * 2 ^ 31.
Proof. change SCIF_REMOTE_FENCE with (2 ^ 31). by apply land_bit. Qed.

(** A mark of this node is its cookie. *)
Lemma cookie_of_local ck : 0 < ck < 2 ^ 31 → ScifFence.cookie_of ck = ck ∧ isset (u64 ck) SCIF_REMOTE_FENCE = false.
Proof.
  intros Hz. unfold ScifFence.cookie_of, isset. rewrite wrap_small; [|unfold in_width; lia].
  rewrite ldiff_sub remote_bit Z.div_small; [|lia]. split; [|done]. change (0 mod 2 * 2 ^ 31) with 0. rewrite Z.sub_0_r. apply s32_small. lia.
Qed.

(** A mark of the peer has the bit and the cookie. *)
Lemma cookie_of_remote ck : 0 < ck < 2 ^ 31 → let mark := s32 (Z.lor SCIF_REMOTE_FENCE (u64 ck)) in
  ScifFence.cookie_of mark = ck ∧ isset (u64 mark) SCIF_REMOTE_FENCE = true ∧ s32 (u64 mark) = mark.
Proof.
  intros Hz. cbv zeta. rewrite (wrap_small 64 ck); [|unfold in_width; lia].
  change SCIF_REMOTE_FENCE with (1 * 2 ^ 31). rewrite lor_low; [|lia|lia].
  assert (s32 (1 * 2 ^ 31 + ck) = ck - 2 ^ 31) as ->.
  { unfold swrap. rewrite Z.mod_small; [|lia]. change (1 * 2 ^ 31 + ck) with (2 ^ 31 + ck). zcases; lia. }
  assert (u64 (ck - 2 ^ 31) = 2 ^ 64 - 2 ^ 31 + ck) as E.
  { unfold wrap. symmetry. apply Z.mod_unique_pos with (-1); lia. }
  unfold ScifFence.cookie_of, isset. rewrite E ldiff_sub remote_bit.
  assert ((2 ^ 64 - 2 ^ 31 + ck) / 2 ^ 31 = 2 ^ 33 - 1) as -> by (symmetry; apply Z.div_unique_pos with ck; lia).
  split_and!; [|done|].
  - unfold swrap. change ((2 ^ 33 - 1) mod 2 * 2 ^ 31) with (2 ^ 31).
    assert ((2 ^ 64 - 2 ^ 31 + ck - 2 ^ 31) mod 2 ^ 32 = ck) as ->.
    { symmetry. apply Z.mod_unique_pos with (2 ^ 32 - 1); lia. } zcases; lia.
  - unfold swrap. assert ((2 ^ 64 - 2 ^ 31 + ck) mod 2 ^ 32 = 2 ^ 31 + ck) as ->.
    { symmetry. apply Z.mod_unique_pos with (2 ^ 32 - 1); lia. } zcases; lia.
Qed.

Section Spec.
Context `{!fenceG Σ}.
Context (γ : bool → names).
Context (conn : bool → Z → bool * Z).
Context (again : nat).
(** The endpoints of a connection refer to each other. *)
Context (conn_inv : ∀ n ep, conn (conn n ep).1 (conn n ep).2 = (n, ep)).
Implicit Types (n : bool).

#[local] Notation wp := (wp γ conn).
#[local] Notation prog_lb := (prog_lb γ).
#[local] Notation held_tok := (held_tok γ).
#[local] Notation is_mark := (is_mark γ).
#[local] Notation opt_mark := (opt_mark γ).
#[local] Notation opt_ran := (opt_ran γ).
#[local] Notation pin := (pin γ).
#[local] Notation block := (block γ).
#[local] Notation req := (req γ).
#[local] Notation spec := (spec γ).
#[local] Notation req_out := (req_out γ).
#[local] Notation msg_res := (msg_res γ conn).
#[local] Notation signalled := (signalled γ).
#[local] Notation loops := (FenceTask.loops conn).
#[local] Notation marked_node := (FenceTask.marked_node conn).
#[local] Notation signal_node := (FenceTask.signal_node conn).
#[local] Notation signal_at := (signal_at γ conn).
#[local] Notation count_lb := (count_lb γ).
#[local] Notation sub_at := (sub_at γ).
#[local] Notation called_lb := (called_lb γ).
#[local] Notation lock_tok := (lock_tok γ).

(** ** The channel *)

Lemma no_count n : ⊢ count_lb n 0.
Proof. by iStartProof. Qed.

Lemma no_sub n ck : ⊢ sub_at n 0 ck.
Proof. by iStartProof. Qed.

Lemma wp_scif_dma_submit n idx flags cb l m R Φ :
  held_tok n (Some (idx, flags)) -∗ prog_lb n l -∗ count_lb n m -∗ cb_pre γ n flags cb R -∗
  (∀ ck, ⌜0 < ck < 2 ^ 31⌝ -∗ (⌜flags ≠ 0⌝ → is_mark n l ck) -∗ sub_at n m ck -∗ R -∗ Φ ck) -∗
  wp n (scif_dma_submit again idx cb) Φ.
Proof.
  iIntros "Ht Hl Hn Hcb HΦ". destruct again as [|a]; cbn [scif_dma_submit]; iApply wp_bind; iApply (wp_submit with "Ht Hl Hn Hcb");
    iIntros (ck Hck) "Hm Hs Hp"; [|rewrite (proj2 (Z.eqb_neq ck (- EBUSY))); [|unfold EBUSY; lia]];
    iApply wp_ret; by iApply ("HΦ" with "[//] Hm Hs Hp").
Qed.

(** One that nobody counts. *)
Lemma wp_submit_plain n idx flags cb l R Φ :
  held_tok n (Some (idx, flags)) -∗ prog_lb n l -∗ cb_pre γ n flags cb R -∗
  (∀ ck, ⌜0 < ck < 2 ^ 31⌝ -∗ (⌜flags ≠ 0⌝ → is_mark n l ck) -∗ R -∗ Φ ck) -∗
  wp n (scif_dma_submit again idx cb) Φ.
Proof.
  iIntros "Ht Hl Hcb HΦ". iApply (wp_scif_dma_submit with "Ht Hl [] Hcb"); [iApply no_count|]. iIntros (ck Hck) "Hm _ HR".
  by iApply ("HΦ" with "[//] Hm HR").
Qed.

Lemma no_submit_error ck : 0 < ck < 2 ^ 31 → negb (dma_submit_error ck =? 0) = false.
Proof. intros H. unfold dma_submit_error. zcases; done || lia. Qed.

Lemma req_ok_zero flags : 0 <= flags → req_ok 0 0 0 flags.
Proof. unfold req_ok. lia. Qed.

(** The marks. *)
Lemma wp__scif_fence_mark n ep mark l Φ : prog_lb n l -∗ pin n ep KUser -∗
  (∀ r : Z * Z, pin n ep KUser -∗ (⌜r.1 = 0⌝ → is_mark n l r.2) -∗ Φ r) -∗ wp n (_scif_fence_mark again ep mark) Φ.
Proof.
  iIntros "#Hl Hk HΦ". unfold _scif_fence_mark. iApply wp_bind. iApply (wp_deref with "Hk"). iIntros "Hk".
  change x100 with false. cbn [bind mret prog_ret]. change (negb (0 =? 0)) with false. cbn match.
  iApply wp_bind. iApply wp_prep; [by apply req_ok_zero|]. iIntros (r) "Ht".
  destruct r as [idx|]; [|iApply wp_ret; iApply ("HΦ" with "Hk"); by iIntros (?)].
  iApply wp_bind. iApply (wp_submit_plain _ _ _ (Some (CbMark ep)) _ (pin n ep KOwed) with "Ht Hl [Hk]"); [iFrame "Hk"; by iIntros "$"|]. iIntros (ck Hck) "#Hm Hk".
  rewrite no_submit_error //. iApply wp_bind. iApply (wp_inc_mark with "Hk"). iIntros "Hk".
  iApply wp_bind. iApply wp_issue. iApply wp_ret. iApply ("HΦ" with "Hk"). iIntros (_). by iApply "Hm".
Qed.

Lemma wp_wait_event n ck o Φ : opt_mark n o ck -∗ (∀ z, (⌜0 < z⌝ → opt_ran n o) -∗ Φ z) -∗ wp n (wait_event ck) Φ.
Proof.
  iIntros "Hm HΦ". unfold wait_event. iApply wp_bind. iApply (wp_status with "Hm"); [iApply no_sub|]. iIntros ([]) "H".
  - iApply wp_ret. iApply "HΦ". iIntros (_). by iDestruct "H" as "[$ _]".
  - iApply wp_choose. iIntros (z Hz). iApply "HΦ". iIntros (Hp). exfalso. apply orb_true_iff in Hz as [Hz|Hz]; apply Z.eqb_eq in Hz as ->; [lia|done].
Qed.

Lemma wp__scif_fence_wait n ep mark o k Φ : opt_mark n o (ScifFence.cookie_of mark) -∗ pin n ep k -∗
  (∀ err, pin n ep k -∗ (⌜err = 0⌝ → opt_ran n o) -∗ Φ err) -∗ wp n (_scif_fence_wait ep mark) Φ.
Proof.
  iIntros "Hm Hk HΦ". unfold _scif_fence_wait. iApply wp_bind. iApply (wp_deref with "Hk"). iIntros "Hk".
  iApply wp_bind. iApply (wp_wait_event with "Hm"). iIntros (z) "Hr". destruct (Z.eqb_spec z 0) as [->|Hz].
  { iApply wp_ret. iApply ("HΦ" with "Hk"). by iIntros (?). }
  destruct (Z.ltb_spec 0 z) as [Hp|Hp]; iApply wp_ret; iApply ("HΦ" with "Hk"); [|by iIntros (?)]. iIntros (_). by iApply "Hr".
Qed.

(** Waiting for all DMA. *)
Lemma wp_scif_sync_dma n chan sync l Φ : prog_lb n l -∗ (∀ err, (⌜err = 0 ∧ sync = true⌝ → ran_lb γ n l) -∗ Φ err) -∗
  wp n (scif_sync_dma again chan sync) Φ.
Proof.
  iIntros "#Hl HΦ". unfold scif_sync_dma. destruct chan; cbn [negb]; [|iApply wp_ret; iApply "HΦ"; by iIntros ([? _])].
  iApply wp_bind. iApply wp_prep; [by apply req_ok_zero|]. iIntros (r) "Ht".
  destruct r as [idx|]; [|iApply wp_ret; iApply "HΦ"; by iIntros ([? _])].
  iApply wp_bind. iApply (wp_submit_plain _ _ _ None _ True with "Ht Hl"); [done|]. iIntros (ck Hck) "#Hm _".
  rewrite no_submit_error //. destruct sync; cbn [negb].
  - iApply wp_bind. unfold dma_sync_wait. iApply wp_bind. iApply wp_issue. iApply (wp_status _ _ _ _ (Some l)); [by iApply "Hm"|iApply no_sub|].
    iIntros (b) "Hb". iApply wp_ret. iApply "HΦ". iIntros ([E _]). destruct b; [|done]. by iDestruct "Hb" as "[$ _]".
  - iApply wp_bind. iApply wp_issue. iApply wp_ret. iApply "HΦ". by iIntros ([_ ?]).
Qed.

Lemma wp_scif_async_dma n chan l m Φ : prog_lb n l -∗ count_lb n m -∗ (∀ err, (⌜err = 0⌝ → ran_lb γ n l ∗ called_lb n m) -∗ Φ err) -∗
  wp n (scif_async_dma again chan) Φ.
Proof.
  iIntros "#Hl #Hn HΦ". unfold scif_async_dma. destruct chan; cbn [negb]; [|iApply wp_ret; iApply "HΦ"; by iIntros (?)].
  iApply wp_bind. iApply wp_new_completion. iIntros (c). iApply wp_bind. iApply wp_prep; [by apply req_ok_zero|]. iIntros (r) "Ht".
  destruct r as [idx|]; [|iApply wp_ret; iApply "HΦ"; by iIntros (?)].
  iApply wp_bind. iApply (wp_scif_dma_submit _ _ _ (Some (CbDone c)) _ _ True with "Ht Hl Hn"); [done|]. iIntros (ck Hck) "#Hm #Hs _".
  rewrite no_submit_error //. iApply wp_bind. iApply wp_issue. iApply wp_bind. iApply wp_wait_done.
  iApply wp_bind. iApply (wp_status _ _ _ _ (Some l) with "[] Hs"); [by iApply "Hm"|]. iIntros (b) "Hb". iApply wp_ret. iApply "HΦ".
  iIntros (E). by destruct b.
Qed.

Lemma wp_drain_poll n chan l Φ : prog_lb n l -∗ (∀ err, (⌜err = 0⌝ → ran_lb γ n l) -∗ Φ err) -∗ wp n (scif_drain_dma_poll again chan) Φ.
Proof.
  iIntros "#Hl HΦ". unfold scif_drain_dma_poll. destruct chan; cbn [negb]; [|iApply wp_ret; iApply "HΦ"; by iIntros (?)].
  iApply (wp_scif_sync_dma with "Hl"). iIntros (err) "H". iApply "HΦ". iIntros (->). by iApply "H".
Qed.

Lemma wp_drain_intr n chan l m Φ : prog_lb n l -∗ count_lb n m -∗ (∀ err, (⌜err = 0⌝ → ran_lb γ n l ∗ called_lb n m) -∗ Φ err) -∗
  wp n (scif_drain_dma_intr again chan) Φ.
Proof.
  iIntros "#Hl #Hn HΦ". unfold scif_drain_dma_intr. destruct chan; cbn [negb]; [|iApply wp_ret; iApply "HΦ"; by iIntros (?)].
  by iApply (wp_scif_async_dma with "Hl Hn").
Qed.

Lemma wp_dma_transfer n dst src len flags cb Φ : req_ok src dst len flags → (∀ err, Φ err) -∗ wp n (dma_transfer again dst src len flags cb) Φ.
Proof.
  iIntros (Hreq) "HΦ". unfold dma_transfer. iApply wp_bind. iApply wp_prep; [done|]. iIntros (r) "Ht".
  destruct r as [idx|]; [|by iApply wp_ret]. iApply wp_bind.
  iApply wp_bupd. iMod (own_unit (mono_listUR (leibnizO copy)) (g_prog (γ n))) as "#Hl". iModIntro.
  iApply (wp_submit_plain _ _ _ (CbOther <$> cb) [] True with "Ht Hl"); [by destruct cb|]. iIntros (ck Hck) "_ _".
  rewrite no_submit_error //. iApply wp_bind. iApply wp_issue. by iApply wp_ret.
Qed.

(** ** Signals *)

Lemma wp__scif_prog_signal n ep dst v l ls p Φ : 0 <= dst < 2 ^ 47 → ls ≠ ([], []) → prog_lb n l -∗ lock_tok n ep ls p -∗
  (∀ err, (∃ p', lock_tok n ep ls p') -∗ (⌜err = 0⌝ → signalled n l v dst) -∗ Φ err) -∗ wp n (_scif_prog_signal again ep dst v) Φ.
Proof.
  iIntros (Hdst Hls) "#Hl Hlk HΦ". unfold _scif_prog_signal.
  iAssert (□ ∀ err, ⌜err ≠ 0⌝ -∗ lock_tok n ep ls p -∗ (∀ err, (∃ p', lock_tok n ep ls p') -∗ (⌜err = 0⌝ → signalled n l v dst) -∗ Φ err) -∗ Φ err)%I as "#Hfail".
  { iIntros "!>" (err He) "Hlk HΦ". iApply ("HΦ" with "[Hlk]"); [by iExists p|]. by iIntros (?). }
  iApply wp_bind. iApply wp_prep; [by apply req_ok_zero|]. iIntros (r) "Ht".
  destruct r as [idx|]; [|iApply wp_ret; by iApply ("Hfail" with "[] Hlk HΦ")].
  iApply wp_bind. iApply (wp_submit_plain _ _ _ None _ True with "Ht Hl"); [done|]. iIntros (ck Hck) "_ _". rewrite no_submit_error //.
  iApply wp_bind. iApply wp_issue. iApply wp_bind. iApply wp_pool_alloc. iIntros ([a|]) "Hb"; [|iApply wp_ret; by iApply ("Hfail" with "[] Hlk HΦ")].
  iDestruct "Hb" as "(%st & Hb & %Ha)". iApply wp_bind. iApply (wp_pool_set _ _ _ _ _ (Status a v ep) with "Hb"). iIntros "Hb".
  iApply wp_bind. iApply (wp_prep_signal with "Hb Hl"); [unfold req_ok, offsetof_val, sizeof_scif_status, DMA_PREP_INTERRUPT in *; lia|].
  iIntros ([idx2|]) "Ht Hres".
  - iDestruct "Hres" as "(%q & %l' & Hb & Htok & #Ha & #Hl' & %Hp)". iApply wp_bind.
    iApply (wp_submit_plain _ _ _ (Some (CbSignal a)) _ (∃ p', lock_tok n ep ls p')%I with "Ht Hl [Hb Htok Hlk]").
    { iExists _, _, l, ls, p. iSplitL "Hb Htok"; [iExists q, l'; iFrame "Hb Htok Ha Hl'"; done|]. iSplit; [done|]. iFrame "Hlk". by iIntros "$". }
    iIntros (ck2 Hck2) "_ Hlk". rewrite no_submit_error //. iApply wp_bind. iApply wp_issue. iApply wp_ret. iApply ("HΦ" with "Hlk").
    iIntros (_). iExists q, a. iFrame "Ha". iPureIntro. lia.
  - iApply wp_bind. iApply (wp_pool_free with "Hres"). iApply wp_ret. by iApply ("Hfail" with "[] Hlk HΦ").
Qed.

Lemma wp_scif_prog_signal n ep off v self l Φ : prog_lb n l -∗ pin n ep KUser -∗
  (∀ err, pin n ep KUser -∗ (⌜err = 0⌝ → signal_at n ep self off v l) -∗ Φ err) -∗ wp n (scif_prog_signal conn again n ep off v self) Φ.
Proof.
  iIntros "#Hl Hk HΦ". unfold scif_prog_signal. iApply wp_bind. iApply (wp_lock with "Hk"). iIntros (ls p) "Hk Hlk _".
  iApply wp_bind. iApply (wp_reg_list with "Hk Hlk"). iIntros (ws [(Hg & Hgl & Hnd) Hne]) "#Hseen Hk Hlk".
  lazymatch goal with |- context [bind (match _ with _ => _ end) ?K] => set (rest := K) end.
  iAssert (∀ err p', lock_tok n ep ls p' -∗ (⌜err = 0⌝ → signal_at n ep self off v l) -∗ wp n (rest err) Φ)%I with "[Hk HΦ]" as "H".
  { iIntros (err p') "Hlk Hs". unfold rest. iApply wp_bind. iApply (wp_unlock with "Hk Hlk"). iIntros "Hk". iApply wp_ret. by iApply ("HΦ" with "Hk Hs"). }
  iApply wp_bind. destruct (query off ws) as [err [d|]] eqn:E.
  - destruct (Z.eqb_spec err 0) as [->|He]; cbn [negb]; [|iApply wp_ret; iApply ("H" with "Hlk"); by iIntros (?)].
    destruct (query_sound off ws d Hg Hnd E) as (Hin & Hd & Ho & He). unfold FenceLogic.signal_at, FenceTask.loops. destruct (n && _).
    + iApply wp_bind. iAssert (∀ d', wp n (bind (do (store (scif_get_local_va off d') v)) (fun _ => mret 0)) (fun err => wp n (rest err) Φ))%I
        with "[H Hlk]" as "H".
      { iIntros (d'). iApply wp_bind. iApply wp_store. iApply wp_ret. iApply ("H" with "Hlk"). by iIntros (_). }
      destruct self; [iApply wp_ret; iApply "H"|iApply wp_peer_window; iIntros (d'); iApply "H"].
    + destruct (dst_spec d off Hd) as (-> & Hr & _); [lia|].
      assert (ls ≠ ([], [])) as Hls by (apply Hne; intros ->; by apply elem_of_nil in Hin).
      iApply (wp__scif_prog_signal with "Hl Hlk"); [done..|]. iIntros (err) "[%p' Hlk] Hs". iApply ("H" with "Hlk"). iIntros (He0).
      iExists ws, d. iFrame "Hseen". iSplit; [done|]. by iApply "Hs".
  - iApply wp_ret. iApply ("H" with "Hlk"). iIntros (->). destruct (query_some off ws None Hg E). done.
Qed.

(** ** The end of windows *)

Lemma wp_scif_rma_destroy_windows n times Φ : prog_lb n [] -∗ Φ tt -∗ wp n (scif_rma_destroy_windows again times) Φ.
Proof.
  iIntros "#Hl HΦ". iInduction times as [|times] "IH"; cbn [scif_rma_destroy_windows]; [by iApply wp_ret|].
  iApply wp_bind. iApply wp_next_window. iIntros ([ep|]) "Ht"; [|by iApply wp_ret]. iDestruct "Ht" as (p) "Ht".
  iApply wp_bind. iApply wp_is_alive. iApply wp_bind. iDestruct "Ht" as (j) "[Hj #Hn]".
  iApply (wp_drain_intr _ _ [] p with "Hl Hn"). iIntros (err) "Hd". iApply wp_bind.
  iAssert (tw_tok γ n ep p) with "[Hj]" as "Ht"; [iExists j; by iFrame|].
  iAssert (tw_tok γ n ep p -∗ called_lb n p ∨ hung_lb γ n -∗
    wp n (bind (do (atomic_dec_tw ep)) (fun _ => scif_rma_destroy_windows again times)) Φ)%I with "[HΦ]" as "H".
  { iIntros "Ht Hp". iApply wp_bind. iApply (wp_tw_dec with "Ht Hp"). by iApply "IH". }
  destruct (Z.eqb_spec err 0) as [->|He].
  - iDestruct ("Hd" with "[//]") as "[_ #Hd]". iApply (wp_deref_tw with "Ht"). iIntros "Ht". iApply ("H" with "Ht"). by iLeft.
  - iApply wp_drain_failed. iIntros "Hh". iApply ("H" with "Ht"). by iRight.
Qed.

Lemma wp_scif_rma_list_munmap n ep a Φ : prog_lb n [] -∗ pin n ep KUser -∗ (pin n ep KUser -∗ Φ tt) -∗
  wp n (scif_rma_list_munmap again ep a) Φ.
Proof.
  iIntros "#Hl Hk HΦ". unfold scif_rma_list_munmap. iApply wp_bind. iApply (wp_lock with "Hk"). iIntros (ls p) "Hk Hlk #Hn".
  iApply wp_bind. iApply (wp_drain_intr _ _ [] p with "Hl Hn"). iIntros (err) "Hd". iApply wp_bind.
  iAssert (called_lb n p ∨ hung_lb γ n -∗ wp n (bind (do (list_del ep a)) (fun _ => do (unlock ep))) Φ)%I with "[-Hd]" as "H".
  { iIntros "Hp". iApply wp_bind. iApply (wp_list_del with "Hk Hlk Hp"). iIntros (ls') "Hk Hlk". by iApply (wp_unlock with "Hk Hlk"). }
  destruct (Z.eqb_spec err 0) as [->|He].
  - iApply wp_ret. iDestruct ("Hd" with "[//]") as "[_ Hd]". iApply "H". by iLeft.
  - iApply wp_drain_failed. iIntros "Hh". iApply "H". by iRight.
Qed.

(** ** Messages *)

Lemma conn_back n ep : conn (conn n ep).1 (conn n ep).2 = (n, ep).
Proof. apply conn_inv. Qed.

(** Messages by what they say. *)
Lemma msg_mark n ep p1 p2 p3 : msg_res n (Msg SCIF_MARK ep p1 p2 p3) ⊣⊢
  ∃ l, req_out (conn n ep).1 p1 (ReqSpec (conn n ep).2 (GMark l)) ∗ prog_lb n l.
Proof. unfold FenceLogic.msg_res. cbn [payload0]. by destruct (conn n ep). Qed.

Lemma msg_wait n ep p1 p2 p3 : msg_res n (Msg SCIF_WAIT ep p1 p2 p3) ⊣⊢
  ∃ o, req_out (conn n ep).1 p1 (ReqSpec (conn n ep).2 (GWait o)) ∗ opt_mark n o (ScifFence.cookie_of (s32 p2)).
Proof. unfold FenceLogic.msg_res, FenceLogic.wait_res. cbn [payload0]. by destruct (conn n ep). Qed.

Lemma msg_sig (local : bool) n ep p1 p2 p3 : msg_res n (Msg (if local then SCIF_SIG_LOCAL else SCIF_SIG_REMOTE) ep p1 p2 p3) ⊣⊢
  ∃ l, req_out (conn n ep).1 p3 (ReqSpec (conn n ep).2 (GSig local (s64 p1) p2 l)) ∗ prog_lb n l.
Proof. unfold FenceLogic.msg_res. cbn [payload0]. destruct (conn n ep). by destruct local. Qed.

Lemma msg_mark_resp (ack : bool) n ep p1 p2 p3 : msg_res n (Msg (if ack then SCIF_MARK_ACK else SCIF_MARK_NACK) ep p1 p2 p3) ⊣⊢
  ∃ l, req_out n p1 (ReqSpec ep (GMark l)) ∗ (if ack then is_mark (conn n ep).1 l (s32 p2) else True).
Proof. unfold FenceLogic.msg_res. cbn [payload0]. destruct (conn n ep). by destruct ack. Qed.

Lemma msg_wait_resp (ack : bool) n ep p1 p2 p3 : msg_res n (Msg (if ack then SCIF_WAIT_ACK else SCIF_WAIT_NACK) ep p1 p2 p3) ⊣⊢
  ∃ o, req_out n p1 (ReqSpec ep (GWait o)) ∗ (if ack then opt_ran (conn n ep).1 o else True).
Proof. unfold FenceLogic.msg_res. cbn [payload0]. destruct (conn n ep). by destruct ack. Qed.

Lemma msg_sig_resp (ack : bool) n ep p1 p2 p3 : msg_res n (Msg (if ack then SCIF_SIG_ACK else SCIF_SIG_NACK) ep p1 p2 p3) ⊣⊢
  ∃ self off v l, req_out n p3 (ReqSpec ep (GSig self off v l)) ∗ (if ack then signal_at (conn n ep).1 (conn n ep).2 self off v l else True).
Proof. unfold FenceLogic.msg_res. cbn [payload0]. destruct (conn n ep). by destruct ack. Qed.

Lemma req_out_pin n r s : req_out n r s ⊢ pin n (q_ep s) KUser.
Proof. by iIntros "(%i & _ & _ & $ & _)". Qed.

(** Their answers go to an endpoint whose call waits for them. *)
Lemma wp_answer_mark n (ack : bool) to ep r p2 p3 l Φ : req_out to r (ReqSpec ep (GMark l)) -∗
  (if ack then is_mark (conn to ep).1 l (s32 p2) else True) -∗ Φ tt -∗
  wp n (do (send (Msg (if ack then SCIF_MARK_ACK else SCIF_MARK_NACK) ep r p2 p3) to)) Φ.
Proof.
  iIntros "Ho Hm HΦ". iApply (wp_send with "[Ho Hm] HΦ"); [|by rewrite msg_mark_resp; iExists l; iFrame].
  rewrite msg_mark_resp. iIntros "(% & H & _)". by iDestruct (req_out_pin with "H") as "$".
Qed.

Lemma wp_answer_wait n (ack : bool) to ep r p2 p3 o Φ : req_out to r (ReqSpec ep (GWait o)) -∗
  (if ack then opt_ran (conn to ep).1 o else True) -∗ Φ tt -∗
  wp n (do (send (Msg (if ack then SCIF_WAIT_ACK else SCIF_WAIT_NACK) ep r p2 p3) to)) Φ.
Proof.
  iIntros "Ho Hm HΦ". iApply (wp_send with "[Ho Hm] HΦ"); [|by rewrite msg_wait_resp; iExists o; iFrame].
  rewrite msg_wait_resp. iIntros "(% & H & _)". by iDestruct (req_out_pin with "H") as "$".
Qed.

Lemma wp_answer_sig n (ack : bool) to ep r p1 p2 self off v l Φ : req_out to r (ReqSpec ep (GSig self off v l)) -∗
  (if ack then signal_at (conn to ep).1 (conn to ep).2 self off v l else True) -∗ Φ tt -∗
  wp n (do (send (Msg (if ack then SCIF_SIG_ACK else SCIF_SIG_NACK) ep p1 p2 r) to)) Φ.
Proof.
  iIntros "Ho Hm HΦ". iApply (wp_send with "[Ho Hm] HΦ"); [|by rewrite msg_sig_resp; iExists self, off, v, l; iFrame].
  rewrite msg_sig_resp. iIntros "(% & % & % & % & H & _)". by iDestruct (req_out_pin with "H") as "$".
Qed.

(** ** Handlers *)

Lemma if_negb_z (err a b : Z) : (if negb (err =? 0) then a else b) = if err =? 0 then b else a.
Proof. by destruct (err =? 0). Qed.

Lemma wp_recv_mark n ep p1 p2 p3 Φ : msg_res n (Msg SCIF_MARK ep p1 p2 p3) -∗ pin n ep KUser -∗ (pin n ep KUser -∗ Φ tt) -∗
  wp n (scif_recv_mark conn again n (Msg SCIF_MARK ep p1 p2 p3)) Φ.
Proof.
  rewrite msg_mark. iIntros "(%l & Ho & #Hl) Hk HΦ". unfold scif_recv_mark. cbn [payload0 payload1 payload3].
  iApply wp_bind. iApply wp_choose. iIntros (mk _). iApply wp_bind. iApply (wp__scif_fence_mark with "Hl Hk"). iIntros ([err mark]) "Hk #Hm".
  cbn [fst snd]. rewrite if_negb_z. iApply (wp_answer_mark with "Ho [] [Hk HΦ]"); [|by iApply "HΦ"]. rewrite conn_back. cbn [fst].
  destruct (Z.eqb_spec err 0) as [->|He]; [|done]. iDestruct ("Hm" with "[//]") as "H".
  iDestruct "H" as "(%sl & %i & %s & H1 & H2 & %H3)". rewrite s32_u64; [|lia]. iExists sl, i, s. by iFrame "H1 H2".
Qed.

Lemma wp_recv_wait n ep p1 p2 p3 Φ : msg_res n (Msg SCIF_WAIT ep p1 p2 p3) -∗ pin n ep KUser -∗ (pin n ep KUser -∗ Φ tt) -∗
  wp n (scif_recv_wait conn n (Msg SCIF_WAIT ep p1 p2 p3)) Φ.
Proof.
  iIntros "Hm Hk HΦ". unfold scif_recv_wait, kmalloc_fails. cbn [payload0 payload1 payload2 payload3].
  iApply wp_bind. iApply wp_bind. iApply wp_choose. iIntros (z _). iApply wp_ret. destruct (z =? 0).
  - rewrite msg_wait. iDestruct "Hm" as "(%o & Ho & _)". iApply (wp_answer_wait _ false with "Ho [//] [Hk HΦ]"). by iApply "HΦ".
  - iApply wp_bind. iApply (wp_inc_ref with "Hk"). iIntros "Hk Hr". iApply (wp_fence_add with "[Hm Hr]"); [|by iApply "HΦ"].
    rewrite /fence_res. iFrame "Hr". rewrite msg_wait /FenceLogic.wait_res. cbn [payload0 payload1 payload2]. by destruct (conn n ep).
Qed.

Lemma wp_recv_sig n ep p1 p2 p3 (local : bool) Φ : msg_res n (Msg (if local then SCIF_SIG_LOCAL else SCIF_SIG_REMOTE) ep p1 p2 p3) -∗
  pin n ep KUser -∗ (pin n ep KUser -∗ Φ tt) -∗
  wp n (recv_sig conn again n local (Msg (if local then SCIF_SIG_LOCAL else SCIF_SIG_REMOTE) ep p1 p2 p3)) Φ.
Proof.
  rewrite msg_sig. iIntros "(%l & Ho & #Hl) Hk HΦ". unfold recv_sig. cbn [payload0 payload1 payload2 payload3]. iApply wp_bind.
  iApply (wp_scif_prog_signal with "Hl Hk"). iIntros (err) "Hk Hs". rewrite if_negb_z.
  iApply (wp_answer_sig with "Ho [Hs]"); [|by iApply "HΦ"]. rewrite conn_back. cbn [fst snd].
  destruct (Z.eqb_spec err 0) as [->|]; [by iApply "Hs"|done].
Qed.

(** The answer is written to the request, and its completion signalled. *)
Lemma wp_complete n r s g h Φ : req_out n r s -∗ ⌜∀ i, comp (g i) = comp i ∧ (state (g i) = OP_COMPLETED ∨ state (g i) = OP_FAILED)⌝ -∗
  ⌜∀ i, h i = FenceInfo (state i) true (dma_mark i)⌝ -∗ (∀ i, result γ conn n s (h (g i))) -∗ Φ tt -∗
  wp n (bind (do (write_req r g)) (fun _ => do (write_req r h))) Φ.
Proof.
  iIntros "(%i & Hreq & Hs & Hk & %Hi) %Hg %Hh Hres HΦ". destruct Hi as [Hc _]. destruct (Hg i) as [Hgc Hgs].
  iApply wp_bind. iApply (wp_write with "Hreq []"); rewrite Hgc Hc; [done|]. iIntros "Hreq".
  iApply (wp_write with "Hreq [Hs Hk Hres]"); rewrite Hh; [|by iIntros (_)]. cbn [comp]. iExists s. iFrame. iSplit; [|by iPureIntro].
  rewrite -Hh. iApply "Hres".
Qed.

Lemma wp_recv_mark_resp n ep p1 p2 p3 (ack : bool) Φ : msg_res n (Msg (if ack then SCIF_MARK_ACK else SCIF_MARK_NACK) ep p1 p2 p3) -∗
  pin n ep KUser -∗ (pin n ep KUser -∗ Φ tt) -∗
  wp n (scif_recv_mark_resp (Msg (if ack then SCIF_MARK_ACK else SCIF_MARK_NACK) ep p1 p2 p3)) Φ.
Proof.
  rewrite msg_mark_resp. iIntros "(%l & Ho & Hm) Hk HΦ". unfold scif_recv_mark_resp. cbn [payload0 payload1 payload2 uop]. iApply wp_bind.
  iApply (wp_deref with "Hk"). iIntros "Hk". iApply (wp_complete with "Ho [] [] [Hm]"); [| |iIntros (i)|by iApply "HΦ"].
  - iPureIntro. intros i. destruct ack; cbn; auto.
  - by iPureIntro.
  - unfold FenceLogic.result. cbn [q_goal q_ep]. destruct (conn n ep). destruct ack; cbn -[s32]; [by iIntros (_)|by iIntros (?)].
Qed.

Lemma wp_recv_resp n ep ack nack r s msg Φ : uop msg = ack ∨ uop msg = nack → ack ≠ nack →
  payload0 msg = ep → req_out n r s -∗
  (∀ mark, result γ conn n s (FenceInfo (if uop msg =? ack then OP_COMPLETED else OP_FAILED) true mark)) -∗
  pin n ep KUser -∗ (pin n ep KUser -∗ Φ tt) -∗ wp n (recv_resp ack r msg) Φ.
Proof.
  iIntros (Hu Hne Hep) "Ho Hm Hk HΦ". unfold recv_resp. rewrite Hep. iApply wp_bind.
  iApply (wp_deref with "Hk"). iIntros "Hk". iApply (wp_complete with "Ho [] [] [Hm]"); [| |iIntros (i)|by iApply "HΦ"].
  - iPureIntro. intros i. destruct (_ =? _); cbn; auto.
  - by iPureIntro.
  - iApply "Hm".
Qed.

Lemma wp_recv_wait_resp n ep p1 p2 p3 (ack : bool) Φ : msg_res n (Msg (if ack then SCIF_WAIT_ACK else SCIF_WAIT_NACK) ep p1 p2 p3) -∗
  pin n ep KUser -∗ (pin n ep KUser -∗ Φ tt) -∗
  wp n (scif_recv_wait_resp (Msg (if ack then SCIF_WAIT_ACK else SCIF_WAIT_NACK) ep p1 p2 p3)) Φ.
Proof.
  rewrite msg_wait_resp. iIntros "(%o & Ho & Hm)". unfold scif_recv_wait_resp. iApply (wp_recv_resp _ ep _ SCIF_WAIT_NACK with "Ho [Hm]"); try done.
  - destruct ack; cbn; auto.
  - iIntros (mark). unfold FenceLogic.result. cbn [q_goal q_ep uop]. destruct (conn n ep). destruct o as [l|]; [|done]. destruct ack; cbn; [by iIntros (_)|by iIntros (?)].
Qed.

Lemma wp_recv_sig_resp n ep p1 p2 p3 (ack : bool) Φ : msg_res n (Msg (if ack then SCIF_SIG_ACK else SCIF_SIG_NACK) ep p1 p2 p3) -∗
  pin n ep KUser -∗ (pin n ep KUser -∗ Φ tt) -∗
  wp n (scif_recv_sig_resp (Msg (if ack then SCIF_SIG_ACK else SCIF_SIG_NACK) ep p1 p2 p3)) Φ.
Proof.
  rewrite msg_sig_resp. iIntros "(%self & %off & %v & %l & Ho & Hm)". unfold scif_recv_sig_resp.
  iApply (wp_recv_resp _ ep _ SCIF_SIG_NACK with "Ho [Hm]"); try done.
  - destruct ack; cbn; auto.
  - iIntros (mark). unfold FenceLogic.result. cbn [q_goal q_ep uop]. destruct (conn n ep). destruct ack; cbn -[FenceLogic.signal_at]; [by iIntros (_)|by iIntros (?)].
Qed.

Lemma wp_handler n m Φ : msg_res n m -∗ pin n (payload0 m) KUser -∗ (pin n (payload0 m) KUser -∗ Φ tt) -∗ wp n (handler conn again n m) Φ.
Proof.
  destruct m as [u ep p1 p2 p3]. unfold handler. cbn [uop payload0].
  destruct (Z.eqb_spec u SCIF_MARK) as [->|]; [apply wp_recv_mark|].
  destruct (Z.eqb_spec u SCIF_MARK_ACK) as [->|]; cbn [orb]; [apply (wp_recv_mark_resp _ _ _ _ _ true)|].
  destruct (Z.eqb_spec u SCIF_MARK_NACK) as [->|]; [apply (wp_recv_mark_resp _ _ _ _ _ false)|].
  destruct (Z.eqb_spec u SCIF_WAIT) as [->|]; [apply wp_recv_wait|].
  destruct (Z.eqb_spec u SCIF_WAIT_ACK) as [->|]; cbn [orb]; [apply (wp_recv_wait_resp _ _ _ _ _ true)|].
  destruct (Z.eqb_spec u SCIF_WAIT_NACK) as [->|]; [apply (wp_recv_wait_resp _ _ _ _ _ false)|].
  destruct (Z.eqb_spec u SCIF_SIG_LOCAL) as [->|]; [apply (wp_recv_sig _ _ _ _ _ true)|].
  destruct (Z.eqb_spec u SCIF_SIG_REMOTE) as [->|]; [apply (wp_recv_sig _ _ _ _ _ false)|].
  destruct (Z.eqb_spec u SCIF_SIG_ACK) as [->|]; cbn [orb]; [apply (wp_recv_sig_resp _ _ _ _ _ true)|].
  destruct (Z.eqb_spec u SCIF_SIG_NACK) as [->|]; [apply (wp_recv_sig_resp _ _ _ _ _ false)|].
  iIntros "_ Hk HΦ". iApply wp_ret. by iApply "HΦ".
Qed.

Lemma wp_receive n Φ : Φ tt ⊢ wp n (receive conn again n) Φ.
Proof.
  iIntros "HΦ". unfold receive. iApply wp_bind. iApply wp_next_msg. iIntros (m) "Hm Hk". iApply wp_bind.
  iApply (wp_handler with "Hm Hk"). iIntros "Hk". by iApply (wp_leave with "Hk").
Qed.

(** The worker that waits for the marks of the peer. *)
Lemma wp_serve n l Φ : ([∗ list] m ∈ l, fence_res γ conn n m) -∗ Φ tt -∗ wp n (serve conn n l) Φ.
Proof.
  iInduction l as [|[u ep p1 p2 p3] l] "IH"; iIntros "Hl HΦ"; [by iApply wp_ret|]. iDestruct "Hl" as "[[Hm Hk] Hl]".
  unfold FenceLogic.wait_res. cbn [payload0 payload1 payload2 payload3 serve].
  pose proof (conn_back n ep) as Eb. destruct (conn n ep) as [n0 ep0] eqn:Ec. cbn [fst snd] in Eb |- *. iDestruct "Hm" as "(%o & Ho & Hm)".
  iApply wp_bind. iApply (wp__scif_fence_wait with "Hm Hk"). iIntros (err) "Hk Hr". rewrite if_negb_z. iApply wp_bind.
  iApply (wp_answer_wait with "Ho [Hr]").
  { rewrite Eb. cbn [fst]. destruct (Z.eqb_spec err 0) as [->|]; [by iApply "Hr"|done]. }
  iApply wp_bind. iApply (wp_sub with "Hk"). iIntros (_). by iApply ("IH" with "Hl").
Qed.

Lemma wp_handle_remote_fences n Φ : Φ tt ⊢ wp n (scif_rma_handle_remote_fences conn n) Φ.
Proof.
  iIntros "HΦ". unfold scif_rma_handle_remote_fences. iApply wp_bind. iApply wp_take_fences. iIntros (l) "Hl". iApply (wp_serve with "Hl HΦ").
Qed.

(** ** Requests to the peer *)

#[local] Notation peer n ep := (conn n ep).1.

(** A request that has not been sent is freed. *)
Lemma wp_kfree_unsent n r s s' Φ : req_out n r s -∗ spec n r s' -∗ (pin n (q_ep s') KUser -∗ Φ tt) -∗ wp n (do (kfree_req r)) Φ.
Proof.
  iIntros "(%i & Hreq & Hs & Hk & _) Hs' HΦ". iDestruct (ghost_map_elem_agree with "Hs Hs'") as %->.
  iApply (wp_kfree with "Hreq Hs Hs'"). by iApply "HΦ".
Qed.

(** What a message has to be for [_scif_send_fence] to send it for a goal. *)
Definition sends n ep uop mark g : iProp Σ :=
  (∀ r p2 p3, ⌜uop = SCIF_WAIT → p2 = u64 mark⌝ -∗ req_out n r (ReqSpec ep g) -∗
    msg_res (peer n ep) (Msg uop (conn n ep).2 r p2 p3) ∗
    (msg_res (peer n ep) (Msg uop (conn n ep).2 r p2 p3) -∗ ∃ s, req_out n r s))%I.

Lemma wp__scif_send_fence n ep uop mark out g Φ : sends n ep uop mark g -∗ pin n ep KUser -∗
  (∀ err out', pin n ep KUser -∗
     (⌜err = 0⌝ → ∃ i, ⌜state i = OP_COMPLETED ∧ (uop = SCIF_MARK → out' = s32 (Z.lor SCIF_REMOTE_FENCE (u64 (dma_mark i))))⌝ ∗
        result γ conn n (ReqSpec ep g) i) -∗ Φ (err, out')) -∗
  wp n (_scif_send_fence conn n ep uop mark out) Φ.
Proof.
  iIntros "Hsends Hk HΦ". unfold _scif_send_fence. iApply wp_bind. iApply (wp_kmalloc_req _ _ _ (ReqSpec ep g)).
  iIntros ([r|]) "H"; [|iApply wp_ret; iApply ("HΦ" with "Hk"); by iIntros (?)]. iDestruct "H" as "(%i & Hreq & Hs & Hs' & _)".
  iApply wp_bind. iApply (wp_write with "Hreq []"); cbn [comp]; [done|]. iIntros "Hreq". lazymatch goal with |- context [bind (if _ then _ else _) ?K] => set (rest := K) end.
  iAssert (∀ p2, ⌜uop = SCIF_WAIT → p2 = u64 mark⌝ -∗ wp n (rest p2) Φ)%I with "[-]" as "H".
  2:{ iApply wp_bind. destruct (Z.eqb_spec uop SCIF_WAIT) as [Hu|Hu]; [iApply wp_ret; by iApply "H"|].
      iApply wp_choose. iIntros (p2 _). by iApply "H". }
  iIntros (p2 Hp2). unfold rest. iApply wp_bind. iApply wp_choose. iIntros (p3 _). iDestruct ("Hsends" $! r p2 p3 with "[//] [Hreq Hs Hk]") as "[Hm Hback]".
  { iExists _. by iFrame. }
  iApply wp_bind. iApply (wp_send_connected with "Hm"). iIntros (err) "Hm %Herr". case_decide as E; cycle 1.
  { rewrite (proj2 (Z.eqb_neq err 0) E). cbn [negb]. iDestruct ("Hback" with "Hm") as (s) "Ho". iApply wp_bind.
    iApply (wp_kfree_unsent with "Ho Hs'"). iIntros "Hk". iApply wp_ret. iApply ("HΦ" with "Hk"). by iIntros (?). }
  subst err. change (negb (0 =? 0)) with false. cbn match. iApply wp_bind. iApply (wp_wait_comp with "Hs'").
  iIntros (i') "Hreq Hs Hs' Hk Hres %Hi". change (0 <? 0) with false. cbn match. iApply wp_bind. iApply wp_ret. iApply wp_bind.
  iApply (wp_read with "Hreq"). iIntros "Hreq". iApply wp_bind. iApply (wp_kfree with "Hreq Hs Hs'"). iApply wp_ret.
  iApply ("HΦ" with "Hk"). iIntros (He). iExists i'. iFrame. iPureIntro. destruct Hi as [_ [Hst|Hst]].
  - split; [done|]. intros ->. by rewrite Z.eqb_refl bool_decide_eq_true_2.
  - rewrite bool_decide_eq_true_2 // in He.
Qed.

Lemma conn_peer n ep : conn (peer n ep) (conn n ep).2 = (n, ep).
Proof. apply conn_inv. Qed.

Lemma wp_scif_send_fence_mark n ep out l Φ : prog_lb (peer n ep) l -∗ pin n ep KUser -∗
  (∀ r : Z * Z, pin n ep KUser -∗ (⌜r.1 = 0⌝ → ∃ k, ⌜r.2 = s32 (Z.lor SCIF_REMOTE_FENCE (u64 k))⌝ ∗ is_mark (peer n ep) l k) -∗ Φ r) -∗
  wp n (scif_send_fence_mark conn n ep out) Φ.
Proof.
  iIntros "#Hl Hk HΦ". unfold scif_send_fence_mark. iApply (wp__scif_send_fence _ _ _ _ _ (GMark l) with "[] Hk").
  { iIntros (r p2 p3 _) "Ho". rewrite msg_mark conn_peer. iSplitL; [iExists l; by iFrame|]. iIntros "(%l' & Ho & _)". by iExists _. }
  iIntros (err out') "Hk H". iApply ("HΦ" with "Hk"). iIntros (He). iDestruct ("H" with "[//]") as (i [Hst Hout]) "H".
  iExists (dma_mark i). iSplit; [iPureIntro; by apply Hout|]. unfold FenceLogic.result. cbn [q_goal q_ep]. destruct (conn n ep). by iApply "H".
Qed.

Lemma wp_scif_send_fence_wait n ep mark o Φ : opt_mark (peer n ep) o (ScifFence.cookie_of (s32 (u64 mark))) -∗ pin n ep KUser -∗
  (∀ err, pin n ep KUser -∗ (⌜err = 0⌝ → opt_ran (peer n ep) o) -∗ Φ err) -∗
  wp n (scif_send_fence_wait conn n ep mark) Φ.
Proof.
  iIntros "#Hm Hk HΦ". unfold scif_send_fence_wait. iApply wp_bind. iApply (wp__scif_send_fence _ _ _ _ _ (GWait o) with "[] Hk").
  { iIntros (r p2 p3 Hp2) "Ho". rewrite msg_wait conn_peer (Hp2 eq_refl). iSplitL; [iExists o; by iFrame|].
    iIntros "(%l' & Ho & _)". by iExists _. }
  iIntros (err out') "Hk H". iApply wp_ret. iApply ("HΦ" with "Hk"). iIntros (He). iDestruct ("H" with "[//]") as (i [Hst _]) "H".
  unfold FenceLogic.result. cbn [q_goal q_ep]. destruct (conn n ep), o as [l|]; [by iApply "H"|done].
Qed.

Lemma wp_signal_msg n ep (local : bool) off v l r i Φ : ⌜comp i = false ∧ state i = OP_IN_PROGRESS⌝ -∗ prog_lb (peer n ep) l -∗ req n r i -∗
  spec n r (ReqSpec ep (GSig local (s64 (u64 off)) v l)) -∗ spec n r (ReqSpec ep (GSig local (s64 (u64 off)) v l)) -∗ pin n ep KUser -∗
  (∀ err i' s, ⌜comp i' = false⌝ -∗ req n r i' -∗ spec n r s -∗ spec n r s -∗ pin n ep KUser -∗
     (⌜err = 0⌝ → signal_at (peer n ep) (conn n ep).2 local (s64 (u64 off)) v l) -∗ Φ err) -∗
  wp n (signal_msg conn n ep (if local then SCIF_SIG_LOCAL else SCIF_SIG_REMOTE) off v r) Φ.
Proof.
  iIntros "%Hi #Hl Hreq Hs Hs' Hk HΦ". unfold signal_msg. iApply wp_bind. iApply (wp_send_connected with "[Hreq Hs Hk]").
  { rewrite msg_sig conn_peer. iExists l. iFrame "Hl". iExists i. by iFrame. }
  iIntros (err) "Hm _". case_decide as E; cycle 1.
  { rewrite (proj2 (Z.eqb_neq err 0) E). cbn [negb]. rewrite msg_sig conn_peer. iDestruct "Hm" as "(%l' & (%i' & Hreq & Hs & Hk & %Hi') & _)".
    iDestruct (ghost_map_elem_agree with "Hs Hs'") as %->. iApply wp_ret. iApply ("HΦ" with "[] Hreq Hs Hs' Hk"); [by destruct Hi'|by iIntros (?)]. }
  subst err. change (negb (0 =? 0)) with false. cbn match. unfold _scif_send_fence_signal_wait. iApply wp_bind. iApply (wp_wait_comp with "Hs'").
  iIntros (i') "Hreq Hs Hs' Hk Hres %Hi'". change (0 <? 0) with false. cbn match. iApply wp_bind. iApply wp_ret. iApply wp_bind.
  iApply (wp_read with "Hreq"). iIntros "Hreq". iApply wp_ret. iApply ("HΦ" with "[] Hreq Hs Hs' Hk"); [by destruct Hi'|].
  unfold FenceLogic.result. cbn [q_goal q_ep]. destruct (conn n ep). destruct Hi' as [_ [Hst|Hst]]; rewrite Hst.
  - iIntros (_). by iApply "Hres".
  - by iIntros (?).
Qed.

Lemma wp_scif_send_fence_signal n ep roff rval loff lval flags l Φ : prog_lb (peer n ep) l -∗ pin n ep KUser -∗
  (∀ err, pin n ep KUser -∗
    (⌜err = 0⌝ → (if isset flags SCIF_SIGNAL_LOCAL then signal_at (peer n ep) (conn n ep).2 true (s64 (u64 roff)) rval l else True) ∗
       (if isset flags SCIF_SIGNAL_REMOTE then signal_at (peer n ep) (conn n ep).2 false (s64 (u64 loff)) lval l else True)) -∗ Φ err) -∗
  wp n (scif_send_fence_signal conn n ep roff rval loff lval flags) Φ.
Proof.
  iIntros "#Hl Hk HΦ". unfold scif_send_fence_signal. iApply wp_bind.
  iApply (wp_kmalloc_req _ _ _ (ReqSpec ep (GSig true (s64 (u64 roff)) rval l))).
  iIntros ([r|]) "H"; [|iApply wp_ret; iApply ("HΦ" with "Hk"); by iIntros (?)]. iDestruct "H" as "(%i & Hreq & Hs & Hs' & _)".
  iApply wp_bind. iApply (wp_write with "Hreq []"); cbn [comp]; [done|]. iIntros "Hreq".
  lazymatch goal with |- context [bind (if _ then _ else _) ?K] => set (rest := K) end.
  iAssert (∀ err i' s, ⌜comp i' = false⌝ -∗ req n r i' -∗ spec n r s -∗ spec n r s -∗ pin n ep KUser -∗
    (⌜err = 0⌝ → if isset flags SCIF_SIGNAL_LOCAL then signal_at (peer n ep) (conn n ep).2 true (s64 (u64 roff)) rval l else True) -∗
    wp n (rest err) Φ)%I with "[HΦ]" as "H".
  2:{ iApply wp_bind. destruct (isset flags SCIF_SIGNAL_LOCAL).
      - iApply (wp_signal_msg _ _ true with "[] Hl Hreq Hs Hs' Hk"); [done|]. iIntros (err i' s) "%Hc Hreq Hs Hs' Hk Hr".
        by iApply ("H" with "[//] Hreq Hs Hs' Hk").
      - iApply wp_ret. by iApply ("H" with "[] Hreq Hs Hs' Hk"). }
  iIntros (err i' s Hc) "Hreq Hs Hs' Hk H1". unfold rest. destruct (Z.eqb_spec err 0) as [->|He]; cbn [negb]; cycle 1.
  { iApply wp_bind. iApply (wp_kfree with "Hreq Hs Hs'"). iApply wp_ret. iApply ("HΦ" with "Hk"). by iIntros (?). }
  iDestruct ("H1" with "[//]") as "H1". iApply wp_bind.
  iApply (wp_write_spec _ _ _ _ _ _ s (ReqSpec ep (GSig false (s64 (u64 loff)) lval l)) with "Hreq Hs Hs'"); [done|].
  iIntros "Hreq Hs Hs'". iApply wp_bind. destruct (isset flags SCIF_SIGNAL_REMOTE).
  - iApply (wp_signal_msg _ _ false with "[] Hl Hreq Hs Hs' Hk"); [done|]. iIntros (err i2 s2) "%Hc2 Hreq Hs Hs' Hk H2".
    iApply wp_bind. iApply (wp_kfree with "Hreq Hs Hs'"). iApply wp_ret. iApply ("HΦ" with "Hk"). iIntros (He). iFrame "H1". by iApply "H2".
  - iApply wp_ret. iApply wp_bind. iApply (wp_kfree with "Hreq Hs Hs'"). iApply wp_ret. iApply ("HΦ" with "Hk"). iIntros (_). by iFrame "H1".
Qed.

(** ** The calls *)

(** A mark for all of [l]. *)
Definition marked n ep flags (l : list copy) (mark : Z) : iProp Σ :=
  (∃ k, is_mark (marked_node n ep flags) l k ∗
     ⌜mark = if isset flags SCIF_FENCE_INIT_SELF then k else s32 (Z.lor SCIF_REMOTE_FENCE (u64 k))⌝)%I.

Lemma is_mark_range n l k : is_mark n l k ⊢ ⌜0 < k < 2 ^ 31⌝.
Proof. by iIntros "(%sl & %i & %s & _ & _ & _ & _ & _ & %H)". Qed.

Lemma loops_eqb n ep : Bool.eqb (conn n ep).1 n && n = loops n ep.
Proof. unfold FenceTask.loops. by destruct n, (conn _ ep).1. Qed.

Lemma wp_scif_fence_mark n ep flags mark l Φ : prog_lb (marked_node n ep flags) l -∗ pin n ep KUser -∗
  (∀ r : Z * Z, pin n ep KUser -∗ (⌜r.1 = 0 ∧ loops n ep = false⌝ → marked n ep flags l r.2) -∗ Φ r) -∗
  wp n (scif_fence_mark conn again n ep flags mark) Φ.
Proof.
  iIntros "#Hl Hk HΦ". unfold scif_fence_mark, scif_verify_epd. iApply wp_bind. iApply wp_choose. iIntros (v _). rewrite loops_eqb.
  destruct (Z.eqb_spec v 0) as [->|Hv0]; cbn [negb]; [|iApply wp_ret; iApply ("HΦ" with "Hk"); by iIntros ([? _])].
  destruct (negb (Z.ldiff _ _ =? 0)); [iApply wp_ret; iApply ("HΦ" with "Hk"); by iIntros ([? _])|].
  destruct (negb (init_flags _)); [iApply wp_ret; iApply ("HΦ" with "Hk"); by iIntros ([? _])|].
  destruct (loops n ep); [iApply wp_ret; iApply ("HΦ" with "Hk"); by iIntros ([_ ?])|].
  unfold marked, FenceTask.marked_node. destruct (isset flags SCIF_FENCE_INIT_SELF).
  - iApply (wp__scif_fence_mark with "Hl Hk"). iIntros (r) "Hk H". iApply ("HΦ" with "Hk"). iIntros ([He _]). iExists r.2. iSplit; [by iApply "H"|done].
  - iApply (wp_scif_send_fence_mark with "Hl Hk"). iIntros (r) "Hk H". iApply ("HΦ" with "Hk"). iIntros ([He _]).
    iDestruct ("H" with "[//]") as (k Hr) "H". iExists k. by iFrame.
Qed.

(** What is known of the mark given to [scif_fence_wait]. *)
Definition known_mark n ep mark (o : option (list copy)) : iProp Σ :=
  (if isset (u64 mark) SCIF_REMOTE_FENCE then opt_mark (peer n ep) o (ScifFence.cookie_of (s32 (u64 mark)))
   else opt_mark n o (ScifFence.cookie_of mark))%I.

#[export] Instance known_mark_persistent n ep mark o : Persistent (known_mark n ep mark o).
Proof. unfold known_mark. destruct (isset _ _); apply _. Qed.

Lemma wp_scif_fence_wait n ep mark o Φ : known_mark n ep mark o -∗ pin n ep KUser -∗
  (∀ err, pin n ep KUser -∗ (⌜err = 0 ∧ loops n ep = false⌝ → opt_ran (if isset (u64 mark) SCIF_REMOTE_FENCE then peer n ep else n) o) -∗ Φ err) -∗
  wp n (scif_fence_wait conn n ep mark) Φ.
Proof.
  iIntros "Hm Hk HΦ". unfold scif_fence_wait, scif_verify_epd. iApply wp_bind. iApply wp_choose. iIntros (v _). rewrite loops_eqb.
  destruct (Z.eqb_spec v 0) as [->|Hv0]; cbn [negb]; [|iApply wp_ret; iApply ("HΦ" with "Hk"); by iIntros ([? _])].
  destruct (loops n ep); [iApply wp_ret; iApply ("HΦ" with "Hk"); by iIntros ([_ ?])|].
  unfold known_mark. destruct (isset (u64 mark) SCIF_REMOTE_FENCE).
  - iApply (wp_scif_send_fence_wait with "Hm Hk"). iIntros (err) "Hk H". iApply ("HΦ" with "Hk"). iIntros ([He _]). by iApply "H".
  - iApply (wp__scif_fence_wait with "Hm Hk"). iIntros (err) "Hk H". iApply ("HΦ" with "Hk"). iIntros ([He _]). by iApply "H".
Qed.

(** A mark of [scif_fence_mark], given to [scif_fence_wait]. *)
Lemma marked_known n ep flags l mark : marked n ep flags l mark ⊢ known_mark n ep mark (Some l) ∗
  ⌜(if isset (u64 mark) SCIF_REMOTE_FENCE then peer n ep else n) = marked_node n ep flags⌝.
Proof.
  iIntros "(%k & #Hm & %Hk)". iDestruct (is_mark_range with "Hm") as %Hr. unfold known_mark, FenceTask.marked_node.
  destruct (isset flags SCIF_FENCE_INIT_SELF); subst mark.
  - destruct (cookie_of_local k Hr) as [-> ->]. by iFrame "Hm".
  - destruct (cookie_of_remote k Hr) as (E1 & E2 & E3). rewrite E2 E3 E1. by iFrame "Hm".
Qed.

(** What [scif_fence_signal] has done when it returns no error. *)
Definition signals n ep loff lval roff rval flags l : iProp Σ :=
  (let '(on, e) := if isset flags SCIF_FENCE_INIT_PEER then conn n ep else (n, ep) in
   let '(o1, v1, o2, v2) := if isset flags SCIF_FENCE_INIT_PEER then (s64 (u64 roff), rval, s64 (u64 loff), lval) else (loff, lval, roff, rval) in
   (if isset flags SCIF_SIGNAL_LOCAL then signal_at on e true o1 v1 l else True) ∗
   (if isset flags SCIF_SIGNAL_REMOTE then signal_at on e false o2 v2 l else True))%I.

Lemma wp_scif_fence_signal n ep loff lval roff rval flags l Φ : prog_lb (signal_node n ep flags) l -∗ pin n ep KUser -∗
  (∀ err, pin n ep KUser -∗ (⌜err = 0⌝ → signals n ep loff lval roff rval flags l) -∗ Φ err) -∗
  wp n (scif_fence_signal conn again n ep loff lval roff rval flags) Φ.
Proof.
  iIntros "#Hl Hk HΦ". unfold scif_fence_signal, scif_verify_epd, signals, FenceTask.signal_node. iApply wp_bind. iApply wp_choose. iIntros (v _).
  destruct (Z.eqb_spec v 0) as [->|Hv0]; cbn [negb]; [|iApply wp_ret; iApply ("HΦ" with "Hk"); by iIntros (?)].
  destruct (negb (signal_args _ _ _)); [iApply wp_ret; iApply ("HΦ" with "Hk"); by iIntros (?)|].
  destruct (isset flags SCIF_FENCE_INIT_PEER).
  { iApply (wp_scif_send_fence_signal with "Hl Hk"). iIntros (err) "Hk H". iApply ("HΦ" with "Hk"). destruct (conn n ep). iExact "H". }
  lazymatch goal with |- context [bind (if _ then _ else _) ?K] => set (rest := K) end.
  iAssert (∀ err, pin n ep KUser -∗
    (⌜err = 0⌝ → if isset flags SCIF_SIGNAL_LOCAL then signal_at n ep true loff lval l else True) -∗ wp n (rest err) Φ)%I with "[HΦ]" as "H".
  2:{ iApply wp_bind. destruct (isset flags SCIF_SIGNAL_LOCAL).
      - iApply (wp_scif_prog_signal with "Hl Hk"). iIntros (err) "Hk Hr". by iApply ("H" with "Hk").
      - iApply wp_ret. by iApply ("H" with "Hk"). }
  iIntros (err) "Hk H1". unfold rest. destruct (Z.eqb_spec err 0) as [->|He]; cbn [negb]; cycle 1.
  { iApply wp_ret. iApply ("HΦ" with "Hk"). by iIntros (?). }
  iDestruct ("H1" with "[//]") as "H1". destruct (isset flags SCIF_SIGNAL_REMOTE).
  - iApply (wp_scif_prog_signal with "Hl Hk"). iIntros (err) "Hk H2". iApply ("HΦ" with "Hk"). iIntros (He). iFrame "H1". by iApply "H2".
  - iApply wp_ret. iApply ("HΦ" with "Hk"). iIntros (_). by iFrame "H1".
Qed.

End Spec.
End FenceSpec.
