(* ===== verification/FenceSafe.v ===== *)
(** * Fences keep their promises

    Every run of threads that use fences keeps the interpretation [SI] of [FenceLogic]; so
    no thread uses freed memory, nor a callback unless a wait for all DMA has failed, what a
    mark covers has been executed when the wait for it succeeds, and signals are written
    after what was programmed before them.  In all runs no DMA request without flags is
    submitted after a clean-up has passed what it programmed (see [tx_submit] of
    [FenceProg]). *)
From iris.algebra Require Import lib.mono_list.
From iris.proofmode Require Import proofmode.
From iris.base_logic.lib Require Import own ghost_map ghost_var mono_nat.
From S2P Require Import Prelude RmaList DmaWindow DmaX200 DmaX200Inv DmaX200Sys FenceProg ScifFence FenceTask FenceLogic FenceDma FenceWins FenceRules FenceLock FenceMsg FenceWindow FenceSpec.
Local Open Scope Z_scope.

Module FenceSafe.
Import DmaX200 DmaX200Inv DmaX200Sys FenceProg ScifFence FenceTask FenceLogic FenceDma FenceWins FenceRules FenceLock FenceMsg FenceSpec.

Section Safe.
Context `{!fenceG Σ}.
Context (γ : bool → names).
Context (conn : bool → Z → bool * Z).
Context (again : nat).
Context (conn_inv : ∀ n ep, conn (conn n ep).1 (conn n ep).2 = (n, ep)).

#[local] Notation NI := (NI γ conn).
#[local] Notation SI := (SI γ conn).
#[local] Notation wp := (wp γ conn).

(** ** Tasks *)

(** What a result promises. *)
Definition promise (n : bool) (o : outcome) : iProp Σ :=
  (match o with
  | Over => True
  | Waited on before | Drained on before => ran_lb γ on before
  | Signalled ep loff lval roff rval flags before => signals γ conn n ep loff lval roff rval flags before
  end)%I.

Lemma wp_call {A} n ep (body : prog A) Φ (Ψ : A → iProp Σ) :
  (pin γ n ep KUser -∗ wp n body (fun a => pin γ n ep KUser ∗ Ψ a)) -∗
  (∀ r : option A, (if r is Some a then Ψ a else True) -∗ Φ r) -∗ wp n (call ep body) Φ.
Proof.
  iIntros "Hb HΦ". unfold call. iApply wp_bind. iApply wp_enter. iIntros ([]) "Hk"; [|iApply wp_ret; by iApply ("HΦ" $! None)].
  iApply wp_bind. iApply (wp_wand with "[Hb Hk]"); [by iApply "Hb"|]. iIntros (a) "[Hk Ha] !>". iApply wp_bind.
  iApply (wp_leave with "Hk"). iApply wp_ret. by iApply ("HΦ" $! (Some a)).
Qed.

Lemma wp_program n t : task_ok t → ⊢ wp n (program conn again n t) (promise n).
Proof.
  intros Hok. iApply wp_bupd. iMod (own_unit (mono_listUR (leibnizO copy)) (g_prog (γ true))) as "#Ht".
  iMod (own_unit (mono_listUR (leibnizO copy)) (g_prog (γ false))) as "#Hf". iModIntro.
  iAssert (∀ m, prog_lb γ m [])%I as "#Hl"; [by iIntros ([])|]. iClear "Ht Hf".
  destruct t as [ep flags mark|ep mark|ep loff lval roff rval flags| | |dst src len flags cb|poll chan|ep flags|times|ep a]; cbn [program].
  - iApply wp_bind. iApply (wp_call _ _ _ _ (fun _ => True)%I); [|iIntros (r) "_"; by iApply wp_ret].
    iIntros "Hk". iApply (wp_scif_fence_mark γ conn again conn_inv with "Hl Hk"). by iIntros (r) "$ _".
  - iApply wp_bind. iApply (wp_call _ _ _ _ (fun _ => True)%I); [|iIntros (r) "_"; by iApply wp_ret].
    iIntros "Hk". iApply (wp_scif_fence_wait γ conn conn_inv _ _ _ None with "[] Hk"); [unfold known_mark; by destruct (isset _ _)|].
    by iIntros (r) "$ _".
  - iApply wp_bind. iApply wp_programmed. iIntros (l) "#Hlb". iApply wp_bind.
    iApply (wp_call _ _ _ _ (fun err => ⌜err = 0⌝ → signals γ conn n ep loff lval roff rval flags l)%I).
    + iIntros "Hk". iApply (wp_scif_fence_signal γ conn again conn_inv with "Hlb Hk"). by iIntros (err) "$ $".
    + iIntros ([err|]) "H"; iApply wp_ret; [|done]. destruct (Z.eqb_spec err 0) as [->|]; [by iApply "H"|done].
  - iApply wp_bind. iApply wp_receive; [done|]. by iApply wp_ret.
  - iApply wp_bind. iApply wp_handle_remote_fences; [done|]. by iApply wp_ret.
  - iApply wp_bind. iApply wp_dma_transfer; [done|]. iIntros (err). by iApply wp_ret.
  - iApply wp_bind. iApply wp_programmed. iIntros (l) "#Hlb". iApply wp_bind. destruct poll.
    + iApply (wp_drain_poll with "Hlb"). iIntros (err) "H". iApply wp_ret. destruct (Z.eqb_spec err 0) as [->|]; [by iApply "H"|done].
    + iApply (wp_drain_intr with "Hlb"); [iApply no_count|]. iIntros (err) "H". iApply wp_ret. destruct (Z.eqb_spec err 0) as [->|]; [|done].
      by iDestruct ("H" with "[//]") as "[$ _]".
  - iApply wp_bind. iApply wp_programmed. iIntros (l) "#Hlb". iApply wp_bind.
    iApply (wp_call _ _ _ _ (fun r => ⌜r.1 = 0 ∧ FenceTask.loops conn n ep = false⌝ → marked γ conn n ep flags l r.2)%I).
    { iIntros "Hk". iApply (wp_scif_fence_mark γ conn again conn_inv with "Hlb Hk"). by iIntros (r) "$ $". }
    iIntros ([[err mark]|]) "H"; [|by iApply wp_ret]. destruct (Z.eqb_spec err 0) as [->|]; [|by iApply wp_ret]. cbn [fst snd].
    iApply wp_bind. destruct (FenceTask.loops conn n ep) eqn:El.
    + iApply (wp_call _ _ _ _ (fun _ => True)%I).
      * iIntros "Hk". iApply (wp_scif_fence_wait γ conn conn_inv _ _ _ None with "[] Hk"); [unfold known_mark; by destruct (isset _ _)|]. by iIntros (r) "$ _".
      * iIntros ([e|]) "_"; iApply wp_ret; [|done]. by rewrite andb_false_r.
    + iDestruct ("H" with "[//]") as "#Hmk". iDestruct (marked_known with "Hmk") as "[#Hm %Hon]".
      iApply (wp_call _ _ _ _ (fun e => ⌜e = 0⌝ → ran_lb γ (FenceTask.marked_node conn n ep flags) l)%I).
      * iIntros "Hk". iApply (wp_scif_fence_wait γ conn conn_inv _ _ _ (Some l) with "Hm Hk"). rewrite Hon El.
        iIntros (e) "$ H". iIntros (->). by iApply "H".
      * iIntros ([e|]) "H"; iApply wp_ret; [|done]. rewrite andb_true_r. destruct (Z.eqb_spec e 0) as [->|]; [by iApply "H"|done].
  - iApply wp_bind. iApply (wp_scif_rma_destroy_windows with "Hl"). by iApply wp_ret.
  - iApply wp_bind. iApply (wp_call _ _ _ _ (fun _ => True)%I); [|iIntros (r) "_"; by iApply wp_ret].
    iIntros "Hk". iApply (wp_scif_rma_list_munmap with "Hl Hk"). by iIntros "$".
Qed.

(** ** Steps *)

(** The interpretation of a whole configuration. *)
Definition CI (c : list (thread outcome) * world) : iProp Σ :=
  (SI c.2 ∗ [∗ list] t ∈ c.1, wp t.1 t.2 (promise t.1))%I.

Lemma dma_step_NI n x d : dma_step (dma x) d → NI n x ==∗ NI n (set_dma d x).
Proof.
  iIntros ((Hst & Hh & Hp & Hs)) "HN". iDestruct (NI_inv with "HN") as %(t & Ht & _).
  destruct (dma_step_inv _ _ _ Ht (dma_step_prompt _ _ (conj Hst (conj Hh (conj Hp Hs))))) as [t' Ht']. destruct (step_grows _ _ Hst) as [Hr Hc].
  iMod (dma_other _ _ _ _ _ t' with "HN") as "[$ _]"; [done| |done..]. split_and!; [by rewrite Hp|done|by rewrite Hs].
Qed.

Lemma uninit_NI n x ep : scif_rma_ep_can_uninit ep x = true → get (users x) ep = 0 → (∀ m, m ∈ inbox x → payload0 m ≠ ep) →
  NI n x -∗ NI n (on_live (.∖ {[ ep ]}) x).
Proof.
  iIntros (Hr Hu Hi) "(Hh & (%k & %Hk & Hc & (%m & Hm & %Hok) & Hs & HW & %Ho) & Hrq & HS & Hb & Hin & Hf & %Hl)".
  assert (get (fence_refcount x) ep = 0) as Hz.
  { unfold scif_rma_ep_can_uninit in Hr. rewrite !andb_true_iff !Z.eqb_eq in Hr. apply Hr. }
  iFrame "Hh". iSplitR "Hrq HS Hb Hin Hf".
  - iExists k. iSplit; [done|]. iFrame "Hc". iSplitL "Hm"; [|iSplitL "Hs"; [by iApply (sigs_same with "Hs")|]].
    + iExists m. iFrame. iPureIntro. by apply pins_ok_uninit.
    + iSplitL; [by iApply wins_uninit|done].
  - rewrite /FenceLogic.proto. cbn [reqs on_live inbox fences live]. iFrame. iPureIntro. intros m' Hm'. specialize (Hl _ Hm'). specialize (Hi _ Hm'). set_solver.
Qed.

Lemma step_CI c c' : pstep false c c' → CI c ==∗ CI c'.
Proof.
  intros Hstep. destruct Hstep as [tp w i n X o k r w' Hi Hf Hd|tp w n d Hd|tp w n W Hst|tp w n ep Hep Hr Hu Hin|]; [| | | |done]; iIntros "[HS Hwp]".
  - iDestruct (big_sepL_insert_acc with "Hwp") as "[Hi Hwp]"; [exact Hi|]. iMod ("Hi" with "HS") as "[_ Hi]".
    iMod ("Hi" with "[//]") as "[$ Hi]". iModIntro. by iApply "Hwp".
  - iFrame "Hwp". iDestruct (SI_acc _ _ _ n with "HS") as "(HN & _ & Hc)". iMod (dma_step_NI with "HN") as "HN"; [done|].
    iModIntro. by iApply "Hc".
  - iFrame "Hwp". iDestruct (SI_acc _ _ _ n with "HS") as "(HN & _ & Hc)". iMod (rma_NI with "HN") as "HN"; [done|].
    iModIntro. by iApply ("Hc" $! (on_ws (fun _ => W))).
  - iFrame "Hwp". iDestruct (SI_acc _ _ _ n with "HS") as "(HN & _ & Hc)". iModIntro. iApply "Hc". by iApply uninit_NI.
Qed.

Lemma steps_CI c c' : rtc (pstep false) c c' → CI c ==∗ CI c'.
Proof.
  induction 1 as [c|c c1 c' Hs _ IH]; iIntros "H"; [done|]. iMod (step_CI with "H") as "H"; [done|]. by iApply IH.
Qed.

(** ** What the interpretation says of a configuration *)



Lemma CI_promise c i n a : c.1 !! i = Some (n, Ret a) → CI c ==∗ SI c.2 ∗ promise n a.
Proof.
  iIntros (Hi) "[$ Hwp]". iDestruct (big_sepL_lookup with "Hwp") as "Hi"; [exact Hi|]. by iMod "Hi".
Qed.

Lemma SI_ran w on l : SI w -∗ ran_lb γ on l -∗ ⌜l `prefix_of` ran (dma (nd w on))⌝.
Proof. iIntros "HS Hl". iDestruct (SI_acc _ _ _ on with "HS") as "((Hh & _) & _)". by iApply (hist_ran_lb with "Hh"). Qed.

(** A signal of endpoint [ep] that has been programmed: [l] are the windows that the
    endpoint, or its peer, had when they were looked at under the lock, and [d] the one of
    them that covers the offset; the place of the copy to it is after all of [before], when
    the engine gets there it reads [v], and at an offset that is a multiple of eight its
    bytes are those of the window. *)
Definition signal_done (x : node) (ep : Z) (self : bool) (off v : Z) (before : list copy) : Prop :=
  ∃ l d a p, ((ep, self, l) ∈ seen (ws x) ∧ query off l = (0, Some d)) ∧
    (window_good d ∧ DmaWindow.w_offset d <= off ∧ off + 8 <= DmaWindow.w_end d) ∧ (length before <= p)%nat ∧
    DmaX200Sys.prog (dma x) !! p = Some (a, DmaWindow.dma_byte d off, 8) ∧
    ((p < length (ran (dma x)))%nat → reads x !! p = Some (Some v)) ∧
    ((8 | off) → ∀ j, 0 <= j < 8 → DmaWindow.dma_byte d (off + j) = DmaWindow.dma_byte d off + j).

Lemma SI_signalled w n ep self off v l : SI w -∗ signal_at γ conn n ep self off v l -∗
  ⌜FenceTask.loops conn n ep = true ∨ signal_done (nd w n) ep self off v l⌝.
Proof.
  iIntros "HS Hs". rewrite /FenceLogic.signal_at. destruct (FenceTask.loops conn n ep); [by iLeft|].
  iDestruct "Hs" as "(%wl & %d & (%sl & Hsl & %Hin) & %Hd & %p & %a & %Hp & Hs)".
  iDestruct (SI_acc _ _ _ n with "HS") as "((_ & (%k & _ & _ & _ & (%σ & Ha & _ & _ & _ & %Hσ) & HW & _) & _) & _)".
  iDestruct (ghost_map_lookup with "Ha Hs") as %Hl.
  iDestruct "HW" as "(%L & %T & %E & _ & _ & _ & _ & _ & Hsa & _ & _)". iDestruct (ml_lb with "Hsa Hsl") as %Hpre.
  iPureIntro. right. destruct (Hσ _ _ _ _ Hl) as [H1 H2]. destruct Hd as (Hq & Hg & Ho & He).
  exists wl, d, (a + offsetof_val), p. split_and!; try done; [destruct Hpre as [z ->]; apply elem_of_app; by left|].
  intros H8. apply (FenceWindow.dst_spec d off Hg); [lia|done|done].
Qed.

End Safe.

(** ** The start of a run *)

Section Start.
Context `{!fenceG Σ}.
Context (conn : bool → Z → bool * Z).

Lemma alloc_node da eps : 0 <= da < 2 ^ 48 → ⊢ |==> ∃ g, ∀ γ n, ⌜γ n = g⌝ -∗ NI γ conn n (start_node da eps).
Proof.
  iIntros (Hda).
  iMod (own_alloc (●ML ([] : list (leibnizO copy)))) as (g1) "H1"; [apply mono_list_auth_valid|].
  iMod (own_alloc (●ML ([] : list (leibnizO copy)))) as (g2) "H2"; [apply mono_list_auth_valid|].
  iMod (own_alloc (●ML ([] : list (leibnizO sub)))) as (g3) "H3"; [apply mono_list_auth_valid|].
  iMod (ghost_var_alloc (None : option (Z * Z))) as (g4) "[H4 H4']".
  iMod (ghost_map_alloc_empty (K:=Z) (V:=scif_status)) as (g5) "H5".
  iMod (ghost_map_alloc_empty (K:=Z) (V:=scif_fence_info)) as (g6) "H6".
  iMod (ghost_map_alloc_empty (K:=Z) (V:=req_spec)) as (g7) "H7".
  iMod (ghost_map_alloc_empty (K:=nat) (V:=Z * Z * Z)) as (g8) "H8".
  iMod (ghost_map_alloc_empty (K:=nat) (V:=())) as (g9) "H9".
  iMod (ghost_map_alloc_empty (K:=nat) (V:=Z * kind)) as (g10) "H10".
  iMod (ghost_map_alloc_empty (K:=Z) (V:=wlists * nat)) as (g11) "H11".
  iMod (ghost_map_alloc_empty (K:=nat) (V:=Z * nat)) as (g12) "H12".
  iMod (ghost_map_alloc_empty (K:=nat) (V:=Z)) as (g13) "H13".
  iMod (mono_nat_own_alloc 0) as (g14) "[H14 _]".
  iMod (mono_nat_own_alloc 0) as (g15) "[H15 _]".
  iMod (own_alloc (●ML ([] : list (leibnizO (Z * bool * list DmaWindow.dma_window))))) as (g16) "H16"; [apply mono_list_auth_valid|].
  iModIntro. iExists (Names g1 g2 g3 g4 g5 g6 g7 g8 g9 g10 g11 g12 g13 g14 g15 g16). iIntros (γ n Hγ).
  iSplitL "H1 H2 H3 H4 H4'"; [|iSplitL "H5 H8 H9 H10 H11 H12 H13 H14 H15 H16"].
  - iExists 0. iSplit; [iPureIntro; split; [by apply dma_init_inv|done]|].
    rewrite /prog_auth /ran_auth /subs_auth /held_tok Hγ. cbn -[mono_list_auth]. iFrame.
  - iExists 0%nat. iSplit; [done|]. iSplit; [done|]. iSplitL "H10"; [|iSplitL "H5 H8 H9"; [|iSplitL; [|done]]].
    + iExists ∅. rewrite Hγ. iFrame. iPureIntro. split; [done..| |]; [intros i ep k; by rewrite lookup_empty|done].
    + iExists ∅. rewrite /sigs_at Hγ fmap_empty. iFrame. iSplit; [by iApply big_sepM_empty|]. iPureIntro. intros p a v dst. by rewrite lookup_empty.
    + iExists ∅, ∅, ∅. rewrite Hγ. cbn -[mono_list_auth]. iFrame. iPureIntro. split; [done|]. apply wins_ok_start.
  - rewrite /proto Hγ. cbn. iFrame "H6". iSplitL "H7"; [iExists ∅; iFrame; by rewrite !dom_empty_L|].
    iSplit; [by iApply big_sepM_empty|]. iSplit; [done|]. iSplit; [done|]. iPureIntro. intros m Hm. by apply elem_of_nil in Hm.
Qed.

Lemma alloc_start da db ea eb : 0 <= da < 2 ^ 48 → 0 <= db < 2 ^ 48 → ⊢ |==> ∃ γ, SI γ conn (start da db ea eb).
Proof.
  iIntros (Ha Hb). iMod (alloc_node da ea Ha) as (ga) "Ha". iMod (alloc_node db eb Hb) as (gb) "Hb". iModIntro.
  iExists (fun n : bool => if n then ga else gb). rewrite /SI. cbn [nd start]. iSplitL "Ha"; [by iApply "Ha"|]. iSplitL "Hb"; [by iApply "Hb"|done].
Qed.

End Start.

(** ** Runs *)

(** The tasks and the nodes of a run. *)
Record setup := Setup {
  s_conn : bool → Z → bool * Z; s_again : nat; s_tasks : list (bool * task);
  s_da : Z; s_db : Z; s_ea : gset Z; s_eb : gset Z }.

Definition setup_ok (s : setup) : Prop :=
  (∀ n ep, s_conn s (s_conn s n ep).1 (s_conn s n ep).2 = (n, ep)) ∧ Forall (fun t => task_ok t.2) (s_tasks s) ∧
  0 <= s_da s < 2 ^ 48 ∧ 0 <= s_db s < 2 ^ 48.

Definition begin (s : setup) : list (thread outcome) * world :=
  (threads (s_conn s) (s_again s) (s_tasks s), start (s_da s) (s_db s) (s_ea s) (s_eb s)).

(** What follows from the interpretation of any state of a run. *)
Lemma run_adequate s c (P : Prop) : setup_ok s → rtc (pstep false) (begin s) c →
  (∀ `{!fenceG Σ} γ, CI (Σ:=Σ) γ (s_conn s) c ==∗ ⌜P⌝) → P.
Proof.
  intros (Hc & Ht & Hda & Hdb) Hrun HP. apply (pure_soundness (PROP:=iPropI fenceΣ)). apply uPred.bupd_soundness; [apply _|].
  iMod (alloc_start (s_conn s) (s_da s) (s_db s) (s_ea s) (s_eb s)) as (γ) "HS"; [done..|].
  iMod (steps_CI γ _ Hc _ _ Hrun with "[HS]") as "H"; [|by iApply HP].
  iFrame "HS". cbn [begin fst]. rewrite /threads big_sepL_fmap. cbn [fst snd].
  iApply big_sepL_intro. iIntros "!>" (k t Hk). iApply wp_program; [done|]. by eapply Forall_lookup_1 in Ht.
Qed.

(** The nodes of a run are as the interpretation says, and so are the results. *)
Lemma run_promise s c i n a (P : Prop) : setup_ok s → rtc (pstep false) (begin s) c → returned c.1 i = Some (n, a) →
  (∀ `{!fenceG Σ} γ, SI (Σ:=Σ) γ (s_conn s) c.2 -∗ promise γ (s_conn s) n a -∗ ⌜P⌝) → P.
Proof.
  intros Hs Hrun Hret HP. apply (run_adequate s c); [done..|]. iIntros (Σ ? γ) "H".
  iMod (CI_promise _ _ _ _ _ _ (returned_ret _ _ _ _ Hret) with "H") as "[HS Hp]". iModIntro. iApply (HP with "HS Hp").
Qed.

(** ** Concrete runs *)

Definition two_nodes (n : bool) (ep : Z) : bool * Z := (negb n, ep).

(** A mark of the card's transfers asked for by the management node, and the wait for it. *)
Definition remote_setup : setup :=
  Setup two_nodes 0 [(false, TTransfer 65536 131072 5000 1 None); (true, TMarkWait 1 SCIF_FENCE_INIT_PEER);
    (false, TReceive); (true, TReceive); (false, TReceive); (false, TFences); (true, TReceive)] 4096 8192 {[1]} {[1]}.

Definition turns (i : nat) (l : list Z) : list move := (fun z => MOp i (HVal z)) <$> l.

Definition remote_moves : list move :=
  turns 0 [0; 0; 0] ++ turns 1 [0; 0; 0; 77; 0; 0; 0; 0] ++ turns 2 [0; 0; 0; 0; 0; 0; 0; 0; 0] ++ turns 3 [0; 0; 0; 0; 0] ++
  turns 1 [0; 0; 0; 0] ++ turns 1 [0; 0; 77; 0; 0; 0] ++ turns 4 [0; 1; 0; 0; 0] ++ replicate 3 (MEngine false) ++
  turns 5 [0; 0; 0; 0; 0] ++ turns 6 [0; 0; 0; 0; 0] ++ turns 1 [0; 0; 0; 0].

Definition reach (dies : bool) (s : setup) (ms : list move) : list (thread outcome) * world := default (begin s) (run dies ms (begin s)).
Definition reached : setup → list move → list (thread outcome) * world := reach false.

Lemma reached_run dies s ms : (if run dies ms (begin s) is Some _ then true else false) = true → rtc (pstep dies) (begin s) (reach dies s ms).
Proof. unfold reach. destruct (run _ _ _) as [c|] eqn:E; [|done]. intros _. by eapply FenceTask.run_sound. Qed.

Lemma two_nodes_inv n ep : two_nodes (two_nodes n ep).1 (two_nodes n ep).2 = (n, ep).
Proof. by destruct n. Qed.

(** A window of two pages, good for signals. *)
Definition signal_window (addr off da : Z) : DmaWindow.dma_window :=
  DmaWindow.DWin (RmaList.Window addr 2 3 off 0 0 RmaList.SCIF_UNREG_NOT_INITIATED) RmaList.SCIF_WINDOW_SELF 1 [da] [2] [].

Lemma signal_window_ok : windows_ok [signal_window 1 0x20000 0x500000].
Proof.
  split_and!; [constructor; [|constructor]|split; [constructor; [split_and!; cbn; lia|constructor]|repeat constructor]|apply NoDup_singleton].
  assert (DmaWindow.chunks (signal_window 1 0x20000 0x500000) = [(0x500000, 2)]) as Ec by reflexivity. split.
  - constructor; rewrite ?Ec; [split_and!; cbn; lia|by exists 32|reflexivity| |reflexivity|cbn; lia].
    constructor; [split_and!; cbn; [lia|lia|by exists 1280|lia]|constructor].
  - rewrite Ec. constructor; [cbn; lia|constructor].
Qed.

(** Signals that the peer writes, on a window of its own and on one of this node. *)
Definition signal_setup : setup :=
  Setup two_nodes 0 [(false, TTransfer 65536 131072 5000 1 None);
    (true, TSignal 1 0x20008 42 0x20010 43 (Z.lor SCIF_FENCE_INIT_PEER (Z.lor SCIF_SIGNAL_LOCAL SCIF_SIGNAL_REMOTE)));
    (false, TReceive); (true, TReceive); (false, TReceive); (true, TReceive)] 4096 8192 {[1]} {[1]}.

Definition registered (n self : bool) : move := MRegister n 1 self _ signal_window_ok.

Definition signal_moves : list move :=
  [registered false true; registered false false] ++ turns 0 [0; 0; 0] ++ turns 1 [0; 0; 0; 77; 0; 0] ++
  turns 2 [0; 0; 0; 0; 0; 0; 1000; 0; 0; 0; 0; 0; 0; 0] ++ turns 3 [0; 0; 0; 0; 0] ++ turns 1 [0; 0; 0; 0] ++
  turns 4 [0; 0; 0; 0; 0; 0; 2000; 0; 0; 0; 0; 0; 0; 0] ++ turns 5 [0; 0; 0; 0; 0] ++ turns 1 [0; 0; 0; 0] ++
  replicate 8 (MEngine false).



(** Waits for all DMA, by polling and by an interrupt. *)
Definition drain_setup : setup :=
  Setup two_nodes 0 [(true, TTransfer 65536 131072 5000 1 None); (true, TDrain true true); (true, TDrain false true)] 4096 8192 {[1]} {[1]}.

Definition drain_moves : list move :=
  turns 0 [0; 0; 0] ++ turns 1 [0; 0; 0; 0] ++ replicate 3 (MEngine true) ++ turns 1 [0] ++ turns 2 [0; 9; 0; 0; 0] ++
  [MEngine true; MEngine true; MInterrupt true; MCleanup true] ++ turns 2 [0; 0].

(** A wait on the peer that is refused there while the peer is lost. *)
Definition late_setup : setup :=
  Setup two_nodes 0 [(true, TWait 1 (2 - 2 ^ 31)); (false, TReceive); (true, TReceive)] 4096 8192 {[1]} {[1]}.

Definition late_moves : list move := turns 0 [0; 0; 77; 0; 0; 0] ++ turns 1 [0; 0; 0] ++ turns 2 [0; 0] ++ [MDie] ++ turns 0 [0; 0; 0; 0].

Lemma simple_setup_ok ts : Forall (fun t => task_ok t.2) ts → setup_ok (Setup two_nodes 0 ts 4096 8192 {[1]} {[1]}).
Proof. intros H. split_and!; [apply two_nodes_inv|exact H|done..]. Qed.

Ltac setup_ok := apply simple_setup_ok; once (repeat (constructor; [cbn; try done; unfold req_ok; lia|]); constructor).

(** ** Properties *)



(** C6: When [scif_fence_mark] and then [scif_fence_wait] on its mark return 0, every
    descriptor that had been programmed on the channel of the marked node before the call
    to [scif_fence_mark] has been executed: of this node with [SCIF_FENCE_INIT_SELF], of the
    peer, through the messages of the protocol and the worker there, with
    [SCIF_FENCE_INIT_PEER].  No request without flags is submitted late. *)
Theorem scif_fence_wait_waits s c i n on before : setup_ok s → rtc (pstep false) (begin s) c →
  returned c.1 i = Some (n, Waited on before) → before `prefix_of` ran (dma (nd c.2 on)).
Proof. intros Hs Hrun Hret. apply (run_promise _ _ _ _ _ _ Hs Hrun Hret). iIntros (Σ ? γ) "HS Hp". iApply (SI_ran with "HS Hp"). Qed.

Lemma scif_fence_wait_waits_witness :
  [(131072, 65536, 5000); (8192, 8192, 0)] `prefix_of` ran (dma (nd (reached remote_setup remote_moves).2 false)).
Proof.
  apply (scif_fence_wait_waits remote_setup _ 1 true); [setup_ok|apply reached_run; vm_compute; reflexivity|vm_compute; reflexivity].
Defined.

(** What [scif_fence_signal] has done when it returned no error, from the node that writes
    the signals: this one, or the peer. *)
Definition signals_done (s : setup) (w : world) (n : bool) (ep loff lval roff rval flags : Z) (before : list copy) : Prop :=
  let '(on, e) := if isset flags SCIF_FENCE_INIT_PEER then s_conn s n ep else (n, ep) in
  let '(o1, v1, o2, v2) :=
    if isset flags SCIF_FENCE_INIT_PEER then (s64 (u64 roff), rval, s64 (u64 loff), lval) else (loff, lval, roff, rval) in
  (isset flags SCIF_SIGNAL_LOCAL = true → FenceTask.loops (s_conn s) on e = true ∨ signal_done (nd w on) e true o1 v1 before) ∧
  (isset flags SCIF_SIGNAL_REMOTE = true → FenceTask.loops (s_conn s) on e = true ∨ signal_done (nd w on) e false o2 v2 before).

(** C16: When [scif_fence_signal] returns 0 then for each flag [SCIF_SIGNAL_LOCAL] and
    [SCIF_SIGNAL_REMOTE] that is set (and unless the endpoint is on the management node with
    its peer, where the CPU stores the value at once) the node that writes the signals has
    found the offset in the windows that its endpoint, for a local signal, or the peer, for
    a remote one, had registered; its channel has a copy to the DMA address of the offset in
    that window, placed after everything that had been programmed there before the call; and
    when the engine executes that copy it reads the value: the block of the pool that holds
    it has neither been freed nor overwritten by then.  Offsets and values are those the code
    sends: with [SCIF_FENCE_INIT_SELF] [loff] and [lval] for the local signal and [roff] and
    [rval] for the remote one, as the documentation says; with [SCIF_FENCE_INIT_PEER] the
    node is the peer, whose answers the call awaits, and the two pairs are exchanged, against
    the documentation ([scif_signal_by_peer_swaps]).  No request without flags is submitted
    late. *)
Theorem scif_fence_signal_signals s c i n ep loff lval roff rval flags before : setup_ok s → rtc (pstep false) (begin s) c →
  returned c.1 i = Some (n, Signalled ep loff lval roff rval flags before) →
  signals_done s c.2 n ep loff lval roff rval flags before.
Proof.
  intros Hs Hrun Hret. apply (run_promise _ _ _ _ _ _ Hs Hrun Hret). iIntros (Σ ? γ) "HS Hp". rewrite /signals_done /promise /signals.
  destruct (if isset flags SCIF_FENCE_INIT_PEER then s_conn s n ep else (n, ep)) as [on e].
  destruct (if isset flags SCIF_FENCE_INIT_PEER then _ else (loff, lval, roff, rval)) as [[[o1 v1] o2] v2]. iDestruct "Hp" as "[H1 H2]". iSplit.
  - iIntros (Hf). rewrite Hf. iApply (SI_signalled with "HS H1").
  - iIntros (Hf). rewrite Hf. iApply (SI_signalled with "HS H2").
Qed.

Lemma scif_fence_signal_signals_witness :
  signals_done signal_setup (reached signal_setup signal_moves).2 true 1 0x20008 42 0x20010 43 50 [(131072, 65536, 5000); (8192, 8192, 0)].
Proof.
  apply (scif_fence_signal_signals signal_setup _ 1); [setup_ok|apply reached_run; vm_compute; reflexivity|vm_compute; reflexivity].
Defined.

(** C26: When [scif_drain_dma_poll] or [scif_drain_dma_intr] returns 0, every descriptor that
    had been programmed on the channel of the node before the call has been executed.  No
    request without flags is submitted late. *)
Theorem scif_drain_drains s c i n on before : setup_ok s → rtc (pstep false) (begin s) c →
  returned c.1 i = Some (n, Drained on before) → before `prefix_of` ran (dma (nd c.2 on)).
Proof. intros Hs Hrun Hret. apply (run_promise _ _ _ _ _ _ Hs Hrun Hret). iIntros (Σ ? γ) "HS Hp". iApply (SI_ran with "HS Hp"). Qed.

Lemma scif_drain_drains_witness :
  [(131072, 65536, 5000); (4096, 4096, 0); (4096, 4096, 0)] `prefix_of` ran (dma (nd (reached drain_setup drain_moves).2 true)).
Proof. apply (scif_drain_drains drain_setup _ 2 true); [setup_ok|apply reached_run; vm_compute; reflexivity|vm_compute; reflexivity]. Defined.

(** C38: When a node is lost, a reply that has already been taken from the queue is written
    to a fence request that has been freed: the call gives up its wait with [-ENODEV] as
    soon as the peer is not alive and frees the request, while the handler of the answer is
    between its look at the message and its writes to the request.  Nothing but the wait of
    the call that is interrupted holds the request. *)
Theorem scif_fence_late_reply_uses_freed : ∃ s c, setup_ok s ∧ rtc (pstep true) (begin s) c ∧
  (∃ r f k, c.1 !! 2%nat = Some (true, Op (write_req r f) k) ∧ fault true (write_req r f) c.2) ∧ broken c.
Proof.
  exists late_setup, (reach true late_setup late_moves). split; [setup_ok|]. split; [apply reached_run; vm_compute; reflexivity|].
  assert (match (reach true late_setup late_moves).1 !! 2%nat with
    | Some (true, Op o k) => match o with write_req r f => if reqs (nd (reach true late_setup late_moves).2 true) !! r is Some _ then false else true | _ => false end
    | _ => false end = true) as H by (vm_compute; reflexivity).
  revert H. generalize (reach true late_setup late_moves). intros c H.
  assert (∃ r f k, c.1 !! 2%nat = Some (true, Op (write_req r f) k) ∧ reqs (nd c.2 true) !! r = None) as (r & f & k & Hc & Hr).
  { destruct (c.1 !! 2%nat) as [[[] [|X o k]]|]; [done| |done..]. destruct o; try done. destruct (reqs _ !! r) eqn:E; [done|]. by exists r, f, k. }
  split; [by exists r, f, k|]. right. by exists 2%nat, true, unit, (write_req r f), k.
Qed.

End FenceSafe.
