(* ===== verification/FenceErrors.v ===== *)
(** * What the fence code gets wrong

    Two behaviours of [scif_fence_signal] that its interface does not promise: which
    signals the peer writes, and where the bytes of a signal go. *)
From S2P Require Import Prelude RmaList DmaWindow DmaX200 FenceProg ScifFence FenceTask FenceWindow.
Local Open Scope Z_scope.

Module FenceErrors.
Import RmaList DmaWindow FenceProg ScifFence FenceTask FenceWindow.

(** Every message that a program can send is one of [P]. *)
Fixpoint sends {A} (P : scifmsg → bool → Prop) (p : prog A) : Prop :=
  match p with
  | Ret _ => True
  | @Op _ X o k =>
      match o with send m to | send_connected m to => P m to | _ => True end ∧ ∀ x, sends P (k x)
  end.

Lemma sends_bind {A B} P (p : prog A) (f : A → prog B) : sends P p → (∀ a, sends P (f a)) → sends P (bind p f).
Proof. induction p as [a|X o k IH]; cbn [sends bind]; [auto|]. intros [Ho Hk] Hf. split; [done|]. intros x. by apply IH. Qed.

(** C40: With [SCIF_FENCE_INIT_PEER] and [SCIF_SIGNAL_LOCAL] alone the only message that
    [scif_fence_signal] sends asks the peer to write [rval] at [roff] in the address space
    of the peer: [lval] does not matter at all and [loff] only for the check of its
    alignment, so that what the flag asks for, [lval] at [loff] in the address space of the
    caller, is never written; the alignment of [roff] is not checked. *)
Theorem scif_signal_by_peer_swaps conn again n ep loff lval roff rval :
  let flags := Z.lor SCIF_FENCE_INIT_PEER SCIF_SIGNAL_LOCAL in
  sends (fun m to => m = Msg SCIF_SIG_LOCAL (conn n ep).2 (u64 roff) rval (payload3 m) ∧ to = (conn n ep).1)
    (scif_fence_signal conn again n ep loff lval roff rval flags) ∧
  (∀ loff' lval', isset loff' 3 = isset loff 3 →
     scif_fence_signal conn again n ep loff' lval' roff rval flags = scif_fence_signal conn again n ep loff lval roff rval flags) ∧
  (isset loff 3 = false → signal_args loff roff flags = true).
Proof.
  cbv zeta. split_and!.
  - unfold scif_fence_signal, scif_verify_epd. apply sends_bind; [done|]. intros v. destruct (negb (v =? 0)); [done|].
    destruct (negb (signal_args _ _ _)); [done|]. unfold scif_send_fence_signal, signal_msg, _scif_send_fence_signal_wait.
    repeat (done || (apply sends_bind; [|intros ?]) || (split; [by auto|intros ?]) || case_match); simplify_eq.
  - intros loff' lval' Hl. unfold scif_fence_signal, signal_args. by rewrite Hl.
  - intros Hl. unfold signal_args. by rewrite Hl.
Qed.

(** An offset is only required to be aligned to four bytes although a signal has eight:
    at the last word of a chunk of pages that the next chunk does not follow in memory, the
    arguments are accepted and the window is found, but the engine is given eight bytes at
    the end of the chunk, whose last four are not the bytes at the next offsets but
    whatever comes after the page. *)
Theorem scif_signal_leaves_page d a n b m cs v : window_good d → Z.land (prot (win d)) SCIF_PROT_WRITE = SCIF_PROT_WRITE →
  chunks d = (a, n) :: (b, m) :: cs → a + n * 4096 ≠ b →
  let off := w_offset d + n * 4096 - 4 in
  let flags := Z.lor SCIF_FENCE_INIT_SELF SCIF_SIGNAL_LOCAL in
  signal_args off v flags = true ∧ query off [d] = (0, Some d) ∧
  (__scif_off_to_dma_addr d off = a + n * 4096 - 4 ∧
   ∀ j, 4 <= j < 8 → dma_byte d (off + j) = b + (j - 4) ∧ dma_byte d (off + j) ≠ __scif_off_to_dma_addr d off + j).
Proof.
  intros Hg Hprot Hc Hgap off flags. pose proof Hg as [Hok Hbd]. pose proof Hok as [Hreg [q Hq] Hcnt Hcs Hpg Hint].
  rewrite Hc in Hcs, Hpg. apply Forall_cons in Hcs as [(Hn & Ha & _ & _) Hcs]. apply Forall_cons in Hcs as [(Hm & _ & _ & _) Hcs].
  cbn [fst snd] in *. rewrite !pages_of_cons in Hpg. cbn [snd] in Hpg. pose proof (pages_of_nonneg cs Hcs). pose proof (zlen_nonneg cs).
  pose proof Hreg as (R1 & _ & R3). fold (w_offset d) in R1, R3.
  assert (Ha4 : dma_byte d off = a + n * 4096 - 4).
  { unfold dma_byte, off. rewrite Hc. cbn [chunk_addr]. destruct (Z.ltb_spec (w_offset d + n * 4096 - 4 - w_offset d) (n * 4096)); lia. }
  assert (Haddr : __scif_off_to_dma_addr d off = a + n * 4096 - 4).
  { rewrite <- Ha4. apply (dst_spec d off Hg). rewrite (w_end_eq d Hok). unfold off. lia. }
  assert (Hb : ∀ j, 4 <= j < 8 → dma_byte d (off + j) = b + (j - 4)).
  { intros j Hj. unfold dma_byte, off. rewrite Hc. cbn [chunk_addr].
    destruct (Z.ltb_spec (w_offset d + n * 4096 - 4 + j - w_offset d) (n * 4096)); [lia|].
    destruct (Z.ltb_spec (w_offset d + n * 4096 - 4 + j - w_offset d - n * 4096) (m * 4096)); lia. }
  split_and!; [| |exact Haddr|].
  - unfold signal_args. assert (isset off 3 = false) as ->; [|done]. unfold isset. change 3 with (Z.ones 2). rewrite Z.land_ones by lia.
    replace off with (4 * (q * 1024 + n * 1024 - 1)) by (unfold off; lia). apply negb_false_iff, Z.eqb_eq. rewrite Z.mul_comm. by apply Z.mod_mul.
  - unfold query, scif_query_window. cbn [nr_bytes r_start fmap list_fmap]. change (8 =? 0) with false. cbn match.
    rewrite query_loop_cons by (done || unfold off; lia). cbv zeta. cbn [r_prot r_type nr_bytes]. fold (w_offset d). rewrite Hprot.
    destruct (Z.ltb_spec off (w_offset d)); [unfold off in *; lia|].
    destruct (Z.leb_spec (w_offset d + nr_pages (win d) * 4096) off); [unfold off in *; lia|]. cbn [negb Z.eqb SCIF_PROT_WRITE Pos.eqb].
    destruct (Z.leb_spec (off + 8) (w_offset d + nr_pages (win d) * 4096)); [|unfold off in *; lia].
    change (8 =? 8) with true. cbn match. rewrite bool_decide_eq_true_2 by by right. cbn [List.find]. by rewrite Z.eqb_refl.
  - intros j Hj. rewrite Haddr, Hb by done. lia.
Qed.

Lemma scif_signal_leaves_page_witness : ∃ d, window_good d ∧ signal_args 0x10ffc 0 (Z.lor SCIF_FENCE_INIT_SELF SCIF_SIGNAL_LOCAL) = true ∧
  query 0x10ffc [d] = (0, Some d) ∧ __scif_off_to_dma_addr d 0x10ffc = 0x100ffc ∧ dma_byte d 0x11000 = 0x300000.
Proof.
  set (d := DWin (Window 1 2 3 0x10000 0 0 SCIF_UNREG_NOT_INITIATED) SCIF_WINDOW_SELF 2 [0x100000; 0x300000] [1; 1] []).
  assert (chunks d = [(0x100000, 1); (0x300000, 1)]) as Ec by reflexivity.
  assert (window_good d) as Hg.
  { split; [|rewrite Ec; repeat (constructor; [cbn; lia|]); constructor].
    constructor; rewrite ?Ec; [split_and!; cbn; lia|by exists 16|reflexivity| |reflexivity|cbn; lia].
    constructor; [split_and!; cbn; [lia|lia|by exists 256|lia]|]. constructor; [split_and!; cbn; [lia|lia|by exists 768|lia]|constructor]. }
  exists d. split; [exact Hg|].
  destruct (scif_signal_leaves_page d 0x100000 1 0x300000 1 [] 0 Hg eq_refl Ec ltac:(lia)) as (H1 & H2 & H3 & H4).
  split; [exact H1|]. split; [exact H2|]. split; [exact H3|]. exact (proj1 (H4 4 ltac:(lia))).
Defined.

End FenceErrors.
