(* ===== verification/VopCopy.v ===== *)
(** * Data of virtio devices across PCIe

    Models the data path of [vop_host.c]: copies between memory of a caller and memory of the
    card, through a bounce buffer and the DMA engine or by the CPU, the walk over the
    descriptors of a ring ([vop_vringh_copy]) and the request that hands them to the caller
    ([_vop_virtio_copy]).  The rings themselves are those of the vringh library of the
    kernel, of which the requests only need what a descriptor chain is. *)
From S2P Require Import Prelude ScifFence.
Local Open Scope Z_scope.

Module VopCopy.

Definition VOP_INT_DMA_BUF_SIZE : Z := 65536.
Definition PAGE_SIZE : Z := 4096.
(** [PAGE_MASK], the bits of a page number. *)
Definition PAGE_MASK : Z := 2 ^ 64 - 4096.
Definition USHRT_MAX : Z := 65535.

(** [ALIGN] and [round_down] of the kernel, for powers of two. *)
Definition ALIGN (a x : Z) : Z := Z.land (u64 (a + x - 1)) (2 ^ 64 - x).
Definition round_down (a x : Z) : Z := Z.land a (2 ^ 64 - x).

(** ** Memories

    User memory, memory of the card and the bounce buffer of a ring. *)
Notation mem := (gmap Z Z).

(** [n] bytes, from the [k]-th on. *)
Fixpoint blit (n : nat) (dst : mem) (fd : Z → Z) (src : mem) (fs : Z → Z) (k : Z) : mem :=
  match n with O => dst | S n => blit n (<[fd k := src !!! fs k]> dst) fd src fs (k + 1) end.

Definition copy (n : Z) (dst : mem) (fd : Z → Z) (src : mem) (fs : Z → Z) : mem := blit (Z.to_nat n) dst fd src fs 0.

(** The statistics of [struct vop_vdev]. *)
Record stats := Stats {
  in_bytes : Z; in_bytes_dma : Z; out_bytes : Z; out_bytes_dma : Z; tx_len_unaligned : Z; tx_dst_unaligned : Z }.

(** [plan]: the results of what can fail, in order; success when there are no more.  For
    a copy of user memory it is the number of bytes that are not copied. *)
Record io := Io { user : mem; card : mem; buf : mem; st : stats; plan : list Z }.

Definition next (s : io) : Z * io :=
  match plan s with [] => (0, s) | r :: l => (r, Io (user s) (card s) (buf s) (st s) l) end.
Definition set_user (m : mem) (s : io) : io := Io m (card s) (buf s) (st s) (plan s).
Definition set_card (m : mem) (s : io) : io := Io (user s) m (buf s) (st s) (plan s).
Definition set_buf (m : mem) (s : io) : io := Io (user s) (card s) m (st s) (plan s).
Definition set_stats (f : stats → stats) (s : io) : io := Io (user s) (card s) (buf s) (f (st s)) (plan s).

Definition add_in (dma n : Z) (t : stats) : stats :=
  Stats (u64 (in_bytes t + n)) (u64 (in_bytes_dma t + dma)) (out_bytes t) (out_bytes_dma t) (tx_len_unaligned t) (tx_dst_unaligned t).
Definition add_out (dma n : Z) (t : stats) : stats :=
  Stats (in_bytes t) (in_bytes_dma t) (u64 (out_bytes t + n)) (u64 (out_bytes_dma t + dma)) (tx_len_unaligned t) (tx_dst_unaligned t).
Definition add_unaligned (len dst : Z) (t : stats) : stats :=
  Stats (in_bytes t) (in_bytes_dma t) (out_bytes t) (out_bytes_dma t) (u64 (tx_len_unaligned t + len)) (u64 (tx_dst_unaligned t + dst)).

(** What is not copied, of [n] bytes. *)
Definition left_of (n r : Z) : Z := Z.max 0 (Z.min n r).

(** ** The driver *)

Section Driver.
(** The DMA engine: whether there is a channel, its [copy_align], and the card address that
    a bus address leads to; the module parameter; the address of the aperture.  [iommu]:
    there is one, and the bus address it gives to the first page of a mapping. *)
Context (chan : bool) (copy_align : Z) (bus : Z → Z) (disable_dma : bool) (aper_pa : Z) (iommu : option (Z → Z)).

Definition dma_alignment : Z := 2 ^ copy_align.
Definition x200 : bool := ScifFence.is_dma_copy_aligned copy_align 1 1 1.

(** Between the card at bus address [daddr] and the start of the buffer: with [to_buf] to
    the buffer.  The result of [dma_sync_wait] is a status, 0 when complete. *)
Definition vop_sync_dma (to_buf : bool) (daddr len : Z) (s : io) : Z * io :=
  if negb chan then (- EBUSY, s)
  else
    let '(no_tx, s) := next s in
    if negb (no_tx =? 0) then (- ENOMEM, s)
    else
      let '(no_cookie, s) := next s in
      if negb (no_cookie =? 0) then (- ENOMEM, s)
      else
        let '(status, s) := next s in
        if negb (status =? 0) then (status, s)
        else if to_buf then (0, set_buf (copy len (buf s) (fun k => k) (card s) (fun k => bus (daddr + k))) s)
        else (0, set_card (copy len (card s) (fun k => bus (daddr + k)) (buf s) (fun k => k)) s).

Definition copy_to_user (dst : Z) (src : mem) (fs : Z → Z) (n : Z) (s : io) : Z * io :=
  let '(r, s) := next s in
  let r := left_of n r in (r, set_user (copy (n - r) (user s) (fun k => dst + k) src fs) s).

(** The error, and what is in [*dma_addr] afterwards; a table that cannot be allocated is
    no error. *)
Definition vop_dma_map (daddr dma_addr num_pages : Z) (s : io) : Z * Z * io :=
  match iommu with
  | Some sg_dma_address =>
      let '(no_sg, s) := next s in
      if negb (no_sg =? 0) then (0, dma_addr, s)
      else
        let '(missing, s) := next s in
        let rc := num_pages - missing in
        if negb (rc =? num_pages) then (rc, dma_addr, s)
        else (0, u64 (sg_dma_address (aper_pa + daddr) + Z.land daddr PAGE_MASK), s)
  | None => (0, u64 (aper_pa + daddr), s)
  end.

(** The loop of [vop_virtio_copy_to_user]. *)
Fixpoint to_user_loop (fuel : nat) (ubuf len daddr dma_offset : Z) (s : io) : option (Z * io) :=
  match fuel with
  | O => None
  | S fuel =>
      if len =? 0 then Some (0, s)
      else
        let partlen := Z.min len VOP_INT_DMA_BUF_SIZE in
        let '(err, s) := vop_sync_dma true daddr (ALIGN partlen dma_alignment) s in
        if negb (err =? 0) then Some (err, s)
        else
          let '(lft, s) := copy_to_user ubuf (buf s) (fun k => dma_offset + k) (partlen - dma_offset) s in
          if negb (lft =? 0) then Some (- EFAULT, s)
          else to_user_loop fuel (ubuf + partlen) (len - partlen) (u64 (daddr + partlen)) 0 (set_stats (add_in partlen partlen) s)
  end.

Definition rounds (len : Z) : nat := S (S (Z.to_nat (len / VOP_INT_DMA_BUF_SIZE))).

Definition vop_virtio_copy_to_user (ubuf len daddr : Z) (s : io) : option (Z * io) :=
  if disable_dma then
    let '(lft, s) := copy_to_user ubuf (card s) (fun k => daddr + k) len s in
    if negb (lft =? 0) then Some (- EFAULT, s) else Some (0, set_stats (add_in 0 len) s)
  else
    let dma_offset := daddr - round_down daddr dma_alignment in
    let daddr := daddr - dma_offset in
    let len := len + dma_offset in
    let '(_, daddr, s) :=
      if x200 then vop_dma_map daddr daddr ((daddr + len) / PAGE_SIZE - daddr / PAGE_SIZE + 1) s else (0, daddr, s) in
    to_user_loop (rounds len) ubuf len daddr dma_offset s.

(** [copy_from_user] to the buffer and to the card. *)
Definition copy_from_user_buf (src n : Z) (s : io) : Z * io :=
  let '(r, s) := next s in
  let r := left_of n r in (r, set_buf (copy (n - r) (buf s) (fun k => k) (user s) (fun k => src + k)) s).
Definition copy_from_user_io (dst src n : Z) (s : io) : Z * io :=
  let '(r, s) := next s in
  let r := left_of n r in (r, set_card (copy (n - r) (card s) (fun k => dst + k) (user s) (fun k => src + k)) s).

(** The loop of [vop_virtio_copy_from_user]: its error, and what is left with the
    addresses reached. *)
Fixpoint from_user_loop (fuel : nat) (ubuf len daddr dbuf : Z) (s : io) : option (Z * (Z * Z * Z) * io) :=
  match fuel with
  | O => None
  | S fuel =>
      if len =? 0 then Some (0, (ubuf, len, dbuf), s)
      else
        let partlen := Z.min len VOP_INT_DMA_BUF_SIZE in
        let '(lft, s) := copy_from_user_buf ubuf partlen s in
        if negb (lft =? 0) then Some (- EFAULT, (ubuf, len, dbuf), s)
        else
          let '(err, s) := vop_sync_dma false daddr (ALIGN partlen dma_alignment) s in
          if negb (err =? 0) then Some (err, (ubuf, len, dbuf), s)
          else from_user_loop fuel (ubuf + partlen) (len - partlen) (u64 (daddr + partlen)) (dbuf + partlen)
                 (set_stats (add_out partlen partlen) s)
  end.

Definition by_cpu (ubuf len dbuf : Z) (s : io) : Z * io :=
  let '(lft, s) := copy_from_user_io dbuf ubuf len s in
  if negb (lft =? 0) then (- EFAULT, s) else (0, set_stats (add_out 0 len) s).

Definition vop_virtio_copy_from_user (ubuf len daddr dlen : Z) (s : io) : option (Z * io) :=
  let '(dma, s) :=
    if negb (Z.land daddr (dma_alignment - 1) =? 0) then (false, set_stats (add_unaligned 0 len) s)
    else if dlen <? ALIGN len dma_alignment then (false, set_stats (add_unaligned len 0) s)
    else (negb disable_dma, s) in
  if negb dma then Some (by_cpu ubuf len daddr s)
  else
    let '(_, da, s) :=
      if x200 then vop_dma_map daddr daddr ((daddr + len) / PAGE_SIZE - daddr / PAGE_SIZE + 1) s else (0, daddr, s) in
    '(err, (ubuf, len, dbuf), s) ← from_user_loop (rounds len) ubuf len da daddr s;
    if negb (err =? 0) then Some (err, s) else Some (by_cpu ubuf len dbuf s).

(** ** Descriptors of a ring

    [struct vringh_kiov]: the ranges of a descriptor chain, [used] of them, with the place
    of the next byte. *)
Record vringh_kiov := Kiov { iov : list (Z * Z); i : Z; used : Z; consumed : Z }.

Definition exhausted (k : vringh_kiov) : bool := i k =? used k.

Definition vop_vringh_iov_consumed (k : vringh_kiov) : Z :=
  u32 (consumed k + foldr Z.add 0 (snd <$> take (Z.to_nat (i k)) (iov k))).

(** The loop of [vop_vringh_copy]: result, bytes copied. *)
Fixpoint vringh_loop (fuel : nat) (read : bool) (k : vringh_kiov) (ubuf len tot_len : Z) (s : io) : option (Z * Z * vringh_kiov * io) :=
  match fuel with
  | O => None
  | S fuel =>
      if negb (len =? 0) && (i k <? used k) then
        let '(iov_base, iov_len) := default (0, 0) (iov k !! Z.to_nat (i k)) in
        let partlen := Z.min iov_len len in
        '(ret, s) ← (if read then vop_virtio_copy_to_user ubuf partlen iov_base s
                     else vop_virtio_copy_from_user ubuf partlen iov_base iov_len s);
        if negb (ret =? 0) then Some (ret, tot_len, k, s)
        else
          let c := consumed k + partlen in
          let k :=
            if iov_len - partlen =? 0
            then Kiov (<[Z.to_nat (i k) := (iov_base + partlen - c, c)]> (iov k)) (i k + 1) (used k) 0
            else Kiov (<[Z.to_nat (i k) := (iov_base + partlen, iov_len - partlen)]> (iov k)) (i k) (used k) c in
          vringh_loop fuel read k (ubuf + partlen) (len - partlen) (tot_len + partlen) s
      else Some (0, tot_len, k, s)
  end.

Definition vop_vringh_copy (read : bool) (k : vringh_kiov) (ubuf len : Z) (s : io) : option (Z * Z * vringh_kiov * io) :=
  vringh_loop (S (Z.to_nat (used k - i k))) read k ubuf len 0 s.

(** [struct vop_vringh], as far as a request uses it, with the used elements that it
    has added to the ring, as head and length. *)
Record vop_vringh := Vvr { riov : vringh_kiov; wiov : vringh_kiov; vr_head : Z; completed : list (Z * Z) }.

(** A request to copy: [struct mic_copy_desc] with the ranges it points to. *)
Record mic_copy_desc := CopyDesc { c_iov : list (Z * Z); iovcnt : Z; update_used : bool }.

(** The loop of [_vop_virtio_copy] ([uiov]: the ranges from [u_iov] on): the result, the
    bytes copied. *)
Fixpoint virtio_loop (fuel : nat) (uiov : list (Z * Z)) (cnt ubuf len out : Z) (rk wk : vringh_kiov) (s : io)
  : option (Z * Z * vringh_kiov * vringh_kiov * io) :=
  match fuel with
  | O => None
  | S fuel =>
      if cnt =? 0 then Some (0, out, rk, wk, s)
      else
        let '(fault, s) := if len =? 0 then next s else (0, s) in
        if negb (fault =? 0) then Some (- EINVAL, out, rk, wk, s)
        else
          let '(ubuf, len) := if len =? 0 then default (0, 0) (head uiov) else (ubuf, len) in
          '(ret, out_len, rk, s) ← vop_vringh_copy true rk ubuf len s;
          if negb (ret =? 0) then Some (ret, out, rk, wk, s)
          else
            let '(ubuf, len, out) := (ubuf + out_len, len - out_len, u32 (out + out_len)) in
            '(ret, out_len, wk, s) ← vop_vringh_copy false wk ubuf len s;
            if negb (ret =? 0) then Some (ret, out, rk, wk, s)
            else
              let '(ubuf, len, out) := (ubuf + out_len, len - out_len, u32 (out + out_len)) in
              let '(cnt, uiov) := if len =? 0 then (cnt - 1, tail uiov) else (cnt, uiov) in
              if exhausted rk && exhausted wk then Some (0, out, rk, wk, s)
              else virtio_loop fuel uiov cnt ubuf len out rk wk s
  end.

(** [getdesc]: what [vringh_getdesc_kern] returns, with the chain and its head. *)
Definition _vop_virtio_copy (getdesc : Z * (vringh_kiov * vringh_kiov * Z)) (c : mic_copy_desc) (v : vop_vringh) (s : io)
  : option (Z * Z * vop_vringh * io) :=
  let '(ret, (rk, wk, hd)) := if exhausted (riov v) && exhausted (wiov v) then getdesc else (1, (riov v, wiov v, vr_head v)) in
  if ret <=? 0 then Some (ret, 0, Vvr rk wk hd (completed v), s)
  else
    '(ret, out, rk, wk, s) ← virtio_loop (S (Z.to_nat (iovcnt c))) (c_iov c) (iovcnt c) 0 0 0 rk wk s;
    let v :=
      if negb (hd =? USHRT_MAX) && negb (out =? 0) && update_used c then
        let total := u32 (vop_vringh_iov_consumed rk + vop_vringh_iov_consumed wk) in
        Vvr (Kiov [] 0 0 0) (Kiov [] 0 0 0) USHRT_MAX (completed v ++ [(hd, total)])
      else Vvr rk wk hd (completed v) in
    Some (ret, out, v, s).

End Driver.
End VopCopy.
