(* ===== verification/VopCopyInv.v ===== *)
(** * Every byte of a virtio request is moved once

    The reference for [VopCopy]: a list of byte moves between user memory and the card.  The
    copies of the driver, its walk over the ranges of a descriptor chain and a whole request
    make the moves of a prefix of what is asked for, and all of it when they succeed. *)
From S2P Require Import Prelude ScifFence VopCopy.
Local Open Scope Z_scope.

Module VopCopyInv.
Import VopCopy.

(** ** Moves *)

Inductive move := ToUser (u c : Z) | ToCard (c u : Z).

Definition do_move (s : mem * mem) (m : move) : mem * mem :=
  match m with
  | ToUser u c => (<[u := s.2 !!! c]> s.1, s.2)
  | ToCard c u => (s.1, <[c := s.1 !!! u]> s.2)
  end.

Definition exec (l : list move) (s : mem * mem) : mem * mem := foldl do_move s l.

(** A byte of user memory and one of the card. *)
Definition move_of (read : bool) (u c : Z) : move := if read then ToUser u c else ToCard c u.

(** [n] bytes from [u] on and from [c] on. *)
Definition range (read : bool) (u c n : Z) : list move := (fun k => move_of read (u + k) (c + k)) <$> seqZ 0 n.

Definition mems (s : io) : mem * mem := (user s, card s).

Lemma exec_app l1 l2 s : exec (l1 ++ l2) s = exec l2 (exec l1 s).
Proof. apply foldl_app. Qed.

Lemma moves_range_app read u c n m : 0 <= n → 0 <= m → range read u c (n + m) = range read u c n ++ range read (u + n) (c + n) m.
Proof.
  intros Hn Hm. unfold range. rewrite seqZ_app by lia. rewrite fmap_app. f_equal. replace (0 + n) with (n + 0) by lia.
  rewrite <- fmap_add_seqZ, <- list_fmap_compose. apply list_fmap_ext. intros i k _. cbn. f_equal; lia.
Qed.

Lemma range_nil read u c : range read u c 0 = [].
Proof. done. Qed.

Lemma range_length read u c n : 0 <= n → zlen (range read u c n) = n.
Proof. intros Hn. unfold range, zlen. rewrite length_fmap, length_seqZ. lia. Qed.

(** A block copy is its moves, when the source does not change. *)
Lemma blit_in n : ∀ (us cd src : mem) (fs : Z → Z) u c k, (∀ j, k <= j < k + Z.of_nat n → src !!! fs j = cd !!! (c + j)) →
  exec ((fun j => ToUser (u + j) (c + j)) <$> seqZ k (Z.of_nat n)) (us, cd) = (blit n us (fun k => u + k) src fs k, cd).
Proof.
  induction n as [|n IH]; intros us cd src fs u c k Hs; [done|]. rewrite seqZ_cons by lia. cbn [fmap list_fmap exec foldl do_move fst snd blit].
  rewrite <- (Hs k) by lia. replace (Z.pred (Z.of_nat (S n))) with (Z.of_nat n) by lia. fold (exec ((fun j => ToUser (u + j) (c + j)) <$> seqZ (Z.succ k) (Z.of_nat n))).
  replace (Z.succ k) with (k + 1) by lia. rewrite <- (IH _ cd src fs u c (k + 1)); [done|]. intros j Hj. apply Hs. lia.
Qed.

Lemma blit_out n : ∀ (us cd src : mem) (fd fs : Z → Z) u c k, (∀ j, k <= j < k + Z.of_nat n → src !!! fs j = us !!! (u + j) ∧ fd j = c + j) →
  exec ((fun j => ToCard (c + j) (u + j)) <$> seqZ k (Z.of_nat n)) (us, cd) = (us, blit n cd fd src fs k).
Proof.
  induction n as [|n IH]; intros us cd src fd fs u c k Hs; [done|]. rewrite seqZ_cons by lia. cbn [fmap list_fmap exec foldl do_move fst snd blit].
  destruct (Hs k) as [E1 E2]; [lia|]. rewrite <- E1, <- E2. replace (Z.pred (Z.of_nat (S n))) with (Z.of_nat n) by lia.
  replace (Z.succ k) with (k + 1) by lia. rewrite <- (IH us _ src fd fs u c (k + 1)); [done|]. intros j Hj. apply Hs. lia.
Qed.

Lemma copy_in us cd src fs u c n : (∀ j, 0 <= j < n → src !!! fs j = cd !!! (c + j)) →
  (copy n us (fun k => u + k) src fs, cd) = exec (range true u c n) (us, cd).
Proof.
  intros Hs. unfold copy, range. destruct (Z.le_gt_cases 0 n) as [Hn|Hn].
  - rewrite <- (Z2Nat.id n) at 2 by done. symmetry. apply blit_in. rewrite Z2Nat.id by done. intros j Hj. apply Hs. lia.
  - rewrite seqZ_nil by lia. by destruct n.
Qed.

Lemma copy_out us cd src fd fs u c n : (∀ j, 0 <= j < n → src !!! fs j = us !!! (u + j) ∧ fd j = c + j) →
  (us, copy n cd fd src fs) = exec (range false u c n) (us, cd).
Proof.
  intros Hs. unfold copy, range. destruct (Z.le_gt_cases 0 n) as [Hn|Hn].
  - rewrite <- (Z2Nat.id n) at 2 by done. symmetry. apply blit_out. rewrite Z2Nat.id by done. intros j Hj. apply Hs. lia.
  - rewrite seqZ_nil by lia. by destruct n.
Qed.

(** What a copy leaves at its destination. *)
Lemma blit_lookup n : ∀ (dst src : mem) fs k x, 0 <= k → k <= x < k + Z.of_nat n →
  blit n dst (fun k => k) src fs k !!! x = src !!! fs x.
Proof.
  induction n as [|n IH]; intros dst src fs k x Hk Hx; [lia|]. cbn [blit].
  destruct (Z.eq_dec x k) as [->|Hne]; [|apply IH; lia]. clear IH.
  assert (∀ n (m : mem) k', k < k' → blit n m (fun k => k) src fs k' !!! k = m !!! k) as Hskip.
  { clear. induction n as [|n IH]; intros m k' Hk'; cbn [blit]; [done|]. rewrite IH by lia. by rewrite lookup_total_insert_ne by lia. }
  rewrite Hskip by lia. apply lookup_total_insert_eq.
Qed.

Lemma copy_lookup n (dst src : mem) fs x : 0 <= x < n → copy n dst (fun k => k) src fs !!! x = src !!! fs x.
Proof. intros Hx. unfold copy. apply blit_lookup; [done|]. rewrite Z2Nat.id; lia. Qed.

(** ** The copies, on the x200 without an IOMMU *)

Section X200.
Context (chan : bool) (bus : Z → Z) (disable_dma : bool) (aper_pa card_size : Z).
(** The engine reaches the memory of the card through the aperture. *)
Context (Haper : 0 <= aper_pa ∧ aper_pa + card_size < 2 ^ 64).
Context (Hbus : ∀ c, 0 <= c < card_size → bus (aper_pa + c) = c).

#[local] Notation to_user := (vop_virtio_copy_to_user chan 0 bus disable_dma aper_pa None).
#[local] Notation from_user := (vop_virtio_copy_from_user chan 0 bus disable_dma aper_pa None).

(** Nothing that the copies need is missing. *)
Definition all_well (s : io) : Prop := chan = true ∧ plan s = [].

(** What a call has done: the moves of a prefix, all of them when it returns 0. *)
Definition moved (read : bool) (u c n : Z) (s : io) (r : option (Z * io)) : Prop :=
  ∃ ret s' k, r = Some (ret, s') ∧ 0 <= k <= n ∧ mems s' = exec (range read u c k) (mems s) ∧ (ret = 0 → k = n) ∧
    (all_well s → ret = 0 ∧ all_well s').

Lemma ALIGN_1 n : 0 <= n < 2 ^ 64 → ALIGN n (dma_alignment 0) = n.
Proof.
  intros Hn. unfold ALIGN, dma_alignment. change (2 ^ 0) with 1. replace (n + 1 - 1) with n by lia. rewrite wrap_small by done.
  change (2 ^ 64 - 1) with (Z.ones 64). rewrite Z.land_ones by lia. by apply Z.mod_small.
Qed.

Lemma moved_wrap read u c n s f r : (∀ s, mems (f s) = mems s ∧ plan (f s) = plan s) → moved read u c n (f s) r → moved read u c n s r.
Proof.
  intros Hf (ret & s' & k & E & Hk & Hm & H0 & Hw). destruct (Hf s) as [E1 E2]. rewrite E1 in Hm. exists ret, s', k. split_and!; try done; try lia.
  intros [Hc Hp]. apply Hw. split; [done|]. by rewrite E2.
Qed.

Lemma left_of_zero n : 0 <= n → left_of n 0 = 0.
Proof. unfold left_of. lia. Qed.

(** After a first part the rest. *)
Lemma moved_more read u c n p s s1 r : 0 <= p <= n → mems s1 = exec (range read u c p) (mems s) → (all_well s → all_well s1) →
  moved read (u + p) (c + p) (n - p) s1 r → moved read u c n s r.
Proof.
  intros Hp Hm Hw (ret & s' & k & E & Hk & Hm' & H0 & Hw'). exists ret, s', (p + k). split_and!; try done; try lia.
  - rewrite moves_range_app by lia. by rewrite exec_app, <- Hm.
  - auto.
Qed.

Lemma moved_some read u c n k ret s s' : 0 <= k <= n → mems s' = exec (range read u c k) (mems s) → ret ≠ 0 → ¬ all_well s →
  moved read u c n s (Some (ret, s')).
Proof. intros Hk Hm Hr Hw. exists ret, s', k. by split_and!; try lia. Qed.

Lemma next_cases s : (∃ r, next s = (r, Io (user s) (card s) (buf s) (st s) (tail (plan s))) ∧ (plan s = [] → r = 0) ∧ (r = 0 ∨ ¬ all_well s)).
Proof.
  destruct s as [us cd bf t [|r l]]; cbn; [exists 0; auto|]. exists r. split_and!; [done|done|]. right. by intros [_ ?].
Qed.

(** A transfer, when it succeeds. *)
Lemma sync_cases to_buf daddr len s : ∃ err s', vop_sync_dma chan bus to_buf daddr len s = (err, s') ∧
  ((err ≠ 0 ∧ mems s' = mems s ∧ ¬ all_well s) ∨
   (err = 0 ∧ (all_well s → all_well s') ∧ user s' = user s ∧
     (if to_buf then card s' = card s ∧ buf s' = copy len (buf s) (fun k => k) (card s) (fun k => bus (daddr + k))
      else buf s' = buf s ∧ card s' = copy len (card s) (fun k => bus (daddr + k)) (buf s) (fun k => k)))).
Proof.
  unfold vop_sync_dma. destruct chan eqn:Ec; cbn [negb]; cycle 1.
  { eexists _, s. split; [done|]. left. split_and!; [done|done|]. intros [H _]. congruence. }
  destruct (next_cases s) as (r1 & -> & _ & H1). destruct (Z.eqb_spec r1 0) as [->|E1]; cbn [negb]; cycle 1.
  { eexists _, _. split; [done|]. left. split_and!; [done|done|]. by destruct H1. }
  destruct (next_cases (Io (user s) (card s) (buf s) (st s) (tail (plan s)))) as (r2 & -> & _ & H2). cbn [user card buf st plan] in *.
  assert (all_well s → all_well (Io (user s) (card s) (buf s) (st s) (tail (plan s)))) as Hw1 by (intros [H E]; split; [done|]; cbn; by rewrite E).
  destruct (Z.eqb_spec r2 0) as [->|E2]; cbn [negb]; cycle 1.
  { eexists _, _. split; [done|]. left. split_and!; [done|done|]. destruct H2 as [?|H2]; [done|]. intros H. by apply H2, Hw1. }
  destruct (next_cases (Io (user s) (card s) (buf s) (st s) (tail (tail (plan s))))) as (r3 & -> & _ & H3). cbn [user card buf st plan] in *.
  assert (all_well s → all_well (Io (user s) (card s) (buf s) (st s) (tail (tail (plan s))))) as Hw2 by (intros [H E]; split; [done|]; cbn; by rewrite E).
  destruct (Z.eqb_spec r3 0) as [->|E3]; cbn [negb]; cycle 1.
  { eexists _, _. split; [done|]. left. split_and!; [done|done|]. destruct H3 as [?|H3]; [done|]. intros H. by apply H3, Hw2. }
  destruct to_buf; eexists _, _; (split; [done|]); right; (split; [done|]); (split; [|done]); (intros [H E]; split; [done|]; cbn; by rewrite E).
Qed.

Lemma copy_to_user_cases dst src fs n s c : 0 <= n → (∀ j, 0 <= j < n → src !!! fs j = card s !!! (c + j)) →
  ∃ r s', copy_to_user dst src fs n s = (r, s') ∧ 0 <= r <= n ∧ mems s' = exec (range true dst c (n - r)) (mems s) ∧
    (r = 0 ∨ ¬ all_well s) ∧ (all_well s → all_well s').
Proof.
  intros Hn Hsrc. unfold copy_to_user. destruct (next_cases s) as (r & -> & Hr & Hcase). eexists _, _. split; [done|].
  assert (0 <= left_of n r <= n) as Hl by (unfold left_of; lia). split_and!; try lia.
  - cbn. apply copy_in. intros j Hj. apply Hsrc. lia.
  - destruct Hcase as [->|?]; [left; by apply left_of_zero|by right].
  - intros [H E]. split; [done|]. cbn. by rewrite E.
Qed.

Lemma stats_same f s : mems (set_stats f s) = mems s ∧ plan (set_stats f s) = plan s.
Proof. done. Qed.

Lemma to_user_loop_spec fuel : ∀ ubuf len c s, (Z.to_nat (len / VOP_INT_DMA_BUF_SIZE) + 1 < fuel)%nat → 0 <= len → 0 <= c → c + len <= card_size →
  moved true ubuf c len s (to_user_loop chan 0 bus fuel ubuf len (aper_pa + c) 0 s).
Proof.
  induction fuel as [|fuel IH]; intros ubuf len c s Hf Hlen Hc Hcs; [lia|]. cbn [to_user_loop].
  destruct (Z.eqb_spec len 0) as [->|Hne]; [exists 0, s, 0; split_and!; try done; auto|].
  set (p := Z.min len VOP_INT_DMA_BUF_SIZE). assert (0 < p <= len) as Hp by (unfold p, VOP_INT_DMA_BUF_SIZE in *; lia).
  rewrite ALIGN_1 by (unfold p, VOP_INT_DMA_BUF_SIZE in *; lia).
  destruct (sync_cases true (aper_pa + c) p s) as (err & s1 & -> & [(He & Hm & Hw)|(-> & Hw & Eu & Ec & Eb)]).
  { rewrite (proj2 (Z.eqb_neq _ _) He). cbn [negb]. apply moved_some with 0; [lia|by rewrite range_nil|done|done]. }
  change (negb (0 =? 0)) with false. cbn match.
  destruct (copy_to_user_cases ubuf (buf s1) (fun k => 0 + k) (p - 0) s1 c) as (r & s2 & -> & Hr & Hm2 & Hcase & Hw2); [lia| |].
  { intros j Hj. rewrite Eb, copy_lookup by lia. rewrite Z.add_0_l, Ec. f_equal. rewrite <- Z.add_assoc. apply Hbus. lia. }
  assert (mems s1 = mems s) as E1 by (unfold mems; by rewrite Eu, Ec). rewrite E1 in Hm2.
  destruct (Z.eqb_spec r 0) as [->|Hr0]; cbn [negb]; cycle 1.
  { apply moved_some with (p - 0 - r); [lia|done|done|]. destruct Hcase as [?|Hcase]; [done|]. intros H. by apply Hcase, Hw. }
  apply moved_more with p (set_stats (add_in p p) s2); [lia| | |].
  - replace (p - 0 - 0) with p in Hm2 by lia. done.
  - intros H. destruct (Hw2 (Hw H)). by split.
  - rewrite wrap_small by (unfold in_width; lia). rewrite <- Z.add_assoc.
    destruct (Z.eq_dec p len) as [E|Hpl]; [replace (len - p) with 0 by lia; destruct fuel; [lia|]; exists 0, (set_stats (add_in p p) s2), 0; split_and!; try done; auto|].
    apply IH; [|lia|lia|lia].
    assert (p = VOP_INT_DMA_BUF_SIZE) as Ep by (unfold p in *; lia). rewrite Ep.
    replace (len - VOP_INT_DMA_BUF_SIZE) with (len + (-1) * VOP_INT_DMA_BUF_SIZE) by lia. rewrite Z.div_add by done.
    assert (1 <= len / VOP_INT_DMA_BUF_SIZE); [|lia]. apply Z.div_le_lower_bound; unfold p, VOP_INT_DMA_BUF_SIZE in *; lia.
Qed.

Lemma round_down_1 a : 0 <= a < 2 ^ 64 → round_down a (dma_alignment 0) = a.
Proof. intros Ha. unfold round_down, dma_alignment. change (2 ^ 64 - 2 ^ 0) with (Z.ones 64). rewrite Z.land_ones by lia. by apply Z.mod_small. Qed.

Lemma rounds_enough len : (Z.to_nat (len / VOP_INT_DMA_BUF_SIZE) + 1 < rounds len)%nat.
Proof. unfold rounds. lia. Qed.

Lemma to_user_spec ubuf len c s : 0 <= len → 0 <= c → c + len <= card_size → moved true ubuf c len s (to_user ubuf len c s).
Proof.
  intros Hlen Hc Hcs. unfold vop_virtio_copy_to_user. destruct disable_dma.
  - destruct (copy_to_user_cases ubuf (card s) (fun k => c + k) len s c) as (r & s1 & -> & Hr & Hm & Hcase & Hw); [done|done|].
    destruct (Z.eqb_spec r 0) as [->|Hr0]; cbn [negb].
    + replace (len - 0) with len in Hm by lia. exists 0, (set_stats (add_in 0 len) s1), len. split_and!; try done; try lia. intros H. split; [done|]. by apply Hw.
    + apply moved_some with (len - r); [lia|done|done|]. by destruct Hcase.
  - rewrite round_down_1 by lia. replace (c - c) with 0 by lia. replace (c - 0) with c by lia. replace (len + 0) with len by lia.
    change (x200 0) with true. cbn match. unfold vop_dma_map. rewrite wrap_small by (unfold in_width; lia).
    apply to_user_loop_spec; [apply rounds_enough|done..].
Qed.

Lemma copy_from_user_buf_cases src n s : 0 <= n →
  ∃ r s', copy_from_user_buf src n s = (r, s') ∧ 0 <= r <= n ∧ mems s' = mems s ∧ (r = 0 → ∀ j, 0 <= j < n → buf s' !!! j = user s !!! (src + j)) ∧
    (r = 0 ∨ ¬ all_well s) ∧ (all_well s → all_well s').
Proof.
  intros Hn. unfold copy_from_user_buf. destruct (next_cases s) as (r & -> & Hr & Hcase). eexists _, _. split; [done|].
  assert (0 <= left_of n r <= n) as Hl by (unfold left_of; lia). split_and!; try lia; try done.
  - intros E j Hj. cbn. rewrite E. by rewrite copy_lookup by lia.
  - destruct Hcase as [->|?]; [left; by apply left_of_zero|by right].
  - intros [H E]. split; [done|]. cbn. by rewrite E.
Qed.

Lemma by_cpu_spec u n c s : 0 <= n → ∃ ret s', by_cpu u n c s = (ret, s') ∧ moved false u c n s (Some (ret, s')).
Proof.
  intros Hn. unfold by_cpu, copy_from_user_io. destruct (next_cases s) as (r & -> & Hr & Hcase).
  assert (0 <= left_of n r <= n) as Hl by (unfold left_of; lia). cbn [user card buf st plan].
  set (s1 := set_card _ _). assert (mems s1 = exec (range false u c (n - left_of n r)) (mems s)) as Hm.
  { unfold s1, mems. cbn. apply copy_out. done. }
  destruct (Z.eqb_spec (left_of n r) 0) as [E|E]; cbn [negb]; (eexists _, _; split; [done|]).
  - rewrite E in Hm. replace (n - 0) with n in Hm by lia. exists 0, (set_stats (add_out 0 n) s1), n. split_and!; try done; try lia.
    intros [H Ep]. split; [done|]. split; [done|]. unfold s1. cbn. by rewrite Ep.
  - apply moved_some with (n - left_of n r); [lia|done|done|]. destruct Hcase as [->|?]; [by rewrite left_of_zero in E|done].
Qed.

(** The loop: an error, or everything moved. *)
Lemma from_user_loop_spec fuel : ∀ ubuf len c dbuf s, (Z.to_nat (len / VOP_INT_DMA_BUF_SIZE) + 1 < fuel)%nat → 0 <= len → 0 <= c → c + len <= card_size →
  ∃ err u' len' d' s', from_user_loop chan 0 bus fuel ubuf len (aper_pa + c) dbuf s = Some (err, (u', len', d'), s') ∧
    (err = 0 → len' = 0) ∧ moved false ubuf c len s (Some (err, s')).
Proof.
  induction fuel as [|fuel IH]; intros ubuf len c dbuf s Hf Hlen Hc Hcs; [lia|]. cbn [from_user_loop].
  destruct (Z.eqb_spec len 0) as [->|Hne].
  { eexists _, _, _, _, _. split; [done|]. split; [done|]. exists 0, s, 0. split_and!; try done; auto. }
  set (p := Z.min len VOP_INT_DMA_BUF_SIZE). assert (0 < p <= len) as Hp by (unfold p, VOP_INT_DMA_BUF_SIZE in *; lia).
  rewrite ALIGN_1 by (unfold p, VOP_INT_DMA_BUF_SIZE in *; lia).
  destruct (copy_from_user_buf_cases ubuf p s) as (r & s1 & -> & Hr & E1 & Hb & Hcase & Hw1); [lia|].
  destruct (Z.eqb_spec r 0) as [->|Hr0]; cbn [negb]; cycle 1.
  { eexists _, _, _, _, _. split; [done|]. split; [done|]. apply moved_some with 0; [lia|by rewrite range_nil|done|]. by destruct Hcase. }
  destruct (sync_cases false (aper_pa + c) p s1) as (err & s2 & -> & [(He & Hm & Hw)|(-> & Hw & Eu & Eb & Ec)]).
  { rewrite (proj2 (Z.eqb_neq _ _) He). cbn [negb]. eexists _, _, _, _, _. split; [done|]. split; [done|].
    apply moved_some with 0; [lia|by rewrite range_nil, Hm|done|]. intros H. by apply Hw, Hw1. }
  change (negb (0 =? 0)) with false. cbn match.
  assert (mems s2 = exec (range false ubuf c p) (mems s)) as Hm2.
  { rewrite <- E1. unfold mems. rewrite Eu, Ec. apply copy_out. intros j Hj. unfold mems in E1. injection E1 as Eu1 _.
    rewrite (Hb eq_refl) by done. rewrite Eu1. split; [done|]. rewrite <- Z.add_assoc. apply Hbus. lia. }
  rewrite wrap_small by (unfold in_width; lia). rewrite <- Z.add_assoc.
  set (s3 := set_stats (add_out p p) s2).
  assert (∃ err u' len' d' s', from_user_loop chan 0 bus fuel (ubuf + p) (len - p) (aper_pa + (c + p)) (dbuf + p) s3 = Some (err, (u', len', d'), s') ∧
    (err = 0 → len' = 0) ∧ moved false (ubuf + p) (c + p) (len - p) s3 (Some (err, s'))) as (err & u' & len' & d' & s' & -> & H0 & Hmv).
  { destruct (Z.eq_dec p len) as [E|Hpl].
    - replace (len - p) with 0 by lia. destruct fuel; [lia|]. eexists _, _, _, _, _. split; [done|]. split; [done|]. exists 0, s3, 0. split_and!; try done; auto.
    - apply IH; [|lia|lia|lia].
      assert (p = VOP_INT_DMA_BUF_SIZE) as Ep by (unfold p in *; lia). rewrite Ep.
      replace (len - VOP_INT_DMA_BUF_SIZE) with (len + (-1) * VOP_INT_DMA_BUF_SIZE) by lia. rewrite Z.div_add by done.
      assert (1 <= len / VOP_INT_DMA_BUF_SIZE); [|lia]. apply Z.div_le_lower_bound; unfold p, VOP_INT_DMA_BUF_SIZE in *; lia. }
  eexists _, _, _, _, _. split; [done|]. split; [done|]. apply moved_more with p s3; [lia|done| |done].
  intros H. destruct (Hw (Hw1 H)). by split.
Qed.

Lemma from_user_spec ubuf len c dlen s : 0 <= len <= dlen → 0 <= c → c + len <= card_size → moved false ubuf c len s (from_user ubuf len c dlen s).
Proof.
  intros Hlen Hc Hcs. unfold vop_virtio_copy_from_user. change (dma_alignment 0 - 1) with 0. rewrite Z.land_0_r. change (negb (0 =? 0)) with false. cbn match.
  rewrite ALIGN_1 by lia. destruct (Z.ltb_spec dlen len); [lia|]. destruct disable_dma; cbn [negb].
  - destruct (by_cpu_spec ubuf len c s) as (ret & s1 & -> & H1); [lia|done].
  - change (x200 0) with true. cbn match. unfold vop_dma_map. rewrite wrap_small by (unfold in_width; lia).
    destruct (from_user_loop_spec (rounds len) ubuf len c c s) as (err & u' & len' & d' & s1 & -> & H0 & H1); [apply rounds_enough|lia..|].
    cbn [mbind option_bind]. destruct (Z.eqb_spec err 0) as [->|He]; cbn [negb]; [|done]. rewrite (H0 eq_refl).
    destruct (by_cpu_spec u' 0 d' s1) as (ret & s2 & -> & (ret' & s2' & k & [= <- <-] & Hk & Hm & Hr & Hw)); [done|].
    destruct H1 as (z & s1' & k1 & [= <- <-] & Hk1 & Hm1 & Hz & Hw1). assert (k = 0) as -> by lia.
    exists ret, s2, k1. split_and!; try done; try lia.
    + by rewrite Hm, Hm1.
    + intros Hall. destruct (Hw1 Hall) as [_ Hall1]. by apply Hw.
Qed.

(** ** Descriptor chains *)

(** The card addresses of some ranges, one for each byte. *)
Definition cells (l : list (Z * Z)) : list Z := l ≫= (fun r => seqZ r.1 r.2).

Definition fits (r : Z * Z) : Prop := 0 <= r.1 ∧ 0 <= r.2 ∧ r.1 + r.2 <= card_size.

(** What is left of a chain, and how much of it has been consumed. *)
Definition rest (k : vringh_kiov) : list Z := cells (drop (Z.to_nat (i k)) (iov k)).
Definition done_of (k : vringh_kiov) : Z := consumed k + foldr Z.add 0 (snd <$> take (Z.to_nat (i k)) (iov k)).

Record kiov_ok (k : vringh_kiov) : Prop := KiovOk {
  ko_used : used k = zlen (iov k);
  ko_i : 0 <= i k <= used k;
  ko_fits : Forall fits (drop (Z.to_nat (i k)) (iov k));
}.

(** Bytes of a user buffer against those of a chain. *)
Definition moves (read : bool) (us cs : list Z) : list move := zip_with (move_of read) us cs.

Lemma range_moves read u c n : range read u c n = moves read (seqZ u n) (seqZ c n).
Proof.
  unfold range, moves. apply list_eq. intros j. rewrite list_lookup_fmap, lookup_zip_with.
  destruct (decide (Z.of_nat j < n)) as [Hj|Hj].
  - rewrite !lookup_seqZ_lt by lia. cbn. do 2 f_equal; lia.
  - by rewrite !lookup_seqZ_ge by lia.
Qed.

Lemma moves_app read us1 us2 cs1 cs2 : length us1 = length cs1 → moves read (us1 ++ us2) (cs1 ++ cs2) = moves read us1 cs1 ++ moves read us2 cs2.
Proof. intros Hl. unfold moves. by rewrite zip_with_app. Qed.

Lemma cells_cons r l : cells (r :: l) = seqZ r.1 r.2 ++ cells l.
Proof. done. Qed.

Lemma sum_snoc (l : list (Z * Z)) x : foldr Z.add 0 (snd <$> l ++ [x]) = foldr Z.add 0 (snd <$> l) + x.2.
Proof. induction l as [|y l IH]; cbn; [lia|]. cbn in IH. rewrite IH. lia. Qed.

Lemma drop_at_insert (l : list (Z * Z)) j x : (j < length l)%nat → drop j (<[j := x]> l) = x :: drop (S j) l.
Proof. intros Hj. rewrite (drop_S _ x) by (by apply list_lookup_insert_eq). by rewrite drop_insert_lt by lia. Qed.

(** The current range, taken apart. *)
Lemma kiov_cur k : kiov_ok k → i k < used k → ∃ b l, iov k !! Z.to_nat (i k) = Some (b, l) ∧ fits (b, l) ∧
  drop (Z.to_nat (i k)) (iov k) = (b, l) :: drop (S (Z.to_nat (i k))) (iov k).
Proof.
  intros [Hu Hi Hf] Hlt. destruct (lookup_lt_is_Some_2 (iov k) (Z.to_nat (i k))) as [[b l] E]; [unfold zlen in *; lia|].
  exists b, l. split; [done|]. rewrite (drop_S _ _ _ E) in Hf |- *. apply Forall_cons in Hf as [Hf _]. done.
Qed.

(** The range after [p] of its bytes. *)
Definition advance_kiov (k : vringh_kiov) (b l p : Z) : vringh_kiov :=
  let c := consumed k + p in
  if l - p =? 0 then Kiov (<[Z.to_nat (i k) := (b + p - c, c)]> (iov k)) (i k + 1) (used k) 0
  else Kiov (<[Z.to_nat (i k) := (b + p, l - p)]> (iov k)) (i k) (used k) c.

Lemma kiov_advance_spec k b l p : kiov_ok k → i k < used k → iov k !! Z.to_nat (i k) = Some (b, l) → 0 <= p <= l →
  kiov_ok (advance_kiov k b l p) ∧ done_of (advance_kiov k b l p) = done_of k + p ∧
  rest k = seqZ b p ++ rest (advance_kiov k b l p) ∧ used (advance_kiov k b l p) = used k ∧
  (if p =? l then i (advance_kiov k b l p) = i k + 1 else i (advance_kiov k b l p) = i k).
Proof.
  intros Hok Hlt E Hp. destruct (kiov_cur k Hok Hlt) as (b' & l' & E' & Hfit & Hd). rewrite E in E'. injection E' as <- <-.
  pose proof Hok as [Hu Hi Hf]. rewrite Hd in Hf. apply Forall_cons in Hf as [_ Hf].
  assert (Z.to_nat (i k) < length (iov k))%nat as Hlen by (unfold zlen in *; lia).
  assert (Z.to_nat (i k + 1) = S (Z.to_nat (i k))) as ES by lia. destruct Hfit as (F1 & F2 & F3). cbn [fst snd] in *.
  unfold advance_kiov, rest, done_of. destruct (Z.eqb_spec (l - p) 0) as [E0|E0]; cbn [i used iov consumed].
  - assert (p = l) as -> by lia. rewrite Z.eqb_refl. split_and!; [split; cbn [i used iov]| | |done|done].
    + unfold zlen. by rewrite length_insert.
    + lia.
    + rewrite ES, drop_insert_lt by lia. done.
    + rewrite ES. rewrite (take_S_r _ _ (b + l - (consumed k + l), consumed k + l)) by (by apply list_lookup_insert_eq).
      rewrite take_insert_ge by lia. rewrite sum_snoc. cbn. lia.
    + rewrite ES, drop_insert_lt by lia. by rewrite Hd, cells_cons.
  - destruct (Z.eqb_spec p l); [lia|]. split_and!; [split; cbn [i used iov]| | |done|done].
    + unfold zlen. by rewrite length_insert.
    + lia.
    + rewrite drop_at_insert by done. constructor; [unfold fits; cbn; lia|done].
    + rewrite take_insert_ge by lia. lia.
    + rewrite drop_at_insert by done. rewrite Hd, !cells_cons. cbn [fst snd].
      rewrite app_assoc. f_equal. rewrite <- seqZ_app by lia. f_equal; lia.
Qed.

(** ** The walk over a chain *)

#[local] Notation walk_copy := (fun read ubuf len b l s => if read : bool then to_user ubuf len b s else from_user ubuf len b l s).

Lemma walk_copy_moved read ubuf p b l s : fits (b, l) → 0 <= p <= l → moved read ubuf b p s (walk_copy read ubuf p b l s).
Proof. intros (F1 & F2 & F3) Hp. cbn in *. destruct read; [apply to_user_spec|apply from_user_spec]; lia. Qed.

Lemma moves_prefix read u b m r : 0 <= m → moves read (seqZ u m) (seqZ b m ++ r) = range read u b m.
Proof.
  intros Hm. rewrite range_moves. unfold moves. rewrite <- (app_nil_r (seqZ u m)) at 1. rewrite zip_with_app by by rewrite !length_seqZ.
  by rewrite app_nil_r.
Qed.

(** The bytes to copy: of the buffer, and of what is left of the chain. *)
Definition walk_len (k : vringh_kiov) (len : Z) : Z := Z.min len (zlen (rest k)).

(** What the walk does, when [tot0] have been copied before. *)
Definition walked (read : bool) (k : vringh_kiov) (u len tot0 : Z) (s : io) (r : option (Z * Z * vringh_kiov * io)) : Prop :=
  ∃ ret tot k' s' m, r = Some (ret, tot0 + tot, k', s') ∧ 0 <= tot <= m ∧ m <= walk_len k len ∧
    kiov_ok k' ∧ rest k' = drop (Z.to_nat tot) (rest k) ∧ done_of k' = done_of k + tot ∧
    mems s' = exec (moves read (seqZ u m) (rest k)) (mems s) ∧
    (ret = 0 → tot = m ∧ m = walk_len k len ∧ (tot = len ∨ exhausted k')) ∧ (all_well s → ret = 0 ∧ all_well s').

Lemma exhausted_rest k : kiov_ok k → exhausted k → rest k = [].
Proof.
  intros [Hu Hi _] He. unfold exhausted in He. apply Is_true_true in He. rewrite Z.eqb_eq in He. unfold rest. rewrite drop_ge; [done|]. unfold zlen in *. lia.
Qed.

Lemma walked_stop read k u len tot0 s : kiov_ok k → 0 <= len → len = 0 ∨ exhausted k → walked read k u len tot0 s (Some (0, tot0, k, s)).
Proof.
  intros Hok Hlen Hc. exists 0, 0, k, s, 0. rewrite Z.add_0_r. pose proof (zlen_nonneg (rest k)).
  assert (walk_len k len = 0) as E. { destruct Hc as [->|Hc]; [unfold walk_len; lia|]. unfold walk_len. rewrite exhausted_rest by done. unfold zlen. cbn. lia. }
  split_and!; try done; try lia. intros _. split_and!; [done|done|]. destruct Hc; [by left|by right].
Qed.

Lemma walked_more read k u len p tot0 s s1 k1 r : kiov_ok k → 0 <= p <= len → done_of k1 = done_of k + p → ∀ b, rest k = seqZ b p ++ rest k1 →
  mems s1 = exec (range read u b p) (mems s) → (all_well s → all_well s1) →
  walked read k1 (u + p) (len - p) (tot0 + p) s1 r → walked read k u len tot0 s r.
Proof.
  intros Hok Hp Hd b Hr Hm Hw (ret & tot & k' & s' & m & E & Htot & Hmn & Hok' & Hr' & Hd' & Hm' & H0 & Hw').
  assert (zlen (rest k) = p + zlen (rest k1)) as Hl by (rewrite Hr; unfold zlen; rewrite length_app, length_seqZ; lia).
  unfold walk_len in Hmn. exists ret, (p + tot), k', s', (p + m). split_and!; try done; try lia.
  - rewrite E. do 4 f_equal. lia.
  - unfold walk_len in *. lia.
  - rewrite Hr', Hr. rewrite drop_app_ge by (rewrite length_seqZ; lia). f_equal. rewrite length_seqZ. lia.
  - rewrite seqZ_app by lia. rewrite Hr, moves_app by by rewrite !length_seqZ. rewrite exec_app, <- range_moves, <- Hm. done.
  - intros Hz. destruct (H0 Hz) as (-> & -> & Hc). unfold walk_len in *. split_and!; [done|lia|]. destruct Hc as [Hc|Hc]; [left; lia|by right].
  - auto.
Qed.

Lemma vringh_loop_spec read fuel : ∀ k u len tot0 s, kiov_ok k → 0 <= len → (0 < fuel)%nat → (len = 0 ∨ (Z.to_nat (used k - i k) < fuel)%nat) →
  walked read k u len tot0 s (vringh_loop chan 0 bus disable_dma aper_pa None fuel read k u len tot0 s).
Proof.
  induction fuel as [|fuel IH]; intros k u len tot0 s Hok Hlen Hf0 Hf; [lia|]. cbn [vringh_loop].
  destruct (Z.eqb_spec len 0) as [->|Hne]; cbn [negb andb]; [apply walked_stop; auto|].
  destruct (Z.ltb_spec (i k) (used k)) as [Hlt|Hge]; cycle 1.
  { apply walked_stop; [done|done|]. right. apply Is_true_true, Z.eqb_eq. destruct Hok as [_ Hi _]. lia. }
  destruct (kiov_cur k Hok Hlt) as (b & l & E & Hfit & Hd). rewrite E. change (default (0, 0) (Some (b, l))) with (b, l). cbn match.
  set (p := Z.min l len). assert (0 <= p <= l ∧ p <= len) as [Hp Hpl] by (destruct Hfit as (_ & F & _); cbn in F; unfold p; lia).
  destruct (walk_copy_moved read u p b l s Hfit Hp) as (ret & s1 & m & -> & Hm & Hmm & H0 & Hw). cbn [mbind option_bind].
  destruct (kiov_advance_spec k b l p Hok Hlt E Hp) as (Hok1 & Hd1 & Hr1 & Hu1 & Hi1).
  destruct (Z.eqb_spec ret 0) as [->|Hret]; cbn [negb].
  - rewrite (H0 eq_refl) in *. fold (advance_kiov k b l p).
    apply walked_more with p s1 (advance_kiov k b l p) b; [done|lia|done|done|done|intros H; by apply Hw|].
    apply IH; [done|lia|lia|]. rewrite Hu1. destruct (Z.eqb_spec p l) as [Epl|Epl]; rewrite Hi1; [lia|left; unfold p in *; lia].
  - exists ret, 0, k, s1, m. rewrite !Z.add_0_r. assert (p <= zlen (rest k)) as Hl by (rewrite Hr1; unfold zlen; rewrite length_app, length_seqZ; lia).
    split_and!; try done; try lia.
    + unfold walk_len. lia.
    + rewrite Hmm. f_equal. rewrite Hr1. replace p with (m + (p - m)) by lia. rewrite seqZ_app by lia. rewrite <- app_assoc. by rewrite moves_prefix by lia.
Qed.

Lemma vringh_copy_spec read k u len s : kiov_ok k → 0 <= len →
  walked read k u len 0 s (vop_vringh_copy chan 0 bus disable_dma aper_pa None read k u len s).
Proof. intros Hok Hlen. apply vringh_loop_spec; [done|done|lia|right; lia]. Qed.

End X200.

End VopCopyInv.
