(* ===== verification/VopRequest.v ===== *)
(** * A virtio request against its descriptor chain

    The contract of [_vop_virtio_copy] over the moves of [VopCopyInv]: the bytes of the
    caller's buffers, in order, against the bytes of the chain, those that the card has
    written before those that it wants to read. *)
From S2P Require Import Prelude ScifFence VopCopy VopCopyInv.
Local Open Scope Z_scope.

Module VopRequest.
Import VopCopy VopCopyInv.

(** What is left of a chain, each byte with the direction it moves in. *)
Definition chain (rk wk : vringh_kiov) : list (bool * Z) := (pair true <$> rest rk) ++ (pair false <$> rest wk).

(** Bytes of the caller against those of a chain, as far as both go. *)
Definition request (us : list Z) (ch : list (bool * Z)) : list move := zip_with (fun u t => move_of t.1 u t.2) us ch.

Definition todo (us : list Z) (ch : list (bool * Z)) : Z := Z.min (zlen us) (zlen ch).

Lemma request_length us ch : zlen (request us ch) = todo us ch.
Proof. unfold request, todo, zlen. rewrite length_zip_with. lia. Qed.

Lemma request_drop n us ch : drop n (request us ch) = request (drop n us) (drop n ch).
Proof. unfold request. revert us ch. induction n as [|n IH]; intros [|u us] [|t ch]; cbn; try done. by destruct (drop n us). Qed.

Lemma request_tagged read us cs : request us (pair read <$> cs) = moves read us cs.
Proof. unfold request, moves. revert cs. induction us as [|u us IH]; intros [|c cs]; cbn; [done..|]. by rewrite IH. Qed.

Lemma request_take n us1 us2 ch1 ch2 : (n <= length us1)%nat → (n <= length ch1)%nat →
  take n (request (us1 ++ us2) (ch1 ++ ch2)) = request (take n us1) ch1.
Proof.
  unfold request. revert us1 ch1. induction n as [|n IH]; intros [|u us1] [|t ch1]; cbn; try done; try lia. intros H1 H2. f_equal. apply IH; lia.
Qed.

Lemma take_add {A} n m (l : list A) : take (n + m) l = take n l ++ take m (drop n l).
Proof. revert l. induction n as [|n IH]; intros [|x l]; cbn; try done; [by rewrite take_nil|]. by rewrite IH. Qed.

Lemma u32_add_l a b : u32 (u32 a + b) = u32 (a + b).
Proof. unfold wrap. by rewrite Zplus_mod_idemp_l. Qed.
Lemma u32_add_r a b : u32 (a + u32 b) = u32 (a + b).
Proof. unfold wrap. by rewrite Zplus_mod_idemp_r. Qed.

Section Request.
Context (chan : bool) (bus : Z → Z) (disable_dma : bool) (aper_pa card_size : Z).
Context (Haper : 0 <= aper_pa ∧ aper_pa + card_size < 2 ^ 64).
Context (Hbus : ∀ c, 0 <= c < card_size → bus (aper_pa + c) = c).

#[local] Notation all_well := (all_well chan).
#[local] Notation kiov_ok := (kiov_ok card_size).
#[local] Notation walked := (walked chan card_size).

(** What a request does with the caller's bytes [us], when [tot0] have been moved before:
    [rep] that it reports, [tot] that are gone from the chain, [m] that are moved.  An error
    may come after bytes that are not reported, and after bytes that are not taken off the chain. *)
Definition served (us : list Z) (rk wk : vringh_kiov) (tot0 : Z) (s : io) (r : option (Z * Z * vringh_kiov * vringh_kiov * io)) : Prop :=
  ∃ ret rep tot rk' wk' s' m, r = Some (ret, u32 (tot0 + rep), rk', wk', s') ∧ 0 <= rep <= tot ∧ tot <= m ∧ m <= todo us (chain rk wk) ∧
    kiov_ok rk' ∧ kiov_ok wk' ∧ chain rk' wk' = drop (Z.to_nat tot) (chain rk wk) ∧
    done_of rk' + done_of wk' = done_of rk + done_of wk + tot ∧
    mems s' = exec (take (Z.to_nat m) (request us (chain rk wk))) (mems s) ∧
    (ret = 0 → rep = m ∧ m = todo us (chain rk wk)) ∧ (all_well s → ret = 0 ∧ all_well s').

Lemma served_stop us rk wk tot0 s : kiov_ok rk → kiov_ok wk → us = [] ∨ chain rk wk = [] →
  served us rk wk tot0 s (Some (0, u32 tot0, rk, wk, s)).
Proof.
  intros Hr Hw Hc. exists 0, 0, 0, rk, wk, s, 0. rewrite Z.add_0_r.
  assert (todo us (chain rk wk) = 0) as E by (unfold todo, zlen; destruct Hc as [->| ->]; cbn; lia).
  split_and!; try done; lia.
Qed.

Lemma served_more us rk wk rk1 wk1 tot0 tot s s1 r : 0 <= tot <= todo us (chain rk wk) →
  chain rk1 wk1 = drop (Z.to_nat tot) (chain rk wk) → done_of rk1 + done_of wk1 = done_of rk + done_of wk + tot →
  mems s1 = exec (take (Z.to_nat tot) (request us (chain rk wk))) (mems s) → (all_well s → all_well s1) →
  served (drop (Z.to_nat tot) us) rk1 wk1 (tot0 + tot) s1 r → served us rk wk tot0 s r.
Proof.
  intros Ht Hc Hd Hm Hw (ret & rep & t & rk' & wk' & s' & m & E & Hrep & Htm & Hmn & Hr' & Hw' & Hc' & Hd' & Hm' & H0 & Hall).
  assert (todo (drop (Z.to_nat tot) us) (chain rk1 wk1) = todo us (chain rk wk) - tot) as El.
  { rewrite Hc. unfold todo, zlen in *. rewrite !length_drop. lia. }
  rewrite El in *. exists ret, (tot + rep), (tot + t), rk', wk', s', (tot + m). split_and!; try done; try lia.
  - by rewrite E, Z.add_assoc.
  - rewrite Hc', Hc, drop_drop. f_equal. lia.
  - rewrite Hm', Hm, Hc, <- request_drop, <- exec_app. f_equal. rewrite Z2Nat.inj_add by lia. symmetry. apply take_add.
  - auto.
Qed.

(** The tag of a chain that a walk goes over, with what comes after. *)
Lemma walk_part read k u len s ret tot k' s' ch us : walked read k u len 0 s (Some (ret, tot, k', s')) → 0 <= len →
  let tch := (pair read <$> rest k) ++ ch in
  let tus := seqZ u len ++ us in
  ∃ m, 0 <= tot <= m ∧ m <= todo tus tch ∧ mems s' = exec (take (Z.to_nat m) (request tus tch)) (mems s) ∧
    (pair read <$> rest k') ++ ch = drop (Z.to_nat tot) tch ∧ drop (Z.to_nat tot) tus = seqZ (u + tot) (len - tot) ++ us ∧
    tot <= len ∧ (ret = 0 → tot = m).
Proof.
  intros (r & t & k1 & s1 & m & [= <- Ht <- <-] & Htm & Hmn & _ & Hr & _ & Hm & H0 & _) Hlen tch tus. rewrite Z.add_0_l in Ht. subst t.
  unfold walk_len in Hmn. assert (zlen (seqZ u len) = len) as Hl by (unfold zlen; rewrite length_seqZ; lia).
  exists m. split_and!; try lia.
  - unfold todo, tus, tch, zlen in *. rewrite !length_app, length_fmap. lia.
  - rewrite Hm. f_equal. unfold tus, tch. rewrite request_take by (rewrite ?length_fmap; unfold zlen in *; lia).
    rewrite request_tagged. f_equal. replace len with (m + (len - m)) by lia. rewrite seqZ_app by lia.
    by rewrite take_app_length' by (rewrite length_seqZ; lia).
  - unfold tch. rewrite drop_app_le by (rewrite length_fmap; unfold zlen in *; lia). by rewrite <- fmap_drop, Hr.
  - unfold tus. replace len with (tot + (len - tot)) at 1 by lia. rewrite seqZ_app, <- app_assoc by lia.
    by rewrite drop_app_length' by (rewrite length_seqZ; lia).
Qed.

(** A walk inside a request: it fails with it, or the request goes on after it. *)
Definition stepped (us : list Z) (u len : Z) (rk wk rk1 wk1 : vringh_kiov) (ret tot : Z) (s s1 : io) : Prop :=
  0 <= tot <= len ∧ kiov_ok rk1 ∧ kiov_ok wk1 ∧
  (ret ≠ 0 → ∀ tot0, served (seqZ u len ++ us) rk wk tot0 s (Some (ret, u32 tot0, rk1, wk1, s1))) ∧
  (ret = 0 → ∀ tot0 r, served (seqZ (u + tot) (len - tot) ++ us) rk1 wk1 (tot0 + tot) s1 r → served (seqZ u len ++ us) rk wk tot0 s r).

Lemma part_stepped us u len rk wk rk1 wk1 ret tot m s s1 : 0 <= tot <= m → m <= todo (seqZ u len ++ us) (chain rk wk) →
  mems s1 = exec (take (Z.to_nat m) (request (seqZ u len ++ us) (chain rk wk))) (mems s) →
  chain rk1 wk1 = drop (Z.to_nat tot) (chain rk wk) → drop (Z.to_nat tot) (seqZ u len ++ us) = seqZ (u + tot) (len - tot) ++ us →
  tot <= len → (ret = 0 → tot = m) → done_of rk1 + done_of wk1 = done_of rk + done_of wk + tot → kiov_ok rk1 → kiov_ok wk1 →
  (all_well s → ret = 0 ∧ all_well s1) → stepped us u len rk wk rk1 wk1 ret tot s s1.
Proof.
  intros Htm Hmn Hm Hc Hu Hl H0 Hd Hr Hw Hall. split_and!; try done; try lia.
  - intros Hret tot0. exists ret, 0, tot, rk1, wk1, s1, m. rewrite Z.add_0_r. by split_and!; try lia.
  - intros Hret tot0 r Hs. apply served_more with rk1 wk1 tot s1; [lia|done|done| |intros H; by apply Hall|by rewrite Hu].
    by rewrite (H0 Hret).
Qed.

Lemma read_stepped us u len rk wk s : kiov_ok rk → kiov_ok wk → 0 <= len →
  ∃ ret tot rk1 s1, vop_vringh_copy chan 0 bus disable_dma aper_pa None true rk u len s = Some (ret, tot, rk1, s1) ∧
    stepped us u len rk wk rk1 wk ret tot s s1 ∧ (ret = 0 → tot = len ∨ exhausted rk1).
Proof.
  intros Hr Hw Hlen. pose proof (vringh_copy_spec chan bus disable_dma aper_pa card_size Haper Hbus true rk u len s Hr Hlen) as H.
  pose proof H as (ret & tot & rk1 & s1 & m & E & Htm & Hmn & Hr1 & _ & Hd & _ & H0 & Hall). rewrite E, Z.add_0_l in *.
  exists ret, tot, rk1, s1. split; [done|]. split; [|intros Hz; by apply H0].
  destruct (walk_part true rk u len s ret tot rk1 s1 (pair false <$> rest wk) us H Hlen) as (m' & Htm' & Hmn' & Hm' & Hc & Hu & Hl & Hz).
  apply part_stepped with m'; try done; lia.
Qed.

Lemma write_stepped us u len rk wk s : kiov_ok rk → kiov_ok wk → 0 <= len → len = 0 ∨ exhausted rk →
  ∃ ret tot wk1 s1, vop_vringh_copy chan 0 bus disable_dma aper_pa None false wk u len s = Some (ret, tot, wk1, s1) ∧
    stepped us u len rk wk rk wk1 ret tot s s1 ∧ (ret = 0 → tot = len ∨ exhausted wk1).
Proof.
  intros Hr Hw Hlen Hc0. pose proof (vringh_copy_spec chan bus disable_dma aper_pa card_size Haper Hbus false wk u len s Hw Hlen) as H.
  pose proof H as (ret & tot & wk1 & s1 & m & E & Htm & Hmn & Hw1 & Hrest & Hd & Hmm & H0 & Hall). rewrite E, Z.add_0_l in *.
  exists ret, tot, wk1, s1. split; [done|]. split; [|intros Hz; by apply H0]. destruct Hc0 as [->|He].
  - unfold walk_len in Hmn. assert (m = 0) as -> by lia. assert (tot = 0) as -> by lia.
    apply part_stepped with 0; try done; try lia; [unfold todo, zlen; lia|..]; unfold chain; by rewrite ?Hrest, ?Z.add_0_r, ?Z.sub_0_r.
  - destruct (walk_part false wk u len s ret tot wk1 s1 [] us H Hlen) as (m' & Htm' & Hmn' & Hm' & Hc & Hu & Hl & Hz).
    assert (∀ k, chain rk k = (pair false <$> rest k) ++ []) as Ech.
    { intros k. unfold chain. rewrite (exhausted_rest card_size rk Hr He). by rewrite app_nil_r. }
    rewrite <- !Ech in *. apply part_stepped with m'; try done; lia.
Qed.

(** ** The whole request *)

Lemma served_error us rk wk tot0 ret s s1 : kiov_ok rk → kiov_ok wk → mems s1 = mems s → ret ≠ 0 → ¬ all_well s →
  served us rk wk tot0 s (Some (ret, u32 tot0, rk, wk, s1)).
Proof.
  intros Hr Hw Hm Hret Hall. exists ret, 0, 0, rk, wk, s1, 0. rewrite !Z.add_0_r. split_and!; try done; try lia. unfold todo, zlen. lia.
Qed.

Lemma chain_exhausted rk wk : kiov_ok rk → kiov_ok wk → exhausted rk → exhausted wk → chain rk wk = [].
Proof. intros Hr Hw Er Ew. unfold chain. by rewrite (exhausted_rest card_size rk Hr Er), (exhausted_rest card_size wk Hw Ew). Qed.

Lemma virtio_loop_spec fuel : ∀ uiov ubuf tot0 rk wk s, (length uiov < fuel)%nat → Forall (fun r => 0 <= r.2) uiov → kiov_ok rk → kiov_ok wk →
  served (cells uiov) rk wk tot0 s (virtio_loop chan 0 bus disable_dma aper_pa None fuel uiov (zlen uiov) ubuf 0 (u32 tot0) rk wk s).
Proof.
  induction fuel as [|fuel IH]; intros uiov ubuf tot0 rk wk s Hf Hall Hr Hw; [lia|]. cbn [virtio_loop].
  destruct uiov as [|[u len] uiov]; [by apply served_stop; auto|]. apply Forall_cons in Hall as [Hlen Hall]. cbn in Hlen.
  assert (zlen ((u, len) :: uiov) = zlen uiov + 1) as El by (unfold zlen; cbn; lia). pose proof (zlen_nonneg uiov).
  rewrite (proj2 (Z.eqb_neq _ _)) by lia. change (0 =? 0) with true. cbn match.
  destruct (next_cases chan s) as (r & -> & Hp & Hcase). set (s0 := Io _ _ _ _ _).
  destruct (Z.eqb_spec r 0) as [->|Hne]; cbn [negb]; [|apply served_error; try done; by destruct Hcase].
  change (default (0, 0) (head ((u, len) :: uiov))) with (u, len). cbn match. rewrite cells_cons. cbn [fst snd].
  assert (all_well s → all_well s0) as Hw0 by (intros [? E]; split; [done|]; cbn; by rewrite E).
  apply served_more with rk wk 0 s0; try done; [unfold todo, zlen; lia|lia|]. rewrite drop_0, Z.add_0_r.
  destruct (read_stepped (cells uiov) u len rk wk s0 Hr Hw Hlen) as (ret & tot & rk1 & s1 & -> & (Ht & Hr1 & _ & Hfail & Hgo) & Hx).
  cbn [mbind option_bind]. destruct (Z.eqb_spec ret 0) as [->|Hret]; cbn [negb]; [|by apply Hfail]. apply Hgo; [done|]. specialize (Hx eq_refl).
  destruct (write_stepped (cells uiov) (u + tot) (len - tot) rk1 wk s1 Hr1 Hw) as (ret & tot2 & wk1 & s2 & -> & (Ht2 & _ & Hw1 & Hfail2 & Hgo2) & Hx2);
    [lia|destruct Hx; [left; lia|by right]|].
  rewrite u32_add_l. cbn [mbind option_bind]. destruct (Z.eqb_spec ret 0) as [->|Hret]; cbn [negb]; [|by apply Hfail2]. apply Hgo2; [done|].
  specialize (Hx2 eq_refl). rewrite u32_add_l.
  destruct (exhausted rk1) eqn:Er, (exhausted wk1) eqn:Ew; cbn [andb].
  1: { destruct (len - tot - tot2 =? 0); cbn [tail]; apply served_stop; try done; right; apply chain_exhausted; try done; by rewrite ?Er, ?Ew. }
  all: assert (len - tot - tot2 = 0) as E0 by (destruct Hx as [?|Hx], Hx2 as [?|Hx2]; try done; lia).
  all: rewrite E0; change (0 =? 0) with true; cbn match; cbn [tail]; replace (zlen ((u, len) :: uiov) - 1) with (zlen uiov) by lia.
  all: replace (u + tot + tot2) with (u + tot + tot2 + 0) by lia; cbn [seqZ app]; apply IH; [cbn in Hf; lia|done..].
Qed.

(** The chain that a request works on: the one in progress, or the next of the ring. *)
Definition fetched (getdesc : Z * (vringh_kiov * vringh_kiov * Z)) (v : vop_vringh) : option (vringh_kiov * vringh_kiov * Z) :=
  if exhausted (riov v) && exhausted (wiov v) then if getdesc.1 <=? 0 then None else Some getdesc.2
  else Some (riov v, wiov v, vr_head v).

(** Whether a request that reports [out] bytes gives the chain back to the card. *)
Definition completes (hd out : Z) (c : mic_copy_desc) : bool := negb (hd =? USHRT_MAX) && negb (out =? 0) && update_used c.

Definition request_ok (c : mic_copy_desc) : Prop := iovcnt c = zlen (c_iov c) ∧ Forall (fun r => 0 <= r.2) (c_iov c).

(** What is left in the ring's records, and what the card is told. *)
Definition after (c : mic_copy_desc) (rk wk : vringh_kiov) (hd : Z) (v v' : vop_vringh) (rep tot : Z) : Prop :=
  if completes hd (u32 rep) c
  then completed v' = completed v ++ [(hd, u32 (done_of rk + done_of wk + tot))] ∧ vr_head v' = USHRT_MAX ∧
       exhausted (riov v') ∧ exhausted (wiov v')
  else completed v' = completed v ∧ vr_head v' = hd ∧ kiov_ok (riov v') ∧ kiov_ok (wiov v') ∧
       chain (riov v') (wiov v') = drop (Z.to_nat tot) (chain rk wk) ∧ done_of (riov v') + done_of (wiov v') = done_of rk + done_of wk + tot.

(** C5: On a host whose DMA engine needs no alignment ([copy_align] is 0, as on the x200) and that has no
    IOMMU, a virtio request terminates, and what it has done to the memories is a prefix of the moves
    that its descriptor chain and the caller's buffers ask for, byte by byte and in order: all of them,
    as far as both go, when it returns 0, which it does when nothing fails.  It reports no more than it
    has taken off the chain; the rest of the chain is kept for the next request, or the chain goes back
    to the card with the number of bytes consumed over all the requests that it took.  The lengths of
    its buffers and of the ranges of the chain are as [request_ok] and [kiov_ok] say.  With
    an engine that wants aligned addresses the claim fails ([copy_to_user_unaligned_gap]), and with an IOMMU
    [vop_dma_map] gives an address to which the page number of the offset has been added. *)
Theorem virtio_copy_serves getdesc c v s rk wk hd : fetched getdesc v = Some (rk, wk, hd) → kiov_ok rk → kiov_ok wk → request_ok c →
  ∃ ret rep tot v' s' m, _vop_virtio_copy chan 0 bus disable_dma aper_pa None getdesc c v s = Some (ret, u32 rep, v', s') ∧
    0 <= rep <= tot ∧ tot <= m ∧ m <= todo (cells (c_iov c)) (chain rk wk) ∧
    mems s' = exec (take (Z.to_nat m) (request (cells (c_iov c)) (chain rk wk))) (mems s) ∧
    (ret = 0 → rep = m ∧ m = todo (cells (c_iov c)) (chain rk wk)) ∧ (all_well s → ret = 0 ∧ all_well s') ∧
    after c rk wk hd v v' rep tot.
Proof.
  intros Hf Hr Hw (Hcnt & Hpos). unfold _vop_virtio_copy.
  assert (∃ r, (if exhausted (riov v) && exhausted (wiov v) then getdesc else (1, (riov v, wiov v, vr_head v))) = (r, (rk, wk, hd)) ∧ 0 < r) as (r & -> & Hr0).
  { unfold fetched in Hf. destruct (_ && _); [|injection Hf as <- <- <-; by exists 1]. destruct getdesc as [r g]. cbn in Hf.
    destruct (Z.leb_spec r 0); [done|]. injection Hf as ->. by exists r. }
  destruct (Z.leb_spec r 0); [lia|]. rewrite Hcnt.
  destruct (virtio_loop_spec (S (Z.to_nat (zlen (c_iov c)))) (c_iov c) 0 0 rk wk s) as
    (ret & rep & tot & rk' & wk' & s' & m & E & Hrep & Ht & Hm & Hr' & Hw' & Hc & Hd & Hmm & H0 & Hall); [unfold zlen; lia|done..|].
  change (u32 0) with 0 in E. rewrite E, Z.add_0_l. cbn [mbind option_bind]. clear E.
  eexists ret, rep, tot, _, s', m. split; [done|]. split_and!; try done; try lia.
  unfold after, completes. destruct (_ && _); [|done]. cbn [completed vr_head riov wiov]. split; [|done].
  do 3 f_equal. change (vop_vringh_iov_consumed ?k) with (u32 (done_of k)). by rewrite u32_add_l, u32_add_r, Hd.
Qed.

End Request.
(** ** Where the request theorem holds *)

Definition ex_bus (a : Z) : Z := a - 2 ^ 36.
Definition ex_kiov (l : list (Z * Z)) : vringh_kiov := Kiov l 0 (zlen l) 0.
(** A chain that the card has written 5 bytes of and wants 4 of, against two buffers of the caller. *)
Definition ex_rk : vringh_kiov := ex_kiov [(100, 2); (200, 3)].
Definition ex_wk : vringh_kiov := ex_kiov [(300, 4)].
Definition ex_req : mic_copy_desc := CopyDesc [(1000, 3); (2000, 6)] 2 true.
Definition ex_vvr : vop_vringh := Vvr (ex_kiov []) (ex_kiov []) USHRT_MAX [].
Definition ex_io : io :=
  Io (list_to_map (zip (seqZ 2000 10) (seqZ 50 10))) (list_to_map (zip (seqZ 100 2 ++ seqZ 200 3) (seqZ 1 5))) ∅ (Stats 0 0 0 0 0 0) [].

Lemma virtio_copy_serves_witness : ∃ ret rep tot v' s' m,
  _vop_virtio_copy true 0 ex_bus false (2 ^ 36) None (1, (ex_rk, ex_wk, 7)) ex_req ex_vvr ex_io = Some (ret, u32 rep, v', s') ∧
  0 <= rep <= tot ∧ tot <= m ∧ m <= todo (cells (c_iov ex_req)) (chain ex_rk ex_wk) ∧
  mems s' = exec (take (Z.to_nat m) (request (cells (c_iov ex_req)) (chain ex_rk ex_wk))) (mems ex_io) ∧
  (ret = 0 → rep = m ∧ m = todo (cells (c_iov ex_req)) (chain ex_rk ex_wk)) ∧
  (all_well true ex_io → ret = 0 ∧ all_well true s') ∧ after 1000 ex_req ex_rk ex_wk 7 ex_vvr v' rep tot.
Proof.
  apply (virtio_copy_serves true ex_bus false (2 ^ 36) 1000).
  - lia.
  - intros c Hc. unfold ex_bus. lia.
  - reflexivity.
  - split; [reflexivity|vm_compute; split; discriminate|]. repeat constructor; cbn; lia.
  - split; [reflexivity|vm_compute; split; discriminate|]. repeat constructor; cbn; lia.
  - split; [reflexivity|]. repeat constructor; cbn; lia.
Defined.

(** The run: 9 bytes, the chain back to the card with its head. *)
Example virtio_copy_run :
  (fun r : option (Z * Z * vop_vringh * io) => (fun r => (r.1.1, completed r.1.2,
     (fun a => user r.2 !!! a) <$> (seqZ 1000 3 ++ seqZ 2000 6), (fun a => card r.2 !!! a) <$> seqZ 300 4)) <$> r)
    (_vop_virtio_copy true 0 ex_bus false (2 ^ 36) None (1, (ex_rk, ex_wk, 7)) ex_req ex_vvr ex_io) =
  Some (0, 9, [(7, 9)], [1; 2; 3; 4; 5; 52; 53; 54; 55], [52; 53; 54; 55]).
Proof. vm_compute. reflexivity. Qed.

(** ** An engine that wants aligned addresses *)

Lemma blit_outside n : ∀ (dst src : mem) (fs : Z → Z) d k x, x < d + k ∨ d + k + Z.of_nat n <= x → blit n dst (fun k => d + k) src fs k !!! x = dst !!! x.
Proof.
  induction n as [|n IH]; intros dst src fs d k x Hx; cbn [blit]; [done|]. rewrite IH by lia. by rewrite lookup_total_insert_ne by lia.
Qed.

Lemma copy_outside n (dst src : mem) fs d x : x < d ∨ d + n <= x → copy n dst (fun k => d + k) src fs !!! x = dst !!! x.
Proof. intros Hx. unfold copy. apply blit_outside. lia. Qed.

Lemma round_down_mod x a : 0 <= a <= 64 → 0 <= x < 2 ^ 64 → round_down x (dma_alignment a) = x - x mod 2 ^ a.
Proof. apply land_high. Qed.

Section Aligned.
Context (copy_align : Z) (bus : Z → Z) (aper_pa : Z) (iommu : option (Z → Z)).

#[local] Notation loop := (to_user_loop true copy_align bus).

(** One round of the loop when nothing fails. *)
Lemma to_user_round fuel ubuf len daddr off s : plan s = [] → 0 < len → off <= Z.min len VOP_INT_DMA_BUF_SIZE →
  let p := Z.min len VOP_INT_DMA_BUF_SIZE in
  ∃ s', loop (S fuel) ubuf len daddr off s = loop fuel (ubuf + p) (len - p) (u64 (daddr + p)) 0 s' ∧ plan s' = [] ∧
    ∀ x, x < ubuf ∨ ubuf + (p - off) <= x → user s' !!! x = user s !!! x.
Proof.
  intros Hp Hlen Hoff p. destruct s as [us cd bf t pl]. cbn in Hp. subst pl. cbn [to_user_loop]. rewrite (proj2 (Z.eqb_neq _ _)) by lia.
  unfold vop_sync_dma, copy_to_user, next. cbn [negb plan Z.eqb set_buf user card buf st].
  replace (left_of _ 0) with 0 by (unfold left_of, VOP_INT_DMA_BUF_SIZE in *; lia). cbn [negb Z.eqb].
  eexists. split; [reflexivity|]. split; [done|]. intros x Hx. cbn. apply copy_outside. rewrite Z.sub_0_r. fold p. lia.
Qed.

(** The loop does not write below its buffer. *)
Lemma to_user_loop_above fuel : ∀ ubuf len daddr s, plan s = [] → 0 <= len → (Z.to_nat (len / VOP_INT_DMA_BUF_SIZE) + 1 < fuel)%nat →
  ∃ s', loop fuel ubuf len daddr 0 s = Some (0, s') ∧ ∀ x, x < ubuf → user s' !!! x = user s !!! x.
Proof.
  induction fuel as [|fuel IH]; intros ubuf len daddr s Hp Hlen Hf; [lia|].
  destruct (Z.eq_dec len 0) as [->|Hne]; [cbn; by exists s|].
  destruct (to_user_round fuel ubuf len daddr 0 s) as (s1 & -> & Hp1 & H1); [done|lia|unfold VOP_INT_DMA_BUF_SIZE; lia|].
  set (p := Z.min len VOP_INT_DMA_BUF_SIZE) in *. assert (0 < p <= len) as Hpl by (unfold p, VOP_INT_DMA_BUF_SIZE in *; lia).
  assert (∀ x, x < ubuf → user s1 !!! x = user s !!! x) as H1' by (intros x Hx; apply H1; lia).
  destruct (Z.eq_dec p len) as [E|Hpl2]; [replace (len - p) with 0 by lia; destruct fuel; [lia|]; cbn; by exists s1|].
  destruct (IH (ubuf + p) (len - p) (u64 (daddr + p)) s1) as (s' & -> & H'); [done|lia| |].
  - assert (p = VOP_INT_DMA_BUF_SIZE) as Ep by (unfold p in *; lia). rewrite Ep.
    replace (len - VOP_INT_DMA_BUF_SIZE) with (len + (-1) * VOP_INT_DMA_BUF_SIZE) by lia. rewrite Z.div_add by done.
    assert (1 <= len / VOP_INT_DMA_BUF_SIZE); [|lia]. apply Z.div_le_lower_bound; unfold p, VOP_INT_DMA_BUF_SIZE in *; lia.
  - exists s'. split; [done|]. intros x Hx. rewrite H' by lia. by apply H1'.
Qed.

Lemma dma_map_ok daddr da n s : plan s = [] → ∃ da', vop_dma_map aper_pa iommu daddr da n s = (0, da', s).
Proof.
  destruct s as [us cd bf t pl]. cbn. intros ->. unfold vop_dma_map, next. destruct iommu as [sg|]; [|by eexists]. cbn. rewrite Z.sub_0_r, Z.eqb_refl. by eexists.
Qed.

(** An engine that wants aligned addresses starts before the bytes that are asked for, at a distance of
    less than its alignment, and a copy to the caller that does not end in the first buffer leaves a gap of that
    many bytes in the caller's memory: they are not written, and the copy returns 0. *)
Theorem copy_to_user_unaligned_gap ubuf len daddr s : 0 <= copy_align <= 16 → 0 <= daddr < 2 ^ 64 → plan s = [] →
  let off := daddr mod 2 ^ copy_align in VOP_INT_DMA_BUF_SIZE < len + off →
  ∃ s', vop_virtio_copy_to_user true copy_align bus false aper_pa iommu ubuf len daddr s = Some (0, s') ∧
    ∀ k, VOP_INT_DMA_BUF_SIZE - off <= k < VOP_INT_DMA_BUF_SIZE → user s' !!! (ubuf + k) = user s !!! (ubuf + k).
Proof.
  intros Ha Hd Hp off Hlen. unfold vop_virtio_copy_to_user.
  replace (daddr - round_down daddr (dma_alignment copy_align)) with off by (rewrite round_down_mod by lia; unfold off; lia).
  assert (0 <= off < VOP_INT_DMA_BUF_SIZE) as Hoff.
  { pose proof (Z.mod_pos_bound daddr (2 ^ copy_align) (Z.pow_pos_nonneg 2 copy_align ltac:(lia) ltac:(lia))).
    assert (2 ^ copy_align <= 2 ^ 16) by (apply Z.pow_le_mono_r; lia). unfold off, VOP_INT_DMA_BUF_SIZE. lia. }
  destruct (dma_map_ok (daddr - off) (daddr - off) ((daddr - off + (len + off)) / PAGE_SIZE - (daddr - off) / PAGE_SIZE + 1) s Hp) as (da & Eda).
  assert (∃ da, (if x200 copy_align then vop_dma_map aper_pa iommu (daddr - off) (daddr - off) ((daddr - off + (len + off)) / PAGE_SIZE - (daddr - off) / PAGE_SIZE + 1) s
                 else (0, daddr - off, s)) = (0, da, s)) as (da' & ->) by (destruct (x200 copy_align); [by exists da|by eexists]).
  destruct (to_user_round (S (Z.to_nat ((len + off) / VOP_INT_DMA_BUF_SIZE))) ubuf (len + off) da' off s) as (s1 & E & Hp1 & H1); [done|lia|lia|].
  change (rounds (len + off)) with (S (S (Z.to_nat ((len + off) / VOP_INT_DMA_BUF_SIZE)))). rewrite E. rewrite Z.min_r in * by lia.
  destruct (to_user_loop_above (S (Z.to_nat ((len + off) / VOP_INT_DMA_BUF_SIZE))) (ubuf + VOP_INT_DMA_BUF_SIZE) (len + off - VOP_INT_DMA_BUF_SIZE)
    (u64 (da' + VOP_INT_DMA_BUF_SIZE)) s1) as (s' & -> & H'); [done|lia| |].
  - replace (len + off - VOP_INT_DMA_BUF_SIZE) with (len + off + (-1) * VOP_INT_DMA_BUF_SIZE) by lia. rewrite Z.div_add by done.
    assert (1 <= (len + off) / VOP_INT_DMA_BUF_SIZE); [|lia]. apply Z.div_le_lower_bound; unfold VOP_INT_DMA_BUF_SIZE in *; lia.
  - exists s'. split; [done|]. intros k Hk. rewrite H' by lia. apply H1. lia.
Qed.

End Aligned.

End VopRequest.
