(* ===== verification/VopPage.v ===== *)
(** * Virtio devices of the device page

    Models the device page that the host of [vop_host.c] and the card of [vop_card.c] share:
    the descriptors in it, the slot of a new device ([vop_copy_dp_entry]), adding and
    removing a device on the host with what is allocated and freed, and how the card
    scans the page and has its used rings taken over.  The bytes of the page are as they are. *)
From S2P Require Import Prelude.
Local Open Scope Z_scope.

Module VopPage.

Notation mem := (gmap Z Z).

Definition MIC_DP_SIZE : Z := 4096.
Definition MIC_MAX_DESC_BLK_SIZE : Z := 256.
Definition MIC_MAX_VRINGS : Z := 4.
Definition MIC_MAX_VRING_ENTRIES : Z := 128.
Definition MIC_VIRTIO_PARAM_DEV_REMOVE : Z := 1.

(** ** Bytes *)

(** Memory that has not been written is zero. *)
Definition read8 (m : mem) (a : Z) : Z := default 0 (m !! a) mod 256.
Definition reads8 (m : mem) (a : Z) : Z := if read8 m a <? 128 then read8 m a else read8 m a - 256.
Definition write8 (a v : Z) (m : mem) : mem := <[a := v mod 256]> m.
Definition read16 (m : mem) (a : Z) : Z := read8 m a + 256 * read8 m (a + 1).
(** [n] bytes of [v], from the lowest on. *)
Fixpoint write_le (n : nat) (a v : Z) (m : mem) : mem :=
  match n with O => m | S n => write_le n (a + 1) (v / 256) (write8 a v m) end.
Fixpoint memcpy (n : nat) (dst : Z) (src : mem) (a : Z) (m : mem) : mem :=
  match n with O => m | S n => memcpy n (dst + 1) src (a + 1) (write8 dst (read8 src a) m) end.

(** ** [struct mic_device_desc], [mic_vqconfig], [mic_device_ctrl] and [mic_bootparam]

    Their sizes, and the places of their fields. *)
Definition sizeof_device_desc : Z := 8.
Definition sizeof_vqconfig : Z := 24.
Definition sizeof_device_ctrl : Z := 16.
Definition sizeof_bootparam : Z := 24.

Definition dd_type (m : mem) (d : Z) : Z := reads8 m d.
Definition dd_num_vq (m : mem) (d : Z) : Z := read8 m (d + 1).
Definition dd_feature_len (m : mem) (d : Z) : Z := read8 m (d + 2).
Definition dd_config_len (m : mem) (d : Z) : Z := read8 m (d + 3).
Definition dd_status (m : mem) (d : Z) : Z := read8 m (d + 4).

Definition mic_align (a x : Z) : Z := Z.land (u32 (a + x - 1)) (2 ^ 32 - x).
Definition mic_desc_size (m : mem) (d : Z) : Z :=
  sizeof_device_desc + dd_num_vq m d * sizeof_vqconfig + dd_feature_len m d * 2 + dd_config_len m d.
Definition mic_aligned_desc_size (m : mem) (d : Z) : Z := mic_align (mic_desc_size m d) 8.
Definition mic_total_desc_size (m : mem) (d : Z) : Z := mic_aligned_desc_size m d + sizeof_device_ctrl.
Definition mic_vq_config (d i : Z) : Z := d + sizeof_device_desc + i * sizeof_vqconfig.

(** Fields of the control area [dc]. *)
Definition dc_config_change (dc : Z) : Z := dc + 8.
Definition dc_vdev_reset (dc : Z) : Z := dc + 9.
Definition dc_guest_ack (dc : Z) : Z := dc + 10.
Definition dc_host_ack (dc : Z) : Z := dc + 11.
Definition dc_used_address_updated (dc : Z) : Z := dc + 12.
Definition dc_c2h_vdev_db (dc : Z) : Z := dc + 13.
Definition dc_h2c_vdev_db (dc : Z) : Z := dc + 14.

(** ** The slot of a device *)

(** The loop of [vop_copy_dp_entry] over the slots: the first free one. *)
Fixpoint find_slot (fuel : nat) (page : mem) (lim i : Z) : option (option Z) :=
  match fuel with
  | O => None
  | S fuel =>
      if i <? lim then
        if (dd_type page i =? 0) || (dd_type page i =? -1) then Some (Some i)
        else find_slot fuel page lim (i + mic_total_desc_size page i)
      else Some None
  end.

Definition too_many_entries (argp : mem) : bool :=
  existsb (fun i => MIC_MAX_VRING_ENTRIES <? read16 argp (mic_vq_config 0 i + 16)) (seqZ 0 (dd_num_vq argp 0)).

(** The result; the page, the caller's descriptor, its type and the slot. *)
Definition vop_copy_dp_entry (page argp : mem) : option (Z * option (mem * mem * Z * Z)) :=
  if too_many_entries argp then Some (- EINVAL, None)
  else
    slot ← find_slot (Z.to_nat MIC_DP_SIZE) page (u32 (MIC_DP_SIZE - mic_total_desc_size argp 0)) sizeof_bootparam;
    match slot with
    | None => Some (- EINVAL, None)
    | Some d =>
        let argp' := write8 0 0 argp in
        Some (0, Some (memcpy (Z.to_nat (mic_desc_size argp' 0)) d argp' 0 page, argp', read8 argp 0, d))
    end.

(** The control area of the descriptor at [d]. *)
Definition dc_of (page : mem) (d : Z) : Z := d + mic_aligned_desc_size page d.

Definition vop_init_device_ctrl (d : Z) (page : mem) : mem :=
  let dc := dc_of page d in
  write8 (dc_h2c_vdev_db dc) (-1) (write8 (dc_c2h_vdev_db dc) (-1) (write8 (dc_used_address_updated dc) 0
    (write8 (dc_host_ack dc) 0 (write8 (dc_vdev_reset dc) 0 (write8 (dc_guest_ack dc) 0 (write8 (dc_config_change dc) 0 page)))))).

(** ** Devices on the host *)

(** What is allocated and freed, of ring [i] or of the device. *)
Inductive event := AllocRing (i : Z) | FreeRing (i : Z) | AllocBuf (i : Z) | FreeBuf (i : Z)
  | RequestIrq | FreeIrq (valid : bool) | FreeVdev | SendIntr (db : Z) | CompleteRings | UnlockVdev.

#[export] Instance event_eq_dec : EqDecision event. Proof. solve_decision. Defined.

(** The list head of a device: as it is allocated, initialised, in the list of its owner. *)
Inductive list_head := Zeroed | Alone | Linked.
#[export] Instance list_head_eq_dec : EqDecision list_head. Proof. solve_decision. Defined.

(** [struct vop_vdev]: the descriptor and its control area, whether the pointers to each
    ring and to its bounce buffer are set, and whether the cookie is that of an interrupt. *)
Record vdev := Vdev {
  v_dd : option Z; v_dc : Z; virtio_id : Z; va : gset Z; vbuf : gset Z; cookie : bool; deleted : bool; v_list : list_head }.

Definition list_empty (v : vdev) : bool := bool_decide (v_list v = Alone).

(** [plan]: whether what can fail does, in order; success when there are no more. *)
Record host := Host { page : mem; dev : vdev; trace : list event; plan : list Z }.

Definition emit (e : event) (s : host) : host := Host (page s) (dev s) (trace s ++ [e]) (plan s).
Definition set_page (m : mem) (s : host) : host := Host m (dev s) (trace s) (plan s).
Definition set_dev (v : vdev) (s : host) : host := Host (page s) v (trace s) (plan s).
Definition next (s : host) : Z * host :=
  match plan s with [] => (0, s) | r :: l => (r, Host (page s) (dev s) (trace s) l) end.

Definition set_va (f : gset Z → gset Z) (v : vdev) : vdev :=
  Vdev (v_dd v) (v_dc v) (virtio_id v) (f (va v)) (vbuf v) (cookie v) (deleted v) (v_list v).
Definition set_vbuf (f : gset Z → gset Z) (v : vdev) : vdev :=
  Vdev (v_dd v) (v_dc v) (virtio_id v) (va v) (f (vbuf v)) (cookie v) (deleted v) (v_list v).

Section Host.
(** The bus address of ring [i], the doorbell that the hardware gives out, and whether the
    device page has been set up. *)
Context (vr_addr : Z → Z) (next_db : Z) (get_dp : bool).

(** The loop of [vop_virtio_add_device] over the rings: the error, and the ring it stops at. *)
Fixpoint setup_rings (fuel : nat) (d i : Z) (s : host) : option (Z * Z * host) :=
  match fuel with
  | O => None
  | S fuel =>
      if i <? dd_num_vq (page s) d then
        let '(no_va, s) := next s in
        if negb (no_va =? 0) then Some (- ENOMEM, i, set_dev (set_va (fun a => a ∖ {[ i ]}) (dev s)) s)
        else
          let s := set_dev (set_va (fun a => {[ i ]} ∪ a) (dev s)) (emit (AllocRing i) s) in
          let s := set_page (write_le 8 (mic_vq_config d i) (vr_addr i) (page s)) s in
          let '(ret, s) := next s in
          if negb (ret =? 0) then Some (ret, i, s)
          else
            let '(no_buf, s) := next s in
            if negb (no_buf =? 0) then Some (- ENOMEM, i, set_dev (set_vbuf (fun a => a ∖ {[ i ]}) (dev s)) s)
            else setup_rings fuel d (i + 1) (set_dev (set_vbuf (fun a => {[ i ]} ∪ a) (dev s)) (emit (AllocBuf i) s))
      else Some (0, i, s)
  end.

(** The error path: the rings below [i]. *)
Definition undo_ring (j : Z) (s : host) : host :=
  let s := if bool_decide (j ∈ vbuf (dev s)) then emit (FreeBuf j) s else s in
  if bool_decide (j ∈ va (dev s)) then set_dev (set_va (fun a => a ∖ {[ j ]}) (dev s)) (emit (FreeRing j) s) else s.

Definition undo_rings (i : Z) (s : host) : host := foldl (fun s j => undo_ring j s) s (seqZ 0 i).

Definition vop_virtio_add_device (argp : mem) (s : host) : option (Z * host) :=
  let v := dev s in
  let s := set_dev (Vdev (v_dd v) (v_dc v) (virtio_id v) (va v) (vbuf v) (cookie v) (deleted v) Alone) s in
  '(ret, r) ← vop_copy_dp_entry (page s) argp;
  match r with
  | None => Some (ret, emit FreeVdev s)
  | Some (pg, argp, type, d) =>
      let s := set_page (vop_init_device_ctrl d pg) s in
      let v := dev s in
      let s := set_dev (Vdev (Some d) (dc_of pg d) type (va v) (vbuf v) (cookie v) (deleted v) (v_list v)) s in
      '(ret, i, s) ← setup_rings 256 d 0 s;
      if negb (ret =? 0) then Some (ret, undo_rings i s)
      else
        let '(err, s) := next s in
        let v := dev s in
        if negb (err =? 0)
        then Some (err, undo_rings i (set_dev (Vdev (v_dd v) (v_dc v) (virtio_id v) (va v) (vbuf v) false (deleted v) (v_list v)) s))
        else
          let s := set_dev (Vdev (v_dd v) (v_dc v) (virtio_id v) (va v) (vbuf v) true (deleted v) (v_list v)) (emit RequestIrq s) in
          let s := set_page (write8 d type (write8 (dc_c2h_vdev_db (v_dc v)) next_db (page s))) s in
          let db := reads8 (page s) 4 in
          Some (0, if get_dp && negb (db =? -1) then emit (SendIntr db) s else s)
  end.

(** ** The calls *)

(** [vop_open]. *)
Definition new_vdev : vdev := Vdev None 0 0 ∅ ∅ false false Zeroed.

(** [MIC_VIRTIO_ADD_DEVICE]: the descriptor is read twice, [dd] and then [argp]. *)
Definition vop_ioctl_add (dd argp : mem) (s : host) : option (Z * host) :=
  if (MIC_MAX_DESC_BLK_SIZE <? mic_aligned_desc_size dd 0) || (MIC_MAX_VRINGS <? dd_num_vq dd 0) then Some (- EINVAL, s)
  else
    let '(no_mem, s) := next s in
    if negb (no_mem =? 0) then Some (- ENOMEM, s)
    else
      let '(fault, s) := next s in
      if negb (fault =? 0) then Some (- EFAULT, s)
      else
        '(ret, s) ← vop_virtio_add_device argp s;
        let v := dev s in
        let s := if ret =? 0 then set_dev (Vdev (v_dd v) (v_dc v) (virtio_id v) (va v) (vbuf v) (cookie v) (deleted v) Linked) s else s in
        Some (ret, emit UnlockVdev s).

(** What the card does to the page while the host waits for it, the first and the second time. *)
Context (card1 card2 : mem → mem).

Definition vop_virtio_device_reset (d dc : Z) (pg : mem) : mem :=
  write8 (dc_host_ack dc) 1 (write8 (dc_vdev_reset dc) 0 (write8 (d + 4) 0 pg)).

Definition vop_dev_remove (d dc : Z) (s : host) : host :=
  let s := set_page (write8 (dc_config_change dc) MIC_VIRTIO_PARAM_DEV_REMOVE (page s)) s in
  let db := reads8 (page s) 4 in
  let s := if negb (db =? -1) then emit (SendIntr db) s else s in
  let s := set_page (card1 (page s)) s in
  let s := set_page (write8 (dc_guest_ack dc) 0 (write8 (dc_config_change dc) 0 (page s))) s in
  set_page (write8 d (-1) (card2 (vop_virtio_device_reset d dc (page s)))) s.

(** The loop of [vop_virtio_del_device] for ring [i]. *)
Definition del_ring (i : Z) (s : host) : host :=
  let s := if bool_decide (i ∈ vbuf (dev s)) then set_dev (set_vbuf (fun a => a ∖ {[ i ]}) (dev s)) (emit (FreeBuf i) s) else s in
  if bool_decide (i ∈ va (dev s)) then set_dev (set_va (fun a => a ∖ {[ i ]}) (dev s)) (emit (FreeRing i) s) else s.

Definition vop_virtio_del_device (d : Z) (s : host) : host :=
  let s := emit (FreeIrq (cookie (dev s))) s in
  let s := if get_dp && negb (dd_type (page s) d =? -1) then vop_dev_remove d (v_dc (dev s)) s else s in
  let s := foldl (fun s i => del_ring i s) s (seqZ 0 (dd_num_vq (page s) d)) in
  let v := dev s in
  set_page (write8 d (-1) (page s)) (set_dev (Vdev (v_dd v) (v_dc v) (virtio_id v) (va v) (vbuf v) (cookie v) true (v_list v)) s).

(** [vop_release]: nothing when it uses the descriptor of a device that has none. *)
Definition vop_release (s : host) : option host :=
  match v_dd (dev s) with
  | None => if negb (list_empty (dev s)) || negb (deleted (dev s)) then None else Some (emit FreeVdev s)
  | Some d =>
      let v := dev s in
      let s := if negb (list_empty v)
               then set_dev (Vdev (v_dd v) (v_dc v) (virtio_id v) (va v) (vbuf v) (cookie v) (deleted v) Alone) s else s in
      let s := if negb (deleted (dev s)) then vop_virtio_del_device d s else s in
      Some (emit FreeVdev s)
  end.

End Host.
(** [vop_vdev_get_status]. *)
Definition vop_vdev_get_status (pg : mem) (v : vdev) : Z :=
  match v_dd v with
  | None => - EINVAL
  | Some d => if dd_type pg d =? 0 then - EINVAL else if dd_type pg d =? -1 then - ENODEV else 0
  end.

(** ** The card *)

(** The walk of [_vop_scan_devices] over the page: the devices that it finds, as place and type. *)
Fixpoint scan (fuel : nat) (page : mem) (i : Z) : option (list (Z * Z)) :=
  match fuel with
  | O => None
  | S fuel =>
      if i <? MIC_DP_SIZE then
        let type := dd_type page i in
        if type =? 0 then Some []
        else
          rest ← scan fuel page (i + mic_total_desc_size page i);
          Some (if type =? -1 then rest else (i, type) :: rest)
      else Some []
  end.

Definition found_from (page : mem) (i : Z) : option (list (Z * Z)) := scan (S (Z.to_nat MIC_DP_SIZE)) page i.
Definition found_devices (page : mem) : option (list (Z * Z)) := found_from page sizeof_bootparam.

(** The counter of [for (retry = n; retry--;)] when it is left; [poll]: whether the host has
    acknowledged, at each look. *)
Fixpoint retries (n : nat) (poll : list bool) : Z :=
  match n with
  | O => -1
  | S n => match poll with true :: _ => Z.of_nat n | _ :: l => retries n l | [] => retries n [] end
  end.

(** The end of [vop_find_vqs]. *)
Definition find_vqs_ack (poll : list bool) : Z := if retries 100 poll =? 0 then - ENODEV else 0.

End VopPage.
