(* ===== verification/VopPageInv.v ===== *)
(** * The device page is a list of devices

    What the host's operations of [VopPage] do to the devices that the card finds in the
    page: a new device is added to them, wherever its slot is, as long as a slot that is
    used again keeps its size; a device that cannot be added hides those behind its slot. *)
From S2P Require Import Prelude VopPage.
Local Open Scope Z_scope.

Module VopPageInv.
Import VopPage.

(** ** Bytes *)

Lemma read8_write8 a v m b : read8 (write8 a v m) b = if b =? a then v mod 256 else read8 m b.
Proof.
  unfold read8, write8. destruct (Z.eqb_spec b a) as [->|Hne].
  - rewrite lookup_insert_eq. cbn. by rewrite Z.mod_mod.
  - by rewrite lookup_insert_ne by done.
Qed.

Lemma read8_range m a : 0 <= read8 m a < 256.
Proof. apply Z.mod_pos_bound. lia. Qed.

Lemma read8_memcpy n : ∀ dst src a m b,
  read8 (memcpy n dst src a m) b = if (dst <=? b) && (b <? dst + Z.of_nat n) then read8 src (a + (b - dst)) else read8 m b.
Proof.
  induction n as [|n IH]; intros dst src a m b; cbn [memcpy].
  - destruct (Z.leb_spec dst b), (Z.ltb_spec b (dst + Z.of_nat 0)); cbn; try done; lia.
  - rewrite IH, read8_write8. pose proof (read8_range src a).
    destruct (Z.leb_spec (dst + 1) b), (Z.ltb_spec b (dst + 1 + Z.of_nat n)), (Z.leb_spec dst b), (Z.ltb_spec b (dst + Z.of_nat (S n))),
      (Z.eqb_spec b dst); cbn [andb]; try lia; try done; try (f_equal; lia).
    rewrite Z.mod_small by done. f_equal. lia.
Qed.

(** Two pages that differ between [lo] and [hi] at most. *)
Definition agree_out (lo hi : Z) (m m' : mem) : Prop := ∀ b, b < lo ∨ hi <= b → read8 m' b = read8 m b.

Lemma agree_refl lo hi m : agree_out lo hi m m.
Proof. done. Qed.
Lemma agree_trans lo hi m1 m2 m3 : agree_out lo hi m1 m2 → agree_out lo hi m2 m3 → agree_out lo hi m1 m3.
Proof. intros H1 H2 b Hb. by rewrite H2, H1. Qed.
Lemma agree_mono lo hi lo' hi' m m' : lo' <= lo → hi <= hi' → agree_out lo hi m m' → agree_out lo' hi' m m'.
Proof. intros Hl Hh H b Hb. apply H. lia. Qed.
Lemma agree_write8 lo hi a v m : lo <= a < hi → agree_out lo hi m (write8 a v m).
Proof. intros Ha b Hb. rewrite read8_write8. destruct (Z.eqb_spec b a); [lia|done]. Qed.
Lemma agree_write_le n : ∀ lo hi a v m, lo <= a → a + Z.of_nat n <= hi → agree_out lo hi m (write_le n a v m).
Proof.
  induction n as [|n IH]; intros lo hi a v m Hl Hh; cbn [write_le]; [apply agree_refl|].
  eapply agree_trans; [apply agree_write8|apply IH]; lia.
Qed.

(** ** Sizes *)

Lemma aligned_size_eq m d : mic_aligned_desc_size m d = mic_desc_size m d + 7 - (mic_desc_size m d + 7) mod 8.
Proof.
  unfold mic_aligned_desc_size, mic_align. change (2 ^ 32 - 8) with (2 ^ 32 - 2 ^ 3).
  pose proof (read8_range m (d + 1)). pose proof (read8_range m (d + 2)). pose proof (read8_range m (d + 3)).
  assert (0 <= mic_desc_size m d < 10000) by (unfold mic_desc_size, dd_num_vq, dd_feature_len, dd_config_len, sizeof_device_desc, sizeof_vqconfig; lia).
  rewrite wrap_small by (unfold in_width; lia). rewrite land_high by (unfold in_width; lia). change (2 ^ 3) with 8. by replace (mic_desc_size m d + 8 - 1) with (mic_desc_size m d + 7) by lia.
Qed.

Lemma size_bounds m d : 8 + 24 * dd_num_vq m d <= mic_desc_size m d ∧ mic_desc_size m d <= mic_aligned_desc_size m d < mic_desc_size m d + 8 ∧
  mic_total_desc_size m d = mic_aligned_desc_size m d + 16.
Proof.
  pose proof (read8_range m (d + 1)). pose proof (read8_range m (d + 2)). pose proof (read8_range m (d + 3)).
  rewrite aligned_size_eq. pose proof (Z.mod_pos_bound (mic_desc_size m d + 7) 8 ltac:(lia)). split_and!; try lia.
  - unfold mic_desc_size, dd_num_vq, dd_feature_len, dd_config_len, sizeof_device_desc, sizeof_vqconfig; lia.
  - unfold mic_total_desc_size. by rewrite aligned_size_eq.
Qed.

Lemma total_pos m d : 24 <= mic_total_desc_size m d.
Proof. destruct (size_bounds m d) as (H1 & H2 & ->). pose proof (read8_range m (d + 1)). unfold dd_num_vq in *. lia. Qed.

(** The header of a descriptor decides its size. *)
Lemma size_ext m m' d d' : (∀ j, 1 <= j < 4 → read8 m' (d' + j) = read8 m (d + j)) → mic_desc_size m' d' = mic_desc_size m d.
Proof. intros H. unfold mic_desc_size, dd_num_vq, dd_feature_len, dd_config_len. by rewrite !H by lia. Qed.
Lemma aligned_ext m m' d d' : (∀ j, 1 <= j < 4 → read8 m' (d' + j) = read8 m (d + j)) → mic_aligned_desc_size m' d' = mic_aligned_desc_size m d.
Proof. intros H. unfold mic_aligned_desc_size. by rewrite (size_ext m m' d d' H). Qed.
Lemma total_ext m m' d d' : (∀ j, 1 <= j < 4 → read8 m' (d' + j) = read8 m (d + j)) → mic_total_desc_size m' d' = mic_total_desc_size m d.
Proof. intros H. unfold mic_total_desc_size. by rewrite (aligned_ext m m' d d' H). Qed.
Lemma type_ext m m' d d' : read8 m' d' = read8 m d → dd_type m' d' = dd_type m d.
Proof. intros H. unfold dd_type, reads8. by rewrite H. Qed.

(** ** The list of devices *)

(** The place of the [n]-th descriptor from [o], and the descriptors up to it. *)
Fixpoint stop (m : mem) (o : Z) (n : nat) : Z := match n with O => o | S n => stop m (o + mic_total_desc_size m o) n end.
Fixpoint devs (m : mem) (o : Z) (n : nat) : list (Z * Z) :=
  match n with O => [] | S n => (o, dd_type m o) :: devs m (o + mic_total_desc_size m o) n end.

Record page_ok (m : mem) (o : Z) (n : nat) : Prop := PageOk {
  po_types : Forall (fun r => r.2 ≠ 0) (devs m o n);
  po_end : stop m o n <= MIC_DP_SIZE;
  po_zero : ∀ b, stop m o n <= b → read8 m b = 0;
}.

Definition present (r : Z * Z) : Prop := r.2 ≠ -1.

Lemma stop_ge m n : ∀ o, o + 24 * Z.of_nat n <= stop m o n.
Proof. induction n as [|n IH]; intros o; cbn [stop]; [lia|]. specialize (IH (o + mic_total_desc_size m o)). pose proof (total_pos m o). lia. Qed.

Lemma page_ok_cons m o n : page_ok m o (S n) → dd_type m o ≠ 0 ∧ page_ok m (o + mic_total_desc_size m o) n.
Proof. intros [H1 H2 H3]. cbn in *. apply Forall_cons in H1 as [? ?]. by split; [|split]. Qed.

Lemma page_ok_end m o : page_ok m o 0 → dd_type m o = 0.
Proof. intros [_ _ H]. unfold dd_type, reads8. by rewrite H by done. Qed.

(** What the card finds. *)
Lemma scan_devs m n : ∀ o fuel, page_ok m o n → 0 <= o → (Z.to_nat (MIC_DP_SIZE - o) < fuel)%nat → scan fuel m o = Some (filter present (devs m o n)).
Proof.
  induction n as [|n IH]; intros o fuel Hok Ho Hf; (destruct fuel as [|fuel]; [lia|]); cbn [scan].
  - rewrite (page_ok_end m o Hok). by destruct (o <? MIC_DP_SIZE).
  - destruct (page_ok_cons m o n Hok) as [Ht Hok']. pose proof (total_pos m o). pose proof (po_end _ _ _ Hok) as He. pose proof (stop_ge m (S n) o).
    rewrite (proj2 (Z.ltb_lt _ _)) by lia. rewrite (proj2 (Z.eqb_neq _ _)) by done. rewrite IH by (try done; lia). cbn [mbind option_bind devs].
    destruct (Z.eqb_spec (dd_type m o) (-1)) as [E|E].
    + by rewrite filter_cons_False by (unfold present; cbn; tauto).
    + by rewrite filter_cons_True by done.
Qed.

Lemma scan_ok m n : page_ok m sizeof_bootparam n → found_devices m = Some (filter present (devs m sizeof_bootparam n)).
Proof. intros Hok. apply scan_devs; [done|done|]. unfold MIC_DP_SIZE, sizeof_bootparam. lia. Qed.

(** A scan that reaches a descriptor of type 0 ends there. *)
Lemma scan_stops m k : ∀ o fuel, Forall (fun r => r.2 ≠ 0) (devs m o k) → stop m o k < MIC_DP_SIZE → dd_type m (stop m o k) = 0 → 0 <= o →
  (Z.to_nat (MIC_DP_SIZE - o) < fuel)%nat → scan fuel m o = Some (filter present (devs m o k)).
Proof.
  induction k as [|k IH]; intros o fuel Ht He Hz Ho Hf; (destruct fuel as [|fuel]; [lia|]); cbn [scan stop devs] in *.
  - rewrite Hz. by destruct (o <? MIC_DP_SIZE).
  - apply Forall_cons in Ht as [Ht1 Ht]. cbn in Ht1. pose proof (total_pos m o). pose proof (stop_ge m k (o + mic_total_desc_size m o)).
    rewrite (proj2 (Z.ltb_lt _ _)) by lia. rewrite (proj2 (Z.eqb_neq _ _)) by done. rewrite IH by (try done; lia). cbn [mbind option_bind].
    destruct (Z.eqb_spec (dd_type m o) (-1)) as [E|E].
    + by rewrite filter_cons_False by (unfold present; cbn; tauto).
    + by rewrite filter_cons_True by done.
Qed.

(** A scan always ends, whatever the bytes are, and more fuel makes no difference. *)
Lemma scan_total m f : ∀ i f', (Z.to_nat (MIC_DP_SIZE - i) < f)%nat → (Z.to_nat (MIC_DP_SIZE - i) < f')%nat →
  ∃ l, scan f m i = Some l ∧ scan f' m i = Some l.
Proof.
  induction f as [|f IH]; intros i f' Hf Hf'; [lia|]. destruct f' as [|f']; [lia|]. cbn [scan]. pose proof (total_pos m i).
  destruct (Z.ltb_spec i MIC_DP_SIZE); [|by eexists]. destruct (dd_type m i =? 0); [by eexists|].
  destruct (IH (i + mic_total_desc_size m i) f') as (l & -> & ->); [lia..|]. by eexists.
Qed.

(** Pages that agree from a place on. *)
Lemma scan_ext m m' f : ∀ i, (∀ b, i <= b → read8 m' b = read8 m b) → scan f m' i = scan f m i.
Proof.
  induction f as [|f IH]; intros i H; cbn [scan]; [done|]. pose proof (total_pos m i).
  rewrite (type_ext m m' i i) by (apply H; lia). rewrite (total_ext m m' i i) by (intros j Hj; apply H; lia).
  rewrite IH; [done|]. intros b Hb. apply H. lia.
Qed.

(** A scan goes over the devices of a list and on behind them. *)
Lemma scan_over m k rest : ∀ o f, Forall (fun r => r.2 ≠ 0) (devs m o k) → stop m o k < MIC_DP_SIZE → 0 <= o →
  (Z.to_nat (MIC_DP_SIZE - o) < f)%nat → scan (S (Z.to_nat MIC_DP_SIZE)) m (stop m o k) = Some rest →
  scan f m o = Some (filter present (devs m o k) ++ rest).
Proof.
  induction k as [|k IH]; intros o f Ht He Ho Hf E; cbn [stop devs] in *.
  - destruct (scan_total m f o (S (Z.to_nat MIC_DP_SIZE)) Hf ltac:(lia)) as (l & -> & E'). cbn. congruence.
  - destruct f as [|f]; [lia|]. cbn [scan]. apply Forall_cons in Ht as [Ht1 Ht]. cbn in Ht1.
    pose proof (total_pos m o). pose proof (stop_ge m k (o + mic_total_desc_size m o)).
    rewrite (proj2 (Z.ltb_lt _ _)) by lia. rewrite (proj2 (Z.eqb_neq _ _)) by done. rewrite IH by (try done; lia). cbn [mbind option_bind].
    destruct (Z.eqb_spec (dd_type m o) (-1)) as [Eq|Eq].
    + by rewrite filter_cons_False by (unfold present; cbn; tauto).
    + by rewrite filter_cons_True by done.
Qed.

(** The list up to a place that pages agree below. *)
Lemma devs_ext m m' k : ∀ o, (∀ b, o <= b < stop m o k → read8 m' b = read8 m b) → devs m' o k = devs m o k ∧ stop m' o k = stop m o k.
Proof.
  induction k as [|k IH]; intros o H; cbn [devs stop] in *; [done|]. pose proof (total_pos m o). pose proof (stop_ge m k (o + mic_total_desc_size m o)).
  rewrite (type_ext m m' o o) by (apply H; lia). rewrite (total_ext m m' o o) by (intros j Hj; apply H; lia).
  destruct (IH (o + mic_total_desc_size m o)) as [-> ->]; [|done]. intros b Hb. apply H. lia.
Qed.

Lemma stop_add m k j : ∀ o, stop m o (k + j) = stop m (stop m o k) j.
Proof. induction k as [|k IH]; intros o; cbn [stop Nat.add]; [done|]. apply IH. Qed.
Lemma devs_add m k j : ∀ o, devs m o (k + j) = devs m o k ++ devs m (stop m o k) j.
Proof. induction k as [|k IH]; intros o; cbn [stop devs Nat.add app]; [done|]. by rewrite IH. Qed.

End VopPageInv.
