(* ===== verification/VopDevice.v ===== *)
(** * Adding a virtio device

    The contract of adding a device ([VopPage]) over the list of devices of [VopPageInv], and
    what goes wrong: a slot whose size changes, an addition that fails. *)
From S2P Require Import Prelude VopPage VopPageInv.
Local Open Scope Z_scope.

Module VopDevice.
Import VopPage VopPageInv.

(** ** The slot *)

(** The first place that is free. *)
Lemma find_slot_spec m n lim : ∀ o fuel, page_ok m o n → 0 <= o → (Z.to_nat (lim - o) < fuel)%nat →
  (find_slot fuel m lim o = Some None) ∨
  (∃ k, find_slot fuel m lim o = Some (Some (stop m o k)) ∧ (k <= n)%nat ∧ stop m o k < lim ∧
     (k = n ∨ ∃ d l, devs m o n = devs m o k ++ d :: l ∧ d.2 = -1)).
Proof.
  induction n as [|n IH]; intros o fuel Hok Ho Hf; (destruct fuel as [|fuel]; [lia|]); cbn [find_slot]; (destruct (Z.ltb_spec o lim) as [Hlt|?]; [|by left]).
  - rewrite (page_ok_end m o Hok). right. exists 0%nat. split_and!; [done|lia|done|by left].
  - destruct (page_ok_cons m o n Hok) as [Ht Hok']. rewrite (proj2 (Z.eqb_neq _ _)) by done. cbn [orb]. pose proof (total_pos m o).
    destruct (Z.eqb_spec (dd_type m o) (-1)) as [E|E].
    { right. exists 0%nat. split_and!; [done|lia|done|]. right. exists (o, dd_type m o), (devs m (o + mic_total_desc_size m o) n). done. }
    destruct (IH (o + mic_total_desc_size m o) fuel Hok') as [H0|(k & H0 & Hk & Hs & Hc)]; [lia|lia|by left|].
    right. exists (S k). cbn [stop devs]. split_and!; [done|lia|done|]. destruct Hc as [->|(d & l & E1 & E2)]; [by left|].
    right. exists d, l. split; [|done]. by rewrite E1.
Qed.

(** ** The rings of a device *)

Section Add.
Context (vr_addr : Z → Z) (next_db : Z) (get_dp : bool).

Lemma next_same s : ∃ r s', next s = (r, s') ∧ page s' = page s ∧ dev s' = dev s ∧ trace s' = trace s.
Proof. unfold next. destruct (plan s); eexists _, _; by split_and!. Qed.

Lemma num_vq_agree lo hi m m' d : agree_out lo hi m m' → d + 8 <= lo → dd_num_vq m' d = dd_num_vq m d.
Proof. intros H Hl. apply H. lia. Qed.

Lemma setup_rings_spec fuel : ∀ d i s, 0 <= i → (Z.to_nat (dd_num_vq (page s) d - i) < fuel)%nat →
  ∃ ret i' s', setup_rings vr_addr fuel d i s = Some (ret, i', s') ∧ agree_out (d + 8) (d + 8 + 24 * dd_num_vq (page s) d) (page s) (page s') ∧
    v_dd (dev s') = v_dd (dev s) ∧ v_dc (dev s') = v_dc (dev s).
Proof.
  induction fuel as [|fuel IH]; intros d i s Hi Hf; [lia|]. cbn [setup_rings].
  destruct (Z.ltb_spec i (dd_num_vq (page s) d)) as [Hlt|?]; [|eexists _, _, _; by split_and!].
  destruct (next_same s) as (r1 & s1 & -> & E1 & D1 & _).
  destruct (negb (r1 =? 0)); [eexists _, _, _; split; [done|]; cbn; by rewrite E1, D1|].
  set (s2 := set_page _ _). assert (agree_out (d + 8) (d + 8 + 24 * dd_num_vq (page s) d) (page s) (page s2)) as A2.
  { unfold s2. cbn [page set_page set_dev emit]. rewrite E1. apply agree_write_le; unfold mic_vq_config, sizeof_device_desc, sizeof_vqconfig; lia. }
  destruct (next_same s2) as (r3 & s3 & -> & E3 & D3 & _). rewrite <- E3 in A2.
  assert (v_dd (dev s3) = v_dd (dev s) ∧ v_dc (dev s3) = v_dc (dev s)) as [D3d D3c] by (by rewrite D3; cbn; rewrite D1).
  destruct (negb (r3 =? 0)); [eexists _, _, _; by split_and!|].
  destruct (next_same s3) as (r4 & s4 & -> & E4 & D4 & _). rewrite <- E4 in A2.
  destruct (negb (r4 =? 0)); [eexists _, _, _; split; [done|]; cbn; by rewrite D4|].
  set (s5 := set_dev _ _). assert (page s5 = page s4) as E5 by done.
  assert (dd_num_vq (page s5) d = dd_num_vq (page s) d) as En by (rewrite E5; eapply num_vq_agree; [done|lia]).
  destruct (IH d (i + 1) s5) as (ret & i' & s' & -> & A & D & D'); [lia|rewrite En; lia|].
  eexists _, _, _. split; [done|]. rewrite En in A. split_and!; [eapply agree_trans; [exact A2|by rewrite <- E5]| |].
  - rewrite D. cbn. by rewrite D4.
  - rewrite D'. cbn. by rewrite D4.
Qed.

Lemma undo_rings_page i s : page (undo_rings i s) = page s.
Proof.
  unfold undo_rings. generalize (seqZ 0 i). intros l. revert s. induction l as [|j l IH]; intros s; cbn [foldl]; [done|].
  rewrite IH. unfold undo_ring. repeat case_bool_decide; done.
Qed.

(** A descriptor that has been copied into slot [d]: what is there, and what is left alone. *)
Definition placed (argp : mem) (d : Z) (m m' : mem) : Prop :=
  agree_out d (d + mic_total_desc_size argp 0) m m' ∧ mic_total_desc_size m' d = mic_total_desc_size argp 0.

Lemma header_argp argp j : 1 <= j → read8 (write8 0 0 argp) j = read8 argp j.
Proof. intros Hj. rewrite read8_write8. by destruct (Z.eqb_spec j 0); [lia|]. Qed.

Lemma copied_header argp d m j : 1 <= j < 4 → read8 (memcpy (Z.to_nat (mic_desc_size (write8 0 0 argp) 0)) d (write8 0 0 argp) 0 m) (d + j) = read8 argp (0 + j).
Proof.
  intros Hj. rewrite read8_memcpy. destruct (size_bounds (write8 0 0 argp) 0) as (H1 & _). pose proof (read8_range (write8 0 0 argp) (0 + 1)). unfold dd_num_vq in H1.
  rewrite (proj2 (Z.leb_le _ _)), (proj2 (Z.ltb_lt _ _)) by lia. cbn [andb]. rewrite header_argp by lia. f_equal. lia.
Qed.

(** The page when the rings are set up: the type is still 0. *)
Lemma placed_copy argp d m : let m1 := memcpy (Z.to_nat (mic_desc_size (write8 0 0 argp) 0)) d (write8 0 0 argp) 0 m in
  placed argp d m (vop_init_device_ctrl d m1) ∧ dd_type (vop_init_device_ctrl d m1) d = 0 ∧ dc_of m1 d = d + mic_aligned_desc_size argp 0 ∧
  (∀ j, 1 <= j < 4 → read8 (vop_init_device_ctrl d m1) (d + j) = read8 argp (0 + j)).
Proof.
  intros m1. assert (∀ j, 1 <= j < 4 → read8 m1 (d + j) = read8 argp (0 + j)) as Hh by (intros j Hj; by apply copied_header).
  assert (mic_aligned_desc_size m1 d = mic_aligned_desc_size argp 0) as Ea by (by apply aligned_ext).
  assert (mic_desc_size (write8 0 0 argp) 0 = mic_desc_size argp 0) as Es by (apply size_ext; intros j Hj; apply header_argp; lia).
  destruct (size_bounds argp 0) as (S1 & S2 & S3). pose proof (read8_range argp (0 + 1)) as Hv. unfold dd_num_vq in S1.
  assert (agree_out (d + 8) (d + mic_total_desc_size argp 0) m1 (vop_init_device_ctrl d m1)) as A1.
  { unfold vop_init_device_ctrl, dc_of, dc_h2c_vdev_db, dc_c2h_vdev_db, dc_used_address_updated, dc_host_ack, dc_vdev_reset, dc_guest_ack, dc_config_change.
    rewrite Ea. repeat first [apply agree_refl|eapply agree_trans; [|apply agree_write8; lia]]. }
  assert (agree_out d (d + mic_total_desc_size argp 0) m m1) as A0.
  { intros b Hb. unfold m1. rewrite read8_memcpy, Es. destruct (Z.leb_spec d b), (Z.ltb_spec b (d + Z.of_nat (Z.to_nat (mic_desc_size argp 0)))); cbn; try done; lia. }
  assert (∀ j, 1 <= j < 4 → read8 (vop_init_device_ctrl d m1) (d + j) = read8 argp (0 + j)) as Hh'.
  { intros j Hj. rewrite A1 by lia. by apply Hh. }
  split_and!; [| | |done].
  - split; [eapply agree_trans; [exact A0|]; eapply agree_mono; [| |exact A1]; lia|]. by apply total_ext.
  - assert (read8 m1 d = 0) as E; [|unfold dd_type, reads8; by rewrite A1, E by lia].
    unfold m1. rewrite read8_memcpy, Es, (proj2 (Z.leb_le _ _)), (proj2 (Z.ltb_lt _ _)) by lia. cbn [andb]. rewrite read8_write8.
    replace (0 + (d - d)) with 0 by lia. done.
  - unfold dc_of. by rewrite Ea.
Qed.

Lemma placed_more argp d m m1 m2 : placed argp d m m1 → (∀ b, b < d + 8 → b ≠ d → read8 m2 b = read8 m1 b) →
  agree_out d (d + mic_total_desc_size argp 0) m1 m2 → placed argp d m m2.
Proof. intros [A T] Hh A2. split; [by eapply agree_trans|]. rewrite <- T. apply total_ext. intros j Hj. apply Hh; lia. Qed.

(** The slots that a device of the size of [argp] can be given. *)
Definition slot_of (argp m : mem) (n k : nat) (d : Z) : Prop :=
  d = stop m sizeof_bootparam k ∧ (k <= n)%nat ∧ d + mic_total_desc_size argp 0 < MIC_DP_SIZE ∧
  (k = n ∨ ∃ r l, devs m sizeof_bootparam n = devs m sizeof_bootparam k ++ r :: l ∧ r.2 = -1).

Lemma add_cases argp s n : page_ok (page s) sizeof_bootparam n → mic_aligned_desc_size argp 0 <= MIC_MAX_DESC_BLK_SIZE →
  ∃ ret s', vop_virtio_add_device vr_addr next_db get_dp argp s = Some (ret, s') ∧
    ((ret ≠ 0 ∧ page s' = page s) ∨
     ∃ k d, slot_of argp (page s) n k d ∧ placed argp d (page s) (page s') ∧
       dd_type (page s') d = if ret =? 0 then dd_type argp 0 else 0).
Proof.
  intros Hok Hsz. unfold vop_virtio_add_device, vop_copy_dp_entry. cbn [page set_dev].
  destruct (too_many_entries argp); [eexists _, _; split; [done|]; by left|].
  destruct (size_bounds argp 0) as (S1 & S2 & S3). pose proof (read8_range argp (0 + 1)) as Hv. unfold dd_num_vq in S1. unfold MIC_MAX_DESC_BLK_SIZE in Hsz.
  rewrite wrap_small by (unfold in_width, MIC_DP_SIZE; lia).
  destruct (find_slot_spec (page s) n (MIC_DP_SIZE - mic_total_desc_size argp 0) sizeof_bootparam (Z.to_nat MIC_DP_SIZE) Hok) as [-> |(k & -> & Hk & Hd & Hc)];
    [done|unfold MIC_DP_SIZE, sizeof_bootparam; lia|eexists _, _; split; [done|]; by left|].
  set (d := stop (page s) sizeof_bootparam k) in *. cbn [mbind option_bind].
  destruct (placed_copy argp d (page s)) as ([A T] & Ht & Edc & Hh). set (m1 := memcpy _ _ _ _ _) in *. set (m2 := vop_init_device_ctrl d m1) in *.
  set (s2 := set_dev _ _). assert (page s2 = m2) as E2 by done. assert (v_dc (dev s2) = d + mic_aligned_desc_size argp 0) as Ec by done.
  assert (dd_num_vq m2 d = dd_num_vq argp 0) as Ev by (apply Hh; lia).
  destruct (setup_rings_spec 256 d 0 s2) as (ret & i & s3 & -> & A3 & _ & C3).
  { done. } { rewrite E2, Ev. unfold dd_num_vq. lia. }
  rewrite E2, Ev in A3. unfold dd_num_vq in A3. cbn [mbind option_bind].
  assert (placed argp d (page s) (page s3)) as P3.
  { apply placed_more with m2; [by split|intros b Hb _; apply A3; lia|]. eapply agree_mono; [| |exact A3]; lia. }
  assert (dd_type (page s3) d = 0) as T3 by (rewrite <- Ht; apply type_ext, A3; lia).
  assert (slot_of argp (page s) n k d) as Hs by (split_and!; [done|done|lia|done]).
  destruct (Z.eqb_spec ret 0) as [->|Hne]; cbn [negb]; cycle 1.
  { eexists _, _. split; [done|]. right. exists k, d. rewrite undo_rings_page. by rewrite (proj2 (Z.eqb_neq _ _) Hne). }
  destruct (next_same s3) as (err & s4 & -> & E4 & D4 & _).
  destruct (Z.eqb_spec err 0) as [->|Hne]; cbn [negb]; cycle 1.
  { eexists _, _. split; [done|]. right. exists k, d. rewrite undo_rings_page. cbn [page set_dev]. rewrite E4. by rewrite (proj2 (Z.eqb_neq _ _) Hne). }
  eexists _, _. split; [done|]. right. exists k, d. set (s5 := set_page _ _).
  assert (∀ x : bool, page (if x then emit (SendIntr (reads8 (page s5) 4)) s5 else s5) = page s5) as -> by (by intros []).
  unfold s5. cbn [page set_page set_dev emit dev v_dc]. rewrite D4, C3, Ec, E4. clear s5. split; [done|]. unfold dc_c2h_vdev_db. split.
  - apply placed_more with (page s3); [done| |].
    + intros b Hb Hbd. rewrite !read8_write8. destruct (Z.eqb_spec b d); [done|]. destruct (Z.eqb_spec b (d + mic_aligned_desc_size argp 0 + 13)); [lia|done].
    + eapply agree_trans; apply agree_write8; lia.
  - cbn. unfold dd_type, reads8. rewrite read8_write8, Z.eqb_refl. by rewrite (Z.mod_small (read8 argp 0) 256) by apply read8_range.
Qed.

(** ** The devices that the card finds *)

Lemma devs_length m n : ∀ o, length (devs m o n) = n.
Proof. induction n as [|n IH]; intros o; cbn; [done|]. by rewrite IH. Qed.

Section Placed.
Context (argp m m' : mem) (n k : nat) (d : Z).
Context (Hok : page_ok m sizeof_bootparam n) (Hs : slot_of argp m n k d) (Hp : placed argp d m m').

#[local] Notation below := (devs m sizeof_bootparam k).

Lemma placed_below : devs m' sizeof_bootparam k = below ∧ stop m' sizeof_bootparam k = d.
Proof.
  destruct Hs as (-> & _). destruct Hp as [A _]. destruct (devs_ext m m' k sizeof_bootparam) as [-> ->]; [|done]. intros b Hb. apply A. lia.
Qed.

Lemma below_ok : Forall (fun r => r.2 ≠ 0) below.
Proof.
  destruct Hs as (_ & Hk & _). pose proof (po_types _ _ _ Hok) as H. replace n with (k + (n - k))%nat in H by lia. rewrite devs_add in H. by apply Forall_app in H as [? _].
Qed.

(** With type 0 in the slot the card sees what is before it. *)
Lemma placed_hidden : dd_type m' d = 0 → found_devices m' = Some (filter present below).
Proof.
  intros Ht. destruct placed_below as [E1 E2]. destruct Hs as (Ed & _ & Hlt & _). unfold found_devices. rewrite <- E1. apply scan_stops; try done.
  - rewrite E1. apply below_ok.
  - rewrite E2. pose proof (total_pos argp 0). lia.
  - by rewrite E2.
  - unfold MIC_DP_SIZE, sizeof_bootparam. lia.
Qed.

(** The slot behind the last device. *)
Lemma placed_end : k = n → dd_type m' d ≠ 0 → page_ok m' sizeof_bootparam (S n) ∧ devs m' sizeof_bootparam (S n) = below ++ [(d, dd_type m' d)].
Proof.
  pose proof below_ok as Hb0. destruct placed_below as [E1 E2]. intros -> Ht. destruct Hp as [A T]. destruct Hs as (Ed & _ & Hlt & _).
  assert (devs m' sizeof_bootparam (S n) = devs m sizeof_bootparam n ++ [(d, dd_type m' d)]) as Ed'.
  { replace (S n) with (n + 1)%nat by lia. rewrite devs_add, E1, E2. done. }
  assert (stop m' sizeof_bootparam (S n) = d + mic_total_desc_size argp 0) as Es'.
  { replace (S n) with (n + 1)%nat by lia. rewrite stop_add, E2. cbn [stop]. by rewrite T. }
  split; [|done]. split.
  - rewrite Ed'. apply Forall_app. split; [done|]. by repeat constructor.
  - rewrite Es'. lia.
  - intros b Hb. rewrite Es' in Hb. rewrite A by lia. apply (po_zero _ _ _ Hok). rewrite <- Ed. pose proof (total_pos argp 0). lia.
Qed.

(** In general the card goes on behind the new device with the bytes that were there before. *)
Lemma placed_then : dd_type m' d ≠ 0 →
  ∃ rest, found_from m (d + mic_total_desc_size argp 0) = Some rest ∧
    found_devices m' = Some (filter present (below ++ [(d, dd_type m' d)]) ++ rest) ∧
    (dd_type m (d + mic_total_desc_size argp 0) = 0 → rest = []).
Proof.
  intros Ht. pose proof below_ok as Hb0. destruct placed_below as [E1 E2]. destruct Hp as [A T]. destruct Hs as (Ed & _ & Hlt & _).
  assert (devs m' sizeof_bootparam (k + 1) = below ++ [(d, dd_type m' d)]) as Ed' by (rewrite devs_add, E1, E2; done).
  assert (stop m' sizeof_bootparam (k + 1) = d + mic_total_desc_size argp 0) as Es' by (rewrite stop_add, E2; cbn [stop]; by rewrite T).
  pose proof (stop_ge m k sizeof_bootparam) as Hge. rewrite <- Ed in Hge. change sizeof_bootparam with 24 in Hge at 1. pose proof (total_pos argp 0).
  destruct (scan_total m (S (Z.to_nat MIC_DP_SIZE)) (d + mic_total_desc_size argp 0) (S (Z.to_nat MIC_DP_SIZE))) as (rest & Er & _); [lia..|].
  exists rest. split; [done|]. split.
  - rewrite <- Ed'. apply scan_over; try done.
    + rewrite Ed'. apply Forall_app. split; [done|]. by repeat constructor.
    + by rewrite Es'.
    + unfold MIC_DP_SIZE, sizeof_bootparam. lia.
    + rewrite Es', (scan_ext m m'); [done|]. intros b Hb. apply A. lia.
  - intros Hz. cbn [scan] in Er. rewrite Hz in Er. destruct (_ <? _); by injection Er.
Qed.

(** The slot of a device that has been removed, when the sizes are the same. *)
Lemma placed_reuse l r : devs m sizeof_bootparam n = below ++ r :: l → mic_total_desc_size m d = mic_total_desc_size argp 0 → dd_type m' d ≠ 0 →
  page_ok m' sizeof_bootparam n ∧ devs m' sizeof_bootparam n = below ++ (d, dd_type m' d) :: l.
Proof.
  intros El Et Ht. pose proof below_ok as Hb0. destruct placed_below as [E1 E2]. destruct Hp as [A T]. destruct Hs as (Ed & Hk & Hlt & _).
  assert (n = k + S (length l))%nat as ->.
  { rewrite <- (devs_length m n sizeof_bootparam), El, length_app, devs_length. cbn. lia. }
  rewrite devs_add in El. apply app_inj_1 in El as [_ El]; [|done]. rewrite <- Ed in El. cbn [devs] in El. injection El as _ El. rewrite Et in El.
  pose proof (stop_add m k (S (length l)) sizeof_bootparam) as Es. rewrite <- Ed in Es. cbn [stop] in Es. rewrite Et in Es.
  destruct (devs_ext m m' (length l) (d + mic_total_desc_size argp 0)) as [E3 E4]; [intros b Hb; apply A; lia|].
  pose proof (stop_ge m (length l) (d + mic_total_desc_size argp 0)) as Hge.
  assert (devs m' sizeof_bootparam (k + S (length l)) = below ++ (d, dd_type m' d) :: l) as Ed'.
  { rewrite devs_add, E1, E2. cbn [devs]. by rewrite T, E3, El. }
  assert (stop m' sizeof_bootparam (k + S (length l)) = stop m sizeof_bootparam (k + S (length l))) as Es'.
  { rewrite stop_add, E2, Es. cbn [stop]. by rewrite T, E4. }
  split; [|done]. split.
  - rewrite Ed'. apply Forall_app. split; [done|]. constructor; [done|].
    pose proof (po_types _ _ _ Hok) as H. rewrite devs_add in H. apply Forall_app in H as [_ H]. rewrite <- Ed in H. cbn [devs] in H.
    apply Forall_cons in H as [_ H]. by rewrite Et, El in H.
  - rewrite Es'. apply (po_end _ _ _ Hok).
  - intros b Hb. rewrite Es' in Hb. rewrite A by lia. by apply (po_zero _ _ _ Hok).
Qed.

End Placed.

(** C27: Adding a device to a well-formed device page ([page_ok]: its devices have types other than 0
    and everything behind them is zero) terminates, for a descriptor of a type other than 0 and -1 and
    of at most the size of a block.  When it succeeds, the card that scans the
    page finds the devices that it found before and the new one, wherever the slot is: behind the
    last device or that of a device that has been removed, as long as a slot that is used again keeps
    its size.  In general the card finds the devices before the slot, the new one, and then whatever the
    bytes behind the new descriptor, left by the old one, read as: with a zero byte there nothing, so that
    the devices that follow are hidden; otherwise devices that were never added may appear ([vop_add_bogus]).
    When it fails, the page is unchanged, or the card finds no device behind the slot. *)
Theorem vop_add_device_scanned argp s n : page_ok (page s) sizeof_bootparam n → mic_aligned_desc_size argp 0 <= MIC_MAX_DESC_BLK_SIZE →
  dd_type argp 0 ≠ 0 → dd_type argp 0 ≠ -1 →
  ∃ ret s' l, vop_virtio_add_device vr_addr next_db get_dp argp s = Some (ret, s') ∧ found_devices (page s) = Some l ∧
    ((ret ≠ 0 ∧ page s' = page s) ∨
     ∃ k d, slot_of argp (page s) n k d ∧ agree_out d (d + mic_total_desc_size argp 0) (page s) (page s') ∧
       if negb (ret =? 0) then found_devices (page s') = Some (filter present (devs (page s) sizeof_bootparam k))
       else (k = n ∨ mic_total_desc_size (page s) d = mic_total_desc_size argp 0 →
           (∃ n', page_ok (page s') sizeof_bootparam n') ∧ ∃ l', found_devices (page s') = Some l' ∧ l' ≡ₚ (d, dd_type argp 0) :: l) ∧
         (∃ rest, found_from (page s) (d + mic_total_desc_size argp 0) = Some rest ∧
            found_devices (page s') = Some (filter present (devs (page s) sizeof_bootparam k) ++ (d, dd_type argp 0) :: rest) ∧
            (dd_type (page s) (d + mic_total_desc_size argp 0) = 0 → rest = []))).
Proof.
  intros Hok Hsz H0 H1. destruct (add_cases argp s n Hok Hsz) as (ret & s' & E & Hc). exists ret, s', (filter present (devs (page s) sizeof_bootparam n)).
  split; [done|]. split; [by apply scan_ok|]. destruct Hc as [?|(k & d & Hs & Hp & Ht)]; [by left|]. right. exists k, d. split; [done|]. split; [apply Hp|].
  destruct (Z.eqb_spec ret 0) as [->|Hne]; cbn [negb]; cycle 1.
  { by apply (placed_hidden argp (page s) (page s') n k d). }
  rewrite <- Ht in H0, H1 |- *. split; cycle 1.
  { destruct (placed_then argp (page s) (page s') n k d Hok Hs Hp H0) as (rest & Er & E2 & Hz). exists rest. split; [done|]. split; [|done].
    rewrite E2, filter_app, (filter_cons_True present), <- app_assoc by done. done. }
  intros Hor. pose proof Hs as (_ & _ & _ & [->|(r & l & El & Er)]).
  - destruct (placed_end argp (page s) (page s') n n d Hok Hs Hp eq_refl H0) as [Hok' Ed']. split; [by eexists|].
    eexists. split; [by apply scan_ok|]. rewrite Ed', filter_app, filter_cons_True by done. by rewrite Permutation_app_comm.
  - assert (k ≠ n) as Hkn. { intros ->. apply (f_equal length) in El. rewrite length_app in El. cbn in El. lia. }
    destruct Hor as [?|Et]; [done|].
    destruct (placed_reuse argp (page s) (page s') n k d Hok Hs Hp l r El Et H0) as [Hok' Ed']. split; [by eexists|].
    eexists. split; [by apply scan_ok|]. rewrite Ed', El, !filter_app, filter_cons_True, filter_cons_False by (try done; unfold present; tauto).
    by rewrite Permutation_middle.
Qed.

End Add.
(** ** Additions that fail *)

Definition count (e : event) (l : list event) : nat := length (filter (eq e) l).
#[global] Arguments count : simpl never.

Lemma count_app e l1 l2 : count e (l1 ++ l2) = (count e l1 + count e l2)%nat.
Proof. unfold count. by rewrite filter_app, length_app. Qed.
Lemma count_one e : count e [e] = 1%nat.
Proof. unfold count. by rewrite filter_cons_True. Qed.
Lemma count_other e e' : e ≠ e' → count e [e'] = 0%nat.
Proof. intros H. unfold count. by rewrite filter_cons_False. Qed.

(** What one ring's part of an undo or a removal does to the counts. *)
Lemma undo_ring_frees j s : let s' := undo_ring j s in
  vbuf (dev s') = vbuf (dev s) ∧ v_dd (dev s') = v_dd (dev s) ∧ v_dc (dev s') = v_dc (dev s) ∧ deleted (dev s') = deleted (dev s) ∧ v_list (dev s') = v_list (dev s) ∧
  (∀ x, count (AllocBuf x) (trace s') = count (AllocBuf x) (trace s)) ∧
  (∀ x, (count (FreeBuf x) (trace s) + (if bool_decide (x = j ∧ j ∈ vbuf (dev s)) then 1 else 0) <= count (FreeBuf x) (trace s'))%nat).
Proof.
  unfold undo_ring. cbn zeta. destruct (bool_decide (j ∈ vbuf (dev s))) eqn:Eb; destruct (bool_decide (j ∈ va _)); cbn; split_and!; try done; intros x;
    rewrite ?count_app, ?(count_other (AllocBuf x)), ?(count_other (FreeBuf x) (FreeRing j)), ?Nat.add_0_r by done; try done.
  all: try (apply bool_decide_eq_true in Eb); try (apply bool_decide_eq_false in Eb); case_bool_decide as Hx; try (destruct Hx; done); try lia.
  all: destruct Hx as [-> _]; rewrite count_one; lia.
Qed.

Lemma undo_frees l : ∀ s, let s' := foldl (fun s j => undo_ring j s) s l in
  vbuf (dev s') = vbuf (dev s) ∧ v_dd (dev s') = v_dd (dev s) ∧ v_dc (dev s') = v_dc (dev s) ∧ deleted (dev s') = deleted (dev s) ∧ v_list (dev s') = v_list (dev s) ∧
  (∀ x, count (AllocBuf x) (trace s') = count (AllocBuf x) (trace s)) ∧
  (∀ x, x ∈ l → x ∈ vbuf (dev s) → (count (FreeBuf x) (trace s) + 1 <= count (FreeBuf x) (trace s'))%nat) ∧
  (∀ x, (count (FreeBuf x) (trace s) <= count (FreeBuf x) (trace s'))%nat).
Proof.
  induction l as [|j l IH]; intros s; cbn [foldl]; [split_and!; try done; set_solver|].
  destruct (undo_ring_frees j s) as (A1 & A2 & A3 & A4 & A5 & A6 & A7). destruct (IH (undo_ring j s)) as (B1 & B2 & B3 & B4 & B5 & B6 & B7 & B8).
  cbn zeta in *. split_and!; [congruence..| | |].
  - intros x. by rewrite B6, A6.
  - intros x Hx Hv. specialize (A7 x). apply elem_of_cons in Hx as [->|Hx].
    + rewrite bool_decide_true in A7 by done. specialize (B8 j). lia.
    + rewrite <- A1 in Hv. specialize (B7 x Hx Hv). lia.
  - intros x. specialize (A7 x). specialize (B8 x). lia.
Qed.

Lemma del_ring_frees j s : let s' := del_ring j s in
  (∀ x, x ≠ j → (x ∈ vbuf (dev s') ↔ x ∈ vbuf (dev s))) ∧
  (∀ x, (count (FreeBuf x) (trace s) + (if bool_decide (x = j ∧ j ∈ vbuf (dev s)) then 1 else 0) <= count (FreeBuf x) (trace s'))%nat).
Proof.
  unfold del_ring. cbn zeta. destruct (bool_decide (j ∈ vbuf (dev s))) eqn:Eb; destruct (bool_decide (j ∈ va _)); cbn; (split; [set_solver|]); intros x;
    rewrite ?count_app, ?(count_other (FreeBuf x) (FreeRing j)), ?Nat.add_0_r by done; try done.
  all: try (apply bool_decide_eq_true in Eb); try (apply bool_decide_eq_false in Eb); case_bool_decide as Hx; try (destruct Hx; done); try lia.
  all: destruct Hx as [-> _]; rewrite count_one; lia.
Qed.

Lemma del_frees l : ∀ s, let s' := foldl (fun s j => del_ring j s) s l in
  (∀ x, x ∈ l → x ∈ vbuf (dev s) → (count (FreeBuf x) (trace s) + 1 <= count (FreeBuf x) (trace s'))%nat) ∧
  (∀ x, (count (FreeBuf x) (trace s) <= count (FreeBuf x) (trace s'))%nat).
Proof.
  induction l as [|j l IH]; intros s; cbn [foldl]; [split; [set_solver|done]|].
  destruct (del_ring_frees j s) as [A1 A7]. destruct (IH (del_ring j s)) as [B7 B8]. split.
  - intros x Hx Hv. specialize (A7 x). destruct (decide (x = j)) as [->|Hne].
    + rewrite bool_decide_true in A7 by done. specialize (B8 j). lia.
    + apply elem_of_cons in Hx as [->|Hx]; [done|]. apply (A1 x Hne) in Hv. specialize (B7 x Hx Hv). lia.
  - intros x. specialize (A7 x). specialize (B8 x). lia.
Qed.

Section Failed.
Context (vr_addr : Z → Z) (next_db : Z) (get_dp : bool) (card1 card2 : mem → mem).
(** The card does not change how many rings a descriptor has. *)
Context (Hcard1 : ∀ m d, dd_num_vq (card1 m) d = dd_num_vq m d) (Hcard2 : ∀ m d, dd_num_vq (card2 m) d = dd_num_vq m d).

(** The rings below [i] have a bounce buffer, allocated once. *)
Record bufs_below (i : Z) (s : host) : Prop := BufsBelow {
  bb_vbuf : ∀ x, x ∈ vbuf (dev s) ↔ 0 <= x < i;
  bb_alloc : ∀ x, count (AllocBuf x) (trace s) = if bool_decide (0 <= x < i) then 1%nat else 0%nat;
  bb_deleted : deleted (dev s) = false;
  bb_list : v_list (dev s) = Alone;
}.

Lemma bufs_below_same i s s' : vbuf (dev s') = vbuf (dev s) → (∀ x, count (AllocBuf x) (trace s') = count (AllocBuf x) (trace s)) →
  deleted (dev s') = deleted (dev s) → v_list (dev s') = v_list (dev s) → bufs_below i s → bufs_below i s'.
Proof. intros E1 E2 E3 E4 [A B C D]. split; [by rewrite E1|intros x; by rewrite E2|by rewrite E3|by rewrite E4]. Qed.

Lemma setup_rings_bufs fuel : ∀ d i s ret i' s', bufs_below i s → 0 <= i <= dd_num_vq (page s) d → setup_rings vr_addr fuel d i s = Some (ret, i', s') →
  bufs_below i' s' ∧ 0 <= i' <= dd_num_vq (page s') d.
Proof.
  induction fuel as [|fuel IH]; intros d i s ret i' s' Hb Hi E; [done|]. cbn [setup_rings] in E.
  destruct (Z.ltb_spec i (dd_num_vq (page s) d)) as [Hlt|?]; [|by injection E as <- <- <-].
  destruct (next_same s) as (r1 & s1 & E1 & P1 & D1 & T1). rewrite E1 in E.
  destruct (negb (r1 =? 0)).
  { injection E as <- <- <-. split; [|cbn; by rewrite P1]. apply (bufs_below_same i s); cbn; rewrite ?D1; try done. intros x. by rewrite T1. }
  set (s2 := set_page _ _) in E. assert (dd_num_vq (page s2) d = dd_num_vq (page s) d) as P2.
  { unfold s2. cbn [page set_page set_dev emit]. rewrite P1. eapply num_vq_agree; [apply (agree_write_le 8 (d + 8) (d + 8 + 24 * (i + 1)))|];
      unfold mic_vq_config, sizeof_device_desc, sizeof_vqconfig; lia. }
  assert (bufs_below i s2) as B2.
  { apply (bufs_below_same i s); unfold s2; cbn [vbuf dev trace deleted v_list set_page set_dev set_va emit]; rewrite ?D1; try done.
    intros x. by rewrite T1, count_app, (count_other (AllocBuf x)), Nat.add_0_r. }
  destruct (next_same s2) as (r3 & s3 & E3 & P3 & D3 & T3). rewrite E3 in E.
  assert (bufs_below i s3) as B3 by (apply (bufs_below_same i s2); try (by rewrite D3); try done; intros x; by rewrite T3).
  destruct (negb (r3 =? 0)); [injection E as <- <- <-; split; [done|]; rewrite P3, P2; done|].
  destruct (next_same s3) as (r4 & s4 & E4 & P4 & D4 & T4). rewrite E4 in E.
  assert (bufs_below i s4) as B4 by (apply (bufs_below_same i s3); try (by rewrite D4); try done; intros x; by rewrite T4).
  destruct (negb (r4 =? 0)).
  { injection E as <- <- <-. split; [|cbn; rewrite P4, P3, P2; done]. destruct B4 as [A B C D]. split; cbn; try done.
    intros x. rewrite elem_of_difference, elem_of_singleton, A. lia. }
  apply IH in E; [done| |cbn; rewrite P4, P3, P2; lia]. destruct B4 as [A B C D]. split; cbn [vbuf dev trace deleted v_list set_dev set_vbuf emit]; try done.
  - intros x. rewrite elem_of_union, elem_of_singleton, A. lia.
  - intros x. rewrite count_app, B. destruct (decide (x = i)) as [->|Hne].
    + rewrite count_one, bool_decide_false, bool_decide_true by lia. done.
    + rewrite count_other by congruence. repeat case_bool_decide; lia.
Qed.

Lemma dev_remove_num_vq d dc s : d + 8 <= dc → dd_num_vq (page (vop_dev_remove card1 card2 d dc s)) d = dd_num_vq (page s) d.
Proof.
  intros Hdc. assert (∀ a v m, a ≠ d + 1 → dd_num_vq (write8 a v m) d = dd_num_vq m d) as Hw.
  { intros a v m Ha. unfold dd_num_vq. rewrite read8_write8. by destruct (Z.eqb_spec (d + 1) a). }
  unfold vop_dev_remove. cbn [page set_page]. rewrite Hw, Hcard2 by lia. unfold vop_virtio_device_reset, dc_host_ack, dc_vdev_reset.
  rewrite !Hw by lia. unfold dc_guest_ack, dc_config_change. rewrite !Hw by lia. rewrite Hcard1.
  destruct (negb _); cbn [page set_page emit]; by rewrite Hw by lia.
Qed.

Lemma dev_remove_dev d dc s : dev (vop_dev_remove card1 card2 d dc s) = dev s ∧ ∀ x, (count (FreeBuf x) (trace s) <= count (FreeBuf x) (trace (vop_dev_remove card1 card2 d dc s)))%nat.
Proof. unfold vop_dev_remove. destruct (negb _); cbn; (split; [done|]); intros x; rewrite ?count_app; lia. Qed.

Lemma count_in e l : e ∈ l → count e l ≠ 0%nat.
Proof. intros H. apply list_elem_of_split in H as (l1 & l2 & ->). rewrite count_app. unfold count at 2. rewrite filter_cons_True by done. cbn. lia. Qed.

(** The undo and the release, when [i] rings have been set up. *)
Lemma undo_release i d s j : bufs_below i s → 0 <= i <= dd_num_vq (page s) d → v_dd (dev s) = Some d → d + 8 <= v_dc (dev s) →
  AllocBuf j ∈ trace (undo_rings i s) → ∃ s2, vop_release get_dp card1 card2 (undo_rings i s) = Some s2 ∧
    count (AllocBuf j) (trace (undo_rings i s)) = 1%nat ∧ (2 <= count (FreeBuf j) (trace s2))%nat.
Proof.
  intros [A B C D] Hi Hd Hdc Hj. unfold undo_rings in *. pose proof (undo_rings_page i s) as Hp. unfold undo_rings in Hp.
  destruct (undo_frees (seqZ 0 i) s) as (U1 & U2 & U3 & U4 & U5 & U6 & U7 & _). set (u := foldl _ s _) in *.
  assert (0 <= j < i) as Hji.
  { apply count_in in Hj. rewrite U6, B in Hj. by case_bool_decide. }
  assert (count (AllocBuf j) (trace u) = 1%nat) as E1 by (rewrite U6, B; by rewrite bool_decide_true).
  specialize (U7 j ltac:(apply elem_of_seqZ; lia) ltac:(by apply A)).
  unfold vop_release. rewrite U2, Hd. assert (list_empty (dev u) = true) as -> by (unfold list_empty; by rewrite U5, D).
  cbn [negb]. rewrite U4, C. cbn [negb]. eexists. split; [done|]. split; [done|].
  unfold vop_virtio_del_device. set (u1 := emit (FreeIrq _) u). set (u2 := if get_dp && _ then _ else _).
  assert (vbuf (dev u2) = vbuf (dev s) ∧ dd_num_vq (page u2) d = dd_num_vq (page s) d ∧ (1 <= count (FreeBuf j) (trace u2))%nat) as (V1 & V2 & V3).
  { assert (count (FreeBuf j) (trace u1) = count (FreeBuf j) (trace u)) as E2 by (cbn; by rewrite count_app, count_other, Nat.add_0_r).
    assert (v_dc (dev u1) = v_dc (dev s)) as E3 by done.
    unfold u2. destruct (_ && _); [|cbn; rewrite <- Hp; split_and!; [done|done|cbn in E2; lia]].
    destruct (dev_remove_dev d (v_dc (dev u1)) u1) as [W1 W2]. rewrite W1. split_and!; [done| |specialize (W2 j); lia].
    rewrite dev_remove_num_vq by lia. cbn. by rewrite Hp. }
  rewrite V2. destruct (del_frees (seqZ 0 (dd_num_vq (page s) d)) u2) as [F1 _].
  specialize (F1 j ltac:(apply elem_of_seqZ; lia) ltac:(rewrite V1; by apply A)).
  cbn [trace emit set_page set_dev]. rewrite count_app. lia.
Qed.

(** C39: When a device cannot be added although the buffers of some of its rings have been allocated, these are
    freed, and freed once more when the caller closes the device: the pointers are still set. *)
Theorem vop_failed_add_frees_twice argp s ret s1 j : dev s = new_vdev → trace s = [] →
  vop_virtio_add_device vr_addr next_db get_dp argp s = Some (ret, s1) → ret ≠ 0 → AllocBuf j ∈ trace s1 →
  ∃ s2, vop_release get_dp card1 card2 s1 = Some s2 ∧ count (AllocBuf j) (trace s1) = 1%nat ∧ (2 <= count (FreeBuf j) (trace s2))%nat.
Proof.
  intros Hdev Htr Hadd Hne Hj. unfold vop_virtio_add_device in Hadd. rewrite Hdev in Hadd. cbn [page set_dev] in Hadd.
  destruct (vop_copy_dp_entry (page s) argp) as [[ret0 [[[[pg argp'] type] d]|]]|]; cbn [mbind option_bind] in Hadd; [| |done].
  2: { injection Hadd as <- <-. change (AllocBuf j ∈ trace s ++ [FreeVdev]) in Hj. rewrite Htr in Hj. by apply list_elem_of_singleton in Hj. }
  set (s2 := set_dev _ _) in Hadd. assert (bufs_below 0 s2) as B0.
  { split; [|intros x|done|done].
    - intros x. change (vbuf (dev s2)) with (∅ : gset Z). rewrite elem_of_empty. lia.
    - change (trace s2) with (trace s). rewrite Htr, bool_decide_false by lia. done. }
  destruct (setup_rings vr_addr 256 d 0 s2) as [[[ret3 i] s3]|] eqn:E3; [|done]. cbn [mbind option_bind] in Hadd.
  pose proof E3 as E3'. apply setup_rings_bufs in E3 as [B3 Hi]; [|done|]. 2: { pose proof (read8_range (page s2) (d + 1)). unfold dd_num_vq. lia. }
  assert (v_dd (dev s3) = Some d ∧ d + 8 <= v_dc (dev s3)) as [Hd Hdc].
  { destruct (setup_rings_spec vr_addr 256 d 0 s2) as (r & i' & s' & E & _ & D1 & D2); [done|pose proof (read8_range (page s2) (d + 1)); unfold dd_num_vq; lia|].
    rewrite E in E3'. injection E3' as _ _ ->. rewrite D1, D2. split; [done|]. cbn. unfold dc_of. destruct (size_bounds pg d) as (? & ? & _).
    pose proof (read8_range pg (d + 1)). unfold dd_num_vq in *. lia. }
  destruct (Z.eqb_spec ret3 0) as [->|?]; cbn [negb] in Hadd; [|injection Hadd as <- <-; by apply (undo_release i d)].
  destruct (next_same s3) as (err & s4 & E4 & P4 & D4 & T4). rewrite E4 in Hadd.
  destruct (Z.eqb_spec err 0) as [->|?]; cbn [negb] in Hadd; [by injection Hadd as <- _|]. injection Hadd as <- <-.
  apply (undo_release i d); [|cbn; by rewrite P4|cbn; by rewrite D4..|done].
  apply (bufs_below_same i s3); cbn; rewrite ?D4; try done. intros x. by rewrite T4.
Qed.

End Failed.

(** ** Concrete pages *)

(** A descriptor without features, with [config_len] bytes of configuration. *)
Definition ex_desc (type num_vq config_len : Z) : mem := list_to_map (zip (seqZ 0 4) [type; num_vq; 0; config_len]).

(** A device that has been removed and one that is there. *)
Definition ex_page : mem := list_to_map (zip [4; 24; 25; 72; 73] [255; 255; 1; 1; 1]).

Lemma ex_page_ok : page_ok ex_page sizeof_bootparam 2.
Proof.
  split; [|vm_compute; discriminate|].
  - assert (devs ex_page sizeof_bootparam 2 = [(24, -1); (72, 1)]) as -> by (vm_compute; reflexivity). repeat constructor; done.
  - intros b Hb. assert (stop ex_page sizeof_bootparam 2 = 120) as E by (vm_compute; reflexivity). rewrite E in Hb. unfold read8, ex_page. cbn.
    rewrite !lookup_insert_ne by lia. by rewrite lookup_empty.
Qed.

Definition ex_host (page : mem) (plan : list Z) : host := Host page new_vdev [] plan.
Definition ex_addr (i : Z) : Z := 2 ^ 32 + 65536 * i.

Lemma vop_add_device_scanned_witness : ∃ ret s' l, vop_virtio_add_device ex_addr 5 true (ex_desc 2 1 0) (ex_host ex_page []) = Some (ret, s') ∧
  found_devices ex_page = Some l ∧
  ((ret ≠ 0 ∧ page s' = ex_page) ∨
   ∃ k d, slot_of (ex_desc 2 1 0) ex_page 2 k d ∧ agree_out d (d + mic_total_desc_size (ex_desc 2 1 0) 0) ex_page (page s') ∧
     if negb (ret =? 0) then found_devices (page s') = Some (filter present (devs ex_page sizeof_bootparam k))
     else (k = 2%nat ∨ mic_total_desc_size ex_page d = mic_total_desc_size (ex_desc 2 1 0) 0 →
         (∃ n', page_ok (page s') sizeof_bootparam n') ∧ ∃ l', found_devices (page s') = Some l' ∧ l' ≡ₚ (d, dd_type (ex_desc 2 1 0) 0) :: l) ∧
       (∃ rest, found_from ex_page (d + mic_total_desc_size (ex_desc 2 1 0) 0) = Some rest ∧
          found_devices (page s') = Some (filter present (devs ex_page sizeof_bootparam k) ++ (d, dd_type (ex_desc 2 1 0) 0) :: rest) ∧
          (dd_type ex_page (d + mic_total_desc_size (ex_desc 2 1 0) 0) = 0 → rest = []))).
Proof.
  apply (vop_add_device_scanned ex_addr 5 true (ex_desc 2 1 0) (ex_host ex_page []) 2).
  - exact ex_page_ok.
  - vm_compute. discriminate.
  - vm_compute. discriminate.
  - vm_compute. discriminate.
Defined.

(** What the card finds after an addition. *)
Definition ex_found (argp pg : mem) : option (Z * option (list (Z * Z))) :=
  (fun r : Z * host => (r.1, found_devices (page r.2))) <$> vop_virtio_add_device ex_addr 5 true argp (ex_host pg []).

(** In the slot of the device that has been removed, of the same size; with 1 ring fewer; with 8 bytes more. *)
Example vop_add_reuse : ex_found (ex_desc 2 1 0) ex_page = Some (0, Some [(24, 2); (72, 1)]).
Proof. vm_compute. reflexivity. Qed.
Example vop_add_shorter : ex_found (ex_desc 2 0 0) ex_page = Some (0, Some [(24, 2)]).
Proof. vm_compute. reflexivity. Qed.
(** In a slot whose old ring had 128 entries: its number of entries reads as a device of type -128. *)
Example vop_add_bogus : ex_found (ex_desc 2 0 0) (<[ 48 := 128 ]> ex_page) = Some (0, Some [(24, 2); (48, -128); (72, 1)]).
Proof. vm_compute. reflexivity. Qed.
Example vop_add_longer : ex_found (ex_desc 2 1 8) ex_page = Some (0, Some [(24, 2)]).
Proof. vm_compute. reflexivity. Qed.

(** The second ring of two cannot be allocated. *)
Definition ex_failed : host :=
  match vop_virtio_add_device ex_addr 5 true (ex_desc 2 2 0) (ex_host ex_page [0; 0; 0; 1]) with Some (_, s) => s | None => ex_host ex_page [] end.

Lemma vop_failed_add_frees_twice_witness :
  ∃ s2, vop_release true (fun m => m) (fun m => m) ex_failed = Some s2 ∧ count (AllocBuf 0) (trace ex_failed) = 1%nat ∧ (2 <= count (FreeBuf 0) (trace s2))%nat.
Proof.
  apply (vop_failed_add_frees_twice ex_addr 5 true (fun m => m) (fun m => m) (fun _ _ => eq_refl) (fun _ _ => eq_refl)
    (ex_desc 2 2 0) (ex_host ex_page [0; 0; 0; 1]) (- ENOMEM) ex_failed 0).
  - reflexivity.
  - reflexivity.
  - vm_compute. reflexivity.
  - discriminate.
  - apply (list_elem_of_lookup_2 _ 1). vm_compute. reflexivity.
Defined.

(** A device that nothing was added to cannot be closed. *)
Lemma vop_open_release get_dp card1 card2 pg : vop_release get_dp card1 card2 (ex_host pg []) = None.
Proof. done. Qed.

(** ** The wait of the card for the host *)

(** The host answers at look [k], counted from 0. *)
Lemma retries_spec n : ∀ k l, retries n (replicate k false ++ true :: l) = if bool_decide (k < n)%nat then Z.of_nat (n - 1 - k) else -1.
Proof.
  induction n as [|n IH]; intros k l; cbn [retries].
  - by destruct k.
  - destruct k as [|k]; cbn [replicate app]; [rewrite bool_decide_true by lia; f_equal; lia|]. rewrite IH. repeat case_bool_decide; try lia; f_equal; lia.
Qed.

(** The answer counts unless it comes at the last look; when it comes later it is taken for one. *)
Lemma find_vqs_ack_spec k l : find_vqs_ack (replicate k false ++ true :: l) = if bool_decide (k = 99%nat) then - ENODEV else 0.
Proof.
  unfold find_vqs_ack. rewrite retries_spec. repeat case_bool_decide; subst; try lia; try done.
  - rewrite (proj2 (Z.eqb_neq _ _)) by lia. done.
Qed.

End VopDevice.
