(* ===== verification/VopMap.v ===== *)
(** * Mapping the device page and the rings of a virtio device

    Models [vop_query_offset] and [vop_mmap] of [vop_host.c], and shows that a mapping from
    the start on covers the device page and the rings, one after the other. *)
From S2P Require Import Prelude VopPage.
Local Open Scope Z_scope.

Module VopMap.
Import VopPage.

Definition PAGE_SHIFT : Z := 12.
Definition EACCES : Z := 13.

(** Physical address and length of each ring of the device. *)
Notation rings := (list (Z * Z)).

Fixpoint query_rings (rs : rings) (start offset : Z) : option (Z * Z) :=
  match rs with
  | [] => None
  | (pa, len) :: rs => if offset =? start then Some (pa, len) else query_rings rs (start + len) offset
  end.

Definition vop_query_offset (dp_pa : Z) (rs : rings) (offset : Z) : option (Z * Z) :=
  if offset =? 0 then Some (dp_pa, MIC_DP_SIZE) else query_rings rs MIC_DP_SIZE offset.

(** A call of [remap_pfn_range]: the address, the page and the length. *)
Notation remap := (Z * Z * Z)%type.

(** The loop of [vop_mmap]; [plan]: the results of [remap_pfn_range], 0 when there are no more. *)
Fixpoint mmap_loop (fuel : nat) (dp_pa : Z) (rs : rings) (vm_start offset size_rem : Z) (plan : list Z) : option (Z * list remap) :=
  match fuel with
  | O => None
  | S fuel =>
      if size_rem =? 0 then Some (0, [])
      else match vop_query_offset dp_pa rs offset with
           | None => Some (- EINVAL, [])
           | Some (pa, size) =>
               let call := (u64 (vm_start + offset), Z.shiftr pa PAGE_SHIFT, size) in
               let err := default 0 (head plan) in
               if negb (err =? 0) then Some (err, [call])
               else
                 '(ret, calls) ← mmap_loop fuel dp_pa rs vm_start (u64 (offset + size)) (u64 (size_rem - size)) (tail plan);
                 Some (ret, call :: calls)
           end
  end.

(** [struct vm_area_struct]. *)
Record vma := Vma { vm_start : Z; vm_end : Z; vm_pgoff : Z; vm_write : bool }.

Definition vop_mmap (pg : mem) (v : vdev) (dp_pa : Z) (rs : rings) (a : vma) (plan : list Z) : option (Z * list remap) :=
  let err := vop_vdev_get_status pg v in
  if negb (err =? 0) then Some (err, [])
  else if vm_write a then Some (- EACCES, [])
  else mmap_loop (3 + length rs) dp_pa rs (vm_start a) (u64 (Z.shiftl (vm_pgoff a) PAGE_SHIFT)) (u64 (vm_end a - vm_start a)) plan.

(** ** Where each ring goes *)

Definition total (rs : rings) : Z := foldr Z.add 0 (snd <$> rs).

Fixpoint placed (a : Z) (rs : rings) : list remap :=
  match rs with [] => [] | (pa, len) :: rs => (a, Z.shiftr pa PAGE_SHIFT, len) :: placed (a + len) rs end.

Definition sized (rs : rings) : Prop := Forall (fun r => 0 < r.2) rs.

Lemma total_nonneg rs : sized rs → 0 <= total rs.
Proof. unfold total. induction 1 as [|[pa len] rs Hl Hs IH]; cbn in *; lia. Qed.

Lemma total_app r1 r2 : total (r1 ++ r2) = total r1 + total r2.
Proof. unfold total. induction r1 as [|r rs IH]; cbn in *; lia. Qed.

Lemma query_at r1 pa len r2 : ∀ start, sized r1 → query_rings (r1 ++ (pa, len) :: r2) start (start + total r1) = Some (pa, len).
Proof.
  induction r1 as [|[p l] r1 IH]; intros start Hs; cbn.
  - by rewrite Z.add_0_r, Z.eqb_refl.
  - apply Forall_cons in Hs as [Hl Hs]. cbn in Hl. pose proof (total_nonneg r1 Hs). unfold total in *. cbn in *.
    destruct (Z.eqb_spec (start + (l + foldr Z.add 0 (snd <$> r1))) start); [lia|]. rewrite Z.add_assoc. by apply IH.
Qed.

Lemma mmap_rings dp_pa rs start : sized rs → 0 <= start → start + MIC_DP_SIZE + total rs < 2 ^ 64 → ∀ r2 r1 fuel, rs = r1 ++ r2 → (length r2 < fuel)%nat →
  mmap_loop fuel dp_pa rs start (MIC_DP_SIZE + total r1) (total r2) [] = Some (0, placed (start + MIC_DP_SIZE + total r1) r2).
Proof.
  intros Hs Hst Hb. induction r2 as [|[pa len] r2 IH]; intros r1 fuel E Hf; (destruct fuel as [|fuel]; [lia|]); cbn [mmap_loop placed].
  { done. }
  pose proof Hs as Hs'. rewrite E in Hs'. apply Forall_app in Hs' as [Hs1 Hs2]. apply Forall_cons in Hs2 as [Hl Hs2]. cbn in Hl.
  pose proof (total_nonneg r1 Hs1). pose proof (total_nonneg r2 Hs2). rewrite E, total_app in Hb. assert (total ((pa, len) :: r2) = len + total r2) as Et by done.
  rewrite Et in *. rewrite (proj2 (Z.eqb_neq _ _)) by lia. unfold vop_query_offset, MIC_DP_SIZE in *. rewrite (proj2 (Z.eqb_neq _ _)) by lia.
  rewrite E at 1. rewrite query_at by done. cbn [head default tail]. change (negb (0 =? 0)) with false. cbn match.
  rewrite !wrap_small by (unfold in_width; lia).
  replace (len + total r2 - len) with (total r2) by lia. replace (4096 + total r1 + len) with (4096 + total (r1 ++ [(pa, len)])).
  2: { rewrite total_app. unfold total at 2. cbn. lia. }
  rewrite (IH (r1 ++ [(pa, len)]) fuel); [|by rewrite <- app_assoc|cbn in Hf; lia]. cbn [mbind option_bind]. do 3 f_equal; [f_equal; f_equal; lia|].
  f_equal. rewrite total_app. unfold total at 2. cbn. lia.
Qed.

(** A mapping for reading, from the start, of the size of the device page and the rings, terminates and maps the
    device page and then each ring behind the one before, and nothing else. *)
Theorem vop_mmap_whole pg v dp_pa rs a : vop_vdev_get_status pg v = 0 → vm_write a = false → vm_pgoff a = 0 → sized rs → 0 <= vm_start a →
  vm_end a = vm_start a + MIC_DP_SIZE + total rs → vm_end a < 2 ^ 64 →
  vop_mmap pg v dp_pa rs a [] = Some (0, placed (vm_start a) ((dp_pa, MIC_DP_SIZE) :: rs)).
Proof.
  intros Hst Hw Hoff Hs H0 He Hb. unfold vop_mmap. rewrite Hst, Hw, Hoff. cbn [negb Z.eqb]. pose proof (total_nonneg rs Hs).
  change (u64 (Z.shiftl 0 PAGE_SHIFT)) with 0. rewrite wrap_small by (unfold in_width, MIC_DP_SIZE in *; lia).
  replace (vm_end a - vm_start a) with (MIC_DP_SIZE + total rs) by lia. change (3 + length rs)%nat with (S (2 + length rs)). remember (2 + length rs)%nat as fuel eqn:Ef. cbn [mmap_loop]. unfold MIC_DP_SIZE in He. rewrite (proj2 (Z.eqb_neq _ _)) by (unfold MIC_DP_SIZE; lia).
  unfold vop_query_offset at 1. cbn [Z.eqb head default tail negb]. rewrite !wrap_small by (unfold in_width, MIC_DP_SIZE; lia).
  replace (MIC_DP_SIZE + total rs - MIC_DP_SIZE) with (total rs) by lia. rewrite Z.add_0_l, Z.add_0_r.
  pose proof (mmap_rings dp_pa rs (vm_start a) Hs H0 ltac:(unfold MIC_DP_SIZE; lia) rs [] fuel eq_refl ltac:(lia)) as E.
  change (total []) with 0 in E. rewrite !Z.add_0_r in E. rewrite E. done.
Qed.

(** A mapping that does not start with the device page is made above the area that it is for. *)
Lemma vop_mmap_offset_above pg v dp_pa pa len rs a : vop_vdev_get_status pg v = 0 → vm_write a = false → vm_pgoff a = 1 → 0 <= vm_start a →
  vm_end a = vm_start a + len → 0 < len <= MIC_DP_SIZE → vm_end a + MIC_DP_SIZE < 2 ^ 64 →
  ∃ c, vop_mmap pg v dp_pa ((pa, len) :: rs) a [] = Some (0, [(c, Z.shiftr pa PAGE_SHIFT, len)]) ∧ vm_end a <= c.
Proof.
  intros Hst Hw Hoff H0 He Hl Hb. unfold vop_mmap. rewrite Hst, Hw, Hoff. cbn [negb Z.eqb]. unfold MIC_DP_SIZE in *.
  change (u64 (Z.shiftl 1 PAGE_SHIFT)) with 4096. rewrite (wrap_small 64 (vm_end a - vm_start a)) by (unfold in_width; lia).
  replace (vm_end a - vm_start a) with len by lia. change (3 + length ((pa, len) :: rs))%nat with (S (S (2 + length rs))).
  remember (2 + length rs)%nat as fuel eqn:Ef. cbn [mmap_loop]. rewrite (proj2 (Z.eqb_neq len 0)) by lia.
  change (vop_query_offset dp_pa ((pa, len) :: rs) 4096) with (Some (pa, len)). cbn match. cbn [head default negb Z.eqb tail].
  rewrite Z.sub_diag. change (u64 0 =? 0) with true. cbn. eexists. split; [reflexivity|]. rewrite wrap_small by (unfold in_width; lia). lia.
Qed.

Definition ex_vdev : vdev := Vdev (Some 24) 56 1 ∅ ∅ true false Alone.
Definition ex_pg : mem := list_to_map [(24, 1)].

Lemma vop_mmap_whole_witness :
  vop_mmap ex_pg ex_vdev 65536 [(131072, 8192); (262144, 4096)] (Vma 40960 57344 0 false) [] =
  Some (0, placed 40960 [(65536, MIC_DP_SIZE); (131072, 8192); (262144, 4096)]).
Proof.
  apply (vop_mmap_whole ex_pg ex_vdev 65536 [(131072, 8192); (262144, 4096)] (Vma 40960 57344 0 false)).
  - vm_compute. reflexivity.
  - reflexivity.
  - reflexivity.
  - repeat constructor; cbn; lia.
  - cbn. lia.
  - reflexivity.
  - cbn. lia.
Defined.

End VopMap.
