(* ===== verification/Cosm.v ===== *)
(** * Coprocessor state management: commands and the state flow

    Models [mpss4/mpss-modules/mic/cosm/cosm_main.c] with the enumerations of
    [common/mic_common.h] and the structures of [bus/cosm_bus.h].  A command is
    requested through [cosm_set_command], which checks it against the current
    state and schedules the work item [cosm_state_flow]; the work item switches
    to the command's temporal state, invokes the hardware operation, polls for
    its completion until a timeout and switches to the target state or to error.

    The hardware operations ([struct cosm_hw_ops]) are an interface of the
    program and stay one here; the kernel services the driver calls are the
    class [CosmEnv].  The work item and the thread that requests a command run
    concurrently: [step] interleaves them at the points where they wait for each
    other, [cosm_state_flow] runs the work item alone, with the writes other
    threads may do while it sleeps returned by [msleep]. *)
From S2P Require Import Prelude.
Local Open Scope string_scope.
Local Open Scope Z_scope.

Module Cosm.

(** ** States and commands: common/mic_common.h

    Both are [u8] values in the driver and index the tables below. *)
Definition MIC_STATE_UNKNOWN : Z := 0.
Definition MIC_STATE_ERROR : Z := 1.
Definition MIC_STATE_READY : Z := 2.
Definition MIC_STATE_ONLINE : Z := 3.
Definition MIC_STATE_ONLINE_FIRMWARE : Z := 4.
Definition MIC_STATE_SHUTDOWN : Z := 5.
Definition MIC_STATE_RESETTING : Z := 6.
Definition MIC_STATE_SHUTTING_DOWN : Z := 7.
Definition MIC_STATE_BOOTING : Z := 8.
Definition MIC_STATE_BOOTING_FIRMWARE : Z := 9.
Definition MIC_STATE_LAST : Z := MIC_STATE_BOOTING_FIRMWARE.

Definition MIC_CMD_NONE : Z := 0.
Definition MIC_CMD_BOOT_FIRMWARE : Z := 1.
Definition MIC_CMD_BOOT : Z := 2.
Definition MIC_CMD_RESET : Z := 3.
Definition MIC_CMD_RESET_FROM_CARD : Z := 4.
Definition MIC_CMD_RESET_FORCE : Z := 5.
Definition MIC_CMD_RESET_FORCE_WARM : Z := 6.
Definition MIC_CMD_SHUTDOWN : Z := 7.
Definition MIC_CMD_SHUTDOWN_FROM_CARD : Z := 8.
Definition MIC_CMD_SHUTDOWN_FORCE : Z := 9.
Definition MIC_CMD_HANDLE_PANIC : Z := 10.
Definition MIC_CMD_HANDLE_HANG : Z := 11.
Definition MIC_CMD_LAST : Z := MIC_CMD_HANDLE_HANG.

Definition MIC_CMD_FLAG_HIDDEN : Z := 0x1.
Definition MIC_CMD_FLAG_ABORT_CURRENT : Z := 0x2.

Definition BIT (n : Z) : Z := Z.shiftl 1 n.

(** [enum cosm_msg_id] (cosm_main.h) *)
Definition COSM_MSG_SHUTDOWN : Z := 0.
Definition COSM_MSG_REBOOT : Z := 1.
Definition COSM_MSG_SYNC_TIME : Z := 2.
Definition COSM_MSG_HEARTBEAT : Z := 3.
Definition COSM_MSG_STATE_CHANGE : Z := 4.

Definition COSM_MIN_BOOT_TIMEOUT : Z := 90.
Definition COSM_MIN_SHUTDOWN_TIMEOUT : Z := 60.

(** Timeout constants of cosm_main.c: the polling interval in milliseconds, the
    longest command and the wait for a command's start in seconds. *)
Definition cosm_timeout_interval : Z := 1000.
Definition cosm_max_state_timeout : Z := 3 * 60.
Definition cosm_command_start_timeout : Z := 30.

(** ** The device *)

Record cosm_device_config := Config {
  efi_image : option string;
  kernel_image : option string;
  kernel_cmdline : option string;
  initramfs_image : option string;
  execute_on_ready : Z;
  boot_timeout : Z;
  shutdown_timeout : Z;
}.

Record current_command := Current { id : Z; received_online : bool; abort : bool }.

(** [struct cosm_device]: the fields the state machine uses.  [state_changed]
    counts the completions signalled since it was last initialised, and
    [notified] the sysfs notifications. *)
Record cosm_device := Device {
  config : cosm_device_config;
  is_module_locked : bool;
  current : current_command;
  state_changed : Z;
  notified : Z;
  state : Z;
  previous_state : Z;
  state_msg : option string;
  epd : option Z;
}.

Definition set_config (d : cosm_device) (c : cosm_device_config) : cosm_device :=
  Device c (is_module_locked d) (current d) (state_changed d) (notified d)
    (state d) (previous_state d) (state_msg d) (epd d).
Definition set_execute_on_ready (d : cosm_device) (c : Z) : cosm_device :=
  let f := config d in
  set_config d (Config (efi_image f) (kernel_image f) (kernel_cmdline f) (initramfs_image f)
    c (boot_timeout f) (shutdown_timeout f)).
Definition set_locked (d : cosm_device) (b : bool) : cosm_device :=
  Device (config d) b (current d) (state_changed d) (notified d)
    (state d) (previous_state d) (state_msg d) (epd d).
Definition set_current (d : cosm_device) (c : current_command) : cosm_device :=
  Device (config d) (is_module_locked d) c (state_changed d) (notified d)
    (state d) (previous_state d) (state_msg d) (epd d).
Definition set_epd (d : cosm_device) (e : option Z) : cosm_device :=
  Device (config d) (is_module_locked d) (current d) (state_changed d) (notified d)
    (state d) (previous_state d) (state_msg d) e.

(** ** Interfaces *)

(** [struct cosm_hw_ops]: operations take the device and the state [W] of
    everything outside the driver, and return a result with the new state. *)
Record cosm_hw_ops (W : Type) := HwOps {
  boot_firmware : cosm_device → W → Z * W;
  boot : cosm_device → W → Z * W;
  reset : cosm_device → W → Z * W;
  reset_warm : cosm_device → W → Z * W;
  shutdown : cosm_device → W → Z * W;
  reset_timeout : Z;
  boot_firmware_timeout : Z;
  detect_state : cosm_device → W → Z * W;
  cleanup : cosm_device → W → W;
  dev_update : cosm_device → W → Z * W;
  max_supported_address : cosm_device → W → Z;
}.

(** What other threads did while this one slept: the SCIF thread may have
    received the online message, a command request may have asked to abort. *)
Record interference := Interference { got_online : bool; got_abort : bool }.

(** Kernel services, and the hardware. *)
Class CosmEnv (W : Type) := {
  hw_ops : cosm_hw_ops W;
  scif_send : Z → Z → W → Z * W;
  try_module_get : W → bool * W;
  intel_iommu_enabled : bool;
  max_system_address : Z;
  clock : W → Z;
  msecs_to_jiffies : Z → Z;
  jiffies_to_msecs : Z → Z;
  msleep : Z → W → interference * W;
}.

Arguments boot_firmware {W}. Arguments boot {W}. Arguments reset {W}.
Arguments reset_warm {W}. Arguments shutdown {W}. Arguments reset_timeout {W}.
Arguments boot_firmware_timeout {W}. Arguments detect_state {W}. Arguments cleanup {W}.
Arguments dev_update {W}. Arguments max_supported_address {W}.

(** ** Tables *)

Record cosm_state := State { s_string : string; allowed_commands : Z }.

(** [cosm_states], in the order of the enumeration. *)
Definition cosm_states : list cosm_state := [
  State "unknown" (BIT MIC_CMD_RESET);
  State "error" (BIT MIC_CMD_RESET);
  State "ready" (Z.lor (Z.lor (Z.lor (BIT MIC_CMD_BOOT_FIRMWARE) (BIT MIC_CMD_BOOT))
                   (BIT MIC_CMD_RESET)) (BIT MIC_CMD_SHUTDOWN));
  State "online" (Z.lor (Z.lor (Z.lor (BIT MIC_CMD_RESET) (BIT MIC_CMD_RESET_FROM_CARD))
                   (BIT MIC_CMD_SHUTDOWN)) (BIT MIC_CMD_SHUTDOWN_FROM_CARD));
  State "online_firmware" (BIT MIC_CMD_RESET);
  State "shutdown" (BIT MIC_CMD_RESET);
  State "resetting" 0;
  State "shutting_down" 0;
  State "booting" 0;
  State "booting_firmware" 0
].

Definition cosm_msg_to_string (msg : Z) : option string :=
  if msg =? COSM_MSG_SHUTDOWN then Some "shutdown"
  else if msg =? COSM_MSG_SYNC_TIME then Some "sync time"
  else if msg =? COSM_MSG_HEARTBEAT then Some "heartbeat"
  else if msg =? COSM_MSG_STATE_CHANGE then Some "state change"
  else None.

Definition state_entry (s : Z) : cosm_state := nth (Z.to_nat s) cosm_states (State "" 0).

Definition is_command_allowed (s command : Z) : bool :=
  negb (Z.land (allowed_commands (state_entry s)) (BIT command) =? 0).

Section Commands.
Context {W : Type} `{CosmEnv W}.

(** The 64-bit tick counter: ticks since boot, wrapped. *)
Definition jiffies (w : W) : Z := u64 (clock w).

(** Results of a command's functions: the code, [*state_msg], and the states. *)
Notation msg_ptr := (option string).

Definition cosm_stop (cdev : cosm_device) (w : W) : W := cleanup hw_ops cdev w.

(** *** BOOT_FIRMWARE *)

Definition cosm_boot_firmware (cdev : cosm_device) (w : W) (m : msg_ptr) : Z * msg_ptr * W :=
  let '(rc, w) := boot_firmware hw_ops cdev w in (rc, m, w).

Definition cosm_boot_firmware_complete (cdev : cosm_device) (w : W) (time : Z) (m : msg_ptr)
  : Z * msg_ptr * cosm_device * W :=
  let '(s, w) := detect_state hw_ops cdev w in
  if negb (s =? MIC_STATE_ONLINE_FIRMWARE) then (- EAGAIN, m, cdev, w) else (0, m, cdev, w).

Definition cosm_boot_firmware_timeout (cdev : cosm_device) : Z :=
  u32 (boot_firmware_timeout hw_ops).

(** *** BOOT *)

Definition cosm_is_boot_safe (cdev : cosm_device) (w : W) : bool :=
  let max_supported := max_supported_address hw_ops cdev w in
  if intel_iommu_enabled then true
  else if max_system_address <=? max_supported then true else false.

Definition cosm_boot (cdev : cosm_device) (w : W) (m : msg_ptr) : Z * msg_ptr * W :=
  if negb (cosm_is_boot_safe cdev w)
  then (- E2BIG, Some "memory above supported value, enable IOMMU", w)
  else let '(rc, w) := boot hw_ops cdev w in (rc, m, w).

Definition cosm_boot_complete (cdev : cosm_device) (w : W) (time : Z) (m : msg_ptr)
  : Z * msg_ptr * cosm_device * W :=
  if received_online (current cdev) then (0, m, cdev, w) else (- EAGAIN, m, cdev, w).

Definition cosm_boot_timeout (cdev : cosm_device) : Z := boot_timeout (config cdev).

(** *** RESET *)

Definition cosm_reset_force (cdev : cosm_device) (w : W) (m : msg_ptr) : Z * msg_ptr * W :=
  let w := cosm_stop cdev w in
  let '(rc, w) := reset hw_ops cdev w in (rc, m, w).

Definition cosm_reset_force_warm (cdev : cosm_device) (w : W) (m : msg_ptr) : Z * msg_ptr * W :=
  let w := cosm_stop cdev w in
  let '(rc, w) := reset_warm hw_ops cdev w in (rc, m, w).

(** Ask the card over SCIF if it is online and connected; [true] when sent. *)
Definition request_card (cdev : cosm_device) (w : W) (msg : Z) : bool * W :=
  match epd cdev with
  | Some e =>
      if previous_state cdev =? MIC_STATE_ONLINE
      then let '(rc, w) := scif_send e msg w in (0 <? rc, w) else (false, w)
  | None => (false, w)
  end.

Definition cosm_reset (cdev : cosm_device) (w : W) (m : msg_ptr) : Z * msg_ptr * W :=
  let '(resetting, w) :=
    if previous_state cdev =? MIC_STATE_UNKNOWN
    then let '(s, w) := detect_state hw_ops cdev w in (s =? MIC_STATE_RESETTING, w)
    else (false, w) in
  if resetting then (0, m, w)
  else
    let '(sent, w) := request_card cdev w COSM_MSG_REBOOT in
    if sent then (0, m, w)
    else
      let w := cosm_stop cdev w in
      let '(rc, w) := reset hw_ops cdev w in (rc, m, w).

Definition cosm_reset_from_card_complete (cdev : cosm_device) (w : W) (time : Z) (m : msg_ptr)
  : Z * msg_ptr * cosm_device * W :=
  let '(s, w) := detect_state hw_ops cdev w in
  if negb (s =? MIC_STATE_READY) then (- EAGAIN, m, cdev, w)
  else
    let w := cosm_stop cdev w in
    (0, m, set_execute_on_ready cdev MIC_CMD_BOOT, w).

Definition cosm_reset_complete (cdev : cosm_device) (w : W) (time : Z) (m : msg_ptr)
  : Z * msg_ptr * cosm_device * W :=
  let '(s, w) := detect_state hw_ops cdev w in
  if negb (s =? MIC_STATE_READY) then (- EAGAIN, m, cdev, w)
  else
    let w := cosm_stop cdev w in
    let '(rc, w) := dev_update hw_ops cdev w in
    (0, m, cdev, w).

Definition cosm_reset_timeout (cdev : cosm_device) : Z :=
  u32 (shutdown_timeout (config cdev) + reset_timeout hw_ops).

Definition cosm_handle_hang_complete (cdev : cosm_device) (w : W) (time : Z) (m : msg_ptr)
  : Z * msg_ptr * cosm_device * W := (0, Some "coprocessor not responding", cdev, w).

Definition cosm_handle_panic_complete (cdev : cosm_device) (w : W) (time : Z) (m : msg_ptr)
  : Z * msg_ptr * cosm_device * W := (0, Some "kernel panic", cdev, w).

(** *** SHUTDOWN *)

Definition cosm_shutdown_force (cdev : cosm_device) (w : W) (m : msg_ptr) : Z * msg_ptr * W :=
  let w := cosm_stop cdev w in
  let '(rc, w) := shutdown hw_ops cdev w in (rc, m, w).

Definition cosm_shutdown (cdev : cosm_device) (w : W) (m : msg_ptr) : Z * msg_ptr * W :=
  let '(s, w) := detect_state hw_ops cdev w in
  if s =? MIC_STATE_READY then
    let w := cosm_stop cdev w in
    let '(rc, w) := shutdown hw_ops cdev w in (rc, m, w)
  else
    let '(sent, w) := request_card cdev w COSM_MSG_SHUTDOWN in
    if sent then (0, m, w) else (- EINVAL, m, w).

Definition cosm_shutdown_complete (cdev : cosm_device) (w : W) (time : Z) (m : msg_ptr)
  : Z * msg_ptr * cosm_device * W :=
  let '(s, w) := detect_state hw_ops cdev w in
  if negb (s =? MIC_STATE_SHUTDOWN) then (- EAGAIN, m, cdev, w)
  else let w := cosm_stop cdev w in (0, m, cdev, w).

Definition cosm_shutdown_timeout (cdev : cosm_device) : Z := shutdown_timeout (config cdev).

(** *** The table of commands *)

Record cosm_command := Command {
  c_string : string;
  invoke : option (cosm_device → W → msg_ptr → Z * msg_ptr * W);
  complete : option (cosm_device → W → Z → msg_ptr → Z * msg_ptr * cosm_device * W);
  get_timeout : option (cosm_device → Z);
  temporal_state : Z;
  target_state : Z;
  flags : Z;
}.

(** [cosm_commands], in the order of the enumeration. *)
Definition cosm_commands : list cosm_command := [
  Command "none" None None None 0 0 MIC_CMD_FLAG_HIDDEN;
  Command "boot_firmware" (Some cosm_boot_firmware) (Some cosm_boot_firmware_complete)
    (Some cosm_boot_firmware_timeout) MIC_STATE_BOOTING_FIRMWARE MIC_STATE_ONLINE_FIRMWARE 0;
  Command "boot" (Some cosm_boot) (Some cosm_boot_complete)
    (Some cosm_boot_timeout) MIC_STATE_BOOTING MIC_STATE_ONLINE 0;
  Command "reset" (Some cosm_reset) (Some cosm_reset_complete)
    (Some cosm_reset_timeout) MIC_STATE_RESETTING MIC_STATE_READY 0;
  Command "reset_from_card" None (Some cosm_reset_from_card_complete)
    (Some cosm_reset_timeout) MIC_STATE_RESETTING MIC_STATE_READY MIC_CMD_FLAG_HIDDEN;
  Command "reset_force" (Some cosm_reset_force) (Some cosm_reset_complete)
    (Some cosm_reset_timeout) MIC_STATE_RESETTING MIC_STATE_READY MIC_CMD_FLAG_ABORT_CURRENT;
  Command "reset_force_warm" (Some cosm_reset_force_warm) (Some cosm_reset_complete)
    (Some cosm_reset_timeout) MIC_STATE_RESETTING MIC_STATE_READY MIC_CMD_FLAG_ABORT_CURRENT;
  Command "shutdown" (Some cosm_shutdown) (Some cosm_shutdown_complete)
    (Some cosm_shutdown_timeout) MIC_STATE_SHUTTING_DOWN MIC_STATE_SHUTDOWN 0;
  Command "shutdown_from_card" None (Some cosm_shutdown_complete)
    (Some cosm_shutdown_timeout) MIC_STATE_SHUTTING_DOWN MIC_STATE_SHUTDOWN MIC_CMD_FLAG_HIDDEN;
  Command "shutdown_force" (Some cosm_shutdown_force) (Some cosm_shutdown_complete)
    (Some cosm_shutdown_timeout) MIC_STATE_SHUTTING_DOWN MIC_STATE_SHUTDOWN
    MIC_CMD_FLAG_ABORT_CURRENT;
  Command "handle_panic" None (Some cosm_handle_panic_complete) None
    MIC_STATE_UNKNOWN MIC_STATE_ERROR (Z.lor MIC_CMD_FLAG_HIDDEN MIC_CMD_FLAG_ABORT_CURRENT);
  Command "handle_hang" None (Some cosm_handle_hang_complete) None
    MIC_STATE_UNKNOWN MIC_STATE_ERROR (Z.lor MIC_CMD_FLAG_HIDDEN MIC_CMD_FLAG_ABORT_CURRENT)
].

Definition command_entry (c : Z) : cosm_command :=
  nth (Z.to_nat c) cosm_commands (Command "none" None None None 0 0 MIC_CMD_FLAG_HIDDEN).

(** *** State switches *)

Definition cosm_lock_module (cdev : cosm_device) (w : W) : cosm_device * W :=
  if negb (is_module_locked cdev) then
    let '(got, w) := try_module_get w in
    if negb got then (cdev, w) else (set_locked cdev true, w)
  else (cdev, w).

Definition cosm_unlock_module (cdev : cosm_device) : cosm_device :=
  if is_module_locked cdev then set_locked cdev false else cdev.

Definition cosm_update_module_lock (cdev : cosm_device) (w : W) (s : Z) : cosm_device * W :=
  if (s =? MIC_STATE_READY) || (s =? MIC_STATE_SHUTDOWN) || (s =? MIC_STATE_ERROR)
  then (cosm_unlock_module cdev, w)
  else cosm_lock_module cdev w.

Definition cosm_switch_to_state (cdev : cosm_device) (w : W) (s : Z) (m : msg_ptr)
  : cosm_device * W :=
  let current_state := state cdev in
  if MIC_STATE_LAST <? s then (cdev, w)
  else
    let cdev := if (current_state =? MIC_STATE_READY) || (s =? MIC_STATE_ERROR)
                then set_execute_on_ready cdev MIC_CMD_NONE else cdev in
    let '(cdev, w) := cosm_update_module_lock cdev w s in
    (Device (config cdev) (is_module_locked cdev) (current cdev)
       (state_changed cdev + 1) (notified cdev + 1) s current_state m (epd cdev), w).

Definition is_command_already_executed (cdev : cosm_device) (cmd : cosm_command) : bool :=
  if (id (current cdev) =? MIC_CMD_NONE) && (target_state cmd =? state cdev) then true
  else if negb (id (current cdev) =? MIC_CMD_NONE) &&
          (target_state cmd =? target_state (command_entry (id (current cdev)))) then true
  else false.

(** *** Requesting a command

    [cosm_set_command] up to the label [exec_command]: the code it returns, or
    [None] when it goes on to execute the command. *)
Definition set_abort (d : cosm_device) (b : bool) : cosm_device :=
  set_current d (Current (id (current d)) (received_online (current d)) b).
Definition set_received_online (d : cosm_device) : cosm_device :=
  set_current d (Current (id (current d)) true (abort (current d))).
Definition set_id (d : cosm_device) (c : Z) : cosm_device :=
  set_current d (Current c (received_online (current d)) (abort (current d))).

Definition has_flag (cmd : cosm_command) (f : Z) : bool := negb (Z.land (flags cmd) f =? 0).

Definition set_command_guards (cdev : cosm_device) (command : Z) : option Z * cosm_device :=
  let cmd := command_entry command in
  if has_flag cmd MIC_CMD_FLAG_ABORT_CURRENT then (None, set_abort cdev true)
  else if is_command_already_executed cdev cmd then (Some (- EALREADY), cdev)
  else if negb (id (current cdev) =? MIC_CMD_NONE) then (Some (- EBUSY), cdev)
  else if negb (is_command_allowed (state cdev) command) then (Some (- EPERM), cdev)
  else (None, cdev).

(** From [exec_command] on, once [cancel_work_sync] has returned, up to
    [schedule_work]. *)
Definition set_command_exec (cdev : cosm_device) (command : Z) : cosm_device :=
  Device (config cdev) (is_module_locked cdev) (Current command false false)
    0 (notified cdev) (state cdev) (previous_state cdev) (state_msg cdev) (epd cdev).

(** The code for the result of [wait_for_completion_interruptible_timeout]. *)
Definition set_command_result (rc : Z) : Z :=
  if (rc =? 0) || (rc =? - ERESTARTSYS) then - EINTR else 0.

(** [sysfs_streq]: equality up to one trailing newline. *)
Definition newline : string := String (Ascii.ascii_of_nat 10) "".
Fixpoint sysfs_streq (s1 s2 : string) : bool :=
  match s1, s2 with
  | "", "" => true
  | String c1 r1, String c2 r2 =>
      if Ascii.eqb c1 c2 then sysfs_streq r1 r2
      else false
  | "", String _ _ => String.eqb s2 newline
  | String _ _, "" => String.eqb s1 newline
  end%string.

Fixpoint get_command_loop (string : string) (cmds : list cosm_command) (i : Z) : option Z :=
  match cmds with
  | [] => None
  | cmd :: cmds =>
      if has_flag cmd MIC_CMD_FLAG_HIDDEN then get_command_loop string cmds (i + 1)
      else if sysfs_streq string (c_string cmd) then Some i
      else get_command_loop string cmds (i + 1)
  end.

(** [cosm_get_command_id]: the code and, on success, [*command]. *)
Definition cosm_get_command_id (string : string) : Z * option Z :=
  match get_command_loop string cosm_commands 0 with
  | Some i => (0, Some i)
  | None => (- EINVAL, None)
  end.

(** *** The state flow *)

Definition command_timeout (cdev : cosm_device) (command : cosm_command) : Z :=
  let t := match get_timeout command with Some f => f cdev | None => 0 end in
  if (t =? 0) || (cosm_max_state_timeout <? t) then cosm_max_state_timeout else t.

(** [time_is_before_jiffies(t)]: the clock is past [t], by the sign of the
    wrapped difference. *)
Definition time_is_before_jiffies (t : Z) (w : W) : bool := s64 (t - jiffies w) <? 0.

(** The label [command_exit]. *)
Definition command_exit (cdev : cosm_device) (w : W) (s : Z) (m : msg_ptr) : cosm_device * W :=
  let '(cdev, w) := cosm_switch_to_state cdev w s m in (set_id cdev MIC_CMD_NONE, w).

(** How the work item leaves a part of its body: finished through
    [command_exit], aborted, in the loop with the local variables given, or with
    a call of a null [complete]. *)
Inductive flow_result :=
  | FlowDone (cdev : cosm_device) (w : W)
  | FlowAborted (cdev : cosm_device) (w : W)
  | FlowLoop (cdev : cosm_device) (w : W) (command_id start_time timeout : Z) (m : msg_ptr)
  | FlowOops.

Definition flow_exit (cdev : cosm_device) (w : W) (s : Z) (m : msg_ptr) : flow_result :=
  let '(cdev, w) := command_exit cdev w s m in FlowDone cdev w.

(** [cosm_state_flow] up to the loop. *)
Definition flow_start (cdev : cosm_device) (w : W) : flow_result :=
  let command_id := id (current cdev) in
  let command := command_entry command_id in
  let t := command_timeout cdev command in
  let start_time := jiffies w in
  let timeout := u64 (start_time + msecs_to_jiffies (u32 (t * 1000))) in
  let '(cdev, w) :=
    if negb (temporal_state command =? MIC_STATE_UNKNOWN)
    then cosm_switch_to_state cdev w (temporal_state command) None else (cdev, w) in
  match invoke command with
  | Some f =>
      let '(rc, m, w) := f cdev w None in
      if negb (rc =? 0) then flow_exit cdev w MIC_STATE_ERROR m
      else FlowLoop cdev w command_id start_time timeout m
  | None => FlowLoop cdev w command_id start_time timeout None
  end.

(** One iteration of the loop, up to the sleep. *)
Definition flow_poll (cdev : cosm_device) (w : W) (command_id start_time timeout : Z)
    (m : msg_ptr) : flow_result :=
  let command := command_entry command_id in
  match complete command with
  | None => FlowOops
  | Some f =>
      let '(rc, m, cdev, w) :=
        f cdev w (u32 (jiffies_to_msecs (u64 (jiffies w - start_time))) / 1000) m in
      if rc =? 0 then flow_exit cdev w (target_state command) m
      else if rc =? - EINTR then flow_exit cdev w MIC_STATE_ERROR (Some "interrupted by signal")
      else if time_is_before_jiffies timeout w
      then flow_exit cdev w MIC_STATE_ERROR (Some "interrupted by timeout")
      else if abort (current cdev) then FlowAborted cdev w
      else if rc =? - EAGAIN then FlowLoop cdev w command_id start_time timeout m
      else flow_exit cdev w MIC_STATE_ERROR (Some "interrupted by unknown complete code")
  end.

Definition apply_interference (cdev : cosm_device) (i : interference) : cosm_device :=
  let cdev := if got_online i then set_received_online cdev else cdev in
  if got_abort i then set_abort cdev true else cdev.

Fixpoint flow_loop (fuel : nat) (r : flow_result) : option flow_result :=
  match fuel with
  | O => None
  | S fuel =>
      match r with
      | FlowLoop cdev w c st t m =>
          match flow_poll cdev w c st t m with
          | FlowLoop cdev w c st t m =>
              let '(i, w) := msleep cosm_timeout_interval w in
              flow_loop fuel (FlowLoop (apply_interference cdev i) w c st t m)
          | r => Some r
          end
      | r => Some r
      end
  end.

(** The whole work item; [None] when [fuel] iterations do not end it. *)
Definition cosm_state_flow (fuel : nat) (cdev : cosm_device) (w : W) : option flow_result :=
  flow_loop fuel (flow_start cdev w).

End Commands.

End Cosm.
