(* ===== verification/CosmFlow.v ===== *)
(** * Coprocessor state management: requests and the state flow together

    The work item [cosm_state_flow], the thread in [cosm_set_command] (one at a
    time: it holds [command_mutex]), the SCIF thread and sysfs writers act on one
    [cosm_device].  [step] interleaves them; between two steps the hardware and
    the clock may change at will.  The theorems give the invariant of the device
    over every interleaving, the automaton its state follows, that forced
    commands end the running one at its next poll, and that the work item ends
    within its timeout. *)
From S2P Require Import Prelude Cosm.
Local Open Scope Z_scope.
Import Cosm.

Module CosmFlow.

Section Flow.
Context {W : Type} `{CosmEnv W}.

(** The work item: not queued, queued by [schedule_work], or in its loop. *)
Inductive work :=
  | WIdle
  | WQueued
  | WPolling (command_id start_time timeout : Z) (m : option string).

(** The holder of [command_mutex]: nobody, in [cancel_work_sync], or waiting for
    the completion. *)
Inductive requester := RNone | RCancelling (command : Z) | RWaiting (command : Z).

Record sys := Sys { dev : cosm_device; world : W; wk : work; rq : requester }.

(** Where a part of the work item leaves the device and the work item. *)
Definition flow_state (r : flow_result) : option (cosm_device * W * work) :=
  match r with
  | FlowDone d w | FlowAborted d w => Some (d, w, WIdle)
  | FlowLoop d w c st t m => Some (d, w, WPolling c st t m)
  | FlowOops => None
  end.

Inductive step : sys → sys → Prop :=
  | step_refused d w k c rc d' :
      0 <= c <= MIC_CMD_LAST → set_command_guards d c = (Some rc, d') →
      step (Sys d w k RNone) (Sys d' w k RNone)
  | step_request d w k c d' :
      0 <= c <= MIC_CMD_LAST → set_command_guards d c = (None, d') →
      step (Sys d w k RNone) (Sys d' w k (RCancelling c))
  | step_exec d w k c :
      k = WIdle ∨ k = WQueued →
      step (Sys d w k (RCancelling c)) (Sys (set_command_exec d c) w WQueued (RWaiting c))
  | step_return d w k c :
      step (Sys d w k (RWaiting c)) (Sys d w k RNone)
  | step_start d w r d' w' k' :
      flow_state (flow_start d w) = Some (d', w', k') →
      step (Sys d w WQueued r) (Sys d' w' k' r)
  | step_poll d w r c st t m d' w' k' :
      flow_state (flow_poll d w c st t m) = Some (d', w', k') →
      step (Sys d w (WPolling c st t m) r) (Sys d' w' k' r)
  | step_online d w k r : step (Sys d w k r) (Sys (set_received_online d) w k r)
  | step_config d w k r c : step (Sys d w k r) (Sys (set_config d c) w k r)
  | step_epd d w k r e : step (Sys d w k r) (Sys (set_epd d e) w k r)
  | step_world d w w' k r : step (Sys d w k r) (Sys d w' k r).

(** What [cosm_driver_probe] leaves before its first command. *)
Definition probed (d : cosm_device) (w : W) : cosm_device :=
  fst (cosm_lock_module
    (Device (config d) false (Current MIC_CMD_NONE false false) 0 0
       MIC_STATE_UNKNOWN MIC_STATE_UNKNOWN None None) w).

Inductive reachable : sys → Prop :=
  | reach_init d w : reachable (Sys (probed d w) w WIdle RNone)
  | reach_step s s' : reachable s → step s s' → reachable s'.

(** ** The tables *)

Definition forced (c : Z) : bool := has_flag (command_entry c) MIC_CMD_FLAG_ABORT_CURRENT.

(** A state the card rests in, between commands. *)
Definition stable (s : Z) : Prop := 0 <= s <= MIC_STATE_SHUTDOWN.

Definition valid (c : Z) : Prop := MIC_CMD_NONE < c <= MIC_CMD_LAST.

Lemma command_cases c : 0 <= c <= MIC_CMD_LAST →
  c = 0 ∨ c = 1 ∨ c = 2 ∨ c = 3 ∨ c = 4 ∨ c = 5 ∨ c = 6 ∨ c = 7 ∨ c = 8 ∨ c = 9 ∨ c = 10 ∨ c = 11.
Proof. unfold MIC_CMD_LAST, MIC_CMD_HANDLE_HANG. lia. Qed.

Lemma state_cases s : 0 <= s <= MIC_STATE_LAST →
  s = 0 ∨ s = 1 ∨ s = 2 ∨ s = 3 ∨ s = 4 ∨ s = 5 ∨ s = 6 ∨ s = 7 ∨ s = 8 ∨ s = 9.
Proof. unfold MIC_STATE_LAST, MIC_STATE_BOOTING_FIRMWARE. lia. Qed.

Lemma command_table c : valid c →
  is_Some (complete (command_entry c)) ∧
  stable (target_state (command_entry c)) ∧
  target_state (command_entry c) ≠ MIC_STATE_UNKNOWN ∧
  0 <= temporal_state (command_entry c) <= MIC_STATE_LAST ∧
  (target_state (command_entry c) = MIC_STATE_ONLINE → c = MIC_CMD_BOOT).
Proof.
  intros [H1 H2]. unfold MIC_CMD_NONE in *.
  destruct (command_cases c ltac:(lia)) as [->|Hc]; [lia|].
  destruct_or?; subst; cbn; (split; [eauto|]); unfold stable; cbn; repeat split; unfold MIC_STATE_LAST, MIC_STATE_BOOTING_FIRMWARE; (lia || done).
Qed.

(** No state allows the command [MIC_CMD_NONE]. *)
Lemma none_not_allowed s : 0 <= s <= MIC_STATE_LAST → is_command_allowed s MIC_CMD_NONE = false.
Proof. intros Hs. by destruct (state_cases s Hs) as [|]; destruct_or?; subst. Qed.

(** Only resting states allow a command. *)
Lemma allowed_stable s c : 0 <= s <= MIC_STATE_LAST → is_command_allowed s c = true → stable s.
Proof.
  intros Hs. destruct (state_cases s Hs) as [|]; destruct_or?; subst;
    unfold stable, is_command_allowed; cbn; (lia || done).
Qed.

(** ** State switches *)

Definition unlocked_state (s : Z) : bool :=
  (s =? MIC_STATE_READY) || (s =? MIC_STATE_SHUTDOWN) || (s =? MIC_STATE_ERROR).

(** What a state switch may change: everything but the current command. *)
Lemma switch_spec cdev w s m d' w' :
  0 <= s <= MIC_STATE_LAST → cosm_switch_to_state cdev w s m = (d', w') →
  state d' = s ∧ previous_state d' = state cdev ∧ state_msg d' = m ∧ current d' = current cdev ∧
  state_changed d' = state_changed cdev + 1 ∧
  (is_module_locked d' = true → unlocked_state s = false) ∧
  ((∀ w, fst (try_module_get w) = true) → unlocked_state s = false → is_module_locked d' = true) ∧
  execute_on_ready (config d') =
    if (state cdev =? MIC_STATE_READY) || (s =? MIC_STATE_ERROR) then MIC_CMD_NONE
    else execute_on_ready (config cdev).
Proof.
  intros Hs. unfold cosm_switch_to_state, cosm_update_module_lock, cosm_unlock_module, cosm_lock_module.
  assert (MIC_STATE_LAST <? s = false) as -> by lia. fold (unlocked_state s).
  destruct (unlocked_state s) eqn:Hu;
    destruct ((state cdev =? MIC_STATE_READY) || (s =? MIC_STATE_ERROR)) eqn:Hr; cbn;
    destruct (is_module_locked cdev) eqn:Hl; cbn; try (destruct (try_module_get w) as [[] w1] eqn:Ht);
    cbn; intros [= <- <-]; cbn; repeat split; try done; try congruence;
    intros Hg; specialize (Hg w); rewrite Ht in Hg; done.
Qed.

(** What a completion function may change. *)
Lemma complete_spec c f cdev w t m rc m' d' w' : valid c →
  complete (command_entry c) = Some f → f cdev w t m = (rc, m', d', w') →
  d' = cdev ∨ d' = set_execute_on_ready cdev MIC_CMD_BOOT.
Proof.
  intros [H1 H2]. unfold MIC_CMD_NONE in *.
  destruct (command_cases c ltac:(lia)) as [->|Hc]; [lia|].
  destruct_or?; subst; cbn; intros [= <-];
    unfold cosm_boot_firmware_complete, cosm_boot_complete, cosm_reset_complete,
      cosm_reset_from_card_complete, cosm_shutdown_complete, cosm_handle_panic_complete,
      cosm_handle_hang_complete;
    repeat (case_match || case_bool_decide); intros; simplify_eq; auto.
Qed.

(** [cosm_boot_complete] succeeds only after the online message. *)
Lemma boot_complete_online f cdev w t m m' d' w' :
  complete (command_entry MIC_CMD_BOOT) = Some f → f cdev w t m = (0, m', d', w') →
  received_online (current cdev) = true.
Proof. cbn. intros [= <-]. unfold cosm_boot_complete. by case_match. Qed.

Local Arguments command_entry : simpl never.

(** The parts of the work item, by their effect on the device: [command_exit]
    ends in the given state with no current command. *)
Lemma flow_exit_spec cdev w s m d' w' k' :
  0 <= s <= MIC_STATE_LAST → flow_state (flow_exit cdev w s m) = Some (d', w', k') →
  k' = WIdle ∧ state d' = s ∧ state_msg d' = m ∧ previous_state d' = state cdev ∧
  current d' = Current MIC_CMD_NONE (received_online (current cdev)) (abort (current cdev)) ∧
  (is_module_locked d' = true → unlocked_state s = false) ∧
  ((∀ w, fst (try_module_get w) = true) → unlocked_state s = false → is_module_locked d' = true).
Proof.
  intros Hs. unfold flow_exit, command_exit.
  destruct (cosm_switch_to_state cdev w s m) as [d1 w1] eqn:E. cbn. intros [= <- <- <-].
  destruct (switch_spec _ _ _ _ _ _ Hs E) as (?&?&?&Hc&?&?&?&?). cbn. rewrite Hc. auto 10.
Qed.

(** ** The invariant *)

Definition lock_ok (d : cosm_device) : Prop :=
  (is_module_locked d = true → unlocked_state (state d) = false) ∧
  ((∀ w, fst (try_module_get w) = true) →
     unlocked_state (state d) = false → is_module_locked d = true).

Record inv (s : sys) : Prop := {
  inv_state : 0 <= state (dev s) <= MIC_STATE_LAST;
  inv_lock : lock_ok (dev s);
  inv_idle : wk s = WIdle → (∀ c, rq s ≠ RCancelling c) →
    id (current (dev s)) = MIC_CMD_NONE ∧ stable (state (dev s));
  inv_busy : wk s ≠ WIdle → valid (id (current (dev s)));
  inv_queued : wk s = WQueued → forced (id (current (dev s))) = false →
    is_command_allowed (state (dev s)) (id (current (dev s))) = true;
  inv_polling c st t m : wk s = WPolling c st t m →
    c = id (current (dev s)) ∧
    (temporal_state (command_entry c) ≠ MIC_STATE_UNKNOWN →
       state (dev s) = temporal_state (command_entry c));
  inv_abort : abort (current (dev s)) = true → ∃ c, rq s = RCancelling c ∧ forced c = true;
  inv_cancel c : rq s = RCancelling c → valid c ∧
    (forced c = false → wk s = WIdle ∧ id (current (dev s)) = MIC_CMD_NONE ∧
                        is_command_allowed (state (dev s)) c = true);
}.

Lemma probed_inv d w : inv (Sys (probed d w) w WIdle RNone).
Proof.
  unfold probed, cosm_lock_module. cbn.
  destruct (try_module_get w) as [[] w1] eqn:Ht; cbn; split; cbn;
    try (intros; congruence); try (unfold stable, lock_ok; cbn;
      unfold MIC_STATE_LAST, MIC_STATE_BOOTING_FIRMWARE, MIC_STATE_UNKNOWN, MIC_STATE_SHUTDOWN;
      auto with lia); split; try done.
  intros Hg. specialize (Hg w). by rewrite Ht in Hg.
Qed.

(** Steps that change only fields the invariant does not read. *)
Lemma inv_frame d d' w w' k r :
  state d' = state d → is_module_locked d' = is_module_locked d →
  id (current d') = id (current d) → abort (current d') = abort (current d) →
  inv (Sys d w k r) → inv (Sys d' w' k r).
Proof.
  intros E1 E2 E3 E4 [I1 I2 I3 I4 I5 I6 I7 I8]; split; cbn in *;
    unfold lock_ok in *; rewrite ?E1, ?E2, ?E3, ?E4; auto.
Qed.

Lemma guards_cases d c r d' : set_command_guards d c = (r, d') →
  (forced c = true ∧ r = None ∧ d' = set_abort d true) ∨
  (forced c = false ∧ d' = d ∧
     (r = None → id (current d) = MIC_CMD_NONE ∧ is_command_allowed (state d) c = true)).
Proof.
  unfold set_command_guards, forced.
  destruct (has_flag (command_entry c) MIC_CMD_FLAG_ABORT_CURRENT); [intros [= <- <-]; auto|].
  destruct (is_command_already_executed d _); [intros [= <- <-]; by right|].
  destruct (Z.eqb_spec (id (current d)) MIC_CMD_NONE); cbn; [|intros [= <- <-]; by right].
  destruct (is_command_allowed (state d) c) eqn:E; cbn; intros [= <- <-]; right; auto.
  done.
Qed.

Lemma forced_valid c : 0 <= c <= MIC_CMD_LAST → forced c = true → valid c.
Proof.
  intros Hc Hf. unfold valid, MIC_CMD_NONE. enough (c ≠ 0) by lia. by intros ->.
Qed.

Lemma allowed_valid s c : 0 <= s <= MIC_STATE_LAST → 0 <= c <= MIC_CMD_LAST →
  is_command_allowed s c = true → valid c.
Proof.
  intros Hs Hc Ha. unfold valid, MIC_CMD_NONE. enough (c ≠ 0) by lia. intros ->.
  change 0 with MIC_CMD_NONE in Ha. by rewrite (none_not_allowed s Hs) in Ha.
Qed.

Lemma request_inv d w k c d' :
  0 <= c <= MIC_CMD_LAST → set_command_guards d c = (None, d') →
  inv (Sys d w k RNone) → inv (Sys d' w k (RCancelling c)).
Proof.
  intros Hc Hg [I1 I2 I3 I4 I5 I6 I7 I8]; cbn in *.
  destruct (guards_cases _ _ _ _ Hg) as [(Hf & _ & ->)|(Hf & -> & Ha)].
  - pose proof (forced_valid c Hc Hf) as Hv.
    split; cbn; eauto; try (intros ? [= <-]; split; [done|congruence]).
  - destruct (Ha eq_refl) as [Hi Hal]. pose proof (allowed_valid _ _ I1 Hc Hal) as Hv.
    assert (k = WIdle) as ->.
    { destruct k; [done|..]; destruct I4 as [I4 _]; try done; rewrite Hi in I4; lia. }
    split; cbn; eauto; try congruence.
    + intros Hab. destruct (I7 Hab) as (? & [=] & _).
    + intros ? [= <-]. auto.
Qed.

Lemma exec_inv d w k c : k = WIdle ∨ k = WQueued →
  inv (Sys d w k (RCancelling c)) → inv (Sys (set_command_exec d c) w WQueued (RWaiting c)).
Proof.
  intros Hk [I1 I2 I3 I4 I5 I6 I7 I8]; cbn in *.
  destruct (I8 c eq_refl) as [Hv Hn].
  split; cbn; auto; try congruence. intros _ Hf. by destruct (Hn Hf) as (_ & _ & Ha).
Qed.

(** The device after a part of the work item that leaves its state alone. *)
Definition same_core (d d' : cosm_device) : Prop :=
  state d' = state d ∧ is_module_locked d' = is_module_locked d ∧ current d' = current d.

Definition finished (d d' : cosm_device) (s : Z) : Prop :=
  state d' = s ∧ id (current d') = MIC_CMD_NONE ∧
  abort (current d') = abort (current d) ∧ lock_ok d'.

Lemma flow_exit_finished cdev w s m d' w' k' :
  0 <= s <= MIC_STATE_LAST → flow_state (flow_exit cdev w s m) = Some (d', w', k') →
  k' = WIdle ∧ finished cdev d' s.
Proof.
  intros Hs E. destruct (flow_exit_spec _ _ _ _ _ _ _ Hs E) as (?&?&?&?&Hc&?&?).
  split; [done|]. unfold finished, lock_ok. rewrite Hc. cbn. subst. auto.
Qed.

Lemma error_in_range : 0 <= MIC_STATE_ERROR <= MIC_STATE_LAST.
Proof. unfold MIC_STATE_ERROR, MIC_STATE_LAST, MIC_STATE_BOOTING_FIRMWARE. lia. Qed.

Lemma stable_in_range s : stable s → 0 <= s <= MIC_STATE_LAST.
Proof.
  unfold stable, MIC_STATE_LAST, MIC_STATE_BOOTING_FIRMWARE, MIC_STATE_SHUTDOWN. lia.
Qed.

(** What the temporal state of the command makes of the state. *)
Definition enter_state (c s : Z) : Z :=
  if temporal_state (command_entry c) =? MIC_STATE_UNKNOWN then s
  else temporal_state (command_entry c).

Lemma enter_spec d w c d1 w1 : valid c → lock_ok d →
  (if negb (temporal_state (command_entry c) =? MIC_STATE_UNKNOWN)
   then cosm_switch_to_state d w (temporal_state (command_entry c)) None else (d, w)) = (d1, w1) →
  state d1 = enter_state c (state d) ∧ current d1 = current d ∧ lock_ok d1.
Proof.
  intros Hv Hl. unfold enter_state.
  destruct (Z.eqb_spec (temporal_state (command_entry c)) MIC_STATE_UNKNOWN); cbn.
  - intros [= <- <-]. auto.
  - intros E. destruct (command_table c Hv) as (_&_&_&Ht&_).
    destruct (switch_spec _ _ _ _ _ _ Ht E) as (Hs&?&?&?&?&?&?&?).
    unfold lock_ok. rewrite Hs. auto.
Qed.

Lemma flow_start_spec d w d' w' k' : valid (id (current d)) → lock_ok d →
  flow_state (flow_start d w) = Some (d', w', k') →
  (k' = WIdle ∧ finished d d' MIC_STATE_ERROR) ∨
  (∃ st t m, k' = WPolling (id (current d)) st t m ∧
     state d' = enter_state (id (current d)) (state d) ∧ current d' = current d ∧ lock_ok d').
Proof.
  intros Hv Hl. unfold flow_start. set (c := id (current d)) in *.
  destruct (if negb _ then _ else _) as [d1 w1] eqn:E1.
  destruct (enter_spec _ _ _ _ _ Hv Hl E1) as (Hs & Hc & Hl1).
  destruct (invoke (command_entry c)) as [f|].
  - destruct (f d1 w1 None) as [[rc m] w2]. destruct (negb (rc =? 0)) eqn:Hrc.
    + intros E. left. destruct (flow_exit_finished _ _ _ _ _ _ _ error_in_range E) as (Hk&?&?&Ha&?).
      split; [done|]. split; [done|]. split; [done|]. split; [|done]. by rewrite Ha, Hc.
    + cbn. intros [= <- <- <-]. right. eauto 10.
  - cbn. intros [= <- <- <-]. right. eauto 10.
Qed.

Lemma finished_mono d d1 d' s : same_core d d1 → finished d1 d' s → finished d d' s.
Proof. intros (?&?&E) (?&?&Ha&?). unfold finished. rewrite Ha, E. auto. Qed.

Lemma flow_poll_spec d w c st t m d' w' k' : valid c →
  flow_state (flow_poll d w c st t m) = Some (d', w', k') →
  (k' = WIdle ∧ finished d d' MIC_STATE_ERROR) ∨
  (k' = WIdle ∧ finished d d' (target_state (command_entry c)) ∧
     (c = MIC_CMD_BOOT → received_online (current d) = true)) ∨
  (k' = WIdle ∧ abort (current d) = true ∧ same_core d d') ∨
  (∃ m', k' = WPolling c st t m' ∧ abort (current d) = false ∧ same_core d d').
Proof.
  intros Hv. unfold flow_poll.
  destruct (complete (command_entry c)) as [f|] eqn:Hf; [|done].
  destruct (f d w _ m) as [[[rc m1] d1] w1] eqn:E1.
  assert (same_core d d1) as Hsc.
  { by destruct (complete_spec _ _ _ _ _ _ _ _ _ _ Hv Hf E1) as [-> | ->]. }
  assert (∀ s m, 0 <= s <= MIC_STATE_LAST → flow_state (flow_exit d1 w1 s m) = Some (d', w', k') →
     k' = WIdle ∧ finished d d' s) as Hex.
  { intros s m' Hs E. destruct (flow_exit_finished _ _ _ _ _ _ _ Hs E) as [-> Hfin].
    split; [done|]. by eapply finished_mono. }
  destruct (Z.eqb_spec rc 0) as [->|].
  { intros E. right; left. destruct (command_table c Hv) as (_&Hst&_).
    destruct (Hex _ _ (stable_in_range _ Hst) E) as [-> ?]. split; [done|]. split; [done|].
    intros ->. by eapply boot_complete_online. }
  destruct (rc =? - EINTR); [intros E; left; by eapply Hex; [apply error_in_range|]|].
  destruct (time_is_before_jiffies t w1); [intros E; left; by eapply Hex; [apply error_in_range|]|].
  destruct Hsc as (?&?&Hc). rewrite Hc.
  destruct (abort (current d)) eqn:Ha; [cbn; intros [= <- <- <-]; right; right; left; by split|].
  destruct (rc =? - EAGAIN); [|intros E; left; by eapply Hex; [apply error_in_range|]].
  cbn. intros [= <- <- <-]. right; right; right. by exists m1.
Qed.

(** The work item ends: no command is current and the state is at rest. *)
Lemma finished_inv d d' w w' k r s : stable s → finished d d' s →
  inv (Sys d w k r) → k ≠ WIdle → inv (Sys d' w' WIdle r).
Proof.
  intros Hst (Hs & Hi & Ha & Hl) [I1 I2 I3 I4 I5 I6 I7 I8] Hk; cbn in *.
  pose proof (stable_in_range _ Hst).
  split; cbn; rewrite ?Hs, ?Hi, ?Ha; auto; try done.
  intros c Hc. destruct (I8 c Hc) as [Hv Hn]. split; [done|]. intros Hf. by destruct (Hn Hf).
Qed.

Lemma error_stable : stable MIC_STATE_ERROR.
Proof. unfold stable, MIC_STATE_ERROR, MIC_STATE_SHUTDOWN. lia. Qed.

(** Entering or staying in the loop. *)
Lemma polling_inv d d' w w' k r c st t m : k ≠ WIdle →
  inv (Sys d w k r) → c = id (current d) → current d' = current d → lock_ok d' →
  0 <= state d' <= MIC_STATE_LAST →
  (temporal_state (command_entry c) ≠ MIC_STATE_UNKNOWN →
     state d' = temporal_state (command_entry c)) →
  inv (Sys d' w' (WPolling c st t m) r).
Proof.
  intros Hk [I1 I2 I3 I4 I5 I6 I7 I8] -> Hc Hl Hr Ht; cbn in *.
  split; cbn; rewrite ?Hc; auto; try done.
  - intros ???? [= <- <- <- <-]. auto.
  - intros c Hrq. destruct (I8 c Hrq) as [Hv Hn]. split; [done|]. intros Hf.
    by destruct (Hn Hf).
Qed.

Lemma start_inv d w r d' w' k' :
  flow_state (flow_start d w) = Some (d', w', k') →
  inv (Sys d w WQueued r) → inv (Sys d' w' k' r).
Proof.
  intros E I. pose proof (inv_busy _ I ltac:(done)) as Hv. pose proof (inv_lock _ I) as Hl.
  pose proof (inv_state _ I) as Hr. cbn in *.
  destruct (command_table _ Hv) as (_&_&_&Ht&_).
  destruct (flow_start_spec _ _ _ _ _ Hv Hl E) as [(-> & Hf)|(st & t & m & -> & Hs & Hc & Hl')].
  - by eapply finished_inv; [apply error_stable|..].
  - eapply (polling_inv d d' w w' WQueued); auto.
    + rewrite Hs. unfold enter_state. by case_match.
    + rewrite Hs. unfold enter_state. intros. zcases; done.
Qed.

Lemma poll_inv d w r c st t m d' w' k' :
  flow_state (flow_poll d w c st t m) = Some (d', w', k') →
  inv (Sys d w (WPolling c st t m) r) → inv (Sys d' w' k' r).
Proof.
  intros E I. pose proof (inv_busy _ I ltac:(done)) as Hv. pose proof (inv_lock _ I) as Hl.
  pose proof (inv_polling _ I _ _ _ _ eq_refl) as [Hid Ht]. cbn in *. subst c.
  destruct (command_table _ Hv) as (_&Hst&_).
  destruct (flow_poll_spec _ _ _ _ _ _ _ _ _ Hv E)
    as [(-> & Hf)|[(-> & Hf & _)|[(-> & Ha & Hs & Hlk & Hc)|(m' & -> & Ha & Hs & Hlk & Hc)]]].
  - by eapply finished_inv; [apply error_stable|..].
  - by eapply finished_inv.
  - pose proof (inv_abort _ I Ha) as (c' & Hrq & Hfc). cbn in Hrq. subst r. destruct I as [I1 I2 I3 I4 I5 I6 I7 I8].
    cbn in *. split; cbn; unfold lock_ok; rewrite ?Hs, ?Hlk, ?Hc; auto; try done.
    + intros _ Hn. by destruct (Hn c').
    + intros c [= <-]. destruct (I8 c' eq_refl). split; [done|congruence].
  - eapply (polling_inv d d'); eauto; [done|unfold lock_ok; by rewrite Hs, Hlk| |];
      rewrite Hs; [apply (inv_state _ I)|done].
Qed.

Lemma step_inv s s' : step s s' → inv s → inv s'.
Proof.
  destruct 1; intros I.
  - destruct (guards_cases _ _ _ _ H1) as [(?&?&?)|(?&->&?)]; [done|].
    by eapply inv_frame.
  - by eapply request_inv.
  - by eapply exec_inv.
  - destruct I as [I1 I2 I3 I4 I5 I6 I7 I8]; split; cbn in *; eauto; try done.
    intros Ha. by destruct (I7 Ha) as (?&?&?).
  - by eapply start_inv.
  - by eapply poll_inv.
  - by eapply inv_frame; [..|exact I].
  - by eapply inv_frame; [..|exact I].
  - by eapply inv_frame; [..|exact I].
  - by eapply inv_frame; [..|exact I].
Qed.

Lemma reachable_inv s : reachable s → inv s.
Proof. induction 1; [apply probed_inv|by eapply step_inv]. Qed.

(** ** The automaton of the card state *)

(** The moves the card state may make, labelled by the command in progress. *)
Inductive card_edge : Z → Z → Z → Prop :=
  | edge_boot : card_edge MIC_CMD_BOOT MIC_STATE_READY MIC_STATE_BOOTING
  | edge_online : card_edge MIC_CMD_BOOT MIC_STATE_BOOTING MIC_STATE_ONLINE
  | edge_firmware : card_edge MIC_CMD_BOOT_FIRMWARE MIC_STATE_READY MIC_STATE_BOOTING_FIRMWARE
  | edge_firmware_up :
      card_edge MIC_CMD_BOOT_FIRMWARE MIC_STATE_BOOTING_FIRMWARE MIC_STATE_ONLINE_FIRMWARE
  | edge_reset a : stable a → card_edge MIC_CMD_RESET a MIC_STATE_RESETTING
  | edge_reset_card : card_edge MIC_CMD_RESET_FROM_CARD MIC_STATE_ONLINE MIC_STATE_RESETTING
  | edge_reset_force c a : c = MIC_CMD_RESET_FORCE ∨ c = MIC_CMD_RESET_FORCE_WARM →
      card_edge c a MIC_STATE_RESETTING
  | edge_ready c : MIC_CMD_RESET <= c <= MIC_CMD_RESET_FORCE_WARM →
      card_edge c MIC_STATE_RESETTING MIC_STATE_READY
  | edge_shutdown a : a = MIC_STATE_READY ∨ a = MIC_STATE_ONLINE →
      card_edge MIC_CMD_SHUTDOWN a MIC_STATE_SHUTTING_DOWN
  | edge_shutdown_card :
      card_edge MIC_CMD_SHUTDOWN_FROM_CARD MIC_STATE_ONLINE MIC_STATE_SHUTTING_DOWN
  | edge_shutdown_force a : card_edge MIC_CMD_SHUTDOWN_FORCE a MIC_STATE_SHUTTING_DOWN
  | edge_down c : MIC_CMD_SHUTDOWN <= c <= MIC_CMD_SHUTDOWN_FORCE →
      card_edge c MIC_STATE_SHUTTING_DOWN MIC_STATE_SHUTDOWN
  | edge_error c a : card_edge c a MIC_STATE_ERROR.

(** A command's temporal state is entered only from a state that allows it. *)
Lemma enter_edge c s : valid c → 0 <= s <= MIC_STATE_LAST →
  (forced c = false → is_command_allowed s c = true) →
  enter_state c s = s ∨ card_edge c s (enter_state c s).
Proof.
  intros [H1 H2] Hs. unfold MIC_CMD_NONE in *.
  destruct (command_cases c ltac:(lia)) as [->|Hc]; [lia|].
  destruct_or?; subst; intros Ha; try (left; reflexivity); right; try (constructor; by auto);
    specialize (Ha eq_refl); destruct (state_cases s Hs); destruct_or?; subst; try done;
    constructor; auto; unfold stable, MIC_STATE_SHUTDOWN; lia.
Qed.

(** A command's target is reached only from its temporal state. *)
Lemma target_edge c s : valid c →
  (temporal_state (command_entry c) ≠ MIC_STATE_UNKNOWN →
     s = temporal_state (command_entry c)) →
  card_edge c s (target_state (command_entry c)).
Proof.
  intros [H1 H2] Hs. unfold MIC_CMD_NONE in *.
  destruct (command_cases c ltac:(lia)) as [->|Hc]; [lia|].
  destruct_or?; subst; try apply edge_error; rewrite Hs by done;
    constructor; unfold MIC_CMD_RESET, MIC_CMD_RESET_FORCE_WARM, MIC_CMD_SHUTDOWN,
      MIC_CMD_SHUTDOWN_FORCE; lia.
Qed.

(** C13: The card state only moves along the edges of the documented automaton,
    labelled by the command in progress: booting starts only from ready, a
    command requested by the card only from online, an unforced command only from
    a state at rest that allows it, each command's target is entered only from
    its own temporal state, and online only after the card has reported it. *)
Theorem cosm_state_automaton s s' : reachable s → step s s' →
  (state (dev s') = state (dev s) ∨
   valid (id (current (dev s))) ∧
   card_edge (id (current (dev s))) (state (dev s)) (state (dev s'))) ∧
  (state (dev s') = MIC_STATE_ONLINE → state (dev s) ≠ MIC_STATE_ONLINE →
     received_online (current (dev s)) = true).
Proof.
  intros HR Hstep. apply reachable_inv in HR. revert HR.
  destruct Hstep; intros I; cbn; try (split; [by left|by intros; exfalso; auto]).
  - destruct (guards_cases _ _ _ _ H1) as [(?&?&->)|(?&->&?)]; (split; [by left|done]).
  - destruct (guards_cases _ _ _ _ H1) as [(?&?&->)|(?&->&?)]; (split; [by left|done]).
  - pose proof (inv_busy _ I ltac:(done)) as Hv. pose proof (inv_queued _ I eq_refl) as Ha.
    pose proof (inv_state _ I) as Hr. cbn in *.
    destruct (flow_start_spec _ _ _ _ _ Hv (inv_lock _ I) H0)
      as [(_ & Hs & _)|(st & t & m & _ & Hs & _)]; rewrite Hs.
    + split; [right; split; [done|apply edge_error]|done].
    + destruct (enter_edge _ _ Hv Hr Ha) as [-> |He]; [split; [by left|done]|].
      split; [by right|]. intros Hon _. exfalso. revert Hon. inversion He; done.
  - pose proof (inv_busy _ I ltac:(done)) as Hv.
    pose proof (inv_polling _ I _ _ _ _ eq_refl) as [Hid Ht]. cbn in *. subst c.
    destruct (flow_poll_spec _ _ _ _ _ _ _ _ _ Hv H0)
      as [(_ & Hs & _)|[(_ & (Hs & _) & Hon)|[(_ & _ & Hs & _)|(m' & _ & _ & Hs & _)]]]; rewrite Hs.
    + split; [right; split; [done|apply edge_error]|done].
    + split; [right; split; [done|by apply target_edge]|]. intros Ho _.
      apply Hon. by destruct (command_table _ Hv) as (_&_&_&_&?); auto.
    + split; [by left|done].
    + split; [by left|done].
Qed.

(** C20: In every interleaving of command requests, the work item, card messages
    and configuration writes: the state indexes the state table; with no work
    queued and no request in progress no command is current and the card is at
    rest; queued or running work always has a command with a completion function,
    the one it was started for, and the card is in its temporal state; an abort is
    pending only while a forced request waits for the work to end; and the module
    is locked exactly in the states other than ready, shutdown and error, as long
    as the kernel grants the module reference. *)
Theorem cosm_device_invariant s : reachable s →
  0 <= state (dev s) <= MIC_STATE_LAST ∧
  (wk s = WIdle → rq s = RNone →
     id (current (dev s)) = MIC_CMD_NONE ∧ stable (state (dev s))) ∧
  (wk s ≠ WIdle → is_Some (complete (command_entry (id (current (dev s)))))) ∧
  (∀ c st t m, wk s = WPolling c st t m → c = id (current (dev s)) ∧
     (temporal_state (command_entry c) ≠ MIC_STATE_UNKNOWN →
        state (dev s) = temporal_state (command_entry c))) ∧
  (abort (current (dev s)) = true → ∃ c, rq s = RCancelling c ∧ forced c = true) ∧
  (is_module_locked (dev s) = true → unlocked_state (state (dev s)) = false) ∧
  ((∀ w, fst (try_module_get w) = true) →
     unlocked_state (state (dev s)) = false → is_module_locked (dev s) = true).
Proof.
  intros HR. apply reachable_inv in HR. destruct HR as [I1 [I2 I2'] I3 I4 I5 I6 I7 I8].
  split; [done|]. split; [|split; [|split; [|split; [|split]]]]; auto.
  - intros Hk Hr. apply I3; [done|]. rewrite Hr. done.
  - intros Hk. by destruct (command_table _ (I4 Hk)).
Qed.

(** A forced request is served at the next poll of the running command: with
    the abort flag set, one iteration always ends the work item, after which
    [cancel_work_sync] returns and the forced command is queued. *)
Theorem cosm_abort_prompt d w c0 st t m c : 
  reachable (Sys d w (WPolling c0 st t m) RNone) →
  0 <= c <= MIC_CMD_LAST → forced c = true →
  ∃ d1 d2 w2, set_command_guards d c = (None, d1) ∧
    flow_state (flow_poll d1 w c0 st t m) = Some (d2, w2, WIdle) ∧
    reachable (Sys (set_command_exec d2 c) w2 WQueued (RWaiting c)) ∧
    id (current (set_command_exec d2 c)) = c ∧
    abort (current (set_command_exec d2 c)) = false.
Proof.
  intros HR Hc Hf. exists (set_abort d true).
  assert (set_command_guards d c = (None, set_abort d true)) as Hg.
  { unfold set_command_guards. unfold forced in Hf. by rewrite Hf. }
  assert (reachable (Sys (set_abort d true) w (WPolling c0 st t m) (RCancelling c))) as HR1.
  { eapply reach_step; [exact HR|]. by apply step_request. }
  pose proof (reachable_inv _ HR1) as I. pose proof (inv_busy _ I ltac:(done)) as Hv.
  pose proof (inv_polling _ I _ _ _ _ eq_refl) as [Hid _]. cbn in Hv, Hid. subst c0.
  destruct (command_table _ Hv) as (Hcmp & _).
  destruct (flow_state (flow_poll (set_abort d true) w (id (current d)) st t m))
    as [[[d2 w2] k2]|] eqn:E.
  2:{ exfalso. revert E. unfold flow_poll. destruct Hcmp as [f ->].
      destruct (f _ _ _ _) as [[[rc m1] d1] w1]. unfold flow_exit, command_exit.
      repeat case_match; done. }
  assert (k2 = WIdle) as ->.
  { by destruct (flow_poll_spec _ _ _ _ _ _ _ _ _ Hv E)
      as [[-> _]|[[-> _]|[[-> _]|(?&?&?&?)]]]. }
  exists d2, w2. split; [done|]. split; [done|]. split; [|done].
  eapply reach_step; [eapply reach_step; [exact HR1|by apply step_poll]|].
  apply step_exec. by left.
Qed.

(** ** The work item ends within its timeout *)

(** What the kernel and the hardware operations promise about time, in ticks
    since boot: a call takes between no time and [call_ticks], [msleep] sleeps at
    least its argument, and the conversion of whole seconds rounds down. *)
Definition call_ticks : Z := 2 ^ 40.
Definition takes_time (w w' : W) : Prop := clock w <= clock w' <= clock w + call_ticks.

Class CosmTime : Prop := {
  msecs_range ms : 0 <= msecs_to_jiffies ms < 2 ^ 62;
  second_positive : 0 < msecs_to_jiffies 1000;
  seconds_linear k : 0 <= k <= cosm_max_state_timeout →
    msecs_to_jiffies (k * 1000) <= k * msecs_to_jiffies 1000;
  msleep_advances ms w : clock w + msecs_to_jiffies ms <= clock (snd (msleep ms w));
  msleep_time ms w : takes_time w (snd (msleep ms w));
  boot_firmware_time d w : takes_time w (snd (boot_firmware hw_ops d w));
  boot_time d w : takes_time w (snd (boot hw_ops d w));
  reset_time d w : takes_time w (snd (reset hw_ops d w));
  reset_warm_time d w : takes_time w (snd (reset_warm hw_ops d w));
  shutdown_time d w : takes_time w (snd (shutdown hw_ops d w));
  detect_time d w : takes_time w (snd (detect_state hw_ops d w));
  cleanup_time d w : takes_time w (cleanup hw_ops d w);
  update_time d w : takes_time w (snd (dev_update hw_ops d w));
  send_time e m w : takes_time w (snd (scif_send e m w));
  module_get_time w : takes_time w (snd (try_module_get w));
}.

Context `{!CosmTime}.

Lemma complete_time c f d w t m rc m' d' w' : valid c →
  complete (command_entry c) = Some f → f d w t m = (rc, m', d', w') →
  clock w <= clock w' <= clock w + 3 * call_ticks.
Proof.
  intros [H1 H2]. unfold MIC_CMD_NONE in *.
  destruct (command_cases c ltac:(lia)) as [->|Hc]; [lia|].
  unfold call_ticks in *. pose proof (detect_time d w) as Hd.
  destruct (detect_state hw_ops d w) as [s w1] eqn:E1. cbn in Hd.
  pose proof (cleanup_time d w1) as Hcl. pose proof (update_time d (cleanup hw_ops d w1)) as Hu.
  unfold takes_time, call_ticks in *.
  destruct_or?; subst; intros [= <-];
    unfold cosm_boot_firmware_complete, cosm_boot_complete, cosm_reset_complete,
      cosm_reset_from_card_complete, cosm_shutdown_complete, cosm_handle_panic_complete,
      cosm_handle_hang_complete, cosm_stop; rewrite ?E1;
    repeat (case_match; simplify_eq); intros; simplify_eq; cbn in *; lia.
Qed.

Definition flow_good (c : Z) (r : flow_result (W:=W)) : Prop :=
  match r with
  | FlowDone d' _ =>
      id (current d') = MIC_CMD_NONE ∧
      (state d' = MIC_STATE_ERROR ∨ state d' = target_state (command_entry c))
  | FlowAborted d' _ => abort (current d') = true
  | FlowLoop _ _ _ _ _ _ | FlowOops => False
  end.

Lemma flow_exit_good c d w s m :
  0 <= s <= MIC_STATE_LAST → s = MIC_STATE_ERROR ∨ s = target_state (command_entry c) →
  flow_good c (flow_exit d w s m).
Proof.
  intros Hr Hs. destruct (flow_state (flow_exit d w s m)) as [[[d' w'] k']|] eqn:E.
  - destruct (flow_exit_finished _ _ _ _ _ _ _ Hr E) as (_ & Hst & Hi & _).
    revert E. unfold flow_exit. destruct (command_exit d w s m). cbn. intros [= -> -> _].
    by rewrite Hst.
  - unfold flow_exit in E. by destruct (command_exit d w s m).
Qed.

Lemma flow_poll_good d w c st t m : valid c →
  match flow_poll d w c st t m with
  | FlowLoop d' w' c' st' t' m' =>
      c' = c ∧ t' = t ∧ clock w <= clock w' <= clock w + 3 * call_ticks ∧ time_is_before_jiffies t w' = false
  | r => flow_good c r
  end.
Proof.
  intros Hv. destruct (command_table c Hv) as ([f Hf] & Hst & _). unfold flow_poll. rewrite Hf.
  destruct (f d w _ m) as [[[rc m1] d1] w1] eqn:E1.
  pose proof (complete_time _ _ _ _ _ _ _ _ _ _ Hv Hf E1) as Ht.
  assert (∀ s m, 0 <= s <= MIC_STATE_LAST → s = MIC_STATE_ERROR ∨ s = target_state (command_entry c) →
    match flow_exit d1 w1 s m with
    | FlowLoop d' w' c' st' t' m' =>
        c' = c ∧ t' = t ∧ clock w <= clock w' <= clock w + 3 * call_ticks ∧ time_is_before_jiffies t w' = false
    | r => flow_good c r end) as Hx.
  { intros s m' Hr Hs. pose proof (flow_exit_good c d1 w1 s m' Hr Hs) as Hg.
    by destruct (flow_exit d1 w1 s m'). }
  pose proof error_in_range.
  destruct (rc =? 0); [apply Hx; auto using stable_in_range|].
  destruct (rc =? - EINTR); [by apply Hx; auto|].
  destruct (time_is_before_jiffies t w1) eqn:Hb; [by apply Hx; auto|].
  destruct (abort (current d1)) eqn:Ha; [done|].
  destruct (rc =? - EAGAIN); [done|]. by apply Hx; auto.
Qed.

(** The comparison of the wrapped counters is that of the clock, as long as it is
    not further than half the counter from the timeout. *)
Lemma before_jiffies_spec T w : - 2 ^ 63 <= T - clock w < 2 ^ 63 →
  time_is_before_jiffies (u64 T) w = (T <? clock w).
Proof.
  intros HT. unfold time_is_before_jiffies, jiffies. rewrite swrap_sub_wrap, s64_small by done. lia.
Qed.

(** The clock after [fuel - 1] sleeps is past the timeout. *)
Lemma flow_loop_ends fuel : ∀ d w c st T m, valid c →
  - (5 * call_ticks) <= T - clock w < 2 ^ 62 →
  T - clock w < (Z.of_nat fuel - 1) * msecs_to_jiffies 1000 →
  (0 < fuel)%nat →
  ∃ r, flow_loop fuel (FlowLoop d w c st (u64 T) m) = Some r ∧ flow_good c r.
Proof.
  induction fuel as [|fuel IH]; intros d w c st T m Hv HT Hlt Hf; [lia|]. cbn.
  pose proof (flow_poll_good d w c st (u64 T) m Hv) as Hg.
  destruct (flow_poll d w c st (u64 T) m) as [d' w'|d' w'|d' w' c' st' t' m'|]; eauto.
  destruct Hg as (-> & -> & Hj & Hb).
  pose proof (msleep_advances cosm_timeout_interval w') as Hm.
  pose proof (msleep_time cosm_timeout_interval w') as Hm2.
  destruct (msleep cosm_timeout_interval w') as [i w2]. unfold takes_time, call_ticks in *. cbn in Hm, Hm2.
  rewrite before_jiffies_spec in Hb by lia. unfold cosm_timeout_interval in *.
  apply IH; [done|lia..| ]. destruct fuel; lia.
Qed.

Lemma invoke_time c f d w rc m' w' : valid c →
  invoke (command_entry c) = Some f → f d w None = (rc, m', w') →
  clock w <= clock w' <= clock w + 4 * call_ticks.
Proof.
  intros [H1 H2]. unfold MIC_CMD_NONE in *.
  destruct (command_cases c ltac:(lia)) as [->|Hc]; [lia|].
  destruct_or?; subst; intros [= <-];
    unfold cosm_boot_firmware, cosm_boot, cosm_reset, cosm_reset_force, cosm_reset_force_warm,
      cosm_shutdown, cosm_shutdown_force, request_card, cosm_stop.
  all: unfold call_ticks; repeat (match goal with
       | |- context [boot_firmware hw_ops ?d ?w] =>
           pose proof (boot_firmware_time d w); destruct (boot_firmware hw_ops d w)
       | |- context [boot hw_ops ?d ?w] => pose proof (boot_time d w); destruct (boot hw_ops d w)
       | |- context [detect_state hw_ops ?d ?w] =>
           pose proof (detect_time d w); destruct (detect_state hw_ops d w)
       | |- context [scif_send ?e ?m ?w] => pose proof (send_time e m w); destruct (scif_send e m w)
       | |- context [reset_warm hw_ops ?d (cleanup hw_ops ?d ?w)] =>
           pose proof (reset_warm_time d (cleanup hw_ops d w)); pose proof (cleanup_time d w);
           destruct (reset_warm hw_ops d (cleanup hw_ops d w))
       | |- context [reset hw_ops ?d (cleanup hw_ops ?d ?w)] =>
           pose proof (reset_time d (cleanup hw_ops d w)); pose proof (cleanup_time d w);
           destruct (reset hw_ops d (cleanup hw_ops d w))
       | |- context [shutdown hw_ops ?d (cleanup hw_ops ?d ?w)] =>
           pose proof (shutdown_time d (cleanup hw_ops d w)); pose proof (cleanup_time d w);
           destruct (shutdown hw_ops d (cleanup hw_ops d w))
       | |- context [if ?b then _ else _] => destruct b
       | |- context [match epd ?d with _ => _ end] => destruct (epd d)
       end; cbn in *); intros; simplify_eq; unfold takes_time, call_ticks in *; lia.
Qed.

Lemma enter_time d w c : valid c →
  takes_time w (snd (if negb (temporal_state (command_entry c) =? MIC_STATE_UNKNOWN)
     then cosm_switch_to_state d w (temporal_state (command_entry c)) None else (d, w))).
Proof.
  intros Hv. unfold takes_time, call_ticks. destruct (negb _); [|cbn; lia].
  unfold cosm_switch_to_state, cosm_update_module_lock, cosm_lock_module.
  pose proof (module_get_time w). unfold takes_time, call_ticks in *.
  repeat (case_match; simplify_eq; cbn in *); lia.
Qed.

Lemma command_timeout_range d (cmd : cosm_command (W:=W)) :
  (∀ f, get_timeout cmd = Some f → 0 <= f d) → 0 < command_timeout d cmd <= cosm_max_state_timeout.
Proof.
  intros Hf. unfold command_timeout, cosm_max_state_timeout.
  destruct (get_timeout cmd) as [f|]; [specialize (Hf f eq_refl)|]; [|cbn; lia].
  destruct ((f d =? 0) || _) eqn:E; [lia|]. apply orb_false_iff in E. lia.
Qed.

Lemma get_timeout_nonneg d c f : valid c →
  in_width 32 (boot_timeout (config d)) → in_width 32 (shutdown_timeout (config d)) →
  get_timeout (command_entry c) = Some f → 0 <= f d.
Proof.
  intros [H1 H2] [Hb _] [Hs _]. unfold MIC_CMD_NONE in *.
  destruct (command_cases c ltac:(lia)) as [->|Hc]; [lia|].
  destruct_or?; subst; intros [= <-];
    unfold cosm_boot_firmware_timeout, cosm_boot_timeout, cosm_reset_timeout, cosm_shutdown_timeout;
    try done; apply (wrap_range 32); lia.
Qed.

(** C24: The work item always ends: with the timeout of its command in seconds
    (never more than three minutes), [timeout + 2] polls are enough, whatever the
    hardware answers.  It then has switched to the command's target state or to
    error with no command current, or was told to abort. *)
Theorem cosm_state_flow_terminates d w :
  valid (id (current d)) →
  in_width 32 (boot_timeout (config d)) → in_width 32 (shutdown_timeout (config d)) →
  let k := command_timeout d (command_entry (id (current d))) in
  k <= cosm_max_state_timeout ∧
  ∃ r, cosm_state_flow (Z.to_nat (k + 2)) d w = Some r ∧ flow_good (id (current d)) r.
Proof.
  intros Hv Hb Hs k. unfold cosm_state_flow, flow_start. set (c := id (current d)) in *.
  change (command_timeout d (command_entry c)) with k.
  destruct (command_timeout_range d (command_entry c)) as [Hk0 Hk1].
  { intros f Hf. by eapply get_timeout_nonneg. }
  fold k in Hk0, Hk1. split; [done|]. unfold cosm_max_state_timeout in Hk1.
  assert (wrap 32 (k * 1000) = k * 1000) as -> by (apply wrap_small; unfold in_width; lia).
  pose proof (msecs_range (k * 1000)) as Hm.
  pose proof (seconds_linear k ltac:(unfold cosm_max_state_timeout; lia)) as Hl.
  pose proof second_positive as Hp.
  set (T := clock w + msecs_to_jiffies (k * 1000)).
  assert (u64 (jiffies w + msecs_to_jiffies (k * 1000)) = u64 T) as -> by apply wrap_idemp_add.
  pose proof (enter_time d w c Hv) as He.
  destruct (if negb _ then _ else _) as [d1 w1]. unfold takes_time in He. cbn [snd] in He.
  assert (∀ w' m, clock w <= clock w' <= clock w + 5 * call_ticks →
    ∃ r, flow_loop (Z.to_nat (k + 2)) (FlowLoop d1 w' c (jiffies w) (u64 T) m) = Some r ∧
         flow_good c r) as Hloop.
  { intros w' m Hj'. apply flow_loop_ends; [done| | |lia]; subst T; unfold call_ticks in *; [lia|].
    rewrite Z2Nat.id by lia. lia. }
  destruct (invoke (command_entry c)) as [f|] eqn:Hf; [|apply Hloop; unfold call_ticks in *; lia].
  destruct (f d1 w1 None) as [[rc m] w2] eqn:E.
  pose proof (invoke_time _ _ _ _ _ _ _ Hv Hf E) as Ht.
  destruct (negb (rc =? 0)).
  - pose proof (flow_exit_good c d1 w2 MIC_STATE_ERROR m error_in_range (or_introl eq_refl)) as Hg.
    exists (flow_exit d1 w2 MIC_STATE_ERROR m). split; [|done].
    replace (Z.to_nat (k + 2)) with (S (Z.to_nat (k + 1))) by lia. cbn.
    by destruct (flow_exit d1 w2 MIC_STATE_ERROR m).
  - apply Hloop. unfold call_ticks in *. lia.
Qed.

End Flow.

(** ** Requests *)

Section Requests.
Context {W : Type} `{CosmEnv W}.

(** The unforced commands an idle card accepts, state by state. *)
Definition accepts (s c : Z) : Prop :=
  (c = MIC_CMD_BOOT ∨ c = MIC_CMD_BOOT_FIRMWARE) ∧ s = MIC_STATE_READY ∨
  c = MIC_CMD_RESET ∧
    (s = MIC_STATE_UNKNOWN ∨ s = MIC_STATE_ERROR ∨ s = MIC_STATE_ONLINE ∨
     s = MIC_STATE_ONLINE_FIRMWARE ∨ s = MIC_STATE_SHUTDOWN) ∨
  (c = MIC_CMD_RESET_FROM_CARD ∨ c = MIC_CMD_SHUTDOWN_FROM_CARD) ∧ s = MIC_STATE_ONLINE ∨
  c = MIC_CMD_SHUTDOWN ∧ (s = MIC_STATE_READY ∨ s = MIC_STATE_ONLINE).

(** The table and the check for an executed command, over all states. *)
Lemma idle_table s c : 0 <= s <= MIC_STATE_LAST → 0 <= c <= MIC_CMD_LAST → forced c = false →
  (accepts s c ↔ negb (target_state (command_entry c) =? s) && is_command_allowed s c = true).
Proof.
  intros Hs Hc.
  destruct (state_cases s Hs) as [|]; destruct_or?; subst;
    destruct (command_cases c Hc) as [|]; destruct_or?; subst; vm_compute; intros Hf; try done;
    split; try done; intuition (try done; auto 10).
Qed.

Local Arguments command_entry : simpl never.
Local Arguments is_command_allowed : simpl never.

(** An unforced request on an idle card is accepted exactly in the states of
    [accepts] (so a reset of a ready card is refused as already done although the
    state table allows it), is refused with -EALREADY when the card is in the
    target state and with -EPERM otherwise; while a command runs it gets
    -EALREADY or -EBUSY; a refusal changes nothing; a forced command is always
    accepted and asks the running one to abort. *)
Theorem cosm_set_command_guards d c :
  0 <= state d <= MIC_STATE_LAST → 0 <= c <= MIC_CMD_LAST →
  let busy := negb (id (current d) =? MIC_CMD_NONE) in
  (forced c = true → set_command_guards d c = (None, set_abort d true)) ∧
  (forced c = false →
     snd (set_command_guards d c) = d ∧
     (busy = false → (fst (set_command_guards d c) = None ↔ accepts (state d) c)) ∧
     (busy = false → ¬ accepts (state d) c →
        fst (set_command_guards d c) =
          Some (if target_state (command_entry c) =? state d then - EALREADY else - EPERM)) ∧
     (busy = true →
        fst (set_command_guards d c) =
          Some (if target_state (command_entry c) =?
                   target_state (command_entry (id (current d))) then - EALREADY else - EBUSY))).
Proof.
  intros Hs Hc busy. unfold set_command_guards, forced.
  split; intros Hf; rewrite Hf; [done|].
  pose proof (idle_table _ _ Hs Hc Hf) as Hacc. unfold is_command_already_executed.
  unfold busy. destruct (id (current d) =? MIC_CMD_NONE); cbn.
  - destruct (target_state (command_entry c) =? state d); cbn in *;
      [|destruct (is_command_allowed (state d) c); cbn in *];
      repeat split; try done; try (intros; exfalso; tauto); try tauto;
      intros Ha; by apply Hacc in Ha.
  - destruct (target_state (command_entry c) =? target_state (command_entry (id (current d))));
      cbn; repeat split; done.
Qed.

Local Arguments String.eqb : simpl never.

(** [sysfs_streq], as a relation. *)
Lemma sysfs_streq_spec s1 s2 :
  sysfs_streq s1 s2 = true ↔ s1 = s2 ∨ s1 = s2 +:+ newline ∨ s2 = s1 +:+ newline.
Proof.
  revert s2. induction s1 as [|c1 s1 IH]; intros [|c2 s2]; cbn; try rewrite String.eqb_eq.
  - intuition.
  - cbn. intuition (try discriminate; auto).
  - cbn. intuition (try discriminate; auto).
  - change (String c1 s1 +:+ newline) with (String c1 (s1 +:+ newline)).
    change (String c2 s2 +:+ newline) with (String c2 (s2 +:+ newline)).
    destruct (Ascii.eqb_spec c1 c2) as [->|]; [rewrite IH|]; intuition congruence.
Qed.

Lemma get_command_loop_spec str (cmds : list (cosm_command (W:=W))) i c :
  get_command_loop str cmds i = Some c →
  ∃ cmd, i <= c ∧ nth_error cmds (Z.to_nat (c - i)) = Some cmd ∧
    has_flag cmd MIC_CMD_FLAG_HIDDEN = false ∧ sysfs_streq str (c_string cmd) = true.
Proof.
  revert i. induction cmds as [|cmd cmds IH]; intros i; cbn; [done|].
  assert (get_command_loop str cmds (i + 1) = Some c → ∃ cmd0, i <= c ∧
    nth_error (cmd :: cmds) (Z.to_nat (c - i)) = Some cmd0 ∧
    has_flag cmd0 MIC_CMD_FLAG_HIDDEN = false ∧ sysfs_streq str (c_string cmd0) = true) as Hrec.
  { intros E. destruct (IH _ E) as (cmd0 & ? & Hn & ? & ?). exists cmd0.
    replace (Z.to_nat (c - i)) with (S (Z.to_nat (c - (i + 1)))) by lia. repeat split; auto with lia. }
  destruct (has_flag cmd MIC_CMD_FLAG_HIDDEN) eqn:Hh; [done|].
  destruct (sysfs_streq str (c_string cmd)) eqn:He; [|done].
  intros [= ->]. exists cmd. rewrite Z.sub_diag. repeat split; auto with lia.
Qed.

Fixpoint has_newline (s : string) : bool :=
  match s with
  | ""%string => false
  | String c s => Ascii.eqb c (Ascii.ascii_of_nat 10) || has_newline s
  end.

Lemma has_newline_app s : has_newline (s +:+ newline) = true.
Proof.
  induction s as [|a s IH]; [done|]. change (String a s +:+ newline) with (String a (s +:+ newline)).
  cbn [has_newline]. by rewrite IH, orb_true_r.
Qed.

Lemma names_have_no_newline c : valid c → has_newline (c_string (command_entry c)) = false.
Proof.
  intros [H1 H2]. unfold MIC_CMD_NONE in *.
  destruct (command_cases c ltac:(lia)) as [->|Hc]; [lia|]. by destruct_or?; subst.
Qed.

Lemma get_command_id_found str c : cosm_get_command_id str = (0, Some c) →
  valid c ∧ has_flag (command_entry c) MIC_CMD_FLAG_HIDDEN = false ∧
  sysfs_streq str (c_string (command_entry c)) = true.
Proof.
  unfold cosm_get_command_id. destruct (get_command_loop str cosm_commands 0) as [c'|] eqn:E; [|done].
  intros [= ->]. destruct (get_command_loop_spec _ _ _ _ E) as (cmd & Hc & Hn & Hh & Hs).
  rewrite Z.sub_0_r in Hn.
  assert (command_entry c = cmd) as Hcmd.
  { unfold command_entry. by apply nth_error_nth. }
  assert (Z.to_nat c < 12)%nat as Hlt.
  { change 12%nat with (length (cosm_commands (W:=W))). apply nth_error_Some. by rewrite Hn. }
  rewrite Hcmd. split; [|done]. split; unfold MIC_CMD_NONE, MIC_CMD_LAST, MIC_CMD_HANDLE_HANG; [|lia].
  enough (c ≠ 0) by lia. intros ->. by rewrite <- Hcmd in Hh.
Qed.

(** Command names: a written string is accepted exactly when it is the name of
    a visible command, with or without a final newline, and then denotes that
    command; every other string, names of hidden commands included, is -EINVAL. *)
Theorem cosm_command_names str :
  (∀ c, valid c → has_flag (command_entry c) MIC_CMD_FLAG_HIDDEN = false →
     (str = c_string (command_entry c) ∨ str = c_string (command_entry c) +:+ newline ↔
      cosm_get_command_id str = (0, Some c))) ∧
  (∀ c, cosm_get_command_id str = (0, Some c) →
     valid c ∧ has_flag (command_entry c) MIC_CMD_FLAG_HIDDEN = false) ∧
  ((∀ c, cosm_get_command_id str ≠ (0, Some c)) → cosm_get_command_id str = (- EINVAL, None)).
Proof.
  split; [|split].
  - intros c Hv Hh. split.
    + revert Hh. destruct Hv as [H1 H2]. unfold MIC_CMD_NONE in *.
      destruct (command_cases c ltac:(lia)) as [->|Hc]; [lia|].
      by destruct_or?; subst; intros Hh; try done; intros [-> | ->].
    + intros E. destruct (get_command_id_found _ _ E) as (_ & _ & Hs).
      apply sysfs_streq_spec in Hs as [?|[?|Hn]]; [by left|by right|].
      pose proof (names_have_no_newline c Hv) as Hno. by rewrite Hn, has_newline_app in Hno.
  - intros c E. destruct (get_command_id_found _ _ E) as (? & ? & _). done.
  - unfold cosm_get_command_id. destruct (get_command_loop str cosm_commands 0) as [c|]; [|done].
    intros Hn. by destruct (Hn c).
Qed.

End Requests.
(** ** A concrete card

    The world is the clock and the state the hardware would report; boots, resets
    and shutdowns succeed at once, and a booted card reports itself online. *)
Definition sim_ops : cosm_hw_ops (Z * Z) := {|
  boot_firmware := λ _ w, (0, (fst w, MIC_STATE_ONLINE_FIRMWARE));
  boot := λ _ w, (0, (fst w, MIC_STATE_ONLINE));
  reset := λ _ w, (0, (fst w, MIC_STATE_READY));
  reset_warm := λ _ w, (0, (fst w, MIC_STATE_READY));
  shutdown := λ _ w, (0, (fst w, MIC_STATE_SHUTDOWN));
  reset_timeout := 60;
  boot_firmware_timeout := 120;
  detect_state := λ _ w, (snd w, w);
  cleanup := λ _ w, w;
  dev_update := λ _ w, (0, w);
  max_supported_address := λ _ _, 2 ^ 46;
|}.

Definition sim_env : CosmEnv (Z * Z) := {|
  hw_ops := sim_ops;
  scif_send := λ _ _ w, (1, w);
  try_module_get := λ w, (true, w);
  intel_iommu_enabled := false;
  max_system_address := 2 ^ 36;
  clock := fst;
  msecs_to_jiffies := λ ms, u32 ms / 4;
  jiffies_to_msecs := λ j, u32 (j * 4);
  msleep := λ ms w, (Interference (snd w =? MIC_STATE_ONLINE) false, (fst w + u32 ms / 4, snd w));
|}.

Lemma sim_time : @CosmTime _ sim_env.
Proof.
  assert (∀ ms, 0 <= wrap 32 ms / 4 < 2 ^ 30) as Hms.
  { intros ms. pose proof (wrap_range 32 ms ltac:(lia)) as Hr. unfold in_width in Hr.
    split; [apply Z.div_pos; lia|apply Z.div_lt_upper_bound; lia]. }
  split; unfold takes_time, call_ticks; cbn; intros; try lia.
  - specialize (Hms ms). lia.
  - reflexivity.
  - unfold cosm_max_state_timeout in *. rewrite (wrap_small 32) by (unfold in_width; lia).
    replace (k * 1000) with (k * 250 * 4) by lia. rewrite Z.div_mul by lia.
    change (wrap 32 1000 / 4) with 250. lia.
  - specialize (Hms ms). lia.
Qed.

Definition sim_dev (s c : Z) : cosm_device :=
  Device (Config None None None None MIC_CMD_NONE COSM_MIN_BOOT_TIMEOUT COSM_MIN_SHUTDOWN_TIMEOUT)
    true (Current c false false) 0 0 s s None None.

(** Booting a ready card ends online, after the first sleep. *)
Lemma cosm_state_flow_terminates_witness :
  option_map (λ r, match r with FlowDone d w => Some (state d, id (current d), fst w) | _ => None end)
    (@cosm_state_flow _ sim_env 92 (sim_dev MIC_STATE_READY MIC_CMD_BOOT) (1000, MIC_STATE_READY)) =
  Some (Some (MIC_STATE_ONLINE, MIC_CMD_NONE, 1250)) ∧
  ∃ r, @cosm_state_flow _ sim_env 92 (sim_dev MIC_STATE_READY MIC_CMD_BOOT) (1000, MIC_STATE_READY) =
         Some r ∧ @flow_good _ sim_env MIC_CMD_BOOT r.
Proof.
  split; [vm_compute; reflexivity|].
  destruct (@cosm_state_flow_terminates _ sim_env sim_time
    (sim_dev MIC_STATE_READY MIC_CMD_BOOT) (1000, MIC_STATE_READY)) as [_ Hr].
  - split; cbn; unfold MIC_CMD_NONE, MIC_CMD_BOOT, MIC_CMD_LAST, MIC_CMD_HANDLE_HANG; lia.
  - vm_compute; split; congruence.
  - vm_compute; split; congruence.
  - exact Hr.
Defined.

(** A run: the reset of the probe is requested, executed, and completes. *)
Definition sim_w : Z * Z := (0, MIC_STATE_READY).
Definition sim_d0 : cosm_device := @probed _ sim_env (sim_dev 0 0) sim_w.

Lemma sim_queued :
  @reachable _ sim_env (Sys (set_command_exec sim_d0 MIC_CMD_RESET) sim_w WQueued (RWaiting MIC_CMD_RESET)).
Proof.
  eapply reach_step; [eapply reach_step; [apply reach_init|]|].
  - apply (@step_request _ sim_env _ _ _ MIC_CMD_RESET); [|vm_compute; reflexivity].
    vm_compute; split; congruence.
  - apply step_exec. by left.
Qed.

Definition flow_dev (r : flow_result (W := Z * Z)) : cosm_device :=
  match r with FlowDone d _ | FlowAborted d _ | FlowLoop d _ _ _ _ _ => d | FlowOops => sim_d0 end.

Definition sim_d1 : cosm_device :=
  flow_dev (@flow_start _ sim_env (set_command_exec sim_d0 MIC_CMD_RESET) sim_w).

Lemma sim_polling :
  @reachable _ sim_env (Sys sim_d1 sim_w (WPolling MIC_CMD_RESET 0 30000 None) RNone).
Proof.
  eapply reach_step; [eapply reach_step; [apply sim_queued|apply step_start; vm_compute; reflexivity]|].
  apply step_return.
Qed.

Definition sim_d2 : cosm_device :=
  flow_dev (@flow_poll _ sim_env sim_d1 sim_w MIC_CMD_RESET 0 30000 None).

Lemma cosm_state_automaton_witness :
  state sim_d1 = MIC_STATE_RESETTING ∧ state sim_d2 = MIC_STATE_READY ∧
  card_edge MIC_CMD_RESET (state sim_d1) (state sim_d2).
Proof.
  split; [reflexivity|]. split; [reflexivity|].
  destruct (@cosm_state_automaton _ sim_env _ (Sys sim_d2 sim_w WIdle RNone) sim_polling)
    as [[E|[_ He]] _].
  - apply step_poll. vm_compute. reflexivity.
  - vm_compute in E. discriminate.
  - exact He.
Defined.

Lemma cosm_device_invariant_witness :
  state sim_d1 = temporal_state (@command_entry _ sim_env MIC_CMD_RESET) ∧
  is_module_locked sim_d1 = true.
Proof.
  destruct (@cosm_device_invariant _ sim_env _ sim_polling) as (_ & _ & _ & Hp & _ & _ & Hl).
  split.
  - apply (proj2 (Hp MIC_CMD_RESET 0 30000 None eq_refl)). vm_compute. congruence.
  - apply Hl; vm_compute; auto.
Defined.

Lemma cosm_abort_prompt_witness :
  ∃ d1 d2 w2, @set_command_guards _ sim_env sim_d1 MIC_CMD_SHUTDOWN_FORCE = (None, d1) ∧
    flow_state (@flow_poll _ sim_env d1 sim_w MIC_CMD_RESET 0 30000 None) = Some (d2, w2, WIdle).
Proof.
  destruct (@cosm_abort_prompt _ sim_env _ _ _ _ _ _ MIC_CMD_SHUTDOWN_FORCE sim_polling)
    as (d1 & d2 & w2 & Hg & Hp & _).
  - vm_compute; split; congruence.
  - reflexivity.
  - exists d1, d2, w2. split; [exact Hg|exact Hp].
Defined.

Lemma cosm_set_command_guards_witness :
  fst (@set_command_guards _ sim_env (sim_dev MIC_STATE_READY 0) MIC_CMD_BOOT) = None ∧
  fst (@set_command_guards _ sim_env (sim_dev MIC_STATE_READY 0) MIC_CMD_RESET) = Some (- EALREADY).
Proof.
  split.
  - apply (cosm_set_command_guards (sim_dev MIC_STATE_READY 0) MIC_CMD_BOOT);
      try (vm_compute; split; congruence); try reflexivity. left. auto.
  - apply (cosm_set_command_guards (sim_dev MIC_STATE_READY 0) MIC_CMD_RESET);
      try (vm_compute; split; congruence); try reflexivity. unfold accepts.
    vm_compute. intuition congruence.
Defined.

Lemma cosm_command_names_witness :
  @cosm_get_command_id _ sim_env ("reset_force" +:+ newline)%string = (0, Some MIC_CMD_RESET_FORCE) ∧
  @cosm_get_command_id _ sim_env "handle_panic" = (- EINVAL, None).
Proof.
  split; [|vm_compute; reflexivity].
  apply (proj1 (@cosm_command_names _ sim_env ("reset_force" +:+ newline)%string) MIC_CMD_RESET_FORCE).
  - split; reflexivity || (vm_compute; congruence).
  - reflexivity.
  - right. reflexivity.
Defined.

End CosmFlow.
