(* ===== verification/CosmSysfs.v ===== *)
(** * Coprocessor state management: the sysfs attributes

    Models [mpss4/mpss-modules/mic/cosm/cosm_sysfs.c]: the attributes of the
    [config] group (image paths, kernel command line, the command to execute when
    ready, the timeouts) and the attributes [state] and [state_msg].  A store gets
    the written bytes, a show gives the bytes of its page and their count.  The
    kernel's number parser is a parameter. *)
From S2P Require Import Prelude Cosm CosmFlow.
From Stdlib Require Import Ascii.
Local Open Scope Z_scope.
Import Cosm CosmFlow.

Module CosmSysfs.

(** ** Bytes and C strings *)

Definition NUL : ascii := ascii_of_nat 0.
Definition NL : ascii := ascii_of_nat 10.

(** The C string a buffer holds: its bytes before the first NUL. *)
Fixpoint cstring (l : list ascii) : list ascii :=
  match l with
  | [] => []
  | c :: l => if Ascii.eqb c NUL then [] else c :: cstring l
  end.

(** [strncpy]: the C string, padded with NULs to [n] bytes. *)
Fixpoint strncpy (n : nat) (l : list ascii) : list ascii :=
  match n with
  | O => []
  | S n =>
      match l with
      | [] => replicate (S n) NUL
      | c :: l => if Ascii.eqb c NUL then replicate (S n) NUL else c :: strncpy n l
      end
  end.

(** [scnprintf(buf, PAGE_SIZE, "%s\n", s)]: the bytes written, NUL excluded; their
    number is the result. *)
Definition scnprintf_line (s : list ascii) : list ascii := ztake (PAGE_SIZE - 1) (s ++ [NL]).

Fixpoint bytes (s : string) : list ascii :=
  match s with ""%string => [] | String c s => c :: bytes s end.

(** The configuration strings, as buffers. *)
Record config_strings := Strings {
  c_efi_image : option (list ascii);
  c_kernel_image : option (list ascii);
  c_kernel_cmdline : option (list ascii);
  c_initramfs_image : option (list ascii);
}.

(** ** Strings *)

Definition mic_sysfs_show_string (string : option (list ascii)) : Z * list ascii :=
  match string with
  | Some s => let out := scnprintf_line (cstring s) in (zlen out, out)
  | None => (0, [])
  end.

(** [alloc] is whether [kmalloc] succeeds; the byte [tmp[count]] is [junk] until
    written.  The new buffer replaces [*string] on success. *)
Definition mic_sysfs_store_string (alloc : bool) (junk : ascii) (string : option (list ascii))
    (buf : list ascii) (count : nat) : Z * option (list ascii) :=
  if negb alloc then (- ENOMEM, string)
  else
    let tmp := strncpy count buf ++ [junk] in
    let tmp := if Ascii.eqb (nth (count - 1) tmp NUL) NL
               then <[(count - 1)%nat := NUL]> tmp else <[count := NUL]> tmp in
    (Z.of_nat count, Some tmp).

Definition efi_image_show (c : config_strings) : Z * list ascii :=
  mic_sysfs_show_string (c_efi_image c).
Definition efi_image_store (alloc : bool) (junk : ascii) (c : config_strings)
    (buf : list ascii) (count : nat) : Z * config_strings :=
  let '(r, s) := mic_sysfs_store_string alloc junk (c_efi_image c) buf count in
  (r, Strings s (c_kernel_image c) (c_kernel_cmdline c) (c_initramfs_image c)).

Definition kernel_image_show (c : config_strings) : Z * list ascii :=
  mic_sysfs_show_string (c_kernel_image c).
Definition kernel_image_store (alloc : bool) (junk : ascii) (c : config_strings)
    (buf : list ascii) (count : nat) : Z * config_strings :=
  let '(r, s) := mic_sysfs_store_string alloc junk (c_kernel_image c) buf count in
  (r, Strings (c_efi_image c) s (c_kernel_cmdline c) (c_initramfs_image c)).

Definition kernel_cmdline_show (c : config_strings) : Z * list ascii :=
  mic_sysfs_show_string (c_kernel_cmdline c).
Definition kernel_cmdline_store (alloc : bool) (junk : ascii) (c : config_strings)
    (buf : list ascii) (count : nat) : Z * config_strings :=
  let '(r, s) := mic_sysfs_store_string alloc junk (c_kernel_cmdline c) buf count in
  (r, Strings (c_efi_image c) (c_kernel_image c) s (c_initramfs_image c)).

Definition initramfs_image_show (c : config_strings) : Z * list ascii :=
  mic_sysfs_show_string (c_initramfs_image c).
Definition initramfs_image_store (alloc : bool) (junk : ascii) (c : config_strings)
    (buf : list ascii) (count : nat) : Z * config_strings :=
  let '(r, s) := mic_sysfs_store_string alloc junk (c_initramfs_image c) buf count in
  (r, Strings (c_efi_image c) (c_kernel_image c) (c_kernel_cmdline c) s).

(** ** The other attributes *)

Section Attributes.
Context {W : Type} `{CosmEnv W}.

(** [kstrtouint(buf, 10, &v)]: a value or a negative code. *)
Variable kstrtouint : string → Z + Z.
(** [scnprintf] of an unsigned value. *)
Variable show_uint : Z → list ascii.

Definition execute_on_ready_show (cdev : cosm_device) : Z * list ascii :=
  let out := scnprintf_line (bytes (c_string (command_entry (execute_on_ready (config cdev))))) in
  (zlen out, out).

Definition execute_on_ready_store (cdev : cosm_device) (buf : string) (count : Z)
  : Z * cosm_device :=
  match cosm_get_command_id buf with
  | (rc, Some command) =>
      if rc <? 0 then (rc, cdev) else (count, set_execute_on_ready cdev command)
  | (rc, None) => (rc, cdev)
  end.

Definition set_timeouts (cdev : cosm_device) (b s : Z) : cosm_device :=
  let f := config cdev in
  set_config cdev (Config (efi_image f) (kernel_image f) (kernel_cmdline f) (initramfs_image f)
    (execute_on_ready f) b s).

Definition boot_timeout_show (cdev : cosm_device) : Z * list ascii :=
  let out := show_uint (boot_timeout (config cdev)) in (zlen out, out).

Definition boot_timeout_store (cdev : cosm_device) (buf : string) (count : Z) : Z * cosm_device :=
  match kstrtouint buf with
  | inr ret => (ret, cdev)
  | inl timeout =>
      if timeout <? COSM_MIN_BOOT_TIMEOUT then (- EINVAL, cdev)
      else (count, set_timeouts cdev timeout (shutdown_timeout (config cdev)))
  end.

Definition shutdown_timeout_show (cdev : cosm_device) : Z * list ascii :=
  let out := show_uint (shutdown_timeout (config cdev)) in (zlen out, out).

Definition shutdown_timeout_store (cdev : cosm_device) (buf : string) (count : Z)
  : Z * cosm_device :=
  match kstrtouint buf with
  | inr ret => (ret, cdev)
  | inl timeout =>
      if timeout <? COSM_MIN_SHUTDOWN_TIMEOUT then (- EINVAL, cdev)
      else (count, set_timeouts cdev (boot_timeout (config cdev)) timeout)
  end.

Definition state_show (cdev : cosm_device) : Z * list ascii :=
  let s := state cdev in
  if MIC_STATE_LAST <? s then (- EINVAL, [])
  else let out := scnprintf_line (bytes (s_string (state_entry s))) in (zlen out, out).

(** The request itself is [set_command], whose steps are those of [CosmFlow]. *)
Definition state_store (set_command : Z → cosm_device → Z * cosm_device)
    (cdev : cosm_device) (buf : string) (count : Z) : Z * cosm_device :=
  match cosm_get_command_id buf with
  | (rc, Some command) =>
      if rc <? 0 then (rc, cdev)
      else
        let '(rc, cdev) := set_command command cdev in
        if rc <? 0 then (rc, cdev) else (count, cdev)
  | (rc, None) => (rc, cdev)
  end.

Definition state_msg_show (cdev : cosm_device) : Z * list ascii :=
  match state_msg cdev with
  | Some m => let out := scnprintf_line (bytes m) in (zlen out, out)
  | None => (0, [])
  end.

(** ** Configuration writes *)

(** A write to one of the three attributes that hold numbers. *)
Inductive attr_write := WBoot (buf : string) | WShutdown (buf : string) | WOnReady (buf : string).

Definition run_write (d : cosm_device) (a : attr_write) : cosm_device :=
  match a with
  | WBoot buf => snd (boot_timeout_store d buf (zlen (bytes buf)))
  | WShutdown buf => snd (shutdown_timeout_store d buf (zlen (bytes buf)))
  | WOnReady buf => snd (execute_on_ready_store d buf (zlen (bytes buf)))
  end.

(** What the configuration promises the state flow. *)
Definition config_ok (d : cosm_device) : Prop :=
  COSM_MIN_BOOT_TIMEOUT <= boot_timeout (config d) < 2 ^ 32 ∧
  COSM_MIN_SHUTDOWN_TIMEOUT <= shutdown_timeout (config d) < 2 ^ 32 ∧
  0 <= execute_on_ready (config d) <= MIC_CMD_LAST.

(** [kstrtouint] yields 32-bit values. *)
Hypothesis kstrtouint_range : ∀ s v, kstrtouint s = inl v → in_width 32 v.

Lemma write_ok d a : config_ok d → config_ok (run_write d a).
Proof.
  intros (Hb & Hs & He).
  destruct a as [buf|buf|buf]; cbn; unfold boot_timeout_store, shutdown_timeout_store,
    execute_on_ready_store.
  - destruct (kstrtouint buf) as [v|] eqn:E; [|done]. destruct (kstrtouint_range _ _ E).
    destruct (Z.ltb_spec v COSM_MIN_BOOT_TIMEOUT); [done|]. unfold config_ok. cbn. lia.
  - destruct (kstrtouint buf) as [v|] eqn:E; [|done]. destruct (kstrtouint_range _ _ E).
    destruct (Z.ltb_spec v COSM_MIN_SHUTDOWN_TIMEOUT); [done|]. unfold config_ok. cbn. lia.
  - destruct (cosm_get_command_id buf) as [rc [c|]] eqn:E; [|done].
    destruct (rc <? 0); [done|]. assert (rc = 0) as ->.
    { unfold cosm_get_command_id in E. by destruct (get_command_loop _ _ _); simplify_eq. }
    destruct (get_command_id_found _ _ E) as ([? ?] & _). unfold MIC_CMD_NONE in *.
    split; [done|]. split; [done|]. cbn. lia.
Qed.

(** Whatever is written to the configuration attributes, in any order, the
    timeouts stay at least their minima and within 32 bits, and the command to
    execute when ready indexes the command table; a refused write changes
    nothing. *)
Theorem cosm_config_invariant d ws : config_ok d →
  config_ok (foldl run_write d ws) ∧
  (∀ buf count, fst (boot_timeout_store d buf count) < 0 → 0 <= count →
     snd (boot_timeout_store d buf count) = d) ∧
  (∀ buf count, fst (shutdown_timeout_store d buf count) < 0 → 0 <= count →
     snd (shutdown_timeout_store d buf count) = d) ∧
  (∀ buf count, fst (execute_on_ready_store d buf count) < 0 → 0 <= count →
     snd (execute_on_ready_store d buf count) = d).
Proof.
  intros Hd. split.
  - revert d Hd. induction ws as [|a ws IH]; intros d Hd; [done|]. cbn. apply IH. by apply write_ok.
  - unfold boot_timeout_store, shutdown_timeout_store, execute_on_ready_store.
    split_and!; intros buf count; repeat case_match; cbn; intros; try done; lia.
Qed.

End Attributes.

(** ** String round trips *)

Lemma cstring_no_nul l : NUL ∉ l → cstring l = l.
Proof.
  induction l as [|c l IH]; [done|]. intros Hn. apply not_elem_of_cons in Hn as [Hc Hl]. cbn.
  destruct (Ascii.eqb_spec c NUL); [congruence|]. by rewrite IH.
Qed.

Lemma cstring_stop l r : NUL ∉ l → cstring (l ++ NUL :: r) = l.
Proof.
  induction l as [|c l IH]; [done|]. intros Hn. apply not_elem_of_cons in Hn as [Hc Hl]. cbn.
  destruct (Ascii.eqb_spec c NUL); [congruence|]. by rewrite IH.
Qed.

Lemma strncpy_exact l : NUL ∉ l → strncpy (length l) l = l.
Proof.
  induction l as [|c l IH]; [done|]. intros Hn. apply not_elem_of_cons in Hn as [Hc Hl].
  cbn [length strncpy]. destruct (Ascii.eqb_spec c NUL); [congruence|]. by rewrite IH.
Qed.

(** The stored buffer holds the written text without its final newline. *)
Lemma store_string_value junk old s nl :
  s ≠ [] → NUL ∉ s → last s ≠ Some NL → nl = [] ∨ nl = [NL] →
  ∃ b, mic_sysfs_store_string true junk old (s ++ nl) (length (s ++ nl)) =
         (zlen (s ++ nl), Some b) ∧ cstring b = s.
Proof.
  intros Hne Hs Hlast Hnl. unfold mic_sysfs_store_string. cbn.
  assert (NUL ∉ s ++ nl) as Hn.
  { rewrite elem_of_app. destruct Hnl as [-> | ->]; [set_solver|].
    rewrite list_elem_of_singleton. intros [?|[=]]; done. }
  rewrite strncpy_exact by done. eexists. split; [reflexivity|].
  destruct Hnl as [-> | ->].
  - rewrite app_nil_r in *. destruct (exists_last Hne) as (s' & c & ->).
    rewrite last_snoc in Hlast. rewrite length_app. cbn.
    replace (length s' + 1 - 1)%nat with (length s') by lia.
    rewrite <- app_assoc, app_nth2, Nat.sub_diag by lia. cbn.
    destruct (Ascii.eqb_spec c NL); [congruence|].
    rewrite insert_app_r_alt by lia. replace (length s' + 1 - length s')%nat with 1%nat by lia.
    cbn. change (s' ++ [c; NUL]) with (s' ++ [c] ++ [NUL]). rewrite app_assoc. by apply cstring_stop.
  - rewrite length_app. cbn. replace (length s + 1 - 1)%nat with (length s) by lia.
    rewrite <- app_assoc, app_nth2, Nat.sub_diag by lia. cbn.
    rewrite insert_app_r_alt by lia. rewrite Nat.sub_diag. cbn. by apply cstring_stop.
Qed.

(** C35: Text written to a string attribute reads back as written, with exactly one
    newline at its end, for every attribute that stores a string; the write
    reports all its bytes consumed and leaves the other strings alone, and a
    failed allocation leaves everything alone. *)
Theorem cosm_sysfs_string_roundtrip junk c s nl :
  s ≠ [] → NUL ∉ s → last s ≠ Some NL → nl = [] ∨ nl = [NL] → zlen s < PAGE_SIZE - 1 →
  let n := length (s ++ nl) in
  (let '(r, c') := efi_image_store true junk c (s ++ nl) n in
     r = zlen (s ++ nl) ∧ efi_image_show c' = (zlen s + 1, s ++ [NL]) ∧
     kernel_image_show c' = kernel_image_show c) ∧
  (let '(r, c') := kernel_image_store true junk c (s ++ nl) n in
     r = zlen (s ++ nl) ∧ kernel_image_show c' = (zlen s + 1, s ++ [NL]) ∧
     kernel_cmdline_show c' = kernel_cmdline_show c) ∧
  (let '(r, c') := kernel_cmdline_store true junk c (s ++ nl) n in
     r = zlen (s ++ nl) ∧ kernel_cmdline_show c' = (zlen s + 1, s ++ [NL]) ∧
     initramfs_image_show c' = initramfs_image_show c) ∧
  (let '(r, c') := initramfs_image_store true junk c (s ++ nl) n in
     r = zlen (s ++ nl) ∧ initramfs_image_show c' = (zlen s + 1, s ++ [NL]) ∧
     efi_image_show c' = efi_image_show c) ∧
  efi_image_store false junk c (s ++ nl) n = (- ENOMEM, c).
Proof.
  intros Hne Hs Hlast Hnl Hlen n. subst n.
  assert (∀ old, ∃ b, mic_sysfs_store_string true junk old (s ++ nl) (length (s ++ nl)) =
     (zlen (s ++ nl), Some b) ∧ mic_sysfs_show_string (Some b) = (zlen s + 1, s ++ [NL])) as Hst.
  { intros old. destruct (store_string_value junk old s nl) as (b & Hb & Hc); auto.
    exists b. split; [done|]. unfold mic_sysfs_show_string, scnprintf_line. rewrite Hc.
    unfold ztake. rewrite take_ge.
    - f_equal. rewrite zlen_app. done.
    - unfold zlen, PAGE_SIZE in *. rewrite length_app. cbn. lia. }
  unfold efi_image_store, kernel_image_store, kernel_cmdline_store, initramfs_image_store.
  split_and!; [destruct (Hst (c_efi_image c)) as (b & -> & Hb)
    |destruct (Hst (c_kernel_image c)) as (b & -> & Hb)
    |destruct (Hst (c_kernel_cmdline c)) as (b & -> & Hb)
    |destruct (Hst (c_initramfs_image c)) as (b & -> & Hb)|by destruct c]; done.
Qed.

Lemma cosm_sysfs_string_roundtrip_witness :
  let c := Strings None None None None in
  let p := bytes "/boot/vmlinuz"%string in
  kernel_image_show (snd (kernel_image_store true NL c (p ++ [NL]) 14)) = (14, p ++ [NL]).
Proof.
  destruct (cosm_sysfs_string_roundtrip NL (Strings None None None None)
    (bytes "/boot/vmlinuz"%string) [NL]) as (_ & H & _).
  - discriminate.
  - vm_compute. intros H. repeat (apply elem_of_cons in H as [H|H]; [discriminate|]).
    by apply elem_of_nil in H.
  - vm_compute. discriminate.
  - by right.
  - reflexivity.
  - apply H.
Defined.

Lemma cosm_config_invariant_witness :
  let k := λ s, if String.eqb s "120" then inl 120 else inr (- EINVAL) in
  config_ok (foldl (@run_write _ sim_env k) (sim_dev 2 0)
    [WBoot "120"; WShutdown "x"; WOnReady "boot"]) ∧
  execute_on_ready (config (foldl (@run_write _ sim_env k) (sim_dev 2 0)
    [WBoot "120"; WShutdown "x"; WOnReady "boot"])) = MIC_CMD_BOOT.
Proof.
  split; [|vm_compute; reflexivity].
  apply (@cosm_config_invariant _ sim_env).
  - intros s v. destruct (String.eqb s "120"); [|discriminate]. intros [= <-]. split; reflexivity || (vm_compute; congruence).
  - vm_compute. repeat split; congruence.
Defined.

End CosmSysfs.
