(* ===== verification/CosmServer.v ===== *)
(** * Coprocessor state management: the SCIF server and device lifetime

    Models [mpss4/mpss-modules/mic/cosm/cosm_scif_server.c] and the probe and
    removal of [cosm_main.c].  Messages from a card are dispatched by
    [cosm_scif_recv] and [cosm_status_handler]; [cosm_scif_work] serves one
    connection; [cosm_scif_server] accepts connections and hands each to the work
    item of its device; the first probed device starts the server and the last
    removed one stops it. *)
From S2P Require Import Prelude Cosm.
Local Open Scope Z_scope.
Import Cosm.

Module CosmServer.

(** ** Messages *)

(** [struct cosm_msg]: the identifier and the state byte of the union. *)
Record cosm_msg := Msg { msg_id : Z; msg_state : Z }.

(** What handling messages does, in order: the calls of [cosm_set_command] and the
    write of [received_online]. *)
Inductive effect := SetCommand (command : Z) | ReceivedOnline.

(** A read of [cosm_states] outside the table ends the run with [None]. *)
Definition cosm_status_handler (s : Z) : option (list effect) :=
  match nth_error cosm_states (Z.to_nat s) with
  | None => None
  | Some _ =>
      Some (if s =? MIC_STATE_ONLINE then [ReceivedOnline]
            else if s =? MIC_STATE_RESETTING then [SetCommand MIC_CMD_RESET_FROM_CARD]
            else if s =? MIC_STATE_SHUTTING_DOWN then [SetCommand MIC_CMD_SHUTDOWN_FROM_CARD]
            else if s =? MIC_STATE_ERROR then [SetCommand MIC_CMD_HANDLE_PANIC]
            else [])
  end.

(** What [scif_recv] returns next: a message, nothing (0), or an error. *)
Inductive recv_result := RecvMsg (m : cosm_msg) | RecvNone | RecvErr (rc : Z).

(** The loop over the results of successive [scif_recv]; [None] inside is the
    out-of-table read, the outer [None] that the loop needs more results.  The
    value is 1 or 0, with the effects in order and the results not consumed. *)
Fixpoint cosm_scif_recv (rs : list recv_result) : option (option (Z * list effect * list recv_result)) :=
  match rs with
  | [] => None
  | RecvNone :: rs => Some (Some (0, [], rs))
  | RecvErr _ :: rs => Some (Some (0, [], rs))
  | RecvMsg m :: rs =>
      match (if msg_id m =? COSM_MSG_STATE_CHANGE then cosm_status_handler (msg_state m)
             else Some []) with
      | None => Some None
      | Some es =>
          if msg_state m =? MIC_STATE_ERROR then Some (Some (1, es, rs))
          else match cosm_scif_recv rs with
               | Some (Some (rc, es', rs')) => Some (Some (rc, es ++ es', rs'))
               | r => r
               end
      end
  end.

Definition cosm_send_time (send_rc : Z) : Z := if send_rc <? 0 then send_rc else 0.

(** ** One connection *)

(** What one [scif_poll] gives: its result, the events [POLLIN] and
    [POLLHUP | POLLERR], and the messages then available. *)
Record poll_result := Poll { p_rc : Z; p_in : bool; p_hup : bool; p_recv : list recv_result }.

(** Why the loop of [cosm_scif_work] was left. *)
Inductive work_exit := ExitNoTime | ExitError | ExitHup | ExitHang | ExitOutOfTable.

Fixpoint work_loop (ps : list poll_result) : option (work_exit * list effect) :=
  match ps with
  | [] => None
  | p :: ps =>
      if p_rc p <? 0 then work_loop ps
      else
        match (if p_in p then cosm_scif_recv (p_recv p) else Some (Some (0, [], []))) with
        | None => None
        | Some None => Some (ExitOutOfTable, [])
        | Some (Some (rc, es, _)) =>
            if negb (rc =? 0) then Some (ExitError, es)
            else if p_hup p then Some (ExitHup, es)
            else if p_rc p =? 0 then Some (ExitHang, es ++ [SetCommand MIC_CMD_HANDLE_HANG])
            else option_map (λ '(x, es'), (x, es ++ es')) (work_loop ps)
        end
  end.

(** [cosm_scif_work] up to its label [exit]. *)
Definition cosm_scif_work (send_rc : Z) (ps : list poll_result) : option (work_exit * list effect) :=
  if negb (cosm_send_time send_rc =? 0) then Some (ExitNoTime, []) else work_loop ps.

(** ** Messages: what the server does with them *)

(** The effect a state report should have. *)
Definition report_effect (s : Z) : list effect :=
  if s =? MIC_STATE_ONLINE then [ReceivedOnline]
  else if s =? MIC_STATE_RESETTING then [SetCommand MIC_CMD_RESET_FROM_CARD]
  else if s =? MIC_STATE_SHUTTING_DOWN then [SetCommand MIC_CMD_SHUTDOWN_FROM_CARD]
  else if s =? MIC_STATE_ERROR then [SetCommand MIC_CMD_HANDLE_PANIC]
  else [].

Definition msg_effect (m : cosm_msg) : list effect :=
  if msg_id m =? COSM_MSG_STATE_CHANGE then report_effect (msg_state m) else [].

Definition msg_ok (m : cosm_msg) : Prop :=
  msg_id m = COSM_MSG_STATE_CHANGE → 0 <= msg_state m <= MIC_STATE_LAST.

Lemma status_handler_in_table s : 0 <= s <= MIC_STATE_LAST →
  cosm_status_handler s = Some (report_effect s).
Proof.
  intros Hs. unfold cosm_status_handler.
  destruct (nth_error cosm_states (Z.to_nat s)) eqn:E; [done|].
  apply nth_error_None in E. exfalso. revert E Hs.
  cbn [length cosm_states]. unfold MIC_STATE_LAST, MIC_STATE_BOOTING_FIRMWARE. lia.
Qed.

Lemma handled m : msg_ok m →
  (if msg_id m =? COSM_MSG_STATE_CHANGE then cosm_status_handler (msg_state m) else Some []) =
  Some (msg_effect m).
Proof.
  intros Hm. unfold msg_effect. destruct (Z.eqb_spec (msg_id m) COSM_MSG_STATE_CHANGE); [|done].
  apply status_handler_in_table. auto.
Qed.

(** One pass of the receive loop handles the waiting messages in order, each
    by its effect, until the queue is empty, or up to and including the first
    whose state byte is error, which alone makes it return 1 so that the
    connection is closed; nothing after that message is consumed. *)
Theorem cosm_scif_recv_in_order ms rest e :
  Forall msg_ok ms → e = RecvNone ∨ (∃ rc, e = RecvErr rc) →
  cosm_scif_recv (map RecvMsg ms ++ e :: rest) =
  match list_find (λ m, msg_state m = MIC_STATE_ERROR) ms with
  | None => Some (Some (0, ms ≫= msg_effect, rest))
  | Some (i, m) =>
      Some (Some (1, take (S i) ms ≫= msg_effect, map RecvMsg (drop (S i) ms) ++ e :: rest))
  end.
Proof.
  intros Hms He. induction Hms as [|m ms Hm Hms IH]; cbn.
  - destruct He as [-> |[rc ->]]; done.
  - rewrite (handled m Hm).
    destruct (Z.eqb_spec (msg_state m) MIC_STATE_ERROR) as [E|E].
    + rewrite decide_True by done. cbn. by rewrite take_0, drop_0, app_nil_r.
    + rewrite decide_False by done. rewrite IH.
      destruct (list_find _ ms) as [[i m']|]; done.
Qed.

(** A state report whose byte is beyond the state table makes the handler read
    outside it, before the switch that would reject the value. *)
Theorem cosm_status_handler_out_of_table s rs : MIC_STATE_LAST < s < 256 →
  cosm_scif_recv (RecvMsg (Msg COSM_MSG_STATE_CHANGE s) :: rs) = Some None.
Proof.
  intros Hs. cbn. unfold cosm_status_handler.
  rewrite (proj2 (nth_error_None _ _)); [done|].
  cbn [length cosm_states]. unfold MIC_STATE_LAST, MIC_STATE_BOOTING_FIRMWARE in *. lia.
Qed.

Lemma cosm_scif_recv_in_order_witness :
  cosm_scif_recv [RecvMsg (Msg COSM_MSG_HEARTBEAT 0);
                  RecvMsg (Msg COSM_MSG_STATE_CHANGE MIC_STATE_ONLINE);
                  RecvMsg (Msg COSM_MSG_STATE_CHANGE MIC_STATE_ERROR); RecvNone] =
  Some (Some (1, [ReceivedOnline; SetCommand MIC_CMD_HANDLE_PANIC], [RecvNone])).
Proof.
  refine (eq_trans (cosm_scif_recv_in_order [Msg COSM_MSG_HEARTBEAT 0;
     Msg COSM_MSG_STATE_CHANGE MIC_STATE_ONLINE; Msg COSM_MSG_STATE_CHANGE MIC_STATE_ERROR]
     [] RecvNone _ _) eq_refl).
  - repeat constructor; cbn; unfold msg_ok; cbn; intros; try congruence;
      vm_compute; congruence.
  - by left.
Defined.

Lemma cosm_status_handler_out_of_table_witness :
  cosm_scif_recv [RecvMsg (Msg COSM_MSG_STATE_CHANGE 10)] = Some None.
Proof. apply cosm_status_handler_out_of_table. split; reflexivity. Defined.

(** The receive loop never asks for the hang command. *)
Lemma recv_no_hang rs rc es rs' : cosm_scif_recv rs = Some (Some (rc, es, rs')) →
  SetCommand MIC_CMD_HANDLE_HANG ∉ es.
Proof.
  revert rc es rs'. induction rs as [|[m| |e] rs IH]; intros rc es rs'; cbn; [done| | |].
  2,3: intros [= <- <- <-]; apply not_elem_of_nil.
  assert (∀ es0, (if msg_id m =? COSM_MSG_STATE_CHANGE then cosm_status_handler (msg_state m)
     else Some []) = Some es0 → SetCommand MIC_CMD_HANDLE_HANG ∉ es0) as Hh.
  { intros es0. unfold cosm_status_handler. repeat case_match; intros [= <-];
      rewrite ?elem_of_cons, ?elem_of_nil; intros Hi; destruct_or?; done. }
  destruct (if msg_id m =? _ then _ else _) as [es0|]; [|done]. specialize (Hh _ eq_refl).
  destruct (msg_state m =? MIC_STATE_ERROR); [by intros [= <- <- <-]|].
  destruct (cosm_scif_recv rs) as [[[[rc1 es1] rs1]|]|] eqn:E; try done.
  intros [= <- <- <-]. rewrite elem_of_app. intros [?|?]; [done|]. by eapply IH.
Qed.

(** A card is declared hung only after silence: when the hang command is
    requested, some poll of the connection ran into its heartbeat timeout after
    polls that all reported an event or failed, it is the last effect of the
    connection and the connection is closed right after it. *)
Theorem cosm_hang_only_on_silence send_rc ps x es :
  cosm_scif_work send_rc ps = Some (x, es) →
  (SetCommand MIC_CMD_HANDLE_HANG ∈ es ↔ x = ExitHang) ∧
  (x = ExitHang → ∃ ps1 p ps2 es1, ps = ps1 ++ p :: ps2 ∧ p_rc p = 0 ∧ p_hup p = false ∧
     Forall (λ q, p_rc q ≠ 0) ps1 ∧ es = es1 ++ [SetCommand MIC_CMD_HANDLE_HANG] ∧
     SetCommand MIC_CMD_HANDLE_HANG ∉ es1).
Proof.
  unfold cosm_scif_work.
  destruct (negb _); [intros [= <- <-]; rewrite elem_of_nil; by split|].
  revert x es. induction ps as [|p ps IH]; intros x es; cbn; [done|].
  destruct (Z.ltb_spec (p_rc p) 0).
  { intros E. destruct (IH _ _ E) as [H1 H2]. split; [done|]. intros Hx.
    destruct (H2 Hx) as (ps1 & q & ps2 & es1 & -> & ? & ? & ? & ? & ?).
    exists (p :: ps1), q, ps2, es1. repeat split; auto. constructor; [lia|done]. }
  destruct (if p_in p then _ else _) as [[[[rc es0] rs]|]|] eqn:Er; [| |done].
  2:{ intros [= <- <-]. rewrite elem_of_nil. by split. }
  assert (SetCommand MIC_CMD_HANDLE_HANG ∉ es0) as Hno.
  { destruct (p_in p); [by eapply recv_no_hang|]. simplify_eq. apply not_elem_of_nil. }
  destruct (negb (rc =? 0)); [intros [= <- <-]; by split|].
  destruct (p_hup p) eqn:Hhup; [intros [= <- <-]; by split|].
  destruct (Z.eqb_spec (p_rc p) 0) as [Hz|Hz].
  - intros [= <- <-]. split.
    + rewrite elem_of_app, list_elem_of_singleton. intuition.
    + intros _. exists [], p, ps, es0. repeat split; auto.
  - destruct (work_loop ps) as [[x' es']|] eqn:Ew; [|done]. intros [= <- <-].
    destruct (IH _ _ eq_refl) as [H1 H2]. split.
    + rewrite elem_of_app, H1. intuition.
    + intros Hx. destruct (H2 Hx) as (ps1 & q & ps2 & es1 & -> & ? & ? & ? & -> & ?).
      exists (p :: ps1), q, ps2, (es0 ++ es1). rewrite app_assoc. repeat split; auto.
      rewrite elem_of_app. intuition.
Qed.

Lemma cosm_hang_only_on_silence_witness :
  SetCommand MIC_CMD_HANDLE_HANG ∈ [ReceivedOnline; SetCommand MIC_CMD_HANDLE_HANG].
Proof.
  apply (cosm_hang_only_on_silence 1
    [Poll 1 true false [RecvMsg (Msg COSM_MSG_STATE_CHANGE MIC_STATE_ONLINE); RecvNone];
     Poll (-4) false false []; Poll 0 false false []] ExitHang); reflexivity.
Defined.

(** ** Accepting connections

    The devices on the bus, each with [cdev->epd] and its [scif_work], and the
    endpoints the server has accepted and not closed. *)
Inductive work_item := WkIdle | WkQueued | WkRunning.
Record conns := Conns { devs : gmap Z (option Z * work_item); opened : gset Z }.

(** One turn of the loop of [cosm_scif_server] after a successful [scif_accept] and
    the wait in [flush_work]. *)
Definition cosm_scif_server (s : conns) (node newepd : Z) : conns :=
  let s := Conns (devs s) ({[newepd]} ∪ opened s) in
  match devs s !! (node - 1) with
  | Some (None, _) => Conns (<[node - 1 := (Some newepd, WkQueued)]> (devs s)) (opened s)
  | Some (Some _, _) | None => Conns (devs s) (opened s ∖ {[newepd]})
  end.

(** The label [exit] of [cosm_scif_work]. *)
Definition work_cleanup (s : conns) (i : Z) : conns :=
  match devs s !! i with
  | Some (Some e, _) => Conns (<[i := (None, WkIdle)]> (devs s)) (opened s ∖ {[e]})
  | Some (None, _) => Conns (<[i := (None, WkIdle)]> (devs s)) (opened s)
  | None => s
  end.

(** Removal of a device: [cancel_work_sync] drops a queued work item, waits for a
    running one. *)
Definition remove_conn (s : conns) (i : Z) : conns := Conns (delete i (devs s)) (opened s).

Inductive conn_step : conns → conns → Prop :=
  | conn_accept s node e :
      e ∉ opened s → (∀ x k, devs s !! (node - 1) = Some (x, k) → k = WkIdle) →
      conn_step s (cosm_scif_server s node e)
  | conn_start s i e :
      devs s !! i = Some (e, WkQueued) →
      conn_step s (Conns (<[i := (e, WkRunning)]> (devs s)) (opened s))
  | conn_exit s i e :
      devs s !! i = Some (e, WkRunning) → conn_step s (work_cleanup s i)
  | conn_add s i :
      devs s !! i = None → conn_step s (Conns (<[i := (None, WkIdle)]> (devs s)) (opened s))
  | conn_remove s i x :
      devs s !! i = Some (x, WkIdle) → conn_step s (remove_conn s i).

Inductive conn_reachable : conns → Prop :=
  | conn_init : conn_reachable (Conns ∅ ∅)
  | conn_next s s' : conn_reachable s → conn_step s s' → conn_reachable s'.

Record conn_inv (s : conns) : Prop := {
  ci_work i e k : devs s !! i = Some (e, k) → (e = None ↔ k = WkIdle);
  ci_open e : e ∈ opened s ↔ ∃ i k, devs s !! i = Some (Some e, k);
  ci_inj i j e k k' : devs s !! i = Some (Some e, k) → devs s !! j = Some (Some e, k') → i = j;
}.

(** A device with no endpoint may take a fresh one, or come and go. *)
Lemma ci_insert s i e k : conn_inv s → e ∉ opened s → k ≠ WkIdle →
  (∀ x k, devs s !! i = Some (Some x, k) → False) →
  conn_inv (Conns (<[i := (Some e, k)]> (devs s)) ({[e]} ∪ opened s)).
Proof.
  intros [H1 H2 H3] He Hk Hi. split; cbn.
  - intros j e' k'. rewrite lookup_insert_Some. intros [[-> [= <- <-]]|[? ?]]; [done|eauto].
  - intros x. rewrite elem_of_union, elem_of_singleton, H2. split.
    + intros [-> |(j & kj & Hj)]; [exists i, k; by rewrite lookup_insert_eq|].
      exists j, kj. rewrite lookup_insert_ne; [done|]. intros ->. by eapply Hi.
    + intros (j & kj & Hj). apply lookup_insert_Some in Hj as [[-> [= <- <-]]|[? ?]]; eauto.
  - intros j1 j2 x k1 k2 E1 E2.
    apply lookup_insert_Some in E1 as [[<- [= <- <-]]|[N1 E1]];
      apply lookup_insert_Some in E2 as [[<- [= E]]|[N2 E2]]; subst; eauto;
      exfalso; apply He, H2; eauto.
Qed.

Lemma ci_release s i : conn_inv s →
  conn_inv (Conns (<[i := (None, WkIdle)]> (devs s))
    (match devs s !! i with Some (Some e, _) => opened s ∖ {[e]} | _ => opened s end)).
Proof.
  intros [H1 H2 H3]. split; cbn.
  - intros j e k. rewrite lookup_insert_Some. intros [[-> [= <- <-]]|[? ?]]; [done|eauto].
  - intros x.
    assert ((∃ j k, <[i:=(None, WkIdle)]> (devs s) !! j = Some (Some x, k)) ↔
            ∃ j k, j ≠ i ∧ devs s !! j = Some (Some x, k)) as ->.
    { split; intros (j & k & Hj); exists j, k.
      - apply lookup_insert_Some in Hj as [[? [=]]|[? ?]]; auto.
      - destruct Hj as [? Hj]. by rewrite lookup_insert_ne. }
    destruct (devs s !! i) as [[[e|] ki]|] eqn:Ei.
    + rewrite elem_of_difference, elem_of_singleton, H2. split.
      * intros [(j & k & Hj) Hx]. exists j, k. split; [|done]. intros ->. congruence.
      * intros (j & k & Hji & Hj). split; [eauto|]. intros ->. by destruct (Hji (H3 _ _ _ _ _ Hj Ei)).
    + rewrite H2. split; intros (j & k & Hj); exists j, k; [split; [|done]; intros ->; congruence|tauto].
    + rewrite H2. split; intros (j & k & Hj); exists j, k; [split; [|done]; intros ->; congruence|tauto].
  - intros j1 j2 x k1 k2 E1 E2. apply lookup_insert_Some in E1 as [[? [=]]|[? E1]].
    apply lookup_insert_Some in E2 as [[? [=]]|[? E2]]. eauto.
Qed.

Lemma ci_delete s i x : conn_inv s → devs s !! i = Some (x, WkIdle) →
  conn_inv (remove_conn s i).
Proof.
  intros [H1 H2 H3] Hi. assert (x = None) as -> by (by apply (H1 _ _ _ Hi)). split; cbn.
  - intros j e k. rewrite lookup_delete_Some. intros [? ?]. eauto.
  - intros e. rewrite H2. split; intros (j & k & Hj); exists j, k.
    + rewrite lookup_delete_Some. split; [|done]. intros ->. congruence.
    + by apply lookup_delete_Some in Hj as [_ ?].
  - intros j1 j2 e k1 k2 E1 E2. apply lookup_delete_Some in E1 as [_ E1].
    apply lookup_delete_Some in E2 as [_ E2]. eauto.
Qed.

Lemma ci_restart s i e k k' : conn_inv s → devs s !! i = Some (e, k) → k ≠ WkIdle → k' ≠ WkIdle →
  conn_inv (Conns (<[i := (e, k')]> (devs s)) (opened s)).
Proof.
  intros [H1 H2 H3] Hi Hk Hk'. pose proof (H1 _ _ _ Hi) as Hi1. split; cbn.
  - intros j e' kj. rewrite lookup_insert_Some. intros [[-> [= <- <-]]|[? ?]]; [tauto|eauto].
  - intros x. rewrite H2. split; intros (j & kj & Hj).
    + destruct (decide (j = i)) as [-> |N].
      * rewrite Hi in Hj. simplify_eq. exists i, k'. by rewrite lookup_insert_eq.
      * exists j, kj. by rewrite lookup_insert_ne.
    + apply lookup_insert_Some in Hj as [[<- [= <- <-]]|[? ?]]; eauto.
  - intros j1 j2 x k1 k2 E1 E2.
    apply lookup_insert_Some in E1 as [[<- [= -> <-]]|[N1 E1]];
      apply lookup_insert_Some in E2 as [[<- [= E]]|[N2 E2]]; subst; eauto.
Qed.

Lemma conn_step_inv s s' : conn_step s s' → conn_inv s → conn_inv s'.
Proof.
  destruct 1 as [s node e He Hidle|s i e Hi|s i e Hi|s i Hi|s i x Hi]; intros I.
  - unfold cosm_scif_server. cbn.
    assert (conn_inv (Conns (devs s) (({[e]} ∪ opened s) ∖ {[e]}))) as Hback.
    { replace (({[e]} ∪ opened s) ∖ {[e]}) with (opened s) by set_solver. by destruct s. }
    destruct (devs s !! (node - 1)) as [[[x|] k]|] eqn:Ei; [done| |done].
    apply ci_insert; [done..|]. intros x k' E. congruence.
  - eapply ci_restart; eauto; done.
  - pose proof (ci_release s i I) as Hr. unfold work_cleanup. by destruct (devs s !! i) as [[[]]|].
  - pose proof (ci_release s i I) as Hr. by rewrite Hi in Hr.
  - by eapply ci_delete.
Qed.

Lemma conn_reachable_inv s : conn_reachable s → conn_inv s.
Proof.
  induction 1 as [|s s' HR IH Hstep]; [|by eapply conn_step_inv].
  split; cbn; intros *; rewrite ?lookup_empty; try done.
  split; [set_solver|]. intros (i & k & Hi). by rewrite lookup_empty in Hi.
Qed.

(** No connection is lost: over any interleaving of accepted connections, work
    items starting and ending, and devices coming and going while their work item
    is idle, the accepted endpoints still open are exactly those held by the
    devices, no two devices share one, and a device holds one exactly while its
    work item is queued or running. *)
Theorem cosm_endpoints_accounted s : conn_reachable s →
  (∀ e, e ∈ opened s ↔ ∃ i k, devs s !! i = Some (Some e, k)) ∧
  (∀ i j e k k', devs s !! i = Some (Some e, k) → devs s !! j = Some (Some e, k') → i = j) ∧
  (∀ i e k, devs s !! i = Some (e, k) → (e = None ↔ k = WkIdle)).
Proof.
  intros HR. destruct (conn_reachable_inv s HR). by split_and!.
Qed.

(** A device removed while its work item is still queued leaves its endpoint
    open for good: [cancel_work_sync] drops the item that would have closed it. *)
Theorem cosm_remove_leaks_queued_endpoint s i e :
  conn_reachable s → devs s !! i = Some (Some e, WkQueued) →
  e ∈ opened (remove_conn s i) ∧
  ∀ j k, devs (remove_conn s i) !! j ≠ Some (Some e, k).
Proof.
  intros HR Hi. destruct (conn_reachable_inv s HR) as [H1 H2 H3].
  cbn. split; [apply H2; eauto|]. intros j k Hj.
  apply lookup_delete_Some in Hj as [Hne Hj]. by apply Hne, (H3 i j e _ _ Hi Hj).
Qed.

Definition one_device : conns := Conns {[0 := (None, WkIdle)]} ∅.

Lemma one_device_reachable : conn_reachable one_device.
Proof. eapply conn_next; [apply conn_init|]. apply (conn_add (Conns ∅ ∅) 0). done. Qed.

Lemma connected_reachable : conn_reachable (cosm_scif_server one_device 1 77).
Proof.
  eapply conn_next; [apply one_device_reachable|]. apply conn_accept.
  - cbn. set_solver.
  - cbn. intros x k. by intros [= <- <-].
Qed.

Lemma cosm_endpoints_accounted_witness :
  77 ∈ opened (cosm_scif_server one_device 1 77) ∧
  devs (cosm_scif_server one_device 1 77) !! 0 = Some (Some 77, WkQueued).
Proof.
  assert (devs (cosm_scif_server one_device 1 77) !! 0 = Some (Some 77, WkQueued)) as E
    by (vm_compute; reflexivity).
  split; [|exact E].
  apply (proj1 (cosm_endpoints_accounted _ connected_reachable)). exists 0, WkQueued. exact E.
Defined.

Lemma cosm_remove_leaks_queued_endpoint_witness :
  77 ∈ opened (remove_conn (cosm_scif_server one_device 1 77) 0).
Proof.
  apply (cosm_remove_leaks_queued_endpoint _ 0 77 connected_reachable). vm_compute. reflexivity.
Defined.

(** ** The life of the server *)

Inductive thread_ptr := ThreadNull | ThreadErr | ThreadLive | ThreadFreed.

(** The statics [listen_epd] (set or NULL), [server_thread] and [g_num_dev], and the
    references taken of the module. *)
Record server := Server { listen_epd : bool; server_thread : thread_ptr; g_num_dev : Z; module_refs : Z }.

(** What the kernel answers to one probe or removal; [a_flow]: the state to which a
    running state-flow work item switches before it ends. *)
Record answers := Answers {
  a_open : bool; a_bind : Z; a_listen : Z; a_thread : Z; a_sig : Z;
  a_device_create : Z; a_dev_init : Z; a_node : bool; a_module : bool; a_flow : option Z;
}.

Definition set_listen (l : bool) (s : server) : server := Server l (server_thread s) (g_num_dev s) (module_refs s).
Definition set_thread (t : thread_ptr) (s : server) : server := Server (listen_epd s) t (g_num_dev s) (module_refs s).
Definition add_dev (n : Z) (s : server) : server := Server (listen_epd s) (server_thread s) (g_num_dev s + n) (module_refs s).
Definition add_ref (n : Z) (s : server) : server := Server (listen_epd s) (server_thread s) (g_num_dev s) (module_refs s + n).

Definition cosm_scif_listen (a : answers) (s : server) : Z * server :=
  if negb (a_open a) then (- ENOMEM, set_listen false s)
  else if a_bind a <? 0 then (a_bind a, set_listen false s)
  else if a_listen a <? 0 then (a_listen a, set_listen false s)
  else (0, set_listen true s).

Definition cosm_scif_listen_exit (s : server) : server := set_listen false s.

Definition cosm_scif_init (a : answers) (s : server) : Z * server :=
  let '(rc, s) := cosm_scif_listen a s in
  if negb (rc =? 0) then (rc, s)
  else if negb (a_thread a =? 0)
  then (a_thread a, cosm_scif_listen_exit (set_thread ThreadErr s))
  else (0, set_thread ThreadLive s).

(** [None]: a signal is sent to a thread that has been freed. *)
Definition cosm_scif_exit (a : answers) (s : server) : option server :=
  match server_thread s with
  | ThreadNull | ThreadErr => Some (cosm_scif_listen_exit s)
  | ThreadFreed => None
  | ThreadLive =>
      if negb (a_sig a =? 0) then Some s
      else Some (cosm_scif_listen_exit (set_thread ThreadFreed s))
  end.

Definition put_dev (a : answers) (s : server) : option server :=
  let s := add_dev (-1) s in
  if g_num_dev s =? 0 then cosm_scif_exit a s else Some s.

(** The strings of [cdev->config] that stores allocate. *)
Inductive config_string := efi_image | kernel_image | kernel_cmdline | initramfs_image.

#[export] Instance config_string_eq_dec : EqDecision config_string.
Proof. solve_decision. Defined.

(** What a device holds: its device in sysfs, the hardware, the node of its attribute
    [state]; whether it has taken a reference of the module ([is_module_locked]); its two
    work items; its connection; the strings allocated; whether the card was stopped. *)
Record resources := Res {
  r_device : bool; r_hw : bool; r_node : bool; r_locked : bool;
  r_scif : work_item; r_flow : work_item; r_epd : option Z;
  r_config : list config_string; r_stopped : bool;
}.

Definition res0 : resources := Res false false false false WkIdle WkIdle None [] false.

Definition set_device (b : bool) (r : resources) : resources :=
  Res b (r_hw r) (r_node r) (r_locked r) (r_scif r) (r_flow r) (r_epd r) (r_config r) (r_stopped r).
Definition set_hw (b : bool) (r : resources) : resources :=
  Res (r_device r) b (r_node r) (r_locked r) (r_scif r) (r_flow r) (r_epd r) (r_config r) (r_stopped r).
Definition set_node (b : bool) (r : resources) : resources :=
  Res (r_device r) (r_hw r) b (r_locked r) (r_scif r) (r_flow r) (r_epd r) (r_config r) (r_stopped r).
Definition set_mlock (b : bool) (r : resources) : resources :=
  Res (r_device r) (r_hw r) (r_node r) b (r_scif r) (r_flow r) (r_epd r) (r_config r) (r_stopped r).
Definition set_scif (k : work_item) (e : option Z) (r : resources) : resources :=
  Res (r_device r) (r_hw r) (r_node r) (r_locked r) k (r_flow r) e (r_config r) (r_stopped r).
Definition set_flow (k : work_item) (r : resources) : resources :=
  Res (r_device r) (r_hw r) (r_node r) (r_locked r) (r_scif r) k (r_epd r) (r_config r) (r_stopped r).
Definition set_config (l : list config_string) (r : resources) : resources :=
  Res (r_device r) (r_hw r) (r_node r) (r_locked r) (r_scif r) (r_flow r) (r_epd r) l (r_stopped r).
Definition cosm_stop (r : resources) : resources :=
  Res (r_device r) (r_hw r) (r_node r) (r_locked r) (r_scif r) (r_flow r) (r_epd r) (r_config r) true.

(** [try_module_get] and [module_put] of the module. *)
Definition cosm_lock_module (got : bool) (s : server) (r : resources) : server * resources :=
  if negb (r_locked r) then if negb got then (s, r) else (add_ref 1 s, set_mlock true r) else (s, r).
Definition cosm_unlock_module (s : server) (r : resources) : server * resources :=
  if r_locked r then (add_ref (-1) s, set_mlock false r) else (s, r).
Definition cosm_update_module_lock (got : bool) (state : Z) (s : server) (r : resources) : server * resources :=
  if (state =? MIC_STATE_READY) || (state =? MIC_STATE_SHUTDOWN) || (state =? MIC_STATE_ERROR)
  then cosm_unlock_module s r else cosm_lock_module got s r.

(** [cosm_driver_probe]: the acquisitions and the error exits, label by label.  On success
    the reset is requested, which queues the state-flow work item; the device starts as
    [CosmFlow.probed]. *)
Definition cosm_driver_probe (a : answers) (s : server) : option (Z * server * resources) :=
  let scif_exit rc s r := option_map (λ s, (rc, s, r)) (put_dev a s) in
  let device_exit rc s r := scif_exit rc s (set_device false r) in
  let hw_ops_exit rc s r := device_exit rc s (set_hw false r) in
  let r := res0 in
  let s := add_dev 1 s in
  let '(rc, s) := if g_num_dev s =? 1 then cosm_scif_init a s else (0, s) in
  if negb (rc =? 0) then scif_exit rc s r
  else if negb (a_device_create a =? 0) then scif_exit (a_device_create a) s r
  else
    let r := set_device true r in
    if negb (a_dev_init a =? 0) then device_exit (a_dev_init a) s r
    else
      let r := set_hw true r in
      if negb (a_node a) then hw_ops_exit (- ENODEV) s r
      else
        let r := set_mlock false (set_node true r) in
        let '(s, r) := cosm_lock_module (a_module a) s r in
        Some (0, s, set_flow WkQueued r).

(** [cancel_work_sync] drops an item that is queued and waits for one that runs: the item
    of a connection ends by closing the endpoint, the state flow by a last switch of the
    state. *)
Definition cancel_scif_work (r : resources) : resources :=
  match r_scif r with
  | WkRunning => set_scif WkIdle None r
  | _ => set_scif WkIdle (r_epd r) r
  end.
Definition cancel_state_flow (a : answers) (s : server) (r : resources) : server * resources :=
  match r_flow r, a_flow a with
  | WkRunning, Some state =>
      let '(s, r) := cosm_update_module_lock (a_module a) state s r in (s, set_flow WkIdle r)
  | _, _ => (s, set_flow WkIdle r)
  end.

Definition kfree_string (c : config_string) (r : resources) : resources :=
  set_config (filter (λ x, x ≠ c) (r_config r)) r.

Definition cosm_driver_remove (a : answers) (s : server) (r : resources) : option (server * resources) :=
  let r := set_hw false r in
  let r := set_node false r in
  let r := set_device false r in
  let r := cosm_stop r in
  let r := cancel_scif_work r in
  let '(s, r) := cancel_state_flow a s r in
  s ← put_dev a s;
  let r := kfree_string efi_image r in
  let r := kfree_string kernel_image r in
  let r := kfree_string kernel_cmdline r in
  let r := kfree_string initramfs_image r in
  Some (s, r).

(** What happens to a device between its probe and its removal: a connection is accepted
    and served, the state flow is queued, runs, switches states and ends, strings are
    stored. *)
Inductive use :=
| UseAccept (e : Z) | UseServe | UseHangup | UseFlow (k : work_item) | UseSwitch (got : bool) (state : Z)
| UseStore (c : config_string).

Definition use_device (u : use) (s : server) (r : resources) : server * resources :=
  match u with
  | UseAccept e => match r_scif r, r_epd r with WkIdle, None => (s, set_scif WkQueued (Some e) r) | _, _ => (s, r) end
  | UseServe => match r_scif r with WkQueued => (s, set_scif WkRunning (r_epd r) r) | _ => (s, r) end
  | UseHangup => match r_scif r with WkRunning => (s, set_scif WkIdle None r) | _ => (s, r) end
  | UseFlow k => (s, set_flow k r)
  | UseSwitch got state => cosm_update_module_lock got state s r
  | UseStore c => (s, set_config (c :: filter (λ x, x ≠ c) (r_config r)) r)
  end.

(** The devices present, newest first, and those removed. *)
Inductive event := Probe (a : answers) | Use (k : nat) (u : use) | Remove (k : nat) (a : answers).

Record host := Host { h_server : server; h_devs : list resources; h_gone : list resources }.

Definition run_event (st : option host) (e : event) : option host :=
  h ← st;
  match e with
  | Probe a =>
      '(rc, s, r) ← cosm_driver_probe a (h_server h);
      Some (if rc =? 0 then Host s (r :: h_devs h) (h_gone h) else Host s (h_devs h) (h_gone h))
  | Use k u =>
      match h_devs h !! k with
      | Some r => let '(s, r) := use_device u (h_server h) r in Some (Host s (<[k := r]> (h_devs h)) (h_gone h))
      | None => st
      end
  | Remove k a =>
      match h_devs h !! k with
      | Some r => '(s, r) ← cosm_driver_remove a (h_server h) r; Some (Host s (delete k (h_devs h)) (r :: h_gone h))
      | None => st
      end
  end.

Definition server0 : server := Server false ThreadNull 0 0.
Definition run_events (es : list event) : option host := foldl run_event (Some (Host server0 [] [])) es.

(** The kernel lets the server open its listening endpoint and stop its thread. *)
Definition answers_ok (a : answers) : Prop := a_open a = true ∧ 0 <= a_bind a ∧ 0 <= a_listen a ∧ a_sig a = 0.
Definition answer_ok (e : event) : Prop :=
  match e with Probe a | Remove _ a => answers_ok a | Use _ _ => True end.

(** The references of the module that [rs] have taken. *)
Definition locks (rs : list resources) : Z := zlen (filter (λ r, r_locked r = true) rs).

(** A device that is there, and one that is gone. *)
Definition held (r : resources) : Prop := r_device r = true ∧ r_hw r = true ∧ r_node r = true ∧
  (r_scif r = WkIdle ↔ r_epd r = None).
Definition released (r : resources) : Prop := r_device r = false ∧ r_hw r = false ∧ r_node r = false ∧
  r_scif r = WkIdle ∧ r_flow r = WkIdle ∧ r_config r = [] ∧ r_stopped r = true.

Definition server_inv (s : server) (n refs : Z) : Prop :=
  g_num_dev s = n ∧ (listen_epd s = true ↔ 0 < n) ∧ (server_thread s = ThreadLive ↔ 0 < n) ∧ module_refs s = refs.

Definition host_inv (h : host) : Prop :=
  server_inv (h_server h) (zlen (h_devs h)) (locks (h_devs h ++ h_gone h)) ∧
  Forall held (h_devs h) ∧ Forall released (h_gone h).

Lemma locks_cons r rs : locks (r :: rs) = locks rs + if r_locked r then 1 else 0.
Proof.
  unfold locks. destruct (r_locked r) eqn:E.
  - rewrite filter_cons_True, zlen_cons by done. lia.
  - rewrite filter_cons_False by (by rewrite E). lia.
Qed.

Lemma locks_perm rs rs' : rs ≡ₚ rs' → locks rs = locks rs'.
Proof. intros Hp. unfold locks, zlen. by rewrite Hp. Qed.

(** Giving up the last reference stops a running server. *)
Lemma put_dev_spec a s n : a_sig a = 0 → g_num_dev s = n + 1 → 0 <= n →
  (server_thread s = ThreadFreed → 0 < n) →
  (0 < n → listen_epd s = true ∧ server_thread s = ThreadLive) →
  ∃ s', put_dev a s = Some s' ∧ server_inv s' n (module_refs s).
Proof.
  intros Hsig Hg Hn Hf Hl. unfold put_dev. cbn. rewrite Hg. replace (n + 1 + -1) with n by lia.
  destruct (Z.eqb_spec n 0) as [-> |Hne].
  - unfold cosm_scif_exit. cbn. destruct (server_thread s) eqn:Ht; rewrite ?Hsig; cbn.
    1, 2, 3: eexists; split; [done|]; unfold server_inv; cbn; rewrite ?Ht, ?Hg; split_and!; [lia|done|done|done].
    exfalso. specialize (Hf eq_refl). lia.
  - eexists; split; [done|]. unfold server_inv. cbn. destruct (Hl ltac:(lia)) as [-> ->]. rewrite Hg. split_and!; [lia|..|done]; split; auto with lia.
Qed.

(** Starting the server for the first device. *)
Lemma scif_init_ok a s : a_open a = true → 0 <= a_bind a → 0 <= a_listen a →
  ∃ rc s', cosm_scif_init a s = (rc, s') ∧ g_num_dev s' = g_num_dev s ∧ module_refs s' = module_refs s ∧
    server_thread s' ≠ ThreadFreed ∧
    (rc = 0 → listen_epd s' = true ∧ server_thread s' = ThreadLive).
Proof.
  intros Ho Hb Hl. unfold cosm_scif_init, cosm_scif_listen. rewrite Ho. cbn.
  assert (a_bind a <? 0 = false) as -> by lia. assert (a_listen a <? 0 = false) as -> by lia. cbn.
  destruct (Z.eqb_spec (a_thread a) 0); cbn; do 2 eexists; (split; [done|]); cbn; auto.
  by split_and!.
Qed.

Lemma probe_inv a s n refs : answers_ok a → 0 <= n → server_inv s n refs →
  ∃ rc s' r, cosm_driver_probe a s = Some (rc, s', r) ∧
    (if rc =? 0 then server_inv s' (n + 1) (refs + if r_locked r then 1 else 0) ∧ held r ∧
       r_flow r = WkQueued ∧ r_locked r = a_module a
     else server_inv s' n refs ∧ r = res0).
Proof.
  intros (Ho & Hb & Hl & Hsig) H0 (Hn & Hli & Hth & Hrefs). unfold cosm_driver_probe.
  set (s1 := add_dev 1 s). assert (g_num_dev s1 = n + 1) as Eg by (cbn; lia).
  assert (∃ rc s2, (if g_num_dev s1 =? 1 then cosm_scif_init a s1 else (0, s1)) = (rc, s2) ∧
    g_num_dev s2 = n + 1 ∧ module_refs s2 = refs ∧
    (server_thread s2 = ThreadFreed → 0 < n) ∧
    (0 < n → listen_epd s2 = true ∧ server_thread s2 = ThreadLive) ∧
    (rc = 0 → listen_epd s2 = true ∧ server_thread s2 = ThreadLive)) as (rc & s2 & -> & Hg & Hr2 & Hf & Hpos & Hok).
  { rewrite Eg. destruct (Z.eqb_spec (n + 1) 1) as [E|E].
    - destruct (scif_init_ok a s1 Ho Hb Hl) as (rc & s2 & -> & Hg & Hm & Hnf & Hok).
      exists rc, s2. split_and!; [done|congruence|by rewrite Hm|done|intros; lia|by apply Hok..].
    - assert (0 < n) as Hp by lia. exists 0, s1. cbn. rewrite (proj2 Hli Hp), (proj2 Hth Hp). split_and!; auto; lia. }
  destruct (put_dev_spec a s2 n Hsig Hg H0 Hf Hpos) as (s3 & -> & H3). rewrite Hr2 in H3.
  destruct (Z.eqb_spec rc 0) as [-> |Hrc]; cbn.
  2:{ exists rc, s3, res0. split; [done|]. by destruct (Z.eqb_spec rc 0). }
  destruct (Z.eqb_spec (a_device_create a) 0) as [_ |Hdc]; cbn.
  2:{ do 3 eexists. split; [done|]. by destruct (Z.eqb_spec (a_device_create a) 0). }
  destruct (Z.eqb_spec (a_dev_init a) 0) as [_ |Hdi]; cbn.
  2:{ do 3 eexists. split; [done|]. by destruct (Z.eqb_spec (a_dev_init a) 0). }
  destruct (a_node a); cbn; [|do 3 eexists; split; [done|]; by split].
  destruct (Hok eq_refl) as [Hl2 Ht2].
  destruct (a_module a); cbn; do 3 eexists; (split; [done|]); unfold server_inv, held; cbn; rewrite Hl2, Ht2, Hg, Hr2;
    split_and!; try done; lia || (split; [lia|done]).
Qed.

(** Waiting for the state flow keeps the count of references with the flag of the device. *)
Lemma update_lock_spec got state s r s' r' : cosm_update_module_lock got state s r = (s', r') →
  r' = set_mlock (r_locked r') r ∧ listen_epd s' = listen_epd s ∧ server_thread s' = server_thread s ∧
  g_num_dev s' = g_num_dev s ∧
  module_refs s' - (if r_locked r' then 1 else 0) = module_refs s - (if r_locked r then 1 else 0).
Proof.
  unfold cosm_update_module_lock, cosm_unlock_module, cosm_lock_module.
  destruct (_ || _ || _), (r_locked r) eqn:El, got; intros [= <- <-]; rewrite ?El; cbn; split_and!; try done; try lia;
    rewrite <- El; by destruct r.
Qed.

(** What a removal leaves of the reference of the module and of the connection. *)
Definition locked_after (a : answers) (r : resources) : bool :=
  r_locked (snd (cancel_state_flow a server0 r)).
Definition epd_after (r : resources) : option Z := match r_scif r with WkQueued => r_epd r | _ => None end.

Lemma cancel_flow_spec a s r s' r' : cancel_state_flow a s r = (s', r') →
  r' = set_flow WkIdle (set_mlock (locked_after a r) r) ∧ listen_epd s' = listen_epd s ∧
  server_thread s' = server_thread s ∧ g_num_dev s' = g_num_dev s ∧
  module_refs s' - (if locked_after a r then 1 else 0) = module_refs s - (if r_locked r then 1 else 0).
Proof.
  unfold locked_after, cancel_state_flow.
  assert (set_flow WkIdle r = set_flow WkIdle (set_mlock (r_locked r) r)) as Er by (by destruct r).
  destruct (r_flow r), (a_flow a) as [state|]; try (intros [= <- <-]; cbn; by rewrite <- Er).
  destruct (cosm_update_module_lock (a_module a) state server0 r) as [s0 r0] eqn:E0.
  destruct (cosm_update_module_lock (a_module a) state s r) as [s1 r1] eqn:E1. intros [= <- <-]. cbn.
  assert (r0 = r1) as ->.
  { revert E0 E1. unfold cosm_update_module_lock, cosm_unlock_module, cosm_lock_module. repeat case_match; congruence. }
  destruct (update_lock_spec _ _ _ _ _ _ E1) as (Hr & ? & ? & ? & ?). split_and!; try done. by rewrite Hr at 1.
Qed.

Lemma kfree_all (l : list config_string) :
  filter (λ x, x ≠ initramfs_image) (filter (λ x, x ≠ kernel_cmdline)
    (filter (λ x, x ≠ kernel_image) (filter (λ x, x ≠ efi_image) l))) = [].
Proof.
  destruct (filter _ (filter _ _)) as [|c k] eqn:E; [done|]. exfalso.
  assert (c ∈ c :: k) as Hc by by left. rewrite <- E in Hc. rewrite !list_elem_of_filter in Hc. by destruct c; naive_solver.
Qed.

Lemma remove_inv a s r n refs : answers_ok a → 0 <= n → held r → server_inv s (n + 1) (refs + if r_locked r then 1 else 0) →
  ∃ s' r', cosm_driver_remove a s r = Some (s', r') ∧ released r' ∧
    r_locked r' = locked_after a r ∧ r_epd r' = epd_after r ∧
    server_inv s' n (refs + if locked_after a r then 1 else 0).
Proof.
  intros (Ho & Hb & Hl & Hsig) H0 (_ & _ & _ & Hepd) (Hn & Hli & Hth & Hrefs). unfold cosm_driver_remove.
  set (r1 := cosm_stop _). set (r2 := cancel_scif_work r1).
  assert (locked_after a r2 = locked_after a r ∧ r_locked r2 = r_locked r) as [El Er].
  { unfold r2, cancel_scif_work, locked_after, cancel_state_flow. destruct (r_scif r1); cbn; (split; [|done]);
      destruct (r_flow r), (a_flow a); try done; unfold cosm_update_module_lock, cosm_unlock_module, cosm_lock_module;
      cbn; by destruct (_ || _ || _), (r_locked r), (a_module a). }
  destruct (cancel_state_flow a s r2) as [s1 r3] eqn:E.
  destruct (cancel_flow_spec _ _ _ _ _ E) as (-> & E1 & E2 & E3 & E4). rewrite El, Er in E4.
  destruct (put_dev_spec a s1 n Hsig) as (s' & Hp & Hinv); [congruence|done|rewrite E2; rewrite (proj2 Hth) by lia; done| |].
  { intros _. rewrite E1, E2. split; [apply Hli|apply Hth]; lia. }
  rewrite Hp. cbn [mbind option_bind]. do 2 eexists. split; [done|]. split_and!.
  - unfold released. cbn. rewrite kfree_all. unfold r2, cancel_scif_work. by destruct (r_scif r1).
  - cbn. done.
  - unfold epd_after. cbn. unfold r2, cancel_scif_work. cbn. destruct (r_scif r); cbn; [|done|done]. by apply Hepd.
  - replace (refs + (if locked_after a r then 1 else 0)) with (module_refs s1) by lia. done.
Qed.

Lemma use_inv u s r n refs s' r' : held r → server_inv s n (refs + if r_locked r then 1 else 0) →
  use_device u s r = (s', r') → held r' ∧ server_inv s' n (refs + if r_locked r' then 1 else 0).
Proof.
  intros Hh Hs E. destruct u; cbn in E.
  5: { destruct (update_lock_spec _ _ _ _ _ _ E) as (-> & E1 & E2 & E3 & E4). destruct Hs as (H1 & H2 & H3 & H4).
       split; [done|]. unfold server_inv. rewrite E1, E2, E3. cbn in *. split_and!; [lia|done|done|lia]. }
  all: destruct Hh as (H1 & H2 & H3 & H4).
  4, 5: by simplify_eq.
  all: destruct (r_scif r) eqn:Es; [destruct (r_epd r) eqn:Ee|..]; simplify_eq; (split; [|done]); unfold held; cbn; rewrite ?Es, ?Ee; naive_solver.
Qed.

Lemma run_event_inv h e : answer_ok e → host_inv h → ∃ h', run_event (Some h) e = Some h' ∧ host_inv h'.
Proof.
  intros He (Hs & Hh & Hg). destruct h as [s rs gone]. cbn in *. pose proof (zlen_nonneg rs) as H0. destruct e as [a|k u|k a]; cbn.
  - destruct (probe_inv a s _ _ He H0 Hs) as (rc & s' & r & -> & Hc). cbn.
    destruct (rc =? 0); eexists; (split; [done|]); [|by destruct Hc]. destruct Hc as (Hs' & Hr & _). split_and!; cbn; [|by constructor|done].
    by rewrite zlen_cons, locks_cons.
  - destruct (rs !! k) as [r|] eqn:Er; [|by eexists]. destruct (use_device u s r) as [s' r'] eqn:E. eexists. split; [done|].
    pose proof (delete_Permutation _ _ _ Er) as Hp.
    assert (<[k := r']> rs ≡ₚ r' :: delete k rs) as Hp'.
    { rewrite insert_take_drop, delete_take_drop by (by eapply lookup_lt_Some). by rewrite Permutation_middle. }
    rewrite (locks_perm _ (r :: delete k rs ++ gone)) in Hs by (by rewrite Hp at 1). rewrite locks_cons in Hs.
    destruct (use_inv u s r _ _ s' r' (Forall_lookup_1 _ _ _ _ Hh Er) Hs E) as [Hr' Hs']. split_and!; cbn; [| |done].
    + rewrite (locks_perm _ (r' :: delete k rs ++ gone)) by (by rewrite Hp'). rewrite locks_cons.
      unfold zlen. by rewrite length_insert.
    + by apply Forall_insert.
  - destruct (rs !! k) as [r|] eqn:Er; [|by eexists]. pose proof (delete_Permutation _ _ _ Er) as Hp.
    rewrite (locks_perm _ (r :: delete k rs ++ gone)) in Hs by (by rewrite Hp at 1).
    assert (zlen rs = zlen (delete k rs) + 1) as El by (unfold zlen; rewrite Hp at 1; cbn [length]; lia).
    rewrite locks_cons, El in Hs.
    destruct (remove_inv a s r _ _ He (zlen_nonneg _) (Forall_lookup_1 _ _ _ _ Hh Er) Hs) as (s' & r' & -> & Hrel & Elk & _ & Hs').
    eexists. split; [done|]. split_and!; cbn; [| |by constructor].
    + rewrite (locks_perm _ (r' :: delete k rs ++ gone)) by (by rewrite Permutation_middle). by rewrite locks_cons, Elk.
    + by apply Forall_delete.
Qed.

(** C25: Over any sequence of probes, uses and removals of devices, as long as the kernel
    lets the listening endpoint be opened, bound and listened on and the thread be
    signalled, the server listens and its thread runs exactly while a device is present,
    the device count is the number of devices, and each device holds its sysfs device,
    node and hardware.  A failed probe has released everything it took.  A removal gives
    back the hardware, the node, the device, the strings of the configuration and both
    work items, and stops the card; two things it does not give back: the reference of
    the module, if the device has it when its state flow has ended, so that the count of
    references is that of the devices present and of those removed while they had one;
    and the endpoint of a connection that waits for its work item.  Without the condition,
    a probe whose endpoint cannot be bound signals the thread stopped before it. *)
Theorem cosm_server_lifetime es : Forall answer_ok es →
  (∃ s rs gone, run_events es = Some (Host s rs gone) ∧
    server_inv s (zlen rs) (locks (rs ++ gone)) ∧ Forall held rs ∧ Forall released gone ∧
    (∀ a, answers_ok a → ∃ rc s' r, cosm_driver_probe a s = Some (rc, s', r) ∧
       (rc ≠ 0 → server_inv s' (zlen rs) (locks (rs ++ gone)) ∧ r = res0) ∧
       (rc = 0 → server_inv s' (zlen rs + 1) (locks (r :: rs ++ gone)) ∧ held r ∧ r_locked r = a_module a)) ∧
    (∀ a k r, answers_ok a → rs !! k = Some r →
       ∃ s' r', cosm_driver_remove a s r = Some (s', r') ∧ released r' ∧
         r_locked r' = locked_after a r ∧ r_epd r' = epd_after r ∧
         server_inv s' (zlen rs - 1) (locks (delete k rs ++ r' :: gone)))) ∧
  ∃ a b c, answers_ok a ∧ answers_ok b ∧ run_events [Probe a; Remove 0 b; Probe c] = None.
Proof.
  intros Hes. split.
  - assert (∃ h, run_events es = Some h ∧ host_inv h) as ([s rs gone] & Hr & Hs & Hh & Hg).
    { unfold run_events. assert (host_inv (Host server0 [] [])) as Hi by (by split_and!; constructor).
      revert Hi. generalize (Host server0 [] []).
      induction Hes as [|e es He Hes IH]; intros h Hi; [by eexists|].
      destruct (run_event_inv h e He Hi) as (h' & E & Hi'). cbn [foldl]. rewrite E. by apply IH. }
    exists s, rs, gone. cbn in *. split_and!; [done..| |].
    + intros a Ha. destruct (probe_inv a s _ _ Ha (zlen_nonneg _) Hs) as (rc & s' & r & E & Hi').
      exists rc, s', r. split; [done|]. destruct (Z.eqb_spec rc 0); [split; [done|]|split; [by auto|done]].
      intros _. rewrite locks_cons. naive_solver.
    + intros a k r Ha Er. pose proof (delete_Permutation _ _ _ Er) as Hp.
      rewrite (locks_perm _ (r :: delete k rs ++ gone)) in Hs by (by rewrite Hp at 1).
      assert (zlen rs = zlen (delete k rs) + 1) as El by (unfold zlen; rewrite Hp at 1; cbn [length]; lia).
      rewrite locks_cons, El in Hs.
      destruct (remove_inv a s r _ _ Ha (zlen_nonneg _) (Forall_lookup_1 _ _ _ _ Hh Er) Hs) as (s' & r' & E & Hrel & Elk & Eepd & Hs').
      exists s', r'. split_and!; [done..|]. rewrite (locks_perm _ (r' :: delete k rs ++ gone)) by (by rewrite Permutation_middle).
      rewrite locks_cons, Elk, El. by replace (zlen (delete k rs) + 1 - 1) with (zlen (delete k rs)) by lia.
  - exists (Answers true 0 0 0 0 0 0 true true None), (Answers true 0 0 0 0 0 0 true true None),
      (Answers true (- EINVAL) 0 0 0 0 0 true true None). by split_and!.
Qed.

Definition all_good : answers := Answers true 0 0 0 0 0 0 true true None.
Definition bind_fails : answers := Answers true (- EINVAL) 0 0 0 0 0 true true None.

(** A device removed while its connection waits and its card is online, then the failed
    probe of another. *)
Definition demo_events : list event :=
  [Probe all_good; Use 0 (UseStore kernel_image); Use 0 (UseSwitch true MIC_STATE_ONLINE); Use 0 (UseAccept 77);
   Remove 0 all_good; Probe (Answers true 0 0 0 0 0 (-5) true true None)].

Lemma cosm_server_lifetime_witness : ∃ s gone,
  run_events demo_events = Some (Host s [] gone) ∧ g_num_dev s = 0 ∧ module_refs s = 1 ∧ Forall released gone ∧
  r_epd <$> gone = [Some 77].
Proof.
  destruct (cosm_server_lifetime demo_events) as [(s & rs & gone & Hr & (Hn & _ & _ & Hm) & _ & Hg & _) _].
  - repeat constructor; vm_compute; congruence.
  - assert (rs = [] ∧ locks (rs ++ gone) = 1 ∧ r_epd <$> gone = [Some 77]) as (-> & Hlk & He).
    { vm_compute in Hr. injection Hr as <- <- <-. split; [reflexivity|]. split; vm_compute; reflexivity. }
    rewrite Hlk in Hm. exists s, gone. split; [exact Hr|]. split; [exact Hn|]. split; [exact Hm|]. split; [exact Hg|exact He].
Defined.

(** When the last device is removed the pointer to the stopped server thread is
    kept, so a later probe whose listening endpoint cannot be opened sends a signal
    through it. *)
Theorem cosm_stale_server_thread :
  run_events [Probe all_good; Remove 0 all_good; Probe bind_fails] = None ∧
  (∃ h, run_events [Probe bind_fails] = Some h ∧ h_devs h = []).
Proof. split; [done|]. eexists. by split. Qed.

End CosmServer.
