(* ===== verification/CosmClient.v ===== *)
(** * Coprocessor state management: the client on the card

    Models [mpss4/mpss-modules/mic/cosm_client/cosm_scif_client.c]: the reports that it sends to
    the host, the messages that it obeys, its thread and its life from probe to removal.  The
    theorems are about what the host does with its reports ([CosmServer]), what it does with
    those of the host, and what it holds. *)
From S2P Require Import Prelude Cosm CosmServer.
Local Open Scope Z_scope.
Import Cosm CosmServer.

Module CosmClient.

Definition COSM_SCIF_MAX_RETRIES : nat := 10.
(** Events of the reboot notifier, as in the kernel's [reboot.h]. *)
Definition SYS_RESTART : Z := 1.
Definition SYS_HALT : Z := 2.
Definition SYS_POWER_OFF : Z := 3.

(** ** Reports to the host *)

(** [cosm_reboot_event], [card_panic_event], [cosm_client_send_online] and the heartbeat of the thread: what they send. *)
Definition cosm_reboot_event (event : Z) : cosm_msg :=
  Msg COSM_MSG_STATE_CHANGE
    (if event =? SYS_RESTART then MIC_STATE_RESETTING
     else if (event =? SYS_HALT) || (event =? SYS_POWER_OFF) then MIC_STATE_SHUTTING_DOWN
     else MIC_STATE_UNKNOWN).
Definition card_panic_event : cosm_msg := Msg COSM_MSG_STATE_CHANGE MIC_STATE_ERROR.
Definition cosm_client_send_online : cosm_msg := Msg COSM_MSG_STATE_CHANGE MIC_STATE_ONLINE.
Definition heartbeat : cosm_msg := Msg COSM_MSG_HEARTBEAT 0.

(** ** Messages of the host *)

Inductive action := SetTime | PowerOff | Reboot.

(** The switch of [cosm_client_recv]. *)
Definition obey (m : cosm_msg) : list action :=
  if msg_id m =? COSM_MSG_SYNC_TIME then [SetTime]
  else if msg_id m =? COSM_MSG_SHUTDOWN then [PowerOff]
  else if msg_id m =? COSM_MSG_REBOOT then [Reboot]
  else [].

(** The loop over the results of successive [scif_recv], with those that are left; [None]: it
    needs more of them. *)
Fixpoint cosm_client_recv (rs : list recv_result) : option (list action * list recv_result) :=
  match rs with
  | [] => None
  | RecvNone :: rs => Some ([], rs)
  | RecvErr _ :: rs => Some ([], rs)
  | RecvMsg m :: rs => '(a, rs) ← cosm_client_recv rs; Some (obey m ++ a, rs)
  end.

(** ** The thread *)

(** One round of [cosm_scif_client]: whether it is told to stop, the result of sending the
    heartbeat, that of [scif_poll] with [POLLIN], and the messages then available. *)
Record round := Round { r_stop : bool; r_send : Z; r_poll : Z; r_in : bool; r_recv : list recv_result }.

Definition EIO : Z := 5.

(** The messages sent and the actions; [None]: more rounds to come, or more results of [scif_recv]. *)
Fixpoint cosm_scif_client (rs : list round) : option (list cosm_msg * list action) :=
  match rs with
  | [] => None
  | r :: rs =>
      if r_stop r then Some ([], [])
      else if r_send r <? 0 then if r_send r =? - ECONNRESET then Some ([], []) else cosm_scif_client rs
      else
        '(a, _) ← (if r_poll r =? - EINTR then Some ([], []) else if r_in r then cosm_client_recv (r_recv r) else Some ([], []));
        '(ms, a') ← cosm_scif_client rs;
        Some (heartbeat :: ms, a ++ a')
  end.

(** ** The life of the client *)

(** The statics of the file, and how often each of the two notifiers is registered. *)
Record client := Client {
  client_epd : bool; client_thread : thread_ptr; reboot_nb : Z; panic_nb : Z; connected : bool; status_triggered : bool }.

(** What the kernel answers to one probe. *)
Record answers := Answers { a_open : bool; a_connect : list Z; a_reboot : Z; a_panic : Z; a_thread : Z }.

(** The loop of [cosm_scif_connect]; [err]: the error so far. *)
Fixpoint connect_tries (n : nat) (rcs : list Z) (err : Z) : Z :=
  match n with
  | O => err
  | S n => let err := default 0 (head rcs) in if err =? 0 then 0 else connect_tries n (tail rcs) err
  end.

#[global] Arguments connect_tries : simpl never.

Definition set_epd (b : bool) (c : client) : client :=
  Client b (client_thread c) (reboot_nb c) (panic_nb c) (connected c) (status_triggered c).

Definition cosm_scif_connect (a : answers) (c : client) : Z * client :=
  if client_epd c then (- EBUSY, c)
  else if negb (a_open a) then (- ENOMEM, c)
  else
    let err := connect_tries COSM_SCIF_MAX_RETRIES (a_connect a) 0 in
    if err =? 0 then (0, Client true (client_thread c) (reboot_nb c) (panic_nb c) true (status_triggered c))
    else (err, set_epd false c).

Definition cosm_scif_connect_exit (c : client) : client := if client_epd c then set_epd false c else c.

Definition add_nb (r p : Z) (c : client) : client :=
  Client (client_epd c) (client_thread c) (reboot_nb c + r) (panic_nb c + p) (connected c) (status_triggered c).
Definition set_thread (t : thread_ptr) (c : client) : client :=
  Client (client_epd c) t (reboot_nb c) (panic_nb c) (connected c) (status_triggered c).
(** A notifier that is not registered is not unregistered. *)
Definition unregister_panic (c : client) : client := if 0 <? panic_nb c then add_nb 0 (-1) c else c.
Definition unregister_reboot (c : client) : client := if 0 <? reboot_nb c then add_nb (-1) 0 c else c.

Definition cosm_scif_probe (dnode : Z) (a : answers) (c : client) : client :=
  if negb (dnode =? 0) then c
  else
    let '(rc, c) := cosm_scif_connect a c in
    if negb (rc =? 0) then c
    else if negb (a_reboot a =? 0) then cosm_scif_connect_exit c
    else
      let c := add_nb 1 0 c in
      if negb (a_panic a =? 0) then cosm_scif_connect_exit (unregister_reboot c)
      else
        let c := add_nb 0 1 c in
        if negb (a_thread a =? 0) then cosm_scif_connect_exit (unregister_reboot (unregister_panic (set_thread ThreadErr c)))
        else set_thread ThreadLive c.

(** [None]: a signal is sent to a thread that has been freed. *)
Definition cosm_scif_remove (dnode sig : Z) (c : client) : option client :=
  if negb (dnode =? 0) then Some c
  else match client_thread c with
       | ThreadFreed => None
       | ThreadNull | ThreadErr => Some (cosm_scif_connect_exit (unregister_reboot (unregister_panic c)))
       | ThreadLive =>
           if negb (sig =? 0) then Some c
           else Some (cosm_scif_connect_exit (unregister_reboot (unregister_panic (set_thread ThreadFreed c))))
       end.

(** [cosm_client_status_store]: [seen] is whether [connected] is found set at each look, [rc] the
    result of the send.  The value, what is sent, and the client. *)
Definition cosm_client_status_store (buf : string) (count : Z) (seen : list bool) (rc : Z) (c : client) : Z * list cosm_msg * client :=
  if negb (sysfs_streq buf "online") then (- EINVAL, [], c)
  else if status_triggered c then (count, [], c)
  else
    let c := Client (client_epd c) (client_thread c) (reboot_nb c) (panic_nb c) (connected c) true in
    if negb (existsb (fun b => b) (take (S COSM_SCIF_MAX_RETRIES) seen)) then (- ENODEV, [], c)
    else if rc <? 0 then (- EIO, [], c)
    else (count, [cosm_client_send_online], c).

(** Events: the thread may also end by itself, when the connection is reset. *)
Inductive event := Probe (dnode : Z) (a : answers) | Remove (dnode sig : Z) | ThreadEnds.

Definition run_event (c : option client) (e : event) : option client :=
  c ← c;
  match e with
  | Probe n a => Some (cosm_scif_probe n a c)
  | Remove n sig => cosm_scif_remove n sig c
  | ThreadEnds => Some (match client_thread c with ThreadLive => set_thread ThreadFreed c | _ => c end)
  end.

Definition client0 : client := Client false ThreadNull 0 0 false false.
Definition run_events (es : list event) : option client := foldl run_event (Some client0) es.

(** ** What the client holds *)

(** All of the connection, both notifiers and a thread, or nothing. *)
Definition whole (c : client) : Prop :=
  if client_epd c then reboot_nb c = 1 ∧ panic_nb c = 1 ∧ (client_thread c = ThreadLive ∨ client_thread c = ThreadFreed)
  else reboot_nb c = 0 ∧ panic_nb c = 0 ∧ client_thread c ≠ ThreadLive.

Lemma probe_whole n a c : whole c → whole (cosm_scif_probe n a c).
Proof.
  unfold cosm_scif_probe. destruct (negb (n =? 0)); [done|]. unfold cosm_scif_connect. destruct c as [e t r p k st]. unfold whole at 1. cbn [client_epd].
  destruct e; cbn; [done|]. intros (-> & -> & Ht). destruct (a_open a); [|done]. cbn [negb].
  destruct (connect_tries COSM_SCIF_MAX_RETRIES (a_connect a) 0 =? 0) eqn:E; cbn; [|by rewrite E].
  destruct (a_reboot a =? 0); [|done]. destruct (a_panic a =? 0); [|done]. destruct (a_thread a =? 0); [|done]. cbn. by split_and!; [..|left].
Qed.

Lemma remove_whole n sig c c' : whole c → cosm_scif_remove n sig c = Some c' → whole c'.
Proof.
  unfold cosm_scif_remove. destruct (negb (n =? 0)); [by intros ? [= <-]|]. destruct c as [e t r p k st]. unfold whole at 1. cbn [client_epd client_thread reboot_nb panic_nb].
  destruct e; intros (Hr & Hp & Ht); cbn in Hr, Hp, Ht; subst; destruct t; cbn; try (destruct (sig =? 0); cbn); intros H; try done; injection H as <-; unfold whole; cbn; split_and!; auto; congruence.
Qed.

(** Whatever happens to the host and to the client's thread, the client holds everything or nothing, and only a thread
    that is gone can be in the way of what follows. *)
Theorem cosm_client_all_or_nothing es c : run_events es = Some c → whole c.
Proof.
  unfold run_events. assert (∀ c0 c1, whole c0 → foldl run_event (Some c0) es = Some c1 → whole c1) as H; [|by apply H].
  induction es as [|e es IH]; intros c0 c1 H0; cbn; [by intros [= <-]|]. destruct e as [n a|n sig|]; cbn [run_event mbind option_bind].
  - apply IH. by apply probe_whole.
  - destruct (cosm_scif_remove n sig c0) as [c2|] eqn:E; cbn.
    + apply IH. by eapply remove_whole.
    + clear. induction es; done.
  - apply IH. destruct c0 as [e t r p k st]. unfold whole in *. cbn in *. destruct t; cbn; try done. destruct e; naive_solver.
Qed.

Definition good : answers := Answers true [] 0 0 0.
Definition no_host : answers := Answers true (replicate 10 (- ENODEV)) 0 0 0.

(** A removal keeps the pointer to the thread, and so does a thread that ends: the next removal signals through it. *)
Theorem cosm_client_stale_thread :
  run_events [Probe 0 good; Remove 0 0; Probe 0 no_host; Remove 0 0] = None ∧ run_events [Probe 0 good; ThreadEnds; Remove 0 0] = None.
Proof. by split. Qed.

(** Being online is reported once at most, and a report that fails is not made up for. *)
Theorem cosm_client_online_lost buf count seen rc c seen' rc' : sysfs_streq buf "online" = true → status_triggered c = false →
  let '(ret, sent, c') := cosm_client_status_store buf count seen rc c in
  ret < 0 → 0 <= count → sent = [] ∧ cosm_client_status_store buf count seen' rc' c' = (count, [], c').
Proof.
  intros Hb Ht. unfold cosm_client_status_store at 1. rewrite Hb, Ht. cbn [negb].
  destruct (negb _); [|destruct (rc <? 0)]; intros H0 Hc; try lia; (split; [done|]); unfold cosm_client_status_store; by rewrite Hb.
Qed.

(** ** Card and host *)

(** What happens on the card, and what the host should do about it. *)
Inductive occurrence := Online | Beat | Restart | PowerDown (halt : bool) | Panic.

Definition report (o : occurrence) : cosm_msg :=
  match o with
  | Online => cosm_client_send_online
  | Beat => heartbeat
  | Restart => cosm_reboot_event SYS_RESTART
  | PowerDown halt => cosm_reboot_event (if halt then SYS_HALT else SYS_POWER_OFF)
  | Panic => card_panic_event
  end.

Definition expected (o : occurrence) : list effect :=
  match o with
  | Online => [ReceivedOnline]
  | Beat => []
  | Restart => [SetCommand MIC_CMD_RESET_FROM_CARD]
  | PowerDown _ => [SetCommand MIC_CMD_SHUTDOWN_FROM_CARD]
  | Panic => [SetCommand MIC_CMD_HANDLE_PANIC]
  end.

Lemma report_ok o : msg_ok (report o).
Proof. destruct o as [| | |[]|]; intros _; vm_compute; split; discriminate. Qed.

Lemma report_expected o : msg_effect (report o) = expected o.
Proof. by destruct o as [| | |[]|]. Qed.

Lemma reports_expected os : (report <$> os) ≫= msg_effect = os ≫= expected.
Proof. induction os as [|o os IH]; cbn; [done|]. by rewrite report_expected, IH. Qed.

Lemma panic_first os : match list_find (fun m => msg_state m = MIC_STATE_ERROR) (report <$> os) with
  | None => Panic ∉ os
  | Some (k, _) => ∃ os1 os2, os = os1 ++ Panic :: os2 ∧ Panic ∉ os1 ∧ k = length os1
  end.
Proof.
  induction os as [|o os IH]; cbn; [set_solver|]. destruct (decide (msg_state (report o) = MIC_STATE_ERROR)) as [E|E].
  - exists [], os. split_and!; [|set_solver|done]. by destruct o as [| | |[]|].
  - destruct (list_find _ _) as [[k m]|]; cbn.
    + destruct IH as (os1 & os2 & -> & Hn & ->). exists (o :: os1), os2. split_and!; [done| |done]. intros [<-|H]%elem_of_cons; [by apply E|done].
    + intros [<-|H]%elem_of_cons; [by apply E|done].
Qed.

Lemma split_first {A} (x : A) l1 : ∀ l1' l2 l2', l1 ++ x :: l2 = l1' ++ x :: l2' → x ∉ l1 → x ∉ l1' → l1 = l1' ∧ l2 = l2'.
Proof.
  induction l1 as [|y l1 IH]; intros [|y' l1'] l2 l2' E H1 H2; cbn in E; simplify_eq; [done|set_solver|set_solver|].
  destruct (IH l1' l2 l2') as [-> ->]; [by simplify_eq|set_solver..|done].
Qed.

(** C28: The host does, in order, what each report of the card asks for: it notes that the card is online, resets or
    shuts down a card that does so itself, and handles a panic, with which the connection ends. *)
Theorem cosm_card_reports_reach_host os rest :
  (Panic ∉ os → cosm_scif_recv (map RecvMsg (report <$> os) ++ RecvNone :: rest) = Some (Some (0, os ≫= expected, rest))) ∧
  (∀ os1 os2, os = os1 ++ Panic :: os2 → Panic ∉ os1 →
     cosm_scif_recv (map RecvMsg (report <$> os) ++ RecvNone :: rest) =
     Some (Some (1, (os1 ≫= expected) ++ [SetCommand MIC_CMD_HANDLE_PANIC], map RecvMsg (report <$> os2) ++ RecvNone :: rest))).
Proof.
  rewrite (cosm_scif_recv_in_order (report <$> os) rest RecvNone) by (try (by left); apply Forall_fmap, Forall_true; apply report_ok).
  pose proof (panic_first os) as Hp. destruct (list_find _ _) as [[k m]|].
  - destruct Hp as (os1 & os2 & -> & Hn & ->). split; [set_solver|]. intros os1' os2' E Hn'.
    assert (os1 = os1' ∧ os2 = os2') as [<- <-].
    { by apply (split_first Panic). }
    rewrite fmap_app, fmap_cons. change (S (length os1)) with (1 + length os1)%nat.
    rewrite <- (length_fmap report os1), (Nat.add_comm 1), firstn_app_2, drop_app_add. cbn [take drop].
    rewrite bind_app, reports_expected. done.
  - split; [by rewrite reports_expected|]. intros os1 os2 -> _. set_solver.
Qed.

Lemma cosm_card_reports_reach_host_witness :
  cosm_scif_recv [RecvMsg (report Online); RecvMsg (report Beat); RecvMsg (report Panic); RecvMsg (report Beat); RecvNone] =
  Some (Some (1, [ReceivedOnline; SetCommand MIC_CMD_HANDLE_PANIC], [RecvMsg (report Beat); RecvNone])).
Proof.
  apply (proj2 (cosm_card_reports_reach_host [Online; Beat; Panic; Beat] []) [Online; Beat] [Beat] eq_refl).
  rewrite !elem_of_cons, elem_of_nil. naive_solver.
Defined.

(** The card obeys the messages of the host in order. *)
Lemma cosm_client_recv_in_order ms rest e : e = RecvNone ∨ (∃ rc, e = RecvErr rc) →
  cosm_client_recv (map RecvMsg ms ++ e :: rest) = Some (ms ≫= obey, rest).
Proof. intros He. induction ms as [|m ms IH]; cbn; [by destruct He as [->|[rc ->]]|]. by rewrite IH. Qed.

End CosmClient.
